(* ===== verification/_CoqProject ===== *)
-Q . S2P
Prelude.v
Text.v
Wire.v
Scalar.v
Kinds.v
Detail.v
Event.v
EventSpec.v
Validate.v
ValidateSpec.v
Projection.v
Table.v
Spans.v
Messages.v
Plans.v
Counters.v
Usage.v
UsageSpec.v
UsageCorrect.v
Snapshot.v
Key.v
Hub.v
HubSpec.v
Store.v
Batch.v
Writer.v
WriterSpec.v
StoreSpec.v
Query.v
QuerySpec.v
Ingress.v
IngressSpec.v
Progress.v
Files.v
Quota.v
QuotaSpec.v
Pipeline.v
PipelineSpec.v
WriterSystem.v
WriterLive.v
Budget.v
SinkQueue.v
SinkQueueSpec.v
SinkSystem.v
Summary.v
ActSchema.v
ActSchemaSpec.v
ActCompile.v
ActCompileSpec.v
ActHttp.v
ActHttpSpec.v
ActResult.v
ActResultSpec.v
ActResultSystem.v
ActRoute.v
ActRouteSpec.v
CueScope.v
CueIds.v
CueSystem.v
CueSpec.v
CueCorrect.v
CueLive.v
CueOrder.v
Order.v
Timestamp.v
Process.v
Host.v
Lease.v
Registry.v
Discovery.v
DiscoverySpec.v
Resolver.v
ResolverSpec.v
Cleanup.v
CleanupCriteria.v
CleanupSpec.v
Inventory.v
InventorySpec.v
InventoryLive.v
HostSample.v
