(* ===== verification/Prelude.v ===== *)
(** * Troupe: a verification library

    Troupe runs productions: actors that react to cues, some of them with the help
    of a language-model agent, and it records everything they do as a stream of
    diagnostic events.  This library models four parts of it and proves what
    makes them correct: the path of an event from the producer that builds it to
    the durable store, its read models, its queries and the sinks of its
    subscribers; the channel by which an agent returns the typed result of a
    turn; the cues of a production with the mailboxes and scenes they live in;
    and how the runs of a production are found, which of them a command works on,
    and which of them a cleanup may delete.

    ** The program's parts

    Paths are under [src/rust]; [core] stands for
    [crates/troupe-diagnostics-core/src], [store] and [query] for
    [crates/troupe-diagnostics-runtime/src/store] and [.../query], [registry] and
    [archive] for its siblings, [cli] for [src/application/diagnostic_cli] and
    [agent] for [crates/troupe-agent-runtime/src].

    - The event schema ([core/wire.rs], [id.rs], [time.rs], [scalar.rs],
      [kinds.rs], [detail.rs], [event.rs]) defines the data of an event and what
      its constructors and deserialisers refuse.  The reference validator
      ([core/validate.rs]) checks, event by event, that a stream is well formed.
    - The hub ([core/hub.rs]) is the only producer of sequences: under its lock it
      builds the event, encodes it, reserves room in a reserver (an interface),
      validates, commits the reservation and notifies.  The mandatory ingress
      ([store/admission.rs]) is the reserver of the durable path: a bounded ledger
      between the hub and the writer thread.
    - The writer thread ([run_writer] of [src/diagnostic_runtime/bootstrap.rs],
      [store/batch.rs], [watermark.rs], [writer.rs], [key.rs]) groups events into
      batches and commits each in one transaction, with the read model of
      everything up to it ([store/projector]).  [store/connection.rs] and the SQL
      schema say what a valid store is; [query] reads one; [store/progress.rs]
      watches the writer and [store/quota.rs] the size of its directory.
    - The sinks ([src/diagnostic_sink]) deliver events to subscribers best effort:
      every sink has a queue that evicts its oldest content events, and all sinks
      share one budget kept in an atomic word.
    - An agent returns its result by calling a tool of a local HTTP service
      ([agent/result/mod.rs]).  [agent/schema/mod.rs] compiles the Python schema of
      the result and validates what comes back; the slots of a session say which
      turn the result is for; a route is opened by a handshake of three messages.
    - A cue ([src/orchestration/mailbox.rs]) is admitted by its scene
      ([scene_context.rs]), waits in the mailbox of its actor ([actor.rs]), runs as
      an asyncio task and ends with an outcome; a scene that closes cancels its
      cues and is closed when the last one is gone.
    - A run leaves a directory, its archive, and while it lives an entry in the
      registry ([registry/model.rs], [codec.rs]) that names its owner by a process
      identity ([process_identity.rs]); whoever reads, writes or deletes the archive
      holds a lease on it ([archive/lease.rs]).  [registry/discover.rs] finds and
      classifies the runs, [revalidate.rs] looks at one again before it is used,
      [cli/resolver.rs] chooses the run of a command and [cli/cleanup_policy.rs]
      the runs that a cleanup would delete.  The other processes of the host may
      change what it answers between any two calls.

    ** The files

    A file [X] models, [XSpec], [XCorrect], [XSystem] or [XLive] proves; small
    components do both in one file.  Each file names its sources.

    - [Prelude]: [result] with the [let?] notation for the question-mark operator,
      machine-width arithmetic, byte strings, the tactics and the lemmas on lists,
      options and sums that all files share.  [Text] is the functions on [str] that
      the source uses, [Files] paths and trees of files, [Order] the order of
      strings and paths and sorting.
    - Events: [Wire], [Scalar], [Kinds], [Detail], [Event], [EventSpec].  A struct
      [S] is a record whose field [f] is [S_f] or carries the prefix of the
      record; an enum is an [Inductive] whose constructors are prefixed by its
      name; [S::new] is [S_new].
    - Streams: [Validate], and [ValidateSpec], the declarative specification of a
      well-formed stream and the refinement.
    - Read models: [Projection] states the contract [ReadModelLaws] of a read
      model and proves the projectors from it; [Table] is the reasoning on rows by
      key; [Spans], [Messages], [Plans], [Counters], [Usage] ([UsageSpec],
      [UsageCorrect]) discharge the contract; [Snapshot] is proved against it and
      against the snapshot that the events determine.
    - Durable path: [Hub], [HubSpec] (against the laws of a reserver), [Key],
      [Batch], [Ingress], [IngressSpec] (whose instance discharges those laws),
      [Pipeline], [PipelineSpec] (hub, ingress, accumulator and writer as one
      transition system).
    - Store: [Store] (tables, constraints, validation), [Writer], [WriterSpec],
      [StoreSpec], [WriterSystem], [WriterLive], [Query], [QuerySpec].
    - Supervision: [Progress]; [Quota], [QuotaSpec].
    - Sinks: [Budget], [SinkQueue], [SinkQueueSpec], [SinkSystem], [Summary].
    - Results of agents: [ActSchema], [ActSchemaSpec] (validation of a result),
      [ActCompile], [ActCompileSpec] (compilation of a schema), [ActHttp],
      [ActHttpSpec] (chunked bodies and the read limiter), [ActResult],
      [ActResultSpec], [ActResultSystem] (slots, leases, requests), [ActRoute],
      [ActRouteSpec] (messages, headers, routes and connections).
    - Cues: [CueScope] (operations, mailboxes, scenes), [CueIds], [CueSystem]
      (calls in progress and actions as steps), [CueSpec] (the invariant),
      [CueCorrect], [CueLive], [CueOrder].
    - Runs of a production: [Process]; [Host] (the monad [Sys] of numbered calls
      and the class [Os] of what they return); [Lease]; [Registry] (entries, their
      codec, and the class [RegistryHost]); [Discovery], [DiscoverySpec];
      [Resolver], [ResolverSpec]; [Timestamp] (with the Gregorian calendar);
      [Cleanup], [CleanupCriteria], [CleanupSpec] (the policies, their criteria and
      that they agree); [Inventory], [InventorySpec], [InventoryLive] (the inspection and
      the preview); [HostSample] (a host with two runs).

    ** What the theorems show

    - Durable path: in every interleaving of producers and writer the store is a
      prefix of the accepted events, densely numbered and valid; a batch is stored
      with its read model and watermark entirely or not at all, whatever statement
      or commit fails; the transactional writer refines the writer of the
      pipeline; a run is finalised once; a store can be reopened after any
      history; no constraint of the schema refuses what the writer inserts; and
      from every reachable state the writer can drain what was accepted.
    - Streams and read models: the validator accepts exactly the streams of the
      specification and explains what it refuses; every projection is the view
      that the events determine; queries return exactly the stored events they
      select and the snapshot of the committed watermark.
    - Hub and ingress: accepted events carry 1, 2, 3, ...; limits hold and counters
      are exact.
    - Sinks: the concurrent budget is linearizable; every offered event is
      delivered, held or reported as dropped; an admission evicts the fewest
      oldest content events; nothing panics.
    - Supervision: a stall or a drain that has used up its time is detected, and
      nothing else is; a measurement of the directory ends with the sum of its
      files; a quota fails once.
    - Results: compilation accepts exactly the dictionaries that denote a contract
      and validation exactly the values it admits; chunked bodies are recognised
      exactly however they are cut; a slot accepts at most one result, the
      settlement of a turn says what happened, and nothing panics; a route is
      ready only after the handshake was written.
    - Cues: an actor runs one cue at a time, in the order in which they were
      enqueued; a signal is resolved once, when nothing holds the cue any more; a
      closed scene is empty; no wakeup is lost and the cues drain, but for those of
      a dropped actor, unless a cue is cancelled between its claim and its launch,
      the cause of the only panic; ids are canonical decimals.
    - Runs of a production: an identity names one process; leases exclude each
      other; a discovery has one candidate for every instance and every archive
      without one, classified by what was seen; a resolution never mistakes a run
      and never takes an archive that somebody owns; a preview selects only
      archives that nobody owned when they were looked at last, none that is
      protected, exactly those that the policy names, oldest first, and meets a
      budget whenever it can by the shortest prefix; it always returns, unless an
      entry advertises a URL longer than the parser of URIs allows, which panics
      ([long_url_panics]).

    ** Conventions, bounds and fuel

    - A [u64], [usize] or [Duration] is a [Z] in its range; arithmetic that the
      source checks, saturates or wraps is written so.  [usize] is 64 bits wide.
      A [Duration] is a number of nanoseconds.
    - A panic ([expect], indexing, a failed assertion) is [None], and theorems show
      that reachable states do not reach it or say when they do.  A poisoned mutex
      is a boolean of the state of the lock; a [try_lock] that fails is a boolean
      argument.
    - A [BTreeMap] that is only iterated is the list of its entries in key order; a
      [HashMap] or [BTreeMap] that is looked up is a [gmap].
    - Concurrency is a step relation, or a step function with an action, whose
      steps are the sections the source runs under one lock, or one atomic access.
    - Recursion that is not structural has fuel, and a theorem gives a result for
      the fuel that is used: 20 for printing a [u64], the digits of [2^64 - 1]; one
      more than the length of a queue for the admission loop of a sink; the number
      of nodes for the measurement of a directory and the depth of a JSON value;
      the number of events for the pages of a query; the compilation depth of 32
      that the source itself imposes; the bytes of the input for chunked bodies;
      the number of boundaries for a binary search; the number of digits for the
      halving conversion of integers; the logarithm for the one by chunks; the
      number of nodes of an archive for the counting of its bytes.
    - A call of [Sys] is numbered, and its answer depends on the number, so that
      nothing is assumed of what other processes do between two calls.

    ** Parameters

    Code that is not in the repository is an argument or a class of operations,
    with its documented laws where a theorem needs them: the encoding and the
    accessors of [serde_json] ([StoreEncoding], [SerdeJson], [JsonText]), big
    integers ([BigUint]), the uuid crate, SQLite's failures ([Faults]), the
    operating system's files ([Fs], [Os]), its locks ([FlockLaws]), the JSON, IP
    addresses and URIs of a registry entry, the probes and the database connection
    ([RegistryHost], [UrlLaws]), the HTTP client and the opened archive
    ([ResolverHost]), header maps ([HeaderMap]), Python objects ([PyWorld],
    [PyCues], [ResultHost]), and the delivery functions of notifiers and
    subscribers.  [cfg!(debug_assertions)] is a boolean argument.

    ** Not modelled

    The dispatcher, sealing and shutdown of sinks, which drive a Python event
    loop; the event-stream and HTTP servers; the publication of registry entries,
    the creation of archive directories and the capability probe of the file system;
    the Perfetto export; agent sessions, launch and adapters, which drive a process, and the
    translation of their messages to events; the lineage of Python tasks, handles,
    capabilities and the awaiting of a cue; the construction of events from Python
    objects; the rendering of a cleanup preview and its application, which deletes
    files; the rest of the command line; the SQL text of a store.  They are input
    and output around library calls, or glue to Python, but for the event-stream
    replay and the accumulators of agent messages, which are pure enough to be
    modelled and were left out. *)

From Stdlib Require Export ZArith Ascii String Lia.
From stdpp Require Export base option numbers strings gmap list.

#[export] Set Warnings "-clear-no-such-hyp".

#[global] Open Scope Z_scope.

(** ** Rust results

    [result A E] is Rust's [Result<A, E>]; [let? x := m in k] is the [?]
    operator: it returns early with the error of [m]. *)

Declare Scope troupe_scope.
Delimit Scope troupe_scope with troupe.
#[global] Open Scope troupe_scope.

Inductive result (A E : Type) : Type :=
| Ok (a : A)
| Err (e : E).
Arguments Ok {A E} _.
Arguments Err {A E} _.

Definition result_bind {A B E} (m : result A E) (k : A -> result B E) : result B E :=
  match m with
  | Ok a => k a
  | Err e => Err e
  end.

Definition map_err {A E F} (f : E -> F) (m : result A E) : result A F :=
  match m with
  | Ok a => Ok a
  | Err e => Err (f e)
  end.

Definition result_map {A B E} (f : A -> B) (m : result A E) : result B E :=
  match m with
  | Ok a => Ok (f a)
  | Err e => Err e
  end.

Definition ok_or {A E} (o : option A) (e : E) : result A E :=
  match o with
  | Some a => Ok a
  | None => Err e
  end.

Definition is_ok {A E} (m : result A E) : bool :=
  match m with
  | Ok _ => true
  | Err _ => false
  end.

Notation "'let?' x := m 'in' k" := (result_bind m (fun x => k))
  (at level 10, x name, m at level 100, k at level 200) : troupe_scope.

(** [guard? b 'or' e 'in' k]: return [Err e] unless [b]. *)
Notation "'guard?' b 'or' e 'in' k" := (if b then k else Err e)
  (at level 10, b at level 100, e at level 100, k at level 200) : troupe_scope.

(** ** Mutexes

    A [std::sync::Mutex] is poisoned when a thread panics while it holds the
    lock; [lock] then fails.  [with_guarded] is the mutex after the holder of
    the lock has changed the value. *)

Record Mutex (A : Type) := mkMutex { mutex_poisoned : bool; guarded : A }.
Arguments mkMutex {A} _ _.
Arguments mutex_poisoned {A} _.
Arguments guarded {A} _.

Definition Mutex_new {A} (value : A) : Mutex A := mkMutex false value.

(** [mutex.lock().map_err(|_| e)]. *)
Definition lock {A E} (m : Mutex A) (e : E) : result A E :=
  if mutex_poisoned m then Err e else Ok (guarded m).

Definition with_guarded {A} (m : Mutex A) (value : A) : Mutex A :=
  mkMutex (mutex_poisoned m) value.

(** ** Machine integers

    A Rust integer is a [Z] together with the width of the operation that is
    applied to it.  [usize] is 64 bits wide (the supported target is Linux
    x86_64). *)

Inductive int_ty := U8 | U32 | U64 | Usize | U128 | I64 | I128.

Definition int_min (ty : int_ty) : Z :=
  match ty with
  | U8 | U32 | U64 | Usize | U128 => 0
  | I64 => - 2 ^ 63
  | I128 => - 2 ^ 127
  end.

Definition int_max (ty : int_ty) : Z :=
  match ty with
  | U8 => 2 ^ 8 - 1
  | U32 => 2 ^ 32 - 1
  | U64 | Usize => 2 ^ 64 - 1
  | U128 => 2 ^ 128 - 1
  | I64 => 2 ^ 63 - 1
  | I128 => 2 ^ 127 - 1
  end.

Definition int_modulus (ty : int_ty) : Z := int_max ty - int_min ty + 1.

Definition fits (ty : int_ty) (z : Z) : bool :=
  (int_min ty <=? z) && (z <=? int_max ty).

(** [try_from], and what the [checked_*] operations share. *)
Definition checked (ty : int_ty) (z : Z) : option Z :=
  if fits ty z then Some z else None.

Definition checked_add (ty : int_ty) (a b : Z) : option Z := checked ty (a + b).

Definition checked_sub (ty : int_ty) (a b : Z) : option Z := checked ty (a - b).

Definition checked_mul (ty : int_ty) (a b : Z) : option Z := checked ty (a * b).

Definition checked_neg (ty : int_ty) (a : Z) : option Z := checked ty (- a).

Definition saturating_add (ty : int_ty) (a b : Z) : Z :=
  Z.max (int_min ty) (Z.min (int_max ty) (a + b)).

Definition saturating_sub (ty : int_ty) (a b : Z) : Z :=
  Z.max (int_min ty) (Z.min (int_max ty) (a - b)).

(** Unsigned wrap-around. *)
Definition wrapping_add (ty : int_ty) (a b : Z) : Z := (a + b) mod int_modulus ty.

(** ** Byte strings

    A Rust [&str] is the list of its UTF-8 bytes; [string] is that list and
    [len] counts bytes. *)

Definition byte_val (c : ascii) : Z := Z.of_N (N_of_ascii c).

Definition bytes (s : string) : list ascii := list_ascii_of_string s.

Definition of_bytes (l : list ascii) : string := string_of_list_ascii l.

Definition str_len (s : string) : Z := Z.of_nat (String.length s).

Definition list_len {A} (l : list A) : Z := Z.of_nat (length l).

Definition is_ascii_byte (c : ascii) : bool := byte_val c <? 128.

Definition is_ascii_digit (c : ascii) : bool :=
  (48 <=? byte_val c) && (byte_val c <=? 57).

Definition is_ascii_lowercase (c : ascii) : bool :=
  (97 <=? byte_val c) && (byte_val c <=? 122).

Definition is_ascii_uppercase (c : ascii) : bool :=
  (65 <=? byte_val c) && (byte_val c <=? 90).

Definition is_ascii (s : string) : bool := forallb is_ascii_byte (bytes s).

(** [str::starts_with] of a one-byte character. *)
Definition starts_with (c : ascii) (s : string) : bool :=
  match bytes s with
  | d :: _ => Ascii.eqb d c
  | [] => false
  end.

(** [Iterator::position]. *)
Fixpoint position {A} (p : A -> bool) (l : list A) : option nat :=
  match l with
  | [] => None
  | x :: l' => if p x then Some O else S <$> position p l'
  end.

(** A mutable reference to the first element that satisfies [p], as
    [iter_mut().find(p)] gives it: the element, and the list as a function of
    what the element is replaced by. *)
Fixpoint find_mut {A} (p : A -> bool) (l : list A) : option (A * (A -> list A)) :=
  match l with
  | [] => None
  | x :: l' =>
      if p x then Some (x, fun y => y :: l')
      else '(z, put) ← find_mut p l'; Some (z, fun y => x :: put y)
  end.

(** [slice::sort_by_key]: stable. *)
Fixpoint insert_by_key {A} (key : A -> Z) (x : A) (l : list A) : list A :=
  match l with
  | [] => [x]
  | y :: l' => if key x <=? key y then x :: l else y :: insert_by_key key x l'
  end.

Fixpoint sort_by_key {A} (key : A -> Z) (l : list A) : list A :=
  match l with
  | [] => []
  | x :: l' => insert_by_key key x (sort_by_key key l')
  end.

(** ** Automation *)

Create HintDb troupe.
Create Rewrite HintDb troupe.

(** Rewriting of the machine-integer operations to their defining
    comparisons, so that [lia] decides what is left. *)
Ltac unfold_int :=
  unfold checked_add, checked_sub, checked_mul, checked_neg,
    saturating_add, saturating_sub, checked, fits, int_max, int_min in *.

(** Splits a [result] or [option] computation in a hypothesis or the goal on
    every test it makes. *)
Ltac split_match :=
  repeat (case_match; simplify_eq/=; try done).

Ltac invert_bind H :=
  match type of H with
  | result_bind ?m _ = Ok _ =>
      let x := fresh "x" in let E := fresh "E" in
      destruct m as [x|] eqn:E; [cbn [result_bind] in H | discriminate H]
  end.

(** Side conditions of the arithmetic lemmas: bounds on lengths and constants. *)
Ltac nonneg := first [lia | solve [auto with troupe] | unfold list_len, str_len; lia].

Ltac bool_hyps :=
  repeat match goal with
  | H : (_ && _)%bool = true |- _ => apply andb_prop in H; destruct H
  | H : (_ || _)%bool = false |- _ => apply orb_false_elim in H; destruct H
  | H : negb _ = true |- _ => apply negb_true_iff in H
  | H : negb _ = false |- _ => apply negb_false_iff in H
  | H : bool_decide _ = true |- _ => apply bool_decide_eq_true in H
  | H : bool_decide _ = false |- _ => apply bool_decide_eq_false in H
  end.

(** ** Shared lemmas *)

Lemma result_bind_ok {A B E} (m : result A E) (k : A -> result B E) (b : B) :
  result_bind m k = Ok b <-> exists a, m = Ok a /\ k a = Ok b.
Proof. destruct m; cbn; naive_solver. Qed.

Lemma result_bind_assoc {A B C E} (m : result A E) (f : A -> result B E) (g : B -> result C E) :
  result_bind (result_bind m f) g = result_bind m (fun a => result_bind (f a) g).
Proof. by destruct m. Qed.

(** An error of a computation followed by a pure step is the computation's. *)
Lemma result_bind_err_pure {A B E} (m : result A E) (f : A -> B) (e : E) :
  result_bind m (fun a => Ok (f a)) = Err e -> m = Err e.
Proof. by destruct m; cbn; [|intros [= ->]]. Qed.

Lemma pair_eq {A B} (x : A * B) b : x.2 = b -> x = (x.1, b).
Proof. by destruct x; cbn; intros <-. Qed.

Lemma checked_some ty z v : checked ty z = Some v <-> v = z /\ int_min ty <= z <= int_max ty.
Proof.
  unfold checked, fits. destruct (_ && _)%bool eqn:E.
  - apply andb_prop in E. naive_solver lia.
  - split; [done|]. intros [-> ?]. apply andb_false_iff in E. lia.
Qed.

Lemma checked_none ty z : checked ty z = None <-> ~ (int_min ty <= z <= int_max ty).
Proof.
  unfold checked, fits. destruct (_ && _)%bool eqn:E.
  - apply andb_prop in E. naive_solver lia.
  - apply andb_false_iff in E. split; [|done]. lia.
Qed.

Lemma checked_in_range ty z : int_min ty <= z <= int_max ty -> checked ty z = Some z.
Proof. intros. by apply checked_some. Qed.

Lemma bytes_of_bytes l : bytes (of_bytes l) = l.
Proof. apply list_ascii_of_string_of_list_ascii. Qed.

Lemma of_bytes_bytes s : of_bytes (bytes s) = s.
Proof. apply string_of_list_ascii_of_string. Qed.

Lemma bytes_inj s t : bytes s = bytes t -> s = t.
Proof. intros E. by rewrite <-(of_bytes_bytes s), E, of_bytes_bytes. Qed.

Lemma bytes_app s t : bytes (s +:+ t) = bytes s ++ bytes t.
Proof. induction s as [|c s IH]; [done|]. change (c :: bytes (s +:+ t) = c :: bytes s ++ bytes t). by rewrite IH. Qed.

Lemma str_len_bytes s : str_len s = list_len (bytes s).
Proof.
  unfold str_len, list_len. f_equal. induction s as [|c s IH]; [done|].
  cbn. by rewrite IH.
Qed.

Lemma starts_with_true c s : starts_with c s = true <-> exists l, bytes s = c :: l.
Proof.
  unfold starts_with. destruct (bytes s) as [|d l]; [naive_solver|].
  rewrite Ascii.eqb_eq. naive_solver.
Qed.

Lemma byte_val_range c : 0 <= byte_val c < 256.
Proof. unfold byte_val. pose proof (N_ascii_bounded c). lia. Qed.

Lemma byte_val_inj c d : byte_val c = byte_val d -> c = d.
Proof.
  unfold byte_val. intros E. apply N2Z.inj in E.
  by rewrite <-(ascii_N_embedding c), E, ascii_N_embedding.
Qed.

Lemma position_some {A} (p : A -> bool) l n :
  position p l = Some n <->
  exists x, l !! n = Some x /\ p x = true /\ Forall (fun y => p y = false) (take n l).
Proof.
  revert n. induction l as [|y l IH]; intros n; cbn.
  - split; [done|]. by intros (x & Hx & _).
  - destruct (p y) eqn:E.
    + split.
      * intros [= <-]. exists y. by repeat split.
      * intros (x & Hx & Hp & Hf). destruct n as [|n]; [done|].
        cbn in Hf. inversion Hf; subst. congruence.
    + destruct n as [|n].
      * split; [by intros (m & _ & ?)%fmap_Some|].
        intros (x & [= ->] & Hp & _). congruence.
      * rewrite fmap_Some. setoid_rewrite IH. cbn. split.
        -- intros (m & (x & ? & ? & ?) & [= ->]). eauto.
        -- intros (x & ? & ? & Hf). inversion Hf; subst. eauto 10.
Qed.

Lemma position_none {A} (p : A -> bool) l :
  position p l = None <-> Forall (fun y => p y = false) l.
Proof.
  induction l as [|y l IH]; cbn; [by split|].
  destruct (p y) eqn:E; split; intros H.
  - done.
  - inversion H; congruence.
  - constructor; [done|]. apply IH. by destruct (position p l).
  - inversion H; subst. by rewrite (proj2 IH).
Qed.

Lemma forallb_Forall_true {A} (p : A -> bool) l :
  forallb p l = true <-> Forall (fun x => p x = true) l.
Proof.
  induction l as [|x l IH]; cbn; [by split|].
  rewrite andb_true_iff, IH. split.
  - intros [? ?]. by constructor.
  - intros H. by inversion H.
Qed.

Lemma Forall_weaken {A} (P Q : A -> Prop) l :
  Forall P l -> (forall x, P x -> Q x) -> Forall Q l.
Proof. intros Hl H. induction Hl; constructor; auto. Qed.

Lemma list_len_app {A} (l k : list A) : list_len (l ++ k) = list_len l + list_len k.
Proof. unfold list_len. rewrite length_app. lia. Qed.

Lemma list_len_cons {A} (x : A) l : list_len (x :: l) = 1 + list_len l.
Proof. unfold list_len. cbn [length]. lia. Qed.

Lemma list_len_nil {A} : list_len (@nil A) = 0.
Proof. done. Qed.

Lemma list_len_nonneg {A} (l : list A) : 0 <= list_len l.
Proof. unfold list_len. lia. Qed.

#[export] Hint Rewrite @list_len_app @list_len_cons @list_len_nil
  bytes_of_bytes of_bytes_bytes : troupe.
#[export] Hint Resolve list_len_nonneg byte_val_range : troupe.

(** ** Sums, maxima and conjunctions over lists

    Folds, so that a function on nested data may recurse under them. *)

Definition sum_with {A} (f : A -> Z) (l : list A) : Z := foldr (fun a n => f a + n) 0 l.

Definition max_with {A} (f : A -> Z) (l : list A) : Z := foldr (fun a n => Z.max (f a) n) 0 l.

Definition all_of {A} (P : A -> Prop) (l : list A) : Prop := foldr (fun a Q => P a /\ Q) True l.

Lemma sum_with_nonneg {A} (f : A -> Z) l : Forall (fun a => 1 <= f a) l -> 0 <= sum_with f l.
Proof. unfold sum_with. induction 1; cbn [foldr]; lia. Qed.

Lemma sum_with_cons {A} (f : A -> Z) a l : sum_with f (a :: l) = f a + sum_with f l.
Proof. done. Qed.

Lemma sum_with_app {A} (f : A -> Z) l k : sum_with f (l ++ k) = sum_with f l + sum_with f k.
Proof. induction l as [|a l IH]; [done|]. cbn [app]. rewrite !sum_with_cons, IH. lia. Qed.

Lemma sum_with_map {A B} (f : B -> Z) (g : A -> B) l : sum_with f (map g l) = sum_with (fun a => f (g a)) l.
Proof. induction l as [|a l IH]; [done|]. cbn [map]. by rewrite !sum_with_cons, IH. Qed.

Lemma sum_with_insert {A} (f : A -> Z) l : forall c x y,
  l !! c = Some x -> sum_with f (<[c := y]> l) = sum_with f l - f x + f y.
Proof.
  induction l as [|a l IH]; intros [|c] x y Hx; try done.
  - injection Hx as ->. change (<[0%nat := y]> (x :: l)) with (y :: l). rewrite !sum_with_cons. lia.
  - change (<[S c := y]> (a :: l)) with (a :: <[c := y]> l). rewrite !sum_with_cons, (IH c x y Hx). lia.
Qed.

Lemma sum_with_pos {A} (f : A -> Z) l : (forall a, 0 <= f a) -> 0 <= sum_with f l.
Proof. intros Hf. induction l as [|a l IH]; [done|]. rewrite sum_with_cons. specialize (Hf a). lia. Qed.

Lemma sum_with_mono {A} (f g : A -> Z) l : (forall a, f a <= g a) -> sum_with f l <= sum_with g l.
Proof. intros Hf. induction l as [|a l IH]; [done|]. rewrite !sum_with_cons. specialize (Hf a). lia. Qed.

Lemma sum_with_ge {A} (f : A -> Z) l k a : (forall b, 0 <= f b) -> l !! k = Some a -> f a <= sum_with f l.
Proof.
  intros Hf. revert k. induction l as [|b l IH]; intros [|k] Hk; try done; rewrite sum_with_cons.
  - injection Hk as ->. pose proof (sum_with_pos f l Hf). lia.
  - specialize (IH k Hk). specialize (Hf b). lia.
Qed.

Lemma sum_with_delete {A} (f : A -> Z) l : forall k a,
  l !! k = Some a -> sum_with f (delete k l) = sum_with f l - f a.
Proof.
  induction l as [|b l IH]; intros [|k] a Hk; try done.
  - injection Hk as ->. change (delete 0%nat (a :: l)) with l. rewrite sum_with_cons. lia.
  - change (delete (S k) (b :: l)) with (b :: delete k l). rewrite !sum_with_cons, (IH k a Hk). lia.
Qed.

Lemma sum_with_perm {A} (f : A -> Z) l k : Permutation l k -> sum_with f l = sum_with f k.
Proof.
  induction 1 as [|a l k _ IH|a b l|l1 l2 l3 _ IH1 _ IH2]; [done| | |congruence].
  - by rewrite !sum_with_cons, IH.
  - rewrite !sum_with_cons. lia.
Qed.

Lemma max_with_nonneg {A} (f : A -> Z) l : 0 <= max_with f l.
Proof. unfold max_with. induction l; cbn [foldr]; lia. Qed.

Lemma all_of_cons {A} (P : A -> Prop) a l : all_of P (a :: l) <-> P a /\ all_of P l.
Proof. done. Qed.

Lemma max_with_le {A} (f : A -> Z) l k b :
  k + max_with f l <= b <-> k <= b /\ all_of (fun a => k + f a <= b) l.
Proof.
  unfold max_with, all_of. induction l as [|a l IH]; cbn [foldr]; [naive_solver lia|].
  rewrite <-Z.add_max_distr_l, Z.max_lub_iff, IH. tauto.
Qed.
