(* ===== verification/Text.v ===== *)
(** * Text

    The operations of [str] and [slice] that several components use: trimming,
    splitting, searching.  A text is a list of bytes; [char::is_whitespace] is that
    of ASCII text, which the header values and the files of [/proc] are. *)

From S2P Require Import Prelude.

Definition is_whitespace (c : ascii) : bool :=
  let b := byte_val c in (b =? 32) || ((9 <=? b) && (b <=? 13)).

Fixpoint trim_start (l : list ascii) : list ascii :=
  match l with
  | c :: l' => if is_whitespace c then trim_start l' else l
  | [] => []
  end.

Definition trim (l : list ascii) : list ascii := rev (trim_start (rev (trim_start l))).

(** [str::split_once]. *)
Fixpoint split_once (c : ascii) (l : list ascii) : option (list ascii * list ascii) :=
  match l with
  | [] => None
  | d :: l' =>
      if Ascii.eqb d c then Some ([], l')
      else '(a, b) ← split_once c l'; Some (d :: a, b)
  end.

(** [str::rfind] and the text behind what it finds. *)
Fixpoint after_last (c : ascii) (l : list ascii) : option (list ascii) :=
  match l with
  | [] => None
  | d :: l' =>
      match after_last c l' with
      | Some rest => Some rest
      | None => if Ascii.eqb d c then Some l' else None
      end
  end.

(** [str::find] of a text and what is behind it. *)
Fixpoint after_first (pattern l : list ascii) : option (list ascii) :=
  if bool_decide (take (length pattern) l = pattern) then Some (drop (length pattern) l)
  else match l with [] => None | _ :: l' => after_first pattern l' end.

(** [str::strip_prefix]. *)
Definition strip_prefix (prefix s : string) : option string :=
  if bool_decide (take (String.length prefix) (bytes s) = bytes prefix) then Some (of_bytes (drop (String.length prefix) (bytes s)))
  else None.

(** [u8::is_ascii_whitespace]. *)
Definition is_ascii_whitespace (c : ascii) : bool :=
  let b := byte_val c in (b =? 32) || (b =? 9) || (b =? 10) || (b =? 12) || (b =? 13).

(** [str::split_ascii_whitespace], from a word that was begun. *)
Fixpoint words (current l : list ascii) : list (list ascii) :=
  let finished := match current with [] => [] | _ => [current] end in
  match l with
  | [] => finished
  | c :: l' => if is_ascii_whitespace c then finished ++ words [] l' else words (current ++ [c]) l'
  end.

Definition split_ascii_whitespace (l : list ascii) : list (list ascii) := words [] l.

(** [str::strip_suffix]. *)
Definition strip_suffix (suffix s : string) : option string :=
  let n := (String.length s - String.length suffix)%nat in
  if bool_decide (drop n (bytes s) = bytes suffix) then Some (of_bytes (take n (bytes s))) else None.

(** [u8::is_ascii_hexdigit], [u8::is_ascii_graphic]. *)
Definition is_ascii_hexdigit (c : ascii) : bool :=
  let b := byte_val c in is_ascii_digit c || ((65 <=? b) && (b <=? 70)) || ((97 <=? b) && (b <=? 102)).

Definition is_ascii_graphic (c : ascii) : bool := let b := byte_val c in (33 <=? b) && (b <=? 126).

(** ** Lemmas *)

Lemma split_once_some c l : forall a b, split_once c l = Some (a, b) -> l = a ++ c :: b /\ c ∉ a.
Proof.
  induction l as [|d l IH]; intros a b; cbn [split_once]; [done|].
  destruct (Ascii.eqb_spec d c) as [->|Hd].
  - intros [= <- <-]. split; [done|]. by intros ?%elem_of_nil.
  - destruct (split_once c l) as [[x y]|]; [|done]. intros [= <- <-].
    destruct (IH x y eq_refl) as [-> Hn]. split; [done|]. by intros [?|?]%elem_of_cons.
Qed.

Lemma split_once_none c l : split_once c l = None -> c ∉ l.
Proof.
  induction l as [|d l IH]; cbn [split_once]; [by intros _ ?%elem_of_nil|].
  destruct (Ascii.eqb_spec d c) as [->|Hd]; [done|].
  destruct (split_once c l) as [[x y]|]; [done|]. intros _ [?|?]%elem_of_cons; [done|]. by apply IH.
Qed.

Lemma split_once_app c a b : c ∉ a -> split_once c (a ++ c :: b) = Some (a, b).
Proof.
  induction a as [|d a IH]; intros Hn; cbn [app split_once]; [by rewrite Ascii.eqb_refl|].
  apply not_elem_of_cons in Hn as [Hd Hn]. destruct (Ascii.eqb_spec d c); [congruence|]. by rewrite IH.
Qed.

Lemma after_last_app c a b : c ∉ b -> after_last c (a ++ c :: b) = Some b.
Proof.
  intros Hb. assert (Hn : after_last c b = None).
  { induction b as [|d b IH]; [done|]. apply not_elem_of_cons in Hb as [Hd Hb]. cbn. rewrite IH by done.
    destruct (Ascii.eqb_spec d c); [congruence|done]. }
  induction a as [|d a IH]; cbn [app after_last]; [by rewrite Hn, Ascii.eqb_refl|by rewrite IH].
Qed.

(** A word: not empty and without white space. *)
Definition word (l : list ascii) : Prop := l <> [] /\ Forall (fun c => is_ascii_whitespace c = false) l.

Lemma words_word current w l :
  Forall (fun c => is_ascii_whitespace c = false) w -> words current (w ++ l) = words (current ++ w) l.
Proof.
  intros Hw. revert current. induction Hw as [|c w Hc _ IH]; intros current; [by rewrite app_nil_r|].
  cbn [app words]. rewrite Hc, IH, <- app_assoc. done.
Qed.

Lemma words_separator w c l :
  word w -> is_ascii_whitespace c = true -> words [] (w ++ c :: l) = w :: words [] l.
Proof.
  intros [Hne Hw] Hc. rewrite words_word by done. cbn [app words]. rewrite Hc. by destruct w.
Qed.

Lemma words_last w : word w -> words [] w = [w].
Proof. intros [Hne Hw]. rewrite <- (app_nil_r w) at 1. rewrite words_word by done. by destruct w. Qed.

(** Words between single spaces. *)
Fixpoint spaced (ws : list (list ascii)) : list ascii :=
  match ws with
  | [] => []
  | [w] => w
  | w :: ws => w ++ " "%char :: spaced ws
  end.

Lemma words_blank l : Forall (fun c => is_ascii_whitespace c = true) l -> words [] l = [].
Proof. induction 1 as [|c l Hc _ IH]; [done|]. cbn. by rewrite Hc, IH. Qed.

Lemma split_spaced ws after :
  Forall word ws -> Forall (fun c => is_ascii_whitespace c = true) after -> split_ascii_whitespace (spaced ws ++ after) = ws.
Proof.
  intros Hws Ha. unfold split_ascii_whitespace. induction Hws as [|w ws Hw _ IH]; [by apply words_blank|]. destruct ws as [|w' ws].
  - cbn [spaced]. destruct after as [|c after]; [rewrite app_nil_r; by apply words_last|]. apply Forall_cons in Ha as [Hc Ha].
    rewrite words_separator by done. by rewrite words_blank.
  - change (spaced (w :: w' :: ws)) with (w ++ " "%char :: spaced (w' :: ws)). rewrite <- app_assoc. cbn [app].
    rewrite words_separator by done. by rewrite IH.
Qed.

Lemma trim_start_app l k : Forall (fun c => is_whitespace c = true) l -> trim_start (l ++ k) = trim_start k.
Proof. induction 1 as [|c l Hc _ IH]; [done|]. cbn. by rewrite Hc. Qed.

Lemma trim_start_word l : Forall (fun c => is_whitespace c = false) l -> trim_start l = l.
Proof. destruct 1 as [|c l Hc _]; [done|]. cbn. by rewrite Hc. Qed.

(** White space around a text without any is trimmed. *)
Lemma trim_spaced before l after :
  Forall (fun c => is_whitespace c = true) before -> Forall (fun c => is_whitespace c = true) after ->
  Forall (fun c => is_whitespace c = false) l -> trim (before ++ l ++ after) = l.
Proof.
  intros Hb Ha Hl. unfold trim. rewrite trim_start_app by done. destruct l as [|c l].
  - rewrite app_nil_l. rewrite <- (app_nil_r after), trim_start_app by done. done.
  - inversion_clear Hl as [|?? Hc Hl']. cbn [app trim_start]. rewrite Hc. change (c :: l ++ after) with ((c :: l) ++ after).
    rewrite rev_app_distr, trim_start_app by (by apply Forall_rev). rewrite trim_start_word; [by rewrite rev_involutive|].
    apply Forall_rev. by constructor.
Qed.
