(* ===== verification/Wire.v ===== *)
(** * Wire values: canonical integers, identifiers and run-relative time

    Models [troupe-diagnostics-core/src/wire.rs], [id.rs] and [time.rs].  A
    [WireValueError] carries the static message of the source.  The decimal
    printer is the standard library's [Display for u64], which
    [serializer.collect_str] calls. *)

From S2P Require Import Prelude.

Abbreviation WireValueError := string (only parsing).

(** ** wire.rs *)

Definition validate_canonical_nonnegative_integer (value : string)
    : result unit WireValueError :=
  if bool_decide (value = EmptyString) then
    Err "integer must not be empty"
  else if negb (forallb is_ascii_digit (bytes value)) then
    Err "integer must contain only ASCII decimal digits"
  else if (1 <? str_len value) && starts_with "0" value then
    Err "integer must not contain leading zeroes"
  else Ok tt.

Definition digit_val (c : ascii) : Z := byte_val c - 48.

(** The accumulation loop of [u64::from_str]: [None] on overflow or on a byte
    that is no digit. *)
Fixpoint parse_digits (ty : int_ty) (acc : Z) (l : list ascii) : option Z :=
  match l with
  | [] => Some acc
  | c :: l' =>
      if is_ascii_digit c then
        m ← checked_mul ty acc 10;
        a ← checked_add ty m (digit_val c);
        parse_digits ty a l'
      else None
  end.

(** [str::parse::<u64>]: an optional plus sign, at least one digit. *)
Definition parse_u64 (value : string) : option Z :=
  match bytes value with
  | [] => None
  | ["+"%char] => None
  | "+"%char :: digits => parse_digits U64 0 digits
  | digits => parse_digits U64 0 digits
  end.

Definition parse_canonical_u64 (value : string) : result Z WireValueError :=
  let? _ := validate_canonical_nonnegative_integer value in
  ok_or (parse_u64 value) "schema u64 is out of range".

(** [Display for u64]: decimal digits, most significant first.  Twenty digits
    are enough for every [u64]. *)
Definition digit_char (d : Z) : ascii := ascii_of_N (Z.to_N (d + 48)).

Fixpoint print_digits (fuel : nat) (z : Z) (acc : list ascii) : list ascii :=
  match fuel with
  | O => acc
  | S f =>
      if z <? 10 then digit_char z :: acc
      else print_digits f (z / 10) (digit_char (z mod 10) :: acc)
  end.

Definition u64_to_string (z : Z) : string := of_bytes (print_digits 20 z []).

(** ** id.rs *)

Definition MAX_RUN_LOCAL_ID_BYTES : Z := 128.

Record RunLocalId := mkRunLocalId { RunLocalId_as_str : string }.

#[export] Instance RunLocalId_eq_dec : EqDecision RunLocalId.
Proof. solve_decision. Defined.

Definition RunLocalId_parse (value : string) : result RunLocalId WireValueError :=
  if bool_decide (value = EmptyString) then Err "Run-local ID must not be empty"
  else if MAX_RUN_LOCAL_ID_BYTES <? str_len value then Err "Run-local ID is too long"
  else if negb (is_ascii value) then Err "Run-local ID must be ASCII"
  else Ok (mkRunLocalId value).

(** A [Uuid] of the [uuid] crate is its 128-bit value; parsing and printing
    belong to that crate and are parameters. *)
Record CanonicalUuid := mkCanonicalUuid { as_uuid : Z }.

#[export] Instance CanonicalUuid_eq_dec : EqDecision CanonicalUuid.
Proof. solve_decision. Defined.

Section Uuid.
Context (uuid_parse_str : string -> option Z) (uuid_hyphenated : Z -> string).

Definition CanonicalUuid_parse (value : string) : result CanonicalUuid WireValueError :=
  let? parsed := ok_or (uuid_parse_str value) "UUID is invalid" in
  if bool_decide (uuid_hyphenated parsed <> value) then
    Err "UUID must use lowercase canonical hyphenated form"
  else Ok (mkCanonicalUuid parsed).

Definition CanonicalUuid_to_string (u : CanonicalUuid) : string := uuid_hyphenated (as_uuid u).
End Uuid.

(** ** time.rs

    An [Instant] is a number of nanoseconds on the monotonic clock and a
    [Duration] its non-negative difference. *)

Inductive TimeError := BeforeOrigin | ElapsedOverflow.

Definition ElapsedNs_from_duration (duration : Z) : result Z TimeError :=
  ok_or (checked U64 duration) ElapsedOverflow.

Record RunClock := mkRunClock { RunClock_origin : Z }.

Definition checked_duration_since (later earlier : Z) : option Z :=
  if later <? earlier then None else Some (later - earlier).

Definition elapsed_at (clock : RunClock) (observed : Z) : result Z TimeError :=
  let? duration := ok_or (checked_duration_since observed (RunClock_origin clock)) BeforeOrigin in
  ElapsedNs_from_duration duration.

(** ** Digits *)

Lemma is_ascii_digit_val c : is_ascii_digit c = true <-> 0 <= digit_val c <= 9.
Proof. unfold is_ascii_digit, digit_val. rewrite andb_true_iff. lia. Qed.

Lemma byte_val_ascii_of_N n : (n < 256)%N -> byte_val (ascii_of_N n) = Z.of_N n.
Proof. intros H. unfold byte_val. by rewrite N_ascii_embedding. Qed.

Lemma digit_val_char d : 0 <= d <= 9 -> digit_val (digit_char d) = d.
Proof. intros. unfold digit_val, digit_char. rewrite byte_val_ascii_of_N by lia. lia. Qed.

Lemma digit_char_val c : is_ascii_digit c = true -> digit_char (digit_val c) = c.
Proof.
  intros H%is_ascii_digit_val. apply byte_val_inj.
  pose proof (digit_val_char (digit_val c) H). unfold digit_val in *. lia.
Qed.

Lemma digit_char_is_digit d : 0 <= d <= 9 -> is_ascii_digit (digit_char d) = true.
Proof. intros. apply is_ascii_digit_val. by rewrite digit_val_char. Qed.

Lemma digit_val_inj c e : digit_val c = digit_val e -> c = e.
Proof. intros. apply byte_val_inj. unfold digit_val in *. lia. Qed.

(** The number a digit list denotes, most significant digit first. *)
Fixpoint digits_value (acc : Z) (l : list ascii) : Z :=
  match l with
  | [] => acc
  | c :: l' => digits_value (acc * 10 + digit_val c) l'
  end.

Abbreviation all_digits l := (Forall (fun c => is_ascii_digit c = true) l).

Lemma digits_value_app acc l k : digits_value acc (l ++ k) = digits_value (digits_value acc l) k.
Proof. revert acc. induction l as [|c l IH]; intros acc; cbn; auto. Qed.

Lemma digits_value_shift acc l :
  digits_value acc l = acc * 10 ^ list_len l + digits_value 0 l.
Proof.
  revert acc. induction l as [|c l IH]; intros acc; cbn [digits_value].
  - unfold list_len; cbn. lia.
  - rewrite (IH (acc * 10 + _)), (IH (0 * 10 + _)), list_len_cons.
    rewrite Z.pow_add_r by nonneg. change (10 ^ 1) with 10. ring.
Qed.

Lemma digits_value_bounds l :
  all_digits l -> 0 <= digits_value 0 l < 10 ^ list_len l.
Proof.
  induction l as [|c l IH]; intros H; cbn [digits_value]; [unfold list_len; cbn; lia|].
  inversion H as [|? ? Hc Hl]; subst. apply is_ascii_digit_val in Hc. specialize (IH Hl).
  rewrite digits_value_shift, list_len_cons, Z.pow_add_r by nonneg. nia.
Qed.

Lemma digits_value_le_acc acc l : 0 <= acc -> all_digits l -> acc <= digits_value acc l.
Proof.
  intros Ha Hl. rewrite digits_value_shift.
  pose proof (digits_value_bounds l Hl).
  pose proof (Z.pow_pos_nonneg 10 (list_len l)). pose proof (list_len_nonneg l). nia.
Qed.

(** Digit lists of one length are determined by their value. *)
Lemma digits_value_inj l k :
  all_digits l -> all_digits k -> length l = length k ->
  digits_value 0 l = digits_value 0 k -> l = k.
Proof.
  revert k. induction l as [|c l IH]; intros [|e k] Hl Hk Hlen Hv; try done.
  inversion Hl as [|? ? Hc Hl']; inversion Hk as [|? ? He Hk']; subst.
  cbn [digits_value length] in *.
  rewrite (digits_value_shift _ l), (digits_value_shift _ k) in Hv.
  assert (list_len l = list_len k) as Hle by (unfold list_len; lia). rewrite Hle in Hv.
  pose proof (digits_value_bounds l Hl'). pose proof (digits_value_bounds k Hk').
  rewrite Hle in *.
  assert (digit_val c = digit_val e) as ->%digit_val_inj by nia.
  f_equal. apply IH; auto; lia.
Qed.

(** The accumulation loop computes that number, or overflows when the number
    does not fit. *)
Lemma parse_digits_spec ty acc l :
  int_min ty <= 0 -> 0 <= acc <= int_max ty -> all_digits l ->
  parse_digits ty acc l = checked ty (digits_value acc l).
Proof.
  intros Hmin. revert acc. induction l as [|c l IH]; intros acc Hacc Hl; cbn [parse_digits digits_value].
  - symmetry. apply checked_in_range. lia.
  - inversion Hl as [|? ? Hc Hl']; subst. rewrite Hc.
    apply is_ascii_digit_val in Hc.
    pose proof (digits_value_le_acc (acc * 10 + digit_val c) l ltac:(lia) Hl').
    unfold checked_mul, checked_add.
    destruct (checked ty (acc * 10)) as [m|] eqn:Em; cbn.
    + apply checked_some in Em as [-> ?].
      destruct (checked ty (acc * 10 + digit_val c)) as [a|] eqn:Ea; cbn.
      * apply checked_some in Ea as [-> ?]. apply IH; [lia|done].
      * apply checked_none in Ea. symmetry. apply checked_none. lia.
    + apply checked_none in Em. symmetry. apply checked_none. lia.
Qed.

(** ** Printing *)

Lemma print_digits_all fuel z acc :
  0 <= z -> all_digits acc -> all_digits (print_digits fuel z acc).
Proof.
  revert z acc. induction fuel as [|f IH]; intros z acc Hz Ha; cbn; [done|].
  pose proof (Z.mod_pos_bound z 10 ltac:(lia)).
  destruct (z <? 10) eqn:E.
  - constructor; [apply digit_char_is_digit; lia|done].
  - apply IH; [apply Z.div_pos; lia|]. constructor; [apply digit_char_is_digit; lia|done].
Qed.

Lemma print_digits_app fuel z acc :
  print_digits fuel z acc = print_digits fuel z [] ++ acc.
Proof.
  revert z acc. induction fuel as [|f IH]; intros z acc; cbn; [done|].
  destruct (z <? 10); [done|]. rewrite IH. rewrite (IH _ [_]). by rewrite <-app_assoc.
Qed.

Lemma print_digits_value fuel z :
  0 <= z < 10 ^ Z.of_nat fuel -> digits_value 0 (print_digits fuel z []) = z.
Proof.
  revert z. induction fuel as [|f IH]; intros z Hz; [cbn in *; lia|].
  cbn [print_digits]. destruct (z <? 10) eqn:E.
  - cbn. rewrite digit_val_char by lia. lia.
  - rewrite print_digits_app, digits_value_app, IH.
    + cbn. rewrite digit_val_char by (pose proof (Z.mod_pos_bound z 10); lia).
      pose proof (Z.div_mod z 10). lia.
    + rewrite Nat2Z.inj_succ, Z.pow_succ_r in Hz by lia.
      split; [apply Z.div_pos; lia|]. apply Z.div_lt_upper_bound; lia.
Qed.

(** No leading zero, except for zero itself. *)
Definition canonical_digits (l : list ascii) : Prop :=
  exists c k, l = c :: k /\ (digit_val c = 0 -> k = []).

Lemma print_digits_canonical fuel z :
  0 <= z < 10 ^ Z.of_nat fuel -> (0 < fuel)%nat -> canonical_digits (print_digits fuel z []).
Proof.
  revert z. induction fuel as [|f IH]; intros z Hz Hf; [lia|].
  cbn [print_digits]. destruct (z <? 10) eqn:E.
  - eexists _, _. split; [done|]. done.
  - rewrite Nat2Z.inj_succ, Z.pow_succ_r in Hz by lia.
    assert (0 < z / 10 < 10 ^ Z.of_nat f) as Hd.
    { split; [apply Z.div_str_pos; lia|apply Z.div_lt_upper_bound; lia]. }
    destruct f as [|f]; [cbn in Hd; lia|].
    destruct (IH (z / 10) ltac:(lia) ltac:(lia)) as (c & k & Hk & Hc).
    rewrite print_digits_app. pose proof (print_digits_value (S f) (z / 10) ltac:(lia)) as Hv.
    rewrite Hk in Hv |- *. eexists _, _. split; [done|]. intros Hz0.
    rewrite (Hc Hz0) in Hv. cbn in Hv. lia.
Qed.

(** Canonical digit lists are determined by their value. *)
Lemma canonical_digits_inj l k :
  all_digits l -> all_digits k -> canonical_digits l -> canonical_digits k ->
  digits_value 0 l = digits_value 0 k -> l = k.
Proof.
  intros Hl Hk (c & l' & -> & Hc) (e & k' & -> & He) Hv.
  inversion Hl as [|? ? Hcd Hl']; inversion Hk as [|? ? Hed Hk']; subst.
  apply is_ascii_digit_val in Hcd, Hed.
  apply digits_value_inj; [done..| |done]. cbn [length].
  cbn [digits_value] in Hv. rewrite (digits_value_shift _ l'), (digits_value_shift _ k') in Hv.
  pose proof (digits_value_bounds l' Hl') as Bl. pose proof (digits_value_bounds k' Hk') as Bk.
  destruct (decide (digit_val c = 0)) as [Zc|Zc]; destruct (decide (digit_val e = 0)) as [Ze|Ze].
  - by rewrite (Hc Zc), (He Ze).
  - rewrite (Hc Zc) in *. cbn in Hv. exfalso.
    pose proof (Z.pow_pos_nonneg 10 (list_len k') ltac:(lia) ltac:(nonneg)). nia.
  - rewrite (He Ze) in *. cbn in Hv. exfalso.
    pose proof (Z.pow_pos_nonneg 10 (list_len l') ltac:(lia) ltac:(nonneg)). nia.
  - f_equal. unfold list_len in *.
    destruct (Nat.lt_trichotomy (length l') (length k')) as [L|[L|L]]; [|done|]; exfalso.
    + assert (10 ^ (Z.of_nat (length l') + 1) <= 10 ^ Z.of_nat (length k')) as P
        by (apply Z.pow_le_mono_r; lia).
      rewrite Z.pow_add_r in P by lia. nia.
    + assert (10 ^ (Z.of_nat (length k') + 1) <= 10 ^ Z.of_nat (length l')) as P
        by (apply Z.pow_le_mono_r; lia).
      rewrite Z.pow_add_r in P by lia. nia.
Qed.

(** ** Canonical integers *)

Lemma validate_canonical_spec value :
  validate_canonical_nonnegative_integer value = Ok tt <->
  all_digits (bytes value) /\ canonical_digits (bytes value).
Proof.
  unfold validate_canonical_nonnegative_integer. rewrite str_len_bytes.
  case_bool_decide as He; [subst; split; [done|]; intros [_ (? & ? & [=] & _)]|].
  destruct (forallb is_ascii_digit (bytes value)) eqn:Ed; cbn.
  2:{ split; [done|]. intros [H _]. apply forallb_Forall_true in H. congruence. }
  apply forallb_Forall_true in Ed.
  destruct (bytes value) as [|c k] eqn:Eb.
  { exfalso. apply He. apply bytes_inj. by rewrite Eb. }
  destruct ((1 <? list_len (c :: k)) && starts_with "0" value) eqn:Ez.
  - split; [done|]. intros [_ (c' & k' & [= <- <-] & Hc)].
    apply andb_prop in Ez as [Hl Hp]. apply starts_with_true in Hp as (l & Hp).
    rewrite Eb in Hp. injection Hp as -> ->. rewrite (Hc eq_refl) in Hl. done.
  - split; [|done]. intros _. split; [done|]. exists c, k. split; [done|]. intros Hc.
    apply andb_false_iff in Ez as [Hl|Hp].
    + rewrite list_len_cons in Hl. apply Z.ltb_ge in Hl. destruct k; [done|].
      rewrite list_len_cons in Hl. pose proof (list_len_nonneg k). lia.
    + assert (starts_with "0" value = true) as Hp'; [|congruence].
      apply starts_with_true. exists k. rewrite Eb. f_equal.
      apply digit_val_inj. by rewrite Hc.
Qed.

Lemma parse_u64_digits value :
  all_digits (bytes value) -> bytes value <> [] ->
  parse_u64 value = checked U64 (digits_value 0 (bytes value)).
Proof.
  intros H Hne. unfold parse_u64.
  rewrite <-(parse_digits_spec U64 0 (bytes value)) by (cbn; (lia || done)).
  destruct (bytes value) as [|c k]; [done|].
  inversion H as [|? ? Hc _]; subst.
  destruct (decide (c = "+"%char)) as [->|Hn]; [done|].
  destruct c as [[] [] [] [] [] [] [] []]; try done; destruct k; done.
Qed.

(** The parser accepts exactly the canonical decimal numerals in range, and
    returns what they denote. *)
Lemma parse_canonical_u64_ok value z :
  parse_canonical_u64 value = Ok z <->
  all_digits (bytes value) /\ canonical_digits (bytes value) /\
  z = digits_value 0 (bytes value) /\ z <= int_max U64.
Proof.
  unfold parse_canonical_u64.
  destruct (validate_canonical_nonnegative_integer value) as [[]|e] eqn:Ev; cbn [result_bind].
  - apply validate_canonical_spec in Ev as [Hd Hc].
    assert (bytes value <> []) by (destruct Hc as (? & ? & -> & _); done).
    rewrite parse_u64_digits by done.
    pose proof (digits_value_bounds _ Hd).
    destruct (checked U64 _) as [v|] eqn:E; cbn [ok_or].
    + apply checked_some in E as [-> ?]. naive_solver lia.
    + apply checked_none in E. split; [done|]. intros (_ & _ & -> & ?). exfalso. apply E.
      cbn in *. lia.
  - split; [done|]. intros (Hd & Hc & _).
    rewrite (proj2 (validate_canonical_spec value)) in Ev; done.
Qed.

Lemma u64_to_string_spec z :
  0 <= z <= int_max U64 ->
  all_digits (bytes (u64_to_string z)) /\ canonical_digits (bytes (u64_to_string z)) /\
  digits_value 0 (bytes (u64_to_string z)) = z.
Proof.
  intros Hz. unfold u64_to_string. rewrite bytes_of_bytes.
  assert (0 <= z < 10 ^ Z.of_nat 20) by (cbn in *; lia).
  split; [|split].
  - apply print_digits_all; [lia|constructor].
  - apply print_digits_canonical; lia.
  - by apply print_digits_value.
Qed.

Lemma parse_print_u64 z : 0 <= z <= int_max U64 -> parse_canonical_u64 (u64_to_string z) = Ok z.
Proof.
  intros Hz. apply parse_canonical_u64_ok.
  destruct (u64_to_string_spec z Hz) as (? & ? & ->). repeat split; auto; lia.
Qed.

Lemma print_parse_u64 value z :
  parse_canonical_u64 value = Ok z -> 0 <= z <= int_max U64 /\ u64_to_string z = value.
Proof.
  intros (Hd & Hc & Hz & Hm)%parse_canonical_u64_ok.
  pose proof (digits_value_bounds _ Hd). split; [lia|].
  destruct (u64_to_string_spec z ltac:(lia)) as (Hd' & Hc' & Hv).
  apply bytes_inj, canonical_digits_inj; auto. congruence.
Qed.

(** ** Theorems *)

(** Schema integers survive serialisation: every [u64] that is printed
    parses back to itself, and every text the parser accepts is the printed
    form of the value it returns, so the wire form is unique. *)
Theorem canonical_u64_roundtrip :
  (forall z, 0 <= z <= int_max U64 -> parse_canonical_u64 (u64_to_string z) = Ok z) /\
  (forall value z, parse_canonical_u64 value = Ok z ->
     0 <= z <= int_max U64 /\ u64_to_string z = value).
Proof. split; [apply parse_print_u64|apply print_parse_u64]. Qed.

Section UuidLaws.
Context (uuid_parse_str : string -> option Z) (uuid_hyphenated : Z -> string).
Hypothesis parse_hyphenated : forall u, uuid_parse_str (uuid_hyphenated u) = Some u.

Lemma CanonicalUuid_parse_ok value u :
  CanonicalUuid_parse uuid_parse_str uuid_hyphenated value = Ok u <->
  CanonicalUuid_to_string uuid_hyphenated u = value.
Proof.
  unfold CanonicalUuid_parse, CanonicalUuid_to_string. split.
  - destruct (uuid_parse_str value) as [p|]; cbn; [|done].
    case_bool_decide as Hb; [done|]. intros [= <-]. cbn.
    by destruct (decide (uuid_hyphenated p = value)).
  - intros <-. rewrite parse_hyphenated. cbn.
    rewrite bool_decide_eq_false_2 by (intros H; by apply H). by destruct u.
Qed.
End UuidLaws.

Lemma elapsed_at_ok clock observed z :
  elapsed_at clock observed = Ok z <->
  z = observed - RunClock_origin clock /\ 0 <= z <= int_max U64.
Proof.
  unfold elapsed_at, checked_duration_since, ElapsedNs_from_duration.
  destruct (observed <? RunClock_origin clock) eqn:E; cbn [ok_or result_bind].
  - split; [done|]. lia.
  - destruct (checked U64 _) as [v|] eqn:Ec; cbn [ok_or].
    + apply checked_some in Ec as [-> ?]. cbn in *. naive_solver lia.
    + apply checked_none in Ec. split; [done|]. intros [-> ?]. exfalso. apply Ec. cbn in *. lia.
Qed.
