(* ===== verification/Scalar.v ===== *)
(** * Scalars: token counts, normalised decimals, currency codes

    Models [troupe-diagnostics-core/src/scalar.rs].  [normalize_decimal] is
    split where the source function changes subject: the grammar of a decimal
    literal ([split_decimal]), the coefficient and scale ([decimal_coefficient],
    [strip_trailing_zeros]), the size check ([decimal_output_bytes]) and the
    output ([render_decimal]). *)

From S2P Require Import Prelude Wire.

Definition MAX_NORMALIZED_DECIMAL_BYTES : Z := 1024 * 1024.

(** ** Newtypes *)

Record TokenCount := mkTokenCount { TokenCount_as_str : string }.

#[export] Instance TokenCount_eq_dec : EqDecision TokenCount.
Proof. solve_decision. Defined.

Definition TokenCount_parse (value : string) : result TokenCount WireValueError :=
  let? _ := validate_canonical_nonnegative_integer value in
  Ok (mkTokenCount value).

Record DecimalString := mkDecimalString { DecimalString_as_str : string }.

#[export] Instance DecimalString_eq_dec : EqDecision DecimalString.
Proof. solve_decision. Defined.

Record CurrencyCode := mkCurrencyCode { CurrencyCode_as_str : string }.

#[export] Instance CurrencyCode_eq_dec : EqDecision CurrencyCode.
Proof. solve_decision. Defined.

Definition CurrencyCode_parse (value : string) : result CurrencyCode WireValueError :=
  if negb (str_len value =? 3) || negb (forallb is_ascii_uppercase (bytes value)) then
    Err "currency must be three uppercase ASCII letters"
  else Ok (mkCurrencyCode value).

(** ** Decimal normalisation *)

(** The leading sign that both the decimal and its exponent may carry. *)
Definition split_sign (value : list ascii) : bool * list ascii :=
  match value with
  | "+"%char :: rest => (false, rest)
  | "-"%char :: rest => (true, rest)
  | _ => (false, value)
  end.

Definition is_exponent_mark (c : ascii) : bool := Ascii.eqb c "e" || Ascii.eqb c "E".

Definition is_point (c : ascii) : bool := Ascii.eqb c ".".

Definition is_zero_digit (c : ascii) : bool := Ascii.eqb c "0".

Definition parse_exponent (value : list ascii) : result Z WireValueError :=
  match value with
  | [] => Err "decimal exponent has no digits"
  | _ =>
      let '(negative, digits) := split_sign value in
      if bool_decide (digits = []) || negb (forallb is_ascii_digit digits) then
        Err "decimal exponent is invalid"
      else
        let? magnitude :=
          ok_or (parse_digits I64 0 digits) "decimal exponent is out of range" in
        if negative then
          ok_or (checked_neg I64 magnitude) "decimal exponent is out of range"
        else Ok magnitude
  end.

Record decimal_parts := mkDecimalParts {
  dp_negative : bool;
  dp_integer : list ascii;
  dp_fraction : list ascii;
  dp_exponent : Z;
}.

(** Mantissa and exponent of the unsigned text. *)
Definition split_exponent (unsigned : list ascii) : result (list ascii * Z) WireValueError :=
  match position is_exponent_mark unsigned with
  | Some p =>
      let exponent_text := drop (S p) unsigned in
      if existsb is_exponent_mark exponent_text then
        Err "decimal has multiple exponents"
      else
        let? exponent := parse_exponent exponent_text in
        Ok (take p unsigned, exponent)
  | None => Ok (unsigned, 0)
  end.

(** Integer and fraction digits of the mantissa. *)
Definition split_mantissa (mantissa : list ascii)
    : result (list ascii * list ascii) WireValueError :=
  match position is_point mantissa with
  | Some p =>
      if existsb is_point (drop (S p) mantissa) then Err "decimal has multiple points"
      else Ok (take p mantissa, drop (S p) mantissa)
  | None => Ok (mantissa, [])
  end.

Definition split_decimal (value : string) : result decimal_parts WireValueError :=
  if bool_decide (value = EmptyString) || negb (is_ascii value) then
    Err "decimal must be nonempty ASCII"
  else
    let '(negative, unsigned) := split_sign (bytes value) in
    if bool_decide (unsigned = []) then Err "decimal has no digits"
    else
      let? me := split_exponent unsigned in
      let? parts := split_mantissa me.1 in
      if bool_decide (parts.1 = []) && bool_decide (parts.2 = []) then
        Err "decimal has no digits"
      else if negb (forallb is_ascii_digit (parts.1 ++ parts.2)) then
        Err "decimal contains a non-digit character"
      else Ok (mkDecimalParts negative parts.1 parts.2 me.2).

(** The digits from the first that is not zero; [None] when all are zero. *)
Definition decimal_coefficient (digits : list ascii) : option (list ascii) :=
  match position (fun c => negb (is_zero_digit c)) digits with
  | Some first_nonzero => Some (drop first_nonzero digits)
  | None => None
  end.

(** The [while] loop, over the reversed coefficient: its last digit is the
    head of the list. *)
Fixpoint strip_trailing_zeros (reversed : list ascii) (scale : Z) : list ascii * Z :=
  match reversed with
  | c :: rest =>
      if (0 <? scale) && is_zero_digit c then strip_trailing_zeros rest (scale - 1)
      else (reversed, scale)
  | [] => ([], scale)
  end.

Definition decimal_output_bytes (negative : bool) (coefficient : list ascii) (scale : Z)
    : result Z WireValueError :=
  let sign_bytes := if negative then 1 else 0 in
  let length := list_len coefficient in
  if scale <=? 0 then
    let? zeroes := ok_or (checked Usize (- scale)) "decimal exponent is out of range" in
    ok_or (n ← checked_add Usize sign_bytes length; checked_add Usize n zeroes)
      "decimal representation is too large"
  else
    let? fractional_digits := ok_or (checked Usize scale) "decimal scale is out of range" in
    ok_or
      (if fractional_digits <? length then
         n ← checked_add Usize sign_bytes length; checked_add Usize n 1
       else
         n ← checked_add Usize sign_bytes fractional_digits; checked_add Usize n 2)
      "decimal representation is too large".

Definition render_decimal (negative : bool) (coefficient : list ascii) (scale : Z) : list ascii :=
  (if negative then ["-"%char] else []) ++
  if scale <=? 0 then
    coefficient ++ replicate (Z.to_nat (- scale)) "0"%char
  else
    let fractional_digits := Z.to_nat scale in
    if (fractional_digits <? length coefficient)%nat then
      let point := (length coefficient - fractional_digits)%nat in
      take point coefficient ++ "."%char :: drop point coefficient
    else
      "0"%char :: "."%char ::
        replicate (fractional_digits - length coefficient) "0"%char ++ coefficient.

(** What follows the grammar: coefficient, scale, size check and output. *)
Definition finish_decimal (parts : decimal_parts) : result string WireValueError :=
  match decimal_coefficient (dp_integer parts ++ dp_fraction parts) with
  | None => Ok "0"
  | Some digits =>
      let? fraction_len :=
        ok_or (checked I128 (list_len (dp_fraction parts))) "decimal scale is out of range" in
      let '(reversed, scale) :=
        strip_trailing_zeros (rev digits) (fraction_len - dp_exponent parts) in
      let coefficient := rev reversed in
      let? output_bytes := decimal_output_bytes (dp_negative parts) coefficient scale in
      if MAX_NORMALIZED_DECIMAL_BYTES <? output_bytes then
        Err "decimal representation is too large"
      else Ok (of_bytes (render_decimal (dp_negative parts) coefficient scale))
  end.

Definition normalize_decimal (value : string) : result string WireValueError :=
  let? parts := split_decimal value in
  finish_decimal parts.

Definition DecimalString_parse (value : string) : result DecimalString WireValueError :=
  result_map mkDecimalString (normalize_decimal value).

(** [Deserialize for DecimalString]: only the normal form is read back. *)
Definition DecimalString_deserialize (value : string) : result DecimalString WireValueError :=
  let? normalized := DecimalString_parse value in
  if bool_decide (DecimalString_as_str normalized <> value) then
    Err "decimal wire value is not canonical"
  else Ok normalized.

Example normalize_examples :
  map normalize_decimal ["1.50"; "-0.0e5"; "+12e3"; "1e-3"; ".5"; "100e-1"; "-7."; "1e"; "1..2"; "x"]%string
  = [Ok "1.5"; Ok "0"; Ok "12000"; Ok "0.001"; Ok "0.5"; Ok "10"; Ok "-7";
     Err "decimal exponent has no digits"; Err "decimal has multiple points";
     Err "decimal contains a non-digit character"]%string.
Proof. vm_compute. reflexivity. Qed.

(** ** The grammar of decimal literals

    A reference definition, independent of the parser: an optional sign,
    integer digits, an optional point with fraction digits, and an optional
    exponent. *)

Inductive sign_text : list ascii -> bool -> Prop :=
| sign_none : sign_text [] false
| sign_plus : sign_text ["+"%char] false
| sign_minus : sign_text ["-"%char] true.

Inductive fraction_text : list ascii -> list ascii -> Prop :=
| fraction_none : fraction_text [] []
| fraction_some ds : fraction_text ("."%char :: ds) ds.

Inductive exponent_text : list ascii -> Z -> Prop :=
| exponent_none : exponent_text [] 0
| exponent_some mark sg negative ds :
    is_exponent_mark mark = true -> sign_text sg negative ->
    all_digits ds -> ds <> [] ->
    exponent_text (mark :: sg ++ ds)
      (if negative then - digits_value 0 ds else digits_value 0 ds).

Inductive decimal_text : list ascii -> decimal_parts -> Prop :=
| decimal_text_intro sg negative integer ft fraction et exponent :
    sign_text sg negative -> fraction_text ft fraction -> exponent_text et exponent ->
    all_digits integer -> all_digits fraction -> integer ++ fraction <> [] ->
    decimal_text (sg ++ integer ++ ft ++ et)
      (mkDecimalParts negative integer fraction exponent).

(** The number a literal denotes is [signed_digits / 10 ^ scale]. *)
Definition signed_digits (p : decimal_parts) : Z :=
  let d := digits_value 0 (dp_integer p ++ dp_fraction p) in
  if dp_negative p then - d else d.

Definition decimal_scale (p : decimal_parts) : Z := list_len (dp_fraction p) - dp_exponent p.

(** Equality of [m / 10 ^ s] and [n / 10 ^ t]. *)
Definition same_decimal (m s n t : Z) : Prop :=
  m * 10 ^ (Z.max 0 (t - s)) = n * 10 ^ (Z.max 0 (s - t)).

(** ** The parser accepts the grammar *)

Lemma digit_not_mark c : is_ascii_digit c = true -> is_exponent_mark c = false.
Proof. by destruct c as [[] [] [] [] [] [] [] []]. Qed.

Lemma digit_not_point c : is_ascii_digit c = true -> is_point c = false.
Proof. by destruct c as [[] [] [] [] [] [] [] []]. Qed.

Lemma digit_is_ascii c : is_ascii_digit c = true -> is_ascii_byte c = true.
Proof. by destruct c as [[] [] [] [] [] [] [] []]. Qed.

Lemma mark_is_ascii c : is_exponent_mark c = true -> is_ascii_byte c = true.
Proof. by destruct c as [[] [] [] [] [] [] [] []]. Qed.

Lemma is_point_true c : is_point c = true -> c = "."%char.
Proof. apply Ascii.eqb_eq. Qed.

Lemma position_first {A} (p : A -> bool) l c k :
  Forall (fun y => p y = false) l -> p c = true -> position p (l ++ c :: k) = Some (length l).
Proof.
  intros Hl Hc. apply position_some. exists c.
  rewrite list_lookup_middle by done. rewrite take_app_length. auto.
Qed.

Lemma existsb_none {A} (p : A -> bool) l :
  existsb p l = false <-> Forall (fun y => p y = false) l.
Proof.
  induction l as [|x l IH]; cbn; [by split|].
  rewrite orb_false_iff, IH, List.Forall_cons_iff. done.
Qed.

Lemma split_sign_sound l negative r :
  split_sign l = (negative, r) -> exists sg, l = sg ++ r /\ sign_text sg negative.
Proof.
  intros H. destruct l as [|c l].
  { injection H as <- <-. exists []. split; [done|constructor]. }
  destruct (decide (c = "+"%char)) as [->|Hp].
  { injection H as <- <-. exists ["+"%char]. split; [done|constructor]. }
  destruct (decide (c = "-"%char)) as [->|Hm].
  { injection H as <- <-. exists ["-"%char]. split; [done|constructor]. }
  exists []. cbn in H.
  destruct c as [[] [] [] [] [] [] [] []]; try done; injection H as <- <-;
    (split; [done|constructor]).
Qed.

Definition sign_free (l : list ascii) : Prop :=
  match l with
  | c :: _ => c <> "+"%char /\ c <> "-"%char
  | [] => True
  end.

Lemma split_sign_complete sg negative r :
  sign_text sg negative -> sign_free r -> split_sign (sg ++ r) = (negative, r).
Proof.
  destruct 1; cbn; [|done..]. destruct r as [|c r]; [done|]. intros [Hp Hm]. cbn.
  destruct c as [[] [] [] [] [] [] [] []]; done.
Qed.

Lemma digits_sign_free l k : all_digits l -> sign_free k -> sign_free (l ++ k).
Proof.
  intros Hl Hk. destruct l as [|c l]; [done|].
  inversion Hl as [|? ? Hc _]; subst. cbn. split; intros ->; done.
Qed.

Lemma parse_exponent_ok l e :
  parse_exponent l = Ok e <->
  (exists sg negative ds, l = sg ++ ds /\ sign_text sg negative /\ all_digits ds /\ ds <> [] /\
     e = (if negative then - digits_value 0 ds else digits_value 0 ds)) /\
  Z.abs e <= int_max I64.
Proof.
  unfold parse_exponent. split.
  - destruct l as [|c l]; [done|]. intros H.
    destruct (split_sign (c :: l)) as [negative ds] eqn:Es.
    apply split_sign_sound in Es as (sg & El & Hsg). rewrite El.
    case_bool_decide as Hd; cbn in H; [done|].
    destruct (forallb is_ascii_digit ds) eqn:Ed; cbn [negb] in H; [|done].
    apply forallb_Forall_true in Ed. pose proof (digits_value_bounds _ Ed).
    rewrite parse_digits_spec in H by (cbn; (lia || done)).
    destruct (checked I64 _) as [m|] eqn:Em; cbn in H; [|done].
    apply checked_some in Em as [-> Hm]. cbn in Hm.
    split; [exists sg, negative, ds; repeat split; auto|].
    + destruct negative; [|by injection H as <-].
      destruct (checked_neg I64 _) as [v|] eqn:Ev; cbn in H; [|done].
      apply checked_some in Ev as [-> _]. by injection H as <-.
    + destruct negative; [|injection H as <-; cbn; lia].
      destruct (checked_neg I64 _) as [v|] eqn:Ev; cbn in H; [|done].
      apply checked_some in Ev as [-> _]. injection H as <-. cbn. lia.
  - intros [(sg & negative & ds & -> & Hsg & Hds & Hne & ->) Hmax].
    pose proof (digits_value_bounds _ Hds).
    assert (digits_value 0 ds <= int_max I64) by (destruct negative; lia).
    destruct (sg ++ ds) as [|c l] eqn:El.
    { by apply app_eq_nil in El as [_ ->]. }
    rewrite <-El, (split_sign_complete _ _ _ Hsg)
      by (rewrite <-(app_nil_r ds); by apply digits_sign_free).
    rewrite bool_decide_eq_false_2 by done.
    rewrite (proj2 (forallb_Forall_true _ _) Hds). cbn [negb orb].
    rewrite parse_digits_spec by (cbn; (lia || done)).
    rewrite checked_in_range by (cbn in *; lia). cbn [ok_or result_bind].
    destruct negative; [|done]. unfold checked_neg.
    rewrite checked_in_range by (cbn in *; lia). done.
Qed.

Lemma take_drop_position {A} (p : A -> bool) l n :
  position p l = Some n ->
  exists x, l = take n l ++ x :: drop (S n) l /\ p x = true /\
    Forall (fun y => p y = false) (take n l).
Proof.
  intros (x & Hx & Hp & Hf)%position_some. exists x. split; [|done].
  by rewrite take_drop_middle.
Qed.

Lemma split_mantissa_ok l integer fraction :
  split_mantissa l = Ok (integer, fraction) ->
  exists ft, l = integer ++ ft /\ fraction_text ft fraction.
Proof.
  unfold split_mantissa. destruct (position is_point l) as [n|] eqn:E.
  - apply take_drop_position in E as (x & Hl & Hx & _). apply is_point_true in Hx as ->.
    destruct (existsb _ _); [done|]. intros [= <- <-].
    exists ("."%char :: drop (S n) l). split; [done|constructor].
  - intros [= <- <-]. exists []. split; [by rewrite app_nil_r|constructor].
Qed.

Lemma split_mantissa_complete integer ft fraction :
  all_digits integer -> all_digits fraction -> fraction_text ft fraction ->
  split_mantissa (integer ++ ft) = Ok (integer, fraction).
Proof.
  intros Hi Hf Hft. unfold split_mantissa.
  assert (Forall (fun c => is_point c = false) integer) as Hip
    by (eapply Forall_weaken; [exact Hi|]; apply digit_not_point).
  destruct Hft as [|ds].
  - rewrite app_nil_r. by rewrite (proj2 (position_none _ _) Hip).
  - rewrite position_first by done. rewrite take_app_length.
    replace (drop (S (length integer)) (integer ++ "."%char :: ds)) with ds
      by (rewrite (cons_middle _ integer ds), app_assoc, drop_app_length'; [done|]; rewrite length_app; cbn; lia).
    rewrite (proj2 (existsb_none _ _)); [done|].
    eapply Forall_weaken; [exact Hf|]; apply digit_not_point.
Qed.

Lemma split_exponent_ok l mantissa e :
  split_exponent l = Ok (mantissa, e) ->
  exists et, l = mantissa ++ et /\ exponent_text et e /\ Z.abs e <= int_max I64.
Proof.
  unfold split_exponent. destruct (position is_exponent_mark l) as [n|] eqn:E.
  - apply take_drop_position in E as (x & Hl & Hx & _).
    destruct (existsb _ _); [done|]. destruct (parse_exponent _) as [v|] eqn:Ep; cbn; [|done].
    intros [= <- ->]. apply parse_exponent_ok in Ep as [(sg & neg & ds & Ed & Hsg & Hds & Hne & ->) Hm].
    exists (x :: drop (S n) l). split; [done|]. split; [|done]. rewrite Ed. by constructor.
  - intros [= <- <-]. exists []. split; [by rewrite app_nil_r|]. split; [constructor|]. cbn. lia.
Qed.

Lemma split_exponent_complete mantissa et e :
  Forall (fun c => is_exponent_mark c = false) mantissa ->
  exponent_text et e -> Z.abs e <= int_max I64 ->
  split_exponent (mantissa ++ et) = Ok (mantissa, e).
Proof.
  intros Hm Het Hmax. unfold split_exponent. destruct Het as [|mark sg neg ds Hmk Hsg Hds Hne].
  - rewrite app_nil_r. by rewrite (proj2 (position_none _ _) Hm).
  - rewrite position_first by done. rewrite take_app_length.
    replace (drop (S (length mantissa)) (mantissa ++ mark :: sg ++ ds)) with (sg ++ ds)
      by (rewrite (cons_middle mark mantissa), app_assoc, drop_app_length'; [done|]; rewrite length_app; cbn; lia).
    rewrite (proj2 (existsb_none _ _)).
    + erewrite (proj2 (parse_exponent_ok (sg ++ ds) _)); [cbn; reflexivity|].
      split; [|exact Hmax]. eauto 10.
    + apply Forall_app. split.
      * destruct Hsg; by repeat constructor.
      * eapply Forall_weaken; [exact Hds|]; apply digit_not_mark.
Qed.

Lemma split_decimal_sound value p :
  split_decimal value = Ok p ->
  decimal_text (bytes value) p /\ Z.abs (dp_exponent p) <= int_max I64.
Proof.
  unfold split_decimal.
  destruct (bool_decide (value = EmptyString) || negb (is_ascii value)); [done|].
  destruct (split_sign (bytes value)) as [negative unsigned] eqn:Es.
  apply split_sign_sound in Es as (sg & Hv & Hsg).
  case_bool_decide; [done|].
  destruct (split_exponent unsigned) as [[mantissa e]|] eqn:Ee; cbn; [|done].
  apply split_exponent_ok in Ee as (et & -> & Het & Hmax).
  destruct (split_mantissa mantissa) as [[integer fraction]|] eqn:Em; cbn; [|done].
  apply split_mantissa_ok in Em as (ft & -> & Hft).
  destruct (bool_decide (integer = []) && bool_decide (fraction = [])) eqn:Eb; [done|].
  destruct (forallb is_ascii_digit (integer ++ fraction)) eqn:Ed; cbn; [|done].
  intros [= <-]. cbn. split; [|done].
  apply forallb_Forall_true, Forall_app in Ed as [Hi Hf].
  rewrite Hv, <-app_assoc. constructor; auto.
  intros [-> ->]%app_eq_nil. done.
Qed.

Lemma decimal_text_ascii l p : decimal_text l p -> Forall (fun c => is_ascii_byte c = true) l.
Proof.
  intros [sg neg i ft f et e Hsg Hft Het Hi Hf Hne].
  assert (forall ds, all_digits ds -> Forall (fun c => is_ascii_byte c = true) ds) as Hd
    by (intros ds Hds; eapply Forall_weaken; [exact Hds|]; apply digit_is_ascii).
  assert (forall t n, sign_text t n -> Forall (fun c => is_ascii_byte c = true) t) as Hs
    by (intros ? ? []; by repeat constructor).
  repeat (apply Forall_app; split); eauto.
  - destruct Hft; [constructor|]. constructor; auto.
  - destruct Het as [|mark]; [constructor|]. constructor; [by apply mark_is_ascii|].
    apply Forall_app; split; eauto.
Qed.

Lemma split_decimal_complete value p :
  decimal_text (bytes value) p -> Z.abs (dp_exponent p) <= int_max I64 ->
  split_decimal value = Ok p.
Proof.
  intros Ht Hmax. pose proof (decimal_text_ascii _ _ Ht) as Hascii.
  unfold split_decimal, is_ascii.
  rewrite (proj2 (forallb_Forall_true _ _) Hascii).
  inversion Ht as [sg neg i ft f et e Hsg Hft Het Hi Hf Hne Hb Hp]; subst p. cbn in Hmax.
  assert (i ++ ft ++ et <> []) as Hu.
  { intros (-> & (Eft & ->)%app_eq_nil)%app_eq_nil. destruct Hft; [|done]. done. }
  assert (value <> EmptyString) as Hv.
  { intros ->. cbn in Hb. by apply app_eq_nil in Hb as [_ ?]. }
  rewrite bool_decide_eq_false_2 by done. cbn [orb negb].
  assert (sign_free (ft ++ et)) as Hfree.
  { destruct Hft; [|cbn; split; done]. destruct Het as [|mark ? ? ? Hmk]; [done|].
    cbn. split; intros ->; done. }
  rewrite (split_sign_complete _ _ _ Hsg) by (by apply digits_sign_free).
  rewrite bool_decide_eq_false_2 by done.
  rewrite app_assoc, (split_exponent_complete _ _ e); cbn [result_bind]; [| |done..].
  2:{ apply Forall_app; split; [eapply Forall_weaken; [exact Hi|]; apply digit_not_mark|].
      destruct Hft; [constructor|]. constructor; [done|].
      eapply Forall_weaken; [exact Hf|]; apply digit_not_mark. }
  cbn. rewrite (split_mantissa_complete _ _ f) by done. cbn.
  rewrite (proj2 (forallb_Forall_true _ _)) by (by apply Forall_app). cbn.
  case_bool_decide; case_bool_decide; cbn; try done. by subst.
Qed.

(** ** Decimal values *)

Lemma same_decimal_at N m s n t :
  s <= N -> t <= N -> (same_decimal m s n t <-> m * 10 ^ (N - s) = n * 10 ^ (N - t)).
Proof.
  intros Hs Ht. unfold same_decimal.
  assert (0 < 10 ^ (N - Z.max s t)) by (apply Z.pow_pos_nonneg; lia).
  replace (N - s) with (Z.max 0 (t - s) + (N - Z.max s t)) by lia.
  replace (N - t) with (Z.max 0 (s - t) + (N - Z.max s t)) by lia.
  rewrite !Z.pow_add_r by lia. rewrite !Z.mul_assoc. split; [by intros ->|nia].
Qed.

Lemma same_decimal_refl m s : same_decimal m s m s.
Proof. done. Qed.

Lemma same_decimal_sym m s n t : same_decimal m s n t -> same_decimal n t m s.
Proof. unfold same_decimal. by intros ->. Qed.

Lemma same_decimal_trans m s n t o u :
  same_decimal m s n t -> same_decimal n t o u -> same_decimal m s o u.
Proof.
  pose (N := Z.max s (Z.max t u)).
  rewrite !(same_decimal_at N) by lia. congruence.
Qed.

Lemma same_decimal_shift m s n : 0 <= n -> same_decimal m s (m * 10 ^ n) (s + n).
Proof.
  intros. apply (same_decimal_at (s + n)); [lia..|].
  replace (s + n - s) with n by lia. replace (s + n - (s + n)) with 0 by lia. lia.
Qed.

Lemma same_decimal_opp m s n t : same_decimal m s n t <-> same_decimal (- m) s (- n) t.
Proof. unfold same_decimal. lia. Qed.

Lemma same_decimal_zero m s t : same_decimal m s 0 t <-> m = 0.
Proof.
  unfold same_decimal. assert (0 < 10 ^ (Z.max 0 (t - s))) by (apply Z.pow_pos_nonneg; lia).
  nia.
Qed.

Lemma same_decimal_pos m s n t : same_decimal m s n t -> 0 < m <-> 0 < n.
Proof.
  unfold same_decimal. assert (0 < 10 ^ (Z.max 0 (t - s))) by (apply Z.pow_pos_nonneg; lia).
  assert (0 < 10 ^ (Z.max 0 (s - t))) by (apply Z.pow_pos_nonneg; lia). nia.
Qed.

(** ** Coefficients *)

Lemma is_zero_digit_val c : is_zero_digit c = true <-> c = "0"%char.
Proof. apply Ascii.eqb_eq. Qed.

Lemma digits_value_zeros n : digits_value 0 (replicate n "0"%char) = 0.
Proof. induction n as [|n IH]; cbn; [done|exact IH]. Qed.

Lemma all_digits_zeros n : all_digits (replicate n "0"%char).
Proof. induction n; cbn; constructor; auto. Qed.

Lemma digits_value_app_zeros l n :
  digits_value 0 (l ++ replicate n "0"%char) = digits_value 0 l * 10 ^ Z.of_nat n.
Proof.
  rewrite digits_value_app, digits_value_shift, digits_value_zeros.
  unfold list_len. rewrite length_replicate. lia.
Qed.

(** A coefficient without leading zeroes. *)
Definition leading_nonzero (l : list ascii) : Prop :=
  match l with
  | c :: _ => c <> "0"%char
  | [] => False
  end.

Lemma leading_nonzero_canonical l : leading_nonzero l -> canonical_digits l.
Proof.
  destruct l as [|c l]; [done|]. intros Hc. exists c, l. split; [done|]. intros H0.
  exfalso. apply Hc. apply digit_val_inj. by rewrite H0.
Qed.

Lemma leading_nonzero_pos l : all_digits l -> leading_nonzero l -> 0 < digits_value 0 l.
Proof.
  destruct l as [|c l]; [done|]. intros H Hc. inversion H as [|? ? Hd Hl]; subst.
  apply is_ascii_digit_val in Hd. cbn [digits_value].
  assert (digit_val c <> 0) by (intros E; apply Hc, digit_val_inj; by rewrite E).
  pose proof (digits_value_le_acc (0 * 10 + digit_val c) l ltac:(lia) Hl). lia.
Qed.

Lemma digits_value_all_zero l :
  Forall (fun c => negb (is_zero_digit c) = false) l -> digits_value 0 l = 0.
Proof.
  induction 1 as [|c l Hc _ IH]; [done|]. cbn.
  apply negb_false_iff, is_zero_digit_val in Hc as ->. exact IH.
Qed.

Lemma decimal_coefficient_none ds :
  decimal_coefficient ds = None -> digits_value 0 ds = 0.
Proof.
  unfold decimal_coefficient. destruct (position _ _) eqn:E; [done|]. intros _.
  by apply digits_value_all_zero, position_none.
Qed.

Lemma decimal_coefficient_some ds k :
  all_digits ds -> decimal_coefficient ds = Some k ->
  all_digits k /\ leading_nonzero k /\ digits_value 0 ds = digits_value 0 k.
Proof.
  unfold decimal_coefficient. destruct (position _ _) as [n|] eqn:E; [|done]. intros Hd [= <-].
  apply take_drop_position in E as (x & Hx & Hp & Hf).
  assert (drop n ds = x :: drop (S n) ds) as Hdr.
  { rewrite Hx at 1. rewrite drop_app_length'; [done|].
    apply (f_equal length) in Hx. rewrite length_app, length_take in Hx. rewrite length_take.
    cbn in Hx. rewrite length_drop in Hx. lia. }
  split; [by apply Forall_drop|]. split.
  - rewrite Hdr. cbn. intros ->. done.
  - rewrite <-(take_drop n ds) at 1. rewrite digits_value_app.
    by rewrite digits_value_all_zero.
Qed.

Lemma strip_trailing_zeros_spec r s r' s' :
  strip_trailing_zeros r s = (r', s') ->
  exists n, r = replicate n "0"%char ++ r' /\ s' = s - Z.of_nat n /\
    (n = O \/ 0 <= s') /\
    (0 < s' -> match r' with c :: _ => c <> "0"%char | [] => True end).
Proof.
  revert s. induction r as [|c r IH]; intros s; cbn.
  - intros [= <- <-]. exists O. cbn. repeat split; auto; lia.
  - destruct ((0 <? s) && is_zero_digit c) eqn:E.
    + apply andb_prop in E as [Hs Hc]. apply is_zero_digit_val in Hc as ->.
      intros (n & -> & -> & Hn & Hl)%IH. exists (S n). cbn. repeat split; auto; lia.
    + intros [= <- <-]. exists O. cbn. repeat split; auto; [lia|].
      intros Hs ->. cbn in E. apply andb_false_iff in E as [E|E]; [lia|done].
Qed.

(** ** Normal forms

    A coefficient without leading zeroes over [10 ^ k], [0 <= k], whose last
    digit is not zero when there is a fraction. *)

Record normal_form (coefficient : list ascii) (k : Z) : Prop := {
  nf_digits : all_digits coefficient;
  nf_leading : leading_nonzero coefficient;
  nf_scale : 0 <= k;
  nf_trailing : 0 < k -> digits_value 0 coefficient mod 10 <> 0;
}.

Lemma normal_form_scale_le D1 k1 D2 k2 :
  same_decimal D1 k1 D2 k2 -> 0 < k2 -> D2 mod 10 <> 0 -> k2 <= k1.
Proof.
  intros Hs Hk Hm. destruct (Z.le_gt_cases k2 k1) as [|Hlt]; [done|]. exfalso.
  unfold same_decimal in Hs. rewrite (Z.max_l 0 (k1 - k2)), Z.mul_1_r in Hs by lia.
  apply Hm. rewrite <-Hs. rewrite Z.max_r by lia.
  replace (k2 - k1) with (1 + (k2 - k1 - 1)) by lia. rewrite Z.pow_add_r by lia.
  change (10 ^ 1) with 10. rewrite (Z.mul_comm 10), Z.mul_assoc. apply Z.mod_mul. lia.
Qed.

Lemma normal_form_unique c1 k1 c2 k2 :
  normal_form c1 k1 -> normal_form c2 k2 ->
  same_decimal (digits_value 0 c1) k1 (digits_value 0 c2) k2 -> c1 = c2 /\ k1 = k2.
Proof.
  intros [Hd1 Hl1 Hs1 Ht1] [Hd2 Hl2 Hs2 Ht2] Hs.
  assert (k1 = k2) as <-.
  { destruct (Z.lt_trichotomy k1 k2) as [L|[L|L]]; [|done|].
    - pose proof (normal_form_scale_le _ _ _ _ Hs ltac:(lia) (Ht2 ltac:(lia))). lia.
    - pose proof (normal_form_scale_le _ _ _ _ (same_decimal_sym _ _ _ _ Hs) ltac:(lia) (Ht1 ltac:(lia))). lia. }
  split; [|done]. apply canonical_digits_inj; auto using leading_nonzero_canonical.
  unfold same_decimal in Hs. rewrite Z.sub_diag, Z.max_id, Z.pow_0_r in Hs. lia.
Qed.

Lemma digits_value_last l c :
  digits_value 0 (l ++ [c]) = digits_value 0 l * 10 + digit_val c.
Proof. by rewrite digits_value_app. Qed.

Lemma digits_value_last_mod l :
  all_digits l -> match rev l with c :: _ => c <> "0"%char | [] => False end ->
  digits_value 0 l mod 10 <> 0.
Proof.
  intros Hd. destruct (rev l) as [|c r] eqn:E; [done|]. intros Hc.
  apply (f_equal (@rev ascii)) in E. rewrite rev_involutive in E. cbn in E. subst l.
  apply Forall_app in Hd as [_ Hd]. inversion Hd as [|? ? Hcd _]; subst.
  apply is_ascii_digit_val in Hcd. rewrite digits_value_last.
  rewrite Z.add_comm, Z.mod_add by lia. rewrite Z.mod_small by lia.
  intros E. apply Hc, digit_val_inj. by rewrite E.
Qed.

(** The coefficient and scale the loop leaves, brought to a scale that is not
    negative, are a normal form of the same value. *)
Lemma strip_normal_form digits scale reversed scale' :
  all_digits digits -> leading_nonzero digits ->
  strip_trailing_zeros (rev digits) scale = (reversed, scale') ->
  let coefficient := rev reversed ++ replicate (Z.to_nat (- scale')) "0"%char in
  normal_form coefficient (Z.max 0 scale') /\
  same_decimal (digits_value 0 digits) scale (digits_value 0 coefficient) (Z.max 0 scale') /\
  (forall negative, render_decimal negative (rev reversed) scale' =
                    render_decimal negative coefficient (Z.max 0 scale')).
Proof.
  intros Hd Hl Hs. apply strip_trailing_zeros_spec in Hs as (n & Hr & -> & Hn & Ht).
  assert (digits = rev reversed ++ replicate n "0"%char) as Hdig.
  { apply (f_equal (@rev ascii)) in Hr. rewrite rev_involutive, rev_app_distr in Hr.
    rewrite Hr. f_equal. clear. induction n; [done|]. cbn. rewrite IHn.
    clear. induction n; [done|]. cbn. by f_equal. }
  rewrite Hdig in Hd, Hl. apply Forall_app in Hd as [Hrd _].
  assert (leading_nonzero (rev reversed)) as Hlead.
  { destruct (rev reversed); [|done]. destruct n; cbn in Hl; done. }
  intros coefficient. split; [|split].
  - constructor.
    + apply Forall_app; split; [done|apply all_digits_zeros].
    + unfold coefficient. by destruct (rev reversed).
    + lia.
    + intros Hpos. unfold coefficient. replace (Z.to_nat _) with O by lia. rewrite app_nil_r.
      apply digits_value_last_mod; [done|]. rewrite rev_involutive.
      destruct reversed; [done|]. apply Ht. lia.
  - rewrite Hdig, digits_value_app_zeros. apply same_decimal_sym.
    unfold coefficient. rewrite digits_value_app_zeros.
    set (D := digits_value 0 (rev reversed)).
    apply (same_decimal_trans _ _ D (scale - Z.of_nat n)).
    + apply same_decimal_sym.
      destruct (Z.le_gt_cases 0 (scale - Z.of_nat n)).
      * replace (Z.to_nat _) with O by lia. rewrite Z.max_r by lia. cbn. rewrite Z.mul_1_r. done.
      * rewrite Z.max_l by lia. rewrite Z2Nat.id by lia.
        replace 0 with (scale - Z.of_nat n + - (scale - Z.of_nat n)) at 1 by lia.
        apply same_decimal_shift. lia.
    + replace scale with (scale - Z.of_nat n + Z.of_nat n) at 2 by lia.
      apply same_decimal_shift. lia.
  - intros negative. unfold render_decimal, coefficient. f_equal.
    destruct (scale - Z.of_nat n <=? 0) eqn:E.
    + rewrite Z.max_l by lia. cbn. by rewrite app_nil_r.
    + rewrite Z.max_r by lia. replace (Z.to_nat (- _)) with O by lia.
      cbn [replicate]. by rewrite !app_nil_r, E.
Qed.

Lemma render_decimal_length negative coefficient scale n :
  decimal_output_bytes negative coefficient scale = Ok n ->
  n = list_len (render_decimal negative coefficient scale).
Proof.
  unfold decimal_output_bytes, render_decimal. rewrite list_len_app.
  replace (list_len (if negative then ["-"%char] else [])) with (if negative then 1 else 0)
    by (by destruct negative).
  unfold checked_add. destruct (scale <=? 0) eqn:Es.
  - destruct (checked Usize (- scale)) as [z|] eqn:Ez; cbn [ok_or result_bind]; [|done].
    apply checked_some in Ez as [-> ?].
    destruct (checked Usize _) as [a|] eqn:Ea; cbn; [|done]. apply checked_some in Ea as [-> _].
    destruct (checked Usize _) as [b|] eqn:Eb; cbn; [|done]. apply checked_some in Eb as [-> _].
    intros [= <-]. rewrite list_len_app. unfold list_len. rewrite length_replicate. lia.
  - destruct (checked Usize scale) as [z|] eqn:Ez; cbn [ok_or result_bind]; [|done].
    apply checked_some in Ez as [-> ?].
    destruct (Z.to_nat scale <? length coefficient)%nat eqn:El.
    + apply Nat.ltb_lt in El. rewrite (proj2 (Z.ltb_lt _ _)) by (unfold list_len; lia).
      destruct (checked Usize _) as [a|] eqn:Ea; cbn; [|done]. apply checked_some in Ea as [-> _].
      destruct (checked Usize _) as [b|] eqn:Eb; cbn; [|done]. apply checked_some in Eb as [-> _].
      intros [= <-]. rewrite list_len_app, list_len_cons. unfold list_len.
      rewrite length_take, length_drop. lia.
    + apply Nat.ltb_ge in El. rewrite (proj2 (Z.ltb_ge _ _)) by (unfold list_len; lia).
      destruct (checked Usize _) as [a|] eqn:Ea; cbn; [|done]. apply checked_some in Ea as [-> _].
      destruct (checked Usize _) as [b|] eqn:Eb; cbn; [|done]. apply checked_some in Eb as [-> _].
      intros [= <-]. rewrite !list_len_cons, list_len_app. unfold list_len.
      rewrite length_replicate. lia.
Qed.

Lemma decimal_output_bytes_small negative coefficient scale :
  list_len (render_decimal negative coefficient scale) <= MAX_NORMALIZED_DECIMAL_BYTES ->
  decimal_output_bytes negative coefficient scale =
  Ok (list_len (render_decimal negative coefficient scale)).
Proof.
  intros Hmax. assert (exists n, decimal_output_bytes negative coefficient scale = Ok n) as [n Hn].
  2:{ rewrite Hn. by rewrite <-(render_decimal_length _ _ _ _ Hn). }
  revert Hmax. unfold render_decimal, decimal_output_bytes, MAX_NORMALIZED_DECIMAL_BYTES.
  rewrite list_len_app.
  replace (list_len (if negative then ["-"%char] else [])) with (if negative then 1 else 0)
    by (by destruct negative).
  assert (0 <= (if negative then 1 else 0) <= 1) by (destruct negative; lia).
  unfold checked_add. pose proof (list_len_nonneg coefficient). destruct (scale <=? 0) eqn:Es.
  - rewrite list_len_app. unfold list_len at 2. rewrite length_replicate. intros.
    repeat (rewrite !checked_in_range by (cbn; lia); cbn [ok_or result_bind mbind option_bind]).
    eauto.
  - destruct (Z.to_nat scale <? length coefficient)%nat eqn:El.
    + apply Nat.ltb_lt in El. rewrite list_len_app, list_len_cons. unfold list_len.
      rewrite length_take, length_drop. intros.
      rewrite (checked_in_range _ scale) by (cbn; lia). cbn [ok_or result_bind].
      rewrite (proj2 (Z.ltb_lt _ _)) by lia.
      repeat (rewrite !checked_in_range by (cbn; lia); cbn [ok_or mbind option_bind]). eauto.
    + apply Nat.ltb_ge in El. rewrite !list_len_cons, list_len_app. unfold list_len.
      rewrite length_replicate. intros.
      rewrite (checked_in_range _ scale) by (cbn; lia). cbn [ok_or result_bind].
      rewrite (proj2 (Z.ltb_ge _ _)) by lia.
      repeat (rewrite !checked_in_range by (cbn; lia); cbn [ok_or mbind option_bind]). eauto.
Qed.

(** What a rendered normal form denotes. *)
Lemma render_decimal_text negative coefficient k :
  normal_form coefficient k ->
  exists q, decimal_text (render_decimal negative coefficient k) q /\
    dp_negative q = negative /\ dp_exponent q = 0 /\ list_len (dp_fraction q) = k /\
    digits_value 0 (dp_integer q ++ dp_fraction q) = digits_value 0 coefficient.
Proof.
  intros [Hd Hl Hk _]. unfold render_decimal.
  assert (sign_text (if negative then ["-"%char] else []) negative) as Hsg
    by (destruct negative; constructor).
  assert (coefficient <> []) as Hne by (by intros ->).
  destruct (k <=? 0) eqn:E.
  - assert (k = 0) as -> by lia. cbn [Z.opp Z.to_nat replicate].
    exists (mkDecimalParts negative coefficient [] 0). split; [|by rewrite !app_nil_r].
    apply (decimal_text_intro _ _ _ [] [] [] 0); auto; try constructor.
    by rewrite app_nil_r.
  - destruct (Z.to_nat k <? length coefficient)%nat eqn:El.
    + apply Nat.ltb_lt in El. set (n := (length coefficient - Z.to_nat k)%nat).
      exists (mkDecimalParts negative (take n coefficient) (drop n coefficient) 0).
      split; [|repeat split; cbn].
      * rewrite <-(app_nil_r (drop n coefficient)) at 1. rewrite app_comm_cons.
        constructor; auto using Forall_take, Forall_drop; try constructor.
        by rewrite take_drop.
      * unfold list_len. rewrite length_drop. lia.
      * by rewrite take_drop.
    + apply Nat.ltb_ge in El. set (n := (Z.to_nat k - length coefficient)%nat).
      exists (mkDecimalParts negative ["0"%char] (replicate n "0"%char ++ coefficient) 0).
      split; [|repeat split; cbn].
      * rewrite <-(app_nil_r (replicate n _ ++ coefficient)) at 1.
        apply (decimal_text_intro _ _ ["0"%char]
                 ("."%char :: replicate n "0"%char ++ coefficient) _ [] 0);
          auto; try constructor; auto; try constructor.
        apply Forall_app; split; [apply all_digits_zeros|done].
      * rewrite list_len_app. unfold list_len. rewrite length_replicate. lia.
      * change (digits_value (0 * 10 + digit_val "0")) with (digits_value 0).
        by rewrite digits_value_app, digits_value_zeros.
Qed.

Lemma zero_text : decimal_text (bytes "0") (mkDecimalParts false ["0"%char] [] 0).
Proof. apply (decimal_text_intro [] false ["0"%char] [] [] [] 0); repeat constructor; done. Qed.

Lemma decimal_text_digits l p : decimal_text l p -> all_digits (dp_integer p ++ dp_fraction p).
Proof. intros []. by apply Forall_app. Qed.

Lemma decimal_text_fraction_len l p : decimal_text l p -> list_len (dp_fraction p) <= list_len l.
Proof.
  intros [sg neg i ft f et e _ Hft _ _ _ _]. cbn [dp_fraction]. rewrite !list_len_app.
  assert (list_len f <= list_len ft) by (destruct Hft; rewrite ?list_len_cons; lia).
  pose proof (list_len_nonneg sg). pose proof (list_len_nonneg i).
  pose proof (list_len_nonneg et). lia.
Qed.

(** What [finish_decimal] returns: [0], or the rendering of the normal form of
    the value, which is at most one mebibyte long. *)
Lemma finish_decimal_ok p t :
  all_digits (dp_integer p ++ dp_fraction p) -> finish_decimal p = Ok t ->
  (signed_digits p = 0 /\ t = "0"%string) \/
  exists coefficient k, normal_form coefficient k /\
    same_decimal (digits_value 0 (dp_integer p ++ dp_fraction p)) (decimal_scale p)
      (digits_value 0 coefficient) k /\
    t = of_bytes (render_decimal (dp_negative p) coefficient k) /\
    str_len t <= MAX_NORMALIZED_DECIMAL_BYTES.
Proof.
  intros Hd. unfold finish_decimal, signed_digits.
  destruct (decimal_coefficient _) as [digits|] eqn:Ec.
  2:{ intros [= <-]. left. rewrite (decimal_coefficient_none _ Ec). by destruct (dp_negative p). }
  apply decimal_coefficient_some in Ec as (Hdd & Hl & ->); [|done].
  destruct (checked I128 _) as [n|] eqn:En; cbn [ok_or result_bind]; [|done].
  apply checked_some in En as [-> _].
  destruct (strip_trailing_zeros _ _) as [reversed scale] eqn:Es.
  apply strip_normal_form in Es as (Hnf & Hsame & Hrender); [|done..].
  destruct (decimal_output_bytes _ _ _) as [n|] eqn:Eo; cbn [result_bind]; [|done].
  apply render_decimal_length in Eo.
  destruct (MAX_NORMALIZED_DECIMAL_BYTES <? n) eqn:Em; [done|]. intros [= <-]. right.
  eexists _, _. split; [exact Hnf|]. split; [exact Hsame|]. split.
  - by rewrite Hrender.
  - rewrite str_len_bytes, bytes_of_bytes. lia.
Qed.

(** The other direction: a value with a short enough normal form is accepted. *)
Lemma finish_decimal_some p coefficient k :
  all_digits (dp_integer p ++ dp_fraction p) -> normal_form coefficient k ->
  list_len (dp_fraction p) <= int_max I64 ->
  same_decimal (digits_value 0 (dp_integer p ++ dp_fraction p)) (decimal_scale p)
    (digits_value 0 coefficient) k ->
  list_len (render_decimal (dp_negative p) coefficient k) <= MAX_NORMALIZED_DECIMAL_BYTES ->
  finish_decimal p = Ok (of_bytes (render_decimal (dp_negative p) coefficient k)).
Proof.
  intros Hd Hnf Hfl Hsame Hlen. unfold finish_decimal.
  destruct (decimal_coefficient _) as [digits|] eqn:Ec.
  2:{ apply decimal_coefficient_none in Ec. rewrite Ec in Hsame.
      apply same_decimal_sym, same_decimal_zero in Hsame.
      pose proof (leading_nonzero_pos _ (nf_digits _ _ Hnf) (nf_leading _ _ Hnf)). lia. }
  apply decimal_coefficient_some in Ec as (Hdd & Hl & Hv); [|done]. rewrite Hv in Hsame.
  rewrite checked_in_range
    by (pose proof (list_len_nonneg (dp_fraction p)); cbn in *; lia). cbn [ok_or result_bind].
  destruct (strip_trailing_zeros _ _) as [reversed scale] eqn:Es.
  apply strip_normal_form in Es as (Hnf' & Hsame' & Hrender); [|done..].
  destruct (normal_form_unique _ _ _ _ Hnf' Hnf) as [E1 E2].
  { eapply same_decimal_trans; [apply same_decimal_sym; exact Hsame'|exact Hsame]. }
  rewrite E1, E2 in Hrender.
  rewrite decimal_output_bytes_small by (by rewrite Hrender). cbn [result_bind].
  rewrite Hrender. by rewrite (proj2 (Z.ltb_ge _ _) Hlen).
Qed.

Lemma normalize_decimal_inv value t :
  normalize_decimal value = Ok t ->
  exists p, decimal_text (bytes value) p /\ Z.abs (dp_exponent p) <= int_max I64 /\
    finish_decimal p = Ok t.
Proof.
  unfold normalize_decimal. destruct (split_decimal value) as [p|] eqn:E; cbn; [|done].
  apply split_decimal_sound in E as [? ?]. eauto.
Qed.

Lemma signed_normal_form p coefficient k q :
  same_decimal (digits_value 0 (dp_integer p ++ dp_fraction p)) (decimal_scale p)
    (digits_value 0 coefficient) k ->
  dp_negative q = dp_negative p -> dp_exponent q = 0 -> list_len (dp_fraction q) = k ->
  digits_value 0 (dp_integer q ++ dp_fraction q) = digits_value 0 coefficient ->
  same_decimal (signed_digits p) (decimal_scale p) (signed_digits q) (decimal_scale q).
Proof.
  intros Hs Hneg Hexp Hlen Hv. unfold signed_digits. rewrite Hneg, Hv.
  replace (decimal_scale q) with k by (unfold decimal_scale; lia).
  destruct (dp_negative p); [by apply same_decimal_opp in Hs|done].
Qed.

(** The output is a literal of its own, it has no exponent, and it denotes the
    number of the input. *)
Lemma finish_decimal_value l p t :
  decimal_text l p -> finish_decimal p = Ok t ->
  exists q, decimal_text (bytes t) q /\ dp_exponent q = 0 /\ split_decimal t = Ok q /\
    same_decimal (signed_digits p) (decimal_scale p) (signed_digits q) (decimal_scale q) /\
    str_len t <= MAX_NORMALIZED_DECIMAL_BYTES.
Proof.
  intros Hp Hf.
  assert (exists q, decimal_text (bytes t) q /\ dp_exponent q = 0 /\
    same_decimal (signed_digits p) (decimal_scale p) (signed_digits q) (decimal_scale q) /\
    str_len t <= MAX_NORMALIZED_DECIMAL_BYTES) as (q & Hq & He & Hs & Hlen).
  { destruct (finish_decimal_ok p t (decimal_text_digits _ _ Hp) Hf)
      as [[Hz ->]|(coefficient & k & Hnf & Hs & -> & Hlen)].
    - exists (mkDecimalParts false ["0"%char] [] 0). rewrite Hz.
      split; [apply zero_text|]. split; [done|]. split; [|done].
      apply same_decimal_sym, same_decimal_zero. done.
    - destruct (render_decimal_text (dp_negative p) _ _ Hnf) as (q & Hq & Hn & He & Hl & Hv).
      exists q. rewrite bytes_of_bytes. repeat split; auto. eapply signed_normal_form; eauto. }
  exists q. repeat split; auto. apply split_decimal_complete; [done|]. rewrite He. cbn. lia.
Qed.

Lemma finish_decimal_canonical p1 t1 p2 t2 :
  all_digits (dp_integer p1 ++ dp_fraction p1) -> all_digits (dp_integer p2 ++ dp_fraction p2) ->
  finish_decimal p1 = Ok t1 -> finish_decimal p2 = Ok t2 ->
  same_decimal (signed_digits p1) (decimal_scale p1) (signed_digits p2) (decimal_scale p2) ->
  t1 = t2.
Proof.
  intros Hd1 Hd2 H1 H2 Hs.
  destruct (finish_decimal_ok _ _ Hd1 H1) as [[Hz1 ->]|(c1 & k1 & Hnf1 & Hs1 & -> & _)];
  destruct (finish_decimal_ok _ _ Hd2 H2) as [[Hz2 ->]|(c2 & k2 & Hnf2 & Hs2 & -> & _)].
  - done.
  - exfalso. rewrite Hz1 in Hs. apply same_decimal_sym, same_decimal_zero in Hs.
    pose proof (leading_nonzero_pos _ (nf_digits _ _ Hnf2) (nf_leading _ _ Hnf2)).
    apply same_decimal_pos in Hs2. unfold signed_digits in Hs. destruct (dp_negative p2); lia.
  - exfalso. rewrite Hz2 in Hs. apply same_decimal_zero in Hs.
    pose proof (leading_nonzero_pos _ (nf_digits _ _ Hnf1) (nf_leading _ _ Hnf1)).
    apply same_decimal_pos in Hs1. unfold signed_digits in Hs. destruct (dp_negative p1); lia.
  - pose proof (leading_nonzero_pos _ (nf_digits _ _ Hnf1) (nf_leading _ _ Hnf1)).
    pose proof (leading_nonzero_pos _ (nf_digits _ _ Hnf2) (nf_leading _ _ Hnf2)).
    pose proof (same_decimal_pos _ _ _ _ Hs1). pose proof (same_decimal_pos _ _ _ _ Hs2).
    pose proof (same_decimal_pos _ _ _ _ Hs).
    assert (dp_negative p1 = dp_negative p2) as Hneg.
    { unfold signed_digits in *. destruct (dp_negative p1), (dp_negative p2); done || lia. }
    assert (same_decimal (digits_value 0 c1) k1 (digits_value 0 c2) k2) as Hc.
    { eapply same_decimal_trans; [apply same_decimal_sym; exact Hs1|].
      eapply same_decimal_trans; [|exact Hs2].
      unfold signed_digits in Hs. rewrite Hneg in Hs.
      destruct (dp_negative p2); [by apply same_decimal_opp|done]. }
    destruct (normal_form_unique _ _ _ _ Hnf1 Hnf2 Hc) as [-> ->]. by rewrite Hneg.
Qed.

(** ** Theorems *)

(** Normalisation preserves the number.  An accepted text and its normal
    form are both decimal literals, they denote the same number, and the normal
    form has no exponent and is at most one mebibyte long. *)
Theorem normalize_decimal_value value t :
  normalize_decimal value = Ok t ->
  exists p q, decimal_text (bytes value) p /\ decimal_text (bytes t) q /\
    dp_exponent q = 0 /\
    same_decimal (signed_digits p) (decimal_scale p) (signed_digits q) (decimal_scale q) /\
    str_len t <= MAX_NORMALIZED_DECIMAL_BYTES.
Proof.
  intros (p & Hp & _ & Hf)%normalize_decimal_inv.
  destruct (finish_decimal_value _ _ _ Hp Hf) as (q & ? & ? & _ & ? & ?). eauto 10.
Qed.

(** The normal form is canonical.  Two texts that normalise denote the same
    number exactly when their normal forms are the same string, so equality of
    stored decimals is equality of numbers. *)
Theorem normalize_decimal_canonical v1 t1 v2 t2 :
  normalize_decimal v1 = Ok t1 -> normalize_decimal v2 = Ok t2 ->
  exists p1 p2, decimal_text (bytes v1) p1 /\ decimal_text (bytes v2) p2 /\
    (t1 = t2 <->
     same_decimal (signed_digits p1) (decimal_scale p1) (signed_digits p2) (decimal_scale p2)).
Proof.
  intros (p1 & Hp1 & _ & Hf1)%normalize_decimal_inv (p2 & Hp2 & _ & Hf2)%normalize_decimal_inv.
  exists p1, p2. split; [done|]. split; [done|].
  split; [|apply finish_decimal_canonical; eauto using decimal_text_digits].
  intros <-.
  destruct (finish_decimal_value _ _ _ Hp1 Hf1) as (q1 & _ & _ & Hq1 & Hs1 & _).
  destruct (finish_decimal_value _ _ _ Hp2 Hf2) as (q2 & _ & _ & Hq2 & Hs2 & _).
  rewrite Hq1 in Hq2. injection Hq2 as <-.
  eapply same_decimal_trans; [exact Hs1|]. by apply same_decimal_sym.
Qed.

(** Idempotence, shared by the round trip below. *)
Lemma normalize_decimal_idempotent value t :
  normalize_decimal value = Ok t -> normalize_decimal t = Ok t.
Proof.
  intros (p & Hp & _ & Hf)%normalize_decimal_inv.
  destruct (finish_decimal_value _ _ _ Hp Hf) as (q & Hq & He & Hsp & Hs & Hlen).
  unfold normalize_decimal. rewrite Hsp. cbn.
  destruct (finish_decimal_ok p t (decimal_text_digits _ _ Hp) Hf)
    as [[Hz ->]|(coefficient & k & Hnf & Hsame & -> & _)].
  { vm_compute in Hsp. injection Hsp as <-. reflexivity. }
  destruct (render_decimal_text (dp_negative p) _ _ Hnf) as (q' & Hq' & Hn & He' & Hl & Hv).
  assert (q' = q) as ->.
  { assert (split_decimal (of_bytes (render_decimal (dp_negative p) coefficient k)) = Ok q') as E.
    { apply split_decimal_complete; [by rewrite bytes_of_bytes|]. rewrite He'. cbn. lia. }
    rewrite Hsp in E. by injection E. }
  rewrite str_len_bytes, bytes_of_bytes in Hlen.
  rewrite <-Hn in *. apply finish_decimal_some; auto.
  - by eapply decimal_text_digits.
  - apply decimal_text_fraction_len in Hq'.
    unfold MAX_NORMALIZED_DECIMAL_BYTES in Hlen. unfold int_max. lia.
  - rewrite Hv. replace (decimal_scale q) with k by (unfold decimal_scale; lia). done.
Qed.

(** Stored decimals read back.  What [DecimalString::parse] returns is
    accepted unchanged by the deserialiser, and the deserialiser accepts only
    texts that are their own normal form. *)
Theorem decimal_string_roundtrip value d :
  (DecimalString_parse value = Ok d ->
   DecimalString_deserialize (DecimalString_as_str d) = Ok d) /\
  (DecimalString_deserialize value = Ok d ->
   DecimalString_as_str d = value /\ normalize_decimal value = Ok value).
Proof.
  unfold DecimalString_deserialize, DecimalString_parse. split.
  - destruct (normalize_decimal value) as [t|] eqn:E; cbn; [|done]. intros [= <-]. cbn.
    rewrite (normalize_decimal_idempotent _ _ E). cbn.
    by rewrite bool_decide_eq_false_2 by (intros H; by apply H).
  - destruct (normalize_decimal value) as [t|] eqn:E; cbn; [|done].
    case_bool_decide as Hb; [done|]. intros [= <-]. cbn.
    destruct (decide (t = value)) as [->|]; done.
Qed.

(** ** Witnesses *)

Lemma normalize_decimal_value_witness :
  normalize_decimal "-01.50e1" = Ok "-15"%string /\
  exists p q, decimal_text (bytes "-01.50e1") p /\ decimal_text (bytes "-15") q /\
    dp_exponent q = 0 /\
    same_decimal (signed_digits p) (decimal_scale p) (signed_digits q) (decimal_scale q) /\
    str_len "-15" <= MAX_NORMALIZED_DECIMAL_BYTES.
Proof.
  split; [vm_compute; reflexivity|].
  apply (normalize_decimal_value "-01.50e1" "-15"). vm_compute. reflexivity.
Defined.

Lemma normalize_decimal_canonical_witness :
  normalize_decimal "15e-1" = Ok "1.5"%string /\ normalize_decimal "+1.50" = Ok "1.5"%string /\
  exists p1 p2, decimal_text (bytes "15e-1") p1 /\ decimal_text (bytes "+1.50") p2 /\
    ("1.5" = "1.5" <->
     same_decimal (signed_digits p1) (decimal_scale p1) (signed_digits p2) (decimal_scale p2))%string.
Proof.
  split; [vm_compute; reflexivity|]. split; [vm_compute; reflexivity|].
  apply (normalize_decimal_canonical "15e-1" "1.5" "+1.50" "1.5"); vm_compute; reflexivity.
Defined.
