(* ===== verification/Kinds.v ===== *)
(** * Closed enumerations of the event schema

    Models [troupe-diagnostics-core/src/kinds.rs].  Each enumeration is an
    [Inductive] with the source's variants, prefixed by the name of the type;
    [X_as_str] is the wire name, [X_ALL] the list of variants.  The class
    [ClosedStringEnum] is what the [closed_string_enum] macro gives: the wire
    name of a variant and the serde deserialiser, which accepts exactly the
    names of the variants. *)

From S2P Require Import Prelude.

(** ** The macro *)

Class ClosedStringEnum (A : Type) := {
  enum_as_str : A -> string;
  enum_variants : list A;
}.

(** The derived deserialiser: the variant whose [rename] is the text. *)
Definition enum_from_wire {A} `{ClosedStringEnum A} (wire : string) : option A :=
  head (filter (fun k => enum_as_str k = wire) enum_variants).

(** What an instance promises: every variant is listed and no two variants
    share a wire name. *)
Class ClosedStringEnumLaws (A : Type) `{ClosedStringEnum A} := {
  enum_complete : forall k : A, k ∈ enum_variants;
  enum_names_distinct : NoDup (map enum_as_str enum_variants);
}.

(** Closes the laws of a concrete enumeration: each variant is found in the
    list, and the wire names are compared by computation. *)
Ltac solve_enum_laws :=
  split;
  [ intros []; apply list_elem_of_In; vm_compute; tauto
  | vm_compute; apply NoDup_ListNoDup;
    repeat constructor; vm_compute; intuition discriminate ].

(** ** The enumerations *)

Inductive CausalRelation :=
| CausalRelation_Dispatch
| CausalRelation_Return
| CausalRelation_Handoff
| CausalRelation_Retry
| CausalRelation_FollowsFrom.

#[export] Instance CausalRelation_eq_dec : EqDecision CausalRelation.
Proof. solve_decision. Defined.

Definition CausalRelation_as_str (k : CausalRelation) : string :=
  match k with
  | CausalRelation_Dispatch => "dispatch"
  | CausalRelation_Return => "return"
  | CausalRelation_Handoff => "handoff"
  | CausalRelation_Retry => "retry"
  | CausalRelation_FollowsFrom => "follows_from"
  end.

Definition CausalRelation_ALL : list CausalRelation :=
  [CausalRelation_Dispatch;
   CausalRelation_Return;
   CausalRelation_Handoff;
   CausalRelation_Retry;
   CausalRelation_FollowsFrom].

#[export] Instance CausalRelation_enum : ClosedStringEnum CausalRelation :=
  {| enum_as_str := CausalRelation_as_str; enum_variants := CausalRelation_ALL |}.

#[export] Instance CausalRelation_enum_laws : ClosedStringEnumLaws CausalRelation.
Proof. solve_enum_laws. Qed.

Inductive SpanKind :=
| SpanKind_RunLifecycle
| SpanKind_ProductionPathResolution
| SpanKind_ProductionLoad
| SpanKind_ProductionConstruct
| SpanKind_ProductionStart
| SpanKind_ProductionStop
| SpanKind_ProductionShutdown
| SpanKind_SceneLifecycle
| SpanKind_SceneDrain
| SpanKind_SceneCleanup
| SpanKind_ActorHandleLifetime
| SpanKind_CueMailboxWait
| SpanKind_CueExecution
| SpanKind_EffectLifecycle
| SpanKind_AgentSessionOpening
| SpanKind_AgentSessionLifecycle
| SpanKind_AgentSessionClosing
| SpanKind_ActLifecycle
| SpanKind_ActCaller
| SpanKind_AgentTurn
| SpanKind_AgentThinking
| SpanKind_ToolCall.

#[export] Instance SpanKind_eq_dec : EqDecision SpanKind.
Proof. solve_decision. Defined.

Definition SpanKind_as_str (k : SpanKind) : string :=
  match k with
  | SpanKind_RunLifecycle => "run.lifecycle"
  | SpanKind_ProductionPathResolution => "production.path_resolution"
  | SpanKind_ProductionLoad => "production.load"
  | SpanKind_ProductionConstruct => "production.construct"
  | SpanKind_ProductionStart => "production.start"
  | SpanKind_ProductionStop => "production.stop"
  | SpanKind_ProductionShutdown => "production.shutdown"
  | SpanKind_SceneLifecycle => "scene.lifecycle"
  | SpanKind_SceneDrain => "scene.drain"
  | SpanKind_SceneCleanup => "scene.cleanup"
  | SpanKind_ActorHandleLifetime => "actor.handle_lifetime"
  | SpanKind_CueMailboxWait => "cue.mailbox_wait"
  | SpanKind_CueExecution => "cue.execution"
  | SpanKind_EffectLifecycle => "effect.lifecycle"
  | SpanKind_AgentSessionOpening => "agent.session.opening"
  | SpanKind_AgentSessionLifecycle => "agent.session.lifecycle"
  | SpanKind_AgentSessionClosing => "agent.session.closing"
  | SpanKind_ActLifecycle => "act.lifecycle"
  | SpanKind_ActCaller => "act.caller"
  | SpanKind_AgentTurn => "agent.turn"
  | SpanKind_AgentThinking => "agent.thinking"
  | SpanKind_ToolCall => "tool.call"
  end.

Definition SpanKind_ALL : list SpanKind :=
  [SpanKind_RunLifecycle;
   SpanKind_ProductionPathResolution;
   SpanKind_ProductionLoad;
   SpanKind_ProductionConstruct;
   SpanKind_ProductionStart;
   SpanKind_ProductionStop;
   SpanKind_ProductionShutdown;
   SpanKind_SceneLifecycle;
   SpanKind_SceneDrain;
   SpanKind_SceneCleanup;
   SpanKind_ActorHandleLifetime;
   SpanKind_CueMailboxWait;
   SpanKind_CueExecution;
   SpanKind_EffectLifecycle;
   SpanKind_AgentSessionOpening;
   SpanKind_AgentSessionLifecycle;
   SpanKind_AgentSessionClosing;
   SpanKind_ActLifecycle;
   SpanKind_ActCaller;
   SpanKind_AgentTurn;
   SpanKind_AgentThinking;
   SpanKind_ToolCall].

#[export] Instance SpanKind_enum : ClosedStringEnum SpanKind :=
  {| enum_as_str := SpanKind_as_str; enum_variants := SpanKind_ALL |}.

#[export] Instance SpanKind_enum_laws : ClosedStringEnumLaws SpanKind.
Proof. solve_enum_laws. Qed.

Inductive InstantKind :=
| InstantKind_ActorCast
| InstantKind_CueAdmitted
| InstantKind_CueEnqueued
| InstantKind_CueDispatched
| InstantKind_CueCancelRequested
| InstantKind_EffectCreated
| InstantKind_EffectReturned
| InstantKind_EffectConsumed
| InstantKind_AgentSessionReady
| InstantKind_AgentSessionBroken
| InstantKind_ActAdmitted
| InstantKind_ActWaitingReady
| InstantKind_ActPromptSubmitted
| InstantKind_ActCancelRequested
| InstantKind_ActSupervisorHandoff
| InstantKind_AgentTurnActivity
| InstantKind_AgentTurnTerminal
| InstantKind_AgentTurnSettled
| InstantKind_ToolUpdated
| InstantKind_ResultSubmitted
| InstantKind_ResultRejected
| InstantKind_ResultRepairRequested
| InstantKind_ResultAccepted
| InstantKind_ResultMissing
| InstantKind_DiagnosticComponentFailed.

#[export] Instance InstantKind_eq_dec : EqDecision InstantKind.
Proof. solve_decision. Defined.

Definition InstantKind_as_str (k : InstantKind) : string :=
  match k with
  | InstantKind_ActorCast => "actor.cast"
  | InstantKind_CueAdmitted => "cue.admitted"
  | InstantKind_CueEnqueued => "cue.enqueued"
  | InstantKind_CueDispatched => "cue.dispatched"
  | InstantKind_CueCancelRequested => "cue.cancel_requested"
  | InstantKind_EffectCreated => "effect.created"
  | InstantKind_EffectReturned => "effect.returned"
  | InstantKind_EffectConsumed => "effect.consumed"
  | InstantKind_AgentSessionReady => "agent.session.ready"
  | InstantKind_AgentSessionBroken => "agent.session.broken"
  | InstantKind_ActAdmitted => "act.admitted"
  | InstantKind_ActWaitingReady => "act.waiting_ready"
  | InstantKind_ActPromptSubmitted => "act.prompt_submitted"
  | InstantKind_ActCancelRequested => "act.cancel_requested"
  | InstantKind_ActSupervisorHandoff => "act.supervisor_handoff"
  | InstantKind_AgentTurnActivity => "agent.turn.activity"
  | InstantKind_AgentTurnTerminal => "agent.turn.terminal"
  | InstantKind_AgentTurnSettled => "agent.turn.settled"
  | InstantKind_ToolUpdated => "tool.updated"
  | InstantKind_ResultSubmitted => "result.submitted"
  | InstantKind_ResultRejected => "result.rejected"
  | InstantKind_ResultRepairRequested => "result.repair_requested"
  | InstantKind_ResultAccepted => "result.accepted"
  | InstantKind_ResultMissing => "result.missing"
  | InstantKind_DiagnosticComponentFailed => "diagnostic.component_failed"
  end.

Definition InstantKind_ALL : list InstantKind :=
  [InstantKind_ActorCast;
   InstantKind_CueAdmitted;
   InstantKind_CueEnqueued;
   InstantKind_CueDispatched;
   InstantKind_CueCancelRequested;
   InstantKind_EffectCreated;
   InstantKind_EffectReturned;
   InstantKind_EffectConsumed;
   InstantKind_AgentSessionReady;
   InstantKind_AgentSessionBroken;
   InstantKind_ActAdmitted;
   InstantKind_ActWaitingReady;
   InstantKind_ActPromptSubmitted;
   InstantKind_ActCancelRequested;
   InstantKind_ActSupervisorHandoff;
   InstantKind_AgentTurnActivity;
   InstantKind_AgentTurnTerminal;
   InstantKind_AgentTurnSettled;
   InstantKind_ToolUpdated;
   InstantKind_ResultSubmitted;
   InstantKind_ResultRejected;
   InstantKind_ResultRepairRequested;
   InstantKind_ResultAccepted;
   InstantKind_ResultMissing;
   InstantKind_DiagnosticComponentFailed].

#[export] Instance InstantKind_enum : ClosedStringEnum InstantKind :=
  {| enum_as_str := InstantKind_as_str; enum_variants := InstantKind_ALL |}.

#[export] Instance InstantKind_enum_laws : ClosedStringEnumLaws InstantKind.
Proof. solve_enum_laws. Qed.

Inductive CounterKind :=
| CounterKind_ActorMailboxDepth
| CounterKind_CueActive
| CounterKind_AgentTurnActive
| CounterKind_ResultValidationRejections
| CounterKind_DiagnosticDroppedEvents.

#[export] Instance CounterKind_eq_dec : EqDecision CounterKind.
Proof. solve_decision. Defined.

Definition CounterKind_as_str (k : CounterKind) : string :=
  match k with
  | CounterKind_ActorMailboxDepth => "actor.mailbox_depth"
  | CounterKind_CueActive => "cue.active"
  | CounterKind_AgentTurnActive => "agent.turn.active"
  | CounterKind_ResultValidationRejections => "result.validation_rejections"
  | CounterKind_DiagnosticDroppedEvents => "diagnostic.dropped_events"
  end.

Definition CounterKind_ALL : list CounterKind :=
  [CounterKind_ActorMailboxDepth;
   CounterKind_CueActive;
   CounterKind_AgentTurnActive;
   CounterKind_ResultValidationRejections;
   CounterKind_DiagnosticDroppedEvents].

#[export] Instance CounterKind_enum : ClosedStringEnum CounterKind :=
  {| enum_as_str := CounterKind_as_str; enum_variants := CounterKind_ALL |}.

#[export] Instance CounterKind_enum_laws : ClosedStringEnumLaws CounterKind.
Proof. solve_enum_laws. Qed.

Inductive SpanOutcome :=
| SpanOutcome_Completed
| SpanOutcome_Cancelled
| SpanOutcome_Failed.

#[export] Instance SpanOutcome_eq_dec : EqDecision SpanOutcome.
Proof. solve_decision. Defined.

Definition SpanOutcome_as_str (k : SpanOutcome) : string :=
  match k with
  | SpanOutcome_Completed => "completed"
  | SpanOutcome_Cancelled => "cancelled"
  | SpanOutcome_Failed => "failed"
  end.

Definition SpanOutcome_ALL : list SpanOutcome :=
  [SpanOutcome_Completed;
   SpanOutcome_Cancelled;
   SpanOutcome_Failed].

#[export] Instance SpanOutcome_enum : ClosedStringEnum SpanOutcome :=
  {| enum_as_str := SpanOutcome_as_str; enum_variants := SpanOutcome_ALL |}.

#[export] Instance SpanOutcome_enum_laws : ClosedStringEnumLaws SpanOutcome.
Proof. solve_enum_laws. Qed.

Inductive PlanEntryPriority :=
| PlanEntryPriority_High
| PlanEntryPriority_Medium
| PlanEntryPriority_Low.

#[export] Instance PlanEntryPriority_eq_dec : EqDecision PlanEntryPriority.
Proof. solve_decision. Defined.

Definition PlanEntryPriority_as_str (k : PlanEntryPriority) : string :=
  match k with
  | PlanEntryPriority_High => "high"
  | PlanEntryPriority_Medium => "medium"
  | PlanEntryPriority_Low => "low"
  end.

Definition PlanEntryPriority_ALL : list PlanEntryPriority :=
  [PlanEntryPriority_High;
   PlanEntryPriority_Medium;
   PlanEntryPriority_Low].

#[export] Instance PlanEntryPriority_enum : ClosedStringEnum PlanEntryPriority :=
  {| enum_as_str := PlanEntryPriority_as_str; enum_variants := PlanEntryPriority_ALL |}.

#[export] Instance PlanEntryPriority_enum_laws : ClosedStringEnumLaws PlanEntryPriority.
Proof. solve_enum_laws. Qed.

Inductive PlanEntryStatus :=
| PlanEntryStatus_Pending
| PlanEntryStatus_InProgress
| PlanEntryStatus_Completed.

#[export] Instance PlanEntryStatus_eq_dec : EqDecision PlanEntryStatus.
Proof. solve_decision. Defined.

Definition PlanEntryStatus_as_str (k : PlanEntryStatus) : string :=
  match k with
  | PlanEntryStatus_Pending => "pending"
  | PlanEntryStatus_InProgress => "in_progress"
  | PlanEntryStatus_Completed => "completed"
  end.

Definition PlanEntryStatus_ALL : list PlanEntryStatus :=
  [PlanEntryStatus_Pending;
   PlanEntryStatus_InProgress;
   PlanEntryStatus_Completed].

#[export] Instance PlanEntryStatus_enum : ClosedStringEnum PlanEntryStatus :=
  {| enum_as_str := PlanEntryStatus_as_str; enum_variants := PlanEntryStatus_ALL |}.

#[export] Instance PlanEntryStatus_enum_laws : ClosedStringEnumLaws PlanEntryStatus.
Proof. solve_enum_laws. Qed.

Inductive ContextSampleOrigin :=
| ContextSampleOrigin_Provider
| ContextSampleOrigin_CarriedForward.

#[export] Instance ContextSampleOrigin_eq_dec : EqDecision ContextSampleOrigin.
Proof. solve_decision. Defined.

Definition ContextSampleOrigin_as_str (k : ContextSampleOrigin) : string :=
  match k with
  | ContextSampleOrigin_Provider => "provider"
  | ContextSampleOrigin_CarriedForward => "carried_forward"
  end.

Definition ContextSampleOrigin_ALL : list ContextSampleOrigin :=
  [ContextSampleOrigin_Provider;
   ContextSampleOrigin_CarriedForward].

#[export] Instance ContextSampleOrigin_enum : ClosedStringEnum ContextSampleOrigin :=
  {| enum_as_str := ContextSampleOrigin_as_str; enum_variants := ContextSampleOrigin_ALL |}.

#[export] Instance ContextSampleOrigin_enum_laws : ClosedStringEnumLaws ContextSampleOrigin.
Proof. solve_enum_laws. Qed.

Inductive UsageAvailability :=
| UsageAvailability_Available
| UsageAvailability_Partial
| UsageAvailability_Unavailable.

#[export] Instance UsageAvailability_eq_dec : EqDecision UsageAvailability.
Proof. solve_decision. Defined.

Definition UsageAvailability_as_str (k : UsageAvailability) : string :=
  match k with
  | UsageAvailability_Available => "available"
  | UsageAvailability_Partial => "partial"
  | UsageAvailability_Unavailable => "unavailable"
  end.

Definition UsageAvailability_ALL : list UsageAvailability :=
  [UsageAvailability_Available;
   UsageAvailability_Partial;
   UsageAvailability_Unavailable].

#[export] Instance UsageAvailability_enum : ClosedStringEnum UsageAvailability :=
  {| enum_as_str := UsageAvailability_as_str; enum_variants := UsageAvailability_ALL |}.

#[export] Instance UsageAvailability_enum_laws : ClosedStringEnumLaws UsageAvailability.
Proof. solve_enum_laws. Qed.

Inductive UsageSource :=
| UsageSource_AcpPromptResponseUsage.

#[export] Instance UsageSource_eq_dec : EqDecision UsageSource.
Proof. solve_decision. Defined.

Definition UsageSource_as_str (k : UsageSource) : string :=
  match k with
  | UsageSource_AcpPromptResponseUsage => "acp.prompt_response.usage"
  end.

Definition UsageSource_ALL : list UsageSource :=
  [UsageSource_AcpPromptResponseUsage].

#[export] Instance UsageSource_enum : ClosedStringEnum UsageSource :=
  {| enum_as_str := UsageSource_as_str; enum_variants := UsageSource_ALL |}.

#[export] Instance UsageSource_enum_laws : ClosedStringEnumLaws UsageSource.
Proof. solve_enum_laws. Qed.

Inductive UsageUnavailableReason :=
| UsageUnavailableReason_PromptNotSubmitted
| UsageUnavailableReason_SourceUnsupported
| UsageUnavailableReason_UsageNotReported
| UsageUnavailableReason_TurnSettlementUnknown.

#[export] Instance UsageUnavailableReason_eq_dec : EqDecision UsageUnavailableReason.
Proof. solve_decision. Defined.

Definition UsageUnavailableReason_as_str (k : UsageUnavailableReason) : string :=
  match k with
  | UsageUnavailableReason_PromptNotSubmitted => "prompt_not_submitted"
  | UsageUnavailableReason_SourceUnsupported => "source_unsupported"
  | UsageUnavailableReason_UsageNotReported => "usage_not_reported"
  | UsageUnavailableReason_TurnSettlementUnknown => "turn_settlement_unknown"
  end.

Definition UsageUnavailableReason_ALL : list UsageUnavailableReason :=
  [UsageUnavailableReason_PromptNotSubmitted;
   UsageUnavailableReason_SourceUnsupported;
   UsageUnavailableReason_UsageNotReported;
   UsageUnavailableReason_TurnSettlementUnknown].

#[export] Instance UsageUnavailableReason_enum : ClosedStringEnum UsageUnavailableReason :=
  {| enum_as_str := UsageUnavailableReason_as_str; enum_variants := UsageUnavailableReason_ALL |}.

#[export] Instance UsageUnavailableReason_enum_laws : ClosedStringEnumLaws UsageUnavailableReason.
Proof. solve_enum_laws. Qed.

Inductive CustomSeverity :=
| CustomSeverity_Debug
| CustomSeverity_Info
| CustomSeverity_Warning
| CustomSeverity_Error.

#[export] Instance CustomSeverity_eq_dec : EqDecision CustomSeverity.
Proof. solve_decision. Defined.

Definition CustomSeverity_as_str (k : CustomSeverity) : string :=
  match k with
  | CustomSeverity_Debug => "debug"
  | CustomSeverity_Info => "info"
  | CustomSeverity_Warning => "warning"
  | CustomSeverity_Error => "error"
  end.

Definition CustomSeverity_ALL : list CustomSeverity :=
  [CustomSeverity_Debug;
   CustomSeverity_Info;
   CustomSeverity_Warning;
   CustomSeverity_Error].

#[export] Instance CustomSeverity_enum : ClosedStringEnum CustomSeverity :=
  {| enum_as_str := CustomSeverity_as_str; enum_variants := CustomSeverity_ALL |}.

#[export] Instance CustomSeverity_enum_laws : ClosedStringEnumLaws CustomSeverity.
Proof. solve_enum_laws. Qed.

Inductive ToolKind :=
| ToolKind_Read
| ToolKind_Edit
| ToolKind_Delete
| ToolKind_Move
| ToolKind_Search
| ToolKind_Execute
| ToolKind_Think
| ToolKind_Fetch
| ToolKind_SwitchMode
| ToolKind_Other.

#[export] Instance ToolKind_eq_dec : EqDecision ToolKind.
Proof. solve_decision. Defined.

Definition ToolKind_as_str (k : ToolKind) : string :=
  match k with
  | ToolKind_Read => "read"
  | ToolKind_Edit => "edit"
  | ToolKind_Delete => "delete"
  | ToolKind_Move => "move"
  | ToolKind_Search => "search"
  | ToolKind_Execute => "execute"
  | ToolKind_Think => "think"
  | ToolKind_Fetch => "fetch"
  | ToolKind_SwitchMode => "switch_mode"
  | ToolKind_Other => "other"
  end.

Definition ToolKind_ALL : list ToolKind :=
  [ToolKind_Read;
   ToolKind_Edit;
   ToolKind_Delete;
   ToolKind_Move;
   ToolKind_Search;
   ToolKind_Execute;
   ToolKind_Think;
   ToolKind_Fetch;
   ToolKind_SwitchMode;
   ToolKind_Other].

#[export] Instance ToolKind_enum : ClosedStringEnum ToolKind :=
  {| enum_as_str := ToolKind_as_str; enum_variants := ToolKind_ALL |}.

#[export] Instance ToolKind_enum_laws : ClosedStringEnumLaws ToolKind.
Proof. solve_enum_laws. Qed.

Inductive ToolCallStatus :=
| ToolCallStatus_Pending
| ToolCallStatus_InProgress
| ToolCallStatus_Completed
| ToolCallStatus_Failed.

#[export] Instance ToolCallStatus_eq_dec : EqDecision ToolCallStatus.
Proof. solve_decision. Defined.

Definition ToolCallStatus_as_str (k : ToolCallStatus) : string :=
  match k with
  | ToolCallStatus_Pending => "pending"
  | ToolCallStatus_InProgress => "in_progress"
  | ToolCallStatus_Completed => "completed"
  | ToolCallStatus_Failed => "failed"
  end.

Definition ToolCallStatus_ALL : list ToolCallStatus :=
  [ToolCallStatus_Pending;
   ToolCallStatus_InProgress;
   ToolCallStatus_Completed;
   ToolCallStatus_Failed].

#[export] Instance ToolCallStatus_enum : ClosedStringEnum ToolCallStatus :=
  {| enum_as_str := ToolCallStatus_as_str; enum_variants := ToolCallStatus_ALL |}.

#[export] Instance ToolCallStatus_enum_laws : ClosedStringEnumLaws ToolCallStatus.
Proof. solve_enum_laws. Qed.

Inductive DiagnosticComponent :=
| DiagnosticComponent_Sink.

#[export] Instance DiagnosticComponent_eq_dec : EqDecision DiagnosticComponent.
Proof. solve_decision. Defined.

Definition DiagnosticComponent_as_str (k : DiagnosticComponent) : string :=
  match k with
  | DiagnosticComponent_Sink => "sink"
  end.

Definition DiagnosticComponent_ALL : list DiagnosticComponent :=
  [DiagnosticComponent_Sink].

#[export] Instance DiagnosticComponent_enum : ClosedStringEnum DiagnosticComponent :=
  {| enum_as_str := DiagnosticComponent_as_str; enum_variants := DiagnosticComponent_ALL |}.

#[export] Instance DiagnosticComponent_enum_laws : ClosedStringEnumLaws DiagnosticComponent.
Proof. solve_enum_laws. Qed.

Inductive ComponentFailureStage :=
| ComponentFailureStage_Enqueue
| ComponentFailureStage_Callback.

#[export] Instance ComponentFailureStage_eq_dec : EqDecision ComponentFailureStage.
Proof. solve_decision. Defined.

Definition ComponentFailureStage_as_str (k : ComponentFailureStage) : string :=
  match k with
  | ComponentFailureStage_Enqueue => "enqueue"
  | ComponentFailureStage_Callback => "callback"
  end.

Definition ComponentFailureStage_ALL : list ComponentFailureStage :=
  [ComponentFailureStage_Enqueue;
   ComponentFailureStage_Callback].

#[export] Instance ComponentFailureStage_enum : ClosedStringEnum ComponentFailureStage :=
  {| enum_as_str := ComponentFailureStage_as_str; enum_variants := ComponentFailureStage_ALL |}.

#[export] Instance ComponentFailureStage_enum_laws : ClosedStringEnumLaws ComponentFailureStage.
Proof. solve_enum_laws. Qed.

Inductive ComponentFailureErrorCode :=
| ComponentFailureErrorCode_DeliveryQueueUnavailable
| ComponentFailureErrorCode_CallbackRaised
| ComponentFailureErrorCode_CallbackInvalidReturn.

#[export] Instance ComponentFailureErrorCode_eq_dec : EqDecision ComponentFailureErrorCode.
Proof. solve_decision. Defined.

Definition ComponentFailureErrorCode_as_str (k : ComponentFailureErrorCode) : string :=
  match k with
  | ComponentFailureErrorCode_DeliveryQueueUnavailable => "delivery_queue_unavailable"
  | ComponentFailureErrorCode_CallbackRaised => "callback_raised"
  | ComponentFailureErrorCode_CallbackInvalidReturn => "callback_invalid_return"
  end.

Definition ComponentFailureErrorCode_ALL : list ComponentFailureErrorCode :=
  [ComponentFailureErrorCode_DeliveryQueueUnavailable;
   ComponentFailureErrorCode_CallbackRaised;
   ComponentFailureErrorCode_CallbackInvalidReturn].

#[export] Instance ComponentFailureErrorCode_enum : ClosedStringEnum ComponentFailureErrorCode :=
  {| enum_as_str := ComponentFailureErrorCode_as_str; enum_variants := ComponentFailureErrorCode_ALL |}.

#[export] Instance ComponentFailureErrorCode_enum_laws : ClosedStringEnumLaws ComponentFailureErrorCode.
Proof. solve_enum_laws. Qed.

(** ** Deserialisation inverts serialisation *)

Lemma NoDup_map_inj {A B} (f : A -> B) (l : list A) x y :
  NoDup (map f l) -> x ∈ l -> y ∈ l -> f x = f y -> x = y.
Proof.
  intros Hnd Hx Hy E. induction l as [|z l IH]; [by apply not_elem_of_nil in Hx|].
  cbn in Hnd. apply NoDup_cons in Hnd as [Hz Hnd].
  apply elem_of_cons in Hx, Hy.
  destruct Hx as [->|Hx], Hy as [->|Hy]; auto; exfalso; apply Hz.
  - rewrite E. by apply list_elem_of_In, in_map, list_elem_of_In.
  - rewrite <-E. by apply list_elem_of_In, in_map, list_elem_of_In.
Qed.

Section EnumRoundTrip.
Context {A : Type} `{ClosedStringEnumLaws A}.

Lemma enum_as_str_inj (k k' : A) : enum_as_str k = enum_as_str k' -> k = k'.
Proof.
  intros E. apply (NoDup_map_inj enum_as_str enum_variants);
    auto using enum_complete, enum_names_distinct.
Qed.

Lemma enum_from_wire_spec (wire : string) (k : A) :
  enum_from_wire wire = Some k <-> enum_as_str k = wire.
Proof.
  unfold enum_from_wire.
  destruct (filter _ _) as [|k' l] eqn:E; cbn; split.
  - done.
  - intros Hk. assert (k ∈ filter (fun k => enum_as_str k = wire) enum_variants) as Hin.
    { apply list_elem_of_filter. auto using enum_complete. }
    rewrite E in Hin. by apply not_elem_of_nil in Hin.
  - intros [= ->]. assert (k ∈ filter (fun k => enum_as_str k = wire) enum_variants) as Hin.
    { rewrite E. apply elem_of_cons. auto. }
    by apply list_elem_of_filter in Hin as [? _].
  - intros Hk. f_equal. apply enum_as_str_inj.
    assert (k' ∈ filter (fun k => enum_as_str k = wire) enum_variants) as Hin.
    { rewrite E. apply elem_of_cons. auto. }
    apply list_elem_of_filter in Hin as [? _]. congruence.
Qed.
End EnumRoundTrip.
