(* ===== verification/Detail.v ===== *)
(** * Event details and custom payloads

    Models [troupe-diagnostics-core/src/detail.rs]: the payload of every
    built-in span and instant, the typed custom attributes, and the bounds that
    custom events must respect.  A [BTreeMap<String, _>] is the list of its
    entries in key order, which is the order the source iterates in. *)

From S2P Require Import Prelude Wire Scalar Kinds.

Abbreviation DetailValidationError := string (only parsing).

Definition MAX_CUSTOM_NAME_BYTES : Z := 128.

Definition MAX_CUSTOM_KEY_BYTES : Z := 64.

Definition MAX_CUSTOM_UNIT_BYTES : Z := 32.

Definition MAX_CUSTOM_ATTRIBUTES : Z := 32.

Definition MAX_CUSTOM_DIMENSIONS : Z := 8.

Definition MAX_CUSTOM_LIST_ITEMS : Z := 64.

(** ** Details *)

Record EmptyDetail := mkEmptyDetail {}.

#[export] Instance EmptyDetail_eq_dec : EqDecision EmptyDetail.
Proof. solve_decision. Defined.

Record ProductionPathResolutionDetail := mkProductionPathResolutionDetail {
  ProductionPathResolutionDetail_production_root : string;
  ProductionPathResolutionDetail_package : string;
}.

#[export] Instance ProductionPathResolutionDetail_eq_dec : EqDecision ProductionPathResolutionDetail.
Proof. solve_decision. Defined.

Record ProductionLoadDetail := mkProductionLoadDetail {
  ProductionLoadDetail_package : string;
}.

#[export] Instance ProductionLoadDetail_eq_dec : EqDecision ProductionLoadDetail.
Proof. solve_decision. Defined.

Record ProductionConstructDetail := mkProductionConstructDetail {
  ProductionConstructDetail_package : string;
  ProductionConstructDetail_class_name : string;
}.

#[export] Instance ProductionConstructDetail_eq_dec : EqDecision ProductionConstructDetail.
Proof. solve_decision. Defined.

Record ActorDetail := mkActorDetail {
  ActorDetail_display_name : string;
  ActorDetail_actor_type : string;
}.

#[export] Instance ActorDetail_eq_dec : EqDecision ActorDetail.
Proof. solve_decision. Defined.

Record EffectDetail := mkEffectDetail {
  EffectDetail_effect_type : string;
}.

#[export] Instance EffectDetail_eq_dec : EqDecision EffectDetail.
Proof. solve_decision. Defined.

Record AgentSessionDetail := mkAgentSessionDetail {
  AgentSessionDetail_provider : string;
  AgentSessionDetail_effective_model : option string;
  AgentSessionDetail_effective_effort : option string;
}.

#[export] Instance AgentSessionDetail_eq_dec : EqDecision AgentSessionDetail.
Proof. solve_decision. Defined.

Record AgentSessionBrokenDetail := mkAgentSessionBrokenDetail {
  AgentSessionBrokenDetail_provider : string;
  AgentSessionBrokenDetail_effective_model : option string;
  AgentSessionBrokenDetail_effective_effort : option string;
  AgentSessionBrokenDetail_error_code : string;
}.

#[export] Instance AgentSessionBrokenDetail_eq_dec : EqDecision AgentSessionBrokenDetail.
Proof. solve_decision. Defined.

Record AgentTurnTerminalDetail := mkAgentTurnTerminalDetail {
  AgentTurnTerminalDetail_error_code : option string;
}.

#[export] Instance AgentTurnTerminalDetail_eq_dec : EqDecision AgentTurnTerminalDetail.
Proof. solve_decision. Defined.

Record ToolCallDetail := mkToolCallDetail {
  ToolCallDetail_title : string;
  ToolCallDetail_tool_kind : ToolKind;
  ToolCallDetail_status : ToolCallStatus;
  ToolCallDetail_error_code : option string;
}.

#[export] Instance ToolCallDetail_eq_dec : EqDecision ToolCallDetail.
Proof. solve_decision. Defined.

Record ResultIssue := mkResultIssue {
  ResultIssue_code : string;
  ResultIssue_path : string;
}.

#[export] Instance ResultIssue_eq_dec : EqDecision ResultIssue.
Proof. solve_decision. Defined.

Record ResultTransitionDetail := mkResultTransitionDetail {
  ResultTransitionDetail_issue : option ResultIssue;
  ResultTransitionDetail_error_code : option string;
}.

#[export] Instance ResultTransitionDetail_eq_dec : EqDecision ResultTransitionDetail.
Proof. solve_decision. Defined.

Record DiagnosticComponentFailedDetail := mkDiagnosticComponentFailedDetail {
  DiagnosticComponentFailedDetail_component : DiagnosticComponent;
  DiagnosticComponentFailedDetail_component_id : RunLocalId;
  DiagnosticComponentFailedDetail_stage : ComponentFailureStage;
  DiagnosticComponentFailedDetail_error_code : ComponentFailureErrorCode;
  DiagnosticComponentFailedDetail_related_event_sequence : option Z;
}.

#[export] Instance DiagnosticComponentFailedDetail_eq_dec : EqDecision DiagnosticComponentFailedDetail.
Proof. solve_decision. Defined.

(** [DiagnosticComponentFailedDetail::new]: a failure stage goes with the error
    codes of that stage. *)
Definition DiagnosticComponentFailedDetail_new (component_id : RunLocalId)
    (stage : ComponentFailureStage) (error_code : ComponentFailureErrorCode)
    (related_event_sequence : option Z)
    : result DiagnosticComponentFailedDetail DetailValidationError :=
  let valid_pair :=
    match stage, error_code with
    | ComponentFailureStage_Enqueue, ComponentFailureErrorCode_DeliveryQueueUnavailable => true
    | ComponentFailureStage_Callback, ComponentFailureErrorCode_CallbackRaised => true
    | ComponentFailureStage_Callback, ComponentFailureErrorCode_CallbackInvalidReturn => true
    | _, _ => false
    end in
  if negb valid_pair then Err "component failure stage and error code do not match"
  else
    Ok (mkDiagnosticComponentFailedDetail DiagnosticComponent_Sink component_id stage error_code
          related_event_sequence).

(** [TryFrom<DiagnosticComponentFailedDetailWire>]. *)
Definition DiagnosticComponentFailedDetail_try_from (component : DiagnosticComponent)
    (component_id : RunLocalId) (stage : ComponentFailureStage)
    (error_code : ComponentFailureErrorCode) (related_event_sequence : option Z)
    : result DiagnosticComponentFailedDetail DetailValidationError :=
  if bool_decide (component <> DiagnosticComponent_Sink) then
    Err "diagnostic component must be sink"
  else
    DiagnosticComponentFailedDetail_new component_id stage error_code related_event_sequence.

Inductive SpanStartDetail :=
| SpanStartDetail_RunLifecycle (detail : EmptyDetail)
| SpanStartDetail_ProductionPathResolution (detail : ProductionPathResolutionDetail)
| SpanStartDetail_ProductionLoad (detail : ProductionLoadDetail)
| SpanStartDetail_ProductionConstruct (detail : ProductionConstructDetail)
| SpanStartDetail_ProductionStart (detail : EmptyDetail)
| SpanStartDetail_ProductionStop (detail : EmptyDetail)
| SpanStartDetail_ProductionShutdown (detail : EmptyDetail)
| SpanStartDetail_SceneLifecycle (detail : EmptyDetail)
| SpanStartDetail_SceneDrain (detail : EmptyDetail)
| SpanStartDetail_SceneCleanup (detail : EmptyDetail)
| SpanStartDetail_ActorHandleLifetime (detail : ActorDetail)
| SpanStartDetail_CueMailboxWait (detail : EmptyDetail)
| SpanStartDetail_CueExecution (detail : EmptyDetail)
| SpanStartDetail_EffectLifecycle (detail : EffectDetail)
| SpanStartDetail_AgentSessionOpening (detail : AgentSessionDetail)
| SpanStartDetail_AgentSessionLifecycle (detail : AgentSessionDetail)
| SpanStartDetail_AgentSessionClosing (detail : AgentSessionDetail)
| SpanStartDetail_ActLifecycle (detail : AgentSessionDetail)
| SpanStartDetail_ActCaller (detail : EmptyDetail)
| SpanStartDetail_AgentTurn (detail : AgentSessionDetail)
| SpanStartDetail_AgentThinking (detail : EmptyDetail)
| SpanStartDetail_ToolCall (detail : ToolCallDetail).

#[export] Instance SpanStartDetail_eq_dec : EqDecision SpanStartDetail.
Proof. solve_decision. Defined.

Definition SpanStartDetail_kind (d : SpanStartDetail) : SpanKind :=
  match d with
  | SpanStartDetail_RunLifecycle _ => SpanKind_RunLifecycle
  | SpanStartDetail_ProductionPathResolution _ => SpanKind_ProductionPathResolution
  | SpanStartDetail_ProductionLoad _ => SpanKind_ProductionLoad
  | SpanStartDetail_ProductionConstruct _ => SpanKind_ProductionConstruct
  | SpanStartDetail_ProductionStart _ => SpanKind_ProductionStart
  | SpanStartDetail_ProductionStop _ => SpanKind_ProductionStop
  | SpanStartDetail_ProductionShutdown _ => SpanKind_ProductionShutdown
  | SpanStartDetail_SceneLifecycle _ => SpanKind_SceneLifecycle
  | SpanStartDetail_SceneDrain _ => SpanKind_SceneDrain
  | SpanStartDetail_SceneCleanup _ => SpanKind_SceneCleanup
  | SpanStartDetail_ActorHandleLifetime _ => SpanKind_ActorHandleLifetime
  | SpanStartDetail_CueMailboxWait _ => SpanKind_CueMailboxWait
  | SpanStartDetail_CueExecution _ => SpanKind_CueExecution
  | SpanStartDetail_EffectLifecycle _ => SpanKind_EffectLifecycle
  | SpanStartDetail_AgentSessionOpening _ => SpanKind_AgentSessionOpening
  | SpanStartDetail_AgentSessionLifecycle _ => SpanKind_AgentSessionLifecycle
  | SpanStartDetail_AgentSessionClosing _ => SpanKind_AgentSessionClosing
  | SpanStartDetail_ActLifecycle _ => SpanKind_ActLifecycle
  | SpanStartDetail_ActCaller _ => SpanKind_ActCaller
  | SpanStartDetail_AgentTurn _ => SpanKind_AgentTurn
  | SpanStartDetail_AgentThinking _ => SpanKind_AgentThinking
  | SpanStartDetail_ToolCall _ => SpanKind_ToolCall
  end.

Inductive InstantDetail :=
| InstantDetail_ActorCast (detail : ActorDetail)
| InstantDetail_CueAdmitted (detail : EmptyDetail)
| InstantDetail_CueEnqueued (detail : EmptyDetail)
| InstantDetail_CueDispatched (detail : EmptyDetail)
| InstantDetail_CueCancelRequested (detail : EmptyDetail)
| InstantDetail_EffectCreated (detail : EffectDetail)
| InstantDetail_EffectReturned (detail : EffectDetail)
| InstantDetail_EffectConsumed (detail : EffectDetail)
| InstantDetail_AgentSessionReady (detail : AgentSessionDetail)
| InstantDetail_AgentSessionBroken (detail : AgentSessionBrokenDetail)
| InstantDetail_ActAdmitted (detail : EmptyDetail)
| InstantDetail_ActWaitingReady (detail : EmptyDetail)
| InstantDetail_ActPromptSubmitted (detail : EmptyDetail)
| InstantDetail_ActCancelRequested (detail : EmptyDetail)
| InstantDetail_ActSupervisorHandoff (detail : EmptyDetail)
| InstantDetail_AgentTurnActivity (detail : EmptyDetail)
| InstantDetail_AgentTurnTerminal (detail : AgentTurnTerminalDetail)
| InstantDetail_AgentTurnSettled (detail : AgentTurnTerminalDetail)
| InstantDetail_ToolUpdated (detail : ToolCallDetail)
| InstantDetail_ResultSubmitted (detail : ResultTransitionDetail)
| InstantDetail_ResultRejected (detail : ResultTransitionDetail)
| InstantDetail_ResultRepairRequested (detail : ResultTransitionDetail)
| InstantDetail_ResultAccepted (detail : ResultTransitionDetail)
| InstantDetail_ResultMissing (detail : ResultTransitionDetail)
| InstantDetail_DiagnosticComponentFailed (detail : DiagnosticComponentFailedDetail).

#[export] Instance InstantDetail_eq_dec : EqDecision InstantDetail.
Proof. solve_decision. Defined.

Definition InstantDetail_kind (d : InstantDetail) : InstantKind :=
  match d with
  | InstantDetail_ActorCast _ => InstantKind_ActorCast
  | InstantDetail_CueAdmitted _ => InstantKind_CueAdmitted
  | InstantDetail_CueEnqueued _ => InstantKind_CueEnqueued
  | InstantDetail_CueDispatched _ => InstantKind_CueDispatched
  | InstantDetail_CueCancelRequested _ => InstantKind_CueCancelRequested
  | InstantDetail_EffectCreated _ => InstantKind_EffectCreated
  | InstantDetail_EffectReturned _ => InstantKind_EffectReturned
  | InstantDetail_EffectConsumed _ => InstantKind_EffectConsumed
  | InstantDetail_AgentSessionReady _ => InstantKind_AgentSessionReady
  | InstantDetail_AgentSessionBroken _ => InstantKind_AgentSessionBroken
  | InstantDetail_ActAdmitted _ => InstantKind_ActAdmitted
  | InstantDetail_ActWaitingReady _ => InstantKind_ActWaitingReady
  | InstantDetail_ActPromptSubmitted _ => InstantKind_ActPromptSubmitted
  | InstantDetail_ActCancelRequested _ => InstantKind_ActCancelRequested
  | InstantDetail_ActSupervisorHandoff _ => InstantKind_ActSupervisorHandoff
  | InstantDetail_AgentTurnActivity _ => InstantKind_AgentTurnActivity
  | InstantDetail_AgentTurnTerminal _ => InstantKind_AgentTurnTerminal
  | InstantDetail_AgentTurnSettled _ => InstantKind_AgentTurnSettled
  | InstantDetail_ToolUpdated _ => InstantKind_ToolUpdated
  | InstantDetail_ResultSubmitted _ => InstantKind_ResultSubmitted
  | InstantDetail_ResultRejected _ => InstantKind_ResultRejected
  | InstantDetail_ResultRepairRequested _ => InstantKind_ResultRepairRequested
  | InstantDetail_ResultAccepted _ => InstantKind_ResultAccepted
  | InstantDetail_ResultMissing _ => InstantKind_ResultMissing
  | InstantDetail_DiagnosticComponentFailed _ => InstantKind_DiagnosticComponentFailed
  end.

Record PlanEntry := mkPlanEntry {
  PlanEntry_content : string;
  PlanEntry_priority : PlanEntryPriority;
  PlanEntry_status : PlanEntryStatus;
}.

#[export] Instance PlanEntry_eq_dec : EqDecision PlanEntry.
Proof. solve_decision. Defined.

(** ** Custom values *)

Record CanonicalInteger := mkCanonicalInteger { CanonicalInteger_as_str : string }.

#[export] Instance CanonicalInteger_eq_dec : EqDecision CanonicalInteger.
Proof. solve_decision. Defined.

(** [str::strip_prefix('-')], with the sign that was found. *)
Definition strip_minus (value : list ascii) : bool * list ascii :=
  match value with
  | "-"%char :: digits => (true, digits)
  | _ => (false, value)
  end.

Definition CanonicalInteger_parse (value : string) : result CanonicalInteger WireValueError :=
  if bool_decide (value = EmptyString) || negb (is_ascii value) then
    Err "integer must be nonempty ASCII"
  else
    let '(negative, digits) := strip_minus (bytes value) in
    if bool_decide (digits = []) || negb (forallb is_ascii_digit digits) then
      Err "integer must contain only an optional minus and decimal digits"
    else if ((1 <? list_len digits) && starts_with "0" (of_bytes digits))
            || (negative && bool_decide (digits = ["0"%char])) then
      Err "integer wire value is not canonical"
    else Ok (mkCanonicalInteger value).

Inductive DiagnosticScalar :=
| DiagnosticScalar_Null
| DiagnosticScalar_Boolean (b : bool)
| DiagnosticScalar_Integer (i : CanonicalInteger)
| DiagnosticScalar_Decimal (d : DecimalString)
| DiagnosticScalar_String (s : string).

#[export] Instance DiagnosticScalar_eq_dec : EqDecision DiagnosticScalar.
Proof. solve_decision. Defined.

Inductive DiagnosticAttributeValue :=
| DiagnosticAttributeValue_Null
| DiagnosticAttributeValue_Boolean (b : bool)
| DiagnosticAttributeValue_Integer (i : CanonicalInteger)
| DiagnosticAttributeValue_Decimal (d : DecimalString)
| DiagnosticAttributeValue_String (s : string)
| DiagnosticAttributeValue_List (items : list DiagnosticScalar).

#[export] Instance DiagnosticAttributeValue_eq_dec : EqDecision DiagnosticAttributeValue.
Proof. solve_decision. Defined.

Inductive DiagnosticDimension :=
| DiagnosticDimension_Boolean (b : bool)
| DiagnosticDimension_Integer (i : CanonicalInteger)
| DiagnosticDimension_Decimal (d : DecimalString)
| DiagnosticDimension_String (s : string).

#[export] Instance DiagnosticDimension_eq_dec : EqDecision DiagnosticDimension.
Proof. solve_decision. Defined.

Inductive CustomNumber :=
| CustomNumber_Integer (i : CanonicalInteger)
| CustomNumber_Decimal (d : DecimalString).

#[export] Instance CustomNumber_eq_dec : EqDecision CustomNumber.
Proof. solve_decision. Defined.

Abbreviation DiagnosticAttributes := (list (string * DiagnosticAttributeValue)) (only parsing).
Abbreviation DiagnosticDimensions := (list (string * DiagnosticDimension)) (only parsing).

(** ** Validation of custom payloads *)

(** [str::split(c)] on the bytes: never empty. *)
Fixpoint split_on (c : ascii) (l : list ascii) : list (list ascii) :=
  match l with
  | [] => [[]]
  | d :: l' =>
      if Ascii.eqb d c then [] :: split_on c l'
      else
        match split_on c l' with
        | segment :: rest => (d :: segment) :: rest
        | [] => [[d]]
        end
  end.

Definition is_identifier_byte (c : ascii) : bool :=
  is_ascii_lowercase c || is_ascii_digit c || Ascii.eqb c "_".

Definition valid_identifier_segment (value : list ascii) : bool :=
  match value with
  | c :: rest => is_ascii_lowercase c && forallb is_identifier_byte rest
  | [] => false
  end.

Definition validate_custom_name (value : string) : result unit DetailValidationError :=
  if bool_decide (value = EmptyString) || (MAX_CUSTOM_NAME_BYTES <? str_len value)
     || negb (is_ascii value) then
    Err "custom name is out of bounds"
  else
    match split_on "." (bytes value) with
    | [] => Err "custom name is invalid"
    | first :: segments =>
        if negb (valid_identifier_segment first) || bool_decide (of_bytes first = "troupe"%string) then
          Err "custom name is invalid or reserved"
        else if negb (forallb valid_identifier_segment segments) then
          Err "custom name is invalid"
        else if 1 + list_len segments <? 2 then
          Err "custom name requires at least two segments"
        else Ok tt
    end.

Definition validate_key (value : string) : result unit DetailValidationError :=
  if bool_decide (value = EmptyString) || (MAX_CUSTOM_KEY_BYTES <? str_len value) then
    Err "custom key is out of bounds"
  else Ok tt.

Definition attribute_list_too_long (value : DiagnosticAttributeValue) : bool :=
  match value with
  | DiagnosticAttributeValue_List items => MAX_CUSTOM_LIST_ITEMS <? list_len items
  | _ => false
  end.

(** The [for] loop over the entries. *)
Fixpoint validate_attribute_entries (values : DiagnosticAttributes)
    : result unit DetailValidationError :=
  match values with
  | [] => Ok tt
  | (key, value) :: values' =>
      let? _ := validate_key key in
      if attribute_list_too_long value then Err "custom scalar list is too long"
      else validate_attribute_entries values'
  end.

Definition validate_attributes (values : DiagnosticAttributes)
    : result unit DetailValidationError :=
  if MAX_CUSTOM_ATTRIBUTES <? list_len values then Err "too many custom attributes"
  else validate_attribute_entries values.

Fixpoint validate_dimension_keys (values : DiagnosticDimensions)
    : result unit DetailValidationError :=
  match values with
  | [] => Ok tt
  | (key, _) :: values' =>
      let? _ := validate_key key in
      validate_dimension_keys values'
  end.

Definition validate_dimensions (values : DiagnosticDimensions)
    : result unit DetailValidationError :=
  if MAX_CUSTOM_DIMENSIONS <? list_len values then Err "too many custom dimensions"
  else validate_dimension_keys values.

Definition validate_unit (value : option string) : result unit DetailValidationError :=
  match value with
  | Some unit_ =>
      if bool_decide (unit_ = EmptyString) || (MAX_CUSTOM_UNIT_BYTES <? str_len unit_) then
        Err "custom counter unit is out of bounds"
      else Ok tt
  | None => Ok tt
  end.

(** ** What the validators accept *)

Lemma split_on_nonempty c l : split_on c l <> [].
Proof.
  destruct l as [|d l]; cbn; [done|]. destruct (Ascii.eqb d c); [done|].
  by destruct (split_on c l).
Qed.

(** Splitting is the inverse of joining with the separator. *)
Fixpoint join (c : ascii) (segments : list (list ascii)) : list ascii :=
  match segments with
  | [] => []
  | [segment] => segment
  | segment :: rest => segment ++ c :: join c rest
  end.

Lemma join_cons c x y l : join c (x :: y :: l) = x ++ c :: join c (y :: l).
Proof. done. Qed.

Lemma join_split_on c l : join c (split_on c l) = l.
Proof.
  induction l as [|d l IH]; [done|]. cbn [split_on].
  destruct (split_on c l) as [|s ss] eqn:Es; [by apply split_on_nonempty in Es|].
  destruct (Ascii.eqb d c) eqn:E.
  - apply Ascii.eqb_eq in E as ->. rewrite join_cons, IH. done.
  - destruct ss; rewrite <-IH; done.
Qed.

Lemma split_on_app c x l :
  Forall (fun d => Ascii.eqb d c = false) x ->
  split_on c (x ++ l) =
  match split_on c l with s :: ss => (x ++ s) :: ss | [] => [x] end.
Proof.
  induction 1 as [|d x Hd Hx IH]; cbn.
  - by destruct (split_on c l) eqn:E; [apply split_on_nonempty in E|].
  - rewrite Hd, IH. by destruct (split_on c l).
Qed.

Lemma split_on_join c segments :
  segments <> [] -> Forall (Forall (fun d => Ascii.eqb d c = false)) segments ->
  split_on c (join c segments) = segments.
Proof.
  induction segments as [|x [|y l] IH]; intros Hne Hf; [done| |].
  - inversion Hf; subst. cbn [join]. rewrite <-(app_nil_r x) at 1.
    rewrite split_on_app by done. cbn. by rewrite app_nil_r.
  - apply Forall_cons in Hf as [Hx Hl]. rewrite join_cons, split_on_app by done.
    cbn [split_on]. rewrite Ascii.eqb_refl, IH by done. by rewrite app_nil_r.
Qed.

Lemma identifier_byte_no_point c :
  is_identifier_byte c = true \/ is_ascii_lowercase c = true -> Ascii.eqb c "." = false.
Proof. destruct c as [[] [] [] [] [] [] [] []]; intros [H|H]; done || by vm_compute in H. Qed.

Lemma identifier_byte_ascii c :
  is_identifier_byte c = true \/ is_ascii_lowercase c = true -> is_ascii_byte c = true.
Proof. destruct c as [[] [] [] [] [] [] [] []]; intros [H|H]; done || by vm_compute in H. Qed.

Lemma valid_segment_forall (P : ascii -> Prop) s :
  (forall c, is_identifier_byte c = true \/ is_ascii_lowercase c = true -> P c) ->
  valid_identifier_segment s = true -> Forall P s.
Proof.
  intros HP. destruct s as [|c s]; [done|]. cbn. intros [Hc Hs]%andb_prop.
  apply forallb_Forall_true in Hs. constructor; [auto|].
  eapply Forall_impl; [exact Hs|]. auto.
Qed.

(** A custom name is at least two identifiers joined by points, at most 128
    bytes long, and its first identifier is not the reserved [troupe]. *)
Definition custom_name_ok (value : string) : Prop :=
  exists first second rest,
    bytes value = join "." (first :: second :: rest) /\
    Forall (fun s => valid_identifier_segment s = true) (first :: second :: rest) /\
    of_bytes first <> "troupe"%string /\ str_len value <= MAX_CUSTOM_NAME_BYTES.

Lemma join_ascii segments :
  Forall (fun s => valid_identifier_segment s = true) segments ->
  Forall (fun c => is_ascii_byte c = true) (join "." segments).
Proof.
  induction 1 as [|s segments Hs Hss IH]; [constructor|].
  pose proof (valid_segment_forall _ s identifier_byte_ascii Hs) as Ha.
  destruct segments as [|y l]; [done|]. rewrite join_cons.
  apply Forall_app; split; [done|]. by constructor.
Qed.

Lemma validate_custom_name_ok value :
  validate_custom_name value = Ok tt <-> custom_name_ok value.
Proof.
  unfold validate_custom_name, custom_name_ok. split.
  - destruct (bool_decide (value = EmptyString) || _ || _) eqn:E0; [done|].
    apply orb_false_elim in E0 as [[_ E0]%orb_false_elim _].
    pose proof (join_split_on "." (bytes value)) as Hj.
    destruct (split_on "." (bytes value)) as [|first segments] eqn:Es; [done|].
    destruct (negb (valid_identifier_segment first) || _) eqn:E1; [done|].
    apply orb_false_elim in E1 as [E1%negb_false_iff E1'%bool_decide_eq_false].
    destruct (forallb valid_identifier_segment segments) eqn:E2; cbn [negb]; [|done].
    apply forallb_Forall_true in E2.
    destruct segments as [|second rest]; [done|].
    intros _. exists first, second, rest. repeat split; auto. lia.
  - intros (first & second & rest & Hb & Hv & Hr & Hl).
    assert (is_ascii value = true) as Ha.
    { unfold is_ascii. apply forallb_Forall_true. rewrite Hb. by apply join_ascii. }
    assert (value <> EmptyString) as Hne.
    { intros ->. rewrite join_cons in Hb. by destruct first. }
    rewrite bool_decide_eq_false_2, Ha, (proj2 (Z.ltb_ge _ _) Hl) by done. cbn [orb negb].
    rewrite Hb, split_on_join; [|done|].
    2:{ eapply Forall_impl; [exact Hv|]. intros s.
        apply (valid_segment_forall _ s identifier_byte_no_point). }
    apply Forall_cons in Hv as [Hf Hs]. rewrite Hf, bool_decide_eq_false_2 by done. cbn [negb orb].
    rewrite (proj2 (forallb_Forall_true _ _) Hs). cbn [negb].
    rewrite list_len_cons. pose proof (list_len_nonneg rest).
    rewrite (proj2 (Z.ltb_ge _ _)) by lia. done.
Qed.

Lemma validate_key_ok key :
  validate_key key = Ok tt <-> 0 < str_len key <= MAX_CUSTOM_KEY_BYTES.
Proof.
  unfold validate_key.
  assert (key = EmptyString <-> str_len key = 0) as He by (destruct key; unfold str_len; cbn; split; (done || lia)).
  assert (0 <= str_len key) by (unfold str_len; lia).
  case_bool_decide as Hb; cbn.
  - apply He in Hb. split; [done|lia].
  - destruct (MAX_CUSTOM_KEY_BYTES <? str_len key) eqn:E; [split; [done|lia]|].
    split; [|done]. intros _. split; [|lia]. rewrite He in Hb. lia.
Qed.

Lemma validate_attributes_ok values :
  validate_attributes values = Ok tt <->
  list_len values <= MAX_CUSTOM_ATTRIBUTES /\
  Forall (fun kv => 0 < str_len kv.1 <= MAX_CUSTOM_KEY_BYTES /\
                    attribute_list_too_long kv.2 = false) values.
Proof.
  unfold validate_attributes.
  assert (validate_attribute_entries values = Ok tt <->
    Forall (fun kv => 0 < str_len kv.1 <= MAX_CUSTOM_KEY_BYTES /\
                      attribute_list_too_long kv.2 = false) values) as He.
  { induction values as [|[k v] values IH]; cbn; [by split|].
    rewrite Forall_cons, <-IH, <-validate_key_ok. cbn.
    destruct (validate_key k) as [[]|]; cbn; [|naive_solver].
    destruct (attribute_list_too_long v); naive_solver. }
  rewrite <-He. destruct (MAX_CUSTOM_ATTRIBUTES <? list_len values) eqn:E; naive_solver lia.
Qed.

Lemma validate_dimensions_ok values :
  validate_dimensions values = Ok tt <->
  list_len values <= MAX_CUSTOM_DIMENSIONS /\
  Forall (fun kv => 0 < str_len kv.1 <= MAX_CUSTOM_KEY_BYTES) values.
Proof.
  unfold validate_dimensions.
  assert (validate_dimension_keys values = Ok tt <->
    Forall (fun kv => 0 < str_len kv.1 <= MAX_CUSTOM_KEY_BYTES) values) as He.
  { induction values as [|[k v] values IH]; cbn; [by split|].
    rewrite Forall_cons, <-IH, <-validate_key_ok. cbn.
    destruct (validate_key k) as [[]|]; cbn; naive_solver. }
  rewrite <-He. destruct (MAX_CUSTOM_DIMENSIONS <? list_len values) eqn:E; naive_solver lia.
Qed.

Lemma validate_unit_ok value :
  validate_unit value = Ok tt <->
  match value with Some u => 0 < str_len u <= MAX_CUSTOM_UNIT_BYTES | None => True end.
Proof.
  unfold validate_unit. destruct value as [u|]; [|done].
  assert (u = EmptyString <-> str_len u = 0) as He by (destruct u; unfold str_len; cbn; split; (done || lia)).
  assert (0 <= str_len u) by (unfold str_len; lia).
  case_bool_decide as Hb; cbn.
  - apply He in Hb. split; [done|lia].
  - destruct (MAX_CUSTOM_UNIT_BYTES <? str_len u) eqn:E; [split; [done|lia]|].
    split; [|done]. intros _. split; [|lia]. rewrite He in Hb. lia.
Qed.
