(* ===== verification/Event.v ===== *)
(** * Diagnostic events

    Models [troupe-diagnostics-core/src/event.rs]: the event header and scope,
    the fourteen event kinds, the constructors that validate their arguments,
    and the field check of the deserialiser.  A field [f] of the struct [S] is
    the projection [S_f]. *)

From S2P Require Import Prelude Wire Scalar Kinds Detail.

Abbreviation EventValidationError := string (only parsing).

Definition EVENT_SCHEMA_VERSION : Z := 1.

(** ** Event kinds *)

Inductive DiagnosticEventKind :=
| DiagnosticEventKind_SpanStarted
| DiagnosticEventKind_SpanFinished
| DiagnosticEventKind_InstantOccurred
| DiagnosticEventKind_CounterSampled
| DiagnosticEventKind_AgentMessageDelta
| DiagnosticEventKind_AgentMessageCompleted
| DiagnosticEventKind_AgentPlanSnapshot
| DiagnosticEventKind_ContextUsageSampled
| DiagnosticEventKind_ActTokenUsageFinalized
| DiagnosticEventKind_ObservationGap
| DiagnosticEventKind_CustomSpanStarted
| DiagnosticEventKind_CustomSpanFinished
| DiagnosticEventKind_CustomInstantOccurred
| DiagnosticEventKind_CustomCounterSampled.

#[export] Instance DiagnosticEventKind_eq_dec : EqDecision DiagnosticEventKind.
Proof. solve_decision. Defined.

Definition DiagnosticEventKind_ALL : list DiagnosticEventKind :=
  [DiagnosticEventKind_SpanStarted;
   DiagnosticEventKind_SpanFinished;
   DiagnosticEventKind_InstantOccurred;
   DiagnosticEventKind_CounterSampled;
   DiagnosticEventKind_AgentMessageDelta;
   DiagnosticEventKind_AgentMessageCompleted;
   DiagnosticEventKind_AgentPlanSnapshot;
   DiagnosticEventKind_ContextUsageSampled;
   DiagnosticEventKind_ActTokenUsageFinalized;
   DiagnosticEventKind_ObservationGap;
   DiagnosticEventKind_CustomSpanStarted;
   DiagnosticEventKind_CustomSpanFinished;
   DiagnosticEventKind_CustomInstantOccurred;
   DiagnosticEventKind_CustomCounterSampled].

Definition DiagnosticEventKind_as_str (k : DiagnosticEventKind) : string :=
  match k with
  | DiagnosticEventKind_SpanStarted => "span_started"
  | DiagnosticEventKind_SpanFinished => "span_finished"
  | DiagnosticEventKind_InstantOccurred => "instant_occurred"
  | DiagnosticEventKind_CounterSampled => "counter_sampled"
  | DiagnosticEventKind_AgentMessageDelta => "agent_message_delta"
  | DiagnosticEventKind_AgentMessageCompleted => "agent_message_completed"
  | DiagnosticEventKind_AgentPlanSnapshot => "agent_plan_snapshot"
  | DiagnosticEventKind_ContextUsageSampled => "context_usage_sampled"
  | DiagnosticEventKind_ActTokenUsageFinalized => "act_token_usage_finalized"
  | DiagnosticEventKind_ObservationGap => "observation_gap"
  | DiagnosticEventKind_CustomSpanStarted => "custom_span_started"
  | DiagnosticEventKind_CustomSpanFinished => "custom_span_finished"
  | DiagnosticEventKind_CustomInstantOccurred => "custom_instant_occurred"
  | DiagnosticEventKind_CustomCounterSampled => "custom_counter_sampled"
  end.

#[export] Instance DiagnosticEventKind_enum : ClosedStringEnum DiagnosticEventKind :=
  {| enum_as_str := DiagnosticEventKind_as_str; enum_variants := DiagnosticEventKind_ALL |}.

#[export] Instance DiagnosticEventKind_enum_laws : ClosedStringEnumLaws DiagnosticEventKind.
Proof. solve_enum_laws. Qed.

(** ** Header *)

Record DiagnosticScope := mkDiagnosticScope {
  DiagnosticScope_scene_id : option RunLocalId;
  DiagnosticScope_actor_id : option RunLocalId;
  DiagnosticScope_cue_id : option RunLocalId;
  DiagnosticScope_effect_id : option RunLocalId;
  DiagnosticScope_act_id : option RunLocalId;
  DiagnosticScope_tool_call_id : option RunLocalId;
  DiagnosticScope_session_generation : option Z;
}.

#[export] Instance DiagnosticScope_eq_dec : EqDecision DiagnosticScope.
Proof. solve_decision. Defined.

Record CausalLink := mkCausalLink {
  CausalLink_source_sequence : Z;
  CausalLink_relation : CausalRelation;
}.

#[export] Instance CausalLink_eq_dec : EqDecision CausalLink.
Proof. solve_decision. Defined.

Record DiagnosticEventHeader := mkDiagnosticEventHeader {
  DiagnosticEventHeader_schema_version : Z;
  DiagnosticEventHeader_run_id : CanonicalUuid;
  DiagnosticEventHeader_sequence : Z;
  DiagnosticEventHeader_elapsed_ns : Z;
  DiagnosticEventHeader_scope : DiagnosticScope;
  DiagnosticEventHeader_caused_by : list CausalLink;
}.

#[export] Instance DiagnosticEventHeader_eq_dec : EqDecision DiagnosticEventHeader.
Proof. solve_decision. Defined.

Definition DiagnosticEventHeader_new (run_id : CanonicalUuid) (sequence elapsed_ns : Z)
    (scope : DiagnosticScope) (caused_by : list CausalLink)
    : result DiagnosticEventHeader EventValidationError :=
  if sequence =? 0 then Err "diagnostic event sequence must start at one"
  else
    Ok (mkDiagnosticEventHeader EVENT_SCHEMA_VERSION run_id sequence elapsed_ns scope caused_by).

(** [TryFrom<DiagnosticEventHeaderWire>]. *)
Definition DiagnosticEventHeader_try_from (schema_version : Z) (run_id : CanonicalUuid)
    (sequence elapsed_ns : Z) (scope : DiagnosticScope) (caused_by : list CausalLink)
    : result DiagnosticEventHeader EventValidationError :=
  if negb (schema_version =? EVENT_SCHEMA_VERSION) then
    Err "unsupported diagnostic event schema version"
  else DiagnosticEventHeader_new run_id sequence elapsed_ns scope caused_by.

(** [From<DetailValidationError>]. *)
Definition from_detail_error (_ : DetailValidationError) : EventValidationError :=
  "custom diagnostic payload is invalid".

(** ** Event payloads *)

Record SpanStarted := mkSpanStarted {
  SpanStarted_header : DiagnosticEventHeader;
  SpanStarted_detail : SpanStartDetail;
  SpanStarted_parent_span_id : option Z;
}.

#[export] Instance SpanStarted_eq_dec : EqDecision SpanStarted.
Proof. solve_decision. Defined.

Record SpanFinished := mkSpanFinished {
  SpanFinished_header : DiagnosticEventHeader;
  SpanFinished_span_id : Z;
  SpanFinished_outcome : SpanOutcome;
  SpanFinished_error_code : option string;
}.

#[export] Instance SpanFinished_eq_dec : EqDecision SpanFinished.
Proof. solve_decision. Defined.

Record InstantOccurred := mkInstantOccurred {
  InstantOccurred_header : DiagnosticEventHeader;
  InstantOccurred_detail : InstantDetail;
  InstantOccurred_containing_span_id : option Z;
}.

#[export] Instance InstantOccurred_eq_dec : EqDecision InstantOccurred.
Proof. solve_decision. Defined.

Record CounterSampled := mkCounterSampled {
  CounterSampled_header : DiagnosticEventHeader;
  CounterSampled_counter_kind : CounterKind;
  CounterSampled_value : Z;
}.

#[export] Instance CounterSampled_eq_dec : EqDecision CounterSampled.
Proof. solve_decision. Defined.

Record AgentMessageDelta := mkAgentMessageDelta {
  AgentMessageDelta_header : DiagnosticEventHeader;
  AgentMessageDelta_message_id : RunLocalId;
  AgentMessageDelta_source_message_id : option string;
  AgentMessageDelta_text_delta : string;
}.

#[export] Instance AgentMessageDelta_eq_dec : EqDecision AgentMessageDelta.
Proof. solve_decision. Defined.

Record AgentMessageCompleted := mkAgentMessageCompleted {
  AgentMessageCompleted_header : DiagnosticEventHeader;
  AgentMessageCompleted_message_id : RunLocalId;
  AgentMessageCompleted_utf8_bytes : Z;
  AgentMessageCompleted_unicode_scalar_count : Z;
  AgentMessageCompleted_truncated : bool;
}.

#[export] Instance AgentMessageCompleted_eq_dec : EqDecision AgentMessageCompleted.
Proof. solve_decision. Defined.

Record AgentPlanSnapshot := mkAgentPlanSnapshot {
  AgentPlanSnapshot_header : DiagnosticEventHeader;
  AgentPlanSnapshot_entries : list PlanEntry;
  AgentPlanSnapshot_truncated : bool;
}.

#[export] Instance AgentPlanSnapshot_eq_dec : EqDecision AgentPlanSnapshot.
Proof. solve_decision. Defined.

Record ContextUsageSampled := mkContextUsageSampled {
  ContextUsageSampled_header : DiagnosticEventHeader;
  ContextUsageSampled_context_used_tokens : option Z;
  ContextUsageSampled_context_window_tokens : option Z;
  ContextUsageSampled_cumulative_cost_amount : option DecimalString;
  ContextUsageSampled_cumulative_cost_currency : option CurrencyCode;
  ContextUsageSampled_sample_origin : ContextSampleOrigin;
  ContextUsageSampled_observed_elapsed_ns : option Z;
}.

#[export] Instance ContextUsageSampled_eq_dec : EqDecision ContextUsageSampled.
Proof. solve_decision. Defined.

Definition ContextUsageSampled_new (header : DiagnosticEventHeader)
    (context_used_tokens context_window_tokens : option Z)
    (cumulative_cost_amount : option DecimalString)
    (cumulative_cost_currency : option CurrencyCode)
    (sample_origin : ContextSampleOrigin) (observed_elapsed_ns : option Z)
    : result ContextUsageSampled EventValidationError :=
  if negb (eqb (bool_decide (is_Some cumulative_cost_amount))
               (bool_decide (is_Some cumulative_cost_currency))) then
    Err "cumulative cost amount and currency must appear together"
  else if match cumulative_cost_amount with
          | Some amount => starts_with "-" (DecimalString_as_str amount)
          | None => false
          end then
    Err "cumulative cost amount must be nonnegative"
  else if match context_used_tokens, context_window_tokens with
          | Some used, Some window => window <? used
          | _, _ => false
          end then
    Err "context used tokens exceed the context window"
  else if bool_decide (sample_origin = ContextSampleOrigin_CarriedForward)
          && bool_decide (observed_elapsed_ns = None) then
    Err "carried-forward context usage requires its observation time"
  else
    Ok (mkContextUsageSampled header context_used_tokens context_window_tokens
          cumulative_cost_amount cumulative_cost_currency sample_origin observed_elapsed_ns).

Record ActTokenUsageFinalized := mkActTokenUsageFinalized {
  ActTokenUsageFinalized_header : DiagnosticEventHeader;
  ActTokenUsageFinalized_availability : UsageAvailability;
  ActTokenUsageFinalized_source : option UsageSource;
  ActTokenUsageFinalized_unavailable_reason : option UsageUnavailableReason;
  ActTokenUsageFinalized_provider_total_tokens : option TokenCount;
  ActTokenUsageFinalized_input_tokens : option TokenCount;
  ActTokenUsageFinalized_output_tokens : option TokenCount;
  ActTokenUsageFinalized_thought_tokens : option TokenCount;
  ActTokenUsageFinalized_cached_read_tokens : option TokenCount;
  ActTokenUsageFinalized_cached_write_tokens : option TokenCount;
}.

#[export] Instance ActTokenUsageFinalized_eq_dec : EqDecision ActTokenUsageFinalized.
Proof. solve_decision. Defined.

Definition ActTokenUsageFinalized_new (header : DiagnosticEventHeader)
    (availability : UsageAvailability) (source : option UsageSource)
    (unavailable_reason : option UsageUnavailableReason)
    (provider_total_tokens input_tokens output_tokens thought_tokens
     cached_read_tokens cached_write_tokens : option TokenCount)
    : result ActTokenUsageFinalized EventValidationError :=
  let is_some (o : option TokenCount) := bool_decide (is_Some o) in
  let primary_complete :=
    is_some provider_total_tokens && is_some input_tokens && is_some output_tokens in
  let any_value :=
    is_some provider_total_tokens || is_some input_tokens || is_some output_tokens
    || is_some thought_tokens || is_some cached_read_tokens || is_some cached_write_tokens in
  let acp := bool_decide (source = Some UsageSource_AcpPromptResponseUsage) in
  let state_is_valid :=
    match availability with
    | UsageAvailability_Available =>
        primary_complete && acp && bool_decide (unavailable_reason = None)
    | UsageAvailability_Partial =>
        any_value && negb primary_complete && acp && bool_decide (unavailable_reason = None)
    | UsageAvailability_Unavailable =>
        negb any_value && bool_decide (source = None) && bool_decide (is_Some unavailable_reason)
    end in
  if negb state_is_valid then Err "terminal usage availability fields are inconsistent"
  else
    Ok (mkActTokenUsageFinalized header availability source unavailable_reason
          provider_total_tokens input_tokens output_tokens thought_tokens
          cached_read_tokens cached_write_tokens).

Record AffectedElapsedInterval := mkAffectedElapsedInterval {
  AffectedElapsedInterval_start_ns : Z;
  AffectedElapsedInterval_end_ns : Z;
}.

#[export] Instance AffectedElapsedInterval_eq_dec : EqDecision AffectedElapsedInterval.
Proof. solve_decision. Defined.

Record ObservationGap := mkObservationGap {
  ObservationGap_header : DiagnosticEventHeader;
  ObservationGap_producer : string;
  ObservationGap_component : option string;
  ObservationGap_reason : string;
  ObservationGap_dropped_count : option Z;
  ObservationGap_affected_elapsed : option AffectedElapsedInterval;
  ObservationGap_affected_kind : option DiagnosticEventKind;
  ObservationGap_affected_scope : option DiagnosticScope;
}.

#[export] Instance ObservationGap_eq_dec : EqDecision ObservationGap.
Proof. solve_decision. Defined.

Record CustomSpanStarted := mkCustomSpanStarted {
  CustomSpanStarted_header : DiagnosticEventHeader;
  CustomSpanStarted_name : string;
  CustomSpanStarted_parent_span_id : option Z;
  CustomSpanStarted_attributes : DiagnosticAttributes;
}.

#[export] Instance CustomSpanStarted_eq_dec : EqDecision CustomSpanStarted.
Proof. solve_decision. Defined.

(** [validate_fields] of custom spans and instants. *)
Definition CustomSpanStarted_validate_fields (name : string) (attributes : DiagnosticAttributes)
    : result unit EventValidationError :=
  let? _ := map_err from_detail_error (validate_custom_name name) in
  let? _ := map_err from_detail_error (validate_attributes attributes) in
  Ok tt.

Definition CustomSpanStarted_new (header : DiagnosticEventHeader) (name : string)
    (parent_span_id : option Z) (attributes : DiagnosticAttributes)
    : result CustomSpanStarted EventValidationError :=
  let? _ := CustomSpanStarted_validate_fields name attributes in
  Ok (mkCustomSpanStarted header name parent_span_id attributes).

Record CustomSpanFinished := mkCustomSpanFinished {
  CustomSpanFinished_header : DiagnosticEventHeader;
  CustomSpanFinished_span_id : Z;
  CustomSpanFinished_outcome : SpanOutcome;
}.

#[export] Instance CustomSpanFinished_eq_dec : EqDecision CustomSpanFinished.
Proof. solve_decision. Defined.

Record CustomInstantOccurred := mkCustomInstantOccurred {
  CustomInstantOccurred_header : DiagnosticEventHeader;
  CustomInstantOccurred_name : string;
  CustomInstantOccurred_containing_span_id : option Z;
  CustomInstantOccurred_severity : option CustomSeverity;
  CustomInstantOccurred_attributes : DiagnosticAttributes;
}.

#[export] Instance CustomInstantOccurred_eq_dec : EqDecision CustomInstantOccurred.
Proof. solve_decision. Defined.

Definition CustomInstantOccurred_validate_fields (name : string)
    (attributes : DiagnosticAttributes) : result unit EventValidationError :=
  let? _ := map_err from_detail_error (validate_custom_name name) in
  let? _ := map_err from_detail_error (validate_attributes attributes) in
  Ok tt.

Definition CustomInstantOccurred_new (header : DiagnosticEventHeader) (name : string)
    (containing_span_id : option Z) (severity : option CustomSeverity)
    (attributes : DiagnosticAttributes) : result CustomInstantOccurred EventValidationError :=
  let? _ := CustomInstantOccurred_validate_fields name attributes in
  Ok (mkCustomInstantOccurred header name containing_span_id severity attributes).

Record CustomCounterSampled := mkCustomCounterSampled {
  CustomCounterSampled_header : DiagnosticEventHeader;
  CustomCounterSampled_name : string;
  CustomCounterSampled_value : CustomNumber;
  CustomCounterSampled_unit : option string;
  CustomCounterSampled_dimensions : DiagnosticDimensions;
}.

#[export] Instance CustomCounterSampled_eq_dec : EqDecision CustomCounterSampled.
Proof. solve_decision. Defined.

Definition CustomCounterSampled_validate_fields (name : string) (unit_ : option string)
    (dimensions : DiagnosticDimensions) : result unit EventValidationError :=
  let? _ := map_err from_detail_error (validate_custom_name name) in
  let? _ := map_err from_detail_error (validate_unit unit_) in
  let? _ := map_err from_detail_error (validate_dimensions dimensions) in
  Ok tt.

Definition CustomCounterSampled_new (header : DiagnosticEventHeader) (name : string)
    (value : CustomNumber) (unit_ : option string) (dimensions : DiagnosticDimensions)
    : result CustomCounterSampled EventValidationError :=
  let? _ := CustomCounterSampled_validate_fields name unit_ dimensions in
  Ok (mkCustomCounterSampled header name value unit_ dimensions).

(** ** Events *)

Inductive DiagnosticEvent :=
| DiagnosticEvent_SpanStarted (value : SpanStarted)
| DiagnosticEvent_SpanFinished (value : SpanFinished)
| DiagnosticEvent_InstantOccurred (value : InstantOccurred)
| DiagnosticEvent_CounterSampled (value : CounterSampled)
| DiagnosticEvent_AgentMessageDelta (value : AgentMessageDelta)
| DiagnosticEvent_AgentMessageCompleted (value : AgentMessageCompleted)
| DiagnosticEvent_AgentPlanSnapshot (value : AgentPlanSnapshot)
| DiagnosticEvent_ContextUsageSampled (value : ContextUsageSampled)
| DiagnosticEvent_ActTokenUsageFinalized (value : ActTokenUsageFinalized)
| DiagnosticEvent_ObservationGap (value : ObservationGap)
| DiagnosticEvent_CustomSpanStarted (value : CustomSpanStarted)
| DiagnosticEvent_CustomSpanFinished (value : CustomSpanFinished)
| DiagnosticEvent_CustomInstantOccurred (value : CustomInstantOccurred)
| DiagnosticEvent_CustomCounterSampled (value : CustomCounterSampled).

#[export] Instance DiagnosticEvent_eq_dec : EqDecision DiagnosticEvent.
Proof. solve_decision. Defined.

Definition DiagnosticEvent_kind (e : DiagnosticEvent) : DiagnosticEventKind :=
  match e with
  | DiagnosticEvent_SpanStarted _ => DiagnosticEventKind_SpanStarted
  | DiagnosticEvent_SpanFinished _ => DiagnosticEventKind_SpanFinished
  | DiagnosticEvent_InstantOccurred _ => DiagnosticEventKind_InstantOccurred
  | DiagnosticEvent_CounterSampled _ => DiagnosticEventKind_CounterSampled
  | DiagnosticEvent_AgentMessageDelta _ => DiagnosticEventKind_AgentMessageDelta
  | DiagnosticEvent_AgentMessageCompleted _ => DiagnosticEventKind_AgentMessageCompleted
  | DiagnosticEvent_AgentPlanSnapshot _ => DiagnosticEventKind_AgentPlanSnapshot
  | DiagnosticEvent_ContextUsageSampled _ => DiagnosticEventKind_ContextUsageSampled
  | DiagnosticEvent_ActTokenUsageFinalized _ => DiagnosticEventKind_ActTokenUsageFinalized
  | DiagnosticEvent_ObservationGap _ => DiagnosticEventKind_ObservationGap
  | DiagnosticEvent_CustomSpanStarted _ => DiagnosticEventKind_CustomSpanStarted
  | DiagnosticEvent_CustomSpanFinished _ => DiagnosticEventKind_CustomSpanFinished
  | DiagnosticEvent_CustomInstantOccurred _ => DiagnosticEventKind_CustomInstantOccurred
  | DiagnosticEvent_CustomCounterSampled _ => DiagnosticEventKind_CustomCounterSampled
  end.

Definition header (e : DiagnosticEvent) : DiagnosticEventHeader :=
  match e with
  | DiagnosticEvent_SpanStarted value => SpanStarted_header value
  | DiagnosticEvent_SpanFinished value => SpanFinished_header value
  | DiagnosticEvent_InstantOccurred value => InstantOccurred_header value
  | DiagnosticEvent_CounterSampled value => CounterSampled_header value
  | DiagnosticEvent_AgentMessageDelta value => AgentMessageDelta_header value
  | DiagnosticEvent_AgentMessageCompleted value => AgentMessageCompleted_header value
  | DiagnosticEvent_AgentPlanSnapshot value => AgentPlanSnapshot_header value
  | DiagnosticEvent_ContextUsageSampled value => ContextUsageSampled_header value
  | DiagnosticEvent_ActTokenUsageFinalized value => ActTokenUsageFinalized_header value
  | DiagnosticEvent_ObservationGap value => ObservationGap_header value
  | DiagnosticEvent_CustomSpanStarted value => CustomSpanStarted_header value
  | DiagnosticEvent_CustomSpanFinished value => CustomSpanFinished_header value
  | DiagnosticEvent_CustomInstantOccurred value => CustomInstantOccurred_header value
  | DiagnosticEvent_CustomCounterSampled value => CustomCounterSampled_header value
  end.

(** Accessors of the header, as the components read them. *)
Abbreviation event_run_id e := (DiagnosticEventHeader_run_id (header e)).
Abbreviation event_sequence e := (DiagnosticEventHeader_sequence (header e)).
Abbreviation event_elapsed e := (DiagnosticEventHeader_elapsed_ns (header e)).
Abbreviation event_scope e := (DiagnosticEventHeader_scope (header e)).
Abbreviation event_causes e := (DiagnosticEventHeader_caused_by (header e)).

(** ** The field check of the deserialiser *)

Definition COMMON_FIELDS : list string :=
  ["schema_version"; "run_id"; "sequence"; "elapsed_ns"; "scope"; "caused_by"; "kind"].

(** The [match] on the kind, as a table. *)
Definition PAYLOAD_FIELDS : list (string * list string) :=
  [
    ("span_started", ["span_kind"; "parent_span_id"; "detail"]);
    ("span_finished", ["span_id"; "outcome"; "error_code"]);
    ("instant_occurred", ["instant_kind"; "containing_span_id"; "detail"]);
    ("counter_sampled", ["counter_kind"; "value"]);
    ("agent_message_delta", ["message_id"; "source_message_id"; "text_delta"]);
    ("agent_message_completed", ["message_id"; "utf8_bytes"; "unicode_scalar_count"; "truncated"]);
    ("agent_plan_snapshot", ["entries"; "truncated"]);
    ("context_usage_sampled", ["context_used_tokens"; "context_window_tokens"; "cumulative_cost_amount"; "cumulative_cost_currency"; "sample_origin"; "observed_elapsed_ns"]);
    ("act_token_usage_finalized", ["availability"; "source"; "unavailable_reason"; "provider_total_tokens"; "input_tokens"; "output_tokens"; "thought_tokens"; "cached_read_tokens"; "cached_write_tokens"]);
    ("observation_gap", ["producer"; "component"; "reason"; "dropped_count"; "affected_elapsed"; "affected_kind"; "affected_scope"]);
    ("custom_span_started", ["name"; "parent_span_id"; "attributes"]);
    ("custom_span_finished", ["span_id"; "outcome"]);
    ("custom_instant_occurred", ["name"; "containing_span_id"; "severity"; "attributes"]);
    ("custom_counter_sampled", ["name"; "value"; "unit"; "dimensions"])
  ].

Definition payload_fields (kind : string) : option (list string) :=
  snd <$> find (fun entry => String.eqb entry.1 kind) PAYLOAD_FIELDS.

(** A [serde_json::Value] is opaque; the check reads its object entries and
    the text of a string value. *)
Section Json.
Context {Value : Type} (as_object : Value -> option (list (string * Value)))
  (as_str : Value -> option string).

Definition json_get (object : list (string * Value)) (key : string) : option Value :=
  snd <$> find (fun entry => String.eqb entry.1 key) object.

Definition str_contains (fields : list string) (key : string) : bool :=
  existsb (String.eqb key) fields.

Definition validate_event_fields (value : Value) : result unit EventValidationError :=
  let? object := ok_or (as_object value) "diagnostic event must be a JSON object" in
  let? kind := ok_or (json_get object "kind" ≫= as_str) "diagnostic event kind must be a string" in
  let? payload := ok_or (payload_fields kind) "unknown diagnostic event kind" in
  if existsb (fun entry => negb (str_contains COMMON_FIELDS entry.1)
                           && negb (str_contains payload entry.1)) object then
    Err "diagnostic event contains an unknown field"
  else Ok tt.
End Json.
