(* ===== verification/EventSpec.v ===== *)
(** * What the constructors and the field check of events accept

    The constructors of [troupe-diagnostics-core/src/event.rs] that can refuse
    their arguments, and the check of the field names of a deserialised event,
    against declarative specifications. *)

From S2P Require Import Prelude Wire Scalar Kinds Detail Event.

(** ** Specifications *)

(** The attributes and dimensions a custom payload may carry. *)
Definition attributes_ok (values : DiagnosticAttributes) : Prop :=
  list_len values <= MAX_CUSTOM_ATTRIBUTES /\
  Forall (fun kv => 0 < str_len kv.1 <= MAX_CUSTOM_KEY_BYTES /\
                    attribute_list_too_long kv.2 = false) values.

Definition dimensions_ok (values : DiagnosticDimensions) : Prop :=
  list_len values <= MAX_CUSTOM_DIMENSIONS /\
  Forall (fun kv => 0 < str_len kv.1 <= MAX_CUSTOM_KEY_BYTES) values.

Definition unit_ok (value : option string) : Prop :=
  match value with Some u => 0 < str_len u <= MAX_CUSTOM_UNIT_BYTES | None => True end.

(** ** Token usage *)

(** The token values an act reports, and the three states they may be in. *)
Definition primary_values (u : ActTokenUsageFinalized) : list (option TokenCount) :=
  [ActTokenUsageFinalized_provider_total_tokens u; ActTokenUsageFinalized_input_tokens u;
   ActTokenUsageFinalized_output_tokens u].

Definition all_values (u : ActTokenUsageFinalized) : list (option TokenCount) :=
  primary_values u ++
  [ActTokenUsageFinalized_thought_tokens u; ActTokenUsageFinalized_cached_read_tokens u;
   ActTokenUsageFinalized_cached_write_tokens u].

Definition usage_consistent (u : ActTokenUsageFinalized) : Prop :=
  match ActTokenUsageFinalized_availability u with
  | UsageAvailability_Available =>
      Forall is_Some (primary_values u) /\
      ActTokenUsageFinalized_source u = Some UsageSource_AcpPromptResponseUsage /\
      ActTokenUsageFinalized_unavailable_reason u = None
  | UsageAvailability_Partial =>
      Exists is_Some (all_values u) /\ ~ Forall is_Some (primary_values u) /\
      ActTokenUsageFinalized_source u = Some UsageSource_AcpPromptResponseUsage /\
      ActTokenUsageFinalized_unavailable_reason u = None
  | UsageAvailability_Unavailable =>
      Forall (eq None) (all_values u) /\ ActTokenUsageFinalized_source u = None /\
      is_Some (ActTokenUsageFinalized_unavailable_reason u)
  end.

#[export] Instance usage_consistent_dec u : Decision (usage_consistent u).
Proof.
  unfold usage_consistent. destruct (ActTokenUsageFinalized_availability u); apply _.
Defined.

(** ** Context usage *)

Definition context_consistent (c : ContextUsageSampled) : Prop :=
  (is_Some (ContextUsageSampled_cumulative_cost_amount c) <->
   is_Some (ContextUsageSampled_cumulative_cost_currency c)) /\
  (forall amount, ContextUsageSampled_cumulative_cost_amount c = Some amount ->
     starts_with "-" (DecimalString_as_str amount) = false) /\
  (forall used window, ContextUsageSampled_context_used_tokens c = Some used ->
     ContextUsageSampled_context_window_tokens c = Some window -> used <= window) /\
  (ContextUsageSampled_sample_origin c = ContextSampleOrigin_CarriedForward ->
   is_Some (ContextUsageSampled_observed_elapsed_ns c)).

(** The test of the constructor, as the decision of the specification. *)
Lemma usage_state h availability source reason total input output thought cread cwrite :
  let u :=
    mkActTokenUsageFinalized h availability source reason total input output thought cread cwrite in
  ActTokenUsageFinalized_new h availability source reason total input output thought cread cwrite =
  if bool_decide (usage_consistent u) then Ok u
  else Err "terminal usage availability fields are inconsistent".
Proof.
  cbv zeta.
  destruct availability, source as [[]|], reason, total, input, output, thought, cread, cwrite;
    reflexivity.
Qed.

(** ** Field names *)

Lemma str_contains_elem fields key : str_contains fields key = true <-> key ∈ fields.
Proof.
  unfold str_contains. rewrite List.existsb_exists, list_elem_of_In. split.
  - intros (x & Hx & ->%String.eqb_eq). done.
  - intros H. exists key. by rewrite String.eqb_refl.
Qed.

Lemma entries_allowed {Value} (object : list (string * Value)) fields :
  existsb (fun entry => negb (str_contains COMMON_FIELDS entry.1)
                        && negb (str_contains fields entry.1)) object = false <->
  Forall (fun entry => entry.1 ∈ COMMON_FIELDS ++ fields) object.
Proof.
  induction object as [|entry object IH]; cbn [existsb]; [by split|].
  rewrite orb_false_iff, IH, Forall_cons, andb_false_iff, !negb_false_iff, !str_contains_elem.
  cbn beta. by rewrite elem_of_app.
Qed.

Lemma payload_fields_kind name fields :
  payload_fields name = Some fields -> exists k, name = DiagnosticEventKind_as_str k.
Proof.
  unfold payload_fields. intros ([n f] & H & _)%fmap_Some.
  apply List.find_some in H as [Hin He%String.eqb_eq]. cbn in He. subst n. cbn in Hin |- *.
  repeat destruct Hin as [[= <- <-]|Hin]; try done;
    [exists DiagnosticEventKind_SpanStarted|exists DiagnosticEventKind_SpanFinished
    |exists DiagnosticEventKind_InstantOccurred|exists DiagnosticEventKind_CounterSampled
    |exists DiagnosticEventKind_AgentMessageDelta|exists DiagnosticEventKind_AgentMessageCompleted
    |exists DiagnosticEventKind_AgentPlanSnapshot|exists DiagnosticEventKind_ContextUsageSampled
    |exists DiagnosticEventKind_ActTokenUsageFinalized|exists DiagnosticEventKind_ObservationGap
    |exists DiagnosticEventKind_CustomSpanStarted|exists DiagnosticEventKind_CustomSpanFinished
    |exists DiagnosticEventKind_CustomInstantOccurred
    |exists DiagnosticEventKind_CustomCounterSampled]; reflexivity.
Qed.

(** ** Theorems *)

(** The custom payloads are accepted exactly when they are well formed: the
    name is two or more identifiers joined by points, not longer than 128 bytes
    and not in the reserved [troupe] name space, the attributes or dimensions
    are within their limits, and so is the unit. *)
Theorem custom_fields_accepted name attributes unit_ dimensions :
  (CustomSpanStarted_validate_fields name attributes = Ok tt <->
   custom_name_ok name /\ attributes_ok attributes) /\
  (CustomInstantOccurred_validate_fields name attributes = Ok tt <->
   custom_name_ok name /\ attributes_ok attributes) /\
  (CustomCounterSampled_validate_fields name unit_ dimensions = Ok tt <->
   custom_name_ok name /\ unit_ok unit_ /\ dimensions_ok dimensions).
Proof.
  unfold attributes_ok, dimensions_ok, unit_ok.
  rewrite <-validate_attributes_ok, <-validate_dimensions_ok, <-validate_unit_ok,
    <-validate_custom_name_ok.
  unfold CustomSpanStarted_validate_fields, CustomInstantOccurred_validate_fields,
    CustomCounterSampled_validate_fields.
  destruct (validate_custom_name name) as [[]|], (validate_attributes attributes) as [[]|],
    (validate_unit unit_) as [[]|], (validate_dimensions dimensions) as [[]|]; cbn; naive_solver.
Qed.

(** The final token usage of an act is accepted exactly when its fields
    agree with its availability: available means that all the primary counts
    are there, partial that some count is there but not all the primary ones,
    both from the provider's response; unavailable means that no count is
    there and a reason is. *)
Theorem token_usage_accepted h availability source reason total input output thought cread cwrite u :
  ActTokenUsageFinalized_new h availability source reason total input output thought cread cwrite
    = Ok u <->
  u = mkActTokenUsageFinalized h availability source reason total input output thought cread cwrite /\
  usage_consistent u.
Proof.
  pose proof (usage_state h availability source reason total input output thought cread cwrite) as E.
  cbv zeta in E. rewrite E. case_bool_decide; split; [intros [= <-]|intros [-> _]|done|]; try done.
  by intros [-> ?].
Qed.

(** A context usage sample is accepted exactly when it is consistent: the
    cost amount and its currency come together, the amount is not negative, the
    tokens used do not exceed the window, and a sample that is carried forward
    says when it was observed. *)
Theorem context_usage_accepted h used window amount currency origin observed c :
  ContextUsageSampled_new h used window amount currency origin observed = Ok c <->
  c = mkContextUsageSampled h used window amount currency origin observed /\ context_consistent c.
Proof.
  unfold ContextUsageSampled_new, context_consistent. split.
  - intros H. repeat (case_match; [done|]). injection H as <-. cbn. split; [done|].
    bool_hyps. split_and!.
    + destruct amount, currency; cbn in *; naive_solver.
    + by intros ? ->.
    + intros u w -> ->. lia.
    + intros ->. destruct observed; [done|]. cbn in *. naive_solver.
  - intros [-> (Hc & Ha & Hu & Ho)]. cbn in *.
    assert (eqb (bool_decide (is_Some amount)) (bool_decide (is_Some currency)) = true) as ->.
    { apply eqb_true_iff. by apply bool_decide_ext. }
    cbn [negb]. destruct amount as [a|]; [rewrite (Ha a eq_refl)|];
      (destruct used as [n|], window as [w|]; [rewrite (proj2 (Z.ltb_ge _ _) (Hu n w eq_refl eq_refl))| | |]);
      (destruct (decide (origin = ContextSampleOrigin_CarriedForward)) as [He|He];
        [destruct (Ho He) as [o ->]; by rewrite andb_false_r
        |by rewrite bool_decide_eq_false_2 by done]).
Qed.

(** The deserialiser accepts exactly the fields of the schema: a JSON value
    passes the field check when it is an object whose [kind] is the wire name
    of an event kind and whose keys are common fields or payload fields of that
    kind; every event kind has such a list, which repeats nothing and shares
    nothing with the common fields. *)
Theorem event_fields_accepted {Value} (as_object : Value -> option (list (string * Value)))
    (as_str : Value -> option string) value :
  (validate_event_fields as_object as_str value = Ok tt <->
   exists object k fields, as_object value = Some object /\
     json_get object "kind" ≫= as_str = Some (DiagnosticEventKind_as_str k) /\
     payload_fields (DiagnosticEventKind_as_str k) = Some fields /\
     Forall (fun entry => entry.1 ∈ COMMON_FIELDS ++ fields) object) /\
  forall k, exists fields, payload_fields (DiagnosticEventKind_as_str k) = Some fields /\
    NoDup (COMMON_FIELDS ++ fields).
Proof.
  split.
  - unfold validate_event_fields. split.
    + destruct (as_object value) as [object|]; cbn [ok_or result_bind]; [|done].
      destruct (json_get object "kind" ≫= as_str) as [name|] eqn:En; cbn [ok_or result_bind]; [|done].
      destruct (payload_fields name) as [fields|] eqn:Ef; cbn [ok_or result_bind]; [|done].
      destruct (existsb _ object) eqn:Ex; [done|]. intros _.
      destruct (payload_fields_kind _ _ Ef) as (k & ->).
      exists object, k, fields. split; [done|]. split; [done|]. split; [done|].
      by apply entries_allowed.
    + intros (object & k & fields & -> & Hk & Hf & Hall). cbn [ok_or result_bind]. rewrite Hk.
      cbn [ok_or result_bind]. rewrite Hf. cbn [ok_or result_bind].
      by rewrite (proj2 (entries_allowed object fields) Hall).
  - intros k. destruct k; eexists; (split; [reflexivity|]); by apply (bool_decide_unpack _).
Qed.
