(* ===== verification/Validate.v ===== *)
(** * The reference validator

    Models [troupe-diagnostics-core/src/validate.rs].  The validator's state is
    a record of the source's three fields: the [BTreeSet] of sequences is a
    [gset], the [BTreeMap] of spans a [gmap].  [prepare] is the check that does
    not change the state, [commit] the change, [validate] their composition. *)

From S2P Require Import Prelude Wire Scalar Kinds Detail Event.

Definition MAX_CAUSAL_LINKS : Z := 16.

(** ** Errors *)

Inductive ReferenceValidationCode :=
| CrossRun
| ForwardLink
| SelfLink
| FinishBeforeStart
| DoubleFinish
| ChildOutsideParent
| KindMismatch
| TooManyCausalLinks
| ReferenceNotFound
| ReferenceClosed
| ScopeMismatch
| InvalidScope
| DuplicateSequence.

#[export] Instance ReferenceValidationCode_eq_dec : EqDecision ReferenceValidationCode.
Proof. solve_decision. Defined.

Definition ReferenceValidationCode_as_str (c : ReferenceValidationCode) : string :=
  match c with
  | CrossRun => "cross_run"
  | ForwardLink => "forward_link"
  | SelfLink => "self_link"
  | FinishBeforeStart => "finish_before_start"
  | DoubleFinish => "double_finish"
  | ChildOutsideParent => "child_outside_parent"
  | KindMismatch => "kind_mismatch"
  | TooManyCausalLinks => "too_many_causal_links"
  | ReferenceNotFound => "reference_not_found"
  | ReferenceClosed => "reference_closed"
  | ScopeMismatch => "scope_mismatch"
  | InvalidScope => "invalid_scope"
  | DuplicateSequence => "duplicate_sequence"
  end.

Record ReferenceValidationError := mkReferenceValidationError {
  rve_code : ReferenceValidationCode;
  rve_run_id : CanonicalUuid;
  rve_event_sequence : Z;
  rve_referenced_sequence : option Z;
}.

Definition error (event : DiagnosticEvent) (code : ReferenceValidationCode)
    (referenced_sequence : option Z) : ReferenceValidationError :=
  mkReferenceValidationError code (event_run_id event) (event_sequence event) referenced_sequence.

(** ** State *)

Inductive SpanFamily := BuiltIn | Custom.

#[export] Instance SpanFamily_eq_dec : EqDecision SpanFamily.
Proof. solve_decision. Defined.

Record SpanRecord := mkSpanRecord {
  sr_family : SpanFamily;
  sr_built_in_span_kind : option SpanKind;
  sr_scope : DiagnosticScope;
  sr_started_at : Z;
  sr_finished_at : option Z;
  sr_latest_contained_at : option Z;
  sr_parent_span_id : option Z;
}.

Inductive StateChange :=
| RecordEvent
| StartSpan (record : SpanRecord)
| FinishSpan (span_id elapsed_ns : Z)
| ContainedInstant (span_id elapsed_ns : Z).

Record ReferenceValidator := mkReferenceValidator {
  rv_run_id : option CanonicalUuid;
  rv_event_sequences : gset Z;
  rv_spans : gmap Z SpanRecord;
}.

Definition ReferenceValidator_new : ReferenceValidator := mkReferenceValidator None ∅ ∅.

(** ** Scopes *)

Definition has_unknown_scope_sentinel (scope : DiagnosticScope) : bool :=
  match DiagnosticScope_session_generation scope with
  | Some generation => generation =? 0
  | None => false
  end.

Definition validate_scope (event : DiagnosticEvent) : result unit ReferenceValidationError :=
  let header_invalid := has_unknown_scope_sentinel (event_scope event) in
  let affected_invalid :=
    match event with
    | DiagnosticEvent_ObservationGap gap =>
        match ObservationGap_affected_scope gap with
        | Some scope => has_unknown_scope_sentinel scope
        | None => false
        end
    | _ => false
    end in
  if header_invalid || affected_invalid then Err (error event InvalidScope None) else Ok tt.

Definition optional_id_contains {A} `{EqDecision A} (parent child : option A) : bool :=
  match parent with
  | Some value => bool_decide (child = Some value)
  | None => true
  end.

Definition scope_contains (parent child : DiagnosticScope) : bool :=
  optional_id_contains (DiagnosticScope_scene_id parent) (DiagnosticScope_scene_id child)
  && optional_id_contains (DiagnosticScope_actor_id parent) (DiagnosticScope_actor_id child)
  && optional_id_contains (DiagnosticScope_cue_id parent) (DiagnosticScope_cue_id child)
  && optional_id_contains (DiagnosticScope_effect_id parent) (DiagnosticScope_effect_id child)
  && optional_id_contains (DiagnosticScope_act_id parent) (DiagnosticScope_act_id child)
  && optional_id_contains (DiagnosticScope_tool_call_id parent) (DiagnosticScope_tool_call_id child)
  && match DiagnosticScope_session_generation parent with
     | Some generation =>
         bool_decide (DiagnosticScope_session_generation child = Some generation)
     | None => true
     end.

(** ** Checks *)

Section Checks.
Context (self : ReferenceValidator) (event : DiagnosticEvent).

Definition seen (sequence : Z) : bool := bool_decide (sequence ∈ rv_event_sequences self).

(** The body of the loop over [caused_by]. *)
Fixpoint check_causal_links (links : list CausalLink) : result unit ReferenceValidationError :=
  match links with
  | [] => Ok tt
  | link :: links' =>
      let source := CausalLink_source_sequence link in
      if source =? event_sequence event then Err (error event SelfLink (Some source))
      else if event_sequence event <? source then Err (error event ForwardLink (Some source))
      else if negb (seen source) then Err (error event ReferenceNotFound (Some source))
      else check_causal_links links'
  end.

Definition validate_causal_links : result unit ReferenceValidationError :=
  if MAX_CAUSAL_LINKS <? list_len (event_causes event) then
    Err (error event TooManyCausalLinks None)
  else check_causal_links (event_causes event).

Definition missing_span_code (span_id : Z) : ReferenceValidationCode :=
  if seen span_id then KindMismatch else ReferenceNotFound.

Definition validate_open_span_reference (span_id : Z)
    : result SpanRecord ReferenceValidationError :=
  if span_id =? event_sequence event then Err (error event SelfLink (Some span_id))
  else if event_sequence event <? span_id then Err (error event ForwardLink (Some span_id))
  else
    match rv_spans self !! span_id with
    | None => Err (error event (missing_span_code span_id) (Some span_id))
    | Some span =>
        match sr_finished_at span with
        | Some _ => Err (error event ReferenceClosed (Some span_id))
        | None => Ok span
        end
    end.

(** An open span that contains the event: its scope and its start time. *)
Definition check_inside (span_id : Z) (span : SpanRecord) : result unit ReferenceValidationError :=
  if negb (scope_contains (sr_scope span) (event_scope event)) then
    Err (error event ScopeMismatch (Some span_id))
  else if event_elapsed event <? sr_started_at span then
    Err (error event ChildOutsideParent (Some span_id))
  else Ok tt.

Definition validate_span_start (family : SpanFamily) (built_in_span_kind : option SpanKind)
    (parent_span_id : option Z) : result StateChange ReferenceValidationError :=
  let? _ :=
    match parent_span_id with
    | Some parent_span_id =>
        let? parent := validate_open_span_reference parent_span_id in
        check_inside parent_span_id parent
    | None => Ok tt
    end in
  Ok (StartSpan (mkSpanRecord family built_in_span_kind (event_scope event)
        (event_elapsed event) None None parent_span_id)).

(** A child of [span_id] that is open or finishes later than the event. *)
Definition child_outside (span_id : Z) (candidate : SpanRecord) : bool :=
  bool_decide (sr_parent_span_id candidate = Some span_id)
  && match sr_finished_at candidate with
     | Some finished_at => event_elapsed event <? finished_at
     | None => true
     end.

Definition validate_span_finish (family : SpanFamily) (span_id : Z)
    : result (StateChange * option SpanKind) ReferenceValidationError :=
  if event_sequence event <=? span_id then
    Err (error event FinishBeforeStart (Some span_id))
  else
    match rv_spans self !! span_id with
    | None => Err (error event (missing_span_code span_id) (Some span_id))
    | Some span =>
        if bool_decide (sr_family span <> family) then
          Err (error event KindMismatch (Some span_id))
        else if bool_decide (is_Some (sr_finished_at span)) then
          Err (error event DoubleFinish (Some span_id))
        else if bool_decide (sr_scope span <> event_scope event) then
          Err (error event ScopeMismatch (Some span_id))
        else if event_elapsed event <? sr_started_at span then
          Err (error event FinishBeforeStart (Some span_id))
        else if match sr_latest_contained_at span with
                | Some contained_at => event_elapsed event <? contained_at
                | None => false
                end then
          Err (error event ChildOutsideParent (Some span_id))
        else if existsb (child_outside span_id) (map_to_list (rv_spans self)).*2 then
          Err (error event ChildOutsideParent (Some span_id))
        else Ok (FinishSpan span_id (event_elapsed event), sr_built_in_span_kind span)
    end.

Definition validate_containing_span (containing_span_id : option Z)
    : result StateChange ReferenceValidationError :=
  match containing_span_id with
  | None => Ok RecordEvent
  | Some containing_span_id =>
      let? containing := validate_open_span_reference containing_span_id in
      let? _ := check_inside containing_span_id containing in
      Ok (ContainedInstant containing_span_id (event_elapsed event))
  end.

(** The [match] on the event that [prepare] ends with. *)
Definition prepare_change : result (StateChange * option SpanKind) ReferenceValidationError :=
  match event with
  | DiagnosticEvent_SpanStarted start =>
      let span_kind := SpanStartDetail_kind (SpanStarted_detail start) in
      let? change :=
        validate_span_start BuiltIn (Some span_kind) (SpanStarted_parent_span_id start) in
      Ok (change, Some span_kind)
  | DiagnosticEvent_CustomSpanStarted start =>
      let? change := validate_span_start Custom None (CustomSpanStarted_parent_span_id start) in
      Ok (change, None)
  | DiagnosticEvent_SpanFinished finish =>
      validate_span_finish BuiltIn (SpanFinished_span_id finish)
  | DiagnosticEvent_CustomSpanFinished finish =>
      validate_span_finish Custom (CustomSpanFinished_span_id finish)
  | DiagnosticEvent_InstantOccurred instant =>
      let? change := validate_containing_span (InstantOccurred_containing_span_id instant) in
      Ok (change, None)
  | DiagnosticEvent_CustomInstantOccurred instant =>
      let? change :=
        validate_containing_span (CustomInstantOccurred_containing_span_id instant) in
      Ok (change, None)
  | DiagnosticEvent_CounterSampled _
  | DiagnosticEvent_AgentMessageDelta _
  | DiagnosticEvent_AgentMessageCompleted _
  | DiagnosticEvent_AgentPlanSnapshot _
  | DiagnosticEvent_ContextUsageSampled _
  | DiagnosticEvent_ActTokenUsageFinalized _
  | DiagnosticEvent_ObservationGap _
  | DiagnosticEvent_CustomCounterSampled _ => Ok (RecordEvent, None)
  end.

Definition prepare : result (StateChange * option SpanKind) ReferenceValidationError :=
  if match rv_run_id self with
     | Some expected => bool_decide (expected <> event_run_id event)
     | None => false
     end then
    Err (error event CrossRun None)
  else if seen (event_sequence event) then
    Err (error event DuplicateSequence (Some (event_sequence event)))
  else
    let? _ := validate_scope event in
    let? _ := validate_causal_links in
    prepare_change.
End Checks.

(** ** State changes *)

Definition set_finished_at (elapsed_ns : Z) (span : SpanRecord) : SpanRecord :=
  mkSpanRecord (sr_family span) (sr_built_in_span_kind span) (sr_scope span)
    (sr_started_at span) (Some elapsed_ns) (sr_latest_contained_at span) (sr_parent_span_id span).

Definition max_contained (current : option Z) (elapsed_ns : Z) : option Z :=
  Some (match current with Some c => Z.max c elapsed_ns | None => elapsed_ns end).

Definition set_contained_at (elapsed_ns : Z) (span : SpanRecord) : SpanRecord :=
  mkSpanRecord (sr_family span) (sr_built_in_span_kind span) (sr_scope span)
    (sr_started_at span) (sr_finished_at span)
    (max_contained (sr_latest_contained_at span) elapsed_ns) (sr_parent_span_id span).

(** The [expect]s of the source never fire: [prepare] looked the span up. *)
Definition commit (self : ReferenceValidator) (event : DiagnosticEvent) (change : StateChange)
    : ReferenceValidator :=
  mkReferenceValidator
    (Some (event_run_id event))
    ({[event_sequence event]} ∪ rv_event_sequences self)
    (match change with
     | RecordEvent => rv_spans self
     | StartSpan record => <[event_sequence event := record]> (rv_spans self)
     | FinishSpan span_id elapsed_ns => alter (set_finished_at elapsed_ns) span_id (rv_spans self)
     | ContainedInstant span_id elapsed_ns =>
         alter (set_contained_at elapsed_ns) span_id (rv_spans self)
     end).

Record ValidatedEvent := mkValidatedEvent {
  ve_event : DiagnosticEvent;
  ve_built_in_span_kind : option SpanKind;
}.

Definition validate (self : ReferenceValidator) (event : DiagnosticEvent)
    : ReferenceValidator * result ValidatedEvent ReferenceValidationError :=
  match prepare self event with
  | Err e => (self, Err e)
  | Ok (change, kind) => (commit self event change, Ok (mkValidatedEvent event kind))
  end.

(** The state is committed only when the consumer accepts the event. *)
Definition validate_then {T E} (self : ReferenceValidator) (event : DiagnosticEvent)
    (consumer : ValidatedEvent -> result T E)
    : ReferenceValidator * result (result T E) ReferenceValidationError :=
  match prepare self event with
  | Err e => (self, Err e)
  | Ok (change, kind) =>
      let result := consumer (mkValidatedEvent event kind) in
      (if is_ok result then commit self event change else self, Ok result)
  end.

(** The loop of [validate_event_stream]. *)
Fixpoint validate_events (self : ReferenceValidator) (events : list DiagnosticEvent)
    : result (list (option SpanKind)) ReferenceValidationError :=
  match events with
  | [] => Ok []
  | event :: events' =>
      match validate self event with
      | (self', Ok validated) =>
          let? kinds := validate_events self' events' in
          Ok (ve_built_in_span_kind validated :: kinds)
      | (_, Err e) => Err e
      end
  end.

Definition validate_event_stream (events : list DiagnosticEvent)
    : result (list (option SpanKind)) ReferenceValidationError :=
  validate_events ReferenceValidator_new events.
