(* ===== verification/ValidateSpec.v ===== *)
(** * Specification of the reference validator

    What an accepted event stream means, stated on the stream itself without
    the validator's tables, and the refinement theorem: [validate_event_stream]
    accepts exactly these streams.  The abstraction relation [models] says how
    the validator's tables summarise the accepted history. *)

From S2P Require Import Prelude Wire Scalar Kinds Detail Event Validate.

(** ** Reading a history *)

(** Family, built-in kind and parent of a span start. *)
Definition span_start (e : DiagnosticEvent) : option (SpanFamily * option SpanKind * option Z) :=
  match e with
  | DiagnosticEvent_SpanStarted s =>
      Some (BuiltIn, Some (SpanStartDetail_kind (SpanStarted_detail s)),
            SpanStarted_parent_span_id s)
  | DiagnosticEvent_CustomSpanStarted s => Some (Custom, None, CustomSpanStarted_parent_span_id s)
  | _ => None
  end.

(** Family and span of a finish. *)
Definition span_finish (e : DiagnosticEvent) : option (SpanFamily * Z) :=
  match e with
  | DiagnosticEvent_SpanFinished f => Some (BuiltIn, SpanFinished_span_id f)
  | DiagnosticEvent_CustomSpanFinished f => Some (Custom, CustomSpanFinished_span_id f)
  | _ => None
  end.

(** The span an instant says it happened in. *)
Definition contained_in (e : DiagnosticEvent) : option Z :=
  match e with
  | DiagnosticEvent_InstantOccurred i => InstantOccurred_containing_span_id i
  | DiagnosticEvent_CustomInstantOccurred i => CustomInstantOccurred_containing_span_id i
  | _ => None
  end.

Abbreviation history := (list DiagnosticEvent) (only parsing).

Definition finishes (id : Z) (e : DiagnosticEvent) : Prop := exists f, span_finish e = Some (f, id).

(** [s] started the span [id] in [h]. *)
Definition started (h : history) (id : Z) (s : DiagnosticEvent) : Prop :=
  s ∈ h /\ event_sequence s = id /\ is_Some (span_start s).

Definition open_span (h : history) (id : Z) (s : DiagnosticEvent) : Prop :=
  started h id s /\ forall f, f ∈ h -> ~ finishes id f.

(** The parent a span start names. *)
Definition parent_of (e : DiagnosticEvent) : option Z :=
  match span_start e with
  | Some (_, _, parent) => parent
  | None => None
  end.

(** An open span that the event may refer to as its parent or container. *)
Definition inside (h : history) (e : DiagnosticEvent) (id : Z) : Prop :=
  id < event_sequence e /\
  exists s, open_span h id s /\ scope_contains (event_scope s) (event_scope e) = true /\
    event_elapsed s <= event_elapsed e.

(** A finish matches one earlier start of the same family and scope, is the
    only finish of the span, and ends after everything the span contains: its
    instants have happened and its children have finished. *)
Definition finish_ok (h : history) (e : DiagnosticEvent) (family : SpanFamily) (id : Z) : Prop :=
  id < event_sequence e /\
  exists s, open_span h id s /\
    (exists k p, span_start s = Some (family, k, p)) /\
    event_scope s = event_scope e /\ event_elapsed s <= event_elapsed e /\
    (forall i, i ∈ h -> contained_in i = Some id -> event_elapsed i <= event_elapsed e) /\
    (forall c, c ∈ h -> parent_of c = Some id ->
       exists f, f ∈ h /\ finishes (event_sequence c) f /\ event_elapsed f <= event_elapsed e).

Record event_ok (h : history) (e : DiagnosticEvent) : Prop := {
  ok_run : forall e', e' ∈ h -> event_run_id e' = event_run_id e;
  ok_sequence : forall e', e' ∈ h -> event_sequence e' <> event_sequence e;
  ok_scope : validate_scope e = Ok tt;
  ok_link_count : list_len (event_causes e) <= MAX_CAUSAL_LINKS;
  ok_links : forall link, link ∈ event_causes e ->
    CausalLink_source_sequence link < event_sequence e /\
    exists e', e' ∈ h /\ event_sequence e' = CausalLink_source_sequence link;
  ok_parent : forall id, parent_of e = Some id -> inside h e id;
  ok_finish : forall family id, span_finish e = Some (family, id) -> finish_ok h e family id;
  ok_container : forall id, contained_in e = Some id -> inside h e id;
}.

(** Every event of the stream is well-formed after the ones before it. *)
Definition stream_ok (events : history) : Prop :=
  forall h e t, events = h ++ e :: t -> event_ok h e.

(** The built-in kind of an event: its own for a start, that of the start it
    refers to for a finish. *)
Definition resolved_kind (h : history) (e : DiagnosticEvent) : option SpanKind :=
  match span_start e with
  | Some (_, k, _) => k
  | None =>
      match span_finish e with
      | Some (_, id) =>
          s ← find (fun s => (event_sequence s =? id) && bool_decide (is_Some (span_start s))) h;
          x ← span_start s;
          x.1.2
      | None => None
      end
  end.

Fixpoint resolved_kinds (h : history) (events : history) : list (option SpanKind) :=
  match events with
  | [] => []
  | e :: events' => resolved_kind h e :: resolved_kinds (h ++ [e]) events'
  end.

(** ** The abstraction relation *)

Definition starts_b (id : Z) (s : DiagnosticEvent) : bool :=
  (event_sequence s =? id) && bool_decide (is_Some (span_start s)).

Definition finishes_b (id : Z) (e : DiagnosticEvent) : bool :=
  match span_finish e with
  | Some (_, i) => i =? id
  | None => false
  end.

Definition finish_time (h : history) (id : Z) : option Z :=
  (fun e => event_elapsed e) <$> find (finishes_b id) h.

Definition latest_contained (h : history) (id : Z) : option Z :=
  foldl (fun acc e =>
           if bool_decide (contained_in e = Some id) then max_contained acc (event_elapsed e)
           else acc) None h.

(** The record the validator keeps for a span, computed from the history. *)
Definition span_of (h : history) (id : Z) : option SpanRecord :=
  s ← find (starts_b id) h;
  x ← span_start s;
  Some (mkSpanRecord x.1.1 x.1.2 (event_scope s) (event_elapsed s) (finish_time h id)
          (latest_contained h id) x.2).

Record models (rv : ReferenceValidator) (h : history) : Prop := {
  m_run : rv_run_id rv = None <-> h = [];
  m_run_eq : forall e, e ∈ h -> rv_run_id rv = Some (event_run_id e);
  m_sequences : forall s, s ∈ rv_event_sequences rv <-> exists e, e ∈ h /\ event_sequence e = s;
  m_spans : forall id, rv_spans rv !! id = span_of h id;
  m_distinct : NoDup ((fun e => event_sequence e) <$> h);
  m_refs : forall e id, e ∈ h -> finishes id e \/ contained_in e = Some id ->
    exists s, s ∈ h /\ event_sequence s = id;
  m_one_finish : forall id f f', f ∈ h -> f' ∈ h -> finishes id f -> finishes id f' -> f = f';
}.

(** ** Lemmas on histories *)

Lemma starts_b_true id s :
  starts_b id s = true <-> event_sequence s = id /\ is_Some (span_start s).
Proof. unfold starts_b. rewrite andb_true_iff, bool_decide_eq_true, Z.eqb_eq. done. Qed.

Lemma finishes_b_true id e : finishes_b id e = true <-> finishes id e.
Proof.
  unfold finishes_b, finishes. destruct (span_finish e) as [[f i]|]; [|naive_solver].
  rewrite Z.eqb_eq. naive_solver.
Qed.

Lemma find_app {A} (p : A -> bool) l k :
  find p (l ++ k) = match find p l with Some x => Some x | None => find p k end.
Proof. induction l as [|x l IH]; cbn; [done|]. by destruct (p x). Qed.

Lemma find_some_elem {A} (p : A -> bool) l x : find p l = Some x -> x ∈ l /\ p x = true.
Proof. intros H. apply find_some in H as [? ?]. by rewrite list_elem_of_In. Qed.

Lemma find_none_elem {A} (p : A -> bool) l : find p l = None <-> forall x, x ∈ l -> p x = false.
Proof.
  split.
  - intros H x Hx. eapply find_none; [exact H|]. by apply list_elem_of_In.
  - intros H. destruct (find p l) as [x|] eqn:E; [|done].
    apply find_some_elem in E as [Hx Hp]. rewrite (H x Hx) in Hp. done.
Qed.

Lemma finish_time_none h id : finish_time h id = None <-> forall f, f ∈ h -> ~ finishes id f.
Proof.
  unfold finish_time. rewrite fmap_None, find_none_elem.
  split; intros H f Hf; specialize (H f Hf).
  - rewrite <-finishes_b_true. congruence.
  - destruct (finishes_b id f) eqn:E; [|done]. by apply finishes_b_true in E.
Qed.

Lemma finish_time_some h id t :
  finish_time h id = Some t -> exists f, f ∈ h /\ finishes id f /\ event_elapsed f = t.
Proof.
  unfold finish_time. intros (f & Hf & ->)%fmap_Some.
  apply find_some_elem in Hf as [? ?%finishes_b_true]. eauto.
Qed.

Lemma finish_time_snoc h e id :
  finish_time (h ++ [e]) id =
  match finish_time h id with
  | Some t => Some t
  | None => if finishes_b id e then Some (event_elapsed e) else None
  end.
Proof.
  unfold finish_time. rewrite find_app. destruct (find _ h); [done|]. cbn.
  by destruct (finishes_b id e).
Qed.

Lemma latest_contained_snoc h e id :
  latest_contained (h ++ [e]) id =
  if bool_decide (contained_in e = Some id)
  then max_contained (latest_contained h id) (event_elapsed e) else latest_contained h id.
Proof. unfold latest_contained. by rewrite foldl_app. Qed.

Lemma latest_contained_le h id t :
  match latest_contained h id with Some c => c <= t | None => True end <->
  forall i, i ∈ h -> contained_in i = Some id -> event_elapsed i <= t.
Proof.
  induction h as [|e h IH] using rev_ind; [by split; [intros _ i ?%not_elem_of_nil|]|].
  rewrite latest_contained_snoc.
  setoid_rewrite elem_of_app. setoid_rewrite list_elem_of_singleton.
  case_bool_decide as Hc; unfold max_contained.
  - assert (forall t', (match latest_contained h id with Some c => c <= t' | None => True end /\
                         event_elapsed e <= t') <->
             match latest_contained h id with Some c => Z.max c (event_elapsed e) | None => event_elapsed e end <= t') as Hm
      by (intros t'; destruct (latest_contained h id); lia).
    rewrite <-Hm, IH. clear Hm IH. split.
    + intros [H He] i [Hi| ->]; auto.
    + intros H. split; [|by apply H; auto]. intros i Hi. apply H. auto.
  - rewrite IH. split.
    + intros H i [Hi| ->]; [auto|done].
    + intros H i Hi. apply H. auto.
Qed.

Lemma latest_contained_none h id :
  (forall i, i ∈ h -> contained_in i <> Some id) -> latest_contained h id = None.
Proof.
  induction h as [|e h IH] using rev_ind; [done|]. intros H.
  rewrite latest_contained_snoc, bool_decide_eq_false_2 by (apply H; set_solver).
  apply IH. set_solver.
Qed.

Lemma NoDup_fmap_eq {A B} (f : A -> B) (l : list A) x y :
  NoDup (f <$> l) -> x ∈ l -> y ∈ l -> f x = f y -> x = y.
Proof. apply NoDup_map_inj. Qed.

Section Models.
Context (rv : ReferenceValidator) (h : history) (M : models rv h).

Lemma same_sequence s s' : s ∈ h -> s' ∈ h -> event_sequence s = event_sequence s' -> s = s'.
Proof. apply (NoDup_fmap_eq (fun e => event_sequence e)). apply M. Qed.

Lemma find_started id s : started h id s -> find (starts_b id) h = Some s.
Proof.
  intros (Hs & Hid & Hst). destruct (find (starts_b id) h) as [s'|] eqn:E.
  - apply find_some_elem in E as [Hs' [? _]%starts_b_true]. f_equal.
    apply same_sequence; congruence.
  - apply find_none_elem with (x := s) in E; [|done].
    assert (starts_b id s = true) by (by apply starts_b_true). congruence.
Qed.

Lemma span_of_spec id r :
  span_of h id = Some r <->
  exists s f k p, started h id s /\ span_start s = Some (f, k, p) /\
    r = mkSpanRecord f k (event_scope s) (event_elapsed s) (finish_time h id)
          (latest_contained h id) p.
Proof.
  unfold span_of. split.
  - destruct (find (starts_b id) h) as [s|] eqn:E; cbn; [|done].
    destruct (span_start s) as [[[f k] p]|] eqn:Es; cbn; [|done]. intros [= <-].
    apply find_some_elem in E as [Hs Hst%starts_b_true]. exists s, f, k, p.
    repeat split; naive_solver.
  - intros (s & f & k & p & Hst & Es & ->). rewrite (find_started _ _ Hst). cbn. by rewrite Es.
Qed.

Lemma seen_spec s : seen rv s = true <-> exists e, e ∈ h /\ event_sequence e = s.
Proof. unfold seen. rewrite bool_decide_eq_true. apply (m_sequences _ _ M). Qed.
End Models.

(** ** The checks against the specification *)

(** The change an accepted event makes. *)
Definition change_of (e : DiagnosticEvent) : StateChange :=
  match span_start e with
  | Some (f, k, p) => StartSpan (mkSpanRecord f k (event_scope e) (event_elapsed e) None None p)
  | None =>
      match span_finish e with
      | Some (_, id) => FinishSpan id (event_elapsed e)
      | None =>
          match contained_in e with
          | Some id => ContainedInstant id (event_elapsed e)
          | None => RecordEvent
          end
      end
  end.

Section Refinement.
Context (rv : ReferenceValidator) (h : history) (M : models rv h) (e : DiagnosticEvent).

Lemma open_reference_ok id r :
  validate_open_span_reference rv e id = Ok r <->
  id < event_sequence e /\ rv_spans rv !! id = Some r /\ sr_finished_at r = None.
Proof.
  unfold validate_open_span_reference.
  destruct (id =? event_sequence e) eqn:E1; [split; [done|lia]|].
  destruct (event_sequence e <? id) eqn:E2; [split; [done|lia]|].
  destruct (rv_spans rv !! id) as [r'|]; [|naive_solver].
  destruct (sr_finished_at r') eqn:Ef; split; intros H.
  - done.
  - destruct H as (_ & [= ->] & ?). congruence.
  - injection H as ->. split; [lia|done].
  - by destruct H as (_ & [= ->] & _).
Qed.

Lemma open_record id r :
  rv_spans rv !! id = Some r /\ sr_finished_at r = None <->
  exists s f k p, open_span h id s /\ span_start s = Some (f, k, p) /\
    r = mkSpanRecord f k (event_scope s) (event_elapsed s) None (latest_contained h id) p.
Proof.
  rewrite (m_spans _ _ M), (span_of_spec rv h M). split.
  - intros [(s & f & k & p & Hst & Es & ->) Hf]. cbn in Hf. exists s, f, k, p.
    rewrite Hf. split; [|done]. split; [done|]. by apply finish_time_none.
  - intros (s & f & k & p & [Hst Hf] & Es & ->). split; [|done].
    apply finish_time_none in Hf. exists s, f, k, p. by rewrite Hf.
Qed.

Lemma check_inside_ok id r :
  check_inside e id r = Ok tt <->
  scope_contains (sr_scope r) (event_scope e) = true /\ sr_started_at r <= event_elapsed e.
Proof.
  unfold check_inside. destruct (scope_contains _ _); cbn [negb]; [|naive_solver].
  destruct (event_elapsed e <? sr_started_at r) eqn:E.
  - split; [done|lia].
  - split; [|done]. intros _. split; [done|lia].
Qed.

Lemma inside_ok id :
  (let? parent := validate_open_span_reference rv e id in check_inside e id parent) = Ok tt <->
  inside h e id.
Proof.
  rewrite result_bind_ok. setoid_rewrite open_reference_ok. setoid_rewrite check_inside_ok.
  unfold inside. split.
  - intros (r & (Hlt & Hr) & Hc & Ht). apply open_record in Hr as (s & f & k & p & Ho & Es & ->).
    cbn in *. eauto 10.
  - intros (Hlt & s & Ho & Hc & Ht). destruct Ho as [(Hs & Hid & [[[f k] p] Es]) Hf].
    eexists. split; [split; [done|]; apply open_record; exists s, f, k, p|].
    + split; [|by split]. split; [|done]. split; [done|]. split; [done|]. by eexists.
    + done.
Qed.

Lemma inside_ok_unit id u :
  (let? parent := validate_open_span_reference rv e id in check_inside e id parent) = Ok u <->
  inside h e id.
Proof. destruct u. apply inside_ok. Qed.

Lemma causal_links_ok :
  validate_causal_links rv e = Ok tt <->
  list_len (event_causes e) <= MAX_CAUSAL_LINKS /\
  forall link, link ∈ event_causes e ->
    CausalLink_source_sequence link < event_sequence e /\
    exists e', e' ∈ h /\ event_sequence e' = CausalLink_source_sequence link.
Proof.
  unfold validate_causal_links.
  assert (forall links, check_causal_links rv e links = Ok tt <->
    forall link, link ∈ links ->
      CausalLink_source_sequence link < event_sequence e /\
      exists e', e' ∈ h /\ event_sequence e' = CausalLink_source_sequence link) as Hl.
  { induction links as [|link links IH]; cbn.
    - split; [|done]. intros _ link ?%not_elem_of_nil. done.
    - setoid_rewrite elem_of_cons.
      destruct (_ =? _) eqn:E1; [split; [done|]; intros H; specialize (H link (or_introl eq_refl)); lia|].
      destruct (_ <? _) eqn:E2; [split; [done|]; intros H; specialize (H link (or_introl eq_refl)); lia|].
      destruct (seen rv _) eqn:E3; cbn [negb].
      + rewrite IH. apply (seen_spec rv h M) in E3. split.
        * intros H link' [->|Hin]; [split; [lia|done]|auto].
        * intros H link' Hin. apply H. auto.
      + split; [done|]. intros H. specialize (H link (or_introl eq_refl)) as [_ H].
        apply (seen_spec rv h M) in H. congruence. }
  destruct (MAX_CAUSAL_LINKS <? _) eqn:E; [split; [done|lia]|].
  rewrite Hl. split; [|by intros [_ ?]]. intros H. split; [lia|done].
Qed.

Lemma child_outside_none id :
  existsb (child_outside e id) (map_to_list (rv_spans rv)).*2 = false <->
  forall c, c ∈ h -> parent_of c = Some id ->
    exists f, f ∈ h /\ finishes (event_sequence c) f /\ event_elapsed f <= event_elapsed e.
Proof.
  rewrite <-not_true_iff_false, existsb_exists.
  setoid_rewrite <-list_elem_of_In. setoid_rewrite list_elem_of_fmap.
  unfold child_outside. split.
  - intros H c Hc Hp.
    assert (exists f k, span_start c = Some (f, k, Some id)) as (f & k & Es).
    { unfold parent_of in Hp. destruct (span_start c) as [[[f k] p]|]; [|done]. subst. eauto. }
    destruct (finish_time h (event_sequence c)) as [t|] eqn:Ef.
    + apply finish_time_some in Ef as Hfin. destruct Hfin as (g & Hg & Hfin & Ht).
      exists g. split; [done|]. split; [done|].
      destruct (Z.le_gt_cases (event_elapsed g) (event_elapsed e)); [done|]. exfalso. apply H.
      exists (mkSpanRecord f k (event_scope c) (event_elapsed c) (Some t) (latest_contained h (event_sequence c)) (Some id)).
      split.
      * eexists (event_sequence c, _). split; [done|]. apply elem_of_map_to_list.
        rewrite (m_spans _ _ M). apply (span_of_spec rv h M). exists c, f, k, (Some id).
        rewrite Ef. split; [|done]. repeat split; eauto.
      * cbn. rewrite bool_decide_eq_true_2 by done. apply Z.ltb_lt. lia.
    + exfalso. apply H.
      exists (mkSpanRecord f k (event_scope c) (event_elapsed c) None (latest_contained h (event_sequence c)) (Some id)).
      split.
      * eexists (event_sequence c, _). split; [done|]. apply elem_of_map_to_list.
        rewrite (m_spans _ _ M). apply (span_of_spec rv h M). exists c, f, k, (Some id).
        rewrite Ef. split; [|done]. repeat split; eauto.
      * cbn. by rewrite bool_decide_eq_true_2.
  - intros H (r & ([i r'] & -> & Hr%elem_of_map_to_list) & Hb). cbn in Hb.
    rewrite (m_spans _ _ M) in Hr.
    apply (span_of_spec rv h M) in Hr as (c & f & k & p & (Hc & Hi & _) & Es & ->).
    cbn in Hb. apply andb_prop in Hb as [Hp%bool_decide_eq_true Hb]. subst p.
    destruct (H c Hc) as (g & Hg & Hfin & Hle); [unfold parent_of; by rewrite Es|].
    rewrite Hi in Hfin.
    destruct (finish_time h i) as [t|] eqn:Ef.
    + apply finish_time_some in Ef as (g' & Hg' & Hfin' & Ht).
      rewrite (m_one_finish _ _ M _ _ _ Hg Hg' Hfin Hfin') in Hle. lia.
    + apply finish_time_none with (f := g) in Ef; done.
Qed.

Lemma span_finish_ok family id :
  (exists kind, validate_span_finish rv e family id = Ok (FinishSpan id (event_elapsed e), kind)) <->
  finish_ok h e family id.
Proof.
  unfold validate_span_finish, finish_ok.
  destruct (event_sequence e <=? id) eqn:E0; [split; [by intros [? ?]|intros [? _]; lia]|].
  assert (id < event_sequence e) as Hlt by lia.
  destruct (rv_spans rv !! id) as [r|] eqn:Er.
  2:{ split; [by intros [? ?]|]. intros (_ & s & [(Hs & Hid & [[[f k] p] Es]) Hf] & _).
      assert (rv_spans rv !! id <> None) as Hn; [|congruence].
      rewrite (m_spans _ _ M). intros Hn.
      assert (span_of h id = Some (mkSpanRecord f k (event_scope s) (event_elapsed s)
        (finish_time h id) (latest_contained h id) p)) as Hsome; [|congruence].
      apply (span_of_spec rv h M). exists s, f, k, p. repeat split; eauto. }
  assert (Hr := Er). rewrite (m_spans _ _ M), (span_of_spec rv h M) in Hr.
  destruct Hr as (s & f & k & p & Hst & Es & ->). cbn.
  assert (forall s', open_span h id s' -> s' = s) as Huniq.
  { intros s' [(Hs' & Hid' & _) _]. destruct Hst as (Hs & Hid & _).
    eapply same_sequence; eauto. congruence. }
  case_bool_decide as Hfam; [split; [by intros [? ?]|]|].
  { intros (_ & s' & Ho & (k' & p' & Es') & _). rewrite (Huniq _ Ho) in Es'. congruence. }
  case_bool_decide as Hfin; [split; [by intros [? ?]|]|].
  { intros (_ & s' & [_ Hf] & _). apply finish_time_none in Hf. rewrite Hf in Hfin. by destruct Hfin. }
  assert (open_span h id s) as Ho.
  { split; [done|]. apply finish_time_none. by destruct (finish_time h id); [destruct Hfin; eexists|]. }
  case_bool_decide as Hsc; [split; [by intros [? ?]|]|].
  { intros (_ & s' & Ho' & _ & Hsc' & _). rewrite (Huniq _ Ho') in Hsc'. done. }
  destruct (event_elapsed e <? event_elapsed s) eqn:Et; [split; [by intros [? ?]|]|].
  { intros (_ & s' & Ho' & _ & _ & Ht & _). rewrite (Huniq _ Ho') in Ht. lia. }
  pose proof (latest_contained_le h id (event_elapsed e)) as Hlc.
  destruct (match latest_contained h id with Some c => event_elapsed e <? c | None => false end) eqn:Ec.
  { split; [by intros [? ?]|]. intros (_ & s' & _ & _ & _ & _ & Hc & _).
    apply Hlc in Hc. destruct (latest_contained h id); [lia|done]. }
  destruct (existsb _ _) eqn:Ech.
  { split; [by intros [? ?]|]. intros (_ & s' & _ & _ & _ & _ & _ & Hc).
    apply child_outside_none in Hc. congruence. }
  split; [intros _|by eexists].
  split; [done|]. exists s. split; [done|].
  split; [destruct (decide (f = family)) as [->|]; [by eexists _, _|done]|].
  split; [by destruct (decide (event_scope s = event_scope e))|]. split; [lia|].
  split; [|by apply child_outside_none].
  apply Hlc. destruct (latest_contained h id); [lia|done].
Qed.

Lemma span_finish_kind family id c kind :
  validate_span_finish rv e family id = Ok (c, kind) ->
  c = FinishSpan id (event_elapsed e) /\
  kind = (s ← find (starts_b id) h; x ← span_start s; x.1.2).
Proof.
  unfold validate_span_finish. destruct (event_sequence e <=? id); [done|].
  rewrite (m_spans _ _ M). unfold span_of.
  destruct (find (starts_b id) h) as [s|]; cbn; [|done].
  destruct (span_start s) as [[[f k] p]|]; cbn; [|done].
  repeat match goal with |- context [if ?b then Err _ else _] => destruct b; [done|] end.
  by intros [= <- <-].
Qed.

Lemma span_finish_result family id c kind :
  span_finish e = Some (family, id) -> span_start e = None ->
  validate_span_finish rv e family id = Ok (c, kind) <->
  finish_ok h e family id /\ c = change_of e /\ kind = resolved_kind h e.
Proof.
  intros Hf Hs. unfold change_of, resolved_kind. rewrite Hs, Hf. split.
  - intros H. pose proof (span_finish_kind _ _ _ _ H) as [-> ->].
    split; [|done]. apply span_finish_ok. eauto.
  - intros (Hok & -> & ->). apply span_finish_ok in Hok as [kind' H].
    rewrite H. by apply span_finish_kind in H as [_ ->].
Qed.

Lemma span_start_result family kind parent c :
  span_start e = Some (family, kind, parent) ->
  validate_span_start rv e family kind parent = Ok c <->
  (forall id, parent_of e = Some id -> inside h e id) /\ c = change_of e.
Proof.
  intros Hs. unfold validate_span_start, change_of, parent_of. rewrite Hs, result_bind_ok.
  destruct parent as [id|].
  - setoid_rewrite inside_ok_unit. split.
    + intros (_ & Hi & [= <-]). split; [|done]. by intros ? [= <-].
    + intros [Hi ->]. exists tt. split; [by apply Hi|done].
  - split; [intros (_ & _ & [= <-])|intros [_ ->]; by exists tt]. by split.
Qed.

Lemma containing_result c :
  span_start e = None -> span_finish e = None ->
  validate_containing_span rv e (contained_in e) = Ok c <->
  (forall id, contained_in e = Some id -> inside h e id) /\ c = change_of e.
Proof.
  intros Hs Hf. unfold validate_containing_span, change_of. rewrite Hs, Hf.
  destruct (contained_in e) as [id|]; [|naive_solver].
  rewrite <-result_bind_assoc, result_bind_ok. setoid_rewrite inside_ok_unit. split.
  - intros (_ & Hi & [= <-]). split; [|done]. by intros ? [= <-].
  - intros [Hi ->]. exists tt. split; [by apply Hi|done].
Qed.

Lemma run_check_ok :
  match rv_run_id rv with
  | Some expected => bool_decide (expected <> event_run_id e)
  | None => false
  end = false <-> forall e', e' ∈ h -> event_run_id e' = event_run_id e.
Proof.
  destruct (rv_run_id rv) as [expected|] eqn:E.
  - rewrite bool_decide_eq_false. split.
    + intros Hd e' He'. apply (m_run_eq _ _ M) in He'. rewrite E in He'. injection He' as <-.
      destruct (decide (expected = event_run_id e)); done.
    + intros H. destruct h as [|e' h'] eqn:Eh; [|].
      * assert (rv_run_id rv = None) by (by apply (m_run _ _ M)). congruence.
      * assert (e' ∈ e' :: h') as Hin by set_solver.
        pose proof (m_run_eq _ _ M e' Hin) as Hr. rewrite E in Hr. injection Hr as ->.
        rewrite (H e' Hin). tauto.
  - split; [|done]. intros _ e' He'. apply (m_run _ _ M) in E. subst. by apply not_elem_of_nil in He'.
Qed.

(** The span references of the event. *)
Definition refs_ok : Prop :=
  (forall id, parent_of e = Some id -> inside h e id) /\
  (forall family id, span_finish e = Some (family, id) -> finish_ok h e family id) /\
  (forall id, contained_in e = Some id -> inside h e id).

Lemma prepare_change_spec c k :
  prepare_change rv e = Ok (c, k) <->
  refs_ok /\ c = change_of e /\ k = resolved_kind h e.
Proof.
  assert (forall family kind parent, span_start e = Some (family, kind, parent) ->
    span_finish e = None -> contained_in e = None ->
    (let? change := validate_span_start rv e family kind parent in Ok (change, kind)) = Ok (c, k) <->
    refs_ok /\ c = change_of e /\ k = resolved_kind h e) as Hstart.
  { intros family kind parent Hs Hf Hc. unfold refs_ok. rewrite result_bind_ok, Hf, Hc.
    setoid_rewrite (span_start_result _ _ _ _ Hs). unfold resolved_kind. rewrite Hs. naive_solver. }
  assert (span_start e = None -> span_finish e = None ->
    (let? change := validate_containing_span rv e (contained_in e) in Ok (change, None)) = Ok (c, k) <->
    refs_ok /\ c = change_of e /\ k = resolved_kind h e) as Hinst.
  { intros Hs Hf. unfold refs_ok. rewrite result_bind_ok. setoid_rewrite (containing_result _ Hs Hf).
    unfold parent_of, resolved_kind. rewrite Hs, Hf. naive_solver. }
  assert (forall family id, span_finish e = Some (family, id) -> span_start e = None ->
    contained_in e = None ->
    validate_span_finish rv e family id = Ok (c, k) <->
    refs_ok /\ c = change_of e /\ k = resolved_kind h e) as Hfin.
  { intros family id Hf Hs Hc. rewrite (span_finish_result _ _ _ _ Hf Hs).
    unfold refs_ok, parent_of. rewrite Hs, Hf, Hc. naive_solver. }
  assert (span_start e = None -> span_finish e = None -> contained_in e = None ->
    Ok (RecordEvent, None) = Ok (E := ReferenceValidationError) (c, k) <->
    refs_ok /\ c = change_of e /\ k = resolved_kind h e) as Hrec.
  { intros Hs Hf Hc. unfold refs_ok, parent_of, change_of, resolved_kind. rewrite Hs, Hf, Hc.
    split; [intros [= <- <-]; split; [split; [|split]|]; done|by intros (_ & -> & ->)]. }
  destruct e eqn:Ee; rewrite <-?Ee in *; unfold prepare_change;
    rewrite Ee at 1; rewrite <-?Ee;
    first [ apply Hstart; by rewrite Ee | apply Hfin; by rewrite Ee
          | match goal with |- context [validate_containing_span _ _ ?o] =>
              replace o with (contained_in e) by (by rewrite Ee) end; apply Hinst; by rewrite Ee
          | apply Hrec; by rewrite Ee ].
Qed.

Lemma prepare_spec c k :
  prepare rv e = Ok (c, k) <-> event_ok h e /\ c = change_of e /\ k = resolved_kind h e.
Proof.
  unfold prepare. destruct (match rv_run_id rv with Some _ => _ | None => _ end) eqn:Er.
  { split; [done|]. intros [Hok _]. pose proof (proj2 run_check_ok (ok_run _ _ Hok)). congruence. }
  assert (Hrun := proj1 run_check_ok Er).
  destruct (seen rv (event_sequence e)) eqn:Es.
  { split; [done|]. intros [Hok _]. apply (seen_spec rv h M) in Es as (e' & He' & Eq).
    by apply (ok_sequence _ _ Hok) in He'. }
  assert (forall e', e' ∈ h -> event_sequence e' <> event_sequence e) as Hseq.
  { intros e' He' Eq. assert (seen rv (event_sequence e) = true); [|congruence].
    apply (seen_spec rv h M). eauto. }
  rewrite !result_bind_ok. setoid_rewrite result_bind_ok.
  assert (forall P : Prop,
    (exists u, validate_scope e = Ok u /\ exists v, validate_causal_links rv e = Ok v /\ P) <->
    validate_scope e = Ok tt /\ validate_causal_links rv e = Ok tt /\ P) as Hunit.
  { intros P. split; [intros ([] & ? & [] & ? & ?); auto|intros (? & ? & ?); eauto]. }
  rewrite Hunit, causal_links_ok. clear Hunit.
  assert (forall Q : Prop,
    (Q <-> refs_ok /\ c = change_of e /\ k = resolved_kind h e) ->
    (validate_scope e = Ok tt /\
     (list_len (event_causes e) <= MAX_CAUSAL_LINKS /\
      (forall link, link ∈ event_causes e ->
         CausalLink_source_sequence link < event_sequence e /\
         exists e', e' ∈ h /\ event_sequence e' = CausalLink_source_sequence link)) /\ Q <->
     event_ok h e /\ c = change_of e /\ k = resolved_kind h e)) as Hgoal.
  { intros Q ->. split.
    - intros (? & [? ?] & (? & ? & ?) & ? & ?). split; [by constructor|done].
    - intros [[] [? ?]]. unfold refs_ok. tauto. }
  apply Hgoal. clear Hgoal Hrun Hseq Er Es.
  apply prepare_change_spec.
Qed.
End Refinement.

(** ** The validator keeps the abstraction *)

Lemma models_nil : models ReferenceValidator_new [].
Proof.
  constructor; try (by intros ? ?%not_elem_of_nil).
  - done.
  - intros s. cbn. split; [set_solver|]. by intros (e & ?%not_elem_of_nil & _).
  - done.
  - constructor.
  - by intros e id ?%not_elem_of_nil.
  - by intros id f f' ?%not_elem_of_nil.
Qed.

(** A history extended by an event that starts no span. *)
Lemma span_of_snoc h e id :
  span_start e = None ->
  span_of (h ++ [e]) id =
  (fun r => mkSpanRecord (sr_family r) (sr_built_in_span_kind r) (sr_scope r) (sr_started_at r)
              (finish_time (h ++ [e]) id) (latest_contained (h ++ [e]) id) (sr_parent_span_id r))
  <$> span_of h id.
Proof.
  intros Hs. unfold span_of. rewrite find_app.
  destruct (find (starts_b id) h) as [s|]; cbn.
  - by destruct (span_start s) as [[[f k] p]|].
  - unfold starts_b. rewrite Hs. rewrite (bool_decide_eq_false_2 (is_Some None)) by (by intros [? ?]).
    by rewrite andb_false_r.
Qed.

Lemma span_of_stable h e id :
  span_start e = None -> ~ finishes id e -> contained_in e <> Some id ->
  span_of (h ++ [e]) id = span_of h id.
Proof.
  intros Hs Hf Hc. rewrite span_of_snoc by done.
  rewrite finish_time_snoc, latest_contained_snoc, bool_decide_eq_false_2 by done.
  replace (finishes_b id e) with false.
  2:{ symmetry. apply not_true_iff_false. by rewrite finishes_b_true. }
  unfold span_of. destruct (find (starts_b id) h) as [s|]; [|done]. cbn.
  destruct (span_start s) as [[[f k] p]|]; [|done]. cbn. by destruct (finish_time h id).
Qed.

Lemma starts_only e x : span_start e = Some x -> span_finish e = None /\ contained_in e = None.
Proof. by destruct e. Qed.

Lemma finishes_only e x : span_finish e = Some x -> span_start e = None /\ contained_in e = None.
Proof. by destruct e. Qed.

Section Preservation.
Context (rv : ReferenceValidator) (h : history) (M : models rv h).
Context (e : DiagnosticEvent) (OK : event_ok h e).

Lemma fresh_span : finish_time h (event_sequence e) = None /\
  latest_contained h (event_sequence e) = None /\ find (starts_b (event_sequence e)) h = None.
Proof.
  assert (forall e', e' ∈ h -> event_sequence e' = event_sequence e -> False) as Hfresh.
  { intros e' He' Eq. by apply (ok_sequence _ _ OK) in He'. }
  split; [|split].
  - apply finish_time_none. intros f Hf Hfin.
    destruct (m_refs _ _ M f (event_sequence e) Hf) as (s & Hs & Eq); eauto.
  - apply latest_contained_none. intros i Hi Hc.
    destruct (m_refs _ _ M i (event_sequence e) Hi) as (s & Hs & Eq); eauto.
  - apply find_none_elem. intros s Hs. unfold starts_b.
    destruct (event_sequence s =? event_sequence e) eqn:E; [|done].
    apply Z.eqb_eq in E. exfalso. eauto.
Qed.

Lemma commit_start f k p :
  span_start e = Some (f, k, p) ->
  forall id, <[event_sequence e := mkSpanRecord f k (event_scope e) (event_elapsed e) None None p]>
    (rv_spans rv) !! id = span_of (h ++ [e]) id.
Proof.
  intros Hs id. destruct (starts_only _ _ Hs) as [Hf Hc].
  pose proof fresh_span as (Hft & Hlc & Hfd).
  assert (finish_time (h ++ [e]) id = finish_time h id) as Eft.
  { rewrite finish_time_snoc. unfold finishes_b. rewrite Hf. by destruct (finish_time h id). }
  assert (latest_contained (h ++ [e]) id = latest_contained h id) as Elc.
  { by rewrite latest_contained_snoc, Hc. }
  unfold span_of. rewrite Eft, Elc, find_app.
  destruct (decide (id = event_sequence e)) as [->|Hne].
  - rewrite lookup_insert_eq, Hft, Hlc, Hfd. cbn.
    replace (starts_b _ e) with true; [cbn; by rewrite Hs|].
    symmetry. apply starts_b_true. split; [done|]. by eexists.
  - rewrite lookup_insert_ne by done. rewrite (m_spans _ _ M). unfold span_of.
    destruct (find (starts_b id) h); [done|]. cbn.
    replace (starts_b id e) with false; [done|]. symmetry. apply not_true_iff_false.
    rewrite starts_b_true. naive_solver.
Qed.

Lemma commit_finish f i :
  span_finish e = Some (f, i) ->
  forall id, alter (set_finished_at (event_elapsed e)) i (rv_spans rv) !! id = span_of (h ++ [e]) id.
Proof.
  intros Hf id. destruct (finishes_only _ _ Hf) as [Hs Hc].
  destruct (decide (id = i)) as [->|Hne].
  - rewrite lookup_alter_eq, (m_spans _ _ M), span_of_snoc by done.
    rewrite latest_contained_snoc, bool_decide_eq_false_2 by congruence.
    rewrite finish_time_snoc. unfold finishes_b. rewrite Hf, Z.eqb_refl.
    destruct (ok_finish _ _ OK _ _ Hf) as (_ & s & [_ Ho] & _).
    apply finish_time_none in Ho. rewrite Ho.
    destruct (span_of h i) as [r|] eqn:Er; [|done]. cbn. f_equal.
    apply (span_of_spec rv h M) in Er as (? & ? & ? & ? & _ & _ & ->). done.
  - rewrite lookup_alter_ne by done. rewrite (m_spans _ _ M), span_of_stable; [done|done| |congruence].
    intros [f' Hf']. congruence.
Qed.

Lemma commit_contained i :
  contained_in e = Some i -> span_start e = None -> span_finish e = None ->
  forall id, alter (set_contained_at (event_elapsed e)) i (rv_spans rv) !! id = span_of (h ++ [e]) id.
Proof.
  intros Hc Hs Hf id. destruct (decide (id = i)) as [->|Hne].
  - rewrite lookup_alter_eq, (m_spans _ _ M), span_of_snoc by done.
    rewrite latest_contained_snoc, bool_decide_eq_true_2 by done.
    rewrite finish_time_snoc. unfold finishes_b. rewrite Hf.
    destruct (span_of h i) as [r|] eqn:Er; [|done]. cbn. f_equal.
    apply (span_of_spec rv h M) in Er as (? & ? & ? & ? & _ & _ & ->).
    unfold set_contained_at; cbn. by destruct (finish_time h i).
  - rewrite lookup_alter_ne by done. rewrite (m_spans _ _ M), span_of_stable; [done|done| |congruence].
    intros [f' Hf']. congruence.
Qed.

Lemma commit_spans id :
  rv_spans (commit rv e (change_of e)) !! id = span_of (h ++ [e]) id.
Proof.
  unfold commit, change_of. cbn.
  destruct (span_start e) as [[[f k] p]|] eqn:Hs; [by eapply commit_start|].
  destruct (span_finish e) as [[f i]|] eqn:Hf; [by eapply commit_finish|].
  destruct (contained_in e) as [i|] eqn:Hc; [by apply commit_contained|].
  rewrite (m_spans _ _ M), span_of_stable; [done|done| |congruence].
  intros [f' Hf']. congruence.
Qed.

Lemma reference_started id :
  finishes id e \/ contained_in e = Some id -> exists s, s ∈ h /\ event_sequence s = id.
Proof.
  intros [[f Hf]|Hc].
  - destruct (ok_finish _ _ OK _ _ Hf) as (_ & s & [(Hs & Hid & _) _] & _). eauto.
  - destruct (ok_container _ _ OK _ Hc) as (_ & s & [(Hs & Hid & _) _] & _). eauto.
Qed.

Lemma no_earlier_finish id f : f ∈ h -> finishes id f -> finishes id e -> False.
Proof.
  intros Hf Hfin [fam Hfe]. destruct (ok_finish _ _ OK _ _ Hfe) as (_ & s & [_ Ho] & _).
  by apply (Ho f).
Qed.

Lemma models_commit : models (commit rv e (change_of e)) (h ++ [e]).
Proof.
  constructor.
  - split; [done|]. by destruct h.
  - intros e' [He'| ->%list_elem_of_singleton]%elem_of_app; [|done].
    cbn. by rewrite <-(ok_run _ _ OK e' He').
  - intros s. cbn. rewrite elem_of_union, elem_of_singleton, (m_sequences _ _ M).
    setoid_rewrite elem_of_app. setoid_rewrite list_elem_of_singleton. naive_solver.
  - apply commit_spans.
  - rewrite fmap_app, NoDup_app. split; [apply M|]. split; [|apply NoDup_singleton].
    intros s (e' & -> & He')%list_elem_of_fmap Hs%list_elem_of_singleton.
    by apply (ok_sequence _ _ OK) in He'.
  - intros e' id [He'| ->%list_elem_of_singleton]%elem_of_app Hr.
    + destruct (m_refs _ _ M e' id He' Hr) as (s & Hs & Eq). exists s. set_solver.
    + destruct (reference_started _ Hr) as (s & Hs & Eq). exists s. set_solver.
  - intros id f f' [Hf| ->%list_elem_of_singleton]%elem_of_app
      [Hf'| ->%list_elem_of_singleton]%elem_of_app Hx Hy; [|exfalso..|done].
    + by eapply (m_one_finish _ _ M).
    + by eapply no_earlier_finish.
    + by eapply no_earlier_finish.
Qed.
End Preservation.

Lemma validate_events_spec events : forall rv h kinds, models rv h ->
  validate_events rv events = Ok kinds <->
  (forall h' e t, events = h' ++ e :: t -> event_ok (h ++ h') e) /\ kinds = resolved_kinds h events.
Proof.
  induction events as [|e events IH]; intros rv h kinds M; cbn.
  - split; [intros [= <-]; split; [by intros []|done]|by intros [_ ->]].
  - unfold validate. destruct (prepare rv e) as [[c k]|err] eqn:Ep.
    + apply (prepare_spec rv h M) in Ep as (OK & -> & ->). rewrite result_bind_ok. cbn.
      setoid_rewrite (IH _ (h ++ [e]) _ (models_commit rv h M e OK)). split.
      * intros (ks & [Hall ->] & [= <-]). split; [|done].
        intros [|e' h'] x t Ex; injection Ex as <- ->.
        -- by rewrite app_nil_r.
        -- rewrite cons_middle, (assoc_L (++)). by eapply Hall.
      * intros [Hall ->]. eexists. split; [|done]. split; [|done].
        intros h' x t ->. rewrite <-(assoc_L (++)). by apply (Hall (e :: h') x t).
    + split; [done|]. intros [Hall _]. specialize (Hall [] e events eq_refl).
      rewrite app_nil_r in Hall.
      assert (prepare rv e = Ok (change_of e, resolved_kind h e)) by (by apply (prepare_spec rv h M)).
      congruence.
Qed.

Lemma validated_stream events kinds :
  validate_event_stream events = Ok kinds <-> stream_ok events /\ kinds = resolved_kinds [] events.
Proof. apply (validate_events_spec events _ [] kinds models_nil). Qed.

(** The latest contained instant happened. *)
Lemma latest_contained_in h id c :
  latest_contained h id = Some c -> exists i, i ∈ h /\ contained_in i = Some id /\ event_elapsed i = c.
Proof.
  revert c. induction h as [|e h IH] using rev_ind; [done|]. intros c.
  rewrite latest_contained_snoc. case_bool_decide as Hc.
  - unfold max_contained. intros [= <-]. destruct (latest_contained h id) as [c|].
    + destruct (Z.max_spec c (event_elapsed e)) as [[_ ->]|[_ ->]].
      * exists e. set_solver.
      * destruct (IH c eq_refl) as (i & Hi & ? & ?). exists i. set_solver.
    + exists e. set_solver.
  - intros (i & Hi & ? & ?)%IH. exists i. set_solver.
Qed.

(** A child that keeps its parent from finishing. *)
Lemma child_outside_some rv h (M : models rv h) e id :
  existsb (child_outside e id) (map_to_list (rv_spans rv)).*2 = true ->
  exists c, c ∈ h /\ parent_of c = Some id /\
    forall f, f ∈ h -> finishes (event_sequence c) f -> event_elapsed e < event_elapsed f.
Proof.
  rewrite existsb_exists. setoid_rewrite <-list_elem_of_In. setoid_rewrite list_elem_of_fmap.
  intros (r & ([i r'] & -> & Hr%elem_of_map_to_list) & Hb). cbn in Hb.
  rewrite (m_spans _ _ M) in Hr.
  apply (span_of_spec rv h M) in Hr as (c & f & k & p & (Hc & Hi & _) & Es & ->).
  unfold child_outside in Hb. cbn in Hb.
  apply andb_prop in Hb as [Hp%bool_decide_eq_true Hb]. subst p.
  exists c. split; [done|]. split; [unfold parent_of; by rewrite Es|].
  rewrite Hi. intros g Hg Hfin. destruct (finish_time h i) as [t|] eqn:Ef.
  - apply finish_time_some in Ef as (g' & Hg' & Hfin' & Ht).
    rewrite (m_one_finish _ _ M _ _ _ Hg Hg' Hfin Hfin'). lia.
  - by apply finish_time_none with (f := g) in Ef.
Qed.

(** ** Errors

    What each error code says about the event and the accepted history. *)

(** The event refers to [id] as a cause, a parent or a container. *)
Definition refers_back (e : DiagnosticEvent) (id : Z) : Prop :=
  (exists link, link ∈ event_causes e /\ CausalLink_source_sequence link = id) \/
  parent_of e = Some id \/ contained_in e = Some id.

Definition reason (h : history) (e : DiagnosticEvent) (code : ReferenceValidationCode)
    (referenced : option Z) : Prop :=
  match code, referenced with
  | CrossRun, None => exists e', e' ∈ h /\ event_run_id e' <> event_run_id e
  | DuplicateSequence, Some id =>
      id = event_sequence e /\ exists e', e' ∈ h /\ event_sequence e' = id
  | InvalidScope, None => validate_scope e <> Ok tt
  | TooManyCausalLinks, None => MAX_CAUSAL_LINKS < list_len (event_causes e)
  | SelfLink, Some id => refers_back e id /\ id = event_sequence e
  | ForwardLink, Some id => refers_back e id /\ event_sequence e < id
  | ReferenceNotFound, Some id =>
      (refers_back e id \/ finishes id e) /\ id < event_sequence e /\
      forall e', e' ∈ h -> event_sequence e' <> id
  | KindMismatch, Some id =>
      (refers_back e id \/ finishes id e) /\
      exists s, s ∈ h /\ event_sequence s = id /\
        (span_start s = None \/
         exists family f k p, span_finish e = Some (family, id) /\
           span_start s = Some (f, k, p) /\ f <> family)
  | ReferenceClosed, Some id =>
      refers_back e id /\ exists s f, started h id s /\ f ∈ h /\ finishes id f
  | DoubleFinish, Some id => finishes id e /\ exists f, f ∈ h /\ finishes id f
  | ScopeMismatch, Some id =>
      exists s, open_span h id s /\
        ((refers_back e id /\ scope_contains (event_scope s) (event_scope e) = false) \/
         (finishes id e /\ event_scope s <> event_scope e))
  | FinishBeforeStart, Some id =>
      finishes id e /\
      (event_sequence e <= id \/
       exists s, open_span h id s /\ event_elapsed e < event_elapsed s)
  | ChildOutsideParent, Some id =>
      exists s, open_span h id s /\
        ((refers_back e id /\ event_elapsed e < event_elapsed s) \/
         (finishes id e /\
          ((exists i, i ∈ h /\ contained_in i = Some id /\ event_elapsed e < event_elapsed i) \/
           (exists c, c ∈ h /\ parent_of c = Some id /\
              forall f, f ∈ h -> finishes (event_sequence c) f ->
                event_elapsed e < event_elapsed f))))
  | _, _ => False
  end.

Definition explained (h : history) (e : DiagnosticEvent) (err : ReferenceValidationError) : Prop :=
  rve_run_id err = event_run_id e /\ rve_event_sequence err = event_sequence e /\
  reason h e (rve_code err) (rve_referenced_sequence err).

Section Errors.
Context (rv : ReferenceValidator) (h : history) (M : models rv h) (e : DiagnosticEvent).

Lemma explained_error code referenced :
  reason h e code referenced -> explained h e (error e code referenced).
Proof. by split. Qed.

Lemma missing_explained id :
  refers_back e id \/ finishes id e -> id < event_sequence e -> rv_spans rv !! id = None ->
  explained h e (error e (missing_span_code rv id) (Some id)).
Proof.
  intros Href Hlt Hn. apply explained_error. unfold missing_span_code.
  destruct (seen rv id) eqn:Es; cbn.
  - split; [done|]. apply (seen_spec rv h M) in Es as (s & Hs & Eq). exists s.
    split; [done|]. split; [done|]. left.
    destruct (span_start s) as [[[f k] p]|] eqn:Est; [|done].
    rewrite (m_spans _ _ M) in Hn. exfalso.
    assert (is_Some (span_of h id)) as [r Hr]; [|congruence].
    eexists. apply (span_of_spec rv h M). exists s, f, k, p. repeat split; eauto.
  - split; [done|]. split; [done|]. intros e' He' Eq.
    assert (seen rv id = true); [|congruence]. apply (seen_spec rv h M). eauto.
Qed.

Lemma open_reference_explained id err :
  refers_back e id -> validate_open_span_reference rv e id = Err err -> explained h e err.
Proof.
  intros Href. unfold validate_open_span_reference.
  destruct (id =? event_sequence e) eqn:E1.
  { intros [= <-]. apply explained_error. cbn. split; [done|lia]. }
  destruct (event_sequence e <? id) eqn:E2.
  { intros [= <-]. apply explained_error. cbn. split; [done|lia]. }
  destruct (rv_spans rv !! id) as [r|] eqn:Er.
  2:{ intros [= <-]. apply missing_explained; [auto|lia|done]. }
  destruct (sr_finished_at r) as [t|] eqn:Ef; [|done]. intros [= <-].
  apply explained_error. cbn. split; [done|].
  rewrite (m_spans _ _ M), (span_of_spec rv h M) in Er.
  destruct Er as (s & f & k & p & Hst & Es & ->). cbn in Ef.
  apply finish_time_some in Ef as (g & Hg & Hfin & _). eauto.
Qed.

Lemma inside_explained id err :
  refers_back e id ->
  (let? parent := validate_open_span_reference rv e id in check_inside e id parent) = Err err ->
  explained h e err.
Proof.
  intros Href. destruct (validate_open_span_reference rv e id) as [r|err'] eqn:Eo; cbn.
  2:{ intros [= <-]. by eapply open_reference_explained. }
  apply open_reference_ok in Eo as [Hlt Hr].
  apply (open_record rv h M) in Hr as (s & f & k & p & Ho & Es & ->).
  unfold check_inside. cbn. destruct (scope_contains _ _) eqn:Esc; cbn.
  - destruct (_ <? _) eqn:Et; [|done]. intros [= <-]. apply explained_error. cbn.
    exists s. split; [done|]. left. split; [done|lia].
  - intros [= <-]. apply explained_error. cbn. exists s. auto.
Qed.

Lemma finish_explained family id err :
  span_finish e = Some (family, id) -> validate_span_finish rv e family id = Err err ->
  explained h e err.
Proof.
  intros Hfe. assert (finishes id e) as Hfin by (by exists family).
  unfold validate_span_finish. destruct (_ <=? _) eqn:E0.
  { intros [= <-]. apply explained_error. cbn. split; [done|]. left. lia. }
  destruct (rv_spans rv !! id) as [r|] eqn:Er.
  2:{ intros [= <-]. apply missing_explained; [auto|lia|done]. }
  assert (Hr := Er). rewrite (m_spans _ _ M), (span_of_spec rv h M) in Hr.
  destruct Hr as (s & f & k & p & Hst & Es & ->). cbn.
  case_bool_decide as Hfam.
  { intros [= <-]. apply explained_error. cbn. split; [auto|]. destruct Hst as (Hs & Hid & _).
    exists s. split; [done|]. split; [done|]. right. by exists family, f, k, p. }
  case_bool_decide as Hft.
  { destruct Hft as [t Hft]. intros [= <-]. apply explained_error. cbn. split; [done|].
    apply finish_time_some in Hft as (g & Hg & Hgf & _). eauto. }
  assert (open_span h id s) as Ho.
  { split; [done|]. apply finish_time_none. by destruct (finish_time h id); [destruct Hft; eexists|]. }
  case_bool_decide as Hsc.
  { intros [= <-]. apply explained_error. cbn. exists s. auto. }
  destruct (event_elapsed e <? event_elapsed s) eqn:Et.
  { intros [= <-]. apply explained_error. cbn. split; [done|]. right. exists s. split; [done|lia]. }
  destruct (latest_contained h id) as [c|] eqn:El; cycle 1.
  all: try (destruct (event_elapsed e <? c) eqn:Ec).
  2:{ intros [= <-]. apply explained_error. cbn. exists s. split; [done|]. right. split; [done|].
      left. apply latest_contained_in in El as (i & Hi & Hc & <-). exists i. split; [done|].
      split; [done|lia]. }
  all: destruct (existsb _ _) eqn:Ech; [|done]; intros [= <-]; apply explained_error; cbn;
    exists s; split; [done|]; right; split; [done|]; right; by apply (child_outside_some rv h M).
Qed.
Lemma links_explained err : validate_causal_links rv e = Err err -> explained h e err.
Proof.
  unfold validate_causal_links. destruct (_ <? _) eqn:E.
  { intros [= <-]. apply explained_error. cbn. lia. }
  assert (forall links, links ⊆ event_causes e -> check_causal_links rv e links = Err err ->
    explained h e err) as Hl; [|by apply Hl].
  induction links as [|link links IH]; [done|]. intros Hsub. cbn.
  assert (refers_back e (CausalLink_source_sequence link)) as Href.
  { left. exists link. split; [|done]. apply Hsub. set_solver. }
  destruct (_ =? _) eqn:E1; [intros [= <-]; apply explained_error; cbn; split; [done|lia]|].
  destruct (event_sequence e <? _) eqn:E2;
    [intros [= <-]; apply explained_error; cbn; split; [done|lia]|].
  destruct (seen rv _) eqn:E3; cbn [negb]; [apply IH; set_solver|].
  intros [= <-]. apply explained_error. cbn. split; [auto|]. split; [lia|].
  intros e' He' Eq. assert (seen rv (CausalLink_source_sequence link) = true); [|congruence].
  apply (seen_spec rv h M). eauto.
Qed.

Lemma prepare_change_explained err : prepare_change rv e = Err err -> explained h e err.
Proof.
  assert (forall family kind parent (k : option SpanKind),
    parent_of e = parent ->
    (let? change := validate_span_start rv e family kind parent in Ok (change, k)) = Err err ->
    explained h e err) as Hstart.
  { intros family kind parent k Hp. unfold validate_span_start. destruct parent as [id|]; [|done].
    intros H. apply (inside_explained id); [unfold refers_back; auto|].
    by repeat apply result_bind_err_pure in H. }
  assert (forall (k : option SpanKind),
    (let? change := validate_containing_span rv e (contained_in e) in Ok (change, k)) = Err err ->
    explained h e err) as Hinst.
  { intros k. unfold validate_containing_span. destruct (contained_in e) as [id|] eqn:Hc; [|done].
    intros H. apply (inside_explained id); [unfold refers_back; auto|].
    rewrite <-result_bind_assoc in H. by repeat apply result_bind_err_pure in H. }
  unfold prepare_change. destruct e eqn:Ee; rewrite <-?Ee in *; try done;
    intros H; first [ eapply Hstart; [|exact H]; by rewrite Ee
          | eapply finish_explained; [|exact H]; by rewrite Ee
          | apply (Hinst None); rewrite Ee; rewrite Ee in H; exact H ].
Qed.

Lemma prepare_explained err : prepare rv e = Err err -> explained h e err.
Proof.
  unfold prepare. destruct (match rv_run_id rv with Some _ => _ | None => _ end) eqn:Er.
  { intros [= <-]. apply explained_error. cbn.
    destruct (rv_run_id rv) as [expected|] eqn:E; [|done]. apply bool_decide_eq_true in Er.
    destruct h as [|e' h'] eqn:Eh; [by rewrite (proj2 (m_run _ _ M)) in E|].
    exists e'. assert (e' ∈ e' :: h') as Hin by set_solver. split; [done|].
    pose proof (m_run_eq _ _ M e' Hin). congruence. }
  destruct (seen rv (event_sequence e)) eqn:Es.
  { intros [= <-]. apply explained_error. cbn. split; [done|]. by apply (seen_spec rv h M). }
  destruct (validate_scope e) as [[]|err'] eqn:Esc; cbn.
  - destruct (validate_causal_links rv e) as [[]|err'] eqn:El; cbn.
    + apply prepare_change_explained.
    + intros [= <-]. by apply links_explained.
  - intros [= <-]. assert (exists code, err' = error e InvalidScope code /\ code = None) as (? & -> & ->).
    { unfold validate_scope in Esc. case_match; [injection Esc as <-; by eexists|done]. }
    apply explained_error. cbn. congruence.
Qed.
End Errors.

Lemma validate_events_error events : forall rv h err, models rv h ->
  validate_events rv events = Err err ->
  exists h' e t, events = h' ++ e :: t /\
    (forall h1 x h2, h' = h1 ++ x :: h2 -> event_ok (h ++ h1) x) /\ explained (h ++ h') e err.
Proof.
  induction events as [|e events IH]; intros rv h err M; cbn; [done|].
  unfold validate. destruct (prepare rv e) as [[c k]|err'] eqn:Ep.
  - apply (prepare_spec rv h M) in Ep as (OK & -> & ->).
    destruct (validate_events _ events) as [ks|err'] eqn:Ev; cbn; [done|]. intros [= <-].
    destruct (IH _ _ _ (models_commit rv h M e OK) Ev) as (h' & x & t & -> & Hall & Hx).
    exists (e :: h'), x, t. split; [done|]. split.
    + intros [|y h1] z h2 Ez; injection Ez as <- ->.
      * by rewrite app_nil_r.
      * rewrite cons_middle, (assoc_L (++)). by eapply Hall.
    + by rewrite cons_middle, (assoc_L (++)).
  - intros [= <-]. exists [], e, events. split; [done|]. split; [by intros []|].
    rewrite app_nil_r. by eapply prepare_explained.
Qed.

(** ** Accepted streams *)

Section Accepted.
Context (events : history) (OK : stream_ok events).

Lemma ok_at i e : events !! i = Some e -> event_ok (take i events) e.
Proof. intros H. apply (OK _ _ (drop (S i) events)). by rewrite take_drop_middle. Qed.

Lemma elem_before i e : e ∈ take i events -> exists j, (j < i)%nat /\ events !! j = Some e.
Proof.
  intros (j & Hj)%list_elem_of_lookup. exists j. apply lookup_take_Some in Hj as [? ?]. done.
Qed.

Lemma before_elem i j e : (j < i)%nat -> events !! j = Some e -> e ∈ take i events.
Proof.
  intros Hlt He. apply list_elem_of_lookup. exists j. by rewrite lookup_take_lt.
Qed.

Lemma sequence_index i j e e' :
  events !! i = Some e -> events !! j = Some e' -> event_sequence e = event_sequence e' -> i = j.
Proof.
  intros Hi Hj Eq. destruct (Nat.lt_trichotomy i j) as [Hlt|[?|Hlt]]; [exfalso|done|exfalso].
  - by apply (ok_sequence _ _ (ok_at _ _ Hj) e); [eapply before_elem|].
  - by apply (ok_sequence _ _ (ok_at _ _ Hi) e'); [eapply before_elem|].
Qed.

(** A finish comes after its start, is the only one, and agrees with it. *)
Lemma finish_matches n f family id :
  events !! n = Some f -> span_finish f = Some (family, id) ->
  exists i s k p, (i < n)%nat /\ events !! i = Some s /\ event_sequence s = id /\
    span_start s = Some (family, k, p) /\ event_scope s = event_scope f /\
    event_elapsed s <= event_elapsed f /\
    forall n' f', events !! n' = Some f' -> finishes id f' -> n' = n.
Proof.
  intros Hn Hf. destruct (ok_finish _ _ (ok_at _ _ Hn) _ _ Hf)
    as (_ & s & [(Hs & Hid & _) Ho] & (k & p & Es) & Hsc & Ht & _).
  apply elem_before in Hs as (i & Hlt & Hi). exists i, s, k, p. repeat (split; [done|]).
  intros n' f' Hn' [fam' Hf']. destruct (Nat.lt_trichotomy n' n) as [Hl|[?|Hl]]; [exfalso|done|exfalso].
  - apply (Ho f'); [by eapply before_elem|by eexists].
  - destruct (ok_finish _ _ (ok_at _ _ Hn') _ _ Hf') as (_ & s' & [_ Ho'] & _).
    apply (Ho' f); [by eapply before_elem|by eexists].
Qed.

Lemma child_between i c p j fp :
  events !! i = Some c -> parent_of c = Some p -> events !! j = Some fp -> finishes p fp ->
  exists m s n fc, (m < i < n)%nat /\ (n < j)%nat /\ events !! m = Some s /\ events !! n = Some fc /\
    event_sequence s = p /\ finishes (event_sequence c) fc /\
    scope_contains (event_scope s) (event_scope c) = true /\
    event_elapsed s <= event_elapsed c <= event_elapsed fc /\
    event_elapsed fc <= event_elapsed fp.
Proof.
  intros Hi Hp Hj [fam Hfp].
  destruct (ok_parent _ _ (ok_at _ _ Hi) _ Hp) as (_ & s & [(Hs & Hid & _) Ho] & Hsc & Ht).
  apply elem_before in Hs as (m & Hmi & Hm).
  assert (i < j)%nat as Hij.
  { destruct (Nat.lt_trichotomy i j) as [?|[->|Hlt]]; [done|exfalso..].
    - rewrite Hi in Hj. injection Hj as ->. apply finishes_only in Hfp as [Hst _].
      unfold parent_of in Hp. by rewrite Hst in Hp.
    - apply (Ho fp); [by eapply before_elem|by eexists]. }
  destruct (ok_finish _ _ (ok_at _ _ Hj) _ _ Hfp) as (_ & s' & _ & _ & _ & _ & _ & Hch).
  destruct (Hch c) as (fc & Hfc & [fam' Hfin] & Hle); [by eapply before_elem|done|].
  apply elem_before in Hfc as (n & Hnj & Hn).
  destruct (finish_matches n fc fam' _ Hn Hfin) as (i' & c' & k & q & Hlt & Hi' & Eq & _ & _ & Htc & _).
  assert (i' = i) as -> by (by eapply sequence_index).
  rewrite Hi in Hi'. injection Hi' as <-.
  exists m, s, n, fc. repeat (split; [first [done|lia|by eexists]|]). done.
Qed.
End Accepted.

Lemma resolved_kinds_lookup events h n e :
  events !! n = Some e ->
  resolved_kinds h events !! n = Some (resolved_kind (h ++ take n events) e).
Proof.
  revert h n. induction events as [|x events IH]; intros h n; [done|].
  destruct n as [|n]; cbn.
  - intros [= ->]. by rewrite app_nil_r.
  - intros Hn. rewrite (IH _ _ Hn). by rewrite <-(assoc_L (++)).
Qed.

Lemma resolved_finish_kind events (OK : stream_ok events) n f family id i s k p :
  events !! n = Some f -> span_finish f = Some (family, id) -> (i < n)%nat ->
  events !! i = Some s -> event_sequence s = id -> span_start s = Some (family, k, p) ->
  resolved_kind (take n events) f = k.
Proof.
  intros Hn Hf Hlt Hi Hid Es. unfold resolved_kind.
  rewrite (proj1 (finishes_only _ _ Hf)), Hf.
  assert (s ∈ take n events) as Hs by (by eapply before_elem).
  destruct (find _ (take n events)) as [s'|] eqn:Efind.
  - apply find_some_elem in Efind as [Hs' [Hid' _]%starts_b_true].
    apply elem_before in Hs' as (i' & _ & Hi').
    assert (i = i') as <- by (apply (sequence_index events OK i i' s s'); congruence).
    rewrite Hi in Hi'. injection Hi' as <-. cbn. by rewrite Es.
  - apply find_none_elem with (x := s) in Efind; [|done].
    assert (starts_b id s = true) as Hb; [apply starts_b_true; split; [done|by eexists]|].
    unfold starts_b in Hb. congruence.
Qed.

(** ** One step of a client *)

Lemma stream_ok_nil : stream_ok [].
Proof. by intros []. Qed.

Lemma stream_ok_snoc h e : stream_ok h -> event_ok h e -> stream_ok (h ++ [e]).
Proof.
  intros Hh He h' x t Eq. destruct t as [|y t] using rev_ind.
  - apply app_inj_tail in Eq as [-> ->]. done.
  - rewrite app_comm_cons, (assoc_L (++)) in Eq. apply app_inj_tail in Eq as [-> ->].
    by eapply Hh.
Qed.

Lemma validate_ok rv h e rv' ve :
  models rv h -> validate rv e = (rv', Ok ve) ->
  event_ok h e /\ rv' = commit rv e (change_of e) /\ ve_event ve = e /\
  ve_built_in_span_kind ve = resolved_kind h e.
Proof.
  intros M. unfold validate. destruct (prepare rv e) as [[c k]|err] eqn:Ep; [|done].
  apply (prepare_spec rv h M) in Ep as (OK & -> & ->). by intros [= <- <-].
Qed.

Lemma validate_rejects rv h e rv' err :
  models rv h -> validate rv e = (rv', Err err) -> rv' = rv /\ ~ event_ok h e.
Proof.
  intros M. unfold validate. destruct (prepare rv e) as [[c k]|err'] eqn:Ep; [done|].
  intros [= <- <-]. split; [done|]. intros OK.
  assert (prepare rv e = Ok (change_of e, resolved_kind h e)) by (by apply (prepare_spec rv h M)).
  congruence.
Qed.

(** ** Properties *)

(** C5: the validator refines the stream specification: it accepts a stream
    exactly when every event is well-formed after the events before it (one
    run, fresh sequences, causes that exist and precede it, parents and
    containers that are open and contain it, finishes that match an open start
    and end after everything inside), and it reports for every event the
    built-in span kind the stream determines. *)
Theorem validate_event_stream_refines events kinds :
  validate_event_stream events = Ok kinds <-> stream_ok events /\ kinds = resolved_kinds [] events.
Proof. apply validated_stream. Qed.

(** A rejection is explained: the events before the rejected one form an
    accepted stream, and the code and the referenced sequence of the error
    state a fact about the rejected event and those events. *)
Theorem validate_event_stream_explains events err :
  validate_event_stream events = Err err ->
  exists h e t, events = h ++ e :: t /\ stream_ok h /\ explained h e err.
Proof. apply (validate_events_error events _ []). apply models_nil. Qed.

(** Spans of an accepted stream nest.  When a span names a parent and the
    parent finishes, the stream holds in this order the parent's start, the
    child's start, the child's finish and the parent's finish, their times are
    ordered the same way, and the parent's scope contains the child's. *)
Theorem accepted_spans_nest events kinds i c p j fp :
  validate_event_stream events = Ok kinds ->
  events !! i = Some c -> parent_of c = Some p -> events !! j = Some fp -> finishes p fp ->
  exists m s n fc, (m < i < n)%nat /\ (n < j)%nat /\ events !! m = Some s /\ events !! n = Some fc /\
    event_sequence s = p /\ finishes (event_sequence c) fc /\
    scope_contains (event_scope s) (event_scope c) = true /\
    event_elapsed s <= event_elapsed c <= event_elapsed fc /\
    event_elapsed fc <= event_elapsed fp.
Proof. intros [OK _]%validated_stream. by apply child_between. Qed.

(** Every finish of an accepted stream closes exactly one earlier start,
    of the same family and scope and no later in time, no other event finishes
    that span, and the reported kind of the finish is the kind of the start. *)
Theorem accepted_finish_closes_start events kinds n f family id :
  validate_event_stream events = Ok kinds ->
  events !! n = Some f -> span_finish f = Some (family, id) ->
  exists i s k p, (i < n)%nat /\ events !! i = Some s /\ event_sequence s = id /\
    span_start s = Some (family, k, p) /\ event_scope s = event_scope f /\
    event_elapsed s <= event_elapsed f /\ kinds !! n = Some k /\
    forall n' f', events !! n' = Some f' -> finishes id f' -> n' = n.
Proof.
  intros [OK ->]%validated_stream Hn Hf.
  destruct (finish_matches events OK n f family id Hn Hf)
    as (i & s & k & p & Hlt & Hi & Hid & Es & Hsc & Ht & Huniq).
  exists i, s, k, p. repeat (split; [done|]). split; [|done].
  rewrite (resolved_kinds_lookup events [] n f Hn). cbn. f_equal.
  eapply resolved_finish_kind; eauto.
Qed.

(** An event that the consumer of [validate_then] refuses leaves no trace:
    the validator afterwards gives every later stream the verdict it would
    have given without the event, while an event it takes is recorded as by
    [validate]. *)
Theorem validate_then_transactional {T E} rv event (consumer : ValidatedEvent -> result T E) later :
  let '(rv', r) := validate_then rv event consumer in
  match r with
  | Ok (Ok _) => rv' = (validate rv event).1 /\ is_ok (validate rv event).2 = true
  | _ => validate_events rv' later = validate_events rv later
  end.
Proof.
  unfold validate_then, validate. destruct (prepare rv event) as [[c k]|err]; [|done].
  by destruct (consumer _).
Qed.

(** *** Witnesses *)

Definition sample_header (sequence elapsed : Z) : DiagnosticEventHeader :=
  mkDiagnosticEventHeader EVENT_SCHEMA_VERSION (mkCanonicalUuid 7) sequence elapsed
    (mkDiagnosticScope None None None None None None None) [].

Definition sample_child : DiagnosticEvent :=
  DiagnosticEvent_CustomSpanStarted
    (mkCustomSpanStarted (sample_header 2 20) "app.step" (Some 1) []).

Definition sample_finish : DiagnosticEvent :=
  DiagnosticEvent_SpanFinished (mkSpanFinished (sample_header 5 40) 1 SpanOutcome_Completed None).

(** A run span, a custom span inside it, an instant in the custom span, and the
    two finishes. *)
Definition sample_stream : history :=
  [DiagnosticEvent_SpanStarted
     (mkSpanStarted (sample_header 1 10) (SpanStartDetail_RunLifecycle mkEmptyDetail) None);
   sample_child;
   DiagnosticEvent_InstantOccurred
     (mkInstantOccurred (sample_header 3 25) (InstantDetail_CueAdmitted mkEmptyDetail) (Some 2));
   DiagnosticEvent_CustomSpanFinished (mkCustomSpanFinished (sample_header 4 30) 2 SpanOutcome_Completed);
   sample_finish].

Lemma validate_event_stream_explains_witness :
  exists h e t, take 4 (drop 1 sample_stream) = h ++ e :: t /\ stream_ok h /\
    explained h e (mkReferenceValidationError ReferenceNotFound (mkCanonicalUuid 7) 2 (Some 1)).
Proof. apply validate_event_stream_explains. vm_compute. reflexivity. Defined.

Lemma accepted_spans_nest_witness :
  exists m s n fc, (m < 1 < n)%nat /\ (n < 4)%nat /\ sample_stream !! m = Some s /\
    sample_stream !! n = Some fc /\ event_sequence s = 1 /\ finishes 2 fc /\
    scope_contains (event_scope s) (event_scope sample_child) = true /\
    event_elapsed s <= 20 <= event_elapsed fc /\ event_elapsed fc <= 40.
Proof.
  eapply (accepted_spans_nest sample_stream
    [Some SpanKind_RunLifecycle; None; None; None; Some SpanKind_RunLifecycle] 1
    sample_child 1 4 sample_finish).
  - vm_compute. reflexivity.
  - reflexivity.
  - reflexivity.
  - reflexivity.
  - exists BuiltIn. reflexivity.
Defined.

Lemma accepted_finish_closes_start_witness :
  exists i s k p, (i < 4)%nat /\ sample_stream !! i = Some s /\ event_sequence s = 1 /\
    span_start s = Some (BuiltIn, k, p) /\
    event_scope s = event_scope sample_finish /\ event_elapsed s <= 40 /\
    [Some SpanKind_RunLifecycle; None; None; None; Some SpanKind_RunLifecycle] !! 4%nat = Some k /\
    forall n' f', sample_stream !! n' = Some f' -> finishes 1 f' -> n' = 4%nat.
Proof.
  apply (accepted_finish_closes_start sample_stream
    [Some SpanKind_RunLifecycle; None; None; None; Some SpanKind_RunLifecycle] 4
    sample_finish).
  - vm_compute. reflexivity.
  - reflexivity.
  - reflexivity.
Defined.
