(* ===== verification/Projection.v ===== *)
(** * Read models and their projectors

    The five read models of [troupe-diagnostics-runtime/src/store/projector]
    and the snapshot that combines them are built the same way: an event at the
    next position is folded into the model, and a private reference validator
    refuses what is not well formed.  This file holds what they share: the
    projector, the history a model has recorded, the contract [ReadModelLaws]
    that a read model states and proves about its own events, the theorem that
    a projector computes the view of the history from that contract, and the
    keyed tables that most models are. *)

From S2P Require Import Prelude Wire Scalar Kinds Detail Event Validate ValidateSpec.

(** ** Projectors *)

Record Projector (M : Type) := mkProjector { references : ReferenceValidator; model : M }.
Arguments mkProjector {M} _ _.
Arguments references {M} _.
Arguments model {M} _.

Definition Projector_new {M} (empty : M) : Projector M := mkProjector ReferenceValidator_new empty.

(** [apply] of the message, plan, counter and usage projectors: the candidate
    model first, then the validator, then both change. *)
Definition candidate_apply {M E} (candidate_for_event : M -> DiagnosticEvent -> result M E)
    (invalid_reference : ReferenceValidationError -> E) (self : Projector M)
    (event : DiagnosticEvent) : Projector M * result unit E :=
  match candidate_for_event (model self) event with
  | Err e => (self, Err e)
  | Ok candidate =>
      match validate (references self) event with
      | (references', Err e) => (mkProjector references' (model self), Err (invalid_reference e))
      | (references', Ok _) => (mkProjector references' candidate, Ok tt)
      end
  end.

(** The loop of [apply_all]; [None] is a panic of [apply]. *)
Fixpoint apply_all {P E} (apply : P -> DiagnosticEvent -> option (P * result unit E)) (self : P)
    (events : list DiagnosticEvent) : option (P * result unit E) :=
  match events with
  | [] => Some (self, Ok tt)
  | event :: events' =>
      match apply self event with
      | None => None
      | Some (self', Err e) => Some (self', Err e)
      | Some (self', Ok _) => apply_all apply self' events'
      end
  end.

(** The functions [project_spans], [project_messages], ... *)
Definition project {M E}
    (apply : Projector M -> DiagnosticEvent -> option (Projector M * result unit E)) (empty : M)
    (events : list DiagnosticEvent) : option (result M E) :=
  match apply_all apply (Projector_new empty) events with
  | None => None
  | Some (_, Err e) => Some (Err e)
  | Some (projector, Ok _) => Some (Ok (model projector))
  end.

(** ** Histories *)

Section History.
Context (run_id : CanonicalUuid) (admissible : history -> DiagnosticEvent -> Prop).

(** The event at the next position of a history of the run. *)
Definition next_event (h : history) (e : DiagnosticEvent) : Prop :=
  event_run_id e = run_id /\ event_sequence e = list_len h + 1 /\ list_len h < int_max U64.

(** The histories a read model can record: numbered from one without a gap,
    well formed, and made of events the model admits. *)
Inductive recorded : history -> Prop :=
| recorded_nil : recorded []
| recorded_snoc h e :
    recorded h -> next_event h e -> event_ok h e -> admissible h e -> recorded (h ++ [e]).

Definition through_elapsed (h : history) : Z :=
  foldl (fun t e => Z.max t (event_elapsed e)) 0 h.

Lemma through_elapsed_snoc h e :
  through_elapsed (h ++ [e]) = Z.max (through_elapsed h) (event_elapsed e).
Proof. unfold through_elapsed. by rewrite foldl_app. Qed.

Lemma recorded_inv h e :
  recorded (h ++ [e]) -> recorded h /\ next_event h e /\ event_ok h e /\ admissible h e.
Proof.
  inversion 1 as [Heq|h' e' ???? Heq]; [by destruct h|].
  apply app_inj_tail in Heq as [-> ->]. done.
Qed.

Lemma recorded_app h k : recorded (h ++ k) -> recorded h.
Proof.
  induction k as [|e k IH] using rev_ind; [by rewrite app_nil_r|].
  rewrite (assoc_L (++)). intros [? _]%recorded_inv. auto.
Qed.

Lemma recorded_length h : recorded h -> list_len h <= int_max U64.
Proof.
  destruct 1 as [|h e Hr (_ & _ & Hlt)]; [done|].
  rewrite list_len_app. change (list_len [e]) with 1. lia.
Qed.

Lemma recorded_stream h : recorded h -> stream_ok h.
Proof. induction 1; [apply stream_ok_nil|by apply stream_ok_snoc]. Qed.

Lemma recorded_at h e : recorded h -> e ∈ h ->
  exists h1 h2, h = h1 ++ e :: h2 /\ recorded h1 /\ next_event h1 e /\ event_ok h1 e /\ admissible h1 e.
Proof.
  intros Hr (h1 & h2 & ->)%list_elem_of_split. exists h1, h2. split; [done|].
  rewrite cons_middle, (assoc_L (++)) in Hr. apply recorded_app in Hr. by apply recorded_inv in Hr.
Qed.

Lemma recorded_sequence h e : recorded h -> e ∈ h ->
  event_run_id e = run_id /\ 1 <= event_sequence e <= list_len h.
Proof.
  intros Hr He. destruct (recorded_at h e Hr He) as (h1 & h2 & -> & _ & (Hrun & -> & _) & _).
  split; [done|]. rewrite list_len_app, list_len_cons.
  pose proof (list_len_nonneg h1). pose proof (list_len_nonneg h2). lia.
Qed.

Lemma through_elapsed_ge h e : e ∈ h -> event_elapsed e <= through_elapsed h.
Proof.
  induction h as [|x h IH] using rev_ind; [by intros ?%not_elem_of_nil|].
  rewrite through_elapsed_snoc.
  intros [Hx%IH| ->%list_elem_of_singleton]%elem_of_app; lia.
Qed.
End History.

Lemma recorded_weaken run_id (A B : history -> DiagnosticEvent -> Prop) h :
  (forall h e, A h e -> B h e) -> recorded run_id A h -> recorded run_id B h.
Proof. intros HAB. induction 1; econstructor; eauto. Qed.

Lemma recorded_conj run_id (A B : history -> DiagnosticEvent -> Prop) h :
  recorded run_id A h -> recorded run_id B h ->
  recorded run_id (fun h e => A h e /\ B h e) h.
Proof.
  intros HA. induction HA as [|h e ? IH]; intros HB; [constructor|].
  apply recorded_inv in HB as (? & ? & ? & ?). constructor; auto.
Qed.

(** What [recorded] says of a whole history. *)
Definition numbered (run_id : CanonicalUuid) (h : history) : Prop :=
  (forall i e, h !! i = Some e ->
     event_run_id e = run_id /\ event_sequence e = Z.of_nat i + 1) /\
  list_len h <= int_max U64.

Lemma numbered_snoc run_id h e :
  numbered run_id (h ++ [e]) <-> numbered run_id h /\ next_event run_id h e.
Proof.
  unfold numbered, next_event. rewrite list_len_app. change (list_len [e]) with 1. split.
  - intros [Hn Hl]. split; [split; [|lia]|].
    + intros i x Hi. apply Hn. by apply lookup_app_l_Some.
    + destruct (Hn (length h) e) as [? ->]; [by rewrite list_lookup_middle|].
      unfold list_len in *. split_and!; [done|done|lia].
  - intros [[Hn _] (Hr & Hs & Hl)]. split; [|lia].
    intros i x [Hi|[Hi Hx]]%lookup_app_Some; [auto|].
    apply list_lookup_singleton_Some in Hx as [? <-]. split; [done|].
    rewrite Hs. unfold list_len. lia.
Qed.

Lemma stream_ok_snoc_iff h e : stream_ok (h ++ [e]) <-> stream_ok h /\ event_ok h e.
Proof.
  split; [|by intros [? ?]; apply stream_ok_snoc]. intros Hs. split; [|by apply (Hs h e [])].
  intros h1 x h2 ->. apply (Hs h1 x (h2 ++ [e])). by rewrite <-(assoc_L (++)).
Qed.

Lemma recorded_iff run_id (A : history -> DiagnosticEvent -> Prop) h :
  recorded run_id A h <->
  numbered run_id h /\ stream_ok h /\ (forall h1 e h2, h = h1 ++ e :: h2 -> A h1 e).
Proof.
  induction h as [|e h IH] using rev_ind.
  - split; [|intros _; constructor]. intros _. split_and!; [|apply stream_ok_nil|by intros []].
    split; [by intros i e ?|done].
  - rewrite numbered_snoc, stream_ok_snoc_iff. split.
    + intros (Hr & Hn & Hok & Ha)%recorded_inv. apply IH in Hr as (? & ? & HA).
      split_and!; try done. intros h1 x h2 Eq. destruct h2 as [|y h2 _] using rev_ind.
      * apply app_inj_tail in Eq as [<- <-]. done.
      * rewrite app_comm_cons, (assoc_L (++)) in Eq. apply app_inj_tail in Eq as [-> _]. by eapply HA.
    + intros ([? ?] & [? ?] & HA). constructor; [apply IH|done|done|by eapply HA].
      split_and!; try done. intros h1 x h2 ->. apply (HA h1 x (h2 ++ [e])). by rewrite <-(assoc_L (++)).
Qed.

Definition untyped (e : DiagnosticEvent) : Prop := True.

Lemma Forall_untyped events : Forall untyped events.
Proof. by apply Forall_forall. Qed.

(** Every well-formed event at the next position is admitted. *)
Definition any_event (h : history) (e : DiagnosticEvent) : Prop := True.

Lemma models_recorded run_id A h : recorded run_id A h -> exists rv, models rv h.
Proof.
  induction 1 as [|h e ? [rv M] ?? ?]; [exists ReferenceValidator_new; apply models_nil|].
  eexists. by apply models_commit.
Qed.

(** ** The position check

    Every read model has its own; [solve_position] proves each exact. *)

Lemma next_sequence (h : history) :
  (checked_add U64 (list_len h) 1 = Some (list_len h + 1) /\ list_len h < int_max U64) \/
  (checked_add U64 (list_len h) 1 = None /\ ~ list_len h < int_max U64).
Proof.
  pose proof (list_len_nonneg h). unfold checked_add.
  destruct (checked U64 (list_len h + 1)) as [x|] eqn:Ex.
  - apply checked_some in Ex as [-> ?]. left. split; [done|lia].
  - apply checked_none in Ex. right. split; [done|]. intros ?. apply Ex.
    change (int_min U64) with 0. lia.
Qed.

(** Exactness of a check [r] for the condition [P]. *)
Definition check_exact {E} (P : Prop) (r : result unit E) : Prop :=
  (r = Ok tt /\ P) \/ ((exists err, r = Err err) /\ ~ P).

Ltac solve_position h e :=
  case_bool_decide; [right; split; [by eexists|tauto]|];
  destruct (next_sequence h) as [[-> ?]|[-> ?]];
  [destruct (Z.eqb_spec (event_sequence e) (list_len h + 1)); cbn [negb];
   [left; done|right; split; [by eexists|tauto]]
  |right; split; [by eexists|tauto]].

(** ** The contract of a read model *)

(** A step that succeeds with [m] exactly when [P] holds, and never panics. *)
Definition outcome {M E} (P : Prop) (m : M) (r : option (result M E)) : Prop :=
  (P /\ r = Some (Ok m)) \/ (~ P /\ exists e, r = Some (Err e)).

Lemma outcome_ok {M E} (P : Prop) (m m' : M) (r : option (result M E)) :
  outcome P m r -> r = Some (Ok m') -> P /\ m' = m.
Proof. intros [[? ->]|[? [e ->]]] [= ->]. done. Qed.

(** What a read model promises to the snapshot and to its own projector:
    [view] is the model of a history, [admissible] what the model asks of an
    event beyond being well formed at the next position, [typed] the invariants of
    the types of its fields that the model relies on. *)
Class ReadModelLaws {M E} (run_id : CanonicalUuid)
    (project_validated_event : M -> DiagnosticEvent -> option (result M E))
    (view : history -> M) (typed : DiagnosticEvent -> Prop)
    (admissible : history -> DiagnosticEvent -> Prop) := {
  project_law h e : recorded run_id admissible h -> event_ok h e -> typed e ->
    outcome (next_event run_id h e /\ admissible h e) (view (h ++ [e]))
      (project_validated_event (view h) e);
}.

(** What the projector of a read model promises. *)
Class ProjectorLaws {M E} (run_id : CanonicalUuid)
    (apply : Projector M -> DiagnosticEvent -> option (Projector M * result unit E))
    (view : history -> M) (typed : DiagnosticEvent -> Prop)
    (admissible : history -> DiagnosticEvent -> Prop) := {
  apply_law rv h e : recorded run_id admissible h -> models rv h -> typed e ->
    let good := next_event run_id h e /\ event_ok h e /\ admissible h e in
    (good /\ apply (mkProjector rv (view h)) e =
       Some (mkProjector (commit rv e (change_of e)) (view (h ++ [e])), Ok tt)) \/
    (~ good /\ exists err, apply (mkProjector rv (view h)) e = Some (mkProjector rv (view h), Err err));
}.

Lemma validate_cases rv h e : models rv h ->
  (event_ok h e /\ exists ve, validate rv e = (commit rv e (change_of e), Ok ve) /\ ve_event ve = e) \/
  (~ event_ok h e /\ exists err, validate rv e = (rv, Err err)).
Proof.
  intros M. destruct (validate rv e) as [rv' [ve|err]] eqn:Ev.
  - apply (validate_ok _ _ _ _ _ M) in Ev as (? & -> & ? & _). left. eauto.
  - apply (validate_rejects _ _ _ _ _ M) in Ev as [-> ?]. right. eauto.
Qed.

(** A projector with [candidate_apply] keeps its promise when its candidate is
    exact for every event, well formed or not. *)
Lemma candidate_apply_laws {M E} run_id (candidate : M -> DiagnosticEvent -> result M E) invalid
    (view : history -> M) (typed : DiagnosticEvent -> Prop) admissible :
  (forall h e, recorded run_id admissible h -> typed e ->
     outcome (next_event run_id h e /\ admissible h e) (view (h ++ [e]))
       (Some (candidate (view h) e))) ->
  ProjectorLaws run_id (fun p e => Some (candidate_apply candidate invalid p e)) view typed admissible.
Proof.
  intros Hc. constructor. intros rv h e Hr M' Hty. unfold candidate_apply. cbn [model references].
  destruct (Hc h e Hr Hty) as [[[Hn Ha] Heq]|[Hno [err Heq]]]; injection Heq as ->.
  - destruct (validate_cases rv h e M') as [[Hok (ve & -> & _)]|[Hno [err ->]]];
      [left; auto|right; split; [tauto|eauto]].
  - right. split; [tauto|eauto].
Qed.

Lemma candidate_model_laws {M E} run_id (candidate : M -> DiagnosticEvent -> result M E)
    (view : history -> M) (typed : DiagnosticEvent -> Prop) admissible :
  (forall h e, recorded run_id admissible h -> typed e ->
     outcome (next_event run_id h e /\ admissible h e) (view (h ++ [e]))
       (Some (candidate (view h) e))) ->
  ReadModelLaws run_id (fun m e => Some (candidate m e)) view typed admissible.
Proof. intros Hc. constructor. auto. Qed.

(** ** A projector computes the view of the history *)

Section Correct.
Context {M E : Type} (run_id : CanonicalUuid).
Context (apply : Projector M -> DiagnosticEvent -> option (Projector M * result unit E)).
Context (view : history -> M) (typed : DiagnosticEvent -> Prop).
Context (admissible : history -> DiagnosticEvent -> Prop).
Context {LAWS : ProjectorLaws run_id apply view typed admissible}.

Lemma apply_all_correct events : forall rv h,
  recorded run_id admissible h -> models rv h -> Forall typed events ->
  (recorded run_id admissible (h ++ events) /\
   exists rv', models rv' (h ++ events) /\
     apply_all apply (mkProjector rv (view h)) events =
     Some (mkProjector rv' (view (h ++ events)), Ok tt)) \/
  (exists k e t rv' err, events = k ++ e :: t /\ recorded run_id admissible (h ++ k) /\
     ~ recorded run_id admissible (h ++ k ++ [e]) /\ models rv' (h ++ k) /\
     apply_all apply (mkProjector rv (view h)) events =
     Some (mkProjector rv' (view (h ++ k)), Err err)).
Proof.
  induction events as [|e events IH]; intros rv h Hr Hm Hty; cbn [apply_all].
  - left. rewrite app_nil_r. eauto.
  - apply Forall_cons in Hty as [Hte Hty]. destruct (apply_law rv h e Hr Hm Hte) as [[(Hn & Hok & Ha) ->]|[Hno [err ->]]].
    + specialize (IH _ _ (recorded_snoc _ _ _ _ Hr Hn Hok Ha) (models_commit _ _ Hm _ Hok) Hty).
      rewrite <-(assoc_L (++)) in IH. destruct IH as [IH|IH]; [by left|right].
      destruct IH as (k & x & t & rv' & err & -> & Hk & Hx & Hm' & Hap).
      rewrite <-(assoc_L (++)) in Hk, Hx, Hm', Hap. exists (e :: k), x, t, rv', err. done.
    + right. exists [], e, events, rv, err. rewrite app_nil_r.
      split_and!; try done. by intros (_ & Hgood)%recorded_inv.
Qed.

(** The result of the projection of a stream, exactly. *)
Lemma project_correct events m : Forall typed events ->
  project apply (view []) events = Some (Ok m) <->
  recorded run_id admissible events /\ m = view events.
Proof.
  intros Hty. unfold project, Projector_new.
  destruct (apply_all_correct events ReferenceValidator_new [] (recorded_nil _ _) models_nil Hty)
    as [(Hr & rv' & _ & ->)|(k & e & t & rv' & err & -> & Hk & Hno & _ & ->)]; cbn in *.
  - split; [by intros [= <-]|by intros [_ ->]].
  - split; [done|]. intros [Hr _]. rewrite cons_middle, (assoc_L (++)) in Hr.
    by apply recorded_app in Hr.
Qed.

(** It never panics, and an error is at the first event that cannot be recorded. *)
Lemma project_total events : Forall typed events ->
  exists r, project apply (view []) events = Some r /\
    (is_ok r = true \/
     exists k e t, events = k ++ e :: t /\ recorded run_id admissible k /\
       ~ (next_event run_id k e /\ event_ok k e /\ admissible k e)).
Proof.
  intros Hty. unfold project, Projector_new.
  destruct (apply_all_correct events ReferenceValidator_new [] (recorded_nil _ _) models_nil Hty)
    as [(Hr & rv' & _ & ->)|(k & e & t & rv' & err & -> & Hk & Hno & _ & ->)]; cbn in *.
  - eexists. split; [done|]. by left.
  - eexists. split; [done|]. right. exists k, e, t. split_and!; try done.
    intros (? & ? & ?). apply Hno. by constructor.
Qed.
End Correct.
