(* ===== verification/Table.v ===== *)
(** * Keyed tables

    Most read models are a list with one row per key (a message, a plan, a
    counter series, a scope), in the order in which the keys appeared.  A table
    is specified from the history alone: the row of a key is a function of the
    entries about that key.  The lemmas give what an update of the code does:
    it finds the row of a key through a mutable reference and replaces it, or
    pushes a new row. *)

From S2P Require Import Prelude.

Section Table.
Context {X K R : Type} `{EqDecision K}.
Context (key : X -> option K) (row : K -> list X -> option R) (row_key : R -> K).

Definition first_occurrences (l : list K) : list K :=
  foldl (fun ks k => if bool_decide (k ∈ ks) then ks else ks ++ [k]) [] l.

(** The entries about [k]. *)
Definition about (k : K) (h : list X) : list X := filter (fun x => key x = Some k) h.

Definition table_keys (h : list X) : list K := first_occurrences (omap key h).

Definition table (h : list X) : list R := omap (fun k => row k (about k h)) (table_keys h).

(** Every key has a row, and the row knows its key. *)
Definition rows_ok (h : list X) : Prop :=
  forall k, k ∈ omap key h -> exists r, row k (about k h) = Some r /\ row_key r = k.
End Table.

Lemma find_mut_app {A} (p : A -> bool) (l1 l2 : list A) y :
  (forall z, z ∈ l1 -> p z = false) -> p y = true ->
  exists put, find_mut p (l1 ++ y :: l2) = Some (y, put) /\ forall z, put z = l1 ++ z :: l2.
Proof.
  intros Hl Hy. induction l1 as [|z l1 IH]; cbn.
  - rewrite Hy. eauto.
  - rewrite Hl by set_solver. destruct IH as (put & -> & Hput); [set_solver|].
    cbn. eexists. split; [done|]. intros w. cbn. by rewrite Hput.
Qed.

Lemma find_mut_none {A} (p : A -> bool) (l : list A) :
  (forall z, z ∈ l -> p z = false) -> find_mut p l = None.
Proof.
  induction l as [|z l IH]; intros Hl; cbn; [done|].
  rewrite Hl, IH by set_solver. done.
Qed.

Section Keys.
Context {K : Type} `{EqDecision K}.
Implicit Types (k : K).

Lemma first_occurrences_snoc (l : list K) k :
  first_occurrences (l ++ [k]) =
  if bool_decide (k ∈ first_occurrences l) then first_occurrences l else first_occurrences l ++ [k].
Proof. unfold first_occurrences. by rewrite foldl_app. Qed.

Lemma elem_of_first_occurrences (l : list K) k : k ∈ first_occurrences l <-> k ∈ l.
Proof.
  revert k. induction l as [|x l IH] using rev_ind; intros k; [done|].
  rewrite first_occurrences_snoc. case_bool_decide as Hx; rewrite ?elem_of_app, IH, ?list_elem_of_singleton.
  - rewrite IH in Hx. split; [auto|]. by intros [?| ->].
  - done.
Qed.

Lemma first_occurrences_nodup (l : list K) : NoDup (first_occurrences l).
Proof.
  induction l as [|x l IH] using rev_ind; [constructor|]. rewrite first_occurrences_snoc.
  case_bool_decide; [done|]. apply NoDup_app. split_and!; [done|set_solver|apply NoDup_singleton].
Qed.

End Keys.

Section About.
Context {X K : Type} `{EqDecision K} (key : X -> option K).
Implicit Types (h : list X) (k : K) (x : X).

Lemma omap_snoc h x : omap key (h ++ [x]) = omap key h ++ match key x with Some k => [k] | None => [] end.
Proof. rewrite omap_app. cbn. by destruct (key x). Qed.

Lemma about_snoc k h x :
  about key k (h ++ [x]) = about key k h ++ if bool_decide (key x = Some k) then [x] else [].
Proof.
  unfold about. rewrite filter_app. f_equal. rewrite filter_cons, filter_nil.
  by case_bool_decide; case_decide.
Qed.

Lemma about_other k h x : key x <> Some k -> about key k (h ++ [x]) = about key k h.
Proof. intros. rewrite about_snoc, bool_decide_eq_false_2 by done. by rewrite app_nil_r. Qed.

Lemma about_same k h x : key x = Some k -> about key k (h ++ [x]) = about key k h ++ [x].
Proof. intros. by rewrite about_snoc, bool_decide_eq_true_2. Qed.

Lemma elem_of_about k h x : x ∈ about key k h <-> key x = Some k /\ x ∈ h.
Proof. unfold about. by rewrite list_elem_of_filter. Qed.

Lemma about_fresh k h : k ∉ omap key h -> about key k h = [].
Proof.
  intros Hk. destruct (about key k h) as [|x l] eqn:E; [done|].
  assert (x ∈ about key k h) as [? ?]%elem_of_about by (rewrite E; set_solver).
  destruct Hk. apply list_elem_of_omap. eauto.
Qed.

Lemma about_nonempty k h : k ∈ omap key h -> about key k h <> [].
Proof.
  intros (x & Hx & Hk)%list_elem_of_omap E.
  assert (x ∈ about key k h) by (by apply elem_of_about). rewrite E in *. set_solver.
Qed.

End About.

Section TableLemmas.
Context {X K R : Type} `{EqDecision K}.
Context (key : X -> option K) (row : K -> list X -> option R) (row_key : R -> K).
Implicit Types (h : list X) (k : K) (x : X).

Lemma elem_of_table h r : r ∈ table key row h <->
  exists k, k ∈ omap key h /\ row k (about key k h) = Some r.
Proof.
  unfold table, table_keys. rewrite list_elem_of_omap.
  setoid_rewrite elem_of_first_occurrences. done.
Qed.

(** An entry about nothing changes nothing. *)
Lemma table_other h x : key x = None -> table key row (h ++ [x]) = table key row h.
Proof.
  intros Hx. unfold table, table_keys. rewrite omap_snoc, Hx, app_nil_r.
  apply list_omap_ext. apply Forall2_same_length_lookup. split; [done|].
  intros i k k' Hk Hk'. simplify_eq. by rewrite about_other by congruence.
Qed.

Lemma table_keys_rows h : rows_ok key row row_key h -> row_key <$> table key row h = table_keys key h.
Proof.
  intros Hok. unfold table.
  assert (forall k, k ∈ table_keys key h -> exists r, row k (about key k h) = Some r /\ row_key r = k) as Hk
    by (intros k Hk; apply Hok; by apply elem_of_first_occurrences).
  induction (table_keys key h) as [|k ks IH]; cbn; [done|].
  destruct (Hk k) as (r & Hr & Hrk); [set_solver|]. rewrite Hr. cbn. rewrite Hrk, IH by set_solver. done.
Qed.

(** The first entry about a key pushes a row. *)
Lemma table_push h x k r : key x = Some k -> k ∉ omap key h -> row k [x] = Some r ->
  table key row (h ++ [x]) = table key row h ++ [r].
Proof.
  intros Hx Hk Hr. unfold table, table_keys.
  rewrite omap_snoc, Hx, first_occurrences_snoc, bool_decide_eq_false_2
    by (by rewrite elem_of_first_occurrences).
  rewrite omap_app. f_equal.
  - apply list_omap_ext. apply Forall2_same_length_lookup. split; [done|].
    intros i j j' Hj Hj'. simplify_eq. rewrite about_other; [done|]. intros Hxj.
    apply Hk. apply elem_of_first_occurrences. apply list_elem_of_lookup. exists i. congruence.
  - cbn. rewrite about_same, (about_fresh key k h) by done. cbn. by rewrite Hr.
Qed.

Lemma table_find_none h k : rows_ok key row row_key h -> k ∉ omap key h ->
  find_mut (fun r => bool_decide (row_key r = k)) (table key row h) = None.
Proof.
  intros Hok Hk. apply find_mut_none. intros r (j & Hj & Hr)%elem_of_table.
  destruct (Hok j Hj) as (r' & Hr' & Hrk). simplify_eq.
  apply bool_decide_eq_false. congruence.
Qed.

(** A later entry about a key replaces its row where it stands. *)
Lemma table_find_some h x k : rows_ok key row row_key h -> k ∈ omap key h ->
  exists r put, row k (about key k h) = Some r /\
    find_mut (fun r => bool_decide (row_key r = k)) (table key row h) = Some (r, put) /\
    forall r', key x = Some k -> row k (about key k h ++ [x]) = Some r' ->
      put r' = table key row (h ++ [x]).
Proof.
  intros Hok Hk. destruct (Hok k Hk) as (r & Hr & Hrk).
  assert (k ∈ table_keys key h) as Hin by (by apply elem_of_first_occurrences).
  apply list_elem_of_split in Hin as (k1 & k2 & Hks).
  pose proof (first_occurrences_nodup (omap key h)) as Hnd.
  change (first_occurrences (omap key h)) with (table_keys key h) in Hnd. rewrite Hks in Hnd.
  apply NoDup_app in Hnd as (_ & Hk1 & [Hk2 _]%NoDup_cons).
  set (rows (ks : list K) := omap (fun j => row j (about key j h)) ks).
  assert (table key row h = rows k1 ++ r :: rows k2) as Ht.
  { unfold table. rewrite Hks, omap_app. cbn. by rewrite Hr. }
  destruct (find_mut_app (fun r => bool_decide (row_key r = k)) (rows k1) (rows k2) r)
    as (put & Hput & Heq).
  { intros z (j & Hj & Hz)%list_elem_of_omap. apply bool_decide_eq_false. intros Hzk.
    destruct (Hok j) as (z' & Hz' & Hzj).
    { apply elem_of_first_occurrences. change (first_occurrences (omap key h)) with (table_keys key h).
      rewrite Hks. set_solver. }
    simplify_eq. apply (Hk1 _ Hj). set_solver. }
  { by apply bool_decide_eq_true. }
  exists r, put. rewrite Ht. split_and!; [done..|].
  intros r' Hx Hr'. rewrite Heq. unfold table, table_keys.
  rewrite omap_snoc, Hx, first_occurrences_snoc, bool_decide_eq_true_2
    by (by apply elem_of_first_occurrences).
  change (first_occurrences (omap key h)) with (table_keys key h). rewrite Hks, omap_app. cbn.
  rewrite about_same by done. rewrite Hr'. f_equal; [|f_equal].
  - apply list_omap_ext. apply Forall2_same_length_lookup. split; [done|].
    intros i j j' Hj Hj'. assert (j' = j) as -> by congruence. rewrite about_other; [done|].
    intros Hxj. assert (j = k) as -> by congruence. apply (Hk1 k); [by apply list_elem_of_lookup; exists i|set_solver].
  - apply list_omap_ext. apply Forall2_same_length_lookup. split; [done|].
    intros i j j' Hj Hj'. assert (j' = j) as -> by congruence. rewrite about_other; [done|].
    intros Hxj. assert (j = k) as -> by congruence. apply Hk2. apply list_elem_of_lookup. by exists i.
Qed.
End TableLemmas.
