(* ===== verification/Spans.v ===== *)
(** * The span read model

    Models [troupe-diagnostics-runtime/src/store/projector/spans.rs]: every
    span of the run with its completion.  The two [expect]s of
    [apply_validated_event] return [None]. *)

From S2P Require Import Prelude Wire Scalar Kinds Detail Event Validate ValidateSpec Projection Table.

Definition SPAN_READ_MODEL_SCHEMA_VERSION : Z := 1.

Record SpanCompletion := mkSpanCompletion {
  SpanCompletion_finish_sequence : Z;
  SpanCompletion_finished_at_ns : Z;
  SpanCompletion_outcome : SpanOutcome;
  SpanCompletion_error_code : option string;
  SpanCompletion_caused_by : list CausalLink;
}.

#[export] Instance SpanCompletion_eq_dec : EqDecision SpanCompletion.
Proof. solve_decision. Defined.

Definition SpanCompletion_built_in (event : SpanFinished) : SpanCompletion :=
  let h := SpanFinished_header event in
  mkSpanCompletion (DiagnosticEventHeader_sequence h) (DiagnosticEventHeader_elapsed_ns h)
    (SpanFinished_outcome event) (SpanFinished_error_code event) (DiagnosticEventHeader_caused_by h).

Definition SpanCompletion_custom (event : CustomSpanFinished) : SpanCompletion :=
  let h := CustomSpanFinished_header event in
  mkSpanCompletion (DiagnosticEventHeader_sequence h) (DiagnosticEventHeader_elapsed_ns h)
    (CustomSpanFinished_outcome event) None (DiagnosticEventHeader_caused_by h).

Inductive ProjectedSpanDefinition :=
| ProjectedSpanDefinition_BuiltIn (detail : SpanStartDetail)
| ProjectedSpanDefinition_Custom (name : string) (attributes : DiagnosticAttributes).

#[export] Instance ProjectedSpanDefinition_eq_dec : EqDecision ProjectedSpanDefinition.
Proof. solve_decision. Defined.

Definition ProjectedSpanDefinition_family (d : ProjectedSpanDefinition) : SpanFamily :=
  match d with
  | ProjectedSpanDefinition_BuiltIn _ => BuiltIn
  | ProjectedSpanDefinition_Custom _ _ => Custom
  end.

Definition ProjectedSpanDefinition_built_in_kind (d : ProjectedSpanDefinition) : option SpanKind :=
  match d with
  | ProjectedSpanDefinition_BuiltIn detail => Some (SpanStartDetail_kind detail)
  | ProjectedSpanDefinition_Custom _ _ => None
  end.

Record ProjectedSpan := mkProjectedSpan {
  ProjectedSpan_run_id : CanonicalUuid;
  ProjectedSpan_span_id : Z;
  ProjectedSpan_started_at_ns : Z;
  ProjectedSpan_scope : DiagnosticScope;
  ProjectedSpan_parent_span_id : option Z;
  ProjectedSpan_started_caused_by : list CausalLink;
  ProjectedSpan_definition : ProjectedSpanDefinition;
  ProjectedSpan_completion : option SpanCompletion;
}.

#[export] Instance ProjectedSpan_eq_dec : EqDecision ProjectedSpan.
Proof. solve_decision. Defined.

Definition ProjectedSpan_built_in (event : SpanStarted) : ProjectedSpan :=
  let h := SpanStarted_header event in
  mkProjectedSpan (DiagnosticEventHeader_run_id h) (DiagnosticEventHeader_sequence h)
    (DiagnosticEventHeader_elapsed_ns h) (DiagnosticEventHeader_scope h)
    (SpanStarted_parent_span_id event) (DiagnosticEventHeader_caused_by h)
    (ProjectedSpanDefinition_BuiltIn (SpanStarted_detail event)) None.

Definition ProjectedSpan_custom (event : CustomSpanStarted) : ProjectedSpan :=
  let h := CustomSpanStarted_header event in
  mkProjectedSpan (DiagnosticEventHeader_run_id h) (DiagnosticEventHeader_sequence h)
    (DiagnosticEventHeader_elapsed_ns h) (DiagnosticEventHeader_scope h)
    (CustomSpanStarted_parent_span_id event) (DiagnosticEventHeader_caused_by h)
    (ProjectedSpanDefinition_Custom (CustomSpanStarted_name event)
       (CustomSpanStarted_attributes event)) None.

Definition set_completion (completion : option SpanCompletion) (span : ProjectedSpan)
    : ProjectedSpan :=
  mkProjectedSpan (ProjectedSpan_run_id span) (ProjectedSpan_span_id span)
    (ProjectedSpan_started_at_ns span) (ProjectedSpan_scope span)
    (ProjectedSpan_parent_span_id span) (ProjectedSpan_started_caused_by span)
    (ProjectedSpan_definition span) completion.

Definition ProjectedSpan_is_open (span : ProjectedSpan) : bool :=
  match ProjectedSpan_completion span with None => true | Some _ => false end.

Definition ProjectedSpan_latest_sequence (span : ProjectedSpan) : Z :=
  match ProjectedSpan_completion span with
  | Some completion => SpanCompletion_finish_sequence completion
  | None => ProjectedSpan_span_id span
  end.

Definition ProjectedSpan_elapsed_duration_ns (span : ProjectedSpan) : option Z :=
  completion ← ProjectedSpan_completion span;
  checked_sub U64 (SpanCompletion_finished_at_ns completion) (ProjectedSpan_started_at_ns span).

Record SpanReadModel := mkSpanReadModel {
  SpanReadModel_model_schema_version : Z;
  SpanReadModel_run_id : CanonicalUuid;
  SpanReadModel_through_sequence : Z;
  SpanReadModel_through_elapsed_ns : Z;
  SpanReadModel_spans : list ProjectedSpan;
}.

#[export] Instance SpanReadModel_eq_dec : EqDecision SpanReadModel.
Proof. solve_decision. Defined.

Definition SpanReadModel_empty (run_id : CanonicalUuid) : SpanReadModel :=
  mkSpanReadModel SPAN_READ_MODEL_SCHEMA_VERSION run_id 0 0 [].

Definition SpanReadModel_span (self : SpanReadModel) (span_id : Z) : option ProjectedSpan :=
  find (fun span => ProjectedSpan_span_id span =? span_id) (SpanReadModel_spans self).

Definition SpanReadModel_open_spans (self : SpanReadModel) : list ProjectedSpan :=
  filter (fun span => ProjectedSpan_is_open span = true) (SpanReadModel_spans self).

Definition SpanReadModel_children_of (self : SpanReadModel) (parent_span_id : Z)
    : list ProjectedSpan :=
  filter (fun span => ProjectedSpan_parent_span_id span = Some parent_span_id)
    (SpanReadModel_spans self).

Inductive SpanProjectionError :=
| SpanProjectionError_RunIdentityMismatch (expected actual : CanonicalUuid) (event_sequence : Z)
| SpanProjectionError_NonCanonicalSequence (expected actual : Z)
| SpanProjectionError_SequenceExhausted (event_sequence : Z)
| SpanProjectionError_InvalidReference (error : ReferenceValidationError).

Definition SpanProjectionError_code (e : SpanProjectionError) : string :=
  match e with
  | SpanProjectionError_RunIdentityMismatch _ _ _ => "cross_run"
  | SpanProjectionError_NonCanonicalSequence _ _ => "noncanonical_sequence"
  | SpanProjectionError_SequenceExhausted _ => "sequence_exhausted"
  | SpanProjectionError_InvalidReference error => ReferenceValidationCode_as_str (rve_code error)
  end.

(** ** Projection *)

Definition validate_position (model : SpanReadModel) (event : DiagnosticEvent)
    : result unit SpanProjectionError :=
  if bool_decide (event_run_id event <> SpanReadModel_run_id model) then
    Err (SpanProjectionError_RunIdentityMismatch (SpanReadModel_run_id model) (event_run_id event)
           (event_sequence event))
  else
    match checked_add U64 (SpanReadModel_through_sequence model) 1 with
    | None => Err (SpanProjectionError_SequenceExhausted (event_sequence event))
    | Some expected =>
        if negb (event_sequence event =? expected) then
          Err (SpanProjectionError_NonCanonicalSequence expected (event_sequence event))
        else Ok tt
    end.

(** The change of the vector of spans. *)
Definition apply_spans (spans : list ProjectedSpan) (event : DiagnosticEvent)
    : option (list ProjectedSpan) :=
  match event with
  | DiagnosticEvent_SpanStarted start => Some (spans ++ [ProjectedSpan_built_in start])
  | DiagnosticEvent_CustomSpanStarted start => Some (spans ++ [ProjectedSpan_custom start])
  | DiagnosticEvent_SpanFinished finish =>
      '(span, put) ←
        find_mut (fun span => ProjectedSpan_span_id span =? SpanFinished_span_id finish) spans;
      Some (put (set_completion (Some (SpanCompletion_built_in finish)) span))
  | DiagnosticEvent_CustomSpanFinished finish =>
      '(span, put) ←
        find_mut (fun span => ProjectedSpan_span_id span =? CustomSpanFinished_span_id finish) spans;
      Some (put (set_completion (Some (SpanCompletion_custom finish)) span))
  | _ => Some spans
  end.

Definition apply_validated_event (model : SpanReadModel) (event : DiagnosticEvent)
    : option SpanReadModel :=
  spans ← apply_spans (SpanReadModel_spans model) event;
  Some (mkSpanReadModel (SpanReadModel_model_schema_version model) (SpanReadModel_run_id model)
          (event_sequence event)
          (Z.max (SpanReadModel_through_elapsed_ns model) (event_elapsed event)) spans).

Definition project_validated_event (model : SpanReadModel) (event : DiagnosticEvent)
    : option (result SpanReadModel SpanProjectionError) :=
  match validate_position model event with
  | Err e => Some (Err e)
  | Ok _ => candidate ← apply_validated_event model event; Some (Ok candidate)
  end.

Definition SpanProjector_apply (self : Projector SpanReadModel) (event : DiagnosticEvent)
    : option (Projector SpanReadModel * result unit SpanProjectionError) :=
  match validate_position (model self) event with
  | Err e => Some (self, Err e)
  | Ok _ =>
      match validate (references self) event with
      | (references', Err e) =>
          Some (mkProjector references' (model self), Err (SpanProjectionError_InvalidReference e))
      | (references', Ok _) =>
          model' ← apply_validated_event (model self) event;
          Some (mkProjector references' model', Ok tt)
      end
  end.

Definition project_spans (run_id : CanonicalUuid) (events : list DiagnosticEvent)
    : option (result SpanReadModel SpanProjectionError) :=
  project SpanProjector_apply (SpanReadModel_empty run_id) events.

(** ** Specification *)

Definition span_started (e : DiagnosticEvent) : option ProjectedSpan :=
  match e with
  | DiagnosticEvent_SpanStarted start => Some (ProjectedSpan_built_in start)
  | DiagnosticEvent_CustomSpanStarted start => Some (ProjectedSpan_custom start)
  | _ => None
  end.

Definition span_completed (e : DiagnosticEvent) : option SpanCompletion :=
  match e with
  | DiagnosticEvent_SpanFinished finish => Some (SpanCompletion_built_in finish)
  | DiagnosticEvent_CustomSpanFinished finish => Some (SpanCompletion_custom finish)
  | _ => None
  end.

(** The span that an event of the history starts, with the completion that the
    history gives it. *)
Definition span_in (h : history) (e : DiagnosticEvent) : option ProjectedSpan :=
  span ← span_started e;
  Some (set_completion (f ← find (finishes_b (event_sequence e)) h; span_completed f) span).

Definition span_view (run_id : CanonicalUuid) (h : history) : SpanReadModel :=
  mkSpanReadModel SPAN_READ_MODEL_SCHEMA_VERSION run_id (list_len h) (through_elapsed h)
    (omap (span_in h) h).

(** ** Lemmas *)

Lemma span_started_some e : is_Some (span_started e) <-> is_Some (span_start e).
Proof. destruct e; cbn; naive_solver. Qed.

Lemma span_started_id e span : span_started e = Some span ->
  ProjectedSpan_span_id span = event_sequence e.
Proof. destruct e; cbn; naive_solver. Qed.

Lemma span_completed_some e f id : span_finish e = Some (f, id) -> is_Some (span_completed e).
Proof. destruct e; cbn; naive_solver. Qed.

Lemma finish_not_started e x : span_finish e = Some x -> span_started e = None.
Proof. by destruct e. Qed.

Lemma started_not_completed e span : span_started e = Some span -> span_finish e = None.
Proof. by destruct e. Qed.

(** [apply_spans] by what the event does to spans. *)
Lemma apply_spans_cases spans e :
  apply_spans spans e =
  match span_started e with
  | Some span => Some (spans ++ [span])
  | None =>
      match span_finish e, span_completed e with
      | Some (_, id), Some completion =>
          '(span, put) ← find_mut (fun span => ProjectedSpan_span_id span =? id) spans;
          Some (put (set_completion (Some completion) span))
      | _, _ => Some spans
      end
  end.
Proof. by destruct e. Qed.

Lemma span_in_id h e span : span_in h e = Some span ->
  ProjectedSpan_span_id span = event_sequence e.
Proof.
  unfold span_in. destruct (span_started e) as [s|] eqn:Es; [|done].
  apply span_started_id in Es. by intros [= <-].
Qed.

Lemma find_finish_snoc h e id : ~ finishes id e ->
  find (finishes_b id) (h ++ [e]) = find (finishes_b id) h.
Proof.
  intros Hno. rewrite find_app. destruct (find _ h); [done|]. cbn.
  destruct (finishes_b id e) eqn:E; [|done]. by apply finishes_b_true in E.
Qed.

(** The rows of the spans that [e] does not finish stay. *)
Lemma omap_span_in_stable h e (l : list DiagnosticEvent) :
  (forall x, x ∈ l -> is_Some (span_start x) -> ~ finishes (event_sequence x) e) ->
  omap (span_in (h ++ [e])) l = omap (span_in h) l.
Proof.
  intros Hl. apply list_omap_ext. apply Forall2_same_length_lookup. split; [done|].
  intros i x x' Hx Hx'. assert (x' = x) as -> by congruence.
  unfold span_in. destruct (span_started x) eqn:Es; [|done]. cbn.
  rewrite find_finish_snoc; [done|]. apply Hl; [by eapply list_elem_of_lookup_2|].
  apply span_started_some. eauto.
Qed.

Section Step.
Context (run_id : CanonicalUuid) (h : history) (e : DiagnosticEvent).
Context (Hr : recorded run_id any_event h) (Hok : event_ok h e) (Hn : next_event run_id h e).

Lemma apply_spans_start span : span_started e = Some span ->
  omap (span_in (h ++ [e])) (h ++ [e]) = omap (span_in h) h ++ [span].
Proof.
  intros Hs. assert (is_Some (span_start e)) as [x Hx] by (apply span_started_some; eauto).
  apply starts_only in Hx as [Hf _].
  assert (forall id, ~ finishes id e) as Hno by (intros id [f ?]; congruence).
  rewrite omap_app, omap_span_in_stable by auto. f_equal. cbn.
  unfold span_in. rewrite Hs. cbn. rewrite find_finish_snoc by done.
  destruct (find _ h) as [f|] eqn:Ef; cbn.
  - apply find_some_elem in Ef as [Hf' [fam Hfin]%finishes_b_true].
    destruct (recorded_at _ _ _ _ Hr Hf') as (h1 & h2 & -> & _ & Hnf & Hokf & _).
    destruct (ok_finish _ _ Hokf _ _ Hfin) as (Hlt & _).
    destruct (recorded_sequence _ _ _ _ Hr Hf') as [_ ?]. destruct Hn as (_ & -> & _) in Hlt. lia.
  - f_equal. destruct e; cbn in *; naive_solver.
Qed.

Lemma apply_spans_finish fam id completion :
  span_finish e = Some (fam, id) -> span_completed e = Some completion ->
  exists span put,
    find_mut (fun span => ProjectedSpan_span_id span =? id) (omap (span_in h) h) = Some (span, put) /\
    put (set_completion (Some completion) span) = omap (span_in (h ++ [e])) (h ++ [e]).
Proof.
  intros Hf Hc. destruct (ok_finish _ _ Hok _ _ Hf) as (_ & s & [(Hs & Hid & Hst) Hopen] & _).
  destruct (models_recorded _ _ _ Hr) as [rv M].
  apply list_elem_of_split in Hs as (h1 & h2 & Hh).
  assert (forall x, x ∈ h1 \/ x ∈ h2 -> event_sequence x <> id) as Hother.
  { pose proof (m_distinct _ _ M) as Hd. rewrite Hh, fmap_app, fmap_cons, Hid in Hd.
    apply NoDup_app in Hd as (_ & Hd1 & [Hd2 _]%NoDup_cons).
    intros x [Hx|Hx] Eq; [apply (Hd1 id); [|left]|apply Hd2];
      apply list_elem_of_fmap; eauto. }
  apply span_started_some in Hst as [span Hspan].
  set (rows (g : history) (l : list DiagnosticEvent) := omap (span_in g) l).
  assert (forall g, rows g h = rows g h1 ++
            set_completion (f ← find (finishes_b id) g; span_completed f) span :: rows g h2) as Hrows.
  { intros g. unfold rows. rewrite Hh, omap_app. cbn. unfold span_in at 2.
    rewrite Hspan, Hid. done. }
  assert (find (finishes_b id) h = None) as Hnone.
  { apply find_none_elem. intros f Hfh. apply not_true_iff_false. rewrite finishes_b_true. auto. }
  destruct (find_mut_app (fun span => ProjectedSpan_span_id span =? id) (rows h h1) (rows h h2)
              (set_completion None span)) as (put & Hput & Heq).
  { intros z (x & Hx & Hz%span_in_id)%list_elem_of_omap. apply Z.eqb_neq. rewrite Hz.
    apply Hother. by left. }
  { apply Z.eqb_eq. cbn. by rewrite (span_started_id _ _ Hspan). }
  exists (set_completion None span), put. split.
  - change (omap (span_in h) h) with (rows h h). rewrite Hrows, Hnone. done.
  - rewrite Heq, omap_app. change (omap (span_in (h ++ [e])) h) with (rows (h ++ [e]) h).
    rewrite Hrows. unfold rows. rewrite (omap_span_in_stable h e h1), (omap_span_in_stable h e h2).
    2-3: intros x Hx _ [f Hfx]; apply (Hother x); [auto|congruence].
    assert (omap (span_in (h ++ [e])) [e] = []) as ->.
    { cbn. unfold span_in. by rewrite (finish_not_started _ _ Hf). }
    assert (finishes_b id e = true) as Hfe by (apply finishes_b_true; by exists fam).
    rewrite app_nil_r, find_app, Hnone. cbn. rewrite Hfe. cbn. rewrite Hc. done.
Qed.

Lemma apply_spans_other : span_started e = None -> span_finish e = None ->
  omap (span_in (h ++ [e])) (h ++ [e]) = omap (span_in h) h.
Proof.
  intros Hs Hf. rewrite omap_app, omap_span_in_stable by (intros x _ _ [f ?]; congruence).
  cbn. unfold span_in at 2. rewrite Hs. cbn. by rewrite app_nil_r.
Qed.

Lemma apply_spans_spec : apply_spans (omap (span_in h) h) e = Some (omap (span_in (h ++ [e])) (h ++ [e])).
Proof.
  rewrite apply_spans_cases. destruct (span_started e) as [span|] eqn:Es.
  - by rewrite (apply_spans_start _ Es).
  - destruct (span_finish e) as [[fam id]|] eqn:Ef.
    + destruct (span_completed_some _ _ _ Ef) as [c Hc].
      destruct (apply_spans_finish _ _ _ Ef Hc) as (span & put & Hput & Heq).
      rewrite Hc, Hput. cbn. by rewrite Heq.
    + by rewrite apply_spans_other.
Qed.
End Step.

Lemma apply_validated_spec run_id h e :
  recorded run_id any_event h -> event_ok h e -> next_event run_id h e ->
  apply_validated_event (span_view run_id h) e = Some (span_view run_id (h ++ [e])).
Proof.
  intros Hr Hok Hn. unfold apply_validated_event. cbn [SpanReadModel_spans span_view].
  rewrite (apply_spans_spec run_id) by done. cbn. unfold span_view.
  rewrite through_elapsed_snoc, list_len_app. destruct Hn as (_ & -> & _). done.
Qed.

Lemma span_position run_id h e :
  check_exact (next_event run_id h e) (validate_position (span_view run_id h) e).
Proof.
  unfold check_exact, validate_position, next_event.
  cbn [SpanReadModel_run_id SpanReadModel_through_sequence span_view]. solve_position h e.
Qed.

#[export] Instance span_model_laws run_id :
  ReadModelLaws run_id project_validated_event (span_view run_id) untyped any_event.
Proof.
  constructor. intros h e Hr Hok _. unfold project_validated_event, outcome.
  destruct (span_position run_id h e) as [[-> Hn]|[[err ->] Hno]].
  - left. split; [done|]. by rewrite apply_validated_spec.
  - right. split; [tauto|eauto].
Qed.

#[export] Instance span_projector_laws run_id :
  ProjectorLaws run_id SpanProjector_apply (span_view run_id) untyped any_event.
Proof.
  constructor. intros rv h e Hr M _. unfold SpanProjector_apply. cbn [model references].
  destruct (span_position run_id h e) as [[-> Hn]|[[err ->] Hno]].
  - destruct (validate_cases rv h e M) as [[Hok (ve & -> & _)]|[Hno [err ->]]].
    + left. split; [done|]. by rewrite apply_validated_spec.
    + right. split; [tauto|eauto].
  - right. split; [tauto|eauto].
Qed.

(** ** Properties *)

(** The span projection of a stream succeeds exactly when the stream is numbered
    from one and well formed; its model then has one row per started span, in
    order, with the completion that the stream gives the span.  It never
    panics. *)
Theorem project_spans_correct run_id events :
  (exists r, project_spans run_id events = Some r) /\
  forall m, project_spans run_id events = Some (Ok m) <->
    numbered run_id events /\ stream_ok events /\ m = span_view run_id events.
Proof.
  split.
  - destruct (project_total run_id SpanProjector_apply (span_view run_id) untyped any_event events
      (Forall_untyped _)) as (r & Hr & _).
    by exists r.
  - intros m. unfold project_spans. rewrite (project_correct run_id _ (span_view run_id) untyped any_event)
      by apply Forall_untyped.
    rewrite recorded_iff. unfold any_event. naive_solver.
Qed.
