(* ===== verification/Messages.v ===== *)
(** * The message read model

    Models [troupe-diagnostics-runtime/src/store/projector/messages.rs]: one row
    per agent message, which accumulates the text of its deltas until it is
    completed.  [apply_delta] and [apply_completion] act on the vector of
    messages, the only field they change. *)

From S2P Require Import Prelude Wire Scalar Kinds Detail Event Validate ValidateSpec Projection Table.

Definition MESSAGE_READ_MODEL_SCHEMA_VERSION : Z := 1.

Record MessageCompletion := mkMessageCompletion {
  MessageCompletion_sequence : Z;
  MessageCompletion_elapsed_ns : Z;
  MessageCompletion_utf8_bytes : Z;
  MessageCompletion_unicode_scalar_count : Z;
  MessageCompletion_truncated : bool;
  MessageCompletion_caused_by : list CausalLink;
}.

#[export] Instance MessageCompletion_eq_dec : EqDecision MessageCompletion.
Proof. solve_decision. Defined.

Definition MessageCompletion_from_event (event : AgentMessageCompleted) : MessageCompletion :=
  let h := AgentMessageCompleted_header event in
  mkMessageCompletion (DiagnosticEventHeader_sequence h) (DiagnosticEventHeader_elapsed_ns h)
    (AgentMessageCompleted_utf8_bytes event) (AgentMessageCompleted_unicode_scalar_count event)
    (AgentMessageCompleted_truncated event) (DiagnosticEventHeader_caused_by h).

Record ProjectedMessage := mkProjectedMessage {
  ProjectedMessage_run_id : CanonicalUuid;
  ProjectedMessage_message_id : RunLocalId;
  ProjectedMessage_scope : DiagnosticScope;
  ProjectedMessage_first_sequence : Z;
  ProjectedMessage_first_elapsed_ns : Z;
  ProjectedMessage_latest_sequence : Z;
  ProjectedMessage_latest_elapsed_ns : Z;
  ProjectedMessage_source_message_id : option string;
  ProjectedMessage_text : string;
  ProjectedMessage_completion : option MessageCompletion;
}.

#[export] Instance ProjectedMessage_eq_dec : EqDecision ProjectedMessage.
Proof. solve_decision. Defined.

Definition ProjectedMessage_from_delta (event : AgentMessageDelta) : ProjectedMessage :=
  let h := AgentMessageDelta_header event in
  mkProjectedMessage (DiagnosticEventHeader_run_id h) (AgentMessageDelta_message_id event)
    (DiagnosticEventHeader_scope h)
    (DiagnosticEventHeader_sequence h) (DiagnosticEventHeader_elapsed_ns h)
    (DiagnosticEventHeader_sequence h) (DiagnosticEventHeader_elapsed_ns h)
    (AgentMessageDelta_source_message_id event) (AgentMessageDelta_text_delta event) None.

Definition ProjectedMessage_from_completion (event : AgentMessageCompleted) : ProjectedMessage :=
  let h := AgentMessageCompleted_header event in
  mkProjectedMessage (DiagnosticEventHeader_run_id h) (AgentMessageCompleted_message_id event)
    (DiagnosticEventHeader_scope h)
    (DiagnosticEventHeader_sequence h) (DiagnosticEventHeader_elapsed_ns h)
    (DiagnosticEventHeader_sequence h) (DiagnosticEventHeader_elapsed_ns h)
    None "" (Some (MessageCompletion_from_event event)).

Definition ProjectedMessage_is_open (message : ProjectedMessage) : bool :=
  match ProjectedMessage_completion message with None => true | Some _ => false end.

Definition ProjectedMessage_is_truncated (message : ProjectedMessage) : bool :=
  match ProjectedMessage_completion message with
  | Some completion => MessageCompletion_truncated completion
  | None => false
  end.

Record MessageReadModel := mkMessageReadModel {
  MessageReadModel_model_schema_version : Z;
  MessageReadModel_run_id : CanonicalUuid;
  MessageReadModel_through_sequence : Z;
  MessageReadModel_through_elapsed_ns : Z;
  MessageReadModel_messages : list ProjectedMessage;
}.

#[export] Instance MessageReadModel_eq_dec : EqDecision MessageReadModel.
Proof. solve_decision. Defined.

Definition MessageReadModel_empty (run_id : CanonicalUuid) : MessageReadModel :=
  mkMessageReadModel MESSAGE_READ_MODEL_SCHEMA_VERSION run_id 0 0 [].

Definition MessageReadModel_message (self : MessageReadModel) (message_id : RunLocalId)
    : option ProjectedMessage :=
  find (fun message => bool_decide (ProjectedMessage_message_id message = message_id))
    (MessageReadModel_messages self).

Inductive MessageIdentityField := MessageIdentityField_Scope | MessageIdentityField_SourceMessageId.

Definition MessageIdentityField_as_str (f : MessageIdentityField) : string :=
  match f with
  | MessageIdentityField_Scope => "scope"
  | MessageIdentityField_SourceMessageId => "source_message_id"
  end.

Inductive MessageProjectionError :=
| MessageProjectionError_RunIdentityMismatch (expected actual : CanonicalUuid) (event_sequence : Z)
| MessageProjectionError_NonCanonicalSequence (expected actual : Z)
| MessageProjectionError_SequenceExhausted (event_sequence : Z)
| MessageProjectionError_InvalidReference (error : ReferenceValidationError)
| MessageProjectionError_IdentityMismatch (message_id : RunLocalId) (event_sequence : Z)
    (field : MessageIdentityField)
| MessageProjectionError_DuplicateCompletion (message_id : RunLocalId) (event_sequence : Z)
| MessageProjectionError_DeltaAfterCompletion (message_id : RunLocalId) (event_sequence : Z).

Definition MessageProjectionError_code (e : MessageProjectionError) : string :=
  match e with
  | MessageProjectionError_RunIdentityMismatch _ _ _ => "cross_run"
  | MessageProjectionError_NonCanonicalSequence _ _ => "noncanonical_sequence"
  | MessageProjectionError_SequenceExhausted _ => "sequence_exhausted"
  | MessageProjectionError_InvalidReference error => ReferenceValidationCode_as_str (rve_code error)
  | MessageProjectionError_IdentityMismatch _ _ _ => "message_identity_mismatch"
  | MessageProjectionError_DuplicateCompletion _ _ => "duplicate_completion"
  | MessageProjectionError_DeltaAfterCompletion _ _ => "delta_after_completion"
  end.

(** ** Projection *)

Definition validate_position (model : MessageReadModel) (event : DiagnosticEvent)
    : result unit MessageProjectionError :=
  if bool_decide (event_run_id event <> MessageReadModel_run_id model) then
    Err (MessageProjectionError_RunIdentityMismatch (MessageReadModel_run_id model)
           (event_run_id event) (event_sequence event))
  else
    match checked_add U64 (MessageReadModel_through_sequence model) 1 with
    | None => Err (MessageProjectionError_SequenceExhausted (event_sequence event))
    | Some expected =>
        if negb (event_sequence event =? expected) then
          Err (MessageProjectionError_NonCanonicalSequence expected (event_sequence event))
        else Ok tt
    end.

Definition validate_scope_identity (message : ProjectedMessage) (actual : DiagnosticScope)
    (event_sequence : Z) : result unit MessageProjectionError :=
  if bool_decide (ProjectedMessage_scope message <> actual) then
    Err (MessageProjectionError_IdentityMismatch (ProjectedMessage_message_id message)
           event_sequence MessageIdentityField_Scope)
  else Ok tt.

(** [source_message_id] of the row after a delta that may carry one. *)
Definition merge_source (message : ProjectedMessage) (event : AgentMessageDelta)
    (event_sequence : Z) : result (option string) MessageProjectionError :=
  match AgentMessageDelta_source_message_id event with
  | None => Ok (ProjectedMessage_source_message_id message)
  | Some source_message_id =>
      match ProjectedMessage_source_message_id message with
      | Some expected =>
          if bool_decide (expected <> source_message_id) then
            Err (MessageProjectionError_IdentityMismatch (AgentMessageDelta_message_id event)
                   event_sequence MessageIdentityField_SourceMessageId)
          else Ok (Some expected)
      | None => Ok (Some source_message_id)
      end
  end.

Definition apply_delta (messages : list ProjectedMessage) (event : AgentMessageDelta)
    : result (list ProjectedMessage) MessageProjectionError :=
  let h := AgentMessageDelta_header event in
  let message_id := AgentMessageDelta_message_id event in
  match find_mut (fun message => bool_decide (ProjectedMessage_message_id message = message_id))
          messages with
  | None => Ok (messages ++ [ProjectedMessage_from_delta event])
  | Some (message, put) =>
      let? _ := validate_scope_identity message (DiagnosticEventHeader_scope h)
                  (DiagnosticEventHeader_sequence h) in
      if bool_decide (is_Some (ProjectedMessage_completion message)) then
        Err (MessageProjectionError_DeltaAfterCompletion message_id (DiagnosticEventHeader_sequence h))
      else
        let? source := merge_source message event (DiagnosticEventHeader_sequence h) in
        Ok (put (mkProjectedMessage (ProjectedMessage_run_id message)
                   (ProjectedMessage_message_id message) (ProjectedMessage_scope message)
                   (ProjectedMessage_first_sequence message)
                   (ProjectedMessage_first_elapsed_ns message)
                   (DiagnosticEventHeader_sequence h) (DiagnosticEventHeader_elapsed_ns h)
                   source (ProjectedMessage_text message ++ AgentMessageDelta_text_delta event)
                   (ProjectedMessage_completion message)))
  end.

Definition apply_completion (messages : list ProjectedMessage) (event : AgentMessageCompleted)
    : result (list ProjectedMessage) MessageProjectionError :=
  let h := AgentMessageCompleted_header event in
  let message_id := AgentMessageCompleted_message_id event in
  match find_mut (fun message => bool_decide (ProjectedMessage_message_id message = message_id))
          messages with
  | None => Ok (messages ++ [ProjectedMessage_from_completion event])
  | Some (message, put) =>
      let? _ := validate_scope_identity message (DiagnosticEventHeader_scope h)
                  (DiagnosticEventHeader_sequence h) in
      if bool_decide (is_Some (ProjectedMessage_completion message)) then
        Err (MessageProjectionError_DuplicateCompletion message_id (DiagnosticEventHeader_sequence h))
      else
        Ok (put (mkProjectedMessage (ProjectedMessage_run_id message)
                   (ProjectedMessage_message_id message) (ProjectedMessage_scope message)
                   (ProjectedMessage_first_sequence message)
                   (ProjectedMessage_first_elapsed_ns message)
                   (DiagnosticEventHeader_sequence h) (DiagnosticEventHeader_elapsed_ns h)
                   (ProjectedMessage_source_message_id message) (ProjectedMessage_text message)
                   (Some (MessageCompletion_from_event event))))
  end.

Definition apply_messages (messages : list ProjectedMessage) (event : DiagnosticEvent)
    : result (list ProjectedMessage) MessageProjectionError :=
  match event with
  | DiagnosticEvent_AgentMessageDelta delta => apply_delta messages delta
  | DiagnosticEvent_AgentMessageCompleted completion => apply_completion messages completion
  | _ => Ok messages
  end.

Definition candidate_for_event (model : MessageReadModel) (event : DiagnosticEvent)
    : result MessageReadModel MessageProjectionError :=
  let? _ := validate_position model event in
  let? messages := apply_messages (MessageReadModel_messages model) event in
  Ok (mkMessageReadModel (MessageReadModel_model_schema_version model)
        (MessageReadModel_run_id model) (event_sequence event)
        (Z.max (MessageReadModel_through_elapsed_ns model) (event_elapsed event)) messages).

Definition MessageProjector_apply (self : Projector MessageReadModel) (event : DiagnosticEvent)
    : Projector MessageReadModel * result unit MessageProjectionError :=
  candidate_apply candidate_for_event MessageProjectionError_InvalidReference self event.

Definition project_messages (run_id : CanonicalUuid) (events : list DiagnosticEvent)
    : option (result MessageReadModel MessageProjectionError) :=
  project (fun p e => Some (MessageProjector_apply p e)) (MessageReadModel_empty run_id) events.

(** ** Specification *)

Definition message_of (e : DiagnosticEvent) : option RunLocalId :=
  match e with
  | DiagnosticEvent_AgentMessageDelta delta => Some (AgentMessageDelta_message_id delta)
  | DiagnosticEvent_AgentMessageCompleted completed => Some (AgentMessageCompleted_message_id completed)
  | _ => None
  end.

Definition delta_text (e : DiagnosticEvent) : string :=
  match e with
  | DiagnosticEvent_AgentMessageDelta delta => AgentMessageDelta_text_delta delta
  | _ => ""
  end.

Definition delta_source (e : DiagnosticEvent) : option string :=
  match e with
  | DiagnosticEvent_AgentMessageDelta delta => AgentMessageDelta_source_message_id delta
  | _ => None
  end.

Definition message_completed (e : DiagnosticEvent) : option MessageCompletion :=
  match e with
  | DiagnosticEvent_AgentMessageCompleted completed => Some (MessageCompletion_from_event completed)
  | _ => None
  end.

(** The text of a message is the concatenation of its deltas. *)
Definition message_text (evs : list DiagnosticEvent) : string :=
  foldr (fun e text => delta_text e ++ text)%string "" evs.

(** The row of a message, from its events: position, run and scope of the first,
    position of the last, the first source that is named, the text of all, and
    the completion. *)
Definition message_row (id : RunLocalId) (evs : list DiagnosticEvent) : option ProjectedMessage :=
  first ← head evs;
  latest ← last evs;
  Some (mkProjectedMessage (event_run_id first) id (event_scope first)
          (event_sequence first) (event_elapsed first)
          (event_sequence latest) (event_elapsed latest)
          (head (omap delta_source evs)) (message_text evs) (head (omap message_completed evs))).

Definition message_view (run_id : CanonicalUuid) (h : history) : MessageReadModel :=
  mkMessageReadModel MESSAGE_READ_MODEL_SCHEMA_VERSION run_id (list_len h) (through_elapsed h)
    (table message_of message_row h).

(** What the model asks of an event about a message: the scope of the first
    event of the message, no event after the completion, one source. *)
Definition message_admissible (h : history) (e : DiagnosticEvent) : Prop :=
  forall id, message_of e = Some id ->
    let evs := about message_of id h in
    (forall first, head evs = Some first -> event_scope first = event_scope e) /\
    (forall c, c ∈ evs -> message_completed c = None) /\
    (forall s s', head (omap delta_source evs) = Some s -> delta_source e = Some s' -> s = s').

(** ** Lemmas *)

Lemma message_position run_id h e :
  check_exact (next_event run_id h e) (validate_position (message_view run_id h) e).
Proof.
  unfold check_exact, validate_position, next_event.
  cbn [MessageReadModel_run_id MessageReadModel_through_sequence message_view]. solve_position h e.
Qed.

Lemma message_row_some id evs : evs <> [] -> exists r, message_row id evs = Some r /\
  ProjectedMessage_message_id r = id.
Proof.
  intros Hne. unfold message_row. destruct evs as [|e evs]; [done|]. cbn [head mbind option_bind].
  destruct (last (e :: evs)) eqn:El; [eauto|]. by apply last_None in El.
Qed.

Lemma message_rows_ok h : rows_ok message_of message_row ProjectedMessage_message_id h.
Proof. intros id Hid. apply message_row_some. by apply about_nonempty. Qed.

Lemma append_empty_r s : (s ++ "" = s)%string.
Proof. induction s as [|c s IH]; [done|]. exact (f_equal (String c) IH). Qed.

Lemma append_assoc_r s t u : ((s ++ t) ++ u = s ++ (t ++ u))%string.
Proof. induction s as [|c s IH]; [done|]. exact (f_equal (String c) IH). Qed.

Lemma message_text_app l k : message_text (l ++ k) = (message_text l ++ message_text k)%string.
Proof.
  unfold message_text. induction l as [|e l IH]; cbn; [done|]. by rewrite IH, append_assoc_r.
Qed.

Lemma head_app_some {A} (l k : list A) x : head l = Some x -> head (l ++ k) = Some x.
Proof. by destruct l. Qed.

Lemma message_completed_none evs :
  head (omap message_completed evs) = None <-> forall c, c ∈ evs -> message_completed c = None.
Proof.
  destruct (omap message_completed evs) as [|c l] eqn:E; cbn; split; try done.
  - intros _ c Hc. destruct (message_completed c) as [x|] eqn:Ec; [|done].
    assert (x ∈ omap message_completed evs) by (apply list_elem_of_omap; eauto).
    rewrite E in *. by apply not_elem_of_nil in H.
  - intros Hall. assert (c ∈ omap message_completed evs) as (e & He & Hc)%list_elem_of_omap
      by (rewrite E; apply list_elem_of_here). rewrite Hall in Hc; done.
Qed.

Lemma head_omap_snoc {A B} (f : A -> option B) (l : list A) x :
  head (omap f (l ++ [x])) = match head (omap f l) with Some y => Some y | None => f x end.
Proof. rewrite omap_app. destruct (omap f l); cbn; [by destruct (f x)|done]. Qed.

Lemma message_row_one id e :
  message_row id [e] =
  Some (mkProjectedMessage (event_run_id e) id (event_scope e) (event_sequence e) (event_elapsed e)
          (event_sequence e) (event_elapsed e) (delta_source e) (delta_text e) (message_completed e)).
Proof.
  change [e] with ([] ++ [e]) at 1. unfold message_row.
  rewrite last_snoc. cbn [app head mbind option_bind]. change [e] with ([] ++ [e]).
  rewrite (head_omap_snoc delta_source [] e), (head_omap_snoc message_completed [] e).
  do 2 f_equal. apply append_empty_r.
Qed.

(** The row of a message after one more event, by the fields it changes. *)
Lemma message_row_snoc id evs r e :
  message_row id evs = Some r ->
  message_row id (evs ++ [e]) =
  Some (mkProjectedMessage (ProjectedMessage_run_id r) id (ProjectedMessage_scope r)
          (ProjectedMessage_first_sequence r) (ProjectedMessage_first_elapsed_ns r)
          (event_sequence e) (event_elapsed e)
          (match ProjectedMessage_source_message_id r with
           | Some s => Some s
           | None => delta_source e
           end)
          (ProjectedMessage_text r ++ delta_text e)
          (match ProjectedMessage_completion r with
           | Some c => Some c
           | None => message_completed e
           end)).
Proof.
  unfold message_row. destruct (head evs) as [x|] eqn:Eh; [|done]. cbn [mbind option_bind].
  destruct (last evs) as [y|] eqn:El; [|done]. cbn [mbind option_bind]. intros [= <-].
  rewrite last_snoc, (head_app_some _ _ x), !head_omap_snoc, message_text_app by done.
  cbn. by rewrite append_empty_r.
Qed.

Section Step.
Context (h : history) (e : DiagnosticEvent) (id : RunLocalId) (Hid : message_of e = Some id).

(** A row, read back from the history. *)
Lemma message_row_fields r :
  message_row id (about message_of id h) = Some r ->
  ProjectedMessage_source_message_id r = head (omap delta_source (about message_of id h)) /\
  ProjectedMessage_completion r = head (omap message_completed (about message_of id h)) /\
  exists first, head (about message_of id h) = Some first /\
    ProjectedMessage_scope r = event_scope first.
Proof.
  unfold message_row. destruct (head (about message_of id h)) as [x|] eqn:Eh; [|done].
  cbn [mbind option_bind]. destruct (last _) as [y|]; [|done]. cbn [mbind option_bind]. intros [= <-].
  split_and!; [done..|]. by exists x.
Qed.

(** The admissibility of an event, on the row of its message. *)
Lemma message_admissible_row r :
  message_row id (about message_of id h) = Some r ->
  message_admissible h e <->
  ProjectedMessage_scope r = event_scope e /\ ProjectedMessage_completion r = None /\
  (forall s s', ProjectedMessage_source_message_id r = Some s -> delta_source e = Some s' -> s = s').
Proof.
  intros (-> & -> & first & Hf & ->)%message_row_fields. unfold message_admissible.
  rewrite message_completed_none. split.
  - intros Ha. destruct (Ha id Hid) as (Hs & Hc & Hsrc). split_and!; auto.
  - intros (Hs & Hc & Hsrc) id' Hid'. assert (id' = id) as -> by congruence. cbn.
    split_and!; [|done|done]. intros first' Hf'. congruence.
Qed.

Lemma message_admissible_new : id ∉ omap message_of h -> message_admissible h e.
Proof.
  intros Hn id' Hid'. assert (id' = id) as -> by congruence.
  rewrite (about_fresh message_of id h Hn).
  split_and!; [done|by intros c ?%not_elem_of_nil|done].
Qed.
End Step.

Lemma apply_delta_spec h delta :
  let e := DiagnosticEvent_AgentMessageDelta delta in
  (message_admissible h e /\
   apply_delta (table message_of message_row h) delta = Ok (table message_of message_row (h ++ [e]))) \/
  (~ message_admissible h e /\ exists err, apply_delta (table message_of message_row h) delta = Err err).
Proof.
  intros e. set (id := AgentMessageDelta_message_id delta).
  assert (Hid : message_of e = Some id) by done. unfold apply_delta. fold id.
  destruct (decide (id ∈ omap message_of h)) as [Hin|Hnew].
  2:{ left. split; [by eapply message_admissible_new|].
      rewrite (table_find_none message_of message_row) by (done || apply message_rows_ok).
      f_equal. symmetry. apply (table_push _ _ _ _ id); [done..|].
      by rewrite message_row_one. }
  destruct (table_find_some message_of message_row ProjectedMessage_message_id h e id (message_rows_ok h) Hin)
    as (r & put & Hrow & -> & Hput).
  pose proof (message_row_snoc id _ r e Hrow) as Hnext.
  rewrite (message_admissible_row h e id Hid r Hrow). unfold validate_scope_identity.
  change (DiagnosticEventHeader_scope (AgentMessageDelta_header delta)) with (event_scope e).
  case_bool_decide as Hs; cbn [result_bind]; [right; split; [tauto|eauto]|].
  case_bool_decide as Hc; [right; split; [|eauto]|].
  { intros (_ & Hno & _). rewrite Hno in Hc. by destruct Hc. }
  apply eq_None_not_Some in Hc. unfold merge_source.
  change (AgentMessageDelta_source_message_id delta) with (delta_source e).
  rewrite Hc in *. destruct (message_row_some id _ (about_nonempty message_of id h Hin)) as (r' & Hr' & Hrid).
  assert (r' = r) as -> by congruence.
  destruct (delta_source e) as [s'|] eqn:Es', (ProjectedMessage_source_message_id r) as [s|] eqn:Es;
    cbn [result_bind]; [case_bool_decide as Hss|..]; cbn [result_bind];
    try (left; split; [split_and!; [done..|congruence]|];
         f_equal; apply Hput; [done|]; rewrite Hnext, Hrid; cbn; congruence).
  - right. split; [|eauto]. intros (_ & _ & Hsrc). destruct Hss. by apply Hsrc.
Qed.

Lemma apply_completion_spec h completed :
  let e := DiagnosticEvent_AgentMessageCompleted completed in
  (message_admissible h e /\
   apply_completion (table message_of message_row h) completed =
   Ok (table message_of message_row (h ++ [e]))) \/
  (~ message_admissible h e /\
   exists err, apply_completion (table message_of message_row h) completed = Err err).
Proof.
  intros e. set (id := AgentMessageCompleted_message_id completed).
  assert (Hid : message_of e = Some id) by done. unfold apply_completion. fold id.
  destruct (decide (id ∈ omap message_of h)) as [Hin|Hnew].
  2:{ left. split; [by eapply message_admissible_new|].
      rewrite (table_find_none message_of message_row) by (done || apply message_rows_ok).
      f_equal. symmetry. apply (table_push _ _ _ _ id); [done..|]. by rewrite message_row_one. }
  destruct (table_find_some message_of message_row ProjectedMessage_message_id h e id (message_rows_ok h) Hin)
    as (r & put & Hrow & -> & Hput).
  pose proof (message_row_snoc id _ r e Hrow) as Hnext.
  rewrite (message_admissible_row h e id Hid r Hrow). unfold validate_scope_identity.
  change (DiagnosticEventHeader_scope (AgentMessageCompleted_header completed)) with (event_scope e).
  case_bool_decide as Hs; cbn [result_bind]; [right; split; [tauto|eauto]|].
  case_bool_decide as Hc; [right; split; [|eauto]|].
  { intros (_ & Hno & _). rewrite Hno in Hc. by destruct Hc. }
  apply eq_None_not_Some in Hc.
  destruct (message_row_some id _ (about_nonempty message_of id h Hin)) as (r' & Hr' & Hrid).
  assert (r' = r) as -> by congruence. rewrite Hc in *.
  left. split; [done|]. f_equal. apply Hput; [done|]. rewrite Hnext, Hrid. cbn.
  rewrite append_empty_r. by destruct (ProjectedMessage_source_message_id r).
Qed.

Lemma apply_messages_spec h e :
  (message_admissible h e /\
   apply_messages (table message_of message_row h) e = Ok (table message_of message_row (h ++ [e]))) \/
  (~ message_admissible h e /\ exists err, apply_messages (table message_of message_row h) e = Err err).
Proof.
  destruct (message_of e) as [id|] eqn:Hid.
  - destruct e; try done; [apply apply_delta_spec|apply apply_completion_spec].
  - left. split; [intros id ?; congruence|]. rewrite table_other by done. by destruct e.
Qed.

Lemma message_candidate_spec run_id h e :
  outcome (next_event run_id h e /\ message_admissible h e) (message_view run_id (h ++ [e]))
    (Some (candidate_for_event (message_view run_id h) e)).
Proof.
  unfold candidate_for_event, outcome.
  destruct (message_position run_id h e) as [[-> Hn]|[[err ->] Hno]]; cbn [result_bind].
  2:{ right. split; [tauto|eauto]. }
  cbn [MessageReadModel_messages message_view].
  destruct (apply_messages_spec h e) as [[Ha ->]|[Hno [err ->]]]; cbn [result_bind].
  - left. split; [done|]. unfold message_view. rewrite through_elapsed_snoc, list_len_app.
    destruct Hn as (_ & -> & _). done.
  - right. split; [tauto|eauto].
Qed.

#[export] Instance message_model_laws run_id :
  ReadModelLaws run_id (fun m e => Some (candidate_for_event m e)) (message_view run_id) untyped
    message_admissible.
Proof. apply candidate_model_laws. intros. apply message_candidate_spec. Qed.

#[export] Instance message_projector_laws run_id :
  ProjectorLaws run_id (fun p e => Some (MessageProjector_apply p e)) (message_view run_id) untyped
    message_admissible.
Proof. apply candidate_apply_laws. intros. apply message_candidate_spec. Qed.

(** ** Properties *)

(** The message projection of a stream succeeds exactly when the stream is
    numbered and well formed and no message changes its scope, names two
    sources or goes on after its completion; its model then has one row per
    message, in the order of their first events, whose text is the concatenation
    of the deltas of the message. *)
Theorem project_messages_correct run_id events m :
  project_messages run_id events = Some (Ok m) <->
  numbered run_id events /\ stream_ok events /\
  (forall h e t, events = h ++ e :: t -> message_admissible h e) /\ m = message_view run_id events.
Proof.
  unfold project_messages. rewrite (project_correct run_id _ (message_view run_id) untyped message_admissible)
    by apply Forall_untyped.
  rewrite recorded_iff. tauto.
Qed.
