(* ===== verification/Plans.v ===== *)
(** * The plan read model

    Models [troupe-diagnostics-runtime/src/store/projector/plans.rs]: the latest
    plan snapshot of every scope, and the rule that an act plans in one scope. *)

From S2P Require Import Prelude Wire Scalar Kinds Detail Event Validate ValidateSpec Projection Table.

Definition PLAN_READ_MODEL_SCHEMA_VERSION : Z := 1.

Record ProjectedPlan := mkProjectedPlan {
  ProjectedPlan_run_id : CanonicalUuid;
  ProjectedPlan_scope : DiagnosticScope;
  ProjectedPlan_sequence : Z;
  ProjectedPlan_elapsed_ns : Z;
  ProjectedPlan_entries : list PlanEntry;
  ProjectedPlan_truncated : bool;
  ProjectedPlan_caused_by : list CausalLink;
}.

#[export] Instance ProjectedPlan_eq_dec : EqDecision ProjectedPlan.
Proof. solve_decision. Defined.

Definition ProjectedPlan_from_event (event : AgentPlanSnapshot) : ProjectedPlan :=
  let h := AgentPlanSnapshot_header event in
  mkProjectedPlan (DiagnosticEventHeader_run_id h) (DiagnosticEventHeader_scope h)
    (DiagnosticEventHeader_sequence h) (DiagnosticEventHeader_elapsed_ns h)
    (AgentPlanSnapshot_entries event) (AgentPlanSnapshot_truncated event)
    (DiagnosticEventHeader_caused_by h).

Record PlanReadModel := mkPlanReadModel {
  PlanReadModel_model_schema_version : Z;
  PlanReadModel_run_id : CanonicalUuid;
  PlanReadModel_through_sequence : Z;
  PlanReadModel_through_elapsed_ns : Z;
  PlanReadModel_plans : list ProjectedPlan;
}.

#[export] Instance PlanReadModel_eq_dec : EqDecision PlanReadModel.
Proof. solve_decision. Defined.

Definition PlanReadModel_empty (run_id : CanonicalUuid) : PlanReadModel :=
  mkPlanReadModel PLAN_READ_MODEL_SCHEMA_VERSION run_id 0 0 [].

Definition PlanReadModel_plan_for_scope (self : PlanReadModel) (scope : DiagnosticScope)
    : option ProjectedPlan :=
  find (fun plan => bool_decide (ProjectedPlan_scope plan = scope)) (PlanReadModel_plans self).

Definition PlanReadModel_plan_for_act (self : PlanReadModel) (act_id : RunLocalId)
    : option ProjectedPlan :=
  find (fun plan => bool_decide (DiagnosticScope_act_id (ProjectedPlan_scope plan) = Some act_id))
    (PlanReadModel_plans self).

Inductive PlanProjectionError :=
| PlanProjectionError_RunIdentityMismatch (expected actual : CanonicalUuid) (event_sequence : Z)
| PlanProjectionError_NonCanonicalSequence (expected actual : Z)
| PlanProjectionError_SequenceExhausted (event_sequence : Z)
| PlanProjectionError_InvalidReference (error : ReferenceValidationError)
| PlanProjectionError_ScopeMismatch (act_id : RunLocalId) (event_sequence : Z).

Definition PlanProjectionError_code (e : PlanProjectionError) : string :=
  match e with
  | PlanProjectionError_RunIdentityMismatch _ _ _ => "cross_run"
  | PlanProjectionError_NonCanonicalSequence _ _ => "noncanonical_sequence"
  | PlanProjectionError_SequenceExhausted _ => "sequence_exhausted"
  | PlanProjectionError_InvalidReference error => ReferenceValidationCode_as_str (rve_code error)
  | PlanProjectionError_ScopeMismatch _ _ => "scope_mismatch"
  end.

(** ** Projection *)

Definition validate_position (model : PlanReadModel) (event : DiagnosticEvent)
    : result unit PlanProjectionError :=
  if bool_decide (event_run_id event <> PlanReadModel_run_id model) then
    Err (PlanProjectionError_RunIdentityMismatch (PlanReadModel_run_id model) (event_run_id event)
           (event_sequence event))
  else
    match checked_add U64 (PlanReadModel_through_sequence model) 1 with
    | None => Err (PlanProjectionError_SequenceExhausted (event_sequence event))
    | Some expected =>
        if negb (event_sequence event =? expected) then
          Err (PlanProjectionError_NonCanonicalSequence expected (event_sequence event))
        else Ok tt
    end.

Definition validate_snapshot (plans : list ProjectedPlan) (event : AgentPlanSnapshot)
    : result unit PlanProjectionError :=
  let h := AgentPlanSnapshot_header event in
  match DiagnosticScope_act_id (DiagnosticEventHeader_scope h) with
  | Some act_id =>
      if existsb (fun plan =>
           bool_decide (DiagnosticScope_act_id (ProjectedPlan_scope plan) = Some act_id)
           && bool_decide (ProjectedPlan_scope plan <> DiagnosticEventHeader_scope h)) plans
      then Err (PlanProjectionError_ScopeMismatch act_id (DiagnosticEventHeader_sequence h))
      else Ok tt
  | None => Ok tt
  end.

Definition apply_snapshot (plans : list ProjectedPlan) (event : AgentPlanSnapshot)
    : list ProjectedPlan :=
  let scope := DiagnosticEventHeader_scope (AgentPlanSnapshot_header event) in
  match find_mut (fun plan => bool_decide (ProjectedPlan_scope plan = scope)) plans with
  | Some (_, put) => put (ProjectedPlan_from_event event)
  | None => plans ++ [ProjectedPlan_from_event event]
  end.

Definition candidate_for_event (model : PlanReadModel) (event : DiagnosticEvent)
    : result PlanReadModel PlanProjectionError :=
  let? _ := validate_position model event in
  let? plans :=
    match event with
    | DiagnosticEvent_AgentPlanSnapshot snapshot =>
        let? _ := validate_snapshot (PlanReadModel_plans model) snapshot in
        Ok (apply_snapshot (PlanReadModel_plans model) snapshot)
    | _ => Ok (PlanReadModel_plans model)
    end in
  Ok (mkPlanReadModel (PlanReadModel_model_schema_version model) (PlanReadModel_run_id model)
        (event_sequence event)
        (Z.max (PlanReadModel_through_elapsed_ns model) (event_elapsed event)) plans).

Definition PlanProjector_apply (self : Projector PlanReadModel) (event : DiagnosticEvent)
    : Projector PlanReadModel * result unit PlanProjectionError :=
  candidate_apply candidate_for_event PlanProjectionError_InvalidReference self event.

Definition project_plans (run_id : CanonicalUuid) (events : list DiagnosticEvent)
    : option (result PlanReadModel PlanProjectionError) :=
  project (fun p e => Some (PlanProjector_apply p e)) (PlanReadModel_empty run_id) events.

(** ** Specification *)

Definition plan_of (e : DiagnosticEvent) : option ProjectedPlan :=
  match e with
  | DiagnosticEvent_AgentPlanSnapshot snapshot => Some (ProjectedPlan_from_event snapshot)
  | _ => None
  end.

Definition plan_scope (e : DiagnosticEvent) : option DiagnosticScope :=
  ProjectedPlan_scope <$> plan_of e.

(** The row of a scope is its latest plan. *)
Definition plan_row (scope : DiagnosticScope) (evs : list DiagnosticEvent) : option ProjectedPlan :=
  last evs ≫= plan_of.

Definition plan_view (run_id : CanonicalUuid) (h : history) : PlanReadModel :=
  mkPlanReadModel PLAN_READ_MODEL_SCHEMA_VERSION run_id (list_len h) (through_elapsed h)
    (table plan_scope plan_row h).

(** The plans of an act share one scope. *)
Definition plan_admissible (h : history) (e : DiagnosticEvent) : Prop :=
  forall scope act_id, plan_scope e = Some scope -> DiagnosticScope_act_id scope = Some act_id ->
    forall e' scope', e' ∈ h -> plan_scope e' = Some scope' ->
      DiagnosticScope_act_id scope' = Some act_id -> scope' = scope.

(** ** Lemmas *)

Lemma plan_position run_id h e :
  check_exact (next_event run_id h e) (validate_position (plan_view run_id h) e).
Proof.
  unfold check_exact, validate_position, next_event.
  cbn [PlanReadModel_run_id PlanReadModel_through_sequence plan_view]. solve_position h e.
Qed.

Lemma plan_row_some scope evs :
  evs <> [] -> (forall e, e ∈ evs -> plan_scope e = Some scope) ->
  exists r, plan_row scope evs = Some r /\ ProjectedPlan_scope r = scope.
Proof.
  intros Hne Hall. unfold plan_row. destruct (last evs) as [e|] eqn:El.
  2:{ by apply last_None in El. }
  specialize (Hall e (last_Some_elem_of _ _ El)). unfold plan_scope in Hall. cbn.
  destruct (plan_of e) as [r|]; [|done]. injection Hall as <-. eauto.
Qed.

Lemma plan_rows_ok h : rows_ok plan_scope plan_row ProjectedPlan_scope h.
Proof.
  intros scope Hs. apply plan_row_some; [by apply about_nonempty|].
  by intros e [? _]%elem_of_about.
Qed.

Lemma plan_row_snoc scope evs e r : plan_of e = Some r -> plan_row scope (evs ++ [e]) = Some r.
Proof. intros He. unfold plan_row. by rewrite last_snoc. Qed.

Lemma plans_scopes h scope :
  (exists r, r ∈ table plan_scope plan_row h /\ ProjectedPlan_scope r = scope) <->
  exists e, e ∈ h /\ plan_scope e = Some scope.
Proof.
  setoid_rewrite elem_of_table. setoid_rewrite list_elem_of_omap. split.
  - intros (r & (k & (e & He & Hk) & Hr) & <-). exists e. split; [done|].
    destruct (plan_rows_ok h k) as (r' & Hr' & <-); [apply list_elem_of_omap; eauto|]. congruence.
  - intros (e & He & Hs). destruct (plan_rows_ok h scope) as (r & Hr & Hrs);
      [apply list_elem_of_omap; eauto|]. exists r. split; [|done]. exists scope. split; [by exists e|done].
Qed.

Lemma validate_snapshot_spec h snapshot :
  let e := DiagnosticEvent_AgentPlanSnapshot snapshot in
  (plan_admissible h e /\ validate_snapshot (table plan_scope plan_row h) snapshot = Ok tt) \/
  (~ plan_admissible h e /\
   exists err, validate_snapshot (table plan_scope plan_row h) snapshot = Err err).
Proof.
  intros e. unfold validate_snapshot.
  set (scope := DiagnosticEventHeader_scope (AgentPlanSnapshot_header snapshot)).
  assert (plan_scope e = Some scope) as He by done.
  destruct (DiagnosticScope_act_id scope) as [act|] eqn:Ea.
  2:{ left. split; [|done]. intros s a Hs Ha. assert (s = scope) as -> by congruence. congruence. }
  destruct (existsb _ _) eqn:Ex; [right; split; [|eauto]|left; split; [|done]].
  - apply existsb_exists in Ex as (r & Hr & [Hact Hne]%andb_prop).
    apply bool_decide_eq_true in Hact, Hne. apply list_elem_of_In in Hr. intros Ha.
    destruct (proj1 (plans_scopes h (ProjectedPlan_scope r))) as (e' & He' & Hs'); [eauto|].
    by specialize (Ha _ _ He Ea _ _ He' Hs' Hact).
  - intros s a Hs Ha e' s' He' Hs' Ha'. assert (s = scope) as -> by congruence.
    assert (a = act) as -> by congruence.
    destruct (proj2 (plans_scopes h s')) as (r & Hr & Hrs); [eauto|].
    destruct (decide (s' = scope)) as [|Hne]; [done|]. exfalso.
    apply not_true_iff_false in Ex. apply Ex. apply existsb_exists. exists r.
    split; [by apply list_elem_of_In|]. rewrite Hrs, andb_true_iff, !bool_decide_eq_true. done.
Qed.

Lemma apply_snapshot_spec h snapshot :
  apply_snapshot (table plan_scope plan_row h) snapshot =
  table plan_scope plan_row (h ++ [DiagnosticEvent_AgentPlanSnapshot snapshot]).
Proof.
  set (e := DiagnosticEvent_AgentPlanSnapshot snapshot). unfold apply_snapshot.
  set (scope := DiagnosticEventHeader_scope (AgentPlanSnapshot_header snapshot)).
  destruct (decide (scope ∈ omap plan_scope h)) as [Hin|Hnew].
  - destruct (table_find_some plan_scope plan_row ProjectedPlan_scope h e scope (plan_rows_ok h) Hin)
      as (r & put & Hrow & -> & Hput). apply Hput; [done|]. by apply plan_row_snoc.
  - rewrite (table_find_none plan_scope plan_row) by (done || apply plan_rows_ok).
    symmetry. by apply (table_push _ _ _ _ scope).
Qed.

Lemma plan_candidate_spec run_id h e :
  outcome (next_event run_id h e /\ plan_admissible h e) (plan_view run_id (h ++ [e]))
    (Some (candidate_for_event (plan_view run_id h) e)).
Proof.
  unfold candidate_for_event, outcome.
  destruct (plan_position run_id h e) as [[-> Hn]|[[err ->] Hno]]; cbn [result_bind].
  2:{ right. split; [tauto|eauto]. }
  assert (mkPlanReadModel PLAN_READ_MODEL_SCHEMA_VERSION run_id (event_sequence e)
            (Z.max (through_elapsed h) (event_elapsed e)) (table plan_scope plan_row (h ++ [e])) =
          plan_view run_id (h ++ [e])) as Hview.
  { unfold plan_view. rewrite through_elapsed_snoc, list_len_app. by destruct Hn as (_ & -> & _). }
  destruct (plan_of e) as [r|] eqn:Er.
  - destruct e as [| | | | | |snapshot| | | | | | | ]; try done. cbn [PlanReadModel_plans plan_view].
    destruct (validate_snapshot_spec h snapshot) as [[Ha ->]|[Hno [err ->]]]; cbn [result_bind].
    + left. split; [done|]. rewrite apply_snapshot_spec, <-Hview. done.
    + right. split; [tauto|eauto].
  - left. split; [split; [done|]|].
    + intros s a Hs. unfold plan_scope in Hs. by rewrite Er in Hs.
    + rewrite <-Hview, table_other by (unfold plan_scope; by rewrite Er). by destruct e.
Qed.

#[export] Instance plan_model_laws run_id :
  ReadModelLaws run_id (fun m e => Some (candidate_for_event m e)) (plan_view run_id) untyped plan_admissible.
Proof. apply candidate_model_laws. intros. apply plan_candidate_spec. Qed.

#[export] Instance plan_projector_laws run_id :
  ProjectorLaws run_id (fun p e => Some (PlanProjector_apply p e)) (plan_view run_id) untyped plan_admissible.
Proof. apply candidate_apply_laws. intros. apply plan_candidate_spec. Qed.

(** ** Properties *)

(** The plan projection of a stream succeeds exactly when the stream is numbered
    and well formed and the plans of every act share one scope; its model then
    holds the latest plan of every scope. *)
Theorem project_plans_correct run_id events m :
  project_plans run_id events = Some (Ok m) <->
  numbered run_id events /\ stream_ok events /\
  (forall h e t, events = h ++ e :: t -> plan_admissible h e) /\ m = plan_view run_id events.
Proof.
  unfold project_plans. rewrite (project_correct run_id _ (plan_view run_id) untyped plan_admissible)
    by apply Forall_untyped.
  rewrite recorded_iff. tauto.
Qed.
