(* ===== verification/Counters.v ===== *)
(** * The counter read model

    Models [troupe-diagnostics-runtime/src/store/projector/counters.rs]: the
    latest sample of every counter series, and the check of a stored model.  The
    key of a series is the JSON text of its identity; [serde_json::to_string] is
    the parameter [to_string] (its [expect] says that it cannot fail). *)

From S2P Require Import Prelude Wire Scalar Kinds Detail Event Validate ValidateSpec Projection Table.

Definition COUNTER_READ_MODEL_SCHEMA_VERSION : Z := 1.

Inductive CounterSeriesIdentity :=
| CounterSeriesIdentity_BuiltIn (scope : DiagnosticScope) (counter_kind : CounterKind)
| CounterSeriesIdentity_Custom (scope : DiagnosticScope) (name : string) (unit_ : option string)
    (dimensions : DiagnosticDimensions).

#[export] Instance CounterSeriesIdentity_eq_dec : EqDecision CounterSeriesIdentity.
Proof. solve_decision. Defined.

Inductive ProjectedCounterValue :=
| ProjectedCounterValue_Unsigned (value : Z)
| ProjectedCounterValue_Integer (value : CanonicalInteger)
| ProjectedCounterValue_Decimal (value : DecimalString).

#[export] Instance ProjectedCounterValue_eq_dec : EqDecision ProjectedCounterValue.
Proof. solve_decision. Defined.

Inductive CounterValueTag := CounterValueTag_Unsigned | CounterValueTag_Integer | CounterValueTag_Decimal.

#[export] Instance CounterValueTag_eq_dec : EqDecision CounterValueTag.
Proof. solve_decision. Defined.

Inductive CounterValueClass := CounterValueClass_Unsigned | CounterValueClass_CustomNumber.

Definition ProjectedCounterValue_tag (v : ProjectedCounterValue) : CounterValueTag :=
  match v with
  | ProjectedCounterValue_Unsigned _ => CounterValueTag_Unsigned
  | ProjectedCounterValue_Integer _ => CounterValueTag_Integer
  | ProjectedCounterValue_Decimal _ => CounterValueTag_Decimal
  end.

Definition CounterSeriesIdentity_value_class (i : CounterSeriesIdentity) : CounterValueClass :=
  match i with
  | CounterSeriesIdentity_BuiltIn _ _ => CounterValueClass_Unsigned
  | CounterSeriesIdentity_Custom _ _ _ _ => CounterValueClass_CustomNumber
  end.

Definition CounterSeriesIdentity_accepts_value (i : CounterSeriesIdentity)
    (v : ProjectedCounterValue) : bool :=
  match i, v with
  | CounterSeriesIdentity_BuiltIn _ _, ProjectedCounterValue_Unsigned _ => true
  | CounterSeriesIdentity_Custom _ _ _ _, ProjectedCounterValue_Integer _ => true
  | CounterSeriesIdentity_Custom _ _ _ _, ProjectedCounterValue_Decimal _ => true
  | _, _ => false
  end.

Record ProjectedCounter := mkProjectedCounter {
  ProjectedCounter_run_id : CanonicalUuid;
  ProjectedCounter_series_key : string;
  ProjectedCounter_identity : CounterSeriesIdentity;
  ProjectedCounter_sequence : Z;
  ProjectedCounter_elapsed_ns : Z;
  ProjectedCounter_value : ProjectedCounterValue;
  ProjectedCounter_caused_by : list CausalLink;
}.

#[export] Instance ProjectedCounter_eq_dec : EqDecision ProjectedCounter.
Proof. solve_decision. Defined.

Record CounterReadModel := mkCounterReadModel {
  CounterReadModel_model_schema_version : Z;
  CounterReadModel_run_id : CanonicalUuid;
  CounterReadModel_through_sequence : Z;
  CounterReadModel_through_elapsed_ns : Z;
  CounterReadModel_series : list ProjectedCounter;
}.

#[export] Instance CounterReadModel_eq_dec : EqDecision CounterReadModel.
Proof. solve_decision. Defined.

Definition CounterReadModel_empty (run_id : CanonicalUuid) : CounterReadModel :=
  mkCounterReadModel COUNTER_READ_MODEL_SCHEMA_VERSION run_id 0 0 [].

Definition CounterReadModel_sample (self : CounterReadModel) (identity : CounterSeriesIdentity)
    : option ProjectedCounter :=
  find (fun sample => bool_decide (ProjectedCounter_identity sample = identity))
    (CounterReadModel_series self).

Inductive CounterProjectionError :=
| CounterProjectionError_RunIdentityMismatch (expected actual : CanonicalUuid) (event_sequence : Z)
| CounterProjectionError_NonCanonicalSequence (expected actual : Z)
| CounterProjectionError_SequenceTie (event_sequence : Z)
| CounterProjectionError_SequenceExhausted (event_sequence : Z)
| CounterProjectionError_InvalidReference (error : ReferenceValidationError)
| CounterProjectionError_SeriesMismatch (series_key : string) (event_sequence : Z)
| CounterProjectionError_TagMismatch (series_key : string) (event_sequence : Z)
    (expected : CounterValueClass) (actual : CounterValueTag)
| CounterProjectionError_ModelSchemaMismatch (expected actual : Z) (event_sequence : Z).

Definition CounterProjectionError_code (e : CounterProjectionError) : string :=
  match e with
  | CounterProjectionError_RunIdentityMismatch _ _ _ => "cross_run"
  | CounterProjectionError_NonCanonicalSequence _ _ => "noncanonical_sequence"
  | CounterProjectionError_SequenceTie _ => "sequence_tie"
  | CounterProjectionError_SequenceExhausted _ => "sequence_exhausted"
  | CounterProjectionError_InvalidReference error => ReferenceValidationCode_as_str (rve_code error)
  | CounterProjectionError_SeriesMismatch _ _ => "series_mismatch"
  | CounterProjectionError_TagMismatch _ _ _ _ => "tag_mismatch"
  | CounterProjectionError_ModelSchemaMismatch _ _ _ => "counter_model_schema_mismatch"
  end.

Definition validate_position (model : CounterReadModel) (event : DiagnosticEvent)
    : result unit CounterProjectionError :=
  if bool_decide (event_run_id event <> CounterReadModel_run_id model) then
    Err (CounterProjectionError_RunIdentityMismatch (CounterReadModel_run_id model)
           (event_run_id event) (event_sequence event))
  else if (0 <? CounterReadModel_through_sequence model)
          && (event_sequence event =? CounterReadModel_through_sequence model) then
    Err (CounterProjectionError_SequenceTie (event_sequence event))
  else
    match checked_add U64 (CounterReadModel_through_sequence model) 1 with
    | None => Err (CounterProjectionError_SequenceExhausted (event_sequence event))
    | Some expected =>
        if negb (event_sequence event =? expected) then
          Err (CounterProjectionError_NonCanonicalSequence expected (event_sequence event))
        else Ok tt
    end.

Definition expected_class (tag : CounterValueTag) : CounterValueClass :=
  match tag with
  | CounterValueTag_Unsigned => CounterValueClass_Unsigned
  | CounterValueTag_Integer | CounterValueTag_Decimal => CounterValueClass_CustomNumber
  end.

Definition apply_sample (series : list ProjectedCounter) (sample : ProjectedCounter)
    : result (list ProjectedCounter) CounterProjectionError :=
  match find_mut (fun existing =>
          bool_decide (ProjectedCounter_series_key existing = ProjectedCounter_series_key sample))
          series with
  | None => Ok (series ++ [sample])
  | Some (existing, put) =>
      let tag := ProjectedCounterValue_tag (ProjectedCounter_value existing) in
      if bool_decide (ProjectedCounter_identity existing <> ProjectedCounter_identity sample) then
        Err (CounterProjectionError_SeriesMismatch (ProjectedCounter_series_key sample)
               (ProjectedCounter_sequence sample))
      else if bool_decide (tag <> ProjectedCounterValue_tag (ProjectedCounter_value sample)) then
        Err (CounterProjectionError_TagMismatch (ProjectedCounter_series_key sample)
               (ProjectedCounter_sequence sample) (expected_class tag)
               (ProjectedCounterValue_tag (ProjectedCounter_value sample)))
      else Ok (put sample)
  end.

Section Counters.
Context (to_string : CounterSeriesIdentity -> string).

Definition canonical_series_key (identity : CounterSeriesIdentity) : string := to_string identity.

Definition ProjectedCounter_built_in (event : CounterSampled) : ProjectedCounter :=
  let h := CounterSampled_header event in
  let identity :=
    CounterSeriesIdentity_BuiltIn (DiagnosticEventHeader_scope h) (CounterSampled_counter_kind event) in
  mkProjectedCounter (DiagnosticEventHeader_run_id h) (canonical_series_key identity) identity
    (DiagnosticEventHeader_sequence h) (DiagnosticEventHeader_elapsed_ns h)
    (ProjectedCounterValue_Unsigned (CounterSampled_value event)) (DiagnosticEventHeader_caused_by h).

Definition ProjectedCounter_custom (event : CustomCounterSampled) : ProjectedCounter :=
  let h := CustomCounterSampled_header event in
  let identity :=
    CounterSeriesIdentity_Custom (DiagnosticEventHeader_scope h) (CustomCounterSampled_name event)
      (CustomCounterSampled_unit event) (CustomCounterSampled_dimensions event) in
  let value :=
    match CustomCounterSampled_value event with
    | CustomNumber_Integer value => ProjectedCounterValue_Integer value
    | CustomNumber_Decimal value => ProjectedCounterValue_Decimal value
    end in
  mkProjectedCounter (DiagnosticEventHeader_run_id h) (canonical_series_key identity) identity
    (DiagnosticEventHeader_sequence h) (DiagnosticEventHeader_elapsed_ns h) value
    (DiagnosticEventHeader_caused_by h).

(** The loop of [CounterReadModel::validate]. *)
Fixpoint validate_series (self : CounterReadModel) (keys : gset string) (sequences : gset Z)
    (series : list ProjectedCounter) : result unit CounterProjectionError :=
  match series with
  | [] => Ok tt
  | sample :: series' =>
      let key := ProjectedCounter_series_key sample in
      let sequence := ProjectedCounter_sequence sample in
      if bool_decide (ProjectedCounter_run_id sample <> CounterReadModel_run_id self)
         || (sequence =? 0)
         || (CounterReadModel_through_sequence self <? sequence)
         || bool_decide (key <> canonical_series_key (ProjectedCounter_identity sample))
         || bool_decide (key ∈ keys) then
        Err (CounterProjectionError_SeriesMismatch key sequence)
      else if negb (CounterSeriesIdentity_accepts_value (ProjectedCounter_identity sample)
                      (ProjectedCounter_value sample)) then
        Err (CounterProjectionError_TagMismatch key sequence
               (CounterSeriesIdentity_value_class (ProjectedCounter_identity sample))
               (ProjectedCounterValue_tag (ProjectedCounter_value sample)))
      else if bool_decide (sequence ∈ sequences) then
        Err (CounterProjectionError_SequenceTie sequence)
      else validate_series self ({[key]} ∪ keys) ({[sequence]} ∪ sequences) series'
  end.

Definition CounterReadModel_validate (self : CounterReadModel) : result unit CounterProjectionError :=
  if negb (CounterReadModel_model_schema_version self =? COUNTER_READ_MODEL_SCHEMA_VERSION) then
    Err (CounterProjectionError_ModelSchemaMismatch COUNTER_READ_MODEL_SCHEMA_VERSION
           (CounterReadModel_model_schema_version self) (CounterReadModel_through_sequence self))
  else validate_series self ∅ ∅ (CounterReadModel_series self).

(** The sample an event carries. *)
Definition counter_of (event : DiagnosticEvent) : option ProjectedCounter :=
  match event with
  | DiagnosticEvent_CounterSampled event => Some (ProjectedCounter_built_in event)
  | DiagnosticEvent_CustomCounterSampled event => Some (ProjectedCounter_custom event)
  | _ => None
  end.

Definition candidate_for_event (model : CounterReadModel) (event : DiagnosticEvent)
    : result CounterReadModel CounterProjectionError :=
  let? _ := validate_position model event in
  let? _ := CounterReadModel_validate model in
  let? series :=
    match counter_of event with
    | Some sample => apply_sample (CounterReadModel_series model) sample
    | None => Ok (CounterReadModel_series model)
    end in
  Ok (mkCounterReadModel (CounterReadModel_model_schema_version model)
        (CounterReadModel_run_id model) (event_sequence event)
        (Z.max (CounterReadModel_through_elapsed_ns model) (event_elapsed event)) series).

Definition CounterProjector_apply (self : Projector CounterReadModel) (event : DiagnosticEvent)
    : Projector CounterReadModel * result unit CounterProjectionError :=
  candidate_apply candidate_for_event CounterProjectionError_InvalidReference self event.

Definition project_counters (run_id : CanonicalUuid) (events : list DiagnosticEvent)
    : option (result CounterReadModel CounterProjectionError) :=
  project (fun p e => Some (CounterProjector_apply p e)) (CounterReadModel_empty run_id) events.

(** ** Specification *)

Definition counter_key (e : DiagnosticEvent) : option string :=
  ProjectedCounter_series_key <$> counter_of e.

(** The row of a series is its latest sample. *)
Definition counter_row (key : string) (evs : list DiagnosticEvent) : option ProjectedCounter :=
  last evs ≫= counter_of.

Definition counter_view (run_id : CanonicalUuid) (h : history) : CounterReadModel :=
  mkCounterReadModel COUNTER_READ_MODEL_SCHEMA_VERSION run_id (list_len h) (through_elapsed h)
    (table counter_key counter_row h).

(** The samples under one key are of one series and of one type. *)
Definition counter_admissible (h : history) (e : DiagnosticEvent) : Prop :=
  forall sample e' sample', counter_of e = Some sample -> e' ∈ h -> counter_of e' = Some sample' ->
    ProjectedCounter_series_key sample' = ProjectedCounter_series_key sample ->
    ProjectedCounter_identity sample' = ProjectedCounter_identity sample /\
    ProjectedCounterValue_tag (ProjectedCounter_value sample') =
      ProjectedCounterValue_tag (ProjectedCounter_value sample).

(** ** Lemmas *)

Lemma counter_position run_id h e :
  check_exact (next_event run_id h e) (validate_position (counter_view run_id h) e).
Proof.
  unfold check_exact, validate_position, next_event.
  cbn [CounterReadModel_run_id CounterReadModel_through_sequence counter_view].
  destruct (_ && _) eqn:Ht; [|solve_position h e].
  apply andb_prop in Ht as [_ Ht%Z.eqb_eq].
  case_bool_decide; [right; split; [by eexists|tauto]|].
  right. split; [by eexists|]. intros (_ & ? & _). lia.
Qed.

Lemma counter_row_some key evs :
  evs <> [] -> (forall e, e ∈ evs -> counter_key e = Some key) ->
  exists r, counter_row key evs = Some r /\ ProjectedCounter_series_key r = key.
Proof.
  intros Hne Hall. unfold counter_row. destruct (last evs) as [e|] eqn:El.
  2:{ by apply last_None in El. }
  specialize (Hall e (last_Some_elem_of _ _ El)). unfold counter_key in Hall. cbn.
  destruct (counter_of e) as [r|]; [|done]. injection Hall as <-. eauto.
Qed.

Lemma counter_rows_ok h : rows_ok counter_key counter_row ProjectedCounter_series_key h.
Proof.
  intros key Hs. apply counter_row_some; [by apply about_nonempty|].
  by intros e [? _]%elem_of_about.
Qed.

Lemma counter_row_snoc key evs e r : counter_of e = Some r -> counter_row key (evs ++ [e]) = Some r.
Proof. intros He. unfold counter_row. by rewrite last_snoc. Qed.

(** A row is a sample of the history, and its key is right. *)
Lemma counter_row_event h r :
  r ∈ table counter_key counter_row h -> exists e, e ∈ h /\ counter_of e = Some r.
Proof.
  intros (key & Hk & Hr)%elem_of_table. unfold counter_row in Hr.
  destruct (last _) as [e|] eqn:El; [|done]. cbn in Hr.
  apply last_Some_elem_of, elem_of_about in El as [_ ?]. eauto.
Qed.

Lemma counter_of_event e r : counter_of e = Some r ->
  ProjectedCounter_run_id r = event_run_id e /\ ProjectedCounter_sequence r = event_sequence e /\
  ProjectedCounter_series_key r = canonical_series_key (ProjectedCounter_identity r) /\
  CounterSeriesIdentity_accepts_value (ProjectedCounter_identity r) (ProjectedCounter_value r) = true.
Proof.
  destruct e; try done; cbn; intros [= <-]; [done|].
  cbn. split_and!; try done. by destruct (CustomCounterSampled_value _).
Qed.

(** What a stored series must satisfy on its own. *)
Definition sample_ok (self : CounterReadModel) (r : ProjectedCounter) : Prop :=
  ProjectedCounter_run_id r = CounterReadModel_run_id self /\
  0 < ProjectedCounter_sequence r <= CounterReadModel_through_sequence self /\
  ProjectedCounter_series_key r = canonical_series_key (ProjectedCounter_identity r) /\
  CounterSeriesIdentity_accepts_value (ProjectedCounter_identity r) (ProjectedCounter_value r) = true.

Lemma validate_series_ok self series : forall keys sequences,
  (forall r, r ∈ series -> sample_ok self r /\ (ProjectedCounter_series_key r ∉ keys) /\
     (ProjectedCounter_sequence r ∉ sequences)) ->
  NoDup (ProjectedCounter_series_key <$> series) -> NoDup (ProjectedCounter_sequence <$> series) ->
  validate_series self keys sequences series = Ok tt.
Proof.
  induction series as [|r series IH]; intros keys sequences Hall Hk Hs; [done|].
  apply NoDup_cons in Hk as [Hk1 Hk]. apply NoDup_cons in Hs as [Hs1 Hs].
  destruct (Hall r (list_elem_of_here _ _)) as ((Hrun & Hseq & Hkey & Hval) & Hnk & Hns).
  cbn [validate_series]. rewrite (bool_decide_eq_false_2 (_ <> CounterReadModel_run_id self)) by tauto.
  assert ((ProjectedCounter_sequence r =? 0) = false) as -> by lia.
  assert ((CounterReadModel_through_sequence self <? ProjectedCounter_sequence r) = false) as -> by lia.
  rewrite (bool_decide_eq_false_2 (_ <> canonical_series_key _)) by tauto.
  rewrite !bool_decide_eq_false_2, Hval by done. cbn. apply IH; [|done..].
  intros r' Hr'. destruct (Hall r') as (? & ? & ?); [by apply list_elem_of_further|].
  split; [done|]. rewrite !elem_of_union, !elem_of_singleton.
  split; (intros [Heq|?]; [|done]); [apply Hk1|apply Hs1]; apply list_elem_of_fmap; eauto.
Qed.

Lemma counter_sequences_nodup run_id h : recorded run_id counter_admissible h ->
  NoDup (ProjectedCounter_sequence <$> table counter_key counter_row h).
Proof.
  intros Hr. pose proof (table_keys_rows _ _ _ _ (counter_rows_ok h)) as Hkeys.
  pose proof (first_occurrences_nodup (omap counter_key h)) as Hnd.
  change (first_occurrences (omap counter_key h)) with (table_keys counter_key h) in Hnd.
  rewrite <-Hkeys in Hnd. destruct (models_recorded _ _ _ Hr) as [rv M].
  assert (forall r r', r ∈ table counter_key counter_row h -> r' ∈ table counter_key counter_row h ->
            ProjectedCounter_sequence r = ProjectedCounter_sequence r' ->
            ProjectedCounter_series_key r = ProjectedCounter_series_key r') as Hinj.
  { intros r r' (e & He & Hc)%counter_row_event (e' & He' & Hc')%counter_row_event Heq.
    destruct (counter_of_event _ _ Hc) as (_ & Hs & _), (counter_of_event _ _ Hc') as (_ & Hs' & _).
    assert (e = e') as -> by (apply (same_sequence rv h M); congruence). congruence. }
  clear Hkeys. induction (table counter_key counter_row h) as [|r l IH]; [constructor|].
  apply NoDup_cons in Hnd as [Hr1 Hnd]. cbn. apply NoDup_cons. split.
  - intros (r' & Heq & Hr')%list_elem_of_fmap. apply Hr1. apply list_elem_of_fmap. exists r'.
    split; [|done]. apply Hinj; [apply list_elem_of_here|by apply list_elem_of_further|done].
  - apply IH; [done|]. intros x y Hx Hy. apply Hinj; by apply list_elem_of_further.
Qed.

(** The check of a stored model accepts every model that was projected. *)
Lemma counter_view_valid run_id h : recorded run_id counter_admissible h ->
  CounterReadModel_validate (counter_view run_id h) = Ok tt.
Proof.
  intros Hr. unfold CounterReadModel_validate.
  change (CounterReadModel_model_schema_version _ =? _) with true. cbn [negb].
  apply validate_series_ok; cbn [CounterReadModel_series counter_view].
  - intros r (e & He & Hc)%counter_row_event.
    destruct (counter_of_event _ _ Hc) as (Hrun & Hseq & Hkey & Hval).
    destruct (recorded_sequence _ _ _ _ Hr He) as [? ?].
    split; [|set_solver]. unfold sample_ok.
    cbn [CounterReadModel_run_id CounterReadModel_through_sequence counter_view].
    split_and!; [congruence|lia|lia|done|done].
  - rewrite (table_keys_rows _ _ _ _ (counter_rows_ok h)). apply first_occurrences_nodup.
  - by apply (counter_sequences_nodup run_id).
Qed.

(** In a recorded history the samples of a key are of one series and one type. *)
Lemma counter_samples_agree run_id h e e' r r' :
  recorded run_id counter_admissible h -> e ∈ h -> e' ∈ h ->
  counter_of e = Some r -> counter_of e' = Some r' ->
  ProjectedCounter_series_key r = ProjectedCounter_series_key r' ->
  ProjectedCounter_identity r = ProjectedCounter_identity r' /\
  ProjectedCounterValue_tag (ProjectedCounter_value r) =
    ProjectedCounterValue_tag (ProjectedCounter_value r').
Proof.
  intros Hr He He' Hc Hc' Hk.
  apply list_elem_of_lookup in He as [i Hi]. apply list_elem_of_lookup in He' as [j Hj].
  assert (forall n x, h !! n = Some x -> counter_admissible (take n h) x) as Hadm.
  { intros n x Hn. apply recorded_iff in Hr as (_ & _ & HA). apply (HA _ _ (drop (S n) h)).
    by rewrite <-(take_drop_middle h n x Hn) at 1. }
  assert (forall n m x, (n < m)%nat -> h !! n = Some x -> x ∈ take m h) as Hin.
  { intros n m x Hlt Hn. apply list_elem_of_lookup. exists n. by rewrite lookup_take_lt. }
  destruct (lt_eq_lt_dec i j) as [[Hlt| ->]|Hlt].
  - by apply (Hadm j e' Hj r' e r Hc' (Hin _ _ _ Hlt Hi) Hc).
  - assert (e = e') as -> by congruence. by assert (r = r') as -> by congruence.
  - destruct (Hadm i e Hi r e' r' Hc (Hin _ _ _ Hlt Hj) Hc') as [? ?]; done.
Qed.

Lemma apply_sample_spec run_id h e sample :
  recorded run_id counter_admissible h -> counter_of e = Some sample ->
  (counter_admissible h e /\
   apply_sample (table counter_key counter_row h) sample =
   Ok (table counter_key counter_row (h ++ [e]))) \/
  (~ counter_admissible h e /\
   exists err, apply_sample (table counter_key counter_row h) sample = Err err).
Proof.
  intros Hr He. unfold apply_sample. set (key := ProjectedCounter_series_key sample).
  assert (counter_key e = Some key) as Hkey by (unfold counter_key; by rewrite He).
  destruct (decide (key ∈ omap counter_key h)) as [Hin|Hnew].
  2:{ left. rewrite (table_find_none counter_key counter_row) by (done || apply counter_rows_ok).
      split.
      - intros s e' s' Hs He' Hs' Hk. destruct Hnew. apply list_elem_of_omap. exists e'.
        split; [done|]. unfold counter_key. rewrite Hs'. cbn. rewrite Hk. f_equal. unfold key. congruence.
      - f_equal. symmetry. apply (table_push _ _ _ _ key); [done..|]. by apply (counter_row_snoc _ []). }
  destruct (table_find_some counter_key counter_row ProjectedCounter_series_key h e key (counter_rows_ok h) Hin)
    as (r & put & Hrow & -> & Hput).
  unfold counter_row in Hrow. destruct (last (about counter_key key h)) as [el|] eqn:El; [|done].
  cbn in Hrow. apply last_Some_elem_of, elem_of_about in El as [Hkl Hel].
  assert (ProjectedCounter_series_key r = key) as Hrk.
  { unfold counter_key in Hkl. rewrite Hrow in Hkl. by injection Hkl. }
  assert (counter_admissible h e <->
            ProjectedCounter_identity r = ProjectedCounter_identity sample /\
            ProjectedCounterValue_tag (ProjectedCounter_value r) =
              ProjectedCounterValue_tag (ProjectedCounter_value sample)) as ->.
  { split; [intros Ha; by apply (Ha sample el r)|]. intros [Hi Ht] s e' s' Hs He' Hs' Hk.
    assert (s = sample) as -> by congruence.
    destruct (counter_samples_agree run_id h e' el s' r) as [-> ->]; try done. by rewrite Hk, Hrk. }
  case_bool_decide as Hi; [right; split; [tauto|eauto]|].
  case_bool_decide as Ht; [right; split; [tauto|eauto]|].
  left. split; [done|]. f_equal. apply Hput; [done|]. by apply counter_row_snoc.
Qed.

Lemma counter_candidate_spec run_id h e :
  recorded run_id counter_admissible h ->
  outcome (next_event run_id h e /\ counter_admissible h e) (counter_view run_id (h ++ [e]))
    (Some (candidate_for_event (counter_view run_id h) e)).
Proof.
  intros Hr. unfold candidate_for_event, outcome.
  destruct (counter_position run_id h e) as [[-> Hn]|[[err ->] Hno]]; cbn [result_bind].
  2:{ right. split; [tauto|eauto]. }
  rewrite counter_view_valid by done. cbn [result_bind CounterReadModel_series counter_view].
  assert (mkCounterReadModel COUNTER_READ_MODEL_SCHEMA_VERSION run_id (event_sequence e)
            (Z.max (through_elapsed h) (event_elapsed e)) (table counter_key counter_row (h ++ [e])) =
          counter_view run_id (h ++ [e])) as Hview.
  { unfold counter_view. rewrite through_elapsed_snoc, list_len_app. by destruct Hn as (_ & -> & _). }
  destruct (counter_of e) as [sample|] eqn:Es.
  - destruct (apply_sample_spec run_id h e sample Hr Es) as [[Ha ->]|[Hno [err ->]]]; cbn [result_bind].
    + left. split; [done|]. by rewrite <-Hview.
    + right. split; [tauto|eauto].
  - left. split; [split; [done|]|].
    + intros s e' s' Hs. congruence.
    + cbn [result_bind]. rewrite <-Hview, table_other by (unfold counter_key; by rewrite Es). done.
Qed.

#[export] Instance counter_model_laws run_id :
  ReadModelLaws run_id (fun m e => Some (candidate_for_event m e)) (counter_view run_id) untyped
    counter_admissible.
Proof. apply candidate_model_laws. intros. by apply counter_candidate_spec. Qed.

#[export] Instance counter_projector_laws run_id :
  ProjectorLaws run_id (fun p e => Some (CounterProjector_apply p e)) (counter_view run_id) untyped
    counter_admissible.
Proof. apply candidate_apply_laws. intros. by apply counter_candidate_spec. Qed.

(** ** Properties *)

(** The counter projection of a stream succeeds exactly when the stream is
    numbered and well formed and the samples under one key are of one series and
    one type; its model then holds the latest sample of every series, in the
    order of their first samples, and passes the check of stored models. *)
Theorem project_counters_correct run_id events m :
  project_counters run_id events = Some (Ok m) <->
  numbered run_id events /\ stream_ok events /\
  (forall h e t, events = h ++ e :: t -> counter_admissible h e) /\
  m = counter_view run_id events /\ CounterReadModel_validate m = Ok tt.
Proof.
  unfold project_counters. rewrite (project_correct run_id _ (counter_view run_id) untyped counter_admissible)
    by apply Forall_untyped.
  pose proof (counter_view_valid run_id events) as Hvalid. rewrite recorded_iff in *. naive_solver.
Qed.
End Counters.
