(* ===== verification/Usage.v ===== *)
(** * The usage read model

    Models [troupe-diagnostics-runtime/src/store/projector/usage.rs]: the latest
    context sample of every scope, the final token usage of every act, and the
    aggregates over the run and over every scene and actor.  The big integers of
    [num_bigint] are behind the class [BigUint]. *)

From S2P Require Import Prelude Wire Scalar Kinds Detail Event Validate ValidateSpec Projection Table.

Definition USAGE_READ_MODEL_SCHEMA_VERSION : Z := 1.

(** [BigUint::from_str] and [to_str_radix(10)]; a [BigUint] is its value. *)
Class BigUint := {
  biguint_from_str : string -> option Z;
  biguint_to_str : Z -> string;
}.

Record ProjectedActUsage := mkProjectedActUsage {
  ProjectedActUsage_run_id : CanonicalUuid;
  ProjectedActUsage_act_id : RunLocalId;
  ProjectedActUsage_scope : DiagnosticScope;
  ProjectedActUsage_sequence : Z;
  ProjectedActUsage_elapsed_ns : Z;
  ProjectedActUsage_caused_by : list CausalLink;
  ProjectedActUsage_availability : UsageAvailability;
  ProjectedActUsage_source : option UsageSource;
  ProjectedActUsage_unavailable_reason : option UsageUnavailableReason;
  ProjectedActUsage_provider_total_tokens : option TokenCount;
  ProjectedActUsage_input_tokens : option TokenCount;
  ProjectedActUsage_output_tokens : option TokenCount;
  ProjectedActUsage_thought_tokens : option TokenCount;
  ProjectedActUsage_cached_read_tokens : option TokenCount;
  ProjectedActUsage_cached_write_tokens : option TokenCount;
}.

#[export] Instance ProjectedActUsage_eq_dec : EqDecision ProjectedActUsage.
Proof. solve_decision. Defined.

Definition ProjectedActUsage_from_event (event : ActTokenUsageFinalized) (act_id : RunLocalId)
    : ProjectedActUsage :=
  let h := ActTokenUsageFinalized_header event in
  mkProjectedActUsage (DiagnosticEventHeader_run_id h) act_id (DiagnosticEventHeader_scope h)
    (DiagnosticEventHeader_sequence h) (DiagnosticEventHeader_elapsed_ns h)
    (DiagnosticEventHeader_caused_by h)
    (ActTokenUsageFinalized_availability event) (ActTokenUsageFinalized_source event)
    (ActTokenUsageFinalized_unavailable_reason event)
    (ActTokenUsageFinalized_provider_total_tokens event)
    (ActTokenUsageFinalized_input_tokens event) (ActTokenUsageFinalized_output_tokens event)
    (ActTokenUsageFinalized_thought_tokens event)
    (ActTokenUsageFinalized_cached_read_tokens event)
    (ActTokenUsageFinalized_cached_write_tokens event).

Definition availability_is_valid (self : ProjectedActUsage) : bool :=
  let is_some (o : option TokenCount) := bool_decide (is_Some o) in
  let primary_complete :=
    is_some (ProjectedActUsage_provider_total_tokens self)
    && is_some (ProjectedActUsage_input_tokens self)
    && is_some (ProjectedActUsage_output_tokens self) in
  let any_value :=
    is_some (ProjectedActUsage_provider_total_tokens self)
    || is_some (ProjectedActUsage_input_tokens self)
    || is_some (ProjectedActUsage_output_tokens self)
    || is_some (ProjectedActUsage_thought_tokens self)
    || is_some (ProjectedActUsage_cached_read_tokens self)
    || is_some (ProjectedActUsage_cached_write_tokens self) in
  let acp := bool_decide (ProjectedActUsage_source self = Some UsageSource_AcpPromptResponseUsage) in
  let no_reason := bool_decide (ProjectedActUsage_unavailable_reason self = None) in
  match ProjectedActUsage_availability self with
  | UsageAvailability_Available => primary_complete && acp && no_reason
  | UsageAvailability_Partial => any_value && negb primary_complete && acp && no_reason
  | UsageAvailability_Unavailable =>
      negb any_value && bool_decide (ProjectedActUsage_source self = None) && negb no_reason
  end.

Record UsageFieldAggregate := mkUsageFieldAggregate {
  UsageFieldAggregate_known_sum : option TokenCount;
  UsageFieldAggregate_reported_acts : Z;
  UsageFieldAggregate_finalized_acts : Z;
}.

Definition UsageFieldAggregate_empty : UsageFieldAggregate := mkUsageFieldAggregate None 0 0.

#[export] Instance UsageFieldAggregate_eq_dec : EqDecision UsageFieldAggregate.
Proof. solve_decision. Defined.

Record UsageAggregate := mkUsageAggregate {
  UsageAggregate_finalized_acts : Z;
  UsageAggregate_reported_acts : Z;
  UsageAggregate_available_acts : Z;
  UsageAggregate_partial_acts : Z;
  UsageAggregate_unavailable_acts : Z;
  UsageAggregate_provider_total_tokens : UsageFieldAggregate;
  UsageAggregate_input_tokens : UsageFieldAggregate;
  UsageAggregate_output_tokens : UsageFieldAggregate;
  UsageAggregate_thought_tokens : UsageFieldAggregate;
  UsageAggregate_cached_read_tokens : UsageFieldAggregate;
  UsageAggregate_cached_write_tokens : UsageFieldAggregate;
}.

#[export] Instance UsageAggregate_eq_dec : EqDecision UsageAggregate.
Proof. solve_decision. Defined.

Definition UsageAggregate_empty : UsageAggregate :=
  mkUsageAggregate 0 0 0 0 0 UsageFieldAggregate_empty UsageFieldAggregate_empty
    UsageFieldAggregate_empty UsageFieldAggregate_empty UsageFieldAggregate_empty
    UsageFieldAggregate_empty.

Record ScopedUsageAggregate := mkScopedUsageAggregate {
  ScopedUsageAggregate_scope : DiagnosticScope;
  ScopedUsageAggregate_aggregate : UsageAggregate;
}.

#[export] Instance ScopedUsageAggregate_eq_dec : EqDecision ScopedUsageAggregate.
Proof. solve_decision. Defined.

Record UsageReadModel := mkUsageReadModel {
  UsageReadModel_model_schema_version : Z;
  UsageReadModel_run_id : CanonicalUuid;
  UsageReadModel_through_sequence : Z;
  UsageReadModel_through_elapsed_ns : Z;
  UsageReadModel_contexts : list ContextUsageSampled;
  UsageReadModel_usages : list ProjectedActUsage;
  UsageReadModel_aggregate : UsageAggregate;
  UsageReadModel_scoped_aggregates : list ScopedUsageAggregate;
}.

#[export] Instance UsageReadModel_eq_dec : EqDecision UsageReadModel.
Proof. solve_decision. Defined.

Definition UsageReadModel_empty (run_id : CanonicalUuid) : UsageReadModel :=
  mkUsageReadModel USAGE_READ_MODEL_SCHEMA_VERSION run_id 0 0 [] [] UsageAggregate_empty [].

Inductive UsageProjectionError :=
| UsageProjectionError_RunIdentityMismatch (expected actual : CanonicalUuid) (event_sequence : Z)
| UsageProjectionError_NonCanonicalSequence (expected actual : Z)
| UsageProjectionError_SequenceTie (event_sequence : Z)
| UsageProjectionError_SequenceExhausted (event_sequence : Z)
| UsageProjectionError_InvalidReference (error : ReferenceValidationError)
| UsageProjectionError_MissingActIdentity (event_sequence : Z)
| UsageProjectionError_DuplicateActUsage (act_id : RunLocalId) (first_sequence event_sequence : Z)
| UsageProjectionError_AvailabilityMismatch (act_id : RunLocalId) (event_sequence : Z)
| UsageProjectionError_UsageRecordMismatch (event_sequence : Z)
| UsageProjectionError_ContextRecordMismatch (event_sequence : Z)
| UsageProjectionError_AggregateMismatch (event_sequence : Z)
| UsageProjectionError_CountExhausted (event_sequence : Z)
| UsageProjectionError_InvalidTokenValue (event_sequence : Z)
| UsageProjectionError_ModelSchemaMismatch (expected actual : Z) (event_sequence : Z).

Definition UsageProjectionError_code (e : UsageProjectionError) : string :=
  match e with
  | UsageProjectionError_RunIdentityMismatch _ _ _ => "cross_run"
  | UsageProjectionError_NonCanonicalSequence _ _ => "noncanonical_sequence"
  | UsageProjectionError_SequenceTie _ => "sequence_tie"
  | UsageProjectionError_SequenceExhausted _ => "sequence_exhausted"
  | UsageProjectionError_InvalidReference error => ReferenceValidationCode_as_str (rve_code error)
  | UsageProjectionError_MissingActIdentity _ => "missing_act_identity"
  | UsageProjectionError_DuplicateActUsage _ _ _ => "duplicate_act_usage"
  | UsageProjectionError_AvailabilityMismatch _ _ => "usage_availability_mismatch"
  | UsageProjectionError_UsageRecordMismatch _ => "usage_record_mismatch"
  | UsageProjectionError_ContextRecordMismatch _ => "context_record_mismatch"
  | UsageProjectionError_AggregateMismatch _ => "usage_aggregate_mismatch"
  | UsageProjectionError_CountExhausted _ => "usage_count_exhausted"
  | UsageProjectionError_InvalidTokenValue _ => "usage_token_invalid"
  | UsageProjectionError_ModelSchemaMismatch _ _ _ => "usage_model_schema_mismatch"
  end.

(** ** Aggregates *)

Definition increment_count (value event_sequence : Z) : result Z UsageProjectionError :=
  ok_or (checked_add U64 value 1) (UsageProjectionError_CountExhausted event_sequence).

(** [context_scope_key]. *)
Definition ContextScopeKey : Type :=
  option string * option string * option string * option string * option string * option string
  * option Z.

Definition context_scope_key (scope : DiagnosticScope) : ContextScopeKey :=
  (RunLocalId_as_str <$> DiagnosticScope_scene_id scope,
   RunLocalId_as_str <$> DiagnosticScope_actor_id scope,
   RunLocalId_as_str <$> DiagnosticScope_cue_id scope,
   RunLocalId_as_str <$> DiagnosticScope_effect_id scope,
   RunLocalId_as_str <$> DiagnosticScope_act_id scope,
   RunLocalId_as_str <$> DiagnosticScope_tool_call_id scope,
   DiagnosticScope_session_generation scope).

Section Usage.
Context `{BigUint}.

Definition sum_token_counts (current : option TokenCount) (incoming : TokenCount)
    (event_sequence : Z) : result TokenCount UsageProjectionError :=
  let invalid := UsageProjectionError_InvalidTokenValue event_sequence in
  let? left :=
    match current with
    | Some value => ok_or (biguint_from_str (TokenCount_as_str value)) invalid
    | None => Ok 0
    end in
  let? right := ok_or (biguint_from_str (TokenCount_as_str incoming)) invalid in
  map_err (fun _ => invalid) (TokenCount_parse (biguint_to_str (left + right))).

Definition UsageFieldAggregate_record (self : UsageFieldAggregate) (value : option TokenCount)
    (event_sequence : Z) : result UsageFieldAggregate UsageProjectionError :=
  let? finalized := increment_count (UsageFieldAggregate_finalized_acts self) event_sequence in
  match value with
  | None =>
      Ok (mkUsageFieldAggregate (UsageFieldAggregate_known_sum self)
            (UsageFieldAggregate_reported_acts self) finalized)
  | Some value =>
      let? reported := increment_count (UsageFieldAggregate_reported_acts self) event_sequence in
      let? sum := sum_token_counts (UsageFieldAggregate_known_sum self) value event_sequence in
      Ok (mkUsageFieldAggregate (Some sum) reported finalized)
  end.

(** The counters of acts that [UsageAggregate::record] changes: reported,
    available, partial and unavailable. *)
Definition record_availability (self : UsageAggregate) (usage : ProjectedActUsage)
    : result (Z * Z * Z * Z) UsageProjectionError :=
  let sequence := ProjectedActUsage_sequence usage in
  let reported := UsageAggregate_reported_acts self in
  let available := UsageAggregate_available_acts self in
  let partial_ := UsageAggregate_partial_acts self in
  let unavailable := UsageAggregate_unavailable_acts self in
  match ProjectedActUsage_availability usage with
  | UsageAvailability_Available =>
      let? reported' := increment_count reported sequence in
      let? available' := increment_count available sequence in
      Ok (reported', available', partial_, unavailable)
  | UsageAvailability_Partial =>
      let? reported' := increment_count reported sequence in
      let? partial' := increment_count partial_ sequence in
      Ok (reported', available, partial', unavailable)
  | UsageAvailability_Unavailable =>
      let? unavailable' := increment_count unavailable sequence in
      Ok (reported, available, partial_, unavailable')
  end.

Definition UsageAggregate_record (self : UsageAggregate) (usage : ProjectedActUsage)
    : result UsageAggregate UsageProjectionError :=
  let sequence := ProjectedActUsage_sequence usage in
  let? finalized := increment_count (UsageAggregate_finalized_acts self) sequence in
  let? counts := record_availability self usage in
  let '(reported, available, partial_, unavailable) := counts in
  let? total := UsageFieldAggregate_record (UsageAggregate_provider_total_tokens self)
                  (ProjectedActUsage_provider_total_tokens usage) sequence in
  let? input := UsageFieldAggregate_record (UsageAggregate_input_tokens self)
                  (ProjectedActUsage_input_tokens usage) sequence in
  let? output := UsageFieldAggregate_record (UsageAggregate_output_tokens self)
                   (ProjectedActUsage_output_tokens usage) sequence in
  let? thought := UsageFieldAggregate_record (UsageAggregate_thought_tokens self)
                    (ProjectedActUsage_thought_tokens usage) sequence in
  let? cached_read := UsageFieldAggregate_record (UsageAggregate_cached_read_tokens self)
                        (ProjectedActUsage_cached_read_tokens usage) sequence in
  let? cached_write := UsageFieldAggregate_record (UsageAggregate_cached_write_tokens self)
                         (ProjectedActUsage_cached_write_tokens usage) sequence in
  Ok (mkUsageAggregate finalized reported available partial_ unavailable total input output thought
        cached_read cached_write).

Definition record_scoped_aggregate (aggregates : list ScopedUsageAggregate)
    (scope : DiagnosticScope) (usage : ProjectedActUsage)
    : result (list ScopedUsageAggregate) UsageProjectionError :=
  match find_mut (fun item => bool_decide (ScopedUsageAggregate_scope item = scope)) aggregates with
  | Some (existing, put) =>
      let? aggregate := UsageAggregate_record (ScopedUsageAggregate_aggregate existing) usage in
      Ok (put (mkScopedUsageAggregate (ScopedUsageAggregate_scope existing) aggregate))
  | None =>
      let? aggregate := UsageAggregate_record UsageAggregate_empty usage in
      Ok (aggregates ++ [mkScopedUsageAggregate scope aggregate])
  end.

Definition scene_scope (scene_id : RunLocalId) : DiagnosticScope :=
  mkDiagnosticScope (Some scene_id) None None None None None None.

Definition actor_scope (scene_id actor_id : RunLocalId) : DiagnosticScope :=
  mkDiagnosticScope (Some scene_id) (Some actor_id) None None None None None.

Definition record_scoped_aggregates (aggregates : list ScopedUsageAggregate)
    (usage : ProjectedActUsage) : result (list ScopedUsageAggregate) UsageProjectionError :=
  match DiagnosticScope_scene_id (ProjectedActUsage_scope usage) with
  | None => Ok aggregates
  | Some scene_id =>
      let? aggregates := record_scoped_aggregate aggregates (scene_scope scene_id) usage in
      match DiagnosticScope_actor_id (ProjectedActUsage_scope usage) with
      | None => Ok aggregates
      | Some actor_id => record_scoped_aggregate aggregates (actor_scope scene_id actor_id) usage
      end
  end.

(** The loop [for usage in usages { state.record(usage)?; }]. *)
Fixpoint record_all {S} (record : S -> ProjectedActUsage -> result S UsageProjectionError) (state : S)
    (usages : list ProjectedActUsage) : result S UsageProjectionError :=
  match usages with
  | [] => Ok state
  | usage :: usages' => let? state' := record state usage in record_all record state' usages'
  end.

Definition aggregate_records (usages : list ProjectedActUsage)
    : result UsageAggregate UsageProjectionError :=
  record_all UsageAggregate_record UsageAggregate_empty usages.

Definition aggregate_records_by_scope (usages : list ProjectedActUsage)
    : result (list ScopedUsageAggregate) UsageProjectionError :=
  record_all record_scoped_aggregates [] usages.

(** ** The check of a stored model *)

(** The loop over the contexts; the result is [materialized_sequences]. *)
Fixpoint validate_contexts (self : UsageReadModel) (scopes : gset ContextScopeKey)
    (sequences : gset Z) (previous : Z) (contexts : list ContextUsageSampled)
    : result (gset Z) UsageProjectionError :=
  match contexts with
  | [] => Ok sequences
  | context :: contexts' =>
      let h := ContextUsageSampled_header context in
      let sequence := DiagnosticEventHeader_sequence h in
      let key := context_scope_key (DiagnosticEventHeader_scope h) in
      if bool_decide (DiagnosticEventHeader_run_id h <> UsageReadModel_run_id self)
         || (sequence =? 0)
         || (UsageReadModel_through_sequence self <? sequence)
         || (UsageReadModel_through_elapsed_ns self <? DiagnosticEventHeader_elapsed_ns h)
         || (sequence <=? previous)
         || bool_decide (sequence ∈ sequences)
         || bool_decide (key ∈ scopes) then
        Err (UsageProjectionError_ContextRecordMismatch sequence)
      else validate_contexts self ({[key]} ∪ scopes) ({[sequence]} ∪ sequences) sequence contexts'
  end.

(** The loop over the usages. *)
Fixpoint validate_usages (self : UsageReadModel) (acts : gmap string Z) (sequences : gset Z)
    (previous : Z) (usages : list ProjectedActUsage) : result unit UsageProjectionError :=
  match usages with
  | [] => Ok tt
  | usage :: usages' =>
      let sequence := ProjectedActUsage_sequence usage in
      let act := RunLocalId_as_str (ProjectedActUsage_act_id usage) in
      if bool_decide (ProjectedActUsage_run_id usage <> UsageReadModel_run_id self)
         || (sequence =? 0)
         || (UsageReadModel_through_sequence self <? sequence)
         || (UsageReadModel_through_elapsed_ns self <? ProjectedActUsage_elapsed_ns usage)
         || bool_decide (DiagnosticScope_act_id (ProjectedActUsage_scope usage)
                         <> Some (ProjectedActUsage_act_id usage))
         || bool_decide (sequence ∈ sequences) then
        Err (UsageProjectionError_UsageRecordMismatch sequence)
      else if sequence <=? previous then
        Err (UsageProjectionError_UsageRecordMismatch sequence)
      else
        match acts !! act with
        | Some first_sequence =>
            Err (UsageProjectionError_DuplicateActUsage (ProjectedActUsage_act_id usage)
                   first_sequence sequence)
        | None =>
            if negb (availability_is_valid usage) then
              Err (UsageProjectionError_AvailabilityMismatch (ProjectedActUsage_act_id usage) sequence)
            else
              validate_usages self (<[act := sequence]> acts) ({[sequence]} ∪ sequences) sequence
                usages'
        end
  end.

Definition UsageReadModel_validate (self : UsageReadModel) : result unit UsageProjectionError :=
  if negb (UsageReadModel_model_schema_version self =? USAGE_READ_MODEL_SCHEMA_VERSION) then
    Err (UsageProjectionError_ModelSchemaMismatch USAGE_READ_MODEL_SCHEMA_VERSION
           (UsageReadModel_model_schema_version self) (UsageReadModel_through_sequence self))
  else
    let? sequences := validate_contexts self ∅ ∅ 0 (UsageReadModel_contexts self) in
    let? _ := validate_usages self ∅ sequences 0 (UsageReadModel_usages self) in
    let? expected := aggregate_records (UsageReadModel_usages self) in
    let? expected_scoped := aggregate_records_by_scope (UsageReadModel_usages self) in
    if bool_decide (UsageReadModel_aggregate self <> expected)
       || bool_decide (UsageReadModel_scoped_aggregates self <> expected_scoped) then
      Err (UsageProjectionError_AggregateMismatch (UsageReadModel_through_sequence self))
    else Ok tt.

Definition usages_within_scope (self : UsageReadModel) (scope : DiagnosticScope)
    : list ProjectedActUsage :=
  filter (fun usage => scope_contains scope (ProjectedActUsage_scope usage) = true)
    (UsageReadModel_usages self).

Definition aggregate_within_scope (self : UsageReadModel) (scope : DiagnosticScope)
    : result UsageAggregate UsageProjectionError :=
  let? _ := UsageReadModel_validate self in
  aggregate_records (usages_within_scope self scope).

Definition usage_for_act (self : UsageReadModel) (act_id : RunLocalId) : option ProjectedActUsage :=
  find (fun usage => bool_decide (ProjectedActUsage_act_id usage = act_id))
    (UsageReadModel_usages self).

(** ** Projection *)

Definition validate_position (model : UsageReadModel) (event : DiagnosticEvent)
    : result unit UsageProjectionError :=
  if bool_decide (event_run_id event <> UsageReadModel_run_id model) then
    Err (UsageProjectionError_RunIdentityMismatch (UsageReadModel_run_id model)
           (event_run_id event) (event_sequence event))
  else if (0 <? UsageReadModel_through_sequence model)
          && (event_sequence event =? UsageReadModel_through_sequence model) then
    Err (UsageProjectionError_SequenceTie (event_sequence event))
  else
    match checked_add U64 (UsageReadModel_through_sequence model) 1 with
    | None => Err (UsageProjectionError_SequenceExhausted (event_sequence event))
    | Some expected =>
        if negb (event_sequence event =? expected) then
          Err (UsageProjectionError_NonCanonicalSequence expected (event_sequence event))
        else Ok tt
    end.

(** The fields of the candidate but for its position. *)
Definition with_records (model : UsageReadModel) contexts usages aggregate scoped : UsageReadModel :=
  mkUsageReadModel (UsageReadModel_model_schema_version model) (UsageReadModel_run_id model)
    (UsageReadModel_through_sequence model) (UsageReadModel_through_elapsed_ns model)
    contexts usages aggregate scoped.

Definition apply_context (model : UsageReadModel) (context : ContextUsageSampled) : UsageReadModel :=
  let scope := DiagnosticEventHeader_scope (ContextUsageSampled_header context) in
  with_records model
    (filter (fun existing =>
       DiagnosticEventHeader_scope (ContextUsageSampled_header existing) <> scope)
       (UsageReadModel_contexts model) ++ [context])
    (UsageReadModel_usages model) (UsageReadModel_aggregate model)
    (UsageReadModel_scoped_aggregates model).

Definition apply_usage (model : UsageReadModel) (event : ActTokenUsageFinalized)
    : result UsageReadModel UsageProjectionError :=
  let h := ActTokenUsageFinalized_header event in
  let sequence := DiagnosticEventHeader_sequence h in
  match DiagnosticScope_act_id (DiagnosticEventHeader_scope h) with
  | None => Err (UsageProjectionError_MissingActIdentity sequence)
  | Some act_id =>
      match usage_for_act model act_id with
      | Some existing =>
          Err (UsageProjectionError_DuplicateActUsage act_id (ProjectedActUsage_sequence existing)
                 sequence)
      | None =>
          let projected := ProjectedActUsage_from_event event act_id in
          if negb (availability_is_valid projected) then
            Err (UsageProjectionError_AvailabilityMismatch act_id sequence)
          else
            let? aggregate := UsageAggregate_record (UsageReadModel_aggregate model) projected in
            let? scoped :=
              record_scoped_aggregates (UsageReadModel_scoped_aggregates model) projected in
            Ok (with_records model (UsageReadModel_contexts model)
                  (UsageReadModel_usages model ++ [projected]) aggregate scoped)
      end
  end.

Definition candidate_for_event (model : UsageReadModel) (event : DiagnosticEvent)
    : result UsageReadModel UsageProjectionError :=
  let? _ := validate_position model event in
  let? _ := UsageReadModel_validate model in
  let? candidate :=
    match event with
    | DiagnosticEvent_ContextUsageSampled context => Ok (apply_context model context)
    | DiagnosticEvent_ActTokenUsageFinalized event => apply_usage model event
    | _ => Ok model
    end in
  Ok (mkUsageReadModel (UsageReadModel_model_schema_version candidate)
        (UsageReadModel_run_id candidate) (event_sequence event)
        (Z.max (UsageReadModel_through_elapsed_ns candidate) (event_elapsed event))
        (UsageReadModel_contexts candidate) (UsageReadModel_usages candidate)
        (UsageReadModel_aggregate candidate) (UsageReadModel_scoped_aggregates candidate)).

Definition UsageProjector_apply (self : Projector UsageReadModel) (event : DiagnosticEvent)
    : Projector UsageReadModel * result unit UsageProjectionError :=
  candidate_apply candidate_for_event UsageProjectionError_InvalidReference self event.

Definition project_usage (run_id : CanonicalUuid) (events : list DiagnosticEvent)
    : option (result UsageReadModel UsageProjectionError) :=
  project (fun p e => Some (UsageProjector_apply p e)) (UsageReadModel_empty run_id) events.
End Usage.
