(* ===== verification/UsageSpec.v ===== *)
(** * Correctness of the usage read model

    The aggregates specified as counts and sums over the recorded usages, the
    check of stored models, and the projection.  [BigUintLaws] states the
    documented behaviour of [num_bigint] on the decimal text of naturals. *)

From S2P Require Import Prelude Wire Scalar Kinds Detail Event Validate ValidateSpec Projection Table Usage.

Class BigUintLaws `{BigUint} := {
  biguint_parse s : validate_canonical_nonnegative_integer s = Ok tt ->
    biguint_from_str s = Some (digits_value 0 (bytes s));
  biguint_print z : 0 <= z ->
    validate_canonical_nonnegative_integer (biguint_to_str z) = Ok tt /\
    digits_value 0 (bytes (biguint_to_str z)) = z;
}.

(** ** Specification *)

Definition token_value (t : TokenCount) : Z := digits_value 0 (bytes (TokenCount_as_str t)).

(** What [TokenCount::parse] guarantees. *)
Definition token_ok (t : TokenCount) : Prop :=
  validate_canonical_nonnegative_integer (TokenCount_as_str t) = Ok tt.

Definition token_sum (ts : list TokenCount) : Z := foldr (fun t z => token_value t + z) 0 ts.

Definition usage_tokens (u : ProjectedActUsage) : list (option TokenCount) :=
  [ProjectedActUsage_provider_total_tokens u; ProjectedActUsage_input_tokens u;
   ProjectedActUsage_output_tokens u; ProjectedActUsage_thought_tokens u;
   ProjectedActUsage_cached_read_tokens u; ProjectedActUsage_cached_write_tokens u].

Definition tokens_ok (u : ProjectedActUsage) : Prop :=
  forall t, Some t ∈ usage_tokens u -> token_ok t.

(** What a list of usages must satisfy to be aggregated. *)
Definition usages_ok (us : list ProjectedActUsage) : Prop :=
  Forall tokens_ok us /\ list_len us <= int_max U64.

Section View.
Context `{BigUint}.

(** The aggregate of one field: the acts that report it and the sum of what
    they report. *)
Definition field_view (field : ProjectedActUsage -> option TokenCount)
    (us : list ProjectedActUsage) : UsageFieldAggregate :=
  mkUsageFieldAggregate
    (match omap field us with
     | [] => None
     | ts => Some (mkTokenCount (biguint_to_str (token_sum ts)))
     end)
    (list_len (omap field us)) (list_len us).

Definition count_availability (p : UsageAvailability -> bool) (us : list ProjectedActUsage) : Z :=
  list_len (filter (fun u => p (ProjectedActUsage_availability u) = true) us).

Definition is_available (a : UsageAvailability) : bool :=
  match a with UsageAvailability_Available => true | _ => false end.
Definition is_partial (a : UsageAvailability) : bool :=
  match a with UsageAvailability_Partial => true | _ => false end.
Definition is_unavailable (a : UsageAvailability) : bool :=
  match a with UsageAvailability_Unavailable => true | _ => false end.

Definition aggregate_view (us : list ProjectedActUsage) : UsageAggregate :=
  mkUsageAggregate (list_len us)
    (count_availability (fun a => negb (is_unavailable a)) us)
    (count_availability is_available us) (count_availability is_partial us)
    (count_availability is_unavailable us)
    (field_view ProjectedActUsage_provider_total_tokens us)
    (field_view ProjectedActUsage_input_tokens us)
    (field_view ProjectedActUsage_output_tokens us)
    (field_view ProjectedActUsage_thought_tokens us)
    (field_view ProjectedActUsage_cached_read_tokens us)
    (field_view ProjectedActUsage_cached_write_tokens us).

(** The scopes a usage is aggregated under: its scene, and its actor in it. *)
Definition contributions (u : ProjectedActUsage) : list (DiagnosticScope * ProjectedActUsage) :=
  match DiagnosticScope_scene_id (ProjectedActUsage_scope u) with
  | None => []
  | Some scene_id =>
      (scene_scope scene_id, u) ::
      match DiagnosticScope_actor_id (ProjectedActUsage_scope u) with
      | None => []
      | Some actor_id => [(actor_scope scene_id actor_id, u)]
      end
  end.

Definition contribution_scope (x : DiagnosticScope * ProjectedActUsage) : option DiagnosticScope :=
  Some x.1.

Definition scoped_row (scope : DiagnosticScope) (l : list (DiagnosticScope * ProjectedActUsage))
    : option ScopedUsageAggregate :=
  Some (mkScopedUsageAggregate scope (aggregate_view l.*2)).

Definition scoped_view (us : list ProjectedActUsage) : list ScopedUsageAggregate :=
  table contribution_scope scoped_row (us ≫= contributions).

(** ** Aggregation *)

Context {LAWS : BigUintLaws}.

Lemma increment_count_ok v s : 0 <= v < int_max U64 -> increment_count v s = Ok (v + 1).
Proof.
  intros Hv. unfold increment_count, checked_add.
  rewrite checked_in_range; [done|]. change (int_min U64) with 0. lia.
Qed.

Lemma token_sum_nonneg ts : Forall token_ok ts -> 0 <= token_sum ts.
Proof.
  induction 1 as [|t ts Ht _ IH]; [done|].
  change (token_sum (t :: ts)) with (token_value t + token_sum ts). apply validate_canonical_spec in Ht as [Ht _].
  unfold token_value. pose proof (digits_value_bounds (bytes (TokenCount_as_str t)) Ht). lia.
Qed.

Lemma token_sum_app l k : token_sum (l ++ k) = token_sum l + token_sum k.
Proof. unfold token_sum. induction l as [|t l IH]; cbn; [done|]. rewrite IH. lia. Qed.

Lemma list_len_omap {A B} (f : A -> option B) (l : list A) : list_len (omap f l) <= list_len l.
Proof.
  induction l as [|x l IH]; [done|]. cbn. destruct (f x); rewrite !list_len_cons; lia.
Qed.

Lemma list_len_filter {A} (P : A -> Prop) `{!forall x, Decision (P x)} (l : list A) :
  list_len (filter P l) <= list_len l.
Proof. unfold list_len. pose proof (length_filter P l). lia. Qed.

(** Fields of a usage are among its tokens. *)
Definition usage_field (field : ProjectedActUsage -> option TokenCount) : Prop :=
  forall u t, field u = Some t -> tokens_ok u -> token_ok t.

Lemma usage_field_omap field us : usage_field field -> Forall tokens_ok us ->
  Forall token_ok (omap field us).
Proof.
  intros Hf Hus. apply Forall_forall. intros t (u & Hu & Ht)%list_elem_of_omap.
  apply (Hf u t Ht). by apply (Forall_forall tokens_ok us).
Qed.

Lemma field_record field us u s : usage_field field -> usages_ok (us ++ [u]) ->
  UsageFieldAggregate_record (field_view field us) (field u) s = Ok (field_view field (us ++ [u])).
Proof.
  intros Hf [Hok Hlen]. apply Forall_app in Hok as [Hus [Hu _]%Forall_cons].
  rewrite list_len_app in Hlen. change (list_len [u]) with 1 in Hlen.
  pose proof (list_len_nonneg us). pose proof (list_len_nonneg (omap field us)).
  pose proof (list_len_omap field us). unfold UsageFieldAggregate_record.
  cbn [UsageFieldAggregate_finalized_acts UsageFieldAggregate_reported_acts field_view
       UsageFieldAggregate_known_sum].
  rewrite increment_count_ok by lia. cbn [result_bind]. unfold field_view.
  rewrite omap_app, !list_len_app. change (list_len [u]) with 1.
  cbn [omap list_omap]. destruct (field u) as [t|] eqn:Eu.
  2:{ rewrite app_nil_r. change (list_len []) with 0. by rewrite Z.add_0_r. }
  rewrite increment_count_ok by lia. cbn [result_bind]. change (list_len [t]) with 1.
  pose proof (Hf u t Eu Hu) as Ht.
  pose proof (token_sum_nonneg (omap field us) (usage_field_omap _ _ Hf Hus)) as Hs.
  pose proof (token_sum_nonneg [t] (Forall_cons_2 _ _ _ Ht (Forall_nil_2 _))) as Hst.
  assert (sum_token_counts
            (match omap field us with [] => None | ts => Some (mkTokenCount (biguint_to_str (token_sum ts))) end)
            t s = Ok (mkTokenCount (biguint_to_str (token_sum (omap field us ++ [t]))))) as ->.
  { unfold sum_token_counts. rewrite (biguint_parse (TokenCount_as_str t)) by done.
    fold (token_value t). rewrite token_sum_app. cbn [token_sum foldr] in *. rewrite Z.add_0_r in *.
    assert (forall z, 0 <= z -> TokenCount_parse (biguint_to_str z) = Ok (mkTokenCount (biguint_to_str z))) as Hp.
    { intros z Hz. unfold TokenCount_parse. by rewrite (proj1 (biguint_print z Hz)). }
    destruct (omap field us) as [|t0 ts]; cbn [result_bind ok_or TokenCount_as_str].
    - by rewrite Hp by lia.
    - destruct (biguint_print _ Hs) as [Hc Hv]. rewrite (biguint_parse _ Hc), Hv.
      cbn [result_bind ok_or]. by rewrite Hp by lia. }
  cbn [result_bind]. by destruct (omap field us).
Qed.

Lemma count_snoc p us u :
  count_availability p (us ++ [u]) =
  count_availability p us + (if p (ProjectedActUsage_availability u) then 1 else 0).
Proof.
  unfold count_availability. rewrite filter_app, list_len_app, filter_cons, filter_nil.
  case_decide as Hp; [by rewrite Hp|]. by destruct (p _).
Qed.

Lemma count_bounds p us : 0 <= count_availability p us <= list_len us.
Proof. split; [apply list_len_nonneg|apply list_len_filter]. Qed.

Lemma aggregate_record us u : usages_ok (us ++ [u]) ->
  UsageAggregate_record (aggregate_view us) u = Ok (aggregate_view (us ++ [u])).
Proof.
  intros Hok. pose proof Hok as [_ Hlen]. rewrite list_len_app in Hlen.
  change (list_len [u]) with 1 in Hlen. pose proof (list_len_nonneg us).
  unfold UsageAggregate_record.
  change (UsageAggregate_finalized_acts (aggregate_view us)) with (list_len us).
  rewrite increment_count_ok by lia. cbn [result_bind].
  assert (forall p, increment_count (count_availability p us) (ProjectedActUsage_sequence u) =
            Ok (count_availability p us + 1)) as Hinc.
  { intros p. apply increment_count_ok. pose proof (count_bounds p us). lia. }
  assert (record_availability (aggregate_view us) u =
          Ok (count_availability (fun a => negb (is_unavailable a)) (us ++ [u]),
              count_availability is_available (us ++ [u]), count_availability is_partial (us ++ [u]),
              count_availability is_unavailable (us ++ [u]))) as Hrec.
  { unfold record_availability. cbn [aggregate_view UsageAggregate_reported_acts
      UsageAggregate_available_acts UsageAggregate_partial_acts UsageAggregate_unavailable_acts].
    rewrite !count_snoc, !Hinc. cbn [result_bind].
    destruct (ProjectedActUsage_availability u); cbn; by rewrite ?Z.add_0_r. }
  rewrite Hrec. cbn [result_bind aggregate_view UsageAggregate_provider_total_tokens UsageAggregate_input_tokens UsageAggregate_output_tokens
       UsageAggregate_thought_tokens UsageAggregate_cached_read_tokens UsageAggregate_cached_write_tokens].
  rewrite (field_record ProjectedActUsage_provider_total_tokens), (field_record ProjectedActUsage_input_tokens),
    (field_record ProjectedActUsage_output_tokens), (field_record ProjectedActUsage_thought_tokens),
    (field_record ProjectedActUsage_cached_read_tokens), (field_record ProjectedActUsage_cached_write_tokens);
    try done; try (intros v t Hv Hall; apply Hall; unfold usage_tokens; set_solver).
  cbn [result_bind]. unfold aggregate_view. rewrite list_len_app. done.
Qed.

Lemma record_all_from {S} (record : S -> ProjectedActUsage -> result S UsageProjectionError)
    (view : list ProjectedActUsage -> S) us : forall before,
  (forall us1 u us2, before ++ us = us1 ++ u :: us2 -> record (view us1) u = Ok (view (us1 ++ [u]))) ->
  record_all record (view before) us = Ok (view (before ++ us)).
Proof.
  induction us as [|u us IH]; intros before Hrec; cbn [record_all]; [by rewrite app_nil_r|].
  rewrite (Hrec before u us) by done. cbn [result_bind].
  rewrite (cons_middle u before us), (assoc_L (++)). apply IH.
  intros us1 v us2 Heq. apply (Hrec us1 v us2). by rewrite (cons_middle u before us), (assoc_L (++)).
Qed.

Lemma record_all_view {S} (record : S -> ProjectedActUsage -> result S UsageProjectionError)
    (view : list ProjectedActUsage -> S) us :
  (forall us1 u us2, us = us1 ++ u :: us2 -> record (view us1) u = Ok (view (us1 ++ [u]))) ->
  record_all record (view []) us = Ok (view us).
Proof. intros Hrec. by apply (record_all_from record view us []). Qed.

Lemma usages_ok_app us k : usages_ok (us ++ k) -> usages_ok us.
Proof.
  intros [[? _]%Forall_app Hl]. split; [done|]. rewrite list_len_app in Hl.
  pose proof (list_len_nonneg k). lia.
Qed.

Lemma usages_ok_split us us1 u us2 : usages_ok us -> us = us1 ++ u :: us2 -> usages_ok (us1 ++ [u]).
Proof. intros Hok ->. rewrite cons_middle, (assoc_L (++)) in Hok. by apply usages_ok_app in Hok. Qed.

Lemma aggregate_records_view us : usages_ok us -> aggregate_records us = Ok (aggregate_view us).
Proof.
  intros Hok. apply (record_all_view UsageAggregate_record aggregate_view).
  intros us1 u us2 Heq. apply aggregate_record. by eapply usages_ok_split.
Qed.
(** ** Aggregation by scope *)

Abbreviation contribution := (DiagnosticScope * ProjectedActUsage)%type.

Lemma scoped_rows_ok (l : list contribution) :
  rows_ok contribution_scope scoped_row ScopedUsageAggregate_scope l.
Proof. intros scope _. by eexists. Qed.

Lemma record_scoped_table (l : list contribution) scope u :
  usages_ok ((about contribution_scope scope l).*2 ++ [u]) ->
  record_scoped_aggregate (table contribution_scope scoped_row l) scope u =
  Ok (table contribution_scope scoped_row (l ++ [(scope, u)])).
Proof.
  intros Hok. unfold record_scoped_aggregate.
  destruct (decide (scope ∈ omap contribution_scope l)) as [Hin|Hnew].
  - destruct (table_find_some contribution_scope scoped_row ScopedUsageAggregate_scope l (scope, u)
                scope (scoped_rows_ok l) Hin) as (r & put & Hrow & -> & Hput).
    injection Hrow as <-. cbn [ScopedUsageAggregate_aggregate ScopedUsageAggregate_scope].
    rewrite aggregate_record by done. cbn [result_bind]. f_equal. apply Hput; [done|].
    unfold scoped_row. rewrite fmap_app. done.
  - rewrite (table_find_none contribution_scope scoped_row) by (done || apply scoped_rows_ok).
    rewrite about_fresh in Hok by done.
    change UsageAggregate_empty with (aggregate_view []).
    rewrite aggregate_record by done. cbn [result_bind]. f_equal. symmetry.
    by apply (table_push _ _ _ _ scope).
Qed.

(** A usage contributes at most once to a scope. *)
Lemma contributions_about us scope :
  (about contribution_scope scope (us ≫= contributions)).*2 =
  filter (fun u => scope ∈ (contributions u).*1) us.
Proof.
  induction us as [|u us IH]; [done|]. cbn [mbind list_bind]. unfold about in *.
  rewrite filter_app, fmap_app, IH, filter_cons.
  assert ((filter (fun x => contribution_scope x = Some scope) (contributions u)).*2 =
          if decide (scope ∈ (contributions u).*1) then [u] else []) as ->; [|by case_decide].
  unfold contributions. destruct (DiagnosticScope_scene_id _) as [scene|]; [|done].
  destruct (DiagnosticScope_actor_id _) as [actor|]; cbn [fmap list_fmap fst].
  - rewrite !filter_cons, filter_nil. unfold contribution_scope. cbn [fst].
    destruct (decide (scope = scene_scope scene)) as [->|Hs].
    + rewrite decide_True by done. rewrite decide_False by done. rewrite decide_True by set_solver. done.
    + rewrite decide_False by congruence. destruct (decide (scope = actor_scope scene actor)) as [->|Ha].
      * rewrite decide_True by done. rewrite decide_True by set_solver. done.
      * rewrite decide_False by congruence. rewrite decide_False by set_solver. done.
  - rewrite !filter_cons, filter_nil. unfold contribution_scope. cbn [fst].
    destruct (decide (scope = scene_scope scene)) as [->|Hs].
    + rewrite !decide_True by (done || set_solver). done.
    + rewrite decide_False by congruence. rewrite decide_False by set_solver. done.
Qed.

Lemma usages_ok_filter (P : ProjectedActUsage -> Prop) `{!forall u, Decision (P u)} us :
  usages_ok us -> usages_ok (filter P us).
Proof.
  intros [Hok Hl]. split.
  - apply Forall_forall. intros u [_ Hu]%list_elem_of_filter. by apply (Forall_forall tokens_ok us).
  - pose proof (list_len_filter P us). lia.
Qed.

Lemma scoped_ok us u scope : usages_ok (us ++ [u]) ->
  usages_ok ((about contribution_scope scope (us ≫= contributions)).*2 ++ [u]).
Proof.
  intros Hok. rewrite contributions_about. destruct Hok as [[Hus Hu]%Forall_app Hl].
  rewrite list_len_app in Hl. split.
  - apply Forall_app. split; [|done]. apply Forall_forall.
    intros v [_ Hv]%list_elem_of_filter. by apply (Forall_forall tokens_ok us).
  - rewrite list_len_app. pose proof (list_len_filter (fun u => scope ∈ (contributions u).*1) us). lia.
Qed.

Lemma scoped_record us u : usages_ok (us ++ [u]) ->
  record_scoped_aggregates (scoped_view us) u = Ok (scoped_view (us ++ [u])).
Proof.
  intros Hok. unfold record_scoped_aggregates, scoped_view. rewrite bind_app. cbn [mbind list_bind].
  rewrite app_nil_r. set (before := us ≫= contributions). unfold contributions.
  destruct (DiagnosticScope_scene_id _) as [scene|] eqn:Es; [|by rewrite app_nil_r].
  rewrite record_scoped_table by (by apply scoped_ok). cbn [result_bind].
  destruct (DiagnosticScope_actor_id _) as [actor|] eqn:Ea; [|done].
  rewrite record_scoped_table.
  - by rewrite <-(assoc_L (++)).
  - rewrite about_other by (unfold contribution_scope, scene_scope, actor_scope; cbn; congruence).
    by apply scoped_ok.
Qed.

Lemma aggregate_records_by_scope_view us : usages_ok us ->
  aggregate_records_by_scope us = Ok (scoped_view us).
Proof.
  intros Hok. apply (record_all_view record_scoped_aggregates scoped_view).
  intros us1 u us2 Heq. apply scoped_record. by eapply usages_ok_split.
Qed.

(** The scopes of the aggregates contain exactly the usages that contribute. *)
Lemma contributes_contained u scope us :
  u ∈ us -> scope ∈ omap contribution_scope (us ≫= contributions) ->
  (scope ∈ (contributions u).*1 <-> scope_contains scope (ProjectedActUsage_scope u) = true).
Proof.
  intros Hu (x & (v & Hx & Hv)%list_elem_of_bind & [= Heq])%list_elem_of_omap. subst scope.
  assert (forall scene scope, scope_contains (scene_scope scene) scope = true <->
            DiagnosticScope_scene_id scope = Some scene) as Hscene.
  { intros scene s. unfold scope_contains, scene_scope, optional_id_contains. cbn.
    rewrite !andb_true_r, bool_decide_eq_true. done. }
  assert (forall scene actor scope, scope_contains (actor_scope scene actor) scope = true <->
            DiagnosticScope_scene_id scope = Some scene /\
            DiagnosticScope_actor_id scope = Some actor) as Hactor.
  { intros scene actor s. unfold scope_contains, actor_scope, optional_id_contains. cbn.
    rewrite !andb_true_r, andb_true_iff, !bool_decide_eq_true. done. }
  unfold contributions in Hx. destruct (DiagnosticScope_scene_id (ProjectedActUsage_scope v)) as [scene|];
    [|by apply not_elem_of_nil in Hx].
  assert (x.1 = scene_scope scene \/ exists actor, x.1 = actor_scope scene actor) as [->|[actor ->]].
  { apply elem_of_cons in Hx as [->|Hx]; [by left|right].
    destruct (DiagnosticScope_actor_id _) as [actor|]; [|by apply not_elem_of_nil in Hx].
    apply list_elem_of_singleton in Hx as ->. by exists actor. }
  - rewrite Hscene. unfold contributions.
    destruct (DiagnosticScope_scene_id (ProjectedActUsage_scope u)) as [s|].
    2:{ split; [by intros ?%not_elem_of_nil|done]. }
    destruct (DiagnosticScope_actor_id (ProjectedActUsage_scope u)) as [b|]; cbn;
      rewrite ?elem_of_cons, elem_of_nil.
    + split; [by intros [[= ->]|[[=]|[]]]|by intros [= ->]; left].
    + split; [by intros [[= ->]|[]]|by intros [= ->]; left].
  - rewrite Hactor. unfold contributions.
    destruct (DiagnosticScope_scene_id (ProjectedActUsage_scope u)) as [s|].
    2:{ split; [by intros ?%not_elem_of_nil|by intros [? _]]. }
    destruct (DiagnosticScope_actor_id (ProjectedActUsage_scope u)) as [b|]; cbn;
      rewrite ?elem_of_cons, elem_of_nil.
    + split; [by intros [[=]|[[= -> ->]|[]]]|by intros [[= ->] [= ->]]; right; left].
    + split; [by intros [[=]|[]]|by intros [_ ?]].
Qed.

Lemma scoped_view_within us r : r ∈ scoped_view us ->
  ScopedUsageAggregate_aggregate r = aggregate_view
    (filter (fun u => scope_contains (ScopedUsageAggregate_scope r) (ProjectedActUsage_scope u) = true) us).
Proof.
  intros (scope & Hs & [= <-])%elem_of_table. cbn [ScopedUsageAggregate_aggregate ScopedUsageAggregate_scope].
  f_equal. rewrite contributions_about.
  assert (forall u, u ∈ us -> (scope ∈ (contributions u).*1 <->
            scope_contains scope (ProjectedActUsage_scope u) = true)) as Hiff
    by (intros u Hu; by eapply contributes_contained).
  clear Hs. induction us as [|u us IH]; [done|]. rewrite !filter_cons.
  rewrite IH by (intros v Hv; apply Hiff; by apply list_elem_of_further).
  pose proof (Hiff u (list_elem_of_here _ _)). repeat case_decide; tauto.
Qed.
End View.

(** ** Naturals in decimal

    An instance that prints and parses naturals itself. *)

Definition decimal_biguint : BigUint := {|
  biguint_from_str s :=
    match validate_canonical_nonnegative_integer s with
    | Ok _ => Some (digits_value 0 (bytes s))
    | Err _ => None
    end;
  biguint_to_str z := of_bytes (print_digits (S (Z.to_nat (Z.log2 z))) z []);
|}.

Lemma decimal_biguint_laws : @BigUintLaws decimal_biguint.
Proof.
  constructor; [by intros s Hs; cbn; rewrite Hs|]. intros z Hz. cbn [biguint_to_str decimal_biguint].
  assert (0 <= z < 10 ^ Z.of_nat (S (Z.to_nat (Z.log2 z)))) as Hb.
  { split; [done|]. rewrite Nat2Z.inj_succ, Z2Nat.id by apply Z.log2_nonneg.
    destruct (decide (z = 0)) as [->|]; [done|].
    eapply Z.lt_le_trans; [apply (Z.log2_spec z); lia|].
    apply Z.pow_le_mono_l. lia. }
  rewrite validate_canonical_spec, bytes_of_bytes. split; [split|].
  - apply print_digits_all; [lia|constructor].
  - apply print_digits_canonical; [done|lia].
  - by apply print_digits_value.
Qed.
