(* ===== verification/UsageCorrect.v ===== *)
(** * The usage projection computes its view

    The view of a history, the acceptance of every projected model by the check
    of stored models, and the projection itself. *)

From S2P Require Import Prelude Wire Scalar Kinds Detail Event Validate ValidateSpec Projection Table Usage UsageSpec.

(** ** Specification *)

Definition context_of (e : DiagnosticEvent) : option ContextUsageSampled :=
  match e with
  | DiagnosticEvent_ContextUsageSampled context => Some context
  | _ => None
  end.

Abbreviation context_scope c := (DiagnosticEventHeader_scope (ContextUsageSampled_header c)).
Abbreviation context_sequence c := (DiagnosticEventHeader_sequence (ContextUsageSampled_header c)).

(** The context samples that no later sample of their scope replaced. *)
Fixpoint latest_contexts (h : history) : list ContextUsageSampled :=
  match h with
  | [] => []
  | e :: t =>
      match context_of e with
      | Some context =>
          if existsb (fun later => bool_decide (context_scope later = context_scope context))
               (omap context_of t)
          then latest_contexts t else context :: latest_contexts t
      | None => latest_contexts t
      end
  end.

Definition finalized_of (e : DiagnosticEvent) : option ActTokenUsageFinalized :=
  match e with
  | DiagnosticEvent_ActTokenUsageFinalized event => Some event
  | _ => None
  end.

(** The usage of the act that an event finalises. *)
Definition usage_of (e : DiagnosticEvent) : option ProjectedActUsage :=
  event ← finalized_of e;
  act_id ← DiagnosticScope_act_id (event_scope e);
  Some (ProjectedActUsage_from_event event act_id).

(** The token counts of an event are canonical, as [TokenCount::parse] makes them. *)
Definition tokens_typed (e : DiagnosticEvent) : Prop :=
  forall event, finalized_of e = Some event ->
    tokens_ok (ProjectedActUsage_from_event event (mkRunLocalId "")).

(** A final usage names its act, once, and its fields agree with its availability. *)
Definition usage_admissible (h : history) (e : DiagnosticEvent) : Prop :=
  tokens_typed e /\
  forall event, finalized_of e = Some event ->
    exists act_id, DiagnosticScope_act_id (event_scope e) = Some act_id /\
      availability_is_valid (ProjectedActUsage_from_event event act_id) = true /\
      forall e' u, e' ∈ h -> usage_of e' = Some u -> ProjectedActUsage_act_id u <> act_id.

Section Correct.
Context `{LAWS : BigUintLaws}.

Definition usage_view (run_id : CanonicalUuid) (h : history) : UsageReadModel :=
  let usages := omap usage_of h in
  mkUsageReadModel USAGE_READ_MODEL_SCHEMA_VERSION run_id (list_len h) (through_elapsed h)
    (latest_contexts h) usages (aggregate_view usages) (scoped_view usages).

(** ** The history *)

Lemma latest_contexts_in h c : c ∈ latest_contexts h -> exists e, e ∈ h /\ context_of e = Some c.
Proof.
  induction h as [|e h IH]; cbn; [by intros ?%not_elem_of_nil|]. intros Hc.
  assert (c ∈ latest_contexts h \/ context_of e = Some c) as [Hin|He].
  { destruct (context_of e) as [x|]; [|by left]. destruct (existsb _ _); [by left|].
    apply elem_of_cons in Hc as [->|?]; auto. }
  - destruct (IH Hin) as (x & ? & ?). exists x. split; [by apply list_elem_of_further|done].
  - exists e. split; [apply list_elem_of_here|done].
Qed.

(** The list of strictly increasing numbers above a bound. *)
Fixpoint increasing (previous : Z) (l : list Z) : Prop :=
  match l with
  | [] => True
  | x :: l' => previous < x /\ increasing x l'
  end.

Lemma increasing_weaken p q l : q <= p -> increasing p l -> increasing q l.
Proof. intros Hq. destruct l; cbn; [done|]. intros [? ?]. split; [lia|done]. Qed.

Lemma increasing_gt p l x : increasing p l -> x ∈ l -> p < x.
Proof.
  revert p. induction l as [|y l IH]; intros p; cbn; [by intros _ ?%not_elem_of_nil|].
  intros [Hy Hl] [->|Hx]%elem_of_cons; [done|]. specialize (IH _ Hl Hx). lia.
Qed.

Lemma increasing_nodup p l : increasing p l -> NoDup l.
Proof.
  revert p. induction l as [|y l IH]; intros p; cbn; [constructor|]. intros [_ Hl].
  apply NoDup_cons. split; [|by eapply IH]. intros Hy. pose proof (increasing_gt _ _ _ Hl Hy). lia.
Qed.

Lemma increasing_snoc p l x :
  increasing p l -> p < x -> (forall y, y ∈ l -> y < x) -> increasing p (l ++ [x]).
Proof.
  revert p. induction l as [|y l IH]; intros p Hl Hp Hall; cbn; [done|].
  destruct Hl as [? Hl]. split; [done|]. apply IH; [done| |].
  - apply Hall, list_elem_of_here.
  - intros z Hz. by apply Hall, list_elem_of_further.
Qed.

Lemma recorded_increasing run_id A h : recorded run_id A h ->
  increasing 0 ((fun e => event_sequence e) <$> h).
Proof.
  induction 1 as [|h e Hr IH (_ & Hs & _) _ _]; [done|]. rewrite fmap_app.
  apply increasing_snoc; [done| |].
  - rewrite Hs. pose proof (list_len_nonneg h). lia.
  - intros y (x & -> & Hx)%list_elem_of_fmap.
    destruct (recorded_sequence _ _ _ _ Hr Hx) as [_ ?]. rewrite Hs. lia.
Qed.

(** Projections of an increasing history are increasing. *)
Lemma increasing_contexts p h :
  increasing p ((fun e => event_sequence e) <$> h) ->
  increasing p ((fun c => context_sequence c) <$> latest_contexts h).
Proof.
  revert p. induction h as [|e h IH]; intros p; cbn; [done|]. intros [Hp Hh].
  assert (increasing p ((fun c => context_sequence c) <$> latest_contexts h)) as Hskip
    by (apply IH; eapply increasing_weaken; [|exact Hh]; lia).
  destruct (context_of e) as [c|] eqn:Ec; [|done]. destruct (existsb _ _); [done|]. cbn.
  assert (context_sequence c = event_sequence e) as -> by (by destruct e; simplify_eq/=).
  split; [done|]. by apply IH.
Qed.

Lemma usage_of_event e u : usage_of e = Some u ->
  ProjectedActUsage_run_id u = event_run_id e /\ ProjectedActUsage_sequence u = event_sequence e /\
  ProjectedActUsage_elapsed_ns u = event_elapsed e /\ ProjectedActUsage_scope u = event_scope e /\
  DiagnosticScope_act_id (ProjectedActUsage_scope u) = Some (ProjectedActUsage_act_id u) /\
  context_of e = None.
Proof.
  unfold usage_of. destruct e; try done. cbn.
  destruct (DiagnosticScope_act_id _) as [act|] eqn:Ea; [|done]. cbn. intros [= <-]. done.
Qed.

Lemma increasing_usages p h :
  increasing p ((fun e => event_sequence e) <$> h) ->
  increasing p (ProjectedActUsage_sequence <$> omap usage_of h).
Proof.
  revert p. induction h as [|e h IH]; intros p; cbn; [done|]. intros [Hp Hh].
  destruct (usage_of e) as [u|] eqn:Eu; cbn.
  - destruct (usage_of_event _ _ Eu) as (_ & -> & _). split; [done|]. by apply IH.
  - apply IH. eapply increasing_weaken; [|exact Hh]. lia.
Qed.

(** A new sample replaces the one of its scope. *)
Lemma latest_contexts_snoc h e :
  latest_contexts (h ++ [e]) =
  match context_of e with
  | Some context =>
      filter (fun existing => context_scope existing <> context_scope context) (latest_contexts h)
      ++ [context]
  | None => latest_contexts h
  end.
Proof.
  induction h as [|x h IH]; cbn; [by destruct (context_of e)|].
  rewrite IH, omap_app. cbn [omap list_omap].
  destruct (context_of x) as [c|]; [|done].
  destruct (context_of e) as [context|]; cbn.
  2:{ rewrite app_nil_r. done. }
  rewrite existsb_app. destruct (existsb _ (omap context_of h)); cbn [orb existsb]; [done|].
  rewrite orb_false_r. case_bool_decide as Hc.
  - rewrite filter_cons, decide_False; [done|]. by intros Hno; apply Hno.
  - rewrite filter_cons, decide_True; [done|]. by intros Hno; apply Hc.
Qed.

(** No two samples that remain share a scope. *)
Lemma latest_contexts_scopes h : NoDup ((fun c => context_scope c) <$> latest_contexts h).
Proof.
  induction h as [|e h IH] using rev_ind; [constructor|]. rewrite latest_contexts_snoc.
  destruct (context_of e) as [c|]; [|done]. rewrite fmap_app. apply NoDup_app. split_and!.
  - clear -IH. induction (latest_contexts h) as [|x l IHl]; [constructor|].
    apply NoDup_cons in IH as [Hx Hl]. rewrite filter_cons. case_decide; [|auto]. cbn.
    apply NoDup_cons. split; [|auto]. intros (y & Heq & [_ Hy]%list_elem_of_filter)%list_elem_of_fmap.
    apply Hx. apply list_elem_of_fmap. eauto.
  - intros s (x & -> & [Hx _]%list_elem_of_filter)%list_elem_of_fmap Hs%list_elem_of_singleton. done.
  - apply NoDup_singleton.
Qed.
(** ** The check of stored models *)

#[local] Instance RunLocalId_as_str_inj : Inj (=) (=) RunLocalId_as_str.
Proof. intros [a] [b]. cbn. by intros ->. Qed.

Lemma context_scope_key_inj s s' : context_scope_key s = context_scope_key s' -> s = s'.
Proof.
  destruct s, s'. unfold context_scope_key. cbn. intros [=].
  f_equal; try done; by apply (inj (fmap RunLocalId_as_str)).
Qed.

(** What the check asks of a context sample on its own. *)
Definition context_ok (self : UsageReadModel) (c : ContextUsageSampled) : Prop :=
  DiagnosticEventHeader_run_id (ContextUsageSampled_header c) = UsageReadModel_run_id self /\
  context_sequence c <= UsageReadModel_through_sequence self /\
  DiagnosticEventHeader_elapsed_ns (ContextUsageSampled_header c) <=
    UsageReadModel_through_elapsed_ns self.

Lemma validate_contexts_ok self l : forall scopes sequences previous,
  0 <= previous -> (forall s, s ∈ sequences -> s <= previous) ->
  Forall (context_ok self) l ->
  (forall c, c ∈ l -> context_scope_key (context_scope c) ∉ scopes) ->
  NoDup ((fun c => context_scope c) <$> l) ->
  increasing previous ((fun c => context_sequence c) <$> l) ->
  exists out, validate_contexts self scopes sequences previous l = Ok out /\
    forall s, s ∈ out <-> s ∈ sequences \/ s ∈ (fun c => context_sequence c) <$> l.
Proof.
  induction l as [|c l IH]; intros scopes sequences previous Hp Hseq Hok Hsc Hnd Hinc.
  - exists sequences. cbn. split; [done|]. set_solver.
  - apply Forall_cons in Hok as [(Hrun & Hs & He) Hok]. apply NoDup_cons in Hnd as [Hc Hnd].
    cbn in Hinc. destruct Hinc as [Hlt Hinc]. cbn [validate_contexts].
    rewrite (bool_decide_eq_false_2 (_ <> UsageReadModel_run_id self)) by tauto.
    assert ((context_sequence c =? 0) = false) as -> by lia.
    assert ((UsageReadModel_through_sequence self <? context_sequence c) = false) as -> by lia.
    assert ((UsageReadModel_through_elapsed_ns self <?
             DiagnosticEventHeader_elapsed_ns (ContextUsageSampled_header c)) = false) as -> by lia.
    assert ((context_sequence c <=? previous) = false) as -> by lia.
    rewrite (bool_decide_eq_false_2 (context_sequence c ∈ sequences))
      by (intros Hin; specialize (Hseq _ Hin); lia).
    rewrite (bool_decide_eq_false_2 (_ ∈ scopes)) by (apply Hsc; apply list_elem_of_here).
    cbn [orb]. edestruct (IH ({[context_scope_key (context_scope c)]} ∪ scopes)
      ({[context_sequence c]} ∪ sequences) (context_sequence c)) as (out & -> & Hout); [lia| |done| |done|done|].
    + intros s [->%elem_of_singleton|Hin]%elem_of_union; [lia|]. specialize (Hseq _ Hin). lia.
    + intros d Hd [Heq%elem_of_singleton|Hin]%elem_of_union.
      * apply context_scope_key_inj in Heq. apply Hc. apply list_elem_of_fmap. eauto.
      * apply (Hsc d); [by apply list_elem_of_further|done].
    + exists out. split; [done|]. intros s. rewrite Hout, elem_of_union, elem_of_singleton.
      cbn. rewrite elem_of_cons. tauto.
Qed.

Definition usage_ok (self : UsageReadModel) (u : ProjectedActUsage) : Prop :=
  ProjectedActUsage_run_id u = UsageReadModel_run_id self /\
  ProjectedActUsage_sequence u <= UsageReadModel_through_sequence self /\
  ProjectedActUsage_elapsed_ns u <= UsageReadModel_through_elapsed_ns self /\
  DiagnosticScope_act_id (ProjectedActUsage_scope u) = Some (ProjectedActUsage_act_id u) /\
  availability_is_valid u = true.

Lemma validate_usages_ok self l : forall acts sequences previous,
  0 <= previous -> Forall (usage_ok self) l ->
  (forall u, u ∈ l -> (ProjectedActUsage_sequence u ∉ sequences) /\
     acts !! RunLocalId_as_str (ProjectedActUsage_act_id u) = None) ->
  NoDup (ProjectedActUsage_act_id <$> l) -> increasing previous (ProjectedActUsage_sequence <$> l) ->
  validate_usages self acts sequences previous l = Ok tt.
Proof.
  induction l as [|u l IH]; intros acts sequences previous Hp Hok Hnew Hnd Hinc; [done|].
  apply Forall_cons in Hok as [(Hrun & Hs & He & Hact & Hav) Hok].
  apply NoDup_cons in Hnd as [Hu Hnd]. cbn in Hinc. destruct Hinc as [Hlt Hinc].
  destruct (Hnew u (list_elem_of_here _ _)) as [Hns Hna]. cbn [validate_usages].
  rewrite (bool_decide_eq_false_2 (_ <> UsageReadModel_run_id self)) by tauto.
  assert ((ProjectedActUsage_sequence u =? 0) = false) as -> by lia.
  assert ((UsageReadModel_through_sequence self <? ProjectedActUsage_sequence u) = false) as -> by lia.
  assert ((UsageReadModel_through_elapsed_ns self <? ProjectedActUsage_elapsed_ns u) = false) as -> by lia.
  rewrite (bool_decide_eq_false_2 (_ <> Some _)) by tauto.
  rewrite (bool_decide_eq_false_2 (_ ∈ sequences)) by done. cbn [orb].
  assert ((ProjectedActUsage_sequence u <=? previous) = false) as -> by lia.
  rewrite Hna, Hav. cbn [negb]. apply IH; [lia|done| |done|done].
  intros v Hv. destruct (Hnew v (list_elem_of_further _ _ _ Hv)) as [? Hva]. split.
  - rewrite elem_of_union, elem_of_singleton. intros [Heq|?]; [|done].
    pose proof (increasing_gt _ _ (ProjectedActUsage_sequence v) Hinc) as Hgt.
    rewrite Heq in Hgt. apply (Z.lt_irrefl (ProjectedActUsage_sequence u)). apply Hgt.
    apply list_elem_of_fmap. exists v. by rewrite Heq.
  - rewrite lookup_insert_ne; [done|]. intros Heq%RunLocalId_as_str_inj. apply Hu.
    apply list_elem_of_fmap. exists v. by rewrite Heq.
Qed.

Lemma recorded_admissible run_id A h i e :
  recorded run_id A h -> h !! i = Some e -> A (take i h) e.
Proof.
  intros (_ & _ & HA)%recorded_iff Hi. apply (HA _ _ (drop (S i) h)).
  by rewrite <-(take_drop_middle h i e Hi) at 1.
Qed.

Section Recorded.
Context (run_id : CanonicalUuid) (h : history) (Hr : recorded run_id usage_admissible h).

Lemma recorded_usage e u : e ∈ h -> usage_of e = Some u ->
  usage_ok (usage_view run_id h) u /\ tokens_ok u.
Proof.
  intros He Hu. destruct (recorded_sequence _ _ _ _ Hr He) as [Hrun Hseq].
  pose proof (through_elapsed_ge _ _ He) as Hel.
  destruct (usage_of_event _ _ Hu) as (Hur & Hus & Hue & Husc & Hua & _).
  apply list_elem_of_lookup in He as [i Hi].
  destruct (recorded_admissible _ _ _ _ _ Hr Hi) as [Hty Hadm].
  unfold usage_of in Hu. destruct (finalized_of e) as [event|] eqn:Ef; [|done].
  destruct (Hadm event eq_refl) as (act & Ha & Hav & _). specialize (Hty event Ef).
  cbn in Hu. rewrite Ha in Hu. injection Hu as Heq. split.
  - unfold usage_ok. cbn. split_and!; [congruence|lia|lia|done|]. by rewrite <-Heq.
  - rewrite <-Heq. exact Hty.
Qed.

Lemma recorded_acts : NoDup (ProjectedActUsage_act_id <$> omap usage_of h).
Proof.
  induction Hr as [|g e Hg IH Hn Hok [_ Ha]]; [constructor|]. rewrite omap_app, fmap_app. cbn.
  destruct (usage_of e) as [u|] eqn:Eu; cbn; [|rewrite app_nil_r; by apply IH].
  apply NoDup_app. split_and!; [by apply IH| |apply NoDup_singleton].
  intros a (v & -> & (x & Hx & Hv)%list_elem_of_omap)%list_elem_of_fmap Hin%list_elem_of_singleton.
  destruct (usage_of_event _ _ Eu) as (_ & _ & _ & Hsc & Hact & _).
  unfold usage_of in Eu. destruct (finalized_of e) as [event|] eqn:Ef; [|done].
  destruct (Ha event eq_refl) as (act & Hact' & _ & Hno). apply (Hno x v Hx Hv). congruence.
Qed.

Lemma recorded_usages_ok : usages_ok (omap usage_of h).
Proof.
  split.
  - apply Forall_forall. intros u (e & He & Hu)%list_elem_of_omap. by eapply recorded_usage.
  - pose proof (list_len_omap usage_of h). pose proof (recorded_length _ _ _ Hr). lia.
Qed.

(** Every projected model passes the check of stored models. *)
Lemma usage_view_valid : UsageReadModel_validate (usage_view run_id h) = Ok tt.
Proof.
  unfold UsageReadModel_validate.
  change (UsageReadModel_model_schema_version _ =? _) with true. cbn [negb].
  pose proof (recorded_increasing _ _ _ Hr) as Hinc.
  destruct (models_recorded _ _ _ Hr) as [rv M].
  destruct (validate_contexts_ok (usage_view run_id h) (latest_contexts h) ∅ ∅ 0)
    as (out & Hout & Hin).
  - done.
  - set_solver.
  - apply Forall_forall. intros c (e & He & Hc)%latest_contexts_in.
    destruct (recorded_sequence _ _ _ _ Hr He) as [Hrun Hseq].
    pose proof (through_elapsed_ge _ _ He) as Hel.
    assert (ContextUsageSampled_header c = header e) as Heq by (by destruct e; simplify_eq/=).
    unfold context_ok. rewrite Heq. cbn. split_and!; [done|lia|lia].
  - set_solver.
  - apply latest_contexts_scopes.
  - by apply increasing_contexts.
  - change (UsageReadModel_contexts (usage_view run_id h)) with (latest_contexts h).
    rewrite Hout. cbn [result_bind].
    change (UsageReadModel_usages (usage_view run_id h)) with (omap usage_of h).
    rewrite validate_usages_ok; [|done| | |apply recorded_acts|by apply increasing_usages].
    + cbn [result_bind]. rewrite aggregate_records_view by apply recorded_usages_ok.
      cbn [result_bind]. rewrite aggregate_records_by_scope_view by apply recorded_usages_ok.
      cbn [result_bind usage_view UsageReadModel_aggregate UsageReadModel_scoped_aggregates].
      rewrite !bool_decide_eq_false_2 by tauto. done.
    + apply Forall_forall. intros u (e & He & Hu)%list_elem_of_omap. by eapply recorded_usage.
    + intros u (e & He & Hu)%list_elem_of_omap. split; [|done].
      rewrite Hin. intros [?|(c & Hseq & (e' & He' & Hc)%latest_contexts_in)%list_elem_of_fmap]; [set_solver|].
      destruct (usage_of_event _ _ Hu) as (_ & Hus & _ & _ & _ & Hno).
      assert (context_sequence c = event_sequence e') as Hce by (by destruct e'; simplify_eq/=).
      assert (e = e') as -> by (apply (same_sequence rv h M); congruence). congruence.
Qed.
End Recorded.
(** ** The projection *)

Lemma usage_position run_id h e :
  check_exact (next_event run_id h e) (validate_position (usage_view run_id h) e).
Proof.
  unfold check_exact, validate_position, next_event.
  cbn [UsageReadModel_run_id UsageReadModel_through_sequence usage_view].
  destruct (_ && _) eqn:Ht; [|solve_position h e].
  apply andb_prop in Ht as [_ Ht%Z.eqb_eq].
  case_bool_decide; [right; split; [by eexists|tauto]|].
  right. split; [by eexists|]. intros (_ & ? & _). lia.
Qed.

(** The records of the view after one more event. *)
Definition view_records (run_id : CanonicalUuid) (h : history) (e : DiagnosticEvent) : UsageReadModel :=
  let usages := omap usage_of (h ++ [e]) in
  with_records (usage_view run_id h) (latest_contexts (h ++ [e])) usages
    (aggregate_view usages) (scoped_view usages).

Lemma view_records_other run_id h e : context_of e = None -> usage_of e = None ->
  view_records run_id h e = usage_view run_id h.
Proof.
  intros Hc Hu. unfold view_records. rewrite latest_contexts_snoc, Hc, omap_app. cbn.
  by rewrite Hu, app_nil_r.
Qed.

Lemma apply_context_spec run_id h context :
  apply_context (usage_view run_id h) context =
  view_records run_id h (DiagnosticEvent_ContextUsageSampled context).
Proof.
  unfold apply_context, view_records. rewrite latest_contexts_snoc, omap_app. cbn [omap list_omap].
  change (usage_of (DiagnosticEvent_ContextUsageSampled context)) with (@None ProjectedActUsage).
  by rewrite app_nil_r.
Qed.

Lemma usage_for_act_spec run_id h act :
  usage_for_act (usage_view run_id h) act = None <->
  forall e' u, e' ∈ h -> usage_of e' = Some u -> ProjectedActUsage_act_id u <> act.
Proof.
  unfold usage_for_act. rewrite find_none_elem. cbn [UsageReadModel_usages usage_view].
  setoid_rewrite bool_decide_eq_false. setoid_rewrite list_elem_of_omap. naive_solver.
Qed.

Lemma apply_usage_spec run_id h event :
  let e := DiagnosticEvent_ActTokenUsageFinalized event in
  recorded run_id usage_admissible h -> next_event run_id h e -> tokens_typed e ->
  (usage_admissible h e /\ apply_usage (usage_view run_id h) event = Ok (view_records run_id h e)) \/
  (~ usage_admissible h e /\ exists err, apply_usage (usage_view run_id h) event = Err err).
Proof.
  intros e Hr Hn Hty. unfold apply_usage.
  change (DiagnosticEventHeader_scope (ActTokenUsageFinalized_header event)) with (event_scope e).
  assert (usage_admissible h e <-> exists act_id, DiagnosticScope_act_id (event_scope e) = Some act_id /\
            availability_is_valid (ProjectedActUsage_from_event event act_id) = true /\
            usage_for_act (usage_view run_id h) act_id = None) as ->.
  { setoid_rewrite usage_for_act_spec. unfold usage_admissible. split.
    - intros [_ Ha]. by apply Ha.
    - intros Ha. split; [done|]. by intros event' [= <-]. }
  destruct (DiagnosticScope_act_id (event_scope e)) as [act|] eqn:Eact.
  2:{ right. split; [|eauto]. by intros (? & ? & _). }
  destruct (usage_for_act _ act) as [existing|] eqn:Efor.
  { right. split; [|eauto]. intros (? & [= <-] & _ & ?). congruence. }
  destruct (availability_is_valid _) eqn:Hav; cbn [negb].
  2:{ right. split; [|eauto]. intros (? & [= <-] & ? & ?). congruence. }
  set (u := ProjectedActUsage_from_event event act).
  assert (usage_of e = Some u) as Hu by (unfold usage_of; cbn [finalized_of e mbind option_bind]; by rewrite Eact).
  assert (omap usage_of (h ++ [e]) = omap usage_of h ++ [u]) as Hus
    by (rewrite omap_app; change (omap usage_of [e]) with (match usage_of e with Some y => [y] | None => [] end);
        by rewrite Hu).
  assert (usages_ok (omap usage_of h ++ [u])) as Hok.
  { pose proof (recorded_usages_ok run_id h Hr) as [Hus1 _]. split.
    - apply Forall_app. split; [done|]. apply Forall_cons. split; [|constructor]. exact (Hty event eq_refl).
    - rewrite list_len_app. change (list_len [u]) with 1.
      pose proof (list_len_omap usage_of h). destruct Hn as (_ & _ & ?). lia. }
  left. split; [by exists act|].
  change (UsageReadModel_aggregate (usage_view run_id h)) with (aggregate_view (omap usage_of h)).
  change (UsageReadModel_scoped_aggregates (usage_view run_id h)) with (scoped_view (omap usage_of h)).
  rewrite aggregate_record by done. cbn [result_bind]. rewrite scoped_record by done. cbn [result_bind].
  unfold view_records. rewrite Hus, latest_contexts_snoc. done.
Qed.

Lemma usage_candidate_spec run_id h e :
  recorded run_id usage_admissible h -> tokens_typed e ->
  outcome (next_event run_id h e /\ usage_admissible h e) (usage_view run_id (h ++ [e]))
    (Some (candidate_for_event (usage_view run_id h) e)).
Proof.
  intros Hr Hty. unfold candidate_for_event, outcome.
  destruct (usage_position run_id h e) as [[-> Hn]|[[err ->] Hno]]; cbn [result_bind].
  2:{ right. split; [tauto|eauto]. }
  rewrite usage_view_valid by done. cbn [result_bind].
  set (rest := match e with DiagnosticEvent_ContextUsageSampled _ => _ | _ => _ end).
  assert ((usage_admissible h e /\ rest = Ok (view_records run_id h e)) \/
          (~ usage_admissible h e /\ exists err, rest = Err err)) as [[Ha ->]|[Hno [err ->]]];
    cbn [result_bind].
  - assert (finalized_of e = None -> usage_admissible h e) as Hadm
      by (intros Hf; split; [done|]; intros event ?; congruence).
    unfold rest. destruct e; try (left; split; [by apply Hadm|]; by rewrite view_records_other).
    + left. split; [by apply Hadm|]. by rewrite apply_context_spec.
    + by apply apply_usage_spec.
  - left. split; [done|]. unfold view_records, with_records, usage_view. cbn. 
    rewrite through_elapsed_snoc, list_len_app. destruct Hn as (_ & -> & _). done.
  - right. split; [tauto|eauto].
Qed.

#[export] Instance usage_model_laws run_id :
  ReadModelLaws run_id (fun m e => Some (candidate_for_event m e)) (usage_view run_id) tokens_typed
    usage_admissible.
Proof. apply candidate_model_laws. intros. by apply usage_candidate_spec. Qed.

#[export] Instance usage_projector_laws run_id :
  ProjectorLaws run_id (fun p e => Some (UsageProjector_apply p e)) (usage_view run_id) tokens_typed
    usage_admissible.
Proof. apply candidate_apply_laws. intros. by apply usage_candidate_spec. Qed.

(** ** Properties *)

(** C10: the usage projection of a stream whose token counts are canonical succeeds
    exactly when the stream is numbered and well formed and every final usage
    names its act, once, with fields that agree.  Its aggregates are then the
    exact counts and sums over the final usages, and the aggregate kept for a
    scene or an actor is the one recomputed over the usages within that scope. *)
Theorem project_usage_correct run_id events m :
  Forall tokens_typed events ->
  (project_usage run_id events = Some (Ok m) <->
   numbered run_id events /\ stream_ok events /\
   (forall h e t, events = h ++ e :: t -> usage_admissible h e) /\ m = usage_view run_id events) /\
  (project_usage run_id events = Some (Ok m) ->
   forall r, r ∈ UsageReadModel_scoped_aggregates m ->
     aggregate_within_scope m (ScopedUsageAggregate_scope r) = Ok (ScopedUsageAggregate_aggregate r)).
Proof.
  intros Hty. unfold project_usage.
  rewrite (project_correct run_id _ (usage_view run_id) tokens_typed usage_admissible) by done. split.
  - rewrite recorded_iff. tauto.
  - intros [Hr ->] r Hin. unfold aggregate_within_scope. rewrite usage_view_valid by done.
    cbn [result_bind]. rewrite (scoped_view_within _ _ Hin). unfold usages_within_scope.
    apply aggregate_records_view. apply usages_ok_filter. by apply (recorded_usages_ok run_id).
Qed.
End Correct.

(** *** Witnesses *)

Definition sample_usage_scope : DiagnosticScope :=
  mkDiagnosticScope (Some (mkRunLocalId "scene")) (Some (mkRunLocalId "actor")) None None
    (Some (mkRunLocalId "act")) None None.

(** One final usage: twelve tokens in, thirty out. *)
Definition sample_finalized : list DiagnosticEvent :=
  [DiagnosticEvent_ActTokenUsageFinalized
     (mkActTokenUsageFinalized
        (mkDiagnosticEventHeader EVENT_SCHEMA_VERSION (mkCanonicalUuid 7) 1 10 sample_usage_scope [])
        UsageAvailability_Available (Some UsageSource_AcpPromptResponseUsage) None
        (Some (mkTokenCount "42")) (Some (mkTokenCount "12")) (Some (mkTokenCount "30")) None None None)].

Lemma sample_tokens_typed : Forall tokens_typed sample_finalized.
Proof.
  repeat constructor. intros event [= <-] t Ht.
  repeat (apply elem_of_cons in Ht as [Ht|Ht];
    [cbn in Ht; first [discriminate|injection Ht as ->; by vm_compute]|]).
  by apply not_elem_of_nil in Ht.
Qed.

Lemma project_usage_correct_witness :
  exists m, @project_usage decimal_biguint (mkCanonicalUuid 7) sample_finalized = Some (Ok m) /\
    numbered (mkCanonicalUuid 7) sample_finalized /\ stream_ok sample_finalized /\
    m = @usage_view decimal_biguint (mkCanonicalUuid 7) sample_finalized /\
    UsageAggregate_provider_total_tokens (UsageReadModel_aggregate m) =
      mkUsageFieldAggregate (Some (mkTokenCount "42")) 1 1.
Proof.
  eexists. split; [vm_compute; reflexivity|].
  match goal with |- _ /\ _ /\ ?m = _ /\ _ =>
    destruct (@project_usage_correct decimal_biguint decimal_biguint_laws (mkCanonicalUuid 7)
      sample_finalized m sample_tokens_typed) as [[Hc _] _] end.
  destruct Hc as (Hn & Hs & _ & Hm); [vm_compute; reflexivity|].
  split; [exact Hn|]. split; [exact Hs|]. split; [exact Hm|]. reflexivity.
Defined.
