(* ===== verification/Snapshot.v ===== *)
(** * The snapshot read model

    Models [troupe-diagnostics-runtime/src/store/projector/snapshot.rs]: one
    model that combines the five read models with the observation gaps and the
    truncations.  It runs one reference validator for all of them, through
    [validate_then]; it is proved against the contract [ReadModelLaws] of each
    part, and shown to make the snapshot that the events determine: every span with
    its completion, every message with its text, the latest plan of every scope, the
    latest sample of every series, the final usages, the gaps, and the truncations
    in the order of the events. *)

From Stdlib Require Import Sorted.
From stdpp Require Import sorting.
From S2P Require Import Prelude Wire Scalar Kinds Detail Event Validate ValidateSpec Projection Table.
From S2P Require Import Spans Messages Plans Counters Usage UsageSpec UsageCorrect.

Definition SNAPSHOT_READ_MODEL_SCHEMA_VERSION : Z := 1.

Inductive ProjectedTruncation :=
| ProjectedTruncation_AgentMessage (sequence : Z) (scope : DiagnosticScope) (message_id : RunLocalId)
| ProjectedTruncation_AgentPlan (sequence : Z) (scope : DiagnosticScope).

#[export] Instance ProjectedTruncation_eq_dec : EqDecision ProjectedTruncation.
Proof. solve_decision. Defined.

Definition ProjectedTruncation_sequence (t : ProjectedTruncation) : Z :=
  match t with
  | ProjectedTruncation_AgentMessage sequence _ _ => sequence
  | ProjectedTruncation_AgentPlan sequence _ => sequence
  end.

Record SnapshotReadModel := mkSnapshotReadModel {
  SnapshotReadModel_model_schema_version : Z;
  SnapshotReadModel_run_id : CanonicalUuid;
  SnapshotReadModel_through_sequence : Z;
  SnapshotReadModel_through_elapsed_ns : Z;
  SnapshotReadModel_spans : SpanReadModel;
  SnapshotReadModel_messages : MessageReadModel;
  SnapshotReadModel_plans : PlanReadModel;
  SnapshotReadModel_counters : CounterReadModel;
  SnapshotReadModel_usage : UsageReadModel;
  SnapshotReadModel_gaps : list ObservationGap;
  SnapshotReadModel_truncations : list ProjectedTruncation;
}.

#[export] Instance SnapshotReadModel_eq_dec : EqDecision SnapshotReadModel.
Proof. solve_decision. Defined.

Definition SnapshotReadModel_empty (run_id : CanonicalUuid) : SnapshotReadModel :=
  mkSnapshotReadModel SNAPSHOT_READ_MODEL_SCHEMA_VERSION run_id 0 0
    (SpanReadModel_empty run_id) (MessageReadModel_empty run_id) (PlanReadModel_empty run_id)
    (CounterReadModel_empty run_id) (UsageReadModel_empty run_id) [] [].

Inductive SnapshotProjectionError :=
| SnapshotProjectionError_InvalidReference (error : ReferenceValidationError)
| SnapshotProjectionError_Span (error : SpanProjectionError)
| SnapshotProjectionError_Message (error : MessageProjectionError)
| SnapshotProjectionError_Plan (error : PlanProjectionError)
| SnapshotProjectionError_Counter (error : CounterProjectionError)
| SnapshotProjectionError_Usage (error : UsageProjectionError).

Definition SnapshotProjectionError_code (e : SnapshotProjectionError) : string :=
  match e with
  | SnapshotProjectionError_InvalidReference error => ReferenceValidationCode_as_str (rve_code error)
  | SnapshotProjectionError_Span error => SpanProjectionError_code error
  | SnapshotProjectionError_Message error => MessageProjectionError_code error
  | SnapshotProjectionError_Plan error => PlanProjectionError_code error
  | SnapshotProjectionError_Counter error => CounterProjectionError_code error
  | SnapshotProjectionError_Usage error => UsageProjectionError_code error
  end.

Definition message_truncation (message : ProjectedMessage) : option ProjectedTruncation :=
  completion ← ProjectedMessage_completion message;
  if MessageCompletion_truncated completion then
    Some (ProjectedTruncation_AgentMessage (MessageCompletion_sequence completion)
            (ProjectedMessage_scope message) (ProjectedMessage_message_id message))
  else None.

Definition plan_truncation (plan : ProjectedPlan) : option ProjectedTruncation :=
  if ProjectedPlan_truncated plan then
    Some (ProjectedTruncation_AgentPlan (ProjectedPlan_sequence plan) (ProjectedPlan_scope plan))
  else None.

Definition collect_truncations (messages : MessageReadModel) (plans : PlanReadModel)
    : list ProjectedTruncation :=
  sort_by_key ProjectedTruncation_sequence
    (omap message_truncation (MessageReadModel_messages messages)
     ++ omap plan_truncation (PlanReadModel_plans plans)).

Definition gap_of (event : DiagnosticEvent) : option ObservationGap :=
  match event with
  | DiagnosticEvent_ObservationGap gap => Some gap
  | _ => None
  end.

Section Snapshot.
Context (to_string : CounterSeriesIdentity -> string) `{BigUint}.

Definition candidate_for_event (model : SnapshotReadModel) (event : DiagnosticEvent)
    : option (result SnapshotReadModel SnapshotProjectionError) :=
  spans ← Spans.project_validated_event (SnapshotReadModel_spans model) event;
  Some (
    let? spans := map_err SnapshotProjectionError_Span spans in
    let? messages := map_err SnapshotProjectionError_Message
      (Messages.candidate_for_event (SnapshotReadModel_messages model) event) in
    let? plans := map_err SnapshotProjectionError_Plan
      (Plans.candidate_for_event (SnapshotReadModel_plans model) event) in
    let? counters := map_err SnapshotProjectionError_Counter
      (Counters.candidate_for_event to_string (SnapshotReadModel_counters model) event) in
    let? usage := map_err SnapshotProjectionError_Usage
      (Usage.candidate_for_event (SnapshotReadModel_usage model) event) in
    let gaps :=
      match gap_of event with
      | Some gap => SnapshotReadModel_gaps model ++ [gap]
      | None => SnapshotReadModel_gaps model
      end in
    Ok (mkSnapshotReadModel SNAPSHOT_READ_MODEL_SCHEMA_VERSION (SnapshotReadModel_run_id model)
          (SpanReadModel_through_sequence spans) (SpanReadModel_through_elapsed_ns spans)
          spans messages plans counters usage gaps (collect_truncations messages plans))).

(** The consumer of [validate_then] runs only when the validator accepts; [None]
    is its panic. *)
Definition SnapshotProjector_apply (self : Projector SnapshotReadModel) (event : DiagnosticEvent)
    : option (Projector SnapshotReadModel * result unit SnapshotProjectionError) :=
  match prepare (references self) event with
  | Err e => Some (self, Err (SnapshotProjectionError_InvalidReference e))
  | Ok _ =>
      candidate ← candidate_for_event (model self) event;
      match validate_then (references self) event (fun _ => candidate) with
      | (references', Ok (Ok candidate)) => Some (mkProjector references' candidate, Ok tt)
      | (references', Ok (Err e)) => Some (mkProjector references' (model self), Err e)
      | (references', Err e) =>
          Some (mkProjector references' (model self), Err (SnapshotProjectionError_InvalidReference e))
      end
  end.

Definition project_snapshot (run_id : CanonicalUuid) (events : list DiagnosticEvent)
    : option (result SnapshotReadModel SnapshotProjectionError) :=
  project SnapshotProjector_apply (SnapshotReadModel_empty run_id) events.
End Snapshot.

(** ** Specification *)

Section Correct.
Context (to_string : CounterSeriesIdentity -> string) `{LAWS : BigUintLaws}.

(** The snapshot of a history: the five views, the gaps, the truncations. *)
Definition snapshot_view (run_id : CanonicalUuid) (h : history) : SnapshotReadModel :=
  mkSnapshotReadModel SNAPSHOT_READ_MODEL_SCHEMA_VERSION run_id (list_len h) (through_elapsed h)
    (span_view run_id h) (message_view run_id h) (plan_view run_id h)
    (counter_view to_string run_id h) (usage_view run_id h) (omap gap_of h)
    (collect_truncations (message_view run_id h) (plan_view run_id h)).

Definition snapshot_admissible (h : history) (e : DiagnosticEvent) : Prop :=
  message_admissible h e /\ plan_admissible h e /\ counter_admissible to_string h e /\
  usage_admissible h e.

Lemma snapshot_recorded run_id h : recorded run_id snapshot_admissible h ->
  recorded run_id any_event h /\ recorded run_id message_admissible h /\
  recorded run_id plan_admissible h /\ recorded run_id (counter_admissible to_string) h /\
  recorded run_id usage_admissible h.
Proof. intros Hr. split_and!; (eapply recorded_weaken; [|exact Hr]); by intros g e (? & ? & ? & ?). Qed.

#[export] Instance snapshot_model_laws run_id :
  ReadModelLaws run_id (candidate_for_event to_string) (snapshot_view run_id) tokens_typed
    snapshot_admissible.
Proof.
  constructor. intros h e Hr Hok Hty. pose proof (snapshot_recorded _ _ Hr) as (Hs & Hm & Hp & Hc & Hu).
  unfold candidate_for_event, outcome, snapshot_admissible.
  cbn [SnapshotReadModel_spans SnapshotReadModel_messages SnapshotReadModel_plans
       SnapshotReadModel_counters SnapshotReadModel_usage SnapshotReadModel_gaps
       SnapshotReadModel_run_id snapshot_view].
  destruct (project_law h e Hs Hok I) as [[[Hn _] ->]|[Hno [err ->]]]; cbn [mbind option_bind].
  2:{ right. split; [intros [? _]; apply Hno; done|by eexists]. }
  cbn [result_bind map_err].
  destruct (project_law h e Hm Hok I) as [[[_ Ham] Heq]|[Hno [err Heq]]]; injection Heq as ->;
    cbn [result_bind map_err]; [|right; split; [tauto|by eexists]].
  destruct (project_law h e Hp Hok I) as [[[_ Hap] Heq]|[Hno [err Heq]]]; injection Heq as ->;
    cbn [result_bind map_err]; [|right; split; [tauto|by eexists]].
  destruct (project_law h e Hc Hok I) as [[[_ Hac] Heq]|[Hno [err Heq]]]; injection Heq as ->;
    cbn [result_bind map_err]; [|right; split; [tauto|by eexists]].
  destruct (project_law h e Hu Hok Hty) as [[[_ Hau] Heq]|[Hno [err Heq]]]; injection Heq as ->;
    cbn [result_bind map_err]; [|right; split; [tauto|by eexists]].
  left. split; [done|]. unfold snapshot_view. rewrite (omap_app gap_of). cbn [omap list_omap].
  destruct (gap_of e); [done|]. by rewrite app_nil_r.
Qed.

#[export] Instance snapshot_projector_laws run_id :
  ProjectorLaws run_id (SnapshotProjector_apply to_string) (snapshot_view run_id) tokens_typed
    snapshot_admissible.
Proof.
  constructor. intros rv h e Hr M Hty. unfold SnapshotProjector_apply, validate_then.
  cbn [model references]. destruct (prepare rv e) as [[c k]|err] eqn:Ep.
  - apply (prepare_spec rv h M) in Ep as (Hok & -> & ->).
    destruct (project_law h e Hr Hok Hty) as [[[Hn Ha] ->]|[Hno [err ->]]]; cbn.
    + by left.
    + right. split; [tauto|by eexists].
  - right. split; [|by eexists]. intros (_ & Hok & _).
    assert (prepare rv e = Ok (change_of e, resolved_kind h e)) by (by apply (prepare_spec rv h M)).
    congruence.
Qed.

(** ** Truncations *)

Lemma insert_by_key_perm {A} (key : A -> Z) x l : insert_by_key key x l ≡ₚ x :: l.
Proof.
  induction l as [|y l IH]; cbn; [done|]. destruct (_ <=? _); [done|]. rewrite IH. apply Permutation_swap.
Qed.

Lemma sort_by_key_perm {A} (key : A -> Z) l : sort_by_key key l ≡ₚ l.
Proof. induction l as [|x l IH]; cbn; [done|]. by rewrite insert_by_key_perm, IH. Qed.

Lemma sort_by_key_sorted {A} (key : A -> Z) l :
  StronglySorted (fun x y => key x <= key y) (sort_by_key key l).
Proof.
  induction l as [|x l IH]; cbn; [constructor|].
  induction IH as [|y k Hk IHk Hy]; cbn; [repeat constructor|].
  destruct (key x <=? key y) eqn:Hxy; [apply Z.leb_le in Hxy|apply Z.leb_gt in Hxy].
  - constructor; [by constructor|]. constructor; [done|].
    eapply Forall_impl; [exact Hy|]. cbn. lia.
  - constructor; [done|]. rewrite insert_by_key_perm. constructor; [lia|done].
Qed.

End Correct.

Definition sample_to_string (_ : CounterSeriesIdentity) : string := "series".

(** ** What a snapshot shows: the rows *)

(** What a finish says of the span [id]. *)
Definition finish_row (id : Z) (e : DiagnosticEvent) : option SpanCompletion :=
  match e with
  | DiagnosticEvent_SpanFinished f =>
      if SpanFinished_span_id f =? id then
        Some (mkSpanCompletion (event_sequence e) (event_elapsed e) (SpanFinished_outcome f) (SpanFinished_error_code f) (event_causes e))
      else None
  | DiagnosticEvent_CustomSpanFinished f =>
      if CustomSpanFinished_span_id f =? id then
        Some (mkSpanCompletion (event_sequence e) (event_elapsed e) (CustomSpanFinished_outcome f) None (event_causes e))
      else None
  | _ => None
  end.

(** The span that an event starts, with its finish in the history. *)
Definition span_row (h : history) (e : DiagnosticEvent) : option ProjectedSpan :=
  let completion := head (omap (finish_row (event_sequence e)) h) in
  match e with
  | DiagnosticEvent_SpanStarted s =>
      Some (mkProjectedSpan (event_run_id e) (event_sequence e) (event_elapsed e) (event_scope e)
              (SpanStarted_parent_span_id s) (event_causes e) (ProjectedSpanDefinition_BuiltIn (SpanStarted_detail s)) completion)
  | DiagnosticEvent_CustomSpanStarted s =>
      Some (mkProjectedSpan (event_run_id e) (event_sequence e) (event_elapsed e) (event_scope e)
              (CustomSpanStarted_parent_span_id s) (event_causes e)
              (ProjectedSpanDefinition_Custom (CustomSpanStarted_name s) (CustomSpanStarted_attributes s)) completion)
  | _ => None
  end.

Definition completion_row (e : DiagnosticEvent) : option MessageCompletion :=
  match e with
  | DiagnosticEvent_AgentMessageCompleted c =>
      Some (mkMessageCompletion (event_sequence e) (event_elapsed e) (AgentMessageCompleted_utf8_bytes c)
              (AgentMessageCompleted_unicode_scalar_count c) (AgentMessageCompleted_truncated c) (event_causes e))
  | _ => None
  end.

(** A message: where it began and who sent it, where it was last heard of, the
    first source it names, the text of its deltas, its completion. *)
Definition shown_message (id : RunLocalId) (evs : list DiagnosticEvent) : option ProjectedMessage :=
  first ← head evs;
  latest ← last evs;
  Some (mkProjectedMessage (event_run_id first) id (event_scope first)
          (event_sequence first) (event_elapsed first) (event_sequence latest) (event_elapsed latest)
          (head (omap delta_source evs)) (message_text evs) (head (omap completion_row evs))).

Definition planned_scope (e : DiagnosticEvent) : option DiagnosticScope :=
  match e with DiagnosticEvent_AgentPlanSnapshot _ => Some (event_scope e) | _ => None end.

Definition plan_event (e : DiagnosticEvent) : option ProjectedPlan :=
  match e with
  | DiagnosticEvent_AgentPlanSnapshot p =>
      Some (mkProjectedPlan (event_run_id e) (event_scope e) (event_sequence e) (event_elapsed e)
              (AgentPlanSnapshot_entries p) (AgentPlanSnapshot_truncated p) (event_causes e))
  | _ => None
  end.

(** The plan of a scope is the latest. *)
Definition shown_plan (scope : DiagnosticScope) (evs : list DiagnosticEvent) : option ProjectedPlan := last evs ≫= plan_event.

(** An act plans in one scope. *)
Definition plan_allowed (h : history) (e : DiagnosticEvent) : Prop :=
  forall act_id, is_Some (planned_scope e) -> DiagnosticScope_act_id (event_scope e) = Some act_id ->
    forall e', e' ∈ h -> is_Some (planned_scope e') -> DiagnosticScope_act_id (event_scope e') = Some act_id ->
      event_scope e' = event_scope e.

Definition act_usage (e : DiagnosticEvent) : option ProjectedActUsage :=
  match e with
  | DiagnosticEvent_ActTokenUsageFinalized u =>
      act_id ← DiagnosticScope_act_id (event_scope e);
      Some (mkProjectedActUsage (event_run_id e) act_id (event_scope e) (event_sequence e) (event_elapsed e) (event_causes e)
              (ActTokenUsageFinalized_availability u) (ActTokenUsageFinalized_source u) (ActTokenUsageFinalized_unavailable_reason u)
              (ActTokenUsageFinalized_provider_total_tokens u) (ActTokenUsageFinalized_input_tokens u)
              (ActTokenUsageFinalized_output_tokens u) (ActTokenUsageFinalized_thought_tokens u)
              (ActTokenUsageFinalized_cached_read_tokens u) (ActTokenUsageFinalized_cached_write_tokens u))
  | _ => None
  end.

Definition observed_gap (e : DiagnosticEvent) : option ObservationGap :=
  match e with DiagnosticEvent_ObservationGap gap => Some gap | _ => None end.

(** ** Truncations *)

(** What an event says is truncated: a message when it is completed, a plan as
    long as no later event of the history gives its scope another one. *)
Definition truncation_of (later : history) (e : DiagnosticEvent) : option ProjectedTruncation :=
  match e with
  | DiagnosticEvent_AgentMessageCompleted c =>
      if AgentMessageCompleted_truncated c then
        Some (ProjectedTruncation_AgentMessage (event_sequence e) (event_scope e) (AgentMessageCompleted_message_id c))
      else None
  | DiagnosticEvent_AgentPlanSnapshot p =>
      if AgentPlanSnapshot_truncated p && bool_decide (Forall (fun e' => planned_scope e' <> Some (event_scope e)) later) then
        Some (ProjectedTruncation_AgentPlan (event_sequence e) (event_scope e))
      else None
  | _ => None
  end.

Fixpoint truncations (h : history) : list ProjectedTruncation :=
  match h with
  | [] => []
  | e :: later => match truncation_of later e with Some t => t :: truncations later | None => truncations later end
  end.

(** ** The snapshot *)

Section Shown.
Context (to_string : CounterSeriesIdentity -> string) `{LAWS : BigUintLaws}.

(** The series that an event samples, and the value. *)
Definition sampled (e : DiagnosticEvent) : option (CounterSeriesIdentity * ProjectedCounterValue) :=
  match e with
  | DiagnosticEvent_CounterSampled c =>
      Some (CounterSeriesIdentity_BuiltIn (event_scope e) (CounterSampled_counter_kind c),
            ProjectedCounterValue_Unsigned (CounterSampled_value c))
  | DiagnosticEvent_CustomCounterSampled c =>
      Some (CounterSeriesIdentity_Custom (event_scope e) (CustomCounterSampled_name c) (CustomCounterSampled_unit c)
              (CustomCounterSampled_dimensions c),
            match CustomCounterSampled_value c with
            | CustomNumber_Integer value => ProjectedCounterValue_Integer value
            | CustomNumber_Decimal value => ProjectedCounterValue_Decimal value
            end)
  | _ => None
  end.

Definition sampled_key (e : DiagnosticEvent) : option string := '(identity, _) ← sampled e; Some (to_string identity).

Definition sample_row (e : DiagnosticEvent) : option ProjectedCounter :=
  '(identity, value) ← sampled e;
  Some (mkProjectedCounter (event_run_id e) (to_string identity) identity (event_sequence e) (event_elapsed e) value (event_causes e)).

(** The sample of a series is the latest. *)
Definition shown_counter (key : string) (evs : list DiagnosticEvent) : option ProjectedCounter := last evs ≫= sample_row.

(** The samples under one key are of one series and of one type. *)
Definition sample_allowed (h : history) (e : DiagnosticEvent) : Prop :=
  forall identity value e' identity' value', sampled e = Some (identity, value) -> e' ∈ h -> sampled e' = Some (identity', value') ->
    to_string identity' = to_string identity ->
    identity' = identity /\ ProjectedCounterValue_tag value' = ProjectedCounterValue_tag value.

Definition shown_usage (run_id : CanonicalUuid) (h : history) : UsageReadModel :=
  let usages := omap act_usage h in
  mkUsageReadModel USAGE_READ_MODEL_SCHEMA_VERSION run_id (list_len h) (through_elapsed h)
    (latest_contexts h) usages (aggregate_view usages) (scoped_view usages).

Definition snapshot_shown (run_id : CanonicalUuid) (h : history) : SnapshotReadModel :=
  mkSnapshotReadModel SNAPSHOT_READ_MODEL_SCHEMA_VERSION run_id (list_len h) (through_elapsed h)
    (mkSpanReadModel SPAN_READ_MODEL_SCHEMA_VERSION run_id (list_len h) (through_elapsed h) (omap (span_row h) h))
    (mkMessageReadModel MESSAGE_READ_MODEL_SCHEMA_VERSION run_id (list_len h) (through_elapsed h) (table message_of shown_message h))
    (mkPlanReadModel PLAN_READ_MODEL_SCHEMA_VERSION run_id (list_len h) (through_elapsed h) (table planned_scope shown_plan h))
    (mkCounterReadModel COUNTER_READ_MODEL_SCHEMA_VERSION run_id (list_len h) (through_elapsed h) (table sampled_key shown_counter h))
    (shown_usage run_id h) (omap observed_gap h) (truncations h).

(** What a snapshot asks of an event beyond being well formed at the next position. *)
Definition snapshot_allowed (h : history) (e : DiagnosticEvent) : Prop :=
  message_admissible h e /\ plan_allowed h e /\ sample_allowed h e /\ usage_admissible h e.

(** ** The rows of the code *)

Lemma omap_eq {A B} (f g : A -> option B) (l : list A) : (forall x, f x = g x) -> omap f l = omap g l.
Proof. intros Hfg. induction l as [|x l IH]; [done|]. cbn. by rewrite Hfg, IH. Qed.

Lemma table_ext {X K R} `{EqDecision K} (key key' : X -> option K) (row row' : K -> list X -> option R) h :
  (forall x, key x = key' x) -> (forall k evs, row k evs = row' k evs) -> table key row h = table key' row' h.
Proof.
  intros Hk Hr. unfold table, table_keys. rewrite (omap_eq key key' h Hk). apply omap_eq. intros k. rewrite Hr. f_equal.
  unfold about. apply list_filter_iff. intros x. by rewrite Hk.
Qed.

Lemma head_omap_find {A B} (p : A -> bool) (f g : A -> option B) (l : list A) :
  (forall x, g x = if p x then f x else None) -> (forall x, p x = true -> is_Some (f x)) ->
  head (omap g l) = (x ← find p l; f x).
Proof.
  intros Hg Hp. induction l as [|x l IH]; [done|]. cbn [omap list_omap find]. rewrite Hg. destruct (p x) eqn:E; [|done].
  destruct (Hp x E) as [y Hy]. cbn [mbind option_bind]. by rewrite Hy.
Qed.

Lemma span_row_in h e : span_in h e = span_row h e.
Proof.
  assert (Hc : (f ← find (finishes_b (event_sequence e)) h; span_completed f) = head (omap (finish_row (event_sequence e)) h)).
  { symmetry. apply head_omap_find.
    - intros x. unfold finishes_b. destruct x; cbn; try done; by case_match.
    - intros x. unfold finishes_b. destruct x; cbn; try done; by eexists. }
  unfold span_in. rewrite Hc. by destruct e.
Qed.

Lemma message_row_shown id evs : message_row id evs = shown_message id evs.
Proof. unfold message_row, shown_message. by rewrite (omap_eq message_completed completion_row) by (by intros []). Qed.

Lemma plan_of_event e : plan_of e = plan_event e.
Proof. by destruct e. Qed.

Lemma plan_scope_planned e : plan_scope e = planned_scope e.
Proof. by destruct e. Qed.

Lemma plan_allowed_iff h e : plan_admissible h e <-> plan_allowed h e.
Proof.
  assert (Hs : forall x scope, plan_scope x = Some scope <-> is_Some (planned_scope x) /\ scope = event_scope x).
  { intros x scope. rewrite plan_scope_planned. destruct x; cbn; split; try (by intros [= <-]; split; [by eexists|]); try done;
      try (by intros [[? ?] _]). by intros [_ ->]. }
  unfold plan_admissible, plan_allowed. split.
  - intros Ha act_id He Hact e' Hin He' Hact'. apply (Ha (event_scope e) act_id) with e'; try done; by apply Hs.
  - intros Ha scope act_id [He ->]%Hs Hact e' scope' Hin [He' ->]%Hs Hact'. by apply (Ha act_id).
Qed.

Lemma counter_of_row e : counter_of to_string e = sample_row e.
Proof. by destruct e. Qed.

Lemma sample_allowed_iff h e : counter_admissible to_string h e <-> sample_allowed h e.
Proof.
  unfold counter_admissible, sample_allowed. split.
  - intros Ha identity value e' identity' value' He Hin He' Hk. pose proof (Ha) as Hx.
    specialize (Ha _ e' _ ltac:(by rewrite counter_of_row; unfold sample_row; rewrite He) Hin
      ltac:(by rewrite counter_of_row; unfold sample_row; rewrite He') Hk). done.
  - intros Ha s e' s' He Hin He' Hk. rewrite counter_of_row in He, He'. unfold sample_row in *.
    destruct (sampled e) as [[identity value]|] eqn:E; [|done]. destruct (sampled e') as [[identity' value']|] eqn:E'; [|done].
    injection He as <-. injection He' as <-. cbn [ProjectedCounter_identity ProjectedCounter_value ProjectedCounter_series_key] in *.
    by apply (Ha identity value e').
Qed.

Lemma usage_of_act e : usage_of e = act_usage e.
Proof. by destruct e. Qed.

End Shown.

(** ** The truncations of the code *)

Lemma elem_of_truncations h t :
  t ∈ truncations h <-> exists h1 e h2, h = h1 ++ e :: h2 /\ truncation_of h2 e = Some t.
Proof.
  induction h as [|x h IH]; cbn [truncations].
  - split; [by intros ?%not_elem_of_nil|]. intros (h1 & e & h2 & Eq & _). by destruct h1.
  - assert (Hcons : (exists h1 e h2, x :: h = h1 ++ e :: h2 /\ truncation_of h2 e = Some t) <->
        truncation_of h x = Some t \/ exists h1 e h2, h = h1 ++ e :: h2 /\ truncation_of h2 e = Some t).
    { split.
      - intros (h1 & e & h2 & Eq & Ht). destruct h1 as [|y h1]; injection Eq as -> ->; [by left|right; by exists h1, e, h2].
      - intros [Ht|(h1 & e & h2 & -> & Ht)]; [by exists [], x, h|by exists (x :: h1), e, h2]. }
    rewrite Hcons, <- IH. destruct (truncation_of h x) as [t'|]; [rewrite elem_of_cons|]; naive_solver.
Qed.

Lemma truncation_sequence later e t : truncation_of later e = Some t -> ProjectedTruncation_sequence t = event_sequence e.
Proof. destruct e; cbn; try done; case_match; by intros [= <-]. Qed.

(** The events of a history are in the order of their sequences. *)
Lemma recorded_ordered run_id A h : recorded run_id A h -> StronglySorted (fun e e' => event_sequence e < event_sequence e') h.
Proof.
  induction 1 as [|h e Hr IH (_ & Hseq & _) _ _]; [constructor|]. apply StronglySorted_app_2; [|done|repeat constructor].
  intros x y Hx ->%list_elem_of_singleton. destruct (recorded_sequence _ _ _ _ Hr Hx) as [_ ?]. lia.
Qed.

Lemma truncations_ordered h :
  StronglySorted (fun e e' => event_sequence e < event_sequence e') h ->
  StronglySorted (fun t t' => ProjectedTruncation_sequence t < ProjectedTruncation_sequence t') (truncations h).
Proof.
  induction 1 as [|e h _ IH Hf]; [constructor|]. cbn [truncations]. destruct (truncation_of h e) as [t|] eqn:Et; [|done].
  constructor; [done|]. apply Forall_forall. intros t' (h1 & e' & h2 & -> & Ht')%elem_of_truncations.
  rewrite (truncation_sequence _ _ _ Et), (truncation_sequence _ _ _ Ht'). rewrite Forall_forall in Hf. apply Hf.
  apply elem_of_app. right. apply list_elem_of_here.
Qed.

(** Lists in order that have the same elements are the same. *)
Lemma sorted_same {A} (key : A -> Z) (l k : list A) :
  NoDup l -> StronglySorted (fun x y => key x <= key y) l -> StronglySorted (fun x y => key x < key y) k ->
  (forall x, x ∈ l <-> x ∈ k) -> l = k.
Proof.
  intros Hnd Hl Hk Heq. assert (Hinj : forall x y, x ∈ k -> y ∈ k -> key x = key y -> x = y).
  { clear -Hk. induction Hk as [|z k _ IH Hf]; [by intros ? ? ?%not_elem_of_nil|]. rewrite Forall_forall in Hf.
    intros x y [->|Hx]%elem_of_cons [->|Hy]%elem_of_cons E; [done|apply Hf in Hy; lia|apply Hf in Hx; lia|by apply IH]. }
  assert (Hndk : NoDup k).
  { clear -Hk. induction Hk as [|z k _ IH Hf]; constructor; [|done]. intros Hz. rewrite Forall_forall in Hf. apply Hf in Hz. lia. }
  assert (Hle : StronglySorted (fun x y => key x <= key y) k).
  { clear -Hk. induction Hk as [|z k _ IH Hf]; constructor; [done|]. eapply Forall_impl; [exact Hf|]. cbn. lia. }
  apply (StronglySorted_unique_strong (fun x y => key x <= key y)); [|done|done|by apply NoDup_Permutation].
  intros x y Hx Hy ??. apply Hinj; [by apply Heq|done|lia].
Qed.

Lemma NoDup_omap_key {A B K} (f : A -> K) (g : A -> option B) (k : B -> option K) (l : list A) :
  (forall x y, g x = Some y -> k y = Some (f x)) -> NoDup (f <$> l) -> NoDup (omap g l).
Proof.
  intros Hk. induction l as [|x l IH]; cbn [fmap list_fmap omap list_omap]; [constructor|]. intros [Hx Hl]%NoDup_cons.
  destruct (g x) as [y|] eqn:Hg; [|by apply IH]. constructor; [|by apply IH]. intros (x' & Hx' & Hg')%list_elem_of_omap.
  apply Hk in Hg, Hg'. apply Hx. apply list_elem_of_fmap. exists x'. split; [congruence|done].
Qed.

Section Truncations.
Context (run_id : CanonicalUuid) (h : history) (Hr : recorded run_id message_admissible h).

(** A message has one completion. *)
Lemma one_completion e e' id :
  e ∈ h -> e' ∈ h -> message_of e = Some id -> message_of e' = Some id ->
  message_completed e <> None -> message_completed e' <> None -> e = e'.
Proof.
  intros He He' Hid Hid' Hc Hc'. apply list_elem_of_split in He as (h1 & h2 & Eh).
  assert (Hsplit : forall g1 x g2 y g3, h = g1 ++ x :: g2 ++ y :: g3 -> message_of x = Some id -> message_of y = Some id ->
    message_completed x <> None -> message_completed y <> None -> False).
  { intros g1 x g2 y g3 Eq Hx Hy Hcx Hcy. assert (Hrec : recorded run_id message_admissible ((g1 ++ x :: g2) ++ [y])).
    { apply (recorded_app _ _ _ g3). rewrite Eq in Hr. by rewrite <-!(assoc_L (++)). }
    apply recorded_inv in Hrec as (_ & _ & _ & Ha). destruct (Ha id Hy) as (_ & Hno & _). apply Hcx, Hno, elem_of_about.
    split; [done|]. apply elem_of_app. right. apply list_elem_of_here. }
  rewrite Eh in He'. apply elem_of_app in He' as [He'|He'].
  - exfalso. apply list_elem_of_split in He' as (g1 & g2 & ->). apply (Hsplit g1 e' g2 e h2); try done. by rewrite Eh, <-(assoc_L (++)).
  - apply elem_of_cons in He' as [->|He']; [done|]. exfalso. apply list_elem_of_split in He' as (g1 & g2 & ->).
    by apply (Hsplit h1 e g1 e' g2).
Qed.

(** The events of a message have one scope. *)
Lemma first_scope e id first :
  e ∈ h -> message_of e = Some id -> head (about message_of id h) = Some first -> event_scope first = event_scope e.
Proof.
  intros He Hid Hf. destruct (recorded_at _ _ _ _ Hr He) as (h1 & h2 & Eh & _ & _ & _ & Ha). destruct (Ha id Hid) as (Hs & _ & _).
  rewrite Eh, cons_middle, (assoc_L (++)) in Hf. unfold about in *. rewrite !filter_app in Hf.
  destruct (filter (fun x => message_of x = Some id) h1) as [|x l]; cbn [app head] in *.
  - rewrite filter_cons, decide_True in Hf by done. by injection Hf as ->.
  - injection Hf as ->. by apply Hs.
Qed.

Lemma message_truncation_spec t :
  t ∈ omap message_truncation (table message_of message_row h) <->
  exists c, DiagnosticEvent_AgentMessageCompleted c ∈ h /\ AgentMessageCompleted_truncated c = true /\
    t = ProjectedTruncation_AgentMessage (event_sequence (DiagnosticEvent_AgentMessageCompleted c))
          (event_scope (DiagnosticEvent_AgentMessageCompleted c)) (AgentMessageCompleted_message_id c).
Proof.
  rewrite list_elem_of_omap. split.
  - intros (r & (id & _ & Hrow)%elem_of_table & Ht). pose proof (message_row_fields h id r Hrow) as (_ & Hc & first & Hf & Hs).
    assert (Hid : ProjectedMessage_message_id r = id).
    { destruct (message_row_some id (about message_of id h)) as (r' & Hr' & <-); [by intros E; rewrite E in Hf|]. congruence. }
    unfold message_truncation in Ht. destruct (ProjectedMessage_completion r) as [completion|] eqn:Ec; cbn [mbind option_bind] in Ht; [|done].
    symmetry in Hc. apply head_Some_elem_of, list_elem_of_omap in Hc as (e & [He Hin]%elem_of_about & Hce).
    rewrite (first_scope e id first Hin He Hf) in Hs. destruct e as [| | | | |c| | | | | | | |]; try done. injection Hce as <-. cbn in Ht.
    destruct (AgentMessageCompleted_truncated c) eqn:Etr; [|done]. injection Ht as <-. exists c. split_and!; try done.
    rewrite Hs, Hid. injection He as <-. done.
  - intros (c & Hin & Htr & ->). set (e := DiagnosticEvent_AgentMessageCompleted c) in *. set (id := AgentMessageCompleted_message_id c).
    assert (Hid : message_of e = Some id) by done.
    assert (Hin' : id ∈ omap message_of h) by (apply list_elem_of_omap; by exists e).
    destruct (message_rows_ok h id Hin') as (r & Hrow & Hrid). exists r. split; [apply elem_of_table; by exists id|].
    pose proof (message_row_fields h id r Hrow) as (_ & Hc & first & Hf & Hs).
    assert (Hcomp : ProjectedMessage_completion r = message_completed e).
    { rewrite Hc. destruct (head (omap message_completed (about message_of id h))) as [completion|] eqn:Eh.
      - apply head_Some_elem_of, list_elem_of_omap in Eh as (e' & [He' Hin2]%elem_of_about & Hce').
        rewrite <- Hce'. f_equal. apply (one_completion e' e id); try done. congruence.
      - rewrite message_completed_none in Eh. symmetry. apply Eh. by apply elem_of_about. }
    unfold message_truncation. rewrite Hcomp. cbn. rewrite Htr, Hs, (first_scope e id first Hin Hid Hf), Hrid. done.
Qed.

End Truncations.

Lemma plan_truncation_spec h t :
  t ∈ omap plan_truncation (table plan_scope plan_row h) <->
  exists h1 p h2, h = h1 ++ DiagnosticEvent_AgentPlanSnapshot p :: h2 /\ AgentPlanSnapshot_truncated p = true /\
    Forall (fun e' => planned_scope e' <> Some (event_scope (DiagnosticEvent_AgentPlanSnapshot p))) h2 /\
    t = ProjectedTruncation_AgentPlan (event_sequence (DiagnosticEvent_AgentPlanSnapshot p)) (event_scope (DiagnosticEvent_AgentPlanSnapshot p)).
Proof.
  rewrite list_elem_of_omap. split.
  - intros (r & (scope & _ & Hrow)%elem_of_table & Ht). unfold plan_row in Hrow.
    destruct (last (about plan_scope scope h)) as [e|] eqn:El; cbn [mbind option_bind] in Hrow; [|done].
    assert (Hsc : plan_scope e = Some scope) by (apply last_Some_elem_of, elem_of_about in El as [? _]; done).
    apply last_filter_Some in El as (h1 & h2 & -> & Hf). destruct e as [| | | | | |p| | | | | | |]; try done.
    injection Hrow as <-. unfold plan_truncation in Ht. cbn in Ht, Hsc. destruct (AgentPlanSnapshot_truncated p) eqn:Etr; [|done].
    injection Ht as <-. injection Hsc as <-. exists h1, p, h2. split_and!; try done. eapply Forall_impl; [exact Hf|]. intros x. cbn.
    by rewrite plan_scope_planned.
  - intros (h1 & p & h2 & -> & Htr & Hf & ->). set (e := DiagnosticEvent_AgentPlanSnapshot p) in *.
    exists (ProjectedPlan_from_event p). split; [|by unfold plan_truncation; cbn; rewrite Htr].
    apply elem_of_table. exists (event_scope e). split; [apply list_elem_of_omap; exists e; split; [|done]; apply elem_of_app; right; apply list_elem_of_here|].
    unfold plan_row, about. rewrite cons_middle, !filter_app.
    assert (Hnil : filter (fun x => plan_scope x = Some (event_scope e)) h2 = []).
    { clear -Hf. induction Hf as [|x l Hx _ IH]; [done|]. rewrite filter_cons, decide_False; [done|]. by rewrite plan_scope_planned. }
    rewrite Hnil, app_nil_r, filter_cons, decide_True, filter_nil, last_snoc by done. done.
Qed.

Lemma collect_truncations_shown run_id h :
  recorded run_id message_admissible h -> collect_truncations (message_view run_id h) (plan_view run_id h) = truncations h.
Proof.
  intros Hr. apply (sorted_same ProjectedTruncation_sequence).
  - unfold collect_truncations. rewrite sort_by_key_perm. apply NoDup_app. split_and!.
    + apply (NoDup_omap_key ProjectedMessage_message_id _ (fun t => match t with ProjectedTruncation_AgentMessage _ _ id => Some id | _ => None end)).
      * intros r t. unfold message_truncation. destruct (ProjectedMessage_completion r); cbn [mbind option_bind]; [|done].
        case_match; [|done]. by intros [= <-].
      * cbn [message_view MessageReadModel_messages]. rewrite table_keys_rows by apply message_rows_ok. apply first_occurrences_nodup.
    + intros t Ht1 Ht2. apply (message_truncation_spec run_id h Hr) in Ht1 as (c & _ & _ & ->).
      apply plan_truncation_spec in Ht2 as (? & ? & ? & _ & _ & _ & ?). done.
    + apply (NoDup_omap_key ProjectedPlan_scope _ (fun t => match t with ProjectedTruncation_AgentPlan _ scope => Some scope | _ => None end)).
      * intros r t. unfold plan_truncation. case_match; [|done]. by intros [= <-].
      * cbn [plan_view PlanReadModel_plans]. rewrite table_keys_rows by apply plan_rows_ok. apply first_occurrences_nodup.
  - apply sort_by_key_sorted.
  - by eapply truncations_ordered, recorded_ordered.
  - intros t. unfold collect_truncations. rewrite sort_by_key_perm, elem_of_app, elem_of_truncations.
    cbn [message_view MessageReadModel_messages plan_view PlanReadModel_plans].
    rewrite (message_truncation_spec run_id h Hr), plan_truncation_spec. split.
    + intros [(c & Hin & Htr & ->)|(h1 & p & h2 & -> & Htr & Hf & ->)].
      * apply list_elem_of_split in Hin as (h1 & h2 & ->). exists h1, (DiagnosticEvent_AgentMessageCompleted c), h2.
        split; [done|]. cbn. by rewrite Htr.
      * exists h1, (DiagnosticEvent_AgentPlanSnapshot p), h2. split; [done|]. cbn [truncation_of]. by rewrite Htr, bool_decide_true.
    + intros (h1 & e & h2 & -> & Ht). destruct e as [| | | | |c|p| | | | | | |]; cbn [truncation_of] in Ht; try done.
      * left. exists c. destruct (AgentMessageCompleted_truncated c); [|done]. injection Ht as <-. split_and!; try done.
        apply elem_of_app. right. apply list_elem_of_here.
      * right. exists h1, p, h2. destruct (AgentPlanSnapshot_truncated p); [|done]. cbn [andb] in Ht. case_bool_decide as Hf; [|done].
        by injection Ht as <-.
Qed.

(** ** The projection *)

Section Correct.
Context (to_string : CounterSeriesIdentity -> string) `{LAWS : BigUintLaws}.

Lemma snapshot_view_shown run_id h :
  recorded run_id message_admissible h -> snapshot_view to_string run_id h = snapshot_shown to_string run_id h.
Proof.
  intros Hr. unfold snapshot_view, snapshot_shown. rewrite (collect_truncations_shown run_id h Hr). f_equal.
  - unfold span_view. f_equal. apply omap_eq, span_row_in.
  - unfold message_view. f_equal. apply table_ext; [done|apply message_row_shown].
  - unfold plan_view. f_equal. apply table_ext; [apply plan_scope_planned|]. intros scope evs. unfold plan_row, shown_plan.
    destruct (last evs); [apply plan_of_event|done].
  - unfold counter_view. f_equal. apply table_ext.
    + intros e. unfold counter_key, sampled_key. rewrite counter_of_row. unfold sample_row. by destruct (sampled e) as [[? ?]|].
    + intros key evs. unfold counter_row, shown_counter. destruct (last evs); [apply counter_of_row|done].
  - unfold usage_view, shown_usage. by rewrite (omap_eq usage_of act_usage h usage_of_act).
Qed.

Lemma snapshot_allowed_iff h e : snapshot_admissible to_string h e <-> snapshot_allowed to_string h e.
Proof. unfold snapshot_admissible, snapshot_allowed. by rewrite plan_allowed_iff, sample_allowed_iff. Qed.

(** C9: the snapshot projection never panics, and it accepts exactly the histories
    of the run: numbered from one without a gap, valid as streams, and made of
    events that their messages, plans, counter series and acts admit.  Its result
    is the snapshot of the history, field by field from the events: every span
    that was started with its first finish, every message with its text and
    completion, the latest plan of every scope, the latest sample of every series,
    the final usages with their aggregates, every gap, and, in the order of the
    events, the messages that were completed truncated and the truncated plans
    that no later plan of their scope replaced. *)
Theorem project_snapshot_correct run_id events :
  Forall tokens_typed events ->
  (exists r, project_snapshot to_string run_id events = Some r) /\
  forall m, project_snapshot to_string run_id events = Some (Ok m) <->
    numbered run_id events /\ stream_ok events /\
    (forall h e t, events = h ++ e :: t -> snapshot_allowed to_string h e) /\
    m = snapshot_shown to_string run_id events.
Proof.
  intros Hty. split.
  - destruct (project_total run_id _ (snapshot_view to_string run_id) tokens_typed (snapshot_admissible to_string) events Hty)
      as (r & Hr & _). by exists r.
  - intros m. unfold project_snapshot.
    rewrite (project_correct run_id _ (snapshot_view to_string run_id) tokens_typed (snapshot_admissible to_string)) by done.
    assert (Hview : recorded run_id (snapshot_admissible to_string) events ->
      snapshot_view to_string run_id events = snapshot_shown to_string run_id events).
    { intros Hr. apply snapshot_view_shown. by destruct (snapshot_recorded _ _ _ Hr) as (_ & ? & _). }
    pose proof (recorded_iff run_id (snapshot_admissible to_string) events) as Hrec. split.
    + intros [Hr ->]. rewrite (Hview Hr). apply Hrec in Hr as (Hn & Hs & Ha). split_and!; try done.
      intros h e t E. apply snapshot_allowed_iff. by apply (Ha h e t).
    + intros (Hn & Hs & Ha & ->). assert (Hr : recorded run_id (snapshot_admissible to_string) events).
      { apply Hrec. split_and!; try done. intros h e t E. apply snapshot_allowed_iff. by apply (Ha h e t). }
      split; [done|]. by rewrite (Hview Hr).
Qed.

End Correct.

(** *** Witness *)

(** A message that was cut, and two plans of one act that were. *)
Definition sample_truncated : list DiagnosticEvent :=
  let at_ sequence := mkDiagnosticEventHeader EVENT_SCHEMA_VERSION (mkCanonicalUuid 7) sequence (10 * sequence) sample_usage_scope [] in
  [DiagnosticEvent_AgentPlanSnapshot (mkAgentPlanSnapshot (at_ 1) [] true);
   DiagnosticEvent_AgentMessageCompleted (mkAgentMessageCompleted (at_ 2) (mkRunLocalId "message") 5 5 true);
   DiagnosticEvent_AgentPlanSnapshot (mkAgentPlanSnapshot (at_ 3) [] true)].

Lemma sample_truncated_typed : Forall tokens_typed sample_truncated.
Proof. repeat constructor; by intros event [=]. Qed.

Lemma project_snapshot_correct_witness :
  exists m, @project_snapshot sample_to_string decimal_biguint (mkCanonicalUuid 7) sample_truncated = Some (Ok m) /\
    m = @snapshot_shown sample_to_string decimal_biguint (mkCanonicalUuid 7) sample_truncated /\
    SnapshotReadModel_truncations m =
      [ProjectedTruncation_AgentMessage 2 sample_usage_scope (mkRunLocalId "message"); ProjectedTruncation_AgentPlan 3 sample_usage_scope].
Proof.
  destruct (@project_snapshot_correct sample_to_string decimal_biguint decimal_biguint_laws
    (mkCanonicalUuid 7) sample_truncated sample_truncated_typed) as [_ H].
  match eval vm_compute in
    (@project_snapshot sample_to_string decimal_biguint (mkCanonicalUuid 7) sample_truncated) with
  | Some (Ok ?m) =>
      assert (Hm : @project_snapshot sample_to_string decimal_biguint (mkCanonicalUuid 7) sample_truncated = Some (Ok m))
        by (vm_compute; reflexivity);
      exists m; split; [exact Hm|]; split; [exact (proj2 (proj2 (proj2 (proj1 (H m) Hm))))|reflexivity]
  end.
Defined.
