(* ===== verification/Key.v ===== *)
(** * Sortable store keys

    Models [troupe-diagnostics-runtime/src/store/key.rs].  SQLite compares
    [BLOB] keys byte by byte, so a sequence is stored as its eight big-endian
    bytes.  A byte is a [Z] between 0 and 255 and [Ord] on the array is the
    lexicographic comparison that [derive] generates. *)

From S2P Require Import Prelude Wire.

Definition WIDTH : nat := 8.

Record SortableU64Key := mkSortableU64Key { into_bytes : list Z }.

#[export] Instance SortableU64Key_eq_dec : EqDecision SortableU64Key.
Proof. solve_decision. Defined.

Inductive StoreKeyError := InvalidWidth | NonCanonicalDecimal | OutOfRange.

(** [u64::to_be_bytes] and [u64::from_be_bytes], for an array of [n] bytes. *)
Fixpoint to_be_bytes (n : nat) (value : Z) : list Z :=
  match n with
  | O => []
  | S n' => Z.land (Z.shiftr value (8 * Z.of_nat n')) 255 :: to_be_bytes n' value
  end.

Definition from_be_bytes (l : list Z) : Z :=
  fold_left (fun acc byte => Z.lor (Z.shiftl acc 8) byte) l 0.

Definition SortableU64Key_new (value : Z) : SortableU64Key :=
  mkSortableU64Key (to_be_bytes WIDTH value).

Definition from_slice (slice : list Z) : result SortableU64Key StoreKeyError :=
  if Nat.eqb (length slice) WIDTH then Ok (mkSortableU64Key slice) else Err InvalidWidth.

Definition parse_canonical_decimal (value : string) : result SortableU64Key StoreKeyError :=
  if bool_decide (value = EmptyString) || negb (forallb is_ascii_digit (bytes value))
     || ((1 <? str_len value) && starts_with "0" value) then
    Err NonCanonicalDecimal
  else
    match parse_u64 value with
    | Some v => Ok (SortableU64Key_new v)
    | None => Err OutOfRange
    end.

Definition get (key : SortableU64Key) : Z := from_be_bytes (into_bytes key).

Definition canonical_decimal (key : SortableU64Key) : string := u64_to_string (get key).

(** The derived [Ord]. *)
Fixpoint lex_compare (l k : list Z) : comparison :=
  match l, k with
  | [], [] => Eq
  | [], _ :: _ => Lt
  | _ :: _, [] => Gt
  | x :: l', y :: k' =>
      match Z.compare x y with
      | Eq => lex_compare l' k'
      | c => c
      end
  end.

Definition key_compare (a b : SortableU64Key) : comparison :=
  lex_compare (into_bytes a) (into_bytes b).

(** ** Big-endian bytes *)

Definition is_byte (b : Z) : Prop := 0 <= b < 256.

Lemma low_byte z : Z.land z 255 = z mod 256.
Proof. apply (Z.land_ones z 8). lia. Qed.

Lemma push_byte acc byte : 0 <= acc -> is_byte byte -> Z.lor (Z.shiftl acc 8) byte = acc * 256 + byte.
Proof.
  intros Ha Hb. pose proof (Z.add_lor_land (Z.shiftl acc 8) byte) as Hsum.
  assert (Z.land (Z.shiftl acc 8) byte = 0) as Hl.
  { apply Z.bits_inj'. intros n Hn. rewrite Z.land_spec, Z.bits_0.
    destruct (Z.ltb n 8) eqn:E.
    - rewrite Z.shiftl_spec_low by lia. done.
    - rewrite andb_comm. replace (Z.testbit byte n) with false; [done|].
      symmetry. destruct (decide (byte = 0)) as [->|]; [apply Z.bits_0|].
      apply Z.bits_above_log2; [unfold is_byte in *; lia|].
      apply Z.log2_lt_pow2; [unfold is_byte in *; lia|].
      eapply Z.lt_le_trans; [apply Hb|]. change 256 with (2 ^ 8). apply Z.pow_le_mono_r; lia. }
  rewrite (Z.shiftl_mul_pow2 acc) in * by lia. change (2 ^ 8) with 256 in *. lia.
Qed.

Lemma fold_bytes_value l : Forall is_byte l -> forall acc, 0 <= acc ->
  fold_left (fun acc byte => Z.lor (Z.shiftl acc 8) byte) l acc =
  acc * 256 ^ list_len l + from_be_bytes l /\ 0 <= from_be_bytes l < 256 ^ list_len l.
Proof.
  unfold from_be_bytes. induction 1 as [|b l Hb Hl IH]; intros acc Hacc; cbn [fold_left].
  - unfold list_len. cbn. lia.
  - rewrite list_len_cons, Z.pow_add_r by nonneg.
    rewrite (push_byte acc), (push_byte 0) by (done || lia).
    destruct (IH (acc * 256 + b) ltac:(unfold is_byte in *; nia)) as [-> B].
    destruct (IH (0 * 256 + b) ltac:(unfold is_byte in *; lia)) as [-> _].
    unfold is_byte in *. nia.
Qed.

Lemma from_be_cons b l :
  is_byte b -> Forall is_byte l -> from_be_bytes (b :: l) = b * 256 ^ list_len l + from_be_bytes l.
Proof.
  intros Hb Hl. unfold from_be_bytes at 1. cbn [fold_left].
  rewrite push_byte by (done || lia).
  by destruct (fold_bytes_value l Hl (0 * 256 + b) ltac:(unfold is_byte in *; lia)) as [-> _].
Qed.

Lemma from_be_bounds l : Forall is_byte l -> 0 <= from_be_bytes l < 256 ^ list_len l.
Proof. intros Hl. by destruct (fold_bytes_value l Hl 0) as [_ ?]. Qed.

Lemma to_be_bytes_length n z : length (to_be_bytes n z) = n.
Proof. induction n; cbn; congruence. Qed.

Lemma to_be_bytes_byte n z : Forall is_byte (to_be_bytes n z).
Proof.
  induction n; cbn; constructor; [|done]. rewrite low_byte. apply Z.mod_pos_bound. lia.
Qed.

Lemma to_be_bytes_value n z : from_be_bytes (to_be_bytes n z) = z mod 256 ^ Z.of_nat n.
Proof.
  induction n as [|n IH]; cbn [to_be_bytes].
  - cbn. by rewrite Z.mod_1_r.
  - rewrite from_be_cons, IH, low_byte by
      (rewrite ?low_byte; apply to_be_bytes_byte || (apply Z.mod_pos_bound; lia)).
    unfold list_len. rewrite to_be_bytes_length, Z.shiftr_div_pow2 by lia.
    rewrite Z.pow_mul_r by lia. change (2 ^ 8) with 256.
    rewrite Nat2Z.inj_succ, Z.pow_succ_r by lia.
    rewrite (Z.mul_comm 256), Z.rem_mul_r by
      (first [apply Z.pow_nonzero; lia | apply Z.pow_pos_nonneg; lia | lia]).
    lia.
Qed.

(** Lexicographic order of equally long byte strings is numeric order. *)
Lemma lex_compare_value l k :
  Forall is_byte l -> Forall is_byte k -> length l = length k ->
  lex_compare l k = Z.compare (from_be_bytes l) (from_be_bytes k).
Proof.
  intros Hl. revert k. induction Hl as [|x l Hx Hl IH]; intros k Hk Hlen.
  - by destruct k.
  - destruct k as [|y k]; [done|]. inversion Hk as [|? ? Hy Hk']; subst. injection Hlen as Hlen.
    cbn [lex_compare]. rewrite !from_be_cons, (IH k) by done.
    replace (list_len k) with (list_len l) by (unfold list_len; congruence).
    pose proof (from_be_bounds l Hl) as Bl. pose proof (from_be_bounds k Hk') as Bk.
    replace (list_len k) with (list_len l) in Bk by (unfold list_len; congruence).
    symmetry. generalize dependent (256 ^ list_len l). intros P Bl Bk.
    destruct (Z.compare_spec x y) as [->|Hc|Hc].
    + apply Z.add_compare_mono_l.
    + apply Z.compare_lt_iff. assert ((x + 1) * P <= y * P) by (apply Z.mul_le_mono_nonneg_r; lia). lia.
    + apply Z.compare_gt_iff. assert ((y + 1) * P <= x * P) by (apply Z.mul_le_mono_nonneg_r; lia). lia.
Qed.

Lemma key_get_new v : 0 <= v <= int_max U64 -> get (SortableU64Key_new v) = v.
Proof.
  intros Hv. unfold get, SortableU64Key_new. cbn [into_bytes]. rewrite to_be_bytes_value.
  apply Z.mod_small. change (256 ^ Z.of_nat WIDTH) with (int_max U64 + 1). lia.
Qed.

Lemma key_new_inj a b :
  0 <= a <= int_max U64 -> 0 <= b <= int_max U64 ->
  SortableU64Key_new a = SortableU64Key_new b -> a = b.
Proof. intros Ha Hb E. by rewrite <-(key_get_new a), E, key_get_new. Qed.

#[export] Hint Rewrite key_get_new using (cbn in *; lia) : troupe.

(** The store accepts the same decimals as the wire format. *)
Lemma parse_canonical_decimal_ok value key :
  parse_canonical_decimal value = Ok key <->
  exists z, parse_canonical_u64 value = Ok z /\ key = SortableU64Key_new z.
Proof.
  unfold parse_canonical_decimal, parse_canonical_u64, validate_canonical_nonnegative_integer.
  case_bool_decide; cbn [orb]; [naive_solver|].
  destruct (negb (forallb _ _)); cbn [orb]; [naive_solver|].
  destruct ((1 <? str_len value) && starts_with "0" value); cbn; [naive_solver|].
  destruct (parse_u64 value); cbn; naive_solver.
Qed.

(** The three guards of the decimal parser are the wire format's. *)
Lemma decimal_guard value :
  bool_decide (value = EmptyString) || negb (forallb is_ascii_digit (bytes value))
  || ((1 <? str_len value) && starts_with "0" value) = false <->
  all_digits (bytes value) /\ canonical_digits (bytes value).
Proof.
  rewrite <-validate_canonical_spec. unfold validate_canonical_nonnegative_integer.
  case_bool_decide; cbn [orb]; [naive_solver|].
  destruct (negb (forallb _ _)); cbn [orb]; [naive_solver|].
  by destruct ((1 <? str_len value) && starts_with "0" value).
Qed.

Lemma decimal_errors :
  (forall value, parse_canonical_decimal value = Err NonCanonicalDecimal <->
     ~ (all_digits (bytes value) /\ canonical_digits (bytes value))) /\
  (forall value, parse_canonical_decimal value = Err OutOfRange <->
     all_digits (bytes value) /\ canonical_digits (bytes value) /\
     int_max U64 < digits_value 0 (bytes value)).
Proof.
  split; intros value; pose proof (decimal_guard value) as Hg; unfold parse_canonical_decimal;
    destruct (_ || _) eqn:E.
  - split; [|done]. by intros _ H%Hg.
  - pose proof (proj1 Hg eq_refl) as Hc. destruct (parse_u64 value); naive_solver.
  - split; [done|]. intros (Hd & Hc & _). by pose proof (proj2 Hg (conj Hd Hc)).
  - destruct (proj1 Hg eq_refl) as [Hd Hc].
    assert (bytes value <> []) by (destruct Hc as (? & ? & -> & _); done).
    rewrite parse_u64_digits by done. pose proof (digits_value_bounds _ Hd).
    destruct (checked U64 _) eqn:Ec.
    + apply checked_some in Ec as [-> ?]. split; [done|]. intros (_ & _ & ?). lia.
    + apply checked_none in Ec. split; [|done]. intros _. split; [done|]. split; [done|].
      cbn in *. lia.
Qed.

(** ** Properties *)

(** The byte order of the keys is the numeric order of the sequences, for
    all [u64] values: SQLite's comparison of the stored blobs sorts events by
    sequence, and reading a key back gives the value it was made from. *)
Theorem sortable_key_order a b :
  0 <= a <= int_max U64 -> 0 <= b <= int_max U64 ->
  key_compare (SortableU64Key_new a) (SortableU64Key_new b) = Z.compare a b /\
  get (SortableU64Key_new a) = a /\
  from_slice (into_bytes (SortableU64Key_new a)) = Ok (SortableU64Key_new a).
Proof.
  intros Ha Hb. split; [|split; [by apply key_get_new|]].
  - unfold key_compare. rewrite lex_compare_value; try apply to_be_bytes_byte.
    + fold (get (SortableU64Key_new a)) (get (SortableU64Key_new b)).
      by rewrite !key_get_new.
    + unfold SortableU64Key_new. cbn [into_bytes]. by rewrite !to_be_bytes_length.
  - unfold from_slice, SortableU64Key_new. cbn [into_bytes]. by rewrite to_be_bytes_length.
Qed.

Lemma sortable_key_order_witness :
  key_compare (SortableU64Key_new 255) (SortableU64Key_new 256) = Lt /\
  get (SortableU64Key_new 255) = 255 /\
  from_slice (into_bytes (SortableU64Key_new 255)) = Ok (SortableU64Key_new 255).
Proof. apply (sortable_key_order 255 256); vm_compute; split; discriminate. Defined.

(** The decimal column of the store round-trips: a key made from a [u64]
    prints to a text that parses to the same key; and the parser rejects a
    text exactly when it is not a canonical numeral ([NonCanonicalDecimal]) or
    denotes a value above [u64::MAX] ([OutOfRange]). *)
Theorem sortable_key_decimal :
  (forall v, 0 <= v <= int_max U64 ->
     parse_canonical_decimal (canonical_decimal (SortableU64Key_new v)) = Ok (SortableU64Key_new v)) /\
  (forall value key, parse_canonical_decimal value = Ok key -> canonical_decimal key = value) /\
  (forall value, parse_canonical_decimal value = Err NonCanonicalDecimal <->
     ~ (all_digits (bytes value) /\ canonical_digits (bytes value))) /\
  (forall value, parse_canonical_decimal value = Err OutOfRange <->
     all_digits (bytes value) /\ canonical_digits (bytes value) /\
     int_max U64 < digits_value 0 (bytes value)).
Proof.
  split; [|split].
  - intros v Hv. apply parse_canonical_decimal_ok. exists v. split; [|done].
    unfold canonical_decimal. rewrite key_get_new by done. by apply parse_print_u64.
  - intros value key (z & Hz & ->)%parse_canonical_decimal_ok.
    apply print_parse_u64 in Hz as [Hr Hp]. unfold canonical_decimal. by rewrite key_get_new.
  - apply decimal_errors.
Qed.
