(* ===== verification/Hub.v ===== *)
(** * The diagnostic hub

    Models [troupe-diagnostics-core/src/hub.rs]: the admission of an event (the
    sequence is assigned, the event is built, encoded, reserved, validated,
    committed and delivered) and the subscriber-local stream.

    The traits [AdmissionReserver] and [MandatoryDurableReserver] are classes.
    A reservation shares the state of its reserver, so its [commit] and its
    [Drop] take that state.  [LiveEventNotifier] and [ActEventSubscriber] are
    implemented elsewhere; a notifier or subscriber is a state with a delivery
    function.  The canonical encoding, [serde_json::to_vec], is a parameter.
    [Arc] sharing is not observable here: an accepted event is immutable. *)

From S2P Require Import Prelude Wire Scalar Kinds Detail Event Validate ValidateSpec.

(** ** Accepted events and receipts *)

Record EventIdentity := mkEventIdentity { ei_run_id : CanonicalUuid; ei_sequence : Z }.

#[export] Instance EventIdentity_eq_dec : EqDecision EventIdentity.
Proof. solve_decision. Defined.

Record AdmissionSize := mkAdmissionSize { size_event_count : Z; size_canonical_bytes : Z }.

Definition one_event (canonical_bytes : Z) : AdmissionSize := mkAdmissionSize 1 canonical_bytes.

Inductive CueCaptureDecision :=
| Capture
| Suppress
| Resume (suppressed_cues : Z).

#[export] Instance CueCaptureDecision_eq_dec : EqDecision CueCaptureDecision.
Proof. solve_decision. Defined.

Record AcceptedDiagnosticEvent := mkAcceptedDiagnosticEvent {
  ae_event : DiagnosticEvent;
  ae_canonical_bytes : list ascii;
  ae_built_in_span_kind : option SpanKind;
  ae_subscriber_local : bool;
}.

#[export] Instance AcceptedDiagnosticEvent_eq_dec : EqDecision AcceptedDiagnosticEvent.
Proof. solve_decision. Defined.

Definition event_identity (event : DiagnosticEvent) : EventIdentity :=
  mkEventIdentity (event_run_id event) (event_sequence event).

Definition identity (accepted : AcceptedDiagnosticEvent) : EventIdentity :=
  event_identity (ae_event accepted).

(** The sequence of an accepted event, as every consumer reads it. *)
Abbreviation accepted_sequence a := (ei_sequence (identity a)).

Record DeliveryFailure := mkDeliveryFailure { df_code : string }.

Inductive DeliveryOutcome :=
| NotConfigured
| Delivered
| Failed (failure : DeliveryFailure).

Record AdmissionReceipt := mkAdmissionReceipt {
  ar_accepted : AcceptedDiagnosticEvent;
  ar_live_delivery : DeliveryOutcome;
  ar_subscriber_delivery : DeliveryOutcome;
}.

(** [Some(target) => match target.deliver(..) { .. }, None => NotConfigured]. *)
Definition delivery {T} (deliver : T -> AcceptedDiagnosticEvent -> T * result unit DeliveryFailure)
    (target : option T) (accepted : AcceptedDiagnosticEvent) : option T * DeliveryOutcome :=
  match target with
  | Some t =>
      match deliver t accepted with
      | (t', Ok _) => (Some t', Delivered)
      | (t', Err failure) => (Some t', Failed failure)
      end
  | None => (None, NotConfigured)
  end.

(** ** Reservers *)

Class AdmissionReserver (R Error Reservation : Type) := {
  try_reserve : R -> AdmissionSize -> R * result Reservation Error;
  try_reserve_fatal : R -> AdmissionSize -> R * result Reservation Error;
  reservation_commit : R -> Reservation -> AcceptedDiagnosticEvent -> R;
  reservation_drop : R -> Reservation -> R;
}.

Class MandatoryDurableReserver (R Error Reservation : Type)
    `{!AdmissionReserver R Error Reservation} := {
  try_reserve_cue : R -> AdmissionSize -> R * result Reservation Error;
  begin_cue_capture : R -> R * result CueCaptureDecision Error;
  finish_cue_capture : R -> R * result (option Z) Error;
}.

(** What the hub relies on: a reserver holds the events that were committed to
    it, in order, and reserving or giving up a reservation changes nothing of
    what it holds. *)
Class ReserverLaws (R Error Reservation : Type)
    `{MD : MandatoryDurableReserver R Error Reservation} := {
  held : R -> list AcceptedDiagnosticEvent;
  held_reserve : forall r size, held (try_reserve r size).1 = held r;
  held_reserve_fatal : forall r size, held (try_reserve_fatal r size).1 = held r;
  held_reserve_cue : forall r size, held (try_reserve_cue r size).1 = held r;
  held_commit : forall r res accepted,
    held (reservation_commit r res accepted) = held r ++ [accepted];
  held_drop : forall r res, held (reservation_drop r res) = held r;
  held_begin_cue : forall r, held (begin_cue_capture r).1 = held r;
  held_finish_cue : forall r, held (finish_cue_capture r).1 = held r;
}.

(** ** The hub *)

Inductive HubAdmissionError (E : Type) :=
| HubStatePoisoned
| HubSequenceExhausted
| CandidateIdentityMismatch (expected actual : EventIdentity)
| HubCanonicalEncoding
| HubReference (error : ReferenceValidationError)
| HubReservation (error : E).
Arguments HubStatePoisoned {E}.
Arguments HubSequenceExhausted {E}.
Arguments CandidateIdentityMismatch {E} _ _.
Arguments HubCanonicalEncoding {E}.
Arguments HubReference {E} _.
Arguments HubReservation {E} _.

Record HubState (R N : Type) := mkHubState {
  hs_run_id : CanonicalUuid;
  hs_next_sequence : option Z;
  hs_reserver : R;
  hs_validator : ReferenceValidator;
  hs_live_notifier : option N;
}.
Arguments mkHubState {R N} _ _ _ _ _.
Arguments hs_run_id {R N} _.
Arguments hs_next_sequence {R N} _.
Arguments hs_reserver {R N} _.
Arguments hs_validator {R N} _.
Arguments hs_live_notifier {R N} _.

Record DiagnosticHub (R N : Type) := mkDiagnosticHub {
  hub_run_id : CanonicalUuid;
  hub_state : Mutex (HubState R N);
  hub_subscriber_delivery_order : Mutex unit;
}.
Arguments mkDiagnosticHub {R N} _ _ _.
Arguments hub_run_id {R N} _.
Arguments hub_state {R N} _.
Arguments hub_subscriber_delivery_order {R N} _.

Definition DiagnosticHub_new {R N} (run_id : CanonicalUuid) (reserver : R)
    (live_notifier : option N) : DiagnosticHub R N :=
  mkDiagnosticHub run_id
    (Mutex_new (mkHubState run_id (Some 1) reserver ReferenceValidator_new live_notifier))
    (Mutex_new tt).

Section Hub.
Context {R Error Reservation N S : Type} `{!AdmissionReserver R Error Reservation}.
Context (to_vec : DiagnosticEvent -> option (list ascii)).
Context (notify : N -> AcceptedDiagnosticEvent -> N * result unit DeliveryFailure).
Context (deliver : S -> AcceptedDiagnosticEvent -> S * result unit DeliveryFailure).

Abbreviation HubResult := (result AdmissionReceipt (HubAdmissionError Error)) (only parsing).

Definition set_reserver (state : HubState R N) (reserver : R) : HubState R N :=
  mkHubState (hs_run_id state) (hs_next_sequence state) reserver (hs_validator state)
    (hs_live_notifier state).

(** An admission that holds a reservation: the event, its bytes, the sequence
    that was assigned to it and the reservation. *)
Record Pending := mkPending {
  pending_event : DiagnosticEvent;
  pending_bytes : list ascii;
  pending_next : Z;
  pending_reservation : Reservation;
}.

(** [admit_inner] up to the reservation. *)
Definition admit_reserve (state : HubState R N) (candidate : EventIdentity -> DiagnosticEvent)
    (reserve : R -> AdmissionSize -> R * result Reservation Error)
    : HubState R N * result Pending (HubAdmissionError Error) :=
  match hs_next_sequence state with
  | None => (state, Err HubSequenceExhausted)
  | Some next =>
      let expected := mkEventIdentity (hs_run_id state) next in
      let event := candidate expected in
      let actual := event_identity event in
      if bool_decide (actual <> expected) then
        (state, Err (CandidateIdentityMismatch expected actual))
      else
        match to_vec event with
        | None => (state, Err HubCanonicalEncoding)
        | Some canonical_bytes =>
            match reserve (hs_reserver state) (one_event (list_len canonical_bytes)) with
            | (reserver, Err e) => (set_reserver state reserver, Err (HubReservation e))
            | (reserver, Ok reservation) =>
                (set_reserver state reserver, Ok (mkPending event canonical_bytes next reservation))
            end
        end
  end.

(** The rest of [admit_inner] under the state lock.  An early return drops the
    reservation. *)
Definition admit_commit (state : HubState R N) (pending : Pending)
    : HubState R N * result (AcceptedDiagnosticEvent * DeliveryOutcome) (HubAdmissionError Error) :=
  match validate (hs_validator state) (pending_event pending) with
  | (_, Err e) =>
      (set_reserver state (reservation_drop (hs_reserver state) (pending_reservation pending)),
       Err (HubReference e))
  | (validator, Ok validated) =>
      let accepted :=
        mkAcceptedDiagnosticEvent (pending_event pending) (pending_bytes pending)
          (ve_built_in_span_kind validated) false in
      let reserver := reservation_commit (hs_reserver state) (pending_reservation pending) accepted in
      let '(notifier, live_delivery) := delivery notify (hs_live_notifier state) accepted in
      (mkHubState (hs_run_id state) (checked_add U64 (pending_next pending) 1) reserver validator
         notifier,
       Ok (accepted, live_delivery))
  end.

Definition admit_locked (state : HubState R N) (candidate : EventIdentity -> DiagnosticEvent)
    (reserve : R -> AdmissionSize -> R * result Reservation Error)
    : HubState R N * result (AcceptedDiagnosticEvent * DeliveryOutcome) (HubAdmissionError Error) :=
  match admit_reserve state candidate reserve with
  | (state', Err e) => (state', Err e)
  | (state', Ok pending) => admit_commit state' pending
  end.

Definition set_hub_state (hub : DiagnosticHub R N) (state : HubState R N) : DiagnosticHub R N :=
  mkDiagnosticHub (hub_run_id hub) (with_guarded (hub_state hub) state)
    (hub_subscriber_delivery_order hub).

(** The whole operation: the order lock when there is a subscriber, the state
    lock, the admission, and the delivery to the subscriber. *)
Definition admit_inner (hub : DiagnosticHub R N) (candidate : EventIdentity -> DiagnosticEvent)
    (subscriber : option S) (reserve : R -> AdmissionSize -> R * result Reservation Error)
    : DiagnosticHub R N * option S * HubResult :=
  if bool_decide (is_Some subscriber) && mutex_poisoned (hub_subscriber_delivery_order hub) then
    (hub, subscriber, Err HubStatePoisoned)
  else if mutex_poisoned (hub_state hub) then (hub, subscriber, Err HubStatePoisoned)
  else
    match admit_locked (guarded (hub_state hub)) candidate reserve with
    | (state, Err e) => (set_hub_state hub state, subscriber, Err e)
    | (state, Ok (accepted, live_delivery)) =>
        let '(subscriber', subscriber_delivery) := delivery deliver subscriber accepted in
        (set_hub_state hub state, subscriber',
         Ok (mkAdmissionReceipt accepted live_delivery subscriber_delivery))
    end.

(** The sink-only profile always has a subscriber. *)
Definition sink_only_admit hub candidate subscriber :=
  admit_inner hub candidate (Some subscriber) try_reserve.

(** *** The operations of the production profile *)

Context `{!MandatoryDurableReserver R Error Reservation}.

Definition hub_admit hub candidate subscriber :=
  admit_inner hub candidate subscriber try_reserve.

Definition admit_cue hub candidate subscriber :=
  admit_inner hub candidate subscriber try_reserve_cue.

Definition admit_fatal hub candidate subscriber :=
  admit_inner hub candidate subscriber try_reserve_fatal.

Definition hub_begin_cue_capture (hub : DiagnosticHub R N)
    : DiagnosticHub R N * result CueCaptureDecision (HubAdmissionError Error) :=
  match lock (hub_state hub) HubStatePoisoned with
  | Err e => (hub, Err e)
  | Ok state =>
      let '(reserver, r) := begin_cue_capture (hs_reserver state) in
      (set_hub_state hub (set_reserver state reserver), map_err HubReservation r)
  end.

Definition hub_finish_cue_capture (hub : DiagnosticHub R N)
    : DiagnosticHub R N * result (option Z) (HubAdmissionError Error) :=
  match lock (hub_state hub) HubStatePoisoned with
  | Err e => (hub, Err e)
  | Ok state =>
      let '(reserver, r) := finish_cue_capture (hs_reserver state) in
      (set_hub_state hub (set_reserver state reserver), map_err HubReservation r)
  end.
End Hub.
Arguments Pending Reservation : clear implicits.

(** ** The subscriber-local stream *)

Inductive SubscriberLocalStreamError :=
| LocalRunIdentityMismatch
| LocalSequenceUnavailable
| LocalSequenceExhausted
| LocalSequenceRegression (expected_at_least actual : Z)
| LocalIdentityMismatch (expected actual : EventIdentity)
| LocalCanonicalEncoding
| LocalReference (error : ReferenceValidationError).

Record SubscriberLocalStream := mkSubscriberLocalStream {
  sls_run_id : CanonicalUuid;
  sls_next_sequence : option Z;
  sls_sequence_exhausted : bool;
  sls_validator : ReferenceValidator;
}.

Definition SubscriberLocalStream_new (run_id : CanonicalUuid) : SubscriberLocalStream :=
  mkSubscriberLocalStream run_id None false ReferenceValidator_new.

Section Local.
Context {S : Type} (to_vec : DiagnosticEvent -> option (list ascii)).
Context (deliver : S -> AcceptedDiagnosticEvent -> S * result unit DeliveryFailure).

Definition validate_seed_identity (self : SubscriberLocalStream) (id : EventIdentity)
    : result unit SubscriberLocalStreamError :=
  if bool_decide (ei_run_id id <> sls_run_id self) then Err LocalRunIdentityMismatch
  else if sls_sequence_exhausted self then Err LocalSequenceExhausted
  else
    match sls_next_sequence self with
    | Some next =>
        if ei_sequence id <? next then Err (LocalSequenceRegression next (ei_sequence id)) else Ok tt
    | None => Ok tt
    end.

Definition advance (self : SubscriberLocalStream) (validator : ReferenceValidator) (sequence : Z)
    : SubscriberLocalStream :=
  match checked_add U64 sequence 1 with
  | Some next =>
      mkSubscriberLocalStream (sls_run_id self) (Some next) (sls_sequence_exhausted self) validator
  | None => mkSubscriberLocalStream (sls_run_id self) None true validator
  end.

Definition seed (self : SubscriberLocalStream) (event : DiagnosticEvent)
    : SubscriberLocalStream * result unit SubscriberLocalStreamError :=
  let id := event_identity event in
  match validate_seed_identity self id with
  | Err e => (self, Err e)
  | Ok _ =>
      match validate (sls_validator self) event with
      | (_, Err e) => (self, Err (LocalReference e))
      | (validator, Ok _) => (advance self validator (ei_sequence id), Ok tt)
      end
  end.

Definition accept (self : SubscriberLocalStream) (event : DiagnosticEvent) (subscriber : option S)
    : SubscriberLocalStream * option S * result AdmissionReceipt SubscriberLocalStreamError :=
  match to_vec event with
  | None => (self, subscriber, Err LocalCanonicalEncoding)
  | Some canonical_bytes =>
      match validate (sls_validator self) event with
      | (_, Err e) => (self, subscriber, Err (LocalReference e))
      | (validator, Ok validated) =>
          let accepted :=
            mkAcceptedDiagnosticEvent event canonical_bytes (ve_built_in_span_kind validated) true in
          let self' := advance self validator (accepted_sequence accepted) in
          let '(subscriber', subscriber_delivery) := delivery deliver subscriber accepted in
          (self', subscriber', Ok (mkAdmissionReceipt accepted NotConfigured subscriber_delivery))
      end
  end.

Definition local_admit (self : SubscriberLocalStream) (candidate : EventIdentity -> DiagnosticEvent)
    (subscriber : option S)
    : SubscriberLocalStream * option S * result AdmissionReceipt SubscriberLocalStreamError :=
  if sls_sequence_exhausted self then (self, subscriber, Err LocalSequenceExhausted)
  else
    match sls_next_sequence self with
    | None => (self, subscriber, Err LocalSequenceUnavailable)
    | Some next =>
        let expected := mkEventIdentity (sls_run_id self) next in
        let event := candidate expected in
        let actual := event_identity event in
        if bool_decide (actual <> expected) then
          (self, subscriber, Err (LocalIdentityMismatch expected actual))
        else accept self event subscriber
    end.
End Local.
