(* ===== verification/HubSpec.v ===== *)
(** * Correctness of the diagnostic hub

    The hub is verified against the reserver interface: whatever reserver it
    is given, the accepted events carry the sequences 1, 2, 3, ... of one run,
    form a stream the reference validator accepts, and are exactly what the
    reserver holds.  The second part does the same for the subscriber-local
    stream. *)

From S2P Require Import Prelude Wire Scalar Kinds Detail Event Validate ValidateSpec Hub.

Definition events_of (log : list AcceptedDiagnosticEvent) : list DiagnosticEvent :=
  ae_event <$> log.

(** The accepted events are numbered from one without a gap. *)
Definition dense_from (first : Z) (log : list AcceptedDiagnosticEvent) : Prop :=
  forall i a, log !! i = Some a -> accepted_sequence a = first + Z.of_nat i.

Lemma dense_from_snoc first log a :
  dense_from first (log ++ [a]) <->
  dense_from first log /\ accepted_sequence a = first + list_len log.
Proof.
  unfold dense_from, list_len. split.
  - intros H. split.
    + intros i x Hi. apply H. by apply lookup_app_l_Some.
    + apply H. by rewrite list_lookup_middle.
  - intros [H Ha] i x [Hi|[Hl Hi]]%lookup_app_Some; [auto|].
    apply list_lookup_singleton_Some in Hi as [Hi <-]. rewrite Ha. lia.
Qed.

Lemma dense_from_nil first : dense_from first [].
Proof. intros i a. by rewrite lookup_nil. Qed.

Lemma dense_from_app first l k :
  dense_from first (l ++ k) <-> dense_from first l /\ dense_from (first + list_len l) k.
Proof.
  revert first. induction k as [|a k IH] using rev_ind; intros first.
  - rewrite app_nil_r. split; [intros ?; split; [done|apply dense_from_nil]|by intros [? _]].
  - rewrite (assoc_L (++)), !dense_from_snoc, IH, list_len_app.
    rewrite Z.add_assoc. tauto.
Qed.

Lemma dense_from_cons first a k :
  dense_from first (a :: k) <-> accepted_sequence a = first /\ dense_from (first + 1) k.
Proof.
  rewrite (dense_from_app first [a] k). unfold dense_from at 1. split.
  - intros [Ha Hk]. split; [rewrite (Ha 0%nat a); [lia|done]|done].
  - intros [Ha Hk]. split; [|done]. intros i x [-> <-]%list_lookup_singleton_Some. lia.
Qed.

Lemma resolved_kinds_snoc h e : forall h0,
  resolved_kinds h0 (h ++ [e]) = resolved_kinds h0 h ++ [resolved_kind (h0 ++ h) e].
Proof.
  induction h as [|x h IH]; intros h0; cbn.
  - by rewrite app_nil_r.
  - f_equal. rewrite IH. by rewrite <-(assoc_L (++)).
Qed.

(** What an accepted log promises. *)
Record log_ok (run_id : CanonicalUuid) (log : list AcceptedDiagnosticEvent) : Prop := {
  log_dense : dense_from 1 log;
  log_run : forall a, a ∈ log -> ei_run_id (identity a) = run_id;
  log_stream : stream_ok (events_of log);
  log_kinds : ae_built_in_span_kind <$> log = resolved_kinds [] (events_of log);
}.

Lemma log_ok_nil run_id : log_ok run_id [].
Proof.
  constructor; [apply dense_from_nil|by intros a ?%not_elem_of_nil|apply stream_ok_nil|done].
Qed.

Lemma log_ok_snoc run_id log a :
  log_ok run_id log -> identity a = mkEventIdentity run_id (list_len log + 1) ->
  event_ok (events_of log) (ae_event a) ->
  ae_built_in_span_kind a = resolved_kind (events_of log) (ae_event a) ->
  log_ok run_id (log ++ [a]).
Proof.
  intros [Hd Hr Hs Hk] Hid Hok Hkind. constructor.
  - apply dense_from_snoc. rewrite Hid. cbn. split; [done|lia].
  - intros x [Hx| ->%list_elem_of_singleton]%elem_of_app; [auto|]. by rewrite Hid.
  - unfold events_of. rewrite fmap_app. by apply stream_ok_snoc.
  - unfold events_of. rewrite !fmap_app. cbn [fmap list_fmap].
    rewrite resolved_kinds_snoc, Hk, Hkind. done.
Qed.

Section HubSpec.
Context {R Error Reservation N S : Type}.
Context `{LAWS : ReserverLaws R Error Reservation}.
Context (to_vec : DiagnosticEvent -> option (list ascii)).
Context (notify : N -> AcceptedDiagnosticEvent -> N * result unit DeliveryFailure).
Context (deliver : S -> AcceptedDiagnosticEvent -> S * result unit DeliveryFailure).

Implicit Types (state : HubState R N) (p : Pending Reservation).
Implicit Types (reserve : R -> AdmissionSize -> R * result Reservation Error).
Implicit Types (candidate : EventIdentity -> DiagnosticEvent).

(** The next sequence to assign after [n] accepted events. *)
Definition next_after (n : Z) : option Z := checked_add U64 n 1.

(** The state of the hub after the events of [log]; [hub_ok] adds that the
    reserver still holds them all. *)
Record hub_core (run_id : CanonicalUuid) (log : list AcceptedDiagnosticEvent)
    (state : HubState R N) : Prop := {
  hub_run : hs_run_id state = run_id;
  hub_log : log_ok run_id log;
  hub_next : hs_next_sequence state = next_after (list_len log);
  hub_models : models (hs_validator state) (events_of log);
}.

Record hub_ok (run_id : CanonicalUuid) (log : list AcceptedDiagnosticEvent)
    (state : HubState R N) : Prop := {
  hub_inner :> hub_core run_id log state;
  hub_held : held (hs_reserver state) = log;
}.

Lemma hub_core_set_reserver run_id log state r :
  hub_core run_id log state -> hub_core run_id log (set_reserver state r).
Proof. intros []. by constructor. Qed.

Lemma hub_ok_set_reserver run_id log state r :
  hub_ok run_id log state -> held r = log -> hub_ok run_id log (set_reserver state r).
Proof. intros [] ?. constructor; [by apply hub_core_set_reserver|done]. Qed.

Lemma admit_reserve_pending state candidate reserve state' p :
  admit_reserve to_vec state candidate reserve = (state', Ok p) ->
  exists next r', hs_next_sequence state = Some next /\ pending_next p = next /\
    pending_event p = candidate (mkEventIdentity (hs_run_id state) next) /\
    event_identity (pending_event p) = mkEventIdentity (hs_run_id state) next /\
    to_vec (pending_event p) = Some (pending_bytes p) /\
    reserve (hs_reserver state) (one_event (list_len (pending_bytes p))) =
      (r', Ok (pending_reservation p)) /\
    state' = set_reserver state r'.
Proof.
  unfold admit_reserve. destruct (hs_next_sequence state) as [next|] eqn:En; [|done].
  case_bool_decide as Hid; [done|]. destruct (to_vec _) as [bs|] eqn:Ev; [|done].
  destruct (reserve _ _) as [r' [res|e]] eqn:Er; [|done]. intros [= <- <-]. cbn.
  exists next, r'. by repeat (split; [done|]).
Qed.

(** Failing before or at the reservation changes at most the reserver. *)
Lemma admit_reserve_failed run_id log state candidate reserve state' e :
  (forall r size, held (reserve r size).1 = held r) -> hub_ok run_id log state ->
  admit_reserve to_vec state candidate reserve = (state', Err e) -> hub_ok run_id log state'.
Proof.
  intros Hres Hok. unfold admit_reserve. destruct (hs_next_sequence state) as [next|]; [|by intros [= <- _]].
  case_bool_decide; [by intros [= <- _]|]. destruct (to_vec _) as [bs|]; [|by intros [= <- _]].
  pose proof (Hres (hs_reserver state) (one_event (list_len bs))) as Hh.
  destruct (reserve _ _) as [r' [res|e']]; [done|]. intros [= <- _]. cbn in Hh.
  apply hub_ok_set_reserver; [done|]. rewrite Hh. exact (hub_held _ _ _ Hok).
Qed.

(** The second half of an admission, whatever the reserver did meanwhile. *)
Lemma admit_commit_core run_id log state p state' r :
  hub_core run_id log state ->
  event_identity (pending_event p) = mkEventIdentity run_id (list_len log + 1) ->
  pending_next p = list_len log + 1 ->
  admit_commit notify state p = (state', r) ->
  match r with
  | Ok (a, _) =>
      hub_core run_id (log ++ [a]) state' /\ ae_event a = pending_event p /\
      ae_canonical_bytes a = pending_bytes p /\
      hs_reserver state' = reservation_commit (hs_reserver state) (pending_reservation p) a
  | Err _ =>
      hub_core run_id log state' /\
      hs_reserver state' = reservation_drop (hs_reserver state) (pending_reservation p)
  end.
Proof.
  intros Hcore Hid Hpn. unfold admit_commit.
  destruct (validate _ _) as [v [ve|err]] eqn:Ev.
  2:{ intros [= <- <-]. split; [by apply hub_core_set_reserver|done]. }
  destruct Hcore as [Hrun Hlog Hnext Hm].
  apply (validate_ok _ _ _ _ _ Hm) in Ev as (OK & -> & _ & Hkind).
  destruct (delivery notify _ _) as [n d'] eqn:Ed. intros [= <- <-].
  split; [|done]. constructor; cbn.
  - done.
  - by apply log_ok_snoc.
  - unfold next_after. by rewrite Hpn, list_len_app.
  - unfold events_of. rewrite fmap_app. by apply models_commit.
Qed.

Lemma admit_locked_ok run_id log state candidate reserve state' r :
  (forall r size, held (reserve r size).1 = held r) -> hub_ok run_id log state ->
  admit_locked to_vec notify state candidate reserve = (state', r) ->
  match r with
  | Ok (a, _) => hub_ok run_id (log ++ [a]) state'
  | Err _ => hub_ok run_id log state'
  end.
Proof.
  intros Hres Hok. unfold admit_locked.
  destruct (admit_reserve _ _ _ _) as [state1 [p|e]] eqn:Ea.
  2:{ intros [= <- <-]. by eapply admit_reserve_failed. }
  apply admit_reserve_pending in Ea as (next & r' & Hn & Hpn & He & Hid & Hv & Hr & ->).
  assert (hub_ok run_id log (set_reserver state r')) as Hok1.
  { apply hub_ok_set_reserver; [done|]. pose proof (Hres (hs_reserver state) (one_event (list_len (pending_bytes p)))) as Hh.
    rewrite Hr in Hh. cbn in Hh. rewrite Hh. exact (hub_held _ _ _ Hok). }
  rewrite (hub_next _ _ _ Hok) in Hn. apply checked_some in Hn as [-> Hrange].
  rewrite (hub_run _ _ _ Hok) in Hid.
  intros Hc. apply (admit_commit_core run_id log) in Hc; [|by destruct Hok1|done|done].
  destruct r as [[a d]|e].
  - destruct Hc as (Hcore & _ & _ & Hres'). constructor; [done|].
    by rewrite Hres', held_commit, (hub_held _ _ _ Hok1).
  - destruct Hc as (Hcore & Hres'). constructor; [done|].
    by rewrite Hres', held_drop, (hub_held _ _ _ Hok1).
Qed.
(** An admission is accepted exactly when a sequence is left, the candidate
    keeps the identity it was given, it can be encoded, the reserver grants its
    size, and it is well-formed after the accepted events. *)
Lemma admit_locked_accepts run_id log state candidate reserve :
  hub_ok run_id log state ->
  (exists a d, (admit_locked to_vec notify state candidate reserve).2 = Ok (a, d)) <->
  let id := mkEventIdentity run_id (list_len log + 1) in
  list_len log < int_max U64 /\ event_identity (candidate id) = id /\
  event_ok (events_of log) (candidate id) /\
  exists bs res, to_vec (candidate id) = Some bs /\
    (reserve (hs_reserver state) (one_event (list_len bs))).2 = Ok res.
Proof.
  intros Hok. cbn zeta. unfold admit_locked, admit_reserve.
  rewrite (hub_next _ _ _ Hok), (hub_run _ _ _ Hok). unfold next_after, checked_add.
  destruct (checked U64 (list_len log + 1)) as [next|] eqn:En.
  2:{ split; [by intros (? & ? & ?)|]. intros [Hlt _]. apply checked_none in En.
      pose proof (list_len_nonneg log). exfalso. apply En. cbn in *. lia. }
  apply checked_some in En as [-> Hr]. case_bool_decide as Hid.
  { split; [by intros (? & ? & ?)|]. by intros (_ & ? & _). }
  destruct (to_vec _) as [bs|] eqn:Ev.
  2:{ split; [by intros (? & ? & ?)|]. by intros (_ & _ & _ & bs & res & ? & _). }
  destruct (reserve _ _) as [r' [res|e]] eqn:Er.
  2:{ split; [by intros (? & ? & ?)|]. intros (_ & _ & _ & bs' & res & [= <-] & Hres).
      by rewrite Er in Hres. }
  unfold admit_commit. cbn [pending_event hs_validator set_reserver].
  destruct (validate _ _) as [v [ve|err]] eqn:Eval.
  - apply (validate_ok _ _ _ _ _ (hub_models _ _ _ Hok)) in Eval as (OK & _).
    destruct (delivery notify _ _) as [n d]. split; [intros _|intros _; cbn; eauto].
    split; [lia|]. split; [by destruct (decide (event_identity (candidate (mkEventIdentity run_id (list_len log + 1))) = mkEventIdentity run_id (list_len log + 1)))|].
    split; [done|]. exists bs, res. by rewrite Er.
  - apply (validate_rejects _ _ _ _ _ (hub_models _ _ _ Hok)) in Eval as [_ Hno].
    split; [by intros (? & ? & ?)|]. by intros (_ & _ & ? & _).
Qed.

(** ** Histories of hub operations *)

Inductive HubOp :=
| OpAdmit (candidate : EventIdentity -> DiagnosticEvent) (subscriber : option S)
| OpAdmitCue (candidate : EventIdentity -> DiagnosticEvent) (subscriber : option S)
| OpAdmitFatal (candidate : EventIdentity -> DiagnosticEvent) (subscriber : option S)
| OpBeginCueCapture
| OpFinishCueCapture.

(** One operation: the hub afterwards, and the receipt when it was accepted. *)
Definition hub_op (hub : DiagnosticHub R N) (op : HubOp)
    : DiagnosticHub R N * option AdmissionReceipt :=
  let receipt (r : DiagnosticHub R N * option S * result AdmissionReceipt (HubAdmissionError Error)) :=
    (r.1.1, match r.2 with Ok x => Some x | Err _ => None end) in
  match op with
  | OpAdmit candidate subscriber => receipt (hub_admit to_vec notify deliver hub candidate subscriber)
  | OpAdmitCue candidate subscriber =>
      receipt (admit_cue to_vec notify deliver hub candidate subscriber)
  | OpAdmitFatal candidate subscriber =>
      receipt (admit_fatal to_vec notify deliver hub candidate subscriber)
  | OpBeginCueCapture => ((hub_begin_cue_capture hub).1, None)
  | OpFinishCueCapture => ((hub_finish_cue_capture hub).1, None)
  end.

Fixpoint hub_ops (hub : DiagnosticHub R N) (ops : list HubOp)
    : DiagnosticHub R N * list AdmissionReceipt :=
  match ops with
  | [] => (hub, [])
  | op :: ops' =>
      let '(hub', receipt) := hub_op hub op in
      let '(hub'', receipts) := hub_ops hub' ops' in
      (hub'', match receipt with Some x => x :: receipts | None => receipts end)
  end.

Lemma admit_inner_ok run_id log hub candidate subscriber reserve hub' s r :
  (forall r size, held (reserve r size).1 = held r) ->
  hub_ok run_id log (guarded (hub_state hub)) ->
  admit_inner to_vec notify deliver hub candidate subscriber reserve = (hub', s, r) ->
  hub_ok run_id (log ++ match r with Ok x => [ar_accepted x] | Err _ => [] end)
    (guarded (hub_state hub')).
Proof.
  intros Hres Hok. unfold admit_inner.
  destruct (_ && _); [intros [= <- _ <-]; by rewrite app_nil_r|].
  destruct (mutex_poisoned _); [intros [= <- _ <-]; by rewrite app_nil_r|].
  destruct (admit_locked _ _ _ _ _) as [state' r'] eqn:Ea.
  apply (admit_locked_ok run_id log) in Ea; [|done..]. destruct r' as [[a d]|e].
  - destruct (delivery deliver _ _) as [s' d']. by intros [= <- _ <-].
  - intros [= <- _ <-]. by rewrite app_nil_r.
Qed.

Lemma hub_op_ok run_id log hub op hub' receipt :
  hub_ok run_id log (guarded (hub_state hub)) -> hub_op hub op = (hub', receipt) ->
  hub_ok run_id (log ++ match receipt with Some x => [ar_accepted x] | None => [] end)
    (guarded (hub_state hub')).
Proof.
  intros Hok. assert (forall reserve candidate subscriber,
    (forall r size, held (reserve r size).1 = held r) ->
    let r := admit_inner to_vec notify deliver hub candidate subscriber reserve in
    hub_ok run_id
      (log ++ match match r.2 with Ok x => Some x | Err _ => None end with
              | Some x => [ar_accepted x] | None => [] end)
      (guarded (hub_state r.1.1))) as Hadmit.
  { intros reserve candidate subscriber Hres. cbn zeta.
    destruct (admit_inner _ _ _ _ _ _ _) as [[h1 s1] r1] eqn:E.
    apply (admit_inner_ok run_id log) in E; [|done..]. by destruct r1. }
  destruct op as [c s|c s|c s| |]; cbn; intros [= <- <-].
  - apply Hadmit, held_reserve.
  - apply Hadmit, held_reserve_cue.
  - apply Hadmit, held_reserve_fatal.
  - rewrite app_nil_r. unfold hub_begin_cue_capture, lock. destruct (mutex_poisoned _); [done|].
    pose proof (held_begin_cue (hs_reserver (guarded (hub_state hub)))) as Hh.
    destruct (begin_cue_capture _) as [r x]. cbn in *. apply hub_ok_set_reserver; [done|].
    rewrite Hh. exact (hub_held _ _ _ Hok).
  - rewrite app_nil_r. unfold hub_finish_cue_capture, lock. destruct (mutex_poisoned _); [done|].
    pose proof (held_finish_cue (hs_reserver (guarded (hub_state hub)))) as Hh.
    destruct (finish_cue_capture _) as [r x]. cbn in *. apply hub_ok_set_reserver; [done|].
    rewrite Hh. exact (hub_held _ _ _ Hok).
Qed.

Lemma hub_ops_ok ops : forall run_id log hub hub' receipts,
  hub_ok run_id log (guarded (hub_state hub)) -> hub_ops hub ops = (hub', receipts) ->
  hub_ok run_id (log ++ (ar_accepted <$> receipts)) (guarded (hub_state hub')).
Proof.
  induction ops as [|op ops IH]; intros run_id log hub hub' receipts Hok; cbn.
  - intros [= <- <-]. by rewrite app_nil_r.
  - destruct (hub_op hub op) as [hub1 receipt] eqn:Eo.
    destruct (hub_ops hub1 ops) as [hub2 receipts'] eqn:Er. intros [= <- <-].
    pose proof (hub_op_ok _ _ _ _ _ _ Hok Eo) as Hok1.
    pose proof (IH _ _ _ _ _ Hok1 Er) as Hok2.
    by destruct receipt; [rewrite <-(assoc_L (++)) in Hok2|rewrite app_nil_r in Hok2].
Qed.

Lemma hub_ok_new run_id r0 notifier :
  held r0 = [] ->
  hub_ok run_id [] (guarded (hub_state (DiagnosticHub_new run_id r0 notifier))).
Proof.
  intros Hr. constructor; [|done]. constructor; cbn; [done|apply log_ok_nil|done|apply models_nil].
Qed.

Lemma hub_ops_unpoisoned ops : forall hub hub' receipts,
  mutex_poisoned (hub_state hub) = false -> hub_ops hub ops = (hub', receipts) ->
  mutex_poisoned (hub_state hub') = false.
Proof.
  induction ops as [|op ops IH]; intros hub hub' receipts Hp; cbn; [by intros [= <- _]|].
  destruct (hub_op hub op) as [hub1 receipt] eqn:Eo.
  destruct (hub_ops hub1 ops) as [hub2 receipts'] eqn:Er. intros [= <- _].
  eapply IH; [|done].
  assert (mutex_poisoned (hub_state (hub_op hub op).1) = mutex_poisoned (hub_state hub)) as Hm;
    [|by rewrite Eo, Hp in Hm].
  destruct op; cbn; unfold hub_admit, admit_cue, admit_fatal, admit_inner, hub_begin_cue_capture,
    hub_finish_cue_capture, lock; repeat (case_match; cbn); done.
Qed.

(** C12: whatever is asked of a fresh hub, the events it accepts are numbered
    1, 2, 3, ... in the order of acceptance with the run's identity, they form
    a stream the reference validator accepts, each carries the built-in span
    kind the stream determines, and the reserver holds exactly these events:
    a refused admission consumes no sequence and leaves nothing behind. *)
Theorem hub_accepts_dense_stream run_id r0 notifier ops hub receipts :
  held r0 = [] ->
  hub_ops (DiagnosticHub_new run_id r0 notifier) ops = (hub, receipts) ->
  let log := ar_accepted <$> receipts in
  log_ok run_id log /\ held (hs_reserver (guarded (hub_state hub))) = log /\
  hs_next_sequence (guarded (hub_state hub)) = next_after (list_len log).
Proof.
  intros Hr Hops. pose proof (hub_ops_ok _ _ _ _ _ _ (hub_ok_new run_id r0 notifier Hr) Hops) as [[] ?].
  done.
Qed.

(** After any history, a candidate is accepted exactly when a sequence is
    left below [u64::MAX], it carries the identity it was given, it can be
    encoded, the reserver grants one event of its size, and it is well-formed
    after the accepted events; no other reason makes the hub refuse it. *)
Theorem hub_accepts_iff run_id r0 notifier ops hub receipts candidate :
  held r0 = [] ->
  hub_ops (DiagnosticHub_new run_id r0 notifier) ops = (hub, receipts) ->
  let log := ar_accepted <$> receipts in
  let id := mkEventIdentity run_id (list_len log + 1) in
  let reserver := hs_reserver (guarded (hub_state hub)) in
  (exists receipt, (hub_admit to_vec notify deliver hub candidate None).2 = Ok receipt) <->
  list_len log < int_max U64 /\ event_identity (candidate id) = id /\
  event_ok (events_of log) (candidate id) /\
  exists bs res, to_vec (candidate id) = Some bs /\
    (try_reserve reserver (one_event (list_len bs))).2 = Ok res.
Proof.
  intros Hr Hops. cbn zeta.
  pose proof (hub_ops_ok _ _ _ _ _ _ (hub_ok_new run_id r0 notifier Hr) Hops) as Hok. cbn in Hok.
  rewrite <-(admit_locked_accepts _ _ _ candidate try_reserve Hok).
  unfold hub_admit, admit_inner. cbn [bool_decide]. rewrite bool_decide_eq_false_2 by (by intros [? ?]).
  cbn [andb]. rewrite (hub_ops_unpoisoned _ (DiagnosticHub_new run_id r0 notifier) _ _ eq_refl Hops).
  destruct (admit_locked _ _ _ _ _) as [st [[a d]|e]]; cbn; naive_solver.
Qed.
End HubSpec.

(** ** The subscriber-local stream *)

Section LocalSpec.
Context {S : Type} (to_vec : DiagnosticEvent -> option (list ascii)).
Context (deliver : S -> AcceptedDiagnosticEvent -> S * result unit DeliveryFailure).

Inductive LocalOp :=
| OpSeed (event : DiagnosticEvent)
| OpLocalAdmit (candidate : EventIdentity -> DiagnosticEvent) (subscriber : option S).

(** One operation, with the event it took. *)
Definition local_op (self : SubscriberLocalStream) (op : LocalOp)
    : SubscriberLocalStream * option DiagnosticEvent :=
  match op with
  | OpSeed event =>
      let '(self', r) := seed self event in (self', if is_ok r then Some event else None)
  | OpLocalAdmit candidate subscriber =>
      let '(self', _, r) := local_admit to_vec deliver self candidate subscriber in
      (self', match r with Ok receipt => Some (ae_event (ar_accepted receipt)) | Err _ => None end)
  end.

Fixpoint local_ops (self : SubscriberLocalStream) (ops : list LocalOp)
    : SubscriberLocalStream * list DiagnosticEvent :=
  match ops with
  | [] => (self, [])
  | op :: ops' =>
      let '(self', taken) := local_op self op in
      let '(self'', rest) := local_ops self' ops' in
      (self'', match taken with Some e => e :: rest | None => rest end)
  end.

(** The stream after the events of [h]: they increase, and the next sequence
    is the one after the last. *)
Record local_ok (run_id : CanonicalUuid) (h : list DiagnosticEvent)
    (self : SubscriberLocalStream) : Prop := {
  local_run : sls_run_id self = run_id;
  local_models : models (sls_validator self) h;
  local_stream : stream_ok h;
  local_runs : forall e, e ∈ h -> event_run_id e = run_id;
  local_sorted : forall i j e e', h !! i = Some e -> h !! j = Some e' -> (i < j)%nat ->
    event_sequence e < event_sequence e';
  local_next : match last h with
    | None => sls_next_sequence self = None /\ sls_sequence_exhausted self = false
    | Some e => sls_next_sequence self = checked_add U64 (event_sequence e) 1 /\
        sls_sequence_exhausted self = bool_decide (checked_add U64 (event_sequence e) 1 = None)
    end;
}.

Lemma sorted_snoc (h : list DiagnosticEvent) e :
  (forall i j x y, h !! i = Some x -> h !! j = Some y -> (i < j)%nat ->
    event_sequence x < event_sequence y) ->
  match last h with Some l => event_sequence l < event_sequence e | None => True end ->
  forall i j x y, (h ++ [e]) !! i = Some x -> (h ++ [e]) !! j = Some y -> (i < j)%nat ->
    event_sequence x < event_sequence y.
Proof.
  intros Hs Hl i j x y Hi Hj Hij.
  apply lookup_app_Some in Hj as [Hj|[Hle Hj]].
  - apply (Hs i j); [|done..]. rewrite lookup_app_l in Hi; [done|].
    apply lookup_lt_Some in Hj. lia.
  - apply list_lookup_singleton_Some in Hj as [Hj <-].
    rewrite lookup_app_l in Hi by lia. rewrite last_lookup in Hl.
    destruct (decide (i = pred (length h))) as [->|Hne]; [by rewrite Hi in Hl|].
    assert (i < pred (length h))%nat as Hlt by lia.
    destruct (h !! pred (length h)) as [l|] eqn:El.
    + specialize (Hs i _ x l Hi El Hlt). lia.
    + apply lookup_ge_None in El. lia.
Qed.

(** Taking an event above the last one keeps the invariant. *)
Lemma local_ok_advance run_id h self e v' ve :
  local_ok run_id h self -> event_run_id e = run_id ->
  match last h with Some l => event_sequence l < event_sequence e | None => True end ->
  sls_sequence_exhausted self = false ->
  validate (sls_validator self) e = (v', Ok ve) ->
  local_ok run_id (h ++ [e]) (advance self v' (event_sequence e)).
Proof.
  intros [Hrun Hm Hs Hr Hsort Hnext] He Hl Hx Hv.
  apply (validate_ok _ _ _ _ _ Hm) in Hv as (OK & -> & _).
  assert (forall e', e' ∈ h ++ [e] -> event_run_id e' = run_id) as Hr'
    by (intros e' [?| ->%list_elem_of_singleton]%elem_of_app; auto).
  unfold advance. destruct (checked_add U64 (event_sequence e) 1) as [next|] eqn:En;
    (constructor; cbn; [done|by apply models_commit|by apply stream_ok_snoc|done
      |by apply sorted_snoc|rewrite last_snoc, En]).
  - by rewrite Hx.
  - done.
Qed.

Lemma checked_add_gt a b : checked_add U64 a 1 = Some b -> b = a + 1.
Proof. by intros [-> _]%checked_some. Qed.

Lemma local_op_ok run_id h self op self' taken :
  local_ok run_id h self -> local_op self op = (self', taken) ->
  local_ok run_id (h ++ match taken with Some e => [e] | None => [] end) self'.
Proof.
  intros Hok. destruct op as [e|candidate subscriber]; cbn.
  - unfold seed, validate_seed_identity. cbn.
    case_bool_decide as Hrid; [intros [= <- <-]; by rewrite app_nil_r|].
    destruct (sls_sequence_exhausted self) eqn:Ex; [intros [= <- <-]; by rewrite app_nil_r|].
    destruct (match sls_next_sequence self with Some _ => _ | None => _ end) as [[]|err] eqn:Eg;
      [|intros [= <- <-]; by rewrite app_nil_r].
    destruct (validate _ e) as [v' [ve|err]] eqn:Ev; [|intros [= <- <-]; by rewrite app_nil_r].
    intros [= <- <-]. cbn. eapply local_ok_advance; [done| | |done|done].
    + rewrite <-(local_run _ _ _ Hok).
      by destruct (decide (event_run_id e = sls_run_id self)).
    + pose proof (local_next _ _ _ Hok) as Hn. destruct (last h) as [l|]; [|done].
      destruct Hn as [Hn Hxx]. rewrite Hn in Eg.
      destruct (checked_add U64 _ 1) as [next|] eqn:En.
      * apply checked_add_gt in En as ->. destruct (_ <? _) eqn:Elt; [done|]. lia.
      * rewrite bool_decide_eq_true_2 in Hxx by done. congruence.
  - unfold local_admit. destruct (sls_sequence_exhausted self) eqn:Ex;
      [intros [= <- <-]; by rewrite app_nil_r|].
    destruct (sls_next_sequence self) as [next|] eqn:En; [|intros [= <- <-]; by rewrite app_nil_r].
    case_bool_decide as Hid; [intros [= <- <-]; by rewrite app_nil_r|].
    set (e := candidate _) in *.
    assert (event_identity e = mkEventIdentity (sls_run_id self) next) as Hide.
    { by destruct (decide (event_identity e = mkEventIdentity (sls_run_id self) next)). }
    injection Hide as Hrid Hseq.
    unfold accept. destruct (to_vec e) as [bs|]; [|intros [= <- <-]; by rewrite app_nil_r].
    destruct (validate _ e) as [v' [ve|err]] eqn:Ev; [|intros [= <- <-]; by rewrite app_nil_r].
    destruct (delivery deliver _ _) as [s' d']. intros [= <- <-]. cbn.
    eapply local_ok_advance; [done| | |done|done].
    + rewrite Hrid. apply Hok.
    + pose proof (local_next _ _ _ Hok) as Hn. destruct (last h) as [l|]; [|done].
      destruct Hn as [Hn _]. rewrite En in Hn. symmetry in Hn.
      apply checked_add_gt in Hn. lia.
Qed.

Lemma local_ops_ok ops : forall run_id h self self' taken,
  local_ok run_id h self -> local_ops self ops = (self', taken) ->
  local_ok run_id (h ++ taken) self'.
Proof.
  induction ops as [|op ops IH]; intros run_id h self self' taken Hok; cbn.
  - intros [= <- <-]. by rewrite app_nil_r.
  - destruct (local_op self op) as [self1 t] eqn:Eo.
    destruct (local_ops self1 ops) as [self2 rest] eqn:Er. intros [= <- <-].
    pose proof (local_op_ok _ _ _ _ _ _ Hok Eo) as Hok1.
    pose proof (IH _ _ _ _ _ Hok1 Er) as Hok2.
    by destruct t; [rewrite <-(assoc_L (++)) in Hok2|rewrite app_nil_r in Hok2].
Qed.

(** A subscriber-local stream takes events of its run with strictly
    increasing sequences that form a stream the reference validator accepts,
    however seeds and local admissions are mixed. *)
Theorem local_stream_increasing run_id ops self taken :
  local_ops (SubscriberLocalStream_new run_id) ops = (self, taken) ->
  stream_ok taken /\ (forall e, e ∈ taken -> event_run_id e = run_id) /\
  (forall i j e e', taken !! i = Some e -> taken !! j = Some e' -> (i < j)%nat ->
     event_sequence e < event_sequence e').
Proof.
  intros H. apply (local_ops_ok _ run_id []) in H as []; [done|].
  constructor; cbn; [done|apply models_nil|apply stream_ok_nil|by intros e ?%not_elem_of_nil| |done].
  intros i j e e'. by rewrite lookup_nil.
Qed.
End LocalSpec.

(** Sequences given to a seeded stream: the seed keeps its own, 3, and the
    local event gets 4. *)
Lemma local_stream_increasing_witness :
  exists self taken,
    local_ops (S := unit) (fun _ => Some []) (fun s _ => (s, Ok tt))
      (SubscriberLocalStream_new (mkCanonicalUuid 7))
      [OpSeed (DiagnosticEvent_CustomSpanStarted
                 (mkCustomSpanStarted (sample_header 3 20) "app.step" None []));
       OpLocalAdmit (fun id => DiagnosticEvent_CustomSpanFinished
         (mkCustomSpanFinished (sample_header (ei_sequence id) 30) 3 SpanOutcome_Completed)) None]
      = (self, taken) /\
    length taken = 2%nat /\ stream_ok taken.
Proof.
  eexists _, _. split; [vm_compute; reflexivity|]. split; [reflexivity|].
  eapply (local_stream_increasing (S := unit) (fun _ => Some []) (fun s _ => (s, Ok tt))
    (mkCanonicalUuid 7)
    [OpSeed (DiagnosticEvent_CustomSpanStarted
                 (mkCustomSpanStarted (sample_header 3 20) "app.step" None []));
       OpLocalAdmit (fun id => DiagnosticEvent_CustomSpanFinished
         (mkCustomSpanFinished (sample_header (ei_sequence id) 30) 3 SpanOutcome_Completed)) None]).
  vm_compute. reflexivity.
Defined.
