(* ===== verification/Store.v ===== *)
(** * The store: its tables and their validation

    Models the database of a run: the tables and constraints of
    [troupe-diagnostics-runtime/schema/diagnostics-v1.sql], the validation of
    [store/connection.rs] ([validate_store_state]), and the rows that a writer
    inserts.  A table is the list of its rows in the order of insertion; a
    statement returns [None] when a constraint rejects it.  The encoders and
    decoders of [serde_json], SQLite's [json_valid] and the printer of the uuid
    crate are behind the class [StoreEncoding]. *)

From S2P Require Import Prelude Wire Scalar Kinds Detail Event Validate ValidateSpec Projection Table.
From S2P Require Import Spans Messages Plans Counters Usage Snapshot Key Hub.

Class StoreEncoding := {
  event_to_vec : DiagnosticEvent -> option (list ascii);
  event_from_slice : list ascii -> option DiagnosticEvent;
  span_to_vec : ProjectedSpan -> option (list ascii);
  message_to_vec : ProjectedMessage -> option (list ascii);
  plan_to_vec : ProjectedPlan -> option (list ascii);
  counter_to_vec : ProjectedCounter -> option (list ascii);
  usage_to_vec : UsageReadModel -> option (list ascii);
  snapshot_to_vec : SnapshotReadModel -> option (list ascii);
  snapshot_from_slice : list ascii -> option SnapshotReadModel;
  scope_to_string : DiagnosticScope -> option string;
  value_from_slice : list ascii -> bool;
  json_valid : list ascii -> bool;
  uuid_to_hyphenated : Z -> string;
}.

Definition STORE_SCHEMA_VERSION : Z := 1.

Definition STORE_SCHEMA_IDENTITY : string := "troupe.diagnostics.store.v1".

Inductive StoreOpenErrorCode :=
| InvalidMetadata | InvalidRunDirectory | DatabaseAlreadyExists | DatabaseMissing
| InvalidFilesystemNode | FileCreateFailed | FileOpenFailed | FileInspectFailed
| FilePermissionFailed | FileIdentityChanged | FileSyncFailed | SqliteOpenFailed
| PragmaMismatch | InitialTransactionFailed | CheckpointFailed | NewerSchema | SchemaMismatch
| CorruptStore | RunIdentityMismatch | StoreMetadataInvalid | WatermarkMismatch
| DensePrefixViolation | EventIdentityMismatch.

Definition StoreOpenErrorCode_as_str (c : StoreOpenErrorCode) : string :=
  match c with
  | InvalidMetadata => "diagnostic_store.invalid_metadata"
  | InvalidRunDirectory => "diagnostic_store.invalid_run_directory"
  | DatabaseAlreadyExists => "diagnostic_store.database_already_exists"
  | DatabaseMissing => "diagnostic_store.database_missing"
  | InvalidFilesystemNode => "diagnostic_store.invalid_filesystem_node"
  | FileCreateFailed => "diagnostic_store.file_create_failed"
  | FileOpenFailed => "diagnostic_store.file_open_failed"
  | FileInspectFailed => "diagnostic_store.file_inspect_failed"
  | FilePermissionFailed => "diagnostic_store.file_permission_failed"
  | FileIdentityChanged => "diagnostic_store.file_identity_changed"
  | FileSyncFailed => "diagnostic_store.file_sync_failed"
  | SqliteOpenFailed => "diagnostic_store.sqlite_open_failed"
  | PragmaMismatch => "diagnostic_store.pragma_mismatch"
  | InitialTransactionFailed => "diagnostic_store.initial_transaction_failed"
  | CheckpointFailed => "diagnostic_store.checkpoint_failed"
  | NewerSchema => "diagnostic_store.newer_schema"
  | SchemaMismatch => "diagnostic_store.schema_mismatch"
  | CorruptStore => "diagnostic_store.corrupt_store"
  | RunIdentityMismatch => "diagnostic_store.run_identity_mismatch"
  | StoreMetadataInvalid => "diagnostic_store.metadata_invalid"
  | WatermarkMismatch => "diagnostic_store.watermark_mismatch"
  | DensePrefixViolation => "diagnostic_store.dense_prefix_violation"
  | EventIdentityMismatch => "diagnostic_store.event_identity_mismatch"
  end.

(** ** Tables *)

(** The row of [run_metadata]. *)
Record RunMetadata := mkRunMetadata {
  rm_store_schema_version : Z;
  rm_schema_identity : string;
  rm_event_schema_version : Z;
  rm_run_id : string;
  rm_started_at : string;
  rm_ended_at : option string;
  rm_production_outcome : option string;
  rm_configuration_identity : string;
  rm_committed_key : list Z;
  rm_committed_sequence : string;
  rm_read_model_key : list Z;
  rm_read_model_sequence : string;
  rm_clean_shutdown : Z;
}.

Record StoredEventRow := mkStoredEventRow {
  ser_sequence_key : list Z;
  ser_sequence : string;
  ser_run_id : string;
  ser_event_schema_version : Z;
  ser_elapsed_key : list Z;
  ser_elapsed_ns : string;
  ser_kind : string;
  ser_scene_id : option string;
  ser_actor_id : option string;
  ser_cue_id : option string;
  ser_effect_id : option string;
  ser_act_id : option string;
  ser_tool_call_id : option string;
  ser_session_generation_key : option (list Z);
  ser_session_generation : option string;
  ser_canonical_json : list ascii;
}.

(** The columns that the tables of the read model share. *)
Record MaterializedRow := mkMaterializedRow {
  mat_model_schema_version : Z;
  mat_key : list Z;
  mat_sequence : string;
  mat_payload_json : list ascii;
}.

(** A row of [materialized_spans]; of [materialized_messages], [_plans] and
    [_counters]; of [materialized_usage] and [_snapshot]. *)
Record SpanRow := mkSpanRow {
  span_key : list Z;
  span_sequence : string;
  span_materialized : MaterializedRow;
}.

Record TextRow := mkTextRow { text_key : string; text_materialized : MaterializedRow }.

Record SingletonRow := mkSingletonRow { singleton : Z; singleton_materialized : MaterializedRow }.

Record Database := mkDatabase {
  db_run_metadata : RunMetadata;
  db_events : list StoredEventRow;
  db_spans : list SpanRow;
  db_messages : list TextRow;
  db_plans : list TextRow;
  db_counters : list TextRow;
  db_usage : list SingletonRow;
  db_snapshot : list SingletonRow;
}.

Definition with_run_metadata (db : Database) (m : RunMetadata) : Database :=
  mkDatabase m (db_events db) (db_spans db) (db_messages db) (db_plans db) (db_counters db)
    (db_usage db) (db_snapshot db).

Definition with_events (db : Database) (rows : list StoredEventRow) : Database :=
  mkDatabase (db_run_metadata db) rows (db_spans db) (db_messages db) (db_plans db)
    (db_counters db) (db_usage db) (db_snapshot db).

Definition with_spans (db : Database) (rows : list SpanRow) : Database :=
  mkDatabase (db_run_metadata db) (db_events db) rows (db_messages db) (db_plans db)
    (db_counters db) (db_usage db) (db_snapshot db).

Definition with_messages (db : Database) (rows : list TextRow) : Database :=
  mkDatabase (db_run_metadata db) (db_events db) (db_spans db) rows (db_plans db)
    (db_counters db) (db_usage db) (db_snapshot db).

Definition with_plans (db : Database) (rows : list TextRow) : Database :=
  mkDatabase (db_run_metadata db) (db_events db) (db_spans db) (db_messages db) rows
    (db_counters db) (db_usage db) (db_snapshot db).

Definition with_counters (db : Database) (rows : list TextRow) : Database :=
  mkDatabase (db_run_metadata db) (db_events db) (db_spans db) (db_messages db) (db_plans db)
    rows (db_usage db) (db_snapshot db).

Definition with_usage (db : Database) (rows : list SingletonRow) : Database :=
  mkDatabase (db_run_metadata db) (db_events db) (db_spans db) (db_messages db) (db_plans db)
    (db_counters db) rows (db_snapshot db).

Definition with_snapshot (db : Database) (rows : list SingletonRow) : Database :=
  mkDatabase (db_run_metadata db) (db_events db) (db_spans db) (db_messages db) (db_plans db)
    (db_counters db) (db_usage db) rows.

(** ** Constraints *)

(** [typeof(key) = 'blob' AND length(key) = 8]. *)
Definition is_key_blob (key : list Z) : bool := Nat.eqb (length key) 8.

(** [text NOT GLOB '*[^0-9]*' AND substr(text, 1, 1) BETWEEN '1' AND '9']. *)
Definition is_positive_text (text : string) : bool :=
  forallb is_ascii_digit (bytes text) &&
  match bytes text with
  | c :: _ => (49 <=? byte_val c) && (byte_val c <=? 57)
  | [] => false
  end.

(** The same with [text = '0' OR ..]. *)
Definition is_decimal_text (text : string) : bool :=
  forallb is_ascii_digit (bytes text) && (bool_decide (text = "0"%string) || is_positive_text text).

Definition is_nonempty (text : string) : bool := negb (bool_decide (text = EmptyString)).

Definition is_some {A} (o : option A) : bool := match o with Some _ => true | None => false end.

(** [length(run_id) = 36 AND run_id = lower(run_id) AND substr(run_id, 9, 1) = '-' ..]. *)
Definition check_run_id (text : string) : bool :=
  (str_len text =? 36) && forallb (fun c => negb (is_ascii_uppercase c)) (bytes text)
  && forallb (fun i => bool_decide (bytes text !! i = Some "-"%char)) [8; 13; 18; 23]%nat.

Definition check_run_metadata (m : RunMetadata) : bool :=
  (rm_store_schema_version m =? 1)
  && bool_decide (rm_schema_identity m = STORE_SCHEMA_IDENTITY)
  && (rm_event_schema_version m =? 1) && check_run_id (rm_run_id m)
  && is_nonempty (rm_started_at m)
  && match rm_production_outcome m with
     | Some outcome => bool_decide (outcome ∈ ["completed"; "failed"; "cancelled"]%string)
     | None => true
     end
  && is_nonempty (rm_configuration_identity m)
  && is_key_blob (rm_committed_key m) && is_decimal_text (rm_committed_sequence m)
  && is_key_blob (rm_read_model_key m) && is_decimal_text (rm_read_model_sequence m)
  && bool_decide (rm_clean_shutdown m ∈ [0; 1])
  && bool_decide (rm_committed_key m = rm_read_model_key m)
  && bool_decide (rm_committed_sequence m = rm_read_model_sequence m).

Section Store.
Context `{StoreEncoding}.

Definition check_event_row (row : StoredEventRow) : bool :=
  is_key_blob (ser_sequence_key row) && is_positive_text (ser_sequence row)
  && (ser_event_schema_version row =? 1)
  && is_key_blob (ser_elapsed_key row) && is_decimal_text (ser_elapsed_ns row)
  && is_nonempty (ser_kind row)
  && match ser_session_generation_key row with Some key => is_key_blob key | None => true end
  && match ser_session_generation row with Some text => is_positive_text text | None => true end
  && json_valid (ser_canonical_json row)
  && Bool.eqb (is_some (ser_session_generation_key row)) (is_some (ser_session_generation row)).

(** The last column of the keyed tables is positive, that of the singletons may
    be zero. *)
Definition check_materialized (sequence_ok : string -> bool) (row : MaterializedRow) : bool :=
  (mat_model_schema_version row =? 1) && is_key_blob (mat_key row)
  && sequence_ok (mat_sequence row) && json_valid (mat_payload_json row).

Definition check_span_row (row : SpanRow) : bool :=
  is_key_blob (span_key row) && is_positive_text (span_sequence row)
  && check_materialized is_positive_text (span_materialized row).

Definition check_text_row (row : TextRow) : bool :=
  is_nonempty (text_key row) && check_materialized is_positive_text (text_materialized row).

Definition check_singleton_row (row : SingletonRow) : bool :=
  (singleton row =? 1) && check_materialized is_decimal_text (singleton_materialized row).

(** [PRIMARY KEY] and [UNIQUE]: no row has the value already. *)
Definition unique {R V} `{EqDecision V} (column : R -> V) (rows : list R) (row : R) : bool :=
  forallb (fun other => bool_decide (column other <> column row)) rows.

(** ** Statements *)

Definition insert_event (row : StoredEventRow) (db : Database) : option Database :=
  if check_event_row row && unique ser_sequence_key (db_events db) row
     && unique ser_sequence (db_events db) row
     && bool_decide (ser_run_id row = rm_run_id (db_run_metadata db))
  then Some (with_events db (db_events db ++ [row])) else None.

Definition insert_span (row : SpanRow) (db : Database) : option Database :=
  if check_span_row row && unique span_key (db_spans db) row
     && unique span_sequence (db_spans db) row
  then Some (with_spans db (db_spans db ++ [row])) else None.

Definition insert_text (rows : Database -> list TextRow)
    (put : Database -> list TextRow -> Database) (row : TextRow) (db : Database)
    : option Database :=
  if check_text_row row && unique text_key (rows db) row
  then Some (put db (rows db ++ [row])) else None.

Definition insert_message : TextRow -> Database -> option Database :=
  insert_text db_messages with_messages.

Definition insert_plan : TextRow -> Database -> option Database :=
  insert_text db_plans with_plans.

Definition insert_counter : TextRow -> Database -> option Database :=
  insert_text db_counters with_counters.

Definition insert_singleton_row (rows : Database -> list SingletonRow)
    (put : Database -> list SingletonRow -> Database) (row : SingletonRow) (db : Database)
    : option Database :=
  if check_singleton_row row && unique singleton (rows db) row
  then Some (put db (rows db ++ [row])) else None.

Definition insert_usage : SingletonRow -> Database -> option Database :=
  insert_singleton_row db_usage with_usage.

Definition insert_snapshot : SingletonRow -> Database -> option Database :=
  insert_singleton_row db_snapshot with_snapshot.

(** [UPDATE run_metadata SET .. WHERE singleton = 1]. *)
Definition update_run_metadata (f : RunMetadata -> RunMetadata) (db : Database) : option Database :=
  let m := f (db_run_metadata db) in
  if check_run_metadata m then Some (with_run_metadata db m) else None.

(** ** Validation *)

Record PersistedStoreMetadata := mkPersistedStoreMetadata {
  psm_run_id : CanonicalUuid;
  psm_started_at : string;
  psm_configuration_identity : string;
  psm_committed_watermark : SortableU64Key;
  psm_read_model_watermark : SortableU64Key;
  psm_clean_shutdown : bool;
}.

(** [decode_sortable_pair]; [decode_key_pair] is the case of
    [WatermarkMismatch]. *)
Definition decode_pair (malformed differs : StoreOpenErrorCode) (key : list Z) (decimal : string)
    : result SortableU64Key StoreOpenErrorCode :=
  let? key := map_err (fun _ => malformed) (from_slice key) in
  let? decimal := map_err (fun _ => malformed) (parse_canonical_decimal decimal) in
  if bool_decide (key <> decimal) then Err differs else Ok key.

Definition decode_sortable_pair (code : StoreOpenErrorCode) : list Z -> string ->
    result SortableU64Key StoreOpenErrorCode := decode_pair code code.

Definition decode_key_pair : list Z -> string -> result SortableU64Key StoreOpenErrorCode :=
  decode_pair WatermarkMismatch WatermarkMismatch.

Definition decode_event_key : list Z -> string -> result SortableU64Key StoreOpenErrorCode :=
  decode_pair DensePrefixViolation EventIdentityMismatch.

Definition decode_optional_sortable_pair (code : StoreOpenErrorCode) (key : option (list Z))
    (decimal : option string) : result (option SortableU64Key) StoreOpenErrorCode :=
  match key, decimal with
  | None, None => Ok None
  | Some key, Some decimal => result_map Some (decode_sortable_pair code key decimal)
  | _, _ => Err code
  end.

Definition run_id_text (run_id : CanonicalUuid) : string :=
  CanonicalUuid_to_string uuid_to_hyphenated run_id.

Definition read_and_validate_metadata (db : Database) (expected_run_id : CanonicalUuid)
    : result PersistedStoreMetadata StoreOpenErrorCode :=
  let row := db_run_metadata db in
  if negb (rm_store_schema_version row =? STORE_SCHEMA_VERSION)
     || bool_decide (rm_schema_identity row <> STORE_SCHEMA_IDENTITY)
     || negb (rm_event_schema_version row =? EVENT_SCHEMA_VERSION) then Err SchemaMismatch
  else if bool_decide (rm_run_id row <> run_id_text expected_run_id) then Err RunIdentityMismatch
  else if bool_decide (rm_started_at row = EmptyString)
          || bool_decide (rm_configuration_identity row = EmptyString)
          || negb (bool_decide (rm_clean_shutdown row ∈ [0; 1])) then Err StoreMetadataInvalid
  else
    let? committed := decode_key_pair (rm_committed_key row) (rm_committed_sequence row) in
    let? read_model := decode_key_pair (rm_read_model_key row) (rm_read_model_sequence row) in
    if bool_decide (committed <> read_model) then Err WatermarkMismatch
    else
      Ok (mkPersistedStoreMetadata expected_run_id (rm_started_at row)
            (rm_configuration_identity row) committed read_model (rm_clean_shutdown row =? 1)).

(** [ORDER BY sequence_key]. *)
Fixpoint insert_by_sequence_key (row : StoredEventRow) (rows : list StoredEventRow)
    : list StoredEventRow :=
  match rows with
  | [] => [row]
  | other :: rows' =>
      match lex_compare (ser_sequence_key row) (ser_sequence_key other) with
      | Gt => other :: insert_by_sequence_key row rows'
      | _ => row :: rows
      end
  end.

Definition order_by_sequence_key (rows : list StoredEventRow) : list StoredEventRow :=
  foldr insert_by_sequence_key [] rows.

Definition scope_of (event : DiagnosticEvent) : DiagnosticScope :=
  DiagnosticEventHeader_scope (header event).

(** The comparison of the indexed columns with the decoded event. *)
Definition columns_match (row : StoredEventRow) (run_id : CanonicalUuid) (event : DiagnosticEvent)
    (elapsed : SortableU64Key) (session_generation : option SortableU64Key) : bool :=
  let scope := scope_of event in
  bool_decide (ser_run_id row = run_id_text run_id)
  && (ser_event_schema_version row =? DiagnosticEventHeader_schema_version (header event))
  && bool_decide (ser_kind row = DiagnosticEventKind_as_str (DiagnosticEvent_kind event))
  && (get elapsed =? DiagnosticEventHeader_elapsed_ns (header event))
  && bool_decide (ser_scene_id row = RunLocalId_as_str <$> DiagnosticScope_scene_id scope)
  && bool_decide (ser_actor_id row = RunLocalId_as_str <$> DiagnosticScope_actor_id scope)
  && bool_decide (ser_cue_id row = RunLocalId_as_str <$> DiagnosticScope_cue_id scope)
  && bool_decide (ser_effect_id row = RunLocalId_as_str <$> DiagnosticScope_effect_id scope)
  && bool_decide (ser_act_id row = RunLocalId_as_str <$> DiagnosticScope_act_id scope)
  && bool_decide (ser_tool_call_id row = RunLocalId_as_str <$> DiagnosticScope_tool_call_id scope)
  && bool_decide (get <$> session_generation = DiagnosticScope_session_generation scope).

(** The body of the loop of [validate_dense_prefix]. *)
Definition validate_event_row (run_id : CanonicalUuid) (previous : Z)
    (references : ReferenceValidator) (row : StoredEventRow)
    : result (Z * ReferenceValidator) StoreOpenErrorCode :=
  let? key := decode_event_key (ser_sequence_key row) (ser_sequence row) in
  let? expected := ok_or (checked_add U64 previous 1) DensePrefixViolation in
  if negb (get key =? expected) then Err DensePrefixViolation
  else
    let? event := ok_or (event_from_slice (ser_canonical_json row)) EventIdentityMismatch in
    let? reencoded := ok_or (event_to_vec event) EventIdentityMismatch in
    let? elapsed :=
      decode_sortable_pair EventIdentityMismatch (ser_elapsed_key row) (ser_elapsed_ns row) in
    let? session_generation :=
      decode_optional_sortable_pair EventIdentityMismatch (ser_session_generation_key row)
        (ser_session_generation row) in
    if negb (columns_match row run_id event elapsed session_generation)
       || bool_decide (DiagnosticEventHeader_run_id (header event) <> run_id)
       || negb (DiagnosticEventHeader_sequence (header event) =? get key)
       || bool_decide (reencoded <> ser_canonical_json row)
    then Err EventIdentityMismatch
    else
      match validate references event with
      | (references', Ok _) => Ok (get key, references')
      | (_, Err _) => Err EventIdentityMismatch
      end.

Fixpoint validate_event_rows (run_id : CanonicalUuid) (previous : Z)
    (references : ReferenceValidator) (rows : list StoredEventRow)
    : result Z StoreOpenErrorCode :=
  match rows with
  | [] => Ok previous
  | row :: rows' =>
      let? next := validate_event_row run_id previous references row in
      validate_event_rows run_id next.1 next.2 rows'
  end.

Definition validate_dense_prefix (db : Database) (metadata : PersistedStoreMetadata)
    : result unit StoreOpenErrorCode :=
  let? head :=
    validate_event_rows (psm_run_id metadata) 0 ReferenceValidator_new
      (order_by_sequence_key (db_events db)) in
  if negb (head =? get (psm_committed_watermark metadata)) then Err DensePrefixViolation else Ok tt.

Definition validate_materialized_row (watermark : SortableU64Key) (row : MaterializedRow)
    : result unit StoreOpenErrorCode :=
  let? key := decode_sortable_pair WatermarkMismatch (mat_key row) (mat_sequence row) in
  match key_compare key watermark with
  | Gt => Err WatermarkMismatch
  | _ =>
      if negb (mat_model_schema_version row =? 1) then Err SchemaMismatch
      else if negb (value_from_slice (mat_payload_json row)) then Err CorruptStore
      else Ok tt
  end.

Definition validate_sorted_key_row (watermark : SortableU64Key) (row : SpanRow)
    : result unit StoreOpenErrorCode :=
  let? key := decode_sortable_pair WatermarkMismatch (span_key row) (span_sequence row) in
  match key_compare key watermark with Gt => Err WatermarkMismatch | _ => Ok tt end.

Fixpoint validate_rows {R} (f : R -> result unit StoreOpenErrorCode) (rows : list R)
    : result unit StoreOpenErrorCode :=
  match rows with
  | [] => Ok tt
  | row :: rows' => let? _ := f row in validate_rows f rows'
  end.

Definition validate_materialized_state (db : Database) (metadata : PersistedStoreMetadata)
    : result unit StoreOpenErrorCode :=
  let watermark := psm_read_model_watermark metadata in
  let rows := validate_materialized_row watermark in
  let? _ := validate_rows rows (span_materialized <$> db_spans db) in
  let? _ := validate_rows (validate_sorted_key_row watermark) (db_spans db) in
  let? _ := validate_rows rows (text_materialized <$> db_messages db) in
  let? _ := validate_rows rows (text_materialized <$> db_plans db) in
  let? _ := validate_rows rows (text_materialized <$> db_counters db) in
  let? _ := validate_rows rows (singleton_materialized <$> db_usage db) in
  validate_rows rows (singleton_materialized <$> db_snapshot db).

(** [validate_store_state] after the check of the schema. *)
Definition validate_store_state (db : Database) (expected_run_id : CanonicalUuid)
    : result PersistedStoreMetadata StoreOpenErrorCode :=
  let? metadata := read_and_validate_metadata db expected_run_id in
  let? _ := validate_dense_prefix db metadata in
  let? _ := validate_materialized_state db metadata in
  Ok metadata.

(** ** A new store *)

Record InitialStoreMetadata := mkInitialStoreMetadata {
  ism_run_id : CanonicalUuid;
  ism_started_at : string;
  ism_configuration_identity : string;
}.

Definition validate_initial_metadata (initial : InitialStoreMetadata)
    : result unit StoreOpenErrorCode :=
  if bool_decide (ism_started_at initial = EmptyString)
     || bool_decide (ism_configuration_identity initial = EmptyString)
  then Err InvalidMetadata else Ok tt.

(** The database that the transaction of [create_with] leaves. *)
Definition initial_database (initial : InitialStoreMetadata) : Database :=
  let zero := into_bytes (SortableU64Key_new 0) in
  mkDatabase
    (mkRunMetadata STORE_SCHEMA_VERSION STORE_SCHEMA_IDENTITY EVENT_SCHEMA_VERSION
       (run_id_text (ism_run_id initial)) (ism_started_at initial) None None
       (ism_configuration_identity initial) zero "0" zero "0" 0)
    [] [] [] [] [] [] [].

(** [create_with] on a file system that does what it is asked. *)
Definition create (initial : InitialStoreMetadata)
    : result (Database * PersistedStoreMetadata) StoreOpenErrorCode :=
  let? _ := validate_initial_metadata initial in
  let db := initial_database initial in
  if negb (check_run_metadata (db_run_metadata db)) then Err InitialTransactionFailed
  else
    let? metadata := validate_store_state db (ism_run_id initial) in
    Ok (db, metadata).
End Store.
