(* ===== verification/Batch.v ===== *)
(** * Batches and the committed watermark

    Models [troupe-diagnostics-runtime/src/store/batch.rs] and [watermark.rs]:
    the accumulator that groups accepted events into transactions, and the
    watermark that the writer advances by one batch at a time.  A [Duration]
    is a number of nanoseconds.  [Vec] indexing that the source relies on
    ([events[0]], [last().expect(..)]) returns an [option]: [None] is the
    panic. *)

From S2P Require Import Prelude Wire Scalar Kinds Detail Event Validate ValidateSpec Hub HubSpec Key.

Definition MAX_BATCH_AGE : Z := 25 * 1000 * 1000.

Definition MAX_BATCH_EVENTS : Z := 512.

Definition MAX_BATCH_CANONICAL_BYTES : Z := 1024 * 1024.

Inductive BatchError :=
| BatchEmpty
| BatchRunIdentityMismatch (expected actual : CanonicalUuid)
| BatchNonCanonicalSequence (expected actual : Z)
| BatchSequenceExhausted
| BatchCanonicalByteCountOverflow
| ClockRegressed.

(** The length of the canonical encoding of an accepted event. *)
Definition accepted_bytes (a : AcceptedDiagnosticEvent) : Z := list_len (ae_canonical_bytes a).

Record EventBatch := mkEventBatch {
  eb_events : list AcceptedDiagnosticEvent;
  eb_canonical_bytes : Z;
}.

(** The loop of [EventBatch::new]. *)
Fixpoint batch_check (run_id : CanonicalUuid) (previous : option Z) (canonical_bytes : Z)
    (events : list AcceptedDiagnosticEvent) : result Z BatchError :=
  match events with
  | [] => Ok canonical_bytes
  | event :: events' =>
      let id := identity event in
      if bool_decide (ei_run_id id <> run_id) then
        Err (BatchRunIdentityMismatch run_id (ei_run_id id))
      else
        let? _ :=
          match previous with
          | Some previous =>
              let? expected := ok_or (checked_add U64 previous 1) BatchSequenceExhausted in
              if negb (ei_sequence id =? expected) then
                Err (BatchNonCanonicalSequence expected (ei_sequence id))
              else Ok tt
          | None => Ok tt
          end in
        let? canonical_bytes' :=
          ok_or (checked_add Usize canonical_bytes (accepted_bytes event))
            BatchCanonicalByteCountOverflow in
        batch_check run_id (Some (ei_sequence id)) canonical_bytes' events'
  end.

Definition EventBatch_new (events : list AcceptedDiagnosticEvent) : result EventBatch BatchError :=
  match events with
  | [] => Err BatchEmpty
  | event :: _ =>
      let? canonical_bytes := batch_check (ei_run_id (identity event)) None 0 events in
      Ok (mkEventBatch events canonical_bytes)
  end.

Definition batch_first (batch : EventBatch) : option AcceptedDiagnosticEvent := head (eb_events batch).

Definition batch_last (batch : EventBatch) : option AcceptedDiagnosticEvent := last (eb_events batch).

Definition batch_run_id (batch : EventBatch) : option CanonicalUuid :=
  (fun a => ei_run_id (identity a)) <$> batch_first batch.

Definition event_count (batch : EventBatch) : Z := list_len (eb_events batch).

Inductive BatchTrigger := OldestAge | EventCount | CanonicalBytes | ExplicitFlush.

#[export] Instance BatchTrigger_eq_dec : EqDecision BatchTrigger.
Proof. solve_decision. Defined.

Record TriggeredBatch := mkTriggeredBatch { tb_batch : EventBatch; tb_trigger : BatchTrigger }.

(** ** The accumulator *)

Record BatchAccumulator := mkBatchAccumulator {
  ba_pending : list AcceptedDiagnosticEvent;
  ba_pending_bytes : Z;
  ba_oldest_at : option Z;
  ba_last_observed_at : option Z;
  ba_last_sequence : option Z;
  ba_run_id : option CanonicalUuid;
}.

Definition BatchAccumulator_new : BatchAccumulator :=
  mkBatchAccumulator [] 0 None None None None.

Definition observe_time (self : BatchAccumulator) (now : Z) : result BatchAccumulator BatchError :=
  if match ba_last_observed_at self with Some last => now <? last | None => false end then
    Err ClockRegressed
  else
    Ok (mkBatchAccumulator (ba_pending self) (ba_pending_bytes self) (ba_oldest_at self) (Some now)
          (ba_last_sequence self) (ba_run_id self)).

Definition validate_next (self : BatchAccumulator) (event : AcceptedDiagnosticEvent)
    : result unit BatchError :=
  let id := identity event in
  let? _ :=
    match ba_run_id self with
    | Some run_id =>
        if bool_decide (ei_run_id id <> run_id) then
          Err (BatchRunIdentityMismatch run_id (ei_run_id id))
        else Ok tt
    | None => Ok tt
    end in
  match ba_last_sequence self with
  | Some previous =>
      let? expected := ok_or (checked_add U64 previous 1) BatchSequenceExhausted in
      if negb (ei_sequence id =? expected) then
        Err (BatchNonCanonicalSequence expected (ei_sequence id))
      else Ok tt
  | None => Ok tt
  end.

(** [Duration::saturating_sub] is zero below zero. *)
Definition oldest_is_due (self : BatchAccumulator) (now : Z) : bool :=
  match ba_oldest_at self with
  | Some oldest => MAX_BATCH_AGE <=? Z.max 0 (now - oldest)
  | None => false
  end.

Definition take_batch (self : BatchAccumulator) (trigger : BatchTrigger)
    : BatchAccumulator * TriggeredBatch :=
  (mkBatchAccumulator [] 0 None (ba_last_observed_at self) (ba_last_sequence self) (ba_run_id self),
   mkTriggeredBatch (mkEventBatch (ba_pending self) (ba_pending_bytes self)) trigger).

Definition take_if (self : BatchAccumulator) (trigger : option BatchTrigger)
    : BatchAccumulator * result (option TriggeredBatch) BatchError :=
  match trigger with
  | Some trigger => let '(self', batch) := take_batch self trigger in (self', Ok (Some batch))
  | None => (self, Ok None)
  end.

Definition push_trigger (self : BatchAccumulator) (now : Z) : option BatchTrigger :=
  if oldest_is_due self now then Some OldestAge
  else if MAX_BATCH_EVENTS <=? list_len (ba_pending self) then Some EventCount
  else if MAX_BATCH_CANONICAL_BYTES <=? ba_pending_bytes self then Some CanonicalBytes
  else None.

Definition get_or_insert {A} (o : option A) (value : A) : A :=
  match o with Some a => a | None => value end.

Definition push (self : BatchAccumulator) (event : AcceptedDiagnosticEvent) (now : Z)
    : BatchAccumulator * result (option TriggeredBatch) BatchError :=
  match validate_next self event with
  | Err e => (self, Err e)
  | Ok _ =>
      match observe_time self now with
      | Err e => (self, Err e)
      | Ok self1 =>
          match checked_add Usize (ba_pending_bytes self1) (accepted_bytes event) with
          | None => (self1, Err BatchCanonicalByteCountOverflow)
          | Some pending_bytes =>
              let self2 :=
                mkBatchAccumulator (ba_pending self1 ++ [event]) pending_bytes
                  (Some (get_or_insert (ba_oldest_at self1) now)) (ba_last_observed_at self1)
                  (Some (accepted_sequence event)) (Some (ei_run_id (identity event))) in
              take_if self2 (push_trigger self2 now)
          end
      end
  end.

Definition poll (self : BatchAccumulator) (now : Z)
    : BatchAccumulator * result (option TriggeredBatch) BatchError :=
  match observe_time self now with
  | Err e => (self, Err e)
  | Ok self1 => take_if self1 (if oldest_is_due self1 now then Some OldestAge else None)
  end.

Definition flush (self : BatchAccumulator)
    : BatchAccumulator * result (option TriggeredBatch) BatchError :=
  if bool_decide (ba_pending self = []) then (self, Ok None)
  else take_if self (Some ExplicitFlush).

(** ** The committed watermark *)

Inductive WatermarkError :=
| WatermarkRunIdentityMismatch (expected actual : CanonicalUuid)
| WatermarkNonCanonicalSequence (expected actual : Z)
| StaleCandidate (expected actual : Z)
| WatermarkSequenceExhausted.

Record CommitNotification := mkCommitNotification {
  cn_run_id : CanonicalUuid;
  cn_previous : SortableU64Key;
  cn_committed : SortableU64Key;
  cn_event_count : Z;
  cn_canonical_bytes : Z;
}.

Record CommittedWatermark := mkCommittedWatermark {
  wm_run_id : CanonicalUuid;
  wm_value : SortableU64Key;
}.

Definition watermark_fresh (run_id : CanonicalUuid) : CommittedWatermark :=
  mkCommittedWatermark run_id (SortableU64Key_new 0).

(** [None] is the panic of [first] and [last] on an empty batch. *)
Definition watermark_candidate (self : CommittedWatermark) (batch : EventBatch)
    : option (result CommitNotification WatermarkError) :=
  first ← batch_first batch;
  last ← batch_last batch;
  Some (
    if bool_decide (ei_run_id (identity first) <> wm_run_id self) then
      Err (WatermarkRunIdentityMismatch (wm_run_id self) (ei_run_id (identity first)))
    else
      let? expected := ok_or (checked_add U64 (get (wm_value self)) 1) WatermarkSequenceExhausted in
      if negb (accepted_sequence first =? expected) then
        Err (WatermarkNonCanonicalSequence expected (accepted_sequence first))
      else
        Ok (mkCommitNotification (wm_run_id self) (wm_value self)
              (SortableU64Key_new (accepted_sequence last)) (event_count batch)
              (eb_canonical_bytes batch))).

Definition watermark_advance (self : CommittedWatermark) (notification : CommitNotification)
    : result CommittedWatermark WatermarkError :=
  if bool_decide (cn_run_id notification <> wm_run_id self) then
    Err (WatermarkRunIdentityMismatch (wm_run_id self) (cn_run_id notification))
  else if bool_decide (cn_previous notification <> wm_value self) then
    Err (StaleCandidate (get (wm_value self)) (get (cn_previous notification)))
  else Ok (mkCommittedWatermark (wm_run_id self) (cn_committed notification)).

(** ** What a batch is *)

Fixpoint total_bytes (events : list AcceptedDiagnosticEvent) : Z :=
  match events with
  | [] => 0
  | event :: events' => accepted_bytes event + total_bytes events'
  end.

(** Each event carries the [u64] after the one before it. *)
Fixpoint follows (previous : Z) (events : list AcceptedDiagnosticEvent) : Prop :=
  match events with
  | [] => True
  | event :: events' =>
      checked_add U64 previous 1 = Some (accepted_sequence event) /\
      follows (accepted_sequence event) events'
  end.

(** A batch: events of one run with consecutive sequences whose bytes can be
    counted. *)
Definition batchable (events : list AcceptedDiagnosticEvent) : Prop :=
  match events with
  | [] => False
  | event :: events' =>
      follows (accepted_sequence event) events' /\
      (forall a, a ∈ events -> ei_run_id (identity a) = ei_run_id (identity event)) /\
      total_bytes events <= int_max Usize
  end.

Lemma accepted_bytes_nonneg a : 0 <= accepted_bytes a.
Proof. apply list_len_nonneg. Qed.

Lemma total_bytes_app l k : total_bytes (l ++ k) = total_bytes l + total_bytes k.
Proof. induction l; cbn; lia. Qed.

Lemma total_bytes_nonneg l : 0 <= total_bytes l.
Proof. induction l as [|a l IH]; cbn; [lia|]. pose proof (accepted_bytes_nonneg a). lia. Qed.

#[export] Hint Resolve accepted_bytes_nonneg total_bytes_nonneg : troupe.

Lemma follows_snoc p l a :
  follows p (l ++ [a]) <->
  follows p l /\
  checked_add U64 (match last l with Some x => accepted_sequence x | None => p end) 1 =
    Some (accepted_sequence a).
Proof.
  revert p. induction l as [|x l IH]; intros p; cbn [follows app]; [cbn; tauto|].
  rewrite IH. destruct l as [|y l]; [cbn; tauto|].
  change (last (x :: y :: l)) with (last (y :: l)). destruct (last (y :: l)) eqn:E; [tauto|].
  by apply last_None in E.
Qed.

Lemma follows_dense p l : follows p l -> dense_from (p + 1) l.
Proof.
  revert p. induction l as [|a l IH]; intros p; [intros _; apply dense_from_nil|].
  cbn. intros [Ha%checked_add_gt Hl]. apply dense_from_cons. split; [done|].
  rewrite <-Ha. by apply IH.
Qed.

Lemma batchable_dense e l : batchable (e :: l) -> dense_from (accepted_sequence e) (e :: l).
Proof. intros (Hf & _). apply dense_from_cons. split; [done|]. by apply follows_dense. Qed.

Lemma batch_check_step run previous bytes event events n :
  0 <= bytes <= int_max Usize ->
  batch_check run previous bytes (event :: events) = Ok n <->
  ei_run_id (identity event) = run /\
  match previous with
  | Some p => checked_add U64 p 1 = Some (accepted_sequence event)
  | None => True
  end /\
  bytes + accepted_bytes event <= int_max Usize /\
  batch_check run (Some (accepted_sequence event)) (bytes + accepted_bytes event) events = Ok n.
Proof.
  intros Hb. cbn [batch_check]. case_bool_decide as Hr; [split; [done|]; by intros [? _]|].
  assert (ei_run_id (identity event) = run) as Hr'.
  { by destruct (decide (ei_run_id (identity event) = run)). }
  rewrite result_bind_ok. setoid_rewrite result_bind_ok.
  pose proof (accepted_bytes_nonneg event). unfold checked_add.
  destruct (checked Usize (bytes + accepted_bytes event)) as [m|] eqn:Em; cbn [ok_or].
  2:{ apply checked_none in Em. split; [by intros (? & _ & ? & ? & _)|].
      intros (_ & _ & ? & _). exfalso. apply Em. cbn in *. lia. }
  apply checked_some in Em as [-> Hm].
  assert (forall P : Prop, (exists a, Ok (bytes + accepted_bytes event) = Ok (E := BatchError) a /\
    batch_check run (Some (accepted_sequence event)) a events = Ok n) <->
    batch_check run (Some (accepted_sequence event)) (bytes + accepted_bytes event) events = Ok n) as Ha
    by naive_solver.
  setoid_rewrite (Ha True). clear Ha. destruct previous as [p|].
  - destruct (checked U64 (p + 1)) as [q|] eqn:Eq; cbn [ok_or result_bind].
    + destruct (accepted_sequence event =? q) eqn:Es; cbn [negb].
      * apply Z.eqb_eq in Es as ->. split; [intros ([] & _ & ?)|intros (_ & _ & _ & ?); exists tt]; repeat split; try done; lia.
      * apply Z.eqb_neq in Es. split; [by intros (? & ? & _)|]. intros (_ & [= ->] & _). done.
    + split; [by intros (? & ? & _)|]. by intros (_ & ? & _).
  - split; [intros ([] & _ & ?)|intros (_ & _ & _ & ?); exists tt]; repeat split; try done; lia.
Qed.

Lemma batch_check_ok run events : forall p bytes n,
  0 <= bytes <= int_max Usize ->
  batch_check run (Some p) bytes events = Ok n <->
  follows p events /\ (forall a, a ∈ events -> ei_run_id (identity a) = run) /\
  n = bytes + total_bytes events /\ n <= int_max Usize.
Proof.
  induction events as [|e events IH]; intros p bytes n Hb.
  - cbn [batch_check follows total_bytes]. split.
    + intros [= <-]. repeat split; [by intros a ?%not_elem_of_nil|lia..].
    + intros (_ & _ & -> & _). f_equal. lia.
  - rewrite batch_check_step by done. cbn [follows total_bytes].
    pose proof (accepted_bytes_nonneg e). pose proof (total_bytes_nonneg events).
    split.
    + intros (Hr & Hs & Hm & Hc). apply IH in Hc as (Hf & Hall & -> & Hn); [|lia].
      repeat split; try done; [|lia..]. intros a [->|?]%elem_of_cons; auto.
    + intros ([Hs Hf] & Hall & -> & Hn). split; [apply Hall; set_solver|]. split; [done|].
      split; [lia|]. apply IH; [lia|]. split; [done|]. split; [intros; apply Hall; set_solver|]. lia.
Qed.

Lemma EventBatch_new_ok events batch :
  EventBatch_new events = Ok batch <->
  batchable events /\ batch = mkEventBatch events (total_bytes events).
Proof.
  unfold EventBatch_new. destruct events as [|e events]; [naive_solver|].
  rewrite result_bind_ok. setoid_rewrite (batch_check_step _ None 0 e events _ ltac:(cbn; lia)).
  pose proof (accepted_bytes_nonneg e). pose proof (total_bytes_nonneg events).
  cbn [batchable total_bytes]. split.
  - intros (n & (_ & _ & Hm & Hc) & [= <-]). apply batch_check_ok in Hc as (Hf & Hall & -> & Hn); [|lia].
    split; [|f_equal; lia]. split; [done|]. split; [|lia]. intros a [->|?]%elem_of_cons; auto.
  - intros [(Hf & Hall & Hn) ->]. exists (accepted_bytes e + total_bytes events).
    split; [|done]. split; [done|]. split; [done|]. split; [lia|].
    apply batch_check_ok; [lia|]. split; [done|]. split; [intros; apply Hall; set_solver|]. lia.
Qed.

(** ** The accumulator's invariant *)

Record acc_ok (self : BatchAccumulator) : Prop := {
  acc_pending : ba_pending self = [] \/ batchable (ba_pending self);
  acc_bytes : ba_pending_bytes self = total_bytes (ba_pending self);
  acc_last : forall a, last (ba_pending self) = Some a ->
    ba_last_sequence self = Some (accepted_sequence a) /\
    ba_run_id self = Some (ei_run_id (identity a));
  acc_oldest : ba_oldest_at self = None <-> ba_pending self = [];
  acc_events_below : list_len (ba_pending self) < MAX_BATCH_EVENTS;
  acc_bytes_below : total_bytes (ba_pending self) < MAX_BATCH_CANONICAL_BYTES;
}.

Lemma acc_ok_new : acc_ok BatchAccumulator_new.
Proof. constructor; try done. by left. Qed.

Lemma batchable_snoc l a b :
  batchable l -> last l = Some a ->
  checked_add U64 (accepted_sequence a) 1 = Some (accepted_sequence b) ->
  ei_run_id (identity b) = ei_run_id (identity a) ->
  total_bytes l + accepted_bytes b <= int_max Usize -> batchable (l ++ [b]).
Proof.
  destruct l as [|e l]; [done|]. intros (Hf & Hr & _) Hl Hs Hid Hb. cbn [batchable app].
  change (e :: l ++ [b]) with ((e :: l) ++ [b]).
  assert (forall x, x ∈ (e :: l) ++ [b] -> ei_run_id (identity x) = ei_run_id (identity e)) as Hall.
  { intros x [Hx| ->%list_elem_of_singleton]%elem_of_app; [auto|].
    rewrite Hid. apply Hr. apply last_Some_elem_of. done. }
  split; [|split; [done|rewrite total_bytes_app; cbn in *; lia]].
  apply follows_snoc. split; [done|]. destruct l as [|y l].
  - cbn in Hl. by injection Hl as ->.
  - change (last (e :: y :: l)) with (last (y :: l)) in Hl. by rewrite Hl.
Qed.

Lemma batchable_single a : accepted_bytes a <= int_max Usize -> batchable [a].
Proof.
  intros H. split; [done|]. split; [by intros x ->%list_elem_of_singleton|]. cbn in *. lia.
Qed.

(** The state in which [push] decides whether to take a batch. *)
Definition pushed (self : BatchAccumulator) (event : AcceptedDiagnosticEvent) (now : Z)
    : BatchAccumulator :=
  mkBatchAccumulator (ba_pending self ++ [event]) (ba_pending_bytes self + accepted_bytes event)
    (Some (get_or_insert (ba_oldest_at self) now)) (Some now)
    (Some (accepted_sequence event)) (Some (ei_run_id (identity event))).

Lemma push_cases self event now self' r :
  push self event now = (self', r) ->
  (exists e, r = Err e /\ ba_pending self' = ba_pending self /\
     (self' = self \/ observe_time self now = Ok self')) \/
  (validate_next self event = Ok tt /\
   ba_pending_bytes self + accepted_bytes event <= int_max Usize /\
   (self', r) = take_if (pushed self event now) (push_trigger (pushed self event now) now)).
Proof.
  unfold push. destruct (validate_next self event) as [[]|e]; [|intros [= <- <-]; left; eauto].
  unfold observe_time. destruct (match ba_last_observed_at self with Some _ => _ | None => _ end).
  { intros [= <- <-]. left. eauto. }
  destruct (checked_add _ _ _) as [n|] eqn:En; cbn [ba_pending ba_pending_bytes ba_oldest_at ba_last_observed_at] in *.
  - apply checked_some in En as [-> Hr]. intros Ht. right. split; [done|]. split; [lia|].
    by rewrite <-Ht.
  - intros [= <- <-]. left. eexists. split; [done|]. split; [done|]. by right.
Qed.

Lemma validate_next_ok self event :
  validate_next self event = Ok tt <->
  (forall run, ba_run_id self = Some run -> ei_run_id (identity event) = run) /\
  (forall p, ba_last_sequence self = Some p -> checked_add U64 p 1 = Some (accepted_sequence event)).
Proof.
  unfold validate_next. rewrite result_bind_ok.
  destruct (ba_run_id self) as [run|]; destruct (ba_last_sequence self) as [p|];
    try case_bool_decide as Hr; try (destruct (checked_add U64 p 1) as [q|] eqn:Eq; cbn [ok_or result_bind]);
    try (destruct (_ =? _) eqn:Es; [apply Z.eqb_eq in Es|apply Z.eqb_neq in Es]; cbn [negb]);
    naive_solver.
Qed.

(** After the event has been added and before a batch is taken, the pending
    events form a batch. *)
Lemma pushed_batchable self event now :
  acc_ok self -> validate_next self event = Ok tt ->
  ba_pending_bytes self + accepted_bytes event <= int_max Usize ->
  batchable (ba_pending (pushed self event now)) /\
  ba_pending_bytes (pushed self event now) = total_bytes (ba_pending (pushed self event now)).
Proof.
  intros [Hp Hb Hl _ _ _] [Hrun Hseq]%validate_next_ok Hle. cbn [ba_pending ba_pending_bytes pushed].
  split; [|rewrite total_bytes_app, Hb; cbn; lia].
  destruct (last (ba_pending self)) as [a|] eqn:El.
  - destruct (Hl a eq_refl) as [Hs Hr]. destruct Hp as [Hp|Hp]; [by rewrite Hp in El|].
    eapply batchable_snoc; [done|done|by apply Hseq|by apply Hrun|lia].
  - apply last_None in El. rewrite El. apply batchable_single. rewrite Hb, El in Hle. cbn in *. lia.
Qed.

(** What an operation may return: no batch, with everything still pending; or
    all pending events as one batch that [EventBatch::new] accepts. *)
Definition emitted (pending : list AcceptedDiagnosticEvent) (self' : BatchAccumulator)
    (out : option TriggeredBatch) : Prop :=
  match out with
  | None => ba_pending self' = pending
  | Some batch =>
      ba_pending self' = [] /\ EventBatch_new pending = Ok (tb_batch batch)
  end.

Lemma take_if_emitted self trigger self' r :
  ba_pending_bytes self = total_bytes (ba_pending self) ->
  (trigger <> None -> batchable (ba_pending self)) ->
  take_if self trigger = (self', r) ->
  exists out, r = Ok out /\ emitted (ba_pending self) self' out /\ (out = None -> self' = self).
Proof.
  intros Hb Hne. unfold take_if, take_batch. destruct trigger as [t|]; intros [= <- <-].
  - eexists. split; [done|]. split; [|done]. split; [done|]. apply EventBatch_new_ok. cbn.
    split; [by apply Hne|]. by rewrite Hb.
  - eexists. by split.
Qed.

Lemma acc_ok_taken self trigger : acc_ok (take_batch self trigger).1.
Proof. constructor; try done. by left. Qed.

Lemma push_correct self event now self' r :
  acc_ok self -> push self event now = (self', r) ->
  acc_ok self' /\
  match r with
  | Err _ => ba_pending self' = ba_pending self
  | Ok out => emitted (ba_pending self ++ [event]) self' out /\ validate_next self event = Ok tt
  end.
Proof.
  intros Hok Hp. apply push_cases in Hp as [(e & -> & Hpend & Hs)|(Hv & Hle & Ht)].
  - split; [|done]. destruct Hs as [->|Ho]; [done|]. unfold observe_time in Ho.
    destruct (match ba_last_observed_at self with Some _ => _ | None => _ end); [done|].
    injection Ho as <-. destruct Hok. by constructor.
  - destruct (pushed_batchable self event now Hok Hv Hle) as [Hbat Hby]. symmetry in Ht.
    pose proof (take_if_emitted _ _ _ _ Hby (fun _ => Hbat) Ht) as (out & -> & He & Hnone).
    split; [|done]. destruct (push_trigger (pushed self event now) now) as [t|] eqn:Et.
    { cbn in Ht. injection Ht as <- _. apply (acc_ok_taken (pushed self event now) t). }
    cbn in Ht. injection Ht as <- _. unfold push_trigger in Et.
    destruct (oldest_is_due _ _); [done|].
    destruct (MAX_BATCH_EVENTS <=? _) eqn:E1; [done|].
    destruct (MAX_BATCH_CANONICAL_BYTES <=? _) eqn:E2; [done|].
    constructor.
    + by right.
    + done.
    + intros a. cbn [ba_pending pushed]. rewrite last_snoc. by intros [= <-].
    + cbn. split; [done|]. by destruct (ba_pending self).
    + lia.
    + rewrite <-Hby. lia.
Qed.

Lemma poll_correct self now self' r :
  acc_ok self -> poll self now = (self', r) ->
  acc_ok self' /\
  match r with
  | Err _ => self' = self
  | Ok out => emitted (ba_pending self) self' out
  end.
Proof.
  intros Hok. unfold poll, observe_time.
  destruct (match ba_last_observed_at self with Some _ => _ | None => _ end).
  { by intros [= <- <-]. }
  set (self1 := mkBatchAccumulator _ _ _ _ _ _). intros Ht.
  assert (acc_ok self1) as Hok1 by (destruct Hok; by constructor).
  assert (oldest_is_due self1 now = true -> batchable (ba_pending self)) as Hdue.
  { unfold oldest_is_due. cbn. intros Hd. destruct (acc_pending _ Hok) as [Hp|]; [|done].
    apply (acc_oldest _ Hok) in Hp. by rewrite Hp in Hd. }
  assert ((if oldest_is_due self1 now then Some OldestAge else None) <> None ->
    batchable (ba_pending self1)) as Hne.
  { intros H. apply Hdue. by destruct (oldest_is_due self1 now). }
  destruct (take_if_emitted self1 _ _ _ (acc_bytes _ Hok) Hne Ht) as (out & -> & He & _).
  split; [|done]. destruct (oldest_is_due self1 now); injection Ht as <- _; [|done].
  apply (acc_ok_taken self1 OldestAge).
Qed.

Lemma flush_correct self self' r :
  acc_ok self -> flush self = (self', r) ->
  acc_ok self' /\ ba_pending self' = [] /\
  exists out, r = Ok out /\ emitted (ba_pending self) self' out.
Proof.
  intros Hok. unfold flush. case_bool_decide as Hp.
  - intros [= <- <-]. split; [done|]. split; [done|]. by eexists.
  - intros Ht. injection Ht as <- <-. split; [apply (acc_ok_taken self ExplicitFlush)|].
    split; [done|]. eexists. split; [done|]. split; [done|]. apply EventBatch_new_ok.
    destruct (acc_pending _ Hok) as [|Hb]; [done|]. split; [done|]. cbn.
    by rewrite (acc_bytes _ Hok).
Qed.

(** ** Histories of the accumulator *)

Inductive BatchOp :=
| OpPush (event : AcceptedDiagnosticEvent) (now : Z)
| OpPoll (now : Z)
| OpFlush.

Definition batch_op (self : BatchAccumulator) (op : BatchOp)
    : BatchAccumulator * result (option TriggeredBatch) BatchError :=
  match op with
  | OpPush event now => push self event now
  | OpPoll now => poll self now
  | OpFlush => flush self
  end.

(** Runs a history; returns the events that were taken in and the batches that
    came out. *)
Fixpoint batch_ops (self : BatchAccumulator) (ops : list BatchOp)
    : BatchAccumulator * list AcceptedDiagnosticEvent * list TriggeredBatch :=
  match ops with
  | [] => (self, [], [])
  | op :: ops' =>
      let '(self', r) := batch_op self op in
      let '(self'', taken, batches) := batch_ops self' ops' in
      (self'',
       match op, r with OpPush event _, Ok _ => event :: taken | _, _ => taken end,
       match r with Ok (Some batch) => batch :: batches | _ => batches end)
  end.

Definition batches_events (batches : list TriggeredBatch) : list AcceptedDiagnosticEvent :=
  concat ((fun b => eb_events (tb_batch b)) <$> batches).

(** A batch as the writer needs it. *)
Definition batch_ok (batch : TriggeredBatch) : Prop :=
  EventBatch_new (eb_events (tb_batch batch)) = Ok (tb_batch batch).

Lemma emitted_events pending self' out :
  emitted pending self' out ->
  pending = match out with Some b => eb_events (tb_batch b) | None => [] end ++ ba_pending self' /\
  match out with Some b => batch_ok b | None => True end.
Proof.
  unfold emitted, batch_ok. destruct out as [b|]; [|done]. intros [Hp Hn]. rewrite Hp, app_nil_r.
  pose proof Hn as [_ Hb]%EventBatch_new_ok.
  assert (eb_events (tb_batch b) = pending) as -> by (by rewrite Hb). done.
Qed.

Lemma batch_op_ok self op self' r :
  acc_ok self -> batch_op self op = (self', r) ->
  acc_ok self' /\
  ba_pending self ++ match op, r with OpPush event _, Ok _ => [event] | _, _ => [] end =
  match r with Ok (Some b) => eb_events (tb_batch b) | _ => [] end ++ ba_pending self' /\
  match r with Ok (Some b) => batch_ok b | _ => True end.
Proof.
  intros Hok. destruct op as [event now|now|]; cbn [batch_op]; intros H.
  - destruct (push_correct _ _ _ _ _ Hok H) as [Hok' Hr]. split; [done|].
    destruct r as [out|e]; [|by rewrite app_nil_r, Hr].
    destruct Hr as [He _]. by apply emitted_events in He as [-> ?]; destruct out.
  - destruct (poll_correct _ _ _ _ Hok H) as [Hok' Hr]. split; [done|]. rewrite app_nil_r.
    destruct r as [out|e]; [|by rewrite Hr].
    by apply emitted_events in Hr as [-> ?]; destruct out.
  - destruct (flush_correct _ _ _ Hok H) as (Hok' & _ & out & -> & Hr). split; [done|].
    rewrite app_nil_r. by apply emitted_events in Hr as [-> ?]; destruct out.
Qed.

Lemma batch_ops_ok ops : forall self self' taken batches,
  acc_ok self -> batch_ops self ops = (self', taken, batches) ->
  acc_ok self' /\ ba_pending self ++ taken = batches_events batches ++ ba_pending self' /\
  Forall batch_ok batches.
Proof.
  induction ops as [|op ops IH]; intros self self' taken batches Hok; cbn.
  - intros [= <- <- <-]. by rewrite app_nil_r.
  - destruct (batch_op self op) as [self1 r] eqn:Eo.
    destruct (batch_ops self1 ops) as [[self2 taken'] batches'] eqn:Er. intros [= <- <- <-].
    destruct (batch_op_ok _ _ _ _ Hok Eo) as (Hok1 & Heq & Hb).
    destruct (IH _ _ _ _ Hok1 Er) as (Hok2 & Heq2 & Hall). split; [done|].
    assert (ba_pending self ++ match op, r with OpPush event _, Ok _ => event :: taken' | _, _ => taken' end
      = (ba_pending self ++ match op, r with OpPush event _, Ok _ => [event] | _, _ => [] end) ++ taken') as ->.
    { destruct op; [destruct r|..]; rewrite ?app_nil_r, <-?(assoc_L (++)); done. }
    rewrite Heq, <-(assoc_L (++)), Heq2.
    destruct r as [[b|]|e]; cbn; [|done..]. split; [by rewrite (assoc_L (++))|by constructor].
Qed.

(** The accumulator neither loses, duplicates nor reorders events.  In any
    history of pushes, polls and flushes the events that were taken in are, in
    order, those of the emitted batches followed by the pending ones; every
    emitted batch passes [EventBatch::new] (non-empty, one run, consecutive
    sequences, its byte count exact), and what stays pending is below both
    size limits. *)
Theorem batching_preserves_events ops self taken batches :
  batch_ops BatchAccumulator_new ops = (self, taken, batches) ->
  taken = batches_events batches ++ ba_pending self /\ Forall batch_ok batches /\
  list_len (ba_pending self) < MAX_BATCH_EVENTS /\
  total_bytes (ba_pending self) < MAX_BATCH_CANONICAL_BYTES.
Proof.
  intros H. destruct (batch_ops_ok _ _ _ _ _ acc_ok_new H) as (Hok & Heq & Hall).
  split; [done|]. split; [done|]. by destruct Hok.
Qed.

(** A successful push or poll leaves no event pending for longer than
    [MAX_BATCH_AGE]: if it returns no batch, the oldest pending event is younger
    than that, and if the oldest pending event is old enough, a batch with all
    pending events is returned. *)
Theorem batch_age_bound self op now self' out :
  acc_ok self -> (op = OpPoll now \/ exists event, op = OpPush event now) ->
  batch_op self op = (self', Ok out) ->
  (forall oldest, ba_oldest_at self' = Some oldest -> now - oldest < MAX_BATCH_AGE) /\
  (forall oldest, ba_oldest_at self = Some oldest -> MAX_BATCH_AGE <= now - oldest ->
     ba_pending self' = [] /\
     exists batch, out = Some batch /\ ba_pending self `prefix_of` eb_events (tb_batch batch)).
Proof.
  intros Hok [->|[event ->]]; cbn [batch_op].
  - intros H. pose proof (poll_correct _ _ _ _ Hok H) as [_ He]. unfold poll, observe_time in H.
    destruct (match ba_last_observed_at self with Some _ => _ | None => _ end); [done|].
    unfold oldest_is_due in H. cbn in H. destruct (ba_oldest_at self) as [o|] eqn:Eo.
    + destruct (_ <=? _) eqn:Ed; injection H as <- <-; cbn in *.
      * split; [done|]. intros o' [= <-] _. split; [done|]. by eexists.
      * rewrite ?Eo. split; intros o' [= <-]; lia.
    + injection H as <- <-. cbn. rewrite ?Eo. by split.
  - intros H. apply push_cases in H as [(e & [=] & _)|(Hv & Hle & Ht)].
    unfold push_trigger, oldest_is_due in Ht. cbn [pushed ba_oldest_at] in Ht.
    destruct (MAX_BATCH_AGE <=? _) eqn:Ed.
    { injection Ht as -> ->. cbn. split; [done|]. intros o Ho _. split; [done|].
      eexists. split; [done|]. cbn. by eexists. }
    split.
    + intros o Ho. destruct (MAX_BATCH_EVENTS <=? _); [by injection Ht as -> ->|].
      destruct (MAX_BATCH_CANONICAL_BYTES <=? _); [by injection Ht as -> ->|].
      injection Ht as -> ->. cbn in Ho. injection Ho as <-. lia.
    + intros o Ho. rewrite Ho in Ed. cbn in Ed. lia.
Qed.

(** *** Witnesses *)

Definition sample_event (sequence : Z) : AcceptedDiagnosticEvent :=
  mkAcceptedDiagnosticEvent
    (DiagnosticEvent_SpanFinished
       (mkSpanFinished (sample_header sequence 40) 1 SpanOutcome_Completed None))
    ["{"%char; "}"%char] None false.

(** The first event waits; the second one is pushed 25 ms later. *)
Definition sample_ops : list BatchOp :=
  [OpPush (sample_event 4) 0; OpPush (sample_event 5) MAX_BATCH_AGE; OpPush (sample_event 6) MAX_BATCH_AGE].

Lemma batching_preserves_events_witness :
  [sample_event 4; sample_event 5; sample_event 6] =
    batches_events (batch_ops BatchAccumulator_new sample_ops).2 ++
    ba_pending (batch_ops BatchAccumulator_new sample_ops).1.1 /\
  ba_pending (batch_ops BatchAccumulator_new sample_ops).1.1 = [sample_event 6].
Proof.
  destruct (batching_preserves_events sample_ops (batch_ops BatchAccumulator_new sample_ops).1.1
    [sample_event 4; sample_event 5; sample_event 6] (batch_ops BatchAccumulator_new sample_ops).2)
    as (Heq & _).
  - vm_compute. reflexivity.
  - split; [exact Heq|vm_compute; reflexivity].
Defined.

Lemma batch_age_bound_witness :
  exists batch, (batch_op (push BatchAccumulator_new (sample_event 4) 0).1 (OpPoll MAX_BATCH_AGE)).2
    = Ok (Some batch) /\ [sample_event 4] `prefix_of` eb_events (tb_batch batch).
Proof.
  destruct (batch_age_bound (push BatchAccumulator_new (sample_event 4) 0).1 (OpPoll MAX_BATCH_AGE)
    MAX_BATCH_AGE (poll (push BatchAccumulator_new (sample_event 4) 0).1 MAX_BATCH_AGE).1
    (Some (mkTriggeredBatch (mkEventBatch [sample_event 4] 2) OldestAge))) as [_ H].
  - apply (push_correct BatchAccumulator_new (sample_event 4) 0
      (push BatchAccumulator_new (sample_event 4) 0).1 (push BatchAccumulator_new (sample_event 4) 0).2
      acc_ok_new). apply surjective_pairing.
  - left. reflexivity.
  - vm_compute. reflexivity.
  - destruct (H 0 eq_refl) as (_ & batch & Hb & Hp); [vm_compute; discriminate|].
    exists batch. split; [rewrite <-Hb; vm_compute; reflexivity|exact Hp].
Defined.
