(* ===== verification/Writer.v ===== *)
(** * The transactional writer

    Models [troupe-diagnostics-runtime/src/store/writer.rs]: the transaction
    that appends a batch of events, replaces the materialized read model and
    advances the watermarks, and the transaction that finalizes the run.  What
    SQLite, the file system and the hooks may refuse is the record [Faults] of
    one call; a transaction that does not commit is rolled back. *)

From S2P Require Import Prelude Wire Scalar Kinds Detail Event Validate ValidateSpec Projection Table.
From S2P Require Import Spans Messages Plans Counters Usage Snapshot Key Hub Store Batch.

Inductive MaterializedTable := TableSpans | TableMessages | TablePlans | TableCounters | TableUsage | TableSnapshot.

Inductive WriteStatement :=
| AppendEvent (sequence : Z)
| ClearMaterialized (table : MaterializedTable)
| InsertMaterialized (table : MaterializedTable)
| AdvanceWatermarks
| FinalizeRunMetadata.

Inductive FinalProductionOutcome := OutcomeCompleted | OutcomeFailed | OutcomeCancelled.

Definition FinalProductionOutcome_as_str (o : FinalProductionOutcome) : string :=
  match o with
  | OutcomeCompleted => "completed"
  | OutcomeFailed => "failed"
  | OutcomeCancelled => "cancelled"
  end.

Inductive WriterError :=
| WriterNonFreshStore (committed read_model : SortableU64Key) (clean_shutdown : bool)
| WriterWatermark (error : WatermarkError)
| WriterProjection (error : SnapshotProjectionError)
| WriterSerialization
| WriterBeginTransaction
| WriterStatement (ordinal : Z) (statement : WriteStatement)
| WriterBeforeCommit
| WriterCommit
| WriterPostCommitValidation (error : StoreOpenErrorCode)
| WriterInvalidFinalMetadata
| WriterFinalStateConflict
| WriterFinalMetadataRead
| WriterFinalMetadataMismatch.

Definition WriterError_code (e : WriterError) : string :=
  match e with
  | WriterNonFreshStore _ _ _ => "diagnostic_writer.non_fresh_store"
  | WriterWatermark _ => "diagnostic_writer.watermark"
  | WriterProjection _ => "diagnostic_writer.projection"
  | WriterSerialization => "diagnostic_writer.serialization"
  | WriterBeginTransaction => "diagnostic_writer.begin_transaction"
  | WriterStatement _ _ => "diagnostic_writer.statement"
  | WriterBeforeCommit => "diagnostic_writer.before_commit"
  | WriterCommit => "diagnostic_writer.commit"
  | WriterPostCommitValidation _ => "diagnostic_writer.post_commit_validation"
  | WriterInvalidFinalMetadata => "diagnostic_writer.invalid_final_metadata"
  | WriterFinalStateConflict => "diagnostic_writer.final_state_conflict"
  | WriterFinalMetadataRead => "diagnostic_writer.final_metadata_read"
  | WriterFinalMetadataMismatch => "diagnostic_writer.final_metadata_mismatch"
  end.

Definition statement_ordinal (e : WriterError) : option Z :=
  match e with WriterStatement ordinal _ => Some ordinal | _ => None end.

Definition statement (e : WriterError) : option WriteStatement :=
  match e with WriterStatement _ statement => Some statement | _ => None end.

(** What fails in one call: SQLite's [BEGIN], a statement (or the hook after
    it), the hook before the commit, [COMMIT], the check of the files after it,
    the read of the metadata ([StoreMetadataInvalid]) and the final read. *)
Record Faults := mkFaults {
  fault_begin : bool;
  fault_statement : Z -> WriteStatement -> bool;
  fault_before_commit : bool;
  fault_commit : bool;
  fault_files : option StoreOpenErrorCode;
  fault_metadata_read : bool;
  fault_final_read : bool;
}.

Definition no_faults : Faults := mkFaults false (fun _ _ => false) false false None false false.

(** ** Statements *)

Definition Statement : Type := WriteStatement * (Database -> option Database).

(** [execute_statement]: [None] is the panic of the ordinal's increment. *)
Definition execute_statement (faults : Faults) (s : Statement) (tx : Database * Z)
    : option (result (Database * Z) WriterError) :=
  let '(db, ordinal) := tx in
  let failed := WriterStatement ordinal s.1 in
  match s.2 db with
  | None => Some (Err failed)
  | Some db' =>
      if fault_statement faults ordinal s.1 then Some (Err failed)
      else
        ordinal' ← checked_add Usize ordinal 1;
        Some (Ok (db', ordinal'))
  end.

(** The statements of a function, in its order, up to the first that fails. *)
Fixpoint execute_all (faults : Faults) (statements : list Statement) (tx : Database * Z)
    : option (result (Database * Z) WriterError) :=
  match statements with
  | [] => Some (Ok tx)
  | s :: statements' =>
      r ← execute_statement faults s tx;
      match r with
      | Ok tx' => execute_all faults statements' tx'
      | Err e => Some (Err e)
      end
  end.

Section Writer.
Context (to_string : CounterSeriesIdentity -> string) `{BigUint} `{StoreEncoding}.

(** ** Encoded rows *)

Definition materialized_row (sequence : Z) (payload : list ascii) : MaterializedRow :=
  let key := SortableU64Key_new sequence in
  mkMaterializedRow 1 (into_bytes key) (canonical_decimal key) payload.

Definition encode_span (span : ProjectedSpan) : result SpanRow WriterError :=
  let? payload := ok_or (span_to_vec span) WriterSerialization in
  let key := SortableU64Key_new (ProjectedSpan_span_id span) in
  Ok (mkSpanRow (into_bytes key) (canonical_decimal key)
        (materialized_row (ProjectedSpan_latest_sequence span) payload)).

Definition encode_message (message : ProjectedMessage) : result TextRow WriterError :=
  let? payload := ok_or (message_to_vec message) WriterSerialization in
  Ok (mkTextRow (RunLocalId_as_str (ProjectedMessage_message_id message))
        (materialized_row (ProjectedMessage_latest_sequence message) payload)).

Definition encode_plan (plan : ProjectedPlan) : result TextRow WriterError :=
  let? scope_key := ok_or (scope_to_string (ProjectedPlan_scope plan)) WriterSerialization in
  let? payload := ok_or (plan_to_vec plan) WriterSerialization in
  Ok (mkTextRow scope_key (materialized_row (ProjectedPlan_sequence plan) payload)).

Definition encode_counter (counter : ProjectedCounter) : result TextRow WriterError :=
  let? payload := ok_or (counter_to_vec counter) WriterSerialization in
  Ok (mkTextRow (ProjectedCounter_series_key counter)
        (materialized_row (ProjectedCounter_sequence counter) payload)).

(** [map(..).collect::<Result<_, _>>()]. *)
Fixpoint encode_all {A R} (encode : A -> result R WriterError) (l : list A)
    : result (list R) WriterError :=
  match l with
  | [] => Ok []
  | x :: l' =>
      let? row := encode x in
      let? rows := encode_all encode l' in
      Ok (row :: rows)
  end.

Record EncodedMaterializedState := mkEncodedMaterializedState {
  ems_spans : list SpanRow;
  ems_messages : list TextRow;
  ems_plans : list TextRow;
  ems_counters : list TextRow;
  ems_usage : SingletonRow;
  ems_snapshot : SingletonRow;
}.

Definition encode (model : SnapshotReadModel) : result EncodedMaterializedState WriterError :=
  let? spans := encode_all encode_span (SpanReadModel_spans (SnapshotReadModel_spans model)) in
  let? messages :=
    encode_all encode_message (MessageReadModel_messages (SnapshotReadModel_messages model)) in
  let? plans := encode_all encode_plan (PlanReadModel_plans (SnapshotReadModel_plans model)) in
  let? counters :=
    encode_all encode_counter (CounterReadModel_series (SnapshotReadModel_counters model)) in
  let? usage := ok_or (usage_to_vec (SnapshotReadModel_usage model)) WriterSerialization in
  let? snapshot := ok_or (snapshot_to_vec model) WriterSerialization in
  Ok (mkEncodedMaterializedState spans messages plans counters
        (mkSingletonRow 1
           (materialized_row (UsageReadModel_through_sequence (SnapshotReadModel_usage model)) usage))
        (mkSingletonRow 1 (materialized_row (SnapshotReadModel_through_sequence model) snapshot))).

(** ** The statements of a batch *)

Definition event_row (accepted : AcceptedDiagnosticEvent) : StoredEventRow :=
  let event := ae_event accepted in
  let h := header event in
  let scope := DiagnosticEventHeader_scope h in
  let sequence := SortableU64Key_new (DiagnosticEventHeader_sequence h) in
  let elapsed := SortableU64Key_new (DiagnosticEventHeader_elapsed_ns h) in
  let session_generation := SortableU64Key_new <$> DiagnosticScope_session_generation scope in
  mkStoredEventRow (into_bytes sequence) (canonical_decimal sequence)
    (run_id_text (DiagnosticEventHeader_run_id h)) (DiagnosticEventHeader_schema_version h)
    (into_bytes elapsed) (canonical_decimal elapsed)
    (DiagnosticEventKind_as_str (DiagnosticEvent_kind event))
    (RunLocalId_as_str <$> DiagnosticScope_scene_id scope)
    (RunLocalId_as_str <$> DiagnosticScope_actor_id scope)
    (RunLocalId_as_str <$> DiagnosticScope_cue_id scope)
    (RunLocalId_as_str <$> DiagnosticScope_effect_id scope)
    (RunLocalId_as_str <$> DiagnosticScope_act_id scope)
    (RunLocalId_as_str <$> DiagnosticScope_tool_call_id scope)
    (into_bytes <$> session_generation) (canonical_decimal <$> session_generation)
    (ae_canonical_bytes accepted).

Definition append_event (accepted : AcceptedDiagnosticEvent) : Statement :=
  (AppendEvent (event_sequence (ae_event accepted)), insert_event (event_row accepted)).

Definition clear_table (table : MaterializedTable) : Statement :=
  (ClearMaterialized table,
   fun db =>
     Some match table with
     | TableSpans => with_spans db []
     | TableMessages => with_messages db []
     | TablePlans => with_plans db []
     | TableCounters => with_counters db []
     | TableUsage => with_usage db []
     | TableSnapshot => with_snapshot db []
     end).

Definition insert_rows {R} (table : MaterializedTable) (insert : R -> Database -> option Database)
    (rows : list R) : list Statement :=
  (fun row => (InsertMaterialized table, insert row)) <$> rows.

Definition replace_all (self : EncodedMaterializedState) : list Statement :=
  clear_table TableSpans :: insert_rows TableSpans insert_span (ems_spans self)
  ++ clear_table TableMessages :: insert_rows TableMessages insert_message (ems_messages self)
  ++ clear_table TablePlans :: insert_rows TablePlans insert_plan (ems_plans self)
  ++ clear_table TableCounters :: insert_rows TableCounters insert_counter (ems_counters self)
  ++ clear_table TableUsage :: insert_rows TableUsage insert_usage [ems_usage self]
  ++ clear_table TableSnapshot :: insert_rows TableSnapshot insert_snapshot [ems_snapshot self].

Definition set_watermarks (watermark : SortableU64Key) (m : RunMetadata) : RunMetadata :=
  mkRunMetadata (rm_store_schema_version m) (rm_schema_identity m) (rm_event_schema_version m)
    (rm_run_id m) (rm_started_at m) (rm_ended_at m) (rm_production_outcome m)
    (rm_configuration_identity m) (into_bytes watermark) (canonical_decimal watermark)
    (into_bytes watermark) (canonical_decimal watermark) (rm_clean_shutdown m).

Definition advance_persisted_watermarks (watermark : SortableU64Key) : Statement :=
  (AdvanceWatermarks, update_run_metadata (set_watermarks watermark)).

Definition batch_statements (batch : EventBatch) (materialized : EncodedMaterializedState)
    (committed : SortableU64Key) : list Statement :=
  (append_event <$> eb_events batch) ++ replace_all materialized
  ++ [advance_persisted_watermarks committed].

(** ** The writer *)

(** [tw_notifications] is what the observer was told. *)
Record TransactionalWriter := mkTransactionalWriter {
  tw_db : Database;
  tw_metadata : PersistedStoreMetadata;
  tw_projector : Projector SnapshotReadModel;
  tw_watermark : CommittedWatermark;
  tw_notifications : list CommitNotification;
}.

Definition with_db (w : TransactionalWriter) (db : Database) : TransactionalWriter :=
  mkTransactionalWriter db (tw_metadata w) (tw_projector w) (tw_watermark w) (tw_notifications w).

Definition TransactionalWriter_new (db : Database) (metadata : PersistedStoreMetadata)
    : result TransactionalWriter WriterError :=
  if negb (get (psm_committed_watermark metadata) =? 0)
     || negb (get (psm_read_model_watermark metadata) =? 0) || psm_clean_shutdown metadata then
    Err (WriterNonFreshStore (psm_committed_watermark metadata) (psm_read_model_watermark metadata)
           (psm_clean_shutdown metadata))
  else
    let run_id := psm_run_id metadata in
    Ok (mkTransactionalWriter db metadata (Projector_new (SnapshotReadModel_empty run_id))
          (watermark_fresh run_id) []).

(** [DiagnosticStore::refresh_metadata_after_commit]: the metadata to keep. *)
Definition refresh_metadata_after_commit (faults : Faults) (db : Database)
    (metadata : PersistedStoreMetadata) (expected_watermark : SortableU64Key)
    : result PersistedStoreMetadata StoreOpenErrorCode :=
  match key_compare expected_watermark (psm_committed_watermark metadata) with
  | Lt => Err WatermarkMismatch
  | _ =>
      let? _ := match fault_files faults with Some code => Err code | None => Ok tt end in
      if fault_metadata_read faults then Err StoreMetadataInvalid
      else
        let? found := read_and_validate_metadata db (psm_run_id metadata) in
        if bool_decide (psm_committed_watermark found <> expected_watermark)
           || bool_decide (psm_read_model_watermark found <> expected_watermark)
        then Err WatermarkMismatch
        else Ok found
  end.

(** The transaction of a batch: the database it would commit. *)
Definition batch_transaction (faults : Faults) (db : Database) (batch : EventBatch)
    (materialized : EncodedMaterializedState) (committed : SortableU64Key)
    : option (result Database WriterError) :=
  if fault_begin faults then Some (Err WriterBeginTransaction)
  else
    r ← execute_all faults (batch_statements batch materialized committed) (db, 1);
    Some (
      let? tx := r in
      if fault_before_commit faults then Err WriterBeforeCommit
      else if fault_commit faults then Err WriterCommit
      else Ok tx.1).

(** [commit_batch_with_hook]. *)
Definition commit_batch_with_hook (faults : Faults) (self : TransactionalWriter) (batch : EventBatch)
    : option (TransactionalWriter * result CommitNotification WriterError) :=
  notification ← watermark_candidate (tw_watermark self) batch;
  match notification with
  | Err e => Some (self, Err (WriterWatermark e))
  | Ok notification =>
      '(candidate, projected) ← apply_all (SnapshotProjector_apply to_string)
                                   (tw_projector self) (ae_event <$> eb_events batch);
      match projected with
      | Err e => Some (self, Err (WriterProjection e))
      | Ok _ =>
          match encode (model candidate) with
          | Err e => Some (self, Err e)
          | Ok materialized =>
              let committed := cn_committed notification in
              transaction ← batch_transaction faults (tw_db self) batch materialized committed;
              match transaction with
              | Err e => Some (self, Err e)
              | Ok db =>
                  match refresh_metadata_after_commit faults db (tw_metadata self) committed with
                  | Err e => Some (with_db self db, Err (WriterPostCommitValidation e))
                  | Ok metadata =>
                      match watermark_advance (tw_watermark self) notification with
                      | Err _ => None
                      | Ok watermark =>
                          Some (mkTransactionalWriter db metadata candidate watermark
                                  (tw_notifications self ++ [notification]),
                                Ok notification)
                      end
                  end
              end
          end
      end
  end.

(** ** Finalization *)

Definition set_final (ended_at : string) (outcome : FinalProductionOutcome)
    (watermark : SortableU64Key) (m : RunMetadata) : RunMetadata :=
  mkRunMetadata (rm_store_schema_version m) (rm_schema_identity m) (rm_event_schema_version m)
    (rm_run_id m) (rm_started_at m) (Some ended_at) (Some (FinalProductionOutcome_as_str outcome))
    (rm_configuration_identity m) (into_bytes watermark) (canonical_decimal watermark)
    (into_bytes watermark) (canonical_decimal watermark) 1.

(** The [WHERE] clause of the final update. *)
Definition final_row_matches (watermark : SortableU64Key) (m : RunMetadata) : bool :=
  negb (is_some (rm_ended_at m)) && negb (is_some (rm_production_outcome m))
  && (rm_clean_shutdown m =? 0)
  && bool_decide (rm_committed_key m = into_bytes watermark)
  && bool_decide (rm_committed_sequence m = canonical_decimal watermark)
  && bool_decide (rm_read_model_key m = into_bytes watermark)
  && bool_decide (rm_read_model_sequence m = canonical_decimal watermark).

(** The update and the number of rows it affects. *)
Definition finalize_row (ended_at : string) (outcome : FinalProductionOutcome)
    (watermark : SortableU64Key) (db : Database) : option (Database * Z) :=
  if final_row_matches watermark (db_run_metadata db) then
    db' ← update_run_metadata (set_final ended_at outcome watermark) db;
    Some (db', 1)
  else Some (db, 0).

Definition finalize_transaction (faults : Faults) (db : Database) (ended_at : string)
    (outcome : FinalProductionOutcome) (watermark : SortableU64Key) : result Database WriterError :=
  if fault_begin faults then Err WriterBeginTransaction
  else
    match finalize_row ended_at outcome watermark db with
    | None => Err (WriterStatement 1 FinalizeRunMetadata)
    | Some (db', affected) =>
        if fault_statement faults 1 FinalizeRunMetadata then
          Err (WriterStatement 1 FinalizeRunMetadata)
        else if negb (affected =? 1) then Err WriterFinalStateConflict
        else if fault_before_commit faults then Err WriterBeforeCommit
        else if fault_commit faults then Err WriterCommit
        else Ok db'
    end.

(** [finalize_run_with_hook]. *)
Definition finalize_run_with_hook (faults : Faults) (self : TransactionalWriter) (ended_at : string)
    (outcome : FinalProductionOutcome) : TransactionalWriter * result SortableU64Key WriterError :=
  if bool_decide (ended_at = EmptyString) then (self, Err WriterInvalidFinalMetadata)
  else if psm_clean_shutdown (tw_metadata self) then (self, Err WriterFinalStateConflict)
  else
    let watermark := wm_value (tw_watermark self) in
    match finalize_transaction faults (tw_db self) ended_at outcome watermark with
    | Err e => (self, Err e)
    | Ok db =>
        match refresh_metadata_after_commit faults db (tw_metadata self) watermark with
        | Err e => (with_db self db, Err (WriterPostCommitValidation e))
        | Ok metadata =>
            let self' := mkTransactionalWriter db metadata (tw_projector self) (tw_watermark self)
                           (tw_notifications self) in
            let row := db_run_metadata db in
            if fault_final_read faults then (self', Err WriterFinalMetadataRead)
            else if bool_decide (rm_ended_at row = Some ended_at)
                    && bool_decide
                         (rm_production_outcome row = Some (FinalProductionOutcome_as_str outcome))
                    && (rm_clean_shutdown row =? 1)
            then (self', Ok watermark)
            else (self', Err WriterFinalMetadataMismatch)
        end
    end.
End Writer.
