(* ===== verification/WriterSpec.v ===== *)
(** * What the writer commits

    The state of the database is a function of the events it stores:
    [store_ok] says that the tables hold the events, in order, and the encoded
    snapshot of exactly these events.  A batch is committed as a whole or not
    at all, whatever fails. *)

From S2P Require Import Prelude Wire Scalar Kinds Detail Event Validate ValidateSpec Projection Table.
From S2P Require Import Spans Messages Plans Counters Usage UsageSpec UsageCorrect Snapshot Key Hub Store Batch Writer.

(** ** Statements in sequence *)

(** What a list of statements does when nothing fails but constraints. *)
Fixpoint run_statements (statements : list Statement) (db : Database) : option Database :=
  match statements with
  | [] => Some db
  | s :: statements' => db' ← s.2 db; run_statements statements' db'
  end.

Lemma run_statements_app l k db :
  run_statements (l ++ k) db = db' ← run_statements l db; run_statements k db'.
Proof. revert db. induction l as [|s l IH]; intros db; cbn; [done|]. by destruct (s.2 db); cbn. Qed.

(** The statements all took effect, or the result is the error of one of them. *)
Lemma execute_all_cases faults statements : forall db ordinal,
  1 <= ordinal -> ordinal + list_len statements <= int_max Usize ->
  (exists db', run_statements statements db = Some db' /\
     execute_all faults statements (db, ordinal) =
       Some (Ok (db', ordinal + list_len statements))) \/
  (exists n s, s ∈ statements /\
     execute_all faults statements (db, ordinal) = Some (Err (WriterStatement n s.1)) /\
     ((forall n s, fault_statement faults n s = false) -> run_statements statements db = None)).
Proof.
  induction statements as [|s l IH]; intros db ordinal Ho Hl; cbn [run_statements execute_all].
  - left. exists db. split; [done|]. by rewrite Z.add_0_r.
  - rewrite list_len_cons in Hl |- *. pose proof (list_len_nonneg l).
    unfold execute_statement. destruct (s.2 db) as [db'|] eqn:Es; cbn [mbind option_bind].
    2:{ right. exists ordinal, s. split_and!; [set_solver|done|done]. }
    destruct (fault_statement faults ordinal s.1) eqn:Ef; cbn [mbind option_bind].
    { right. exists ordinal, s. split_and!; [set_solver|done|]. intros Hno. by rewrite Hno in Ef. }
    unfold checked_add. rewrite checked_in_range by (cbn in *; lia). cbn [mbind option_bind].
    destruct (IH db' (ordinal + 1)) as [(db2 & Hr & ->)|(n & s' & Hs & -> & Hf)]; [lia..| |].
    + left. exists db2. split; [done|]. by rewrite Z.add_assoc.
    + right. exists n, s'. split_and!; [set_solver|done|done].
Qed.

(** ** Keys *)

Lemma canonical_decimal_new v : 0 <= v <= int_max U64 ->
  canonical_decimal (SortableU64Key_new v) = u64_to_string v.
Proof. intros Hv. unfold canonical_decimal. by rewrite key_get_new. Qed.

Lemma from_slice_new v : from_slice (into_bytes (SortableU64Key_new v)) = Ok (SortableU64Key_new v).
Proof. unfold from_slice, SortableU64Key_new. cbn [into_bytes]. by rewrite to_be_bytes_length. Qed.

Lemma decode_pair_new malformed differs v : 0 <= v <= int_max U64 ->
  decode_pair malformed differs (into_bytes (SortableU64Key_new v))
    (canonical_decimal (SortableU64Key_new v)) = Ok (SortableU64Key_new v).
Proof.
  intros Hv. unfold decode_pair. rewrite from_slice_new. cbn [map_err result_bind].
  assert (parse_canonical_decimal (canonical_decimal (SortableU64Key_new v)) =
            Ok (SortableU64Key_new v)) as ->.
  { apply parse_canonical_decimal_ok. exists v. split; [|done].
    rewrite canonical_decimal_new by done. by apply parse_print_u64. }
  cbn [map_err result_bind]. by rewrite bool_decide_eq_false_2 by tauto.
Qed.

Lemma key_compare_new a b : 0 <= a <= int_max U64 -> 0 <= b <= int_max U64 ->
  key_compare (SortableU64Key_new a) (SortableU64Key_new b) = Z.compare a b.
Proof.
  intros Ha Hb. unfold key_compare. rewrite lex_compare_value; try apply to_be_bytes_byte.
  - fold (get (SortableU64Key_new a)) (get (SortableU64Key_new b)). by rewrite !key_get_new.
  - unfold SortableU64Key_new. cbn [into_bytes]. by rewrite !to_be_bytes_length.
Qed.

(** ** The effect of the statements of a batch *)

Section Spec.
Context (to_string : CounterSeriesIdentity -> string) `{LAWS : BigUintLaws} `{StoreEncoding}.

Abbreviation events_of stored := (ae_event <$> stored).

Definition batch_database (db : Database) (events : list AcceptedDiagnosticEvent)
    (m : EncodedMaterializedState) (watermark : SortableU64Key) : Database :=
  mkDatabase (set_watermarks watermark (db_run_metadata db))
    (db_events db ++ (event_row <$> events)) (ems_spans m) (ems_messages m) (ems_plans m)
    (ems_counters m) [ems_usage m] [ems_snapshot m].

Lemma run_append_events events : forall db db',
  run_statements (append_event <$> events) db = Some db' ->
  db' = with_events db (db_events db ++ (event_row <$> events)).
Proof.
  induction events as [|a l IH]; intros db db'; cbn [fmap list_fmap run_statements].
  - intros [= <-]. rewrite app_nil_r. by destruct db.
  - cbn [append_event snd]. unfold insert_event. destruct (_ && _)%bool; [|done].
    cbn [mbind option_bind]. intros ->%IH. cbn. unfold with_events. cbn. by rewrite <-(assoc_L (++)).
Qed.

(** Insertions into one table, read through [rows] and written through [put]. *)
Lemma run_insert_rows {R} table (insert : R -> Database -> option Database)
    (rows : Database -> list R) (put : Database -> list R -> Database) l :
  (forall r db db', insert r db = Some db' -> db' = put db (rows db ++ [r])) ->
  (forall db k, rows (put db k) = k) -> (forall db k k', put (put db k) k' = put db k') ->
  forall db k db', run_statements (insert_rows table insert l) (put db k) = Some db' ->
    db' = put db (k ++ l).
Proof.
  intros Hi Hr Hp. unfold insert_rows. induction l as [|r l IH]; intros db k db';
    cbn [fmap list_fmap run_statements snd].
  - intros [= <-]. by rewrite app_nil_r.
  - destruct (insert r (put db k)) as [db1|] eqn:E; [|done]. cbn [mbind option_bind].
    apply Hi in E as ->. rewrite Hr, Hp. intros ->%IH. by rewrite <-(assoc_L (++)).
Qed.

(** One table: it is cleared, filled, and the rest goes on. *)
Lemma run_replace {R} table (insert : R -> Database -> option Database)
    (rows : Database -> list R) (put : Database -> list R -> Database) l rest db db' :
  (forall r db db', insert r db = Some db' -> db' = put db (rows db ++ [r])) ->
  (forall db k, rows (put db k) = k) -> (forall db k k', put (put db k) k' = put db k') ->
  (clear_table table).2 db = Some (put db []) ->
  run_statements (clear_table table :: insert_rows table insert l ++ rest) db = Some db' ->
  run_statements rest (put db l) = Some db'.
Proof.
  intros Hi Hr Hp Hc. cbn [run_statements]. rewrite Hc. cbn [mbind option_bind].
  rewrite run_statements_app. destruct (run_statements _ _) as [db1|] eqn:E; [|done].
  apply (run_insert_rows _ _ rows put) in E as ->; done.
Qed.

Lemma insert_text_effect rows put r db db' :
  insert_text rows put r db = Some db' -> db' = put db (rows db ++ [r]).
Proof. unfold insert_text. destruct (_ && _)%bool; [|done]. by intros [= <-]. Qed.

Lemma insert_singleton_effect rows put r db db' :
  insert_singleton_row rows put r db = Some db' -> db' = put db (rows db ++ [r]).
Proof. unfold insert_singleton_row. destruct (_ && _)%bool; [|done]. by intros [= <-]. Qed.

Lemma insert_span_effect r db db' :
  insert_span r db = Some db' -> db' = with_spans db (db_spans db ++ [r]).
Proof. unfold insert_span. destruct (_ && _)%bool; [|done]. by intros [= <-]. Qed.

Lemma run_batch_statements events m watermark n db db' :
  run_statements (batch_statements (mkEventBatch events n) m watermark) db = Some db' ->
  db' = batch_database db events m watermark /\ check_run_metadata (db_run_metadata db') = true.
Proof.
  unfold batch_statements. cbn [eb_events]. rewrite run_statements_app.
  destruct (run_statements (append_event <$> events) db) as [db1|] eqn:E1; [|done].
  apply run_append_events in E1. cbn [mbind option_bind]. rewrite run_statements_app.
  destruct (run_statements (replace_all m) db1) as [db2|] eqn:E2; [|done].
  cbn [mbind option_bind]. unfold replace_all in E2.
  apply (run_replace _ _ db_spans with_spans _ _ _ _ insert_span_effect) in E2; [|done..].
  apply (run_replace _ _ db_messages with_messages _ _ _ _ (insert_text_effect _ _)) in E2; [|done..].
  apply (run_replace _ _ db_plans with_plans _ _ _ _ (insert_text_effect _ _)) in E2; [|done..].
  apply (run_replace _ _ db_counters with_counters _ _ _ _ (insert_text_effect _ _)) in E2; [|done..].
  apply (run_replace _ _ db_usage with_usage _ _ _ _ (insert_singleton_effect _ _)) in E2; [|done..].
  rewrite <-(app_nil_r (insert_rows TableSnapshot _ _)) in E2.
  apply (run_replace _ _ db_snapshot with_snapshot _ _ _ _ (insert_singleton_effect _ _)) in E2; [|done..].
  injection E2 as <-. cbn [run_statements advance_persisted_watermarks snd].
  unfold update_run_metadata. destruct (check_run_metadata _) eqn:Ec; [|done].
  intros [= <-]. subst db1. split; [done|exact Ec].
Qed.

(** ** The state of a store *)

(** What the constructors of the types guarantee of an event. *)
Definition event_typed (e : DiagnosticEvent) : Prop :=
  DiagnosticEventHeader_schema_version (header e) = EVENT_SCHEMA_VERSION /\
  0 <= event_elapsed e <= int_max U64 /\
  (forall g, DiagnosticScope_session_generation (event_scope e) = Some g -> 0 <= g <= int_max U64) /\
  tokens_typed e.

(** An event that the hub accepted: its bytes are its encoding. *)
Definition stored_event (a : AcceptedDiagnosticEvent) : Prop :=
  event_to_vec (ae_event a) = Some (ae_canonical_bytes a) /\ event_typed (ae_event a).

(** The metadata row of a run with [n] committed events. *)
Record metadata_ok (run_id : CanonicalUuid) (n : Z) (m : RunMetadata) : Prop := {
  mo_check : check_run_metadata m = true;
  mo_run_id : rm_run_id m = run_id_text run_id;
  mo_committed_key : rm_committed_key m = into_bytes (SortableU64Key_new n);
  mo_committed : rm_committed_sequence m = canonical_decimal (SortableU64Key_new n);
  mo_read_model_key : rm_read_model_key m = into_bytes (SortableU64Key_new n);
  mo_read_model : rm_read_model_sequence m = canonical_decimal (SortableU64Key_new n);
}.

(** The tables hold the encoded snapshot of the stored events. *)
Definition tables_hold (db : Database) (m : EncodedMaterializedState) : Prop :=
  db_spans db = ems_spans m /\ db_messages db = ems_messages m /\ db_plans db = ems_plans m /\
  db_counters db = ems_counters m /\ db_usage db = [ems_usage m] /\ db_snapshot db = [ems_snapshot m].

Definition tables_empty (db : Database) : Prop :=
  db_spans db = [] /\ db_messages db = [] /\ db_plans db = [] /\ db_counters db = [] /\
  db_usage db = [] /\ db_snapshot db = [].

Record store_ok (run_id : CanonicalUuid) (stored : list AcceptedDiagnosticEvent) (db : Database)
    : Prop := {
  so_recorded : recorded run_id (snapshot_admissible to_string) (events_of stored);
  so_stored : Forall stored_event stored;
  so_metadata : metadata_ok run_id (list_len stored) (db_run_metadata db);
  so_events : db_events db = event_row <$> stored;
  so_tables : (stored = [] /\ tables_empty db) \/
    exists m, encode (snapshot_view to_string run_id (events_of stored)) = Ok m /\ tables_hold db m;
}.

Definition metadata_of (run_id : CanonicalUuid) (n : Z) (m : RunMetadata) : PersistedStoreMetadata :=
  mkPersistedStoreMetadata run_id (rm_started_at m) (rm_configuration_identity m)
    (SortableU64Key_new n) (SortableU64Key_new n) (rm_clean_shutdown m =? 1).

(** The writer agrees with its store. *)
Record writer_ok (run_id : CanonicalUuid) (stored : list AcceptedDiagnosticEvent)
    (w : TransactionalWriter) : Prop := {
  wo_store : store_ok run_id stored (tw_db w);
  wo_references : models (references (tw_projector w)) (events_of stored);
  wo_model : model (tw_projector w) = snapshot_view to_string run_id (events_of stored);
  wo_watermark : tw_watermark w = mkCommittedWatermark run_id (SortableU64Key_new (list_len stored));
  wo_metadata : tw_metadata w = metadata_of run_id (list_len stored) (db_run_metadata (tw_db w));
}.

Lemma events_length (stored : list AcceptedDiagnosticEvent) :
  list_len (events_of stored) = list_len stored.
Proof. unfold list_len. by rewrite length_fmap. Qed.

Lemma stored_length run_id stored :
  recorded run_id (snapshot_admissible to_string) (events_of stored) ->
  0 <= list_len stored <= int_max U64.
Proof.
  intros Hr%recorded_length. rewrite events_length in Hr. pose proof (list_len_nonneg stored). lia.
Qed.

Lemma check_run_metadata_parts m : check_run_metadata m = true ->
  rm_store_schema_version m = 1 /\ rm_schema_identity m = STORE_SCHEMA_IDENTITY /\
  rm_event_schema_version m = 1 /\ rm_started_at m <> EmptyString /\
  rm_configuration_identity m <> EmptyString /\ rm_clean_shutdown m ∈ [0; 1].
Proof.
  unfold check_run_metadata, is_nonempty. intros Hc. bool_hyps. rewrite !Z.eqb_eq in *. done.
Qed.

(** The metadata of a store are read back. *)
Lemma read_metadata run_id n db : 0 <= n <= int_max U64 ->
  metadata_ok run_id n (db_run_metadata db) ->
  read_and_validate_metadata db run_id = Ok (metadata_of run_id n (db_run_metadata db)).
Proof.
  intros Hn [Hc Hrun Hck Hcs Hrk Hrs].
  apply check_run_metadata_parts in Hc as (Hv & Hi & He & Hs & Hconf & Hclean).
  unfold read_and_validate_metadata, decode_key_pair. rewrite Hv, Hi, He, Hrun, Hck, Hcs, Hrk, Hrs.
  rewrite (bool_decide_eq_false_2 (STORE_SCHEMA_IDENTITY <> _)) by tauto.
  rewrite (bool_decide_eq_false_2 (run_id_text run_id <> _)) by tauto.
  rewrite (bool_decide_eq_false_2 (rm_started_at _ = _)) by done.
  rewrite (bool_decide_eq_false_2 (rm_configuration_identity _ = _)) by done.
  rewrite (bool_decide_eq_true_2 (rm_clean_shutdown _ ∈ _)) by done.
  cbn [Z.eqb negb orb STORE_SCHEMA_VERSION EVENT_SCHEMA_VERSION]. change (1 =? 1) with true. cbn [negb orb].
  rewrite !decode_pair_new by done. cbn [result_bind].
  by rewrite bool_decide_eq_false_2 by tauto.
Qed.

(** ** A new store *)

Lemma check_initial initial : validate_initial_metadata initial = Ok tt ->
  check_run_id (run_id_text (ism_run_id initial)) = true ->
  metadata_ok (ism_run_id initial) 0 (db_run_metadata (initial_database initial)).
Proof.
  unfold validate_initial_metadata. destruct (_ || _)%bool eqn:E; [done|]. bool_hyps.
  intros _ Hrun. constructor; try done. unfold check_run_metadata, initial_database, is_nonempty.
  cbn [rm_store_schema_version rm_schema_identity rm_event_schema_version rm_run_id rm_started_at
       rm_production_outcome rm_configuration_identity rm_committed_key rm_committed_sequence
       rm_read_model_key rm_read_model_sequence rm_clean_shutdown db_run_metadata].
  rewrite Hrun, (bool_decide_eq_false_2 (ism_started_at _ = _)),
    (bool_decide_eq_false_2 (ism_configuration_identity _ = _)) by done.
  by vm_compute.
Qed.

Lemma initial_store_ok initial : validate_initial_metadata initial = Ok tt ->
  check_run_id (run_id_text (ism_run_id initial)) = true ->
  store_ok (ism_run_id initial) [] (initial_database initial).
Proof.
  intros Hv Hr. constructor; [constructor|constructor|by apply check_initial|done|by left].
Qed.

Lemma new_writer_ok initial w : validate_initial_metadata initial = Ok tt ->
  check_run_id (run_id_text (ism_run_id initial)) = true ->
  TransactionalWriter_new (initial_database initial)
    (metadata_of (ism_run_id initial) 0 (db_run_metadata (initial_database initial))) = Ok w ->
  writer_ok (ism_run_id initial) [] w.
Proof.
  intros Hv Hr. unfold TransactionalWriter_new. destruct (_ || _)%bool; [done|]. intros [= <-].
  constructor; cbn [tw_db tw_projector references model tw_watermark tw_metadata]; try done.
  - by apply initial_store_ok.
  - apply models_nil.
Qed.

(** ** The number of statements *)

Lemma encode_all_length {A R} (f : A -> result R WriterError) l : forall rows,
  encode_all f l = Ok rows -> list_len rows = list_len l.
Proof.
  induction l as [|x l IH]; intros rows; cbn [encode_all].
  - by intros [= <-].
  - destruct (f x); [|done]. cbn [result_bind]. destruct (encode_all f l) as [k|]; [|done].
    cbn [result_bind]. intros [= <-]. rewrite !list_len_cons. by rewrite (IH k).
Qed.

Lemma first_occurrences_length {K} `{EqDecision K} (l : list K) :
  list_len (first_occurrences l) <= list_len l.
Proof.
  induction l as [|k l IH] using rev_ind; [done|]. rewrite first_occurrences_snoc, list_len_app.
  pose proof (list_len_nonneg [k]). case_bool_decide; [lia|]. rewrite list_len_app. lia.
Qed.

Lemma table_length {X K R} `{EqDecision K} (key : X -> option K) (row : K -> list X -> option R) h :
  list_len (table key row h) <= list_len h.
Proof.
  unfold table, table_keys. etrans; [apply list_len_omap|].
  etrans; [apply first_occurrences_length|]. apply list_len_omap.
Qed.

Lemma insert_rows_length {R} table (insert : R -> Database -> option Database) l :
  list_len (insert_rows table insert l) = list_len l.
Proof. unfold insert_rows, list_len. by rewrite length_fmap. Qed.

Lemma statements_length run_id h events n m watermark :
  encode (snapshot_view to_string run_id h) = Ok m ->
  list_len (batch_statements (mkEventBatch events n) m watermark) <=
    list_len events + 4 * list_len h + 9.
Proof.
  unfold encode. intros He.
  invert_bind He. invert_bind He. invert_bind He. invert_bind He. invert_bind He. invert_bind He.
  injection He as <-. apply encode_all_length in E, E0, E1, E2.
  unfold batch_statements, replace_all. cbn [eb_events ems_spans ems_messages ems_plans ems_counters
    ems_usage ems_snapshot].
  rewrite ?list_len_app, ?list_len_cons, ?list_len_app, ?list_len_cons, ?list_len_app, ?list_len_cons,
    ?list_len_app, ?list_len_cons, ?list_len_app, ?list_len_cons, ?list_len_app, ?list_len_cons, ?list_len_app.
  rewrite !insert_rows_length. unfold list_len at 1. rewrite length_fmap. fold (list_len events).
  rewrite E, E0, E1, E2.
  cbn [snapshot_view SnapshotReadModel_spans SnapshotReadModel_messages SnapshotReadModel_plans
       SnapshotReadModel_counters span_view message_view plan_view counter_view SpanReadModel_spans
       MessageReadModel_messages PlanReadModel_plans CounterReadModel_series].
  pose proof (list_len_omap (span_in h) h). pose proof (table_length message_of message_row h).
  pose proof (table_length plan_scope plan_row h).
  pose proof (table_length (counter_key to_string) (counter_row to_string) h).
  rewrite ?list_len_cons. change (list_len []) with 0.
  change (list_len (@nil SingletonRow)) with 0. lia.
Qed.

(** ** Commits *)

Lemma recorded_last run_id A h e :
  recorded run_id A (h ++ [e]) -> event_sequence e = list_len (h ++ [e]) /\ event_run_id e = run_id.
Proof.
  intros (_ & (Hr & Hs & _) & _)%recorded_inv. rewrite list_len_app. change (list_len [e]) with 1. split; [lia|done].
Qed.

(** The candidate watermark of a batch that can be recorded is its new length. *)
Lemma candidate_committed run_id stored batch notification :
  recorded run_id (snapshot_admissible to_string) (events_of (stored ++ eb_events batch)) ->
  watermark_candidate (mkCommittedWatermark run_id (SortableU64Key_new (list_len stored))) batch =
    Some (Ok notification) ->
  cn_run_id notification = run_id /\
  cn_previous notification = SortableU64Key_new (list_len stored) /\
  cn_committed notification = SortableU64Key_new (list_len (stored ++ eb_events batch)).
Proof.
  intros Hr. unfold watermark_candidate, batch_first, batch_last.
  destruct (eb_events batch) as [|a l _] using rev_ind; [done|].
  rewrite last_snoc. destruct (head (l ++ [a])) as [first|]; [|done]. cbn [mbind option_bind].
  case_bool_decide; [done|]. cbn [wm_run_id wm_value].
  destruct (ok_or _ _); [|done]. cbn [result_bind]. destruct (negb _); [done|]. intros [= <-].
  cbn. split; [done|]. split; [done|].
  rewrite (assoc_L (++)), fmap_app in Hr. cbn [fmap list_fmap] in Hr.
  apply recorded_last in Hr as [Hs _]. f_equal. unfold identity, event_identity. cbn. rewrite Hs.
  unfold list_len. f_equal. rewrite ?length_app, ?length_fmap, ?length_app. cbn. lia.
Qed.

Lemma metadata_advance run_id n n' m : metadata_ok run_id n m ->
  check_run_metadata (set_watermarks (SortableU64Key_new n') m) = true ->
  metadata_ok run_id n' (set_watermarks (SortableU64Key_new n') m).
Proof. intros [_ Hr _ _ _ _] Hc. by constructor. Qed.

(** What [refresh_metadata_after_commit] finds. *)
Lemma refresh_ok faults run_id n n' db old : 0 <= n <= n' -> n' <= int_max U64 ->
  metadata_ok run_id n' (db_run_metadata db) ->
  let r := refresh_metadata_after_commit faults db (metadata_of run_id n old) (SortableU64Key_new n') in
  (r = Ok (metadata_of run_id n' (db_run_metadata db))) \/
  (exists e, r = Err e /\ (fault_files faults = Some e \/ fault_metadata_read faults = true)).
Proof.
  intros Hn Hn' Hm. unfold refresh_metadata_after_commit. cbn [metadata_of psm_committed_watermark psm_run_id].
  rewrite key_compare_new by lia.
  destruct (fault_files faults) as [code|]; cbn [result_bind].
  { right. exists code. split; [|by left]. destruct (Z.compare_spec n' n); [done|lia|done]. }
  destruct (fault_metadata_read faults).
  { right. eexists. split; [|by right]. destruct (Z.compare_spec n' n); [done|lia|done]. }
  left. rewrite (read_metadata run_id n') by (done || lia). cbn [result_bind].
  cbn [metadata_of psm_committed_watermark psm_read_model_watermark].
  rewrite !bool_decide_eq_false_2 by tauto. cbn [orb].
  destruct (Z.compare_spec n' n); [done|lia|done].
Qed.

(** The only error of the encoders is [WriterSerialization]. *)
Lemma bind_error {A B} (m : result A WriterError) (k : A -> result B WriterError) e :
  (m = Err e -> e = WriterSerialization) -> (forall a, k a = Err e -> e = WriterSerialization) ->
  result_bind m k = Err e -> e = WriterSerialization.
Proof. destruct m; cbn; [eauto|]. intros Hm _ [= <-]. auto. Qed.

Lemma ok_or_error {A} (o : option A) e : ok_or o WriterSerialization = Err e -> e = WriterSerialization.
Proof. destruct o; cbn; congruence. Qed.

Lemma encode_all_error {A R} (f : A -> result R WriterError) l e :
  (forall x, f x = Err e -> e = WriterSerialization) -> encode_all f l = Err e -> e = WriterSerialization.
Proof.
  intros Hf. induction l as [|x l IH]; cbn [encode_all]; [done|].
  apply bind_error; [apply Hf|]. intros row. apply bind_error; [apply IH|done].
Qed.

Lemma encode_error model e : encode model = Err e -> e = WriterSerialization.
Proof.
  unfold encode. repeat (apply bind_error; [|intros ?]); try apply ok_or_error; try done;
    apply encode_all_error; intros x.
  - apply bind_error; [apply ok_or_error|done].
  - apply bind_error; [apply ok_or_error|done].
  - apply bind_error; [apply ok_or_error|]. intros ?. apply bind_error; [apply ok_or_error|done].
  - apply bind_error; [apply ok_or_error|done].
Qed.

(** What one call may do: commit and agree with the store again; commit and fail
    the validation that follows; or change nothing. *)
Inductive commit_result (faults : Faults) (run_id : CanonicalUuid)
    (stored : list AcceptedDiagnosticEvent) (w : TransactionalWriter) (batch : EventBatch)
    : TransactionalWriter -> result CommitNotification WriterError -> Prop :=
| result_committed w' notification :
    writer_ok run_id (stored ++ eb_events batch) w' ->
    tw_notifications w' = tw_notifications w ++ [notification] ->
    watermark_candidate (tw_watermark w) batch = Some (Ok notification) ->
    commit_result faults run_id stored w batch w' (Ok notification)
| result_unvalidated db e :
    store_ok run_id (stored ++ eb_events batch) db ->
    fault_files faults = Some e \/ fault_metadata_read faults = true ->
    commit_result faults run_id stored w batch (with_db w db) (Err (WriterPostCommitValidation e))
| result_rolled_back e :
    (forall e', e <> WriterPostCommitValidation e') ->
    commit_result faults run_id stored w batch w (Err e).

Lemma metadata_after_batch run_id n n' db events m :
  metadata_ok run_id n (db_run_metadata db) ->
  check_run_metadata (db_run_metadata (batch_database db events m (SortableU64Key_new n'))) = true ->
  metadata_ok run_id n' (db_run_metadata (batch_database db events m (SortableU64Key_new n'))).
Proof. apply metadata_advance. Qed.

(** The transaction, when it commits. *)
Lemma batch_transaction_ok faults run_id stored db batch m db' h :
  store_ok run_id stored db -> h = events_of (stored ++ eb_events batch) ->
  recorded run_id (snapshot_admissible to_string) h -> Forall stored_event (eb_events batch) ->
  encode (snapshot_view to_string run_id h) = Ok m ->
  5 * list_len h + 10 <= int_max Usize ->
  exists r, batch_transaction faults db batch m (SortableU64Key_new (list_len h)) = Some r /\
    (r = Ok db' -> store_ok run_id (stored ++ eb_events batch) db') /\
    (forall e, r = Err e -> forall e', e <> WriterPostCommitValidation e').
Proof.
  intros Hs -> Hr Hst He Hlen. unfold batch_transaction.
  destruct (fault_begin faults); [eexists; split; [done|]; split; [done|congruence]|].
  destruct batch as [events n]. cbn [eb_events] in *.
  pose proof (statements_length _ _ events n m (SortableU64Key_new (list_len (events_of (stored ++ events)))) He) as Hl.
  assert (list_len events <= list_len (events_of (stored ++ events))).
  { rewrite events_length, list_len_app. pose proof (list_len_nonneg stored). lia. }
  destruct (execute_all_cases faults (batch_statements (mkEventBatch events n) m
    (SortableU64Key_new (list_len (events_of (stored ++ events))))) db 1) as [(db2 & Hrun & ->)|(k & s & _ & -> & _)];
    [lia|cbn in *; lia| |]; cbn [mbind option_bind result_bind].
  2:{ eexists. split; [done|]. split; [done|]. by intros e [= <-] e'. }
  destruct (fault_before_commit faults); [eexists; split; [done|]; split; [done|by intros e [= <-] e']|].
  destruct (fault_commit faults); [eexists; split; [done|]; split; [done|by intros e [= <-] e']|].
  eexists. split; [done|]. split; [|done]. cbn [fst]. intros [= ->].
  apply run_batch_statements in Hrun as [-> Hc]. destruct Hs as [_ Hso Hm Hev _].
  constructor.
  - done.
  - by apply Forall_app.
  - rewrite <-events_length. by apply (metadata_after_batch run_id (list_len stored)).
  - cbn. by rewrite Hev, fmap_app.
  - right. by exists m.
Qed.

Lemma commit_batch_cases faults run_id stored w batch :
  writer_ok run_id stored w -> eb_events batch <> [] -> Forall stored_event (eb_events batch) ->
  5 * list_len (stored ++ eb_events batch) + 10 <= int_max Usize ->
  exists w' r, commit_batch_with_hook to_string faults w batch = Some (w', r) /\
    commit_result faults run_id stored w batch w' r.
Proof.
  intros Hw Hne Hst Hlen. unfold commit_batch_with_hook.
  assert (exists c, watermark_candidate (tw_watermark w) batch = Some c) as [c Hcand].
  { unfold watermark_candidate, batch_first, batch_last. destruct (eb_events batch) as [|a l] eqn:E; [done|].
    destruct (last (a :: l)) eqn:El; [|by apply last_None in El]. cbn. eauto. }
  rewrite Hcand. cbn [mbind option_bind].
  destruct c as [notification|e]; [|do 2 eexists; split; [done|by apply result_rolled_back]].
  destruct (tw_projector w) as [rv view] eqn:Ep. pose proof (wo_references _ _ _ Hw) as Href.
  pose proof (wo_model _ _ _ Hw) as Hmod. rewrite Ep in Href, Hmod. cbn [references model] in Href, Hmod. subst view.
  destruct (apply_all_correct run_id (SnapshotProjector_apply to_string) (snapshot_view to_string run_id)
    tokens_typed (snapshot_admissible to_string) (events_of (eb_events batch)) rv (events_of stored))
    as [(Hr & rv' & Hm & ->)|(k & e & t & rv' & err & _ & _ & _ & _ & ->)]; [apply Hw|done| | |].
  { apply Forall_fmap. eapply Forall_impl; [exact Hst|]. by intros a (_ & _ & _ & _ & ?). }
  2:{ cbn [mbind option_bind]. do 2 eexists. split; [done|by apply result_rolled_back]. }
  cbn [mbind option_bind model]. rewrite <-fmap_app in *.
  destruct (encode (snapshot_view to_string run_id (events_of (stored ++ eb_events batch)))) as [m|e] eqn:Ee.
  2:{ do 2 eexists. split; [done|]. apply result_rolled_back. intros e' ->. by apply encode_error in Ee. }
  rewrite (wo_watermark _ _ _ Hw) in Hcand.
  destruct (candidate_committed run_id stored batch notification Hr Hcand) as (Hrun & Hprev & Hcom).
  rewrite Hcom, <-events_length.
  destruct (batch_transaction_ok faults run_id stored (tw_db w) batch m (tw_db w) _ (wo_store _ _ _ Hw) eq_refl
    Hr Hst Ee) as (r & Hbt & _ & Herr); [rewrite events_length; lia|]. rewrite Hbt. cbn [mbind option_bind].
  destruct r as [db|e]; [|do 2 eexists; split; [done|apply result_rolled_back; by eapply Herr]].
  destruct (batch_transaction_ok faults run_id stored (tw_db w) batch m db _ (wo_store _ _ _ Hw) eq_refl
    Hr Hst Ee) as (r & Hbt' & Hdb & _); [rewrite events_length; lia|]. rewrite Hbt in Hbt'.
  injection Hbt' as <-. specialize (Hdb eq_refl). clear Herr.
  rewrite (wo_metadata _ _ _ Hw), events_length. pose proof (stored_length _ _ Hr) as Hbound.
  destruct (refresh_ok faults run_id (list_len stored) (list_len (stored ++ eb_events batch)) db
    (db_run_metadata (tw_db w))) as [->|(e & -> & He)].
  { rewrite list_len_app. pose proof (list_len_nonneg stored). pose proof (list_len_nonneg (eb_events batch)). lia. }
  { lia. }
  { apply Hdb. }
  2:{ do 2 eexists. split; [done|]. by apply result_unvalidated. }
  unfold watermark_advance. rewrite (wo_watermark _ _ _ Hw), Hrun, Hprev. cbn [wm_run_id wm_value].
  rewrite !bool_decide_eq_false_2 by tauto. rewrite Hcom. do 2 eexists. split; [done|].
  apply result_committed; [|done|by rewrite (wo_watermark _ _ _ Hw)]. by constructor.
Qed.
End Spec.
