(* ===== verification/StoreSpec.v ===== *)
(** * Stores that can be reopened

    A store that the writer leaves behind, whatever failed on the way, passes
    the validation of [open_validated], and the validation recomputes from the
    rows exactly what the writer knew.  The encoders and decoders obey
    [StoreEncodingLaws]. *)

From S2P Require Import Prelude Wire Scalar Kinds Detail Event Validate ValidateSpec Projection Table.
From S2P Require Import Spans Messages Plans Counters Usage UsageSpec UsageCorrect Snapshot Key Hub Store Batch Writer WriterSpec.

(** Decoding inverts encoding, and what the encoders write is JSON. *)
Class StoreEncodingLaws `{StoreEncoding} := {
  event_decodes : forall e b, event_to_vec e = Some b -> event_from_slice b = Some e;
  snapshot_decodes : forall m b, snapshot_to_vec m = Some b -> snapshot_from_slice b = Some m;
  event_json : forall e b, event_to_vec e = Some b -> json_valid b = true;
  span_json : forall x b, span_to_vec x = Some b -> json_valid b = true /\ value_from_slice b = true;
  message_json : forall x b, message_to_vec x = Some b -> json_valid b = true /\ value_from_slice b = true;
  plan_json : forall x b, plan_to_vec x = Some b -> json_valid b = true /\ value_from_slice b = true;
  counter_json : forall x b, counter_to_vec x = Some b -> json_valid b = true /\ value_from_slice b = true;
  usage_json : forall x b, usage_to_vec x = Some b -> json_valid b = true /\ value_from_slice b = true;
  snapshot_json : forall x b, snapshot_to_vec x = Some b -> json_valid b = true /\ value_from_slice b = true;
}.

(** ** The order of the events *)

Fixpoint sequences_from (n : Z) (rows : list StoredEventRow) : Prop :=
  match rows with
  | [] => True
  | row :: rows' =>
      ser_sequence_key row = into_bytes (SortableU64Key_new n) /\ n <= int_max U64 /\
      sequences_from (n + 1) rows'
  end.

Lemma order_by_sorted rows : forall n, 0 <= n -> sequences_from n rows ->
  order_by_sequence_key rows = rows.
Proof.
  induction rows as [|row rows IH]; intros n Hn; cbn [sequences_from]; [done|].
  intros (Hk & Hm & Hs). unfold order_by_sequence_key in *. cbn [foldr].
  rewrite (IH (n + 1)) by (done || lia). destruct rows as [|row' rows]; [done|].
  cbn [insert_by_sequence_key sequences_from] in *. destruct Hs as (Hk' & Hm' & _).
  rewrite Hk, Hk'. pose proof (key_compare_new n (n + 1) ltac:(lia) ltac:(lia)) as Hc.
  unfold key_compare in Hc. rewrite Hc. by destruct (Z.compare_spec n (n + 1)); [lia| |lia].
Qed.

Lemma elem_of_encode_all {A R} (f : A -> result R WriterError) l : forall rows r,
  encode_all f l = Ok rows -> r ∈ rows -> exists x, x ∈ l /\ f x = Ok r.
Proof.
  induction l as [|x l IH]; intros rows r; cbn [encode_all].
  - by intros [= <-] ?%not_elem_of_nil.
  - destruct (f x) as [r0|] eqn:E; [|done]. cbn [result_bind].
    destruct (encode_all f l) as [rows'|] eqn:E'; [|done]. cbn [result_bind]. intros [= <-].
    intros [->|Hr]%elem_of_cons; [exists x; set_solver|].
    destruct (IH rows' r eq_refl Hr) as (y & ? & ?). exists y. set_solver.
Qed.

Lemma ok_or_some {A E} (o : option A) (e : E) a : ok_or o e = Ok a -> o = Some a.
Proof. destruct o; cbn; congruence. Qed.

Section Spec.
Context (to_string : CounterSeriesIdentity -> string) `{LAWS : BigUintLaws} `{SL : StoreEncodingLaws}.

Abbreviation events_of stored := (ae_event <$> stored).

(** ** The dense prefix *)

Lemma stored_sequences run_id stored : forall h,
  recorded run_id (snapshot_admissible to_string) (h ++ events_of stored) ->
  sequences_from (list_len h + 1) (event_row <$> stored).
Proof.
  induction stored as [|a stored IH]; intros h Hr; cbn [fmap list_fmap sequences_from] in *; [done|].
  rewrite cons_middle, (assoc_L (++)) in Hr. pose proof (recorded_app _ _ _ _ Hr) as Ha.
  apply recorded_length in Ha as Hl. apply recorded_last in Ha as [Hs _].
  assert (list_len (h ++ [ae_event a]) = list_len h + 1) as Hlen by (rewrite list_len_app; done).
  rewrite Hlen in *. split; [|split; [done|]].
  - unfold event_row. cbn [ser_sequence_key]. by rewrite Hs.
  - specialize (IH (h ++ [ae_event a])). rewrite Hlen in IH. by apply IH.
Qed.

Lemma columns_match_row run_id a : event_run_id (ae_event a) = run_id ->
  event_typed (ae_event a) ->
  columns_match (event_row a) run_id (ae_event a) (SortableU64Key_new (event_elapsed (ae_event a)))
    (SortableU64Key_new <$> DiagnosticScope_session_generation (event_scope (ae_event a))) = true.
Proof.
  intros Hrun (Hv & He & Hg & _). unfold columns_match, event_row, scope_of.
  cbn [ser_run_id ser_event_schema_version ser_kind ser_scene_id ser_actor_id ser_cue_id ser_effect_id
       ser_act_id ser_tool_call_id].
  rewrite Hrun, !bool_decide_eq_true_2, Z.eqb_refl, key_get_new, Z.eqb_refl; try done.
  destruct (DiagnosticScope_session_generation _) as [g|]; [|done].
  change (Some (get (SortableU64Key_new g)) = Some g). by rewrite key_get_new by auto.
Qed.

Lemma decode_row_generation a : event_typed (ae_event a) ->
  decode_optional_sortable_pair EventIdentityMismatch (ser_session_generation_key (event_row a))
    (ser_session_generation (event_row a)) =
  Ok (SortableU64Key_new <$> DiagnosticScope_session_generation (event_scope (ae_event a))).
Proof.
  intros (_ & _ & Hg & _). unfold event_row. cbn [ser_session_generation_key ser_session_generation].
  destruct (DiagnosticScope_session_generation _) as [g|]; [|done].
  change (result_map Some (decode_pair EventIdentityMismatch EventIdentityMismatch
    (into_bytes (SortableU64Key_new g)) (canonical_decimal (SortableU64Key_new g))) =
    Ok (Some (SortableU64Key_new g))).
  by rewrite decode_pair_new by auto.
Qed.

(** One row: it decodes to its event, which the validator accepts. *)
Lemma validate_row run_id rv h a :
  models rv h -> recorded run_id (snapshot_admissible to_string) (h ++ [ae_event a]) -> stored_event a ->
  exists rv', models rv' (h ++ [ae_event a]) /\
    validate_event_row run_id (list_len h) rv (event_row a) = Ok (list_len h + 1, rv').
Proof.
  intros M Hr [Hb Ht]. apply recorded_inv in Hr as (Hr & (Hrun & Hseq & Hmax) & Hok & _).
  pose proof (list_len_nonneg h). pose proof Ht as (_ & He & _).
  unfold validate_event_row, decode_event_key, decode_sortable_pair.
  change (ser_sequence_key (event_row a)) with (into_bytes (SortableU64Key_new (event_sequence (ae_event a)))).
  change (ser_sequence (event_row a)) with (canonical_decimal (SortableU64Key_new (event_sequence (ae_event a)))).
  change (ser_elapsed_key (event_row a)) with (into_bytes (SortableU64Key_new (event_elapsed (ae_event a)))).
  change (ser_elapsed_ns (event_row a)) with (canonical_decimal (SortableU64Key_new (event_elapsed (ae_event a)))).
  rewrite Hseq, decode_pair_new by lia. cbn [result_bind].
  unfold checked_add. rewrite checked_in_range by (cbn in *; lia). cbn [ok_or result_bind].
  rewrite key_get_new, Z.eqb_refl by lia. cbn [negb].
  change (ser_canonical_json (event_row a)) with (ae_canonical_bytes a).
  rewrite (event_decodes _ _ Hb). cbn [ok_or result_bind]. rewrite Hb. cbn [ok_or result_bind].
  rewrite decode_pair_new by done. cbn [result_bind].
  rewrite decode_row_generation by done. cbn [result_bind].
  rewrite columns_match_row by done. cbn [negb orb].
  rewrite Hrun, bool_decide_eq_false_2, Hseq, Z.eqb_refl, bool_decide_eq_false_2 by tauto. cbn [negb orb].
  destruct (validate_cases rv h (ae_event a) M) as [[_ (ve & -> & _)]|[Hno _]]; [|done].
  eexists. split; [by apply models_commit|done].
Qed.

Lemma validate_rows_prefix run_id stored : forall rv h,
  models rv h -> recorded run_id (snapshot_admissible to_string) (h ++ events_of stored) ->
  Forall stored_event stored ->
  validate_event_rows run_id (list_len h) rv (event_row <$> stored) = Ok (list_len h + list_len stored).
Proof.
  induction stored as [|a stored IH]; intros rv h M Hr Hst; cbn [fmap list_fmap validate_event_rows].
  - by rewrite Z.add_0_r.
  - apply Forall_cons in Hst as [Ha Hst]. cbn [fmap list_fmap] in Hr.
    rewrite cons_middle, (assoc_L (++)) in Hr.
    destruct (validate_row run_id rv h a M (recorded_app _ _ _ _ Hr) Ha) as (rv' & M' & ->).
    cbn [result_bind fst snd]. specialize (IH rv' _ M' Hr Hst).
    rewrite list_len_app in IH. change (list_len [ae_event a]) with 1 in IH. rewrite IH, list_len_cons.
    f_equal. lia.
Qed.

Lemma dense_prefix_ok run_id stored db : store_ok to_string run_id stored db ->
  validate_dense_prefix db (metadata_of run_id (list_len stored) (db_run_metadata db)) = Ok tt.
Proof.
  intros [Hr Hst _ He _]. unfold validate_dense_prefix. cbn [metadata_of psm_run_id psm_committed_watermark].
  rewrite He, (order_by_sorted _ 1) by (done || by apply (stored_sequences run_id stored [])).
  pose proof (validate_rows_prefix run_id stored _ [] models_nil Hr Hst) as Hv.
  change (list_len (@nil DiagnosticEvent)) with 0 in Hv. rewrite Hv. cbn [result_bind].
  rewrite Z.add_0_l.
  rewrite key_get_new, Z.eqb_refl by (by apply (stored_length to_string run_id)). done.
Qed.

(** ** The sequences of the rows *)

Lemma span_rows_within run_id A h x : recorded run_id A h -> x ∈ omap (span_in h) h ->
  1 <= ProjectedSpan_span_id x <= list_len h /\ 1 <= ProjectedSpan_latest_sequence x <= list_len h.
Proof.
  intros Hr (e & He & Hx)%list_elem_of_omap. destruct (recorded_sequence _ _ _ _ Hr He) as [_ Hs].
  pose proof (span_in_id _ _ _ Hx) as Hid. split; [by rewrite Hid|].
  unfold ProjectedSpan_latest_sequence. destruct (ProjectedSpan_completion x) as [c|] eqn:Ec; [|by rewrite Hid].
  unfold span_in in Hx. destruct (span_started e) as [span|]; [|done]. injection Hx as <-.
  cbn [set_completion ProjectedSpan_completion] in Ec.
  destruct (find _ h) as [f|] eqn:Ef; [|done]. apply find_some in Ef as [Hf _].
  rewrite <-list_elem_of_In in Hf. destruct (recorded_sequence _ _ _ _ Hr Hf) as [_ Hfs].
  cbn [mbind option_bind] in Ec. destruct f; try discriminate; by injection Ec as <-.
Qed.

Lemma message_rows_within run_id A h x : recorded run_id A h -> x ∈ table message_of message_row h ->
  1 <= ProjectedMessage_latest_sequence x <= list_len h.
Proof.
  intros Hr (id & Hid & Hx)%elem_of_table. unfold message_row in Hx.
  destruct (head (about _ _ _)); [|done]. destruct (last _) as [e|] eqn:El; [|done]. injection Hx as <-.
  apply last_Some_elem_of, elem_of_about in El as [_ He]. by apply (recorded_sequence _ _ _ _ Hr He).
Qed.

Lemma plan_rows_within run_id A h x : recorded run_id A h -> x ∈ table plan_scope plan_row h ->
  1 <= ProjectedPlan_sequence x <= list_len h.
Proof.
  intros Hr (scope & _ & Hx)%elem_of_table. unfold plan_row in Hx.
  destruct (last _) as [e|] eqn:El; [|done]. cbn in Hx.
  apply last_Some_elem_of, elem_of_about in El as [_ He].
  destruct (recorded_sequence _ _ _ _ Hr He) as [_ Hs]. destruct e; try discriminate. by injection Hx as <-.
Qed.

Lemma counter_rows_within run_id A h x : recorded run_id A h ->
  x ∈ table (counter_key to_string) (counter_row to_string) h ->
  1 <= ProjectedCounter_sequence x <= list_len h.
Proof.
  intros Hr (e & He & Hx)%counter_row_event. apply counter_of_event in Hx as (_ & -> & _).
  by apply (recorded_sequence _ _ _ _ Hr He).
Qed.

(** ** The materialized tables *)

Definition row_within (n : Z) (row : MaterializedRow) : Prop :=
  exists v payload, row = materialized_row v payload /\ 0 <= v <= n /\ value_from_slice payload = true.

Lemma row_within_ok n row : n <= int_max U64 -> row_within n row ->
  validate_materialized_row (SortableU64Key_new n) row = Ok tt.
Proof.
  intros Hn (v & payload & -> & Hv & Hp). unfold validate_materialized_row, decode_sortable_pair.
  unfold materialized_row. cbn [mat_key mat_sequence mat_model_schema_version mat_payload_json].
  rewrite decode_pair_new by lia. cbn [result_bind]. rewrite key_compare_new, Hp by lia.
  by destruct (Z.compare_spec v n); [| |lia].
Qed.

Lemma validate_rows_ok {R} (f : R -> result unit StoreOpenErrorCode) rows :
  (forall r, r ∈ rows -> f r = Ok tt) -> validate_rows f rows = Ok tt.
Proof.
  induction rows as [|r rows IH]; intros Hf; cbn [validate_rows]; [done|].
  rewrite Hf by set_solver. cbn [result_bind]. apply IH. set_solver.
Qed.

Lemma validate_table_ok {R} (row_of : R -> MaterializedRow) n (rows : list R) : n <= int_max U64 ->
  (forall r, r ∈ rows -> row_within n (row_of r)) ->
  validate_rows (validate_materialized_row (SortableU64Key_new n)) (row_of <$> rows) = Ok tt.
Proof.
  intros Hn Hr. apply validate_rows_ok. intros m (r & -> & Hin)%list_elem_of_fmap.
  apply row_within_ok; auto.
Qed.

(** What [encode] makes of the snapshot of a recorded history. *)
Record encoded_within (n : Z) (m : EncodedMaterializedState) : Prop := {
  ew_spans : forall r, r ∈ ems_spans m -> row_within n (span_materialized r) /\
    exists v, 0 <= v <= n /\ span_key r = into_bytes (SortableU64Key_new v) /\
      span_sequence r = canonical_decimal (SortableU64Key_new v);
  ew_messages : forall r, r ∈ ems_messages m -> row_within n (text_materialized r);
  ew_plans : forall r, r ∈ ems_plans m -> row_within n (text_materialized r);
  ew_counters : forall r, r ∈ ems_counters m -> row_within n (text_materialized r);
  ew_usage : row_within n (singleton_materialized (ems_usage m));
  ew_snapshot : row_within n (singleton_materialized (ems_snapshot m));
}.

Lemma encode_within run_id A h m : recorded run_id A h ->
  encode (snapshot_view to_string run_id h) = Ok m -> encoded_within (list_len h) m.
Proof.
  intros Hr He. unfold encode in He.
  invert_bind He. invert_bind He. invert_bind He. invert_bind He. invert_bind He. invert_bind He.
  injection He as <-. pose proof (list_len_nonneg h). constructor;
    cbn [ems_spans ems_messages ems_plans ems_counters ems_usage ems_snapshot singleton_materialized].
  - intros r (s & Hs & Hf)%(elem_of_encode_all _ _ _ _ E).
    destruct (span_rows_within _ _ _ _ Hr Hs) as [Hid Hl]. unfold encode_span in Hf. invert_bind Hf.
    injection Hf as <-. cbn. split; [|by exists (ProjectedSpan_span_id s); split; [lia|]].
    do 2 eexists. split; [done|]. split; [lia|]. by eapply span_json, ok_or_some.
  - intros r (s & Hs & Hf)%(elem_of_encode_all _ _ _ _ E0).
    pose proof (message_rows_within _ _ _ _ Hr Hs) as Hl. unfold encode_message in Hf. invert_bind Hf.
    injection Hf as <-. do 2 eexists. split; [done|]. split; [lia|]. by eapply message_json, ok_or_some.
  - intros r (s & Hs & Hf)%(elem_of_encode_all _ _ _ _ E1).
    pose proof (plan_rows_within _ _ _ _ Hr Hs) as Hl. unfold encode_plan in Hf.
    invert_bind Hf. invert_bind Hf.
    injection Hf as <-. do 2 eexists. split; [done|]. split; [lia|]. by eapply plan_json, ok_or_some.
  - intros r (s & Hs & Hf)%(elem_of_encode_all _ _ _ _ E2).
    pose proof (counter_rows_within _ _ _ _ Hr Hs) as Hl. unfold encode_counter in Hf. invert_bind Hf.
    injection Hf as <-. do 2 eexists. split; [done|]. split; [lia|]. by eapply counter_json, ok_or_some.
  - do 2 eexists. split; [done|]. split; [cbn; lia|]. by eapply usage_json, ok_or_some.
  - do 2 eexists. split; [done|]. split; [cbn; lia|]. by eapply snapshot_json, ok_or_some.
Qed.

Lemma sorted_key_ok n r v : n <= int_max U64 -> 0 <= v <= n ->
  span_key r = into_bytes (SortableU64Key_new v) ->
  span_sequence r = canonical_decimal (SortableU64Key_new v) ->
  validate_sorted_key_row (SortableU64Key_new n) r = Ok tt.
Proof.
  intros Hn Hv Hk Hs. unfold validate_sorted_key_row, decode_sortable_pair.
  rewrite Hk, Hs, decode_pair_new by lia. cbn [result_bind]. rewrite key_compare_new by lia.
  by destruct (Z.compare_spec v n); [| |lia].
Qed.

Lemma materialized_state_ok run_id stored db : store_ok to_string run_id stored db ->
  validate_materialized_state db (metadata_of run_id (list_len stored) (db_run_metadata db)) = Ok tt.
Proof.
  intros [Hr _ _ _ Ht]. pose proof (stored_length to_string run_id _ Hr) as Hn.
  unfold validate_materialized_state. cbn [metadata_of psm_read_model_watermark].
  destruct Ht as [[-> (-> & -> & -> & -> & -> & ->)]|(m & He & -> & -> & -> & -> & -> & ->)]; [done|].
  apply (encode_within _ _ _ _ Hr) in He as [Hs Hm Hp Hc Hu Hsn].
  rewrite events_length in *.
  rewrite (validate_table_ok span_materialized) by (lia || intros r Hin; by apply Hs). cbn [result_bind].
  rewrite validate_rows_ok.
  2:{ intros r Hin. destruct (Hs r Hin) as (_ & v & Hv & Hk & Hseq). by eapply sorted_key_ok; [lia|..]. }
  cbn [result_bind]. rewrite !(validate_table_ok text_materialized) by (lia || done). cbn [result_bind].
  rewrite (validate_table_ok singleton_materialized).
  - cbn [result_bind]. apply (validate_table_ok singleton_materialized); [lia|].
    by intros r ->%list_elem_of_singleton.
  - lia.
  - by intros r ->%list_elem_of_singleton.
Qed.

(** The validation of a reopened store accepts it and reads its metadata. *)
Lemma store_validates run_id stored db : store_ok to_string run_id stored db ->
  validate_store_state db run_id = Ok (metadata_of run_id (list_len stored) (db_run_metadata db)).
Proof.
  intros Hs. unfold validate_store_state.
  rewrite (read_metadata run_id (list_len stored)).
  - cbn [result_bind]. rewrite (dense_prefix_ok _ _ _ Hs). cbn [result_bind].
    by rewrite (materialized_state_ok _ _ _ Hs).
  - by apply (stored_length to_string run_id), Hs.
  - apply Hs.
Qed.
End Spec.

(** ** A sample store

    One event and an encoding that knows it, to evaluate the definitions. *)

Definition sample_stored_event : DiagnosticEvent :=
  DiagnosticEvent_ActTokenUsageFinalized
    (mkActTokenUsageFinalized
       (mkDiagnosticEventHeader EVENT_SCHEMA_VERSION (mkCanonicalUuid 7) 1 10 sample_usage_scope [])
       UsageAvailability_Available (Some UsageSource_AcpPromptResponseUsage) None
       (Some (mkTokenCount "42")) (Some (mkTokenCount "12")) (Some (mkTokenCount "30")) None None None).

Definition sample_json : list ascii := ["{"%char; "}"%char].

Definition sample_snapshot : SnapshotReadModel :=
  @snapshot_view sample_to_string decimal_biguint (mkCanonicalUuid 7) [sample_stored_event].

(** Encodes one value and decodes it. *)
Definition only {A} `{EqDecision A} (known x : A) : option (list ascii) :=
  if decide (x = known) then Some sample_json else None.

Definition known_from {A} (known : A) (b : list ascii) : option A :=
  if decide (b = sample_json) then Some known else None.

Lemma only_decodes {A} `{EqDecision A} (known x : A) b : only known x = Some b -> known_from known b = Some x.
Proof.
  unfold only, known_from. destruct (decide (x = known)) as [->|]; [|done]. intros [= <-].
  by rewrite decide_True.
Qed.

Definition sample_encoding : StoreEncoding := {|
  event_to_vec := only sample_stored_event;
  event_from_slice := known_from sample_stored_event;
  span_to_vec _ := Some sample_json;
  message_to_vec _ := Some sample_json;
  plan_to_vec _ := Some sample_json;
  counter_to_vec _ := Some sample_json;
  usage_to_vec _ := Some sample_json;
  snapshot_to_vec := only sample_snapshot;
  snapshot_from_slice := known_from sample_snapshot;
  scope_to_string s := if decide (s = sample_usage_scope) then Some "scope"%string else None;
  value_from_slice _ := true;
  json_valid _ := true;
  uuid_to_hyphenated _ := "00000000-0000-0000-0000-000000000007"%string;
|}.

Lemma sample_encoding_laws : @StoreEncodingLaws sample_encoding.
Proof. constructor; try done; intros x b; apply only_decodes. Qed.

Definition sample_accepted_event : AcceptedDiagnosticEvent :=
  mkAcceptedDiagnosticEvent sample_stored_event sample_json None false.

Definition sample_store_batch : EventBatch := mkEventBatch [sample_accepted_event] 2.

Definition sample_initial : InitialStoreMetadata :=
  mkInitialStoreMetadata (mkCanonicalUuid 7) "2024-01-01T00:00:00Z" "configuration".

Definition sample_fresh_db : Database := @initial_database sample_encoding sample_initial.

Definition sample_writer : TransactionalWriter :=
  mkTransactionalWriter sample_fresh_db (metadata_of (mkCanonicalUuid 7) 0 (db_run_metadata sample_fresh_db))
    (Projector_new (SnapshotReadModel_empty (mkCanonicalUuid 7))) (watermark_fresh (mkCanonicalUuid 7)) [].

Definition sample_commit (faults : Faults) : option (TransactionalWriter * result CommitNotification WriterError) :=
  @commit_batch_with_hook sample_to_string decimal_biguint sample_encoding faults sample_writer
    sample_store_batch.

Definition sample_committed : TransactionalWriter :=
  match sample_commit no_faults with Some (w, _) => w | None => sample_writer end.

Lemma some_pair_inj {A B} (a c : A) (b d : B) : Some (a, b) = Some (c, d) -> a = c /\ b = d.
Proof. by intros [= -> ->]. Qed.

Lemma sample_writer_ok :
  @writer_ok sample_to_string decimal_biguint sample_encoding (mkCanonicalUuid 7) [] sample_writer.
Proof. by apply (@new_writer_ok sample_to_string decimal_biguint sample_encoding sample_initial). Qed.

Lemma sample_event_stored : @stored_event sample_encoding sample_accepted_event.
Proof.
  split; [by vm_compute|]. split; [done|]. split; [by vm_compute|]. split; [done|].
  exact (proj1 (Forall_singleton _ _) sample_tokens_typed).
Qed.

Lemma sample_committed_ok :
  @writer_ok sample_to_string decimal_biguint sample_encoding (mkCanonicalUuid 7) [sample_accepted_event]
    sample_committed.
Proof.
  destruct (@commit_batch_cases sample_to_string decimal_biguint decimal_biguint_laws sample_encoding no_faults
    (mkCanonicalUuid 7) [] sample_writer sample_store_batch sample_writer_ok) as (w & r & Hc & Hr).
  - done.
  - apply Forall_singleton, sample_event_stored.
  - by vm_compute.
  - assert (is_ok r = true) as Hok.
    { assert ((r' ← sample_commit no_faults; Some (is_ok r'.2)) = Some true) as He by (vm_compute; reflexivity).
      unfold sample_commit in He. rewrite Hc in He. by injection He. }
    unfold sample_committed, sample_commit. rewrite Hc. by destruct Hr.
Qed.

