(* ===== verification/Query.v ===== *)
(** * Queries of a store

    Models [troupe-diagnostics-runtime/src/query/reader.rs], [events.rs] and
    [snapshot.rs]: a reader captures a validated view of the store in one
    transaction, from which events are read page by page and the materialized
    snapshot is read back.  [read_fails] says which page SQLite fails to read,
    by the sequence after which the page begins. *)

From S2P Require Import Prelude Wire Scalar Kinds Detail Event Validate Projection.
From S2P Require Import Spans Messages Plans Counters Usage Snapshot Key Store.

Definition CAPTURED_EVENT_PAGE_SIZE : nat := 512.

(** ** Readers *)

Inductive ReaderProfile := ProfileActive | ProfileArchive.

Inductive ReaderFailureClass := CoreFatal | ArchiveOperation.

Inductive ReaderErrorCode :=
| ReaderArchiveLease | ReaderInvalidActiveGuard | ReaderSqliteOpen | ReaderReadOnlyConfiguration
| ReaderCaptureBegin | ReaderStoreValidation | ReaderMetadataRead | ReaderEventRead
| ReaderEventDecode | ReaderEventInvariant.

Definition ReaderErrorCode_as_str (c : ReaderErrorCode) : string :=
  match c with
  | ReaderArchiveLease => "diagnostic_reader.archive_lease"
  | ReaderInvalidActiveGuard => "diagnostic_reader.invalid_active_guard"
  | ReaderSqliteOpen => "diagnostic_reader.sqlite_open"
  | ReaderReadOnlyConfiguration => "diagnostic_reader.read_only_configuration"
  | ReaderCaptureBegin => "diagnostic_reader.capture_begin"
  | ReaderStoreValidation => "diagnostic_reader.store_validation"
  | ReaderMetadataRead => "diagnostic_reader.metadata_read"
  | ReaderEventRead => "diagnostic_reader.event_read"
  | ReaderEventDecode => "diagnostic_reader.event_decode"
  | ReaderEventInvariant => "diagnostic_reader.event_invariant"
  end.

Definition failure_class (profile : ReaderProfile) : ReaderFailureClass :=
  match profile with
  | ProfileActive => CoreFatal
  | ProfileArchive => ArchiveOperation
  end.

Record ReaderFailure := mkReaderFailure {
  rf_class : ReaderFailureClass;
  rf_profile : ReaderProfile;
  rf_code : ReaderErrorCode;
  rf_store_code : option StoreOpenErrorCode;
}.

(** [ReaderFailure::sqlite] and [::detail]; [ReaderFailure::store]. *)
Definition reader_failure (profile : ReaderProfile) (code : ReaderErrorCode) : ReaderFailure :=
  mkReaderFailure (failure_class profile) profile code None.

Definition store_failure (profile : ReaderProfile) (error : StoreOpenErrorCode) : ReaderFailure :=
  mkReaderFailure (failure_class profile) profile ReaderStoreValidation (Some error).

Record CapturedStoreMetadata := mkCapturedStoreMetadata {
  csm_run_id : CanonicalUuid;
  csm_started_at : string;
  csm_ended_at : option string;
  csm_production_outcome : option string;
  csm_configuration_identity : string;
  csm_committed_watermark : SortableU64Key;
  csm_read_model_watermark : SortableU64Key;
  csm_clean_shutdown : bool;
}.

Record CapturedEventSource := mkCapturedEventSource {
  ces_db : Database;
  ces_metadata : CapturedStoreMetadata;
  ces_profile : ReaderProfile;
}.

Record CapturedEvent := mkCapturedEvent {
  ce_event : DiagnosticEvent;
  ce_canonical_bytes : list ascii;
}.

Definition ce_sequence (e : CapturedEvent) : Z := event_sequence (ce_event e).

Record CapturedEventPage := mkCapturedEventPage {
  cep_events : list CapturedEvent;
  cep_next_after : option Z;
}.

Definition captured_watermark (source : CapturedEventSource) : Z :=
  get (csm_committed_watermark (ces_metadata source)).

(** [a > b] on keys. *)
Definition key_gt (a b : list Z) : bool :=
  match lex_compare a b with Gt => true | _ => false end.

(** ** Ranges *)

Inductive FiniteEventQuery :=
| QueryAfter (after_exclusive : Z)
| QueryTail (count : Z)
| QueryRange (after_exclusive through_inclusive : Z).

Record CapturedEventRange := mkCapturedEventRange {
  cer_captured_watermark : Z;
  cer_after_exclusive : Z;
  cer_through_inclusive : Z;
}.

Definition resolve (self : FiniteEventQuery) (watermark : Z) : CapturedEventRange :=
  let '(after, through) :=
    match self with
    | QueryAfter after => (if after <? watermark then after else watermark, watermark)
    | QueryTail count => (saturating_sub U64 watermark count, watermark)
    | QueryRange after through =>
        let through := if through <? watermark then through else watermark in
        (if after <? through then after else through, through)
    end in
  mkCapturedEventRange watermark after through.

Definition range_is_empty (self : CapturedEventRange) : bool :=
  cer_after_exclusive self =? cer_through_inclusive self.

Definition first_sequence (self : CapturedEventRange) : option Z :=
  if range_is_empty self then None else Some (cer_after_exclusive self + 1).

Definition last_sequence (self : CapturedEventRange) : option Z :=
  if range_is_empty self then None else Some (cer_through_inclusive self).

Definition range_event_count (self : CapturedEventRange) : Z :=
  saturating_sub U64 (cer_through_inclusive self) (cer_after_exclusive self).

Inductive EventQueryError :=
| QueryReader (failure : ReaderFailure)
| QueryNonDenseSequence (profile : ReaderProfile) (expected : Z) (actual : option Z).

Definition EventQueryError_class (e : EventQueryError) : ReaderFailureClass :=
  match e with
  | QueryReader failure => rf_class failure
  | QueryNonDenseSequence profile _ _ => failure_class profile
  end.

Definition EventQueryError_code (e : EventQueryError) : ReaderErrorCode :=
  match e with
  | QueryReader failure => rf_code failure
  | QueryNonDenseSequence _ _ _ => ReaderEventInvariant
  end.

Record FiniteEventIter := mkFiniteEventIter {
  fei_range : CapturedEventRange;
  fei_next_sequence : option Z;
  fei_page : list CapturedEvent;
}.

Section Query.
Context `{StoreEncoding} (read_fails : Z -> bool).

(** [DiagnosticReader::capture]; the schema check precedes it. *)
Definition capture (profile : ReaderProfile) (expected_run_id : CanonicalUuid) (db : Database)
    : result CapturedEventSource ReaderFailure :=
  let? persisted := map_err (store_failure profile) (validate_store_state db expected_run_id) in
  let row := db_run_metadata db in
  Ok (mkCapturedEventSource db
        (mkCapturedStoreMetadata (psm_run_id persisted) (psm_started_at persisted)
           (rm_ended_at row) (rm_production_outcome row) (psm_configuration_identity persisted)
           (psm_committed_watermark persisted) (psm_read_model_watermark persisted)
           (psm_clean_shutdown persisted))
        profile).

Definition decode_event (self : CapturedEventSource) (canonical_bytes : list ascii)
    : result CapturedEvent ReaderFailure :=
  let decode := reader_failure (ces_profile self) ReaderEventDecode in
  let? event := ok_or (event_from_slice canonical_bytes) decode in
  let? reencoded := ok_or (event_to_vec event) decode in
  if bool_decide (event_run_id event <> csm_run_id (ces_metadata self))
     || (event_sequence event =? 0)
     || (captured_watermark self <? event_sequence event)
     || negb (DiagnosticEventHeader_schema_version (header event) =? EVENT_SCHEMA_VERSION)
     || bool_decide (reencoded <> canonical_bytes)
  then Err (reader_failure (ces_profile self) ReaderEventInvariant)
  else Ok (mkCapturedEvent event canonical_bytes).

(** [for row in rows { events.push(self.decode_event(row?)?) }]. *)
Fixpoint decode_events (self : CapturedEventSource) (rows : list (list ascii))
    : result (list CapturedEvent) ReaderFailure :=
  match rows with
  | [] => Ok []
  | row :: rows' =>
      let? event := decode_event self row in
      let? events := decode_events self rows' in
      Ok (event :: events)
  end.

(** [SELECT canonical_json FROM events WHERE sequence_key > after AND
    sequence_key <= through ORDER BY sequence_key LIMIT size]. *)
Definition select_page (db : Database) (after through : SortableU64Key) : list (list ascii) :=
  ser_canonical_json <$>
  take CAPTURED_EVENT_PAGE_SIZE
    (filter (fun row => key_gt (ser_sequence_key row) (into_bytes after) = true /\
                        key_gt (ser_sequence_key row) (into_bytes through) = false)
       (order_by_sequence_key (db_events db))).

Definition read_event_page (self : CapturedEventSource) (after_exclusive : Z)
    : result CapturedEventPage ReaderFailure :=
  let watermark := captured_watermark self in
  if watermark <=? after_exclusive then Ok (mkCapturedEventPage [] None)
  else if read_fails after_exclusive then Err (reader_failure (ces_profile self) ReaderEventRead)
  else
    let? events :=
      decode_events self
        (select_page (ces_db self) (SortableU64Key_new after_exclusive)
           (SortableU64Key_new watermark)) in
    Ok (mkCapturedEventPage events
          (event ← last events;
           if ce_sequence event <? watermark then Some (ce_sequence event) else None)).

(** ** Iteration *)

Definition query_events (source : CapturedEventSource) (query : FiniteEventQuery) : FiniteEventIter :=
  let range := resolve query (captured_watermark source) in
  mkFiniteEventIter range (first_sequence range) [].

Definition non_dense (self : FiniteEventIter) (profile : ReaderProfile) (expected : Z)
    (actual : option Z) : FiniteEventIter * EventQueryError :=
  (mkFiniteEventIter (fei_range self) None [], QueryNonDenseSequence profile expected actual).

(** [FiniteEventIter::next].  The loop runs at most twice: a page that is not
    empty is used at once.  [None] is a loop that needs more fuel. *)
Fixpoint iter_next (fuel : nat) (source : CapturedEventSource) (self : FiniteEventIter)
    : option (FiniteEventIter * option (result CapturedEvent EventQueryError)) :=
  match fuel with
  | O => None
  | S fuel' =>
      match fei_next_sequence self with
      | None => Some (self, None)
      | Some expected =>
          match fei_page self with
          | event :: page =>
              if negb (ce_sequence event =? expected) then
                let '(self', e) :=
                  non_dense self (ces_profile source) expected (Some (ce_sequence event)) in
                Some (self', Some (Err e))
              else
                let next :=
                  if expected =? cer_through_inclusive (fei_range self) then None
                  else Some (expected + 1) in
                Some (mkFiniteEventIter (fei_range self) next page, Some (Ok event))
          | [] =>
              match read_event_page source (expected - 1) with
              | Err e =>
                  Some (mkFiniteEventIter (fei_range self) None (fei_page self),
                        Some (Err (QueryReader e)))
              | Ok page =>
                  match cep_events page with
                  | [] =>
                      let '(self', e) := non_dense self (ces_profile source) expected None in
                      Some (self', Some (Err e))
                  | events =>
                      iter_next fuel' source
                        (mkFiniteEventIter (fei_range self) (fei_next_sequence self) events)
                  end
              end
          end
      end
  end.

(** [for item in query_events(..)] up to the first error: what a client
    collects. *)
Fixpoint collect (fuel : nat) (source : CapturedEventSource) (self : FiniteEventIter)
    : option (list CapturedEvent * option EventQueryError) :=
  match fuel with
  | O => None
  | S fuel' =>
      '(self', item) ← iter_next 2 source self;
      match item with
      | None => Some ([], None)
      | Some (Err e) => Some ([], Some e)
      | Some (Ok event) =>
          '(events, e) ← collect fuel' source self';
          Some (event :: events, e)
      end
  end.

(** ** The materialized snapshot *)

Inductive SnapshotSynchronization := CaughtUp | EventHeadAhead.

Definition classify (event_watermark read_model_watermark : Z) : option SnapshotSynchronization :=
  if event_watermark <? read_model_watermark then None
  else if event_watermark =? read_model_watermark then Some CaughtUp
  else Some EventHeadAhead.

Definition SnapshotSynchronization_as_str (s : SnapshotSynchronization) : string :=
  match s with
  | CaughtUp => "caught_up"
  | EventHeadAhead => "event_head_ahead"
  end.

Inductive SnapshotQueryErrorCode :=
| SnapshotMaterializedRead | SnapshotMaterializedMissing | SnapshotMaterializedKey
| SnapshotModelDecode | SnapshotModelSchemaMismatch | SnapshotModelIdentityMismatch
| SnapshotModelWatermarkMismatch | SnapshotNonCanonicalState.

Definition SnapshotQueryErrorCode_as_str (c : SnapshotQueryErrorCode) : string :=
  match c with
  | SnapshotMaterializedRead => "diagnostic_snapshot.materialized_read"
  | SnapshotMaterializedMissing => "diagnostic_snapshot.materialized_missing"
  | SnapshotMaterializedKey => "diagnostic_snapshot.materialized_key"
  | SnapshotModelDecode => "diagnostic_snapshot.model_decode"
  | SnapshotModelSchemaMismatch => "diagnostic_snapshot.model_schema_mismatch"
  | SnapshotModelIdentityMismatch => "diagnostic_snapshot.model_identity_mismatch"
  | SnapshotModelWatermarkMismatch => "diagnostic_snapshot.model_watermark_mismatch"
  | SnapshotNonCanonicalState => "diagnostic_snapshot.noncanonical_state"
  end.

Record MaterializedSnapshot := mkMaterializedSnapshot {
  ms_run_id : CanonicalUuid;
  ms_event_watermark : Z;
  ms_watermark_sequence : Z;
  ms_earliest_available_sequence : option Z;
  ms_synchronization : SnapshotSynchronization;
  ms_state : SnapshotReadModel;
  ms_canonical_state : list ascii;
}.

(** One row of the array [children] of [validate_model]. *)
Definition validate_child (run_id : CanonicalUuid) (watermark through_elapsed_ns : Z)
    (actual_schema expected_schema : Z) (child_run_id : CanonicalUuid) (sequence elapsed_ns : Z)
    : result unit SnapshotQueryErrorCode :=
  if negb (actual_schema =? expected_schema) then Err SnapshotModelSchemaMismatch
  else if bool_decide (child_run_id <> run_id) then Err SnapshotModelIdentityMismatch
  else if negb (sequence =? watermark) || negb (elapsed_ns =? through_elapsed_ns) then
    Err SnapshotModelWatermarkMismatch
  else Ok tt.

Definition validate_model (state : SnapshotReadModel) (run_id : CanonicalUuid) (watermark : Z)
    : result unit SnapshotQueryErrorCode :=
  if negb (SnapshotReadModel_model_schema_version state =? SNAPSHOT_READ_MODEL_SCHEMA_VERSION) then
    Err SnapshotModelSchemaMismatch
  else if bool_decide (SnapshotReadModel_run_id state <> run_id) then
    Err SnapshotModelIdentityMismatch
  else if negb (SnapshotReadModel_through_sequence state =? watermark) then
    Err SnapshotModelWatermarkMismatch
  else
    let child := validate_child run_id watermark (SnapshotReadModel_through_elapsed_ns state) in
    let spans := SnapshotReadModel_spans state in
    let messages := SnapshotReadModel_messages state in
    let plans := SnapshotReadModel_plans state in
    let counters := SnapshotReadModel_counters state in
    let usage := SnapshotReadModel_usage state in
    let? _ := child (SpanReadModel_model_schema_version spans) SPAN_READ_MODEL_SCHEMA_VERSION
                (SpanReadModel_run_id spans) (SpanReadModel_through_sequence spans)
                (SpanReadModel_through_elapsed_ns spans) in
    let? _ := child (MessageReadModel_model_schema_version messages)
                MESSAGE_READ_MODEL_SCHEMA_VERSION
                (MessageReadModel_run_id messages) (MessageReadModel_through_sequence messages)
                (MessageReadModel_through_elapsed_ns messages) in
    let? _ := child (PlanReadModel_model_schema_version plans) PLAN_READ_MODEL_SCHEMA_VERSION
                (PlanReadModel_run_id plans) (PlanReadModel_through_sequence plans)
                (PlanReadModel_through_elapsed_ns plans) in
    let? _ := child (CounterReadModel_model_schema_version counters)
                COUNTER_READ_MODEL_SCHEMA_VERSION
                (CounterReadModel_run_id counters) (CounterReadModel_through_sequence counters)
                (CounterReadModel_through_elapsed_ns counters) in
    child (UsageReadModel_model_schema_version usage) USAGE_READ_MODEL_SCHEMA_VERSION
      (UsageReadModel_run_id usage) (UsageReadModel_through_sequence usage)
      (UsageReadModel_through_elapsed_ns usage).

Definition decode_stored_snapshot (run_id : CanonicalUuid) (watermark : Z) (stored : MaterializedRow)
    : result (SnapshotReadModel * list ascii) SnapshotQueryErrorCode :=
  if negb (mat_model_schema_version stored =? SNAPSHOT_READ_MODEL_SCHEMA_VERSION) then
    Err SnapshotModelSchemaMismatch
  else
    let? binary_key := map_err (fun _ => SnapshotMaterializedKey) (from_slice (mat_key stored)) in
    let? decimal_key :=
      map_err (fun _ => SnapshotMaterializedKey) (parse_canonical_decimal (mat_sequence stored)) in
    if bool_decide (binary_key <> decimal_key) || negb (get binary_key =? watermark) then
      Err SnapshotModelWatermarkMismatch
    else
      let? state := ok_or (snapshot_from_slice (mat_payload_json stored)) SnapshotModelDecode in
      let? _ := validate_model state run_id watermark in
      let? canonical := ok_or (snapshot_to_vec state) SnapshotModelDecode in
      if bool_decide (canonical <> mat_payload_json stored) then Err SnapshotNonCanonicalState
      else Ok (state, mat_payload_json stored).

(** [query::snapshot::project_snapshot]; [snapshot_read_fails] is SQLite's. *)
Definition query_snapshot (snapshot_read_fails : bool) (source : CapturedEventSource)
    : result MaterializedSnapshot SnapshotQueryErrorCode :=
  let metadata := ces_metadata source in
  let run_id := csm_run_id metadata in
  let event_watermark := get (csm_committed_watermark metadata) in
  let watermark_sequence := get (csm_read_model_watermark metadata) in
  match classify event_watermark watermark_sequence with
  | None => Err SnapshotModelWatermarkMismatch
  | Some synchronization =>
      if snapshot_read_fails then Err SnapshotMaterializedRead
      else
        let? state :=
          match filter (fun row => singleton row = 1) (db_snapshot (ces_db source)) with
          | stored :: _ =>
              decode_stored_snapshot run_id watermark_sequence (singleton_materialized stored)
          | [] =>
              if watermark_sequence =? 0 then
                let state := SnapshotReadModel_empty run_id in
                let? canonical := ok_or (snapshot_to_vec state) SnapshotModelDecode in
                Ok (state, canonical)
              else Err SnapshotMaterializedMissing
          end in
        Ok (mkMaterializedSnapshot run_id event_watermark watermark_sequence
              (if negb (watermark_sequence =? 0) then Some 1 else None)
              synchronization state.1 state.2)
  end.
End Query.
