(* ===== verification/QuerySpec.v ===== *)
(** * What queries return

    On every store that the writer may leave behind, a query returns the stored
    events it selects, each once, in order and byte for byte, across any number
    of pages; and the snapshot that is read back is the projection of the stored
    events. *)

From S2P Require Import Prelude Wire Scalar Kinds Detail Event Validate ValidateSpec Projection Table.
From S2P Require Import Spans Messages Plans Counters Usage UsageSpec UsageCorrect Snapshot Key Hub Store Batch Writer WriterSpec StoreSpec Query.

(** ** Intervals of a numbered list *)

Lemma filter_interval {A} (f : A -> Z) (P : A -> Prop) `{!forall x, Decision (P x)} l : forall m a t,
  (forall i x, l !! i = Some x -> f x = m + Z.of_nat i) ->
  (forall x, x ∈ l -> P x <-> a < f x <= t) -> m - 1 <= a <= t ->
  filter P l = take (Z.to_nat (t - a)) (drop (Z.to_nat (a - m + 1)) l).
Proof.
  induction l as [|x l IH]; intros m a t Hf HP Ha; [by rewrite drop_nil, take_nil|].
  assert (f x = m) as Hx by (rewrite (Hf O x); [lia|done]).
  assert (forall i y, l !! i = Some y -> f y = m + 1 + Z.of_nat i) as Hf'.
  { intros i y Hy. rewrite (Hf (S i) y) by done. lia. }
  assert (forall y, y ∈ l -> m + 1 <= f y) as Hge.
  { intros y (i & Hi)%list_elem_of_lookup. rewrite (Hf' i y Hi). lia. }
  rewrite filter_cons. destruct (decide (a = m - 1)) as [->|Hne].
  - replace (Z.to_nat (m - 1 - m + 1)) with O by lia. cbn [drop].
    destruct (decide (t = m - 1)) as [->|Ht].
    + rewrite decide_False by (rewrite HP by set_solver; lia).
      rewrite (IH (m + 1) m m); [|done| |lia].
      * by rewrite Z.sub_diag, take_0, Z.sub_diag, take_0.
      * intros y Hy. rewrite HP by set_solver. pose proof (Hge y Hy). lia.
    + rewrite decide_True by (rewrite HP by set_solver; lia).
      replace (Z.to_nat (t - (m - 1))) with (S (Z.to_nat (t - m))) by lia. cbn [take]. f_equal.
      rewrite (IH (m + 1) m t); [|done| |lia].
      * by replace (Z.to_nat (m - (m + 1) + 1)) with O by lia.
      * intros y Hy. rewrite HP by set_solver. pose proof (Hge y Hy). lia.
  - rewrite decide_False by (rewrite HP by set_solver; lia).
    replace (Z.to_nat (a - m + 1)) with (S (Z.to_nat (a - (m + 1) + 1))) by lia. cbn [drop].
    apply IH; [done| |lia]. intros y Hy. apply HP. set_solver.
Qed.

Section Spec.
Context (to_string : CounterSeriesIdentity -> string) `{LAWS : BigUintLaws} `{SL : StoreEncodingLaws}.

Abbreviation events_of stored := (ae_event <$> stored).

(** The source that a capture of a store gives. *)
Definition captured_source (profile : ReaderProfile) (run_id : CanonicalUuid) (n : Z) (db : Database)
    : CapturedEventSource :=
  let row := db_run_metadata db in
  mkCapturedEventSource db
    (mkCapturedStoreMetadata run_id (rm_started_at row) (rm_ended_at row) (rm_production_outcome row)
       (rm_configuration_identity row) (SortableU64Key_new n) (SortableU64Key_new n)
       (rm_clean_shutdown row =? 1))
    profile.

Lemma capture_ok profile run_id stored db : store_ok to_string run_id stored db ->
  capture profile run_id db = Ok (captured_source profile run_id (list_len stored) db).
Proof.
  intros Hs. unfold capture. rewrite (store_validates to_string _ _ _ Hs). done.
Qed.

Definition captured (a : AcceptedDiagnosticEvent) : CapturedEvent :=
  mkCapturedEvent (ae_event a) (ae_canonical_bytes a).

Section Source.
Context (read_fails : Z -> bool) (profile : ReaderProfile) (run_id : CanonicalUuid).
Context (stored : list AcceptedDiagnosticEvent) (db : Database).
Context (OK : store_ok to_string run_id stored db).

Let n := list_len stored.
Let source := captured_source profile run_id n db.

Lemma n_bounds : 0 <= n <= int_max U64.
Proof. apply (stored_length to_string run_id), OK. Qed.

Lemma source_watermark : captured_watermark source = n.
Proof. unfold captured_watermark. cbn. apply key_get_new, n_bounds. Qed.

Lemma stored_numbered i a : stored !! i = Some a ->
  event_run_id (ae_event a) = run_id /\ event_sequence (ae_event a) = 1 + Z.of_nat i.
Proof.
  intros Hi. pose proof (so_recorded _ _ _ _ OK) as (Hn & _)%recorded_iff. destruct Hn as [Hn _].
  destruct (Hn i (ae_event a)) as [? ?]; [by rewrite list_lookup_fmap, Hi|]. split; [done|lia].
Qed.

(** ** Pages *)

Lemma elem_rows row : row ∈ db_events db -> exists a i, stored !! i = Some a /\ row = event_row a.
Proof.
  rewrite (so_events _ _ _ _ OK). intros (a & -> & (i & Hi)%list_elem_of_lookup)%list_elem_of_fmap. eauto.
Qed.

Lemma index_below i a : stored !! i = Some a -> 0 <= 1 + Z.of_nat i <= n.
Proof. intros Hi%lookup_lt_Some. unfold n, list_len. lia. Qed.

Lemma select_page_spec after : 0 <= after <= n ->
  select_page db (SortableU64Key_new after) (SortableU64Key_new n) =
  ae_canonical_bytes <$> take CAPTURED_EVENT_PAGE_SIZE (drop (Z.to_nat after) stored).
Proof.
  intros Ha. pose proof n_bounds. unfold select_page.
  rewrite (order_by_sorted _ 1); [|lia|].
  2:{ rewrite (so_events _ _ _ _ OK). apply (stored_sequences to_string run_id stored []), OK. }
  assert (forall a i, stored !! i = Some a ->
            ser_sequence_key (event_row a) = into_bytes (SortableU64Key_new (1 + Z.of_nat i))) as Hkey.
  { intros a i Hi. unfold event_row. cbn [ser_sequence_key]. by destruct (stored_numbered _ _ Hi) as [_ ->]. }
  rewrite (filter_interval (fun row => from_be_bytes (ser_sequence_key row)) _ _ 1 after n).
  - rewrite take_ge with (n := Z.to_nat (n - after)).
    + replace (Z.to_nat (after - 1 + 1)) with (Z.to_nat after) by lia.
      rewrite (so_events _ _ _ _ OK), <-fmap_drop, <-fmap_take, <-list_fmap_compose. done.
    + rewrite length_drop, (so_events _ _ _ _ OK), length_fmap. unfold n, list_len. lia.
  - intros i row Hrow. rewrite (so_events _ _ _ _ OK), list_lookup_fmap in Hrow.
    destruct (stored !! i) as [a|] eqn:Hi; [|done]. injection Hrow as <-. rewrite (Hkey a i Hi).
    apply (key_get_new (1 + Z.of_nat i)). pose proof (index_below _ _ Hi). lia.
  - intros row (a & i & Hi & ->)%elem_rows. pose proof (index_below _ _ Hi). rewrite (Hkey a i Hi).
    unfold key_gt.
    pose proof (key_compare_new (1 + Z.of_nat i) after ltac:(lia) ltac:(lia)) as Hc1.
    pose proof (key_compare_new (1 + Z.of_nat i) n ltac:(lia) ltac:(lia)) as Hc2.
    unfold key_compare in Hc1, Hc2. rewrite Hc1, Hc2.
    assert (from_be_bytes (into_bytes (SortableU64Key_new (1 + Z.of_nat i))) = 1 + Z.of_nat i) as ->
      by (apply (key_get_new (1 + Z.of_nat i)); lia).
    destruct (Z.compare_spec (1 + Z.of_nat i) after), (Z.compare_spec (1 + Z.of_nat i) n);
      split; try (intros [? ?]; try discriminate; lia); try lia; done.
  - lia.
Qed.

Lemma decode_event_spec i a : stored !! i = Some a ->
  decode_event source (ae_canonical_bytes a) = Ok (captured a).
Proof.
  intros Hi. destruct (stored_numbered _ _ Hi) as [Hrun Hseq]. pose proof (index_below _ _ Hi) as Hb.
  pose proof (so_stored _ _ _ _ OK) as Hst. rewrite Forall_lookup in Hst.
  destruct (Hst i a Hi) as [Hbytes (Hv & _)].
  unfold decode_event. rewrite (event_decodes _ _ Hbytes). cbn [ok_or result_bind].
  rewrite Hbytes. cbn [ok_or result_bind]. rewrite source_watermark, Hrun, Hseq, Hv.
  rewrite !bool_decide_eq_false_2 by tauto.
  destruct (Z.eqb_spec (1 + Z.of_nat i) 0); [lia|]. destruct (Z.ltb_spec n (1 + Z.of_nat i)); [lia|]. done.
Qed.

Lemma decode_events_spec l : (forall a, a ∈ l -> a ∈ stored) ->
  decode_events source (ae_canonical_bytes <$> l) = Ok (captured <$> l).
Proof.
  induction l as [|a l IH]; intros Hl; cbn [fmap list_fmap decode_events]; [done|].
  assert (a ∈ stored) as (i & Hi)%list_elem_of_lookup by (apply Hl; set_solver).
  rewrite (decode_event_spec i a Hi). cbn [result_bind]. rewrite IH by set_solver. done.
Qed.

Lemma read_page_spec after : 0 <= after < n ->
  read_event_page read_fails source after =
  if read_fails after then Err (reader_failure profile ReaderEventRead)
  else
    let events := captured <$> take CAPTURED_EVENT_PAGE_SIZE (drop (Z.to_nat after) stored) in
    Ok (mkCapturedEventPage events
          (event ← last events; if ce_sequence event <? n then Some (ce_sequence event) else None)).
Proof.
  intros Ha. unfold read_event_page. rewrite source_watermark.
  destruct (Z.leb_spec n after); [lia|]. destruct (read_fails after); [done|].
  change (ces_db source) with db. rewrite select_page_spec by lia.
  rewrite decode_events_spec; [done|]. intros a Hin.
  eapply elem_of_submseteq; [exact Hin|]. etrans; [apply sublist_submseteq, sublist_take|].
  apply sublist_submseteq, sublist_drop.
Qed.

(** ** Iteration *)

(** The iterator before position [k] (zero-based) of the range. *)
Definition iter_at (range : CapturedEventRange) (k : nat) (self : FiniteEventIter) : Prop :=
  fei_range self = range /\
  Z.of_nat k <= cer_through_inclusive range /\
  (if Z.of_nat k =? cer_through_inclusive range then fei_next_sequence self = None
   else fei_next_sequence self = Some (Z.of_nat k + 1) /\
        exists j, fei_page self = captured <$> take j (drop k stored)).

Lemma page_step range k self a page : iter_at range k self -> cer_through_inclusive range <= n ->
  Z.of_nat k <> cer_through_inclusive range -> stored !! k = Some a ->
  fei_next_sequence self = Some (Z.of_nat k + 1) ->
  (exists j, page = captured <$> take j (drop (S k) stored)) ->
  iter_at range (S k)
    (mkFiniteEventIter (fei_range self)
       (if Z.of_nat k + 1 =? cer_through_inclusive (fei_range self) then None
        else Some (Z.of_nat k + 1 + 1)) page).
Proof.
  intros (Hr & Hk & _) Ht Hne Ha _ Hp. unfold iter_at. cbn [fei_range fei_next_sequence fei_page].
  rewrite Hr. split; [done|]. split; [lia|].
  replace (Z.of_nat (S k)) with (Z.of_nat k + 1) by lia.
  by destruct (Z.of_nat k + 1 =? cer_through_inclusive range).
Qed.

Lemma iter_next_spec range k self : iter_at range k self -> cer_through_inclusive range <= n ->
  (Z.of_nat k = cer_through_inclusive range /\ iter_next read_fails 2 source self = Some (self, None)) \/
  (Z.of_nat k < cer_through_inclusive range /\
   exists self' r, iter_next read_fails 2 source self = Some (self', Some r) /\
   ((exists a, stored !! k = Some a /\ r = Ok (captured a) /\ iter_at range (S k) self') \/
    (read_fails (Z.of_nat k) = true /\ fei_next_sequence self' = None /\
     r = Err (QueryReader (reader_failure profile ReaderEventRead))))).
Proof.
  intros Hat Ht. pose proof Hat as (Hr & Hk & Hnext).
  destruct (Z.eqb_spec (Z.of_nat k) (cer_through_inclusive range)) as [Heq|Hne].
  { left. split; [done|]. cbn [iter_next]. by rewrite Hnext. }
  right. split; [lia|]. destruct Hnext as [Hn [j Hp]].
  destruct (lookup_lt_is_Some_2 stored k) as [a Ha]; [unfold n, list_len in *; lia|].
  pose proof (drop_S _ _ _ Ha) as Hdrop.
  assert (ce_sequence (captured a) = Z.of_nat k + 1) as Hseq.
  { unfold ce_sequence. cbn. destruct (stored_numbered _ _ Ha) as [_ ->]. lia. }
  cbn [iter_next]. rewrite Hn. destruct (fei_page self) as [|event page] eqn:Epage.
  - rewrite read_page_spec by lia. replace (Z.of_nat k + 1 - 1) with (Z.of_nat k) by lia.
    destruct (read_fails (Z.of_nat k)) eqn:Ef; [do 2 eexists; split; [done|by right]|].
    rewrite Nat2Z.id, Hdrop. change CAPTURED_EVENT_PAGE_SIZE with (S 511).
    cbn [take fmap list_fmap cep_events fei_next_sequence fei_page fei_range].
    rewrite Hseq, Z.eqb_refl. cbn [negb]. do 2 eexists. split; [done|]. left. exists a.
    split_and!; [done..|]. apply (page_step range k self a); eauto.
  - assert (exists j', j = S j') as [j' ->].
    { destruct j; [by rewrite take_0 in Hp|eauto]. }
    rewrite Hdrop in Hp. cbn [take fmap list_fmap] in Hp. injection Hp as -> ->.
    rewrite Hseq, Z.eqb_refl. cbn [negb]. do 2 eexists. split; [done|]. left. exists a.
    split_and!; [done..|]. apply (page_step range k self a); eauto.
Qed.

(** What remains of the range before position [k]. *)
Definition remaining (range : CapturedEventRange) (k : nat) : list AcceptedDiagnosticEvent :=
  take (Z.to_nat (cer_through_inclusive range - Z.of_nat k)) (drop k stored).

Lemma collect_spec range fuel : forall k self,
  iter_at range k self -> cer_through_inclusive range <= n ->
  cer_through_inclusive range - Z.of_nat k < Z.of_nat fuel ->
  exists l e, collect read_fails fuel source self = Some (captured <$> l, e) /\
    ((e = None /\ l = remaining range k) \/
     (e = Some (QueryReader (reader_failure profile ReaderEventRead)) /\ l `prefix_of` remaining range k /\
      exists after, Z.of_nat k <= after < cer_through_inclusive range /\ read_fails after = true)).
Proof.
  induction fuel as [|fuel IH]; intros k self Hat Ht Hf.
  { destruct Hat as (_ & ? & _). lia. }
  cbn [collect]. destruct (iter_next_spec range k self Hat Ht) as
    [[Hk ->]|(Hk & self' & r & -> & [(a & Ha & -> & Hat')|(Hfail & _ & ->)])]; cbn [mbind option_bind].
  - exists [], None. split; [done|]. left. split; [done|]. unfold remaining.
    by rewrite Hk, Z.sub_diag, take_0.
  - destruct (IH (S k) self' Hat' Ht ltac:(lia)) as (l & e & -> & He). cbn [mbind option_bind].
    assert (remaining range k = a :: remaining range (S k)) as Hrem.
    { unfold remaining. rewrite (drop_S _ _ _ Ha).
      replace (Z.to_nat (cer_through_inclusive range - Z.of_nat k)) with
        (S (Z.to_nat (cer_through_inclusive range - Z.of_nat (S k)))) by lia. done. }
    exists (a :: l), e. split; [done|]. rewrite Hrem. destruct He as [[-> ->]|(-> & Hp & after & ? & ?)].
    + by left.
    + right. split; [done|]. split; [by apply prefix_cons|]. exists after. split; [lia|done].
  - exists [], (Some (QueryReader (reader_failure profile ReaderEventRead))). split; [done|]. right.
    split; [done|]. split; [apply prefix_nil|]. exists (Z.of_nat k). split; [lia|done].
Qed.

(** ** Ranges *)

Definition query_typed (query : FiniteEventQuery) : Prop :=
  match query with
  | QueryAfter after => 0 <= after
  | QueryTail count => 0 <= count
  | QueryRange after through => 0 <= after /\ 0 <= through
  end.

(** The events that a query asks for, by sequence. *)
Definition selects (query : FiniteEventQuery) (watermark sequence : Z) : Prop :=
  match query with
  | QueryAfter after => after < sequence
  | QueryTail count => watermark - count < sequence
  | QueryRange after through => after < sequence <= through
  end.

#[export] Instance selects_dec query watermark sequence : Decision (selects query watermark sequence).
Proof. destruct query; cbn; apply _. Defined.

Lemma resolve_spec query : query_typed query ->
  let range := resolve query n in
  0 <= cer_after_exclusive range <= cer_through_inclusive range /\ cer_through_inclusive range <= n /\
  forall s, 1 <= s <= n ->
    selects query n s <-> cer_after_exclusive range < s <= cer_through_inclusive range.
Proof.
  pose proof n_bounds. destruct query as [after|count|after through]; cbn [query_typed resolve selects].
  - intros Ha. destruct (Z.ltb_spec after n); cbn [cer_after_exclusive cer_through_inclusive];
      (split; [lia|]; split; [lia|]; intros s Hs; lia).
  - intros Hc. cbn [cer_after_exclusive cer_through_inclusive].
    assert (saturating_sub U64 n count = Z.max 0 (n - count)) as -> by (unfold_int; lia).
    split; [lia|]; split; [lia|]; intros s Hs; lia.
  - intros [Ha Ht]. destruct (Z.ltb_spec through n).
    + destruct (Z.ltb_spec after through); cbn [cer_after_exclusive cer_through_inclusive];
        (split; [lia|]; split; [lia|]; intros s Hs; lia).
    + destruct (Z.ltb_spec after n); cbn [cer_after_exclusive cer_through_inclusive];
        (split; [lia|]; split; [lia|]; intros s Hs; lia).
Qed.

Lemma query_iter_at query : query_typed query ->
  let range := resolve query n in
  iter_at range (Z.to_nat (cer_after_exclusive range)) (query_events source query).
Proof.
  intros Hq range. destruct (resolve_spec query Hq) as (Hr & Ht & _). fold range in Hr, Ht.
  unfold query_events. rewrite source_watermark. fold range.
  split; [done|]. rewrite Z2Nat.id by lia. split; [lia|].
  cbn [fei_next_sequence fei_page]. unfold first_sequence, range_is_empty.
  destruct (_ =? _); [done|]. split; [done|]. by exists O.
Qed.

Lemma selected_range query : query_typed query ->
  filter (fun a => selects query n (event_sequence (ae_event a))) stored =
  remaining (resolve query n) (Z.to_nat (cer_after_exclusive (resolve query n))).
Proof.
  intros Hq. destruct (resolve_spec query Hq) as (Hr & Ht & Hsel). unfold remaining.
  rewrite (filter_interval (fun a => event_sequence (ae_event a)) _ stored 1
             (cer_after_exclusive (resolve query n)) (cer_through_inclusive (resolve query n))).
  - rewrite Z2Nat.id by lia. f_equal. f_equal. lia.
  - intros i a Hi. by apply stored_numbered.
  - intros a (i & Hi)%list_elem_of_lookup. apply Hsel. destruct (stored_numbered _ _ Hi) as [_ ->].
    pose proof (index_below _ _ Hi). lia.
  - lia.
Qed.
End Source.

(** ** The snapshot that is read back *)

Lemma validate_child_ok run_id watermark elapsed schema :
  validate_child run_id watermark elapsed schema schema run_id watermark elapsed = Ok tt.
Proof.
  unfold validate_child. rewrite !Z.eqb_refl. cbn [negb orb].
  by rewrite bool_decide_eq_false_2 by tauto.
Qed.

Lemma validate_view run_id h :
  validate_model (snapshot_view to_string run_id h) run_id (list_len h) = Ok tt.
Proof.
  unfold validate_model.
  change (SnapshotReadModel_model_schema_version _ =? _) with true. cbn [negb].
  rewrite bool_decide_eq_false_2 by (cbn; tauto).
  change (SnapshotReadModel_through_sequence _) with (list_len h). rewrite Z.eqb_refl. cbn [negb].
  change (validate_child _ _ _ _ _ _ _ _) with
    (validate_child run_id (list_len h) (through_elapsed h) SPAN_READ_MODEL_SCHEMA_VERSION
       SPAN_READ_MODEL_SCHEMA_VERSION run_id (list_len h) (through_elapsed h)) at 1.
  rewrite validate_child_ok. cbn [result_bind].
  change (validate_child _ _ _ _ _ _ _ _) with
    (validate_child run_id (list_len h) (through_elapsed h) MESSAGE_READ_MODEL_SCHEMA_VERSION
       MESSAGE_READ_MODEL_SCHEMA_VERSION run_id (list_len h) (through_elapsed h)) at 1.
  rewrite validate_child_ok. cbn [result_bind].
  change (validate_child _ _ _ _ _ _ _ _) with
    (validate_child run_id (list_len h) (through_elapsed h) PLAN_READ_MODEL_SCHEMA_VERSION
       PLAN_READ_MODEL_SCHEMA_VERSION run_id (list_len h) (through_elapsed h)) at 1.
  rewrite validate_child_ok. cbn [result_bind].
  change (validate_child _ _ _ _ _ _ _ _) with
    (validate_child run_id (list_len h) (through_elapsed h) COUNTER_READ_MODEL_SCHEMA_VERSION
       COUNTER_READ_MODEL_SCHEMA_VERSION run_id (list_len h) (through_elapsed h)) at 1.
  rewrite validate_child_ok. cbn [result_bind]. apply validate_child_ok.
Qed.

Lemma query_snapshot_spec profile run_id stored db : store_ok to_string run_id stored db ->
  let n := list_len stored in
  let view := snapshot_view to_string run_id (events_of stored) in
  query_snapshot false (captured_source profile run_id n db) =
  match snapshot_to_vec view with
  | Some payload =>
      Ok (mkMaterializedSnapshot run_id n n (if negb (n =? 0) then Some 1 else None) CaughtUp view payload)
  | None => Err SnapshotModelDecode
  end.
Proof.
  intros [Hr _ _ _ Ht] n view. pose proof (stored_length to_string run_id _ Hr) as Hn. fold n in Hn.
  unfold query_snapshot. cbn [captured_source ces_metadata csm_run_id csm_committed_watermark
    csm_read_model_watermark ces_db]. rewrite key_get_new by done.
  unfold classify. rewrite Z.ltb_irrefl, Z.eqb_refl.
  destruct Ht as [[-> (_ & _ & _ & _ & _ & ->)]|(m & He & _ & _ & _ & _ & _ & ->)].
  - change n with 0. cbn [filter list_filter Z.eqb].
    change (SnapshotReadModel_empty run_id) with view.
    by destruct (snapshot_to_vec view).
  - unfold encode in He. fold view in He.
    invert_bind He. invert_bind He. invert_bind He. invert_bind He. invert_bind He. invert_bind He.
    injection He as <-. apply ok_or_some in E4. rewrite E4.
    change (filter _ _) with [mkSingletonRow 1 (materialized_row (SnapshotReadModel_through_sequence view) x4)].
    cbv iota. unfold decode_stored_snapshot. cbn [singleton_materialized].
    assert (SnapshotReadModel_through_sequence view = n) as -> by (apply events_length).
    unfold materialized_row. cbn [mat_model_schema_version mat_key mat_sequence mat_payload_json].
    change (1 =? SNAPSHOT_READ_MODEL_SCHEMA_VERSION) with true. cbn [negb].
    rewrite from_slice_new. cbn [map_err result_bind].
    assert (parse_canonical_decimal (canonical_decimal (SortableU64Key_new n)) = Ok (SortableU64Key_new n)) as ->.
    { apply parse_canonical_decimal_ok. exists n. split; [|done].
      rewrite canonical_decimal_new by done. by apply parse_print_u64. }
    cbn [map_err result_bind]. rewrite key_get_new, Z.eqb_refl, bool_decide_eq_false_2 by (done || tauto).
    cbn [negb orb]. rewrite (snapshot_decodes _ _ E4). cbn [ok_or result_bind].
    pose proof (validate_view run_id (events_of stored)) as Hv. rewrite events_length in Hv.
    fold view n in Hv. rewrite Hv. cbn [result_bind]. rewrite E4. cbn [ok_or result_bind].
    by rewrite bool_decide_eq_false_2 by tauto.
Qed.

(** ** Properties *)

(** C7: a query returns what it asks for.  On every store of the writer, with
    any reads failing, the iterator yields the stored events that the query
    selects, in order and with their bytes, over as many pages as it takes; it
    ends without an error only when it has yielded all of them, and the only
    error is that of a page that SQLite failed to read. *)
Theorem query_events_exact read_fails profile run_id stored db query :
  store_ok to_string run_id stored db -> query_typed query ->
  exists source, capture profile run_id db = Ok source /\
    let n := list_len stored in
    let selected := filter (fun a => selects query n (event_sequence (ae_event a))) stored in
    exists l e,
      collect read_fails (S (length stored)) source (query_events source query) = Some (captured <$> l, e) /\
      ((e = None /\ l = selected) \/
       (e = Some (QueryReader (reader_failure profile ReaderEventRead)) /\ l `prefix_of` selected /\
        exists after, 0 <= after < n /\ read_fails after = true)).
Proof.
  intros OK Hq. eexists. split; [by apply (capture_ok profile run_id stored)|]. intros n selected.
  destruct (resolve_spec run_id stored db OK query Hq) as (Hr & Ht & _).
  destruct (collect_spec read_fails profile run_id stored db OK (resolve query n) (S (length stored))
    (Z.to_nat (cer_after_exclusive (resolve query n)))
    (query_events (captured_source profile run_id n db) query)) as (l & e & Hc & He).
  - by apply (query_iter_at profile run_id stored db OK).
  - done.
  - unfold n, list_len in *. lia.
  - exists l, e. split; [exact Hc|]. unfold selected.
    unfold n in *. rewrite (selected_range run_id stored db OK query Hq).
    destruct He as [He|(He & Hp & after & ? & ?)]; [by left|right].
    split; [done|]. split; [done|]. exists after. split; [lia|done].
Qed.

(** C8: the snapshot that is read back is the projection of the stored events:
    the synchronization is reported as caught up, the state is what
    [project_snapshot] computes from the events, and its canonical bytes are
    the encoding of that state. *)
Theorem query_snapshot_exact profile run_id stored db :
  store_ok to_string run_id stored db -> stored <> [] ->
  exists source view payload, capture profile run_id db = Ok source /\
    project_snapshot to_string run_id (events_of stored) = Some (Ok view) /\
    snapshot_to_vec view = Some payload /\
    query_snapshot false source =
      Ok (mkMaterializedSnapshot run_id (list_len stored) (list_len stored) (Some 1) CaughtUp view payload).
Proof.
  intros OK Hne. exists (captured_source profile run_id (list_len stored) db).
  exists (snapshot_view to_string run_id (events_of stored)).
  pose proof (query_snapshot_spec profile run_id stored db OK) as Hq. cbv zeta in Hq.
  destruct (snapshot_to_vec (snapshot_view to_string run_id (events_of stored))) as [payload|] eqn:Ev.
  2:{ destruct (so_tables _ _ _ _ OK) as [[-> _]|(m & He & _)]; [done|]. unfold encode in He.
      invert_bind He. invert_bind He. invert_bind He. invert_bind He. invert_bind He.
      by rewrite Ev in He. }
  exists payload. split; [by apply capture_ok|]. split.
  - apply (project_correct run_id (SnapshotProjector_apply to_string) (snapshot_view to_string run_id)
      tokens_typed (snapshot_admissible to_string)).
    + apply Forall_fmap. eapply Forall_impl; [apply OK|]. by intros a (_ & _ & _ & _ & ?).
    + split; [apply OK|done].
  - split; [done|]. rewrite Hq. destruct stored as [|a stored]; [done|].
    pose proof (list_len_nonneg stored). rewrite list_len_cons.
    by destruct (Z.eqb_spec (1 + list_len stored) 0); [lia|].
Qed.
End Spec.

(** *** Witnesses *)

Lemma query_events_exact_witness :
  exists source, @capture sample_encoding ProfileActive (mkCanonicalUuid 7) (tw_db sample_committed) = Ok source /\
  exists l, @collect sample_encoding (fun _ => false) 2 source (query_events source (QueryAfter 0)) =
    Some (captured <$> l, None) /\ l = [sample_accepted_event].
Proof.
  destruct (@query_events_exact sample_to_string decimal_biguint decimal_biguint_laws sample_encoding
    sample_encoding_laws (fun _ => false) ProfileActive (mkCanonicalUuid 7) [sample_accepted_event]
    (tw_db sample_committed) (QueryAfter 0) (wo_store _ _ _ _ sample_committed_ok)) as (source & Hs & H).
  - cbn. lia.
  - destruct H as (l & e & Hc & [[-> Hl]|(_ & _ & after & _ & Hf)]); [|discriminate].
    exists source. split; [exact Hs|]. exists l. split; [exact Hc|]. rewrite Hl. vm_compute. reflexivity.
Defined.

Lemma query_snapshot_exact_witness :
  exists source, @capture sample_encoding ProfileArchive (mkCanonicalUuid 7) (tw_db sample_committed) = Ok source /\
    @query_snapshot sample_encoding false source =
      Ok (mkMaterializedSnapshot (mkCanonicalUuid 7) 1 1 (Some 1) CaughtUp sample_snapshot sample_json).
Proof.
  destruct (@query_snapshot_exact sample_to_string decimal_biguint decimal_biguint_laws sample_encoding
    sample_encoding_laws ProfileArchive (mkCanonicalUuid 7) [sample_accepted_event]
    (tw_db sample_committed) (wo_store _ _ _ _ sample_committed_ok)) as (source & view & payload & Hs & Hp & Hv & Hq);
    [discriminate|].
  exists source. split; [exact Hs|]. rewrite Hq.
  change (only sample_snapshot view = Some payload) in Hv. unfold only in Hv.
  destruct (decide (view = sample_snapshot)) as [->|]; [|discriminate]. injection Hv as <-. reflexivity.
Defined.

