(* ===== verification/Ingress.v ===== *)
(** * The mandatory ingress

    Models [troupe-diagnostics-runtime/src/store/admission.rs]: the bounded
    ledger between the hub, which reserves and commits events, and the writer,
    which dequeues and confirms them.  Every operation runs under one mutex,
    so each is one function on the shared state.  The failure channel is a
    [sync_channel(1)]: one slot, and a flag for the live receiver. *)

From S2P Require Import Prelude Wire Scalar Kinds Detail Event Validate ValidateSpec Hub HubSpec Key Batch.

Definition MAX_UNCOMMITTED_EVENTS : Z := 32768.

Definition MAX_UNCOMMITTED_CANONICAL_BYTES : Z := 64 * 1024 * 1024.

Definition CUE_CAPTURE_PAUSE_EVENTS : Z := MAX_UNCOMMITTED_EVENTS * 3 / 4.

Definition CUE_CAPTURE_PAUSE_CANONICAL_BYTES : Z := MAX_UNCOMMITTED_CANONICAL_BYTES * 3 / 4.

Definition CUE_CAPTURE_RESUME_EVENTS : Z := MAX_UNCOMMITTED_EVENTS / 4.

Definition CUE_CAPTURE_RESUME_CANONICAL_BYTES : Z := MAX_UNCOMMITTED_CANONICAL_BYTES / 4.

(** ** Failures and errors *)

Inductive IngressCoreFailureKind := BudgetExhausted | CommitAccounting.

Record IngressCoreFailure := mkIngressCoreFailure {
  icf_kind : IngressCoreFailureKind;
  icf_current_events : Z;
  icf_current_canonical_bytes : Z;
  icf_attempted_events : Z;
  icf_attempted_canonical_bytes : Z;
  icf_event_limit_exceeded : bool;
  icf_byte_limit_exceeded : bool;
}.

Definition budget_exhausted (current_events current_canonical_bytes : Z) (attempted : AdmissionSize)
    (event_limit_exceeded byte_limit_exceeded : bool) : IngressCoreFailure :=
  mkIngressCoreFailure BudgetExhausted current_events current_canonical_bytes
    (size_event_count attempted) (size_canonical_bytes attempted)
    event_limit_exceeded byte_limit_exceeded.

Definition commit_accounting_failed : IngressCoreFailure :=
  mkIngressCoreFailure CommitAccounting 0 0 0 0 false false.

Definition IngressCoreFailure_code (f : IngressCoreFailure) : string :=
  match icf_kind f with
  | BudgetExhausted => "mandatory_ingress_budget_exhausted"
  | CommitAccounting => "mandatory_ingress_commit_accounting"
  end.

Inductive IngressAdmissionError :=
| IngressStatePoisoned
| InvalidEventCount (actual : Z)
| IngressBudgetExhausted (failure : IngressCoreFailure)
| IngressSealed (failure : option IngressCoreFailure)
| FatalBeforeCoreFailure
| FatalAlreadyReserved
| FatalAlreadyAdmitted
| FatalCapacityUnavailable.

Inductive IngressStateError := StatePoisoned.

Inductive CommitAccountingError :=
| CommitStatePoisoned
| CommitRunIdentityMismatch
| StalePrevious (expected actual : Z)
| MissingPrefix (expected actual : Z)
| PrefixNotInFlight
| NonDensePrefix (expected actual : Z)
| CommittedSequenceMismatch (expected actual : Z)
| CanonicalByteCountMismatch (expected actual : Z)
| CommitCanonicalByteCountOverflow
| CommitSequenceExhausted.

(** ** State *)

Inductive DeliveryPhase := Queued | InFlight.

#[export] Instance DeliveryPhase_eq_dec : EqDecision DeliveryPhase.
Proof. solve_decision. Defined.

Inductive FatalAdmissionState := FatalAvailable | FatalReserved | FatalAdmitted.

#[export] Instance FatalAdmissionState_eq_dec : EqDecision FatalAdmissionState.
Proof. solve_decision. Defined.

Inductive ReservationClass := Normal | Cue | Fatal.

#[export] Instance ReservationClass_eq_dec : EqDecision ReservationClass.
Proof. solve_decision. Defined.

Record TrackedEvent := mkTrackedEvent {
  te_event : AcceptedDiagnosticEvent;
  te_canonical_bytes : Z;
  te_phase : DeliveryPhase;
}.

Record IngressState := mkIngressState {
  is_reserved_events : Z;
  is_reserved_canonical_bytes : Z;
  is_outstanding : list TrackedEvent;
  is_outstanding_canonical_bytes : Z;
  is_committed_sequence : Z;
  is_run_id : option CanonicalUuid;
  is_normal_ingress_sealed : bool;
  is_cue_capture_paused : bool;
  is_suppressed_cues : Z;
  is_fatal_admission_authorized : bool;
  is_failure : option IngressCoreFailure;
  is_fatal_state : FatalAdmissionState;
}.

Definition IngressState_default : IngressState :=
  mkIngressState 0 0 [] 0 0 None false false 0 false None FatalAvailable.

Record FailureChannel := mkFailureChannel {
  fc_slot : option IngressCoreFailure;
  fc_connected : bool;
}.

Record MandatoryIngress := mkMandatoryIngress {
  mi_state : Mutex IngressState;
  mi_failure_channel : FailureChannel;
}.

Definition MandatoryIngress_new : MandatoryIngress :=
  mkMandatoryIngress (Mutex_new IngressState_default) (mkFailureChannel None true).

(** [SyncSender::try_send], whose errors the source ignores. *)
Definition try_send (channel : FailureChannel) (failure : IngressCoreFailure) : FailureChannel :=
  match fc_slot channel with
  | None => if fc_connected channel then mkFailureChannel (Some failure) true else channel
  | Some _ => channel
  end.

(** [IngressFailureReceiver::try_recv]. *)
Definition failure_try_recv (ingress : MandatoryIngress)
    : MandatoryIngress * option IngressCoreFailure :=
  (mkMandatoryIngress (mi_state ingress)
     (mkFailureChannel None (fc_connected (mi_failure_channel ingress))),
   fc_slot (mi_failure_channel ingress)).

Record IngressReservation := mkIngressReservation {
  ir_size : AdmissionSize;
  ir_class : ReservationClass;
}.

Abbreviation ingress_state i := (guarded (mi_state i)).

(** Record updates, named after the fields they set. *)
Definition set_reserved (events bytes : Z) (s : IngressState) : IngressState :=
  mkIngressState events bytes (is_outstanding s) (is_outstanding_canonical_bytes s)
    (is_committed_sequence s) (is_run_id s) (is_normal_ingress_sealed s)
    (is_cue_capture_paused s) (is_suppressed_cues s) (is_fatal_admission_authorized s)
    (is_failure s) (is_fatal_state s).

Definition set_outstanding (outstanding : list TrackedEvent) (bytes : Z) (s : IngressState)
    : IngressState :=
  mkIngressState (is_reserved_events s) (is_reserved_canonical_bytes s) outstanding bytes
    (is_committed_sequence s) (is_run_id s) (is_normal_ingress_sealed s)
    (is_cue_capture_paused s) (is_suppressed_cues s) (is_fatal_admission_authorized s)
    (is_failure s) (is_fatal_state s).

Definition set_committed (sequence : Z) (run_id : option CanonicalUuid) (s : IngressState)
    : IngressState :=
  mkIngressState (is_reserved_events s) (is_reserved_canonical_bytes s) (is_outstanding s)
    (is_outstanding_canonical_bytes s) sequence run_id (is_normal_ingress_sealed s)
    (is_cue_capture_paused s) (is_suppressed_cues s) (is_fatal_admission_authorized s)
    (is_failure s) (is_fatal_state s).

Definition set_cue (paused : bool) (suppressed : Z) (s : IngressState) : IngressState :=
  mkIngressState (is_reserved_events s) (is_reserved_canonical_bytes s) (is_outstanding s)
    (is_outstanding_canonical_bytes s) (is_committed_sequence s) (is_run_id s)
    (is_normal_ingress_sealed s) paused suppressed (is_fatal_admission_authorized s)
    (is_failure s) (is_fatal_state s).

Definition set_fatal_state (fatal : FatalAdmissionState) (s : IngressState) : IngressState :=
  mkIngressState (is_reserved_events s) (is_reserved_canonical_bytes s) (is_outstanding s)
    (is_outstanding_canonical_bytes s) (is_committed_sequence s) (is_run_id s)
    (is_normal_ingress_sealed s) (is_cue_capture_paused s) (is_suppressed_cues s)
    (is_fatal_admission_authorized s) (is_failure s) fatal.

Definition set_sealed (sealed authorized : bool) (failure : option IngressCoreFailure)
    (s : IngressState) : IngressState :=
  mkIngressState (is_reserved_events s) (is_reserved_canonical_bytes s) (is_outstanding s)
    (is_outstanding_canonical_bytes s) (is_committed_sequence s) (is_run_id s)
    sealed (is_cue_capture_paused s) (is_suppressed_cues s) authorized failure (is_fatal_state s).

Definition set_ingress (i : MandatoryIngress) (s : IngressState) : MandatoryIngress :=
  mkMandatoryIngress (with_guarded (mi_state i) s) (mi_failure_channel i).

(** ** Operations *)

Definition latch_failure (i : MandatoryIngress) (s : IngressState) (failure : IngressCoreFailure)
    : MandatoryIngress :=
  match is_failure s with
  | Some f => set_ingress i (set_sealed true true (Some f) s)
  | None =>
      mkMandatoryIngress (with_guarded (mi_state i) (set_sealed true true (Some failure) s))
        (try_send (mi_failure_channel i) failure)
  end.

Definition current_events (s : IngressState) : Z :=
  saturating_add Usize (is_reserved_events s) (list_len (is_outstanding s)).

Definition current_bytes (s : IngressState) : Z :=
  saturating_add Usize (is_reserved_canonical_bytes s) (is_outstanding_canonical_bytes s).

(** The admission guards of each class. *)
Definition class_guard (s : IngressState) (class : ReservationClass)
    : result unit IngressAdmissionError :=
  match class with
  | Normal | Cue =>
      if is_normal_ingress_sealed s then Err (IngressSealed (is_failure s)) else Ok tt
  | Fatal =>
      if negb (is_fatal_admission_authorized s) then Err FatalBeforeCoreFailure
      else
        match is_fatal_state s with
        | FatalAvailable => Ok tt
        | FatalReserved => Err FatalAlreadyReserved
        | FatalAdmitted => Err FatalAlreadyAdmitted
        end
  end.

(** [Option::is_none_or(|value| value > limit)]. *)
Definition exceeds (candidate : option Z) (limit : Z) : bool :=
  match candidate with Some value => limit <? value | None => true end.

(** [Option::is_some_and(|value| value >= limit)]. *)
Definition reaches (candidate : option Z) (limit : Z) : bool :=
  match candidate with Some value => limit <=? value | None => false end.

Definition reserve (i : MandatoryIngress) (size : AdmissionSize) (class : ReservationClass)
    : MandatoryIngress * result IngressReservation IngressAdmissionError :=
  if negb (size_event_count size =? 1) then (i, Err (InvalidEventCount (size_event_count size)))
  else if mutex_poisoned (mi_state i) then (i, Err IngressStatePoisoned)
  else
    let s := ingress_state i in
    match class_guard s class with
    | Err e => (i, Err e)
    | Ok _ =>
        let candidate_events := checked_add Usize (current_events s) (size_event_count size) in
        let candidate_bytes := checked_add Usize (current_bytes s) (size_canonical_bytes size) in
        let event_limit_exceeded := exceeds candidate_events MAX_UNCOMMITTED_EVENTS in
        let byte_limit_exceeded := exceeds candidate_bytes MAX_UNCOMMITTED_CANONICAL_BYTES in
        if event_limit_exceeded || byte_limit_exceeded then
          if bool_decide (class = Fatal) then (i, Err FatalCapacityUnavailable)
          else
            let failure :=
              budget_exhausted (current_events s) (current_bytes s) size
                event_limit_exceeded byte_limit_exceeded in
            (latch_failure i s failure, Err (IngressBudgetExhausted failure))
        else
          let s1 :=
            if bool_decide (class = Cue)
               && (reaches candidate_events CUE_CAPTURE_PAUSE_EVENTS
                   || reaches candidate_bytes CUE_CAPTURE_PAUSE_CANONICAL_BYTES)
            then set_cue true (is_suppressed_cues s) s else s in
          (* the two [checked_add(..).expect(..)]: bounded by the totals above *)
          let s2 :=
            set_reserved (is_reserved_events s1 + size_event_count size)
              (is_reserved_canonical_bytes s1 + size_canonical_bytes size) s1 in
          let s3 := if bool_decide (class = Fatal) then set_fatal_state FatalReserved s2 else s2 in
          (set_ingress i s3, Ok (mkIngressReservation size class))
    end.

Definition release_reserved (s : IngressState) (size : AdmissionSize) : IngressState :=
  set_reserved (saturating_sub Usize (is_reserved_events s) (size_event_count size))
    (saturating_sub Usize (is_reserved_canonical_bytes s) (size_canonical_bytes size)) s.

(** The sequence the next committed event must carry. *)
Definition expected_sequence (s : IngressState) : Z :=
  match last (is_outstanding s) with
  | None => wrapping_add U64 (is_committed_sequence s) 1
  | Some tracked => saturating_add U64 (accepted_sequence (te_event tracked)) 1
  end.

Definition commit_mismatch (s : IngressState) (size : AdmissionSize)
    (event : AcceptedDiagnosticEvent) : bool :=
  let bytes_match := accepted_bytes event =? size_canonical_bytes size in
  let run_matches :=
    match is_run_id s with
    | Some run_id => bool_decide (run_id = ei_run_id (identity event))
    | None => true
    end in
  negb bytes_match || negb run_matches || negb (accepted_sequence event =? expected_sequence s).

(** The event joins the ledger whether or not the accounting matched. *)
Definition track (s : IngressState) (reservation : IngressReservation)
    (event : AcceptedDiagnosticEvent) : IngressState :=
  let bytes := size_canonical_bytes (ir_size reservation) in
  let s1 :=
    set_committed (is_committed_sequence s)
      (Some (match is_run_id s with Some run_id => run_id | None => ei_run_id (identity event) end))
      s in
  let s2 :=
    set_outstanding (is_outstanding s1 ++ [mkTrackedEvent event bytes Queued])
      (saturating_add Usize (is_outstanding_canonical_bytes s1) bytes) s1 in
  if bool_decide (ir_class reservation = Fatal) then set_fatal_state FatalAdmitted s2 else s2.

(** [IngressReservation::commit]; the lock ignores poisoning. *)
Definition ingress_commit (i : MandatoryIngress) (reservation : IngressReservation)
    (event : AcceptedDiagnosticEvent) : MandatoryIngress :=
  let s := release_reserved (ingress_state i) (ir_size reservation) in
  let i1 :=
    if commit_mismatch s (ir_size reservation) event
    then latch_failure i s commit_accounting_failed
    else set_ingress i s in
  set_ingress i1 (track (ingress_state i1) reservation event).

(** [Drop for IngressReservation], of a reservation that was not committed. *)
Definition ingress_drop (i : MandatoryIngress) (reservation : IngressReservation)
    : MandatoryIngress :=
  let s := release_reserved (ingress_state i) (ir_size reservation) in
  set_ingress i
    (if bool_decide (ir_class reservation = Fatal) && bool_decide (is_fatal_state s = FatalReserved)
     then set_fatal_state FatalAvailable s else s).

(** *** The writer's side *)

(** [iter_mut().find(Queued)], with the found event marked [InFlight]. *)
Fixpoint dequeue_first (outstanding : list TrackedEvent)
    : option (AcceptedDiagnosticEvent * list TrackedEvent) :=
  match outstanding with
  | [] => None
  | tracked :: rest =>
      match te_phase tracked with
      | Queued =>
          Some (te_event tracked,
                mkTrackedEvent (te_event tracked) (te_canonical_bytes tracked) InFlight :: rest)
      | InFlight =>
          match dequeue_first rest with
          | Some (event, rest') => Some (event, tracked :: rest')
          | None => None
          end
      end
  end.

Definition try_dequeue (i : MandatoryIngress)
    : MandatoryIngress * result (option AcceptedDiagnosticEvent) IngressStateError :=
  match lock (mi_state i) StatePoisoned with
  | Err e => (i, Err e)
  | Ok s =>
      match dequeue_first (is_outstanding s) with
      | None => (i, Ok None)
      | Some (event, outstanding) =>
          (set_ingress i (set_outstanding outstanding (is_outstanding_canonical_bytes s) s),
           Ok (Some event))
      end
  end.

Definition retry_in_flight (i : MandatoryIngress)
    : result (list AcceptedDiagnosticEvent) IngressStateError :=
  let? s := lock (mi_state i) StatePoisoned in
  Ok (te_event <$> filter (fun tracked => te_phase tracked = InFlight) (is_outstanding s)).

Definition ingress_begin_cue_capture (i : MandatoryIngress)
    : MandatoryIngress * result CueCaptureDecision IngressStateError :=
  match lock (mi_state i) StatePoisoned with
  | Err e => (i, Err e)
  | Ok s =>
      if is_normal_ingress_sealed s then (i, Ok Capture)
      else if is_cue_capture_paused s then
        if (current_events s <=? CUE_CAPTURE_RESUME_EVENTS)
           && (current_bytes s <=? CUE_CAPTURE_RESUME_CANONICAL_BYTES) then
          (set_ingress i (set_cue false 0 s),
           Ok (if is_suppressed_cues s =? 0 then Capture else Resume (is_suppressed_cues s)))
        else
          (set_ingress i (set_cue true (saturating_add U64 (is_suppressed_cues s) 1) s), Ok Suppress)
      else if (CUE_CAPTURE_PAUSE_EVENTS <=? current_events s)
              || (CUE_CAPTURE_PAUSE_CANONICAL_BYTES <=? current_bytes s) then
        (set_ingress i (set_cue true 1 s), Ok Suppress)
      else (i, Ok Capture)
  end.

Definition ingress_finish_cue_capture (i : MandatoryIngress)
    : MandatoryIngress * result (option Z) IngressStateError :=
  match lock (mi_state i) StatePoisoned with
  | Err e => (i, Err e)
  | Ok s =>
      (set_ingress i (set_cue false 0 s),
       Ok (if 0 <? is_suppressed_cues s then Some (is_suppressed_cues s) else None))
  end.

Definition seal_normal_ingress (i : MandatoryIngress)
    : MandatoryIngress * result bool IngressStateError :=
  match lock (mi_state i) StatePoisoned with
  | Err e => (i, Err e)
  | Ok s =>
      (set_ingress i (set_sealed true (is_fatal_admission_authorized s) (is_failure s) s),
       Ok (negb (is_normal_ingress_sealed s)))
  end.

Definition seal_for_external_core_failure (i : MandatoryIngress)
    : MandatoryIngress * result bool IngressStateError :=
  match lock (mi_state i) StatePoisoned with
  | Err e => (i, Err e)
  | Ok s =>
      (set_ingress i (set_sealed true true (is_failure s) s),
       Ok (negb (is_normal_ingress_sealed s) || negb (is_fatal_admission_authorized s)))
  end.

(** The loop of [validate_commit] over the prefix. *)
Fixpoint validate_prefix (committed_sequence : Z) (offset : Z) (canonical_bytes : Z)
    (prefix : list TrackedEvent) : result Z CommitAccountingError :=
  match prefix with
  | [] => Ok canonical_bytes
  | tracked :: prefix' =>
      if bool_decide (te_phase tracked <> InFlight) then Err PrefixNotInFlight
      else
        let? expected :=
          ok_or (checked_add U64 committed_sequence (offset + 1)) CommitSequenceExhausted in
        if negb (accepted_sequence (te_event tracked) =? expected) then
          Err (NonDensePrefix expected (accepted_sequence (te_event tracked)))
        else
          let? canonical_bytes' :=
            ok_or (checked_add Usize canonical_bytes (te_canonical_bytes tracked))
              CommitCanonicalByteCountOverflow in
          validate_prefix committed_sequence (offset + 1) canonical_bytes' prefix'
  end.

Definition validate_commit (s : IngressState) (notification : CommitNotification)
    : result unit CommitAccountingError :=
  if negb (get (cn_previous notification) =? is_committed_sequence s) then
    Err (StalePrevious (is_committed_sequence s) (get (cn_previous notification)))
  else if match is_run_id s with
          | Some run_id => bool_decide (run_id <> cn_run_id notification)
          | None => false
          end then
    Err CommitRunIdentityMismatch
  else if list_len (is_outstanding s) <? cn_event_count notification then
    Err (MissingPrefix (cn_event_count notification) (list_len (is_outstanding s)))
  else
    let? canonical_bytes :=
      validate_prefix (is_committed_sequence s) 0 0
        (take (Z.to_nat (cn_event_count notification)) (is_outstanding s)) in
    let? expected_committed :=
      ok_or (checked_add U64 (is_committed_sequence s) (cn_event_count notification))
        CommitSequenceExhausted in
    if negb (get (cn_committed notification) =? expected_committed) then
      Err (CommittedSequenceMismatch expected_committed (get (cn_committed notification)))
    else if negb (cn_canonical_bytes notification =? canonical_bytes) then
      Err (CanonicalByteCountMismatch canonical_bytes (cn_canonical_bytes notification))
    else Ok tt.

Fixpoint tracked_bytes (l : list TrackedEvent) : Z :=
  match l with
  | [] => 0
  | tracked :: l' => te_canonical_bytes tracked + tracked_bytes l'
  end.

Definition mark_committed (i : MandatoryIngress) (notification : CommitNotification)
    : MandatoryIngress * result unit CommitAccountingError :=
  match lock (mi_state i) CommitStatePoisoned with
  | Err e => (i, Err e)
  | Ok s =>
      match validate_commit s notification with
      | Err e => (latch_failure i s commit_accounting_failed, Err e)
      | Ok _ =>
          let n := Z.to_nat (cn_event_count notification) in
          let released_bytes := tracked_bytes (take n (is_outstanding s)) in
          (set_ingress i
             (set_committed (get (cn_committed notification)) (is_run_id s)
                (set_outstanding (drop n (is_outstanding s))
                   (is_outstanding_canonical_bytes s - released_bytes) s)),
           Ok tt)
      end
  end.

(** [CommitObserver::committed] ignores the result. *)
Definition observer_committed (i : MandatoryIngress) (notification : CommitNotification)
    : MandatoryIngress := (mark_committed i notification).1.

(** *** Status *)

Record IngressStatus := mkIngressStatus {
  ist_accepted_uncommitted_events : Z;
  ist_accepted_uncommitted_canonical_bytes : Z;
  ist_queued_events : Z;
  ist_in_flight_events : Z;
  ist_committed_sequence : Z;
  ist_normal_ingress_sealed : bool;
  ist_cue_capture_paused : bool;
  ist_failure : option IngressCoreFailure;
}.

Definition from_state (s : IngressState) : IngressStatus :=
  let queued_events :=
    list_len (filter (fun tracked => te_phase tracked = Queued) (is_outstanding s)) in
  mkIngressStatus
    (is_reserved_events s + list_len (is_outstanding s))
    (is_reserved_canonical_bytes s + is_outstanding_canonical_bytes s)
    queued_events (list_len (is_outstanding s) - queued_events)
    (is_committed_sequence s) (is_normal_ingress_sealed s) (is_cue_capture_paused s) (is_failure s).

Definition status (i : MandatoryIngress) : result IngressStatus IngressStateError :=
  let? s := lock (mi_state i) StatePoisoned in Ok (from_state s).

(** ** The reserver the hub is given *)

#[export] Instance ingress_reserver
    : AdmissionReserver MandatoryIngress IngressAdmissionError IngressReservation := {|
  try_reserve := fun i size => reserve i size Normal;
  try_reserve_fatal := fun i size => reserve i size Fatal;
  reservation_commit := ingress_commit;
  reservation_drop := ingress_drop;
|}.

#[export] Instance ingress_durable_reserver
    : MandatoryDurableReserver MandatoryIngress IngressAdmissionError IngressReservation := {|
  try_reserve_cue := fun i size => reserve i size Cue;
  begin_cue_capture := fun i =>
    let '(i', r) := ingress_begin_cue_capture i in (i', map_err (fun _ => IngressStatePoisoned) r);
  finish_cue_capture := fun i =>
    let '(i', r) := ingress_finish_cue_capture i in (i', map_err (fun _ => IngressStatePoisoned) r);
|}.

(** ** The interface is implemented *)

Definition ingress_held (i : MandatoryIngress) : list AcceptedDiagnosticEvent :=
  te_event <$> is_outstanding (ingress_state i).

Lemma latch_failure_held i s f : ingress_held (latch_failure i s f) = te_event <$> is_outstanding s.
Proof. unfold latch_failure. by destruct (is_failure s). Qed.

Lemma reserve_held i size class : ingress_held (reserve i size class).1 = ingress_held i.
Proof.
  unfold reserve. destruct (negb _); [done|]. destruct (mutex_poisoned _); [done|].
  destruct (class_guard _ _); [|done].
  destruct (exceeds _ _ || exceeds _ _).
  - case_bool_decide; [done|]. apply latch_failure_held.
  - unfold ingress_held. repeat case_match; done.
Qed.

Lemma commit_held i res event : ingress_held (ingress_commit i res event) = ingress_held i ++ [event].
Proof.
  unfold ingress_commit. cbn zeta.
  assert (forall i1, ingress_held (set_ingress i1 (track (ingress_state i1) res event)) =
    ingress_held i1 ++ [event]) as Htrack.
  { intros i1. unfold ingress_held, track. case_bool_decide; cbn; by rewrite fmap_app. }
  rewrite Htrack. by case_match; [rewrite latch_failure_held|].
Qed.

Lemma drop_held i res : ingress_held (ingress_drop i res) = ingress_held i.
Proof. unfold ingress_held, ingress_drop. by case_match. Qed.

Lemma begin_cue_held i : ingress_held (begin_cue_capture i).1 = ingress_held i.
Proof. cbn. unfold ingress_begin_cue_capture, lock. by repeat case_match; simplify_eq/=. Qed.

Lemma finish_cue_held i : ingress_held (finish_cue_capture i).1 = ingress_held i.
Proof. cbn. unfold ingress_finish_cue_capture, lock. by repeat case_match; simplify_eq/=. Qed.

#[export] Instance ingress_laws
    : ReserverLaws MandatoryIngress IngressAdmissionError IngressReservation := {|
  held := ingress_held;
  held_reserve := fun i size => reserve_held i size Normal;
  held_reserve_fatal := fun i size => reserve_held i size Fatal;
  held_reserve_cue := fun i size => reserve_held i size Cue;
  held_commit := commit_held;
  held_drop := drop_held;
  held_begin_cue := begin_cue_held;
  held_finish_cue := finish_cue_held;
|}.
