(* ===== verification/IngressSpec.v ===== *)
(** * Correctness of the mandatory ingress

    The ingress is shared by the hub, which holds reservations, and by the
    writer.  [ingress_step] is one atomic operation of either side; the system
    state adds the live reservations and two counters of cue decisions to the
    code's state.  [sys_ok] is the invariant of every reachable state. *)

From S2P Require Import Prelude Wire Scalar Kinds Detail Event Validate ValidateSpec Hub HubSpec Key Batch Ingress.
From Stdlib Require Import Relations.

(** ** The ledger *)

Lemma filter_all {A} (P : A -> Prop) `{!forall x, Decision (P x)} l : Forall P l -> filter P l = l.
Proof. induction 1; [done|]. rewrite filter_cons_True by done. by f_equal. Qed.

Lemma filter_none {A} (P : A -> Prop) `{!forall x, Decision (P x)} l :
  Forall (fun x => ~ P x) l -> filter P l = [].
Proof. induction 1; [done|]. by rewrite filter_cons_False. Qed.

Lemma tracked_bytes_app l k : tracked_bytes (l ++ k) = tracked_bytes l + tracked_bytes k.
Proof. induction l; cbn in *; lia. Qed.

(** The sizes of live reservations. *)
Fixpoint live_bytes (live : list IngressReservation) : Z :=
  match live with
  | [] => 0
  | r :: live' => size_canonical_bytes (ir_size r) + live_bytes live'
  end.

Definition live_fatal (live : list IngressReservation) : list IngressReservation :=
  filter (fun r => ir_class r = Fatal) live.

(** The dequeued events come first. *)
Definition phases_ok (l : list TrackedEvent) : Prop :=
  exists flight queue, l = flight ++ queue /\
    Forall (fun t => te_phase t = InFlight) flight /\ Forall (fun t => te_phase t = Queued) queue.

Record state_ok (s : IngressState) (live : list IngressReservation) : Prop := {
  so_reserved_events : is_reserved_events s = list_len live;
  so_reserved_bytes : is_reserved_canonical_bytes s = live_bytes live;
  so_outstanding_bytes : is_outstanding_canonical_bytes s = tracked_bytes (is_outstanding s);
  so_live : Forall (fun r => size_event_count (ir_size r) = 1 /\
    0 <= size_canonical_bytes (ir_size r)) live;
  so_tracked : Forall (fun t => 0 <= te_canonical_bytes t) (is_outstanding s);
  so_events_bound : list_len live + list_len (is_outstanding s) <= MAX_UNCOMMITTED_EVENTS;
  so_bytes_bound : live_bytes live + tracked_bytes (is_outstanding s)
    <= MAX_UNCOMMITTED_CANONICAL_BYTES;
  so_phases : phases_ok (is_outstanding s);
  so_fatal : list_len (live_fatal live) =
    match is_fatal_state s with FatalReserved => 1 | _ => 0 end;
  so_failure : is_Some (is_failure s) ->
    is_normal_ingress_sealed s = true /\ is_fatal_admission_authorized s = true;
  so_cue : is_cue_capture_paused s = false -> is_suppressed_cues s = 0;
}.

Lemma state_ok_default : state_ok IngressState_default [].
Proof. constructor; try done. - exists [], []. by repeat constructor. - by intros [? ?]. Qed.

Lemma live_bytes_nonneg live :
  Forall (fun r => size_event_count (ir_size r) = 1 /\ 0 <= size_canonical_bytes (ir_size r)) live ->
  0 <= live_bytes live.
Proof. induction 1 as [|r live [_ H] _ IH]; cbn in *; lia. Qed.

Lemma tracked_bytes_nonneg l : Forall (fun t => 0 <= te_canonical_bytes t) l -> 0 <= tracked_bytes l.
Proof. induction 1; cbn in *; lia. Qed.

(** Permuting the live reservations changes nothing. *)
Lemma live_bytes_perm l k : Permutation l k -> live_bytes l = live_bytes k.
Proof. induction 1; cbn in *; lia. Qed.

#[export] Instance state_ok_perm s : Proper (Permutation ==> iff) (state_ok s).
Proof.
  assert (forall l k, Permutation l k -> state_ok s l -> state_ok s k) as H.
  { intros l k P [H1 H2 H3 H4 H5 H6 H7 H8 H9 H10 H11].
    assert (list_len l = list_len k) as El by (unfold list_len; by rewrite P).
    assert (list_len (live_fatal l) = list_len (live_fatal k)) as Ef
      by (unfold list_len, live_fatal; by rewrite P).
    rewrite (live_bytes_perm _ _ P) in *. rewrite El in *. rewrite Ef in *.
    constructor; try done. by rewrite <-P. }
  intros l k P. split; apply H; [done|by symmetry].
Qed.

(** The saturating totals of the code are the exact totals. *)
Lemma current_exact s live :
  state_ok s live ->
  current_events s = list_len live + list_len (is_outstanding s) /\
  current_bytes s = live_bytes live + tracked_bytes (is_outstanding s).
Proof.
  intros [H1 H2 H3 H4 H5 H6 H7 _ _ _ _]. unfold current_events, current_bytes.
  rewrite H1, H2, H3. pose proof (live_bytes_nonneg _ H4). pose proof (tracked_bytes_nonneg _ H5).
  pose proof (list_len_nonneg live). pose proof (list_len_nonneg (is_outstanding s)).
  unfold MAX_UNCOMMITTED_EVENTS, MAX_UNCOMMITTED_CANONICAL_BYTES in *. unfold_int. lia.
Qed.

(** ** Reservations *)

Lemma state_ok_set_cue s live paused n :
  state_ok s live -> (paused = false -> n = 0) -> state_ok (set_cue paused n s) live.
Proof. intros [] ?. by constructor. Qed.

Lemma state_ok_set_sealed s live sealed authorized f :
  state_ok s live -> (is_Some f -> sealed = true /\ authorized = true) ->
  state_ok (set_sealed sealed authorized f s) live.
Proof. intros [] ?. by constructor. Qed.

Lemma latch_failure_ok i s live f :
  state_ok s live -> state_ok (ingress_state (latch_failure i s f)) live.
Proof.
  intros H. unfold latch_failure. destruct (is_failure s); by apply state_ok_set_sealed.
Qed.

Lemma exceeds_checked a b limit :
  0 <= a -> 0 <= b -> limit <= int_max Usize ->
  exceeds (checked_add Usize a b) limit = (limit <? a + b).
Proof.
  intros Ha Hb Hl. unfold exceeds, checked_add. destruct (checked Usize (a + b)) as [v|] eqn:E.
  - by apply checked_some in E as [-> _].
  - apply checked_none in E. symmetry. apply Z.ltb_lt. cbn in *. lia.
Qed.

(** What [reserve] decides, in exact arithmetic. *)
Lemma reserve_decides i live size class :
  state_ok (ingress_state i) live -> 0 <= size_canonical_bytes size ->
  size_event_count size = 1 -> mutex_poisoned (mi_state i) = false ->
  let s := ingress_state i in
  let fits := bool_decide
    (list_len live + list_len (is_outstanding s) + 1 <= MAX_UNCOMMITTED_EVENTS /\
     live_bytes live + tracked_bytes (is_outstanding s) + size_canonical_bytes size
       <= MAX_UNCOMMITTED_CANONICAL_BYTES) in
  is_ok (reserve i size class).2 = is_ok (class_guard s class) && fits.
Proof.
  intros Hok Hsz Hone Hp. cbn zeta. unfold reserve. rewrite Hone, Hp. cbn [Z.eqb negb].
  destruct (class_guard _ _) as [[]|e]; [|done]. cbn [is_ok andb].
  destruct (current_exact _ _ Hok) as [-> ->].
  pose proof (live_bytes_nonneg _ (so_live _ _ Hok)).
  pose proof (tracked_bytes_nonneg _ (so_tracked _ _ Hok)).
  pose proof (list_len_nonneg live). pose proof (list_len_nonneg (is_outstanding (ingress_state i))).
  rewrite !exceeds_checked by (unfold MAX_UNCOMMITTED_EVENTS, MAX_UNCOMMITTED_CANONICAL_BYTES; cbn; lia).
  destruct (_ || _) eqn:E.
  - transitivity false; [by case_bool_decide|]. symmetry. apply bool_decide_eq_false. lia.
  - symmetry. apply bool_decide_eq_true. lia.
Qed.

Lemma list_len_fatal_cons r live :
  list_len (live_fatal (r :: live)) =
  match ir_class r with Fatal => 1 | _ => 0 end + list_len (live_fatal live).
Proof.
  unfold live_fatal. rewrite filter_cons. case_decide as Hd.
  - by rewrite list_len_cons, Hd.
  - by destruct (ir_class r).
Qed.

Lemma class_guard_fatal s : class_guard s Fatal = Ok tt -> is_fatal_state s = FatalAvailable.
Proof. cbn. destruct (negb _); [done|]. by destruct (is_fatal_state s). Qed.

(** [reserve] keeps the invariant, with the new reservation live. *)
Lemma reserve_ok i live size class i' r :
  state_ok (ingress_state i) live -> 0 <= size_canonical_bytes size ->
  reserve i size class = (i', r) ->
  state_ok (ingress_state i')
    (match r with Ok res => res :: live | Err _ => live end) /\
  mutex_poisoned (mi_state i') = mutex_poisoned (mi_state i) /\
  match r with Ok res => res = mkIngressReservation size class /\ size_event_count size = 1 | Err _ => True end.
Proof.
  intros Hok Hsz. unfold reserve.
  destruct (size_event_count size =? 1) eqn:Hone; cbn [negb]; [|by intros [= <- <-]].
  apply Z.eqb_eq in Hone.
  destruct (mutex_poisoned (mi_state i)) eqn:Hp; [by intros [= <- <-]|].
  destruct (class_guard _ class) as [[]|e] eqn:Eg; [|by intros [= <- <-]].
  destruct (current_exact _ _ Hok) as [Ee Eb].
  pose proof (live_bytes_nonneg _ (so_live _ _ Hok)) as Nl.
  pose proof (tracked_bytes_nonneg _ (so_tracked _ _ Hok)) as Nt.
  pose proof (list_len_nonneg live) as Nn. pose proof (list_len_nonneg (is_outstanding (ingress_state i))) as No.
  rewrite Ee, Eb, !exceeds_checked by
    (unfold MAX_UNCOMMITTED_EVENTS, MAX_UNCOMMITTED_CANONICAL_BYTES; cbn; lia).
  destruct (_ || _) eqn:Eex.
  - case_bool_decide; [by intros [= <- <-]|]. intros [= <- <-].
    split; [by apply latch_failure_ok|]. split; [|done].
    unfold latch_failure. by destruct (is_failure _).
  - set (s1 := if bool_decide (class = Cue) && _ then _ else _).
    assert (state_ok s1 live /\ is_fatal_state s1 = is_fatal_state (ingress_state i) /\
      is_outstanding s1 = is_outstanding (ingress_state i)) as (Hok1 & Hf1 & Ho1).
    { subst s1. case_match; [|done]. split; [by apply state_ok_set_cue|done]. }
    intros [= <- <-]. split; [|done].
    destruct Hok1 as [H1 H2 H3 H4 H5 H6 H7 H8 H9 H10 H11].
    cut (forall fatal, fatal = (if bool_decide (class = Fatal) then FatalReserved else is_fatal_state s1) ->
      state_ok (set_fatal_state fatal (set_reserved (is_reserved_events s1 + size_event_count size)
        (is_reserved_canonical_bytes s1 + size_canonical_bytes size) s1))
        (mkIngressReservation size class :: live)).
    { intros Hcut. specialize (Hcut _ eq_refl). cbn [guarded mi_state set_ingress with_guarded].
      by case_bool_decide; [|destruct s1]. }
    intros fatal ->. constructor; cbn -[live_fatal]; rewrite ?Ho1 in *; rewrite ?list_len_cons;
      try done; try lia.
    + by constructor.
    + rewrite list_len_fatal_cons. cbn [ir_class]. destruct class; [done..|].
      apply class_guard_fatal in Eg. rewrite Hf1, Eg in H9. rewrite H9. done.
Qed.

(** Releasing a live reservation. *)
Lemma release_reserved_ok s res live :
  state_ok s (res :: live) ->
  release_reserved s (ir_size res) =
  set_reserved (list_len live) (live_bytes live) s.
Proof.
  intros [H1 H2 _ H4 H5 H6 H7 _ _ _ _]. inversion H4 as [|? ? [Hone Hb] Hrest]; subst.
  unfold release_reserved. rewrite H1, H2, Hone, list_len_cons. cbn [live_bytes].
  pose proof (live_bytes_nonneg _ Hrest) as Nl. pose proof (list_len_nonneg live) as Nn.
  unfold saturating_sub. f_equal; unfold_int.
  - rewrite list_len_cons in H6. pose proof (list_len_nonneg (is_outstanding s)) as No.
    unfold MAX_UNCOMMITTED_EVENTS in *. lia.
  - cbn [live_bytes] in H7. unfold MAX_UNCOMMITTED_CANONICAL_BYTES in *.
    pose proof (tracked_bytes_nonneg _ H5) as Nt. lia.
Qed.

(** Committing or dropping a live reservation keeps the invariant. *)
Lemma drop_ok i res live :
  state_ok (ingress_state i) (res :: live) -> state_ok (ingress_state (ingress_drop i res)) live.
Proof.
  intros Hok. unfold ingress_drop. cbn zeta. rewrite (release_reserved_ok _ _ _ Hok).
  destruct Hok as [H1 H2 H3 H4 H5 H6 H7 H8 H9 H10 H11].
  inversion H4 as [|? ? [Hone Hb] Hrest]; subst.
  rewrite list_len_cons in H6. cbn [live_bytes] in H7. rewrite list_len_fatal_cons in H9.
  pose proof (list_len_nonneg (live_fatal live)) as Nf.
  cbn [guarded mi_state set_ingress with_guarded].
  destruct (decide (ir_class res = Fatal)) as [Hc|Hc].
  2:{ rewrite (bool_decide_eq_false_2 _ Hc). cbn [andb].
      constructor; cbn -[live_fatal]; try done; try lia. destruct (ir_class res); [lia..|done]. }
  rewrite (bool_decide_eq_true_2 _ Hc), Hc in *. cbn [andb]. case_bool_decide as Hf; cbn in Hf.
  - constructor; cbn -[live_fatal]; try done; try lia. rewrite Hf in H9. lia.
  - exfalso. destruct (is_fatal_state (ingress_state i)); [lia|done|lia].
Qed.

Lemma commit_ok i res live event :
  state_ok (ingress_state i) (res :: live) ->
  state_ok (ingress_state (ingress_commit i res event)) live.
Proof.
  intros Hok. unfold ingress_commit. cbn zeta.
  assert (forall i1, (exists sealed authorized f,
      ingress_state i1 = set_sealed sealed authorized f
        (release_reserved (ingress_state i) (ir_size res)) /\
      (is_Some f -> sealed = true /\ authorized = true)) ->
    state_ok (ingress_state (set_ingress i1 (track (ingress_state i1) res event))) live) as Hi.
  2:{ apply Hi. case_match.
      - unfold latch_failure. destruct (is_failure _) as [f|]; by eexists true, true, _.
      - exists (is_normal_ingress_sealed (ingress_state i)),
          (is_fatal_admission_authorized (ingress_state i)), (is_failure (ingress_state i)).
        split; [done|]. apply Hok. }
  intros i1 (sealed & authorized & f & -> & Hf). rewrite (release_reserved_ok _ _ _ Hok).
  destruct Hok as [H1 H2 H3 H4 H5 H6 H7 H8 H9 H10 H11].
  inversion H4 as [|? ? [Hone Hb] Hrest]; subst.
  rewrite list_len_cons in H6. cbn [live_bytes] in H7. rewrite list_len_fatal_cons in H9.
  pose proof (list_len_nonneg (live_fatal live)) as Nf. pose proof (live_bytes_nonneg _ Hrest) as Nl.
  pose proof (tracked_bytes_nonneg _ H5) as Nt.
  cut (forall fatal, match fatal with FatalReserved => 1 | _ => 0 end = list_len (live_fatal live) ->
    state_ok (set_fatal_state fatal (set_outstanding
      (is_outstanding (ingress_state i) ++ [mkTrackedEvent event (size_canonical_bytes (ir_size res)) Queued])
      (saturating_add Usize (is_outstanding_canonical_bytes (ingress_state i)) (size_canonical_bytes (ir_size res)))
      (set_committed (is_committed_sequence (ingress_state i))
        (Some (match is_run_id (ingress_state i) with Some run_id => run_id | None => ei_run_id (identity event) end))
        (set_sealed sealed authorized f (set_reserved (list_len live) (live_bytes live) (ingress_state i)))))) live).
  { intros Hcut. unfold track. cbn [guarded mi_state set_ingress with_guarded].
    case_bool_decide as Hc.
    - rewrite Hc in H9. apply Hcut. destruct (is_fatal_state (ingress_state i)); lia.
    - apply (Hcut (is_fatal_state (ingress_state i))). destruct (ir_class res); [lia..|done]. }
  intros fatal Hfatal. constructor; cbn -[live_fatal]; try done.
  - rewrite H3, tracked_bytes_app. cbn. unfold saturating_add, MAX_UNCOMMITTED_CANONICAL_BYTES in *.
    unfold_int. lia.
  - apply Forall_app. split; [done|]. by constructor.
  - rewrite list_len_app, list_len_cons, list_len_nil. lia.
  - rewrite tracked_bytes_app. cbn. lia.
  - destruct H8 as (fl & q & -> & Hfl & Hq). exists fl, (q ++ [mkTrackedEvent event (size_canonical_bytes (ir_size res)) Queued]).
    rewrite (assoc_L (++)). split; [done|]. split; [done|]. apply Forall_app. split; [done|].
    by constructor.
Qed.

(** ** The writer's operations *)

(** Dequeuing marks the first queued event and changes nothing else. *)
Lemma dequeue_first_spec l :
  match dequeue_first l with
  | None => Forall (fun t => te_phase t = InFlight) l
  | Some (event, l') => exists flight t rest,
      Forall (fun t => te_phase t = InFlight) flight /\ te_phase t = Queued /\ te_event t = event /\
      l = flight ++ t :: rest /\
      l' = flight ++ mkTrackedEvent (te_event t) (te_canonical_bytes t) InFlight :: rest
  end.
Proof.
  induction l as [|t l IH]; cbn; [by constructor|].
  destruct (te_phase t) eqn:Ep.
  - by exists [], t, l.
  - destruct (dequeue_first l) as [[event l']|].
    + destruct IH as (flight & t' & rest & Hf & Hq & He & -> & ->).
      exists (t :: flight), t', rest. split; [by constructor|done].
    + by constructor.
Qed.

Lemma phases_dequeue flight t rest t' :
  Forall (fun t => te_phase t = InFlight) flight -> te_phase t = Queued -> te_phase t' = InFlight ->
  phases_ok (flight ++ t :: rest) -> phases_ok (flight ++ t' :: rest).
Proof.
  intros Hf Hq Ht' (fl & q & Heq & Hfl & Hqs).
  assert (Forall (fun t => te_phase t = Queued) rest) as Hrest.
  { assert (length fl <= length flight)%nat as Hle.
    { destruct (Nat.le_gt_cases (length fl) (length flight)) as [|Hgt]; [done|exfalso].
      assert (fl !! length flight = Some t) as Hl.
      { rewrite <-(lookup_app_l fl q) by lia. rewrite <-Heq. by rewrite list_lookup_middle. }
      eapply Forall_lookup_1 in Hl; [|exact Hfl]. cbn in Hl. congruence. }
    assert (q = drop (length fl) (flight ++ t :: rest)) as Hqd by (by rewrite Heq, drop_app_length).
    rewrite drop_app_le in Hqd by lia. rewrite Hqd in Hqs.
    apply Forall_app in Hqs as [_ Hqs]. by inversion Hqs. }
  exists (flight ++ [t']), rest. rewrite <-(assoc_L (++)). split; [done|]. split; [|done].
  apply Forall_app. split; [done|]. by constructor.
Qed.

Lemma dequeue_ok i live i' r :
  state_ok (ingress_state i) live -> try_dequeue i = (i', r) -> state_ok (ingress_state i') live.
Proof.
  intros Hok. unfold try_dequeue, lock. destruct (mutex_poisoned _); [by intros [= <- _]|].
  pose proof (dequeue_first_spec (is_outstanding (ingress_state i))) as Hd.
  destruct (dequeue_first _) as [[event l']|]; [|by intros [= <- _]]. intros [= <- _].
  destruct Hd as (flight & t & rest & Hf & Hq & He & Ho & ->).
  destruct Hok as [H1 H2 H3 H4 H5 H6 H7 H8 H9 H10 H11]. rewrite Ho in *.
  constructor; cbn -[live_fatal]; try done.
  - rewrite H3, !tracked_bytes_app. done.
  - apply Forall_app in H5 as [H5 H5']. apply Forall_app. split; [done|].
    inversion H5'; subst. by constructor.
  - rewrite list_len_app, list_len_cons in *. lia.
  - rewrite tracked_bytes_app in *. cbn in *. lia.
  - by eapply phases_dequeue.
Qed.

(** Popping a committed prefix. *)
Lemma phases_drop n l : phases_ok l -> phases_ok (drop n l).
Proof.
  intros (fl & q & -> & Hf & Hq). exists (drop n fl), (drop (n - length fl) q).
  split; [by rewrite drop_app|]. split; by apply Forall_drop.
Qed.

Lemma tracked_bytes_take_drop n l :
  tracked_bytes (drop n l) = tracked_bytes l - tracked_bytes (take n l).
Proof. rewrite <-(take_drop n l) at 2. rewrite tracked_bytes_app. lia. Qed.

Lemma mark_committed_ok i live notification i' r :
  state_ok (ingress_state i) live -> mark_committed i notification = (i', r) ->
  state_ok (ingress_state i') live.
Proof.
  intros Hok. unfold mark_committed, lock. destruct (mutex_poisoned _); [by intros [= <- _]|].
  destruct (validate_commit _ _) as [[]|e]; intros [= <- _]; [|by apply latch_failure_ok].
  destruct Hok as [H1 H2 H3 H4 H5 H6 H7 H8 H9 H10 H11].
  set (n := Z.to_nat _). pose proof (Forall_take _ n _ H5) as Hpre.
  apply tracked_bytes_nonneg in Hpre.
  constructor; cbn -[live_fatal]; try done.
  - rewrite H3, tracked_bytes_take_drop. done.
  - by apply Forall_drop.
  - unfold list_len in *. rewrite length_drop. lia.
  - rewrite tracked_bytes_take_drop. lia.
  - by apply phases_drop.
Qed.

Lemma begin_cue_ok i live i' r :
  state_ok (ingress_state i) live -> ingress_begin_cue_capture i = (i', r) ->
  state_ok (ingress_state i') live.
Proof.
  intros Hok. unfold ingress_begin_cue_capture, lock. destruct (mutex_poisoned _); [by intros [= <- _]|].
  destruct (is_normal_ingress_sealed _); [by intros [= <- _]|].
  destruct (is_cue_capture_paused _).
  - destruct (_ && _); intros [= <- _]; by apply state_ok_set_cue.
  - destruct (_ || _); intros [= <- _]; [by apply state_ok_set_cue|done].
Qed.

Lemma finish_cue_ok i live i' r :
  state_ok (ingress_state i) live -> ingress_finish_cue_capture i = (i', r) ->
  state_ok (ingress_state i') live.
Proof.
  intros Hok. unfold ingress_finish_cue_capture, lock.
  destruct (mutex_poisoned _); intros [= <- _]; [done|]. by apply state_ok_set_cue.
Qed.

Lemma seal_ok i live i' r :
  state_ok (ingress_state i) live -> seal_normal_ingress i = (i', r) ->
  state_ok (ingress_state i') live.
Proof.
  intros Hok. unfold seal_normal_ingress, lock. destruct (mutex_poisoned _); intros [= <- _]; [done|].
  apply state_ok_set_sealed; [done|]. intros Hf. split; [done|]. by apply (so_failure _ _ Hok).
Qed.

Lemma seal_external_ok i live i' r :
  state_ok (ingress_state i) live -> seal_for_external_core_failure i = (i', r) ->
  state_ok (ingress_state i') live.
Proof.
  intros Hok. unfold seal_for_external_core_failure, lock.
  destruct (mutex_poisoned _); intros [= <- _]; [done|]. by apply state_ok_set_sealed.
Qed.

(** ** The shared system *)

Record IngressSys := mkIngressSys {
  sys_ingress : MandatoryIngress;
  sys_live : list IngressReservation;
  sys_suppressed : Z;
  sys_reported : Z;
}.

Definition sys_init : IngressSys := mkIngressSys MandatoryIngress_new [] 0 0.

(** Cues a decision suppressed, and cues it reported as suppressed. *)
Definition decision_suppressed (r : result CueCaptureDecision IngressStateError) : Z :=
  match r with Ok Suppress => 1 | _ => 0 end.

Definition decision_reported (r : result CueCaptureDecision IngressStateError) : Z :=
  match r with Ok (Resume n) => n | _ => 0 end.

(** One atomic operation.  Sizes and counts are [usize] values. *)
Inductive ingress_step : IngressSys -> IngressSys -> Prop :=
| step_reserve i live a b size class i' r :
    0 <= size_canonical_bytes size -> reserve i size class = (i', r) ->
    ingress_step (mkIngressSys i live a b)
      (mkIngressSys i' (match r with Ok res => res :: live | Err _ => live end) a b)
| step_commit i live live' a b res event :
    Permutation live (res :: live') ->
    ingress_step (mkIngressSys i live a b) (mkIngressSys (ingress_commit i res event) live' a b)
| step_drop i live live' a b res :
    Permutation live (res :: live') ->
    ingress_step (mkIngressSys i live a b) (mkIngressSys (ingress_drop i res) live' a b)
| step_dequeue i live a b i' r :
    try_dequeue i = (i', r) ->
    ingress_step (mkIngressSys i live a b) (mkIngressSys i' live a b)
| step_mark_committed i live a b notification i' r :
    mark_committed i notification = (i', r) ->
    ingress_step (mkIngressSys i live a b) (mkIngressSys i' live a b)
| step_begin_cue i live a b i' r :
    ingress_begin_cue_capture i = (i', r) ->
    ingress_step (mkIngressSys i live a b)
      (mkIngressSys i' live (a + decision_suppressed r) (b + decision_reported r))
| step_finish_cue i live a b i' r :
    ingress_finish_cue_capture i = (i', r) ->
    ingress_step (mkIngressSys i live a b)
      (mkIngressSys i' live a (b + match r with Ok (Some n) => n | _ => 0 end))
| step_seal i live a b i' r :
    seal_normal_ingress i = (i', r) ->
    ingress_step (mkIngressSys i live a b) (mkIngressSys i' live a b)
| step_seal_external i live a b i' r :
    seal_for_external_core_failure i = (i', r) ->
    ingress_step (mkIngressSys i live a b) (mkIngressSys i' live a b)
| step_receive_failure i live a b i' r :
    failure_try_recv i = (i', r) ->
    ingress_step (mkIngressSys i live a b) (mkIngressSys i' live a b)
| step_poison i live a b :
    ingress_step (mkIngressSys i live a b)
      (mkIngressSys (mkMandatoryIngress (mkMutex true (ingress_state i)) (mi_failure_channel i))
         live a b).

Abbreviation ingress_reachable := (clos_refl_trans_1n _ ingress_step sys_init).

Definition sys_ok (sys : IngressSys) : Prop :=
  state_ok (ingress_state (sys_ingress sys)) (sys_live sys).

Lemma step_ok sys sys' : sys_ok sys -> ingress_step sys sys' -> sys_ok sys'.
Proof.
  unfold sys_ok. intros Hok Hstep.
  destruct Hstep as [i live a b size class i' r Hsz Hr|i live live' a b res event Hperm
    |i live live' a b res Hperm|i live a b i' r Hd|i live a b n i' r Hm|i live a b i' r Hc
    |i live a b i' r Hc|i live a b i' r Hs|i live a b i' r Hs|i live a b i' r Hr|i live a b];
    cbn [sys_ingress sys_live] in *.
  - by eapply reserve_ok.
  - rewrite Hperm in Hok. by apply commit_ok.
  - rewrite Hperm in Hok. by apply drop_ok.
  - by eapply dequeue_ok.
  - by eapply mark_committed_ok.
  - by eapply begin_cue_ok.
  - by eapply finish_cue_ok.
  - by eapply seal_ok.
  - by eapply seal_external_ok.
  - by injection Hr as <- _.
  - done.
Qed.

Lemma steps_invariant (P : IngressSys -> Prop) sys sys' :
  (forall x y, P x -> ingress_step x y -> P y) -> P sys ->
  clos_refl_trans_1n _ ingress_step sys sys' -> P sys'.
Proof. intros Hstep HP Hs. induction Hs; eauto. Qed.

Lemma reachable_ok sys : ingress_reachable sys -> sys_ok sys.
Proof. apply steps_invariant; [apply step_ok|apply state_ok_default]. Qed.

(** ** Sealing, failures and the fatal slot *)

(** What never reverts: the seal, a latched failure and an admitted fatal event. *)
Definition no_revert (s s' : IngressState) : Prop :=
  (is_normal_ingress_sealed s = true -> is_normal_ingress_sealed s' = true) /\
  (forall f, is_failure s = Some f -> is_failure s' = Some f) /\
  (is_fatal_state s = FatalAdmitted -> is_fatal_state s' = FatalAdmitted).

#[export] Instance no_revert_preorder : PreOrder no_revert.
Proof.
  split; [by intros s|]. intros s1 s2 s3 (A1 & B1 & C1) (A2 & B2 & C2).
  split; [|split]; auto.
Qed.

Lemma latch_no_revert i s f : no_revert s (ingress_state (latch_failure i s f)).
Proof. unfold latch_failure. destruct (is_failure s) eqn:E; repeat split; cbn; congruence. Qed.

Lemma track_no_revert s res event : no_revert s (track s res event).
Proof. unfold track. case_bool_decide; (split; [done|split; [done|]]); by cbn. Qed.

Lemma step_no_revert sys sys' :
  sys_ok sys -> ingress_step sys sys' ->
  no_revert (ingress_state (sys_ingress sys)) (ingress_state (sys_ingress sys')).
Proof.
  unfold sys_ok. intros Hok Hstep.
  destruct Hstep as [i live a b size class i' r Hsz Hr|i live live' a b res event Hperm
    |i live live' a b res Hperm|i live a b i' r Hd|i live a b n i' r Hm|i live a b i' r Hc
    |i live a b i' r Hc|i live a b i' r Hs|i live a b i' r Hs|i live a b i' r Hr|i live a b];
    cbn [sys_ingress sys_live] in *.
  - unfold reserve in Hr. destruct (negb _); [by injection Hr as <- _|].
    destruct (mutex_poisoned _); [by injection Hr as <- _|].
    destruct (class_guard _ class) as [[]|] eqn:Eg; [|by injection Hr as <- _].
    destruct (exceeds _ _ || _).
    + case_bool_decide; injection Hr as <- _; [done|apply latch_no_revert].
    + injection Hr as <- _. cbn. destruct class.
      { change (bool_decide (Normal = Cue)) with false. by change (bool_decide (Normal = Fatal)) with false. }
      { change (bool_decide (Cue = Cue)) with true. change (bool_decide (Cue = Fatal)) with false.
        cbn [andb]. by destruct (_ || _). }
      apply class_guard_fatal in Eg. change (bool_decide (Fatal = Cue)) with false.
      change (bool_decide (Fatal = Fatal)) with true. split; [done|]. split; [done|].
      cbn. congruence.
  - unfold ingress_commit. cbn zeta.
    transitivity (release_reserved (ingress_state i) (ir_size res)); [by repeat split|].
    destruct (commit_mismatch _ _ _); [|apply track_no_revert].
    etransitivity; [apply (latch_no_revert i _ commit_accounting_failed)|apply track_no_revert].
  - unfold ingress_drop. cbn zeta. destruct (_ && _) eqn:Eb; [|done].
    apply andb_prop in Eb as [_ Hf%bool_decide_eq_true]. cbn in Hf.
    repeat split; cbn; [done..|congruence].
  - unfold try_dequeue, lock in Hd. destruct (mutex_poisoned _); [by injection Hd as <- _|].
    destruct (dequeue_first _) as [[event l']|]; by injection Hd as <- _.
  - unfold mark_committed, lock in Hm. destruct (mutex_poisoned _); [by injection Hm as <- _|].
    destruct (validate_commit _ _); injection Hm as <- _; [done|apply latch_no_revert].
  - unfold ingress_begin_cue_capture, lock in Hc.
    destruct (mutex_poisoned _); [by injection Hc as <- _|].
    destruct (is_normal_ingress_sealed _) eqn:Es; [by injection Hc as <- _|].
    destruct (is_cue_capture_paused _).
    + by destruct (_ && _); injection Hc as <- _.
    + by destruct (_ || _); injection Hc as <- _.
  - unfold ingress_finish_cue_capture, lock in Hc. by destruct (mutex_poisoned _); injection Hc as <- _.
  - unfold seal_normal_ingress, lock in Hs. by destruct (mutex_poisoned _); injection Hs as <- _.
  - unfold seal_for_external_core_failure, lock in Hs.
    by destruct (mutex_poisoned _); injection Hs as <- _.
  - by injection Hr as <- _.
  - done.
Qed.

Lemma steps_no_revert sys sys' :
  sys_ok sys -> clos_refl_trans_1n _ ingress_step sys sys' ->
  sys_ok sys' /\ no_revert (ingress_state (sys_ingress sys)) (ingress_state (sys_ingress sys')).
Proof.
  intros Hok Hs. induction Hs as [|x y z Hxy Hs IH]; [by split|].
  destruct IH as [Hz Hyz]; [by eapply step_ok|]. split; [done|].
  etransitivity; [by apply step_no_revert|done].
Qed.

(** ** Cue accounting *)

Definition cue_ok (sys : IngressSys) : Prop :=
  sys_ok sys /\
  0 <= is_suppressed_cues (ingress_state (sys_ingress sys)) <= int_max U64 /\
  (sys_suppressed sys <= int_max U64 ->
   sys_suppressed sys = sys_reported sys + is_suppressed_cues (ingress_state (sys_ingress sys))) /\
  0 <= sys_reported sys.

Lemma latch_suppressed i s f :
  is_suppressed_cues (ingress_state (latch_failure i s f)) = is_suppressed_cues s.
Proof. unfold latch_failure. by destruct (is_failure s). Qed.

Lemma reserve_suppressed i size class :
  is_suppressed_cues (ingress_state (reserve i size class).1) = is_suppressed_cues (ingress_state i).
Proof.
  unfold reserve. destruct (negb _); [done|]. destruct (mutex_poisoned _); [done|].
  destruct (class_guard _ _); [|done]. destruct (exceeds _ _ || _).
  - case_bool_decide; [done|]. apply latch_suppressed.
  - cbn. destruct (bool_decide (class = Fatal)); destruct (bool_decide (class = Cue) && _); done.
Qed.

Lemma mark_committed_suppressed i n :
  is_suppressed_cues (ingress_state (mark_committed i n).1) = is_suppressed_cues (ingress_state i).
Proof.
  unfold mark_committed, lock. destruct (mutex_poisoned _); [done|].
  destruct (validate_commit _ _); [done|]. apply latch_suppressed.
Qed.

Lemma step_cue_ok sys sys' : cue_ok sys -> ingress_step sys sys' -> cue_ok sys'.
Proof.
  intros (Hok & Hr & Heq & Hn) Hstep. split; [by eapply step_ok|].
  assert (forall x y, is_suppressed_cues (ingress_state x) = is_suppressed_cues (ingress_state y) ->
    sys_ingress sys = x -> sys_ingress sys' = y -> sys_suppressed sys' = sys_suppressed sys ->
    sys_reported sys' = sys_reported sys ->
    0 <= is_suppressed_cues (ingress_state (sys_ingress sys')) <= int_max U64 /\
    (sys_suppressed sys' <= int_max U64 -> sys_suppressed sys' = sys_reported sys' +
       is_suppressed_cues (ingress_state (sys_ingress sys'))) /\ 0 <= sys_reported sys') as Hsame.
  { intros x y E Ex Ey E1 E2. rewrite Ey, <-E, <-Ex, E1, E2. done. }
  destruct Hstep as [i live a b size class i' r Hsz Hres|i live live' a b res event Hperm
    |i live live' a b res Hperm|i live a b i' r Hd|i live a b n i' r Hm|i live a b i' r Hc
    |i live a b i' r Hc|i live a b i' r Hs|i live a b i' r Hs|i live a b i' r Hrc|i live a b];
    cbn [sys_ingress sys_suppressed sys_reported] in *.
  - apply (Hsame i i'); try done. rewrite <-(reserve_suppressed i size class). by rewrite Hres.
  - apply (Hsame i (ingress_commit i res event)); try done. unfold ingress_commit, track. cbn zeta.
    destruct (bool_decide (ir_class res = Fatal)); destruct (commit_mismatch _ _ _);
      cbn; rewrite ?latch_suppressed; done.
  - apply (Hsame i (ingress_drop i res)); try done. unfold ingress_drop. by case_match.
  - apply (Hsame i i'); try done. unfold try_dequeue, lock in Hd.
    destruct (mutex_poisoned _); [by injection Hd as <- _|].
    destruct (dequeue_first _) as [[event l']|]; by injection Hd as <- _.
  - apply (Hsame i i'); try done. rewrite <-(mark_committed_suppressed i n). by rewrite Hm.
  - pose proof (so_cue _ _ Hok) as Hcue. cbn [sys_ingress] in Hcue.
    unfold ingress_begin_cue_capture, lock in Hc. destruct (mutex_poisoned _).
    { injection Hc as <- <-. cbn. rewrite !Z.add_0_r. auto. }
    destruct (is_normal_ingress_sealed _).
    { injection Hc as <- <-. cbn. rewrite !Z.add_0_r. auto. }
    destruct (is_cue_capture_paused _).
    + destruct (_ && _); injection Hc as <- <-; cbn -[int_max].
      * destruct (is_suppressed_cues _ =? 0) eqn:E0; cbn -[int_max]; lia.
      * unfold saturating_add. unfold_int. lia.
    + rewrite (Hcue eq_refl) in *.
      destruct (_ || _); injection Hc as <- <-; cbn -[int_max].
      * unfold_int. lia.
      * rewrite (Hcue eq_refl). rewrite !Z.add_0_r in *. split; [unfold_int; lia|]. split; [lia|done].
  - unfold ingress_finish_cue_capture, lock in Hc. destruct (mutex_poisoned _); injection Hc as <- <-.
    + rewrite Z.add_0_r. auto.
    + cbn -[int_max]. destruct (0 <? _) eqn:E0; unfold_int; lia.
  - apply (Hsame i i'); try done. unfold seal_normal_ingress, lock in Hs.
    by destruct (mutex_poisoned _); injection Hs as <- _.
  - apply (Hsame i i'); try done. unfold seal_for_external_core_failure, lock in Hs.
    by destruct (mutex_poisoned _); injection Hs as <- _.
  - apply (Hsame i i'); try done. by injection Hrc as <- _.
  - apply (Hsame i (mkMandatoryIngress (mkMutex true (ingress_state i)) (mi_failure_channel i))); done.
Qed.

(** ** Properties *)

(** C13: the ingress never holds more than its budget.  In every reachable state
    of any number of reservations and of the writer working concurrently, the
    reserved and outstanding events together are at most 32768 and their
    canonical bytes at most 64 MiB, the code's counters are the exact totals,
    the in-flight events precede the queued ones, and [status] reports these
    numbers. *)
Theorem ingress_budget sys :
  ingress_reachable sys ->
  let s := ingress_state (sys_ingress sys) in
  let live := sys_live sys in
  list_len live + list_len (is_outstanding s) <= MAX_UNCOMMITTED_EVENTS /\
  live_bytes live + tracked_bytes (is_outstanding s) <= MAX_UNCOMMITTED_CANONICAL_BYTES /\
  is_reserved_events s = list_len live /\ is_reserved_canonical_bytes s = live_bytes live /\
  is_outstanding_canonical_bytes s = tracked_bytes (is_outstanding s) /\
  exists flight queue, is_outstanding s = flight ++ queue /\
    Forall (fun t => te_phase t = InFlight) flight /\ Forall (fun t => te_phase t = Queued) queue /\
    ist_in_flight_events (from_state s) = list_len flight /\
    ist_queued_events (from_state s) = list_len queue.
Proof.
  intros Hr. destruct (reachable_ok _ Hr) as [H1 H2 H3 H4 H5 H6 H7 (fl & q & Ho & Hf & Hq) _ _ _].
  cbn zeta. repeat (split; [done|]). exists fl, q. rewrite Ho. repeat (split; [done|]).
  unfold from_state. cbn [ist_in_flight_events ist_queued_events]. rewrite Ho, filter_app.
  rewrite (filter_none _ fl), (filter_all _ q) by
    (first [done | eapply Forall_weaken; [exact Hf|]; cbn; congruence]).
  cbn [app]. rewrite list_len_app. lia.
Qed.

(** In every reachable state [reserve] grants one event exactly when the
    class may be admitted (normal and cue events while the ingress is not
    sealed; a fatal event once, after a core failure) and the exact totals with
    the new event stay within both limits; no event is refused while it fits. *)
Theorem ingress_reserve_exact sys size class :
  ingress_reachable sys -> size_event_count size = 1 -> 0 <= size_canonical_bytes size ->
  mutex_poisoned (mi_state (sys_ingress sys)) = false ->
  let s := ingress_state (sys_ingress sys) in
  let live := sys_live sys in
  is_ok (reserve (sys_ingress sys) size class).2 = true <->
  match class with
  | Fatal => is_fatal_admission_authorized s = true /\ is_fatal_state s = FatalAvailable
  | _ => is_normal_ingress_sealed s = false
  end /\
  list_len live + list_len (is_outstanding s) + 1 <= MAX_UNCOMMITTED_EVENTS /\
  live_bytes live + tracked_bytes (is_outstanding s) + size_canonical_bytes size
    <= MAX_UNCOMMITTED_CANONICAL_BYTES.
Proof.
  intros Hr Hone Hsz Hp. cbn zeta.
  rewrite (reserve_decides _ _ _ _ (reachable_ok _ Hr) Hsz Hone Hp), andb_true_iff, bool_decide_eq_true.
  apply and_iff_compat_r. unfold class_guard.
  destruct class; [by destruct (is_normal_ingress_sealed _)..|].
  destruct (is_fatal_admission_authorized _); cbn; [|naive_solver].
  destruct (is_fatal_state _); naive_solver.
Qed.

(** A latched failure is final.  Once a core failure has been recorded it
    is never replaced, and from then on no normal or cue event is admitted,
    whatever the two sides do. *)
Theorem latched_failure_final sys sys' f size class :
  ingress_reachable sys -> is_failure (ingress_state (sys_ingress sys)) = Some f ->
  clos_refl_trans_1n _ ingress_step sys sys' -> class <> Fatal ->
  is_failure (ingress_state (sys_ingress sys')) = Some f /\
  is_ok (reserve (sys_ingress sys') size class).2 = false.
Proof.
  intros Hr Hf Hs Hc. pose proof (reachable_ok _ Hr) as Hok.
  destruct (steps_no_revert _ _ Hok Hs) as [Hok' (_ & Hfail & _)].
  specialize (Hfail _ Hf). split; [done|].
  destruct (so_failure _ _ Hok' ltac:(by eexists)) as [Hsealed _].
  unfold reserve. destruct (negb _); [done|]. destruct (mutex_poisoned _); [done|].
  unfold class_guard. rewrite Hsealed. by destruct class.
Qed.

(** At most one fatal event is admitted.  Once one has been committed, no
    fatal reservation is granted again; and while one is reserved, no second
    one is. *)
Theorem fatal_admitted_once sys sys' size :
  ingress_reachable sys -> clos_refl_trans_1n _ ingress_step sys sys' ->
  (is_fatal_state (ingress_state (sys_ingress sys)) = FatalAdmitted ->
   is_ok (reserve (sys_ingress sys') size Fatal).2 = false) /\
  (Exists (fun r => ir_class r = Fatal) (sys_live sys) ->
   is_ok (reserve (sys_ingress sys) size Fatal).2 = false) /\
  list_len (live_fatal (sys_live sys)) <= 1.
Proof.
  intros Hr Hs. pose proof (reachable_ok _ Hr) as Hok.
  assert (forall i, is_fatal_state (ingress_state i) <> FatalAvailable ->
    is_ok (reserve i size Fatal).2 = false) as Hrefuse.
  { intros i Hne. unfold reserve. destruct (negb _); [done|]. destruct (mutex_poisoned _); [done|].
    unfold class_guard. destruct (negb _); [done|]. by destruct (is_fatal_state _). }
  pose proof (so_fatal _ _ Hok) as Hlen.
  split; [|split].
  - intros Hf. destruct (steps_no_revert _ _ Hok Hs) as [_ (_ & _ & Ha)].
    apply Hrefuse. rewrite (Ha Hf). done.
  - intros (r & Hin & Hc)%Exists_exists. apply Hrefuse. intros Hav. rewrite Hav in Hlen.
    assert (r ∈ live_fatal (sys_live sys)) as Hr' by (apply list_elem_of_filter; done).
    destruct (live_fatal (sys_live sys)) as [|x l] eqn:El; [by apply not_elem_of_nil in Hr'|].
    rewrite list_len_cons in Hlen. pose proof (list_len_nonneg l). lia.
  - rewrite Hlen. by destruct (is_fatal_state _).
Qed.

(** No suppressed cue goes unreported.  In every reachable state the number
    of cues that were suppressed is the number reported by [Resume] and
    [finish_cue_capture] so far plus the number still pending in the state (as
    long as it fits the [u64] counter). *)
Theorem suppressed_cues_accounted sys :
  ingress_reachable sys -> sys_suppressed sys <= int_max U64 ->
  sys_suppressed sys = sys_reported sys + is_suppressed_cues (ingress_state (sys_ingress sys)).
Proof.
  intros Hr. apply (steps_invariant cue_ok sys_init sys step_cue_ok); [|done].
  split; [apply state_ok_default|]. cbn. lia.
Qed.

(** *** Witnesses *)

Definition sample_size : AdmissionSize := one_event 10.

(** A normal reservation is taken, then one that does not fit: the ingress
    seals itself. *)
Definition sample_sys1 : IngressSys :=
  mkIngressSys (reserve MandatoryIngress_new sample_size Normal).1
    [mkIngressReservation sample_size Normal] 0 0.

Definition sample_sys2 : IngressSys :=
  mkIngressSys
    (reserve (sys_ingress sample_sys1) (one_event MAX_UNCOMMITTED_CANONICAL_BYTES) Normal).1
    [mkIngressReservation sample_size Normal] 0 0.

(** Then a cue decision; a fatal event is reserved, and committed. *)
Definition sample_sys3 : IngressSys :=
  mkIngressSys (reserve (sys_ingress sample_sys2) sample_size Fatal).1
    [mkIngressReservation sample_size Fatal; mkIngressReservation sample_size Normal] 0 0.

Lemma sample_step1 : ingress_step sys_init sample_sys1.
Proof.
  apply (step_reserve MandatoryIngress_new [] 0 0 sample_size Normal _
    (Ok (mkIngressReservation sample_size Normal))).
  - by vm_compute.
  - apply pair_eq. vm_compute. reflexivity.
Qed.

Lemma sample_step2 : ingress_step sample_sys1 sample_sys2.
Proof.
  apply (step_reserve _ _ 0 0 (one_event MAX_UNCOMMITTED_CANONICAL_BYTES) Normal _
    (Err (IngressBudgetExhausted
      (budget_exhausted 1 10 (one_event MAX_UNCOMMITTED_CANONICAL_BYTES) false true)))).
  - by vm_compute.
  - apply pair_eq. vm_compute. reflexivity.
Qed.

Lemma sample_step3 : ingress_step sample_sys2 sample_sys3.
Proof.
  apply (step_reserve _ _ 0 0 sample_size Fatal _ (Ok (mkIngressReservation sample_size Fatal))).
  - by vm_compute.
  - apply pair_eq. vm_compute. reflexivity.
Qed.

Lemma sample_sys1_reachable : ingress_reachable sample_sys1.
Proof. eapply Relation_Operators.rt1n_trans; [apply sample_step1|apply Relation_Operators.rt1n_refl]. Qed.

Lemma sample_sys2_reachable : ingress_reachable sample_sys2.
Proof.
  eapply Relation_Operators.rt1n_trans; [apply sample_step1|].
  eapply Relation_Operators.rt1n_trans; [apply sample_step2|apply Relation_Operators.rt1n_refl].
Qed.

Lemma sample_sys3_reachable : ingress_reachable sample_sys3.
Proof.
  eapply Relation_Operators.rt1n_trans; [apply sample_step1|].
  eapply Relation_Operators.rt1n_trans; [apply sample_step2|].
  eapply Relation_Operators.rt1n_trans; [apply sample_step3|apply Relation_Operators.rt1n_refl].
Qed.

Lemma ingress_budget_witness :
  list_len (sys_live sample_sys3) + list_len (is_outstanding (ingress_state (sys_ingress sample_sys3)))
    <= MAX_UNCOMMITTED_EVENTS /\
  is_reserved_canonical_bytes (ingress_state (sys_ingress sample_sys3)) = 20.
Proof.
  destruct (ingress_budget sample_sys3 sample_sys3_reachable) as (He & _ & _ & Hb & _).
  split; [exact He|rewrite Hb; reflexivity].
Defined.

Lemma ingress_reserve_exact_witness :
  is_ok (reserve (sys_ingress sample_sys1) (one_event (MAX_UNCOMMITTED_CANONICAL_BYTES - 10)) Normal).2
    = true.
Proof.
  apply (ingress_reserve_exact sample_sys1 (one_event (MAX_UNCOMMITTED_CANONICAL_BYTES - 10)) Normal
    sample_sys1_reachable); [reflexivity|vm_compute; discriminate|vm_compute; reflexivity|].
  vm_compute. split; [reflexivity|]. split; discriminate.
Defined.

Lemma latched_failure_final_witness :
  is_ok (reserve (sys_ingress sample_sys3) (one_event 1) Cue).2 = false.
Proof.
  eapply (latched_failure_final sample_sys2 sample_sys3
    (budget_exhausted 1 10 (one_event MAX_UNCOMMITTED_CANONICAL_BYTES) false true) (one_event 1) Cue
    sample_sys2_reachable); [vm_compute; reflexivity| |discriminate].
  eapply Relation_Operators.rt1n_trans; [apply sample_step3|apply Relation_Operators.rt1n_refl].
Defined.

Lemma fatal_admitted_once_witness :
  is_ok (reserve (sys_ingress sample_sys3) sample_size Fatal).2 = false.
Proof.
  eapply (fatal_admitted_once sample_sys3 sample_sys3 sample_size sample_sys3_reachable
    (Relation_Operators.rt1n_refl _ _ _)).
  constructor. reflexivity.
Defined.

Lemma suppressed_cues_accounted_witness :
  sys_suppressed sample_sys3 =
  sys_reported sample_sys3 + is_suppressed_cues (ingress_state (sys_ingress sample_sys3)).
Proof.
  apply (suppressed_cues_accounted sample_sys3 sample_sys3_reachable). vm_compute. discriminate.
Defined.
