(* ===== verification/Progress.v ===== *)
(** * Progress of the durable writer

    Models [troupe-diagnostics-runtime/src/store/progress.rs]: the supervisor
    that is shown a sample of the ingress at every tick and decides that the
    writer has stalled, that the drain of a shutdown has run out of time, or
    that the writer task ended when it should not have.  A [Duration] is a
    number of nanoseconds.  A method that takes [&mut self] returns the new
    supervisor next to its result. *)

From S2P Require Import Prelude Wire Scalar Kinds Detail Event Validate Hub Batch Ingress.

(** [Duration::MAX], and the operations that saturate at it and at zero. *)
Definition DURATION_MAX : Z := int_max U64 * 1000000000 + 999999999.

Definition duration_saturating_add (a b : Z) : Z := Z.min DURATION_MAX (a + b).

Definition duration_saturating_sub (a b : Z) : Z := Z.max 0 (a - b).

Definition DEFAULT_WRITER_STALL_TIMEOUT : Z := 10 * 1000000000.

Definition DEFAULT_SHUTDOWN_DRAIN_TIMEOUT : Z := 30 * 1000000000.

Inductive DeadlineValidationError :=
| WriterStallNotPositive
| ShutdownDrainNotPositive.

Record WriterDeadlines := mkWriterDeadlines {
  writer_stall_timeout : Z;
  shutdown_drain_timeout : Z;
}.

Definition WriterDeadlines_new (writer_stall_timeout shutdown_drain_timeout : Z)
    : result WriterDeadlines DeadlineValidationError :=
  if writer_stall_timeout =? 0 then Err WriterStallNotPositive
  else if shutdown_drain_timeout =? 0 then Err ShutdownDrainNotPositive
  else Ok (mkWriterDeadlines writer_stall_timeout shutdown_drain_timeout).

Definition WriterDeadlines_default : WriterDeadlines :=
  mkWriterDeadlines DEFAULT_WRITER_STALL_TIMEOUT DEFAULT_SHUTDOWN_DRAIN_TIMEOUT.

Record WriterProgressSample := mkSample {
  ps_committed_sequence : Z;
  ps_accepted_tail_events : Z;
}.

Definition WriterProgressSample_default : WriterProgressSample := mkSample 0 0.

Definition has_accepted_tail (s : WriterProgressSample) : bool := 0 <? ps_accepted_tail_events s.

Definition sample_of_status (status : IngressStatus) : WriterProgressSample :=
  mkSample (ist_committed_sequence status) (ist_accepted_uncommitted_events status).

(** ** Failures *)

Inductive WriterFailureStage :=
| Stage_Progress | Stage_TaskExit | Stage_Commit | Stage_Flush | Stage_Storage | Stage_Drain.

Definition WriterFailureStage_as_str (s : WriterFailureStage) : string :=
  match s with
  | Stage_Progress => "progress"
  | Stage_TaskExit => "task_exit"
  | Stage_Commit => "commit"
  | Stage_Flush => "flush"
  | Stage_Storage => "storage"
  | Stage_Drain => "drain"
  end.

Inductive WriterFailureCode :=
| Code_ProgressStalled | Code_UnexpectedExit | Code_Panicked | Code_CommitUnavailable
| Code_FlushUnavailable | Code_StorageUnavailable | Code_ShutdownDrainTimedOut.

Definition WriterFailureCode_as_str (c : WriterFailureCode) : string :=
  match c with
  | Code_ProgressStalled => "writer_progress_stalled"
  | Code_UnexpectedExit => "writer_unexpected_exit"
  | Code_Panicked => "writer_panicked"
  | Code_CommitUnavailable => "writer_commit_unavailable"
  | Code_FlushUnavailable => "writer_flush_unavailable"
  | Code_StorageUnavailable => "writer_storage_unavailable"
  | Code_ShutdownDrainTimedOut => "writer_shutdown_drain_timed_out"
  end.

Record WriterCoreFailure := mkCoreFailure {
  wf_stage : WriterFailureStage;
  wf_code : WriterFailureCode;
}.

#[export] Instance WriterFailureStage_eq_dec : EqDecision WriterFailureStage.
Proof. solve_decision. Defined.

#[export] Instance WriterFailureCode_eq_dec : EqDecision WriterFailureCode.
Proof. solve_decision. Defined.

#[export] Instance WriterCoreFailure_eq_dec : EqDecision WriterCoreFailure.
Proof. solve_decision. Defined.

Inductive WriterTaskOutcome :=
| Outcome_Exited | Outcome_Panicked | Outcome_CommitUnavailable | Outcome_FlushUnavailable
| Outcome_StorageUnavailable.

#[export] Instance WriterTaskOutcome_eq_dec : EqDecision WriterTaskOutcome.
Proof. solve_decision. Defined.

Definition outcome_failure (o : WriterTaskOutcome) : WriterCoreFailure :=
  match o with
  | Outcome_Exited => mkCoreFailure Stage_TaskExit Code_UnexpectedExit
  | Outcome_Panicked => mkCoreFailure Stage_TaskExit Code_Panicked
  | Outcome_CommitUnavailable => mkCoreFailure Stage_Commit Code_CommitUnavailable
  | Outcome_FlushUnavailable => mkCoreFailure Stage_Flush Code_FlushUnavailable
  | Outcome_StorageUnavailable => mkCoreFailure Stage_Storage Code_StorageUnavailable
  end.

Inductive DueFailure := Due_Stall | Due_Drain.

Definition due_core_failure (d : DueFailure) : WriterCoreFailure :=
  match d with
  | Due_Stall => mkCoreFailure Stage_Progress Code_ProgressStalled
  | Due_Drain => mkCoreFailure Stage_Drain Code_ShutdownDrainTimedOut
  end.

Definition precedence (d : DueFailure) : Z :=
  match d with
  | Due_Stall => 0
  | Due_Drain => 1
  end.

Inductive ProgressObservationError :=
| ProgressClockRegressed
| WatermarkRegressed (previous actual : Z)
| SampleUnavailable.

(** ** The supervisor *)

Inductive DrainTracker :=
| Drain_NotStarted
| Drain_Draining (started_at : Z)
| Drain_Drained
| Drain_TimedOut.

#[export] Instance DrainTracker_eq_dec : EqDecision DrainTracker.
Proof. solve_decision. Defined.

Inductive DrainState := NotStarted | Draining | Drained | TimedOut.

Record WriterProgressSupervisor := mkSupervisor {
  pr_deadlines : WriterDeadlines;
  pr_sample : WriterProgressSample;
  pr_has_sample : bool;
  pr_last_observed_at : option Z;
  pr_stalled_since : option Z;
  pr_drain : DrainTracker;
  pr_failure : option WriterCoreFailure;
}.

Definition WriterProgressSupervisor_new (deadlines : WriterDeadlines) : WriterProgressSupervisor :=
  mkSupervisor deadlines WriterProgressSample_default false None None Drain_NotStarted None.

Definition with_drain (self : WriterProgressSupervisor) (d : DrainTracker) : WriterProgressSupervisor :=
  mkSupervisor (pr_deadlines self) (pr_sample self) (pr_has_sample self) (pr_last_observed_at self)
    (pr_stalled_since self) d (pr_failure self).

Definition with_failure (self : WriterProgressSupervisor) (f : WriterCoreFailure)
    : WriterProgressSupervisor :=
  mkSupervisor (pr_deadlines self) (pr_sample self) (pr_has_sample self) (pr_last_observed_at self)
    (pr_stalled_since self) (pr_drain self) (Some f).

(** [self.last_observed_at.is_some_and(|last| now < last)]. *)
Definition clock_regressed (self : WriterProgressSupervisor) (now : Z) : bool :=
  match pr_last_observed_at self with
  | Some last => now <? last
  | None => false
  end.

Definition validate_observation (self : WriterProgressSupervisor) (now : Z)
    (sample : WriterProgressSample) : result unit ProgressObservationError :=
  if clock_regressed self now then Err ProgressClockRegressed
  else if pr_has_sample self
            && (ps_committed_sequence sample <? ps_committed_sequence (pr_sample self)) then
    Err (WatermarkRegressed (ps_committed_sequence (pr_sample self)) (ps_committed_sequence sample))
  else Ok tt.

(** [Iterator::min_by_key] with the key [(deadline, due.precedence())]: the
    first of the least elements. *)
Definition due_key_lt (a b : Z * DueFailure) : bool :=
  (a.1 <? b.1) || ((a.1 =? b.1) && (precedence a.2 <? precedence b.2)).

Fixpoint min_by_key (l : list (Z * DueFailure)) : option (Z * DueFailure) :=
  match l with
  | [] => None
  | x :: l' =>
      match min_by_key l' with
      | Some y => if due_key_lt y x then Some y else Some x
      | None => Some x
      end
  end.

(** [Iterator::flatten] of options. *)
Definition flatten_options {A} (l : list (option A)) : list A :=
  flat_map (fun o => match o with Some a => [a] | None => [] end) l.

Definition due_failure (self : WriterProgressSupervisor) (now : Z) : option DueFailure :=
  let stall_due :=
    (fun since =>
       (duration_saturating_add since (writer_stall_timeout (pr_deadlines self)), Due_Stall))
      <$> pr_stalled_since self in
  let drain_due :=
    match pr_drain self with
    | Drain_Draining started_at =>
        Some (duration_saturating_add started_at (shutdown_drain_timeout (pr_deadlines self)), Due_Drain)
    | _ => None
    end in
  snd <$> min_by_key
            (List.filter (fun p => p.1 <=? now) (flatten_options [stall_due; drain_due])).

Definition latch (self : WriterProgressSupervisor) (failure : WriterCoreFailure)
    : WriterProgressSupervisor * option WriterCoreFailure :=
  match pr_failure self with
  | Some _ => (self, None)
  | None => (with_failure self failure, Some failure)
  end.

Definition drain_state (self : WriterProgressSupervisor) : DrainState :=
  match pr_drain self with
  | Drain_NotStarted => NotStarted
  | Drain_Draining _ => Draining
  | Drain_Drained => Drained
  | Drain_TimedOut => TimedOut
  end.

(** The part of [observe] that records the sample. *)
Definition record_sample (self : WriterProgressSupervisor) (now : Z) (sample : WriterProgressSample)
    : WriterProgressSupervisor :=
  let watermark_advanced :=
    pr_has_sample self
      && (ps_committed_sequence (pr_sample self) <? ps_committed_sequence sample) in
  let tail_started := has_accepted_tail sample && negb (has_accepted_tail (pr_sample self)) in
  let stalled_since :=
    if negb (has_accepted_tail sample) then None
    else if negb (pr_has_sample self) || watermark_advanced || tail_started then Some now
    else pr_stalled_since self in
  mkSupervisor (pr_deadlines self) sample true (Some now) stalled_since (pr_drain self)
    (pr_failure self).

Definition observe (self : WriterProgressSupervisor) (now : Z) (sample : WriterProgressSample)
    : WriterProgressSupervisor * result (option WriterCoreFailure) ProgressObservationError :=
  match validate_observation self now sample with
  | Err e => (self, Err e)
  | Ok _ =>
      let self := record_sample self now sample in
      if match pr_drain self with Drain_Draining _ => true | _ => false end
           && negb (has_accepted_tail sample) then
        (with_drain self Drain_Drained, Ok None)
      else
        let due := due_failure self now in
        let self :=
          match due with
          | Some Due_Drain => with_drain self Drain_TimedOut
          | _ => self
          end in
        match due with
        | Some due =>
            let '(self, reported) := latch self (due_core_failure due) in (self, Ok reported)
        | None => (self, Ok None)
        end
  end.

Definition begin_shutdown (self : WriterProgressSupervisor) (now : Z)
    : WriterProgressSupervisor * result DrainState ProgressObservationError :=
  if negb (pr_has_sample self) then (self, Err SampleUnavailable)
  else if clock_regressed self now then (self, Err ProgressClockRegressed)
  else
    let self :=
      match pr_drain self with
      | Drain_NotStarted =>
          if has_accepted_tail (pr_sample self) then with_drain self (Drain_Draining now)
          else with_drain self Drain_Drained
      | _ => self
      end in
    (self, Ok (drain_state self)).

Definition report_writer_outcome (self : WriterProgressSupervisor) (now : Z)
    (sample : WriterProgressSample) (outcome : WriterTaskOutcome)
    : WriterProgressSupervisor * result (option WriterCoreFailure) ProgressObservationError :=
  match observe self now sample with
  | (self, Err e) => (self, Err e)
  | (self, Ok (Some failure)) => (self, Ok (Some failure))
  | (self, Ok None) =>
      if bool_decide (outcome = Outcome_Exited) && bool_decide (pr_drain self = Drain_Drained) then
        (self, Ok None)
      else
        let '(self, reported) := latch self (outcome_failure outcome) in (self, Ok reported)
  end.

Record WriterProgressStatus := mkProgressStatus {
  pst_deadlines : WriterDeadlines;
  pst_committed_sequence : Z;
  pst_accepted_tail_events : Z;
  pst_stalled_for : option Z;
  pst_drain_state : DrainState;
  pst_failure : option WriterCoreFailure;
}.

Definition progress_status (self : WriterProgressSupervisor) : WriterProgressStatus :=
  mkProgressStatus (pr_deadlines self)
    (ps_committed_sequence (pr_sample self)) (ps_accepted_tail_events (pr_sample self))
    match pr_last_observed_at self, pr_stalled_since self with
    | Some now, Some since => Some (duration_saturating_sub now since)
    | _, _ => None
    end
    (drain_state self) (pr_failure self).

Definition drain_complete (status : WriterProgressStatus) : bool :=
  match pst_drain_state status with
  | Drained => true
  | _ => false
  end.

(** ** Histories

    A supervisor is judged by what it was shown: the accepted observations and
    the beginnings of a shutdown, newest first, and the failures its methods
    returned. *)

Inductive ProgressEntry :=
| Seen (now : Z) (sample : WriterProgressSample)
| ShutdownBegun (now : Z).

Definition returned (r : option WriterCoreFailure) : list WriterCoreFailure :=
  match r with
  | Some f => [f]
  | None => []
  end.

Inductive progress_reach (d : WriterDeadlines)
    : WriterProgressSupervisor -> list ProgressEntry -> list WriterCoreFailure -> Prop :=
| reach_new : progress_reach d (WriterProgressSupervisor_new d) [] []
| reach_observe s h fs now sample s' r :
    progress_reach d s h fs -> observe s now sample = (s', Ok r) ->
    progress_reach d s' (Seen now sample :: h) (fs ++ returned r)
| reach_observe_refused s h fs now sample s' e :
    progress_reach d s h fs -> observe s now sample = (s', Err e) -> progress_reach d s' h fs
| reach_shutdown s h fs now s' st :
    progress_reach d s h fs -> begin_shutdown s now = (s', Ok st) ->
    progress_reach d s' (ShutdownBegun now :: h) fs
| reach_shutdown_refused s h fs now s' e :
    progress_reach d s h fs -> begin_shutdown s now = (s', Err e) -> progress_reach d s' h fs
| reach_outcome s h fs now sample outcome s' r :
    progress_reach d s h fs -> report_writer_outcome s now sample outcome = (s', Ok r) ->
    progress_reach d s' (Seen now sample :: h) (fs ++ returned r)
| reach_outcome_refused s h fs now sample outcome s' e :
    progress_reach d s h fs -> report_writer_outcome s now sample outcome = (s', Err e) ->
    progress_reach d s' h fs.

Fixpoint observations (h : list ProgressEntry) : list (Z * WriterProgressSample) :=
  match h with
  | [] => []
  | Seen now sample :: h' => (now, sample) :: observations h'
  | ShutdownBegun _ :: h' => observations h'
  end.

(** [quiet_since obs t]: events have been waiting, and the watermark has not
    moved, in every observation from the one at [t] to the newest; in the one
    before [t] nothing was waiting or the watermark was lower. *)
Inductive quiet_since : list (Z * WriterProgressSample) -> Z -> Prop :=
| quiet_starts now s obs :
    has_accepted_tail s = true ->
    match obs with
    | [] => True
    | (_, s1) :: _ =>
        has_accepted_tail s1 = false \/ ps_committed_sequence s1 < ps_committed_sequence s
    end ->
    quiet_since ((now, s) :: obs) now
| quiet_goes_on now s now1 s1 obs t :
    has_accepted_tail s = true -> has_accepted_tail s1 = true ->
    ps_committed_sequence s = ps_committed_sequence s1 ->
    quiet_since ((now1, s1) :: obs) t ->
    quiet_since ((now, s) :: (now1, s1) :: obs) t.

(** Every sample from the last one before the entry on has events waiting. *)
Definition tails_since (h : list ProgressEntry) (started_at : Z) : Prop :=
  exists newer older last rest,
    h = newer ++ ShutdownBegun started_at :: older /\
    observations older = last :: rest /\
    Forall (fun o => has_accepted_tail o.2 = true) (observations newer ++ [last]).

(** Some sample from the last one before a beginning of the shutdown on has no
    event waiting. *)
Definition drained_in (h : list ProgressEntry) : Prop :=
  exists newer now older last rest,
    h = newer ++ ShutdownBegun now :: older /\
    observations older = last :: rest /\
    Exists (fun o => has_accepted_tail o.2 = false) (observations newer ++ [last]).

(** The drain that began at [started_at] was still unfinished when it had used
    up its time. *)
Definition overran (d : WriterDeadlines) (h : list ProgressEntry) (started_at : Z) : Prop :=
  exists newer now sample older,
    h = newer ++ Seen now sample :: older /\ has_accepted_tail sample = true /\
    tails_since older started_at /\
    duration_saturating_add started_at (shutdown_drain_timeout d) <= now.

(** ** Lemmas *)

Definition is_draining (s : WriterProgressSupervisor) : bool :=
  match pr_drain s with
  | Drain_Draining _ => true
  | _ => false
  end.

Lemma due_failure_stall s now :
  due_failure s now = Some Due_Stall ->
  exists t, pr_stalled_since s = Some t /\
    duration_saturating_add t (writer_stall_timeout (pr_deadlines s)) <= now.
Proof.
  unfold due_failure. destruct (pr_stalled_since s) as [t|], (pr_drain s); cbn;
    repeat (case_match; simplify_eq/=); intros; simplify_eq/=; try done;
    eexists; (split; [done|]); by apply Z.leb_le.
Qed.

Lemma due_failure_drain s now :
  due_failure s now = Some Due_Drain ->
  exists t, pr_drain s = Drain_Draining t /\
    duration_saturating_add t (shutdown_drain_timeout (pr_deadlines s)) <= now.
Proof.
  unfold due_failure. destruct (pr_stalled_since s) as [t|], (pr_drain s); cbn;
    repeat (case_match; simplify_eq/=); intros; simplify_eq/=; try done;
    eexists; (split; [done|]); by apply Z.leb_le.
Qed.

Lemma due_failure_none s now :
  due_failure s now = None <->
  (forall t, pr_stalled_since s = Some t ->
     now < duration_saturating_add t (writer_stall_timeout (pr_deadlines s))) /\
  (forall t, pr_drain s = Drain_Draining t ->
     now < duration_saturating_add t (shutdown_drain_timeout (pr_deadlines s))).
Proof.
  unfold due_failure. destruct (pr_stalled_since s) as [t|], (pr_drain s); cbn;
    repeat (case_match; simplify_eq/=);
    repeat match goal with
    | H : (_ <=? _) = true |- _ => apply Z.leb_le in H
    | H : (_ <=? _) = false |- _ => apply Z.leb_gt in H
    end; split; try done; intros Hd; try (split; intros; simplify_eq; lia);
    destruct Hd as [Hs Ht];
    try (specialize (Hs _ eq_refl)); try (specialize (Ht _ eq_refl)); lia.
Qed.

Lemma latch_inv s f s' r :
  latch s f = (s', r) ->
  pr_deadlines s' = pr_deadlines s /\ pr_sample s' = pr_sample s /\
  pr_has_sample s' = pr_has_sample s /\ pr_last_observed_at s' = pr_last_observed_at s /\
  pr_stalled_since s' = pr_stalled_since s /\ pr_drain s' = pr_drain s /\
  pr_failure s' = Some (default f (pr_failure s)) /\
  r = match pr_failure s with Some _ => None | None => Some f end.
Proof. unfold latch. destruct s as [? ? ? ? ? ? [?|]]; cbn; intros; by simplify_eq/=. Qed.

Lemma observe_refused s now sample s' e : observe s now sample = (s', Err e) -> s' = s.
Proof. unfold observe, latch. repeat (case_match; simplify_eq/=); congruence. Qed.

Lemma report_refused s now sample o s' e : report_writer_outcome s now sample o = (s', Err e) -> s' = s.
Proof.
  unfold report_writer_outcome. destruct (observe s now sample) as [s1 [[f|]|e1]] eqn:E.
  - done.
  - unfold latch. repeat (case_match; simplify_eq/=); congruence.
  - intros [= <- _]. by eapply observe_refused.
Qed.

(** What an accepted observation does to each part of the supervisor. *)
Lemma observe_inv s now sample s' r :
  observe s now sample = (s', Ok r) ->
  validate_observation s now sample = Ok tt /\
  pr_deadlines s' = pr_deadlines s /\ pr_sample s' = sample /\ pr_has_sample s' = true /\
  pr_last_observed_at s' = Some now /\
  pr_stalled_since s' = pr_stalled_since (record_sample s now sample) /\
  ((is_draining s = true /\ has_accepted_tail sample = false /\ pr_drain s' = Drain_Drained /\
      pr_failure s' = pr_failure s /\ r = None) \/
   ((is_draining s = true -> has_accepted_tail sample = true) /\
    match due_failure (record_sample s now sample) now with
    | Some due =>
        pr_failure s' = Some (default (due_core_failure due) (pr_failure s)) /\
        r = match pr_failure s with Some _ => None | None => Some (due_core_failure due) end /\
        pr_drain s' = match due with Due_Drain => Drain_TimedOut | Due_Stall => pr_drain s end
    | None => pr_failure s' = pr_failure s /\ r = None /\ pr_drain s' = pr_drain s
    end)).
Proof.
  unfold observe. destruct (validate_observation s now sample) as [[]|]; [|done].
  fold (is_draining (record_sample s now sample)).
  replace (is_draining (record_sample s now sample)) with (is_draining s) by done.
  destruct (is_draining s && negb (has_accepted_tail sample)) eqn:E.
  - intros [= <- <-]. bool_hyps. cbn [with_drain record_sample pr_deadlines pr_sample pr_has_sample
      pr_last_observed_at pr_stalled_since pr_drain pr_failure]. naive_solver.
  - assert (is_draining s = true -> has_accepted_tail sample = true).
    { intros Hd. rewrite Hd in E. by destruct (has_accepted_tail sample). }
    destruct (due_failure (record_sample s now sample) now) as [[]|];
      [destruct (latch _ _) as [s1 r1] eqn:L; apply latch_inv in L; cbn in L..|];
      intros [= <- <-]; cbn; naive_solver.
Qed.

Lemma begin_shutdown_inv s now s' st :
  begin_shutdown s now = (s', Ok st) ->
  pr_has_sample s = true /\ st = drain_state s' /\
  s' = with_drain s match pr_drain s with
                    | Drain_NotStarted =>
                        if has_accepted_tail (pr_sample s) then Drain_Draining now else Drain_Drained
                    | d => d
                    end.
Proof.
  unfold begin_shutdown. destruct s as [? ? [] ? ? [] ?]; cbn; try done;
    repeat (case_match; simplify_eq/=); intros; by simplify_eq/=.
Qed.

Lemma begin_shutdown_refused s now s' e : begin_shutdown s now = (s', Err e) -> s' = s.
Proof. unfold begin_shutdown. repeat (case_match; simplify_eq/=); congruence. Qed.

Lemma report_inv s now sample o s' r :
  report_writer_outcome s now sample o = (s', Ok r) ->
  exists s1 r1, observe s now sample = (s1, Ok r1) /\
    (s' = s1 /\ r = r1 \/
     r1 = None /\ latch s1 (outcome_failure o) = (s', r) /\
       ~ (o = Outcome_Exited /\ pr_drain s1 = Drain_Drained)).
Proof.
  unfold report_writer_outcome. destruct (observe s now sample) as [s1 [[f|]|e1]]; intros H; simplify_eq.
  - eauto 10.
  - exists s1, None. split; [done|]. destruct (_ && _) eqn:E; [naive_solver|].
    destruct (latch s1 _) as [s2 r2] eqn:L. simplify_eq. right. split_and!; [done..|].
    intros [-> Hd]. rewrite Hd in E. done.
Qed.

Lemma quiet_first now s t :
  quiet_since [(now, s)] t <-> has_accepted_tail s = true /\ t = now.
Proof.
  split; [by inversion 1|]. intros [? ->]. by constructor.
Qed.

Lemma quiet_next now s now1 s1 obs t :
  ps_committed_sequence s1 <= ps_committed_sequence s ->
  quiet_since ((now, s) :: (now1, s1) :: obs) t <->
  has_accepted_tail s = true /\
  if (ps_committed_sequence s1 <? ps_committed_sequence s) || negb (has_accepted_tail s1) then t = now
  else quiet_since ((now1, s1) :: obs) t.
Proof.
  intros Hle. destruct (Z.ltb_spec (ps_committed_sequence s1) (ps_committed_sequence s)) as [Hlt|Hge]; cbn.
  - split.
    + inversion 1; subst; [done|lia].
    + intros [? ->]. constructor; auto.
  - destruct (has_accepted_tail s1) eqn:E; cbn.
    + split.
      * inversion 1 as [? ? ? ? Hor|]; subst; [|done]. destruct Hor; [congruence|lia].
      * intros [? ?]. constructor; [done..|lia|done].
    + split.
      * inversion 1; subst; [done|congruence].
      * intros [? ->]. constructor; auto.
Qed.

Lemma tails_since_seen h t now s :
  tails_since h t -> has_accepted_tail s = true -> tails_since (Seen now s :: h) t.
Proof.
  intros (newer & older & last & rest & -> & Hr & Hf) ?.
  exists (Seen now s :: newer), older, last, rest. cbn. by split_and!; [..|constructor].
Qed.

Lemma tails_since_begun h t now : tails_since h t -> tails_since (ShutdownBegun now :: h) t.
Proof.
  intros (newer & older & last & rest & -> & Hr & Hf).
  by exists (ShutdownBegun now :: newer), older, last, rest.
Qed.

Lemma tails_since_drained h t now s :
  tails_since h t -> has_accepted_tail s = false -> drained_in (Seen now s :: h).
Proof.
  intros (newer & older & last & rest & -> & Hr & Hf) ?.
  exists (Seen now s :: newer), t, older, last, rest. cbn. by split_and!; [..|constructor].
Qed.

Lemma drained_in_cons h e : drained_in h -> drained_in (e :: h).
Proof.
  intros (newer & now & older & last & rest & -> & Hr & Hf).
  exists (e :: newer), now, older, last, rest. split_and!; [done..|].
  destruct e; cbn; [by right|done].
Qed.

Lemma overran_cons d h t e : overran d h t -> overran d (e :: h) t.
Proof.
  intros (newer & now & s & older & -> & Hs & Ht & Hd).
  by exists (e :: newer), now, s, older.
Qed.

#[local] Hint Resolve tails_since_seen tails_since_begun tails_since_drained drained_in_cons
  overran_cons : troupe.

Definition drain_explained (d : WriterDeadlines) (h : list ProgressEntry) (t : DrainTracker) : Prop :=
  match t with
  | Drain_NotStarted => forall now, ShutdownBegun now ∉ h
  | Drain_Draining started_at => tails_since h started_at
  | Drain_Drained => drained_in h
  | Drain_TimedOut => exists started_at, overran d h started_at
  end.

Record progress_inv (d : WriterDeadlines) (s : WriterProgressSupervisor) (h : list ProgressEntry)
    (fs : list WriterCoreFailure) : Prop := {
  pi_deadlines : pr_deadlines s = d;
  pi_seen :
    match observations h with
    | [] => pr_has_sample s = false /\ pr_sample s = WriterProgressSample_default /\
            pr_last_observed_at s = None
    | (now, sample) :: _ =>
        pr_has_sample s = true /\ pr_sample s = sample /\ pr_last_observed_at s = Some now
    end;
  pi_stalled : forall t, pr_stalled_since s = Some t <-> quiet_since (observations h) t;
  pi_failure : fs = returned (pr_failure s);
  pi_drain : drain_explained d h (pr_drain s);
}.

Lemma record_sample_stalled d s h fs now sample t :
  progress_inv d s h fs -> validate_observation s now sample = Ok tt ->
  pr_stalled_since (record_sample s now sample) = Some t <->
  quiet_since ((now, sample) :: observations h) t.
Proof.
  intros [_ Hseen Hst _ _] Hv. unfold validate_observation in Hv. cbn.
  destruct (observations h) as [|[now1 s1] obs] eqn:Ho.
  - destruct Hseen as (Hh & Hs & Hl). rewrite quiet_first, Hh. cbn.
    destruct (has_accepted_tail sample); cbn; naive_solver.
  - destruct Hseen as (Hh & Hs & Hl). rewrite Hh, Hs in *. cbn in Hv |- *.
    assert (ps_committed_sequence s1 <= ps_committed_sequence sample).
    { destruct (clock_regressed s now); [done|].
      by destruct (Z.ltb_spec (ps_committed_sequence sample) (ps_committed_sequence s1)). }
    rewrite quiet_next by done. destruct (has_accepted_tail sample); cbn; [|naive_solver].
    destruct (_ || _); [naive_solver|]. rewrite Hst. naive_solver.
Qed.

Lemma progress_inv_observe d s h fs now sample s' r :
  progress_inv d s h fs -> observe s now sample = (s', Ok r) ->
  progress_inv d s' (Seen now sample :: h) (fs ++ returned r).
Proof.
  intros I O. destruct (observe_inv _ _ _ _ _ O) as (Hv & Hd & Hs & Hh & Hl & Hq & Hcase).
  pose proof (record_sample_stalled d s h fs now sample) as Hrec.
  constructor.
  - rewrite Hd. apply I.
  - by cbn.
  - intros t. rewrite Hq. by apply Hrec.
  - rewrite (pi_failure _ _ _ _ I).
    destruct Hcase as [(_ & _ & _ & -> & ->)|[_ Hcase]]; [by rewrite app_nil_r|].
    destruct (due_failure _ _); [|destruct Hcase as (-> & -> & _); by rewrite app_nil_r].
    destruct Hcase as (-> & -> & _). by destruct (pr_failure s).
  - pose proof (pi_drain _ _ _ _ I) as Hdr. unfold is_draining in Hcase.
    destruct Hcase as [(Hdg & Ht & -> & _)|[Hdg Hcase]].
    { destruct (pr_drain s); try done. cbn in *. eauto with troupe. }
    assert (drain_explained d (Seen now sample :: h) (pr_drain s)).
    { destruct (pr_drain s); cbn in *; [set_solver|eauto with troupe..|].
      destruct Hdr. eauto with troupe. }
    destruct (due_failure _ now) as [[]|] eqn:E; destruct Hcase as (_ & _ & ->); try done.
    apply due_failure_drain in E as (t & Ht & Hle). cbn in Ht, Hle. rewrite Ht in *. cbn in *.
    exists t, [], now, sample, h. rewrite <-(pi_deadlines _ _ _ _ I). split_and!; auto.
Qed.

Lemma progress_inv_shutdown d s h fs now s' st :
  progress_inv d s h fs -> begin_shutdown s now = (s', Ok st) ->
  progress_inv d s' (ShutdownBegun now :: h) fs.
Proof.
  intros I (Hh & _ & ->)%begin_shutdown_inv. destruct I as [Hd Hseen Hst Hf Hdr].
  constructor; cbn; try done.
  destruct (observations h) as [|[now1 s1] obs] eqn:Ho; destruct Hseen as (Hh' & Hs & _); [congruence|].
  destruct (pr_drain s); cbn in *; eauto with troupe.
  - rewrite Hs. destruct (has_accepted_tail s1) eqn:Ht; cbn.
    + exists [], h, (now1, s1), obs. cbn. auto.
    + exists [], now, h, (now1, s1), obs. cbn. auto.
  - destruct Hdr. eauto with troupe.
Qed.

Lemma progress_inv_latch d s h fs f s' r :
  progress_inv d s h fs -> latch s f = (s', r) -> progress_inv d s' h (fs ++ returned r).
Proof.
  intros [Hd Hseen Hst Hf Hdr] (Ed & Es & Eh & El & Eq & Edr & Ef & ->)%latch_inv.
  constructor; rewrite ?Ed, ?Es, ?Eh, ?El, ?Eq, ?Edr, ?Ef; try done.
  rewrite Hf. by destruct (pr_failure s).
Qed.

Lemma progress_reach_inv d s h fs : progress_reach d s h fs -> progress_inv d s h fs.
Proof.
  induction 1 as [|s h fs now sample s' r _ IH O|s h fs now sample s' e _ IH ->%observe_refused
    |s h fs now s' st _ IH B|s h fs now s' e _ IH ->%begin_shutdown_refused
    |s h fs now sample o s' r _ IH O|s h fs now sample o s' e _ IH ->%report_refused]; auto.
  - constructor; cbn; try done; [|set_solver]. split; [done|by inversion 1].
  - eauto using progress_inv_observe.
  - eauto using progress_inv_shutdown.
  - apply report_inv in O as (s1 & r1 & O & [[-> ->]|(-> & L & _)]).
    + eauto using progress_inv_observe.
    + eapply progress_inv_latch; [|done]. eapply progress_inv_observe in O; [|done].
      cbn in O. by rewrite app_nil_r in O.
Qed.

(** ** What the supervisor reports *)

(** The supervisor detects exactly the stalls and the overrun drains.  For
    every history of calls, an accepted observation leaves a failure recorded
    when events have waited with an unmoved watermark for the stall timeout, or
    when a drain that is still unfinished has used up its timeout; and a
    failure it reports is the first of the run and is one of these two facts
    about the history (or the clock is at the end of its range). *)
Theorem observe_detects_exactly d s h fs now sample s' r :
  progress_reach d s h fs -> observe s now sample = (s', Ok r) -> now <= DURATION_MAX ->
  (forall t, quiet_since ((now, sample) :: observations h) t ->
     t + writer_stall_timeout d <= now -> pr_failure s' <> None) /\
  (forall t, pr_drain s = Drain_Draining t -> has_accepted_tail sample = true ->
     t + shutdown_drain_timeout d <= now -> pr_failure s' <> None) /\
  (forall f, r = Some f ->
     fs = [] /\ pr_failure s' = Some f /\
     ((f = due_core_failure Due_Stall /\
         exists t, quiet_since ((now, sample) :: observations h) t /\
           (t + writer_stall_timeout d <= now \/ now = DURATION_MAX)) \/
      (f = due_core_failure Due_Drain /\
         exists t, tails_since (Seen now sample :: h) t /\
           (t + shutdown_drain_timeout d <= now \/ now = DURATION_MAX)))).
Proof.
  intros R O Hnow. apply progress_reach_inv in R as I.
  destruct (observe_inv _ _ _ _ _ O) as (Hv & _ & _ & _ & _ & _ & Hcase).
  pose proof (fun t => record_sample_stalled d s h fs now sample t I Hv) as Hrec.
  pose proof (pi_deadlines _ _ _ _ I) as Hd. pose proof (pi_drain _ _ _ _ I) as Hdr.
  assert (Hfs : pr_failure s = None -> fs = []).
  { intros E. by rewrite (pi_failure _ _ _ _ I), E. }
  unfold is_draining, duration_saturating_add in *.
  destruct Hcase as [(Hdg & Ht & _ & _ & ->)|[Hdg Hcase]].
  { split_and!; [|congruence|done]. intros t Hq. inversion Hq; congruence. }
  destruct (due_failure _ now) as [due|] eqn:E.
  - destruct Hcase as (Hf & -> & _). split_and!; [by rewrite Hf..|].
    intros f Hr. destruct (pr_failure s); [done|]. injection Hr as <-. split_and!; auto.
    destruct due; [left|right]; split; [done| |done|].
    + apply due_failure_stall in E as (t & Hq & Hle). unfold duration_saturating_add in Hle.
      exists t. cbn in Hle. rewrite Hd in Hle. split; [by apply Hrec|lia].
    + apply due_failure_drain in E as (t & Hq & Hle). unfold duration_saturating_add in Hle.
      cbn in Hq, Hle. rewrite Hd in Hle. rewrite Hq in *. exists t. split; [eauto with troupe|lia].
  - apply due_failure_none in E as [E1 E2]. unfold duration_saturating_add in E1, E2.
    cbn in E2, E1. rewrite Hd in *. split_and!.
    + intros t Hq%Hrec Hle. specialize (E1 t Hq). lia.
    + intros t Hq _ Hle. specialize (E2 t Hq). lia.
    + destruct Hcase as (_ & -> & _). done.
Qed.

(** A supervisor reports at most one failure over its whole life, the one
    its status shows from then on; and the drain state it shows is the history's:
    not started exactly before the first shutdown, draining while every sample
    since the shutdown began had events waiting, drained only after one without,
    timed out only when such a drain had used up its time. *)
Theorem one_failure_and_truthful_drain d s h fs :
  progress_reach d s h fs ->
  fs = returned (pst_failure (progress_status s)) /\
  (pst_drain_state (progress_status s) = NotStarted <-> forall now, ShutdownBegun now ∉ h) /\
  (pst_drain_state (progress_status s) = Draining -> exists t, tails_since h t) /\
  (drain_complete (progress_status s) = true -> drained_in h) /\
  (pst_drain_state (progress_status s) = TimedOut -> exists t, overran d h t).
Proof.
  intros [_ _ _ Hf Hdr]%progress_reach_inv. unfold progress_status, drain_complete, drain_state. cbn.
  assert (Hbegun : forall h' t, tails_since h' t -> ShutdownBegun t ∈ h').
  { intros h' t (newer & older & last & rest & -> & _). set_solver. }
  destruct (pr_drain s) as [|t| |]; cbn in Hdr; split_and!; try done; try (by eauto).
  - split; [done|]. intros Hn. exfalso. eapply Hn, Hbegun, Hdr.
  - split; [done|]. intros Hn. destruct Hdr as (newer & now & older & last & rest & -> & _). exfalso.
    apply (Hn now). set_solver.
  - split; [done|]. intros Hn. destruct Hdr as (t & newer & now & sample & older & -> & _ & Ht & _). exfalso.
    apply Hbegun in Ht. apply (Hn t). set_solver.
Qed.

(** The end of the writer task is recorded as a failure unless the task
    exited after a complete drain; the failure reported for it, if an earlier one
    was not, is a failure of the progress check or the one that names how the
    task ended. *)
Theorem writer_outcome_judged d s h fs now sample o s' r :
  progress_reach d s h fs -> report_writer_outcome s now sample o = (s', Ok r) ->
  (pr_failure s' = None -> o = Outcome_Exited /\ drain_state s' = Drained) /\
  (forall f, r = Some f ->
     fs = [] /\ pr_failure s' = Some f /\
     (f = due_core_failure Due_Stall \/ f = due_core_failure Due_Drain \/ f = outcome_failure o)) /\
  (fs <> [] -> r = None /\ pr_failure s' = pr_failure s).
Proof.
  intros R O. apply progress_reach_inv in R as I. pose proof (pi_failure _ _ _ _ I) as Hf.
  unfold report_writer_outcome in O.
  destruct (observe s now sample) as [s1 [r1|e]] eqn:E; [|done].
  destruct (observe_inv _ _ _ _ _ E) as (_ & _ & _ & _ & _ & _ & Hcase).
  assert (Hr1 : r1 = None /\ pr_failure s1 = pr_failure s \/
    (exists due, pr_failure s1 = Some (default (due_core_failure due) (pr_failure s)) /\
       r1 = match pr_failure s with Some _ => None | None => Some (due_core_failure due) end)).
  { destruct Hcase as [(_ & _ & _ & ? & ?)|[_ Hcase]]; [auto|].
    destruct (due_failure _ now); naive_solver. }
  clear Hcase. destruct r1 as [f1|].
  - simplify_eq. destruct Hr1 as [[? _]|(due & Hs & Hr)]; [done|].
    destruct (pr_failure s); [done|]. cbn in Hs. destruct due; naive_solver.
  - assert (Hs1 : pr_failure s <> None -> pr_failure s1 = pr_failure s).
    { destruct Hr1 as [[_ ?]|(due & -> & _)]; [done|]. by destruct (pr_failure s). }
    assert (Hs0 : pr_failure s = None -> pr_failure s1 = None).
    { destruct Hr1 as [[_ ->]|(due & _ & Hr)]; [done|]. by destruct (pr_failure s). }
    destruct (_ && _) eqn:B.
    + simplify_eq. bool_hyps. subst. unfold drain_state.
      match goal with H : pr_drain _ = _ |- _ => rewrite H end.
      split_and!; try done. intros Hne. split; [done|]. apply Hs1. intros Hn. by rewrite Hn in Hne.
    + destruct (latch s1 _) as [s2 r2] eqn:L. simplify_eq.
      apply latch_inv in L as (_ & _ & _ & _ & _ & _ & Hl & ->). rewrite Hl.
      destruct (pr_failure s) as [f0|]; [rewrite (Hs1 ltac:(done))|rewrite (Hs0 eq_refl)]; cbn;
        naive_solver.
Qed.

(** ** Witnesses *)

Definition sample_deadlines : WriterDeadlines := mkWriterDeadlines 10 30.

Definition tail_sample : WriterProgressSample := mkSample 5 3.

(** Two events seen at 100 and the watermark unmoved at 110. *)
Definition stalled_once : WriterProgressSupervisor :=
  (observe (WriterProgressSupervisor_new sample_deadlines) 100 tail_sample).1.

Lemma stalled_once_reach : progress_reach sample_deadlines stalled_once [Seen 100 tail_sample] [].
Proof.
  apply (reach_observe sample_deadlines (WriterProgressSupervisor_new sample_deadlines) [] [] 100 tail_sample stalled_once None);
    [constructor|reflexivity].
Qed.

Lemma observe_detects_exactly_witness :
  observe stalled_once 110 tail_sample =
    ((observe stalled_once 110 tail_sample).1, Ok (Some (mkCoreFailure Stage_Progress Code_ProgressStalled))) /\
  pr_failure (observe stalled_once 110 tail_sample).1 <> None.
Proof.
  split; [reflexivity|].
  destruct (observe_detects_exactly sample_deadlines stalled_once [Seen 100 tail_sample] []
              110 tail_sample _ _ stalled_once_reach eq_refl) as [Hstall _].
  - vm_compute. discriminate.
  - apply (Hstall 100); [|cbn; lia].
    apply quiet_goes_on; [reflexivity..|]. by apply quiet_starts.
Defined.

Lemma one_failure_and_truthful_drain_witness :
  @nil WriterCoreFailure = returned (pst_failure (progress_status stalled_once)).
Proof.
  apply (one_failure_and_truthful_drain sample_deadlines stalled_once [Seen 100 tail_sample] []
           stalled_once_reach).
Defined.

Lemma writer_outcome_judged_witness :
  pr_failure (report_writer_outcome stalled_once 105 tail_sample Outcome_Exited).1 = None ->
  Outcome_Exited = Outcome_Exited /\
  drain_state (report_writer_outcome stalled_once 105 tail_sample Outcome_Exited).1 = Drained.
Proof.
  apply (writer_outcome_judged sample_deadlines stalled_once [Seen 100 tail_sample] [] 105 tail_sample
           Outcome_Exited _ _ stalled_once_reach eq_refl).
Defined.
