(* ===== verification/Files.v ===== *)
(** * Paths, files and directory trees

    What the components that look at directories share: paths, what the operating
    system says about a node, and the file system of a run, whose system calls are
    numbered so that a directory may change while it is looked at.  A tree is the
    specification of a directory that does not change. *)

From stdpp Require Import sorting.
From S2P Require Import Prelude.

(** ** Paths and the file system *)

Record PathBuf := mkPath { path_absolute : bool; path_components : list string }.

#[export] Instance PathBuf_eq_dec : EqDecision PathBuf.
Proof. solve_decision. Defined.

Definition join_path (p : PathBuf) (name : string) : PathBuf :=
  mkPath (path_absolute p) (path_components p ++ [name]).

Fixpoint join_names (names : list string) : string :=
  match names with
  | [] => EmptyString
  | [name] => name
  | name :: names => name +:+ "/" +:+ join_names names
  end.

(** [Path::display] *)
Definition path_display (p : PathBuf) : string := (if path_absolute p then "/" else EmptyString) +:+ join_names (path_components p).

(** The pieces of a text between the slashes. *)
Fixpoint split_slash (current l : list ascii) : list (list ascii) :=
  match l with
  | [] => [current]
  | c :: l' => if Ascii.eqb c "/" then current :: split_slash [] l' else split_slash (current ++ [c]) l'
  end.

(** [PathBuf::from]: empty components and dots are dropped, but for the dot at the
    start of a relative path. *)
Definition path_from (text : string) : PathBuf :=
  let absolute := starts_with "/" text in
  let pieces := map of_bytes (split_slash [] (bytes text)) in
  let kept pieces := filter (fun piece => piece <> EmptyString /\ piece <> ".") pieces in
  mkPath absolute
    match pieces with
    | first :: rest => if negb absolute && bool_decide (first = ".") then "." :: kept rest else kept pieces
    | [] => []
    end.

Inductive FileType := FileType_File | FileType_Dir | FileType_Symlink | FileType_Special.

#[export] Instance FileType_eq_dec : EqDecision FileType.
Proof. solve_decision. Defined.

Record Metadata := mkMetadata {
  md_file_type : FileType;
  md_len : Z;
  md_dev : Z;
  md_ino : Z;
}.

(** An [io::Error]: its kind, as far as it is told apart, and its text. *)
Inductive IoErrorKind := Io_NotFound | Io_AlreadyExists | Io_OtherKind.

Record IoError := mkIoError { io_kind : IoErrorKind; io_text : string }.

(** What the [n]th system call returns; [None] is an [io::Error]. *)
Record Fs := mkFs {
  fs_symlink_metadata : nat -> PathBuf -> option Metadata;
  fs_read_dir : nat -> PathBuf -> option (list (option PathBuf));
}.

(** ** Directory trees *)

Inductive Node :=
| Regular (len : Z)
| Symlink
| Special
| Directory (entries : Entries)
with Entries :=
| NoEntry
| Entry (name : string) (child : Node) (entries : Entries).

Scheme Node_mutual := Induction for Node Sort Prop
  with Entries_mutual := Induction for Entries Sort Prop.
Combined Scheme Node_Entries_ind from Node_mutual, Entries_mutual.

Fixpoint entry_names (es : Entries) : list string :=
  match es with
  | NoEntry => []
  | Entry name _ es' => name :: entry_names es'
  end.

(** The file system shows the tree [n] at [p], to every system call: the
    entries of a directory come in any order, and the tree lists them sorted. *)
Fixpoint shows (fs : Fs) (p : PathBuf) (n : Node) : Prop :=
  match n with
  | Regular len =>
      forall call, exists dev ino, fs_symlink_metadata fs call p = Some (mkMetadata FileType_File len dev ino)
  | Symlink =>
      forall call, exists m, fs_symlink_metadata fs call p = Some m /\ md_file_type m = FileType_Symlink
  | Special =>
      forall call, exists m, fs_symlink_metadata fs call p = Some m /\ md_file_type m = FileType_Special
  | Directory entries =>
      (exists dev ino, forall call, exists len,
         fs_symlink_metadata fs call p = Some (mkMetadata FileType_Dir len dev ino)) /\
      (forall call, exists names,
         fs_read_dir fs call p = Some (map (fun name => Some (join_path p name)) names) /\
         names ≡ₚ entry_names entries) /\
      StronglySorted strings.String.le (entry_names entries) /\
      shows_entries fs p entries
  end
with shows_entries (fs : Fs) (p : PathBuf) (es : Entries) : Prop :=
  match es with
  | NoEntry => True
  | Entry name child es' => shows fs (join_path p name) child /\ shows_entries fs p es'
  end.

Fixpoint tree_nodes (n : Node) : nat :=
  match n with
  | Directory entries => S (entries_nodes entries)
  | _ => 1%nat
  end
with entries_nodes (es : Entries) : nat :=
  match es with
  | NoEntry => O
  | Entry _ child es' => (tree_nodes child + entries_nodes es')%nat
  end.

(** The bytes of a tree, and whether it is made of files and directories only. *)
Fixpoint tree_bytes (n : Node) : Z :=
  match n with
  | Regular len => len
  | Directory entries => entries_bytes entries
  | _ => 0
  end
with entries_bytes (es : Entries) : Z :=
  match es with
  | NoEntry => 0
  | Entry _ child es' => tree_bytes child + entries_bytes es'
  end.

Fixpoint sizes_nonneg (n : Node) : Prop :=
  match n with
  | Regular len => 0 <= len
  | Directory entries => entries_nonneg entries
  | _ => True
  end
with entries_nonneg (es : Entries) : Prop :=
  match es with
  | NoEntry => True
  | Entry _ child es' => sizes_nonneg child /\ entries_nonneg es'
  end.

Fixpoint countable_tree (n : Node) : Prop :=
  match n with
  | Regular _ => True
  | Directory entries => entries_countable entries
  | _ => False
  end
with entries_countable (es : Entries) : Prop :=
  match es with
  | NoEntry => True
  | Entry _ child es' => countable_tree child /\ entries_countable es'
  end.

Lemma tree_bytes_nonneg_both :
  (forall n, sizes_nonneg n -> 0 <= tree_bytes n) /\
  (forall es, entries_nonneg es -> 0 <= entries_bytes es).
Proof. apply Node_Entries_ind; cbn; try lia; try done. naive_solver lia. Qed.

Lemma tree_bytes_nonneg n : sizes_nonneg n -> 0 <= tree_bytes n.
Proof. apply tree_bytes_nonneg_both. Qed.
