(* ===== verification/Quota.v ===== *)
(** * The run's disk quota

    Models [troupe-diagnostics-runtime/src/store/quota.rs]: the measurement of
    the run directory, the checks before and after the store grows, and the
    failure that seals the quota.  The file system is the operating system's:
    every system call of a measurement is numbered, and an [Fs] says what each
    one returns, so that a directory may change while it is measured.  A
    [Duration] is a number of nanoseconds. *)

From stdpp Require Import sorting.
From S2P Require Import Prelude Files.

(** ** Paths and the file system *)

(** The order of [PathBuf] on two entries of one directory, which differ in
    their last component only: that of the names' bytes. *)
Definition file_name (p : PathBuf) : string := default EmptyString (last (path_components p)).

Definition path_le (a b : PathBuf) : Prop := strings.String.le (file_name a) (file_name b).

#[export] Instance path_le_dec : RelDecision path_le.
Proof. intros a b. unfold path_le. apply _. Defined.

Definition same_file_identity (first second : Metadata) : bool :=
  (md_dev first =? md_dev second) && (md_ino first =? md_ino second).

Inductive MeasurementCause :=
| Cause_Io | Cause_Symlink | Cause_SizeOverflow | Cause_SpecialNode | Cause_IdentityChanged.

Record QuotaMeasurementError := mkMeasurementError {
  qm_path : PathBuf;
  qm_source : MeasurementCause;
}.

(** [collect::<Result<Vec<_>, _>>]. *)
Fixpoint collect_entries (path : PathBuf) (entries : list (option PathBuf))
    : result (list PathBuf) QuotaMeasurementError :=
  match entries with
  | [] => Ok []
  | Some p :: entries' => let? rest := collect_entries path entries' in Ok (p :: rest)
  | None :: _ => Err (mkMeasurementError path Cause_Io)
  end.

(** The [while] loop.  The top of the [Vec] of pending paths is the head of the
    list, so that extending the [Vec] with the children in reverse puts them in
    front in order.  [None] is a loop that has not ended after [fuel] turns. *)
Fixpoint measure_loop (fs : Fs) (fuel call : nat) (pending : list PathBuf) (apparent_bytes : Z)
    : option (result Z QuotaMeasurementError) :=
  match pending with
  | [] => Some (Ok apparent_bytes)
  | path :: pending' =>
      match fuel with
      | O => None
      | S fuel' =>
          let fail cause := Some (Err (mkMeasurementError path cause)) in
          match fs_symlink_metadata fs call path with
          | None => fail Cause_Io
          | Some before =>
              if bool_decide (md_file_type before = FileType_Symlink) then fail Cause_Symlink
              else if bool_decide (md_file_type before = FileType_File) then
                match checked_add U64 apparent_bytes (md_len before) with
                | Some apparent_bytes' => measure_loop fs fuel' (S call) pending' apparent_bytes'
                | None => fail Cause_SizeOverflow
                end
              else if negb (bool_decide (md_file_type before = FileType_Dir)) then
                fail Cause_SpecialNode
              else
                match fs_read_dir fs (S call) path with
                | None => fail Cause_Io
                | Some entries =>
                    match collect_entries path entries with
                    | Err e => Some (Err e)
                    | Ok children =>
                        let children := merge_sort path_le children in
                        match fs_symlink_metadata fs (S (S call)) path with
                        | None => fail Cause_Io
                        | Some after =>
                            if bool_decide (md_file_type after = FileType_Symlink)
                                 || negb (bool_decide (md_file_type after = FileType_Dir))
                                 || negb (same_file_identity before after) then
                              fail Cause_IdentityChanged
                            else
                              measure_loop fs fuel' (S (S (S call))) (children ++ pending')
                                apparent_bytes
                        end
                    end
                end
          end
      end
  end.

Definition measure_run_directory (fs : Fs) (fuel : nat) (run_directory : PathBuf)
    : option (result Z QuotaMeasurementError) :=
  measure_loop fs fuel 0 [run_directory] 0.

(** ** The quota *)

Inductive QuotaFailureCode :=
| PredictedLimitExceeded | MeasuredLimitReached | Code_MeasurementFailed.

#[export] Instance QuotaFailureCode_eq_dec : EqDecision QuotaFailureCode.
Proof. solve_decision. Defined.

Definition QuotaFailureCode_as_str (c : QuotaFailureCode) : string :=
  match c with
  | PredictedLimitExceeded => "run_quota_predicted_limit_exceeded"
  | MeasuredLimitReached => "run_quota_measured_limit_reached"
  | Code_MeasurementFailed => "run_quota_measurement_failed"
  end.

Record QuotaFailure := mkQuotaFailure {
  qf_code : QuotaFailureCode;
  qf_limit_bytes : Z;
  qf_current_bytes : option Z;
  qf_predicted_growth_bytes : option Z;
  qf_path : option PathBuf;
}.

#[export] Instance QuotaFailure_eq_dec : EqDecision QuotaFailure.
Proof. solve_decision. Defined.

Definition QuotaFailure_predicted (limit current growth : Z) (path : PathBuf) : QuotaFailure :=
  mkQuotaFailure PredictedLimitExceeded limit (Some current) (Some growth) (Some path).

Definition QuotaFailure_measured (limit current : Z) (path : PathBuf) : QuotaFailure :=
  mkQuotaFailure MeasuredLimitReached limit (Some current) None (Some path).

Definition QuotaFailure_measurement (limit : Z) (current : option Z) (path : PathBuf) : QuotaFailure :=
  mkQuotaFailure Code_MeasurementFailed limit current None (Some path).

Inductive QuotaDecision := Disabled | WithinLimit (measured_bytes : Z).

Inductive QuotaError :=
| Quota_StatePoisoned
| Quota_Sealed (failure : QuotaFailure)
| Quota_LimitReached (failure : QuotaFailure)
| Quota_MeasurementFailed (failure : QuotaFailure).

Inductive QuotaConfigurationError := RunDirectoryNotAbsolute | LimitNotPositive.

Inductive QuotaStateError := QuotaState_StatePoisoned.

Record QuotaState := mkQuotaState {
  qs_current_measured_bytes : option Z;
  qs_last_measurement_at : option Z;
  qs_failure : option QuotaFailure;
}.

(** The shared part of a [RunQuota], with the bounded channel of one element
    that its [QuotaFailureReceiver] reads. *)
Record RunQuota := mkRunQuota {
  rq_run_directory : PathBuf;
  rq_max_run_bytes : option Z;
  rq_state : Mutex QuotaState;
  rq_channel : list QuotaFailure;
  rq_receiver_alive : bool;
}.

Definition RunQuota_new (run_directory : PathBuf) (max_run_bytes : option Z)
    : result RunQuota QuotaConfigurationError :=
  if negb (path_absolute run_directory) then Err RunDirectoryNotAbsolute
  else if bool_decide (max_run_bytes = Some 0) then Err LimitNotPositive
  else Ok (mkRunQuota run_directory max_run_bytes (Mutex_new (mkQuotaState None None None)) [] true).

Definition with_quota_state (q : RunQuota) (st : QuotaState) : RunQuota :=
  mkRunQuota (rq_run_directory q) (rq_max_run_bytes q) (with_guarded (rq_state q) st) (rq_channel q)
    (rq_receiver_alive q).

(** [SyncSender::try_send] on a channel of capacity one; the error is ignored. *)
Definition try_send (q : RunQuota) (failure : QuotaFailure) : RunQuota :=
  if rq_receiver_alive q && (list_len (rq_channel q) <? 1) then
    mkRunQuota (rq_run_directory q) (rq_max_run_bytes q) (rq_state q) (rq_channel q ++ [failure])
      (rq_receiver_alive q)
  else q.

Definition latch_failure (q : RunQuota) (failure : QuotaFailure) : RunQuota :=
  let state := guarded (rq_state q) in
  match qs_failure state with
  | Some _ => q
  | None =>
      try_send
        (with_quota_state q
           (mkQuotaState (qs_current_measured_bytes state) (qs_last_measurement_at state)
              (Some failure)))
        failure
  end.

Definition lock_active_state (q : RunQuota) : result QuotaState QuotaError :=
  let? state := lock (rq_state q) Quota_StatePoisoned in
  match qs_failure state with
  | Some failure => Err (Quota_Sealed failure)
  | None => Ok state
  end.

Definition measurement_failure (q : RunQuota) (failure : QuotaFailure) : RunQuota * QuotaError :=
  (latch_failure q failure, Quota_MeasurementFailed failure).

Definition limit_failure (q : RunQuota) (failure : QuotaFailure) : RunQuota * QuotaError :=
  (latch_failure q failure, Quota_LimitReached failure).

Definition failed {A} (x : RunQuota * QuotaError) : RunQuota * result A QuotaError := (x.1, Err x.2).

Definition measure (fs : Fs) (fuel : nat) (q : RunQuota) (now limit : Z)
    : option (RunQuota * result Z QuotaError) :=
  let state := guarded (rq_state q) in
  if match qs_last_measurement_at state with Some last => now <? last | None => false end then
    Some (failed (measurement_failure q
      (QuotaFailure_measurement limit (qs_current_measured_bytes state) (rq_run_directory q))))
  else
    measured ← measure_run_directory fs fuel (rq_run_directory q);
    match measured with
    | Ok measured =>
        Some (with_quota_state q (mkQuotaState (Some measured) (Some now) (qs_failure state)), Ok measured)
    | Err error =>
        Some (failed (measurement_failure q
          (QuotaFailure_measurement limit (qs_current_measured_bytes state) (qm_path error))))
    end.

Definition precheck (fs : Fs) (fuel : nat) (q : RunQuota) (now conservative_growth_bytes : Z)
    : option (RunQuota * result QuotaDecision QuotaError) :=
  match rq_max_run_bytes q with
  | None => Some (q, Ok Disabled)
  | Some limit =>
      match lock_active_state q with
      | Err e => Some (q, Err e)
      | Ok _ =>
          '(q, r) ← measure fs fuel q now limit;
          match r with
          | Err e => Some (q, Err e)
          | Ok measured =>
              if limit <=? measured then
                Some (failed (limit_failure q (QuotaFailure_measured limit measured (rq_run_directory q))))
              else if match checked_add U64 measured conservative_growth_bytes with
                      | Some bytes => limit <? bytes
                      | None => true
                      end then
                Some (failed (limit_failure q
                  (QuotaFailure_predicted limit measured conservative_growth_bytes (rq_run_directory q))))
              else Some (q, Ok (WithinLimit measured))
          end
      end
  end.

Definition post_growth_measurement (fs : Fs) (fuel : nat) (q : RunQuota) (now : Z)
    : option (RunQuota * result QuotaDecision QuotaError) :=
  match rq_max_run_bytes q with
  | None => Some (q, Ok Disabled)
  | Some limit =>
      match lock_active_state q with
      | Err e => Some (q, Err e)
      | Ok _ =>
          '(q, r) ← measure fs fuel q now limit;
          match r with
          | Err e => Some (q, Err e)
          | Ok measured =>
              if limit <=? measured then
                Some (failed (limit_failure q (QuotaFailure_measured limit measured (rq_run_directory q))))
              else Some (q, Ok (WithinLimit measured))
          end
      end
  end.

Record QuotaStatus := mkQuotaStatus {
  qst_max_run_bytes : option Z;
  qst_current_measured_bytes : option Z;
  qst_last_measurement_at : option Z;
  qst_failure : option QuotaFailure;
}.

Definition quota_status (q : RunQuota) : result QuotaStatus QuotaStateError :=
  let? state := lock (rq_state q) QuotaState_StatePoisoned in
  Ok (mkQuotaStatus (rq_max_run_bytes q) (qs_current_measured_bytes state)
        (qs_last_measurement_at state) (qs_failure state)).

Definition try_recv (q : RunQuota) : RunQuota * option QuotaFailure :=
  match rq_channel q with
  | [] => (q, None)
  | f :: channel =>
      (mkRunQuota (rq_run_directory q) (rq_max_run_bytes q) (rq_state q) channel (rq_receiver_alive q),
       Some f)
  end.
