(* ===== verification/QuotaSpec.v ===== *)
(** * The quota measures the run directory, and seals once

    The measurement of [Quota] against a reference: the run directory as a tree,
    its size as the sum over the tree.  Then the life of a quota as a step
    relation over the calls of its threads and of the receiver of its failure. *)

From stdpp Require Import sorting.
From S2P Require Import Prelude Files Quota.

(** ** Directory trees *)

(** The reference: sizes are added in the order of the names, and the first
    node that cannot be counted is the error. *)
Fixpoint tree_measure (p : PathBuf) (n : Node) (total : Z) : result Z QuotaMeasurementError :=
  match n with
  | Regular len => ok_or (checked_add U64 total len) (mkMeasurementError p Cause_SizeOverflow)
  | Symlink => Err (mkMeasurementError p Cause_Symlink)
  | Special => Err (mkMeasurementError p Cause_SpecialNode)
  | Directory entries => entries_measure p entries total
  end
with entries_measure (p : PathBuf) (es : Entries) (total : Z) : result Z QuotaMeasurementError :=
  match es with
  | NoEntry => Ok total
  | Entry name child es' =>
      let? total' := tree_measure (join_path p name) child total in entries_measure p es' total'
  end.

(** ** The measurement *)

Lemma collect_entries_some path names p :
  collect_entries path (map (fun name => Some (join_path p name)) names) = Ok (map (join_path p) names).
Proof. induction names as [|n names IH]; [done|]. cbn. by rewrite IH. Qed.

Lemma file_name_join p name : file_name (join_path p name) = name.
Proof. unfold file_name, join_path. cbn. by rewrite last_snoc. Qed.

Lemma StronglySorted_joined p names :
  StronglySorted strings.String.le names -> StronglySorted path_le (map (join_path p) names).
Proof.
  induction 1 as [|n names Hs IH Hf]; cbn; constructor; [done|].
  apply Forall_map. eapply Forall_impl; [exact Hf|]. intros m Hm.
  unfold path_le. by rewrite !file_name_join.
Qed.

#[export] Instance path_le_trans : Transitive path_le.
Proof. intros a b c. unfold path_le. intros. by etrans. Qed.

#[export] Instance path_le_total : Total path_le.
Proof. intros a b. unfold path_le. apply strings.String.le_total. Qed.

Lemma sort_children p names sorted :
  names ≡ₚ sorted -> StronglySorted strings.String.le sorted ->
  merge_sort path_le (map (join_path p) names) = map (join_path p) sorted.
Proof.
  intros Hp Hs. apply (StronglySorted_unique_strong path_le).
  - intros x y Hx Hy. rewrite merge_sort_Permutation in Hx.
    apply list_elem_of_fmap in Hx as (a & -> & _). apply list_elem_of_fmap in Hy as (b & -> & _).
    unfold path_le. rewrite !file_name_join. intros. f_equal. by apply (anti_symm strings.String.le).
  - apply StronglySorted_merge_sort; apply _.
  - by apply StronglySorted_joined.
  - rewrite merge_sort_Permutation. by apply Permutation_map.
Qed.

Lemma collect_shown fs call p names sorted :
  fs_read_dir fs call p = Some (map (fun name => Some (join_path p name)) names) ->
  names ≡ₚ sorted -> StronglySorted strings.String.le sorted ->
  exists entries children, fs_read_dir fs call p = Some entries /\
    collect_entries p entries = Ok children /\ merge_sort path_le children = map (join_path p) sorted.
Proof. intros. eexists _, _. split; [done|]. split; [apply collect_entries_some|by apply sort_children]. Qed.

(** One turn on a shown directory. *)
Lemma measure_loop_directory fs p es fuel call rest total :
  shows fs p (Directory es) ->
  measure_loop fs (S fuel) call (p :: rest) total =
  measure_loop fs fuel (S (S (S call))) (map (join_path p) (entry_names es) ++ rest) total.
Proof.
  intros ((dev & ino & Hm) & Hr & Hs & _). cbn [measure_loop].
  destruct (Hm call) as [len ->]. destruct (Hm (S (S call))) as [len' ->].
  destruct (Hr (S call)) as (names & Hn & Hp).
  destruct (collect_shown _ _ _ _ _ Hn Hp Hs) as (entries & children & -> & -> & ->).
  cbn. unfold same_file_identity. cbn. by rewrite !Z.eqb_refl.
Qed.

(** The loop consumes a shown subtree on the top of the stack, in as many turns
    as it has nodes. *)
Lemma measure_loop_shown fs :
  (forall n p fuel call rest total, shows fs p n ->
     match tree_measure p n total with
     | Ok total' => exists call', measure_loop fs (tree_nodes n + fuel) call (p :: rest) total =
                                  measure_loop fs fuel call' rest total'
     | Err e => measure_loop fs (tree_nodes n + fuel) call (p :: rest) total = Some (Err e)
     end) /\
  (forall es p fuel call rest total, shows_entries fs p es ->
     match entries_measure p es total with
     | Ok total' =>
         exists call', measure_loop fs (entries_nodes es + fuel) call
                         (map (join_path p) (entry_names es) ++ rest) total =
                       measure_loop fs fuel call' rest total'
     | Err e => measure_loop fs (entries_nodes es + fuel) call
                  (map (join_path p) (entry_names es) ++ rest) total = Some (Err e)
     end).
Proof.
  apply Node_Entries_ind.
  - intros len p fuel call rest total Hs. destruct (Hs call) as (dev & ino & Hm).
    cbn [tree_measure tree_nodes Nat.add measure_loop]. rewrite Hm. cbn.
    destruct (checked_add U64 total len); cbn; eauto.
  - intros p fuel call rest total Hs. destruct (Hs call) as (m & Hm & Ht). cbn. by rewrite Hm, Ht.
  - intros p fuel call rest total Hs. destruct (Hs call) as (m & Hm & Ht). cbn. by rewrite Hm, Ht.
  - intros es IH p fuel call rest total Hs. cbn [tree_measure tree_nodes Nat.add].
    rewrite (measure_loop_directory fs p es) by done.
    apply (IH p fuel (S (S (S call))) rest total). apply Hs.
  - intros p fuel call rest total _. cbn. eauto.
  - intros name n IHn es IHe p fuel call rest total [Hn He].
    cbn [entries_measure entries_nodes entry_names map app].
    rewrite <-Nat.add_assoc.
    specialize (IHn (join_path p name) (entries_nodes es + fuel)%nat call
                  (map (join_path p) (entry_names es) ++ rest) total Hn).
    destruct (tree_measure (join_path p name) n total) as [total'|e]; cbn [result_bind]; [|exact IHn].
    destruct IHn as [call' ->]. by apply IHe.
Qed.

Lemma tree_measure_ok :
  (forall n p total total', 0 <= total <= int_max U64 -> sizes_nonneg n ->
     tree_measure p n total = Ok total' <->
     countable_tree n /\ total' = total + tree_bytes n /\ total' <= int_max U64) /\
  (forall es p total total', 0 <= total <= int_max U64 -> entries_nonneg es ->
     entries_measure p es total = Ok total' <->
     entries_countable es /\ total' = total + entries_bytes es /\ total' <= int_max U64).
Proof.
  destruct tree_bytes_nonneg_both as [Hn He].
  apply Node_Entries_ind; cbn [tree_measure entries_measure sizes_nonneg entries_nonneg countable_tree
    entries_countable tree_bytes entries_bytes].
  - intros len p total total' Ht Hl. unfold ok_or, checked_add.
    destruct (checked U64 (total + len)) as [z|] eqn:E.
    + apply checked_some in E as [-> ?]. split; [intros [= <-]|intros (_ & -> & _)]; [|done].
      split_and!; [done..|lia].
    + apply checked_none in E. split; [done|]. unfold int_min in *. lia.
  - naive_solver.
  - naive_solver.
  - intros es IH p total total' Ht Hs. by apply IH.
  - intros p total total' Ht _. split; [intros [= <-]|intros (_ & -> & _)]; [|f_equal; lia].
    split_and!; [done|lia..].
  - intros name n IHn es IHe p total total' Ht [Hsn Hse]. rewrite result_bind_ok. split.
    + intros (t1 & E1 & E2). apply IHn in E1 as (? & -> & ?); [|done..].
      apply IHe in E2 as (? & -> & ?); [split_and!; [done..|lia|lia]| |done].
      specialize (Hn n Hsn). lia.
    + intros ([Hc1 Hc2] & -> & Hle). pose proof (Hn n Hsn). pose proof (He es Hse).
      exists (total + tree_bytes n). split.
      * apply IHn; [done..|]. split_and!; [done..|lia].
      * apply IHe; [lia|done|]. split_and!; [done|lia|lia].
Qed.

Lemma measure_shown fs root tree fuel :
  shows fs root tree -> (tree_nodes tree <= fuel)%nat ->
  measure_run_directory fs fuel root = Some (tree_measure root tree 0).
Proof.
  intros Hs Hf. unfold measure_run_directory.
  pose proof (proj1 (measure_loop_shown fs) tree root (fuel - tree_nodes tree)%nat 0%nat [] 0 Hs) as H.
  replace (tree_nodes tree + (fuel - tree_nodes tree))%nat with fuel in H by lia.
  destruct (tree_measure root tree 0) as [total|e]; [|done].
  destruct H as [call' ->]. by destruct (fuel - tree_nodes tree)%nat.
Qed.

(** C40: the measurement of a run directory that nobody changes meanwhile ends,
    in as many turns as the tree has nodes, whatever order the system lists
    entries in: it is the sum of the sizes of the files when the tree has only
    files and directories and the sum is a [u64]; otherwise it is the error of
    the first node, in the order of the sorted names, that cannot be counted. *)
Theorem measure_run_directory_exact fs root tree fuel :
  shows fs root tree -> sizes_nonneg tree -> (tree_nodes tree <= fuel)%nat ->
  measure_run_directory fs fuel root = Some (tree_measure root tree 0) /\
  (forall total, measure_run_directory fs fuel root = Some (Ok total) <->
     countable_tree tree /\ total = tree_bytes tree /\ total <= int_max U64).
Proof.
  intros Hs Hn Hf. rewrite (measure_shown fs root tree fuel Hs Hf). split; [done|]. intros total.
  pose proof (proj1 tree_measure_ok tree root 0 total) as H.
  rewrite (inj_iff Some), H by (first [done | cbn; lia]). by rewrite Z.add_0_l.
Qed.

(** ** The life of a quota *)

Lemma latch_first q f :
  qs_failure (guarded (rq_state q)) = None ->
  rq_run_directory (latch_failure q f) = rq_run_directory q /\
  rq_max_run_bytes (latch_failure q f) = rq_max_run_bytes q /\
  rq_receiver_alive (latch_failure q f) = rq_receiver_alive q /\
  rq_state (latch_failure q f) =
    with_guarded (rq_state q)
      (mkQuotaState (qs_current_measured_bytes (guarded (rq_state q)))
         (qs_last_measurement_at (guarded (rq_state q))) (Some f)) /\
  rq_channel (latch_failure q f) =
    if rq_receiver_alive q && (list_len (rq_channel q) <? 1) then rq_channel q ++ [f] else rq_channel q.
Proof.
  intros E. unfold latch_failure. rewrite E. unfold try_send, with_quota_state. cbn.
  by destruct (_ && _).
Qed.

(** What an operation may do to the shared state: nothing, a new measurement
    below the limit, or one failure, after a measurement or without one. *)
Definition quota_measured (q : RunQuota) (bytes now : Z) : RunQuota :=
  with_quota_state q (mkQuotaState (Some bytes) (Some now) (qs_failure (guarded (rq_state q)))).

Inductive quota_effect (q : RunQuota) (limit : Z) : RunQuota -> Prop :=
| effect_within bytes now :
    bytes < limit -> quota_effect q limit (quota_measured q bytes now)
| effect_limit bytes now f :
    quota_effect q limit (latch_failure (quota_measured q bytes now) f)
| effect_unmeasured f : quota_effect q limit (latch_failure q f).

Lemma lock_active_state_ok q st :
  lock_active_state q = Ok st <->
  mutex_poisoned (rq_state q) = false /\ st = guarded (rq_state q) /\ qs_failure st = None.
Proof.
  unfold lock_active_state, lock. destruct (mutex_poisoned (rq_state q)); cbn; [naive_solver|].
  destruct (qs_failure (guarded (rq_state q))) eqn:E; naive_solver congruence.
Qed.

Lemma sealed_lock q f :
  mutex_poisoned (rq_state q) = false -> qs_failure (guarded (rq_state q)) = Some f ->
  lock_active_state q = Err (Quota_Sealed f).
Proof. intros Hp Hf. unfold lock_active_state, lock. rewrite Hp. cbn. by rewrite Hf. Qed.

Lemma measure_effect fs fuel q now limit q' r :
  measure fs fuel q now limit = Some (q', r) ->
  match r with
  | Ok bytes => q' = quota_measured q bytes now
  | Err _ => exists f, q' = latch_failure q f
  end.
Proof.
  unfold measure. destruct (match qs_last_measurement_at _ with Some _ => _ | None => _ end).
  - intros [= <- <-]%Some_inj. eauto.
  - intros (m & _ & Hm)%bind_Some. destruct m; simplify_eq/=; [done|].
    injection Hm as <- <-. eauto.
Qed.

Definition quota_call (q : RunQuota) (r : option (RunQuota * result QuotaDecision QuotaError)) : Prop :=
  exists fs fuel now,
    r = post_growth_measurement fs fuel q now \/
    exists growth, r = precheck fs fuel q now growth.

Lemma quota_call_effect q r q' d limit :
  quota_call q r -> r = Some (q', d) -> rq_max_run_bytes q = Some limit ->
  q' = q \/ (qs_failure (guarded (rq_state q)) = None /\ quota_effect q limit q').
Proof.
  intros (fs & fuel & now & [->|(growth & ->)]) Hr Hl; revert Hr;
    unfold post_growth_measurement, precheck; rewrite Hl;
    (destruct (lock_active_state q) as [st|e] eqn:L; [|intros; simplify_eq; auto]);
    apply lock_active_state_ok in L as (_ & -> & Hf);
    (destruct (measure fs fuel q now limit) as [[q1 [m|e]]|] eqn:M; [| |done]);
    apply measure_effect in M; cbn [mbind option_bind]; intros Hr;
    [subst q1|destruct M as [f ->]| subst q1|destruct M as [f ->]];
    repeat (case_match; try done); injection Hr as <- <-; right; (split; [done|]);
    first [apply effect_limit | apply effect_within; lia | apply effect_unmeasured].
Qed.

(** The calls of the writer's threads and of the receiver, with what the
    receiver has received so far. *)
Inductive quota_reach (dir : PathBuf) (limit : Z) : RunQuota -> list QuotaFailure -> Prop :=
| quota_start q : RunQuota_new dir (Some limit) = Ok q -> quota_reach dir limit q []
| quota_checked q got r q' d :
    quota_reach dir limit q got -> quota_call q r -> r = Some (q', d) -> quota_reach dir limit q' got
| quota_received q got q' r :
    quota_reach dir limit q got -> try_recv q = (q', r) ->
    quota_reach dir limit q' (got ++ match r with Some f => [f] | None => [] end).

Record quota_inv (dir : PathBuf) (limit : Z) (q : RunQuota) (got : list QuotaFailure) : Prop := {
  qi_dir : rq_run_directory q = dir;
  qi_limit : rq_max_run_bytes q = Some limit;
  qi_alive : rq_receiver_alive q = true;
  qi_poison : mutex_poisoned (rq_state q) = false;
  qi_sent : got ++ rq_channel q =
    match qs_failure (guarded (rq_state q)) with Some f => [f] | None => [] end;
  qi_within : qs_failure (guarded (rq_state q)) = None ->
    forall bytes, qs_current_measured_bytes (guarded (rq_state q)) = Some bytes -> bytes < limit;
}.

Lemma quota_inv_latch dir limit q got f :
  quota_inv dir limit q got -> qs_failure (guarded (rq_state q)) = None ->
  quota_inv dir limit (latch_failure q f) got.
Proof.
  intros [Hd Hl Ha Hp Hs Hw] Hf. destruct (latch_first q f Hf) as (E1 & E2 & E3 & E4 & E5).
  rewrite Hf in Hs. apply app_eq_nil in Hs as [-> Hc].
  constructor; rewrite ?E1, ?E2, ?E3, ?E4, ?E5; try done.
  rewrite Ha, Hc. done.
Qed.

Lemma quota_reach_inv dir limit q got : quota_reach dir limit q got -> quota_inv dir limit q got.
Proof.
  induction 1 as [q Hn|q got r q' d _ I Hc Hr|q got q' r _ I Hr].
  - unfold RunQuota_new in Hn. repeat (case_match; simplify_eq/=). by constructor.
  - destruct (quota_call_effect q r q' d limit Hc Hr (qi_limit _ _ _ _ I)) as [->|[Hf He]]; [done|].
    assert (Hm : forall bytes now, bytes < limit -> quota_inv dir limit (quota_measured q bytes now) got).
    { intros bytes now Hb. destruct I. constructor; cbn; try done. by intros _ ? [= <-]. }
    destruct He as [bytes now Hb|bytes now f|f]; [by apply Hm| |by apply quota_inv_latch].
    destruct I as [Hd Hl Ha Hp Hs Hw].
    destruct (latch_first (quota_measured q bytes now) f Hf) as (E1 & E2 & E3 & E4 & E5).
    rewrite Hf in Hs. apply app_eq_nil in Hs as [-> Hc'].
    constructor; rewrite ?E1, ?E2, ?E3, ?E4, ?E5; cbn; try done. by rewrite Ha, Hc'.
  - unfold try_recv in Hr. destruct (rq_channel q) as [|f ch] eqn:E; simplify_eq.
    + by rewrite app_nil_r.
    + destruct I as [Hd Hl Ha Hp Hs Hw]. constructor; cbn; try done.
      rewrite <-Hs, E. by rewrite <-app_assoc.
Qed.

(** A run quota fails once.  Over every history of measurements and
    receptions: the receiver is given exactly the failure that the status shows,
    once; every call after the failure is refused with that failure, without a
    measurement and without a change; and while there is no failure the last
    measurement is below the limit. *)
Theorem quota_seals_once dir limit q got :
  quota_reach dir limit q got ->
  exists st, quota_status q = Ok st /\ qst_max_run_bytes st = Some limit /\
  match qst_failure st with
  | None =>
      got = [] /\ try_recv q = (q, None) /\
      forall bytes, qst_current_measured_bytes st = Some bytes -> bytes < limit
  | Some f =>
      (got = [f] /\ try_recv q = (q, None) \/ got = [] /\ (try_recv q).2 = Some f) /\
      forall fs fuel now growth,
        precheck fs fuel q now growth = Some (q, Err (Quota_Sealed f)) /\
        post_growth_measurement fs fuel q now = Some (q, Err (Quota_Sealed f))
  end.
Proof.
  intros [Hd Hl Ha Hp Hs Hw]%quota_reach_inv. unfold quota_status, lock. rewrite Hp. cbn [result_bind].
  eexists. split; [done|]. split; [done|]. cbn [qst_failure qst_current_measured_bytes].
  destruct (qs_failure (guarded (rq_state q))) as [f|] eqn:Hf.
  - split.
    + unfold try_recv. destruct got as [|f' got]; cbn in Hs.
      * right. by rewrite Hs.
      * left. injection Hs as -> [-> Hc]%app_eq_nil. by rewrite Hc.
    + intros fs fuel now growth. unfold precheck, post_growth_measurement.
      by rewrite Hl, (sealed_lock q f).
  - apply app_eq_nil in Hs as [-> Hc]. unfold try_recv. rewrite Hc. auto.
Qed.

(** The decision on a tree of [bytes] before the store grows by [growth]. *)
Definition precheck_verdict (dir : PathBuf) (limit bytes growth : Z) : option QuotaFailure :=
  if limit <=? bytes then Some (QuotaFailure_measured limit bytes dir)
  else if limit <? bytes + growth then Some (QuotaFailure_predicted limit bytes growth dir)
  else None.

Lemma measure_now fs root tree fuel q now limit :
  shows fs root tree -> (tree_nodes tree <= fuel)%nat -> rq_run_directory q = root ->
  (forall last, qs_last_measurement_at (guarded (rq_state q)) = Some last -> last <= now) ->
  measure fs fuel q now limit =
  Some match tree_measure root tree 0 with
       | Ok bytes => (quota_measured q bytes now, Ok bytes)
       | Err e =>
           failed (measurement_failure q (QuotaFailure_measurement limit
             (qs_current_measured_bytes (guarded (rq_state q))) (qm_path e)))
       end.
Proof.
  intros Hs Hf Hd Hclock. unfold measure. rewrite Hd, (measure_shown fs root tree fuel Hs Hf).
  destruct (qs_last_measurement_at (guarded (rq_state q))) as [last|].
  - specialize (Hclock last eq_refl). destruct (Z.ltb_spec now last); [lia|].
    cbn. by destruct (tree_measure root tree 0).
  - cbn. by destruct (tree_measure root tree 0).
Qed.

Lemma precheck_active q limit :
  rq_max_run_bytes q = Some limit -> mutex_poisoned (rq_state q) = false ->
  qs_failure (guarded (rq_state q)) = None ->
  lock_active_state q = Ok (guarded (rq_state q)).
Proof. intros Hl Hp Hf. apply lock_active_state_ok. auto. Qed.

(** Before the store grows, an active quota whose directory is a tree that
    does not change decides exactly by the tree: a tree that can be counted is
    within the limit when its bytes are below the limit and its bytes with the
    growth do not exceed it, and the measurement is recorded; otherwise the
    failure returned is the one recorded, and names the reason. *)
Theorem precheck_exact dir limit q got fs tree fuel now growth :
  quota_reach dir limit q got -> qs_failure (guarded (rq_state q)) = None ->
  (forall last, qs_last_measurement_at (guarded (rq_state q)) = Some last -> last <= now) ->
  shows fs dir tree -> sizes_nonneg tree -> (tree_nodes tree <= fuel)%nat ->
  0 <= growth -> limit <= int_max U64 ->
  exists q' d, precheck fs fuel q now growth = Some (q', d) /\
  match tree_measure dir tree 0 with
  | Ok bytes =>
      bytes = tree_bytes tree /\
      qs_current_measured_bytes (guarded (rq_state q')) = Some bytes /\
      qs_last_measurement_at (guarded (rq_state q')) = Some now /\
      qs_failure (guarded (rq_state q')) = precheck_verdict dir limit bytes growth /\
      d = match precheck_verdict dir limit bytes growth with
          | Some f => Err (Quota_LimitReached f)
          | None => Ok (WithinLimit bytes)
          end
  | Err e =>
      let f := QuotaFailure_measurement limit
                 (qs_current_measured_bytes (guarded (rq_state q))) (qm_path e) in
      qs_failure (guarded (rq_state q')) = Some f /\ d = Err (Quota_MeasurementFailed f)
  end.
Proof.
  intros R Hf Hclock Hs Hn Hfuel Hg Hmax. apply quota_reach_inv in R as [Hd Hl Ha Hp _ _].
  pose proof (proj1 tree_measure_ok tree dir 0) as Hok.
  unfold precheck. rewrite Hl, (precheck_active q limit Hl Hp Hf).
  rewrite (measure_now fs dir tree fuel q now limit Hs Hfuel Hd Hclock).
  destruct (tree_measure dir tree 0) as [bytes|e]; cbn [mbind option_bind].
  - destruct (proj1 (Hok bytes ltac:(cbn; lia) Hn) eq_refl) as (_ & Hb & Hbm).
    assert (Hadd : match checked_add U64 bytes growth with
                   | Some bytes => limit <? bytes | None => true end = (limit <? bytes + growth)).
    { unfold checked_add. destruct (checked U64 (bytes + growth)) as [z|] eqn:E.
      - by apply checked_some in E as [-> _].
      - apply checked_none in E. symmetry. apply Z.ltb_lt. unfold int_min in *.
        pose proof (tree_bytes_nonneg tree Hn). lia. }
    unfold precheck_verdict. rewrite Hadd.
    change (rq_run_directory (quota_measured q bytes now)) with (rq_run_directory q). rewrite Hd.
    destruct (limit <=? bytes); [|destruct (limit <? bytes + growth)];
      eexists _, _; (split; [reflexivity|]);
      first [ unfold limit_failure, failed; cbn [fst snd];
              edestruct (latch_first (quota_measured q bytes now)) as (_ & _ & _ & E & _);
                [exact Hf|rewrite E]; cbn; rewrite Z.add_0_l in Hb; by split_and!
            | cbn; rewrite Z.add_0_l in Hb; by split_and!].
  - eexists _, _. split; [reflexivity|]. cbn [fst snd measurement_failure failed].
    edestruct (latch_first q) as (_ & _ & _ & -> & _); [exact Hf|]. done.
Qed.

(** ** Witnesses *)

Definition sample_dir : PathBuf := mkPath true ["run"%string].

Definition sample_tree : Node :=
  Directory (Entry "events" (Regular 10) (Entry "store" (Directory (Entry "wal" (Regular 5) NoEntry)) NoEntry)).

(** The system lists the run directory in the other order. *)
Definition sample_fs : Fs :=
  let dir := mkMetadata FileType_Dir 4096 1 1 in
  mkFs
    (fun _ p =>
       if bool_decide (p = sample_dir) then Some dir
       else if bool_decide (p = join_path sample_dir "store") then Some dir
       else if bool_decide (p = join_path sample_dir "events") then Some (mkMetadata FileType_File 10 1 2)
       else if bool_decide (p = join_path (join_path sample_dir "store") "wal") then
         Some (mkMetadata FileType_File 5 1 3)
       else None)
    (fun _ p =>
       if bool_decide (p = sample_dir) then
         Some [Some (join_path sample_dir "store"); Some (join_path sample_dir "events")]
       else if bool_decide (p = join_path sample_dir "store") then
         Some [Some (join_path (join_path sample_dir "store") "wal")]
       else None).

Lemma sample_shows : shows sample_fs sample_dir sample_tree.
Proof.
  cbn [sample_tree shows shows_entries entry_names]. split_and!; try done.
  - exists 1, 1. intros call. by exists 4096.
  - intros call. exists ["store"; "events"]%string. split; [reflexivity|apply Permutation_swap].
  - repeat constructor.
  - intros call. by exists 1, 2.
  - exists 1, 1. intros call. by exists 4096.
  - intros call. exists ["wal"]%string. by split.
  - repeat constructor.
  - intros call. by exists 1, 3.
Qed.

Definition sample_quota (limit : Z) : RunQuota :=
  mkRunQuota sample_dir (Some limit) (Mutex_new (mkQuotaState None None None)) [] true.

Lemma sample_quota_reach limit : limit <> 0 -> quota_reach sample_dir limit (sample_quota limit) [].
Proof.
  intros H. apply quota_start. unfold RunQuota_new. cbn.
  destruct (bool_decide_reflect (Some limit = Some 0)); [congruence|done].
Qed.

Lemma measure_run_directory_exact_witness :
  measure_run_directory sample_fs 4 sample_dir = Some (Ok 15).
Proof.
  apply (measure_run_directory_exact sample_fs sample_dir sample_tree 4 sample_shows); cbn.
  - repeat split; lia.
  - lia.
  - split_and!; lia || done.
Defined.

Lemma quota_seals_once_witness :
  exists st, quota_status (sample_quota 20) = Ok st /\ qst_max_run_bytes st = Some 20.
Proof.
  destruct (quota_seals_once sample_dir 20 (sample_quota 20) [] (sample_quota_reach 20 ltac:(done)))
    as (st & ? & ? & _). by exists st.
Defined.

Lemma precheck_exact_witness :
  exists q', precheck sample_fs 4 (sample_quota 20) 7 6 =
             Some (q', Err (Quota_LimitReached (QuotaFailure_predicted 20 15 6 sample_dir))).
Proof.
  destruct (precheck_exact sample_dir 20 (sample_quota 20) [] sample_fs sample_tree 4 7 6
              (sample_quota_reach 20 ltac:(done)) eq_refl ltac:(done) sample_shows
              ltac:(cbn; repeat split; lia) ltac:(cbn; lia) ltac:(lia) ltac:(cbn; lia))
    as (q' & d & E & H).
  cbn in H. exists q'. rewrite E. destruct H as (_ & _ & _ & _ & ->). reflexivity.
Defined.
