(* ===== verification/Pipeline.v ===== *)
(** * The durable pipeline: hub, ingress, accumulator and writer

    Composes the components the way the code does.  Producers admit events
    through the hub, which holds a reservation of the ingress while it
    validates; the writer thread ([run_writer] and [commit_batch] of
    [rust/src/diagnostic_runtime/bootstrap.rs], [commit_batch_with_hook] of
    [store/writer.rs]) dequeues, accumulates and commits.  The threads share
    only the ingress, whose operations are atomic, so their interleavings are
    the sequences of [pipeline_step]: an admission is two steps (up to the
    reservation, and the rest), between which the writer may work.

    The transaction is a parameter of the commit: [RolledBack] stands for every
    failure before the commit, [CommittedUnvalidated] for a commit whose check
    afterwards fails.  [Writer] models the transaction itself; [WriterSystem]
    proves that it is a refinement of this one, and [WriterLive] when it
    commits. *)

From S2P Require Import Prelude Wire Scalar Kinds Detail Event Validate ValidateSpec Hub HubSpec Key Batch Ingress IngressSpec.
From Stdlib Require Import Relations.

(** ** The writer *)

Inductive TransactionOutcome := RolledBack | CommittedUnvalidated | Committed.

Record WriterState := mkWriterState {
  ws_watermark : CommittedWatermark;
  ws_store : list AcceptedDiagnosticEvent;
}.

(** [commit_batch_with_hook]: [None] is a panic, the boolean is [is_ok]. *)
Definition commit_batch (outcome : TransactionOutcome) (w : WriterState) (i : MandatoryIngress)
    (batch : EventBatch) : option (WriterState * MandatoryIngress * bool) :=
  candidate ← watermark_candidate (ws_watermark w) batch;
  match candidate with
  | Err _ => Some (w, i, false)
  | Ok notification =>
      match outcome with
      | RolledBack => Some (w, i, false)
      | CommittedUnvalidated =>
          Some (mkWriterState (ws_watermark w) (ws_store w ++ eb_events batch), i, false)
      | Committed =>
          match watermark_advance (ws_watermark w) notification with
          | Err _ => None
          | Ok watermark =>
              Some (mkWriterState watermark (ws_store w ++ eb_events batch),
                    observer_committed i notification, true)
          end
      end
  end.

(** ** The system *)

Section Pipeline.
Context {N : Type}.
Context (to_vec : DiagnosticEvent -> option (list ascii)).
Context (notify : N -> AcceptedDiagnosticEvent -> N * result unit DeliveryFailure).

(** [pl_log] and [pl_confirmed] are history: the accepted events and the events
    whose commit was reported to the ingress. *)
Record Pipeline := mkPipeline {
  pl_hub : HubState MandatoryIngress N;
  pl_pending : option (Pending IngressReservation);
  pl_accumulator : BatchAccumulator;
  pl_batch : option EventBatch;
  pl_writer : WriterState;
  pl_running : bool;
  pl_log : list AcceptedDiagnosticEvent;
  pl_confirmed : list AcceptedDiagnosticEvent;
}.

Abbreviation pl_ingress p := (hs_reserver (pl_hub p)).

Definition pipeline_init (run_id : CanonicalUuid) (notifier : option N) : Pipeline :=
  mkPipeline (mkHubState run_id (Some 1) MandatoryIngress_new ReferenceValidator_new notifier)
    None BatchAccumulator_new None (mkWriterState (watermark_fresh run_id) []) true [] [].

(** Operations of the ingress that neither admit nor drain. *)
Inductive side_op (i : MandatoryIngress) : MandatoryIngress -> Prop :=
| side_begin_cue : side_op i (ingress_begin_cue_capture i).1
| side_finish_cue : side_op i (ingress_finish_cue_capture i).1
| side_seal : side_op i (seal_normal_ingress i).1
| side_seal_external : side_op i (seal_for_external_core_failure i).1
| side_receive : side_op i (failure_try_recv i).1.

(** The hub part and the writer part of the system after a step. *)
Definition with_hub (p : Pipeline) hub pending log : Pipeline :=
  mkPipeline hub pending (pl_accumulator p) (pl_batch p) (pl_writer p) (pl_running p) log
    (pl_confirmed p).

Definition with_writer (p : Pipeline) (i : MandatoryIngress) acc batch w running confirmed
    : Pipeline :=
  mkPipeline (set_reserver (pl_hub p) i) (pl_pending p) acc batch w running (pl_log p) confirmed.

Definition triggered (r : result (option TriggeredBatch) BatchError) : option EventBatch :=
  match r with Ok (Some t) => Some (tb_batch t) | _ => None end.

Inductive pipeline_step : Pipeline -> Pipeline -> Prop :=
| pl_reserve p candidate class hub' r :
    pl_pending p = None ->
    admit_reserve to_vec (pl_hub p) candidate (fun i size => reserve i size class) = (hub', r) ->
    pipeline_step p
      (with_hub p hub' (match r with Ok x => Some x | Err _ => None end) (pl_log p))
| pl_admit p x hub' r :
    pl_pending p = Some x ->
    admit_commit notify (pl_hub p) x = (hub', r) ->
    pipeline_step p
      (with_hub p hub' None (pl_log p ++ match r with Ok (a, _) => [a] | Err _ => [] end))
| pl_side p i' :
    side_op (pl_ingress p) i' ->
    pipeline_step p (with_hub p (set_reserver (pl_hub p) i') (pl_pending p) (pl_log p))
| pl_push p i' event now acc' r :
    pl_running p = true -> pl_batch p = None ->
    try_dequeue (pl_ingress p) = (i', Ok (Some event)) ->
    push (pl_accumulator p) event now = (acc', r) ->
    pipeline_step p
      (with_writer p i' acc' (triggered r) (pl_writer p) (is_ok r) (pl_confirmed p))
| pl_poll p now acc' r :
    pl_running p = true -> pl_batch p = None -> poll (pl_accumulator p) now = (acc', r) ->
    pipeline_step p
      (with_writer p (pl_ingress p) acc' (triggered r) (pl_writer p) (is_ok r) (pl_confirmed p))
| pl_flush p acc' r :
    pl_running p = true -> pl_batch p = None -> flush (pl_accumulator p) = (acc', r) ->
    pipeline_step p
      (with_writer p (pl_ingress p) acc' (triggered r) (pl_writer p) (is_ok r) (pl_confirmed p))
| pl_commit p outcome batch w' i' ok :
    pl_running p = true -> pl_batch p = Some batch ->
    commit_batch outcome (pl_writer p) (pl_ingress p) batch = Some (w', i', ok) ->
    pipeline_step p
      (with_writer p i' (pl_accumulator p) (if ok then None else Some batch) w' ok
         (if ok then pl_confirmed p ++ eb_events batch else pl_confirmed p))
| pl_stop p :
    pipeline_step p
      (with_writer p (pl_ingress p) (pl_accumulator p) (pl_batch p) (pl_writer p) false
         (pl_confirmed p)).

(** ** The invariant *)

Definition batch_events (p : Pipeline) : list AcceptedDiagnosticEvent :=
  match pl_batch p with Some b => eb_events b | None => [] end.

(** The events the writer works on. *)
Definition working (p : Pipeline) : list AcceptedDiagnosticEvent :=
  batch_events p ++ ba_pending (pl_accumulator p).

Definition tracked (phase : DeliveryPhase) (a : AcceptedDiagnosticEvent) : TrackedEvent :=
  mkTrackedEvent a (accepted_bytes a) phase.

(** The ledger of the ingress: the in-flight events, and the queued ones. *)
Definition ledger (flight queue : list AcceptedDiagnosticEvent) : list TrackedEvent :=
  (tracked InFlight <$> flight) ++ (tracked Queued <$> queue).

Record ingress_sync (run_id : CanonicalUuid) (s : IngressState)
    (confirmed flight queue : list AcceptedDiagnosticEvent) : Prop := {
  sync_ledger : is_outstanding s = ledger flight queue;
  sync_committed : is_committed_sequence s = list_len confirmed;
  sync_run : forall r, is_run_id s = Some r -> r = run_id;
  sync_failure : forall f, is_failure s = Some f -> icf_kind f <> CommitAccounting;
}.

Definition live_of (p : Pipeline) : list IngressReservation :=
  match pl_pending p with Some x => [pending_reservation x] | None => [] end.

(** What the first half of an admission hands to the second. *)
Definition pending_ok (run_id : CanonicalUuid) (log : list AcceptedDiagnosticEvent)
    (x : Pending IngressReservation) : Prop :=
  event_identity (pending_event x) = mkEventIdentity run_id (list_len log + 1) /\
  pending_next x = list_len log + 1 /\ list_len log < int_max U64 /\
  ir_size (pending_reservation x) = one_event (list_len (pending_bytes x)).

Record pipe_ok (run_id : CanonicalUuid) (p : Pipeline) : Prop := {
  po_core : hub_core run_id (pl_log p) (pl_hub p);
  po_length : list_len (pl_log p) <= int_max U64;
  po_pending : forall x, pl_pending p = Some x -> pending_ok run_id (pl_log p) x;
  po_state : state_ok (ingress_state (pl_ingress p)) (live_of p);
  po_unpoisoned : mutex_poisoned (mi_state (pl_ingress p)) = false;
  po_sync : exists lost queue,
    pl_log p = pl_confirmed p ++ working p ++ lost ++ queue /\
    ingress_sync run_id (ingress_state (pl_ingress p)) (pl_confirmed p) (working p ++ lost) queue /\
    (pl_running p = true -> lost = []);
  po_acc : acc_ok (pl_accumulator p);
  po_acc_last : pl_running p = true ->
    ba_last_sequence (pl_accumulator p) =
      (fun a => accepted_sequence a) <$> last (pl_confirmed p ++ working p);
  po_acc_run : forall r, ba_run_id (pl_accumulator p) = Some r -> r = run_id;
  po_batch : forall b, pl_batch p = Some b -> EventBatch_new (eb_events b) = Ok b;
  po_watermark : ws_watermark (pl_writer p) =
    mkCommittedWatermark run_id (SortableU64Key_new (list_len (pl_confirmed p)));
  po_store : ws_store (pl_writer p) = pl_confirmed p \/
    (pl_running p = false /\ ws_store (pl_writer p) = pl_confirmed p ++ batch_events p);
}.
End Pipeline.
