(* ===== verification/PipelineSpec.v ===== *)
(** * Correctness of the durable pipeline

    [pipe_ok] holds in every reachable state; from it follow the theorems: the
    store is always a prefix of the accepted events, the ingress accounting
    never fails, and the writer can always drain what was accepted. *)

From S2P Require Import Prelude Wire Scalar Kinds Detail Event Validate ValidateSpec Hub HubSpec Key Batch Ingress IngressSpec Pipeline.
From Stdlib Require Import Relations.

(** ** Operations that leave the ledger alone *)

Definition ledger_kept (s s' : IngressState) : Prop :=
  is_outstanding s' = is_outstanding s /\ is_committed_sequence s' = is_committed_sequence s /\
  is_run_id s' = is_run_id s /\
  forall f, is_failure s' = Some f -> is_failure s = Some f \/ icf_kind f = BudgetExhausted.

Lemma ledger_kept_refl s : ledger_kept s s.
Proof. repeat split; auto. Qed.

Lemma ledger_kept_sync run_id s s' confirmed flight queue :
  ledger_kept s s' -> ingress_sync run_id s confirmed flight queue ->
  ingress_sync run_id s' confirmed flight queue.
Proof.
  intros (Ho & Hc & Hr & Hf) [S1 S2 S3 S4]. constructor.
  - by rewrite Ho.
  - by rewrite Hc.
  - intros r. rewrite Hr. apply S3.
  - intros f H. destruct (Hf f H) as [H'|H']; [by apply S4|congruence].
Qed.

Lemma latch_budget_kept i s f :
  icf_kind f = BudgetExhausted -> ledger_kept s (ingress_state (latch_failure i s f)).
Proof.
  intros Hk. unfold latch_failure. destruct (is_failure s) as [g|] eqn:E.
  - repeat split. intros f' H. left. cbn in H. congruence.
  - repeat split. intros f' H. right. cbn in H. congruence.
Qed.

Lemma reserve_kept i size class :
  ledger_kept (ingress_state i) (ingress_state (reserve i size class).1).
Proof.
  unfold reserve. destruct (negb _); [apply ledger_kept_refl|].
  destruct (mutex_poisoned _); [apply ledger_kept_refl|].
  destruct (class_guard _ _); [|apply ledger_kept_refl]. destruct (exceeds _ _ || _).
  - case_bool_decide; [apply ledger_kept_refl|]. by apply latch_budget_kept.
  - cbn. destruct (bool_decide (class = Fatal)); destruct (bool_decide (class = Cue) && _);
      repeat split; auto.
Qed.

Lemma drop_kept i res : ledger_kept (ingress_state i) (ingress_state (ingress_drop i res)).
Proof. unfold ingress_drop. cbn zeta. destruct (_ && _); repeat split; auto. Qed.

Lemma side_op_kept i i' live :
  side_op i i' -> mutex_poisoned (mi_state i) = false -> state_ok (ingress_state i) live ->
  ledger_kept (ingress_state i) (ingress_state i') /\ state_ok (ingress_state i') live /\
  mutex_poisoned (mi_state i') = false.
Proof.
  intros Hop Hp Hok. destruct Hop.
  - destruct (ingress_begin_cue_capture i) as [i' r] eqn:E. cbn.
    pose proof (begin_cue_ok _ _ _ _ Hok E) as Hok'.
    assert (ledger_kept (ingress_state i) (ingress_state i') /\ mutex_poisoned (mi_state i') = false)
      as [? ?]; [|done].
    unfold ingress_begin_cue_capture, lock in E. rewrite Hp in E.
    destruct (is_normal_ingress_sealed (ingress_state i)).
    { injection E as <- _. split; [apply ledger_kept_refl|done]. }
    destruct (is_cue_capture_paused (ingress_state i)).
    + destruct (_ && _); injection E as <- _; (split; [repeat split; auto|done]).
    + destruct (_ || _); injection E as <- _; (split; [repeat split; auto|done]).
  - destruct (ingress_finish_cue_capture i) as [i' r] eqn:E. cbn.
    pose proof (finish_cue_ok _ _ _ _ Hok E) as Hok'.
    unfold ingress_finish_cue_capture, lock in E. rewrite Hp in E. injection E as <- _.
    split; [repeat split; auto|done].
  - destruct (seal_normal_ingress i) as [i' r] eqn:E. cbn.
    pose proof (seal_ok _ _ _ _ Hok E) as Hok'.
    unfold seal_normal_ingress, lock in E. rewrite Hp in E. injection E as <- _.
    split; [repeat split; auto|done].
  - destruct (seal_for_external_core_failure i) as [i' r] eqn:E. cbn.
    pose proof (seal_external_ok _ _ _ _ Hok E) as Hok'.
    unfold seal_for_external_core_failure, lock in E. rewrite Hp in E. injection E as <- _.
    split; [repeat split; auto|done].
  - cbn. split; [apply ledger_kept_refl|done].
Qed.

(** ** The ledger under admission, dequeue and commit *)

Lemma ledger_snoc flight queue a :
  ledger flight (queue ++ [a]) = ledger flight queue ++ [tracked Queued a].
Proof. unfold ledger. by rewrite fmap_app, (assoc_L (++)). Qed.

Lemma ledger_events flight queue : te_event <$> ledger flight queue = flight ++ queue.
Proof.
  unfold ledger. rewrite fmap_app, <-!list_fmap_compose.
  rewrite !(list_fmap_ext _ id) by done. by rewrite !list_fmap_id.
Qed.

Lemma dequeue_ledger flight queue :
  dequeue_first (ledger flight queue) =
  match queue with
  | [] => None
  | a :: queue' => Some (a, ledger (flight ++ [a]) queue')
  end.
Proof.
  unfold ledger. induction flight as [|x flight IH]; cbn.
  - by destruct queue.
  - rewrite IH. by destruct queue.
Qed.

Lemma last_sequence log a :
  dense_from 1 log -> last log = Some a -> accepted_sequence a = list_len log.
Proof.
  intros Hd Hl. rewrite last_lookup in Hl. rewrite (Hd _ _ Hl).
  apply lookup_lt_Some in Hl. unfold list_len. lia.
Qed.

Lemma last_fmap_event l : last (te_event <$> l) = te_event <$> last l.
Proof. by rewrite fmap_last. Qed.

(** The next event of a dense log is the one the ingress expects. *)
Lemma expected_is_next run_id s confirmed flight queue :
  ingress_sync run_id s confirmed flight queue ->
  let log := confirmed ++ flight ++ queue in
  dense_from 1 log -> list_len log < int_max U64 ->
  expected_sequence s = list_len log + 1.
Proof.
  intros [S1 S2 _ _]. cbn zeta. intros Hd Hlen. unfold expected_sequence.
  pose proof (list_len_nonneg confirmed) as Hc.
  destruct (last (is_outstanding s)) as [t|] eqn:El.
  - assert (last (flight ++ queue) = Some (te_event t)) as Hl.
    { rewrite <-ledger_events, <-S1, last_fmap_event, El. done. }
    assert (accepted_sequence (te_event t) = list_len (confirmed ++ flight ++ queue)) as ->.
    { apply last_sequence; [done|]. rewrite last_app, Hl. done. }
    pose proof (list_len_nonneg (confirmed ++ flight ++ queue)).
    unfold saturating_add. unfold_int. lia.
  - apply last_None in El. rewrite El in S1. symmetry in S1.
    assert (flight ++ queue = []) as Hnil by (by rewrite <-ledger_events, S1).
    rewrite Hnil, app_nil_r in *. rewrite S2. unfold wrapping_add. apply Z.mod_small.
    unfold int_modulus. unfold_int. lia.
Qed.

(** Committing an admitted event extends the queue. *)
Lemma commit_sync run_id i res live a confirmed flight queue :
  ingress_sync run_id (ingress_state i) confirmed flight queue ->
  state_ok (ingress_state i) (res :: live) ->
  let log := confirmed ++ flight ++ queue in
  dense_from 1 log -> list_len log < int_max U64 ->
  identity a = mkEventIdentity run_id (list_len log + 1) ->
  ir_size res = one_event (accepted_bytes a) ->
  ingress_sync run_id (ingress_state (ingress_commit i res a)) confirmed flight (queue ++ [a]) /\
  mutex_poisoned (mi_state (ingress_commit i res a)) = mutex_poisoned (mi_state i).
Proof.
  intros Hsync Hok. cbn zeta. intros Hd Hlen Hid Hsz.
  pose proof (expected_is_next _ _ _ _ _ Hsync Hd Hlen) as Hexp.
  unfold ingress_commit. cbn zeta. rewrite (release_reserved_ok _ _ _ Hok).
  assert (commit_mismatch (set_reserved (list_len live) (live_bytes live) (ingress_state i))
            (ir_size res) a = false) as ->.
  { unfold commit_mismatch. rewrite Hsz, Hid. cbn [size_canonical_bytes one_event ei_run_id ei_sequence].
    rewrite Z.eqb_refl. cbn [negb orb].
    change (expected_sequence (set_reserved _ _ (ingress_state i))) with (expected_sequence (ingress_state i)).
    rewrite Hexp, Z.eqb_refl. cbn [negb]. rewrite orb_false_r.
    cbn [is_run_id set_reserved]. destruct (is_run_id (ingress_state i)) as [r|] eqn:Er; [|done].
    by rewrite (sync_run _ _ _ _ _ Hsync r Er), bool_decide_eq_true_2. }
  destruct Hsync as [S1 S2 S3 S4]. split; [|done].
  assert (ingress_sync run_id (track (set_reserved (list_len live) (live_bytes live) (ingress_state i)) res a)
    confirmed flight (queue ++ [a])); [|done].
  unfold track. rewrite Hsz, Hid. case_bool_decide; constructor; cbn;
    try (by rewrite S1, ledger_snoc); try done;
    intros r; destruct (is_run_id (ingress_state i)) as [r'|] eqn:Er; intros [= <-]; auto.
Qed.

(** [validate_commit] accepts what the writer took from the ledger. *)
Lemma validate_prefix_ledger c l : forall off b,
  0 <= c -> 0 <= off -> 0 <= b -> dense_from (c + off + 1) l ->
  c + off + list_len l <= int_max U64 -> b + total_bytes l <= int_max Usize ->
  validate_prefix c off b (tracked InFlight <$> l) = Ok (b + total_bytes l).
Proof.
  induction l as [|a l IH]; intros off b Hc Ho Hb Hd Hs Ht; cbn [fmap list_fmap validate_prefix].
  - cbn. f_equal. lia.
  - apply dense_from_cons in Hd as [Ha Hd]. rewrite list_len_cons in Hs. cbn [total_bytes] in *.
    pose proof (accepted_bytes_nonneg a). pose proof (total_bytes_nonneg l).
    pose proof (list_len_nonneg l).
    cbn [te_phase te_event te_canonical_bytes tracked].
    rewrite bool_decide_eq_false_2 by (intros H'; by apply H').
    unfold checked_add. rewrite !checked_in_range by (cbn in *; lia).
    cbn [ok_or result_bind]. rewrite Ha.
    replace (c + off + 1) with (c + (off + 1)) by lia. rewrite Z.eqb_refl. cbn [negb].
    rewrite IH; [f_equal; lia|lia..| |lia|lia].
    replace (c + (off + 1) + 1) with (c + off + 1 + 1) by lia. done.
Qed.

Lemma fmap_take_ledger l flight queue :
  take (length l) (ledger (l ++ flight) queue) = tracked InFlight <$> l /\
  drop (length l) (ledger (l ++ flight) queue) = ledger flight queue.
Proof.
  unfold ledger. rewrite fmap_app, <-(assoc_L (++)).
  replace (length l) with (length (tracked InFlight <$> l)) by apply length_fmap.
  by rewrite take_app_length, drop_app_length.
Qed.

Lemma tracked_bytes_fmap phase l : tracked_bytes (tracked phase <$> l) = total_bytes l.
Proof. induction l; cbn in *; lia. Qed.

Lemma mark_committed_sync run_id i confirmed l flight queue :
  ingress_sync run_id (ingress_state i) confirmed (l ++ flight) queue ->
  mutex_poisoned (mi_state i) = false ->
  let log := confirmed ++ (l ++ flight) ++ queue in
  dense_from 1 log -> list_len log <= int_max U64 -> total_bytes l <= int_max Usize ->
  let n := mkCommitNotification run_id (SortableU64Key_new (list_len confirmed))
             (SortableU64Key_new (list_len confirmed + list_len l)) (list_len l) (total_bytes l) in
  (mark_committed i n).2 = Ok tt /\
  ingress_sync run_id (ingress_state (mark_committed i n).1) (confirmed ++ l) flight queue /\
  mutex_poisoned (mi_state (mark_committed i n).1) = false.
Proof.
  intros [S1 S2 S3 S4] Hp. cbn zeta. intros Hd Hlen Htot.
  rewrite !list_len_app in Hlen. rewrite !dense_from_app in Hd.
  destruct Hd as [_ [[Hdl _] _]].
  pose proof (list_len_nonneg confirmed). pose proof (list_len_nonneg l).
  pose proof (list_len_nonneg flight). pose proof (list_len_nonneg queue).
  unfold mark_committed, lock. rewrite Hp.
  destruct (fmap_take_ledger l flight queue) as [Htake Hdrop].
  assert (Z.to_nat (list_len l) = length l) as Hn by (unfold list_len; lia).
  assert (validate_commit (ingress_state i)
    (mkCommitNotification run_id (SortableU64Key_new (list_len confirmed))
       (SortableU64Key_new (list_len confirmed + list_len l)) (list_len l) (total_bytes l)) = Ok tt) as ->.
  { unfold validate_commit. cbn [cn_previous cn_run_id cn_event_count cn_committed cn_canonical_bytes].
    rewrite !key_get_new by lia. rewrite S2, Z.eqb_refl. cbn [negb].
    replace (match is_run_id (ingress_state i) with Some r => bool_decide (r <> run_id) | None => false end)
      with false.
    2:{ destruct (is_run_id (ingress_state i)) as [r|] eqn:Er; [|done].
        rewrite (S3 r eq_refl). symmetry. apply bool_decide_eq_false. tauto. }
    rewrite S1, Hn, Htake.
    assert (list_len (ledger (l ++ flight) queue) = list_len l + list_len flight + list_len queue) as ->.
    { unfold ledger. rewrite list_len_app. unfold list_len. rewrite !length_fmap, length_app. lia. }
    replace (_ <? list_len l) with false by lia.
    rewrite validate_prefix_ledger; [|lia..| |lia|lia].
    2:{ replace (list_len confirmed + 0 + 1) with (1 + list_len confirmed) by lia. done. }
    cbn [result_bind]. unfold checked_add. rewrite checked_in_range by (cbn in *; lia).
    cbn [ok_or result_bind]. by rewrite !Z.eqb_refl. }
  cbn [fst snd]. split; [done|]. split; [|done].
  cbn [cn_event_count cn_committed]. rewrite Hn, key_get_new by lia.
  constructor; cbn; [by rewrite S1, Hdrop|by rewrite list_len_app|done|done].
Qed.

(** ** What the accumulator remembers *)

Lemma take_if_last self trigger :
  ba_last_sequence (take_if self trigger).1 = ba_last_sequence self /\
  ba_run_id (take_if self trigger).1 = ba_run_id self.
Proof. by destruct trigger. Qed.

Lemma push_last self event now self' r :
  push self event now = (self', r) ->
  match r with
  | Ok _ => ba_last_sequence self' = Some (accepted_sequence event) /\
      ba_run_id self' = Some (ei_run_id (identity event))
  | Err _ => ba_run_id self' = ba_run_id self
  end.
Proof.
  intros [(e & -> & _ & [->|Ho])|(_ & _ & Ht)]%push_cases; [done| |].
  - unfold observe_time in Ho.
    destruct (match ba_last_observed_at self with Some _ => _ | None => _ end); [done|].
    by injection Ho as <-.
  - pose proof (take_if_last (pushed self event now) (push_trigger (pushed self event now) now)) as Hl.
    rewrite <-Ht in Hl. cbn in Hl. destruct r; [done|]. by destruct (push_trigger _ _).
Qed.

Lemma poll_last self now self' r :
  poll self now = (self', r) ->
  ba_last_sequence self' = ba_last_sequence self /\ ba_run_id self' = ba_run_id self.
Proof.
  unfold poll, observe_time.
  destruct (match ba_last_observed_at self with Some _ => _ | None => _ end); [by intros [= <- _]|].
  set (self1 := mkBatchAccumulator _ _ _ _ _ _). intros Ht.
  pose proof (take_if_last self1 (if oldest_is_due self1 now then Some OldestAge else None)) as Hl.
  by rewrite Ht in Hl.
Qed.

Lemma flush_last self self' r :
  flush self = (self', r) ->
  ba_last_sequence self' = ba_last_sequence self /\ ba_run_id self' = ba_run_id self.
Proof. unfold flush. case_bool_decide; by intros [= <- _]. Qed.

Lemma triggered_events (r : result (option TriggeredBatch) BatchError) pending acc' out :
  r = Ok out -> emitted pending acc' out ->
  match triggered r with Some b => eb_events b | None => [] end ++ ba_pending acc' = pending /\
  forall b, triggered r = Some b -> EventBatch_new (eb_events b) = Ok b.
Proof.
  intros -> He. apply emitted_events in He as [-> Hb]. destruct out as [t|]; cbn; [|done].
  split; [done|]. by intros b [= <-].
Qed.

(** ** The watermark follows the batches *)

(** The notification of a batch [l] after [c] committed events. *)
Definition notification_of (run_id : CanonicalUuid) (c : Z) (l : list AcceptedDiagnosticEvent)
    : CommitNotification :=
  mkCommitNotification run_id (SortableU64Key_new c) (SortableU64Key_new (c + list_len l))
    (list_len l) (total_bytes l).

Lemma batch_candidate run_id c b :
  EventBatch_new (eb_events b) = Ok b -> dense_from (c + 1) (eb_events b) ->
  (forall a, a ∈ eb_events b -> ei_run_id (identity a) = run_id) ->
  0 <= c -> c + list_len (eb_events b) <= int_max U64 ->
  watermark_candidate (mkCommittedWatermark run_id (SortableU64Key_new c)) b =
    Some (Ok (notification_of run_id c (eb_events b))).
Proof.
  intros [Hb Heq]%EventBatch_new_ok Hd Hrun Hc Hle.
  unfold watermark_candidate, batch_first, batch_last, event_count, notification_of.
  cbn [wm_run_id wm_value].
  assert (eb_canonical_bytes b = total_bytes (eb_events b)) as -> by (by rewrite Heq at 1).
  destruct (eb_events b) as [|e l] eqn:El; [done|]. clear Heq.
  destruct (last (e :: l)) as [z|] eqn:Ez; [|by apply last_None in Ez]. cbn [head mbind option_bind].
  rewrite (Hrun e) by set_solver.
  rewrite bool_decide_eq_false_2 by (intros H; by apply H).
  rewrite list_len_cons in *. pose proof (list_len_nonneg l).
  rewrite key_get_new by lia. unfold checked_add. rewrite checked_in_range by (cbn in *; lia).
  cbn [ok_or result_bind].
  assert (accepted_sequence e = c + 1) as -> by (by apply dense_from_cons in Hd as [? _]).
  rewrite Z.eqb_refl. cbn [negb].
  rewrite last_lookup in Ez. rewrite (Hd _ _ Ez). cbn [length pred]. unfold list_len.
  do 4 f_equal. lia.
Qed.

Lemma advance_notification run_id c l :
  watermark_advance (mkCommittedWatermark run_id (SortableU64Key_new c)) (notification_of run_id c l) =
  Ok (mkCommittedWatermark run_id (SortableU64Key_new (c + list_len l))).
Proof.
  unfold watermark_advance. cbn.
  by rewrite !bool_decide_eq_false_2 by (intros H; by apply H).
Qed.

(** ** Every step keeps the invariant *)

Section Steps.
Context {N : Type}.
Context (to_vec : DiagnosticEvent -> option (list ascii)).
Context (notify : N -> AcceptedDiagnosticEvent -> N * result unit DeliveryFailure).
Context (run_id : CanonicalUuid).
Implicit Types (p : Pipeline (N := N)).

Abbreviation step := (pipeline_step to_vec notify).

Lemma pipe_ok_init (notifier : option N) : pipe_ok run_id (pipeline_init run_id notifier).
Proof.
  constructor; cbn; try done.
  - constructor; cbn; [done|apply log_ok_nil|done|apply models_nil].
  - apply state_ok_default.
  - exists [], []. split; [done|]. split; [|done]. by constructor.
  - apply acc_ok_new.
  - by left.
Qed.

(** The ingress changes without touching the ledger. *)
Lemma pipe_ok_hub p hub' pending :
  pipe_ok run_id p -> hub_core run_id (pl_log p) hub' ->
  ledger_kept (ingress_state (hs_reserver (pl_hub p))) (ingress_state (hs_reserver hub')) ->
  mutex_poisoned (mi_state (hs_reserver hub')) = false ->
  (forall x, pending = Some x -> pending_ok run_id (pl_log p) x) ->
  state_ok (ingress_state (hs_reserver hub'))
    (match pending with Some x => [pending_reservation x] | None => [] end) ->
  pipe_ok run_id (with_hub p hub' pending (pl_log p)).
Proof.
  intros [H1 H2 H3 H4 H5 (lost & queue & Hlog & Hsync & Hlost) H7 H8 H9 H10 H11 H12] Hcore Hk Hp Hpend Hst.
  constructor; cbn; try done.
  exists lost, queue. split; [done|]. split; [|done]. by eapply ledger_kept_sync.
Qed.

Lemma step_reserve_pipe p candidate class hub' r :
  pipe_ok run_id p -> pl_pending p = None ->
  admit_reserve to_vec (pl_hub p) candidate (fun i size => reserve i size class) = (hub', r) ->
  pipe_ok run_id (with_hub p hub' (match r with Ok x => Some x | Err _ => None end) (pl_log p)).
Proof.
  intros Hok Hnone Ha.
  assert (Hst := po_state _ _ Hok). unfold live_of in Hst. rewrite Hnone in Hst.
  destruct r as [x|e].
  - apply admit_reserve_pending in Ha as (next & i' & Hn & Hpn & He & Hid & Hv & Hr & ->).
    rewrite (hub_next _ _ _ (po_core _ _ Hok)) in Hn.
    unfold next_after, checked_add in Hn. apply checked_some in Hn as [-> Hrange].
    rewrite (hub_run _ _ _ (po_core _ _ Hok)) in Hid.
    pose proof (reserve_kept (hs_reserver (pl_hub p)) (one_event (list_len (pending_bytes x))) class) as Hk.
    rewrite Hr in Hk. cbn [fst] in Hk.
    destruct (reserve_ok _ _ (one_event (list_len (pending_bytes x))) _ _ _ Hst
      (list_len_nonneg (pending_bytes x)) Hr) as (Hst' & Hp' & Hres & _).
    apply pipe_ok_hub; try done.
    + apply hub_core_set_reserver. apply Hok.
    + cbn. rewrite Hp'. apply Hok.
    + intros x' [= <-]. split; [done|]. split; [done|]. split; [lia|]. by rewrite Hres.
  - unfold admit_reserve in Ha. rewrite (hub_next _ _ _ (po_core _ _ Hok)) in Ha.
    assert (pipe_ok run_id (with_hub p (pl_hub p) None (pl_log p))) as Hsame.
    { apply pipe_ok_hub; try done; [apply Hok|apply ledger_kept_refl|apply Hok]. }
    destruct (next_after _); [|by injection Ha as <- _].
    case_bool_decide; [by injection Ha as <- _|].
    destruct (to_vec _) as [bs|]; [|by injection Ha as <- _].
    destruct (reserve _ _ _) as [i' [res|e']] eqn:Er; [done|]. injection Ha as <- _.
    pose proof (reserve_kept (hs_reserver (pl_hub p)) (one_event (list_len bs)) class) as Hk.
    rewrite Er in Hk. cbn [fst] in Hk.
    destruct (reserve_ok _ _ (one_event (list_len bs)) _ _ _ Hst (list_len_nonneg bs) Er) as (Hst' & Hp' & _).
    apply pipe_ok_hub; try done.
    + apply hub_core_set_reserver. apply Hok.
    + cbn. rewrite Hp'. apply Hok.
Qed.

Lemma step_admit_pipe p x hub' r :
  pipe_ok run_id p -> pl_pending p = Some x ->
  admit_commit notify (pl_hub p) x = (hub', r) ->
  pipe_ok run_id
    (with_hub p hub' None (pl_log p ++ match r with Ok (a, _) => [a] | Err _ => [] end)).
Proof.
  intros Hok Hx Ha. destruct (po_pending _ _ Hok x Hx) as (Hid & Hpn & Hlt & Hsz).
  assert (Hst := po_state _ _ Hok). unfold live_of in Hst. rewrite Hx in Hst.
  pose proof (admit_commit_core _ _ _ _ _ _ _ (po_core _ _ Hok) Hid Hpn Ha) as Hc.
  destruct r as [[a d]|e].
  - destruct Hc as (Hcore & Hev & Hby & Hres).
    destruct Hok as [H1 H2 H3 H4 H5 (lost & queue & Hlog & Hsync & Hlost) H7 H8 H9 H10 H11 H12].
    assert (dense_from 1 (pl_log p)) as Hd by apply (hub_log _ _ _ H1).
    assert (pl_log p = pl_confirmed p ++ (working p ++ lost) ++ queue) as Hlog'
      by (by rewrite <-(assoc_L (++))).
    destruct (commit_sync run_id (hs_reserver (pl_hub p)) (pending_reservation x) [] a
      (pl_confirmed p) (working p ++ lost) queue) as [Hsync' Hp']; try done.
    + by rewrite <-Hlog'.
    + by rewrite <-Hlog'.
    + rewrite <-Hlog'. unfold identity. by rewrite Hev.
    + unfold accepted_bytes. by rewrite Hby.
    + cbn [reservation_commit ingress_reserver] in Hres.
      constructor; cbn; rewrite ?Hres; try done.
      * rewrite list_len_app, list_len_cons, list_len_nil. unfold_int. lia.
      * by apply commit_ok.
      * by rewrite Hp'.
      * exists lost, (queue ++ [a]). split; [|by split].
        rewrite Hlog. by rewrite <-!(assoc_L (++)).
  - destruct Hc as [Hcore Hres]. rewrite app_nil_r.
    cbn [reservation_drop ingress_reserver] in Hres.
    apply pipe_ok_hub; rewrite ?Hres; try done.
    + apply drop_kept.
    + apply Hok.
    + by apply drop_ok.
Qed.

Lemma step_side_pipe p i' :
  pipe_ok run_id p -> side_op (hs_reserver (pl_hub p)) i' ->
  pipe_ok run_id (with_hub p (set_reserver (pl_hub p) i') (pl_pending p) (pl_log p)).
Proof.
  intros Hok Hop.
  destruct (side_op_kept _ _ _ Hop (po_unpoisoned _ _ Hok) (po_state _ _ Hok)) as (Hk & Hst & Hp).
  apply pipe_ok_hub; try done.
  - apply hub_core_set_reserver. apply Hok.
  - apply Hok.
Qed.

(** A step of the writer: what it must keep. *)
Lemma pipe_ok_writer p i' acc' batch' w' running' confirmed' lost' queue' :
  pipe_ok run_id p ->
  let working' := match batch' with Some b => eb_events b | None => [] end ++ ba_pending acc' in
  state_ok (ingress_state i') (live_of p) -> mutex_poisoned (mi_state i') = false ->
  pl_log p = confirmed' ++ working' ++ lost' ++ queue' ->
  ingress_sync run_id (ingress_state i') confirmed' (working' ++ lost') queue' ->
  (running' = true -> lost' = [] /\
     ba_last_sequence acc' = (fun a => accepted_sequence a) <$> last (confirmed' ++ working')) ->
  acc_ok acc' -> (forall r, ba_run_id acc' = Some r -> r = run_id) ->
  (forall b, batch' = Some b -> EventBatch_new (eb_events b) = Ok b) ->
  ws_watermark w' = mkCommittedWatermark run_id (SortableU64Key_new (list_len confirmed')) ->
  ws_store w' = confirmed' \/
    (running' = false /\
     ws_store w' = confirmed' ++ match batch' with Some b => eb_events b | None => [] end) ->
  pipe_ok run_id (with_writer p i' acc' batch' w' running' confirmed').
Proof.
  intros [H1 H2 H3 H4 H5 H6 H7 H8 H9 H10 H11 H12]. cbn zeta.
  intros Hst Hp Hlog Hsync Hrun Hacc Har Hb Hw Hs.
  constructor; cbn; try done.
  - by apply hub_core_set_reserver.
  - exists lost', queue'. split; [done|]. split; [done|]. by intros [? _]%Hrun.
  - intros Hr. by apply Hrun.
Qed.

Lemma working_nil p : pl_batch p = None -> working p = ba_pending (pl_accumulator p).
Proof. intros H. unfold working, batch_events. by rewrite H. Qed.

Lemma step_push_pipe p i' event now acc' r :
  pipe_ok run_id p -> pl_running p = true -> pl_batch p = None ->
  try_dequeue (hs_reserver (pl_hub p)) = (i', Ok (Some event)) ->
  push (pl_accumulator p) event now = (acc', r) ->
  pipe_ok run_id
    (with_writer p i' acc' (triggered r) (pl_writer p) (is_ok r) (pl_confirmed p)).
Proof.
  intros Hok Hrun Hbatch Hdq Hpush.
  destruct (po_sync _ _ Hok) as (lost & queue & Hlog & Hsync & Hlost).
  rewrite (Hlost Hrun), (working_nil _ Hbatch), app_nil_r in *.
  pose proof (dequeue_ok _ _ _ _ (po_state _ _ Hok) Hdq) as Hst.
  assert (exists queue', queue = event :: queue' /\
    mutex_poisoned (mi_state i') = false /\
    ingress_sync run_id (ingress_state i') (pl_confirmed p)
      (ba_pending (pl_accumulator p) ++ [event]) queue') as (queue' & -> & Hp & Hsync').
  { unfold try_dequeue, lock in Hdq. rewrite (po_unpoisoned _ _ Hok) in Hdq.
    destruct Hsync as [S1 S2 S3 S4]. rewrite S1, dequeue_ledger in Hdq.
    destruct queue as [|a queue']; [done|]. injection Hdq as <- <-. exists queue'.
    split; [done|]. split; [apply Hok|]. by constructor. }
  assert (event ∈ pl_log p) as Hin by (rewrite Hlog; set_solver).
  pose proof (log_run _ _ (hub_log _ _ _ (po_core _ _ Hok)) event Hin) as Hrid.
  pose proof (push_correct _ _ _ _ _ (po_acc _ _ Hok) Hpush) as [Hacc Hr].
  pose proof (push_last _ _ _ _ _ Hpush) as Hlast.
  destruct r as [out|e].
  - destruct Hr as [He _]. destruct Hlast as [Hls Hlr].
    destruct (triggered_events (Ok out) _ acc' out eq_refl He) as [Hw Hb].
    apply (pipe_ok_writer p i' acc' _ _ _ _ [] queue'); try done.
    + rewrite Hlog. rewrite (assoc_L (++) _ (ba_pending _)), Hw. by rewrite <-!(assoc_L (++)).
    + by rewrite Hw, app_nil_r.
    + intros _. split; [done|]. rewrite Hw, Hls. rewrite (assoc_L (++)), last_snoc. done.
    + intros r. rewrite Hlr. by intros [= <-].
    + apply Hok.
    + destruct (po_store _ _ Hok) as [?|[? _]]; [by left|congruence].
  - apply (pipe_ok_writer p i' acc' _ _ _ _ [event] queue'); cbn; try done.
    + by rewrite Hlog, Hr.
    + by rewrite Hr.
    + intros r. rewrite Hlast. apply (po_acc_run _ _ Hok).
    + apply Hok.
    + destruct (po_store _ _ Hok) as [?|[? _]]; [by left|congruence].
Qed.

(** Polling and flushing only move pending events into a batch. *)
Lemma step_take_pipe p acc' r :
  pipe_ok run_id p -> pl_running p = true -> pl_batch p = None ->
  acc_ok acc' ->
  ba_last_sequence acc' = ba_last_sequence (pl_accumulator p) ->
  ba_run_id acc' = ba_run_id (pl_accumulator p) ->
  match r with
  | Err _ => ba_pending acc' = ba_pending (pl_accumulator p)
  | Ok out => emitted (ba_pending (pl_accumulator p)) acc' out
  end ->
  pipe_ok run_id
    (with_writer p (hs_reserver (pl_hub p)) acc' (triggered r) (pl_writer p) (is_ok r)
       (pl_confirmed p)).
Proof.
  intros Hok Hrun Hbatch Hacc Hls Hlr Hr.
  destruct (po_sync _ _ Hok) as (lost & queue & Hlog & Hsync & Hlost).
  pose proof (po_acc_last _ _ Hok Hrun) as Hlast.
  rewrite (Hlost Hrun), (working_nil _ Hbatch), app_nil_r in *.
  assert (match triggered r with Some b => eb_events b | None => [] end ++ ba_pending acc' =
    ba_pending (pl_accumulator p) /\
    forall b, triggered r = Some b -> EventBatch_new (eb_events b) = Ok b) as [Hw Hb].
  { destruct r as [out|e]; [by eapply triggered_events|]. by cbn. }
  apply (pipe_ok_writer p _ acc' _ _ _ _ [] queue); try done.
  - apply Hok.
  - apply Hok.
  - by rewrite Hw, Hlog.
  - by rewrite Hw, app_nil_r.
  - intros _. split; [done|]. by rewrite Hw, Hls.
  - intros x. rewrite Hlr. apply (po_acc_run _ _ Hok).
  - apply Hok.
  - destruct (po_store _ _ Hok) as [?|[? _]]; [by left|congruence].
Qed.

(** What the invariant says about a batch that waits for its commit. *)
Lemma batch_ready p b :
  pipe_ok run_id p -> pl_running p = true -> pl_batch p = Some b ->
  let c := list_len (pl_confirmed p) in
  watermark_candidate (ws_watermark (pl_writer p)) b = Some (Ok (notification_of run_id c (eb_events b))) /\
  (mark_committed (hs_reserver (pl_hub p)) (notification_of run_id c (eb_events b))).2 = Ok tt /\
  exists queue,
    pl_log p = pl_confirmed p ++ (eb_events b ++ ba_pending (pl_accumulator p)) ++ queue /\
    ingress_sync run_id
      (ingress_state (mark_committed (hs_reserver (pl_hub p)) (notification_of run_id c (eb_events b))).1)
      (pl_confirmed p ++ eb_events b) (ba_pending (pl_accumulator p)) queue /\
    mutex_poisoned
      (mi_state (mark_committed (hs_reserver (pl_hub p)) (notification_of run_id c (eb_events b))).1) = false.
Proof.
  intros Hok Hrun Hb. cbn zeta.
  destruct (po_sync _ _ Hok) as (lost & queue & Hlog & Hsync & Hlost).
  assert (working p = eb_events b ++ ba_pending (pl_accumulator p)) as Hw
    by (unfold working, batch_events; by rewrite Hb).
  rewrite (Hlost Hrun), app_nil_r, Hw in *.
  cbn [app] in Hlog. pose proof (po_batch _ _ Hok b Hb) as Hnew.
  pose proof (hub_log _ _ _ (po_core _ _ Hok)) as [Hd Hr _ _].
  pose proof (po_length _ _ Hok) as Hlen. rewrite Hlog in Hd, Hlen.
  pose proof Hnew as [Hbat _]%EventBatch_new_ok.
  assert (total_bytes (eb_events b) <= int_max Usize) as Htot.
  { destruct (eb_events b); [done|]. by destruct Hbat as (_ & _ & ?). }
  pose proof (mark_committed_sync run_id _ _ _ _ _ Hsync (po_unpoisoned _ _ Hok) Hd Hlen Htot)
    as (Hm & Hs' & Hp').
  rewrite !dense_from_app in Hd. destruct Hd as [_ [[Hdl _] _]].
  rewrite !list_len_app in Hlen. pose proof (list_len_nonneg (pl_confirmed p)).
  pose proof (list_len_nonneg (ba_pending (pl_accumulator p))). pose proof (list_len_nonneg queue).
  split; [|split; [done|by exists queue]].
  rewrite (po_watermark _ _ Hok). apply batch_candidate; [done| | |lia|lia].
  - by rewrite Z.add_comm.
  - intros a Ha. apply Hr. rewrite Hlog. set_solver.
Qed.

Lemma step_commit_pipe p outcome b w' i' ok :
  pipe_ok run_id p -> pl_running p = true -> pl_batch p = Some b ->
  commit_batch outcome (pl_writer p) (hs_reserver (pl_hub p)) b = Some (w', i', ok) ->
  pipe_ok run_id
    (with_writer p i' (pl_accumulator p) (if ok then None else Some b) w' ok
       (if ok then pl_confirmed p ++ eb_events b else pl_confirmed p)).
Proof.
  intros Hok Hrun Hb Hc.
  destruct (batch_ready p b Hok Hrun Hb) as (Hcand & Hmark & queue & Hlog & Hsync' & Hp').
  pose proof (po_acc_last _ _ Hok Hrun) as Hlast.
  destruct (po_sync _ _ Hok) as (lost & queue0 & Hlog0 & Hsync & Hlost).
  assert (ws_store (pl_writer p) = pl_confirmed p) as Hst.
  { by destruct (po_store _ _ Hok) as [?|[? _]]; [|congruence]. }
  assert (working p = eb_events b ++ ba_pending (pl_accumulator p)) as Hw
    by (unfold working, batch_events; by rewrite Hb).
  assert (forall w, ws_watermark w = ws_watermark (pl_writer p) ->
    ws_store w = pl_confirmed p \/ ws_store w = pl_confirmed p ++ eb_events b ->
    pipe_ok run_id (with_writer p (hs_reserver (pl_hub p)) (pl_accumulator p) (Some b) w false
      (pl_confirmed p))) as Hfail.
  { intros w Hwm Hs. rewrite (Hlost Hrun) in *.
    apply (pipe_ok_writer p _ _ _ _ _ _ [] queue0); try done; try apply Hok.
    - by rewrite <-Hw.
    - by rewrite <-Hw.
    - intros b' [= <-]. by apply (po_batch _ _ Hok).
    - rewrite Hwm. apply Hok.
    - destruct Hs as [?|?]; [by left|by right]. }
  unfold commit_batch in Hc. rewrite Hcand in Hc. cbn in Hc. destruct outcome.
  - injection Hc as <- <- <-. apply Hfail; auto.
  - injection Hc as <- <- <-. apply Hfail; [done|]. right. cbn. by rewrite Hst.
  - rewrite (po_watermark _ _ Hok), advance_notification in Hc. injection Hc as <- <- <-.
    apply (pipe_ok_writer p _ _ _ _ _ _ [] queue); cbn; try done; try apply Hok.
    + unfold observer_committed. eapply mark_committed_ok; [apply Hok|apply surjective_pairing].
    + rewrite Hlog. by rewrite <-!(assoc_L (++)).
    + by rewrite app_nil_r.
    + intros _. split; [done|]. rewrite Hlast, Hw. by rewrite <-(assoc_L (++)).
    + by rewrite list_len_app.
    + left. by rewrite Hst.
Qed.

Lemma step_pipe p p' : pipe_ok run_id p -> step p p' -> pipe_ok run_id p'.
Proof.
  intros Hok Hstep. destruct Hstep as [p candidate class hub' r Hn Ha|p x hub' r Hx Ha|p i' Hs
    |p i' event now acc' r Hr Hb Hd Hp|p now acc' r Hr Hb Hp|p acc' r Hr Hb Hp
    |p outcome batch w' i' ok Hr Hb Hc|p].
  - by eapply step_reserve_pipe.
  - by eapply step_admit_pipe.
  - by apply step_side_pipe.
  - by eapply step_push_pipe.
  - destruct (poll_correct _ _ _ _ (po_acc _ _ Hok) Hp) as [Hacc He].
    destruct (poll_last _ _ _ _ Hp) as [Hls Hlr]. apply step_take_pipe; try done.
    by destruct r; [|rewrite He].
  - destruct (flush_correct _ _ _ (po_acc _ _ Hok) Hp) as (Hacc & _ & out & -> & He).
    destruct (flush_last _ _ _ Hp) as [Hls Hlr]. by apply step_take_pipe.
  - by eapply step_commit_pipe.
  - destruct (po_sync _ _ Hok) as (lost & queue & Hlog & Hsync & Hlost).
    apply (pipe_ok_writer p _ _ _ _ _ _ lost queue); try done; try apply Hok.
    destruct (po_store _ _ Hok) as [?|[_ ?]]; [by left|by right].
Qed.

Abbreviation reachable notifier := (clos_refl_trans_1n _ step (pipeline_init run_id notifier)).

Lemma steps_pipe p p' : clos_refl_trans_1n _ step p p' -> pipe_ok run_id p -> pipe_ok run_id p'.
Proof. induction 1; eauto using step_pipe. Qed.

Lemma reachable_pipe (notifier : option N) p : reachable notifier p -> pipe_ok run_id p.
Proof. intros H. eapply steps_pipe; [done|]. apply pipe_ok_init. Qed.

(** ** Draining *)

(** The writer alone gets from [p] to [p']. *)
Definition drains p p' : Prop :=
  clos_refl_trans_1n _ step p p' /\ pl_log p' = pl_log p /\ pl_pending p' = pl_pending p /\
  pl_running p' = true.

Lemma drains_trans p1 p2 p3 : drains p1 p2 -> drains p2 p3 -> drains p1 p3.
Proof.
  intros (S1 & L1 & E1 & R1) (S2 & L2 & E2 & R2). split; [|by rewrite L2, E2].
  apply clos_rt_rt1n. eapply rt_trans; by apply clos_rt1n_rt.
Qed.

Lemma drains_step p p' :
  step p p' -> pl_log p' = pl_log p -> pl_pending p' = pl_pending p -> pl_running p' = true ->
  drains p p'.
Proof. intros. split; [|done]. econstructor; [done|constructor]. Qed.

(** The queued events of a running pipeline. *)
Definition queue_is p (queue : list AcceptedDiagnosticEvent) : Prop :=
  is_outstanding (ingress_state (hs_reserver (pl_hub p))) = ledger (working p) queue.

Lemma queue_exists p :
  pipe_ok run_id p -> pl_running p = true ->
  exists queue, queue_is p queue /\ pl_log p = pl_confirmed p ++ working p ++ queue.
Proof.
  intros Hok Hrun. destruct (po_sync _ _ Hok) as (lost & queue & Hlog & Hsync & Hlost).
  rewrite (Hlost Hrun), app_nil_r in *. exists queue. split; [|done]. apply Hsync.
Qed.

Lemma ledger_inj f1 q1 f2 q2 : ledger f1 q1 = ledger f2 q2 -> f1 = f2 -> q1 = q2.
Proof.
  intros E ->. pose proof (f_equal (fmap te_event) E) as E'. rewrite !ledger_events in E'.
  by apply app_inv_head in E'.
Qed.

Lemma drain_commit p b :
  pipe_ok run_id p -> pl_running p = true -> pl_batch p = Some b ->
  exists p', drains p p' /\ pl_batch p' = None /\
    pl_accumulator p' = pl_accumulator p /\ pl_confirmed p' = pl_confirmed p ++ eb_events b.
Proof.
  intros Hok Hrun Hb.
  destruct (batch_ready p b Hok Hrun Hb) as (Hcand & _ & _).
  eexists. split; [apply drains_step; [eapply (pl_commit _ _ p Committed b); [done|done|]|done..]|].
  - unfold commit_batch. rewrite Hcand. cbn. rewrite (po_watermark _ _ Hok), advance_notification.
    done.
  - done.
Qed.

(** The writer can take the next queued event. *)
Lemma push_succeeds p a queue :
  pipe_ok run_id p -> pl_running p = true -> pl_batch p = None -> queue_is p (a :: queue) ->
  pl_log p = pl_confirmed p ++ working p ++ a :: queue ->
  exists i' now acc' out,
    try_dequeue (hs_reserver (pl_hub p)) = (i', Ok (Some a)) /\
    push (pl_accumulator p) a now = (acc', Ok out).
Proof.
  intros Hok Hrun Hb Hq Hlog. rewrite (working_nil _ Hb) in *.
  unfold try_dequeue, lock. rewrite (po_unpoisoned _ _ Hok). unfold queue_is in Hq.
  rewrite Hq, (working_nil _ Hb), dequeue_ledger.
  assert (validate_next (pl_accumulator p) a = Ok tt) as Hv.
  { apply validate_next_ok. pose proof (hub_log _ _ _ (po_core _ _ Hok)) as [Hd Hr _ _]. split.
    - intros r Hr'. rewrite (po_acc_run _ _ Hok r Hr'). apply Hr. rewrite Hlog. set_solver.
    - intros q Hq'. rewrite (po_acc_last _ _ Hok Hrun), (working_nil _ Hb) in Hq'.
      apply fmap_Some in Hq' as (z & Hz & ->).
      rewrite (assoc_L (++)) in Hlog. rewrite Hlog in Hd. apply dense_from_app in Hd as [Hd1 Hd2].
      apply dense_from_cons in Hd2 as [-> _]. rewrite (last_sequence _ _ Hd1 Hz).
      unfold checked_add. rewrite (Z.add_comm 1). apply checked_in_range.
      pose proof (po_length _ _ Hok) as Hlen. rewrite Hlog, list_len_app, list_len_cons in Hlen.
      pose proof (list_len_nonneg queue). pose proof (list_len_nonneg (pl_confirmed p ++ ba_pending (pl_accumulator p))).
      cbn [int_min] in *. lia. }
  assert (ba_pending_bytes (pl_accumulator p) + accepted_bytes a <= int_max Usize) as Hbytes.
  { rewrite (acc_bytes _ (po_acc _ _ Hok)). pose proof (so_bytes_bound _ _ (po_state _ _ Hok)) as Hbb.
    pose proof (live_bytes_nonneg _ (so_live _ _ (po_state _ _ Hok))).
    rewrite Hq, (working_nil _ Hb) in Hbb. unfold ledger in Hbb.
    rewrite tracked_bytes_app, !tracked_bytes_fmap in Hbb. cbn [total_bytes] in Hbb.
    pose proof (total_bytes_nonneg queue).
    unfold MAX_UNCOMMITTED_CANONICAL_BYTES in Hbb. unfold_int. lia. }
  exists (set_ingress (hs_reserver (pl_hub p)) (set_outstanding (ledger (ba_pending (pl_accumulator p) ++ [a]) queue)
    (is_outstanding_canonical_bytes (ingress_state (hs_reserver (pl_hub p))))
    (ingress_state (hs_reserver (pl_hub p))))).
  exists (get_or_insert (ba_last_observed_at (pl_accumulator p)) 0).
  unfold push. rewrite Hv. unfold observe_time.
  replace (match ba_last_observed_at (pl_accumulator p) with Some last => _ <? last | None => false end) with false
    by (destruct (ba_last_observed_at (pl_accumulator p)); cbn; lia).
  cbn [ba_pending ba_pending_bytes]. unfold checked_add. rewrite checked_in_range.
  2:{ rewrite (acc_bytes _ (po_acc _ _ Hok)) in *. 
      pose proof (total_bytes_nonneg (ba_pending (pl_accumulator p))). pose proof (accepted_bytes_nonneg a).
      cbn [int_min]. lia. }
  destruct (take_if _ _) as [acc' r] eqn:Et. destruct r as [out|e].
  - exists acc', out. done.
  - unfold take_if in Et. by destruct (push_trigger _ _).
Qed.

Lemma drain_queue n : forall p queue,
  length queue = n -> pipe_ok run_id p -> pl_running p = true -> pl_batch p = None ->
  queue_is p queue -> pl_log p = pl_confirmed p ++ working p ++ queue ->
  exists p', drains p p' /\ pl_batch p' = None /\ queue_is p' [].
Proof.
  induction n as [|n IH]; intros p queue Hn Hok Hrun Hb Hq Hlog.
  { apply nil_length_inv in Hn as ->. exists p. split; [|done].
    split; [constructor|done]. }
  destruct queue as [|a queue]; [done|]. injection Hn as Hn.
  destruct (push_succeeds p a queue Hok Hrun Hb Hq Hlog) as (i' & now & acc' & out & Hdq & Hpush).
  pose proof (pl_push to_vec notify p i' a now acc' (Ok out) Hrun Hb Hdq Hpush) as Hstep.
  set (p1 := with_writer _ _ _ _ _ _ _) in Hstep.
  assert (drains p p1) as Hd1 by (by apply drains_step).
  pose proof (step_pipe _ _ Hok Hstep) as Hok1.
  assert (is_outstanding (ingress_state i') = ledger (ba_pending (pl_accumulator p) ++ [a]) queue) as Hout.
  { unfold try_dequeue, lock in Hdq. rewrite (po_unpoisoned _ _ Hok) in Hdq. unfold queue_is in Hq.
    rewrite Hq, (working_nil _ Hb), dequeue_ledger in Hdq. by injection Hdq as <-. }
  assert (working p1 = ba_pending (pl_accumulator p) ++ [a]) as Hw1.
  { destruct (push_correct _ _ _ _ _ (po_acc _ _ Hok) Hpush) as [_ [He _]].
    by destruct (triggered_events (Ok out) _ acc' out eq_refl He) as [Hw _]. }
  assert (exists p2, drains p1 p2 /\ pl_batch p2 = None /\
    pl_confirmed p2 ++ working p2 = pl_confirmed p1 ++ working p1) as (p2 & Hd2 & Hb2 & Hcw).
  { destruct (pl_batch p1) as [b|] eqn:Eb.
    - destruct (drain_commit p1 b Hok1 eq_refl Eb) as (p2 & ? & Hb2 & Ha2 & Hc2). exists p2.
      split; [done|]. split; [done|]. unfold working, batch_events.
      by rewrite Hb2, Ha2, Hc2, Eb, <-(assoc_L (++)).
    - exists p1. split; [|done]. split; [constructor|done]. }
  assert (pipe_ok run_id p2) as Hok2 by (eapply steps_pipe; [apply Hd2|done]).
  destruct (queue_exists p2 Hok2 (proj2 (proj2 (proj2 Hd2)))) as (queue2 & Hq2 & Hlog2).
  assert (queue2 = queue) as ->.
  { destruct Hd2 as (_ & Hl2 & _). rewrite Hl2, (assoc_L (++)), Hcw, Hw1 in Hlog2.
    change (pl_log p1) with (pl_log p) in Hlog2. change (pl_confirmed p1) with (pl_confirmed p) in Hlog2.
    rewrite Hlog, (working_nil _ Hb), <-!(assoc_L (++)) in Hlog2.
    do 2 apply app_inv_head in Hlog2. by injection Hlog2. }
  destruct (IH p2 queue Hn Hok2 (proj2 (proj2 (proj2 Hd2))) Hb2 Hq2 Hlog2) as (p3 & Hd3 & Hb3 & Hq3).
  exists p3. split; [|done]. eapply drains_trans; [done|]. by eapply drains_trans.
Qed.

(** Commits a waiting batch, if there is one. *)
Lemma drain_batch p :
  pipe_ok run_id p -> pl_running p = true ->
  exists p', drains p p' /\ pl_batch p' = None /\ pl_accumulator p' = pl_accumulator p /\
    pl_confirmed p' ++ working p' = pl_confirmed p ++ working p.
Proof.
  intros Hok Hrun. destruct (pl_batch p) as [b|] eqn:Eb.
  - destruct (drain_commit p b Hok Hrun Eb) as (p2 & ? & Hb2 & Ha2 & Hc2). exists p2.
    split; [done|]. split; [done|]. split; [done|]. unfold working, batch_events.
    by rewrite Hb2, Ha2, Hc2, Eb, <-(assoc_L (++)).
  - exists p. split; [|done]. split; [constructor|done].
Qed.

Lemma drain_all p :
  pipe_ok run_id p -> pl_running p = true ->
  exists p', drains p p' /\ ws_store (pl_writer p') = pl_log p /\
    is_outstanding (ingress_state (hs_reserver (pl_hub p'))) = [].
Proof.
  intros Hok Hrun.
  destruct (drain_batch p Hok Hrun) as (p1 & Hd1 & Hb1 & _).
  assert (pipe_ok run_id p1) as Hok1 by (eapply steps_pipe; [apply Hd1|done]).
  pose proof (proj2 (proj2 (proj2 Hd1))) as Hr1.
  destruct (queue_exists p1 Hok1 Hr1) as (queue & Hq1 & Hl1).
  destruct (drain_queue _ p1 queue eq_refl Hok1 Hr1 Hb1 Hq1 Hl1) as (p2 & Hd2 & Hb2 & Hq2).
  assert (pipe_ok run_id p2) as Hok2 by (eapply steps_pipe; [apply Hd2|done]).
  pose proof (proj2 (proj2 (proj2 Hd2))) as Hr2.
  destruct (flush (pl_accumulator p2)) as [acc3 r3] eqn:Ef.
  destruct (flush_correct _ _ _ (po_acc _ _ Hok2) Ef) as (_ & Hnil & out & -> & He).
  pose proof (pl_flush to_vec notify p2 acc3 (Ok out) Hr2 Hb2 Ef) as Hstep.
  set (p3 := with_writer _ _ _ _ _ _ _) in Hstep.
  assert (pipe_ok run_id p3) as Hok3 by (by eapply step_pipe).
  destruct (drain_batch p3 Hok3 eq_refl) as (p4 & Hd4 & Hb4 & Ha4 & Hcw).
  assert (pipe_ok run_id p4) as Hok4 by (eapply steps_pipe; [apply Hd4|done]).
  pose proof (proj2 (proj2 (proj2 Hd4))) as Hr4.
  assert (drains p p4) as Hd.
  { eapply drains_trans; [exact Hd1|]. eapply drains_trans; [exact Hd2|].
    eapply drains_trans; [apply (drains_step _ _ Hstep eq_refl eq_refl eq_refl)|exact Hd4]. }
  destruct (queue_exists p4 Hok4 Hr4) as (queue4 & Hq4 & Hl4).
  assert (working p4 = []) as Hw4 by (rewrite (working_nil _ Hb4), Ha4; exact Hnil).
  assert (queue4 = []) as ->.
  { destruct (queue_exists p3 Hok3 eq_refl) as (queue3 & Hq3 & Hl3).
    assert (queue3 = []) as ->.
    { apply (ledger_inj (working p3) queue3 (ba_pending (pl_accumulator p2)) []).
      - unfold queue_is in Hq2, Hq3. rewrite <-Hq3, <-(working_nil _ Hb2), <-Hq2. done.
      - by destruct (triggered_events (Ok out) _ acc3 out eq_refl He) as [Hw _]. }
    destruct Hd4 as (_ & Hl & _). rewrite Hl, Hl3, !(assoc_L (++)), Hcw, <-!(assoc_L (++)) in Hl4.
    do 2 apply app_inv_head in Hl4. done. }
  exists p4. split; [done|]. rewrite Hw4, !app_nil_r in Hl4. split.
  - destruct (po_store _ _ Hok4) as [->|[Hf _]]; [|congruence].
    rewrite <-Hl4. by destruct Hd as (_ & ? & _).
  - unfold queue_is in Hq4. by rewrite Hq4, Hw4.
Qed.

(** ** Properties *)

(** C1: whatever the interleaving of producers and writer, the accepted events
    are numbered 1, 2, 3, ... and form a valid stream, the durable store holds a
    prefix of them (so nothing is stored twice, out of order or without having
    been accepted), and while the writer runs the watermark is the number of
    stored events. *)
Theorem pipeline_store_prefix (notifier : option N) p :
  clos_refl_trans_1n _ (pipeline_step to_vec notify) (pipeline_init run_id notifier) p ->
  log_ok run_id (pl_log p) /\ ws_store (pl_writer p) `prefix_of` pl_log p /\
  (pl_running p = true ->
   get (wm_value (ws_watermark (pl_writer p))) = list_len (ws_store (pl_writer p))).
Proof.
  intros Hr. pose proof (reachable_pipe _ _ Hr) as Hok. split; [apply (hub_log _ _ _ (po_core _ _ Hok))|].
  destruct (po_sync _ _ Hok) as (lost & queue & Hlog & _ & _). split.
  - rewrite Hlog. destruct (po_store _ _ Hok) as [->|[_ ->]].
    + by eexists.
    + unfold working. rewrite <-!(assoc_L (++)), (assoc_L (++) (pl_confirmed p)). by eexists.
  - intros Hrun. destruct (po_store _ _ Hok) as [->|[? _]]; [|congruence].
    rewrite (po_watermark _ _ Hok). cbn [wm_value]. apply key_get_new.
    pose proof (po_length _ _ Hok) as Hlen. rewrite Hlog, !list_len_app in Hlen.
    pose proof (list_len_nonneg (pl_confirmed p)). pose proof (list_len_nonneg (working p)).
    pose proof (list_len_nonneg lost). pose proof (list_len_nonneg queue). lia.
Qed.

(** The accounting of the ingress never fails.  In every reachable state no
    commit-accounting failure is latched, and when the running writer has a
    batch, the watermark accepts it as a candidate, no [expect] of the commit
    panics, and after a successful transaction the ingress confirms the batch
    without an error. *)
Theorem pipeline_accounting_never_fails (notifier : option N) p :
  clos_refl_trans_1n _ (pipeline_step to_vec notify) (pipeline_init run_id notifier) p ->
  (forall f, is_failure (ingress_state (hs_reserver (pl_hub p))) = Some f ->
     icf_kind f <> CommitAccounting) /\
  (forall b, pl_running p = true -> pl_batch p = Some b ->
     exists notification watermark,
       watermark_candidate (ws_watermark (pl_writer p)) b = Some (Ok notification) /\
       watermark_advance (ws_watermark (pl_writer p)) notification = Ok watermark /\
       get (wm_value watermark) =
         get (wm_value (ws_watermark (pl_writer p))) + list_len (eb_events b) /\
       (mark_committed (hs_reserver (pl_hub p)) notification).2 = Ok tt).
Proof.
  intros Hr. pose proof (reachable_pipe _ _ Hr) as Hok.
  destruct (po_sync _ _ Hok) as (lost & queue & Hlog & Hsync & _). split; [apply Hsync|].
  intros b Hrun Hb. destruct (batch_ready p b Hok Hrun Hb) as (Hc & Hm & queue' & Hlog' & _).
  eexists _, _. split; [exact Hc|]. rewrite (po_watermark _ _ Hok).
  split; [apply advance_notification|]. split; [|done]. cbn [wm_value].
  pose proof (po_length _ _ Hok) as Hlen. rewrite Hlog', !list_len_app in Hlen.
  pose proof (list_len_nonneg (pl_confirmed p)). pose proof (list_len_nonneg (eb_events b)).
  pose proof (list_len_nonneg (ba_pending (pl_accumulator p))). pose proof (list_len_nonneg queue').
  rewrite !key_get_new by lia. done.
Qed.

(** C6: everything accepted can be made durable.  From every reachable state in
    which the writer runs, the writer alone reaches a state in which the store
    is exactly the log of accepted events and the ingress is empty: no queued
    or in-flight event is ever stuck. *)
Theorem pipeline_drains (notifier : option N) p :
  clos_refl_trans_1n _ (pipeline_step to_vec notify) (pipeline_init run_id notifier) p ->
  pl_running p = true ->
  exists p', clos_refl_trans_1n _ (pipeline_step to_vec notify) p p' /\ pl_log p' = pl_log p /\ pl_running p' = true /\
    ws_store (pl_writer p') = pl_log p /\
    is_outstanding (ingress_state (hs_reserver (pl_hub p'))) = [].
Proof.
  intros Hr Hrun. destruct (drain_all p (reachable_pipe _ _ Hr) Hrun) as (p' & (Hs & Hl & _ & Hr') & ? & ?).
  by exists p'.
Qed.
End Steps.

(** ** Witnesses *)

(** One event is admitted and flushed into a batch that waits for its commit. *)
Definition sample_candidate (id : EventIdentity) : DiagnosticEvent :=
  DiagnosticEvent_SpanStarted
    (mkSpanStarted
       (mkDiagnosticEventHeader EVENT_SCHEMA_VERSION (ei_run_id id) (ei_sequence id) 10
          (mkDiagnosticScope None None None None None None None) [])
       (SpanStartDetail_RunLifecycle mkEmptyDetail) None).

Definition sample_encode (_ : DiagnosticEvent) : option (list ascii) := Some ["{"%char; "}"%char].

Definition sample_notify (n : unit) (_ : AcceptedDiagnosticEvent) : unit * result unit DeliveryFailure :=
  (n, Ok tt).

Definition sample_accepted : AcceptedDiagnosticEvent :=
  mkAcceptedDiagnosticEvent (sample_candidate (mkEventIdentity (mkCanonicalUuid 7) 1))
    ["{"%char; "}"%char] (Some SpanKind_RunLifecycle) false.

Definition sample_batch : EventBatch := mkEventBatch [sample_accepted] 2.

Definition sample_pending : Pending IngressReservation :=
  mkPending (sample_candidate (mkEventIdentity (mkCanonicalUuid 7) 1)) ["{"%char; "}"%char] 1
    (mkIngressReservation (one_event 2) Normal).

Definition sample_p0 : Pipeline := pipeline_init (mkCanonicalUuid 7) (Some tt).

Definition sample_p1 : Pipeline :=
  with_hub sample_p0
    (admit_reserve sample_encode (pl_hub sample_p0) sample_candidate
       (fun i size => reserve i size Normal)).1 (Some sample_pending) [].

Definition sample_p2 : Pipeline :=
  with_hub sample_p1 (admit_commit sample_notify (pl_hub sample_p1) sample_pending).1 None
    (eb_events sample_batch).

Definition sample_p3 : Pipeline :=
  with_writer sample_p2 (try_dequeue (hs_reserver (pl_hub sample_p2))).1
    (push (pl_accumulator sample_p2) sample_accepted 0).1
    None (pl_writer sample_p2) true [].

Definition sample_p4 : Pipeline :=
  with_writer sample_p3 (hs_reserver (pl_hub sample_p3)) (flush (pl_accumulator sample_p3)).1
    (Some sample_batch) (pl_writer sample_p3) true [].

Lemma sample_reachable :
  clos_refl_trans_1n _ (pipeline_step sample_encode sample_notify) sample_p0 sample_p4.
Proof.
  apply Relation_Operators.rt1n_trans with sample_p1.
  { apply (pl_reserve _ _ sample_p0 sample_candidate Normal _ (Ok sample_pending));
      [reflexivity|apply pair_eq; vm_compute; reflexivity]. }
  apply Relation_Operators.rt1n_trans with sample_p2.
  { apply (pl_admit _ _ sample_p1 sample_pending _ (Ok (sample_accepted, Delivered)));
      [reflexivity|apply pair_eq; vm_compute; reflexivity]. }
  apply Relation_Operators.rt1n_trans with sample_p3.
  { apply (pl_push _ _ sample_p2 _ sample_accepted 0 _ (Ok None)); [reflexivity..| |];
      apply pair_eq; vm_compute; reflexivity. }
  apply Relation_Operators.rt1n_trans with sample_p4; [|apply Relation_Operators.rt1n_refl].
  apply (pl_flush _ _ sample_p3 _ (Ok (Some (mkTriggeredBatch sample_batch ExplicitFlush))));
    [reflexivity..|apply pair_eq; vm_compute; reflexivity].
Qed.

Lemma pipeline_store_prefix_witness :
  log_ok (mkCanonicalUuid 7) (pl_log sample_p4) /\
  ws_store (pl_writer sample_p4) `prefix_of` pl_log sample_p4.
Proof.
  destruct (pipeline_store_prefix sample_encode sample_notify (mkCanonicalUuid 7) (Some tt) sample_p4
    sample_reachable) as (Hlog & Hpre & _).
  split; [exact Hlog|exact Hpre].
Defined.

Lemma pipeline_accounting_never_fails_witness :
  exists notification watermark,
    watermark_candidate (ws_watermark (pl_writer sample_p4)) sample_batch = Some (Ok notification) /\
    watermark_advance (ws_watermark (pl_writer sample_p4)) notification = Ok watermark /\
    (mark_committed (hs_reserver (pl_hub sample_p4)) notification).2 = Ok tt.
Proof.
  destruct (pipeline_accounting_never_fails sample_encode sample_notify (mkCanonicalUuid 7) (Some tt)
    sample_p4 sample_reachable) as [_ Hbatch].
  destruct (Hbatch sample_batch eq_refl eq_refl) as (n & w & Hc & Ha & _ & Hm).
  exists n, w. split; [exact Hc|]. split; [exact Ha|exact Hm].
Defined.

Lemma pipeline_drains_witness :
  exists p', clos_refl_trans_1n _ (pipeline_step sample_encode sample_notify) sample_p4 p' /\
    ws_store (pl_writer p') = pl_log sample_p4.
Proof.
  destruct (pipeline_drains sample_encode sample_notify (mkCanonicalUuid 7) (Some tt) sample_p4
    sample_reachable eq_refl) as (p' & Hs & _ & _ & Hst & _).
  exists p'. split; [exact Hs|exact Hst].
Defined.

(** The hub with the mandatory ingress as its reserver. *)
Definition sample_hub_run : DiagnosticHub MandatoryIngress unit * list AdmissionReceipt :=
  hub_ops (S := unit) sample_encode sample_notify sample_notify
    (DiagnosticHub_new (mkCanonicalUuid 7) MandatoryIngress_new (Some tt))
    [OpAdmit sample_candidate (Some tt); OpBeginCueCapture; OpAdmitCue sample_candidate None].

Lemma hub_accepts_dense_stream_witness :
  length sample_hub_run.2 = 2%nat /\
  log_ok (mkCanonicalUuid 7) (ar_accepted <$> sample_hub_run.2) /\
  held (hs_reserver (guarded (hub_state sample_hub_run.1))) = ar_accepted <$> sample_hub_run.2.
Proof.
  split; [vm_compute; reflexivity|].
  destruct (hub_accepts_dense_stream (S := unit) (LAWS := ingress_laws) sample_encode sample_notify sample_notify
    (mkCanonicalUuid 7) MandatoryIngress_new (Some tt)
    [OpAdmit sample_candidate (Some tt); OpBeginCueCapture; OpAdmitCue sample_candidate None]
    sample_hub_run.1 sample_hub_run.2 eq_refl (surjective_pairing _)) as (Hlog & Hheld & _).
  split; [exact Hlog|exact Hheld].
Defined.

Lemma hub_accepts_iff_witness :
  (exists receipt, (hub_admit (S := unit) sample_encode sample_notify sample_notify sample_hub_run.1
     sample_candidate None).2 = Ok receipt) /\
  event_ok (events_of (ar_accepted <$> sample_hub_run.2))
    (sample_candidate (mkEventIdentity (mkCanonicalUuid 7) 3)).
Proof.
  assert (exists receipt, (hub_admit (S := unit) sample_encode sample_notify sample_notify sample_hub_run.1
     sample_candidate None).2 = Ok receipt) as H by (eexists; vm_compute; reflexivity).
  split; [exact H|].
  apply (hub_accepts_iff (S := unit) (LAWS := ingress_laws) sample_encode sample_notify sample_notify
    (mkCanonicalUuid 7) MandatoryIngress_new (Some tt)
    [OpAdmit sample_candidate (Some tt); OpBeginCueCapture; OpAdmitCue sample_candidate None]
    sample_hub_run.1 sample_hub_run.2 sample_candidate eq_refl (surjective_pairing _)) in H.
  destruct H as (_ & _ & Hok & _). exact Hok.
Defined.
