(* ===== verification/WriterSystem.v ===== *)
(** * The writer at work

    A run of the writer is a store that is created, batches that are committed
    until one fails, and the finalization.  Whatever fails, the store is that of
    a prefix of the batches and can be reopened; every commit is one of the
    three outcomes of [Pipeline]; a run is finalized once. *)

From S2P Require Import Prelude Wire Scalar Kinds Detail Event Validate ValidateSpec Projection Table.
From S2P Require Import Spans Messages Plans Counters Usage UsageSpec UsageCorrect Snapshot Key Hub Store Batch.
From S2P Require Import Writer WriterSpec StoreSpec Query QuerySpec Ingress Pipeline.

Section System.
Context (to_string : CounterSeriesIdentity -> string) `{LAWS : BigUintLaws} `{SL : StoreEncodingLaws}.

Abbreviation events_of stored := (ae_event <$> stored).

(** Commits, each with the faults it meets, until one returns an error. *)
Fixpoint commit_batches (w : TransactionalWriter) (work : list (Faults * EventBatch))
    : option (TransactionalWriter * option WriterError) :=
  match work with
  | [] => Some (w, None)
  | (faults, batch) :: work' =>
      '(w', r) ← commit_batch_with_hook to_string faults w batch;
      match r with
      | Ok _ => commit_batches w' work'
      | Err e => Some (w', Some e)
      end
  end.

(** The events of the first [k] batches. *)
Definition events_through (k : nat) (work : list (Faults * EventBatch)) : list AcceptedDiagnosticEvent :=
  concat ((fun x => eb_events x.2) <$> take k work).

Definition batch_ok (batch : EventBatch) : Prop :=
  eb_events batch <> [] /\ Forall stored_event (eb_events batch).

Lemma commit_batches_spec run_id work : forall stored w,
  writer_ok to_string run_id stored w -> Forall (fun x => batch_ok x.2) work ->
  5 * (list_len stored + list_len (events_through (length work) work)) + 10 <= int_max Usize ->
  exists w' e k, commit_batches w work = Some (w', e) /\ (k <= length work)%nat /\
    store_ok to_string run_id (stored ++ events_through k work) (tw_db w') /\
    match e with
    | None => k = length work /\ writer_ok to_string run_id (stored ++ events_through k work) w'
    | Some _ => True
    end.
Proof.
  induction work as [|[faults batch] work IH]; intros stored w Hw Hall Hlen; cbn [commit_batches].
  - exists w, None, O. unfold events_through. cbn. rewrite app_nil_r.
    split_and!; [done|lia|apply Hw|done|done].
  - apply Forall_cons in Hall as [[Hne Hst] Hall]. cbn [snd] in *.
    assert (events_through (length ((faults, batch) :: work)) ((faults, batch) :: work) =
              eb_events batch ++ events_through (length work) work) as Hev by done.
    rewrite Hev, list_len_app in Hlen. pose proof (list_len_nonneg (events_through (length work) work)).
    destruct (commit_batch_cases to_string faults run_id stored w batch Hw Hne Hst) as (w1 & r & -> & Hr).
    { rewrite list_len_app. lia. }
    cbn [mbind option_bind]. destruct Hr as [w1 notification Hw1 _ _|db e Hdb _|e _].
    + destruct (IH _ _ Hw1 Hall) as (w' & e & k & -> & Hk & Hs & He); [rewrite list_len_app; lia|].
      exists w', e, (S k). cbn [length]. split; [done|]. split; [lia|].
      change (events_through (S k) ((faults, batch) :: work)) with (eb_events batch ++ events_through k work).
      rewrite (assoc_L (++)). split; [done|]. destruct e; [done|]. destruct He as [-> ?]. done.
    + exists (with_db w db), (Some (WriterPostCommitValidation e)), 1%nat. cbn [length tw_db with_db].
      change (events_through 1 ((faults, batch) :: work)) with (eb_events batch ++ []).
      rewrite app_nil_r. split_and!; [done|lia|done|done].
    + exists w, (Some e), O. cbn [length]. unfold events_through. cbn. rewrite app_nil_r.
      split_and!; [done|lia|apply Hw|done].
Qed.

(** ** Finalization *)

(** A run that was not finalized. *)
Definition open_run (m : RunMetadata) : Prop :=
  rm_ended_at m = None /\ rm_production_outcome m = None /\ rm_clean_shutdown m = 0.

Lemma set_final_ok run_id n m ended_at outcome : metadata_ok run_id n m ->
  metadata_ok run_id n (set_final ended_at outcome (SortableU64Key_new n) m).
Proof.
  intros [Hc Hr Hck Hcs Hrk Hrs]. constructor; try done.
  unfold check_run_metadata in *. unfold set_final.
  cbn [rm_store_schema_version rm_schema_identity rm_event_schema_version rm_run_id rm_started_at
       rm_production_outcome rm_configuration_identity rm_committed_key rm_committed_sequence
       rm_read_model_key rm_read_model_sequence rm_clean_shutdown].
  bool_hyps. rewrite Hck, Hcs, Hrk, Hrs in *.
  repeat match goal with H : ?b = true |- context [?b] => rewrite H end.
  rewrite (bool_decide_eq_true_2 (rm_schema_identity m = _)) by done.
  rewrite (bool_decide_eq_true_2 (into_bytes _ = _)), (bool_decide_eq_true_2 (canonical_decimal _ = _)) by done.
  by destruct outcome.
Qed.

Lemma final_row_spec run_id n m : metadata_ok run_id n m -> open_run m ->
  final_row_matches (SortableU64Key_new n) m = true.
Proof.
  intros [_ _ Hck Hcs Hrk Hrs] (He & Ho & Hc). unfold final_row_matches.
  rewrite He, Ho, Hc, Hck, Hcs, Hrk, Hrs. by rewrite !bool_decide_eq_true_2.
Qed.

Definition finalized (ended_at : string) (outcome : FinalProductionOutcome) (n : Z) (db : Database)
    : Database :=
  with_run_metadata db (set_final ended_at outcome (SortableU64Key_new n) (db_run_metadata db)).

Lemma finalized_store_ok run_id stored db ended_at outcome :
  store_ok to_string run_id stored db ->
  store_ok to_string run_id stored (finalized ended_at outcome (list_len stored) db).
Proof. intros [Hr Hs Hm He Ht]. constructor; try done. by apply set_final_ok. Qed.

Lemma finalize_transaction_spec faults run_id stored db ended_at outcome :
  store_ok to_string run_id stored db -> open_run (db_run_metadata db) ->
  let r := finalize_transaction faults db ended_at outcome (SortableU64Key_new (list_len stored)) in
  r = Ok (finalized ended_at outcome (list_len stored) db) \/
  ((exists e, r = Err e) /\ faults <> no_faults).
Proof.
  intros Hs Ho. unfold finalize_transaction.
  destruct (fault_begin faults) eqn:E1; [right; split; [eauto|by intros ->]|].
  unfold finalize_row. rewrite (final_row_spec run_id (list_len stored)); [|apply Hs|done].
  unfold update_run_metadata.
  pose proof (set_final_ok run_id _ _ ended_at outcome (so_metadata _ _ _ _ Hs)) as Hm.
  rewrite (mo_check _ _ _ Hm). cbn [mbind option_bind].
  destruct (fault_statement faults 1 FinalizeRunMetadata) eqn:E2; [right; split; [eauto|by intros ->]|].
  cbn [Z.eqb negb]. change (1 =? 1) with true. cbn [negb].
  destruct (fault_before_commit faults) eqn:E3; [right; split; [eauto|by intros ->]|].
  destruct (fault_commit faults) eqn:E4; [right; split; [eauto|by intros ->]|].
  by left.
Qed.

Lemma finalize_run_cases faults run_id stored w ended_at outcome :
  writer_ok to_string run_id stored w -> open_run (db_run_metadata (tw_db w)) -> ended_at <> EmptyString ->
  let final := finalized ended_at outcome (list_len stored) (tw_db w) in
  let '(w', r) := finalize_run_with_hook faults w ended_at outcome in
  (r = Ok (SortableU64Key_new (list_len stored)) /\ tw_db w' = final /\
   writer_ok to_string run_id stored w' /\ psm_clean_shutdown (tw_metadata w') = true) \/
  ((exists e, r = Err e) /\ faults <> no_faults /\ (w' = w \/ tw_db w' = final)).
Proof.
  intros Hw Ho Hne final. unfold finalize_run_with_hook.
  rewrite bool_decide_eq_false_2 by done. rewrite (wo_metadata _ _ _ _ Hw).
  cbn [metadata_of psm_clean_shutdown]. destruct Ho as (He & Hp & Hc) eqn:EHo. rewrite Hc. cbn [Z.eqb].
  rewrite (wo_watermark _ _ _ _ Hw). cbn [wm_value].
  pose proof (wo_store _ _ _ _ Hw) as Hs. pose proof (stored_length to_string run_id _ (so_recorded _ _ _ _ Hs)) as Hn.
  destruct (finalize_transaction_spec faults run_id stored (tw_db w) ended_at outcome Hs Ho)
    as [->|[[e ->] Hf]]; [|right; split_and!; [eauto|done|by left]].
  destruct (refresh_ok faults run_id (list_len stored) (list_len stored)
    (finalized ended_at outcome (list_len stored) (tw_db w)) (db_run_metadata (tw_db w))) as [->|(e & -> & Hf)].
  { lia. } { lia. } { by apply set_final_ok, Hs. }
  2:{ right. split_and!; [eauto| |by right]. by intros ->; destruct Hf. }
  destruct (fault_final_read faults) eqn:E5; [right; split_and!; [eauto|by intros ->|by right]|].
  cbn [finalized with_run_metadata set_final db_run_metadata rm_ended_at rm_production_outcome rm_clean_shutdown].
  rewrite !bool_decide_eq_true_2 by done. cbn [andb Z.eqb]. left. split_and!; [done|done| |done].
  constructor; cbn [tw_db tw_projector tw_watermark tw_metadata]; try apply Hw; try done.
  by apply finalized_store_ok.
Qed.

(** ** Properties *)

(** C3: a batch is committed as a whole or not at all.  Whatever SQLite, the
    hooks and the file system refuse, one call of the writer does not panic and
    either succeeds, and then the store holds exactly the old events followed by
    the batch, with the encoded snapshot of these events, both watermarks at
    their number, and the observer told; or it changes nothing; or, when only
    the validation after the commit failed, the store holds the batch and the
    writer keeps its old state. *)
Theorem commit_batch_atomic faults run_id stored w batch :
  writer_ok to_string run_id stored w -> batch_ok batch ->
  5 * list_len (stored ++ eb_events batch) + 10 <= int_max Usize ->
  exists w' r, commit_batch_with_hook to_string faults w batch = Some (w', r) /\
    match r with
    | Ok notification =>
        writer_ok to_string run_id (stored ++ eb_events batch) w' /\
        tw_notifications w' = tw_notifications w ++ [notification]
    | Err (WriterPostCommitValidation _) =>
        store_ok to_string run_id (stored ++ eb_events batch) (tw_db w') /\ w' = with_db w (tw_db w')
    | Err _ => w' = w
    end.
Proof.
  intros Hw [Hne Hst] Hlen.
  destruct (commit_batch_cases to_string faults run_id stored w batch Hw Hne Hst Hlen) as (w' & r & Hc & Hr).
  exists w', r. split; [done|]. destruct Hr as [w' notification ? ? _|db e ? _|e He]; [done|done|].
  destruct e; try done. by destruct (He error).
Qed.

(** C4: a store can always be reopened.  From the creation of a store, whatever
    batches are committed and whatever fails at any point, the database holds
    the events of the first batches, a prefix, and the validation of
    [open_validated] accepts it and finds its watermark; without an error the
    prefix is everything. *)
Theorem store_reopens initial work :
  validate_initial_metadata initial = Ok tt ->
  check_run_id (run_id_text (ism_run_id initial)) = true ->
  Forall (fun x => batch_ok x.2) work ->
  5 * list_len (events_through (length work) work) + 10 <= int_max Usize ->
  let run_id := ism_run_id initial in
  exists db metadata w, create initial = Ok (db, metadata) /\ TransactionalWriter_new db metadata = Ok w /\
  exists w' e k, commit_batches w work = Some (w', e) /\ (k <= length work)%nat /\
    (e = None -> k = length work) /\
    let stored := events_through k work in
    db_events (tw_db w') = event_row <$> stored /\
    exists reopened, validate_store_state (tw_db w') run_id = Ok reopened /\
      psm_committed_watermark reopened = SortableU64Key_new (list_len stored) /\
      psm_read_model_watermark reopened = SortableU64Key_new (list_len stored).
Proof.
  intros Hv Hr Hall Hlen run_id.
  pose proof (initial_store_ok to_string initial Hv Hr) as Hinit. fold run_id in Hinit.
  exists (initial_database initial), (metadata_of run_id 0 (db_run_metadata (initial_database initial))).
  unfold create. rewrite Hv, (mo_check _ _ _ (so_metadata _ _ _ _ Hinit)).
  pose proof (store_validates to_string run_id [] _ Hinit) as Hval.
  unfold run_id in Hval |- *. rewrite Hval.
  destruct (TransactionalWriter_new (initial_database initial)
    (metadata_of (ism_run_id initial) 0 (db_run_metadata (initial_database initial)))) as [w|e] eqn:Ew.
  2:{ exfalso. unfold TransactionalWriter_new in Ew.
      cbn [metadata_of psm_committed_watermark psm_read_model_watermark psm_clean_shutdown] in Ew.
      by rewrite key_get_new in Ew by (vm_compute; split; discriminate). }
  exists w. split; [done|]. split; [done|].
  pose proof (new_writer_ok to_string initial w Hv Hr Ew) as Hw.
  destruct (commit_batches_spec (ism_run_id initial) work [] w Hw Hall) as (w' & e & k & Hc & Hk & Hs & He).
  { change (list_len (@nil AcceptedDiagnosticEvent)) with 0. lia. }
  exists w', e, k. split; [done|]. split; [done|]. split; [by intros ->; apply He|].
  cbv zeta. split; [apply Hs|]. eexists. split; [by apply (store_validates to_string)|done].
Qed.

(** A run is finalized exactly once.  On a run that is not finalized and
    without faults, [finalize_run] records the end and the outcome, marks the
    shutdown clean, keeps events, snapshot and watermarks, and returns the
    watermark; from then on it refuses.  With faults the database is either as
    it was or finalized. *)
Theorem finalize_run_once faults run_id stored w ended_at outcome :
  writer_ok to_string run_id stored w -> open_run (db_run_metadata (tw_db w)) -> ended_at <> EmptyString ->
  let final := finalized ended_at outcome (list_len stored) (tw_db w) in
  let '(w', r) := finalize_run_with_hook faults w ended_at outcome in
  (faults = no_faults -> is_ok r = true) /\
  store_ok to_string run_id stored (tw_db w') /\
  match r with
  | Ok watermark =>
      watermark = SortableU64Key_new (list_len stored) /\ tw_db w' = final /\
      forall faults' ended_at' outcome', ended_at' <> EmptyString ->
        finalize_run_with_hook faults' w' ended_at' outcome' = (w', Err WriterFinalStateConflict)
  | Err _ => tw_db w' = tw_db w \/ tw_db w' = final
  end.
Proof.
  intros Hw Ho Hne final. pose proof (finalize_run_cases faults run_id stored w ended_at outcome Hw Ho Hne) as Hc.
  cbv zeta in Hc. fold final in Hc. destruct (finalize_run_with_hook _ _ _ _) as [w' r].
  destruct Hc as [(-> & Hdb & Hw' & Hclean)|([e ->] & Hf & Hd)].
  - split_and!; [done|apply Hw'|done|done|]. intros faults' ended_at' outcome' Hne'.
    unfold finalize_run_with_hook. by rewrite bool_decide_eq_false_2, Hclean.
  - split; [done|]. destruct Hd as [->|Hdb]; [split; [apply Hw|by left]|].
    split; [|by right]. rewrite Hdb. apply finalized_store_ok, Hw.
Qed.

(** C2: every commit of the detailed writer is a commit of [Pipeline]: for the
    outcome of its transaction, the abstract step succeeds or fails with it,
    moves the same watermark, and its list of stored events is the one the
    database holds.  A projection or an encoding that fails is a rollback. *)
Theorem writer_refines_pipeline faults run_id stored w batch ingress :
  writer_ok to_string run_id stored w -> batch_ok batch ->
  5 * list_len (stored ++ eb_events batch) + 10 <= int_max Usize ->
  exists w' r outcome stored' ingress',
    commit_batch_with_hook to_string faults w batch = Some (w', r) /\
    commit_batch outcome (mkWriterState (tw_watermark w) stored) ingress batch =
      Some (mkWriterState (tw_watermark w') stored', ingress', is_ok r) /\
    store_ok to_string run_id stored' (tw_db w') /\
    (is_ok r = true -> writer_ok to_string run_id stored' w').
Proof.
  intros Hw [Hne Hst] Hlen.
  destruct (commit_batch_cases to_string faults run_id stored w batch Hw Hne Hst Hlen) as (w' & r & Hc & Hr).
  exists w', r. destruct Hr as [w' notification Hw' Hn Hcand|db e Hdb Hf|e He].
  - exists Committed. do 2 eexists. split; [done|]. split; [|split; [apply Hw'|done]].
    unfold commit_batch. cbn [ws_watermark ws_store]. rewrite Hcand. cbn [mbind option_bind].
    rewrite (wo_watermark _ _ _ _ Hw) in Hcand |- *.
    destruct (candidate_committed to_string run_id stored batch notification
      (so_recorded _ _ _ _ (wo_store _ _ _ _ Hw')) Hcand) as (Hrun & Hprev & Hcom).
    unfold watermark_advance. rewrite Hrun, Hprev, Hcom. cbn [wm_run_id wm_value].
    rewrite !bool_decide_eq_false_2 by tauto. by rewrite (wo_watermark _ _ _ _ Hw').
  - exists CommittedUnvalidated. do 2 eexists. split; [done|]. split; [|split; [done|done]].
    unfold commit_batch. cbn [ws_watermark ws_store with_db tw_watermark].
    unfold commit_batch_with_hook in Hc.
    destruct (watermark_candidate (tw_watermark w) batch) as [[notification|e']|]; cbn in Hc |- *;
      [done| |done]. injection Hc as ? ?. congruence.
  - exists RolledBack. do 2 eexists. split; [done|]. split; [|split; [apply Hw|done]].
    unfold commit_batch. cbn [ws_watermark ws_store].
    unfold commit_batch_with_hook in Hc.
    by destruct (watermark_candidate (tw_watermark w) batch) as [[notification|e']|].
Qed.
End System.

(** *** Witnesses *)

Lemma sample_batch_ok : @batch_ok sample_encoding sample_store_batch.
Proof. split; [done|]. apply Forall_singleton, sample_event_stored. Qed.

(** The sixth statement of the transaction fails. *)
Definition sample_fault : Faults :=
  mkFaults false (fun ordinal _ => ordinal =? 6) false false None false false.

Lemma commit_batch_atomic_witness :
  sample_commit no_faults = Some (sample_committed, Ok (mkCommitNotification (mkCanonicalUuid 7)
    (SortableU64Key_new 0) (SortableU64Key_new 1) 1 2)) /\
  sample_commit sample_fault = Some (sample_writer, Err (WriterStatement 6 (ClearMaterialized TableUsage))) /\
  tw_notifications sample_committed = [mkCommitNotification (mkCanonicalUuid 7)
    (SortableU64Key_new 0) (SortableU64Key_new 1) 1 2].
Proof.
  destruct (@commit_batch_atomic sample_to_string decimal_biguint decimal_biguint_laws sample_encoding no_faults
    (mkCanonicalUuid 7) [] sample_writer sample_store_batch sample_writer_ok sample_batch_ok)
    as (w & r & Hc & Hr); [vm_compute; discriminate|].
  fold (sample_commit no_faults) in Hc.
  assert (sample_commit no_faults = Some (sample_committed, Ok (mkCommitNotification (mkCanonicalUuid 7)
    (SortableU64Key_new 0) (SortableU64Key_new 1) 1 2))) as Hs by (vm_compute; reflexivity).
  destruct (some_pair_inj _ _ _ _ (eq_trans (eq_sym Hc) Hs)) as [-> ->]. destruct Hr as [_ Hn].
  split; [exact Hs|]. split; [vm_compute; reflexivity|exact Hn].
Defined.

Lemma store_reopens_witness :
  exists w' k, (k <= 2)%nat /\
    @commit_batches sample_to_string decimal_biguint sample_encoding sample_writer
      [(no_faults, sample_store_batch); (no_faults, sample_store_batch)] =
      Some (w', Some (WriterWatermark (WatermarkNonCanonicalSequence 2 1))) /\
    exists reopened, @validate_store_state sample_encoding (tw_db w') (mkCanonicalUuid 7) = Ok reopened /\
      psm_committed_watermark reopened =
        SortableU64Key_new
          (list_len (events_through k [(no_faults, sample_store_batch); (no_faults, sample_store_batch)])).
Proof.
  destruct (@store_reopens sample_to_string decimal_biguint decimal_biguint_laws sample_encoding
    sample_encoding_laws sample_initial [(no_faults, sample_store_batch); (no_faults, sample_store_batch)])
    as (db & metadata & w & Hcr & Hw & w' & e & k & Hc & Hk & _ & _ & reopened & Hv & Hwm & _).
  - vm_compute. reflexivity.
  - vm_compute. reflexivity.
  - apply Forall_cons. split; [apply sample_batch_ok|]. apply Forall_singleton, sample_batch_ok.
  - vm_compute. discriminate.
  - assert (@create sample_encoding sample_initial = Ok (sample_fresh_db, tw_metadata sample_writer)) as Hd
      by (vm_compute; reflexivity).
    assert (db = sample_fresh_db /\ metadata = tw_metadata sample_writer) as [-> ->]
      by (pose proof (eq_trans (eq_sym Hcr) Hd) as E; split; congruence).
    assert (TransactionalWriter_new sample_fresh_db (tw_metadata sample_writer) = Ok sample_writer) as Hn
      by (vm_compute; reflexivity).
    assert (w = sample_writer) as -> by congruence. exists w', k. split; [exact Hk|].
    split; [|exists reopened; split; [exact Hv|exact Hwm]].
    rewrite Hc. f_equal. f_equal.
    assert ((snd <$> @commit_batches sample_to_string decimal_biguint sample_encoding sample_writer
      [(no_faults, sample_store_batch); (no_faults, sample_store_batch)]) =
      Some (Some (WriterWatermark (WatermarkNonCanonicalSequence 2 1)))) as He by (vm_compute; reflexivity).
    rewrite Hc in He. cbn in He. congruence.
Defined.

Lemma finalize_run_once_witness :
  let '(w, r) := @finalize_run_with_hook sample_encoding no_faults sample_committed "2024-01-01T01:00:00Z" OutcomeCompleted in
  r = Ok (SortableU64Key_new 1) /\
  rm_production_outcome (db_run_metadata (tw_db w)) = Some "completed"%string /\
  @finalize_run_with_hook sample_encoding no_faults w "2024-01-01T02:00:00Z" OutcomeFailed = (w, Err WriterFinalStateConflict).
Proof.
  pose proof (@finalize_run_once sample_to_string decimal_biguint sample_encoding no_faults
    (mkCanonicalUuid 7) [sample_accepted_event] sample_committed "2024-01-01T01:00:00Z" OutcomeCompleted
    sample_committed_ok ltac:(vm_compute; split_and!; reflexivity) ltac:(discriminate)) as H.
  cbv zeta in H.
  destruct (@finalize_run_with_hook sample_encoding no_faults sample_committed _ _) as [w r].
  destruct H as (Hok & _ & Hr). destruct r as [wm|e]; [|by specialize (Hok eq_refl)].
  destruct Hr as (Hwm & Hdb & Hagain). split; [by rewrite Hwm|].
  split; [rewrite Hdb; reflexivity|]. apply Hagain. discriminate.
Defined.

#[local] Instance TransactionOutcome_eq_dec : EqDecision TransactionOutcome.
Proof. solve_decision. Defined.

Lemma sample_outcome outcome : outcome <> Committed ->
  (fun x : WriterState * MandatoryIngress * bool => x.2) <$>
    commit_batch outcome (mkWriterState (tw_watermark sample_writer) []) MandatoryIngress_new
      sample_store_batch = Some false.
Proof. intros Hne. destruct outcome; [vm_compute; reflexivity..|done]. Qed.

Lemma writer_refines_pipeline_witness :
  exists stored' ingress',
    commit_batch Committed (mkWriterState (tw_watermark sample_writer) []) MandatoryIngress_new sample_store_batch =
      Some (mkWriterState (tw_watermark sample_committed) stored', ingress', true).
Proof.
  destruct (@writer_refines_pipeline sample_to_string decimal_biguint decimal_biguint_laws sample_encoding no_faults
    (mkCanonicalUuid 7) [] sample_writer sample_store_batch MandatoryIngress_new sample_writer_ok sample_batch_ok)
    as (w & r & outcome & stored' & ingress' & Hc & Hp & _); [vm_compute; discriminate|].
  fold (sample_commit no_faults) in Hc.
  assert ((fun x => (fst x, is_ok (snd x))) <$> sample_commit no_faults = Some (sample_committed, true)) as Hs
    by (vm_compute; reflexivity).
  rewrite Hc in Hs. change (Some (w, is_ok r) = Some (sample_committed, true)) in Hs.
  destruct (some_pair_inj _ _ _ _ Hs) as [-> Hok]. rewrite Hok in Hp.
  exists stored', ingress'. destruct (decide (outcome = Committed)) as [<-|Hne]; [exact Hp|].
  pose proof (sample_outcome _ Hne) as Hno. rewrite Hp in Hno. clear - Hno. discriminate.
Defined.

