(* ===== verification/WriterLive.v ===== *)
(** * The constraints of the store never reject the writer

    The tables have primary keys, unique columns and checks.  What the writer
    inserts for a recordable batch satisfies all of them, so a commit fails only
    for a reason outside the store: a fault, an event that cannot be projected,
    or a value that cannot be encoded. *)

From S2P Require Import Prelude Wire Scalar Kinds Detail Event Validate ValidateSpec Projection Table.
From S2P Require Import Spans Messages Plans Counters Usage UsageSpec UsageCorrect Snapshot Key Hub Store Batch.
From S2P Require Import Writer WriterSpec StoreSpec WriterSystem.

(** What the keys of the tables need beyond [StoreEncodingLaws]: the text of a
    scope identifies it and no key text is empty. *)
Class StoreKeyLaws `{StoreEncoding} (to_string : CounterSeriesIdentity -> string) := {
  scope_text_inj : forall s s' t, scope_to_string s = Some t -> scope_to_string s' = Some t -> s = s';
  scope_text_nonempty : forall s t, scope_to_string s = Some t -> t <> EmptyString;
  series_text_nonempty : forall i, to_string i <> EmptyString;
}.

(** ** Checked columns *)

Lemma key_blob_new v : is_key_blob (into_bytes (SortableU64Key_new v)) = true.
Proof. unfold is_key_blob, SortableU64Key_new. cbn [into_bytes]. by rewrite to_be_bytes_length. Qed.

Lemma positive_text_new v : 1 <= v <= int_max U64 ->
  is_positive_text (canonical_decimal (SortableU64Key_new v)) = true.
Proof.
  intros Hv. rewrite canonical_decimal_new by lia.
  destruct (u64_to_string_spec v ltac:(lia)) as (Hd & (c & k & Hb & Hc) & Hval).
  unfold is_positive_text. rewrite Hb in *. apply Forall_cons in Hd as [Hdc Hdk].
  assert (digit_val c <> 0) as Hnz.
  { intros Hz. rewrite (Hc Hz) in Hval. cbn [digits_value] in Hval. lia. }
  assert (forallb is_ascii_digit (c :: k) = true) as ->.
  { apply forallb_forall. intros x [<-|Hx]; [done|]. rewrite Forall_forall in Hdk. apply Hdk.
    by apply list_elem_of_In. }
  apply is_ascii_digit_val in Hdc. unfold digit_val in *. apply andb_true_iff. split; [done|].
  apply andb_true_iff. split; apply Z.leb_le; lia.
Qed.

Lemma decimal_text_zero : is_decimal_text (canonical_decimal (SortableU64Key_new 0)) = true.
Proof. vm_compute. reflexivity. Qed.

Lemma positive_decimal_text text : is_positive_text text = true -> is_decimal_text text = true.
Proof.
  unfold is_decimal_text. intros Hp. rewrite Hp, orb_true_r.
  unfold is_positive_text in Hp. apply andb_true_iff in Hp as [Hd _]. by rewrite Hd.
Qed.

Lemma decimal_text_new v : 0 <= v <= int_max U64 ->
  is_decimal_text (canonical_decimal (SortableU64Key_new v)) = true.
Proof.
  intros Hv. destruct (Z.eq_dec v 0) as [->|]; [exact decimal_text_zero|].
  apply positive_decimal_text, positive_text_new. lia.
Qed.

Lemma decimal_new_inj a b : 0 <= a <= int_max U64 -> 0 <= b <= int_max U64 ->
  canonical_decimal (SortableU64Key_new a) = canonical_decimal (SortableU64Key_new b) -> a = b.
Proof.
  intros Ha Hb. rewrite !canonical_decimal_new by done. intros Heq.
  pose proof (parse_print_u64 a Ha) as Hp. rewrite Heq, (parse_print_u64 b Hb) in Hp. by injection Hp.
Qed.

Lemma key_bytes_inj a b : 0 <= a <= int_max U64 -> 0 <= b <= int_max U64 ->
  into_bytes (SortableU64Key_new a) = into_bytes (SortableU64Key_new b) -> a = b.
Proof.
  intros Ha Hb Heq. apply key_new_inj; [done..|].
  destruct (SortableU64Key_new a), (SortableU64Key_new b). cbn in Heq. by subst.
Qed.

Lemma check_materialized_new (ok : string -> bool) v payload :
  ok (canonical_decimal (SortableU64Key_new v)) = true ->
  forall `{StoreEncoding}, json_valid payload = true ->
  check_materialized ok (materialized_row v payload) = true.
Proof.
  intros Hok ? Hj. unfold check_materialized, materialized_row.
  cbn [mat_model_schema_version mat_key mat_sequence mat_payload_json].
  by rewrite key_blob_new, Hok, Hj.
Qed.

(** ** Unique columns *)

Lemma unique_spec {R V} `{EqDecision V} (column : R -> V) rows r :
  column r ∉ (column <$> rows) -> unique column rows r = true.
Proof.
  intros Hn. unfold unique. apply forallb_forall. intros x Hx%list_elem_of_In.
  apply bool_decide_eq_true. intros Heq. apply Hn. rewrite <-Heq. by apply list_elem_of_fmap_2.
Qed.

(** Distinct numbers have distinct columns. *)
Lemma NoDup_column {R V} (column : R -> V) (number : R -> Z) rows :
  (forall r r', r ∈ rows -> r' ∈ rows -> column r = column r' -> number r = number r') ->
  NoDup (number <$> rows) -> NoDup (column <$> rows).
Proof.
  induction rows as [|r rows IH]; intros Hc Hn; [constructor|].
  cbn [fmap list_fmap] in *. apply NoDup_cons in Hn as [Hr Hn]. apply NoDup_cons. split.
  - intros (r' & Heq & Hr')%list_elem_of_fmap. apply Hr. apply list_elem_of_fmap. exists r'.
    split; [apply Hc; set_solver|done].
  - apply IH; [|done]. intros x y Hx Hy. apply Hc; set_solver.
Qed.

Lemma NoDup_split {V} (l1 : list V) x l2 : NoDup (l1 ++ x :: l2) -> x ∉ l1.
Proof. intros (_ & Hd & _)%NoDup_app Hx. apply (Hd x Hx). set_solver. Qed.

(** ** Insertions that succeed *)

Lemma run_insert_ok {R} table (insert : R -> Database -> option Database)
    (rows : Database -> list R) (put : Database -> list R -> Database) (good : list R -> R -> Prop) :
  (forall db r, good (rows db) r -> insert r db = Some (put db (rows db ++ [r]))) ->
  (forall db k, rows (put db k) = k) -> (forall db k k', put (put db k) k' = put db k') ->
  forall l db k, (forall l1 r l2, l = l1 ++ r :: l2 -> good (k ++ l1) r) ->
    run_statements (insert_rows table insert l) (put db k) = Some (put db (k ++ l)).
Proof.
  intros Hi Hr Hp. induction l as [|r l IH]; intros db k Hg.
  - change (Some (put db k) = Some (put db (k ++ []))). by rewrite app_nil_r.
  - change (insert_rows table insert (r :: l)) with
      ((InsertMaterialized table, insert r) :: insert_rows table insert l).
    cbn [run_statements snd]. rewrite Hi, Hr, Hp by (rewrite Hr, <-(app_nil_r k); by apply (Hg [] r l)). cbn [mbind option_bind].
    rewrite (IH db (k ++ [r])), <-(assoc_L (++)); [done|].
    intros l1 x l2 ->. rewrite <-(assoc_L (++)). by apply (Hg (r :: l1) x l2).
Qed.

(** One table of a batch: cleared, then filled. *)
Lemma run_table_ok {R} table (insert : R -> Database -> option Database)
    (rows : Database -> list R) (put : Database -> list R -> Database) (good : list R -> R -> Prop) l rest db :
  (forall db r, good (rows db) r -> insert r db = Some (put db (rows db ++ [r]))) ->
  (forall db k, rows (put db k) = k) -> (forall db k k', put (put db k) k' = put db k') ->
  (clear_table table).2 db = Some (put db []) ->
  (forall l1 r l2, l = l1 ++ r :: l2 -> good l1 r) ->
  run_statements (clear_table table :: insert_rows table insert l ++ rest) db =
    run_statements rest (put db l).
Proof.
  intros Hi Hr Hp Hc Hg. cbn [run_statements]. rewrite Hc. cbn [mbind option_bind].
  rewrite run_statements_app, (run_insert_ok table insert rows put good Hi Hr Hp); [done|exact Hg].
Qed.

Section Live.
Context `{StoreEncoding}.

Definition span_good (rows : list SpanRow) (r : SpanRow) : Prop :=
  check_span_row r = true /\ (span_key r ∉ (span_key <$> rows)) /\
  span_sequence r ∉ (span_sequence <$> rows).

Definition text_good (rows : list TextRow) (r : TextRow) : Prop :=
  check_text_row r = true /\ text_key r ∉ (text_key <$> rows).

Definition singleton_good (rows : list SingletonRow) (r : SingletonRow) : Prop :=
  check_singleton_row r = true /\ (singleton r ∉ (singleton <$> rows)).

Lemma insert_span_ok db r : span_good (db_spans db) r ->
  insert_span r db = Some (with_spans db (db_spans db ++ [r])).
Proof. intros (Hc & Hk & Hs). unfold insert_span. by rewrite Hc, !unique_spec. Qed.

Lemma insert_text_ok rows put db r : text_good (rows db) r ->
  insert_text rows put r db = Some (put db (rows db ++ [r])).
Proof. intros (Hc & Hk). unfold insert_text. by rewrite Hc, unique_spec. Qed.

Lemma insert_singleton_ok rows put db r : singleton_good (rows db) r ->
  insert_singleton_row rows put r db = Some (put db (rows db ++ [r])).
Proof. intros (Hc & Hk). unfold insert_singleton_row. by rewrite Hc, unique_spec. Qed.

(** A table whose rows pass their checks and have distinct columns. *)
Lemma text_rows_good (l : list TextRow) :
  (forall r, r ∈ l -> check_text_row r = true) -> NoDup (text_key <$> l) ->
  forall l1 r l2, l = l1 ++ r :: l2 -> text_good l1 r.
Proof.
  intros Hc Hn l1 r l2 ->. split; [apply Hc; set_solver|].
  rewrite fmap_app in Hn. cbn in Hn. by apply NoDup_split in Hn.
Qed.

Lemma span_rows_good (l : list SpanRow) :
  (forall r, r ∈ l -> check_span_row r = true) -> NoDup (span_key <$> l) -> NoDup (span_sequence <$> l) ->
  forall l1 r l2, l = l1 ++ r :: l2 -> span_good l1 r.
Proof.
  intros Hc Hn Hs l1 r l2 ->. split; [apply Hc; set_solver|].
  rewrite fmap_app in Hn. rewrite fmap_app in Hs. split; by eapply NoDup_split.
Qed.

(** The materialized tables of an encoded state. *)
Record insertable (m : EncodedMaterializedState) : Prop := {
  in_spans : forall r, r ∈ ems_spans m -> check_span_row r = true;
  in_span_keys : NoDup (span_key <$> ems_spans m);
  in_span_sequences : NoDup (span_sequence <$> ems_spans m);
  in_messages : forall r, r ∈ ems_messages m -> check_text_row r = true;
  in_message_keys : NoDup (text_key <$> ems_messages m);
  in_plans : forall r, r ∈ ems_plans m -> check_text_row r = true;
  in_plan_keys : NoDup (text_key <$> ems_plans m);
  in_counters : forall r, r ∈ ems_counters m -> check_text_row r = true;
  in_counter_keys : NoDup (text_key <$> ems_counters m);
  in_usage : check_singleton_row (ems_usage m) = true;
  in_snapshot : check_singleton_row (ems_snapshot m) = true;
}.

Lemma singleton_row_good r : check_singleton_row r = true ->
  forall l1 x l2, [r] = l1 ++ x :: l2 -> singleton_good l1 x.
Proof.
  intros Hc [|y [|]] x l2 Heq; simplify_eq/=. split; [done|set_solver].
Qed.

Lemma run_replace_all m db : insertable m ->
  run_statements (replace_all m) db =
    Some (mkDatabase (db_run_metadata db) (db_events db) (ems_spans m) (ems_messages m) (ems_plans m)
            (ems_counters m) [ems_usage m] [ems_snapshot m]).
Proof.
  intros []. unfold replace_all. rewrite app_comm_cons.
  change ((clear_table TableSpans :: insert_rows TableSpans insert_span (ems_spans m)) ++ ?k) with
    (clear_table TableSpans :: insert_rows TableSpans insert_span (ems_spans m) ++ k).
  rewrite (run_table_ok TableSpans insert_span db_spans with_spans span_good _ _ _ insert_span_ok)
    by (done || by apply span_rows_good).
  rewrite (run_table_ok TableMessages insert_message db_messages with_messages text_good _ _ _
             (insert_text_ok db_messages with_messages)) by (done || by apply text_rows_good).
  rewrite (run_table_ok TablePlans insert_plan db_plans with_plans text_good _ _ _
             (insert_text_ok db_plans with_plans)) by (done || by apply text_rows_good).
  rewrite (run_table_ok TableCounters insert_counter db_counters with_counters text_good _ _ _
             (insert_text_ok db_counters with_counters)) by (done || by apply text_rows_good).
  rewrite (run_table_ok TableUsage insert_usage db_usage with_usage singleton_good _ _ _
             (insert_singleton_ok db_usage with_usage)) by (done || by apply singleton_row_good).
  rewrite <-(app_nil_r (insert_rows TableSnapshot _ _)).
  rewrite (run_table_ok TableSnapshot insert_snapshot db_snapshot with_snapshot singleton_good _ _ _
             (insert_singleton_ok db_snapshot with_snapshot)) by (done || by apply singleton_row_good).
  done.
Qed.
End Live.

(** ** What is encoded is insertable *)

Lemma Ok_inj {A E} (a b : A) : Ok (E := E) a = Ok b -> a = b.
Proof. by intros [= ->]. Qed.

Lemma NoDup_encoded {A R K V} (f : A -> result R WriterError) (key : A -> K) (column : R -> V) l : forall rows,
  (forall x x' r r', x ∈ l -> x' ∈ l -> f x = Ok r -> f x' = Ok r' -> column r = column r' -> key x = key x') ->
  NoDup (key <$> l) -> encode_all f l = Ok rows -> NoDup (column <$> rows).
Proof.
  induction l as [|x l IH]; intros rows Hinj Hn; cbn [encode_all].
  - intros [= <-]. constructor.
  - destruct (f x) as [r|] eqn:E; [|done]. cbn [result_bind].
    destruct (encode_all f l) as [rows'|] eqn:E'; [|done]. cbn [result_bind]. intros [= <-].
    apply NoDup_cons in Hn as [Hx Hn]. apply NoDup_cons. split.
    + intros (r' & Heq & Hr')%list_elem_of_fmap.
      destruct (elem_of_encode_all f l rows' r' E' Hr') as (x' & Hx' & Hf').
      apply Hx. apply list_elem_of_fmap. exists x'. split; [|done].
      apply (Hinj x x' r r'); [set_solver..|done].
    + apply IH; [|done|done]. intros y y' s s' Hy Hy'. apply Hinj; set_solver.
Qed.

Lemma NoDup_numbered {X} (f : DiagnosticEvent -> option X) (number : X -> Z) run_id A h :
  (forall e x, f e = Some x -> number x = event_sequence e) -> recorded run_id A h ->
  NoDup (number <$> omap f h).
Proof.
  intros Hf. induction 1 as [|h e Hr IH (_ & Hs & _) _ _]; [constructor|].
  rewrite omap_app, fmap_app. cbn. destruct (f e) as [x|] eqn:E; [|by rewrite app_nil_r].
  apply NoDup_app. split_and!; [done| |apply NoDup_singleton].
  intros n (y & -> & (e' & He' & Hy)%list_elem_of_omap)%list_elem_of_fmap Hn.
  apply list_elem_of_singleton in Hn. rewrite (Hf _ _ E), (Hf _ _ Hy), Hs in Hn.
  destruct (recorded_sequence _ _ _ _ Hr He') as [_ ?]. lia.
Qed.

Section Encoded.
Context (to_string : CounterSeriesIdentity -> string) `{LAWS : BigUintLaws} `{SL : StoreEncodingLaws}.
Context {KL : StoreKeyLaws to_string}.

Abbreviation events_of stored := (ae_event <$> stored).

(** A message names itself. *)
Definition message_named (e : DiagnosticEvent) : Prop :=
  forall id, message_of e = Some id -> RunLocalId_as_str id <> EmptyString.

Lemma nonempty_text t : t <> EmptyString -> is_nonempty t = true.
Proof. intros Ht. unfold is_nonempty. by rewrite bool_decide_eq_false_2. Qed.

Lemma materialized_positive v payload : 1 <= v <= int_max U64 -> json_valid payload = true ->
  check_materialized is_positive_text (materialized_row v payload) = true.
Proof. intros Hv Hj. apply check_materialized_new; [by apply positive_text_new|done]. Qed.

Lemma materialized_any v payload : 0 <= v <= int_max U64 -> json_valid payload = true ->
  check_materialized is_decimal_text (materialized_row v payload) = true.
Proof. intros Hv Hj. apply check_materialized_new; [by apply decimal_text_new|done]. Qed.

Lemma encoded_spans run_id A h rows : recorded run_id A h -> encode_all encode_span (omap (span_in h) h) = Ok rows ->
  (forall r, r ∈ rows -> check_span_row r = true) /\ NoDup (span_key <$> rows) /\ NoDup (span_sequence <$> rows).
Proof.
  intros Hr He. pose proof (recorded_length _ _ _ Hr) as Hl.
  assert (forall s r, s ∈ omap (span_in h) h -> encode_span s = Ok r ->
            1 <= ProjectedSpan_span_id s <= int_max U64 /\
            span_key r = into_bytes (SortableU64Key_new (ProjectedSpan_span_id s)) /\
            span_sequence r = canonical_decimal (SortableU64Key_new (ProjectedSpan_span_id s)) /\
            check_span_row r = true) as Hrow.
  { intros s r Hs Hf. destruct (span_rows_within _ _ _ _ Hr Hs) as [Hid Hlat]. unfold encode_span in Hf.
    invert_bind Hf. apply Ok_inj in Hf. subst r. cbn [span_key span_sequence]. split; [lia|]. split; [done|]. split; [done|].
    unfold check_span_row. cbn [span_key span_sequence span_materialized].
    rewrite key_blob_new, positive_text_new, materialized_positive; [done|lia| |lia].
    by eapply span_json, ok_or_some. }
  assert (NoDup (ProjectedSpan_span_id <$> omap (span_in h) h)) as Hn.
  { apply (NoDup_numbered _ _ run_id A); [|done]. intros e x. apply span_in_id. }
  split_and!.
  - intros r Hin. destruct (elem_of_encode_all _ _ _ _ He Hin) as (s & Hs & Hf). by apply (Hrow s r).
  - eapply NoDup_encoded; [|exact Hn|exact He]. intros x x' r r' Hx Hx' Hf Hf' Heq.
    destruct (Hrow x r Hx Hf) as (? & Hk & _), (Hrow x' r' Hx' Hf') as (? & Hk' & _).
    apply key_bytes_inj; [lia|lia|congruence].
  - eapply NoDup_encoded; [|exact Hn|exact He]. intros x x' r r' Hx Hx' Hf Hf' Heq.
    destruct (Hrow x r Hx Hf) as (? & _ & Hk & _), (Hrow x' r' Hx' Hf') as (? & _ & Hk' & _).
    apply decimal_new_inj; [lia|lia|congruence].
Qed.

Lemma encoded_messages run_id A h rows : recorded run_id A h -> Forall message_named h ->
  encode_all encode_message (table message_of message_row h) = Ok rows ->
  (forall r, r ∈ rows -> check_text_row r = true) /\ NoDup (text_key <$> rows).
Proof.
  intros Hr Hnamed He. pose proof (recorded_length _ _ _ Hr) as Hl. split.
  - intros r Hin. destruct (elem_of_encode_all _ _ _ _ He Hin) as (s & Hs & Hf).
    pose proof (message_rows_within _ _ _ _ Hr Hs) as Hw. unfold encode_message in Hf. invert_bind Hf.
    apply Ok_inj in Hf. subst r. unfold check_text_row. cbn [text_key text_materialized].
    rewrite nonempty_text, materialized_positive; [done|lia|by eapply message_json, ok_or_some|].
    apply elem_of_table in Hs as (id & Hid & Hrow).
    destruct (message_row_some id (about message_of id h)) as (s' & Hs' & Hm); [by apply about_nonempty|].
    assert (s' = s) as -> by congruence. rewrite Hm.
    apply list_elem_of_omap in Hid as (e & He' & Hof). rewrite Forall_forall in Hnamed. by apply (Hnamed e).
  - eapply (NoDup_encoded _ ProjectedMessage_message_id); [| |exact He].
    + intros x x' r r' _ _ Hf Hf' Heq. unfold encode_message in Hf, Hf'. invert_bind Hf. invert_bind Hf'.
      apply Ok_inj in Hf, Hf'. subst r r'. cbn in Heq.
      destruct (ProjectedMessage_message_id x), (ProjectedMessage_message_id x'). cbn in Heq. by subst.
    + rewrite (table_keys_rows _ _ _ _ (message_rows_ok h)). apply first_occurrences_nodup.
Qed.

Lemma encoded_plans run_id A h rows : recorded run_id A h ->
  encode_all encode_plan (table plan_scope plan_row h) = Ok rows ->
  (forall r, r ∈ rows -> check_text_row r = true) /\ NoDup (text_key <$> rows).
Proof.
  intros Hr He. pose proof (recorded_length _ _ _ Hr) as Hl. split.
  - intros r Hin. destruct (elem_of_encode_all _ _ _ _ He Hin) as (s & Hs & Hf).
    pose proof (plan_rows_within _ _ _ _ Hr Hs) as Hw. unfold encode_plan in Hf. invert_bind Hf. invert_bind Hf.
    apply Ok_inj in Hf. subst r. unfold check_text_row. cbn [text_key text_materialized].
    rewrite nonempty_text, materialized_positive; [done|lia|by eapply plan_json, ok_or_some|].
    by eapply scope_text_nonempty, ok_or_some.
  - eapply (NoDup_encoded _ ProjectedPlan_scope); [| |exact He].
    + intros x x' r r' _ _ Hf Hf' Heq. unfold encode_plan in Hf, Hf'.
      invert_bind Hf. invert_bind Hf. invert_bind Hf'. invert_bind Hf'.
      apply Ok_inj in Hf, Hf'. subst r r'. cbn in Heq. subst.
      eapply scope_text_inj; by eapply ok_or_some.
    + rewrite (table_keys_rows _ _ _ _ (plan_rows_ok h)). apply first_occurrences_nodup.
Qed.

Lemma encoded_counters run_id A h rows : recorded run_id A h ->
  encode_all encode_counter (table (counter_key to_string) (counter_row to_string) h) = Ok rows ->
  (forall r, r ∈ rows -> check_text_row r = true) /\ NoDup (text_key <$> rows).
Proof.
  intros Hr He. pose proof (recorded_length _ _ _ Hr) as Hl. split.
  - intros r Hin. destruct (elem_of_encode_all _ _ _ _ He Hin) as (s & Hs & Hf).
    pose proof (counter_rows_within to_string _ _ _ _ Hr Hs) as Hw. unfold encode_counter in Hf. invert_bind Hf.
    apply Ok_inj in Hf. subst r. unfold check_text_row. cbn [text_key text_materialized].
    rewrite nonempty_text, materialized_positive; [done|lia|by eapply counter_json, ok_or_some|].
    apply counter_row_event in Hs as (e & _ & Hc). apply counter_of_event in Hc as (_ & _ & -> & _).
    apply series_text_nonempty.
  - eapply (NoDup_encoded _ ProjectedCounter_series_key); [| |exact He].
    + intros x x' r r' _ _ Hf Hf' Heq. unfold encode_counter in Hf, Hf'. invert_bind Hf. invert_bind Hf'.
      apply Ok_inj in Hf, Hf'. subst r r'. done.
    + rewrite (table_keys_rows _ _ _ _ (counter_rows_ok to_string h)). apply first_occurrences_nodup.
Qed.

Lemma encode_insertable run_id A h m : recorded run_id A h -> Forall message_named h ->
  encode (snapshot_view to_string run_id h) = Ok m -> insertable m.
Proof.
  intros Hr Hnamed He. unfold encode in He.
  invert_bind He. invert_bind He. invert_bind He. invert_bind He. invert_bind He. invert_bind He.
  apply Ok_inj in He. subst m. pose proof (list_len_nonneg h). pose proof (recorded_length _ _ _ Hr).
  destruct (encoded_spans _ _ _ _ Hr E) as (? & ? & ?).
  destruct (encoded_messages _ _ _ _ Hr Hnamed E0) as [? ?].
  destruct (encoded_plans _ _ _ _ Hr E1) as [? ?].
  destruct (encoded_counters _ _ _ _ Hr E2) as [? ?].
  constructor; cbn [ems_spans ems_messages ems_plans ems_counters ems_usage ems_snapshot]; try done;
    unfold check_singleton_row; cbn [singleton singleton_materialized];
    rewrite materialized_any; try done; try (cbn; lia).
  - by eapply usage_json, ok_or_some.
  - by eapply snapshot_json, ok_or_some.
Qed.

(** ** The rows of the events *)

(** What the schema of the table asks of an event beyond [event_typed]. *)
Definition event_storable (a : AcceptedDiagnosticEvent) : Prop :=
  stored_event a /\
  (forall g, DiagnosticScope_session_generation (event_scope (ae_event a)) = Some g -> 1 <= g).

Lemma check_row_ok a : event_storable a -> 1 <= event_sequence (ae_event a) <= int_max U64 ->
  check_event_row (event_row a) = true.
Proof.
  intros [[Hb (Hv & He & Hg & _)] Hg1] Hs. unfold check_event_row, event_row.
  cbn [ser_sequence_key ser_sequence ser_event_schema_version ser_elapsed_key ser_elapsed_ns ser_kind
       ser_session_generation_key ser_session_generation ser_canonical_json].
  rewrite !key_blob_new, positive_text_new, decimal_text_new, Hv, (event_json _ _ Hb) by done.
  assert (is_nonempty (DiagnosticEventKind_as_str (DiagnosticEvent_kind (ae_event a))) = true) as ->
    by (by destruct (DiagnosticEvent_kind (ae_event a))).
  destruct (DiagnosticScope_session_generation _) as [g|] eqn:Eg; [|done].
  cbn [fmap option_fmap option_map is_some]. rewrite key_blob_new, positive_text_new; [done|].
  specialize (Hg g eq_refl). specialize (Hg1 g eq_refl). lia.
Qed.

Lemma event_row_key a :
  ser_sequence_key (event_row a) = into_bytes (SortableU64Key_new (event_sequence (ae_event a))).
Proof. reflexivity. Qed.

Lemma event_row_sequence a :
  ser_sequence (event_row a) = canonical_decimal (SortableU64Key_new (event_sequence (ae_event a))).
Proof. reflexivity. Qed.

Lemma event_row_run_id a : ser_run_id (event_row a) = run_id_text (event_run_id (ae_event a)).
Proof. reflexivity. Qed.

(** The columns of one more event are new. *)
Lemma event_columns_new (stored : list AcceptedDiagnosticEvent) a n :
  (forall b, b ∈ stored -> 1 <= event_sequence (ae_event b) <= n) ->
  event_sequence (ae_event a) = n + 1 -> n + 1 <= int_max U64 -> 0 <= n ->
  (ser_sequence_key (event_row a) ∉ (ser_sequence_key <$> (event_row <$> stored))) /\
  (ser_sequence (event_row a) ∉ (ser_sequence <$> (event_row <$> stored))).
Proof.
  intros Hold Hs Hl Hn.
  split; intros (r & Heq & (b & -> & Hb)%list_elem_of_fmap)%list_elem_of_fmap; specialize (Hold b Hb).
  - rewrite !event_row_key in Heq. apply key_bytes_inj in Heq; lia.
  - rewrite !event_row_sequence in Heq. apply decimal_new_inj in Heq; lia.
Qed.

Lemma append_ok run_id (A : history -> DiagnosticEvent -> Prop) events : forall stored db,
  recorded run_id A (events_of (stored ++ events)) -> Forall event_storable events ->
  db_events db = event_row <$> stored -> rm_run_id (db_run_metadata db) = run_id_text run_id ->
  run_statements (append_event <$> events) db = Some (with_events db (event_row <$> (stored ++ events))).
Proof.
  induction events as [|a l IH]; intros stored db Hr Hst He Hrun.
  - cbn. rewrite app_nil_r, <-He. by destruct db.
  - apply Forall_cons in Hst as [Ha Hst].
    rewrite fmap_app in Hr. cbn [fmap list_fmap] in Hr. rewrite cons_middle, (assoc_L (++)) in Hr.
    pose proof (recorded_app _ _ _ _ Hr) as Hra. pose proof (recorded_length _ _ _ Hra) as Hl.
    assert (list_len (events_of stored ++ [ae_event a]) = list_len stored + 1) as Hlen.
    { rewrite list_len_app, events_length. done. }
    destruct (recorded_last _ _ _ _ Hra) as [Hs Hid]. rewrite Hlen in Hs, Hl.
    pose proof (list_len_nonneg stored).
    assert (forall b, b ∈ stored -> 1 <= event_sequence (ae_event b) <= list_len stored) as Hold.
    { intros b Hb. apply recorded_app in Hra. rewrite <-events_length.
      apply (recorded_sequence _ _ _ _ Hra). by apply list_elem_of_fmap_2. }
    destruct (event_columns_new stored a (list_len stored) Hold Hs Hl) as [Hk Hq]; [lia|].
    rewrite <-He in Hk, Hq.
    assert (insert_event (event_row a) db = Some (with_events db (db_events db ++ [event_row a]))) as Hins.
    { unfold insert_event. rewrite check_row_ok by (done || lia). rewrite !unique_spec by done.
      by rewrite event_row_run_id, Hrun, Hid, bool_decide_eq_true_2. }
    cbn [fmap list_fmap run_statements]. change ((append_event a).2 db) with (insert_event (event_row a) db).
    rewrite Hins. cbn [mbind option_bind]. rewrite (IH (stored ++ [a])).
    + by rewrite <-(assoc_L (++)).
    + by rewrite !fmap_app.
    + done.
    + rewrite fmap_app, <-He. done.
    + done.
Qed.

Lemma check_watermarks run_id n n' m : metadata_ok run_id n m -> 0 <= n' <= int_max U64 ->
  check_run_metadata (set_watermarks (SortableU64Key_new n') m) = true.
Proof.
  intros [Hc _ _ _ _ _] Hn. unfold check_run_metadata in *. unfold set_watermarks.
  cbn [rm_store_schema_version rm_schema_identity rm_event_schema_version rm_run_id rm_started_at
       rm_production_outcome rm_configuration_identity rm_committed_key rm_committed_sequence
       rm_read_model_key rm_read_model_sequence rm_clean_shutdown].
  rewrite key_blob_new, decimal_text_new by done.
  rewrite (bool_decide_eq_true_2 (into_bytes _ = _)), (bool_decide_eq_true_2 (canonical_decimal _ = _)) by done.
  bool_hyps. repeat match goal with H : ?b = true |- context [?b] => rewrite H end.
  by rewrite !bool_decide_eq_true_2.
Qed.

(** The candidate of a recordable batch exists. *)
Lemma candidate_exists run_id A stored batch :
  recorded run_id A (events_of (stored ++ eb_events batch)) -> eb_events batch <> [] ->
  exists notification,
    watermark_candidate (mkCommittedWatermark run_id (SortableU64Key_new (list_len stored))) batch =
      Some (Ok notification).
Proof.
  intros Hr Hne. unfold watermark_candidate, batch_first, batch_last.
  destruct (eb_events batch) as [|a l] eqn:Eb; [done|]. cbn [head mbind option_bind].
  destruct (last (a :: l)) as [z|] eqn:El; [|by apply last_None in El]. cbn [mbind option_bind].
  rewrite fmap_app in Hr. cbn [fmap list_fmap] in Hr. rewrite cons_middle, (assoc_L (++)) in Hr.
  apply recorded_app in Hr. pose proof (recorded_length _ _ _ Hr) as Hl.
  destruct (recorded_last _ _ _ _ Hr) as [Hs Hid].
  rewrite list_len_app, events_length in Hl, Hs. change (list_len [ae_event a]) with 1 in Hl, Hs.
  pose proof (list_len_nonneg stored). cbn [wm_run_id wm_value].
  rewrite key_get_new by lia. unfold identity, event_identity. cbn [ei_run_id ei_sequence].
  rewrite Hid, bool_decide_eq_false_2 by tauto.
  unfold checked_add. rewrite checked_in_range by (cbn in *; lia). cbn [ok_or result_bind].
  rewrite Hs, Z.eqb_refl. cbn [negb]. eauto.
Qed.

Lemma transaction_succeeds run_id stored db batch m :
  store_ok to_string run_id stored db ->
  let h := events_of (stored ++ eb_events batch) in
  recorded run_id (snapshot_admissible to_string) h -> Forall event_storable (eb_events batch) ->
  Forall message_named h -> encode (snapshot_view to_string run_id h) = Ok m ->
  5 * list_len h + 10 <= int_max Usize ->
  exists db', batch_transaction no_faults db batch m
    (SortableU64Key_new (list_len (stored ++ eb_events batch))) = Some (Ok db').
Proof.
  intros Hs h Hr Hst Hnamed Hm Hlen. destruct batch as [events nb]. cbn [eb_events] in *.
  pose proof (stored_length to_string run_id _ Hr) as Hn.
  assert (exists db', run_statements (batch_statements (mkEventBatch events nb) m
    (SortableU64Key_new (list_len (stored ++ events)))) db = Some db') as [db' Hrun].
  { unfold batch_statements. cbn [eb_events]. rewrite run_statements_app.
    rewrite (append_ok run_id _ events stored) by (done || apply Hs). cbn [mbind option_bind].
    rewrite run_statements_app, run_replace_all by (by eapply encode_insertable). cbn [mbind option_bind].
    cbn [run_statements advance_persisted_watermarks snd]. unfold update_run_metadata.
    cbn [db_run_metadata with_events].
    rewrite (check_watermarks run_id (list_len stored)) by (done || apply Hs). cbn [mbind option_bind]. eauto. }
  pose proof (statements_length to_string _ _ events nb m (SortableU64Key_new (list_len (stored ++ events))) Hm) as Hsl.
  assert (list_len events <= list_len h).
  { unfold h. rewrite events_length, list_len_app. pose proof (list_len_nonneg stored). lia. }
  unfold batch_transaction. cbn [fault_begin no_faults].
  destruct (execute_all_cases no_faults _ db 1 ltac:(lia) ltac:(etrans; [apply Z.add_le_mono_l, Hsl|]; fold h; lia))
    as [(db2 & _ & ->)|(n & s & _ & _ & Hnone)].
  - cbn [mbind option_bind result_bind fault_before_commit fault_commit no_faults fst]. eauto.
  - rewrite Hnone in Hrun by done. discriminate.
Qed.

Lemma projector_succeeds run_id stored rv events :
  recorded run_id (snapshot_admissible to_string) (events_of (stored ++ events)) ->
  models rv (events_of stored) -> Forall tokens_typed (events_of events) ->
  exists rv', apply_all (SnapshotProjector_apply to_string)
    (mkProjector rv (snapshot_view to_string run_id (events_of stored))) (events_of events) =
    Some (mkProjector rv' (snapshot_view to_string run_id (events_of (stored ++ events))), Ok tt).
Proof.
  rewrite fmap_app. intros Hr Hm Hty. pose proof (recorded_app _ _ _ _ Hr) as Hr0.
  destruct (apply_all_correct run_id (SnapshotProjector_apply to_string) (snapshot_view to_string run_id)
    tokens_typed (snapshot_admissible to_string) _ rv _ Hr0 Hm Hty)
    as [(_ & rv' & _ & ->)|(k & x & t & rv' & err & Heq & _ & Hno & _)]; [by exists rv'|].
  exfalso. apply Hno. rewrite Heq, cons_middle, !(assoc_L (++)) in Hr.
  apply recorded_app in Hr. by rewrite (assoc_L (++)).
Qed.

Lemma recordable_projects run_id h : Forall tokens_typed h ->
  (exists s, project_snapshot to_string run_id h = Some (Ok s)) ->
  recorded run_id (snapshot_admissible to_string) h.
Proof.
  intros Hty [s Hs]. by apply (project_correct run_id (SnapshotProjector_apply to_string)
    (snapshot_view to_string run_id) tokens_typed (snapshot_admissible to_string)) in Hs as [? _].
Qed.

(** ** Properties *)

(** C11: a batch that can be committed is committed.  If the stored events
    followed by the batch can be projected and their snapshot encoded, no
    constraint of the schema rejects a statement, and without faults the commit
    succeeds; the store is then that of all the events. *)
Theorem commit_batch_succeeds run_id stored w batch m :
  writer_ok to_string run_id stored w -> eb_events batch <> [] -> Forall event_storable (eb_events batch) ->
  let h := events_of (stored ++ eb_events batch) in
  (exists s, project_snapshot to_string run_id h = Some (Ok s)) ->
  encode (snapshot_view to_string run_id h) = Ok m -> Forall message_named h ->
  5 * list_len h + 10 <= int_max Usize ->
  exists w' notification, commit_batch_with_hook to_string no_faults w batch = Some (w', Ok notification) /\
    writer_ok to_string run_id (stored ++ eb_events batch) w' /\
    cn_committed notification = SortableU64Key_new (list_len h).
Proof.
  intros Hw Hne Hst h Hproj Hm Hnamed Hlen. pose proof (wo_store _ _ _ _ Hw) as Hs.
  assert (Forall stored_event (eb_events batch)) as Hst' by (eapply Forall_impl; [exact Hst|]; by intros a [? _]).
  assert (forall l, Forall stored_event l -> Forall tokens_typed (events_of l)) as Htyped.
  { intros l Hl. apply Forall_fmap. eapply Forall_impl; [exact Hl|]. by intros a (_ & _ & _ & _ & ?). }
  assert (recorded run_id (snapshot_admissible to_string) h) as Hr.
  { apply recordable_projects; [|done]. apply Htyped, Forall_app. split; [apply Hs|done]. }
  destruct (commit_batch_cases to_string no_faults run_id stored w batch Hw Hne Hst') as (w' & r & Hc & Hres).
  { unfold h in Hlen. by rewrite events_length in Hlen. }
  destruct (candidate_exists run_id _ stored batch Hr Hne) as [notification Hcand].
  pose proof (candidate_committed to_string run_id stored batch notification Hr Hcand) as (_ & _ & Hcom).
  destruct Hres as [w' notification' Hw' _ Hcand'|db e Hdb [Hf|Hf]|e He]; [|discriminate Hf..|].
  { exists w', notification'. split; [done|]. split; [done|].
    rewrite (wo_watermark _ _ _ _ Hw), Hcand in Hcand'. injection Hcand' as <-. unfold h. by rewrite events_length. }
  exfalso. unfold commit_batch_with_hook in Hc.
  rewrite (wo_watermark _ _ _ _ Hw), Hcand in Hc. cbn [mbind option_bind] in Hc.
  destruct (tw_projector w) as [rv view] eqn:Ep. pose proof (wo_references _ _ _ _ Hw) as Href.
  pose proof (wo_model _ _ _ _ Hw) as Hmod. rewrite Ep in Href, Hmod. cbn [references model] in Href, Hmod. subst view.
  destruct (projector_succeeds run_id stored rv (eb_events batch) Hr Href (Htyped _ Hst')) as [rv' Hap].
  rewrite Hap in Hc. cbn [mbind option_bind model] in Hc. fold h in Hc. rewrite Hm, Hcom in Hc.
  destruct (transaction_succeeds run_id stored (tw_db w) batch m Hs Hr Hst Hnamed Hm Hlen) as [db' Ht].
  rewrite Ht in Hc. cbn [mbind option_bind] in Hc.
  destruct (refresh_metadata_after_commit _ _ _ _) as [metadata|e'].
  - destruct (watermark_advance _ _); [|done]. by injection Hc.
  - apply some_pair_inj in Hc as [_ Hc]. injection Hc as <-. by apply (He e').
Qed.
End Encoded.

(** *** Witnesses *)

Lemma sample_key_laws : @StoreKeyLaws sample_encoding sample_to_string.
Proof.
  constructor; cbn [scope_to_string sample_encoding].
  - intros s s' t. destruct (decide (s = sample_usage_scope)) as [->|]; [|done].
    by destruct (decide (s' = sample_usage_scope)) as [->|].
  - intros s t. destruct (decide (s = sample_usage_scope)); [|done]. by intros [= <-].
  - done.
Qed.

Definition sample_encoded : EncodedMaterializedState :=
  mkEncodedMaterializedState [] [] [] [] (mkSingletonRow 1 (materialized_row 1 sample_json))
    (mkSingletonRow 1 (materialized_row 1 sample_json)).

Lemma commit_batch_succeeds_witness :
  exists notification, sample_commit no_faults = Some (sample_committed, Ok notification) /\
    cn_committed notification = SortableU64Key_new 1.
Proof.
  destruct (@commit_batch_succeeds sample_to_string decimal_biguint decimal_biguint_laws sample_encoding
    sample_encoding_laws sample_key_laws (mkCanonicalUuid 7) [] sample_writer sample_store_batch sample_encoded
    sample_writer_ok) as (w & notification & Hc & _ & Hn).
  - discriminate.
  - apply Forall_singleton. split; [exact sample_event_stored|]. intros g. discriminate.
  - eexists. vm_compute. reflexivity.
  - vm_compute. reflexivity.
  - apply Forall_singleton. intros id. discriminate.
  - vm_compute. discriminate.
  - fold (sample_commit no_faults) in Hc. exists notification. split; [|exact Hn].
    unfold sample_committed. rewrite Hc. reflexivity.
Defined.
