(* ===== verification/Budget.v ===== *)
(** * The runtime budget shared by the sinks

    Models [rust/src/diagnostic_sink/budget.rs].  The usage of the whole
    runtime, an event count and a byte count, is packed in one atomic word so
    that both dimensions change in one compare-and-swap.  [replace_attempt] is
    the body of the loop of [try_replace] up to the exchange;
    [try_replace] runs the loop without interference, and the relation
    [cas_step] interleaves any number of callers.  [atomic_step] is the
    specification: each call takes effect at once, on an unpacked usage. *)

From S2P Require Import Prelude.

Definition RUNTIME_MAX_EVENTS : Z := 16384.

Definition RUNTIME_MAX_ENCODED_BYTES : Z := 64 * 1024 * 1024.

Definition PACKED_FIELD_BITS : Z := 32.

Definition PACKED_FIELD_MASK : Z := int_max U32.

(** ** Usage and limits *)

Record BudgetUsage := mkBudgetUsage { bu_events : Z; bu_encoded_bytes : Z }.

#[export] Instance BudgetUsage_eq_dec : EqDecision BudgetUsage.
Proof. solve_decision. Defined.

Definition BudgetUsage_ZERO : BudgetUsage := mkBudgetUsage 0 0.

Record BudgetLimits := mkBudgetLimits { bl_max_events : Z; bl_max_encoded_bytes : Z }.

#[export] Instance BudgetLimits_eq_dec : EqDecision BudgetLimits.
Proof. solve_decision. Defined.

Definition fits_within (usage : BudgetUsage) (limits : BudgetLimits) : bool :=
  (bu_events usage <=? bl_max_events limits) &&
  (bu_encoded_bytes usage <=? bl_max_encoded_bytes limits).

Definition usage_checked_add (a b : BudgetUsage) : option BudgetUsage :=
  events ← checked_add Usize (bu_events a) (bu_events b);
  encoded_bytes ← checked_add Usize (bu_encoded_bytes a) (bu_encoded_bytes b);
  Some (mkBudgetUsage events encoded_bytes).

Definition usage_checked_sub (a b : BudgetUsage) : option BudgetUsage :=
  events ← checked_sub Usize (bu_events a) (bu_events b);
  encoded_bytes ← checked_sub Usize (bu_encoded_bytes a) (bu_encoded_bytes b);
  Some (mkBudgetUsage events encoded_bytes).

Inductive BudgetError :=
| LimitExceeded (limits : BudgetLimits) (current attempted : BudgetUsage)
| ReleaseExceedsUsage (current released : BudgetUsage)
| ArithmeticOverflow
| Unrepresentable (usage : BudgetUsage).

(** ** The packed word *)

Definition pack (usage : BudgetUsage) : option Z :=
  events ← checked U32 (bu_events usage);
  encoded_bytes ← checked U32 (bu_encoded_bytes usage);
  Some (Z.lor (Z.shiftl events PACKED_FIELD_BITS) encoded_bytes).

Definition unpack (packed : Z) : BudgetUsage :=
  mkBudgetUsage (Z.shiftr packed PACKED_FIELD_BITS) (Z.land packed PACKED_FIELD_MASK).

Arguments pack : simpl never.
Arguments unpack : simpl never.

(** [with_limits]: [None] is the failed assertion. *)
Definition with_limits (limits : BudgetLimits) : option (BudgetLimits * Z) :=
  match pack (mkBudgetUsage (bl_max_events limits) (bl_max_encoded_bytes limits)) with
  | Some _ => Some (limits, 0)
  | None => None
  end.

Definition RuntimeBudget_new : option (BudgetLimits * Z) :=
  with_limits (mkBudgetLimits RUNTIME_MAX_EVENTS RUNTIME_MAX_ENCODED_BYTES).

(** ** Arithmetic of usages, for the specification *)

Definition usage_nonneg (u : BudgetUsage) : Prop := 0 <= bu_events u /\ 0 <= bu_encoded_bytes u.

Definition usage_add (a b : BudgetUsage) : BudgetUsage :=
  mkBudgetUsage (bu_events a + bu_events b) (bu_encoded_bytes a + bu_encoded_bytes b).

Definition usage_sub (a b : BudgetUsage) : BudgetUsage :=
  mkBudgetUsage (bu_events a - bu_events b) (bu_encoded_bytes a - bu_encoded_bytes b).

Definition usage_le (a b : BudgetUsage) : Prop :=
  bu_events a <= bu_events b /\ bu_encoded_bytes a <= bu_encoded_bytes b.

Definition usage_leb (a b : BudgetUsage) : bool :=
  (bu_events a <=? bu_events b) && (bu_encoded_bytes a <=? bu_encoded_bytes b).

(** Usages that fit a machine word in both fields. *)
Definition usage_word (u : BudgetUsage) : Prop :=
  0 <= bu_events u <= int_max Usize /\ 0 <= bu_encoded_bytes u <= int_max Usize.

(** ** [try_replace] *)

Section Replace.
Context (limits : BudgetLimits).

(** The checks before the loop. *)
Definition replace_args (released admitted : BudgetUsage) : result unit BudgetError :=
  match pack released with
  | None => Err (Unrepresentable released)
  | Some _ =>
      match pack admitted with
      | None => Err (Unrepresentable admitted)
      | Some _ => Ok tt
      end
  end.

(** The loop body: the word to store and the usage to return. *)
Definition replace_attempt (released admitted : BudgetUsage) (observed : Z)
    : result (Z * BudgetUsage) BudgetError :=
  let current := unpack observed in
  match usage_checked_sub current released with
  | None => Err (ReleaseExceedsUsage current released)
  | Some after_release =>
      match usage_checked_add after_release admitted with
      | None => Err ArithmeticOverflow
      | Some attempted =>
          if negb (fits_within attempted limits) then
            Err (LimitExceeded limits current attempted)
          else
            match pack attempted with
            | None => Err (Unrepresentable attempted)
            | Some next => Ok (next, attempted)
            end
      end
  end.

(** The call when nothing interferes: the first exchange succeeds. *)
Definition try_replace (packed : Z) (released admitted : BudgetUsage)
    : Z * result BudgetUsage BudgetError :=
  match replace_args released admitted with
  | Err e => (packed, Err e)
  | Ok _ =>
      match replace_attempt released admitted packed with
      | Err e => (packed, Err e)
      | Ok (next, attempted) => (next, Ok attempted)
      end
  end.

(** *** Concurrent callers

    A caller that has not loaded the word keeps its arguments; one that is
    inside the loop also keeps the word it last observed; one that has left it
    keeps its result until it returns.  The weak exchange may fail
    spuriously. *)

Inductive Caller :=
| Starting (released admitted : BudgetUsage)
| Looping (released admitted : BudgetUsage) (observed : Z)
| Leaving (result : result BudgetUsage BudgetError).

Record CasState := mkCasState {
  packed_usage : Z;
  callers : gmap nat Caller;
}.

Inductive Label :=
| Call (caller : nat) (released admitted : BudgetUsage)
| Return (caller : nat) (result : result BudgetUsage BudgetError).

(** What a caller does with the word it observed. *)
Definition exchange (packed observed : Z) (spurious : bool) (released admitted : BudgetUsage)
    : Z * Caller :=
  match replace_attempt released admitted observed with
  | Err e => (packed, Leaving (Err e))
  | Ok (next, attempted) =>
      if negb spurious && (packed =? observed) then (next, Leaving (Ok attempted))
      else (packed, Looping released admitted packed)
  end.

(** The argument checks and the first load. *)
Definition enter (packed : Z) (released admitted : BudgetUsage) : Caller :=
  match replace_args released admitted with
  | Err e => Leaving (Err e)
  | Ok _ => Looping released admitted packed
  end.

Inductive cas_step : CasState -> option Label -> CasState -> Prop :=
| cas_call s c released admitted :
    callers s !! c = None ->
    cas_step s (Some (Call c released admitted))
      (mkCasState (packed_usage s)
         (<[c := Starting released admitted]> (callers s)))
| cas_load s c released admitted :
    callers s !! c = Some (Starting released admitted) ->
    cas_step s None
      (mkCasState (packed_usage s)
         (<[c := enter (packed_usage s) released admitted]> (callers s)))
| cas_exchange s c released admitted observed spurious packed' caller' :
    callers s !! c = Some (Looping released admitted observed) ->
    exchange (packed_usage s) observed spurious released admitted = (packed', caller') ->
    cas_step s None (mkCasState packed' (<[c := caller']> (callers s)))
| cas_return s c r :
    callers s !! c = Some (Leaving r) ->
    cas_step s (Some (Return c r)) (mkCasState (packed_usage s) (delete c (callers s))).

(** *** The atomic specification

    A call takes effect in one indivisible step between call and return; the
    state is the usage itself. *)

Definition atomic_replace (usage released admitted : BudgetUsage)
    : BudgetUsage * result BudgetUsage BudgetError :=
  match replace_args released admitted with
  | Err e => (usage, Err e)
  | Ok _ =>
      let attempted := usage_add (usage_sub usage released) admitted in
      if negb (usage_leb released usage) then (usage, Err (ReleaseExceedsUsage usage released))
      else if fits_within attempted limits then (attempted, Ok attempted)
      else (usage, Err (LimitExceeded limits usage attempted))
  end.

Inductive AtomicCaller :=
| Called (released admitted : BudgetUsage)
| Effected (result : result BudgetUsage BudgetError).

Record AtomicState := mkAtomicState {
  at_usage : BudgetUsage;
  at_callers : gmap nat AtomicCaller;
}.

Inductive atomic_step : AtomicState -> option Label -> AtomicState -> Prop :=
| at_call s c released admitted :
    at_callers s !! c = None ->
    atomic_step s (Some (Call c released admitted))
      (mkAtomicState (at_usage s) (<[c := Called released admitted]> (at_callers s)))
| at_effect s c released admitted usage' r :
    at_callers s !! c = Some (Called released admitted) ->
    atomic_replace (at_usage s) released admitted = (usage', r) ->
    atomic_step s None (mkAtomicState usage' (<[c := Effected r]> (at_callers s)))
| at_return s c r :
    at_callers s !! c = Some (Effected r) ->
    atomic_step s (Some (Return c r)) (mkAtomicState (at_usage s) (delete c (at_callers s))).

End Replace.

(** Runs of a labelled relation, with the calls and returns seen. *)
Inductive trace {S L} (step : S -> option L -> S -> Prop) : S -> list L -> S -> Prop :=
| trace_nil s : trace step s [] s
| trace_cons s l s1 ls s2 :
    step s l s1 -> trace step s1 ls s2 ->
    trace step s (match l with Some x => x :: ls | None => ls end) s2.

Definition cas_init : CasState := mkCasState 0 ∅.

Definition atomic_init : AtomicState := mkAtomicState BudgetUsage_ZERO ∅.

(** ** The packed representation *)

Lemma checked_u32 z v : checked U32 z = Some v <-> v = z /\ 0 <= z < 2 ^ 32.
Proof. rewrite checked_some. cbn. lia. Qed.

(** The two fields do not overlap, so the word is their weighted sum. *)
Lemma pack_word e b : 0 <= b < 2 ^ 32 ->
  Z.lor (Z.shiftl e PACKED_FIELD_BITS) b = e * 2 ^ 32 + b.
Proof.
  intros Hb. unfold PACKED_FIELD_BITS.
  rewrite <-Z.add_nocarry_lor; [by rewrite Z.shiftl_mul_pow2|].
  apply Z.bits_inj'. intros n Hn. rewrite Z.land_spec, Z.bits_0.
  destruct (Z.lt_ge_cases n 32).
  - by rewrite Z.shiftl_spec_low.
  - rewrite <-(Z.mod_small b (2 ^ 32)), Z.mod_pow2_bits_high by lia.
    by rewrite andb_false_r.
Qed.

Lemma unpack_word p : unpack p = mkBudgetUsage (p / 2 ^ 32) (p mod 2 ^ 32).
Proof.
  unfold unpack, PACKED_FIELD_BITS, PACKED_FIELD_MASK. f_equal.
  - by rewrite Z.shiftr_div_pow2.
  - change (int_max U32) with (Z.ones 32). by rewrite Z.land_ones.
Qed.

Lemma pack_some u p :
  pack u = Some p <->
  0 <= bu_events u < 2 ^ 32 /\ 0 <= bu_encoded_bytes u < 2 ^ 32 /\
  p = bu_events u * 2 ^ 32 + bu_encoded_bytes u.
Proof.
  unfold pack. rewrite bind_Some. setoid_rewrite bind_Some. setoid_rewrite checked_u32. split.
  - intros (e & [-> He] & b & [-> Hb] & [= <-]). by rewrite pack_word.
  - intros (He & Hb & ->). eexists. split; [done|]. eexists. split; [done|].
    by rewrite pack_word.
Qed.

Lemma pack_unpack p : 0 <= p <= int_max U64 -> pack (unpack p) = Some p.
Proof.
  cbn. intros Hp. apply pack_some. rewrite unpack_word. cbn.
  pose proof (Z.div_mod p (2 ^ 32)). pose proof (Z.mod_pos_bound p (2 ^ 32)).
  split; [|lia]. split; [apply Z.div_pos; lia|apply Z.div_lt_upper_bound; lia].
Qed.

Lemma unpack_pack u p : pack u = Some p -> unpack p = u /\ 0 <= p <= int_max U64.
Proof.
  intros (He & Hb & ->)%pack_some. rewrite unpack_word. split; [|cbn; lia].
  destruct u as [e b]. cbn in *. f_equal.
  - rewrite Z.div_add_l, Z.div_small by lia. lia.
  - rewrite Z.add_comm, Z.mod_add, Z.mod_small by lia. done.
Qed.

Lemma unpack_range p : 0 <= p <= int_max U64 ->
  0 <= bu_events (unpack p) < 2 ^ 32 /\ 0 <= bu_encoded_bytes (unpack p) < 2 ^ 32.
Proof. intros Hp%pack_unpack%pack_some. tauto. Qed.

Lemma fits_within_true u l :
  fits_within u l = true <->
  bu_events u <= bl_max_events l /\ bu_encoded_bytes u <= bl_max_encoded_bytes l.
Proof. unfold fits_within. rewrite andb_true_iff. lia. Qed.

Lemma usage_leb_true a b : usage_leb a b = true <-> usage_le a b.
Proof. unfold usage_leb, usage_le. rewrite andb_true_iff. lia. Qed.

Lemma usage_checked_add_spec a b c :
  usage_nonneg a -> usage_nonneg b ->
  usage_checked_add a b = Some c <-> c = usage_add a b /\ usage_word c.
Proof.
  unfold usage_checked_add, usage_word, usage_nonneg, checked_add. intros Ha Hb.
  rewrite bind_Some. setoid_rewrite bind_Some. setoid_rewrite checked_some. cbn. split.
  - intros (e & [-> He] & b' & [-> Hb'] & [= <-]). split; [done|]. cbn. lia.
  - intros [-> H]. cbn in H. eexists. split; [split; [done|lia]|].
    eexists. split; [split; [done|lia]|]. done.
Qed.

Lemma usage_checked_sub_spec a b c :
  usage_word a -> usage_nonneg b ->
  usage_checked_sub a b = Some c <-> c = usage_sub a b /\ usage_le b a.
Proof.
  unfold usage_checked_sub, usage_word, usage_nonneg, usage_le, checked_sub. intros Ha Hb.
  rewrite bind_Some. setoid_rewrite bind_Some. setoid_rewrite checked_some. cbn. split.
  - intros (e & [-> He] & b' & [-> Hb'] & [= <-]). split; [done|]. lia.
  - intros [-> H]. cbn in Ha. eexists. split; [split; [done|lia]|].
    eexists. split; [split; [done|lia]|]. done.
Qed.

(** ** The loop implements the atomic replacement *)

Definition option_list {A} (o : option A) : list A :=
  match o with Some x => [x] | None => [] end.

Lemma trace_app {S L} (step : S -> option L -> S -> Prop) s l s1 k s2 :
  trace step s l s1 -> trace step s1 k s2 -> trace step s (l ++ k) s2.
Proof.
  induction 1 as [|s x s' l s1 Hstep Ht IH]; [done|]. intros Hk.
  destruct x as [x|]; cbn.
  - by eapply (trace_cons _ s (Some x)); [|apply IH].
  - by eapply (trace_cons _ s None); [|apply IH].
Qed.

Section Linearizable.
Context (limits : BudgetLimits).

(** What the assertion of [with_limits] guarantees. *)
Definition limits_packable : Prop := is_Some (with_limits limits).

(** The stored word: a [u64] whose usage is within the limits. *)
Definition good_word (p : Z) : Prop :=
  0 <= p <= int_max U64 /\ fits_within (unpack p) limits = true.

Lemma limits_packable_iff :
  limits_packable <->
  0 <= bl_max_events limits < 2 ^ 32 /\ 0 <= bl_max_encoded_bytes limits < 2 ^ 32.
Proof.
  unfold limits_packable, with_limits.
  destruct (pack _) as [p|] eqn:E; split; intros H.
  - apply pack_some in E. cbn in E. tauto.
  - by eexists.
  - by destruct H.
  - exfalso. assert (exists p, pack (mkBudgetUsage (bl_max_events limits)
      (bl_max_encoded_bytes limits)) = Some p) as [p Hp].
    { eexists. apply pack_some. cbn. split; [apply H|]. split; [apply H|reflexivity]. }
    congruence.
Qed.

Lemma replace_args_ok released admitted u :
  replace_args released admitted = Ok u ->
  (usage_nonneg released /\ bu_events released < 2 ^ 32 /\ bu_encoded_bytes released < 2 ^ 32) /\
  (usage_nonneg admitted /\ bu_events admitted < 2 ^ 32 /\ bu_encoded_bytes admitted < 2 ^ 32).
Proof.
  unfold replace_args, usage_nonneg.
  destruct (pack released) as [r|] eqn:Er; [|done].
  destruct (pack admitted) as [a|] eqn:Ea; [|done]. intros _.
  apply pack_some in Er, Ea. lia.
Qed.

Lemma replace_attempt_atomic released admitted p u :
  limits_packable -> good_word p -> replace_args released admitted = Ok u ->
  match replace_attempt limits released admitted p with
  | Err e => atomic_replace limits (unpack p) released admitted = (unpack p, Err e)
  | Ok (next, attempted) =>
      atomic_replace limits (unpack p) released admitted = (attempted, Ok attempted) /\
      unpack next = attempted /\ good_word next
  end.
Proof.
  intros Hl%limits_packable_iff [Hp Hfit] Hargs. unfold replace_attempt, atomic_replace.
  rewrite Hargs. apply replace_args_ok in Hargs as [[Hr Hr'] [Ha Ha']].
  pose proof (unpack_range p Hp) as [He Hb].
  clear Hfit. generalize dependent (unpack p). intros current He Hb.
  assert (usage_word current) as Hw by (unfold usage_word; cbn; lia).
  destruct (usage_leb released current) eqn:Hle; cbn [negb].
  2: { destruct (usage_checked_sub _ _) as [c|] eqn:Es; [|done].
       apply usage_checked_sub_spec in Es as [_ Hc%usage_leb_true]; [congruence|done..]. }
  apply usage_leb_true in Hle as Hle'.
  rewrite (proj2 (usage_checked_sub_spec _ _ (usage_sub current released) Hw Hr)) by done.
  set (attempted := usage_add _ admitted).
  assert (usage_checked_add (usage_sub current released) admitted = Some attempted) as ->.
  { apply usage_checked_add_spec; [|done|split; [done|]];
      unfold usage_word, usage_nonneg, usage_le in *; cbn in *; lia. }
  destruct (fits_within attempted limits) eqn:Hf; cbn [negb]; [|done].
  apply fits_within_true in Hf as Hf'.
  destruct (pack attempted) as [next|] eqn:Ep.
  - apply unpack_pack in Ep as [Eu Hn]. split; [done|]. split; [done|].
    split; [done|]. by rewrite Eu.
  - exfalso. assert (pack attempted = Some (bu_events attempted * 2 ^ 32 + bu_encoded_bytes attempted))
      as E; [|congruence].
    apply pack_some. unfold usage_le, usage_nonneg in *. cbn in *. lia.
Qed.

(** The call without interference. *)
Lemma try_replace_atomic released admitted p :
  limits_packable -> good_word p ->
  let r := try_replace limits p released admitted in
  atomic_replace limits (unpack p) released admitted = (unpack r.1, r.2) /\ good_word r.1.
Proof.
  intros Hl Hp. unfold try_replace.
  destruct (replace_args released admitted) as [u|e] eqn:Ha.
  2: { cbn. split; [|done]. unfold atomic_replace. by rewrite Ha. }
  pose proof (replace_attempt_atomic _ _ _ _ Hl Hp Ha) as H.
  destruct (replace_attempt _ _ _ _) as [[next att]|e]; cbn; [|done].
  destruct H as (H1 & <- & H3). done.
Qed.

(** The cases a caller meets who releases no more than is in use. *)
Lemma try_replace_spec released admitted p :
  limits_packable -> good_word p ->
  usage_nonneg released -> usage_le released (unpack p) -> is_Some (pack admitted) ->
  let attempted := usage_add (usage_sub (unpack p) released) admitted in
  if fits_within attempted limits then
    exists p', try_replace limits p released admitted = (p', Ok attempted) /\
      good_word p' /\ unpack p' = attempted
  else try_replace limits p released admitted = (p, Err (LimitExceeded limits (unpack p) attempted)).
Proof.
  intros Hl Hp Hn Hle [w Ha] attempted.
  pose proof (unpack_range p (proj1 Hp)) as [He Hb].
  assert (replace_args released admitted = Ok tt) as Hargs.
  { unfold replace_args. destruct (pack released) eqn:E; [by rewrite Ha|exfalso].
    assert (pack released = Some (bu_events released * 2 ^ 32 + bu_encoded_bytes released));
      [|congruence].
    apply pack_some. unfold usage_nonneg, usage_le in *. lia. }
  pose proof (replace_attempt_atomic _ _ _ _ Hl Hp Hargs) as Hra.
  unfold try_replace. rewrite Hargs. unfold atomic_replace in Hra. rewrite Hargs in Hra.
  rewrite (proj2 (usage_leb_true _ _) Hle) in Hra. cbn [negb] in Hra. fold attempted in Hra.
  destruct (fits_within attempted limits), (replace_attempt _ _ _ _) as [[next att]|e].
  - destruct Hra as ([= <-] & Hu & Hg). eauto.
  - done.
  - by destruct Hra.
  - by injection Hra as ->.
Qed.

(** *** The simulation

    A caller that has observed a word on which its attempt fails has already
    taken effect: it will return that error whatever happens next.  Any other
    caller in the loop has not taken effect. *)

Definition caller_rel (c : Caller) (a : AtomicCaller) : Prop :=
  match c with
  | Starting released admitted => a = Called released admitted
  | Looping released admitted observed =>
      replace_args released admitted = Ok tt /\
      match replace_attempt limits released admitted observed with
      | Err e => a = Effected (Err e)
      | Ok _ => a = Called released admitted
      end
  | Leaving r => a = Effected r
  end.

Record simulates (s : CasState) (a : AtomicState) : Prop := {
  sim_word : good_word (packed_usage s);
  sim_usage : at_usage a = unpack (packed_usage s);
  sim_callers c : option_Forall2 caller_rel (callers s !! c) (at_callers a !! c);
}.

Lemma callers_insert (m : gmap nat Caller) (n : gmap nat AtomicCaller) c x y :
  (forall k, option_Forall2 caller_rel (m !! k) (n !! k)) -> caller_rel x y ->
  forall k, option_Forall2 caller_rel (<[c := x]> m !! k) (<[c := y]> n !! k).
Proof.
  intros H Hxy k. destruct (decide (c = k)) as [->|Hne].
  - rewrite !lookup_insert_eq. by constructor.
  - rewrite !lookup_insert_ne by done. apply H.
Qed.

(** Restoring an abstract caller that did not move. *)
Lemma callers_stutter (m : gmap nat Caller) (n : gmap nat AtomicCaller) c x y :
  (forall k, option_Forall2 caller_rel (m !! k) (n !! k)) -> n !! c = Some y -> caller_rel x y ->
  forall k, option_Forall2 caller_rel (<[c := x]> m !! k) (n !! k).
Proof.
  intros H Hy Hxy k. rewrite <-(insert_id n c y Hy). by apply callers_insert.
Qed.

Lemma callers_delete (m : gmap nat Caller) (n : gmap nat AtomicCaller) c :
  (forall k, option_Forall2 caller_rel (m !! k) (n !! k)) ->
  forall k, option_Forall2 caller_rel (delete c m !! k) (delete c n !! k).
Proof.
  intros H k. destruct (decide (c = k)) as [->|Hne].
  - rewrite !lookup_delete_eq. constructor.
  - rewrite !lookup_delete_ne by done. apply H.
Qed.

Lemma sim_caller s a c x :
  simulates s a -> callers s !! c = Some x -> exists y, at_callers a !! c = Some y /\ caller_rel x y.
Proof.
  intros Hs Hx. pose proof (sim_callers _ _ Hs c) as H. rewrite Hx in H.
  inversion H; subst. eauto.
Qed.

Abbreviation atomic_trace := (trace (atomic_step limits)).

(** A caller observes the word: the attempt fails and it takes effect, or it
    stays in the loop. *)
Lemma simulates_observe s a c released admitted :
  limits_packable -> simulates s a -> at_callers a !! c = Some (Called released admitted) ->
  replace_args released admitted = Ok tt ->
  exists a', atomic_trace a [] a' /\
    simulates (mkCasState (packed_usage s)
      (<[c := Looping released admitted (packed_usage s)]> (callers s))) a'.
Proof.
  intros Hl Hs Hc Hargs.
  pose proof (replace_attempt_atomic _ _ _ _ Hl (sim_word _ _ Hs) Hargs) as Hra.
  destruct (replace_attempt limits released admitted (packed_usage s)) as [[next att]|e] eqn:Er.
  - exists a. split; [constructor|]. split; cbn; [apply Hs..|].
    eapply callers_stutter; [apply Hs|exact Hc|]. cbn. by rewrite Er.
  - rewrite <-(sim_usage _ _ Hs) in Hra. eexists. split.
    + eapply (trace_cons _ a None); [by eapply at_effect|constructor].
    + split; cbn; [apply Hs..|]. apply callers_insert; [apply Hs|]. cbn. by rewrite Er.
Qed.

Lemma simulates_load s a c released admitted :
  limits_packable -> simulates s a -> callers s !! c = Some (Starting released admitted) ->
  exists a', atomic_trace a [] a' /\
    simulates (mkCasState (packed_usage s)
      (<[c := enter (packed_usage s) released admitted]> (callers s))) a'.
Proof.
  intros Hl Hs Hc. destruct (sim_caller _ _ _ _ Hs Hc) as (y & Hy & ->).
  unfold enter. destruct (replace_args released admitted) as [[]|e] eqn:Ha.
  - by apply simulates_observe.
  - eexists. split.
    + eapply (trace_cons _ a None); [|constructor]. eapply at_effect; [done|].
      unfold atomic_replace. by rewrite Ha.
    + split; cbn; [apply Hs..|]. by apply callers_insert; [apply Hs|].
Qed.

Lemma simulates_exchange s a c released admitted observed spurious packed' caller' :
  limits_packable -> simulates s a ->
  callers s !! c = Some (Looping released admitted observed) ->
  exchange limits (packed_usage s) observed spurious released admitted = (packed', caller') ->
  exists a', atomic_trace a [] a' /\ simulates (mkCasState packed' (<[c := caller']> (callers s))) a'.
Proof.
  intros Hl Hs Hc Hx. destruct (sim_caller _ _ _ _ Hs Hc) as (y & Hy & [Hargs Hrel]).
  unfold exchange in Hx.
  destruct (replace_attempt limits released admitted observed) as [[next att]|e] eqn:Er.
  2: { injection Hx as <- <-. subst y. exists a. split; [constructor|].
       split; cbn; [apply Hs..|]. by eapply callers_stutter; [apply Hs|exact Hy|]. }
  subst y. destruct (_ && _)%bool eqn:Eb; injection Hx as <- <-; [|by apply simulates_observe].
  bool_hyps. assert (packed_usage s = observed) as Ho by lia.
  pose proof (replace_attempt_atomic _ _ _ _ Hl (sim_word _ _ Hs) Hargs) as Hra.
  rewrite Ho, Er in Hra. destruct Hra as (Hat & Hu & Hg).
  rewrite <-Ho, <-(sim_usage _ _ Hs) in Hat. eexists. split.
  - eapply (trace_cons _ a None); [by eapply at_effect|constructor].
  - split; cbn; [done|done|]. by apply callers_insert; [apply Hs|].
Qed.

Lemma simulates_step s l s' a :
  limits_packable -> simulates s a -> cas_step limits s l s' ->
  exists a', atomic_trace a (option_list l) a' /\ simulates s' a'.
Proof.
  intros Hl Hs Hstep. destruct Hstep as [s c released admitted Hc|s c released admitted Hc
    |s c released admitted observed spurious p' c' Hc Hx|s c r Hc]; cbn [option_list].
  - pose proof (sim_callers _ _ Hs c) as H. rewrite Hc in H. inversion H.
    eexists. split; [eapply (trace_cons _ a (Some _)); [by apply at_call|constructor]|].
    split; cbn; [apply Hs..|]. by apply callers_insert; [apply Hs|].
  - by apply simulates_load.
  - by eapply simulates_exchange.
  - destruct (sim_caller _ _ _ _ Hs Hc) as (y & Hy & ->).
    eexists. split; [eapply (trace_cons _ a (Some _)); [by apply at_return|constructor]|].
    split; cbn; [apply Hs..|]. apply callers_delete, Hs.
Qed.

Lemma simulates_trace s ls s' a :
  limits_packable -> trace (cas_step limits) s ls s' -> simulates s a ->
  exists a', atomic_trace a ls a' /\ simulates s' a'.
Proof.
  intros Hl Ht. revert a. induction Ht as [s|s l s1 ls s2 Hstep Ht IH]; intros a Hs.
  - exists a. split; [constructor|done].
  - destruct (simulates_step _ _ _ _ Hl Hs Hstep) as (a1 & Ha1 & Hs1).
    destruct (IH _ Hs1) as (a2 & Ha2 & Hs2). exists a2. split; [|done].
    replace (match l with Some x => x :: ls | None => ls end) with (option_list l ++ ls)
      by (by destruct l). by eapply trace_app.
Qed.

Lemma simulates_init : limits_packable -> simulates cas_init atomic_init.
Proof.
  intros Hl%limits_packable_iff. split; cbn; [|by rewrite unpack_word|constructor].
  split; [cbn; lia|]. change (unpack 0) with BudgetUsage_ZERO. apply fits_within_true. cbn. lia.
Qed.

End Linearizable.

(** The errors of the specification. *)
Definition caller_error_ok (a : AtomicCaller) : Prop :=
  match a with
  | Effected (Err e) => e <> ArithmeticOverflow /\ (forall u, e = Unrepresentable u -> pack u = None)
  | _ => True
  end.

Lemma atomic_replace_errors limits usage released admitted usage' r :
  atomic_replace limits usage released admitted = (usage', r) -> caller_error_ok (Effected r).
Proof.
  unfold atomic_replace, replace_args. intros H.
  destruct (pack released) eqn:Er; [destruct (pack admitted) eqn:Ea|]; cbn in H;
    repeat case_match; simplify_eq/=; try done; split; naive_solver.
Qed.

Lemma atomic_errors limits ls a :
  trace (atomic_step limits) atomic_init ls a ->
  forall c e, at_callers a !! c = Some (Effected (Err e)) ->
    e <> ArithmeticOverflow /\ (forall u, e = Unrepresentable u -> pack u = None).
Proof.
  intros Ht. assert (map_Forall (fun _ => caller_error_ok) (at_callers a)) as H.
  { assert (map_Forall (fun (_ : nat) => caller_error_ok) (at_callers atomic_init)) as H0
      by apply map_Forall_empty.
    induction Ht as [|s l s1 ls s2 Hstep Ht IH]; [done|]. apply IH.
    destruct Hstep; cbn; [apply map_Forall_insert_2; done| |by apply map_Forall_delete].
    apply map_Forall_insert_2; [by eapply atomic_replace_errors|done]. }
  intros c e Hc. apply (H c _ Hc).
Qed.

(** ** Theorems *)

(** C14: the lock-free budget is linearizable.  Whatever the interleaving of
    callers and whatever exchanges fail, the calls and returns that are seen are
    those of a run of the atomic specification, in which each call takes effect
    in one indivisible step between its call and its return, on a usage of
    unbounded integers; at the end the packed word is that usage. *)
Theorem budget_linearizable limits ls s :
  is_Some (with_limits limits) -> trace (cas_step limits) cas_init ls s ->
  exists a, trace (atomic_step limits) atomic_init ls a /\ at_usage a = unpack (packed_usage s).
Proof.
  intros Hl Ht.
  destruct (simulates_trace _ _ _ _ _ Hl Ht (simulates_init _ Hl)) as (a & Ha & Hs).
  exists a. split; [done|apply Hs].
Qed.

(** In every reachable state both dimensions of the usage are within the
    limits, and no caller ever leaves with an arithmetic error or with a usage
    that does not fit the packed word: only a release that exceeds the usage, a
    limit, or an argument that does not fit 32 bits is refused. *)
Theorem budget_within_limits limits ls s :
  is_Some (with_limits limits) -> trace (cas_step limits) cas_init ls s ->
  fits_within (unpack (packed_usage s)) limits = true /\
  forall c e, callers s !! c = Some (Leaving (Err e)) ->
    e <> ArithmeticOverflow /\
    (forall u, e = Unrepresentable u -> pack u = None).
Proof.
  intros Hl Ht.
  destruct (simulates_trace _ _ _ _ _ Hl Ht (simulates_init _ Hl)) as (a & Ha & Hs).
  split; [apply (sim_word _ _ _ Hs)|]. intros c e Hc.
  destruct (sim_caller _ _ _ _ _ Hs Hc) as (y & Hy & ->).
  by apply (atomic_errors _ _ _ Ha c).
Qed.

(** Packing loses nothing: the word of a usage that fits 32 bits in each
    field gives the usage back, and every word is the word of the usage it
    unpacks to. *)
Theorem pack_roundtrip u p :
  (pack u = Some p -> unpack p = u /\ 0 <= p <= int_max U64) /\
  (0 <= p <= int_max U64 -> pack (unpack p) = Some p).
Proof. split; [apply unpack_pack|apply pack_unpack]. Qed.

(** ** Witnesses *)

Definition sample_usage (n : Z) : BudgetUsage := mkBudgetUsage 1 n.

(** Two callers race: both load the empty word, the second wins the exchange,
    the first fails once and then succeeds. *)
Definition sample_trace : list Label :=
  [Call 0 BudgetUsage_ZERO (sample_usage 10); Call 1 BudgetUsage_ZERO (sample_usage 20);
   Return 1 (Ok (mkBudgetUsage 1 20)); Return 0 (Ok (mkBudgetUsage 2 30))].

Definition sample_limits : BudgetLimits := mkBudgetLimits 2 100.

Lemma sample_run :
  exists s, trace (cas_step sample_limits) cas_init sample_trace s /\
    packed_usage s = 2 * 2 ^ 32 + 30.
Proof.
  eexists. split.
  - eapply (trace_cons _ _ (Some _)); [by apply cas_call|].
    eapply (trace_cons _ _ (Some _)); [by apply cas_call|].
    eapply (trace_cons _ _ None); [by apply (cas_load _ _ 0%nat BudgetUsage_ZERO (sample_usage 10))|].
    eapply (trace_cons _ _ None); [by apply (cas_load _ _ 1%nat BudgetUsage_ZERO (sample_usage 20))|].
    eapply (trace_cons _ _ None);
      [by apply (cas_exchange _ _ 1%nat BudgetUsage_ZERO (sample_usage 20) 0 false (2 ^ 32 + 20)
         (Leaving (Ok (mkBudgetUsage 1 20))))|].
    eapply (trace_cons _ _ (Some _)); [by apply (cas_return _ _ 1%nat)|].
    eapply (trace_cons _ _ None);
      [by apply (cas_exchange _ _ 0%nat BudgetUsage_ZERO (sample_usage 10) 0 false (2 ^ 32 + 20)
         (Looping BudgetUsage_ZERO (sample_usage 10) (2 ^ 32 + 20)))|].
    eapply (trace_cons _ _ None);
      [by apply (cas_exchange _ _ 0%nat BudgetUsage_ZERO (sample_usage 10) (2 ^ 32 + 20) false
         (2 * 2 ^ 32 + 30) (Leaving (Ok (mkBudgetUsage 2 30))))|].
    eapply (trace_cons _ _ (Some _)); [by apply (cas_return _ _ 0%nat)|]. constructor.
  - reflexivity.
Qed.

Lemma budget_linearizable_witness :
  exists s a, packed_usage s = 2 * 2 ^ 32 + 30 /\
    trace (atomic_step sample_limits) atomic_init sample_trace a /\
    at_usage a = unpack (packed_usage s).
Proof.
  destruct sample_run as (s & Ht & Hp).
  destruct (budget_linearizable sample_limits sample_trace s) as (a & Ha & Hu);
    [by eexists|exact Ht|]. eauto.
Defined.

Lemma budget_within_limits_witness :
  exists s, trace (cas_step sample_limits) cas_init sample_trace s /\
    fits_within (unpack (packed_usage s)) sample_limits = true.
Proof.
  destruct sample_run as (s & Ht & Hp). exists s. split; [exact Ht|].
  apply (budget_within_limits sample_limits sample_trace s); [by eexists|exact Ht].
Defined.
