(* ===== verification/SinkQueue.v ===== *)
(** * The bounded queue of one sink

    Models [rust/src/diagnostic_sink/queue.rs].  Each sink holds its events
    under a mutex that callers only try to take, charges them to the runtime
    budget it shares with the other sinks, and makes room for a new event by
    evicting the oldest content events; structural events are never evicted.

    The runtime budget is its packed word, passed as state; by the
    linearizability of [Budget] a call of [try_replace] is one atomic change of
    it.  [admit_start] is the part of [try_admit] before its loop,
    [admit_iteration] the loop body and [admit_step] an iteration with the rest
    of the function when it leaves the loop, so that the iterations of several
    sinks can be interleaved; [try_admit] composes them.  [None] is a panic; [debug_assertions] is the compiler's setting of
    that name. *)

From S2P Require Import Prelude Wire Scalar Kinds Detail Event Budget.

Definition PER_SINK_MAX_EVENTS : Z := 1024.

Definition PER_SINK_MAX_ENCODED_BYTES : Z := 8 * 1024 * 1024.

Definition STRUCTURAL_RESERVE_EVENTS : Z := 32.

Definition STRUCTURAL_RESERVE_ENCODED_BYTES : Z := 256 * 1024.

(** ** Data *)

Record SinkQueueLimits := mkSinkQueueLimits {
  sl_total : BudgetLimits;
  sl_structural_reserve : BudgetUsage;
  sl_content : BudgetLimits;
}.

Definition limits_of (usage : BudgetUsage) : BudgetLimits :=
  mkBudgetLimits (bu_events usage) (bu_encoded_bytes usage).

Definition SinkQueueLimits_new (total structural_reserve : BudgetUsage) : option SinkQueueLimits :=
  content ← usage_checked_sub total structural_reserve;
  Some (mkSinkQueueLimits (limits_of total) structural_reserve (limits_of content)).

Definition product : option SinkQueueLimits :=
  SinkQueueLimits_new (mkBudgetUsage PER_SINK_MAX_EVENTS PER_SINK_MAX_ENCODED_BYTES)
    (mkBudgetUsage STRUCTURAL_RESERVE_EVENTS STRUCTURAL_RESERVE_ENCODED_BYTES).

Inductive AdmissionClass := Content | Structural.

#[export] Instance AdmissionClass_eq_dec : EqDecision AdmissionClass.
Proof. solve_decision. Defined.

Record EventMetadata := mkEventMetadata {
  em_event_kind : DiagnosticEventKind;
  em_encoded_bytes : Z;
  em_class : AdmissionClass;
}.

#[export] Instance EventMetadata_eq_dec : EqDecision EventMetadata.
Proof. solve_decision. Defined.

Record DropDelta := mkDropDelta {
  dd_event_kind : DiagnosticEventKind;
  dd_events : Z;
  dd_encoded_bytes : Z;
}.

#[export] Instance DropDelta_eq_dec : EqDecision DropDelta.
Proof. solve_decision. Defined.

Definition metadata_usage (m : EventMetadata) : BudgetUsage := mkBudgetUsage 1 (em_encoded_bytes m).

Definition drop_delta (m : EventMetadata) : DropDelta :=
  mkDropDelta (em_event_kind m) 1 (em_encoded_bytes m).

(** *** Drop counters *)

Record DropCounter := mkDropCounter { dc_events : Z; dc_encoded_bytes : Z }.

Definition DropCounter_new : DropCounter := mkDropCounter 0 0.

Definition counter_record (delta : DropDelta) (counter : DropCounter) : DropCounter :=
  mkDropCounter (saturating_add Usize (dc_events counter) (dd_events delta))
    (saturating_add Usize (dc_encoded_bytes counter) (dd_encoded_bytes delta)).

Definition counter_snapshot (counter : DropCounter) (kind : DiagnosticEventKind)
    : option DropDelta :=
  if negb (dc_events counter =? 0) || negb (dc_encoded_bytes counter =? 0) then
    Some (mkDropDelta kind (dc_events counter) (dc_encoded_bytes counter))
  else None.

(** One counter per event kind, in the order of [DiagnosticEventKind::ALL]. *)
Definition DropLedger := list DropCounter.

Definition DropLedger_new : DropLedger :=
  replicate (length DiagnosticEventKind_ALL) DropCounter_new.

Definition ledger_record (ledger : DropLedger) (delta : DropDelta) : option DropLedger :=
  index ← position (fun kind => bool_decide (kind = dd_event_kind delta)) DiagnosticEventKind_ALL;
  Some (alter (counter_record delta) index ledger).

Fixpoint ledger_record_all (ledger : DropLedger) (deltas : list DropDelta) : option DropLedger :=
  match deltas with
  | [] => Some ledger
  | delta :: rest => ledger' ← ledger_record ledger delta; ledger_record_all ledger' rest
  end.

Definition ledger_snapshot (ledger : DropLedger) : list DropDelta :=
  omap (fun '(kind, counter) => counter_snapshot counter kind)
    (zip DiagnosticEventKind_ALL ledger).

(** *** Outcomes and errors *)

Inductive DropReason :=
| SinkCapacity | RuntimeCapacity | QueueContended | SinkTerminal | BudgetUnavailable.

#[export] Instance DropReason_eq_dec : EqDecision DropReason.
Proof. solve_decision. Defined.

Inductive AdmissionOutcome :=
| Enqueued (evicted : list DropDelta)
| Dropped (reason : DropReason) (delta : DropDelta)
| Terminalized (dropped : list DropDelta).

Inductive SinkTerminalReason := DeliveryOverflow.

Inductive QueueAccessError :=
| Contended
| NoCallbackActive
| CallbackTicketMismatch
| BudgetInvariant (error : BudgetError).

(** *** State *)

Section Queue.
Context {T : Type}.

Record QueueEvent := mkQueueEvent { qe_item : T; qe_metadata : EventMetadata }.

Record StoredEvent := mkStoredEvent { se_item : T; se_metadata : EventMetadata }.

Record ActiveCallback := mkActiveCallback { ac_ticket : Z; ac_metadata : EventMetadata }.

Record CallbackDelivery := mkCallbackDelivery {
  cd_ticket : Z;
  cd_item : T;
  cd_metadata : EventMetadata;
}.

Record QueueState := mkQueueState {
  qs_queued : list StoredEvent;
  qs_active_callback : option ActiveCallback;
  qs_total_usage : BudgetUsage;
  qs_content_usage : BudgetUsage;
  qs_terminal_reason : option SinkTerminalReason;
  qs_next_ticket : Z;
}.

Definition QueueState_new : QueueState :=
  mkQueueState [] None BudgetUsage_ZERO BudgetUsage_ZERO None 1.

Definition issue_ticket (next_ticket : Z) : Z * Z :=
  let next := wrapping_add U64 next_ticket 1 in
  (next_ticket, if next =? 0 then 1 else next).

Record SinkQueue := mkSinkQueue {
  sq_limits : SinkQueueLimits;
  sq_state : QueueState;
  sq_drops : DropLedger;
}.

Definition SinkQueue_with_limits (limits : SinkQueueLimits) : SinkQueue :=
  mkSinkQueue limits QueueState_new DropLedger_new.

Definition SinkQueue_new : option SinkQueue := limits ← product; Some (SinkQueue_with_limits limits).

Record QueueSnapshot := mkQueueSnapshot {
  sn_queued_events : Z;
  sn_callback_active : bool;
  sn_total_usage : BudgetUsage;
  sn_content_usage : BudgetUsage;
  sn_terminal_reason : option SinkTerminalReason;
}.

Definition try_snapshot (contended : bool) (q : SinkQueue) : result QueueSnapshot QueueAccessError :=
  if contended then Err Contended
  else
    let state := sq_state q in
    Ok (mkQueueSnapshot (list_len (qs_queued state)) (bool_decide (is_Some (qs_active_callback state)))
          (qs_total_usage state) (qs_content_usage state) (qs_terminal_reason state)).

Definition drop_snapshot (q : SinkQueue) : list DropDelta := ledger_snapshot (sq_drops q).

Definition record_drop (q : SinkQueue) (delta : DropDelta) : option SinkQueue :=
  ledger ← ledger_record (sq_drops q) delta;
  Some (mkSinkQueue (sq_limits q) (sq_state q) ledger).

Definition record_drops (q : SinkQueue) (deltas : list DropDelta) : option SinkQueue :=
  ledger ← ledger_record_all (sq_drops q) deltas;
  Some (mkSinkQueue (sq_limits q) (sq_state q) ledger).

Definition set_state (q : SinkQueue) (state : QueueState) : SinkQueue :=
  mkSinkQueue (sq_limits q) state (sq_drops q).

(** Records the incoming event as dropped. *)
Definition drop_incoming (q : SinkQueue) (runtime : Z) (reason : DropReason) (delta : DropDelta)
    : option (SinkQueue * Z * AdmissionOutcome) :=
  q' ← record_drop q delta; Some (q', runtime, Dropped reason delta).

(** ** Discarding and terminalising *)

Context (runtime_limits : BudgetLimits) (debug_assertions : bool).

Definition callback_usage (state : QueueState) : BudgetUsage :=
  match qs_active_callback state with
  | Some active => metadata_usage (ac_metadata active)
  | None => BudgetUsage_ZERO
  end.

Definition is_content (m : EventMetadata) : bool := bool_decide (em_class m = Content).

Definition callback_content (state : QueueState) : BudgetUsage :=
  match qs_active_callback state with
  | Some active =>
      if is_content (ac_metadata active) then metadata_usage (ac_metadata active)
      else BudgetUsage_ZERO
  | None => BudgetUsage_ZERO
  end.

Definition discard_queued_locked (q : SinkQueue) (runtime : Z)
    : option (SinkQueue * Z * result (list DropDelta) QueueAccessError) :=
  let state := sq_state q in
  match usage_checked_sub (qs_total_usage state) (callback_usage state) with
  | None =>
      Some (q, runtime,
        Err (BudgetInvariant (ReleaseExceedsUsage (qs_total_usage state) (callback_usage state))))
  | Some queued_usage =>
      match try_replace runtime_limits runtime queued_usage BudgetUsage_ZERO with
      | (runtime', Err e) => Some (q, runtime', Err (BudgetInvariant e))
      | (runtime', Ok _) =>
          let dropped := map (fun queued => drop_delta (se_metadata queued)) (qs_queued state) in
          q' ← record_drops
            (set_state q (mkQueueState [] (qs_active_callback state) (callback_usage state)
               (callback_content state) (qs_terminal_reason state) (qs_next_ticket state)))
            dropped;
          Some (q', runtime', Ok dropped)
      end
  end.

Definition set_terminal (state : QueueState) : QueueState :=
  mkQueueState (qs_queued state) (qs_active_callback state) (qs_total_usage state)
    (qs_content_usage state) (Some DeliveryOverflow) (qs_next_ticket state).

Definition terminalize_locked (q : SinkQueue) (runtime : Z) (incoming : QueueEvent)
    : option (SinkQueue * Z * AdmissionOutcome) :=
  r ← discard_queued_locked q runtime;
  match r with
  | (_, _, Err _) => None
  | (q1, runtime', Ok dropped) =>
      let incoming_delta := drop_delta (qe_metadata incoming) in
      q2 ← record_drop q1 incoming_delta;
      Some (set_state q2 (set_terminal (sq_state q2)), runtime',
            Terminalized (dropped ++ [incoming_delta]))
  end.

Definition try_discard_queued (contended : bool) (q : SinkQueue) (runtime : Z)
    : option (SinkQueue * Z * result (list DropDelta) QueueAccessError) :=
  if contended then Some (q, runtime, Err Contended) else discard_queued_locked q runtime.

(** ** Admission *)

Record Victim := mkVictim { v_index : nat; v_metadata : EventMetadata }.

(** The mutable variables of the loop. *)
Record Plan := mkPlan {
  p_victims : list Victim;
  p_released : BudgetUsage;
  p_released_content : BudgetUsage;
  p_victim_cursor : nat;
  p_runtime_capacity_failed : bool;
}.

Definition Plan_new : Plan := mkPlan [] BudgetUsage_ZERO BudgetUsage_ZERO 0 false.

(** How one iteration ends. *)
Inductive Iteration :=
| Break (next_total next_content : BudgetUsage)
| Continue (plan : Plan)
| NoVictim (runtime_capacity_failed : bool)
| Broken.

Definition incoming_content (m : EventMetadata) : BudgetUsage :=
  match em_class m with
  | Content => metadata_usage m
  | Structural => BudgetUsage_ZERO
  end.

Definition next_usage (current released incoming : BudgetUsage) : option BudgetUsage :=
  usage ← usage_checked_sub current released; usage_checked_add usage incoming.

(** The first content event at or after the cursor. *)
Definition next_victim (queued : list StoredEvent) (cursor : nat) : option Victim :=
  offset ← position (fun stored => is_content (se_metadata stored)) (drop cursor queued);
  stored ← queued !! (cursor + offset)%nat;
  Some (mkVictim (cursor + offset) (se_metadata stored)).

(** The end of the iteration, when the event does not fit yet. *)
Definition plan_victim (queued : list StoredEvent) (plan : Plan) (runtime_capacity_failed : bool)
    : option Iteration :=
  match next_victim queued (p_victim_cursor plan) with
  | None => Some (NoVictim runtime_capacity_failed)
  | Some victim =>
      released ← usage_checked_add (p_released plan) (metadata_usage (v_metadata victim));
      released_content ←
        usage_checked_add (p_released_content plan) (metadata_usage (v_metadata victim));
      Some (Continue (mkPlan (p_victims plan ++ [victim]) released released_content
                        (S (v_index victim)) runtime_capacity_failed))
  end.

Definition admit_iteration (q : SinkQueue) (m : EventMetadata) (plan : Plan) (runtime : Z)
    : option (Z * Iteration) :=
  let state := sq_state q in
  let next_total := next_usage (qs_total_usage state) (p_released plan) (metadata_usage m) in
  let next_content :=
    next_usage (qs_content_usage state) (p_released_content plan) (incoming_content m) in
  match next_total, next_content with
  | Some total, Some content =>
      if fits_within total (sl_total (sq_limits q)) && fits_within content (sl_content (sq_limits q))
      then
        match try_replace runtime_limits runtime (p_released plan) (metadata_usage m) with
        | (runtime', Ok _) => Some (runtime', Break total content)
        | (runtime', Err (LimitExceeded _ _ _)) =>
            it ← plan_victim (qs_queued state) plan true; Some (runtime', it)
        | (runtime', Err _) => if debug_assertions then None else Some (runtime', Broken)
        end
      else
        it ← plan_victim (qs_queued state) plan (p_runtime_capacity_failed plan); Some (runtime, it)
  | _, _ =>
      it ← plan_victim (qs_queued state) plan (p_runtime_capacity_failed plan); Some (runtime, it)
  end.

(** Removal of the planned victims, from the last to the first. *)
Fixpoint remove_victims (queued : list StoredEvent) (reversed : list Victim)
    : option (list StoredEvent) :=
  match reversed with
  | [] => Some queued
  | victim :: rest =>
      removed ← queued !! v_index victim;
      if debug_assertions && negb (bool_decide (se_metadata removed = v_metadata victim)) then None
      else remove_victims (delete (v_index victim) queued) rest
  end.

Definition enqueue (q : SinkQueue) (event : QueueEvent) (plan : Plan)
    (next_total next_content : BudgetUsage) : option (SinkQueue * AdmissionOutcome) :=
  let state := sq_state q in
  let evicted := map (fun victim => drop_delta (v_metadata victim)) (p_victims plan) in
  queued ← remove_victims (qs_queued state) (rev (p_victims plan));
  q' ← record_drops
    (set_state q (mkQueueState
       (queued ++ [mkStoredEvent (qe_item event) (qe_metadata event)]) (qs_active_callback state)
       next_total next_content (qs_terminal_reason state) (qs_next_ticket state)))
    evicted;
  Some (q', Enqueued evicted).

(** What the loop is left with: an outcome, or the next plan. *)
Inductive Progress :=
| Done (outcome : AdmissionOutcome)
| Next (plan : Plan).

(** An iteration and, when it leaves the loop, the rest of the function. *)
Definition admit_step (q : SinkQueue) (event : QueueEvent) (plan : Plan) (runtime : Z)
    : option (SinkQueue * Z * Progress) :=
  let delta := drop_delta (qe_metadata event) in
  r ← admit_iteration q (qe_metadata event) plan runtime;
  let '(runtime', it) := r in
  match it with
  | Continue plan' => Some (q, runtime', Next plan')
  | Break total content =>
      e ← enqueue q event plan total content; Some (e.1, runtime', Done e.2)
  | NoVictim failed =>
      o ← match em_class (qe_metadata event) with
          | Content =>
              drop_incoming q runtime' (if failed then RuntimeCapacity else SinkCapacity) delta
          | Structural => terminalize_locked q runtime' event
          end;
      Some (o.1.1, o.1.2, Done o.2)
  | Broken =>
      o ← drop_incoming q runtime' BudgetUnavailable delta; Some (o.1.1, o.1.2, Done o.2)
  end.

Definition single_event_fits (q : SinkQueue) (m : EventMetadata) : bool :=
  match em_class m with
  | Content => fits_within (metadata_usage m) (sl_content (sq_limits q))
  | Structural => fits_within (metadata_usage m) (sl_total (sq_limits q))
  end.

(** The part before the loop, with the lock held. *)
Definition admit_start (q : SinkQueue) (event : QueueEvent) (runtime : Z)
    : option (SinkQueue * Z * Progress) :=
  let delta := drop_delta (qe_metadata event) in
  match qs_terminal_reason (sq_state q) with
  | Some _ => o ← drop_incoming q runtime SinkTerminal delta; Some (o.1.1, o.1.2, Done o.2)
  | None =>
      if negb (single_event_fits q (qe_metadata event)) then
        o ← match em_class (qe_metadata event) with
            | Content => drop_incoming q runtime SinkCapacity delta
            | Structural => terminalize_locked q runtime event
            end;
        Some (o.1.1, o.1.2, Done o.2)
      else Some (q, runtime, Next Plan_new)
  end.

Fixpoint admit_loop (fuel : nat) (q : SinkQueue) (event : QueueEvent) (plan : Plan) (runtime : Z)
    : option (SinkQueue * Z * AdmissionOutcome) :=
  match fuel with
  | O => None
  | S fuel' =>
      r ← admit_step q event plan runtime;
      let '(q', runtime', progress) := r in
      match progress with
      | Done outcome => Some (q', runtime', outcome)
      | Next plan' => admit_loop fuel' q' event plan' runtime'
      end
  end.

(** The whole call, when nothing else uses the runtime budget meanwhile. *)
Definition try_admit (contended : bool) (q : SinkQueue) (runtime : Z) (event : QueueEvent)
    : option (SinkQueue * Z * AdmissionOutcome) :=
  if contended then drop_incoming q runtime QueueContended (drop_delta (qe_metadata event))
  else
    r ← admit_start q event runtime;
    let '(q', runtime', progress) := r in
    match progress with
    | Done outcome => Some (q', runtime', outcome)
    | Next plan => admit_loop (S (length (qs_queued (sq_state q)))) q' event plan runtime'
    end.

(** ** Callbacks *)

Definition try_begin_callback (contended : bool) (q : SinkQueue)
    : SinkQueue * result (option CallbackDelivery) QueueAccessError :=
  if contended then (q, Err Contended)
  else
    let state := sq_state q in
    match qs_active_callback state with
    | Some _ => (q, Ok None)
    | None =>
        match qs_queued state with
        | [] => (q, Ok None)
        | queued :: rest =>
            let '(ticket, next_ticket) := issue_ticket (qs_next_ticket state) in
            (set_state q (mkQueueState rest (Some (mkActiveCallback ticket (se_metadata queued)))
               (qs_total_usage state) (qs_content_usage state) (qs_terminal_reason state) next_ticket),
             Ok (Some (mkCallbackDelivery ticket (se_item queued) (se_metadata queued))))
        end
    end.

Definition set_usage (state : QueueState) (total content : BudgetUsage)
    (active : option ActiveCallback) : QueueState :=
  mkQueueState (qs_queued state) active total content (qs_terminal_reason state)
    (qs_next_ticket state).

Definition try_complete_callback (contended : bool) (q : SinkQueue) (runtime : Z) (ticket : Z)
    : SinkQueue * Z * result unit QueueAccessError :=
  if contended then (q, runtime, Err Contended)
  else
    let state := sq_state q in
    match qs_active_callback state with
    | None => (q, runtime, Err NoCallbackActive)
    | Some active =>
        let usage := metadata_usage (ac_metadata active) in
        if negb (ac_ticket active =? ticket) then (q, runtime, Err CallbackTicketMismatch)
        else
          match try_replace runtime_limits runtime usage BudgetUsage_ZERO with
          | (runtime', Err e) => (q, runtime', Err (BudgetInvariant e))
          | (runtime', Ok _) =>
              match usage_checked_sub (qs_total_usage state) usage with
              | None =>
                  (q, runtime', Err (BudgetInvariant (ReleaseExceedsUsage (qs_total_usage state) usage)))
              | Some total =>
                  if is_content (ac_metadata active) then
                    match usage_checked_sub (qs_content_usage state) usage with
                    | None =>
                        (set_state q (set_usage state total (qs_content_usage state) (Some active)),
                         runtime',
                         Err (BudgetInvariant (ReleaseExceedsUsage (qs_content_usage state) usage)))
                    | Some content => (set_state q (set_usage state total content None), runtime', Ok tt)
                    end
                  else
                    (set_state q (set_usage state total (qs_content_usage state) None), runtime', Ok tt)
              end
          end
    end.

(** [Drop for SinkQueue]. *)
Definition sink_drop (q : SinkQueue) (runtime : Z) : option Z :=
  let total := qs_total_usage (sq_state q) in
  if bool_decide (total <> BudgetUsage_ZERO) then
    match try_replace runtime_limits runtime total BudgetUsage_ZERO with
    | (runtime', Ok _) => Some runtime'
    | (runtime', Err _) => if debug_assertions then None else Some runtime'
    end
  else Some runtime.

End Queue.
