(* ===== verification/SinkQueueSpec.v ===== *)
(** * Correctness of the sink queues

    The accounting invariant of one queue and its preservation by every
    operation, a reference definition of what admission does ([evict]: the
    fewest oldest content events make room), and the system of sinks that
    share the runtime budget, whose steps interleave the iterations of
    concurrent admissions. *)

From S2P Require Import Prelude Wire Scalar Kinds Detail Event Budget SinkQueue.
From Stdlib Require Import Relations.

(** ** Sums of usages *)

(** Goals about usages, field by field. *)
Ltac usage_solve :=
  unfold usage_le, usage_nonneg, usage_word, usage_add, usage_sub in *; cbn in *; lia.

Ltac usage_eq := unfold usage_add, usage_sub in *; cbn in *; f_equal; lia.

Lemma usage_eta u : mkBudgetUsage (bu_events u) (bu_encoded_bytes u) = u.
Proof. by destruct u. Qed.

Lemma usage_ext u v : bu_events u = bu_events v -> bu_encoded_bytes u = bu_encoded_bytes v -> u = v.
Proof. destruct u, v. cbn. congruence. Qed.

Section Sums.
Context {T : Type}.
Implicit Types l : list (StoredEvent (T:=T)).

Definition stored_usage l : BudgetUsage :=
  foldr (fun s u => usage_add (metadata_usage (se_metadata s)) u) BudgetUsage_ZERO l.

Definition content_of l := List.filter (fun s => is_content (se_metadata s)) l.

Definition structural_of l := List.filter (fun s => negb (is_content (se_metadata s))) l.

Definition sized (m : EventMetadata) : Prop := 0 <= em_encoded_bytes m.

Definition all_sized l : Prop := Forall (fun s => sized (se_metadata s)) l.

Lemma stored_usage_app l k :
  stored_usage (l ++ k) = usage_add (stored_usage l) (stored_usage k).
Proof.
  induction l as [|s l IH]; [by apply usage_ext|]. cbn [app stored_usage foldr].
  fold (stored_usage (l ++ k)). rewrite IH. fold (stored_usage l). apply usage_ext; cbn; lia.
Qed.

Lemma stored_usage_nonneg l : all_sized l -> usage_nonneg (stored_usage l).
Proof.
  unfold usage_nonneg. induction 1 as [|s l Hs Hl IH]; cbn in *; [lia|].
  fold (stored_usage l). unfold sized in Hs. lia.
Qed.

Lemma content_of_app l k : content_of (l ++ k) = content_of l ++ content_of k.
Proof. apply List.filter_app. Qed.

Lemma structural_of_app l k : structural_of (l ++ k) = structural_of l ++ structural_of k.
Proof. apply List.filter_app. Qed.

Lemma all_sized_app l k : all_sized (l ++ k) <-> all_sized l /\ all_sized k.
Proof. apply Forall_app. Qed.

Lemma all_sized_content l : all_sized l -> all_sized (content_of l).
Proof.
  induction 1 as [|s l Hs Hl IH]; cbn; [constructor|].
  destruct (is_content _); [by constructor|done].
Qed.

Lemma all_sized_structural l : all_sized l -> all_sized (structural_of l).
Proof.
  induction 1 as [|s l Hs Hl IH]; cbn; [constructor|].
  destruct (is_content _); cbn; [done|by constructor].
Qed.

(** Every event is content or structural. *)
Lemma stored_usage_split l :
  stored_usage l = usage_add (stored_usage (content_of l)) (stored_usage (structural_of l)).
Proof.
  induction l as [|s l IH]; [by apply usage_ext|].
  cbn [stored_usage foldr content_of structural_of List.filter].
  fold (stored_usage l) (content_of l) (structural_of l). rewrite IH.
  destruct (is_content _); cbn [negb foldr];
    fold (stored_usage (content_of l)) (stored_usage (structural_of l)); apply usage_ext; cbn; lia.
Qed.

Lemma content_perm l : l ≡ₚ content_of l ++ structural_of l.
Proof.
  induction l as [|s l IH]; [done|]. cbn. fold (content_of l) (structural_of l).
  destruct (is_content _); cbn; [by rewrite <-IH|]. rewrite <-Permutation_middle. by rewrite <-IH.
Qed.

Lemma content_of_structural l : content_of (structural_of l) = [].
Proof.
  induction l as [|s l IH]; [done|]. cbn. fold (structural_of l).
  destruct (is_content (se_metadata s)) eqn:E; cbn; [done|]. by rewrite E.
Qed.

Lemma structural_sublist l : structural_of l `sublist_of` l.
Proof.
  induction l as [|s l IH]; [constructor|]. cbn. destruct (is_content _); cbn.
  - by apply sublist_cons.
  - by apply sublist_skip.
Qed.

(** ** Victims *)

Fixpoint victims_from (i : nat) l : list Victim :=
  match l with
  | [] => []
  | s :: rest =>
      if is_content (se_metadata s) then mkVictim i (se_metadata s) :: victims_from (S i) rest
      else victims_from (S i) rest
  end.

Lemma victims_from_app i l k :
  victims_from i (l ++ k) = victims_from i l ++ victims_from (i + length l) k.
Proof.
  revert i. induction l as [|s l IH]; intros i; cbn.
  { by rewrite Nat.add_0_r. }
  rewrite IH, Nat.add_succ_r. by destruct (is_content _).
Qed.

Lemma victims_from_deltas i l :
  map (fun v => drop_delta (v_metadata v)) (victims_from i l) =
  map (fun s => drop_delta (se_metadata s)) (content_of l).
Proof.
  revert i. induction l as [|s l IH]; intros i; [done|]. cbn.
  destruct (is_content _); cbn; by rewrite IH.
Qed.

Lemma position_drop_none (p : StoredEvent -> bool) l c :
  position p (drop c l) = None -> List.filter p (drop c l) = [].
Proof.
  intros H%position_none. induction H as [|s k Hs Hk IH]; [done|]. cbn. by rewrite Hs.
Qed.

Lemma filter_content_none (p : StoredEvent (T:=T) -> bool) l :
  Forall (fun s => p s = false) l -> List.filter p l = [].
Proof. induction 1 as [|s k Hs Hk IH]; [done|]. cbn. by rewrite Hs. Qed.

Lemma victims_from_none i l :
  Forall (fun s => is_content (se_metadata s) = false) l -> victims_from i l = [].
Proof. intros H. revert i. induction H as [|s k Hs Hk IH]; intros i; [done|]. cbn. by rewrite Hs. Qed.

Lemma next_victim_none l c :
  next_victim l c = None -> content_of (drop c l) = [].
Proof.
  unfold next_victim. intros H. destruct (position _ _) as [o|] eqn:E.
  2: { by apply position_drop_none. }
  apply position_some in E as (s & Hs & _). rewrite lookup_drop in Hs. cbn in H.
  by rewrite Hs in H.
Qed.

Lemma next_victim_some l c v :
  next_victim l c = Some v ->
  exists s, l !! v_index v = Some s /\ v = mkVictim (v_index v) (se_metadata s) /\
    (c <= v_index v)%nat /\
    content_of (take (S (v_index v)) l) = content_of (take c l) ++ [s] /\
    victims_from 0 (take (S (v_index v)) l) = victims_from 0 (take c l) ++ [v].
Proof.
  unfold next_victim. destruct (position _ _) as [o|] eqn:E; [|done].
  apply position_some in E as (s & Hs & Hc & Hf). rewrite lookup_drop in Hs. cbn. rewrite Hs.
  cbn. intros [= <-]. cbn. exists s. split; [done|]. split; [done|]. split; [lia|].
  assert (take (S (c + o)) l = take c l ++ take o (drop c l) ++ [s]) as ->.
  { rewrite (take_S_r _ _ s) by done. rewrite <-take_take_drop. by rewrite <-app_assoc. }
  rewrite !content_of_app, !victims_from_app. split.
  - assert (content_of (take o (drop c l)) = []) as -> by (by apply filter_content_none).
    cbn. by rewrite Hc.
  - rewrite (victims_from_none _ (take o (drop c l))) by done. cbn. rewrite Hc.
    apply lookup_lt_Some in Hs.
    rewrite !length_take, length_drop. do 3 f_equal. lia.
Qed.

(** ** Eviction

    The reference: the [n] oldest content events leave, everything else keeps
    its order. *)

Fixpoint evict (n : nat) l : list StoredEvent * list StoredEvent :=
  match l with
  | [] => ([], [])
  | s :: rest =>
      if is_content (se_metadata s) then
        match n with
        | O => ([], l)
        | S n' => let r := evict n' rest in (s :: r.1, r.2)
        end
      else let r := evict n rest in (r.1, s :: r.2)
  end.

Lemma evict_zero l : evict 0 l = ([], l).
Proof.
  induction l as [|s l IH]; [done|]. cbn. destruct (is_content _); [done|]. by rewrite IH.
Qed.

Lemma evict_prefix l c :
  evict (length (content_of (take c l))) l =
  (content_of (take c l), structural_of (take c l) ++ drop c l).
Proof.
  revert c. induction l as [|s l IH]; intros c; [by destruct c|].
  destruct c as [|c]; [apply evict_zero|].
  cbn [take content_of structural_of List.filter drop].
  fold (content_of (take c l)) (structural_of (take c l)). cbn [evict].
  destruct (is_content _) eqn:E; cbn [length negb]; by rewrite IH.
Qed.

Lemma evict_content n l : (evict n l).1 = take n (content_of l).
Proof.
  revert n. induction l as [|s l IH]; intros n; [by destruct n|]. cbn.
  fold (content_of l). destruct (is_content _); [|by rewrite IH].
  destruct n; cbn; [done|]. by rewrite IH.
Qed.

Lemma evict_sublist n l : (evict n l).2 `sublist_of` l.
Proof.
  revert n. induction l as [|s l IH]; intros n; cbn; [done|].
  destruct (is_content _); [destruct n; [done|]|]; cbn; by constructor.
Qed.

Lemma evict_structural n l : structural_of (evict n l).2 = structural_of l.
Proof.
  revert n. induction l as [|s l IH]; intros n; [done|]. cbn [evict].
  destruct (is_content (se_metadata s)) eqn:E; [destruct n; [done|]|]; cbn; rewrite E; cbn.
  - apply IH.
  - f_equal. apply IH.
Qed.

Lemma remove_victims_app dbg l r1 r2 :
  remove_victims dbg l (r1 ++ r2) = (k ← remove_victims (T:=T) dbg l r1; remove_victims dbg k r2).
Proof.
  revert l. induction r1 as [|v r1 IH]; intros l; [done|]. cbn.
  destruct (l !! v_index v) as [s|]; cbn; [|done]. by destruct (_ && _)%bool.
Qed.

Lemma remove_victims_middle dbg a l b :
  remove_victims dbg (a ++ l ++ b) (rev (victims_from (length a) l)) =
  Some (a ++ structural_of l ++ b).
Proof.
  revert a. induction l as [|s l IH]; intros a; [done|].
  cbn [victims_from structural_of List.filter]. fold (structural_of l).
  specialize (IH (a ++ [s])). rewrite length_app, <-!app_assoc in IH. cbn in IH.
  rewrite Nat.add_1_r in IH. cbn [app].
  destruct (is_content (se_metadata s)) eqn:E; cbn [rev negb]; [|exact IH].
  rewrite remove_victims_app, IH. cbn.
  rewrite list_lookup_middle by done. cbn.
  rewrite bool_decide_eq_true_2, andb_false_r by done. f_equal.
  by rewrite delete_middle.
Qed.

Lemma remove_victims_prefix dbg l c :
  remove_victims dbg l (rev (victims_from 0 (take c l))) =
  Some (structural_of (take c l) ++ drop c l).
Proof.
  pose proof (remove_victims_middle dbg [] (take c l) (drop c l)) as H.
  cbn in H. by rewrite take_drop in H.
Qed.

End Sums.

(** ** The drop ledger *)

Definition saturated (z : Z) : Z := Z.min (int_max Usize) z.

Definition of_kind (kind : DiagnosticEventKind) (deltas : list DropDelta) : list DropDelta :=
  List.filter (fun d => bool_decide (kind = dd_event_kind d)) deltas.

Definition sum_of (f : DropDelta -> Z) (deltas : list DropDelta) : Z :=
  foldr (fun d n => f d + n) 0 deltas.

(** The counter of a kind after the given drops, and all the counters. *)
Definition counted (deltas : list DropDelta) (kind : DiagnosticEventKind) : DropCounter :=
  mkDropCounter (saturated (sum_of dd_events (of_kind kind deltas)))
    (saturated (sum_of dd_encoded_bytes (of_kind kind deltas))).

Definition ledger_counts (deltas : list DropDelta) : DropLedger :=
  map (counted deltas) DiagnosticEventKind_ALL.

Definition delta_sized (d : DropDelta) : Prop := 1 <= dd_events d /\ 0 <= dd_encoded_bytes d.

Lemma saturated_add x y : 0 <= x -> 0 <= y ->
  saturating_add Usize (saturated x) y = saturated (x + y).
Proof. unfold saturating_add, saturated. cbn. lia. Qed.

Lemma sum_of_app f l k : sum_of f (l ++ k) = sum_of f l + sum_of f k.
Proof. induction l as [|d l IH]; [done|]. cbn. fold (sum_of f (l ++ k)) (sum_of f l). lia. Qed.

Lemma sum_of_nonneg f l : (forall d, d ∈ l -> 0 <= f d) -> 0 <= sum_of f l.
Proof.
  induction l as [|d l IH]; cbn; [lia|]. fold (sum_of f l). intros H.
  assert (0 <= f d) by (apply H; left). assert (0 <= sum_of f l); [|lia].
  apply IH. intros x Hx. apply H. by right.
Qed.

Lemma of_kind_sized kind f l :
  (forall d, delta_sized d -> 0 <= f d) -> Forall delta_sized l -> 0 <= sum_of f (of_kind kind l).
Proof.
  intros Hf Hl. apply sum_of_nonneg. intros d [Hd _]%list_elem_of_In%List.filter_In.
  apply Hf. rewrite List.Forall_forall in Hl. by apply Hl.
Qed.

Lemma counted_snoc_other deltas d kind :
  kind <> dd_event_kind d -> counted (deltas ++ [d]) kind = counted deltas kind.
Proof.
  intros Hne. unfold counted, of_kind. rewrite List.filter_app. cbn.
  rewrite bool_decide_eq_false_2 by done. by rewrite app_nil_r.
Qed.

Lemma counted_snoc_same deltas d :
  Forall delta_sized deltas -> delta_sized d ->
  counted (deltas ++ [d]) (dd_event_kind d) = counter_record d (counted deltas (dd_event_kind d)).
Proof.
  intros Hl [He Hb]. unfold counted, counter_record. cbn [dc_events dc_encoded_bytes].
  rewrite !saturated_add; try lia; [|apply of_kind_sized; [intros ? []; lia|done]..].
  unfold of_kind. rewrite List.filter_app. cbn. rewrite bool_decide_eq_true_2 by done.
  rewrite !sum_of_app. cbn. by rewrite !Z.add_0_r.
Qed.

Lemma ledger_record_counts deltas d :
  Forall delta_sized deltas -> delta_sized d ->
  ledger_record (ledger_counts deltas) d = Some (ledger_counts (deltas ++ [d])).
Proof.
  intros Hl Hd. pose proof (counted_snoc_same _ _ Hl Hd) as Hs.
  pose proof (counted_snoc_other deltas d) as Ho.
  unfold ledger_record, ledger_counts. destruct (dd_event_kind d) eqn:Ek.
  all: cbn [position map DiagnosticEventKind_ALL].
  all: by rewrite Hs; repeat (rewrite Ho by discriminate).
Qed.

Lemma ledger_record_all_counts deltas ds :
  Forall delta_sized deltas -> Forall delta_sized ds ->
  ledger_record_all (ledger_counts deltas) ds = Some (ledger_counts (deltas ++ ds)).
Proof.
  intros Hl Hd. revert deltas Hl. induction Hd as [|d ds Hd Hds IH]; intros deltas Hl;
    cbn [ledger_record_all].
  - by rewrite app_nil_r.
  - rewrite ledger_record_counts by done. cbn [mbind option_bind]. rewrite IH.
    + by rewrite <-app_assoc.
    + apply Forall_app. by split; [|constructor].
Qed.

(** A ledger in which nothing was counted has seen no drop. *)
Lemma ledger_counts_zero deltas :
  Forall delta_sized deltas ->
  Forall (fun counter => dc_events counter = 0) (ledger_counts deltas) -> deltas = [].
Proof.
  intros Hl Hz. destruct deltas as [|d deltas]; [done|exfalso].
  apply Forall_cons in Hl as [[He _] Hl]. unfold ledger_counts in Hz.
  rewrite List.Forall_map, List.Forall_forall in Hz.
  specialize (Hz (dd_event_kind d) (proj1 (list_elem_of_In _ _) (enum_complete (dd_event_kind d)))).
  unfold counted, saturated, of_kind in Hz. cbn in Hz. rewrite bool_decide_eq_true_2 in Hz by done.
  cbn in Hz. fold (of_kind (dd_event_kind d) deltas) in Hz.
  assert (0 <= sum_of dd_events (of_kind (dd_event_kind d) deltas)).
  { apply of_kind_sized; [intros ? []; lia|done]. }
  fold (sum_of dd_events (of_kind (dd_event_kind d) deltas)) in Hz. lia.
Qed.

Lemma drop_delta_sized m : sized m -> delta_sized (drop_delta m).
Proof. unfold sized, delta_sized. cbn. lia. Qed.

(** ** The invariant *)

Section QueueSpec.
Context {T : Type}.
Context (rl : BudgetLimits) (dbg : bool).
Context (Hrl : limits_packable rl).
Implicit Types (q : SinkQueue (T:=T)) (st : QueueState (T:=T)) (dropped : list DropDelta).

Definition queue_deltas (l : list (StoredEvent (T:=T))) : list DropDelta :=
  map (fun s => drop_delta (se_metadata s)) l.

Record limits_ok (l : SinkQueueLimits) : Prop := {
  lok_total : limits_packable (sl_total l);
  lok_events : bl_max_events (sl_content l) <= bl_max_events (sl_total l);
  lok_bytes : bl_max_encoded_bytes (sl_content l) <= bl_max_encoded_bytes (sl_total l);
}.

(** The usages are the sums over what the queue holds: the queued events and
    the one whose callback runs. *)
Record state_ok (limits : SinkQueueLimits) st : Prop := {
  sok_total : qs_total_usage st = usage_add (stored_usage (qs_queued st)) (callback_usage st);
  sok_content :
    qs_content_usage st = usage_add (stored_usage (content_of (qs_queued st))) (callback_content st);
  sok_total_fits : fits_within (qs_total_usage st) (sl_total limits) = true;
  sok_content_fits : fits_within (qs_content_usage st) (sl_content limits) = true;
  sok_sized : all_sized (qs_queued st);
  sok_active a : qs_active_callback st = Some a -> sized (ac_metadata a);
  sok_terminal : qs_terminal_reason st <> None -> qs_queued st = [];
}.

(** The ledger counts exactly the events in [dropped]. *)
Record queue_ok dropped q : Prop := {
  qok_limits : limits_ok (sq_limits q);
  qok_state : state_ok (sq_limits q) (sq_state q);
  qok_drops : sq_drops q = ledger_counts dropped;
  qok_dropped : Forall delta_sized dropped;
}.

Definition owned q : BudgetUsage := qs_total_usage (sq_state q).

(** The runtime word covers what the queue owns. *)
Definition covers (runtime : Z) q : Prop := good_word rl runtime /\ usage_le (owned q) (unpack runtime).

(** What an operation leaves: a correct queue, and the runtime charged with
    exactly the difference of what the queue owns. *)
Record charged q (runtime : Z) dropped' q' (runtime' : Z) : Prop := {
  ch_queue : queue_ok dropped' q';
  ch_limits : sq_limits q' = sq_limits q;
  ch_word : good_word rl runtime';
  ch_usage : unpack runtime' = usage_add (usage_sub (unpack runtime) (owned q)) (owned q');
}.

Lemma queue_deltas_sized l : all_sized l -> Forall delta_sized (queue_deltas l).
Proof. induction 1; constructor; [by apply drop_delta_sized|done]. Qed.

Lemma callback_sizes limits st :
  state_ok limits st -> usage_nonneg (callback_usage st) /\ usage_nonneg (callback_content st).
Proof.
  intros Hs. unfold callback_usage, callback_content, usage_nonneg.
  destruct (qs_active_callback st) as [a|] eqn:E; [|cbn; lia].
  apply (sok_active _ _ Hs) in E. unfold sized in E. destruct (is_content _); cbn; lia.
Qed.

Lemma queued_owned dropped q :
  queue_ok dropped q ->
  usage_nonneg (stored_usage (qs_queued (sq_state q))) /\
  usage_le (stored_usage (qs_queued (sq_state q))) (owned q) /\ usage_word (owned q).
Proof.
  intros [Hlim Hs _ _]. pose proof (stored_usage_nonneg _ (sok_sized _ _ Hs)) as Hn.
  destruct (callback_sizes _ _ Hs) as [Hc _].
  pose proof (sok_total_fits _ _ Hs) as Hf%fits_within_true.
  pose proof (lok_total _ Hlim) as Ht%limits_packable_iff.
  split; [done|]. unfold owned. rewrite (sok_total _ _ Hs) in *. usage_solve.
Qed.

(** Replacing the drops of a queue whose state stays. *)
Definition with_drops q dropped : SinkQueue :=
  mkSinkQueue (sq_limits q) (sq_state q) (ledger_counts dropped).

Lemma record_drops_ok dropped q st deltas :
  sq_drops q = ledger_counts dropped -> Forall delta_sized dropped -> Forall delta_sized deltas ->
  record_drops (set_state q st) deltas =
  Some (mkSinkQueue (sq_limits q) st (ledger_counts (dropped ++ deltas))).
Proof.
  intros Hd Hs Hds. unfold record_drops. cbn [set_state sq_drops]. rewrite Hd.
  by rewrite ledger_record_all_counts.
Qed.

Lemma record_drop_ok dropped q d :
  sq_drops q = ledger_counts dropped -> Forall delta_sized dropped -> delta_sized d ->
  record_drop q d = Some (with_drops q (dropped ++ [d])).
Proof.
  intros Hd Hs Hds. unfold record_drop. rewrite Hd. by rewrite ledger_record_counts.
Qed.

Lemma with_drops_charged dropped dropped' q runtime :
  queue_ok dropped q -> covers runtime q -> Forall delta_sized dropped' ->
  charged q runtime dropped' (with_drops q dropped') runtime.
Proof.
  intros [] [Hw Hle] Hd. split; [by split|done|done|].
  change (owned (with_drops q dropped')) with (owned q). apply usage_ext; usage_solve.
Qed.

Lemma drop_incoming_ok dropped q runtime reason m :
  queue_ok dropped q -> covers runtime q -> sized m ->
  drop_incoming q runtime reason (drop_delta m) =
    Some (with_drops q (dropped ++ [drop_delta m]), runtime, Dropped reason (drop_delta m)) /\
  charged q runtime (dropped ++ [drop_delta m]) (with_drops q (dropped ++ [drop_delta m])) runtime.
Proof.
  intros Hq Hc Hm. pose proof (drop_delta_sized _ Hm) as Hd. unfold drop_incoming.
  rewrite (record_drop_ok dropped) by (done || apply Hq). split; [done|].
  eapply with_drops_charged; [done..|]. apply Forall_app. split; [apply Hq|by constructor].
Qed.

(** *** Discarding *)

(** The state a discard leaves: only the running callback is still charged. *)
Definition discarded st : QueueState (T:=T) :=
  mkQueueState [] (qs_active_callback st) (callback_usage st) (callback_content st)
    (qs_terminal_reason st) (qs_next_ticket st).

Lemma zero_packable : is_Some (pack BudgetUsage_ZERO).
Proof. by eexists. Qed.

Lemma release_ok released runtime :
  good_word rl runtime -> usage_nonneg released -> usage_le released (unpack runtime) ->
  exists runtime', try_replace rl runtime released BudgetUsage_ZERO =
      (runtime', Ok (usage_sub (unpack runtime) released)) /\
    good_word rl runtime' /\ unpack runtime' = usage_sub (unpack runtime) released.
Proof.
  intros Hw Hn Hle.
  pose proof (try_replace_spec rl released _ runtime Hrl Hw Hn Hle zero_packable) as H.
  cbv zeta in H.
  replace (usage_add (usage_sub (unpack runtime) released) BudgetUsage_ZERO)
    with (usage_sub (unpack runtime) released) in H by (apply usage_ext; cbn; lia).
  destruct (fits_within _ rl) eqn:Ef; [done|].
  destruct Hw as [_ Hf%fits_within_true].
  assert (fits_within (usage_sub (unpack runtime) released) rl = true); [|congruence].
  apply fits_within_true. usage_solve.
Qed.

Lemma discarded_ok limits st :
  limits_ok limits -> state_ok limits st -> state_ok limits (discarded st).
Proof.
  intros Hlim Hs. destruct (callback_sizes _ _ Hs) as [Hc Hcc].
  pose proof (stored_usage_nonneg _ (sok_sized _ _ Hs)) as Hn.
  pose proof (stored_usage_nonneg _ (all_sized_content _ (sok_sized _ _ Hs))) as Hnc.
  pose proof (sok_total_fits _ _ Hs) as Hf%fits_within_true.
  pose proof (sok_content_fits _ _ Hs) as Hfc%fits_within_true.
  rewrite (sok_total _ _ Hs) in Hf. rewrite (sok_content _ _ Hs) in Hfc.
  split; cbn [discarded qs_queued qs_total_usage qs_content_usage qs_active_callback
              qs_terminal_reason content_of List.filter stored_usage foldr].
  - apply usage_ext; cbn; by rewrite ?Z.add_0_l.
  - apply usage_ext; cbn; by rewrite ?Z.add_0_l.
  - apply fits_within_true. usage_solve.
  - apply fits_within_true. usage_solve.
  - constructor.
  - apply Hs.
  - done.
Qed.

Lemma discard_ok dropped q runtime :
  queue_ok dropped q -> covers runtime q ->
  let deltas := queue_deltas (qs_queued (sq_state q)) in
  let q' := mkSinkQueue (sq_limits q) (discarded (sq_state q)) (ledger_counts (dropped ++ deltas)) in
  exists runtime', discard_queued_locked rl q runtime = Some (q', runtime', Ok deltas) /\
    charged q runtime (dropped ++ deltas) q' runtime'.
Proof.
  intros Hq [Hw Hle]. cbv zeta. destruct (queued_owned _ _ Hq) as (Hn & Hle' & Hwd).
  destruct Hq as [Hlim Hs Hd Hds]. destruct (callback_sizes _ _ Hs) as [Hc _].
  pose proof (queue_deltas_sized _ (sok_sized _ _ Hs)) as Hqd.
  unfold discard_queued_locked.
  assert (usage_checked_sub (qs_total_usage (sq_state q)) (callback_usage (sq_state q)) =
    Some (stored_usage (qs_queued (sq_state q)))) as ->.
  { apply usage_checked_sub_spec; [done|done|]. rewrite (sok_total _ _ Hs).
    split; [apply usage_ext; cbn; lia|]. usage_solve. }
  destruct (release_ok _ _ Hw Hn) as (runtime' & -> & Hw' & Hu); [usage_solve|].
  rewrite (record_drops_ok dropped) by done. eexists. split; [done|].
  split; cbn; [|done|done|].
  - split; cbn; [done|by apply discarded_ok|done|]. by apply Forall_app.
  - rewrite Hu. unfold owned. cbn. rewrite (sok_total _ _ Hs). apply usage_ext; cbn; lia.
Qed.

Lemma set_terminal_ok limits st :
  state_ok limits st -> qs_queued st = [] -> state_ok limits (set_terminal st).
Proof. intros [] Hq. by split. Qed.

Lemma terminalize_ok dropped q runtime event :
  queue_ok dropped q -> covers runtime q -> sized (qe_metadata event) ->
  let deltas := queue_deltas (qs_queued (sq_state q)) ++ [drop_delta (qe_metadata event)] in
  let q' := mkSinkQueue (sq_limits q) (set_terminal (discarded (sq_state q)))
              (ledger_counts (dropped ++ deltas)) in
  exists runtime', terminalize_locked rl q runtime event = Some (q', runtime', Terminalized deltas) /\
    charged q runtime (dropped ++ deltas) q' runtime'.
Proof.
  intros Hq Hc Hm. cbv zeta. unfold terminalize_locked.
  destruct (discard_ok _ _ _ Hq Hc) as (runtime' & -> & [Hq' Hlim' Hw' Hu']).
  cbn [mbind option_bind].
  rewrite (record_drop_ok (dropped ++ queue_deltas (qs_queued (sq_state q))))
    by (apply Hq' || by apply drop_delta_sized).
  cbn. exists runtime'. rewrite app_assoc. split; [done|].
  split; cbn; [|done|done|done]. split; cbn; [apply Hq| |done|].
  - apply set_terminal_ok; [|done]. apply discarded_ok; apply Hq.
  - apply Forall_app. split; [apply Hq'|]. constructor; [by apply drop_delta_sized|constructor].
Qed.

(** *** Admission *)

(** Whether the event fits once [evicted] has left: in the limits of the sink,
    and in those of the runtime. *)
Definition next_total q (m : EventMetadata) (evicted : list StoredEvent) : BudgetUsage :=
  usage_add (usage_sub (owned q) (stored_usage (T:=T) evicted)) (metadata_usage m).

Definition next_content q (m : EventMetadata) (evicted : list StoredEvent) : BudgetUsage :=
  usage_add (usage_sub (qs_content_usage (sq_state q)) (stored_usage (T:=T) evicted))
    (incoming_content m).

Definition local_fits q (m : EventMetadata) (evicted : list StoredEvent) : bool :=
  fits_within (next_total q m evicted) (sl_total (sq_limits q)) &&
  fits_within (next_content q m evicted) (sl_content (sq_limits q)).

Definition runtime_fits (m : EventMetadata) (runtime : Z) (evicted : list StoredEvent) : bool :=
  fits_within (usage_add (usage_sub (unpack runtime) (stored_usage (T:=T) evicted)) (metadata_usage m))
    rl.

Definition contents q : list StoredEvent := content_of (qs_queued (sq_state q)).

(** The content events a cursor has passed. *)
Definition passed q (cursor : nat) : list StoredEvent :=
  content_of (take cursor (qs_queued (sq_state q))).

(** Whether the sink had room for the event for some number of victims below
    [n]: then it is the runtime that refused it. *)
Definition room_before q (m : EventMetadata) (n : nat) : bool :=
  existsb (fun k => local_fits q m (take k (contents q))) (seq 0 n).

Record plan_ok q (m : EventMetadata) (plan : Plan) : Prop := {
  pok_victims :
    p_victims plan = victims_from 0 (take (p_victim_cursor plan) (qs_queued (sq_state q)));
  pok_released : p_released plan = stored_usage (passed q (p_victim_cursor plan));
  pok_released_content : p_released_content plan = p_released plan;
  pok_cursor : (p_victim_cursor plan <= length (qs_queued (sq_state q)))%nat;
  pok_failed : p_runtime_capacity_failed plan =
    room_before q m (length (passed q (p_victim_cursor plan)));
}.

Lemma passed_take q c : passed q c = take (length (passed q c)) (contents q).
Proof.
  unfold contents, passed. rewrite <-(take_drop c (qs_queued (sq_state q))) at 3.
  by rewrite content_of_app, take_app_length.
Qed.

(** What has been passed is part of what the queue owns, in total and as
    content. *)
Lemma passed_owned dropped q c :
  queue_ok dropped q ->
  usage_nonneg (stored_usage (passed q c)) /\ usage_le (stored_usage (passed q c)) (owned q) /\
  usage_le (stored_usage (passed q c)) (qs_content_usage (sq_state q)).
Proof.
  intros Hq. destruct (queued_owned _ _ Hq) as (_ & Hle & _).
  pose proof (sok_sized _ _ (qok_state _ _ Hq)) as Hz.
  destruct (callback_sizes _ _ (qok_state _ _ Hq)) as [_ Hc].
  rewrite (sok_content _ _ (qok_state _ _ Hq)).
  rewrite <-(take_drop c (qs_queued (sq_state q))) in Hz, Hle |- *.
  apply all_sized_app in Hz as [Hz1 Hz2].
  rewrite content_of_app, stored_usage_app in *. fold (passed q c).
  rewrite (stored_usage_split (take c _)) in Hle. fold (passed q c) in Hle.
  pose proof (stored_usage_nonneg _ (all_sized_content _ Hz1)) as H1. fold (passed q c) in H1.
  pose proof (stored_usage_nonneg _ (all_sized_structural _ Hz1)) as H2.
  pose proof (stored_usage_nonneg _ Hz2) as H3.
  pose proof (stored_usage_nonneg _ (all_sized_content _ Hz2)) as H4.
  split; [done|]. split; usage_solve.
Qed.

Lemma content_word dropped q :
  queue_ok dropped q -> usage_word (qs_content_usage (sq_state q)).
Proof.
  intros Hq. pose proof (passed_owned _ _ 0 Hq) as (Hn & _ & H).
  pose proof (sok_content_fits _ _ (qok_state _ _ Hq)) as Hf%fits_within_true.
  pose proof (lok_total _ (qok_limits _ _ Hq)) as Ht%limits_packable_iff.
  destruct (qok_limits _ _ Hq) as [_ He Hb].
  usage_solve.
Qed.

Lemma next_usage_some current released incoming limits :
  usage_word current -> usage_nonneg released -> usage_le released current ->
  usage_nonneg incoming -> bl_max_events limits < 2 ^ 32 -> bl_max_encoded_bytes limits < 2 ^ 32 ->
  let u := usage_add (usage_sub current released) incoming in
  if fits_within u limits then next_usage current released incoming = Some u
  else forall v, next_usage current released incoming = Some v -> fits_within v limits = false.
Proof.
  intros Hc Hr Hle Hi He Hb u. unfold next_usage.
  rewrite (proj2 (usage_checked_sub_spec _ _ (usage_sub current released) Hc Hr)) by done.
  cbn [mbind option_bind].
  assert (usage_nonneg (usage_sub current released)) as Hs by usage_solve.
  destruct (fits_within u limits) eqn:E.
  - apply usage_checked_add_spec; [done..|]. split; [done|].
    apply fits_within_true in E. subst u. usage_solve.
  - intros v Hv. apply usage_checked_add_spec in Hv as [-> _]; done.
Qed.

Lemma incoming_nonneg m : sized m ->
  usage_nonneg (metadata_usage m) /\ usage_nonneg (incoming_content m).
Proof.
  unfold sized, usage_nonneg, incoming_content. intros. destruct (em_class m); cbn; lia.
Qed.

(** The tests of an iteration are the reference's. *)
Lemma admit_iteration_cases dropped q m plan runtime :
  queue_ok dropped q -> covers runtime q -> sized m -> plan_ok q m plan ->
  let evicted := passed q (p_victim_cursor plan) in
  (local_fits q m evicted && runtime_fits m runtime evicted = true /\
   exists runtime', admit_iteration rl dbg q m plan runtime =
      Some (runtime', Break (next_total q m evicted) (next_content q m evicted)) /\
    good_word rl runtime' /\
    unpack runtime' =
      usage_add (usage_sub (unpack runtime) (stored_usage evicted)) (metadata_usage m)) \/
  (local_fits q m evicted && runtime_fits m runtime evicted = false /\
   admit_iteration rl dbg q m plan runtime =
     (it ← plan_victim (qs_queued (sq_state q)) plan
        (p_runtime_capacity_failed plan || local_fits q m evicted); Some (runtime, it))).
Proof.
  intros Hq [Hw Hcov] Hm Hp evicted. destruct (passed_owned _ _ (p_victim_cursor plan) Hq)
    as (Hn & Hle & Hlec). destruct (queued_owned _ _ Hq) as (_ & _ & Hwd).
  pose proof (content_word _ _ Hq) as Hwc. destruct (incoming_nonneg _ Hm) as [Hi Hic].
  pose proof (lok_total _ (qok_limits _ _ Hq)) as Hlt%limits_packable_iff.
  destruct (qok_limits _ _ Hq) as [_ Hle1 Hle2].
  pose proof (next_usage_some _ _ _ (sl_total (sq_limits q)) Hwd Hn Hle Hi) as Ht.
  pose proof (next_usage_some _ _ _ (sl_content (sq_limits q)) Hwc Hn Hlec Hic) as Hc.
  unfold admit_iteration. rewrite (pok_released_content _ _ _ Hp), (pok_released _ _ _ Hp).
  fold evicted in Hn, Hle, Hlec, Ht, Hc |- *. fold (owned q) in *.
  specialize (Ht ltac:(lia) ltac:(lia)). specialize (Hc ltac:(lia) ltac:(lia)).
  fold (next_total q m evicted) in Ht. fold (next_content q m evicted) in Hc.
  cbv zeta in Ht, Hc. unfold local_fits.
  destruct (fits_within (next_total q m evicted) _) eqn:Et;
    [destruct (fits_within (next_content q m evicted) _) eqn:Ec|]; cbn [andb].
  - rewrite Ht, Hc, Et, Ec. cbn [andb].
    assert (is_Some (pack (metadata_usage m))) as Hpk.
    { eexists. apply pack_some. apply fits_within_true in Et. unfold next_total in Et.
      split; [|split; [|reflexivity]]; usage_solve. }
    assert (usage_le (stored_usage evicted) (unpack runtime)) as Hler by usage_solve.
    pose proof (try_replace_spec rl _ _ runtime Hrl Hw Hn Hler Hpk) as Hr. cbv zeta in Hr.
    unfold runtime_fits. destruct (fits_within _ rl).
    + destruct Hr as (runtime' & -> & Hw' & Hu). left. split; [done|]. eauto.
    + rewrite Hr, orb_true_r. by right.
  - right. split; [done|]. rewrite orb_false_r.
    rewrite Ht. destruct (next_usage (qs_content_usage _) _ _) as [v|] eqn:Ev; [|done].
    by rewrite (Hc _ eq_refl), andb_false_r.
  - right. split; [done|]. rewrite orb_false_r.
    destruct (next_usage (owned q) _ _) as [u|] eqn:Eu; [|done].
    destruct (next_usage (qs_content_usage _) _ _) as [v|] eqn:Ev; [|done].
    by rewrite (Ht _ eq_refl).
Qed.

Lemma stored_usage_snoc l (x : StoredEvent (T:=T)) :
  stored_usage (l ++ [x]) = usage_add (stored_usage l) (metadata_usage (se_metadata x)).
Proof. rewrite stored_usage_app. apply usage_ext; cbn; lia. Qed.

(** The plan either runs out of content events or takes the next one. *)
Lemma plan_victim_cases dropped q m plan :
  queue_ok dropped q -> plan_ok q m plan ->
  let evicted := passed q (p_victim_cursor plan) in
  let failed := p_runtime_capacity_failed plan || local_fits q m evicted in
  (evicted = contents q /\
   plan_victim (qs_queued (sq_state q)) plan failed =
     Some (NoVictim (room_before q m (S (length (contents q)))))) \/
  (exists plan' s, plan_victim (qs_queued (sq_state q)) plan failed = Some (Continue plan') /\
    plan_ok q m plan' /\ passed q (p_victim_cursor plan') = evicted ++ [s] /\
    (p_victim_cursor plan < p_victim_cursor plan')%nat).
Proof.
  intros Hq Hp evicted failed.
  assert (failed = room_before q m (S (length evicted))) as Hfail.
  { unfold failed, room_before. rewrite seq_S, existsb_app, (pok_failed _ _ _ Hp). cbn.
    rewrite orb_false_r. unfold evicted. by rewrite <-passed_take. }
  unfold plan_victim. destruct (next_victim _ _) as [v|] eqn:Ev; [right|left].
  - apply next_victim_some in Ev as (s & Hs & Hv & Hle & Hc & Hvs).
    fold (passed q (S (v_index v))) (passed q (p_victim_cursor plan)) in Hc.
    fold evicted in Hc. destruct (passed_owned _ _ (S (v_index v)) Hq) as (_ & Hle' & _).
    destruct (queued_owned _ _ Hq) as (_ & _ & Hwd).
    destruct (passed_owned _ _ (p_victim_cursor plan) Hq) as (Hn & _ & _).
    pose proof (sok_sized _ _ (qok_state _ _ Hq)) as Hz. rewrite Hc, stored_usage_snoc in Hle'.
    assert (sized (se_metadata s)) as Hsz by (eapply Forall_lookup_1 in Hz; eauto).
    pose proof (proj1 (incoming_nonneg _ Hsz)) as Hi.
    rewrite (pok_released_content _ _ _ Hp), (pok_released _ _ _ Hp), Hv. fold evicted in Hn |- *.
    cbn [v_metadata v_index]. fold evicted in Hn.
    assert (usage_checked_add (stored_usage evicted) (metadata_usage (se_metadata s)) =
      Some (usage_add (stored_usage evicted) (metadata_usage (se_metadata s)))) as ->.
    { apply usage_checked_add_spec; [done..|]. split; [done|]. usage_solve. }
    cbn [mbind option_bind]. eexists _, s. split; [done|]. cbn [p_victim_cursor].
    split; [|split; [done|lia]].
    split; cbn [p_victims p_released p_released_content p_victim_cursor p_runtime_capacity_failed];
      [| |done| |].
    + by rewrite Hvs, (pok_victims _ _ _ Hp), <-Hv.
    + rewrite Hc. by rewrite stored_usage_snoc.
    + by apply lookup_lt_Some in Hs.
    + rewrite Hfail, Hc, length_app. cbn. by rewrite Nat.add_1_r.
  - apply next_victim_none in Ev. assert (evicted = contents q) as He.
    { unfold evicted, contents, passed.
      rewrite <-(take_drop (p_victim_cursor plan) (qs_queued (sq_state q))) at 2.
      by rewrite content_of_app, Ev, app_nil_r. }
    split; [done|]. by rewrite Hfail, He.
Qed.

(** The queue after the event has taken the place of the passed content. *)
Definition enqueued dropped q (event : QueueEvent) (cursor : nat) : SinkQueue :=
  let st := sq_state q in
  let evicted := passed q cursor in
  mkSinkQueue (sq_limits q)
    (mkQueueState
       ((evict (length evicted) (qs_queued st)).2 ++
          [mkStoredEvent (qe_item event) (qe_metadata event)])
       (qs_active_callback st) (next_total q (qe_metadata event) evicted)
       (next_content q (qe_metadata event) evicted) (qs_terminal_reason st) (qs_next_ticket st))
    (ledger_counts (dropped ++ queue_deltas evicted)).

Lemma incoming_content_stored (x : StoredEvent (T:=T)) :
  stored_usage (content_of [x]) = incoming_content (se_metadata x).
Proof.
  unfold incoming_content, content_of, is_content. cbn [List.filter].
  destruct (em_class (se_metadata x)); [rewrite bool_decide_eq_true_2 by done|done].
  apply usage_ext; cbn; lia.
Qed.

Lemma enqueued_ok dropped q event cursor :
  queue_ok dropped q -> sized (qe_metadata event) -> qs_terminal_reason (sq_state q) = None ->
  local_fits q (qe_metadata event) (passed q cursor) = true ->
  queue_ok (dropped ++ queue_deltas (passed q cursor)) (enqueued dropped q event cursor).
Proof.
  intros Hq Hm Hterm Hfit. pose proof (sok_sized _ _ (qok_state _ _ Hq)) as Hz.
  unfold local_fits in Hfit. bool_hyps.
  rewrite <-(take_drop cursor (qs_queued (sq_state q))) in Hz.
  apply all_sized_app in Hz as [Hz1 Hz2].
  split; [apply Hq| |done|apply Forall_app; split; [apply Hq|]].
  2: { apply queue_deltas_sized. by apply all_sized_content. }
  unfold enqueued. cbv zeta. unfold passed. rewrite evict_prefix. fold (passed q cursor).
  split; cbn [sq_state sq_limits qs_queued qs_total_usage qs_content_usage snd]; try done.
  - unfold next_total, owned. rewrite (sok_total _ _ (qok_state _ _ Hq)).
    rewrite <-(take_drop cursor (qs_queued (sq_state q))) at 1.
    rewrite stored_usage_snoc, !stored_usage_app, (stored_usage_split (take cursor _)).
    fold (passed q cursor). apply usage_ext; cbn; unfold callback_usage; cbn; lia.
  - unfold next_content. rewrite (sok_content _ _ (qok_state _ _ Hq)).
    rewrite <-(take_drop cursor (qs_queued (sq_state q))) at 1.
    rewrite !content_of_app, content_of_structural, !stored_usage_app, incoming_content_stored.
    fold (passed q cursor). apply usage_ext; cbn; unfold callback_content; cbn; lia.
  - rewrite !all_sized_app. split; [split; [by apply all_sized_structural|done]|].
    by constructor; [|constructor].
  - apply (qok_state _ _ Hq).
Qed.

Lemma enqueue_enqueued dropped q event plan total content :
  queue_ok dropped q -> plan_ok q (qe_metadata event) plan ->
  total = next_total q (qe_metadata event) (passed q (p_victim_cursor plan)) ->
  content = next_content q (qe_metadata event) (passed q (p_victim_cursor plan)) ->
  enqueue dbg q event plan total content =
  Some (enqueued dropped q event (p_victim_cursor plan),
        Enqueued (queue_deltas (passed q (p_victim_cursor plan)))).
Proof.
  intros Hq Hp -> ->. unfold enqueue. rewrite (pok_victims _ _ _ Hp), remove_victims_prefix.
  cbn [mbind option_bind]. rewrite victims_from_deltas.
  rewrite (record_drops_ok dropped); [|apply Hq|apply Hq|].
  - cbn. unfold enqueued, passed. by rewrite evict_prefix.
  - apply queue_deltas_sized, all_sized_content.
    pose proof (sok_sized _ _ (qok_state _ _ Hq)) as Hz.
    rewrite <-(take_drop (p_victim_cursor plan) (qs_queued (sq_state q))) in Hz.
    by apply all_sized_app in Hz as [? _].
Qed.

(** What one iteration, with the rest of the function when it ends, does. *)
Inductive admit_case dropped q (event : QueueEvent) (plan : Plan) (runtime : Z)
    : option (SinkQueue (T:=T) * Z * Progress) -> Prop :=
| case_enqueued runtime' :
    let evicted := passed q (p_victim_cursor plan) in
    local_fits q (qe_metadata event) evicted && runtime_fits (qe_metadata event) runtime evicted
      = true ->
    charged q runtime (dropped ++ queue_deltas evicted)
      (enqueued dropped q event (p_victim_cursor plan)) runtime' ->
    admit_case dropped q event plan runtime
      (Some (enqueued dropped q event (p_victim_cursor plan), runtime',
             Done (Enqueued (queue_deltas evicted))))
| case_next plan' s :
    let evicted := passed q (p_victim_cursor plan) in
    local_fits q (qe_metadata event) evicted && runtime_fits (qe_metadata event) runtime evicted
      = false ->
    plan_ok q (qe_metadata event) plan' -> passed q (p_victim_cursor plan') = evicted ++ [s] ->
    (p_victim_cursor plan < p_victim_cursor plan')%nat ->
    admit_case dropped q event plan runtime (Some (q, runtime, Next plan'))
| case_dropped :
    let delta := drop_delta (qe_metadata event) in
    passed q (p_victim_cursor plan) = contents q ->
    local_fits q (qe_metadata event) (contents q) && runtime_fits (qe_metadata event) runtime (contents q)
      = false ->
    em_class (qe_metadata event) = Content ->
    charged q runtime (dropped ++ [delta]) (with_drops q (dropped ++ [delta])) runtime ->
    admit_case dropped q event plan runtime
      (Some (with_drops q (dropped ++ [delta]), runtime,
             Done (Dropped (if room_before q (qe_metadata event) (S (length (contents q)))
                            then RuntimeCapacity else SinkCapacity) delta)))
| case_terminalized runtime' :
    let deltas := queue_deltas (qs_queued (sq_state q)) ++ [drop_delta (qe_metadata event)] in
    let q' := mkSinkQueue (sq_limits q) (set_terminal (discarded (sq_state q)))
                (ledger_counts (dropped ++ deltas)) in
    passed q (p_victim_cursor plan) = contents q ->
    local_fits q (qe_metadata event) (contents q) && runtime_fits (qe_metadata event) runtime (contents q)
      = false ->
    em_class (qe_metadata event) = Structural ->
    charged q runtime (dropped ++ deltas) q' runtime' ->
    admit_case dropped q event plan runtime (Some (q', runtime', Done (Terminalized deltas))).

Lemma admit_step_cases dropped q event plan runtime :
  queue_ok dropped q -> covers runtime q -> sized (qe_metadata event) ->
  plan_ok q (qe_metadata event) plan -> qs_terminal_reason (sq_state q) = None ->
  admit_case dropped q event plan runtime (admit_step rl dbg q event plan runtime).
Proof.
  intros Hq Hc Hm Hp Hterm. unfold admit_step.
  destruct (admit_iteration_cases _ _ _ _ _ Hq Hc Hm Hp)
    as [(Hfit & runtime' & -> & Hw & Hu)|(Hno & ->)]; cbn [mbind option_bind].
  - rewrite (enqueue_enqueued dropped) by done. cbn [fst snd].
    apply case_enqueued; [done|]. apply andb_prop in Hfit as [Hfit _].
    split; [by apply enqueued_ok|done|done|].
    rewrite Hu. unfold owned at 2. cbn. unfold next_total.
    destruct Hc as [_ Hle]. apply usage_ext; cbn; lia.
  - destruct (plan_victim_cases _ _ _ _ Hq Hp) as [(He & Hv)|(plan' & s & Hv & Hp' & Hs & Hlt)];
      cbv zeta in Hv; rewrite Hv; cbn [mbind option_bind].
    + rewrite He in Hno. destruct (em_class (qe_metadata event)) eqn:Ec.
      * destruct (drop_incoming_ok dropped q runtime
          (if room_before q (qe_metadata event) (S (length (contents q)))
           then RuntimeCapacity else SinkCapacity) _ Hq Hc Hm) as [-> Hch].
        cbn [mbind option_bind fst snd]. by apply case_dropped.
      * destruct (terminalize_ok _ _ _ _ Hq Hc Hm) as (runtime' & -> & Hch).
        cbn [mbind option_bind fst snd]. by apply case_terminalized.
    + by eapply case_next.
Qed.

Lemma plan_new_ok q m : plan_ok q m Plan_new.
Proof. by split; cbn; [| | |lia|]. Qed.

Lemma plan_victims_bound q m plan :
  plan_ok q m plan -> (length (passed q (p_victim_cursor plan)) <= length (contents q))%nat.
Proof. intros _. rewrite passed_take, length_take. lia. Qed.

(** *** The whole call *)

(** The event fits once the [n] oldest content events have left. *)
Definition fits_after q (m : EventMetadata) (runtime : Z) (n : nat) : bool :=
  local_fits q m (take n (contents q)) && runtime_fits m runtime (take n (contents q)).

(** The reference: what the loop ends with, without interference. *)
Inductive admit_spec dropped q (event : QueueEvent) (runtime : Z)
    : option (SinkQueue (T:=T) * Z * AdmissionOutcome) -> Prop :=
| spec_enqueued n cursor runtime' :
    let evicted := take n (contents q) in
    (n <= length (contents q))%nat ->
    fits_after q (qe_metadata event) runtime n = true ->
    (forall k, (k < n)%nat -> fits_after q (qe_metadata event) runtime k = false) ->
    passed q cursor = evicted ->
    charged q runtime (dropped ++ queue_deltas evicted) (enqueued dropped q event cursor) runtime' ->
    admit_spec dropped q event runtime
      (Some (enqueued dropped q event cursor, runtime', Enqueued (queue_deltas evicted)))
| spec_dropped :
    let delta := drop_delta (qe_metadata event) in
    (forall k, (k <= length (contents q))%nat -> fits_after q (qe_metadata event) runtime k = false) ->
    em_class (qe_metadata event) = Content ->
    charged q runtime (dropped ++ [delta]) (with_drops q (dropped ++ [delta])) runtime ->
    admit_spec dropped q event runtime
      (Some (with_drops q (dropped ++ [delta]), runtime,
             Dropped (if room_before q (qe_metadata event) (S (length (contents q)))
                      then RuntimeCapacity else SinkCapacity) delta))
| spec_terminalized runtime' :
    let deltas := queue_deltas (qs_queued (sq_state q)) ++ [drop_delta (qe_metadata event)] in
    let q' := mkSinkQueue (sq_limits q) (set_terminal (discarded (sq_state q)))
                (ledger_counts (dropped ++ deltas)) in
    (forall k, (k <= length (contents q))%nat -> fits_after q (qe_metadata event) runtime k = false) ->
    em_class (qe_metadata event) = Structural ->
    charged q runtime (dropped ++ deltas) q' runtime' ->
    admit_spec dropped q event runtime (Some (q', runtime', Terminalized deltas)).

Lemma admit_loop_spec dropped q event plan runtime fuel :
  queue_ok dropped q -> covers runtime q -> sized (qe_metadata event) ->
  plan_ok q (qe_metadata event) plan -> qs_terminal_reason (sq_state q) = None ->
  (length (qs_queued (sq_state q)) < fuel + p_victim_cursor plan)%nat ->
  (forall k, (k < length (passed q (p_victim_cursor plan)))%nat ->
     fits_after q (qe_metadata event) runtime k = false) ->
  admit_spec dropped q event runtime (admit_loop rl dbg fuel q event plan runtime).
Proof.
  intros Hq Hc Hm. revert plan. induction fuel as [|fuel IH]; intros plan Hp Hterm Hfuel Hbefore.
  { pose proof (pok_cursor _ _ _ Hp). lia. }
  assert (forall b, local_fits q (qe_metadata event) (passed q (p_victim_cursor plan)) &&
      runtime_fits (qe_metadata event) runtime (passed q (p_victim_cursor plan)) = b ->
    fits_after q (qe_metadata event) runtime (length (passed q (p_victim_cursor plan))) = b) as Hnow.
  { intros b. unfold fits_after. by rewrite <-passed_take. }
  assert (forall k, fits_after q (qe_metadata event) runtime
      (length (passed q (p_victim_cursor plan))) = false ->
    (k <= length (passed q (p_victim_cursor plan)))%nat ->
    fits_after q (qe_metadata event) runtime k = false) as Hupto.
  { intros k H Hk. destruct (decide (k = length (passed q (p_victim_cursor plan)))) as [->|];
      [done|]. apply Hbefore. lia. }
  cbn [admit_loop]. destruct (admit_step_cases _ _ _ _ _ Hq Hc Hm Hp Hterm)
    as [runtime' evicted Hfit Hch|plan' s evicted Hno Hp' Hs Hlt|delta He Hno Hcl Hch
       |runtime' deltas q' He Hno Hcl Hch]; cbn [mbind option_bind].
  - subst evicted. rewrite (passed_take q (p_victim_cursor plan)).
    apply spec_enqueued; [by eapply plan_victims_bound|by apply Hnow|done|apply passed_take|].
    by rewrite <-passed_take.
  - apply IH; [done..|lia|]. intros k Hk. apply Hupto; [by apply Hnow|].
    rewrite Hs, length_app in Hk. cbn in Hk. subst evicted. lia.
  - apply spec_dropped; [|done..]. intros k Hk. rewrite <-He in Hno, Hk. auto.
  - apply spec_terminalized; [|done..]. intros k Hk. rewrite <-He in Hno, Hk. auto.
Qed.

Lemma take_owned dropped q k :
  queue_ok dropped q ->
  usage_le (stored_usage (take k (contents q))) (owned q) /\
  usage_le (stored_usage (take k (contents q))) (qs_content_usage (sq_state q)).
Proof.
  intros Hq. assert (passed q (length (qs_queued (sq_state q))) = contents q) as Hall.
  { unfold passed. by rewrite firstn_all. }
  destruct (passed_owned _ _ (length (qs_queued (sq_state q))) Hq) as (_ & H1 & H2).
  rewrite Hall in H1, H2. pose proof (all_sized_content _ (sok_sized _ _ (qok_state _ _ Hq))) as Hz.
  fold (contents q) in Hz. rewrite <-(take_drop k (contents q)) in Hz, H1, H2.
  apply all_sized_app in Hz as [_ Hz]. apply stored_usage_nonneg in Hz.
  rewrite stored_usage_app in H1, H2. split; usage_solve.
Qed.

(** An event that is too large on its own never fits. *)
Lemma single_event_too_large dropped q m k :
  queue_ok dropped q -> single_event_fits q m = false ->
  local_fits q m (take k (contents q)) = false.
Proof.
  intros Hq Hs. destruct (take_owned _ _ k Hq) as [Ht Hc].
  apply not_true_iff_false. intros Hf. unfold local_fits in Hf.
  apply andb_prop in Hf as [H1%fits_within_true H2%fits_within_true].
  apply not_true_iff_false in Hs. apply Hs. unfold single_event_fits.
  unfold next_total, next_content, incoming_content in *.
  destruct (em_class m); apply fits_within_true; usage_solve.
Qed.

Lemma room_before_none dropped q m n :
  queue_ok dropped q -> single_event_fits q m = false -> room_before q m n = false.
Proof.
  intros Hq Hs. apply not_true_iff_false. intros (k & _ & Hk)%List.existsb_exists.
  by rewrite (single_event_too_large _ _ _ _ Hq Hs) in Hk.
Qed.

Lemma try_admit_cases dropped q event runtime :
  queue_ok dropped q -> covers runtime q -> sized (qe_metadata event) ->
  qs_terminal_reason (sq_state q) = None ->
  admit_spec dropped q event runtime (try_admit rl dbg false q runtime event).
Proof.
  intros Hq Hc Hm Hterm. unfold try_admit, admit_start. rewrite Hterm.
  destruct (single_event_fits q (qe_metadata event)) eqn:Hs; cbn [negb mbind option_bind].
  - apply admit_loop_spec; [done..|apply plan_new_ok|done|cbn; lia|].
    intros k Hk. unfold passed in Hk. cbn in Hk. rewrite take_0 in Hk. cbn in Hk. lia.
  - assert (forall k, (k <= length (contents q))%nat ->
      fits_after q (qe_metadata event) runtime k = false) as Hno.
    { intros k _. unfold fits_after. by rewrite (single_event_too_large _ _ _ _ Hq Hs). }
    destruct (em_class (qe_metadata event)) eqn:Hcl.
    + destruct (drop_incoming_ok dropped q runtime SinkCapacity _ Hq Hc Hm) as [-> Hch].
      cbn [mbind option_bind fst snd].
      replace SinkCapacity with (if room_before q (qe_metadata event) (S (length (contents q)))
        then RuntimeCapacity else SinkCapacity) by (by rewrite (room_before_none _ _ _ _ Hq Hs)).
      by apply spec_dropped.
    + destruct (terminalize_ok _ _ _ _ Hq Hc Hm) as (runtime' & -> & Hch).
      cbn [mbind option_bind fst snd]. by apply spec_terminalized.
Qed.

(** ** Callbacks *)

Lemma stored_usage_cons (x : StoredEvent (T:=T)) l :
  stored_usage (x :: l) = usage_add (metadata_usage (se_metadata x)) (stored_usage l).
Proof. done. Qed.

Lemma content_usage_cons (x : StoredEvent (T:=T)) l :
  stored_usage (content_of (x :: l)) =
  usage_add (incoming_content (se_metadata x)) (stored_usage (content_of l)).
Proof.
  change (x :: l) with ([x] ++ l).
  by rewrite content_of_app, stored_usage_app, incoming_content_stored.
Qed.

(** The content charged for the callback of a stored event. *)
Lemma callback_content_incoming m :
  (if is_content m then metadata_usage m else BudgetUsage_ZERO) = incoming_content m.
Proof.
  unfold is_content, incoming_content.
  destruct (em_class m); [by rewrite bool_decide_eq_true_2|done].
Qed.

Lemma begin_callback_ok dropped q runtime :
  queue_ok dropped q -> covers runtime q ->
  let q' := (try_begin_callback false q).1 in
  charged q runtime dropped q' runtime /\
  queue_deltas (qs_queued (sq_state q)) ++
    map (fun a => drop_delta (ac_metadata a)) (option_list (qs_active_callback (sq_state q))) ≡ₚ
  queue_deltas (qs_queued (sq_state q')) ++
    map (fun a => drop_delta (ac_metadata a)) (option_list (qs_active_callback (sq_state q'))).
Proof.
  intros Hq [Hw Hle]. cbv zeta. unfold try_begin_callback.
  assert (charged q runtime dropped q runtime) as Hsame.
  { split; [done..|]. apply usage_ext; usage_solve. }
  destruct (qs_active_callback (sq_state q)) as [a|] eqn:Ea.
  { cbn [fst]. by rewrite Ea. }
  destruct (qs_queued (sq_state q)) as [|x rest] eqn:Eq; cbn [fst issue_ticket].
  { by rewrite Eq, Ea. }
  cbn. split; [|by rewrite app_nil_r, Permutation_app_comm].
  assert (usage_le (owned q) (unpack runtime)) by done.
  split; [split; [apply Hq| |apply Hq|apply Hq]|done|done|].
  2: { change (owned (set_state q _)) with (owned q). apply usage_ext; usage_solve. }
  destruct Hq as [_ [Ht Hct Hf Hfc Hz Ha Htm] _ _].
  unfold callback_usage, callback_content in Ht, Hct. rewrite Ea, Eq in *.
  inversion Hz as [|? ? Hx Hrest]; subst.
  split; cbn [sq_state sq_limits set_state qs_queued qs_total_usage qs_content_usage
              qs_active_callback qs_terminal_reason]; try done.
  - rewrite Ht, stored_usage_cons. unfold callback_usage. cbn [qs_active_callback ac_metadata].
    apply usage_ext; cbn; lia.
  - rewrite Hct, content_usage_cons. unfold callback_content. cbn [qs_active_callback ac_metadata].
    rewrite callback_content_incoming. apply usage_ext; cbn; lia.
  - by intros ? [= <-].
  - intros Hn. by specialize (Htm Hn).
Qed.

Lemma complete_callback_ok dropped q runtime active :
  queue_ok dropped q -> covers runtime q -> qs_active_callback (sq_state q) = Some active ->
  exists q' runtime', try_complete_callback rl false q runtime (ac_ticket active) =
      (q', runtime', Ok tt) /\
    charged q runtime dropped q' runtime' /\
    qs_queued (sq_state q') = qs_queued (sq_state q) /\ qs_active_callback (sq_state q') = None /\
    qs_terminal_reason (sq_state q') = qs_terminal_reason (sq_state q).
Proof.
  intros Hq [Hw Hle] Ha. pose proof (queued_owned _ _ Hq) as (Hn & _ & Hwd).
  pose proof (content_word _ _ Hq) as Hcw.
  destruct Hq as [Hlim Hs Hd Hds]. destruct (callback_sizes _ _ Hs) as [Hc Hcc].
  pose proof (stored_usage_nonneg _ (all_sized_content _ (sok_sized _ _ Hs))) as Hnc.
  destruct Hs as [Ht Hct Hf Hfc Hz Hact Htm].
  unfold callback_usage, callback_content in *. rewrite Ha in *.
  unfold try_complete_callback. rewrite Ha, Z.eqb_refl. cbn [negb].
  set (u := metadata_usage (ac_metadata active)) in *. unfold owned in Hwd, Hle.
  destruct (release_ok u runtime Hw Hc) as (runtime' & -> & Hw' & Hu); [rewrite Ht in Hle; usage_solve|].
  assert (usage_checked_sub (qs_total_usage (sq_state q)) u =
    Some (stored_usage (qs_queued (sq_state q)))) as ->.
  { apply usage_checked_sub_spec; [done..|]. rewrite Ht.
    split; [apply usage_ext; cbn; lia|]. usage_solve. }
  apply fits_within_true in Hf, Hfc. rewrite Ht in Hf. rewrite Hct in Hfc.
  assert (forall content : BudgetUsage, content = stored_usage (content_of (qs_queued (sq_state q))) ->
    charged q runtime dropped
      (set_state q (set_usage (sq_state q) (stored_usage (qs_queued (sq_state q))) content None))
      runtime') as Hch.
  { intros content ->. split; [split; [done| |done|done]|done|done|].
    - split; cbn; try done.
      + apply usage_ext; cbn; by rewrite Z.add_0_r.
      + apply usage_ext; cbn; by rewrite Z.add_0_r.
      + apply fits_within_true. usage_solve.
      + apply fits_within_true. destruct (is_content _); usage_solve.
    - rewrite Hu. unfold owned. cbn. rewrite Ht. apply usage_ext; cbn; lia. }
  destruct (is_content (ac_metadata active)).
  - assert (usage_checked_sub (qs_content_usage (sq_state q)) u =
      Some (stored_usage (content_of (qs_queued (sq_state q))))) as ->.
    { apply usage_checked_sub_spec; [done..|]. rewrite Hct.
      split; [apply usage_ext; cbn; lia|]. usage_solve. }
    do 2 eexists. split; [done|]. split; [by apply Hch|done].
  - do 2 eexists. split; [done|]. split; [|done]. apply Hch.
    rewrite Hct. apply usage_ext; cbn; lia.
Qed.

Lemma sink_drop_ok dropped q runtime :
  queue_ok dropped q -> covers runtime q ->
  exists runtime', sink_drop rl dbg q runtime = Some runtime' /\ good_word rl runtime' /\
    unpack runtime' = usage_sub (unpack runtime) (owned q).
Proof.
  intros Hq [Hw Hle]. destruct (queued_owned _ _ Hq) as (_ & _ & Hwd).
  unfold sink_drop. fold (owned q). case_bool_decide as Hz.
  - destruct (release_ok (owned q) runtime Hw) as (runtime' & -> & Hw' & Hu);
      [usage_solve|done|]. eauto.
  - exists runtime. split; [done|]. split; [done|].
    rewrite Hz. apply usage_ext; cbn; lia.
Qed.

End QueueSpec.
