(* ===== verification/SinkSystem.v ===== *)
(** * The sinks of a runtime

    Any number of sinks share one runtime budget.  A step is an operation of
    one sink, or one iteration of an admission that holds its lock, so that
    concurrent admissions of different sinks interleave at every use of the
    budget.  Each sink carries its history: what was offered to it, what its
    callbacks completed, what was dropped. *)

From S2P Require Import Prelude Wire Scalar Kinds Detail Event Budget SinkQueue SinkQueueSpec.
From Stdlib Require Import Relations.

Section System.
Context {T : Type}.
Context (rl : BudgetLimits) (dbg : bool).

Record Sink := mkSink {
  sk_queue : SinkQueue (T:=T);
  sk_admitting : option (QueueEvent (T:=T) * Plan);
  sk_offered : list EventMetadata;
  sk_completed : list EventMetadata;
  sk_dropped : list DropDelta;
}.

Record Sinks := mkSinks { ss_runtime : Z; ss_sinks : gmap nat Sink }.

Definition Sink_new (limits : SinkQueueLimits) : Sink :=
  mkSink (SinkQueue_with_limits limits) None [] [] [].

Definition sinks_init : Sinks := mkSinks 0 ∅.

(** What an outcome says was dropped. *)
Definition outcome_drops (outcome : AdmissionOutcome) : list DropDelta :=
  match outcome with
  | Enqueued evicted => evicted
  | Dropped _ delta => [delta]
  | Terminalized dropped => dropped
  end.

(** A sink after a part of an admission. *)
Definition progressed (s : Sink) (event : QueueEvent) (offered : list EventMetadata)
    (q' : SinkQueue) (progress : Progress) : Sink :=
  match progress with
  | Next plan => mkSink q' (Some (event, plan)) offered (sk_completed s) (sk_dropped s)
  | Done outcome =>
      mkSink q' None offered (sk_completed s) (sk_dropped s ++ outcome_drops outcome)
  end.

Definition update (ss : Sinks) (k : nat) (s : Sink) (runtime : Z) : Sinks :=
  mkSinks runtime (<[k := s]> (ss_sinks ss)).

Inductive sinks_step (ss : Sinks) : Sinks -> Prop :=
| sinks_new k total reserve limits :
    ss_sinks ss !! k = None ->
    SinkQueueLimits_new total reserve = Some limits ->
    usage_nonneg reserve -> usage_word total -> limits_packable (sl_total limits) ->
    sinks_step ss (update ss k (Sink_new limits) (ss_runtime ss))
| sinks_start k s event q' runtime' progress :
    ss_sinks ss !! k = Some s -> sk_admitting s = None -> sized (qe_metadata event) ->
    admit_start rl (sk_queue s) event (ss_runtime ss) = Some (q', runtime', progress) ->
    sinks_step ss
      (update ss k (progressed s event (sk_offered s ++ [qe_metadata event]) q' progress) runtime')
| sinks_iterate k s event plan q' runtime' progress :
    ss_sinks ss !! k = Some s -> sk_admitting s = Some (event, plan) ->
    admit_step rl dbg (sk_queue s) event plan (ss_runtime ss) = Some (q', runtime', progress) ->
    sinks_step ss (update ss k (progressed s event (sk_offered s) q' progress) runtime')
| sinks_contended k s event q' runtime' outcome :
    ss_sinks ss !! k = Some s -> sized (qe_metadata event) ->
    try_admit rl dbg true (sk_queue s) (ss_runtime ss) event = Some (q', runtime', outcome) ->
    sinks_step ss
      (update ss k
         (mkSink q' (sk_admitting s) (sk_offered s ++ [qe_metadata event]) (sk_completed s)
            (sk_dropped s ++ outcome_drops outcome)) runtime')
| sinks_begin k s :
    ss_sinks ss !! k = Some s -> sk_admitting s = None ->
    sinks_step ss
      (update ss k
         (mkSink (try_begin_callback false (sk_queue s)).1 None (sk_offered s) (sk_completed s)
            (sk_dropped s)) (ss_runtime ss))
| sinks_complete k s ticket q' runtime' r :
    ss_sinks ss !! k = Some s -> sk_admitting s = None ->
    try_complete_callback rl false (sk_queue s) (ss_runtime ss) ticket = (q', runtime', r) ->
    sinks_step ss
      (update ss k
         (mkSink q' None (sk_offered s)
            (sk_completed s ++
               if is_ok r then map ac_metadata (option_list (qs_active_callback (sq_state (sk_queue s))))
               else [])
            (sk_dropped s)) runtime')
| sinks_discard k s q' runtime' deltas :
    ss_sinks ss !! k = Some s -> sk_admitting s = None ->
    try_discard_queued rl false (sk_queue s) (ss_runtime ss) = Some (q', runtime', Ok deltas) ->
    sinks_step ss
      (update ss k
         (mkSink q' None (sk_offered s) (sk_completed s) (sk_dropped s ++ deltas)) runtime')
| sinks_drop k s runtime' :
    ss_sinks ss !! k = Some s -> sk_admitting s = None ->
    sink_drop rl dbg (sk_queue s) (ss_runtime ss) = Some runtime' ->
    sinks_step ss (mkSinks runtime' (delete k (ss_sinks ss))).

Definition sinks_reachable : Sinks -> Prop := clos_refl_trans_1n _ sinks_step sinks_init.

(** ** What the sinks own together *)

Definition sink_owned (s : Sink) : BudgetUsage := owned (sk_queue s).

Definition total_owned (sinks : gmap nat Sink) : BudgetUsage :=
  map_fold (fun _ s u => usage_add (sink_owned s) u) BudgetUsage_ZERO sinks.

Lemma usage_add_swap a b c : usage_add a (usage_add b c) = usage_add b (usage_add a c).
Proof. apply usage_ext; cbn; lia. Qed.

Lemma total_owned_empty : total_owned ∅ = BudgetUsage_ZERO.
Proof. apply map_fold_empty. Qed.

Lemma total_owned_delete sinks k s :
  sinks !! k = Some s -> total_owned sinks = usage_add (sink_owned s) (total_owned (delete k sinks)).
Proof.
  intros H. unfold total_owned. erewrite map_fold_delete_L; [done| |exact H].
  intros. apply usage_add_swap.
Qed.

Lemma total_owned_insert_new sinks k s :
  sinks !! k = None -> total_owned (<[k := s]> sinks) = usage_add (sink_owned s) (total_owned sinks).
Proof.
  intros H. unfold total_owned. rewrite map_fold_insert_L; [done| |done].
  intros. apply usage_add_swap.
Qed.

Lemma total_owned_insert sinks k s :
  total_owned (<[k := s]> sinks) = usage_add (sink_owned s) (total_owned (delete k sinks)).
Proof.
  rewrite <-insert_delete_eq. apply total_owned_insert_new. apply lookup_delete_eq.
Qed.

(** ** The invariant *)

(** What a sink has been offered is what it delivered, what it still holds and
    what it dropped, the event of an unfinished admission included. *)
Definition holding (q : SinkQueue (T:=T)) : list DropDelta :=
  queue_deltas (qs_queued (sq_state q)) ++
  map (fun a => drop_delta (ac_metadata a)) (option_list (qs_active_callback (sq_state q))).

Definition admitting_deltas (s : Sink) : list DropDelta :=
  map (fun ep => drop_delta (qe_metadata ep.1)) (option_list (sk_admitting s)).

Definition accounted (s : Sink) : Prop :=
  map drop_delta (sk_offered s) ≡ₚ
  admitting_deltas s ++ holding (sk_queue s) ++ map drop_delta (sk_completed s) ++ sk_dropped s.

Record sink_ok (s : Sink) : Prop := {
  sko_queue : queue_ok (sk_dropped s) (sk_queue s);
  sko_admitting event plan : sk_admitting s = Some (event, plan) ->
    sized (qe_metadata event) /\ plan_ok (sk_queue s) (qe_metadata event) plan /\
    qs_terminal_reason (sq_state (sk_queue s)) = None;
  sko_accounted : accounted s;
}.

Record sinks_ok (ss : Sinks) : Prop := {
  sso_word : good_word rl (ss_runtime ss);
  sso_usage : unpack (ss_runtime ss) = total_owned (ss_sinks ss);
  sso_sinks k s : ss_sinks ss !! k = Some s -> sink_ok s;
}.

Context (Hrl : limits_packable rl).

Lemma total_owned_nonneg sinks :
  (forall k s, sinks !! k = Some s -> usage_nonneg (sink_owned s)) ->
  usage_nonneg (total_owned sinks).
Proof.
  induction sinks as [|k s sinks Hk IH] using map_ind; intros H.
  { rewrite total_owned_empty. unfold usage_nonneg. cbn. lia. }
  rewrite total_owned_insert_new by done.
  assert (usage_nonneg (sink_owned s)) by (apply (H k), lookup_insert_eq).
  assert (usage_nonneg (total_owned sinks)); [|usage_solve].
  apply IH. intros j t Hj. apply (H j). rewrite lookup_insert_ne by congruence. done.
Qed.

Lemma sink_owned_nonneg ss k s :
  sinks_ok ss -> ss_sinks ss !! k = Some s -> usage_nonneg (sink_owned s).
Proof.
  intros Hss Hk. destruct (sso_sinks _ Hss _ _ Hk) as [Hq _ _].
  destruct (queued_owned _ _ Hq) as (_ & _ & Hw). unfold sink_owned. usage_solve.
Qed.

Lemma others_nonneg ss k : sinks_ok ss -> usage_nonneg (total_owned (delete k (ss_sinks ss))).
Proof.
  intros Hss. apply total_owned_nonneg. intros j s [_ Hj]%lookup_delete_Some.
  by eapply sink_owned_nonneg.
Qed.

Lemma sink_covers ss k s :
  sinks_ok ss -> ss_sinks ss !! k = Some s -> covers rl (ss_runtime ss) (sk_queue s).
Proof.
  intros Hss Hk. split; [apply Hss|]. rewrite (sso_usage _ Hss).
  rewrite (total_owned_delete _ _ _ Hk). pose proof (others_nonneg ss k Hss).
  fold (sink_owned s). usage_solve.
Qed.

(** Any operation that charges the runtime for what its own sink owns keeps
    the whole system correct. *)
Lemma update_ok ss k s s' runtime' :
  sinks_ok ss -> ss_sinks ss !! k = Some s ->
  charged rl (sk_queue s) (ss_runtime ss) (sk_dropped s') (sk_queue s') runtime' ->
  sink_ok s' -> sinks_ok (update ss k s' runtime').
Proof.
  intros Hss Hk [_ _ Hw Hu] Hs'. split; cbn; [done| |].
  - rewrite Hu, (sso_usage _ Hss), (total_owned_delete _ _ _ Hk), total_owned_insert.
    unfold sink_owned. apply usage_ext; cbn; lia.
  - intros j t Hj. apply lookup_insert_Some in Hj as [[-> <-]|[_ Hj]]; [done|].
    by eapply sso_sinks.
Qed.

(** ** The history of an admission *)

(** The outcome accounts for the event and for everything that left. *)
Definition settles (q : SinkQueue (T:=T)) (event : QueueEvent (T:=T)) (q' : SinkQueue (T:=T))
    (outcome : AdmissionOutcome) : Prop :=
  holding q' ++ outcome_drops outcome ≡ₚ holding q ++ [drop_delta (qe_metadata event)].

Lemma queue_deltas_app (l k : list (StoredEvent (T:=T))) :
  queue_deltas (l ++ k) = queue_deltas l ++ queue_deltas k.
Proof. apply map_app. Qed.

Lemma enqueued_settles dropped q event cursor :
  settles q event (enqueued dropped q event cursor) (Enqueued (queue_deltas (passed q cursor))).
Proof.
  unfold settles, holding, enqueued. cbn [sq_state qs_queued qs_active_callback outcome_drops].
  unfold passed. rewrite evict_prefix. cbn [snd]. fold (passed q cursor).
  rewrite <-(take_drop cursor (qs_queued (sq_state q))) at 3.
  rewrite !queue_deltas_app. cbn.
  assert (queue_deltas (take cursor (qs_queued (sq_state q))) ≡ₚ
    queue_deltas (passed q cursor) ++ queue_deltas (structural_of (take cursor (qs_queued (sq_state q)))))
    as ->.
  { rewrite <-queue_deltas_app. apply Permutation_map, content_perm. }
  solve_Permutation.
Qed.

Lemma dropped_settles q event reason ds :
  settles q event (with_drops q ds) (Dropped reason (drop_delta (qe_metadata event))).
Proof. unfold settles. reflexivity. Qed.

Lemma terminalized_settles q event ds :
  settles q event
    (mkSinkQueue (sq_limits q) (set_terminal (discarded (sq_state q))) ds)
    (Terminalized (queue_deltas (qs_queued (sq_state q)) ++ [drop_delta (qe_metadata event)])).
Proof. unfold settles, holding. cbn. solve_Permutation. Qed.

Lemma charged_refl dropped (q : SinkQueue (T:=T)) runtime :
  queue_ok dropped q -> covers rl runtime q -> charged rl q runtime dropped q runtime.
Proof. intros Hq [Hw Hle]. split; [done..|]. apply usage_ext; usage_solve. Qed.

(** What a part of an admission establishes. *)
Definition progress_ok (s : Sink) (event : QueueEvent) (runtime : Z) (q' : SinkQueue) (runtime' : Z)
    (progress : Progress) : Prop :=
  match progress with
  | Done outcome =>
      charged rl (sk_queue s) runtime (sk_dropped s ++ outcome_drops outcome) q' runtime' /\
      settles (sk_queue s) event q' outcome
  | Next plan =>
      q' = sk_queue s /\ runtime' = runtime /\ plan_ok q' (qe_metadata event) plan /\
      qs_terminal_reason (sq_state q') = None
  end.

Lemma progressed_ok ss k s event offered q' runtime' progress :
  sinks_ok ss -> ss_sinks ss !! k = Some s -> sized (qe_metadata event) ->
  map drop_delta offered ≡ₚ
    drop_delta (qe_metadata event) :: holding (sk_queue s) ++
    map drop_delta (sk_completed s) ++ sk_dropped s ->
  progress_ok s event (ss_runtime ss) q' runtime' progress ->
  sinks_ok (update ss k (progressed s event offered q' progress) runtime').
Proof.
  intros Hss Hk Hm Hoff Hp. pose proof (sso_sinks _ Hss _ _ Hk) as Hs.
  pose proof (sink_covers _ _ _ Hss Hk) as Hcov. eapply update_ok; [done..| |].
  - destruct progress; cbn in Hp |- *; [by destruct Hp|].
    destruct Hp as (-> & -> & _). apply charged_refl; [apply Hs|done].
  - destruct progress as [outcome|plan]; cbn in Hp |- *.
    + destruct Hp as [Hch Hset]. split; cbn; [by apply Hch|done|].
      unfold accounted, admitting_deltas. cbn. rewrite Hoff.
      unfold settles in Hset. transitivity ((holding q' ++ outcome_drops outcome) ++
        map drop_delta (sk_completed s) ++ sk_dropped s); [|solve_Permutation].
      rewrite Hset. solve_Permutation.
    + destruct Hp as (-> & _ & Hp & Ht). split; cbn; [apply Hs|by intros ? ? [= <- <-]|].
      unfold accounted, admitting_deltas. cbn. by rewrite Hoff.
Qed.

Lemma admit_case_progress s event plan runtime q' runtime' progress :
  queue_ok (sk_dropped s) (sk_queue s) -> covers rl runtime (sk_queue s) ->
  qs_terminal_reason (sq_state (sk_queue s)) = None ->
  admit_case rl (sk_dropped s) (sk_queue s) event plan runtime (Some (q', runtime', progress)) ->
  progress_ok s event runtime q' runtime' progress.
Proof.
  intros Hq Hc Ht H. inversion H; subst; cbn.
  - split; [done|apply enqueued_settles].
  - done.
  - split; [done|apply dropped_settles].
  - split; [done|apply terminalized_settles].
Qed.

Lemma admit_start_progress s event runtime q' runtime' progress :
  queue_ok (sk_dropped s) (sk_queue s) -> covers rl runtime (sk_queue s) ->
  sized (qe_metadata event) ->
  admit_start rl (sk_queue s) event runtime = Some (q', runtime', progress) ->
  progress_ok s event runtime q' runtime' progress.
Proof.
  intros Hq Hc Hm. unfold admit_start.
  assert (forall reason, (o ← drop_incoming (sk_queue s) runtime reason (drop_delta (qe_metadata event));
      Some (o.1.1, o.1.2, Done o.2)) = Some (q', runtime', progress) ->
    progress_ok s event runtime q' runtime' progress) as Hdrop.
  { intros reason. destruct (drop_incoming_ok rl _ _ _ reason _ Hq Hc Hm) as [-> Hch].
    cbn. intros [= <- <- <-]. split; [done|apply dropped_settles]. }
  destruct (qs_terminal_reason (sq_state (sk_queue s))) eqn:Et; [apply Hdrop|].
  destruct (single_event_fits _ _); cbn [negb].
  - intros [= <- <- <-]. cbn. split; [done|]. split; [done|]. split; [apply plan_new_ok|done].
  - destruct (em_class (qe_metadata event)); [apply Hdrop|].
    destruct (terminalize_ok rl Hrl _ _ _ _ Hq Hc Hm) as (rt & -> & Hch).
    cbn. intros [= <- <- <-]. split; [done|apply terminalized_settles].
Qed.

Lemma admit_start_defined dropped (q : SinkQueue (T:=T)) event runtime :
  queue_ok dropped q -> covers rl runtime q -> sized (qe_metadata event) ->
  is_Some (admit_start rl q event runtime).
Proof.
  intros Hq Hc Hm. unfold admit_start.
  assert (forall reason,
    is_Some (o ← drop_incoming q runtime reason (drop_delta (qe_metadata event));
      Some (o.1.1, o.1.2, Done o.2))) as Hdrop.
  { intros reason. destruct (drop_incoming_ok rl _ _ _ reason _ Hq Hc Hm) as [-> _]. by eexists. }
  destruct (qs_terminal_reason (sq_state q)); [apply Hdrop|].
  destruct (single_event_fits _ _); [by eexists|].
  destruct (em_class (qe_metadata event)); [apply Hdrop|].
  destruct (terminalize_ok rl Hrl _ _ _ _ Hq Hc Hm) as (rt & -> & _). by eexists.
Qed.

(** ** Each step *)

Lemma start_ok ss k s event q' runtime' progress :
  sinks_ok ss -> ss_sinks ss !! k = Some s -> sk_admitting s = None ->
  sized (qe_metadata event) ->
  admit_start rl (sk_queue s) event (ss_runtime ss) = Some (q', runtime', progress) ->
  sinks_ok (update ss k (progressed s event (sk_offered s ++ [qe_metadata event]) q' progress) runtime').
Proof.
  intros Hss Hk Ha Hm H. pose proof (sso_sinks _ Hss _ _ Hk) as [Hq _ Hacc].
  apply progressed_ok; [done..| |].
  - rewrite map_app. unfold accounted, admitting_deltas in Hacc. rewrite Ha in Hacc.
    cbn in Hacc. rewrite Hacc. solve_Permutation.
  - eapply admit_start_progress; [done| |done..]. by eapply sink_covers.
Qed.

Lemma iterate_ok ss k s event plan q' runtime' progress :
  sinks_ok ss -> ss_sinks ss !! k = Some s -> sk_admitting s = Some (event, plan) ->
  admit_step rl dbg (sk_queue s) event plan (ss_runtime ss) = Some (q', runtime', progress) ->
  sinks_ok (update ss k (progressed s event (sk_offered s) q' progress) runtime').
Proof.
  intros Hss Hk Ha H. pose proof (sso_sinks _ Hss _ _ Hk) as [Hq Hadm Hacc].
  destruct (Hadm _ _ Ha) as (Hm & Hp & Ht). pose proof (sink_covers _ _ _ Hss Hk) as Hc.
  apply progressed_ok; [done..| |].
  - unfold accounted, admitting_deltas in Hacc. rewrite Ha in Hacc. done.
  - eapply admit_case_progress; [done..|]. rewrite <-H. by apply admit_step_cases.
Qed.

Lemma contended_ok ss k s event q' runtime' outcome :
  sinks_ok ss -> ss_sinks ss !! k = Some s -> sized (qe_metadata event) ->
  try_admit rl dbg true (sk_queue s) (ss_runtime ss) event = Some (q', runtime', outcome) ->
  sinks_ok (update ss k
    (mkSink q' (sk_admitting s) (sk_offered s ++ [qe_metadata event]) (sk_completed s)
       (sk_dropped s ++ outcome_drops outcome)) runtime').
Proof.
  intros Hss Hk Hm H. pose proof (sso_sinks _ Hss _ _ Hk) as [Hq Hadm Hacc].
  pose proof (sink_covers _ _ _ Hss Hk) as Hc.
  destruct (drop_incoming_ok rl _ _ _ QueueContended _ Hq Hc Hm) as [E Hch].
  unfold try_admit in H. rewrite E in H. injection H as <- <- <-.
  eapply update_ok; [done..|]. split; cbn; [apply Hch| |].
  - intros ev plan Ha. destruct (Hadm _ _ Ha) as (? & [] & ?). split; [done|]. by split.
  - unfold accounted, admitting_deltas in *. cbn. rewrite map_app, Hacc. unfold holding. cbn.
    solve_Permutation.
Qed.

Lemma begin_ok ss k s :
  sinks_ok ss -> ss_sinks ss !! k = Some s -> sk_admitting s = None ->
  sinks_ok (update ss k
    (mkSink (try_begin_callback false (sk_queue s)).1 None (sk_offered s) (sk_completed s)
       (sk_dropped s)) (ss_runtime ss)).
Proof.
  intros Hss Hk Ha. pose proof (sso_sinks _ Hss _ _ Hk) as [Hq _ Hacc].
  pose proof (sink_covers _ _ _ Hss Hk) as Hc.
  destruct (begin_callback_ok rl _ _ _ Hq Hc) as [Hch Hperm].
  eapply update_ok; [done..|]. split; cbn; [apply Hch|done|].
  unfold accounted, admitting_deltas in *. rewrite Ha in Hacc. cbn in *. rewrite Hacc.
  unfold holding. by rewrite <-Hperm.
Qed.

(** A completion with the wrong ticket, or without a callback, changes
    nothing. *)
Lemma complete_ok ss k s ticket q' runtime' r :
  sinks_ok ss -> ss_sinks ss !! k = Some s -> sk_admitting s = None ->
  try_complete_callback rl false (sk_queue s) (ss_runtime ss) ticket = (q', runtime', r) ->
  sinks_ok (update ss k
    (mkSink q' None (sk_offered s)
       (sk_completed s ++
          if is_ok r then map ac_metadata (option_list (qs_active_callback (sq_state (sk_queue s))))
          else [])
       (sk_dropped s)) runtime').
Proof.
  intros Hss Hk Ha H. pose proof (sso_sinks _ Hss _ _ Hk) as [Hq _ Hacc].
  pose proof (sink_covers _ _ _ Hss Hk) as Hc.
  unfold accounted, admitting_deltas in Hacc. rewrite Ha in Hacc. cbn in Hacc.
  assert (forall e, (q', runtime', r) = (sk_queue s, ss_runtime ss, Err e) ->
    sinks_ok (update ss k (mkSink q' None (sk_offered s)
      (sk_completed s ++ (if is_ok r then map ac_metadata
         (option_list (qs_active_callback (sq_state (sk_queue s)))) else [])) (sk_dropped s)) runtime'))
    as Hsame.
  { intros e [= -> -> ->]. eapply update_ok; [done..|by apply charged_refl|].
    split; cbn; [done|done|]. by rewrite app_nil_r. }
  destruct (qs_active_callback (sq_state (sk_queue s))) as [active|] eqn:Eact.
  2: { unfold try_complete_callback in H. rewrite Eact in H. by apply (Hsame NoCallbackActive). }
  destruct (decide (ac_ticket active = ticket)) as [<-|Hne].
  - destruct (complete_callback_ok rl Hrl _ _ _ _ Hq Hc Eact)
      as (q1 & rt1 & E & Hch & Hqd & Hact & _).
    rewrite E in H. injection H as <- <- <-. eapply update_ok; [done..|].
    split; cbn; [apply Hch|done|].
    unfold accounted, admitting_deltas. cbn. rewrite Hacc. unfold holding.
    rewrite Hqd, Hact, Eact, map_app. cbn. solve_Permutation.
  - unfold try_complete_callback in H. rewrite Eact in H.
    rewrite (proj2 (Z.eqb_neq _ _) Hne) in H. by apply (Hsame CallbackTicketMismatch).
Qed.

Lemma discard_step_ok ss k s q' runtime' deltas :
  sinks_ok ss -> ss_sinks ss !! k = Some s -> sk_admitting s = None ->
  try_discard_queued rl false (sk_queue s) (ss_runtime ss) = Some (q', runtime', Ok deltas) ->
  sinks_ok (update ss k
    (mkSink q' None (sk_offered s) (sk_completed s) (sk_dropped s ++ deltas)) runtime').
Proof.
  intros Hss Hk Ha H. pose proof (sso_sinks _ Hss _ _ Hk) as [Hq _ Hacc].
  pose proof (sink_covers _ _ _ Hss Hk) as Hc.
  destruct (discard_ok rl Hrl _ _ _ Hq Hc) as (rt & E & Hch).
  unfold try_discard_queued in H. rewrite E in H.
  injection H as <- <- <-. eapply update_ok; [done..|]. split; cbn; [apply Hch|done|].
  unfold accounted, admitting_deltas in *. rewrite Ha in Hacc. cbn in *. rewrite Hacc.
  unfold holding. cbn. solve_Permutation.
Qed.

Lemma new_limits_ok total reserve limits :
  SinkQueueLimits_new total reserve = Some limits -> usage_nonneg reserve -> usage_word total ->
  limits_packable (sl_total limits) -> limits_ok limits.
Proof.
  unfold SinkQueueLimits_new. intros (c & Hc & [= <-])%bind_Some Hr Ht Hp.
  apply usage_checked_sub_spec in Hc as [-> Hle]; [|done..].
  split; cbn; [done|usage_solve..].
Qed.

Lemma new_sink_ok limits : limits_ok limits ->
  fits_within BudgetUsage_ZERO (sl_content limits) = true -> sink_ok (Sink_new limits).
Proof.
  intros Hl Hc. pose proof (lok_total _ Hl) as Ht%limits_packable_iff.
  split; [|done|unfold accounted; reflexivity]. split; cbn; [done| |done|constructor].
  split; cbn; try done; [|constructor]. apply fits_within_true. cbn. lia.
Qed.

Lemma new_ok ss k total reserve limits :
  sinks_ok ss -> ss_sinks ss !! k = None ->
  SinkQueueLimits_new total reserve = Some limits -> usage_nonneg reserve -> usage_word total ->
  limits_packable (sl_total limits) ->
  sinks_ok (update ss k (Sink_new limits) (ss_runtime ss)).
Proof.
  intros Hss Hk Hl Hr Ht Hp. pose proof (new_limits_ok _ _ _ Hl Hr Ht Hp) as Hlim.
  split; cbn; [apply Hss| |].
  - rewrite (sso_usage _ Hss), total_owned_insert_new by done. apply usage_ext; cbn; lia.
  - intros j s Hj. apply lookup_insert_Some in Hj as [[-> <-]|[_ Hj]]; [|by eapply sso_sinks].
    apply new_sink_ok; [done|]. unfold SinkQueueLimits_new in Hl.
    apply bind_Some in Hl as (c & Hc & [= <-]).
    apply usage_checked_sub_spec in Hc as [-> Hle]; [|done..].
    apply fits_within_true. usage_solve.
Qed.

Lemma drop_step_ok ss k s runtime' :
  sinks_ok ss -> ss_sinks ss !! k = Some s ->
  sink_drop rl dbg (sk_queue s) (ss_runtime ss) = Some runtime' ->
  sinks_ok (mkSinks runtime' (delete k (ss_sinks ss))).
Proof.
  intros Hss Hk H. pose proof (sso_sinks _ Hss _ _ Hk) as [Hq _ _].
  pose proof (sink_covers _ _ _ Hss Hk) as Hc.
  destruct (sink_drop_ok rl dbg Hrl _ _ _ Hq Hc) as (rt & E & Hw & Hu).
  rewrite E in H. injection H as <-. split; cbn; [done| |].
  - rewrite Hu, (sso_usage _ Hss), (total_owned_delete _ _ _ Hk).
    unfold sink_owned. apply usage_ext; cbn; lia.
  - intros j t [_ Hj]%lookup_delete_Some. by eapply sso_sinks.
Qed.

Lemma sinks_step_ok ss ss' : sinks_ok ss -> sinks_step ss ss' -> sinks_ok ss'.
Proof.
  intros Hss Hstep. destruct Hstep;
    eauto using new_ok, start_ok, iterate_ok, contended_ok, begin_ok, complete_ok, discard_step_ok,
      drop_step_ok.
Qed.

Lemma sinks_init_ok : sinks_ok sinks_init.
Proof.
  apply limits_packable_iff in Hrl.
  split; cbn; [|by rewrite total_owned_empty, unpack_word|done].
  split; [cbn; lia|]. change (unpack 0) with BudgetUsage_ZERO. apply fits_within_true. cbn. lia.
Qed.

Lemma sinks_reachable_ok ss : sinks_reachable ss -> sinks_ok ss.
Proof.
  intros H. assert (forall a b, clos_refl_trans_1n _ sinks_step a b -> sinks_ok a -> sinks_ok b) as Hind.
  { induction 1; [done|]. eauto using sinks_step_ok. }
  eapply Hind; [exact H|apply sinks_init_ok].
Qed.

End System.

(** ** Theorems *)

(** The sinks share one budget exactly.  In every reachable state, however
    the admissions of the sinks interleave, the packed runtime usage is the sum
    of what the sinks own, it is within the runtime's limits in both
    dimensions, and every sink is within its own total and content limits. *)
Theorem sinks_share_budget {T} rl dbg (ss : Sinks (T:=T)) :
  is_Some (with_limits rl) -> sinks_reachable rl dbg ss ->
  unpack (ss_runtime ss) = total_owned (ss_sinks ss) /\
  fits_within (unpack (ss_runtime ss)) rl = true /\
  forall k s, ss_sinks ss !! k = Some s ->
    fits_within (qs_total_usage (sq_state (sk_queue s))) (sl_total (sq_limits (sk_queue s))) = true /\
    fits_within (qs_content_usage (sq_state (sk_queue s))) (sl_content (sq_limits (sk_queue s))) = true.
Proof.
  intros Hrl Hr. pose proof (sinks_reachable_ok _ _ Hrl _ Hr) as Hss.
  split; [apply Hss|]. split; [apply (sso_word _ _ Hss)|]. intros k s Hk.
  destruct (sso_sinks _ _ Hss _ _ Hk) as [[_ Hst _ _] _ _]. split; apply Hst.
Qed.

(** C15: no event disappears.  In every reachable state, what was offered to a
    sink is, as a multiset, the event of its unfinished admission, what is
    queued, the event of the running callback, what callbacks completed and
    what was reported as dropped; and the drop counters are exactly the totals
    of the reported drops by kind, up to the saturation of a machine word. *)
Theorem sinks_account_for_events {T} rl dbg (ss : Sinks (T:=T)) k s :
  is_Some (with_limits rl) -> sinks_reachable rl dbg ss -> ss_sinks ss !! k = Some s ->
  map drop_delta (sk_offered s) ≡ₚ
    admitting_deltas s ++ holding (sk_queue s) ++ map drop_delta (sk_completed s) ++ sk_dropped s /\
  sq_drops (sk_queue s) = map (counted (sk_dropped s)) DiagnosticEventKind_ALL.
Proof.
  intros Hrl Hr Hk. destruct (sso_sinks _ _ (sinks_reachable_ok _ _ Hrl _ Hr) _ _ Hk) as [Hq _ Hacc].
  split; [exact Hacc|apply Hq].
Qed.

(** No operation of a reachable sink panics or breaks the budget.  An
    admission can start, each of its iterations is defined and either ends it
    or moves the victim cursor on within the queue, so that it ends after at
    most as many iterations as there are queued events; queued events can be
    discarded, the running callback can be completed with its ticket, and the
    sink can be dropped. *)
Theorem sinks_never_panic {T} rl dbg (ss : Sinks (T:=T)) k s :
  is_Some (with_limits rl) -> sinks_reachable rl dbg ss -> ss_sinks ss !! k = Some s ->
  (forall event, sized (qe_metadata event) ->
     is_Some (admit_start rl (sk_queue s) event (ss_runtime ss))) /\
  (forall event plan, sk_admitting s = Some (event, plan) ->
     exists q' runtime' progress,
       admit_step rl dbg (sk_queue s) event plan (ss_runtime ss) = Some (q', runtime', progress) /\
       forall plan', progress = Next plan' ->
         (p_victim_cursor plan < p_victim_cursor plan' <=
          length (qs_queued (sq_state (sk_queue s))))%nat) /\
  (exists q' runtime' deltas,
     try_discard_queued rl false (sk_queue s) (ss_runtime ss) = Some (q', runtime', Ok deltas)) /\
  (forall active, qs_active_callback (sq_state (sk_queue s)) = Some active ->
     exists q' runtime',
       try_complete_callback rl false (sk_queue s) (ss_runtime ss) (ac_ticket active)
         = (q', runtime', Ok tt)) /\
  is_Some (sink_drop rl dbg (sk_queue s) (ss_runtime ss)).
Proof.
  intros Hrl Hr Hk. pose proof (sinks_reachable_ok _ _ Hrl _ Hr) as Hss.
  pose proof (sink_covers _ _ _ _ Hss Hk) as Hc.
  destruct (sso_sinks _ _ Hss _ _ Hk) as [Hq Hadm _].
  split; [intros event Hm; by eapply admit_start_defined|].
  split; [|split; [|split]].
  - intros event plan Ha. destruct (Hadm _ _ Ha) as (Hm & Hp & Ht).
    destruct (admit_step_cases rl dbg Hrl _ _ _ _ _ Hq Hc Hm Hp Ht);
      (do 3 eexists; split; [done|]); [done| |done..].
    intros ? [= <-]. split; [done|]. by eapply pok_cursor.
  - destruct (discard_ok rl Hrl _ _ _ Hq Hc) as (rt & E & _). unfold try_discard_queued. eauto.
  - intros active Ha.
    destruct (complete_callback_ok rl Hrl _ _ _ _ Hq Hc Ha) as (q1 & rt1 & E & _). eauto.
  - destruct (sink_drop_ok rl dbg Hrl _ _ _ Hq Hc) as (rt & E & _). eauto.
Qed.

(** Structural events are never silently lost to make room.  Whatever the
    other sinks do meanwhile, when an admission ends by enqueuing, all the
    structural events that were queued are still there and the queue keeps its
    order; only a content event is dropped for lack of room, and that leaves
    the queue as it was; and only a structural event that cannot be given room
    terminalises the sink, which reports everything it held. *)
Theorem structural_events_kept {T} rl dbg (ss : Sinks (T:=T)) k s event plan q' runtime' outcome :
  is_Some (with_limits rl) -> sinks_reachable rl dbg ss -> ss_sinks ss !! k = Some s ->
  sk_admitting s = Some (event, plan) ->
  admit_step rl dbg (sk_queue s) event plan (ss_runtime ss) = Some (q', runtime', Done outcome) ->
  let queued := qs_queued (sq_state (sk_queue s)) in
  let new := mkStoredEvent (qe_item event) (qe_metadata event) in
  match outcome with
  | Enqueued evicted =>
      exists kept, qs_queued (sq_state q') = kept ++ [new] /\ kept `sublist_of` queued /\
        structural_of kept = structural_of queued
  | Dropped reason delta =>
      em_class (qe_metadata event) = Content /\ (reason = RuntimeCapacity \/ reason = SinkCapacity) /\
      sq_state q' = sq_state (sk_queue s)
  | Terminalized dropped =>
      em_class (qe_metadata event) = Structural /\ qs_queued (sq_state q') = [] /\
      qs_terminal_reason (sq_state q') = Some DeliveryOverflow /\
      dropped = queue_deltas (queued ++ [new])
  end.
Proof.
  intros Hrl Hr Hk Ha H queued new. pose proof (sinks_reachable_ok _ _ Hrl _ Hr) as Hss.
  pose proof (sink_covers _ _ _ _ Hss Hk) as Hc.
  destruct (sso_sinks _ _ Hss _ _ Hk) as [Hq Hadm _].
  destruct (Hadm _ _ Ha) as (Hm & Hp & Ht).
  pose proof (admit_step_cases rl dbg Hrl _ _ _ _ _ Hq Hc Hm Hp Ht) as Hcase.
  rewrite H in Hcase. inversion Hcase; subst; cbn.
  - eexists. split; [done|]. split; [apply evict_sublist|apply evict_structural].
  - split; [done|]. split; [|done]. destruct (_ || _)%bool; auto.
  - split; [done|]. split; [done|]. split; [done|]. by rewrite queue_deltas_app.
Qed.

(** C16: admission evicts the least it can.  When nothing else uses the budget
    meanwhile, a call on a sink that is not terminal enqueues the event exactly
    when some number of the oldest content events, once gone, leaves room for
    it in the sink and in the runtime; it evicts the smallest such number and
    appends the event.  Otherwise a content event is dropped, for the runtime's
    capacity when the sink itself could have made room, and a structural event
    terminalises the sink. *)
Theorem try_admit_evicts_least {T} rl dbg dropped (q : SinkQueue (T:=T)) runtime event :
  is_Some (with_limits rl) -> queue_ok dropped q -> covers rl runtime q ->
  sized (qe_metadata event) -> qs_terminal_reason (sq_state q) = None ->
  let queued := qs_queued (sq_state q) in
  let new := mkStoredEvent (qe_item event) (qe_metadata event) in
  let fits := fits_after rl q (qe_metadata event) runtime in
  let never := forall k, (k <= length (content_of queued))%nat -> fits k = false in
  exists q' runtime' outcome,
    try_admit rl dbg false q runtime event = Some (q', runtime', outcome) /\
    match outcome with
    | Enqueued evicted =>
        exists n, fits n = true /\ (forall k, (k < n)%nat -> fits k = false) /\
          evicted = queue_deltas (take n (content_of queued)) /\
          qs_queued (sq_state q') = (evict n queued).2 ++ [new]
    | Dropped reason delta =>
        never /\ em_class (qe_metadata event) = Content /\ delta = drop_delta (qe_metadata event) /\
        sq_state q' = sq_state q /\
        (reason = RuntimeCapacity /\ (exists k, (k <= length (content_of queued))%nat /\
           local_fits q (qe_metadata event) (take k (content_of queued)) = true) \/
         reason = SinkCapacity /\ forall k, (k <= length (content_of queued))%nat ->
           local_fits q (qe_metadata event) (take k (content_of queued)) = false)
    | Terminalized dropped =>
        never /\ em_class (qe_metadata event) = Structural /\
        dropped = queue_deltas (queued ++ [new]) /\ qs_queued (sq_state q') = [] /\
        qs_terminal_reason (sq_state q') = Some DeliveryOverflow
    end.
Proof.
  intros Hrl Hq Hc Hm Ht queued new fits never.
  destruct (try_admit_cases rl dbg Hrl _ _ _ _ Hq Hc Hm Ht)
    as [n cursor rt evicted Hn Hf Hmin Hpass Hch|delta Hno Hcl Hch|rt deltas q' Hno Hcl Hch].
  - do 3 eexists. split; [done|]. exists n. split; [done|]. split; [done|]. split; [done|].
    cbn. rewrite Hpass. subst evicted. rewrite length_take, Nat.min_l by done. done.
  - do 3 eexists. split; [done|]. split; [done|]. split; [done|]. split; [done|].
    split; [done|]. destruct (room_before _ _ _) eqn:Er.
    + left. split; [done|]. apply List.existsb_exists in Er as (k & Hk%List.in_seq & Hl).
      exists k. split; [|done]. unfold contents in Hk. subst queued. lia.
    + right. split; [done|]. intros k Hk. apply not_true_iff_false. intros Hl.
      apply not_true_iff_false in Er. apply Er. apply List.existsb_exists. exists k.
      split; [|done]. apply List.in_seq. unfold contents. subst queued. lia.
  - do 3 eexists. split; [done|]. split; [done|]. split; [done|].
    split; [by rewrite queue_deltas_app|done].
Qed.

(** ** Witnesses *)

Definition sample_queue_limits : SinkQueueLimits :=
  mkSinkQueueLimits (mkBudgetLimits 2 100) (mkBudgetUsage 1 20) (mkBudgetLimits 1 80).

Definition sample_metadata (n : Z) (class : AdmissionClass) : EventMetadata :=
  mkEventMetadata DiagnosticEventKind_AgentMessageDelta n class.

Definition sample_queue_event (n : Z) (class : AdmissionClass) : QueueEvent (T:=unit) :=
  mkQueueEvent tt (sample_metadata n class).

Definition sample_stored (n : Z) (class : AdmissionClass) : StoredEvent (T:=unit) :=
  mkStoredEvent tt (sample_metadata n class).

(** One content event of ten bytes fills the content share of the queue. *)
Definition sample_queue : SinkQueue (T:=unit) :=
  mkSinkQueue sample_queue_limits
    (mkQueueState [sample_stored 10 Content] None (sample_usage 10) (sample_usage 10) None 1)
    DropLedger_new.

Definition sample_runtime : Z := 2 ^ 32 + 10.

Lemma sample_queue_ok : queue_ok [] sample_queue.
Proof.
  split; [|split|done|constructor]; try done; cbn.
  - split; cbn; [by eexists|lia..].
  - constructor; [|constructor]. unfold sized. cbn. lia.
Qed.

Lemma sample_covers : covers sample_limits sample_runtime sample_queue.
Proof.
  split; [split; [unfold sample_runtime; cbn; lia|reflexivity]|].
  rewrite unpack_word. unfold usage_le, sample_runtime. vm_compute. split; discriminate.
Qed.

Lemma try_admit_evicts_least_witness :
  exists q' runtime' outcome,
    try_admit sample_limits true false sample_queue sample_runtime (sample_queue_event 70 Content) =
      Some (q', runtime', outcome) /\
    outcome = Enqueued [drop_delta (sample_metadata 10 Content)] /\
    qs_queued (sq_state q') = [sample_stored 70 Content].
Proof.
  destruct (try_admit_evicts_least sample_limits true [] sample_queue sample_runtime
    (sample_queue_event 70 Content) ltac:(by eexists) sample_queue_ok sample_covers
    ltac:(unfold sized; cbn; lia) eq_refl) as (q' & runtime' & outcome & H & _).
  exists q', runtime', outcome. split; [exact H|].
  vm_compute in H. injection H as <- <- <-. split; reflexivity.
Defined.

(** A reachable system: a sink whose admission is under way, and the same sink
    after it. *)
Definition sample_admitting : Sink (T:=unit) :=
  mkSink (SinkQueue_with_limits sample_queue_limits)
    (Some (sample_queue_event 10 Content, Plan_new)) [sample_metadata 10 Content] [] [].

Definition sample_admitted : Sink (T:=unit) :=
  mkSink sample_queue None [sample_metadata 10 Content] [] [].

Definition sample_sinks (s : Sink (T:=unit)) (runtime : Z) : Sinks := mkSinks runtime {[0%nat := s]}.

Lemma sample_sinks_update s runtime s' runtime' :
  update (sample_sinks s runtime) 0 s' runtime' = sample_sinks s' runtime'.
Proof. unfold update, sample_sinks. cbn. by rewrite insert_singleton_eq. Qed.

Lemma sample_admitting_reachable :
  sinks_reachable sample_limits true (sample_sinks sample_admitting 0).
Proof.
  eapply Relation_Operators.rt1n_trans.
  { apply (sinks_new _ _ sinks_init 0%nat (mkBudgetUsage 2 100) (mkBudgetUsage 1 20)
      sample_queue_limits); [done|done|usage_solve|usage_solve|by eexists]. }
  eapply Relation_Operators.rt1n_trans; [|apply Relation_Operators.rt1n_refl].
  rewrite <-(sample_sinks_update (Sink_new sample_queue_limits) 0 sample_admitting 0).
  apply (sinks_start _ _ _ 0%nat (Sink_new sample_queue_limits) (sample_queue_event 10 Content)
    (SinkQueue_with_limits sample_queue_limits) 0 (Next Plan_new)); [done|done| |done].
  unfold sized. cbn. lia.
Qed.

Lemma sample_admitted_reachable :
  sinks_reachable sample_limits true (sample_sinks sample_admitted sample_runtime).
Proof.
  apply Relations.Operators_Properties.clos_rt_rt1n.
  eapply Relation_Operators.rt_trans.
  { apply Relations.Operators_Properties.clos_rt1n_rt, sample_admitting_reachable. }
  apply Relation_Operators.rt_step. 
  rewrite <-(sample_sinks_update sample_admitting 0 sample_admitted sample_runtime).
  by apply (sinks_iterate _ _ _ 0%nat sample_admitting (sample_queue_event 10 Content) Plan_new
    sample_queue sample_runtime (Done (Enqueued []))).
Qed.

Lemma sinks_share_budget_witness :
  unpack sample_runtime = sample_usage 10 /\
  total_owned (ss_sinks (sample_sinks sample_admitted sample_runtime)) = unpack sample_runtime.
Proof.
  split; [reflexivity|]. symmetry.
  apply (sinks_share_budget sample_limits true (sample_sinks sample_admitted sample_runtime));
    [by eexists|exact sample_admitted_reachable].
Defined.

Lemma sinks_account_for_events_witness :
  map drop_delta (sk_offered sample_admitted) ≡ₚ
    admitting_deltas sample_admitted ++ holding (sk_queue sample_admitted) ++
    map drop_delta (sk_completed sample_admitted) ++ sk_dropped sample_admitted.
Proof.
  apply (sinks_account_for_events sample_limits true (sample_sinks sample_admitted sample_runtime) 0%nat
    sample_admitted); [by eexists|exact sample_admitted_reachable|reflexivity].
Defined.

Lemma sinks_never_panic_witness :
  is_Some (admit_start sample_limits (sk_queue sample_admitted) (sample_queue_event 70 Structural)
    sample_runtime).
Proof.
  apply (sinks_never_panic sample_limits true (sample_sinks sample_admitted sample_runtime) 0%nat
    sample_admitted); [by eexists|exact sample_admitted_reachable|reflexivity|].
  unfold sized. cbn. lia.
Defined.

Lemma structural_events_kept_witness :
  exists kept, qs_queued (sq_state sample_queue) = kept ++ [sample_stored 10 Content] /\
    kept `sublist_of` [] /\ structural_of kept = [].
Proof.
  apply (structural_events_kept sample_limits true (sample_sinks sample_admitting 0) 0%nat
    sample_admitting (sample_queue_event 10 Content) Plan_new sample_queue sample_runtime
    (Enqueued [])); [by eexists|exact sample_admitting_reachable|reflexivity|reflexivity|].
  vm_compute. reflexivity.
Defined.
