(* ===== verification/Summary.v ===== *)
(** * The delivery summary of a sink

    Models [rust/src/diagnostic_sink/summary.rs], and the [DeliveryProgress]
    of [dispatcher.rs] it is built from.  A sink's summary is [complete] when
    the subscriber saw everything; the theorems say what that word means, on
    its own and for the summary of a reachable sink. *)

From S2P Require Import Prelude Wire Scalar Kinds Detail Event Budget SinkQueue SinkQueueSpec SinkSystem.

Inductive ActOutcome := ActOutcome_Completed | ActOutcome_Cancelled | ActOutcome_Failed.

Definition ActOutcome_as_str (o : ActOutcome) : string :=
  match o with
  | ActOutcome_Completed => "completed"
  | ActOutcome_Cancelled => "cancelled"
  | ActOutcome_Failed => "failed"
  end.

Inductive SinkCloseReason :=
| ActFinished | CallbackFailed | SinkDeliveryOverflow | RuntimeShutdown.

#[export] Instance SinkCloseReason_eq_dec : EqDecision SinkCloseReason.
Proof. solve_decision. Defined.

Definition SinkCloseReason_as_str (r : SinkCloseReason) : string :=
  match r with
  | ActFinished => "act_finished"
  | CallbackFailed => "callback_failed"
  | SinkDeliveryOverflow => "delivery_overflow"
  | RuntimeShutdown => "runtime_shutdown"
  end.

Inductive CallbackFailureKind := Raised | InvalidReturn.

Record CallbackFailure := mkCallbackFailure {
  cf_kind : CallbackFailureKind;
  cf_event_sequence : Z;
  cf_exception_type : option string;
  cf_message : option string;
  cf_message_truncated : bool;
}.

Record DeliveryProgress := mkDeliveryProgress {
  dp_delivered_events : Z;
  dp_first_delivered_sequence : option Z;
  dp_last_delivered_sequence : option Z;
}.

Record SinkDropCount := mkSinkDropCount {
  sdc_event_kind : DiagnosticEventKind;
  sdc_events : Z;
  sdc_encoded_bytes : Z;
}.

Definition from_delta (delta : DropDelta) : SinkDropCount :=
  mkSinkDropCount (dd_event_kind delta) (dd_events delta) (dd_encoded_bytes delta).

Record SinkDeliverySummary := mkSinkDeliverySummary {
  su_run_id : CanonicalUuid;
  su_act_id : RunLocalId;
  su_act_outcome : option ActOutcome;
  su_close_reason : SinkCloseReason;
  su_complete : bool;
  su_delivered_events : Z;
  su_first_delivered_sequence : option Z;
  su_last_delivered_sequence : option Z;
  su_dropped_events : Z;
  su_dropped_bytes : Z;
  su_dropped_by_kind : list SinkDropCount;
  su_source_gaps : Z;
  su_truncated_payloads : Z;
  su_callback_failure : option CallbackFailure;
  su_callback_abandoned : bool;
}.

(** [Iterator::fold] with a saturating sum. *)
Definition saturating_total (f : SinkDropCount -> Z) (counts : list SinkDropCount) : Z :=
  fold_left (fun total count => saturating_add Usize total (f count)) counts 0.

(** [None] is the failed debug assertion. *)
Definition from_delivery_facts (debug_assertions : bool) (run_id : CanonicalUuid)
    (act_id : RunLocalId) (act_outcome : option ActOutcome) (nominal_close_reason : SinkCloseReason)
    (delivery : DeliveryProgress) (drops : list DropDelta) (source_gaps truncated_payloads : Z)
    (callback_failure : option CallbackFailure)
    (callback_abandoned unexpected_dispatcher_failure : bool) : option SinkDeliverySummary :=
  let close_reason :=
    match callback_failure with
    | Some _ => CallbackFailed
    | None => nominal_close_reason
    end in
  let callback_abandoned := callback_abandoned && bool_decide (callback_failure = None) in
  if debug_assertions && (callback_abandoned && negb (bool_decide (close_reason = RuntimeShutdown)))
  then None
  else
    let dropped_by_kind := map from_delta drops in
    let dropped_events := saturating_total sdc_events dropped_by_kind in
    let dropped_bytes := saturating_total sdc_encoded_bytes dropped_by_kind in
    let complete :=
      bool_decide (close_reason = ActFinished) && (dropped_events =? 0) && (source_gaps =? 0) &&
      (truncated_payloads =? 0) && bool_decide (callback_failure = None) &&
      negb callback_abandoned && negb unexpected_dispatcher_failure in
    Some (mkSinkDeliverySummary run_id act_id act_outcome close_reason complete
            (dp_delivered_events delivery) (dp_first_delivered_sequence delivery)
            (dp_last_delivered_sequence delivery) dropped_events dropped_bytes dropped_by_kind
            source_gaps truncated_payloads callback_failure callback_abandoned).

(** ** Lemmas *)

Lemma saturating_total_zero f counts :
  Forall (fun c => 0 <= f c) counts ->
  saturating_total f counts = 0 <-> Forall (fun c => f c = 0) counts.
Proof.
  intros Hf. unfold saturating_total.
  assert (forall total, 0 <= total ->
    fold_left (fun total count => saturating_add Usize total (f count)) counts total = 0 <->
    total = 0 /\ Forall (fun c => f c = 0) counts) as H.
  2: { rewrite H by lia. tauto. }
  induction Hf as [|c counts Hc Hf IH]; intros total Ht; cbn.
  { split; [intros ->; by split|by intros [-> _]]. }
  rewrite IH by (unfold saturating_add; cbn; lia). rewrite Forall_cons.
  unfold saturating_add. cbn. split.
  - intros [Hz Hr]. split; [lia|]. split; [lia|done].
  - intros (-> & -> & Hr). by split.
Qed.

(** Nothing in the snapshot was dropped: then no counter counted anything. *)
Lemma snapshot_zero (kinds : list DiagnosticEventKind) (ledger : DropLedger) :
  length kinds = length ledger ->
  Forall (fun d => dd_events d = 0)
    (omap (fun '(kind, counter) => counter_snapshot counter kind) (zip kinds ledger)) ->
  Forall (fun counter => dc_events counter = 0) ledger.
Proof.
  revert ledger. induction kinds as [|kind kinds IH]; intros [|counter ledger] Hlen H;
    cbn in *; [done..|].
  unfold counter_snapshot at 1 in H. destruct (dc_events counter =? 0) eqn:E; cbn in H.
  - constructor; [lia|]. apply IH; [lia|]. destruct (negb _); [by inversion H|done].
  - apply Forall_cons in H as [H _]. cbn in H. lia.
Qed.

Lemma snapshot_sized ledger :
  Forall (fun c => 0 <= dc_events c) ledger ->
  Forall (fun d => 0 <= dd_events d) (ledger_snapshot ledger).
Proof.
  unfold ledger_snapshot. intros H. generalize DiagnosticEventKind_ALL as kinds.
  induction H as [|counter ledger Hc Hl IH]; intros [|kind kinds]; cbn; [constructor..|].
  unfold counter_snapshot at 1. destruct (_ || _)%bool; [by constructor|done].
Qed.

(** ** Theorems *)

(** A summary is complete exactly when the act finished normally and
    nothing was lost on the way: no event dropped, no gap in the source, no
    truncated payload, no failed or abandoned callback, no failure of the
    dispatcher. *)
Theorem summary_complete_iff dbg run_id act_id outcome nominal delivery drops gaps truncated failure
    abandoned unexpected summary :
  Forall (fun d => 0 <= dd_events d) drops ->
  from_delivery_facts dbg run_id act_id outcome nominal delivery drops gaps truncated failure
    abandoned unexpected = Some summary ->
  su_complete summary = true <->
  nominal = ActFinished /\ Forall (fun d => dd_events d = 0) drops /\ gaps = 0 /\ truncated = 0 /\
  failure = None /\ abandoned = false /\ unexpected = false.
Proof.
  intros Hd. unfold from_delivery_facts. destruct (dbg && _)%bool; [done|]. intros [= <-].
  cbn [su_complete]. rewrite !andb_true_iff, !bool_decide_eq_true, !negb_true_iff, !Z.eqb_eq.
  rewrite saturating_total_zero by (by apply List.Forall_map). rewrite List.Forall_map.
  destruct failure; [intuition congruence|]. rewrite bool_decide_eq_true_2, andb_true_r by done.
  tauto.
Qed.

(** The complete summary of a reachable sink means that nothing was lost:
    no drop was ever reported, and everything offered to the sink was either
    completed by a callback or is still held by the sink. *)
Theorem complete_summary_lossless {T} rl dbg (ss : Sinks (T:=T)) k s run_id act_id outcome nominal
    delivery gaps truncated failure abandoned unexpected summary :
  is_Some (with_limits rl) -> sinks_reachable rl dbg ss -> ss_sinks ss !! k = Some s ->
  from_delivery_facts dbg run_id act_id outcome nominal delivery (drop_snapshot (sk_queue s)) gaps
    truncated failure abandoned unexpected = Some summary ->
  su_complete summary = true ->
  sk_dropped s = [] /\
  map drop_delta (sk_offered s) ≡ₚ
    admitting_deltas s ++ holding (sk_queue s) ++ map drop_delta (sk_completed s).
Proof.
  intros Hrl Hr Hk. unfold from_delivery_facts. destruct (dbg && _)%bool; [done|].
  intros [= <-] Hc.
  cbn [su_complete] in Hc. rewrite !andb_true_iff, !Z.eqb_eq in Hc.
  destruct Hc as ((((((_ & Hz) & _) & _) & _) & _) & _).
  destruct (sso_sinks _ _ (sinks_reachable_ok _ _ Hrl _ Hr) _ _ Hk) as [[_ _ Hld Hs] _ Hacc].
  assert (sk_dropped s = []) as Hnone.
  { apply ledger_counts_zero; [done|]. rewrite <-Hld.
    apply (snapshot_zero DiagnosticEventKind_ALL); [by rewrite Hld|].
    fold (ledger_snapshot (sq_drops (sk_queue s))). fold (drop_snapshot (sk_queue s)).
    assert (Forall (fun d => 0 <= dd_events d) (drop_snapshot (sk_queue s))) as Hsz.
    { apply snapshot_sized. rewrite Hld. unfold ledger_counts. rewrite List.Forall_map.
      apply List.Forall_forall. intros kind _. cbn. unfold saturated.
      assert (0 <= sum_of dd_events (of_kind kind (sk_dropped s))); [|cbn; lia].
      apply of_kind_sized; [intros ? []; lia|done]. }
    apply saturating_total_zero in Hz; [|by apply List.Forall_map].
    by rewrite List.Forall_map in Hz. }
  split; [done|]. unfold accounted in Hacc. by rewrite Hnone, app_nil_r in Hacc.
Qed.

(** ** Witnesses *)

Definition sample_delivery : DeliveryProgress := mkDeliveryProgress 0 None None.

Definition sample_summary (drops : list DropDelta) : option SinkDeliverySummary :=
  from_delivery_facts true (mkCanonicalUuid 7) (mkRunLocalId "act") (Some ActOutcome_Completed)
    ActFinished sample_delivery drops 0 0 None false false.

Lemma summary_complete_iff_witness :
  exists summary,
    sample_summary [drop_delta (sample_metadata 10 Content)] = Some summary /\
    ~ (su_complete summary = true).
Proof.
  eexists. split; [reflexivity|].
  rewrite (summary_complete_iff true (mkCanonicalUuid 7) (mkRunLocalId "act")
    (Some ActOutcome_Completed) ActFinished sample_delivery
    [drop_delta (sample_metadata 10 Content)] 0 0 None false false);
    [|by repeat constructor|reflexivity].
  intros (_ & H & _). by inversion H.
Defined.

Lemma complete_summary_lossless_witness :
  sk_dropped sample_admitted = [] /\
  map drop_delta (sk_offered sample_admitted) ≡ₚ
    admitting_deltas sample_admitted ++ holding (sk_queue sample_admitted) ++
    map drop_delta (sk_completed sample_admitted).
Proof.
  eapply (complete_summary_lossless sample_limits true (sample_sinks sample_admitted sample_runtime)
    0%nat sample_admitted (mkCanonicalUuid 7) (mkRunLocalId "act") (Some ActOutcome_Completed)
    ActFinished sample_delivery 0 0 None false false);
    [by eexists|exact sample_admitted_reachable|reflexivity|reflexivity|reflexivity].
Defined.
