(* ===== verification/ActSchema.v ===== *)
(** * Act schemas: the contract of a result and its validation

    Models the part of [troupe-agent-runtime/src/schema/mod.rs] that runs when
    an agent submits a result: the compiled contract, the limits on a submitted
    value, its validation against the contract with the paths of its issues, the
    conversion of integers of any size, and the prompt.  A [Vec] or [&str] of
    the contract is a list or a string; [f64] is the [spec_float] of the
    standard library.

    [serde_json] is a parameter: the number type (the crate is built with
    arbitrary precision, so a number is its text), its accessors, and the text
    of strings and choices in messages and prompts.  The map of a JSON object is
    a [BTreeMap]: the list of its entries in the order of their keys. *)

From Stdlib Require Import SpecFloat.
From stdpp Require Import sorting.
From S2P Require Import Prelude Wire.

#[local] Set Warnings "-register-all".

Class SerdeJson := {
  Number : Type;
  number_is_i64 : Number -> bool;
  number_is_u64 : Number -> bool;
  number_as_i64 : Number -> option Z;
  number_as_u64 : Number -> option Z;
  number_as_f64 : Number -> option spec_float;
  number_to_string : Number -> string;
  string_json : string -> string;
  strings_json : list string -> string;
  i64s_json : list Z -> string;
  f64s_json : list spec_float -> string;
  bools_json : list bool -> string;
  f64_json : spec_float -> string;
  f64_to_string : spec_float -> string;
}.

(** ** Limits *)

Definition SCRIPT_MAX_BYTES : Z := 256 * 1024.
Definition PROMPT_MAX_BYTES : Z := 1024 * 1024.
Definition RESULT_MAX_DEPTH : Z := 32.
Definition RESULT_MAX_NODES : Z := 65536.
Definition RESULT_STRING_MAX_SCALARS : Z := 1048576.
Definition RESULT_STRING_MAX_BYTES : Z := 4 * 1024 * 1024.
Definition BIG_INT_LEAF_DIGITS : Z := 38.
Definition RESULT_LIST_MAX_ITEMS : Z := 10000.
Definition MAX_VALIDATION_ISSUES : Z := 16.

(** ** Standard library *)

Definition f64_is_finite (f : spec_float) : bool :=
  match f with
  | S754_zero _ | S754_finite _ _ _ => true
  | S754_infinity _ | S754_nan => false
  end.

(** [chars().count()] of a UTF-8 string: the bytes that begin a scalar. *)
Definition is_continuation (c : ascii) : bool := (128 <=? byte_val c) && (byte_val c <? 192).

Definition scalar_count (s : string) : Z :=
  list_len (List.filter (fun c => negb (is_continuation c)) (bytes s)).

(** [Display] of integers. *)
Definition i64_to_string (z : Z) : string :=
  if z <? 0 then "-" +:+ u64_to_string (- z) else u64_to_string z.

(** [str::replace] of a character. *)
Definition str_replace (c : ascii) (by_ : string) (s : string) : string :=
  of_bytes (flat_map (fun d => if Ascii.eqb d c then bytes by_ else [d]) (bytes s)).

Definition opt_lt {A} (lt : A -> A -> bool) (a : A) (b : option A) : bool :=
  match b with
  | Some b => lt a b
  | None => false
  end.

Definition opt_gt {A} (lt : A -> A -> bool) (a : A) (b : option A) : bool :=
  match b with
  | Some b => lt b a
  | None => false
  end.

(** [choices.as_ref().is_some_and(|choices| !choices.contains(value))]. *)
Definition not_in {A} (eq : A -> A -> bool) (value : A) (choices : option (list A)) : bool :=
  match choices with
  | Some choices => negb (existsb (eq value) choices)
  | None => false
  end.

(** ** Contracts *)

Inductive JsonKind := Kind_String | Kind_Int64 | Kind_Float64 | Kind_Bool | Kind_Array | Kind_Object.

#[export] Instance JsonKind_eq_dec : EqDecision JsonKind.
Proof. solve_decision. Defined.

Definition JsonKind_parse (value : string) : option JsonKind :=
  if String.eqb value "string" then Some Kind_String
  else if String.eqb value "int64" then Some Kind_Int64
  else if String.eqb value "float64" then Some Kind_Float64
  else if String.eqb value "bool" then Some Kind_Bool
  else if String.eqb value "array" then Some Kind_Array
  else if String.eqb value "object" then Some Kind_Object
  else None.

Definition JsonKind_name (k : JsonKind) : string :=
  match k with
  | Kind_String => "string"
  | Kind_Int64 => "int64"
  | Kind_Float64 => "float64"
  | Kind_Bool => "bool"
  | Kind_Array => "array"
  | Kind_Object => "object"
  end.

Inductive ValueContract :=
| Contract_String (description : string) (min_length : option Z) (max_length : Z)
    (choices : option (list string))
| Contract_Int64 (description : string) (min max : option Z) (choices : option (list Z))
| Contract_Float64 (description : string) (min max : option spec_float)
    (choices : option (list spec_float))
| Contract_Bool (description : string) (choices : option (list bool))
| Contract_List (description : string) (item : ValueContract) (min_items : option Z) (max_items : Z)
| Contract_Object (description : string) (contract : ObjectContract)
| Contract_Nullable (inner : ValueContract)
| Contract_Custom (description : string) (json_kind : JsonKind) (prompt_fragment : string)
    (validator_id : Z)
with ObjectContract :=
| mkObjectContract (fields : list FieldContract)
with FieldContract :=
| mkFieldContract (name : string) (required : bool) (value : ValueContract).

Definition contract_fields (c : ObjectContract) : list FieldContract :=
  let 'mkObjectContract fields := c in fields.

Definition field_name (f : FieldContract) : string := let 'mkFieldContract name _ _ := f in name.

Definition field_required (f : FieldContract) : bool := let 'mkFieldContract _ required _ := f in required.

Definition field_value (f : FieldContract) : ValueContract := let 'mkFieldContract _ _ value := f in value.

Fixpoint contract_description (c : ValueContract) : string :=
  match c with
  | Contract_String description _ _ _ | Contract_Int64 description _ _ _
  | Contract_Float64 description _ _ _ | Contract_Bool description _
  | Contract_List description _ _ _ | Contract_Object description _
  | Contract_Custom description _ _ _ => description
  | Contract_Nullable inner => contract_description inner
  end.

Fixpoint contract_json_kind (c : ValueContract) : JsonKind :=
  match c with
  | Contract_String _ _ _ _ => Kind_String
  | Contract_Int64 _ _ _ _ => Kind_Int64
  | Contract_Float64 _ _ _ _ => Kind_Float64
  | Contract_Bool _ _ => Kind_Bool
  | Contract_List _ _ _ _ => Kind_Array
  | Contract_Object _ _ => Kind_Object
  | Contract_Nullable inner => contract_json_kind inner
  | Contract_Custom _ json_kind _ _ => json_kind
  end.

(** ** Values *)

Inductive ValidatedActValue :=
| Value_String (value : string)
| Value_Int64 (value : Z)
| Value_UInt64 (value : Z)
| Value_BigInt (value : string)
| Value_Float64 (value : spec_float)
| Value_Bool (value : bool)
| Value_Null
| Value_List (values : list ValidatedActValue)
| Value_Object (fields : list (string * ValidatedActValue)).

Record CustomValidationJob := mkCustomJob {
  job_validator_id : Z;
  job_path : string;
  job_value : ValidatedActValue;
}.

Record ValidationIssue := mkIssue {
  issue_path : string;
  issue_code : string;
  issue_message : string;
}.

Inductive NativeValidationOutcome :=
| Valid (value : ValidatedActValue) (custom_jobs : list CustomValidationJob)
| Invalid (issues : list ValidationIssue) (truncated : bool).

Record IssueCollector := mkCollector { ic_items : list ValidationIssue; ic_truncated : bool }.

Definition IssueCollector_default : IssueCollector := mkCollector [] false.

Definition IssueCollector_push (self : IssueCollector) (issue : ValidationIssue) : IssueCollector :=
  if list_len (ic_items self) <? MAX_VALIDATION_ISSUES then
    mkCollector (ic_items self ++ [issue]) (ic_truncated self)
  else mkCollector (ic_items self) true.

Definition join_path (parent name : string) : string :=
  let escaped := str_replace "/" "~1" (str_replace "~" "~0" name) in
  parent +:+ "/" +:+ escaped.

Definition index_path (parent : string) (index : Z) : string := parent +:+ "/" +:+ u64_to_string index.

(** [BTreeMap::get]. *)
Fixpoint map_get {V} (name : string) (values : list (string * V)) : option V :=
  match values with
  | [] => None
  | (k, v) :: values' => if String.eqb k name then Some v else map_get name values'
  end.

Section Schema.
Context `{SerdeJson}.

Inductive JsonValue :=
| Json_Null
| Json_Bool (value : bool)
| Json_Number (value : Number)
| Json_String (value : string)
| Json_Array (values : list JsonValue)
| Json_Object (values : list (string * JsonValue)).

(** [.bytes().any(|byte| matches!(byte, b'.' | b'e' | b'E'))]. *)
Definition has_fraction_mark (encoded : string) : bool :=
  existsb (fun c => Ascii.eqb c "." || Ascii.eqb c "e" || Ascii.eqb c "E") (bytes encoded).

Definition actual_kind (value : JsonValue) : string :=
  match value with
  | Json_Null => "null"
  | Json_Bool _ => "boolean"
  | Json_Number number =>
      if number_is_i64 number then "int64"
      else if number_is_u64 number then "integer outside int64"
      else if negb (has_fraction_mark (number_to_string number)) then "integer outside int64"
      else "number"
  | Json_String _ => "string"
  | Json_Array _ => "array"
  | Json_Object _ => "object"
  end.

(** ** Limits on a submitted value *)

Definition resource_issue (path message : string) : ValidationIssue :=
  mkIssue path "resource_limit" message.

Definition string_resource_issue (value path subject : string) : option ValidationIssue :=
  let scalars := scalar_count value in
  if (scalars <=? RESULT_STRING_MAX_SCALARS) && (str_len value <=? RESULT_STRING_MAX_BYTES) then None
  else
    Some (resource_issue path
      ("expected " +:+ subject +:+ " with at most " +:+ u64_to_string RESULT_STRING_MAX_SCALARS
       +:+ " scalars and " +:+ u64_to_string RESULT_STRING_MAX_BYTES +:+ " UTF-8 bytes, got "
       +:+ subject +:+ " with " +:+ u64_to_string scalars +:+ " scalars and "
       +:+ u64_to_string (str_len value) +:+ " UTF-8 bytes")).

(** The loops over the children; [check] is the recursive call. *)
Section Children.
Context (check : JsonValue -> string -> Z -> option ValidationIssue * Z) (path : string).

Fixpoint check_items (index : Z) (values : list JsonValue) (nodes : Z) : option ValidationIssue * Z :=
  match values with
  | [] => (None, nodes)
  | value :: values' =>
      match check value (index_path path index) nodes with
      | (Some issue, nodes) => (Some issue, nodes)
      | (None, nodes) => check_items (index + 1) values' nodes
      end
  end.

Fixpoint check_entries (values : list (string * JsonValue)) (nodes : Z) : option ValidationIssue * Z :=
  match values with
  | [] => (None, nodes)
  | (name, value) :: values' =>
      match string_resource_issue name path "object key" with
      | Some issue => (Some issue, nodes)
      | None =>
          match check value (join_path path name) nodes with
          | (Some issue, nodes) => (Some issue, nodes)
          | (None, nodes) => check_entries values' nodes
          end
      end
  end.
End Children.

Fixpoint check_result_resources (value : JsonValue) (path : string) (depth nodes : Z)
    : option ValidationIssue * Z :=
  let nodes := nodes + 1 in
  if RESULT_MAX_DEPTH <? depth then
    (Some (resource_issue path
       ("expected result depth at most " +:+ u64_to_string RESULT_MAX_DEPTH +:+ ", got "
        +:+ actual_kind value +:+ " beyond the depth limit")), nodes)
  else if RESULT_MAX_NODES <? nodes then
    (Some (resource_issue path
       ("expected at most " +:+ u64_to_string RESULT_MAX_NODES +:+ " result nodes, got "
        +:+ actual_kind value +:+ " beyond the node limit")), nodes)
  else
    match value with
    | Json_String value => (string_resource_issue value path "string", nodes)
    | Json_Array values =>
        if RESULT_LIST_MAX_ITEMS <? list_len values then
          (Some (resource_issue path
             ("expected array with at most " +:+ u64_to_string RESULT_LIST_MAX_ITEMS
              +:+ " items, got array with " +:+ u64_to_string (list_len values) +:+ " items")), nodes)
        else
          check_items (fun value path nodes => check_result_resources value path (depth + 1) nodes)
            path 0 values nodes
    | Json_Object values =>
        check_entries (fun value path nodes => check_result_resources value path (depth + 1) nodes)
          path values nodes
    | _ => (None, nodes)
    end.

(** ** The constraints in messages *)

Definition with_choices {A} (text : string) (choices : option (list A)) (json : list A -> string)
    : string -> string :=
  fun constraint =>
    match choices with
    | Some choices => constraint +:+ text +:+ json choices
    | None => constraint
    end.

Definition string_constraint (min_length : option Z) (max_length : Z) (choices : option (list string))
    : string :=
  with_choices " and value one of " choices strings_json
    match min_length with
    | Some minimum =>
        "string with scalar length in inclusive range [" +:+ u64_to_string minimum +:+ ", "
        +:+ u64_to_string max_length +:+ "]"
    | None => "string with at most " +:+ u64_to_string max_length +:+ " scalars"
    end.

Definition int64_constraint (min max : option Z) (choices : option (list Z)) : string :=
  with_choices " and one of " choices i64s_json
    match min, max with
    | Some minimum, Some maximum =>
        "int64 in inclusive range [" +:+ i64_to_string minimum +:+ ", " +:+ i64_to_string maximum
        +:+ "]"
    | Some minimum, None => "int64 greater than or equal to " +:+ i64_to_string minimum
    | None, Some maximum => "int64 less than or equal to " +:+ i64_to_string maximum
    | None, None => "int64"
    end.

Definition float64_constraint (min max : option spec_float) (choices : option (list spec_float))
    : string :=
  with_choices " and one of " choices f64s_json
    match min, max with
    | Some minimum, Some maximum =>
        "finite float64 in inclusive range [" +:+ f64_to_string minimum +:+ ", "
        +:+ f64_to_string maximum +:+ "]"
    | Some minimum, None => "finite float64 greater than or equal to " +:+ f64_to_string minimum
    | None, Some maximum => "finite float64 less than or equal to " +:+ f64_to_string maximum
    | None, None => "finite float64"
    end.

Definition bool_constraint (choices : option (list bool)) : string :=
  with_choices " one of " choices bools_json "boolean".

Definition array_constraint (min_items : option Z) (max_items : Z) : string :=
  match min_items with
  | Some minimum =>
      "array with item count in inclusive range [" +:+ u64_to_string minimum +:+ ", "
      +:+ u64_to_string max_items +:+ "]"
  | None => "array with at most " +:+ u64_to_string max_items +:+ " items"
  end.

(** ** Validation

    The collector of issues and the jobs for custom validators are threaded
    through the calls. *)

Record Checking := mkChecking {
  ck_issues : IssueCollector;
  ck_jobs : list CustomValidationJob;
}.

Definition push_issue (st : Checking) (path code message : string) : Checking :=
  mkChecking (IssueCollector_push (ck_issues st) (mkIssue path code message)) (ck_jobs st).

Definition push_job (st : Checking) (job : CustomValidationJob) : Checking :=
  mkChecking (ck_issues st) (ck_jobs st ++ [job]).

Definition Checked : Type := Checking * option ValidatedActValue.

Definition validate_string (min_length : option Z) (max_length : Z) (choices : option (list string))
    (value : JsonValue) (path : string) (st : Checking) : Checked :=
  match value with
  | Json_String value =>
      let length := scalar_count value in
      if opt_lt Z.ltb length min_length || (max_length <? length) then
        (push_issue st path "length_limit"
           ("expected " +:+ string_constraint min_length max_length choices +:+ ", got string with "
            +:+ u64_to_string length +:+ " scalars"), None)
      else if not_in String.eqb value choices then
        (push_issue st path "not_in_choices"
           ("expected string one of " +:+ strings_json (default [] choices)
            +:+ ", got string outside the allowed choices"), None)
      else (st, Some (Value_String value))
  | _ =>
      (push_issue st path "type_mismatch"
         ("expected " +:+ string_constraint min_length max_length choices +:+ ", got "
          +:+ actual_kind value), None)
  end.

(** [Value::as_i64], [as_f64]. *)
Definition value_as_i64 (value : JsonValue) : option Z :=
  match value with
  | Json_Number number => number_as_i64 number
  | _ => None
  end.

Definition value_as_f64 (value : JsonValue) : option spec_float :=
  match value with
  | Json_Number number => number_as_f64 number
  | _ => None
  end.

(** [value.as_f64().filter(|value| value.is_finite())]. *)
Definition value_as_finite (value : JsonValue) : option spec_float :=
  f ← value_as_f64 value;
  if f64_is_finite f then Some f else None.

Definition validate_int64 (min max : option Z) (choices : option (list Z)) (value : JsonValue)
    (path : string) (st : Checking) : Checked :=
  match value_as_i64 value with
  | None =>
      (push_issue st path "type_mismatch"
         ("expected " +:+ int64_constraint min max choices +:+ ", got " +:+ actual_kind value), None)
  | Some value =>
      if opt_lt Z.ltb value min || opt_gt Z.ltb value max then
        (push_issue st path "out_of_range"
           ("expected " +:+ int64_constraint min max choices
            +:+ ", got int64 outside the accepted range"), None)
      else if not_in Z.eqb value choices then
        (push_issue st path "not_in_choices"
           ("expected int64 one of " +:+ i64s_json (default [] choices)
            +:+ ", got int64 outside the allowed choices"), None)
      else (st, Some (Value_Int64 value))
  end.

Definition validate_float64 (min max : option spec_float) (choices : option (list spec_float))
    (value : JsonValue) (path : string) (st : Checking) : Checked :=
  match value_as_finite value with
  | None =>
      (push_issue st path "type_mismatch"
         ("expected " +:+ float64_constraint min max choices +:+ ", got " +:+ actual_kind value), None)
  | Some value =>
      if opt_lt SFltb value min || opt_gt SFltb value max then
        (push_issue st path "out_of_range"
           ("expected " +:+ float64_constraint min max choices
            +:+ ", got number outside the accepted range"), None)
      else if not_in SFeqb value choices then
        (push_issue st path "not_in_choices"
           ("expected float64 one of " +:+ f64s_json (default [] choices)
            +:+ ", got number outside the allowed choices"), None)
      else (st, Some (Value_Float64 value))
  end.

Definition validate_bool (choices : option (list bool)) (value : JsonValue) (path : string)
    (st : Checking) : Checked :=
  match value with
  | Json_Bool value =>
      if not_in Bool.eqb value choices then
        (push_issue st path "not_in_choices"
           ("expected boolean one of " +:+ bools_json (default [] choices)
            +:+ ", got boolean outside the allowed choices"), None)
      else (st, Some (Value_Bool value))
  | _ =>
      (push_issue st path "type_mismatch"
         ("expected " +:+ bool_constraint choices +:+ ", got " +:+ actual_kind value), None)
  end.

(** [collect::<Option<Vec<_>>>]. *)
Fixpoint collect_options {A} (l : list (option A)) : option (list A) :=
  match l with
  | [] => Some []
  | Some a :: l' => (fun l => a :: l) <$> collect_options l'
  | None :: _ => None
  end.

Fixpoint validated_json_value (value : JsonValue) : option ValidatedActValue :=
  match value with
  | Json_Null => Some Value_Null
  | Json_Bool value => Some (Value_Bool value)
  | Json_Number value =>
      match number_as_i64 value, number_as_u64 value with
      | Some z, _ => Some (Value_Int64 z)
      | None, Some z => Some (Value_UInt64 z)
      | None, None =>
          let encoded := number_to_string value in
          if negb (has_fraction_mark encoded) then Some (Value_BigInt encoded)
          else Value_Float64 <$> number_as_f64 value
      end
  | Json_String value => Some (Value_String value)
  | Json_Array values => Value_List <$> collect_options (map validated_json_value values)
  | Json_Object values =>
      Value_Object <$>
      collect_options
        (map (fun '(name, value) => (fun v => (name, v)) <$> validated_json_value value) values)
  end.

Definition validate_custom_kind (kind : JsonKind) (value : JsonValue) : option ValidatedActValue :=
  match kind with
  | Kind_String =>
      match value with Json_String value => Some (Value_String value) | _ => None end
  | Kind_Int64 => Value_Int64 <$> value_as_i64 value
  | Kind_Float64 => Value_Float64 <$> value_as_finite value
  | Kind_Bool => match value with Json_Bool value => Some (Value_Bool value) | _ => None end
  | Kind_Array =>
      match value with Json_Array _ => validated_json_value value | _ => None end
  | Kind_Object =>
      match value with Json_Object _ => validated_json_value value | _ => None end
  end.

Definition validate_custom (json_kind : JsonKind) (validator_id : Z) (value : JsonValue)
    (path : string) (st : Checking) : Checked :=
  match validate_custom_kind json_kind value with
  | Some validated => (push_job st (mkCustomJob validator_id path validated), Some validated)
  | None =>
      (push_issue st path "type_mismatch"
         ("expected custom " +:+ JsonKind_name json_kind +:+ " value, got " +:+ actual_kind value),
       None)
  end.

(** [values.iter().enumerate().filter_map(..).collect()]. *)
Fixpoint validate_items (validate : JsonValue -> string -> Checking -> Checked) (path : string)
    (index : Z) (values : list JsonValue) (st : Checking) : Checking * list ValidatedActValue :=
  match values with
  | [] => (st, [])
  | value :: values' =>
      let '(st, validated) := validate value (index_path path index) st in
      let '(st, output) := validate_items validate path (index + 1) values' st in
      (st, match validated with Some v => v :: output | None => output end)
  end.

(** The item count of a list, before its items. *)
Definition check_item_count (min_items : option Z) (max_items : Z) (values : list JsonValue)
    (path : string) (st : Checking) : Checking :=
  if opt_lt Z.ltb (list_len values) min_items || (max_items <? list_len values) then
    push_issue st path "item_limit"
      ("expected " +:+ array_constraint min_items max_items +:+ ", got array with "
       +:+ u64_to_string (list_len values) +:+ " items")
  else st.

(** A field with the validation of its value. *)
Definition FieldCheck : Type := string * bool * (JsonValue -> string -> Checking -> Checked).

(** The loop over the declared fields. *)
Fixpoint validate_fields (fields : list FieldCheck) (values : list (string * JsonValue))
    (path : string) (st : Checking) : Checking * list (string * ValidatedActValue) :=
  match fields with
  | [] => (st, [])
  | (name, required, validate) :: fields' =>
      let field_path := join_path path name in
      match map_get name values with
      | Some value =>
          let '(st, validated) := validate value field_path st in
          let '(st, output) := validate_fields fields' values path st in
          (st, match validated with Some v => (name, v) :: output | None => output end)
      | None =>
          let st :=
            if required then
              push_issue st field_path "missing_field" "expected required field, got missing field"
            else st in
          validate_fields fields' values path st
      end
  end.

(** The extra names: those of a [BTreeMap] come sorted, and are sorted again. *)
Definition extra_names (expected : list string) (values : list (string * JsonValue)) : list string :=
  merge_sort strings.String.le
    (List.filter (fun name => negb (existsb (String.eqb name) expected)) (map fst values)).

Definition push_extras (extras : list string) (path : string) (st : Checking) : Checking :=
  fold_left (fun st name =>
      push_issue st (join_path path name) "extra_field" "expected a declared field, got extra field")
    extras st.

(** [validate_object], given the validation of the values of its fields. *)
Definition validate_object_with (fields : list FieldCheck) (value : JsonValue) (path : string)
    (st : Checking) : Checked :=
  match value with
  | Json_Object values =>
      let '(st, output) := validate_fields fields values path st in
      let st := push_extras (extra_names (map (fun f => f.1.1) fields) values) path st in
      (st, Some (Value_Object output))
  | _ =>
      (push_issue st path "type_mismatch" ("expected object, got " +:+ actual_kind value), None)
  end.

Fixpoint validate_value (contract : ValueContract) (value : JsonValue) (path : string)
    (st : Checking) : Checked :=
  match contract with
  | Contract_String _ min_length max_length choices =>
      validate_string min_length max_length choices value path st
  | Contract_Int64 _ min max choices => validate_int64 min max choices value path st
  | Contract_Float64 _ min max choices => validate_float64 min max choices value path st
  | Contract_Bool _ choices => validate_bool choices value path st
  | Contract_List _ item min_items max_items =>
      match value with
      | Json_Array values =>
          let st := check_item_count min_items max_items values path st in
          let '(st, output) := validate_items (validate_value item) path 0 values st in
          (st, Some (Value_List output))
      | _ =>
          (push_issue st path "type_mismatch"
             ("expected " +:+ array_constraint min_items max_items +:+ ", got "
              +:+ actual_kind value), None)
      end
  | Contract_Object _ (mkObjectContract fields) =>
      validate_object_with
        (map (fun '(mkFieldContract name required contract) => (name, required, validate_value contract))
           fields) value path st
  | Contract_Nullable inner =>
      match value with
      | Json_Null => (st, Some Value_Null)
      | _ => validate_value inner value path st
      end
  | Contract_Custom _ json_kind _ validator_id =>
      validate_custom json_kind validator_id value path st
  end.

Definition field_check (f : FieldContract) : FieldCheck :=
  (field_name f, field_required f, validate_value (field_value f)).

Definition validate_object (contract : ObjectContract) (value : JsonValue) (path : string)
    (st : Checking) : Checked :=
  validate_object_with (map field_check (contract_fields contract)) value path st.

(** [CompiledActSchema::validate]; [None] is the failed [expect]. *)
Definition schema_validate (root : ObjectContract) (value : JsonValue) : option NativeValidationOutcome :=
  match check_result_resources value EmptyString 1 0 with
  | (Some issue, _) => Some (Invalid [issue] false)
  | (None, _) =>
      let '(st, validated) :=
        validate_object root value EmptyString (mkChecking IssueCollector_default []) in
      match ic_items (ck_issues st) with
      | [] => v ← validated; Some (Valid v (ck_jobs st))
      | issues => Some (Invalid issues (ic_truncated (ck_issues st)))
      end
  end.

(** ** The prompt *)

Definition newline : string := String "010" EmptyString.

Definition spaces (n : Z) : string := of_bytes (repeat " "%char (Z.to_nat n)).

Definition render_prompt_text (label value : string) : string := label +:+ "=" +:+ string_json value.

Definition render_choices {A} (choices : option (list A)) (json : list A -> string) : string :=
  match choices with
  | Some choices => "; one of " +:+ json choices
  | None => EmptyString
  end.

Definition render_range {A} (min max : option A) (lowest highest : string) (text : A -> string) : string :=
  if bool_decide (is_Some min) || bool_decide (is_Some max) then
    "; inclusive range " +:+ from_option text lowest min +:+ ".." +:+ from_option text highest max
  else EmptyString.

(** The fields of an object, with the rendering of their values. *)
Fixpoint render_fields (fields : list (string * bool * string)) (indent : Z) : string :=
  match fields with
  | [] => EmptyString
  | (name, required, value) :: fields' =>
      spaces (indent + 2) +:+ string_json name +:+ (if required then EmptyString else "?") +:+ ": "
      +:+ value +:+ (match fields' with [] => EmptyString | _ => "," end) +:+ newline
      +:+ render_fields fields' indent
  end.

Fixpoint render_value (contract : ValueContract) (indent : Z) : string :=
  match contract with
  | Contract_String description min_length max_length choices =>
      "<string; " +:+ render_prompt_text "description" description
      +:+ match min_length with
          | Some minimum => "; minimum length " +:+ u64_to_string minimum
          | None => EmptyString
          end
      +:+ "; maximum length " +:+ u64_to_string max_length
      +:+ render_choices choices strings_json +:+ ">"
  | Contract_Int64 description min max choices =>
      "<int64; " +:+ render_prompt_text "description" description
      +:+ render_range min max "int64-min" "int64-max" i64_to_string
      +:+ render_choices choices i64s_json +:+ ">"
  | Contract_Float64 description min max choices =>
      "<float64; " +:+ render_prompt_text "description" description
      +:+ render_range min max "float64-min" "float64-max" f64_to_string
      +:+ render_choices choices f64s_json +:+ ">"
  | Contract_Bool description choices =>
      "<bool; " +:+ render_prompt_text "description" description
      +:+ render_choices choices bools_json +:+ ">"
  | Contract_List description item min_items max_items =>
      "<array; " +:+ render_prompt_text "description" description
      +:+ match min_items with
          | Some minimum => "; minimum items " +:+ u64_to_string minimum
          | None => EmptyString
          end
      +:+ "; maximum items " +:+ u64_to_string max_items +:+ "; items "
      +:+ render_value item indent +:+ ">"
  | Contract_Object description (mkObjectContract fields) =>
      "<object; " +:+ render_prompt_text "description" description +:+ "> {" +:+ newline
      +:+ render_fields
            (map (fun '(mkFieldContract name required contract) =>
                    (name, required, render_value contract (indent + 2))) fields) indent
      +:+ spaces indent +:+ "}"
  | Contract_Nullable inner => render_value inner indent +:+ " or null"
  | Contract_Custom description json_kind prompt_fragment _ =>
      "<" +:+ JsonKind_name json_kind +:+ "; " +:+ render_prompt_text "description" description
      +:+ "; " +:+ render_prompt_text "custom_constraint" prompt_fragment +:+ ">"
  end.

Definition render_object (contract : ObjectContract) (indent : Z) : string :=
  "{" +:+ newline
  +:+ render_fields
        (map (fun f => (field_name f, field_required f, render_value (field_value f) (indent + 2)))
           (contract_fields contract)) indent
  +:+ spaces indent +:+ "}".

Definition RESULT_CHANNEL_DESCRIPTION : string :=
  "Return the current Actor's structured result to the calling Troupe Production. This "
  +:+ "built-in server runs in the local Troupe process, listens only on 127.0.0.1, and "
  +:+ "authenticates each Actor route. It validates the value and stores one accepted result "
  +:+ "for the caller; it does not itself publish to GitHub, upload to remote storage, or send "
  +:+ "the value to a third-party service. Submit only the result authorized by the current "
  +:+ "task, never credentials or unrelated private files. Correct schema errors in this turn; "
  +:+ "after acceptance do not resubmit. A provider denial is not a schema error: do not "
  +:+ "bypass it.".

Inductive PromptError := PromptScriptTooLong | PromptTooLong.

(** [CompiledActSchema::render_prompt]. *)
Definition schema_render_prompt (root : ObjectContract) (script : string) : result string PromptError :=
  if SCRIPT_MAX_BYTES <? str_len script then Err PromptScriptTooLong
  else
    let prompt :=
      "TROUPE_ACT_V1" +:+ newline +:+ "RESULT_CHANNEL" +:+ newline +:+ RESULT_CHANNEL_DESCRIPTION
      +:+ newline +:+ "SCRIPT_JSON" +:+ newline +:+ string_json script +:+ newline
      +:+ "RESULT_CONTRACT" +:+ newline +:+ render_object root 0 +:+ newline
      +:+ "Submit exactly one accepted result through troupe_submit_result." +:+ newline
      +:+ "Pass value as a JSON object, not a JSON-encoded string." +:+ newline
      +:+ "Extra fields are forbidden. Correct validation errors within this same turn." +:+ newline
      +:+ "Assistant text is not a result channel." in
    if PROMPT_MAX_BYTES <? str_len prompt then Err PromptTooLong else Ok prompt.

End Schema.

(** ** Integers of any size

    A Python integer is a [Z]; [powers] is the memo of powers of ten.  [None]
    is a recursion deeper than [fuel]; the error is the [ValueError]. *)

Inductive BigIntError := InvalidIntegerToken.

Definition digit_power (powers : gmap Z Z) (n : Z) : gmap Z Z * Z :=
  match powers !! n with
  | Some scale => (powers, scale)
  | None => let scale := 10 ^ n in (<[n := scale]> powers, scale)
  end.

Fixpoint decimal_digits_into_py (fuel : nat) (digits : list ascii) (powers : gmap Z Z)
    : option (gmap Z Z * result Z BigIntError) :=
  match fuel with
  | O => None
  | S fuel' =>
      if list_len digits <=? BIG_INT_LEAF_DIGITS then
        Some (powers,
              match digits with
              | [] => Err InvalidIntegerToken
              | _ => ok_or (parse_digits U128 0 digits) InvalidIntegerToken
              end)
      else
        let midpoint := (length digits / 2)%nat in
        let left_digits := take midpoint digits in
        let right_digits := drop midpoint digits in
        '(powers, high) ← decimal_digits_into_py fuel' left_digits powers;
        match high with
        | Err e => Some (powers, Err e)
        | Ok high =>
            '(powers, low) ← decimal_digits_into_py fuel' right_digits powers;
            match low with
            | Err e => Some (powers, Err e)
            | Ok low =>
                let '(powers, scale) := digit_power powers (list_len right_digits) in
                Some (powers, Ok (high * scale + low))
            end
        end
  end.

Definition arbitrary_precision_int (fuel : nat) (encoded : string) : option (result Z BigIntError) :=
  let '(negative, digits) :=
    match bytes encoded with
    | "-"%char :: digits => (true, digits)
    | digits => (false, digits)
    end in
  match digits with
  | [] => Some (Err InvalidIntegerToken)
  | _ =>
      if negb (forallb is_ascii_digit digits) then Some (Err InvalidIntegerToken)
      else
        '(_, value) ← decimal_digits_into_py fuel digits ∅;
        Some (result_map (fun value => if negative then - value else value) value)
  end.
