(* ===== verification/ActSchemaSpec.v ===== *)
(** * Validation of act results: what it accepts and what it reports

    The validation of [ActSchema] against a declarative reading of contracts:
    which JSON values a contract admits and as what value, and which places of a
    value break it.  The collector keeps at most sixteen issues; the theorems
    say what its bounded list tells about all of them. *)

From Stdlib Require Import SpecFloat.
From stdpp Require Import sorting.
From S2P Require Import Prelude Wire ActSchema.

#[local] Set Warnings "-register-all".

(** ** Induction *)

Section ContractInd.
  Context (P : ValueContract -> Prop).
  Hypothesis H_string : forall d mn mx ch, P (Contract_String d mn mx ch).
  Hypothesis H_int64 : forall d mn mx ch, P (Contract_Int64 d mn mx ch).
  Hypothesis H_float64 : forall d mn mx ch, P (Contract_Float64 d mn mx ch).
  Hypothesis H_bool : forall d ch, P (Contract_Bool d ch).
  Hypothesis H_list : forall d item mn mx, P item -> P (Contract_List d item mn mx).
  Hypothesis H_object : forall d fields,
    Forall (fun f => P (field_value f)) fields -> P (Contract_Object d (mkObjectContract fields)).
  Hypothesis H_nullable : forall inner, P inner -> P (Contract_Nullable inner).
  Hypothesis H_custom : forall d k f id, P (Contract_Custom d k f id).

Fixpoint contract_nested_ind (c : ValueContract) : P c :=
    match c with
    | Contract_String d mn mx ch => H_string d mn mx ch
    | Contract_Int64 d mn mx ch => H_int64 d mn mx ch
    | Contract_Float64 d mn mx ch => H_float64 d mn mx ch
    | Contract_Bool d ch => H_bool d ch
    | Contract_List d item mn mx => H_list d item mn mx (contract_nested_ind item)
    | Contract_Object d (mkObjectContract fields) =>
        H_object d fields
          ((fix go (fs : list FieldContract) : Forall (fun f => P (field_value f)) fs :=
              match fs with
              | [] => List.Forall_nil _
              | f :: fs' =>
                  @List.Forall_cons _ (fun f => P (field_value f)) f fs'
                    (match f as f return P (field_value f) with
                     | mkFieldContract _ _ value => contract_nested_ind value
                     end) (go fs')
              end) fields)
    | Contract_Nullable inner => H_nullable inner (contract_nested_ind inner)
    | Contract_Custom d k f id => H_custom d k f id
    end.
End ContractInd.

Section Spec.
Context `{SerdeJson}.

Section JsonInd.
  Context (P : JsonValue -> Prop).
  Hypothesis H_null : P Json_Null.
  Hypothesis H_bool : forall b, P (Json_Bool b).
  Hypothesis H_number : forall n, P (Json_Number n).
  Hypothesis H_string : forall s, P (Json_String s).
  Hypothesis H_array : forall values, Forall P values -> P (Json_Array values).
  Hypothesis H_object : forall values, Forall (fun e => P e.2) values -> P (Json_Object values).

Fixpoint json_nested_ind (v : JsonValue) : P v :=
    match v with
    | Json_Null => H_null
    | Json_Bool b => H_bool b
    | Json_Number n => H_number n
    | Json_String s => H_string s
    | Json_Array values =>
        H_array values
          ((fix go (vs : list JsonValue) : Forall P vs :=
              match vs with
              | [] => List.Forall_nil _
              | v :: vs' => @List.Forall_cons _ P v vs' (json_nested_ind v) (go vs')
              end) values)
    | Json_Object values =>
        H_object values
          ((fix go (vs : list (string * JsonValue)) : Forall (fun e => P e.2) vs :=
              match vs with
              | [] => List.Forall_nil _
              | e :: vs' =>
                  @List.Forall_cons _ (fun e => P e.2) e vs' (json_nested_ind e.2) (go vs')
              end) values)
    end.
End JsonInd.

(** ** Which values a contract admits *)

Definition within_length (s : string) (min_length : option Z) (max_length : Z) : Prop :=
  (forall m, min_length = Some m -> m <= scalar_count s) /\ scalar_count s <= max_length.

Definition within_range (z : Z) (min max : option Z) : Prop :=
  (forall m, min = Some m -> m <= z) /\ (forall m, max = Some m -> z <= m).

Definition within_float_range (f : spec_float) (min max : option spec_float) : Prop :=
  (forall m, min = Some m -> SFltb f m = false) /\ (forall m, max = Some m -> SFltb m f = false).

Definition within_count (values : list JsonValue) (min_items : option Z) (max_items : Z) : Prop :=
  (forall m, min_items = Some m -> m <= list_len values) /\ list_len values <= max_items.

Definition among {A} (a : A) (choices : option (list A)) : Prop :=
  forall l, choices = Some l -> a ∈ l.

(** Choices of floats are compared as floats: [0.0] is among [-0.0]. *)
Definition float_among (f : spec_float) (choices : option (list spec_float)) : Prop :=
  forall l, choices = Some l -> Exists (fun x => SFeqb f x = true) l.

Definition declared (fields : list FieldContract) (name : string) : Prop :=
  name ∈ map field_name fields.

(** [valid_as c json path v jobs]: the contract admits [json] as the value [v],
    and the custom validators still have to see [jobs], in this order, with the
    paths of their values below [path]. *)
Inductive valid_as : ValueContract -> JsonValue -> string -> ValidatedActValue ->
    list CustomValidationJob -> Prop :=
| valid_string d mn mx ch s p :
    within_length s mn mx -> among s ch ->
    valid_as (Contract_String d mn mx ch) (Json_String s) p (Value_String s) []
| valid_int64 d mn mx ch json z p :
    value_as_i64 json = Some z -> within_range z mn mx -> among z ch ->
    valid_as (Contract_Int64 d mn mx ch) json p (Value_Int64 z) []
| valid_float64 d mn mx ch json f p :
    value_as_finite json = Some f -> within_float_range f mn mx -> float_among f ch ->
    valid_as (Contract_Float64 d mn mx ch) json p (Value_Float64 f) []
| valid_bool d ch b p :
    among b ch -> valid_as (Contract_Bool d ch) (Json_Bool b) p (Value_Bool b) []
| valid_list d item mn mx values p vs jobs :
    within_count values mn mx -> items_valid item p 0 values vs jobs ->
    valid_as (Contract_List d item mn mx) (Json_Array values) p (Value_List vs) jobs
| valid_object d fields values p out jobs :
    fields_valid fields values p out jobs -> Forall (declared fields) (map fst values) ->
    valid_as (Contract_Object d (mkObjectContract fields)) (Json_Object values) p
      (Value_Object out) jobs
| valid_null inner p : valid_as (Contract_Nullable inner) Json_Null p Value_Null []
| valid_nullable inner json p v jobs :
    json <> Json_Null -> valid_as inner json p v jobs ->
    valid_as (Contract_Nullable inner) json p v jobs
| valid_custom d k f id json p v :
    validate_custom_kind k json = Some v ->
    valid_as (Contract_Custom d k f id) json p v [mkCustomJob id p v]
with items_valid : ValueContract -> string -> Z -> list JsonValue -> list ValidatedActValue ->
    list CustomValidationJob -> Prop :=
| items_nil item p i : items_valid item p i [] [] []
| items_cons item p i value values v vs jobs jobs' :
    valid_as item value (index_path p i) v jobs -> items_valid item p (i + 1) values vs jobs' ->
    items_valid item p i (value :: values) (v :: vs) (jobs ++ jobs')
with fields_valid : list FieldContract -> list (string * JsonValue) -> string ->
    list (string * ValidatedActValue) -> list CustomValidationJob -> Prop :=
| fields_nil values p : fields_valid [] values p [] []
| fields_present f fields values p value v out jobs jobs' :
    map_get (field_name f) values = Some value ->
    valid_as (field_value f) value (join_path p (field_name f)) v jobs ->
    fields_valid fields values p out jobs' ->
    fields_valid (f :: fields) values p ((field_name f, v) :: out) (jobs ++ jobs')
| fields_absent f fields values p out jobs :
    map_get (field_name f) values = None -> field_required f = false ->
    fields_valid fields values p out jobs ->
    fields_valid (f :: fields) values p out jobs.

(** ** What breaks a contract, and where *)

Inductive breaks : ValueContract -> JsonValue -> string -> string * string -> Prop :=
| string_type d mn mx ch json p :
    (forall s, json <> Json_String s) ->
    breaks (Contract_String d mn mx ch) json p (p, "type_mismatch"%string)
| string_length d mn mx ch s p :
    ~ within_length s mn mx ->
    breaks (Contract_String d mn mx ch) (Json_String s) p (p, "length_limit"%string)
| string_choice d mn mx ch s p :
    within_length s mn mx -> ~ among s ch ->
    breaks (Contract_String d mn mx ch) (Json_String s) p (p, "not_in_choices"%string)
| int64_type d mn mx ch json p :
    value_as_i64 json = None ->
    breaks (Contract_Int64 d mn mx ch) json p (p, "type_mismatch"%string)
| int64_range d mn mx ch json z p :
    value_as_i64 json = Some z -> ~ within_range z mn mx ->
    breaks (Contract_Int64 d mn mx ch) json p (p, "out_of_range"%string)
| int64_choice d mn mx ch json z p :
    value_as_i64 json = Some z -> within_range z mn mx -> ~ among z ch ->
    breaks (Contract_Int64 d mn mx ch) json p (p, "not_in_choices"%string)
| float64_type d mn mx ch json p :
    value_as_finite json = None ->
    breaks (Contract_Float64 d mn mx ch) json p (p, "type_mismatch"%string)
| float64_range d mn mx ch json f p :
    value_as_finite json = Some f -> ~ within_float_range f mn mx ->
    breaks (Contract_Float64 d mn mx ch) json p (p, "out_of_range"%string)
| float64_choice d mn mx ch json f p :
    value_as_finite json = Some f -> within_float_range f mn mx -> ~ float_among f ch ->
    breaks (Contract_Float64 d mn mx ch) json p (p, "not_in_choices"%string)
| bool_type d ch json p :
    (forall b, json <> Json_Bool b) ->
    breaks (Contract_Bool d ch) json p (p, "type_mismatch"%string)
| bool_choice d ch b p :
    ~ among b ch -> breaks (Contract_Bool d ch) (Json_Bool b) p (p, "not_in_choices"%string)
| list_type d item mn mx json p :
    (forall values, json <> Json_Array values) ->
    breaks (Contract_List d item mn mx) json p (p, "type_mismatch"%string)
| list_count d item mn mx values p :
    ~ within_count values mn mx ->
    breaks (Contract_List d item mn mx) (Json_Array values) p (p, "item_limit"%string)
| list_item d item mn mx values p i value at_ :
    values !! i = Some value -> breaks item value (index_path p (Z.of_nat i)) at_ ->
    breaks (Contract_List d item mn mx) (Json_Array values) p at_
| object_type d contract json p :
    (forall values, json <> Json_Object values) ->
    breaks (Contract_Object d contract) json p (p, "type_mismatch"%string)
| object_missing d fields f values p :
    f ∈ fields -> map_get (field_name f) values = None -> field_required f = true ->
    breaks (Contract_Object d (mkObjectContract fields)) (Json_Object values) p
      (join_path p (field_name f), "missing_field"%string)
| object_field d fields f values p value at_ :
    f ∈ fields -> map_get (field_name f) values = Some value ->
    breaks (field_value f) value (join_path p (field_name f)) at_ ->
    breaks (Contract_Object d (mkObjectContract fields)) (Json_Object values) p at_
| object_extra d fields values p name :
    name ∈ map fst values -> ~ declared fields name ->
    breaks (Contract_Object d (mkObjectContract fields)) (Json_Object values) p
      (join_path p name, "extra_field"%string)
| nullable_inner inner json p at_ :
    json <> Json_Null -> breaks inner json p at_ -> breaks (Contract_Nullable inner) json p at_
| custom_type d k f id json p :
    validate_custom_kind k json = None ->
    breaks (Contract_Custom d k f id) json p (p, "type_mismatch"%string).

(** ** The tests of the code *)

Lemma within_length_test s mn mx :
  opt_lt Z.ltb (scalar_count s) mn || (mx <? scalar_count s) = false <-> within_length s mn mx.
Proof. unfold within_length, opt_lt. destruct mn; rewrite orb_false_iff, ?Z.ltb_ge; naive_solver. Qed.

Lemma within_range_test z mn mx :
  opt_lt Z.ltb z mn || opt_gt Z.ltb z mx = false <-> within_range z mn mx.
Proof.
  unfold within_range, opt_lt, opt_gt. destruct mn, mx; rewrite orb_false_iff, ?Z.ltb_ge; naive_solver.
Qed.

Lemma within_float_range_test f mn mx :
  opt_lt SFltb f mn || opt_gt SFltb f mx = false <-> within_float_range f mn mx.
Proof. unfold within_float_range, opt_lt, opt_gt. destruct mn, mx; rewrite orb_false_iff; naive_solver. Qed.

Lemma within_count_test values mn mx :
  opt_lt Z.ltb (list_len values) mn || (mx <? list_len values) = false <-> within_count values mn mx.
Proof. unfold within_count, opt_lt. destruct mn; rewrite orb_false_iff, ?Z.ltb_ge; naive_solver. Qed.

Lemma existsb_elem {A} (eq : A -> A -> bool) a l :
  (forall b, eq a b = true <-> a = b) -> existsb (eq a) l = true <-> a ∈ l.
Proof.
  intros Heq. rewrite existsb_exists. setoid_rewrite Heq. setoid_rewrite <-list_elem_of_In. naive_solver.
Qed.

Lemma among_test {A} (eq : A -> A -> bool) a ch :
  (forall b, eq a b = true <-> a = b) -> not_in eq a ch = false <-> among a ch.
Proof.
  intros Heq. unfold not_in, among. destruct ch as [l|]; [|naive_solver].
  rewrite negb_false_iff, existsb_elem by done. naive_solver.
Qed.

Lemma float_among_test f ch : not_in SFeqb f ch = false <-> float_among f ch.
Proof.
  unfold not_in, float_among. destruct ch as [l|]; [|naive_solver].
  rewrite negb_false_iff, existsb_exists. setoid_rewrite Exists_exists.
  setoid_rewrite <-list_elem_of_In. naive_solver.
Qed.

(** ** What one validation adds *)

Definition place (i : ValidationIssue) : string * string := (issue_path i, issue_code i).

Definition extends (st st' : Checking) (issues : list ValidationIssue) (jobs : list CustomValidationJob)
    : Prop :=
  ck_issues st' = fold_left IssueCollector_push issues (ck_issues st) /\ ck_jobs st' = ck_jobs st ++ jobs.

Lemma extends_refl st : extends st st [] [].
Proof. split; [done|by rewrite app_nil_r]. Qed.

Lemma extends_push st p code msg : extends st (push_issue st p code msg) [mkIssue p code msg] [].
Proof. split; [done|cbn; by rewrite app_nil_r]. Qed.

Lemma extends_trans st1 st2 st3 issues jobs issues' jobs' :
  extends st1 st2 issues jobs -> extends st2 st3 issues' jobs' ->
  extends st1 st3 (issues ++ issues') (jobs ++ jobs').
Proof.
  intros [E1 E2] [E3 E4]. split.
  - by rewrite E3, E1, fold_left_app.
  - by rewrite E4, E2, app_assoc.
Qed.

(** The verdict on a value: the places of its issues are those that break the
    contract, and without issues the value and jobs are the only ones admitted. *)
Definition verdict {V} (brk : string * string -> Prop) (ok : V -> list CustomValidationJob -> Prop)
    (issues : list ValidationIssue) (jobs : list CustomValidationJob) (r : option V) : Prop :=
  (forall at_, at_ ∈ map place issues <-> brk at_) /\
  (issues = [] -> exists v, r = Some v /\ forall v' jobs', ok v' jobs' <-> v' = v /\ jobs' = jobs) /\
  (issues <> [] -> forall v' jobs', ~ ok v' jobs').

Definition judged (c : ValueContract) : Prop :=
  forall json path st, exists issues jobs st' r,
    validate_value c json path st = (st', r) /\ extends st st' issues jobs /\
    verdict (breaks c json path) (valid_as c json path) issues jobs r.

Lemma one_issue c json path st code msg :
  validate_value c json path st = (push_issue st path code msg, None) ->
  (forall at_, breaks c json path at_ <-> at_ = (path, code)) ->
  (forall v jobs, ~ valid_as c json path v jobs) ->
  exists issues jobs st' r,
    validate_value c json path st = (st', r) /\ extends st st' issues jobs /\
    verdict (breaks c json path) (valid_as c json path) issues jobs r.
Proof.
  intros E Hb Hv. eexists _, _, _, _. split; [exact E|]. split; [apply extends_push|].
  split_and!; [|done|done]. intros at_. rewrite Hb. cbn. set_solver.
Qed.

Lemma no_issue c json path st v jobs st' :
  validate_value c json path st = (st', Some v) -> extends st st' [] jobs ->
  (forall at_, ~ breaks c json path at_) ->
  (forall v' jobs', valid_as c json path v' jobs' <-> v' = v /\ jobs' = jobs) ->
  exists issues jobs st' r,
    validate_value c json path st = (st', r) /\ extends st st' issues jobs /\
    verdict (breaks c json path) (valid_as c json path) issues jobs r.
Proof.
  intros E Hx Hb Hv. eexists _, _, _, _. split; [exact E|]. split; [exact Hx|].
  split_and!; [|eauto|done]. intros at_. split; [set_solver|]. by intros ?%Hb.
Qed.

Ltac scalar_breaks :=
  let at_ := fresh "at_" in
  intros at_; split; [inversion 1; subst; try congruence; try done; naive_solver
                     |intros ->; constructor; auto; congruence].

Ltac scalar_none := intros ? ?; inversion 1; subst; try congruence; naive_solver.

Ltac scalar_only :=
  intros ? ?; split; [inversion 1; subst; try done; naive_solver congruence|intros [-> ->]; by constructor].

Lemma judged_string d mn mx ch : judged (Contract_String d mn mx ch).
Proof.
  intros json path st. destruct json as [| | |s| |];
    try (eapply one_issue; [reflexivity|scalar_breaks|scalar_none]).
  pose proof (within_length_test s mn mx) as HL.
  pose proof (among_test String.eqb s ch (fun b => String.eqb_eq s b)) as HC.
  destruct (opt_lt Z.ltb (scalar_count s) mn || (mx <? scalar_count s)) eqn:E1;
    [|destruct (not_in String.eqb s ch) eqn:E2].
  - assert (~ within_length s mn mx) by (intros ?%HL; congruence).
    eapply one_issue; [cbn; unfold validate_string; by rewrite E1|scalar_breaks|scalar_none].
  - assert (~ among s ch) by (intros ?%HC; congruence). assert (within_length s mn mx) by by apply HL.
    eapply one_issue; [cbn; unfold validate_string; by rewrite E1, E2|scalar_breaks|scalar_none].
  - assert (within_length s mn mx) by by apply HL. assert (among s ch) by by apply HC.
    eapply no_issue; [cbn; unfold validate_string; by rewrite E1, E2|apply extends_refl| |scalar_only].
    intros ?. inversion 1; subst; naive_solver.
Qed.

Ltac number_breaks :=
  let at_ := fresh "at_" in
  intros at_; split; [inversion 1; simplify_eq; naive_solver congruence|intros ->; by econstructor].

Ltac number_none := intros ? ?; inversion 1; simplify_eq; naive_solver.

Ltac number_only :=
  intros ? ?; split; [inversion 1; simplify_eq; done|intros [-> ->]; by constructor].

Lemma judged_int64 d mn mx ch : judged (Contract_Int64 d mn mx ch).
Proof.
  intros json path st. destruct (value_as_i64 json) as [z|] eqn:E;
    [|eapply one_issue; [cbn; unfold validate_int64; by rewrite E|scalar_breaks|scalar_none]].
  pose proof (within_range_test z mn mx) as HL. pose proof (among_test Z.eqb z ch (Z.eqb_eq z)) as HC.
  destruct (opt_lt Z.ltb z mn || opt_gt Z.ltb z mx) eqn:E1; [|destruct (not_in Z.eqb z ch) eqn:E2].
  - assert (~ within_range z mn mx) by (intros ?%HL; congruence).
    eapply one_issue; [cbn; unfold validate_int64; by rewrite E, E1|number_breaks|number_none].
  - assert (~ among z ch) by (intros ?%HC; congruence). assert (within_range z mn mx) by by apply HL.
    eapply one_issue; [cbn; unfold validate_int64; by rewrite E, E1, E2|number_breaks|number_none].
  - assert (within_range z mn mx) by by apply HL. assert (among z ch) by by apply HC.
    eapply no_issue; [cbn; unfold validate_int64; by rewrite E, E1, E2|apply extends_refl| |number_only].
    intros ?. inversion 1; simplify_eq; naive_solver.
Qed.

Lemma judged_float64 d mn mx ch : judged (Contract_Float64 d mn mx ch).
Proof.
  intros json path st. destruct (value_as_finite json) as [f|] eqn:E;
    [|eapply one_issue; [cbn; unfold validate_float64; by rewrite E|scalar_breaks|scalar_none]].
  pose proof (within_float_range_test f mn mx) as HL. pose proof (float_among_test f ch) as HC.
  destruct (opt_lt SFltb f mn || opt_gt SFltb f mx) eqn:E1; [|destruct (not_in SFeqb f ch) eqn:E2].
  - assert (~ within_float_range f mn mx) by (intros ?%HL; congruence).
    eapply one_issue; [cbn; unfold validate_float64; by rewrite E, E1|number_breaks|number_none].
  - assert (~ float_among f ch) by (intros ?%HC; congruence).
    assert (within_float_range f mn mx) by by apply HL.
    eapply one_issue; [cbn; unfold validate_float64; by rewrite E, E1, E2|number_breaks|number_none].
  - assert (within_float_range f mn mx) by by apply HL. assert (float_among f ch) by by apply HC.
    eapply no_issue; [cbn; unfold validate_float64; by rewrite E, E1, E2|apply extends_refl| |number_only].
    intros ?. inversion 1; simplify_eq; naive_solver.
Qed.

Lemma judged_bool d ch : judged (Contract_Bool d ch).
Proof.
  intros json path st. destruct json as [|b| | | |];
    try (eapply one_issue; [reflexivity|scalar_breaks|scalar_none]).
  pose proof (among_test Bool.eqb b ch (Bool.eqb_true_iff b)) as HC.
  destruct (not_in Bool.eqb b ch) eqn:E.
  - assert (~ among b ch) by (intros ?%HC; congruence).
    eapply one_issue; [cbn; by rewrite E|scalar_breaks|scalar_none].
  - assert (among b ch) by by apply HC.
    eapply no_issue; [cbn; by rewrite E|apply extends_refl| |scalar_only].
    intros ?. inversion 1; subst; naive_solver.
Qed.

Lemma judged_custom d k f id : judged (Contract_Custom d k f id).
Proof.
  intros json path st. destruct (validate_custom_kind k json) as [v|] eqn:E.
  - eapply no_issue; [cbn; unfold validate_custom; by rewrite E|split; done| |].
    + intros ?. inversion 1; congruence.
    + intros ? ?. split; [inversion 1; simplify_eq; done|intros [-> ->]; by constructor].
  - eapply one_issue; [cbn; unfold validate_custom; by rewrite E|scalar_breaks|].
    intros ? ?. inversion 1; congruence.
Qed.

Lemma judged_nullable inner : judged inner -> judged (Contract_Nullable inner).
Proof.
  intros IH json path st.
  assert (json = Json_Null \/ json <> Json_Null) as [->|Hn] by (destruct json; auto; right; done).
  - eapply no_issue; [reflexivity|apply extends_refl| |].
    + intros ?. inversion 1; congruence.
    + intros ? ?. split; [inversion 1; subst; done|intros [-> ->]; by constructor].
  - destruct (IH json path st) as (issues & jobs & st' & r & E & Hx & Hb & Hok & Hno).
    exists issues, jobs, st', r. split; [by destruct json|]. split; [done|].
    assert (Hv : forall v j, valid_as (Contract_Nullable inner) json path v j <-> valid_as inner json path v j).
    { intros v j. split; [inversion 1; by subst|by constructor]. }
    split_and!.
    + intros at_. rewrite Hb. split; [by constructor|inversion 1; by subst].
    + intros Hi. destruct (Hok Hi) as (v & -> & Hval). exists v. split; [done|].
      intros v' j'. by rewrite Hv.
    + intros Hi v j. rewrite Hv. by apply Hno.
Qed.

(** *** Lists *)

Lemma validate_items_judged item :
  judged item -> forall values path i st, exists issues jobs st' vs,
    validate_items (validate_value item) path i values st = (st', vs) /\ extends st st' issues jobs /\
    verdict (fun at_ => exists k value, values !! k = Some value /\
                          breaks item value (index_path path (i + Z.of_nat k)) at_)
      (items_valid item path i values) issues jobs (Some vs).
Proof.
  intros IH. induction values as [|value values IHv]; intros path i st.
  - exists [], [], st, []. split; [done|]. split; [apply extends_refl|]. split_and!; [|intros _|done].
    + intros at_. split; [set_solver|]. by intros (k & v & Hk & _).
    + exists []. split; [done|]. intros v' j'. split; [by inversion 1|intros [-> ->]; constructor].
  - destruct (IH value (index_path path i) st) as (is1 & js1 & st1 & r1 & E1 & X1 & B1 & Ok1 & No1).
    destruct (IHv path (i + 1) st1) as (is2 & js2 & st2 & vs & E2 & X2 & B2 & Ok2 & No2).
    exists (is1 ++ is2), (js1 ++ js2), st2, (match r1 with Some v => v :: vs | None => vs end).
    split; [cbn; by rewrite E1, E2|]. split; [by eapply extends_trans|]. split_and!.
    + intros at_. rewrite map_app, elem_of_app, B1, B2. split.
      * intros [Hb|(k & v & Hk & Hb)].
        -- exists O, value. by rewrite Z.add_0_r.
        -- exists (S k), v. split; [done|]. by replace (i + Z.of_nat (S k)) with (i + 1 + Z.of_nat k) by lia.
      * intros ([|k] & v & Hk & Hb); [left|right].
        -- injection Hk as <-. by rewrite Z.add_0_r in Hb.
        -- exists k, v. split; [done|]. by replace (i + 1 + Z.of_nat k) with (i + Z.of_nat (S k)) by lia.
    + intros [-> ->]%app_nil. destruct (Ok1 eq_refl) as (v & -> & Hv).
      destruct (Ok2 eq_refl) as (vs' & [= <-] & Hvs). eexists. split; [done|]. intros v' j'. split.
      * inversion 1 as [|? ? ? ? ? ? ? ? ? H1 H2]; subst.
        apply Hv in H1 as [-> ->]. by apply Hvs in H2 as [-> ->].
      * intros [-> ->]. constructor; [by apply Hv|by apply Hvs].
    + intros Hne v' j'. inversion 1 as [|? ? ? ? ? ? ? ? ? H1 H2]; subst.
      destruct is1; [|by eapply No1]. by eapply No2.
Qed.

Lemma check_item_count_judged mn mx values path st :
  exists issues, extends st (check_item_count mn mx values path st) issues [] /\
    (forall at_, at_ ∈ map place issues <-> at_ = (path, "item_limit"%string) /\ ~ within_count values mn mx) /\
    (issues = [] <-> within_count values mn mx).
Proof.
  unfold check_item_count. pose proof (within_count_test values mn mx) as HL.
  destruct (opt_lt Z.ltb (list_len values) mn || (mx <? list_len values)).
  - assert (~ within_count values mn mx) by (intros ?%HL; congruence).
    eexists. split; [apply extends_push|]. split.
    + intros at_. cbn [map place issue_path issue_code]. rewrite list_elem_of_singleton. tauto.
    + split; [discriminate|tauto].
  - assert (within_count values mn mx) by by apply HL.
    exists []. split; [apply extends_refl|]. split; [|tauto].
    intros at_. split; [by intros ?%elem_of_nil|tauto].
Qed.

Lemma judged_list d item mn mx : judged item -> judged (Contract_List d item mn mx).
Proof.
  intros IH json path st. destruct json as [| | | |values|];
    try (eapply one_issue; [reflexivity|scalar_breaks|scalar_none]).
  destruct (check_item_count_judged mn mx values path st) as (is1 & X1 & B1 & N1).
  destruct (validate_items_judged item IH values path 0 (check_item_count mn mx values path st))
    as (is2 & js2 & st2 & vs & E2 & X2 & B2 & Ok2 & No2).
  exists (is1 ++ is2), js2, st2, (Some (Value_List vs)).
  split; [cbn; by rewrite E2|]. split; [exact (extends_trans _ _ _ is1 [] is2 js2 X1 X2)|]. split_and!.
  - intros at_. rewrite map_app, elem_of_app, B1, B2. split.
    + intros [[-> ?]|(k & v & Hk & Hb)]; [by constructor|]. by eapply list_item.
    + inversion 1; subst; naive_solver.
  - intros [-> ->]%app_nil. destruct (Ok2 eq_refl) as (vs' & [= <-] & Hvs). eexists. split; [done|].
    intros v' j'. split.
    + inversion 1; subst.
      match goal with Hv : items_valid _ _ _ _ _ _ |- _ => by apply Hvs in Hv as [-> ->] end.
    + intros [-> ->]. constructor; [by apply N1|by apply Hvs].
  - intros Hne v' j'. inversion 1; subst.
    match goal with Hc : within_count _ _ _, Hv : items_valid _ _ _ _ _ _ |- _ =>
      apply N1 in Hc as ->; by eapply No2 end.
Qed.

(** *** Objects *)

Definition field_breaks (fields : list FieldContract) (values : list (string * JsonValue)) (path : string)
    (at_ : string * string) : Prop :=
  exists f, f ∈ fields /\
    ((map_get (field_name f) values = None /\ field_required f = true /\
        at_ = (join_path path (field_name f), "missing_field"%string)) \/
     (exists value, map_get (field_name f) values = Some value /\
        breaks (field_value f) value (join_path path (field_name f)) at_)).

Lemma field_breaks_cons f fields values path at_ :
  field_breaks (f :: fields) values path at_ <->
  field_breaks [f] values path at_ \/ field_breaks fields values path at_.
Proof.
  unfold field_breaks. setoid_rewrite elem_of_cons. split.
  - intros (g & [->|Hg] & Hb); [left; exists f|right; exists g]; auto.
  - intros [(g & [->|Hg%elem_of_nil] & Hb)|(g & Hg & Hb)]; [exists f|done|exists g]; auto.
Qed.

Lemma field_breaks_one f values path at_ :
  field_breaks [f] values path at_ <->
  match map_get (field_name f) values with
  | None => field_required f = true /\ at_ = (join_path path (field_name f), "missing_field"%string)
  | Some value => breaks (field_value f) value (join_path path (field_name f)) at_
  end.
Proof.
  unfold field_breaks. setoid_rewrite list_elem_of_singleton. split.
  - intros (g & -> & [(-> & ? & ?)|(v & -> & ?)]); auto.
  - intros Hb. exists f. split; [done|]. destruct (map_get (field_name f) values) as [v|]; [right|left]; eauto.
Qed.

Lemma verdict_app (brk brk' brk'' : string * string -> Prop) is1 is2 :
  (forall at_, at_ ∈ map place is1 <-> brk at_) -> (forall at_, at_ ∈ map place is2 <-> brk' at_) ->
  (forall at_, brk'' at_ <-> brk at_ \/ brk' at_) ->
  forall at_, at_ ∈ map place (is1 ++ is2) <-> brk'' at_.
Proof. intros B1 B2 B3 at_. by rewrite map_app, elem_of_app, B1, B2, B3. Qed.

Lemma place_one p code msg at_ : at_ ∈ map place [mkIssue p code msg] <-> at_ = (p, code).
Proof. apply list_elem_of_singleton. Qed.

Lemma validate_fields_judged fields :
  Forall (fun f => judged (field_value f)) fields -> forall values path st, exists issues jobs st' out,
    validate_fields (map field_check fields) values path st = (st', out) /\
    extends st st' issues jobs /\
    verdict (field_breaks fields values path) (fields_valid fields values path) issues jobs (Some out).
Proof.
  induction 1 as [|f fields Hf _ IH]; intros values path st.
  { exists [], [], st, []. split; [done|]. split; [apply extends_refl|]. split_and!; [|intros _|done].
    - intros at_. split; [by intros ?%elem_of_nil|]. by intros (f & Hf%elem_of_nil & _).
    - exists []. split; [done|]. intros v' j'. split; [by inversion 1|intros [-> ->]; constructor]. }
  cbn [map validate_fields field_check]. destruct (map_get (field_name f) values) as [value|] eqn:G.
  - destruct (Hf value (join_path path (field_name f)) st) as (is1 & js1 & st1 & r1 & E1 & X1 & B1 & Ok1 & No1).
    destruct (IH values path st1) as (is2 & js2 & st2 & out & E2 & X2 & B2 & Ok2 & No2).
    exists (is1 ++ is2), (js1 ++ js2), st2,
      (match r1 with Some v => (field_name f, v) :: out | None => out end).
    split; [by rewrite E1, E2|]. split; [by eapply extends_trans|]. split_and!.
    + apply (verdict_app _ _ _ _ _ B1 B2). intros at_. by rewrite field_breaks_cons, field_breaks_one, G.
    + intros [-> ->]%app_nil. destruct (Ok1 eq_refl) as (v & -> & Hv).
      destruct (Ok2 eq_refl) as (out' & [= <-] & Hout). eexists. split; [done|]. intros v' j'. split.
      * inversion 1; subst; [|congruence]. simplify_eq.
        repeat match goal with
        | H1 : valid_as _ _ _ _ _ |- _ => apply Hv in H1 as [-> ->]
        | H1 : fields_valid fields _ _ _ _ |- _ => apply Hout in H1 as [-> ->]
        end. done.
      * intros [-> ->]. econstructor; [done|by apply Hv|by apply Hout].
    + intros Hne v' j'. inversion 1; subst; [|congruence]. simplify_eq.
      destruct is1; [by eapply No2|by eapply No1].
  - destruct (field_required f) eqn:R.
    + destruct (IH values path (push_issue st (join_path path (field_name f)) "missing_field"
                  "expected required field, got missing field"))
        as (is2 & js2 & st2 & out & E2 & X2 & B2 & Ok2 & No2).
      eexists ([_] ++ is2), ([] ++ js2), st2, out. split; [exact E2|].
      split; [eapply extends_trans; [apply extends_push|exact X2]|]. split_and!; [|done|].
      * apply (verdict_app (fun at_ => at_ = (join_path path (field_name f), "missing_field"%string)) _ _ _ _
                 (place_one _ _ _) B2).
        intros at_. rewrite field_breaks_cons, field_breaks_one, G, R. tauto.
      * intros _ v' j'. inversion 1; congruence.
    + destruct (IH values path st) as (is2 & js2 & st2 & out & E2 & X2 & B2 & Ok2 & No2).
      exists is2, js2, st2, out. split; [exact E2|]. split; [done|]. split_and!.
      * intros at_. rewrite B2, field_breaks_cons, field_breaks_one, G, R. naive_solver.
      * intros Hi. destruct (Ok2 Hi) as (out' & [= <-] & Hout). exists out. split; [done|].
        intros v' j'. rewrite <-Hout. split; [inversion 1; subst; congruence|by constructor].
      * intros Hi v' j'. inversion 1; subst; [congruence|]. by eapply No2.
Qed.

Lemma extra_names_spec fields values name :
  name ∈ extra_names (map field_name fields) values <-> name ∈ map fst values /\ ~ declared fields name.
Proof.
  unfold extra_names, declared. rewrite merge_sort_Permutation, !list_elem_of_In, filter_In, negb_true_iff.
  rewrite <-!list_elem_of_In, <-not_true_iff_false, existsb_elem; [done|]. intros b. apply String.eqb_eq.
Qed.

Lemma push_extras_judged extras path st :
  exists issues, extends st (push_extras extras path st) issues [] /\
    (forall at_, at_ ∈ map place issues <->
       exists name, name ∈ extras /\ at_ = (join_path path name, "extra_field"%string)) /\
    (issues = [] <-> extras = []).
Proof.
  revert st. induction extras as [|name extras IH]; intros st; cbn [push_extras fold_left].
  - exists []. split; [apply extends_refl|]. split; [|done].
    intros at_. split; [by intros ?%elem_of_nil|]. by intros (n & ?%elem_of_nil & _).
  - destruct (IH (push_issue st (join_path path name) "extra_field" "expected a declared field, got extra field"))
      as (is1 & X1 & B1 & _).
    eexists ([_] ++ is1). split; [exact (extends_trans _ _ _ _ [] _ [] (extends_push _ _ _ _) X1)|].
    split; [|done]. intros at_. rewrite map_app, elem_of_app, B1. cbn [map]. rewrite list_elem_of_singleton.
    setoid_rewrite elem_of_cons. unfold place. cbn. naive_solver.
Qed.

Lemma field_checks_names fields : map (fun f : FieldCheck => f.1.1) (map field_check fields) = map field_name fields.
Proof. rewrite map_map. reflexivity. Qed.

Lemma object_with_judged d fields :
  Forall (fun f => judged (field_value f)) fields -> forall json path st, exists issues jobs st' r,
    validate_object (mkObjectContract fields) json path st = (st', r) /\ extends st st' issues jobs /\
    verdict (breaks (Contract_Object d (mkObjectContract fields)) json path)
      (valid_as (Contract_Object d (mkObjectContract fields)) json path) issues jobs r.
Proof.
  intros Hf json path st. unfold validate_object, validate_object_with. cbn [contract_fields].
  destruct json as [| | | | |values];
    try (eexists [_], [], _, None; split; [reflexivity|]; split; [apply extends_push|];
         split_and!; [|done|intros _ ? ?; by inversion 1];
         intros at_; cbn [map]; rewrite list_elem_of_singleton;
         split; [intros ->; by constructor|by inversion 1]).
  destruct (validate_fields_judged fields Hf values path st)
    as (is1 & js1 & st1 & out & E1 & X1 & B1 & Ok1 & No1). rewrite E1, field_checks_names.
  destruct (push_extras_judged (extra_names (map field_name fields) values) path st1) as (is2 & X2 & B2 & N2).
  assert (Hdecl : extra_names (map field_name fields) values = [] <-> Forall (declared fields) (map fst values)).
  { rewrite Forall_forall. split.
    - intros En name Hin. destruct (decide (name ∈ map field_name fields)) as [|Hnd]; [done|].
      exfalso. apply (elem_of_nil name). rewrite <-En. by apply extra_names_spec.
    - intros Hd. destruct (extra_names (map field_name fields) values) as [|n l] eqn:En; [done|].
      assert (n ∈ extra_names (map field_name fields) values) as [Hin Hnd]%extra_names_spec
        by (rewrite En; left). destruct Hnd. by apply Hd. }
  exists (is1 ++ is2), (js1 ++ []), (push_extras (extra_names (map field_name fields) values) path st1),
    (Some (Value_Object out)).
  split; [done|]. split; [by eapply extends_trans|]. rewrite app_nil_r. split_and!.
  - apply (verdict_app _ _ _ _ _ B1 B2). intros at_. setoid_rewrite extra_names_spec. split.
    + inversion 1; subst; try congruence; [left..|right; eauto].
      * eexists. split; [done|]. left. auto.
      * eexists. split; [done|]. right. eauto.
    + intros [(f & Hin & [(? & ? & ->)|(v & ? & ?)])|(name & [? ?] & ->)];
        [by constructor|by eapply object_field|by constructor].
  - intros [-> ->]%app_nil. destruct (Ok1 eq_refl) as (out' & [= <-] & Hout). eexists. split; [done|].
    intros v' j'. split.
    + inversion 1; subst.
      match goal with Hv : fields_valid _ _ _ _ _ |- _ => by apply Hout in Hv as [-> ->] end.
    + intros [-> ->]. constructor; [by apply Hout|]. by apply Hdecl, N2.
  - intros Hne v' j'. inversion 1; subst.
    match goal with Hd : Forall _ _, Hv : fields_valid _ _ _ _ _ |- _ =>
      apply Hdecl, N2 in Hd as ->; rewrite app_nil_r in Hne; by eapply No1 end.
Qed.

Lemma field_checks fields :
  map (fun '(mkFieldContract name required contract) => (name, required, validate_value contract)) fields =
  map field_check fields.
Proof. apply map_ext. by intros []. Qed.

Lemma all_judged c : judged c.
Proof.
  induction c using contract_nested_ind; auto using judged_string, judged_int64, judged_float64, judged_bool,
    judged_list, judged_nullable, judged_custom.
  intros json path st. cbn [validate_value]. rewrite field_checks. by apply (object_with_judged d fields).
Qed.

(** ** The limits on a submitted value *)

Definition string_fits (s : string) : Prop :=
  scalar_count s <= RESULT_STRING_MAX_SCALARS /\ str_len s <= RESULT_STRING_MAX_BYTES.

Fixpoint json_nodes (v : JsonValue) : Z :=
  match v with
  | Json_Array values => 1 + sum_with json_nodes values
  | Json_Object values => 1 + sum_with (fun e => json_nodes e.2) values
  | _ => 1
  end.

Fixpoint json_depth (v : JsonValue) : Z :=
  match v with
  | Json_Array values => 1 + max_with json_depth values
  | Json_Object values => 1 + max_with (fun e => json_depth e.2) values
  | _ => 1
  end.

Fixpoint json_sized (v : JsonValue) : Prop :=
  match v with
  | Json_String s => string_fits s
  | Json_Array values => list_len values <= RESULT_LIST_MAX_ITEMS /\ all_of json_sized values
  | Json_Object values => all_of (fun e => string_fits e.1 /\ json_sized e.2) values
  | _ => True
  end.

Definition within_limits (v : JsonValue) : Prop :=
  json_depth v <= RESULT_MAX_DEPTH /\ json_nodes v <= RESULT_MAX_NODES /\ json_sized v.

(** The value at [depth] fits after [nodes] nodes. *)
Definition fits_at (v : JsonValue) (depth nodes : Z) : Prop :=
  depth + json_depth v <= RESULT_MAX_DEPTH + 1 /\ nodes + json_nodes v <= RESULT_MAX_NODES /\ json_sized v.

Definition limit_issue (r : option ValidationIssue) : Prop :=
  forall i, r = Some i -> issue_code i = "resource_limit"%string.

Definition resources_checked (v : JsonValue) : Prop := forall path depth nodes r nodes',
  check_result_resources v path depth nodes = (r, nodes') ->
  (r = None <-> fits_at v depth nodes) /\ (r = None -> nodes' = nodes + json_nodes v) /\ limit_issue r.

Lemma json_nodes_pos v : 1 <= json_nodes v.
Proof.
  induction v as [| | | |values IH|values IH] using json_nested_ind; cbn [json_nodes]; try lia;
    [pose proof (sum_with_nonneg json_nodes _ IH)|pose proof (sum_with_nonneg (fun e => json_nodes e.2) _ IH)];
    lia.
Qed.

Lemma sum_nodes_nonneg {A} (f : A -> JsonValue) l : 0 <= sum_with (fun a => json_nodes (f a)) l.
Proof. apply sum_with_nonneg, Forall_true. intros. apply json_nodes_pos. Qed.

Lemma string_resource_spec s path subject :
  (string_resource_issue s path subject = None <-> string_fits s) /\
  limit_issue (string_resource_issue s path subject).
Proof.
  unfold string_resource_issue, string_fits, limit_issue.
  destruct (Z.leb_spec (scalar_count s) RESULT_STRING_MAX_SCALARS);
    destruct (Z.leb_spec (str_len s) RESULT_STRING_MAX_BYTES); cbn [andb];
    (split; [first [by split|by split; [|intros [? ?]; lia]]|]); try done; by intros ? [= <-].
Qed.

Definition children_fit {A} (f : A -> JsonValue) (values : list A) (depth nodes : Z) : Prop :=
  all_of (fun a => depth + json_depth (f a) <= RESULT_MAX_DEPTH + 1) values /\
  nodes + sum_with (fun a => json_nodes (f a)) values <= RESULT_MAX_NODES.

Lemma check_items_spec depth path values :
  Forall resources_checked values -> forall index nodes r nodes',
  nodes <= RESULT_MAX_NODES ->
  check_items (fun v path nodes => check_result_resources v path depth nodes) path index values nodes
    = (r, nodes') ->
  (r = None <-> children_fit (fun v => v) values depth nodes /\ all_of json_sized values) /\
  (r = None -> nodes' = nodes + sum_with json_nodes values) /\ limit_issue r.
Proof.
  unfold children_fit. induction 1 as [|v values Hv _ IH]; intros index nodes r nodes' Hn; cbn [check_items].
  - intros [= <- <-]. unfold sum_with, all_of. cbn [foldr].
    repeat split; first [done|lia].
  - destruct (check_result_resources v (index_path path index) depth nodes) as [[i|] n1] eqn:E;
      apply Hv in E as (Hfit & Hnodes & Hl).
    + intros [= <- <-]. split_and!; [|done|done]. split; [done|].
      intros [[[Hd _] Hs] [Hz _]]. rewrite sum_with_cons in Hs. pose proof (sum_nodes_nonneg (fun v => v) values).
      apply Hfit. unfold fits_at. split_and!; [done|lia|done].
    + intros Hc. specialize (Hnodes eq_refl) as ->. destruct (proj1 Hfit eq_refl) as (Hd & Hnv & Hz).
      apply IH in Hc as (Hr & Hn' & Hl'); [|done]. rewrite !sum_with_cons, !all_of_cons.
      split_and!; [|intros Hr0; rewrite Hn' by done; lia|done].
      rewrite Hr, Z.add_assoc. tauto.
Qed.

Lemma check_entries_spec depth path values :
  Forall (fun e => resources_checked e.2) values -> forall nodes r nodes',
  nodes <= RESULT_MAX_NODES ->
  check_entries (fun v path nodes => check_result_resources v path depth nodes) path values nodes
    = (r, nodes') ->
  (r = None <-> children_fit snd values depth nodes /\
                all_of (fun e => string_fits e.1 /\ json_sized e.2) values) /\
  (r = None -> nodes' = nodes + sum_with (fun e => json_nodes e.2) values) /\ limit_issue r.
Proof.
  unfold children_fit. induction 1 as [|[name v] values Hv _ IH]; intros nodes r nodes' Hn; cbn [check_entries].
  - intros [= <- <-]. unfold sum_with, all_of. cbn [foldr].
    repeat split; first [done|lia].
  - destruct (string_resource_spec name path "object key") as [Hk Hkl].
    destruct (string_resource_issue name path "object key") as [i|].
    { intros [= <- <-]. split_and!; [|done|done]. split; [done|]. intros [_ [[Hs _] _]]. by apply Hk. }
    destruct (check_result_resources v (join_path path name) depth nodes) as [[i|] n1] eqn:E;
      apply Hv in E as (Hfit & Hnodes & Hl).
    + intros [= <- <-]. split_and!; [|done|done]. split; [done|].
      intros [[[Hd _] Hs] [[_ Hz] _]]. rewrite sum_with_cons in Hs. pose proof (sum_nodes_nonneg snd values).
      apply Hfit. cbn [snd] in *. unfold fits_at. split_and!; [done|lia|done].
    + intros Hc. specialize (Hnodes eq_refl) as ->. destruct (proj1 Hfit eq_refl) as (Hd & Hnv & Hz).
      apply IH in Hc as (Hr & Hn' & Hl'); [|done]. rewrite !sum_with_cons, !all_of_cons.
      split_and!; [|intros Hr0; rewrite Hn' by done; cbn [snd]; lia|done].
      rewrite Hr, Z.add_assoc. cbn [fst snd]. tauto.
Qed.

Lemma json_depth_pos v : 1 <= json_depth v.
Proof.
  destruct v as [| | | |values|values]; cbn [json_depth]; try lia;
    [pose proof (max_with_nonneg json_depth values)|pose proof (max_with_nonneg (fun e => json_depth e.2) values)];
    lia.
Qed.

(** A value beyond the depth or the node limit, whatever it is. *)
Lemma beyond_limits v depth nodes i :
  issue_code i = "resource_limit"%string ->
  RESULT_MAX_DEPTH < depth \/ RESULT_MAX_NODES < nodes + 1 ->
  (Some i = None <-> fits_at v depth nodes) /\
  (Some i = None -> nodes + 1 = nodes + json_nodes v) /\ limit_issue (Some i).
Proof.
  intros Hi Hb. pose proof (json_depth_pos v). pose proof (json_nodes_pos v).
  split_and!; [|done|by intros ? [= <-]]. split; [done|]. intros (? & ? & _). lia.
Qed.

Lemma check_result_resources_spec v : resources_checked v.
Proof.
  induction v as [|b|n|s|values IH|values IH] using json_nested_ind;
    intros path depth nodes r nodes'; cbn [check_result_resources];
    (destruct (Z.ltb_spec RESULT_MAX_DEPTH depth); [by intros [= <- <-]; apply beyond_limits; auto|]);
    (destruct (Z.ltb_spec RESULT_MAX_NODES (nodes + 1)); [by intros [= <- <-]; apply beyond_limits; auto|]);
    unfold fits_at; cbn [json_depth json_nodes json_sized].
  1-3: by intros [= <- <-]; repeat split; first [done|lia].
  - intros [= <- <-]. destruct (string_resource_spec s path "string") as [Hs Hl].
    split_and!; [|lia|done]. rewrite Hs. split; [intros ?; split_and!; [lia|lia|done]|tauto].
  - destruct (Z.ltb_spec RESULT_LIST_MAX_ITEMS (list_len values)).
    { intros [= <- <-]. split_and!; [|done|by intros ? [= <-]]. split; [done|]. intros (_ & _ & ? & _). lia. }
    intros Hc. apply check_items_spec in Hc as (Hr & Hn & Hl); [|done|done]. unfold children_fit in Hr.
    split_and!; [|intros Hr0; rewrite Hn by done; lia|done].
    rewrite Hr, Z.add_assoc, max_with_le, (Z.add_assoc nodes). split; [|tauto].
    intros [[? ?] ?]. split_and!; first [done|lia].
  - intros Hc. apply check_entries_spec in Hc as (Hr & Hn & Hl); [|done|done]. unfold children_fit in Hr.
    split_and!; [|intros Hr0; rewrite Hn by done; lia|done].
    rewrite Hr, Z.add_assoc, max_with_le, (Z.add_assoc nodes). split; [|tauto].
    intros [[? ?] ?]. split_and!; first [done|lia].
Qed.

Lemma check_root v :
  exists r nodes, check_result_resources v EmptyString 1 0 = (r, nodes) /\
    (r = None <-> within_limits v) /\ limit_issue r.
Proof.
  destruct (check_result_resources v EmptyString 1 0) as [r nodes] eqn:E. exists r, nodes. split; [done|].
  apply check_result_resources_spec in E as (Hr & _ & Hl). split; [|done]. rewrite Hr.
  unfold fits_at, within_limits. split; intros (? & ? & ?); split_and!; try done; lia.
Qed.

(** ** The bounded list of issues *)

Lemma collected issues :
  fold_left IssueCollector_push issues IssueCollector_default =
  mkCollector (take (Z.to_nat MAX_VALIDATION_ISSUES) issues) (MAX_VALIDATION_ISSUES <? list_len issues).
Proof.
  induction issues as [|i issues IH] using rev_ind; [done|].
  rewrite fold_left_app, IH. cbn [fold_left]. unfold IssueCollector_push. cbn [ic_items ic_truncated].
  unfold list_len, MAX_VALIDATION_ISSUES. rewrite length_take, length_app. cbn [length].
  destruct (Z.ltb_spec (Z.of_nat (Z.to_nat 16 `min` length issues)) 16) as [Hlt|Hge].
  - assert (length issues < 16)%nat by lia. rewrite !take_ge by (rewrite ?length_app; cbn; lia). f_equal.
    destruct (Z.ltb_spec 16 (Z.of_nat (length issues))), (Z.ltb_spec 16 (Z.of_nat (length issues + 1))); first [done|lia].
  - assert (16 <= length issues)%nat by lia. rewrite take_app_le by lia. f_equal.
    symmetry. apply Z.ltb_lt. lia.
Qed.

Definition schema_verdict (root : ObjectContract) (json : JsonValue) (outcome : NativeValidationOutcome) : Prop :=
  let c := Contract_Object EmptyString root in
  match outcome with
  | Valid v jobs =>
      within_limits json /\
      forall v' jobs', valid_as c json EmptyString v' jobs' <-> v' = v /\ jobs' = jobs
  | Invalid issues truncated =>
      1 <= list_len issues <= MAX_VALIDATION_ISSUES /\
      ((truncated = false /\ ~ within_limits json /\
          exists i, issues = [i] /\ issue_code i = "resource_limit"%string) \/
       (within_limits json /\ (forall v jobs, ~ valid_as c json EmptyString v jobs) /\
        (forall i, i ∈ issues -> breaks c json EmptyString (place i)) /\
        if truncated then list_len issues = MAX_VALIDATION_ISSUES
        else forall at_, breaks c json EmptyString at_ -> at_ ∈ map place issues))
  end.

Lemma schema_validate_verdict root json :
  exists outcome, schema_validate root json = Some outcome /\ schema_verdict root json outcome.
Proof.
  unfold schema_verdict, schema_validate. destruct (check_root json) as (r & nodes & -> & Hr & Hl).
  destruct r as [i|].
  { eexists. split; [done|]. split; [by unfold MAX_VALIDATION_ISSUES, list_len; cbn [length]; lia|]. left. split; [done|].
    split; [by intros ?%Hr|]. exists i. split; [done|]. by apply Hl. }
  assert (within_limits json) by by apply Hr. destruct root as [fields].
  destruct (object_with_judged EmptyString fields (Forall_true _ _ (fun f => all_judged _)) json EmptyString
              (mkChecking IssueCollector_default [])) as (issues & jobs & st' & v & -> & [Hi Hj] & Hb & Hok & Hno).
  cbn [ck_issues ck_jobs app] in Hi, Hj. rewrite Hi, Hj, collected. cbn [ic_items ic_truncated].
  destruct issues as [|i issues].
  - destruct (Hok eq_refl) as (v0 & -> & Hv). cbn. eexists. split; [done|]. by split.
  - remember (i :: issues) as all eqn:Hall.
    assert (Hne : all <> []) by by subst.
    assert (Hlen : list_len (take (Z.to_nat MAX_VALIDATION_ISSUES) all) = Z.min MAX_VALIDATION_ISSUES (list_len all)).
    { unfold list_len, MAX_VALIDATION_ISSUES. rewrite length_take. lia. }
    assert (1 <= list_len all) by (subst; rewrite list_len_cons; pose proof (list_len_nonneg issues); lia).
    destruct (take (Z.to_nat MAX_VALIDATION_ISSUES) all) as [|i' kept] eqn:Ht;
      [exfalso; unfold MAX_VALIDATION_ISSUES in Hlen; change (list_len []) with 0 in Hlen; lia|].
    eexists. split; [done|]. rewrite <-Ht in *.
    split; [unfold MAX_VALIDATION_ISSUES in *; lia|]. right. split_and!; [done|by apply Hno| |].
    + intros x Hx. apply Hb. apply list_elem_of_fmap. exists x. split; [done|].
      eapply elem_of_take in Hx as (k & Hk & _). by eapply list_elem_of_lookup_2.
    + destruct (Z.ltb_spec MAX_VALIDATION_ISSUES (list_len all)); [lia|].
      intros at_ Hat%Hb. rewrite take_ge; [done|]. unfold list_len, MAX_VALIDATION_ISSUES in *. lia.
Qed.

(** C19: the validation of a submitted result always has an outcome, and it is
    the contract's.  It is valid exactly when the value is within the limits of
    depth, nodes and sizes and the contract admits it; then the value and the
    jobs for custom validators, in order and with the paths of their values,
    are the only ones the contract admits.  Otherwise it reports between one and
    sixteen issues: one issue when a limit is exceeded, or else places that
    break the contract, all of them unless the list says it is truncated. *)
Theorem schema_validate_decides root json :
  exists outcome, schema_validate root json = Some outcome /\
  let c := Contract_Object EmptyString root in
  match outcome with
  | Valid v jobs =>
      within_limits json /\
      forall v' jobs', valid_as c json EmptyString v' jobs' <-> v' = v /\ jobs' = jobs
  | Invalid issues truncated =>
      1 <= list_len issues <= MAX_VALIDATION_ISSUES /\
      ((truncated = false /\ ~ within_limits json /\
          exists i, issues = [i] /\ issue_code i = "resource_limit"%string) \/
       (within_limits json /\ (forall v jobs, ~ valid_as c json EmptyString v jobs) /\
        (forall i, i ∈ issues -> breaks c json EmptyString (place i)) /\
        if truncated then list_len issues = MAX_VALIDATION_ISSUES
        else forall at_, breaks c json EmptyString at_ -> at_ ∈ map place issues))
  end.
Proof. exact (schema_validate_verdict root json). Qed.

End Spec.

(** ** Places in a value

    A place is named by a JSON pointer: the names of fields, escaped, and the
    indices of items. *)

Section Places.
Context `{SerdeJson}.

Inductive Step :=
| Field (name : string)
| Item (index : Z).

Definition step_path (parent : string) (s : Step) : string :=
  match s with
  | Field name => join_path parent name
  | Item index => index_path parent index
  end.

(** The path the validator builds on its way down from the root. *)
Definition path_of (steps : list Step) : string := fold_left step_path steps EmptyString.

(** The part of a value the steps lead to. *)
Fixpoint part_at (v : JsonValue) (steps : list Step) {struct steps} : option JsonValue :=
  match steps, v with
  | [], _ => Some v
  | Field name :: steps', Json_Object values =>
      match map_get name values with
      | Some v' => part_at v' steps'
      | None => None
      end
  | Item index :: steps', Json_Array values =>
      if (0 <=? index) && (index <? list_len values) then
        match values !! Z.to_nat index with
        | Some v' => part_at v' steps'
        | None => None
        end
      else None
  | _, _ => None
  end.

Definition escape (l : list ascii) : list ascii :=
  flat_map (fun d => if Ascii.eqb d "~" then bytes "~0" else if Ascii.eqb d "/" then bytes "~1" else [d]) l.

Definition segment (s : Step) : list ascii :=
  match s with
  | Field name => escape (bytes name)
  | Item index => bytes (u64_to_string index)
  end.

Lemma escape_cons d l : escape (d :: l) =
  (if Ascii.eqb d "~" then bytes "~0" else if Ascii.eqb d "/" then bytes "~1" else [d]) ++ escape l.
Proof. done. Qed.

Lemma escape_replaces name :
  bytes (str_replace "/" "~1" (str_replace "~" "~0" name)) = escape (bytes name).
Proof.
  unfold str_replace. rewrite !bytes_of_bytes. induction (bytes name) as [|d l IH]; [done|].
  rewrite escape_cons, <-IH. cbn [flat_map]. rewrite flat_map_app. f_equal.
  destruct (Ascii.eqb_spec d "~"); [done|]. cbn [flat_map]. by rewrite app_nil_r.
Qed.

Lemma escape_no_slash l : "/"%char ∉ escape l.
Proof.
  induction l as [|d l IH]; [by intros ?%elem_of_nil|]. rewrite escape_cons. intros [Hd|]%elem_of_app; [|done].
  destruct (Ascii.eqb_spec d "~"); [|destruct (Ascii.eqb_spec d "/")];
    repeat (apply elem_of_cons in Hd as [Hd|Hd]; [try discriminate; congruence|]); by apply elem_of_nil in Hd.
Qed.

Lemma escape_inj l k : escape l = escape k -> l = k.
Proof.
  revert k. induction l as [|c l IH]; intros [|d k]; rewrite ?escape_cons; [done| | |];
    repeat match goal with |- context [Ascii.eqb ?a ?b] => destruct (Ascii.eqb_spec a b) end;
    cbn; intros [=]; subst; try done; f_equal; auto.
Qed.

(** The indices of a path are indices of arrays. *)
Definition step_in_range (s : Step) : Prop :=
  match s with Field _ => True | Item i => 0 <= i <= int_max U64 end.

Lemma segment_no_slash s : step_in_range s -> "/"%char ∉ segment s.
Proof.
  destruct s as [name|i]; cbn [segment]; intros Hi; [apply escape_no_slash|].
  destruct (u64_to_string_spec i Hi) as (Hd & _ & _). intros Hin.
  rewrite Forall_forall in Hd. by apply Hd in Hin.
Qed.

Lemma step_path_bytes parent s : bytes (step_path parent s) = bytes parent ++ "/"%char :: segment s.
Proof.
  destruct s as [name|i]; cbn [step_path segment]; [unfold join_path|unfold index_path];
    by rewrite !bytes_app, ?escape_replaces.
Qed.

Lemma path_of_snoc steps s : path_of (steps ++ [s]) = step_path (path_of steps) s.
Proof. unfold path_of. by rewrite fold_left_app. Qed.

Lemma path_segments p : Forall step_in_range p -> forall q, Forall step_in_range q ->
  path_of p = path_of q -> map segment p = map segment q.
Proof.
  induction p as [|s p IH] using rev_ind; intros Hp q Hq E;
    destruct q as [|t q _] using rev_ind; rewrite ?path_of_snoc in E;
    apply (f_equal bytes) in E; rewrite ?step_path_bytes in E.
  - done.
  - by destruct (bytes (path_of q)).
  - by destruct (bytes (path_of p)).
  - apply Forall_app in Hp as [Hp [Hs _]%Forall_cons], Hq as [Hq [Ht _]%Forall_cons].
    apply not_elem_of_app_cons_inv_r in E as (E%bytes_inj & _ & Es); [|by apply segment_no_slash..].
    rewrite !map_app. cbn [map]. rewrite Es. f_equal. by apply IH.
Qed.

Lemma part_at_distinct v p q a b : Forall step_in_range p -> Forall step_in_range q ->
  part_at v p = Some a -> part_at v q = Some b -> map segment p = map segment q -> p = q.
Proof.
  intros Hp. revert v q. induction Hp as [|s p Hs _ IH]; intros v q Hq Ha Hb E; destruct Hq as [|t q Ht Hq]; try done.
  cbn [map] in E. injection E as Es E. destruct s as [n|i], t as [m|j], v; try done; cbn [part_at] in Ha, Hb.
  - cbn [segment] in Es. apply escape_inj, bytes_inj in Es as ->.
    destruct (map_get m values); [|done]. f_equal. by eapply IH.
  - cbn [segment] in Es. apply bytes_inj in Es.
    assert (i = j) as ->.
    { destruct (u64_to_string_spec i Hs) as (_ & _ & <-), (u64_to_string_spec j Ht) as (_ & _ & <-). by rewrite Es. }
    destruct ((0 <=? j) && (j <? list_len values)); [|done]. destruct (values !! Z.to_nat j); [|done].
    f_equal. by eapply IH.
Qed.

(** A step to a part of a value that is a result of validation is in range:
    its arrays are within the limit. *)
Lemma sized_steps v p a : json_sized v -> part_at v p = Some a -> Forall step_in_range p.
Proof.
  revert v. induction p as [|s p IH]; intros v Hv Ha; [constructor|].
  destruct s as [n|i], v as [| | | |values|values]; try done; cbn [part_at json_sized] in Ha, Hv.
  - destruct (map_get n values) as [v'|] eqn:Hg; [|done]. constructor; [done|]. apply (IH v'); [|done].
    clear Ha. induction values as [|[m u] values IHv]; [done|]. cbn [map_get] in Hg. destruct Hv as [[_ Hu] Hv].
    destruct (String.eqb m n); [by injection Hg as <-|by apply IHv].
  - destruct Hv as [Hlen Hv]. destruct (Z.leb_spec 0 i), (Z.ltb_spec i (list_len values)); cbn [andb] in Ha; try done.
    destruct (values !! Z.to_nat i) as [v'|] eqn:Hg; [|done].
    constructor; [cbn; unfold RESULT_LIST_MAX_ITEMS in Hlen; lia|]. apply (IH v'); [|done].
    clear Ha Hlen. revert Hg. generalize (Z.to_nat i) as k. clear -Hv.
    induction values as [|u values IHv]; intros k Hg; [by destruct k|]. destruct Hv as [Hu Hv].
    destruct k as [|k]; [by injection Hg as <-|by eapply IHv].
Qed.

(** Within a submitted value that passed the limits, the path of an issue
    names one part: the escaping of [join_path] keeps the pointers of different
    fields and items apart, whatever characters the names hold, so two chains of
    fields and items that both lead somewhere in the value and have the same
    path are the same chain. *)
Theorem result_paths_distinct v p q a b :
  json_sized v -> part_at v p = Some a -> part_at v q = Some b -> path_of p = path_of q -> p = q.
Proof.
  intros Hv Hp Hq E. assert (Forall step_in_range p) by (by eapply sized_steps).
  assert (Forall step_in_range q) by (by eapply sized_steps).
  eapply part_at_distinct; [done..|]. by apply path_segments.
Qed.

End Places.

(** ** Integers of any size *)

(** The memo holds powers of ten. *)
Definition powers_ok (powers : gmap Z Z) : Prop := forall n scale, powers !! n = Some scale -> scale = 10 ^ n.

Lemma digit_power_ok powers n : powers_ok powers ->
  powers_ok (digit_power powers n).1 /\ (digit_power powers n).2 = 10 ^ n.
Proof.
  intros Hp. unfold digit_power. destruct (powers !! n) as [scale|] eqn:E; cbn [fst snd]; [by split; [|apply Hp]|].
  split; [|done]. intros m s [[<- <-]|[_ ?]]%lookup_insert_Some; auto.
Qed.

Lemma leaf_digits digits : list_len digits <= BIG_INT_LEAF_DIGITS -> all_digits digits ->
  parse_digits U128 0 digits = Some (digits_value 0 digits).
Proof.
  intros Hlen Hd. rewrite parse_digits_spec by (cbn; (lia || done)). apply checked_in_range.
  pose proof (digits_value_bounds digits Hd). split; [cbn; lia|].
  apply Z.lt_le_incl, Z.lt_le_trans with (10 ^ list_len digits); [lia|].
  apply Z.le_trans with (10 ^ BIG_INT_LEAF_DIGITS); [by apply Z.pow_le_mono_r|by vm_compute].
Qed.

Lemma decimal_digits_exact fuel : forall digits powers,
  (length digits < fuel)%nat -> digits <> [] -> all_digits digits -> powers_ok powers ->
  exists powers', powers_ok powers' /\
    decimal_digits_into_py fuel digits powers = Some (powers', Ok (digits_value 0 digits)).
Proof.
  induction fuel as [|fuel IH]; intros digits powers Hf Hne Hd Hp; [lia|]. cbn [decimal_digits_into_py].
  destruct (Z.leb_spec (list_len digits) BIG_INT_LEAF_DIGITS) as [Hle|Hgt].
  { exists powers. split; [done|]. rewrite leaf_digits by done. by destruct digits. }
  unfold list_len, BIG_INT_LEAF_DIGITS in Hgt. remember (length digits / 2)%nat as m eqn:Hmid.
  assert (Hm : (1 <= m < length digits)%nat).
  { subst m. split; [apply Nat.div_le_lower_bound; lia|apply Nat.div_lt; lia]. }
  clear Hmid. rewrite <-(take_drop m digits) in Hd. apply Forall_app in Hd as [Hl Hr].
  assert (Hlt : (length (take m digits) < fuel)%nat) by (rewrite length_take; lia).
  assert (Hrt : (length (drop m digits) < fuel)%nat) by (rewrite length_drop; lia).
  assert (take m digits <> []) by (intros E%(f_equal length); rewrite length_take in E; cbn in E; lia).
  assert (drop m digits <> []) by (intros E%(f_equal length); rewrite length_drop in E; cbn in E; lia).
  destruct (IH (take m digits) powers) as (p1 & Hp1 & ->); [done..|]. cbn [mbind option_bind].
  destruct (IH (drop m digits) p1) as (p2 & Hp2 & ->); [done..|]. cbn [mbind option_bind].
  destruct (digit_power_ok p2 (list_len (drop m digits)) Hp2) as [Hp3 Hs].
  destruct (digit_power p2 (list_len (drop m digits))) as [p3 scale]. cbn [fst snd] in Hp3, Hs. subst scale.
  exists p3. split; [done|]. do 3 f_equal.
  transitivity (digits_value 0 (take m digits ++ drop m digits)); [|by rewrite take_drop].
  by rewrite digits_value_app, (digits_value_shift (digits_value 0 (take m digits))).
Qed.

(** The reading of a JSON integer token: an optional minus sign and one or more
    decimal digits. *)
Definition integer_token (encoded : string) (negative : bool) (digits : list ascii) : Prop :=
  bytes encoded = (if negative then ["-"%char] else []) ++ digits /\ digits <> [] /\ all_digits digits.

Definition sign_and_digits (encoded : string) : bool * list ascii :=
  match bytes encoded with
  | "-"%char :: digits => (true, digits)
  | digits => (false, digits)
  end.

Lemma sign_and_digits_bytes encoded :
  bytes encoded = (if (sign_and_digits encoded).1 then ["-"%char] else []) ++ (sign_and_digits encoded).2.
Proof.
  unfold sign_and_digits. destruct (bytes encoded) as [|c l]; [done|].
  destruct c as [[] [] [] [] [] [] [] []]; done.
Qed.

Lemma sign_and_digits_token encoded negative digits :
  integer_token encoded negative digits -> sign_and_digits encoded = (negative, digits).
Proof.
  intros (E & Hne & Hd). unfold sign_and_digits. rewrite E. destruct negative; [done|].
  destruct digits as [|c l]; [done|]. cbn [app]. apply Forall_cons in Hd as [Hc _].
  destruct c as [[] [] [] [] [] [] [] []]; done.
Qed.

(** The conversion of an integer of any length by halves returns, for every
    token and with fuel the length of the token, the integer the token
    denotes, sign included, and an error for every text that is no integer
    token. *)
Theorem arbitrary_precision_int_exact encoded fuel :
  (String.length encoded < fuel)%nat ->
  match arbitrary_precision_int fuel encoded with
  | Some (Ok z) => exists negative digits, integer_token encoded negative digits /\
      z = (if negative then - digits_value 0 digits else digits_value 0 digits)
  | Some (Err InvalidIntegerToken) => forall negative digits, ~ integer_token encoded negative digits
  | None => False
  end.
Proof.
  intros Hf. pose proof (sign_and_digits_bytes encoded) as Hb.
  pose proof (sign_and_digits_token encoded) as Ht. unfold arbitrary_precision_int.
  change (match bytes encoded with "-"%char :: digits => (true, digits) | digits => (false, digits) end)
    with (sign_and_digits encoded).
  destruct (sign_and_digits encoded) as [negative digits]. cbn [fst snd] in Hb.
  destruct (forallb is_ascii_digit digits) eqn:Hd; cbn [negb].
  - assert (Hall : all_digits digits) by (by apply Forall_forall; intros c ?%list_elem_of_In; eapply forallb_forall in Hd).
    destruct (decide (digits = [])) as [->|Hne]; [by intros n d Hi; pose proof (Ht _ _ Hi) as [= -> <-]; destruct Hi as (_ & ? & _)|].
    destruct (decimal_digits_exact fuel digits ∅) as (p & _ & E); [|done..|].
    { apply (f_equal length) in Hb. rewrite length_app in Hb.
      pose proof (str_len_bytes encoded). unfold str_len, list_len in *. lia. }
    rewrite E. destruct digits as [|c l]; [done|]. cbn [mbind option_bind result_map].
    exists negative, (c :: l). split; [done|]. by destruct negative.
  - assert (forall n d, ~ integer_token encoded n d).
    { intros n d Hi. pose proof (Ht _ _ Hi) as [= -> ->]. destruct Hi as (_ & _ & Hall).
      assert (forallb is_ascii_digit d = true); [|congruence].
      apply forallb_forall. intros c ?%list_elem_of_In. rewrite Forall_forall in Hall. by apply Hall. }
    by destruct digits.
Qed.

(** ** Witnesses

    A JSON library with one number for each integer, which prints no lists of
    choices. *)
#[local] Instance integers_only : SerdeJson := {
  Number := Z;
  number_is_i64 z := (int_min I64 <=? z) && (z <=? int_max I64);
  number_is_u64 z := (0 <=? z) && (z <=? int_max U64);
  number_as_i64 z := if (int_min I64 <=? z) && (z <=? int_max I64) then Some z else None;
  number_as_u64 z := if (0 <=? z) && (z <=? int_max U64) then Some z else None;
  number_as_f64 _ := None;
  number_to_string := u64_to_string;
  string_json s := s;
  strings_json _ := EmptyString;
  i64s_json _ := EmptyString;
  f64s_json _ := EmptyString;
  bools_json _ := EmptyString;
  f64_json _ := EmptyString;
  f64_to_string _ := EmptyString;
}.

Definition sample_result : JsonValue :=
  Json_Object [("a/b"%string, Json_Array [Json_Null; Json_Bool true]); ("a~1b"%string, Json_String "x")].

Lemma result_paths_distinct_witness :
  path_of [Field "a/b"; Item 1] = "/a~1b/1"%string /\
  forall p b, part_at sample_result p = Some b -> path_of [Field "a/b"; Item 1] = path_of p ->
    [Field "a/b"; Item 1] = p.
Proof.
  split; [reflexivity|]. intros p b Hp E.
  apply (result_paths_distinct sample_result _ p (Json_Bool true) b); [vm_compute; intuition discriminate|reflexivity|done..].
Defined.

Lemma arbitrary_precision_int_exact_witness :
  exists negative digits,
    integer_token "-123456789012345678901234567890123456789012345678" negative digits /\
    - 123456789012345678901234567890123456789012345678 =
      (if negative then - digits_value 0 digits else digits_value 0 digits).
Proof.
  pose proof (arbitrary_precision_int_exact "-123456789012345678901234567890123456789012345678" 60
    ltac:(cbn; lia)) as Hx.
  assert (E : arbitrary_precision_int 60 "-123456789012345678901234567890123456789012345678" =
    Some (Ok (- 123456789012345678901234567890123456789012345678))) by (vm_compute; reflexivity).
  rewrite E in Hx. exact Hx.
Defined.
