(* ===== verification/ActCompile.v ===== *)
(** * Compilation of act schemas

    [compile_act_schema] of crates/troupe-agent-runtime/src/schema/mod.rs: the
    walk over the Python objects of an output schema that builds the contract
    of [ActSchema], with its limits, its detection of cycles and its memo of
    custom validators.

    Python objects are a heap: an object is its class, as far as the code asks
    for it, and the values of its slots.  The heap does not change during a
    compilation.  What a custom [render_prompt] returns is a parameter. *)

From Stdlib Require Import SpecFloat.
From S2P Require Import Prelude Wire ActSchema.

#[local] Set Warnings "-register-all".

(** ** Limits *)

Definition SCHEMA_MAX_DEPTH : Z := 32.
Definition SCHEMA_MAX_NODES : Z := 1024.
Definition SCHEMA_MAX_FIELDS : Z := 512.
Definition SCHEMA_MAX_CHOICES : Z := 4096.
Definition SCHEMA_MAX_CHOICE_BYTES : Z := 256 * 1024.
Definition CUSTOM_PROMPT_MAX_BYTES : Z := 16 * 1024.
Definition DESCRIPTION_MAX_SCALARS : Z := 1024.
Definition DESCRIPTION_MAX_BYTES : Z := 4 * 1024.
Definition SCALAR_CHOICES_MAX_ITEMS : Z := 256.

(** ** Python values and objects *)

(** A [str] that holds a lone surrogate has no UTF-8 form: [Py_Str None]. *)
Inductive PyValue :=
| Py_None
| Py_Bool (b : bool)
| Py_Int (z : Z)
| Py_Float (f : spec_float)
| Py_Str (s : option string)
| Py_Tuple (items : list PyValue)
| Py_Dict (entries : list (PyValue * PyValue))
| Py_Object (identity : Z).

(** The class of an object: a class of act_schema itself, a subclass of [Field],
    a subclass of a built-in value, any other subclass of [SchemaValue], or a
    class that is none of these. *)
Inductive PyClass :=
| Class_StrValue | Class_Int64Value | Class_Float64Value | Class_BoolValue | Class_ListValue
| Class_ObjectValue | Class_NullableValue
| Class_Field
| Class_FieldSubclass
| Class_BuiltinSubclass
| Class_CustomValue
| Class_Other.

#[export] Instance PyClass_eq_dec : EqDecision PyClass.
Proof. solve_decision. Defined.

Record PyObject := mkObject {
  object_class : PyClass;
  object_slots : gmap string PyValue;
}.

Inductive PyErr :=
| Py_TypeError (message : string)
| Py_ValueError (message : string)
| Py_AttributeError (name : string)
| Py_OverflowError
| Py_UnicodeError
| Py_Raised (exception : Z)
| Py_CallbackError (phase path : string) (cause : PyErr).

Record PyWorld := mkWorld {
  py_objects : gmap Z PyObject;
  py_render_prompt : Z -> result PyValue PyErr;
}.

(** [value.get_type()], for the classes of act_schema. *)
Definition class_of (world : PyWorld) (value : PyValue) : PyClass :=
  match value with
  | Py_Object identity =>
      match py_objects world !! identity with
      | Some o => object_class o
      | None => Class_Other
      end
  | _ => Class_Other
  end.

Definition getattr (world : PyWorld) (value : PyValue) (name : string) : result PyValue PyErr :=
  match value with
  | Py_Object identity =>
      match py_objects world !! identity with
      | Some o => ok_or (object_slots o !! name) (Py_AttributeError name)
      | None => Err (Py_AttributeError name)
      end
  | _ => Err (Py_AttributeError name)
  end.

(** [char::is_whitespace] on the UTF-8 form of its characters. *)
Fixpoint all_whitespace (l : list ascii) : bool :=
  match l with
  | [] => true
  | c :: l' =>
      let b := byte_val c in
      if ((9 <=? b) && (b <=? 13)) || (b =? 32) then all_whitespace l'
      else
        match l' with
        | [] => false
        | c1 :: l1 =>
            let b1 := byte_val c1 in
            if (b =? 194) && ((b1 =? 133) || (b1 =? 160)) then all_whitespace l1
            else
              match l1 with
              | [] => false
              | c2 :: l2 =>
                  let b2 := byte_val c2 in
                  if ((b =? 225) && (b1 =? 154) && (b2 =? 128))
                     || ((b =? 226) && (b1 =? 128)
                         && (((128 <=? b2) && (b2 <=? 138)) || (b2 =? 168) || (b2 =? 169) || (b2 =? 175)))
                     || ((b =? 226) && (b1 =? 129) && (b2 =? 159))
                     || ((b =? 227) && (b1 =? 128) && (b2 =? 128))
                  then all_whitespace l2
                  else false
              end
        end
  end.

Definition is_blank (s : string) : bool := bool_decide (s = EmptyString) || all_whitespace (bytes s).

(** ** Reading the slots *)

Definition extract_exact_string (value : PyValue) (message : string) : result string PyErr :=
  match value with
  | Py_Str s => ok_or s (Py_ValueError "schema string must contain only Unicode scalar values")
  | _ => Err (Py_TypeError message)
  end.

Definition extract_custom_description (value : PyValue) : result string PyErr :=
  let? description := extract_exact_string value "description must be an exact str" in
  if is_blank description then
    Err (Py_ValueError "description must contain a non-whitespace character")
  else if (DESCRIPTION_MAX_SCALARS <? scalar_count description)
          || (DESCRIPTION_MAX_BYTES <? str_len description) then
    Err (Py_ValueError "description exceeds ResourceLimitsV1")
  else Ok description.

Definition extract_builtin_description (world : PyWorld) (value : PyValue) : result string PyErr :=
  let? description := getattr world value "_description" in
  extract_custom_description description.

Definition extract_builtin_json_kind (world : PyWorld) (value : PyValue) : result JsonKind PyErr :=
  let? slot := getattr world value "_json_kind" in
  let? json_kind := extract_exact_string slot "built-in json_kind snapshot must be an exact str" in
  ok_or (JsonKind_parse json_kind) (Py_ValueError "built-in json_kind snapshot is invalid").

Definition extract_builtin_metadata (world : PyWorld) (value : PyValue) (expected_kind : JsonKind)
    : result string PyErr :=
  let? description := extract_builtin_description world value in
  let? json_kind := extract_builtin_json_kind world value in
  guard? bool_decide (json_kind = expected_kind)
    or Py_ValueError "built-in json_kind snapshot does not match its descriptor type" in
  Ok description.

(** [SchemaTypes::custom_base_metadata]. *)
Definition base_slot (world : PyWorld) (value : PyValue) (name : string) : result PyValue PyErr :=
  map_err (fun _ => Py_TypeError "custom SchemaValue must call SchemaValue.__init__()")
    (getattr world value name).

Definition custom_base_metadata (world : PyWorld) (value : PyValue) : result (string * JsonKind) PyErr :=
  let? slot := base_slot world value "_description" in
  let? description := extract_custom_description slot in
  let? slot := base_slot world value "_json_kind" in
  let? json_kind := extract_exact_string slot "custom json_kind must be an exact str" in
  let? json_kind := ok_or (JsonKind_parse json_kind) (Py_ValueError "custom json_kind is invalid") in
  Ok (description, json_kind).

Definition extract_exact_optional_usize (value : PyValue) (name : string) (maximum : Z)
    : result (option Z) PyErr :=
  match value with
  | Py_None => Ok None
  | Py_Int z =>
      let? value := ok_or (checked Usize z) Py_OverflowError in
      if maximum <? value then Err (Py_ValueError (name +:+ " snapshot exceeds ResourceLimitsV1"))
      else Ok (Some value)
  | _ => Err (Py_TypeError (name +:+ " snapshot must be an exact int or None"))
  end.

Definition extract_exact_optional_i64 (value : PyValue) (name : string) : result (option Z) PyErr :=
  match value with
  | Py_None => Ok None
  | Py_Int z => let? value := ok_or (checked I64 z) Py_OverflowError in Ok (Some value)
  | _ => Err (Py_TypeError (name +:+ " snapshot must be an exact int or None"))
  end.

Definition extract_exact_optional_f64 (value : PyValue) (name : string)
    : result (option spec_float) PyErr :=
  match value with
  | Py_None => Ok None
  | Py_Float f =>
      guard? f64_is_finite f or Py_ValueError (name +:+ " snapshot must be finite") in Ok (Some f)
  | _ => Err (Py_TypeError (name +:+ " snapshot must be an exact float or None"))
  end.

Definition extract_exact_bool (value : PyValue) (name : string) : result bool PyErr :=
  match value with
  | Py_Bool b => Ok b
  | _ => Err (Py_TypeError (name +:+ " snapshot must be an exact bool"))
  end.

Definition extract_choice_tuple (value : PyValue) : result (option (list PyValue)) PyErr :=
  match value with
  | Py_None => Ok None
  | Py_Tuple choices =>
      if list_len choices =? 0 then Err (Py_ValueError "choices snapshot must not be empty")
      else if SCALAR_CHOICES_MAX_ITEMS <? list_len choices then
        Err (Py_ValueError "choices snapshot exceeds ResourceLimitsV1")
      else Ok (Some choices)
  | _ => Err (Py_TypeError "choices snapshot must be an exact tuple or None")
  end.

(** The loops over the choices: [read] is a choice with its own conditions, [eq]
    what makes two of them duplicates. *)
Fixpoint collect_choices {A} (read : PyValue -> result A PyErr) (eq : A -> A -> bool)
    (output : list A) (choices : list PyValue) : result (list A) PyErr :=
  match choices with
  | [] => Ok output
  | choice :: choices' =>
      let? choice := read choice in
      if existsb (eq choice) output then
        Err (Py_ValueError "choices snapshot must not contain duplicates")
      else collect_choices read eq (output ++ [choice]) choices'
  end.

Definition extract_choices {A} (read : PyValue -> result A PyErr) (eq : A -> A -> bool) (value : PyValue)
    : result (option (list A)) PyErr :=
  let? choices := extract_choice_tuple value in
  match choices with
  | None => Ok None
  | Some choices => result_map Some (collect_choices read eq [] choices)
  end.

Definition read_string_choice (minimum : option Z) (maximum : Z) (choice : PyValue)
    : result string PyErr :=
  let? choice := extract_exact_string choice "string choice snapshot must be an exact str" in
  let scalars := scalar_count choice in
  if (RESULT_STRING_MAX_SCALARS <? scalars) || (RESULT_STRING_MAX_BYTES <? str_len choice) then
    Err (Py_ValueError "string choice snapshot exceeds ResourceLimitsV1")
  else if opt_lt Z.ltb scalars minimum || (maximum <? scalars) then
    Err (Py_ValueError "string choice snapshot violates length bounds")
  else Ok choice.

Definition read_int64_choice (minimum maximum : option Z) (choice : PyValue) : result Z PyErr :=
  match choice with
  | Py_Int z =>
      let? choice := ok_or (checked I64 z) Py_OverflowError in
      if opt_lt Z.ltb choice minimum || opt_gt Z.ltb choice maximum then
        Err (Py_ValueError "integer choice snapshot violates bounds")
      else Ok choice
  | _ => Err (Py_TypeError "integer choice snapshot must be an exact int")
  end.

Definition read_float64_choice (minimum maximum : option spec_float) (choice : PyValue)
    : result spec_float PyErr :=
  match choice with
  | Py_Float choice =>
      if negb (f64_is_finite choice) then Err (Py_ValueError "float choice snapshot must be finite")
      else if opt_lt SFltb choice minimum || opt_gt SFltb choice maximum then
        Err (Py_ValueError "float choice snapshot violates bounds")
      else Ok choice
  | _ => Err (Py_TypeError "float choice snapshot must be an exact float")
  end.

Definition extract_string_choices (value : PyValue) (minimum : option Z) (maximum : Z) :=
  extract_choices (read_string_choice minimum maximum) String.eqb value.

Definition extract_int64_choices (value : PyValue) (minimum maximum : option Z) :=
  extract_choices (read_int64_choice minimum maximum) Z.eqb value.

Definition extract_float64_choices (value : PyValue) (minimum maximum : option spec_float) :=
  extract_choices (read_float64_choice minimum maximum) SFeqb value.

Definition extract_bool_choices (value : PyValue) :=
  extract_choices (fun choice => extract_exact_bool choice "boolean choice") Bool.eqb value.

(** ** The compiler *)

Record CompileStats := mkStats {
  cs_nodes : Z;
  cs_fields : Z;
  cs_choices : Z;
  cs_choice_bytes : Z;
}.

Record CustomBinding := mkBinding {
  cb_validator_id : Z;
  cb_description : string;
  cb_json_kind : JsonKind;
  cb_prompt_fragment : string;
}.

Record Compiler := mkCompiler {
  co_stats : CompileStats;
  co_active : gset Z;
  co_custom_memo : gmap Z CustomBinding;
  co_custom_validators : list Z;
}.

(** A method of the compiler: [None] is a recursion deeper than the fuel, an
    error drops the compiler. *)
Definition Compile (A : Type) : Type := Compiler -> option (result (A * Compiler) PyErr).

Definition ret {A} (a : A) : Compile A := fun st => Some (Ok (a, st)).

Definition fail {A} (e : PyErr) : Compile A := fun _ => Some (Err e).

Definition bind {A B} (m : Compile A) (k : A -> Compile B) : Compile B := fun st =>
  match m st with
  | Some (Ok (a, st)) => k a st
  | Some (Err e) => Some (Err e)
  | None => None
  end.

Definition lift {A} (r : result A PyErr) : Compile A :=
  match r with
  | Ok a => ret a
  | Err e => fail e
  end.

Definition gets {A} (f : Compiler -> A) : Compile A := fun st => Some (Ok (f st, st)).

Definition modify (f : Compiler -> Compiler) : Compile unit := fun st => Some (Ok (tt, f st)).

Notation "'let!' x := m 'in' k" := (bind m (fun x => k))
  (at level 10, x name, m at level 100, k at level 200) : troupe_scope.

Definition with_stats (f : CompileStats -> CompileStats) (st : Compiler) : Compiler :=
  mkCompiler (f (co_stats st)) (co_active st) (co_custom_memo st) (co_custom_validators st).

Definition with_active (f : gset Z -> gset Z) (st : Compiler) : Compiler :=
  mkCompiler (co_stats st) (f (co_active st)) (co_custom_memo st) (co_custom_validators st).

Definition add_node (s : CompileStats) : CompileStats :=
  mkStats (cs_nodes s + 1) (cs_fields s) (cs_choices s) (cs_choice_bytes s).

Definition add_field (s : CompileStats) : CompileStats :=
  mkStats (cs_nodes s) (cs_fields s + 1) (cs_choices s) (cs_choice_bytes s).

Definition add_choices (choices bytes : Z) (s : CompileStats) : CompileStats :=
  mkStats (cs_nodes s) (cs_fields s) (cs_choices s + choices) (cs_choice_bytes s + bytes).

Definition choices_exceeded (s : CompileStats) : bool :=
  (SCHEMA_MAX_CHOICES <? cs_choices s) || (SCHEMA_MAX_CHOICE_BYTES <? cs_choice_bytes s).

Definition record_choices {A} (choices : option (list A)) (encoded_len : A -> Z) : Compile unit :=
  match choices with
  | None => ret tt
  | Some choices =>
      let! _ := modify (with_stats (add_choices (list_len choices) (sum_with encoded_len choices))) in
      let! stats := gets co_stats in
      if choices_exceeded stats then
        fail (Py_ValueError "compiled schema choices exceed ResourceLimitsV1")
      else ret tt
  end.

Definition schema_callback_error (phase path : string) (cause : PyErr) : PyErr :=
  Py_CallbackError phase path cause.

(** [Some minimum > maximum] of two optional bounds. *)
Definition crossed {A} (lt : A -> A -> bool) (minimum maximum : option A) : bool :=
  match minimum, maximum with
  | Some minimum, Some maximum => lt maximum minimum
  | _, _ => false
  end.

Section Compile.
Context `{SerdeJson} (world : PyWorld).

Definition compile_string (value : PyValue) : Compile ValueContract :=
  let! description := lift (extract_builtin_metadata world value Kind_String) in
  let! slot := lift (getattr world value "_min_length") in
  let! min_length := lift (extract_exact_optional_usize slot "min_length" RESULT_STRING_MAX_SCALARS) in
  let! slot := lift (getattr world value "_max_length") in
  let! max_length := lift (extract_exact_optional_usize slot "max_length" RESULT_STRING_MAX_SCALARS) in
  let max_length := default RESULT_STRING_MAX_SCALARS max_length in
  if opt_lt Z.ltb max_length min_length then
    fail (Py_ValueError "min_length snapshot must not exceed max_length")
  else
    let! slot := lift (getattr world value "_choices") in
    let! choices := lift (extract_string_choices slot min_length max_length) in
    let! _ := record_choices choices (fun choice => str_len (string_json choice)) in
    ret (Contract_String description min_length max_length choices).

Definition compile_int64 (value : PyValue) : Compile ValueContract :=
  let! description := lift (extract_builtin_metadata world value Kind_Int64) in
  let! slot := lift (getattr world value "_min") in
  let! minimum := lift (extract_exact_optional_i64 slot "min") in
  let! slot := lift (getattr world value "_max") in
  let! maximum := lift (extract_exact_optional_i64 slot "max") in
  if crossed Z.ltb minimum maximum then fail (Py_ValueError "min snapshot must not exceed max")
  else
    let! slot := lift (getattr world value "_choices") in
    let! choices := lift (extract_int64_choices slot minimum maximum) in
    let! _ := record_choices choices (fun choice => str_len (i64_to_string choice)) in
    ret (Contract_Int64 description minimum maximum choices).

Definition compile_float64 (value : PyValue) : Compile ValueContract :=
  let! description := lift (extract_builtin_metadata world value Kind_Float64) in
  let! slot := lift (getattr world value "_min") in
  let! minimum := lift (extract_exact_optional_f64 slot "min") in
  let! slot := lift (getattr world value "_max") in
  let! maximum := lift (extract_exact_optional_f64 slot "max") in
  if crossed SFltb minimum maximum then fail (Py_ValueError "min snapshot must not exceed max")
  else
    let! slot := lift (getattr world value "_choices") in
    let! choices := lift (extract_float64_choices slot minimum maximum) in
    let! _ := record_choices choices (fun choice => str_len (f64_json choice)) in
    ret (Contract_Float64 description minimum maximum choices).

Definition compile_bool (value : PyValue) : Compile ValueContract :=
  let! description := lift (extract_builtin_metadata world value Kind_Bool) in
  let! slot := lift (getattr world value "_choices") in
  let! choices := lift (extract_bool_choices slot) in
  let! _ := record_choices choices (fun choice : bool => if choice then 4 else 5) in
  ret (Contract_Bool description choices).

Section Inner.
(** [self.compile_value]. *)
Context (compile : PyValue -> Z -> string -> Compile ValueContract).

Definition compile_list (value : PyValue) (depth : Z) (path : string) : Compile ValueContract :=
  let! description := lift (extract_builtin_metadata world value Kind_Array) in
  let! slot := lift (getattr world value "_min_items") in
  let! min_items := lift (extract_exact_optional_usize slot "min_items" RESULT_LIST_MAX_ITEMS) in
  let! slot := lift (getattr world value "_max_items") in
  let! max_items := lift (extract_exact_optional_usize slot "max_items" RESULT_LIST_MAX_ITEMS) in
  let max_items := default RESULT_LIST_MAX_ITEMS max_items in
  if opt_lt Z.ltb max_items min_items then
    fail (Py_ValueError "min_items snapshot must not exceed max_items")
  else
    let! item := lift (getattr world value "_item") in
    let! item := compile item (depth + 1) (path +:+ "/*") in
    ret (Contract_List description item min_items max_items).

(** The first loop over the fields: their three parts. *)
Fixpoint field_entries (fields : list PyValue) : result (list (PyValue * PyValue * PyValue)) PyErr :=
  match fields with
  | [] => Ok []
  | Py_Tuple [name; value; required] :: fields' =>
      let? entries := field_entries fields' in Ok ((name, value, required) :: entries)
  | Py_Tuple _ :: _ =>
      Err (Py_ValueError "object field snapshot must contain name, value, and required")
  | _ :: _ => Err (Py_TypeError "object field snapshot must be an exact tuple")
  end.

(** The second loop: [names] are those of the fields before. *)
Fixpoint compile_entries (entries : list (PyValue * PyValue * PyValue)) (depth : Z) (path : string)
    (names : list string) : Compile (list FieldContract) :=
  match entries with
  | [] => ret []
  | (name, field_value, required) :: entries' =>
      let! name := lift (extract_exact_string name "object field name must be an exact str") in
      if existsb (String.eqb name) names then
        fail (Py_ValueError "object fields snapshot must not contain duplicate names")
      else
        let field_path := join_path path name in
        let! _ := modify (with_stats add_field) in
        let! required := lift (extract_exact_bool required "required") in
        let! value := compile field_value (depth + 1) field_path in
        let! compiled := compile_entries entries' depth path (names ++ [name]) in
        ret (mkFieldContract name required value :: compiled)
  end.

Definition compile_object (value : PyValue) (depth : Z) (path : string) : Compile ValueContract :=
  let! description := lift (extract_builtin_metadata world value Kind_Object) in
  let! fields_value := lift (getattr world value "_fields") in
  match fields_value with
  | Py_Tuple fields =>
      let! entries := lift (field_entries fields) in
      let! compiled := compile_entries entries depth path [] in
      ret (Contract_Object description (mkObjectContract compiled))
  | _ => fail (Py_TypeError "object fields snapshot must be an exact tuple")
  end.

Definition compile_nullable (value : PyValue) (depth : Z) (path : string) : Compile ValueContract :=
  let! description := lift (extract_builtin_description world value) in
  let! json_kind := lift (extract_builtin_json_kind world value) in
  let! inner := lift (getattr world value "_inner") in
  let! inner := compile inner (depth + 1) path in
  if negb (String.eqb description (contract_description inner))
     || negb (bool_decide (json_kind = contract_json_kind inner)) then
    fail (Py_ValueError "NullableValue metadata snapshot must match its inner value")
  else ret (Contract_Nullable inner).

(** What a custom [render_prompt] returned, when it is a fragment. *)
Definition prompt_fragment_of (path : string) (rendered : result PyValue PyErr) : result string PyErr :=
  map_err (schema_callback_error "render_prompt" path)
    (let? rendered := rendered in
     match rendered with
     | Py_Str None => Err Py_UnicodeError
     | Py_Str (Some rendered) =>
         if is_blank rendered then
           Err (Py_ValueError "custom render_prompt() must return a non-blank fragment")
         else if CUSTOM_PROMPT_MAX_BYTES <? str_len rendered then
           Err (Py_ValueError "custom render_prompt() exceeds ResourceLimitsV1")
         else Ok rendered
     | _ => Err (Py_TypeError "custom render_prompt() must return an exact str")
     end).

Definition add_binding (identity : Z) (binding : CustomBinding) (st : Compiler) : Compiler :=
  mkCompiler (co_stats st) (co_active st) (<[identity := binding]> (co_custom_memo st))
    (co_custom_validators st ++ [identity]).

Definition custom_binding (identity : Z) (path : string) : Compile CustomBinding :=
  let value := Py_Object identity in
  let! memo := gets co_custom_memo in
  match memo !! identity with
  | Some binding => ret binding
  | None =>
      let! metadata := lift (custom_base_metadata world value) in
      let! rendered := lift (prompt_fragment_of path (py_render_prompt world identity)) in
      let! validators := gets co_custom_validators in
      let binding := mkBinding (list_len validators) metadata.1 metadata.2 rendered in
      let! _ := modify (add_binding identity binding) in
      ret binding
  end.

Definition compile_custom (identity : Z) (path : string) : Compile ValueContract :=
  let! binding := custom_binding identity path in
  ret (Contract_Custom (cb_description binding) (cb_json_kind binding) (cb_prompt_fragment binding)
         (cb_validator_id binding)).

Definition compile_value_inner (value : PyValue) (depth : Z) (path : string) : Compile ValueContract :=
  match class_of world value, value with
  | Class_StrValue, _ => compile_string value
  | Class_Int64Value, _ => compile_int64 value
  | Class_Float64Value, _ => compile_float64 value
  | Class_BoolValue, _ => compile_bool value
  | Class_ListValue, _ => compile_list value depth path
  | Class_ObjectValue, _ => compile_object value depth path
  | Class_NullableValue, _ => compile_nullable value depth path
  | Class_BuiltinSubclass, _ =>
      fail (Py_TypeError "concrete built-in SchemaValue subclasses are not supported")
  | Class_CustomValue, Py_Object identity => compile_custom identity path
  | _, _ => fail (Py_TypeError ("schema field " +:+ path +:+ " must be a SchemaValue or Field"))
  end.

End Inner.

(** The identity of a value is that of its object; a value that is not an
    object of a schema class is refused by [compile_value_inner] and is never
    active. *)
Definition identity_of (value : PyValue) : option Z :=
  match value with
  | Py_Object identity => Some identity
  | _ => None
  end.

Definition is_active (value : PyValue) (active : gset Z) : bool :=
  match identity_of value with
  | Some identity => bool_decide (identity ∈ active)
  | None => false
  end.

Definition enter_active (value : PyValue) (active : gset Z) : gset Z :=
  match identity_of value with
  | Some identity => {[identity]} ∪ active
  | None => active
  end.

Definition leave_active (value : PyValue) (active : gset Z) : gset Z :=
  match identity_of value with
  | Some identity => active ∖ {[identity]}
  | None => active
  end.

Fixpoint compile_value (fuel : nat) (value : PyValue) (depth : Z) (path : string) : Compile ValueContract :=
  match fuel with
  | O => fun _ => None
  | S fuel' =>
      if SCHEMA_MAX_DEPTH <? depth then fail (Py_ValueError "compiled schema exceeds the depth limit")
      else
        let! _ := modify (with_stats add_node) in
        let! stats := gets co_stats in
        if SCHEMA_MAX_NODES <? cs_nodes stats then
          fail (Py_ValueError "compiled schema exceeds the node limit")
        else
          let! active := gets co_active in
          if is_active value active then
            fail (Py_ValueError ("schema graph contains a cycle at " +:+ path))
          else
            let! _ := modify (with_active (enter_active value)) in
            let! compiled := compile_value_inner (compile_value fuel') value depth path in
            let! _ := modify (with_active (leave_active value)) in
            ret compiled
  end.

(** A field of the dictionary: the value it holds and whether it is required. *)
Definition field_spec (spec : PyValue) : result (PyValue * bool) PyErr :=
  match class_of world spec with
  | Class_Field =>
      let? inner := getattr world spec "_inner" in
      let? slot := getattr world spec "_required" in
      let? required := extract_exact_bool slot "required" in
      Ok (inner, required)
  | Class_FieldSubclass => Err (Py_TypeError "Field subclasses are not supported")
  | _ => Ok (spec, true)
  end.

Definition field_name_of (name : PyValue) : result string PyErr :=
  match name with
  | Py_Str s => ok_or s (Py_ValueError "schema field names must contain only Unicode scalar values")
  | _ => Err (Py_TypeError "schema field names must be exact str")
  end.

Fixpoint compile_object_fields (fuel : nat) (fields : list (PyValue * PyValue)) (depth : Z) (path : string)
    : Compile (list FieldContract) :=
  match fields with
  | [] => ret []
  | (name, spec) :: fields' =>
      let! name := lift (field_name_of name) in
      let field_path := join_path path name in
      let! spec := lift (field_spec spec) in
      let! _ := modify (with_stats add_field) in
      let! value := compile_value fuel spec.1 (depth + 1) field_path in
      let! compiled := compile_object_fields fuel fields' depth path in
      ret (mkFieldContract name spec.2 value :: compiled)
  end.

Inductive SchemaValidationMode := NativeOnly | Hybrid.

Record CompiledActSchema := mkCompiledSchema {
  cas_root : ObjectContract;
  cas_validation_mode : SchemaValidationMode;
  cas_custom_validators : list Z;
}.

Definition Compiler_new : Compiler := mkCompiler (mkStats 1 0 0 0) ∅ ∅ [].

(** The limits at the end of [compile_act_schema]. *)
Definition check_stats (stats : CompileStats) : result unit PyErr :=
  if SCHEMA_MAX_NODES <? cs_nodes stats then Err (Py_ValueError "compiled schema exceeds the node limit")
  else if SCHEMA_MAX_FIELDS <? cs_fields stats then
    Err (Py_ValueError "compiled schema exceeds the field limit")
  else if choices_exceeded stats then
    Err (Py_ValueError "compiled schema choices exceed ResourceLimitsV1")
  else Ok tt.

Definition compile_act_schema (fuel : nat) (schema : PyValue) : option (result CompiledActSchema PyErr) :=
  match schema with
  | Py_Dict entries =>
      match compile_object_fields fuel entries 1 EmptyString Compiler_new with
      | None => None
      | Some (Err e) => Some (Err e)
      | Some (Ok (fields, compiler)) =>
          Some
            (let? _ := check_stats (co_stats compiler) in
             let validation_mode :=
               match co_custom_validators compiler with [] => NativeOnly | _ => Hybrid end in
             Ok (mkCompiledSchema (mkObjectContract fields) validation_mode (co_custom_validators compiler)))
      end
  | _ => Some (Err (Py_TypeError "output_schema must be an exact dict"))
  end.

End Compile.

(** [CompiledActSchema::custom_validator]. *)
Definition custom_validator (self : CompiledActSchema) (id : Z) : option Z :=
  cas_custom_validators self !! Z.to_nat id.
