(* ===== verification/ActCompileSpec.v ===== *)
(** * What the compilation of act schemas accepts

    A declarative reading of schema objects, [denotes]: which contract an object
    of the heap stands for.  [compile_act_schema] is proved to end on every
    graph, cyclic ones included, and to accept exactly the dictionaries that
    denote a well-formed contract within the limits. *)

From Stdlib Require Import SpecFloat Relations.
From S2P Require Import Prelude Wire ActSchema ActSchemaSpec ActCompile.

#[local] Set Warnings "-register-all".

(** ** Weakest preconditions of the compiler's monad

    [wp m Q E st]: [m] ends from [st], with a result and a state in [Q] or with
    an error in [E]. *)

Definition wp {A} (m : Compile A) (Q : A -> Compiler -> Prop) (E : PyErr -> Prop) (st : Compiler) : Prop :=
  match m st with
  | Some (Ok (a, st')) => Q a st'
  | Some (Err e) => E e
  | None => False
  end.

Section Wp.
Context {A B : Type} (E : PyErr -> Prop).

Lemma wp_ret (a : A) (Q : A -> Compiler -> Prop) st : Q a st -> wp (ret a) Q E st.
Proof. done. Qed.

Lemma wp_bind (m : Compile A) (k : A -> Compile B) Q st :
  wp m (fun a => wp (k a) Q E) E st -> wp (bind m k) Q E st.
Proof. unfold wp, bind. destruct (m st) as [[[a st']|e]|]; auto. Qed.

Lemma wp_gets (f : Compiler -> A) (Q : A -> Compiler -> Prop) st : Q (f st) st -> wp (gets f) Q E st.
Proof. done. Qed.

Lemma wp_lift (r : result A PyErr) (Q : A -> Compiler -> Prop) st :
  match r with Ok a => Q a st | Err e => E e end -> wp (lift r) Q E st.
Proof. by destruct r. Qed.

Lemma wp_mono (m : Compile A) (Q Q' : A -> Compiler -> Prop) (E' : PyErr -> Prop) st :
  wp m Q E st -> (forall a st', Q a st' -> Q' a st') -> (forall e, E e -> E' e) -> wp m Q' E' st.
Proof. unfold wp. destruct (m st) as [[[a st']|e]|]; auto. Qed.

Lemma wp_conj (m : Compile A) (Q Q' : A -> Compiler -> Prop) (E' : PyErr -> Prop) st :
  wp m Q E st -> wp m Q' E' st -> wp m (fun a st' => Q a st' /\ Q' a st') (fun e => E e /\ E' e) st.
Proof. unfold wp. destruct (m st) as [[[a st']|e]|]; auto. Qed.
End Wp.

Lemma wp_modify f (Q : unit -> Compiler -> Prop) E st : Q tt (f st) -> wp (modify f) Q E st.
Proof. done. Qed.

Lemma wp_fail {A} e (Q : A -> Compiler -> Prop) (E : PyErr -> Prop) st : E e -> wp (fail e) Q E st.
Proof. done. Qed.

(** ** Measures of a contract *)

Definition choice_count {A} (choices : option (list A)) : Z :=
  match choices with Some l => list_len l | None => 0 end.

Definition choice_sizes {A} (size : A -> Z) (choices : option (list A)) : Z :=
  match choices with Some l => sum_with size l | None => 0 end.

Definition bool_size (choice : bool) : Z := if choice then 4 else 5.

Section Measures.
Context `{SerdeJson}.

Fixpoint contract_depth (c : ValueContract) : Z :=
  match c with
  | Contract_List _ item _ _ => 1 + contract_depth item
  | Contract_Object _ (mkObjectContract fields) =>
      1 + max_with (fun '(mkFieldContract _ _ c) => contract_depth c) fields
  | Contract_Nullable inner => 1 + contract_depth inner
  | _ => 1
  end.

Fixpoint contract_nodes (c : ValueContract) : Z :=
  match c with
  | Contract_List _ item _ _ => 1 + contract_nodes item
  | Contract_Object _ (mkObjectContract fields) =>
      1 + sum_with (fun '(mkFieldContract _ _ c) => contract_nodes c) fields
  | Contract_Nullable inner => 1 + contract_nodes inner
  | _ => 1
  end.

Fixpoint contract_field_count (c : ValueContract) : Z :=
  match c with
  | Contract_List _ item _ _ => contract_field_count item
  | Contract_Object _ (mkObjectContract fields) =>
      sum_with (fun '(mkFieldContract _ _ c) => 1 + contract_field_count c) fields
  | Contract_Nullable inner => contract_field_count inner
  | _ => 0
  end.

Fixpoint contract_choices (c : ValueContract) : Z :=
  match c with
  | Contract_String _ _ _ choices => choice_count choices
  | Contract_Int64 _ _ _ choices => choice_count choices
  | Contract_Float64 _ _ _ choices => choice_count choices
  | Contract_Bool _ choices => choice_count choices
  | Contract_List _ item _ _ => contract_choices item
  | Contract_Object _ (mkObjectContract fields) =>
      sum_with (fun '(mkFieldContract _ _ c) => contract_choices c) fields
  | Contract_Nullable inner => contract_choices inner
  | Contract_Custom _ _ _ _ => 0
  end.

Fixpoint contract_choice_bytes (c : ValueContract) : Z :=
  match c with
  | Contract_String _ _ _ choices => choice_sizes (fun s => str_len (string_json s)) choices
  | Contract_Int64 _ _ _ choices => choice_sizes (fun z => str_len (i64_to_string z)) choices
  | Contract_Float64 _ _ _ choices => choice_sizes (fun f => str_len (f64_json f)) choices
  | Contract_Bool _ choices => choice_sizes bool_size choices
  | Contract_List _ item _ _ => contract_choice_bytes item
  | Contract_Object _ (mkObjectContract fields) =>
      sum_with (fun '(mkFieldContract _ _ c) => contract_choice_bytes c) fields
  | Contract_Nullable inner => contract_choice_bytes inner
  | Contract_Custom _ _ _ _ => 0
  end.

(** The schema limits, on the contract of a whole schema. *)
Definition within_schema_limits (c : ValueContract) : Prop :=
  contract_depth c <= SCHEMA_MAX_DEPTH /\ contract_nodes c <= SCHEMA_MAX_NODES /\
  contract_field_count c <= SCHEMA_MAX_FIELDS /\ contract_choices c <= SCHEMA_MAX_CHOICES /\
  contract_choice_bytes c <= SCHEMA_MAX_CHOICE_BYTES.
End Measures.

(** ** Well-formed contracts *)

Definition blank_free (s : string) : Prop := is_blank s = false.

Definition good_description (d : string) : Prop :=
  blank_free d /\ scalar_count d <= DESCRIPTION_MAX_SCALARS /\ str_len d <= DESCRIPTION_MAX_BYTES.

Definition size_ok (maximum : Z) (size : option Z) : Prop :=
  match size with Some z => 0 <= z <= maximum | None => True end.

Definition at_least (z : Z) (minimum : option Z) : Prop :=
  match minimum with Some m => m <= z | None => True end.

Definition int64_ok (bound : option Z) : Prop :=
  match bound with Some z => int_min I64 <= z <= int_max I64 | None => True end.

Definition finite_ok (bound : option spec_float) : Prop :=
  match bound with Some f => f64_is_finite f = true | None => True end.

(** No two choices are the same, in their own order. *)
Fixpoint distinct {A} (eq : A -> A -> bool) (l : list A) : Prop :=
  match l with
  | [] => True
  | a :: l' => Forall (fun b => eq b a = false) l' /\ distinct eq l'
  end.

Definition good_choices {A} (eq : A -> A -> bool) (ok : A -> Prop) (choices : option (list A)) : Prop :=
  match choices with
  | None => True
  | Some l => 1 <= list_len l <= SCALAR_CHOICES_MAX_ITEMS /\ Forall ok l /\ distinct eq l
  end.

Definition string_choice_ok (minimum : option Z) (maximum : Z) (s : string) : Prop :=
  string_fits s /\ at_least (scalar_count s) minimum /\ scalar_count s <= maximum.

Definition int64_choice_ok (minimum maximum : option Z) (z : Z) : Prop :=
  int_min I64 <= z <= int_max I64 /\ opt_lt Z.ltb z minimum = false /\ opt_gt Z.ltb z maximum = false.

Definition float64_choice_ok (minimum maximum : option spec_float) (f : spec_float) : Prop :=
  f64_is_finite f = true /\ opt_lt SFltb f minimum = false /\ opt_gt SFltb f maximum = false.

(** The bounds of a contract are in order and within the limits, its choices are
    distinct and within its bounds, its descriptions are not blank, and the
    names of the fields of an object are distinct. *)
Fixpoint well_formed (c : ValueContract) : Prop :=
  match c with
  | Contract_String d mn mx choices =>
      good_description d /\ size_ok RESULT_STRING_MAX_SCALARS mn /\
      0 <= mx <= RESULT_STRING_MAX_SCALARS /\ at_least mx mn /\
      good_choices String.eqb (string_choice_ok mn mx) choices
  | Contract_Int64 d mn mx choices =>
      good_description d /\ int64_ok mn /\ int64_ok mx /\ crossed Z.ltb mn mx = false /\
      good_choices Z.eqb (int64_choice_ok mn mx) choices
  | Contract_Float64 d mn mx choices =>
      good_description d /\ finite_ok mn /\ finite_ok mx /\ crossed SFltb mn mx = false /\
      good_choices SFeqb (float64_choice_ok mn mx) choices
  | Contract_Bool d choices => good_description d /\ good_choices Bool.eqb (fun _ => True) choices
  | Contract_List d item mn mx =>
      good_description d /\ size_ok RESULT_LIST_MAX_ITEMS mn /\ 0 <= mx <= RESULT_LIST_MAX_ITEMS /\
      at_least mx mn /\ well_formed item
  | Contract_Object d (mkObjectContract fields) =>
      good_description d /\ NoDup (map field_name fields) /\
      all_of (fun '(mkFieldContract _ _ c) => well_formed c) fields
  | Contract_Nullable inner => well_formed inner
  | Contract_Custom d _ fragment _ =>
      good_description d /\ blank_free fragment /\ str_len fragment <= CUSTOM_PROMPT_MAX_BYTES
  end.

(** ** What an object denotes *)

Definition py_opt {A} (f : A -> PyValue) (o : option A) : PyValue :=
  match o with Some a => f a | None => Py_None end.

Definition py_str (s : string) : PyValue := Py_Str (Some s).

Definition py_choices {A} (f : A -> PyValue) (choices : option (list A)) : PyValue :=
  py_opt (fun l => Py_Tuple (map f l)) choices.

Definition all2 {A B} (P : A -> B -> Prop) : list A -> list B -> Prop :=
  fix go l k :=
    match l, k with
    | [], [] => True
    | a :: l', b :: k' => P a b /\ go l' k'
    | _, _ => False
    end.

Section Denotes.
Context (world : PyWorld).

Definition slot_is (v : PyValue) (name : string) (x : PyValue) : Prop := getattr world v name = Ok x.

Definition described (v : PyValue) (class : PyClass) (d : string) (kind : JsonKind) : Prop :=
  class_of world v = class /\ slot_is v "_description" (py_str d) /\
  slot_is v "_json_kind" (py_str (JsonKind_name kind)).

(** [slot_default v name maximum z]: the optional integer of a slot, [maximum]
    when it is [None]. *)
Definition slot_default (v : PyValue) (name : string) (maximum z : Z) : Prop :=
  exists o, slot_is v name (py_opt Py_Int o) /\ z = default maximum o.

(** The contract an object stands for; [R] says which number a custom
    validator has. *)
Fixpoint denotes (R : Z -> Z -> Prop) (c : ValueContract) (v : PyValue) : Prop :=
  match c with
  | Contract_String d mn mx choices =>
      described v Class_StrValue d Kind_String /\ slot_is v "_min_length" (py_opt Py_Int mn) /\
      slot_default v "_max_length" RESULT_STRING_MAX_SCALARS mx /\
      slot_is v "_choices" (py_choices py_str choices)
  | Contract_Int64 d mn mx choices =>
      described v Class_Int64Value d Kind_Int64 /\ slot_is v "_min" (py_opt Py_Int mn) /\
      slot_is v "_max" (py_opt Py_Int mx) /\ slot_is v "_choices" (py_choices Py_Int choices)
  | Contract_Float64 d mn mx choices =>
      described v Class_Float64Value d Kind_Float64 /\ slot_is v "_min" (py_opt Py_Float mn) /\
      slot_is v "_max" (py_opt Py_Float mx) /\ slot_is v "_choices" (py_choices Py_Float choices)
  | Contract_Bool d choices =>
      described v Class_BoolValue d Kind_Bool /\ slot_is v "_choices" (py_choices Py_Bool choices)
  | Contract_List d item mn mx =>
      described v Class_ListValue d Kind_Array /\ slot_is v "_min_items" (py_opt Py_Int mn) /\
      slot_default v "_max_items" RESULT_LIST_MAX_ITEMS mx /\
      exists w, slot_is v "_item" w /\ denotes R item w
  | Contract_Object d (mkObjectContract fields) =>
      described v Class_ObjectValue d Kind_Object /\
      exists entries, slot_is v "_fields" (Py_Tuple entries) /\
        all2 (fun '(mkFieldContract name required c) entry =>
                exists w, entry = Py_Tuple [py_str name; w; Py_Bool required] /\ denotes R c w)
          fields entries
  | Contract_Nullable inner =>
      described v Class_NullableValue (contract_description inner) (contract_json_kind inner) /\
      exists w, slot_is v "_inner" w /\ denotes R inner w
  | Contract_Custom d kind fragment validator_id =>
      described v Class_CustomValue d kind /\
      exists identity, v = Py_Object identity /\
        py_render_prompt world identity = Ok (py_str fragment) /\ R identity validator_id
  end.

(** The objects an object holds. *)
Inductive child (v w : PyValue) : Prop :=
| child_item : class_of world v = Class_ListValue -> slot_is v "_item" w -> child v w
| child_field entries name required :
    class_of world v = Class_ObjectValue -> slot_is v "_fields" (Py_Tuple entries) ->
    Py_Tuple [name; w; required] ∈ entries -> child v w
| child_inner : class_of world v = Class_NullableValue -> slot_is v "_inner" w -> child v w.

(** ** The slots *)

Definition is_cycle_error (e : PyErr) : Prop :=
  exists path, e = Py_ValueError ("schema graph contains a cycle at " +:+ path).

(** A result whose error, if any, is not that of a cycle. *)
Definition plain {A} (r : result A PyErr) : Prop :=
  match r with Ok _ => True | Err e => ~ is_cycle_error e end.

Lemma plain_bind {A B} (r : result A PyErr) (k : A -> result B PyErr) :
  plain r -> (forall a, plain (k a)) -> plain (let? a := r in k a).
Proof. destruct r; cbn; auto. Qed.

Create HintDb plain.

Ltac not_cycle := first [exact I | solve [intros [? [=]]]].

Ltac plain_case :=
  match goal with
  | |- plain (if ?b then _ else _) => destruct b
  | |- plain (match ?x with _ => _ end) => destruct x
  | |- plain (result_bind _ _) => apply plain_bind; [|intros ?]
  | |- plain (ok_or ?o _) => destruct o; cbn [ok_or]
  | |- plain (Ok _) => exact I
  | |- plain (Err _) => not_cycle
  end.

Lemma plain_getattr v name : plain (getattr world v name).
Proof. unfold getattr. repeat plain_case. Qed.

Lemma plain_string v message : plain (extract_exact_string v message).
Proof. unfold extract_exact_string. repeat plain_case. Qed.

Hint Resolve plain_getattr plain_string : plain.

Lemma plain_description v : plain (extract_custom_description v).
Proof. unfold extract_custom_description. repeat first [plain_case|solve [auto with plain]]. Qed.

Hint Resolve plain_description : plain.

Lemma plain_metadata v kind : plain (extract_builtin_metadata world v kind).
Proof.
  unfold extract_builtin_metadata, extract_builtin_description, extract_builtin_json_kind.
  repeat first [plain_case|solve [auto with plain]].
Qed.

Lemma plain_custom_metadata v : plain (custom_base_metadata world v).
Proof.
  unfold custom_base_metadata, base_slot, map_err. repeat first [plain_case|solve [auto with plain]].
Qed.

Lemma JsonKind_parse_name s k : JsonKind_parse s = Some k <-> s = JsonKind_name k.
Proof.
  split; [|intros ->; by destruct k]. unfold JsonKind_parse.
  repeat match goal with |- context [String.eqb s ?t] => destruct (String.eqb_spec s t) as [->|] end;
    by intros [= <-].
Qed.

Lemma exact_string_ok v message s : extract_exact_string v message = Ok s <-> v = py_str s.
Proof.
  unfold extract_exact_string, py_str. destruct v as [| | | |[t|]| | |]; cbn; split; congruence.
Qed.

Lemma description_ok v d :
  extract_custom_description v = Ok d <-> v = py_str d /\ good_description d.
Proof.
  unfold extract_custom_description, good_description, blank_free. rewrite result_bind_ok.
  setoid_rewrite exact_string_ok. split.
  - intros (s & -> & Hs). destruct (is_blank s) eqn:?; [done|].
    destruct (Z.ltb_spec DESCRIPTION_MAX_SCALARS (scalar_count s)), (Z.ltb_spec DESCRIPTION_MAX_BYTES (str_len s));
      try done. by injection Hs as <-.
  - intros (-> & Hb & Hs & Hl). exists d. split; [done|]. rewrite Hb.
    by destruct (Z.ltb_spec DESCRIPTION_MAX_SCALARS (scalar_count d)),
      (Z.ltb_spec DESCRIPTION_MAX_BYTES (str_len d)); try lia.
Qed.

Lemma metadata_ok v class kind d : class_of world v = class ->
  extract_builtin_metadata world v kind = Ok d <-> described v class d kind /\ good_description d.
Proof.
  intros Hclass. unfold extract_builtin_metadata, extract_builtin_description, extract_builtin_json_kind,
    described, slot_is. split.
  - intros (t & (x & Hx & [-> Hg]%description_ok)%result_bind_ok & Ht)%result_bind_ok.
    apply result_bind_ok in Ht as (k & (y & Hy & (n & ->%exact_string_ok & Hk)%result_bind_ok)%result_bind_ok & Hd).
    destruct (bool_decide_reflect (k = kind)) as [->|]; [|done]. injection Hd as ->.
    destruct (JsonKind_parse n) eqn:Hp; [|done]. injection Hk as ->.
    apply JsonKind_parse_name in Hp as ->. auto.
  - intros ((_ & Hd & Hk) & Hg). rewrite Hd. cbn [result_bind].
    rewrite (proj2 (description_ok (py_str d) d)) by done. cbn [result_bind]. rewrite Hk.
    cbn [result_bind extract_exact_string py_str ok_or].
    rewrite (proj2 (JsonKind_parse_name _ kind) eq_refl). cbn. by rewrite bool_decide_true.
Qed.

Lemma custom_metadata_ok v d kind : class_of world v = Class_CustomValue ->
  custom_base_metadata world v = Ok (d, kind) <-> described v Class_CustomValue d kind /\ good_description d.
Proof.
  intros Hclass. unfold custom_base_metadata, base_slot, described, slot_is. split.
  - destruct (getattr world v "_description") as [x|]; [|done]. cbn [map_err result_bind].
    intros (d' & [-> Hg]%description_ok & Hk)%result_bind_ok.
    destruct (getattr world v "_json_kind") as [y|]; [|done]. cbn [map_err result_bind] in Hk.
    apply result_bind_ok in Hk as (t & ->%exact_string_ok & Hk).
    destruct (JsonKind_parse t) as [k|] eqn:Hp; [|done]. injection Hk as -> ->.
    apply JsonKind_parse_name in Hp as ->. auto.
  - intros ((_ & Hd & Hk) & Hg). rewrite Hd. cbn [map_err result_bind].
    rewrite (proj2 (description_ok (py_str d) d)) by done. cbn [result_bind]. rewrite Hk.
    cbn [map_err result_bind extract_exact_string py_str ok_or].
    by rewrite (proj2 (JsonKind_parse_name _ kind) eq_refl).
Qed.

Lemma fragment_ok path r s :
  prompt_fragment_of path r = Ok s <->
  r = Ok (py_str s) /\ blank_free s /\ str_len s <= CUSTOM_PROMPT_MAX_BYTES.
Proof.
  unfold prompt_fragment_of, blank_free, py_str. split.
  - destruct r as [[| | | |[t|]| | |]|]; cbn [result_bind map_err]; try done.
    destruct (is_blank t) eqn:?; [done|]. destruct (Z.ltb_spec CUSTOM_PROMPT_MAX_BYTES (str_len t)); [done|].
    by intros [= <-].
  - intros (-> & Hb & Hl). cbn [result_bind]. rewrite Hb.
    by destruct (Z.ltb_spec CUSTOM_PROMPT_MAX_BYTES (str_len s)); [lia|].
Qed.

Lemma plain_fragment path r : plain (prompt_fragment_of path r).
Proof. unfold prompt_fragment_of, map_err. destruct (result_bind _ _); cbn; not_cycle. Qed.

(** The name of a slot does not make its error look like that of a cycle. *)
Definition slot_name (name : string) : Prop :=
  forall text path, name +:+ text <> "schema graph contains a cycle at " +:+ path.

Lemma plain_usize v name maximum : slot_name name -> plain (extract_exact_optional_usize v name maximum).
Proof.
  intros Hname. unfold extract_exact_optional_usize.
  repeat plain_case. all: intros [? [= E]]; by eapply Hname.
Qed.

Lemma usize_ok v name maximum o : maximum <= int_max Usize ->
  extract_exact_optional_usize v name maximum = Ok o <-> v = py_opt Py_Int o /\ size_ok maximum o.
Proof.
  intros Hmax. unfold extract_exact_optional_usize, checked, fits. change (int_min Usize) with 0.
  destruct v as [| |z| | | | |]; try (split; [done|intros [Hv _]; by destruct o]).
  - split; [by intros [= <-]|]. by destruct o as [?|]; [intros [[=] _]|].
  - destruct (Z.leb_spec 0 z), (Z.leb_spec z (int_max Usize)); cbn [andb ok_or result_bind];
      try (split; [done|]; destruct o as [?|]; intros [[=] ?]; subst; cbn in *; lia).
    destruct (Z.ltb_spec maximum z).
    + split; [done|]. destruct o as [?|]; intros [[=] ?]; subst; cbn in *; lia.
    + split; [by intros [= <-]|]. by destruct o as [?|]; intros [[=] ?]; subst.
Qed.

Lemma plain_i64 v name : plain (extract_exact_optional_i64 v name).
Proof. unfold extract_exact_optional_i64. repeat plain_case. Qed.

Lemma i64_ok v name o :
  extract_exact_optional_i64 v name = Ok o <-> v = py_opt Py_Int o /\ int64_ok o.
Proof.
  unfold extract_exact_optional_i64, checked, fits.
  destruct v as [| |z| | | | |]; try (split; [done|intros [Hv _]; by destruct o]).
  - split; [by intros [= <-]|]. by destruct o as [?|]; [intros [[=] _]|].
  - destruct (Z.leb_spec (int_min I64) z), (Z.leb_spec z (int_max I64)); cbn [andb ok_or result_bind];
      try (split; [done|]; destruct o as [?|]; intros [[=] ?]; subst; unfold int64_ok in *; lia).
    split; [by intros [= <-]|]. by destruct o as [?|]; intros [[=] ?]; subst.
Qed.

Lemma plain_f64 v name : slot_name name -> plain (extract_exact_optional_f64 v name).
Proof.
  intros Hname. unfold extract_exact_optional_f64.
  repeat plain_case. all: intros [? [= E]]; by eapply Hname.
Qed.

Lemma f64_ok v name o :
  extract_exact_optional_f64 v name = Ok o <-> v = py_opt Py_Float o /\ finite_ok o.
Proof.
  unfold extract_exact_optional_f64.
  destruct v as [| | |f| | | |]; try (split; [done|intros [Hv _]; by destruct o]).
  - split; [by intros [= <-]|]. by destruct o as [?|]; [intros [[=] _]|].
  - destruct (f64_is_finite f) eqn:Hf.
    + split; [by intros [= <-]|]. by destruct o as [?|]; intros [[=] ?]; subst.
    + split; [done|]. destruct o as [?|]; intros [[=] ?]; subst. cbn in *. congruence.
Qed.

Lemma plain_bool v name : plain (extract_exact_bool v name).
Proof. unfold extract_exact_bool. repeat plain_case. Qed.

Lemma bool_ok v name b : extract_exact_bool v name = Ok b <-> v = Py_Bool b.
Proof. unfold extract_exact_bool. destruct v; split; congruence. Qed.

(** ** Choices *)

Section Choices.
Context {A : Type} (read : PyValue -> result A PyErr) (eq : A -> A -> bool) (f : A -> PyValue) (ok : A -> Prop).
Hypothesis read_ok : forall v a, read v = Ok a <-> v = f a /\ ok a.
Hypothesis read_plain : forall v, plain (read v).

Lemma plain_collect choices : forall output, plain (collect_choices read eq output choices).
Proof.
  induction choices as [|c choices IH]; intros output; cbn [collect_choices]; [done|].
  apply plain_bind; [apply read_plain|]. intros a. destruct (existsb _ _); [not_cycle|apply IH].
Qed.

Lemma plain_choice_tuple v : plain (extract_choice_tuple v).
Proof. unfold extract_choice_tuple. repeat plain_case. Qed.

Lemma plain_choices v : plain (extract_choices read eq v).
Proof.
  unfold extract_choices. apply plain_bind; [apply plain_choice_tuple|]. intros [l|]; [|done].
  pose proof (plain_collect l []). by destruct (collect_choices _ _ _ _).
Qed.

Definition apart (output new : list A) : Prop :=
  Forall (fun a => Forall (fun b => eq a b = false) output) new.

Lemma existsb_apart a l : existsb (eq a) l = false <-> Forall (fun b => eq a b = false) l.
Proof.
  induction l as [|b l IH]; cbn [existsb]; [by split; [constructor|]|].
  by rewrite orb_false_iff, Forall_cons, IH.
Qed.

Lemma collect_ok choices : forall output output',
  collect_choices read eq output choices = Ok output' <->
  exists new, output' = output ++ new /\ choices = map f new /\ Forall ok new /\
    apart output new /\ distinct eq new.
Proof.
  unfold apart. induction choices as [|c choices IH]; intros output output'; cbn [collect_choices].
  - split.
    + intros [= <-]. exists []. rewrite app_nil_r. by repeat split.
    + intros ([|a new] & -> & [=] & _). by rewrite app_nil_r.
  - rewrite result_bind_ok. setoid_rewrite read_ok. split.
    + intros (a & [-> Ha] & Hc). destruct (existsb (eq a) output) eqn:Ex; [done|].
      apply existsb_apart in Ex. apply IH in Hc as (new & -> & -> & Hok & Hap & Hd).
      exists (a :: new). rewrite <-app_assoc. split_and!; [done|done|by constructor| |].
      * constructor; [done|]. eapply Forall_impl; [exact Hap|]. by intros b [? _]%Forall_app.
      * split; [|done]. eapply Forall_impl; [exact Hap|]. by intros b [_ [? _]%Forall_cons]%Forall_app.
    + intros ([|a new] & -> & [=] & Hok & Hap & Hd). subst.
      apply Forall_cons in Hok as [Ha Hok], Hap as [Hae Hap]. destruct Hd as [Had Hd].
      exists a. split; [done|]. apply existsb_apart in Hae as ->. apply IH. exists new.
      rewrite <-app_assoc. split_and!; try done. rewrite Forall_forall in *. intros b Hb.
      apply Forall_app. split; [by apply Hap|]. constructor; [by apply Had|constructor].
Qed.

Lemma choices_ok v choices :
  extract_choices read eq v = Ok choices <-> v = py_choices f choices /\ good_choices eq ok choices.
Proof.
  unfold extract_choices, extract_choice_tuple, good_choices, py_choices, py_opt.
  destruct v as [| | | | |items| |]; cbn [result_bind]; try (split; [done|intros [? _]; by destruct choices]).
  - split; [by intros [= <-]|]. by destruct choices; [intros [[=] _]|].
  - destruct (Z.eqb_spec (list_len items) 0).
    { split; [done|]. destruct choices as [l|]; [|by intros [[=] _]]. intros [[= ->] [? _]].
      unfold list_len in *. rewrite length_map in *. lia. }
    destruct (Z.ltb_spec SCALAR_CHOICES_MAX_ITEMS (list_len items)).
    { split; [done|]. destruct choices as [l|]; [|by intros [[=] _]]. intros [[= ->] [? _]].
      unfold list_len in *. rewrite length_map in *. lia. }
    cbn [result_bind]. unfold result_map.
    assert (Hlen : forall new : list A, items = map f new -> 1 <= list_len new <= SCALAR_CHOICES_MAX_ITEMS).
    { intros new ->. unfold list_len in *. rewrite length_map in *. lia. }
    split.
    + destruct (collect_choices read eq [] items) as [out|] eqn:E; [|done]. intros [= <-].
      apply collect_ok in E as (new & -> & -> & ? & _ & ?). cbn [app]. auto.
    + destruct choices as [l|]; [|by intros [[=] _]]. intros [[= ->] (_ & Hok & Hd)].
      rewrite (proj2 (collect_ok _ [] l)); [done|]. exists l. split_and!; try done.
      apply Forall_true. by constructor.
Qed.
End Choices.

Lemma string_choice_spec mn mx v s :
  read_string_choice mn mx v = Ok s <-> v = py_str s /\ string_choice_ok mn mx s.
Proof.
  unfold read_string_choice, string_choice_ok, string_fits. rewrite result_bind_ok.
  setoid_rewrite exact_string_ok. split.
  - intros (t & -> & Ht).
    destruct (Z.ltb_spec RESULT_STRING_MAX_SCALARS (scalar_count t)),
      (Z.ltb_spec RESULT_STRING_MAX_BYTES (str_len t)); try done. cbn [orb] in Ht.
    destruct (opt_lt Z.ltb (scalar_count t) mn) eqn:Hm; [done|].
    destruct (Z.ltb_spec mx (scalar_count t)); [done|]. injection Ht as <-. split_and!; try done.
    destruct mn; cbn in *; lia.
  - intros (-> & [? ?] & Hmn & ?). exists s. split; [done|].
    destruct (Z.ltb_spec RESULT_STRING_MAX_SCALARS (scalar_count s)),
      (Z.ltb_spec RESULT_STRING_MAX_BYTES (str_len s)); try lia. cbn [orb].
    destruct (Z.ltb_spec mx (scalar_count s)); [lia|]. rewrite orb_false_r.
    destruct mn as [m|]; [|done]. cbn in *. by destruct (Z.ltb_spec (scalar_count s) m); [lia|].
Qed.

Lemma plain_string_choice mn mx v : plain (read_string_choice mn mx v).
Proof. unfold read_string_choice. apply plain_bind; [apply plain_string|]. intros. repeat plain_case. Qed.

Lemma int64_choice_spec mn mx v z :
  read_int64_choice mn mx v = Ok z <-> v = Py_Int z /\ int64_choice_ok mn mx z.
Proof.
  unfold read_int64_choice, int64_choice_ok, checked, fits.
  destruct v as [| |i| | | | |]; try (split; [done|by intros [? _]]).
  destruct (Z.leb_spec (int_min I64) i), (Z.leb_spec i (int_max I64)); cbn [andb ok_or result_bind];
    try (split; [done|]; intros [[= ->] (? & _)]; lia).
  destruct (opt_lt Z.ltb i mn) eqn:?, (opt_gt Z.ltb i mx) eqn:?; cbn [orb];
    (split; [by intros [= <-]|intros [[= ->] (? & ? & ?)]; congruence]).
Qed.

Lemma plain_int64_choice mn mx v : plain (read_int64_choice mn mx v).
Proof. unfold read_int64_choice. repeat plain_case. Qed.

Lemma float64_choice_spec mn mx v f :
  read_float64_choice mn mx v = Ok f <-> v = Py_Float f /\ float64_choice_ok mn mx f.
Proof.
  unfold read_float64_choice, float64_choice_ok. destruct v as [| | |x| | | |]; try (split; [done|by intros [? _]]).
  destruct (f64_is_finite x) eqn:?; cbn [negb];
    [destruct (opt_lt SFltb x mn) eqn:?, (opt_gt SFltb x mx) eqn:?; cbn [orb]|];
    (split; [by intros [= <-]|intros [[= ->] (? & ? & ?)]; congruence]).
Qed.

Lemma plain_float64_choice mn mx v : plain (read_float64_choice mn mx v).
Proof. unfold read_float64_choice. repeat plain_case. Qed.

Lemma bool_choice_spec v b : extract_exact_bool v "boolean choice" = Ok b <-> v = Py_Bool b /\ True.
Proof. rewrite bool_ok. tauto. Qed.

(** ** Values without parts *)

Definition plain_error (e : PyErr) : Prop := ~ is_cycle_error e.

Lemma wp_step {A B} (r : result A PyErr) (k : A -> Compile B) Q (E : PyErr -> Prop) st :
  plain r -> (forall e, plain_error e -> E e) ->
  (forall a, r = Ok a -> wp (k a) Q E st) -> wp (let! x := lift r in k x) Q E st.
Proof. intros Hp HE Hk. apply wp_bind, wp_lift. destruct r; [by apply Hk|by apply HE]. Qed.

Lemma with_no_choices st : with_stats (add_choices 0 0) st = st.
Proof. destruct st as [[] ? ? ?]. unfold with_stats, add_choices. cbn. by rewrite !Z.add_0_r. Qed.

Lemma wp_record_choices {A} (choices : option (list A)) size (E : PyErr -> Prop) (Q : unit -> Compiler -> Prop) st :
  (forall e, plain_error e -> E e) ->
  Q tt (with_stats (add_choices (choice_count choices) (choice_sizes size choices)) st) ->
  wp (record_choices choices size) Q E st.
Proof.
  intros HE HQ. destruct choices as [l|]; cbn [record_choices choice_count choice_sizes] in *.
  - apply wp_bind, wp_modify, wp_bind, wp_gets. destruct (choices_exceeded _); [|exact HQ].
    apply wp_fail, HE. intros [? [=]].
  - rewrite with_no_choices in HQ. exact HQ.
Qed.

Section Operations.
Context `{SerdeJson}.

(** The choices of a value without parts are all that it adds. *)
Definition leaf_done (v : PyValue) (c : ValueContract) (st st' : Compiler) : Prop :=
  st' = with_stats (add_choices (contract_choices c) (contract_choice_bytes c)) st /\
  (forall R, denotes R c v) /\ well_formed c /\ contract_depth c = 1 /\ contract_nodes c = 1 /\
  contract_field_count c = 0.

Tactic Notation "step" uconstr(lem) "as" ident(x) ident(Hx) :=
  refine (wp_step _ _ _ _ _ lem _ _); [by auto|intros x Hx].

Lemma slot_name_min_length : slot_name "min_length". Proof. by intros ? ? [=]. Qed.
Lemma slot_name_max_length : slot_name "max_length". Proof. by intros ? ? [=]. Qed.
Lemma slot_name_min_items : slot_name "min_items". Proof. by intros ? ? [=]. Qed.
Lemma slot_name_max_items : slot_name "max_items". Proof. by intros ? ? [=]. Qed.
Lemma slot_name_min : slot_name "min". Proof. by intros ? ? [=]. Qed.
Lemma slot_name_max : slot_name "max". Proof. by intros ? ? [=]. Qed.

Lemma default_size maximum o : 0 <= maximum -> size_ok maximum o -> 0 <= default maximum o <= maximum.
Proof. destruct o; cbn; lia. Qed.

Lemma at_least_ltb z o : opt_lt Z.ltb z o = false <-> at_least z o.
Proof. destruct o as [m|]; cbn; [|done]. by rewrite Z.ltb_ge. Qed.

Lemma compile_string_sound v st : class_of world v = Class_StrValue ->
  wp (compile_string world v) (fun c st' => leaf_done v c st st') plain_error st.
Proof.
  intros Hc. unfold compile_string.
  step (plain_metadata v Kind_String) as d Hd. apply (metadata_ok _ _ _ _ Hc) in Hd as [Hd Hg].
  step (plain_getattr v "_min_length") as x Hx.
  step (plain_usize x _ RESULT_STRING_MAX_SCALARS slot_name_min_length) as mn Hmn.
  apply usize_ok in Hmn as [-> Hmn]; [|done].
  step (plain_getattr v "_max_length") as y Hy.
  step (plain_usize y _ RESULT_STRING_MAX_SCALARS slot_name_max_length) as mx Hmx.
  apply usize_ok in Hmx as [-> Hmx]; [|done].
  destruct (opt_lt Z.ltb _ mn) eqn:Hb; [apply wp_fail; by intros [? [=]]|]. apply at_least_ltb in Hb.
  step (plain_getattr v "_choices") as z Hz.
  step (plain_choices _ String.eqb (plain_string_choice mn (default RESULT_STRING_MAX_SCALARS mx)) z) as ch Hch.
  apply (choices_ok _ _ _ _ (string_choice_spec _ _)) in Hch as [-> Hch].
  apply wp_bind, wp_record_choices; [done|]. apply wp_ret. split; [done|].
  split_and!; try done; [intros R; split_and!; [done..|by eexists|done]|].
  cbn [well_formed]. split_and!; try done; by apply default_size.
Qed.

Lemma compile_int64_sound v st : class_of world v = Class_Int64Value ->
  wp (compile_int64 world v) (fun c st' => leaf_done v c st st') plain_error st.
Proof.
  intros Hc. unfold compile_int64.
  step (plain_metadata v Kind_Int64) as d Hd. apply (metadata_ok _ _ _ _ Hc) in Hd as [Hd Hg].
  step (plain_getattr v "_min") as x Hx. step (plain_i64 x _) as mn Hmn. apply i64_ok in Hmn as [-> Hmn].
  step (plain_getattr v "_max") as y Hy. step (plain_i64 y _) as mx Hmx. apply i64_ok in Hmx as [-> Hmx].
  destruct (crossed Z.ltb mn mx) eqn:Hb; [apply wp_fail; by intros [? [=]]|].
  step (plain_getattr v "_choices") as z Hz.
  step (plain_choices _ Z.eqb (plain_int64_choice mn mx) z) as ch Hch.
  apply (choices_ok _ _ _ _ (int64_choice_spec _ _)) in Hch as [-> Hch].
  apply wp_bind, wp_record_choices; [done|]. apply wp_ret. split; [done|]. by split_and!.
Qed.

Lemma compile_float64_sound v st : class_of world v = Class_Float64Value ->
  wp (compile_float64 world v) (fun c st' => leaf_done v c st st') plain_error st.
Proof.
  intros Hc. unfold compile_float64.
  step (plain_metadata v Kind_Float64) as d Hd. apply (metadata_ok _ _ _ _ Hc) in Hd as [Hd Hg].
  step (plain_getattr v "_min") as x Hx. step (plain_f64 x _ slot_name_min) as mn Hmn. apply f64_ok in Hmn as [-> Hmn].
  step (plain_getattr v "_max") as y Hy. step (plain_f64 y _ slot_name_max) as mx Hmx. apply f64_ok in Hmx as [-> Hmx].
  destruct (crossed SFltb mn mx) eqn:Hb; [apply wp_fail; by intros [? [=]]|].
  step (plain_getattr v "_choices") as z Hz.
  step (plain_choices _ SFeqb (plain_float64_choice mn mx) z) as ch Hch.
  apply (choices_ok _ _ _ _ (float64_choice_spec _ _)) in Hch as [-> Hch].
  apply wp_bind, wp_record_choices; [done|]. apply wp_ret. split; [done|]. by split_and!.
Qed.

Lemma compile_bool_sound v st : class_of world v = Class_BoolValue ->
  wp (compile_bool world v) (fun c st' => leaf_done v c st st') plain_error st.
Proof.
  intros Hc. unfold compile_bool.
  step (plain_metadata v Kind_Bool) as d Hd. apply (metadata_ok _ _ _ _ Hc) in Hd as [Hd Hg].
  step (plain_getattr v "_choices") as z Hz.
  step (plain_choices _ Bool.eqb (fun w => plain_bool w "boolean choice") z) as ch Hch.
  apply (choices_ok _ _ _ _ bool_choice_spec) in Hch as [-> Hch].
  apply wp_bind, wp_record_choices; [done|]. apply wp_ret. split; [done|]. by split_and!.
Qed.

(** ** The state of the compiler *)

Definition validator_number (st : Compiler) (identity id : Z) : Prop :=
  0 <= id /\ co_custom_validators st !! Z.to_nat id = Some identity.

(** Every memoised binding is what its object gives and has the number of the
    object in the list of validators, which holds every object once. *)
Record memo_inv (st : Compiler) : Prop := {
  mi_binding identity b : co_custom_memo st !! identity = Some b ->
    described (Py_Object identity) Class_CustomValue (cb_description b) (cb_json_kind b) /\
    good_description (cb_description b) /\
    py_render_prompt world identity = Ok (py_str (cb_prompt_fragment b)) /\
    blank_free (cb_prompt_fragment b) /\ str_len (cb_prompt_fragment b) <= CUSTOM_PROMPT_MAX_BYTES /\
    validator_number st identity (cb_validator_id b);
  mi_nodup : NoDup (co_custom_validators st);
  mi_memo identity : identity ∈ co_custom_validators st -> is_Some (co_custom_memo st !! identity);
}.

Definition grows (st st' : Compiler) : Prop := co_custom_validators st `prefix_of` co_custom_validators st'.

Lemma validator_number_mono st st' identity id :
  grows st st' -> validator_number st identity id -> validator_number st' identity id.
Proof. intros [more E] [? Hl]. split; [done|]. rewrite E. by apply lookup_app_l_Some. Qed.

Lemma all2_impl {A B} (P Q : A -> B -> Prop) l : Forall (fun a => forall b, P a b -> Q a b) l ->
  forall k, all2 P l k -> all2 Q l k.
Proof. induction 1 as [|a l Ha _ IH]; intros [|b k]; cbn; naive_solver. Qed.

Lemma denotes_mono (R R' : Z -> Z -> Prop) c : (forall i n, R i n -> R' i n) ->
  forall v, denotes R c v -> denotes R' c v.
Proof.
  intros HR. induction c as [| | | |d item mn mx IH|d fields IH|inner IH|] using contract_nested_ind;
    intros v; cbn [denotes]; try done.
  - intros (? & ? & ? & w & ? & ?). split_and!; [done..|]. eauto.
  - intros (? & entries & ? & Hf). split; [done|]. exists entries. split; [done|].
    revert Hf. apply all2_impl. eapply Forall_impl; [exact IH|].
    intros [name required c'] Hc e (w & ? & ?). exists w. auto.
  - intros (? & w & ? & ?). split; [done|]. eauto.
  - intros (? & identity & ? & ? & ?). split; [done|]. eauto 6.
Qed.

(** What a contract adds to the statistics; a [parts] of 1 leaves out its own
    node. *)
Definition spend (parts : Z) (c : ValueContract) (s : CompileStats) : CompileStats :=
  mkStats (cs_nodes s + contract_nodes c - parts) (cs_fields s + contract_field_count c)
    (cs_choices s + contract_choices c) (cs_choice_bytes s + contract_choice_bytes c).

Record compiled_as (parts : Z) (v : PyValue) (depth : Z) (c : ValueContract) (st st' : Compiler) : Prop := {
  ca_inv : memo_inv st';
  ca_active : co_active st' = co_active st;
  ca_grows : grows st st';
  ca_denotes : denotes (validator_number st') c v;
  ca_well_formed : well_formed c;
  ca_depth : depth + contract_depth c <= SCHEMA_MAX_DEPTH + 1;
  ca_stats : co_stats st' = spend parts c (co_stats st);
}.

Definition cycle_truth (v : PyValue) (e : PyErr) : Prop :=
  is_cycle_error e -> exists w, rtc child v w /\ tc child w w.

(** The active objects are above the value. *)
Definition active_above (st : Compiler) (v : PyValue) : Prop :=
  forall a, a ∈ co_active st -> tc child (Py_Object a) v.

Definition active_upto (st : Compiler) (v : PyValue) : Prop :=
  forall a, a ∈ co_active st -> rtc child (Py_Object a) v.

Lemma cycle_truth_child v w e : child v w -> cycle_truth w e -> cycle_truth v e.
Proof. intros Hc He Hcyc. destruct (He Hcyc) as (x & ? & ?). exists x. split; [by eapply rtc_l|done]. Qed.

Lemma plain_cycle_truth v e : plain_error e -> cycle_truth v e.
Proof. by intros He ?. Qed.

Lemma active_child st v w : active_upto st v -> child v w -> active_above st w.
Proof. intros Ha Hc a Hin. eapply tc_rtc_l; [by apply Ha|]. by apply tc_once. Qed.

Hint Resolve plain_cycle_truth : core.

Lemma leaf_compiled v depth c st st' : memo_inv st -> depth <= SCHEMA_MAX_DEPTH ->
  leaf_done v c st st' -> compiled_as 1 v depth c st st'.
Proof.
  intros [] Hd (-> & Hden & Hwf & H1 & Hn & Hf). split; [by split|done|exists []; by rewrite app_nil_r|auto|done|lia|].
  unfold spend. cbn. rewrite Hn, Hf, Z.add_0_r. unfold add_choices. f_equal. lia.
Qed.

(** ** Custom values *)

Lemma compile_custom_sound identity path depth st :
  memo_inv st -> depth <= SCHEMA_MAX_DEPTH -> class_of world (Py_Object identity) = Class_CustomValue ->
  wp (compile_custom world identity path)
    (fun c st' => compiled_as 1 (Py_Object identity) depth c st st') plain_error st.
Proof.
  intros Hinv Hdepth Hc. unfold compile_custom, custom_binding. apply wp_bind, wp_bind, wp_gets.
  destruct (co_custom_memo st !! identity) as [b|] eqn:Hb.
  - apply wp_ret, wp_ret. destruct (mi_binding _ Hinv _ _ Hb) as (? & ? & ? & ? & ? & ?).
    split; try done; [exists []; by rewrite app_nil_r|split; [done|by exists identity]|cbn; lia|].
    unfold spend. cbn. destruct (co_stats st); cbn. f_equal; lia.
  - step (plain_custom_metadata (Py_Object identity)) as m Hm. destruct m as [d kind].
    apply (custom_metadata_ok _ _ _ Hc) in Hm as [Hd Hg].
    step (plain_fragment path (py_render_prompt world identity)) as s Hs. apply fragment_ok in Hs as (Hs & Hbf & Hl).
    apply wp_bind, wp_gets, wp_bind, wp_modify, wp_ret, wp_ret. cbn [fst snd cb_description cb_json_kind cb_prompt_fragment cb_validator_id].
    assert (Hfresh : identity ∉ co_custom_validators st) by (intros [? ?]%(mi_memo _ Hinv); congruence).
    assert (Hgrow : grows st (add_binding identity
              (mkBinding (list_len (co_custom_validators st)) d kind s) st)) by by exists [identity].
    assert (Hnum : validator_number (add_binding identity (mkBinding (list_len (co_custom_validators st)) d kind s) st)
                     identity (list_len (co_custom_validators st))).
    { split; [apply list_len_nonneg|]. cbn. unfold list_len. rewrite Nat2Z.id.
      rewrite lookup_app_r by lia. by rewrite Nat.sub_diag. }
    split; try done; [|split; [done|by exists identity]|cbn; lia|
                      unfold spend; cbn; destruct (co_stats st); cbn; f_equal; lia].
    split.
    + intros i b Hi. cbn in Hi. apply lookup_insert_Some in Hi as [[<- <-]|[_ Hi]]; [by split_and!|].
      destruct (mi_binding _ Hinv _ _ Hi) as (? & ? & ? & ? & ? & ?). split_and!; try done.
      by eapply validator_number_mono.
    + cbn. apply NoDup_app. split_and!; [apply Hinv| |apply NoDup_singleton].
      intros x Hx Hy%list_elem_of_singleton. by subst x.
    + intros i. cbn. intros [Hi|Hi%list_elem_of_singleton]%elem_of_app; [|subst i].
      * apply lookup_insert_is_Some. apply (mi_memo _ Hinv) in Hi. destruct (decide (identity = i)); auto.
      * by rewrite lookup_insert_eq.
Qed.

(** ** Values with parts *)

Lemma memo_inv_same st st' : co_custom_memo st' = co_custom_memo st ->
  co_custom_validators st' = co_custom_validators st -> memo_inv st -> memo_inv st'.
Proof.
  intros Em Ev [Hb Hn Hm]. split; rewrite ?Em, ?Ev; try done.
  intros i b Hi. apply Hb in Hi. unfold validator_number in *. by rewrite Ev.
Qed.

Lemma grows_refl st : grows st st.
Proof. unfold grows. reflexivity. Qed.

Lemma grows_trans st1 st2 st3 : grows st1 st2 -> grows st2 st3 -> grows st1 st3.
Proof. unfold grows. intros. by etrans. Qed.

Record fields_done (depth : Z) (fields : list FieldContract) (st st' : Compiler) : Prop := {
  fd_inv : memo_inv st';
  fd_active : co_active st' = co_active st;
  fd_grows : grows st st';
  fd_well_formed : all_of (fun '(mkFieldContract _ _ c) => well_formed c) fields;
  fd_depth : depth + max_with (fun '(mkFieldContract _ _ c) => contract_depth c) fields <= SCHEMA_MAX_DEPTH;
  fd_stats : co_stats st' = mkStats
    (cs_nodes (co_stats st) + sum_with (fun '(mkFieldContract _ _ c) => contract_nodes c) fields)
    (cs_fields (co_stats st) + sum_with (fun '(mkFieldContract _ _ c) => 1 + contract_field_count c) fields)
    (cs_choices (co_stats st) + sum_with (fun '(mkFieldContract _ _ c) => contract_choices c) fields)
    (cs_choice_bytes (co_stats st) + sum_with (fun '(mkFieldContract _ _ c) => contract_choice_bytes c) fields);
}.

Lemma no_fields_done depth st : memo_inv st -> depth <= SCHEMA_MAX_DEPTH -> fields_done depth [] st st.
Proof.
  intros Hinv Hd. split; try done; [apply grows_refl|unfold max_with; cbn [foldr]; lia|].
  unfold sum_with. cbn [foldr]. rewrite !Z.add_0_r. by destruct (co_stats st).
Qed.

(** A field, after [add_field], and the fields after it. *)
Lemma fields_done_cons depth name required c w fields st st1 st' :
  compiled_as 0 w (depth + 1) c (with_stats add_field st) st1 -> fields_done depth fields st1 st' ->
  fields_done depth (mkFieldContract name required c :: fields) st st' /\
  denotes (validator_number st') c w.
Proof.
  intros [] []. split.
  - split; try done.
    + by rewrite fd_active0, ca_active0.
    + by eapply grows_trans.
    + unfold max_with in *. cbn [foldr]. lia.
    + rewrite fd_stats0, ca_stats0. unfold spend, sum_with. cbn. f_equal; lia.
  - eapply denotes_mono; [|done]. intros i id. by apply validator_number_mono.
Qed.

Definition field_denotes (R : Z -> Z -> Prop) : FieldContract -> PyValue -> Prop :=
  fun '(mkFieldContract name required c) entry =>
  exists w, entry = Py_Tuple [py_str name; w; Py_Bool required] /\ denotes R c w.

Lemma plain_entries fields : plain (field_entries fields).
Proof.
  induction fields as [|f fields IH]; cbn [field_entries]; [done|].
  destruct f as [| | | | |[|a [|b [|c [|]]]]| |]; try not_cycle. by apply plain_bind.
Qed.

Lemma entries_ok fields entries : field_entries fields = Ok entries <->
  fields = map (fun '(name, value, required) => Py_Tuple [name; value; required]) entries.
Proof.
  revert entries. induction fields as [|f fields IH]; intros entries; cbn [field_entries].
  - split; [by intros [= <-]|]. by destruct entries.
  - destruct f as [| | | | |[|a [|b [|c [|]]]]| |];
      try (split; [done|by destruct entries as [|[[? ?] ?] ?]]).
    rewrite result_bind_ok. setoid_rewrite IH. split; [by intros (l & -> & [= <-])|].
    destruct entries as [|[[? ?] ?] l]; [done|]. intros [= -> -> -> ->]. eauto.
Qed.

Section Parts.
Context (compile : PyValue -> Z -> string -> Compile ValueContract) (n : Z).

(** What the recursive calls do, at depths the fuel reaches. *)
Definition rec_ok : Prop := forall w depth path st,
  memo_inv st -> active_above st w -> depth <= SCHEMA_MAX_DEPTH + 1 -> SCHEMA_MAX_DEPTH + 1 - depth < n ->
  wp (compile w depth path) (fun c st' => compiled_as 0 w depth c st st') (cycle_truth w) st.

Hypothesis compile_ok : rec_ok.

(** A call for a part [w] of [v]. *)
Lemma wp_part {B} v w depth path st (k : ValueContract -> Compile B) Q :
  child v w -> memo_inv st -> active_upto st v -> depth <= SCHEMA_MAX_DEPTH -> SCHEMA_MAX_DEPTH - depth < n ->
  (forall c st', compiled_as 0 w (depth + 1) c st st' -> wp (k c) Q (cycle_truth v) st') ->
  wp (let! c := compile w (depth + 1) path in k c) Q (cycle_truth v) st.
Proof.
  intros Hch Hinv Hact Hd Hn Hk. apply wp_bind.
  eapply wp_mono; [apply compile_ok; [done|by eapply active_child|lia|lia]|exact Hk|].
  intros e. by apply cycle_truth_child.
Qed.

Lemma compile_list_sound v depth path st :
  class_of world v = Class_ListValue -> memo_inv st -> active_upto st v ->
  depth <= SCHEMA_MAX_DEPTH -> SCHEMA_MAX_DEPTH - depth < n ->
  wp (compile_list world compile v depth path) (fun c st' => compiled_as 1 v depth c st st') (cycle_truth v) st.
Proof.
  intros Hc Hinv Hact Hd Hn. unfold compile_list.
  step (plain_metadata v Kind_Array) as d Hm. apply (metadata_ok _ _ _ _ Hc) in Hm as [Hm Hg].
  step (plain_getattr v "_min_items") as x Hx.
  step (plain_usize x _ RESULT_LIST_MAX_ITEMS slot_name_min_items) as mn Hmn. apply usize_ok in Hmn as [-> Hmn]; [|done].
  step (plain_getattr v "_max_items") as y Hy.
  step (plain_usize y _ RESULT_LIST_MAX_ITEMS slot_name_max_items) as mx Hmx. apply usize_ok in Hmx as [-> Hmx]; [|done].
  destruct (opt_lt Z.ltb _ mn) eqn:Hb; [apply wp_fail, plain_cycle_truth; by intros [? [=]]|].
  apply at_least_ltb in Hb.
  step (plain_getattr v "_item") as w Hw. eapply wp_part; [by apply child_item|done..|]. intros c st' [].
  apply wp_ret. split; try done.
  - cbn [denotes]. split_and!; [done..|by eexists|]. by exists w.
  - cbn [well_formed]. split_and!; try done; by apply default_size.
  - cbn [contract_depth]. lia.
  - rewrite ca_stats0. unfold spend. cbn. f_equal. lia.
Qed.

Lemma compile_nullable_sound v depth path st :
  class_of world v = Class_NullableValue -> memo_inv st -> active_upto st v ->
  depth <= SCHEMA_MAX_DEPTH -> SCHEMA_MAX_DEPTH - depth < n ->
  wp (compile_nullable world compile v depth path) (fun c st' => compiled_as 1 v depth c st st') (cycle_truth v) st.
Proof.
  intros Hc Hinv Hact Hd Hn. unfold compile_nullable.
  assert (Hp : plain (extract_builtin_description world v)).
  { apply plain_bind; [apply plain_getattr|apply plain_description]. }
  step Hp as d Hm. apply result_bind_ok in Hm as (x & Hx & [-> Hg]%description_ok).
  assert (Hq : plain (extract_builtin_json_kind world v)).
  { apply plain_bind; [apply plain_getattr|]. intros y. apply plain_bind; [apply plain_string|]. intros t.
    by destruct (JsonKind_parse t); cbn; [|intros [? [=]]]. }
  step Hq as kind Hk. apply result_bind_ok in Hk as (y & Hy & (t & ->%exact_string_ok & Hk)%result_bind_ok).
  destruct (JsonKind_parse t) eqn:Ht; [|done]. injection Hk as ->. apply JsonKind_parse_name in Ht as ->.
  step (plain_getattr v "_inner") as w Hw. eapply wp_part; [by apply child_inner|done..|]. intros c st' [].
  destruct (String.eqb_spec d (contract_description c)) as [->|]; [|apply wp_fail, plain_cycle_truth; by intros [? [=]]].
  destruct (bool_decide_reflect (kind = contract_json_kind c)) as [->|];
    [|apply wp_fail, plain_cycle_truth; by intros [? [=]]].
  apply wp_ret. split; try done.
  - cbn [denotes]. split; [done|]. by exists w.
  - cbn [contract_depth]. lia.
  - rewrite ca_stats0. unfold spend. cbn. f_equal. lia.
Qed.

Lemma compile_entries_sound v depth path entries :
  (forall name w required, (name, w, required) ∈ entries -> child v w) ->
  depth <= SCHEMA_MAX_DEPTH -> SCHEMA_MAX_DEPTH - depth < n -> forall names st,
  NoDup names -> memo_inv st -> active_upto st v ->
  wp (compile_entries compile entries depth path names)
    (fun fields st' => fields_done depth fields st st' /\ NoDup (names ++ map field_name fields) /\
       all2 (field_denotes (validator_number st')) fields
         (map (fun '(name, value, required) => Py_Tuple [name; value; required]) entries))
    (cycle_truth v) st.
Proof.
  intros Hch Hd Hn. induction entries as [|[[name w] required] entries IH]; intros names st Hnd Hinv Hact;
    cbn [compile_entries].
  - apply wp_ret. rewrite app_nil_r. split_and!; [by apply no_fields_done|done|done].
  - step (plain_string name _) as s Hs. apply exact_string_ok in Hs as ->.
    destruct (existsb (String.eqb s) names) eqn:Hex; [apply wp_fail, plain_cycle_truth; by intros [? [=]]|].
    apply wp_bind, wp_modify. step (plain_bool required "required") as r Hr. apply bool_ok in Hr as ->.
    eapply wp_part; [by eapply Hch, list_elem_of_here| |done..|].
    { by eapply memo_inv_same, Hinv. }
    intros c st1 Hc. apply wp_bind. eapply wp_mono; [apply IH| |done].
    + intros ? ? ? Hin. by eapply Hch, list_elem_of_further.
    + apply NoDup_app. split_and!; [done| |apply NoDup_singleton]. intros x Hx Hs%list_elem_of_singleton. subst x.
      apply existsb_apart in Hex. rewrite Forall_forall in Hex. apply Hex in Hx. by rewrite String.eqb_refl in Hx.
    + apply Hc.
    + intros a Ha. apply Hact. rewrite (ca_active _ _ _ _ _ _ Hc) in Ha. exact Ha.
    + intros fields st' (Hf & Hnames & Hall). apply wp_ret.
      destruct (fields_done_cons _ s r _ _ _ _ _ _ Hc Hf) as [Hdone Hden].
      split_and!; [done|by rewrite <-app_assoc in Hnames|]. split; [by exists w|done].
Qed.

Lemma compile_object_sound v depth path st :
  class_of world v = Class_ObjectValue -> memo_inv st -> active_upto st v ->
  depth <= SCHEMA_MAX_DEPTH -> SCHEMA_MAX_DEPTH - depth < n ->
  wp (compile_object world compile v depth path) (fun c st' => compiled_as 1 v depth c st st') (cycle_truth v) st.
Proof.
  intros Hc Hinv Hact Hd Hn. unfold compile_object.
  step (plain_metadata v Kind_Object) as d Hm. apply (metadata_ok _ _ _ _ Hc) in Hm as [Hm Hg].
  step (plain_getattr v "_fields") as fs Hfs.
  destruct fs as [| | | | |fs| |]; try (apply wp_fail, plain_cycle_truth; by intros [? [=]]).
  step (plain_entries fs) as entries He. apply entries_ok in He as ->.
  apply wp_bind. eapply wp_mono; [apply compile_entries_sound| |done]; try done; [|constructor|].
  { intros name w required Hin. eapply child_field; [done..|].
    apply (list_elem_of_fmap_2 (fun '(name, value, required) => Py_Tuple [name; value; required])) in Hin. exact Hin. }
  intros fields st' ([] & Hnames & Hall). apply wp_ret. split; try done.
  - split; [done|]. eexists. split; [done|]. revert Hall. apply all2_impl, Forall_true. by intros [].
  - cbn [contract_depth]. lia.
  - rewrite fd_stats0. unfold spend. cbn. f_equal; lia.
Qed.

Lemma compile_inner_sound v depth path st :
  memo_inv st -> active_upto st v -> depth <= SCHEMA_MAX_DEPTH -> SCHEMA_MAX_DEPTH - depth < n ->
  wp (compile_value_inner world compile v depth path)
    (fun c st' => compiled_as 1 v depth c st st') (cycle_truth v) st.
Proof.
  intros Hinv Hact Hd Hn. unfold compile_value_inner.
  destruct (class_of world v) eqn:Hc; try (apply wp_fail, plain_cycle_truth; by intros [? [=]]);
    try (eapply wp_mono; [first [by apply compile_string_sound|by apply compile_int64_sound
          |by apply compile_float64_sound|by apply compile_bool_sound]|intros; by apply leaf_compiled|auto]).
  - by apply compile_list_sound.
  - by apply compile_object_sound.
  - by apply compile_nullable_sound.
  - destruct v as [| | | | | | |identity]; try (apply wp_fail, plain_cycle_truth; by intros [? [=]]).
    eapply wp_mono; [by apply (compile_custom_sound _ _ depth)|done|auto].
Qed.

End Parts.

Lemma active_enter st v a : a ∈ enter_active v (co_active st) <-> v = Py_Object a \/ a ∈ co_active st.
Proof.
  unfold enter_active, identity_of. destruct v; try (by split; [auto|intros [[=]|?]]).
  rewrite elem_of_union, elem_of_singleton. split; intros [H1|H1]; auto; [by subst; left|by injection H1 as ->; left].
Qed.

Lemma leave_enter v active : is_active v active = false -> leave_active v (enter_active v active) = active.
Proof.
  unfold is_active, leave_active, enter_active. destruct (identity_of v) as [i|]; [|done].
  intros Hi%bool_decide_eq_false. apply leibniz_equiv. set_solver.
Qed.

Lemma compile_value_sound fuel : rec_ok (compile_value world fuel) (Z.of_nat fuel).
Proof.
  induction fuel as [|fuel IH]; intros v depth path st Hinv Hact Hd Hf; [lia|]. cbn [compile_value].
  destruct (Z.ltb_spec SCHEMA_MAX_DEPTH depth); [apply wp_fail, plain_cycle_truth; by intros [? [=]]|].
  apply wp_bind, wp_modify, wp_bind, wp_gets.
  destruct (_ <? _); [apply wp_fail, plain_cycle_truth; by intros [? [=]]|].
  apply wp_bind, wp_gets. destruct (is_active v _) eqn:Hia.
  { apply wp_fail. intros _. exists v. split; [done|]. unfold is_active, identity_of in Hia.
    destruct v as [| | | | | | |i]; try done. apply Hact. by apply bool_decide_eq_true in Hia. }
  apply wp_bind, wp_modify, wp_bind.
  eapply wp_mono; [eapply (compile_inner_sound _ (Z.of_nat fuel)); [done|by eapply memo_inv_same, Hinv| |done|lia]| |done].
  { intros a [->|Ha]%active_enter; [done|]. apply tc_rtc. by apply Hact. }
  intros c st' []. apply wp_bind, wp_modify, wp_ret. split; try done.
  - by eapply memo_inv_same, ca_inv0.
  - cbn. rewrite ca_active0. cbn. by apply leave_enter.
  - cbn. rewrite ca_stats0. unfold spend. cbn. f_equal. lia.
Qed.

(** ** The dictionary of a schema *)

(** What a field of the dictionary holds: a value, or a [Field] around one. *)
Definition spec_holds (spec w : PyValue) (required : bool) : Prop :=
  match class_of world spec with
  | Class_Field => slot_is spec "_inner" w /\ slot_is spec "_required" (Py_Bool required)
  | Class_FieldSubclass => False
  | _ => w = spec /\ required = true
  end.

Definition entry_denotes (R : Z -> Z -> Prop) (field : FieldContract) (entry : PyValue * PyValue) : Prop :=
  let 'mkFieldContract name required c := field in
  entry.1 = py_str name /\ exists w, spec_holds entry.2 w required /\ denotes R c w.

Lemma field_spec_ok spec w required : field_spec world spec = Ok (w, required) <-> spec_holds spec w required.
Proof.
  unfold field_spec, spec_holds, slot_is.
  destruct (class_of world spec); try (split; [by intros [= <- <-]|by intros [-> ->]]); [|by split].
  split.
  - intros (x & -> & (y & -> & (b & ->%bool_ok & [= <- <-])%result_bind_ok)%result_bind_ok)%result_bind_ok. done.
  - intros [-> ->]. done.
Qed.

Lemma plain_spec spec : plain (field_spec world spec).
Proof.
  unfold field_spec. destruct (class_of world spec); try not_cycle.
  repeat (apply plain_bind; [first [apply plain_getattr|apply plain_bool]|intros ?]). exact I.
Qed.

Lemma field_name_ok v s : field_name_of v = Ok s <-> v = py_str s.
Proof. unfold field_name_of, py_str. destruct v as [| | | |[t|]| | |]; cbn; split; congruence. Qed.

Lemma plain_field_name v : plain (field_name_of v).
Proof. unfold field_name_of. repeat plain_case. Qed.

(** A cycle below a value of the dictionary. *)
Definition schema_cycle (entries : list (PyValue * PyValue)) : Prop :=
  exists name spec w required x, (name, spec) ∈ entries /\ spec_holds spec w required /\
    rtc child w x /\ tc child x x.

Lemma compile_fields_sound fuel depth path entries :
  depth <= SCHEMA_MAX_DEPTH -> SCHEMA_MAX_DEPTH - depth < Z.of_nat fuel -> forall st,
  memo_inv st -> co_active st = ∅ ->
  wp (compile_object_fields world fuel entries depth path)
    (fun fields st' => fields_done depth fields st st' /\
       all2 (entry_denotes (validator_number st')) fields entries)
    (fun e => is_cycle_error e -> schema_cycle entries) st.
Proof.
  intros Hd Hf. induction entries as [|[name spec] entries IH]; intros st Hinv Hact; cbn [compile_object_fields].
  - apply wp_ret. split; [by apply no_fields_done|done].
  - step (plain_field_name name) as s Hs. apply field_name_ok in Hs as ->.
    step (plain_spec spec) as ws Hws. destruct ws as [w required]. apply field_spec_ok in Hws.
    apply wp_bind, wp_modify, wp_bind.
    eapply wp_mono; [apply compile_value_sound; [by eapply memo_inv_same, Hinv| |cbn [fst]; lia|cbn [fst]; lia]| |].
    { intros a. cbn. rewrite Hact. by intros ?%elem_of_empty. }
    2:{ intros e He Hcyc. destruct (He Hcyc) as (x & ? & ?). exists (py_str s), spec, w, required, x.
        split; [by apply list_elem_of_here|done]. }
    cbn [fst snd]. intros c st1 Hc. apply wp_bind. eapply wp_mono; [apply IH; [apply Hc|]| |].
    + by rewrite (ca_active _ _ _ _ _ _ Hc).
    + intros fields st' (Hdone & Hall). apply wp_ret.
      destruct (fields_done_cons _ s required _ _ _ _ _ _ Hc Hdone) as [? ?].
      split; [done|]. split; [split; [done|by exists w]|done].
    + intros e He Hcyc. destruct (He Hcyc) as (m & sp & w' & r & x & Hin & ?). exists m, sp, w', r, x.
      split; [by apply list_elem_of_further|done].
Qed.

(** ** Contracts of one object differ in the numbers of validators only *)

Fixpoint erase (c : ValueContract) : ValueContract :=
  match c with
  | Contract_List d item mn mx => Contract_List d (erase item) mn mx
  | Contract_Object d (mkObjectContract fields) =>
      Contract_Object d (mkObjectContract
        (map (fun '(mkFieldContract name required c) => mkFieldContract name required (erase c)) fields))
  | Contract_Nullable inner => Contract_Nullable (erase inner)
  | Contract_Custom d kind fragment _ => Contract_Custom d kind fragment 0
  | c => c
  end.

Lemma erase_measures c :
  contract_nodes (erase c) = contract_nodes c /\ contract_choices (erase c) = contract_choices c /\
  contract_choice_bytes (erase c) = contract_choice_bytes c /\
  contract_description (erase c) = contract_description c /\ contract_json_kind (erase c) = contract_json_kind c /\
  contract_field_count (erase c) = contract_field_count c.
Proof.
  induction c as [| | | |d item mn mx IH|d fields IH|inner IH|] using contract_nested_ind; cbn; try done.
  - destruct IH as (-> & -> & -> & _ & _ & ->). done.
  - unfold sum_with. split_and!; try done; [f_equal| | |];
      induction IH as [|[name required c] fields Hc _ IHf]; cbn; try done;
      destruct Hc as (Hn & Hch & Hb & _ & _ & Hf); cbn in *; lia.
  - destruct IH as (-> & -> & -> & -> & -> & ->). done.
Qed.

Lemma py_opt_inj {A} (f : A -> PyValue) o o' :
  (forall a b, f a = f b -> a = b) -> (forall a, f a <> Py_None) -> py_opt f o = py_opt f o' -> o = o'.
Proof. intros Hf Hn. destruct o, o'; cbn; intros E; [f_equal; auto| | |done]; by destruct (Hn a). Qed.

Lemma py_choices_inj {A} (f : A -> PyValue) o o' :
  (forall a b, f a = f b -> a = b) -> py_choices f o = py_choices f o' -> o = o'.
Proof.
  intros Hf. apply py_opt_inj; [|done]. intros l k [= E]. revert k E.
  induction l as [|a l IH]; intros [|b k] [=]; [done|]. f_equal; auto.
Qed.

Lemma slot_eq v name x y : slot_is v name x -> slot_is v name y -> x = y.
Proof. unfold slot_is. congruence. Qed.

Lemma JsonKind_name_inj k k' : JsonKind_name k = JsonKind_name k' -> k = k'.
Proof. intros E. apply JsonKind_parse_name in E. rewrite (proj2 (JsonKind_parse_name _ k) eq_refl) in E. congruence. Qed.

Lemma described_eq v class class' d d' k k' :
  described v class d k -> described v class' d' k' -> class = class' /\ d = d' /\ k = k'.
Proof.
  intros (<- & Hd & Hk) (<- & Hd' & Hk'). split; [done|].
  injection (slot_eq _ _ _ _ Hd Hd') as ->. injection (slot_eq _ _ _ _ Hk Hk') as ->%JsonKind_name_inj. done.
Qed.

Lemma slot_default_eq v name maximum x y :
  slot_default v name maximum x -> slot_default v name maximum y -> x = y.
Proof.
  intros (o & Ho & ->) (o' & Ho' & ->). pose proof (slot_eq _ _ _ _ Ho Ho') as E.
  apply py_opt_inj in E as ->; [done|by intros ? ? [=]|done].
Qed.

Ltac same_slots :=
  repeat match goal with
  | H1 : described ?v _ _ _, H2 : described ?v _ _ _ |- _ =>
      let E1 := fresh in let E2 := fresh in let E3 := fresh in
      destruct (described_eq _ _ _ _ _ _ _ H1 H2) as (E1 & E2 & E3); try discriminate E1;
      try subst; clear H2 E1
  | H1 : slot_is ?v ?name _, H2 : slot_is ?v ?name _ |- _ =>
      let E := fresh "E" in pose proof (slot_eq _ _ _ _ H1 H2) as E; clear H2
  | H1 : slot_default ?v ?name _ _, H2 : slot_default ?v ?name _ _ |- _ =>
      rewrite (slot_default_eq _ _ _ _ _ H1 H2) in *; clear H2
  | E : py_opt _ _ = py_opt _ _ |- _ => apply py_opt_inj in E as ->; [|by intros ? ? [=]|done]
  | E : py_choices _ _ = py_choices _ _ |- _ => apply py_choices_inj in E as ->; [|by intros ? ? [=]]
  end.

Lemma erase_fields R R' fields :
  Forall (fun f => forall c' v, denotes R (field_value f) v -> denotes R' c' v -> erase (field_value f) = erase c') fields ->
  forall fields' es, all2 (field_denotes R) fields es -> all2 (field_denotes R') fields' es ->
  map (fun '(mkFieldContract name required c) => mkFieldContract name required (erase c)) fields =
  map (fun '(mkFieldContract name required c) => mkFieldContract name required (erase c)) fields'.
Proof.
  induction 1 as [|[name required c] fields Hc _ IH]; intros [|[name' required' c'] fields'] [|e es] Hes Hes'; try done.
  destruct Hes as [(w & -> & Hw) Hes], Hes' as [(w' & [= <- <- <-] & Hw') Hes']. cbn. f_equal; [|by eapply IH].
  f_equal. by eapply Hc.
Qed.

Lemma denotes_erase R R' c : forall c' v, denotes R c v -> denotes R' c' v -> erase c = erase c'.
Proof.
  induction c as [| | | |d item mn mx IH|d fields IH|inner IH|] using contract_nested_ind;
    intros c' v H1 H2; destruct c' as [| | | | |d' [fields']| |]; cbn [denotes] in H1, H2;
    repeat match goal with
    | H : _ /\ _ |- _ => destruct H
    | H : exists _, _ |- _ => destruct H
    end; same_slots; try done; subst.
  - cbn. f_equal. eauto.
  - match goal with E : Py_Tuple _ = _ |- _ => injection E as -> end.
    cbn. do 2 f_equal. match goal with H1 : all2 _ fields ?es, H2 : all2 _ fields' ?es |- _ =>
      exact (erase_fields R R' fields IH fields' es H1 H2) end.
  - cbn. f_equal. eauto.
  - unfold py_str in *. cbn. congruence.
Qed.

(** ** A value that denotes a contract is on no cycle *)

Lemma all2_elem {A B} (P : A -> B -> Prop) l k b : all2 P l k -> b ∈ k -> exists a, a ∈ l /\ P a b.
Proof.
  revert k. induction l as [|a l IH]; intros [|b' k]; cbn; try done; [by intros _ ?%elem_of_nil|].
  intros [Ha Hl] [->|Hin]%elem_of_cons.
  - exists a. split; [apply list_elem_of_here|done].
  - destruct (IH k Hl Hin) as (a' & ? & ?). exists a'. split; [by apply list_elem_of_further|done].
Qed.

Lemma contract_nodes_pos c : 1 <= contract_nodes c.
Proof.
  induction c as [| | | |d item mn mx IH|d fields IH|inner IH|] using contract_nested_ind; cbn; try lia.
  enough (0 <= sum_with (fun '(mkFieldContract _ _ c) => contract_nodes c) fields) by lia.
  apply sum_with_nonneg. eapply Forall_impl; [exact IH|]. by intros [].
Qed.

Lemma field_nodes_le (f : FieldContract) fields : f ∈ fields ->
  contract_nodes (field_value f) <= sum_with (fun '(mkFieldContract _ _ c) => contract_nodes c) fields.
Proof.
  induction fields as [|[nm rq c] fields IH]; [by intros ?%elem_of_nil|].
  assert (Hpos : 0 <= sum_with (fun '(mkFieldContract _ _ c) => contract_nodes c) fields).
  { apply sum_with_nonneg, Forall_true. intros []. apply contract_nodes_pos. }
  rewrite sum_with_cons. pose proof (contract_nodes_pos c).
  intros [->|Hin]%elem_of_cons; [cbn; lia|]. apply IH in Hin. lia.
Qed.

Lemma child_denotes R c v w : denotes R c v -> child v w ->
  exists c', denotes R c' w /\ contract_nodes c' < contract_nodes c.
Proof.
  intros Hden Hch. destruct c as [| | | |d item mn mx|d [fields]|inner|]; cbn [denotes] in Hden;
    repeat match goal with
    | H : _ /\ _ |- _ => destruct H
    | H : exists _, _ |- _ => destruct H
    end;
    match goal with Hd : described v _ _ _ |- _ => destruct Hd as (Hc & _ & _) end;
    destruct Hch as [Hc' Hs|entries name required Hc' Hs Hin|Hc' Hs];
    rewrite Hc in Hc'; try discriminate Hc'.
  - match goal with H1 : slot_is v "_item" _ |- _ => rewrite (slot_eq _ _ _ _ Hs H1) end.
    exists item. split; [done|]. cbn. lia.
  - match goal with H1 : slot_is v "_fields" _ |- _ => injection (slot_eq _ _ _ _ Hs H1) as -> end.
    match goal with H1 : all2 _ _ _ |- _ => destruct (all2_elem _ _ _ _ H1 Hin) as ([nm rq c] & Hf & w' & E & Hw) end.
    injection E as _ -> _. exists c. split; [done|]. apply field_nodes_le in Hf. cbn in *. lia.
  - match goal with H1 : slot_is v "_inner" _ |- _ => rewrite (slot_eq _ _ _ _ Hs H1) end.
    exists inner. split; [done|]. cbn. lia.
Qed.

Lemma denotes_acyclic R c v : denotes R c v -> ~ tc child v v.
Proof.
  intros Hden Htc.
  assert (Hdown : forall a b, tc child a b -> forall c, denotes R c a ->
            exists c', denotes R c' b /\ contract_nodes c' < contract_nodes c).
  { induction 1 as [a b Hab|a b d' Hab Hbd IH]; intros ca Hca; [by eapply child_denotes|].
    destruct (child_denotes _ _ _ _ Hca Hab) as (cb & Hcb & ?). destruct (IH cb Hcb) as (cd & ? & ?).
    exists cd. split; [done|lia]. }
  destruct (Hdown _ _ Htc _ Hden) as (c' & Hc' & Hlt).
  pose proof (denotes_erase _ _ _ _ _ Hden Hc') as E.
  destruct (erase_measures c) as [E1 _], (erase_measures c') as [E2 _]. rewrite E in E1. lia.
Qed.

(** ** Every well-formed contract within the limits is compiled *)

Definition runs {A} (m : Compile A) (Q : A -> Compiler -> Prop) (st : Compiler) : Prop :=
  wp m Q (fun _ => False) st.

Lemma runs_with {A} (m : Compile A) (Q : A -> Compiler -> Prop) E st :
  wp m Q E st -> runs m (fun _ _ => True) st -> runs m Q st.
Proof. intros H1 H2. eapply wp_mono; [exact (wp_conj _ _ _ _ _ _ H1 H2)|by intros ? ? [? _]|by intros ? [_ ?]]. Qed.

Lemma runs_step {A B} (r : result A PyErr) (k : A -> Compile B) Q st a :
  r = Ok a -> runs (k a) Q st -> runs (let! x := lift r in k x) Q st.
Proof. by intros ->. Qed.

(** What is left of the limits takes the contract. *)
Record room (parts : Z) (c : ValueContract) (s : CompileStats) : Prop := {
  room_nodes : cs_nodes s + contract_nodes c - parts <= SCHEMA_MAX_NODES;
  room_choices : cs_choices s + contract_choices c <= SCHEMA_MAX_CHOICES;
  room_bytes : cs_choice_bytes s + contract_choice_bytes c <= SCHEMA_MAX_CHOICE_BYTES;
}.

Lemma runs_record_choices {A} (choices : option (list A)) size st :
  cs_choices (co_stats st) + choice_count choices <= SCHEMA_MAX_CHOICES ->
  cs_choice_bytes (co_stats st) + choice_sizes size choices <= SCHEMA_MAX_CHOICE_BYTES ->
  runs (record_choices choices size) (fun _ _ => True) st.
Proof.
  intros Hc Hb. destruct choices as [l|]; [|done]. cbn [record_choices choice_count choice_sizes] in *.
  apply wp_bind, wp_modify, wp_bind, wp_gets. unfold choices_exceeded. cbn [co_stats with_stats add_choices cs_choices cs_choice_bytes].
  destruct (Z.ltb_spec SCHEMA_MAX_CHOICES (cs_choices (co_stats st) + list_len l)); [lia|].
  destruct (Z.ltb_spec SCHEMA_MAX_CHOICE_BYTES (cs_choice_bytes (co_stats st) + sum_with size l)); [lia|]. done.
Qed.

Ltac ran lem := eapply runs_step; [apply lem|].

Lemma compile_string_complete R v d mn mx choices st :
  let c := Contract_String d mn mx choices in
  denotes R c v -> well_formed c -> room 1 c (co_stats st) -> runs (compile_string world v) (fun _ _ => True) st.
Proof.
  intros c (Hd & Hmn & (o & Ho & ->) & Hch) (Hg & Wmn & Wmx & Wo & Wch) Hroom. unfold compile_string.
  ran (proj2 (metadata_ok _ _ _ _ (proj1 Hd)) (conj Hd Hg)). eapply runs_step; [exact Hmn|].
  eapply runs_step; [by apply usize_ok|]. eapply runs_step; [exact Ho|].
  eapply (runs_step _ _ _ _ o); [apply usize_ok; [done|]; split; [done|]; by destruct o|].
  cbn [default]. rewrite (proj2 (at_least_ltb _ _) Wo). eapply runs_step; [exact Hch|].
  eapply runs_step; [apply (choices_ok _ _ _ _ (string_choice_spec _ _)); by split|].
  apply wp_bind. eapply wp_mono; [apply runs_record_choices; apply Hroom| |done]. done.
Qed.

Lemma compile_int64_complete R v d mn mx choices st :
  let c := Contract_Int64 d mn mx choices in
  denotes R c v -> well_formed c -> room 1 c (co_stats st) -> runs (compile_int64 world v) (fun _ _ => True) st.
Proof.
  intros c (Hd & Hmn & Hmx & Hch) (Hg & Wmn & Wmx & Wo & Wch) Hroom. unfold compile_int64.
  ran (proj2 (metadata_ok _ _ _ _ (proj1 Hd)) (conj Hd Hg)). eapply runs_step; [exact Hmn|].
  eapply runs_step; [by apply i64_ok|]. eapply runs_step; [exact Hmx|].
  eapply runs_step; [by apply i64_ok|]. rewrite Wo. eapply runs_step; [exact Hch|].
  eapply runs_step; [apply (choices_ok _ _ _ _ (int64_choice_spec _ _)); by split|].
  apply wp_bind. eapply wp_mono; [apply runs_record_choices; apply Hroom| |done]. done.
Qed.

Lemma compile_float64_complete R v d mn mx choices st :
  let c := Contract_Float64 d mn mx choices in
  denotes R c v -> well_formed c -> room 1 c (co_stats st) -> runs (compile_float64 world v) (fun _ _ => True) st.
Proof.
  intros c (Hd & Hmn & Hmx & Hch) (Hg & Wmn & Wmx & Wo & Wch) Hroom. unfold compile_float64.
  ran (proj2 (metadata_ok _ _ _ _ (proj1 Hd)) (conj Hd Hg)). eapply runs_step; [exact Hmn|].
  eapply runs_step; [by apply f64_ok|]. eapply runs_step; [exact Hmx|].
  eapply runs_step; [by apply f64_ok|]. rewrite Wo. eapply runs_step; [exact Hch|].
  eapply runs_step; [apply (choices_ok _ _ _ _ (float64_choice_spec _ _)); by split|].
  apply wp_bind. eapply wp_mono; [apply runs_record_choices; apply Hroom| |done]. done.
Qed.

Lemma compile_bool_complete R v d choices st :
  let c := Contract_Bool d choices in
  denotes R c v -> well_formed c -> room 1 c (co_stats st) -> runs (compile_bool world v) (fun _ _ => True) st.
Proof.
  intros c (Hd & Hch) (Hg & Wch) Hroom. unfold compile_bool.
  ran (proj2 (metadata_ok _ _ _ _ (proj1 Hd)) (conj Hd Hg)). eapply runs_step; [exact Hch|].
  eapply runs_step; [apply (choices_ok _ _ _ _ bool_choice_spec); by split|].
  apply wp_bind. eapply wp_mono; [apply runs_record_choices; apply Hroom| |done]. done.
Qed.

Lemma compile_custom_complete R identity d kind fragment id path st :
  let c := Contract_Custom d kind fragment id in
  denotes R c (Py_Object identity) -> well_formed c ->
  runs (compile_custom world identity path) (fun _ _ => True) st.
Proof.
  intros c (Hd & i & [= <-] & Hr & _) (Hg & Hb & Hl). unfold compile_custom, custom_binding.
  apply wp_bind, wp_bind, wp_gets. destruct (co_custom_memo st !! identity) as [b|]; [done|].
  ran (proj2 (custom_metadata_ok _ _ _ (proj1 Hd)) (conj Hd Hg)).
  eapply runs_step; [by apply fragment_ok|]. done.
Qed.

Lemma sum_nonneg {A} (f : A -> Z) l : Forall (fun a => 0 <= f a) l -> 0 <= sum_with f l.
Proof. unfold sum_with. induction 1; cbn [foldr]; lia. Qed.

Lemma choice_measures_nonneg {A} (size : A -> Z) choices : (forall a, 0 <= size a) ->
  0 <= choice_count choices /\ 0 <= choice_sizes size choices.
Proof.
  intros Hs. destruct choices as [l|]; cbn; [|lia].
  split; [apply list_len_nonneg|apply sum_nonneg, Forall_true, Hs].
Qed.

Lemma choices_nonneg c : 0 <= contract_choices c /\ 0 <= contract_choice_bytes c.
Proof.
  induction c as [| | | |d item mn mx IH|d fields IH|inner IH|] using contract_nested_ind; cbn;
    try (apply choice_measures_nonneg; intros; unfold str_len; lia); try done.
  - apply choice_measures_nonneg. by intros [].
  - split; apply sum_nonneg; eapply Forall_impl; [exact IH| |exact IH|]; intros []; cbn; tauto.
Qed.

Lemma same_measures R R' c c' v : denotes R c v -> denotes R' c' v ->
  contract_nodes c' = contract_nodes c /\ contract_choices c' = contract_choices c /\
  contract_choice_bytes c' = contract_choice_bytes c /\
  contract_description c' = contract_description c /\ contract_json_kind c' = contract_json_kind c.
Proof.
  intros H1 H2. pose proof (denotes_erase _ _ _ _ _ H1 H2) as E.
  destruct (erase_measures c) as (<- & <- & <- & <- & <- & _), (erase_measures c') as (<- & <- & <- & <- & <- & _).
  by rewrite E.
Qed.

(** What is left of the limits takes the fields. *)
Record room_fields (fields : list FieldContract) (s : CompileStats) : Prop := {
  rf_nodes : cs_nodes s + sum_with (fun '(mkFieldContract _ _ c) => contract_nodes c) fields <= SCHEMA_MAX_NODES;
  rf_choices : cs_choices s + sum_with (fun '(mkFieldContract _ _ c) => contract_choices c) fields <= SCHEMA_MAX_CHOICES;
  rf_bytes : cs_choice_bytes s + sum_with (fun '(mkFieldContract _ _ c) => contract_choice_bytes c) fields
    <= SCHEMA_MAX_CHOICE_BYTES;
}.

Lemma room_fields_cons name required c fields s : room_fields (mkFieldContract name required c :: fields) s ->
  room 0 c (add_field s) /\
  forall c' R R' v, denotes R c v -> denotes R' c' v -> room_fields fields (spend 0 c' (add_field s)).
Proof.
  intros [Hn Hc Hb]. rewrite sum_with_cons in *.
  assert (0 <= sum_with (fun '(mkFieldContract _ _ c) => contract_nodes c) fields).
  { apply sum_nonneg, Forall_true. intros []. pose proof (contract_nodes_pos value). lia. }
  assert (0 <= sum_with (fun '(mkFieldContract _ _ c) => contract_choices c) fields).
  { apply sum_nonneg, Forall_true. intros []. apply choices_nonneg. }
  assert (0 <= sum_with (fun '(mkFieldContract _ _ c) => contract_choice_bytes c) fields).
  { apply sum_nonneg, Forall_true. intros []. apply choices_nonneg. }
  split; [split; cbn in *; lia|]. intros c' R R' v D1 D2.
  destruct (same_measures _ _ _ _ _ D1 D2) as (E1 & E2 & E3 & _). split; cbn in *; lia.
Qed.

Section CompleteParts.
Context (compile : PyValue -> Z -> string -> Compile ValueContract) (n : Z).
Hypothesis compile_ok : rec_ok compile n.

Definition rec_complete (c : ValueContract) : Prop := forall R w depth path st,
  denotes R c w -> well_formed c -> depth + contract_depth c <= SCHEMA_MAX_DEPTH + 1 ->
  SCHEMA_MAX_DEPTH + 1 - depth < n -> memo_inv st -> active_above st w -> room 0 c (co_stats st) ->
  runs (compile w depth path) (fun _ _ => True) st.

Lemma contract_depth_pos c : 1 <= contract_depth c.
Proof.
  induction c as [| | | |d item mn mx IH|d fields _|inner IH|] using contract_nested_ind; cbn; try lia.
  pose proof (max_with_nonneg (fun '(mkFieldContract _ _ c) => contract_depth c) fields). lia.
Qed.

(** The call for a part succeeds and does what it does. *)
Lemma runs_part {B} c R v w depth path st (k : ValueContract -> Compile B) Q :
  rec_complete c -> denotes R c w -> well_formed c -> child v w -> depth + 1 + contract_depth c <= SCHEMA_MAX_DEPTH + 1 ->
  SCHEMA_MAX_DEPTH - depth < n -> memo_inv st -> active_upto st v -> room 0 c (co_stats st) ->
  (forall c' st', compiled_as 0 w (depth + 1) c' st st' -> runs (k c') Q st') ->
  runs (let! c := compile w (depth + 1) path in k c) Q st.
Proof.
  intros Hrec Hden Hwf Hch Hd Hn Hinv Hact Hroom Hk. apply wp_bind. pose proof (contract_depth_pos c).
  eapply wp_mono; [eapply runs_with; [apply compile_ok|]|exact Hk|done]; try done; try lia; [by eapply active_child|].
  eapply Hrec; try done; [lia|by eapply active_child].
Qed.

Lemma compile_list_complete R v d item mn mx depth path st :
  let c := Contract_List d item mn mx in
  rec_complete item -> denotes R c v -> well_formed c -> depth + contract_depth c <= SCHEMA_MAX_DEPTH + 1 ->
  SCHEMA_MAX_DEPTH - depth < n -> memo_inv st -> active_upto st v -> room 1 c (co_stats st) ->
  runs (compile_list world compile v depth path) (fun _ _ => True) st.
Proof.
  intros c Hrec (Hd & Hmn & (o & Ho & ->) & w & Hw & Hi) (Hg & Wmn & Wmx & Wo & Wi) Hdepth Hn Hinv Hact [].
  unfold compile_list. cbn in Hdepth.
  ran (proj2 (metadata_ok _ _ _ _ (proj1 Hd)) (conj Hd Hg)). eapply runs_step; [exact Hmn|].
  eapply runs_step; [by apply usize_ok|]. eapply runs_step; [exact Ho|].
  eapply (runs_step _ _ _ _ o); [apply usize_ok; [done|]; split; [done|]; by destruct o|].
  rewrite (proj2 (at_least_ltb _ _) Wo). eapply runs_step; [exact Hw|].
  eapply runs_part; try done; [apply child_item; [apply Hd|done]|lia|].
  subst c. cbn in *. split; lia.
Qed.

Lemma compile_nullable_complete R v inner depth path st :
  let c := Contract_Nullable inner in
  rec_complete inner -> denotes R c v -> well_formed c -> depth + contract_depth c <= SCHEMA_MAX_DEPTH + 1 ->
  SCHEMA_MAX_DEPTH - depth < n -> memo_inv st -> active_upto st v -> room 1 c (co_stats st) ->
  runs (compile_nullable world compile v depth path) (fun _ _ => True) st.
Proof.
  intros c Hrec ((Hc & Hd & Hk) & w & Hw & Hi) Hwf Hdepth Hn Hinv Hact []. unfold compile_nullable. cbn in Hdepth, Hwf.
  eapply (runs_step _ _ _ _ (contract_description inner)).
  { unfold extract_builtin_description. rewrite Hd. apply description_ok. split; [done|]. clear -Hwf.
    induction inner as [| | | |d item mn mx IH|d fields IH|inner IH|] using contract_nested_ind; by apply Hwf || auto. }
  eapply (runs_step _ _ _ _ (contract_json_kind inner)).
  { unfold extract_builtin_json_kind. rewrite Hk. cbn. by rewrite (proj2 (JsonKind_parse_name _ _) eq_refl). }
  eapply runs_step; [exact Hw|].
  eapply runs_part; try done; [by apply child_inner|lia| |].
  { subst c. cbn in *. split; lia. }
  intros c' st' Hc'. destruct (same_measures _ _ _ _ _ Hi (ca_denotes _ _ _ _ _ _ Hc')) as (_ & _ & _ & -> & ->).
  rewrite String.eqb_refl, bool_decide_true by done. done.
Qed.

Lemma compile_entries_complete v depth path R fields :
  Forall (fun f => rec_complete (field_value f)) fields ->
  SCHEMA_MAX_DEPTH - depth < n -> forall entries names st,
  all2 (field_denotes R) fields (map (fun '(name, value, required) => Py_Tuple [name; value; required]) entries) ->
  (forall name w required, (name, w, required) ∈ entries -> child v w) ->
  all_of (fun '(mkFieldContract _ _ c) => well_formed c) fields -> NoDup (names ++ map field_name fields) ->
  depth + max_with (fun '(mkFieldContract _ _ c) => contract_depth c) fields <= SCHEMA_MAX_DEPTH ->
  memo_inv st -> active_upto st v -> room_fields fields (co_stats st) ->
  runs (compile_entries compile entries depth path names) (fun _ _ => True) st.
Proof.
  intros Hrec Hn. induction Hrec as [|[name required c] fields Hc _ IH];
    intros [|[[nv w] rv] entries] names st Hall Hch Hwf Hnd Hd Hinv Hact Hroom; try done.
  destruct Hall as [(w' & [= -> -> ->] & Hw) Hall], Hwf as [Wc Wf]. cbn [field_value] in Hc.
  destruct (room_fields_cons _ _ _ _ _ Hroom) as [Hr1 Hr2]. unfold max_with in Hd. cbn [foldr] in Hd.
  cbn [compile_entries map field_name]. cbn [map field_name] in Hnd.
  eapply runs_step; [by apply exact_string_ok|].
  assert (existsb (String.eqb name) names = false) as ->.
  { apply existsb_apart, Forall_forall. intros x Hx. apply String.eqb_neq. intros <-.
    apply NoDup_app in Hnd as (_ & Hdis & _). by eapply Hdis, list_elem_of_here. }
  apply wp_bind, wp_modify. eapply runs_step; [by apply bool_ok|].
  eapply runs_part; [exact Hc|exact Hw|done|by eapply Hch, list_elem_of_here|lia|done| |done|exact Hr1|].
  { by eapply memo_inv_same, Hinv. }
  intros c' st' Hc'. apply wp_bind. eapply wp_mono; [eapply (IH entries (names ++ [name]))| |done]; try done.
  - intros nm ww r Hin. by eapply Hch, list_elem_of_further.
  - by rewrite <-app_assoc.
  - unfold max_with. lia.
  - apply Hc'.
  - intros a Ha. apply Hact. rewrite (ca_active _ _ _ _ _ _ Hc') in Ha. exact Ha.
  - rewrite (ca_stats _ _ _ _ _ _ Hc'). eapply Hr2; [exact Hw|apply Hc'].
Qed.

Lemma entries_of R fields entries : all2 (field_denotes R) fields entries ->
  exists es, entries = map (fun '(name, value, required) => Py_Tuple [name; value; required]) es.
Proof.
  revert entries. induction fields as [|[name required c] fields IH]; intros [|e entries]; try done.
  - by exists [].
  - intros [(w & -> & _) Hall]. destruct (IH _ Hall) as [es ->]. by exists ((py_str name, w, Py_Bool required) :: es).
Qed.

Lemma compile_object_complete R v d fields depth path st :
  let c := Contract_Object d (mkObjectContract fields) in
  Forall (fun f => rec_complete (field_value f)) fields ->
  denotes R c v -> well_formed c -> depth + contract_depth c <= SCHEMA_MAX_DEPTH + 1 ->
  SCHEMA_MAX_DEPTH - depth < n -> memo_inv st -> active_upto st v -> room 1 c (co_stats st) ->
  runs (compile_object world compile v depth path) (fun _ _ => True) st.
Proof.
  intros c Hrec (Hd & entries & Hentries & Hall) (Hg & Hnd & Wf) Hdepth Hn Hinv Hact []. unfold compile_object. cbn in Hdepth.
  ran (proj2 (metadata_ok _ _ _ _ (proj1 Hd)) (conj Hd Hg)). eapply runs_step; [exact Hentries|].
  change (all2 (field_denotes R) fields entries) in Hall. destruct (entries_of _ _ _ Hall) as [es ->].
  eapply runs_step; [by apply entries_ok|]. apply wp_bind.
  eapply wp_mono; [eapply (compile_entries_complete v)| |done]; try done.
  - intros name w required Hin. eapply child_field; [apply Hd|done|].
    apply (list_elem_of_fmap_2 (fun '(name, value, required) => Py_Tuple [name; value; required])) in Hin. exact Hin.
  - lia.
  - subst c. cbn in *. split; lia.
Qed.

Lemma compile_inner_complete R c v depth path st :
  match c with
  | Contract_List _ item _ _ => rec_complete item
  | Contract_Object _ (mkObjectContract fields) => Forall (fun f => rec_complete (field_value f)) fields
  | Contract_Nullable inner => rec_complete inner
  | _ => True
  end ->
  denotes R c v -> well_formed c -> depth + contract_depth c <= SCHEMA_MAX_DEPTH + 1 ->
  SCHEMA_MAX_DEPTH - depth < n -> memo_inv st -> active_upto st v -> room 1 c (co_stats st) ->
  runs (compile_value_inner world compile v depth path) (fun _ _ => True) st.
Proof.
  intros Hrec Hden Hwf Hdepth Hn Hinv Hact Hroom. unfold compile_value_inner.
  assert (Hclass : exists class d k, described v class d k) by (destruct c as [| | | | |? []| |]; do 3 eexists; apply Hden).
  destruct c as [| | | | |d [fields]| |]; rewrite (proj1 (proj1 Hden)).
  - by eapply compile_string_complete.
  - by eapply compile_int64_complete.
  - by eapply compile_float64_complete.
  - by eapply compile_bool_complete.
  - by eapply compile_list_complete.
  - by eapply compile_object_complete.
  - by eapply compile_nullable_complete.
  - pose proof Hden as (_ & i & -> & _). by eapply compile_custom_complete.
Qed.

End CompleteParts.

(** Every part of a contract is compiled by the calls with less fuel. *)
Definition parts_complete (fuel : nat) (c : ValueContract) : Prop :=
  match c with
  | Contract_List _ item _ _ => rec_complete (compile_value world fuel) (Z.of_nat fuel) item
  | Contract_Object _ (mkObjectContract fields) =>
      Forall (fun f => rec_complete (compile_value world fuel) (Z.of_nat fuel) (field_value f)) fields
  | Contract_Nullable inner => rec_complete (compile_value world fuel) (Z.of_nat fuel) inner
  | _ => True
  end.

Lemma compile_value_step c : (forall fuel, parts_complete fuel c) ->
  forall fuel, rec_complete (compile_value world fuel) (Z.of_nat fuel) c.
Proof.
  intros Hparts fuel R v depth path st Hden Hwf Hd Hf Hinv Hact Hroom.
  pose proof (contract_depth_pos c). pose proof (contract_nodes_pos c).
  destruct fuel as [|fuel]; [lia|]. cbn [compile_value].
  destruct (Z.ltb_spec SCHEMA_MAX_DEPTH depth); [lia|]. apply wp_bind, wp_modify, wp_bind, wp_gets.
  destruct (Z.ltb_spec SCHEMA_MAX_NODES (cs_nodes (co_stats (with_stats add_node st)))).
  { destruct Hroom. cbn in *. lia. }
  apply wp_bind, wp_gets. destruct (is_active v _) eqn:Hia.
  { exfalso. eapply (denotes_acyclic _ _ _ Hden). unfold is_active, identity_of in Hia.
    destruct v as [| | | | | | |i]; try discriminate Hia. apply Hact. by apply bool_decide_eq_true in Hia. }
  apply wp_bind, wp_modify, wp_bind. eapply wp_mono; [|intros; exact I|intros e He; exact He].
  eapply (compile_inner_complete _ (Z.of_nat fuel) (compile_value_sound fuel) R c); try done.
  - exact (Hparts fuel).
  - lia.
  - by eapply memo_inv_same, Hinv.
  - intros a [->|Ha]%active_enter; [done|]. apply tc_rtc. by apply Hact.
  - destruct Hroom. split; cbn in *; lia.
Qed.

Lemma compile_value_complete c : forall fuel, rec_complete (compile_value world fuel) (Z.of_nat fuel) c.
Proof.
  induction c as [| | | |d item mn mx IH|d fields IH|inner IH|] using contract_nested_ind;
    apply compile_value_step; intros fuel; cbn; auto.
  eapply Forall_impl; [exact IH|]. auto.
Qed.

Lemma compile_fields_complete fuel depth path R fields :
  SCHEMA_MAX_DEPTH - depth < Z.of_nat fuel -> forall entries st,
  all2 (entry_denotes R) fields entries ->
  all_of (fun '(mkFieldContract _ _ c) => well_formed c) fields ->
  depth + max_with (fun '(mkFieldContract _ _ c) => contract_depth c) fields <= SCHEMA_MAX_DEPTH ->
  memo_inv st -> co_active st = ∅ -> room_fields fields (co_stats st) ->
  runs (compile_object_fields world fuel entries depth path) (fun _ _ => True) st.
Proof.
  intros Hf. induction fields as [|[name required c] fields IH]; intros [|[nv spec] entries] st Hall Hwf Hd Hinv Hact Hroom;
    try done.
  destruct Hall as [[Hname (w & Hs & Hw)] Hall], Hwf as [Wc Wf].
  destruct (room_fields_cons _ _ _ _ _ Hroom) as [Hr1 Hr2]. unfold max_with in Hd. cbn [foldr fst snd] in *.
  pose proof (contract_depth_pos c). cbn [compile_object_fields].
  eapply runs_step; [by apply field_name_ok|]. eapply runs_step; [by apply field_spec_ok|].
  apply wp_bind, wp_modify, wp_bind. cbn [fst snd].
  assert (Hinv' : memo_inv (with_stats add_field st)) by by eapply memo_inv_same, Hinv.
  assert (Habove : active_above (with_stats add_field st) w).
  { intros a. cbn. rewrite Hact. by intros ?%elem_of_empty. }
  eapply wp_mono; [eapply runs_with; [apply compile_value_sound; [done|done|lia|lia]|]| |done].
  { eapply compile_value_complete; [exact Hw|done|lia|lia|done|done|exact Hr1]. }
  intros c' st' Hc'. apply wp_bind. eapply wp_mono; [eapply (IH entries)| |done]; try done.
  - unfold max_with. lia.
  - apply Hc'.
  - by rewrite (ca_active _ _ _ _ _ _ Hc').
  - rewrite (ca_stats _ _ _ _ _ _ Hc'). eapply Hr2; [exact Hw|apply Hc'].
Qed.

(** ** The schema *)

Lemma spec_holds_eq spec w w' r r' : spec_holds spec w r -> spec_holds spec w' r' -> w = w' /\ r = r'.
Proof. rewrite <-!field_spec_ok. intros -> [= <- <-]. done. Qed.

Lemma erase_entries R R' fields : forall fields' entries,
  all2 (entry_denotes R) fields entries -> all2 (entry_denotes R') fields' entries ->
  erase (Contract_Object EmptyString (mkObjectContract fields)) =
  erase (Contract_Object EmptyString (mkObjectContract fields')).
Proof.
  intros fields' entries H1 H2. cbn. do 2 f_equal. revert fields' entries H1 H2.
  induction fields as [|[name required c] fields IH]; intros [|[name' required' c'] fields'] [|[k spec] entries] H1 H2;
    try done.
  destruct H1 as [[Hk (w & Hs & Hw)] H1], H2 as [[Hk' (w' & Hs' & Hw')] H2]. cbn in *.
  destruct (spec_holds_eq _ _ _ _ _ Hs Hs') as [<- <-]. rewrite Hk in Hk'. injection Hk' as <-.
  f_equal; [|by eapply IH]. f_equal. by eapply denotes_erase.
Qed.

Definition schema_denotes (R : Z -> Z -> Prop) (schema : PyValue) (root : ObjectContract) : Prop :=
  exists entries, schema = Py_Dict entries /\ all2 (entry_denotes R) (contract_fields root) entries.

Definition admissible (root : ObjectContract) : Prop :=
  all_of (fun '(mkFieldContract _ _ c) => well_formed c) (contract_fields root) /\
  within_schema_limits (Contract_Object EmptyString root).

(** The number of a custom validator is its place in the list of the schema. *)
Definition numbered_in (s : CompiledActSchema) (identity id : Z) : Prop :=
  0 <= id /\ custom_validator s id = Some identity.

Lemma memo_inv_new : memo_inv Compiler_new.
Proof. split; cbn; [by intros ? ? ?%lookup_empty_Some|constructor|by intros ? ?%elem_of_nil]. Qed.

Lemma check_stats_ok fields st : fields_done 1 fields Compiler_new st ->
  check_stats (co_stats st) = Ok tt <-> within_schema_limits (Contract_Object EmptyString (mkObjectContract fields)).
Proof.
  intros [_ _ _ _ Hd Hs]. unfold check_stats, choices_exceeded, within_schema_limits. rewrite Hs. cbn in Hd |- *.
  match goal with |- context [SCHEMA_MAX_NODES <? ?x] => destruct (Z.ltb_spec SCHEMA_MAX_NODES x) end;
    [split; [done|lia]|].
  match goal with |- context [SCHEMA_MAX_FIELDS <? ?x] => destruct (Z.ltb_spec SCHEMA_MAX_FIELDS x) end;
    [split; [done|lia]|].
  match goal with |- context [SCHEMA_MAX_CHOICES <? ?x] => destruct (Z.ltb_spec SCHEMA_MAX_CHOICES x) end;
    [split; [done|lia]|].
  match goal with |- context [SCHEMA_MAX_CHOICE_BYTES <? ?x] => destruct (Z.ltb_spec SCHEMA_MAX_CHOICE_BYTES x) end;
    [split; [done|lia]|].
  split; [lia|done].
Qed.

Lemma compile_act_schema_spec fuel schema :
  (32 <= fuel)%nat ->
  match compile_act_schema world fuel schema with
  | Some (Ok s) =>
      schema_denotes (numbered_in s) schema (cas_root s) /\ admissible (cas_root s) /\
      NoDup (cas_custom_validators s) /\
      (cas_validation_mode s = NativeOnly <-> cas_custom_validators s = [])
  | Some (Err e) =>
      (forall R root, schema_denotes R schema root -> ~ admissible root) /\
      (is_cycle_error e -> exists entries, schema = Py_Dict entries /\ schema_cycle entries)
  | None => False
  end.
Proof.
  intros Hf. unfold compile_act_schema.
  destruct schema as [| | | | | |entries|]; try (split; [by intros R root (? & ? & _)|by intros [? [=]]]).
  pose proof (compile_fields_sound fuel 1 EmptyString entries ltac:(done) ltac:(unfold SCHEMA_MAX_DEPTH; lia) _ memo_inv_new eq_refl) as Hs.
  assert (Hcomplete : forall R root, schema_denotes R (Py_Dict entries) root -> admissible root ->
            runs (compile_object_fields world fuel entries 1 EmptyString) (fun _ _ => True) Compiler_new).
  { intros R [fields] (? & [= <-] & Hall) [Hwf (Hd & Hn & _ & Hc & Hb)]. cbn in *.
    eapply compile_fields_complete; [unfold SCHEMA_MAX_DEPTH; lia|done..|apply memo_inv_new|done|].
    split; cbn; lia. }
  unfold runs, wp in *.
  destruct (compile_object_fields world fuel entries 1 EmptyString Compiler_new) as [[[fields st]|e]|]; [| |done].
  - destruct Hs as [Hdone Hall]. pose proof (check_stats_ok _ _ Hdone) as Hcheck.
    destruct (check_stats (co_stats st)) as [[]|e] eqn:Ec; cbn [result_bind].
    + refine (conj _ (conj _ (conj _ _)));
        [by exists entries|split; [apply Hdone|by apply Hcheck]|apply Hdone|].
      cbn. by destruct (co_custom_validators st).
    + split.
      * intros R [fields'] (? & [= <-] & Hall') [_ Hlim]. enough (Err e = Ok tt) by done. apply Hcheck. revert Hlim.
        pose proof (erase_entries _ _ _ _ _ Hall Hall') as E. destruct Hdone as [_ _ _ _ Hd _].
        unfold within_schema_limits.
        destruct (erase_measures (Contract_Object EmptyString (mkObjectContract fields))) as (<- & <- & <- & _ & _ & <-).
        destruct (erase_measures (Contract_Object EmptyString (mkObjectContract fields'))) as (<- & <- & <- & _ & _ & <-).
        rewrite E. intros (_ & ? & ? & ? & ?). by split_and!.
      * revert Ec. unfold check_stats. repeat case_match; intros [= <-]; by intros [? [=]].
  - split; [by intros R root Hden Hadm; apply (Hcomplete R root)|]. intros Hcyc. exists entries. auto.
Qed.

(** C20: the compilation of an output schema ends on every graph of Python objects,
    cyclic ones included, and accepts exactly the dictionaries that denote a
    well-formed contract within the limits of depth, nodes, fields and choices;
    the contract it returns is the denoted one, every custom validator in it is
    numbered by its place in a list that holds each validator once, and the
    report of a cycle is true. *)
Theorem compile_act_schema_exact fuel schema :
  (32 <= fuel)%nat ->
  match compile_act_schema world fuel schema with
  | Some (Ok s) =>
      schema_denotes (numbered_in s) schema (cas_root s) /\ admissible (cas_root s) /\
      NoDup (cas_custom_validators s) /\
      (cas_validation_mode s = NativeOnly <-> cas_custom_validators s = [])
  | Some (Err e) =>
      (forall R root, schema_denotes R schema root -> ~ admissible root) /\
      (is_cycle_error e -> exists entries, schema = Py_Dict entries /\ schema_cycle entries)
  | None => False
  end.
Proof. apply compile_act_schema_spec. Qed.

End Operations.

End Denotes.

(** ** The jobs of a valid result *)

(** Every validator number in a contract satisfies [P]. *)
Fixpoint numbers_in (P : Z -> Prop) (c : ValueContract) : Prop :=
  match c with
  | Contract_List _ item _ _ => numbers_in P item
  | Contract_Object _ (mkObjectContract fields) =>
      all_of (fun '(mkFieldContract _ _ c) => numbers_in P c) fields
  | Contract_Nullable inner => numbers_in P inner
  | Contract_Custom _ _ _ id => P id
  | _ => True
  end.

Lemma denotes_numbers world R c : forall v, denotes world R c v ->
  numbers_in (fun id => exists i, R i id /\ class_of world (Py_Object i) = Class_CustomValue) c.
Proof.
  induction c as [| | | |d item mn mx IH|d fields IH|inner IH|] using contract_nested_ind; intros v; cbn; try done.
  - intros (_ & _ & _ & w & _ & Hw). by eapply IH.
  - intros (_ & entries & _ & Hall). revert entries Hall.
    induction IH as [|[name required c] fields Hc _ IHf]; intros [|e entries]; try done.
    intros [(w & _ & Hw) Hall]. split; [by eapply Hc|by eapply IHf].
  - intros (_ & w & _ & Hw). by eapply IH.
  - intros ((Hc & _) & i & -> & _ & Hi). by exists i.
Qed.

Lemma entries_numbers world R fields entries : all2 (entry_denotes world R) fields entries ->
  all_of (fun '(mkFieldContract _ _ c) =>
    numbers_in (fun id => exists i, R i id /\ class_of world (Py_Object i) = Class_CustomValue) c) fields.
Proof.
  revert entries. induction fields as [|[name required c] fields IH]; intros [|e entries]; try done.
  intros [(_ & w & _ & Hw) Hall]. split; [by eapply denotes_numbers|by eapply IH].
Qed.

Section Jobs.
Context `{SerdeJson} (P : Z -> Prop).

Definition jobs_numbered (jobs : list CustomValidationJob) : Prop := Forall (fun j => P (job_validator_id j)) jobs.

Lemma valid_as_numbers c : numbers_in P c ->
  forall json path v jobs, valid_as c json path v jobs -> jobs_numbered jobs.
Proof.
  induction c as [| | | |d item mn mx IH|d fields IH|inner IH|] using contract_nested_ind;
    intros Hc json path v jobs Hv; inversion Hv; subst; try constructor; try done.
  - match goal with Hi : items_valid _ _ _ _ _ _ |- _ => rename Hi into Hitems end.
    revert Hc IH; clear -Hitems; induction Hitems;
      intros Hc IH; [constructor|apply Forall_app; split; [by eapply IH|by apply IHHitems]].
  - match goal with Hf : fields_valid _ _ _ _ _ |- _ => rename Hf into Hfields end.
    revert Hc IH; clear -Hfields; induction Hfields;
      intros Hc IH; [constructor| |];
      match goal with f : FieldContract |- _ => destruct f as [name required c] end;
      destruct Hc as [Hc1 Hc]; apply Forall_cons in IH as [IH1 IH]; cbn [field_value] in *;
      [apply Forall_app; split; [by eapply IH1|by apply IHHfields]|by apply IHHfields].
  - by eapply IH.
Qed.
End Jobs.

(** Every job of a result that a compiled schema finds valid has a validator:
    its number is a place in the list of the schema, and the object there is an
    instance of a custom class. *)
Theorem validation_jobs_resolve `{SerdeJson} world fuel schema s json v jobs :
  (32 <= fuel)%nat ->
  compile_act_schema world fuel schema = Some (Ok s) ->
  schema_validate (cas_root s) json = Some (Valid v jobs) ->
  Forall (fun j => exists i, custom_validator s (job_validator_id j) = Some i /\
                             class_of world (Py_Object i) = Class_CustomValue) jobs.
Proof.
  intros Hf Hs Hv. pose proof (compile_act_schema_spec world fuel schema Hf) as Hc. rewrite Hs in Hc.
  destruct Hc as ((entries & _ & Hall) & _). destruct (schema_validate_verdict (cas_root s) json) as (o & Ho & Hverdict).
  rewrite Hv in Ho. injection Ho as <-. destruct Hverdict as [_ Hvalid].
  assert (Hva : valid_as (Contract_Object EmptyString (cas_root s)) json EmptyString v jobs) by (by apply Hvalid).
  assert (Hnum : numbers_in (fun id => exists i, numbered_in s i id /\ class_of world (Py_Object i) = Class_CustomValue)
                   (Contract_Object EmptyString (cas_root s))).
  { destruct (cas_root s) as [fields]. exact (entries_numbers _ _ _ _ Hall). }
  pose proof (valid_as_numbers _ _ Hnum _ _ _ _ Hva) as Hj. eapply Forall_impl; [exact Hj|].
  intros j (i & [_ ?] & ?). eauto.
Qed.

(** ** Witnesses

    A dictionary whose two fields hold one custom value, the second one inside an
    optional list, and a list that holds itself. *)
#[local] Existing Instance integers_only.

Definition sample_slots (kind : string) (more : list (string * PyValue)) : gmap string PyValue :=
  list_to_map (("_description", py_str "it")%string :: ("_json_kind", py_str kind)%string :: more).

Definition sample_world : PyWorld := mkWorld
  (list_to_map
     [(1, mkObject Class_CustomValue (sample_slots "string" []));
      (2, mkObject Class_ListValue (sample_slots "array"
            [("_min_items", Py_None); ("_max_items", Py_Int 3); ("_item", Py_Object 1)]%string));
      (3, mkObject Class_Field (list_to_map [("_inner", Py_Object 2); ("_required", Py_Bool false)]%string));
      (4, mkObject Class_ListValue (sample_slots "array"
            [("_min_items", Py_None); ("_max_items", Py_None); ("_item", Py_Object 4)]%string))])
  (fun _ => Ok (py_str "short")).

Definition sample_schema : PyValue :=
  Py_Dict [(py_str "one", Py_Object 1); (py_str "many", Py_Object 3)].

Definition sample_compiled : CompiledActSchema :=
  let custom := Contract_Custom "it" Kind_String "short" 0 in
  mkCompiledSchema
    (mkObjectContract [mkFieldContract "one" true custom;
                       mkFieldContract "many" false (Contract_List "it" custom None 3)])
    Hybrid [1].

Definition sample_submission : JsonValue :=
  Json_Object [("many"%string, Json_Array [Json_String "b"]); ("one"%string, Json_String "a")].

Lemma compile_act_schema_exact_witness :
  schema_denotes sample_world (numbered_in sample_compiled) sample_schema (cas_root sample_compiled) /\
  exists entries, Py_Dict [(py_str "loop", Py_Object 4)] = Py_Dict entries /\ schema_cycle sample_world entries.
Proof.
  split.
  - pose proof (compile_act_schema_exact sample_world 32 sample_schema ltac:(lia)) as Hx.
    assert (E : compile_act_schema sample_world 32 sample_schema = Some (Ok sample_compiled))
      by (vm_compute; reflexivity).
    rewrite E in Hx. apply Hx.
  - pose proof (compile_act_schema_exact sample_world 32 (Py_Dict [(py_str "loop", Py_Object 4)]) ltac:(lia)) as Hx.
    assert (E : compile_act_schema sample_world 32 (Py_Dict [(py_str "loop", Py_Object 4)]) =
                Some (Err (Py_ValueError "schema graph contains a cycle at /loop/*"))) by (vm_compute; reflexivity).
    rewrite E in Hx. apply Hx. exists "/loop/*"%string. reflexivity.
Defined.

Lemma validation_jobs_resolve_witness :
  exists v jobs, schema_validate (cas_root sample_compiled) sample_submission = Some (Valid v jobs) /\
    length jobs = 2%nat /\
    Forall (fun j => exists i, custom_validator sample_compiled (job_validator_id j) = Some i /\
                               class_of sample_world (Py_Object i) = Class_CustomValue) jobs.
Proof.
  do 2 eexists. split; [vm_compute; reflexivity|]. split; [reflexivity|].
  eapply (validation_jobs_resolve sample_world 32 sample_schema sample_compiled sample_submission);
    [lia|vm_compute; reflexivity|vm_compute; reflexivity].
Defined.
