(* ===== verification/ActHttp.v ===== *)
(** * Reading requests of the result channel

    The read limiter of crates/troupe-agent-runtime/src/result/mod.rs: it
    follows the bytes of an HTTP/1.1 connection, so that no head is read past its
    limit and no byte after a head is read before the framing of its body is
    known.  It finds the end of a head and of a chunked body by itself.

    A read hands over the bytes it filled in; [usize] and [u64] are both 64
    bits wide.  A waker is a number. *)

From S2P Require Import Prelude.

Definition MCP_HTTP_HEAD_MAX_BYTES : Z := 32 * 1024.

Definition CR : ascii := "013".
Definition LF : ascii := "010".
Definition TAB : ascii := "009".

(** ** Chunked bodies *)

Inductive ChunkedReadPhase :=
| Size (value : Z) (saw_digit in_linear_whitespace in_extension saw_carriage_return : bool)
| Data (remaining : Z)
| DataCarriageReturn
| DataLineFeed
| TrailerLine (has_bytes saw_carriage_return : bool)
| InvalidPhase.

Record ChunkedBodyTracker := mkTracker { tracker_phase : ChunkedReadPhase }.

Inductive ChunkedProgress :=
| Incomplete
| Complete (consumed : Z)
| Invalid.

Definition size_phase : ChunkedReadPhase := Size 0 false false false false.

Definition ChunkedBodyTracker_new : ChunkedBodyTracker := mkTracker size_phase.

(** [(byte as char).to_digit(16)]. *)
Definition hex_digit (c : ascii) : option Z :=
  let b := byte_val c in
  if (48 <=? b) && (b <=? 57) then Some (b - 48)
  else if (97 <=? b) && (b <=? 102) then Some (b - 87)
  else if (65 <=? b) && (b <=? 70) then Some (b - 55)
  else None.

Definition is_linear_whitespace (c : ascii) : bool := Ascii.eqb c " " || Ascii.eqb c TAB.

(** A byte in the size line of a chunk. *)
Definition size_byte (value : Z) (saw_digit in_linear_whitespace in_extension saw_carriage_return : bool)
    (byte : ascii) : ChunkedReadPhase :=
  if saw_carriage_return then
    if negb (Ascii.eqb byte LF) then InvalidPhase
    else if value =? 0 then TrailerLine false false
    else Data value
  else if in_extension then
    if Ascii.eqb byte CR then Size value saw_digit in_linear_whitespace in_extension true
    else if Ascii.eqb byte LF then InvalidPhase
    else Size value saw_digit in_linear_whitespace in_extension saw_carriage_return
  else if in_linear_whitespace then
    if is_linear_whitespace byte then
      Size value saw_digit in_linear_whitespace in_extension saw_carriage_return
    else if Ascii.eqb byte ";" then Size value saw_digit in_linear_whitespace true saw_carriage_return
    else if Ascii.eqb byte CR then Size value saw_digit in_linear_whitespace in_extension true
    else InvalidPhase
  else if Ascii.eqb byte CR && saw_digit then
    Size value saw_digit in_linear_whitespace in_extension true
  else if Ascii.eqb byte ";" && saw_digit then
    Size value saw_digit in_linear_whitespace true saw_carriage_return
  else if is_linear_whitespace byte && saw_digit then
    Size value saw_digit true in_extension saw_carriage_return
  else
    match hex_digit byte with
    | Some digit =>
        match (current ← checked_mul U64 value 16; checked_add U64 current digit) with
        | Some next => Size next true in_linear_whitespace in_extension saw_carriage_return
        | None => InvalidPhase
        end
    | None => InvalidPhase
    end.

(** One turn of the loop of [consume] on the bytes from [index] on: the phase
    after it and how many bytes it took, or the progress it returns. *)
Inductive Turn :=
| Continue (phase : ChunkedReadPhase) (taken : nat)
| Return (phase : ChunkedReadPhase) (progress : ChunkedProgress).

Definition valid_or_return (phase : ChunkedReadPhase) : Turn :=
  match phase with
  | InvalidPhase => Return InvalidPhase Invalid
  | _ => Continue phase 1
  end.

Definition consume_turn (phase : ChunkedReadPhase) (byte : ascii) (rest : list ascii) (index : Z) : Turn :=
  match phase with
  | Size value saw_digit in_linear_whitespace in_extension saw_carriage_return =>
      valid_or_return
        (size_byte value saw_digit in_linear_whitespace in_extension saw_carriage_return byte)
  | Data remaining =>
      let consumed := Z.min remaining (list_len (byte :: rest)) in
      let remaining := remaining - consumed in
      Continue (if remaining =? 0 then DataCarriageReturn else Data remaining) (Z.to_nat consumed)
  | DataCarriageReturn =>
      if Ascii.eqb byte CR then Continue DataLineFeed 1 else Return InvalidPhase Invalid
  | DataLineFeed =>
      if Ascii.eqb byte LF then Continue size_phase 1 else Return InvalidPhase Invalid
  | TrailerLine has_bytes saw_carriage_return =>
      if saw_carriage_return then
        if negb (Ascii.eqb byte LF) then Return InvalidPhase Invalid
        else if negb has_bytes then Return phase (Complete (index + 1))
        else Continue (TrailerLine false false) 1
      else if Ascii.eqb byte CR then Continue (TrailerLine has_bytes true) 1
      else if Ascii.eqb byte LF then Return InvalidPhase Invalid
      else Continue (TrailerLine true saw_carriage_return) 1
  | InvalidPhase => Return InvalidPhase Invalid
  end.

(** The loop; [None] is more turns than [fuel]. *)
Fixpoint consume_loop (fuel : nat) (phase : ChunkedReadPhase) (input : list ascii) (index : Z)
    : option (ChunkedReadPhase * ChunkedProgress) :=
  match input with
  | [] => Some (phase, Incomplete)
  | byte :: rest =>
      match fuel with
      | O => None
      | S fuel' =>
          match consume_turn phase byte rest index with
          | Return phase progress => Some (phase, progress)
          | Continue phase taken =>
              consume_loop fuel' phase (drop taken input) (index + Z.of_nat taken)
          end
      end
  end.

(** A turn takes no byte only for data of length zero, which is never
    entered. *)
Definition consume_fuel (input : list ascii) : nat := S (length input).

Definition consume (self : ChunkedBodyTracker) (input : list ascii)
    : option (ChunkedBodyTracker * ChunkedProgress) :=
  '(phase, progress) ← consume_loop (consume_fuel input) (tracker_phase self) input 0;
  Some (mkTracker phase, progress).

(** ** Heads *)

(** The end of a head: CR LF CR LF. [None] is the end itself. *)
Definition advance_http_head_terminator (prefix : Z) (byte : ascii) : option Z :=
  if Ascii.eqb byte CR then
    if (prefix =? 0) || (prefix =? 1) || (prefix =? 3) then Some 1
    else if prefix =? 2 then Some 3
    else Some 0
  else if Ascii.eqb byte LF then
    if prefix =? 1 then Some 2 else if prefix =? 3 then None else Some 0
  else Some 0.

Inductive RequestBodyFraming :=
| Fixed (length : Z)
| Chunked.

Inductive Http1ReadPhase :=
| Head (bytes : Z) (terminator_prefix : Z)
| AwaitingBodyFraming (trailing : list ascii) (waker : option Z)
| FixedBody (remaining : Z)
| ChunkedBody (tracker : ChunkedBodyTracker)
| OpaqueBody.

Definition head : Http1ReadPhase := Head 0 0.

Record Http1ReadLimiter := mkLimiter { limiter_phase : Http1ReadPhase }.

Definition Http1ReadLimiter_new : Http1ReadLimiter := mkLimiter head.

(** Debug assertions are checked in a debug build. *)
Section Observe.
Variable debug_assertions : bool.

Definition debug_assert (condition : bool) : option unit :=
  if debug_assertions && negb condition then None else Some tt.

(** [Head.observe]: the loop over the bytes of a head; [None] is a failed
    assertion. *)
Fixpoint observe_head (bytes terminator_prefix : Z) (input : list ascii) : option Http1ReadPhase :=
  match input with
  | [] => Some (Head bytes terminator_prefix)
  | byte :: rest =>
      let bytes := bytes + 1 in
      _ ← debug_assert (bytes <=? MCP_HTTP_HEAD_MAX_BYTES);
      match advance_http_head_terminator terminator_prefix byte with
      | None => Some (AwaitingBodyFraming rest None)
      | Some prefix => observe_head bytes prefix rest
      end
  end.

(** [Http1ReadPhase::observe]; [None] is a failed assertion, or a loop that does
    not end. *)
Definition observe_phase (self : Http1ReadPhase) (input : list ascii) : option Http1ReadPhase :=
  match self with
  | Head bytes terminator_prefix => observe_head bytes terminator_prefix input
  | AwaitingBodyFraming trailing waker => Some (AwaitingBodyFraming (trailing ++ input) waker)
  | FixedBody remaining =>
      let consumed := Z.min remaining (list_len input) in
      let remaining := remaining - consumed in
      if consumed <? list_len input then
        _ ← debug_assert (remaining =? 0);
        observe_head 0 0 (drop (Z.to_nat consumed) input)
      else Some (FixedBody remaining)
  | ChunkedBody tracker =>
      '(tracker, progress) ← consume tracker input;
      match progress with
      | Incomplete => Some (ChunkedBody tracker)
      | Complete consumed => observe_head 0 0 (drop (Z.to_nat consumed) input)
      | Invalid => Some OpaqueBody
      end
  | OpaqueBody => Some OpaqueBody
  end.

(** ** The limiter *)

(** How much a read may take: [None] waits for the framing. *)
Definition allowance (self : Http1ReadLimiter) (capacity waker : Z) : Http1ReadLimiter * option Z :=
  match limiter_phase self with
  | Head bytes _ => (self, Some (Z.min capacity (saturating_sub Usize MCP_HTTP_HEAD_MAX_BYTES bytes)))
  | AwaitingBodyFraming trailing waiting =>
      (mkLimiter (AwaitingBodyFraming trailing (Some waker)), None)
  | FixedBody remaining =>
      if remaining =? 0 then
        (mkLimiter head, Some (Z.min capacity (saturating_sub Usize MCP_HTTP_HEAD_MAX_BYTES 0)))
      else (self, Some (Z.min capacity remaining))
  | ChunkedBody _ | OpaqueBody => (self, Some (Z.min capacity MCP_HTTP_HEAD_MAX_BYTES))
  end.

Definition limiter_observe (self : Http1ReadLimiter) (input : list ascii) : option Http1ReadLimiter :=
  phase ← observe_phase (limiter_phase self) input; Some (mkLimiter phase).

(** [set_body_framing]: the limiter and the waker it wakes; [None] is the panic
    when no head is complete. *)
Definition set_body_framing (self : Http1ReadLimiter) (framing : RequestBodyFraming)
    : option (Http1ReadLimiter * option Z) :=
  match limiter_phase self with
  | AwaitingBodyFraming trailing waker =>
      let body :=
        match framing with
        | Fixed remaining => FixedBody remaining
        | Chunked => ChunkedBody ChunkedBodyTracker_new
        end in
      phase ← observe_phase body trailing; Some (mkLimiter phase, waker)
  | _ => None
  end.

End Observe.
