(* ===== verification/ActHttpSpec.v ===== *)
(** * What the read limiter promises

    The chunked bodies of HTTP/1.1 as a grammar, which the tracker recognises
    exactly, however the bytes are cut into reads; the limiter follows the
    requests of a connection, and reads within its allowance keep every head
    within its limit. *)

From S2P Require Import Prelude ActHttp.

(** ** The grammar of a chunked body *)

Definition CRLF : list ascii := [CR; LF].

Definition is_hex_digit (c : ascii) : Prop := is_Some (hex_digit c).

Definition hex_number (value : Z) (digits : list ascii) : Z :=
  fold_left (fun n d => n * 16 + default 0 (hex_digit d)) digits value.

Definition line_byte (c : ascii) : Prop := c <> CR /\ c <> LF.

(** The extensions of a chunk: none, or anything after a semicolon that keeps
    to its line. *)
Definition chunk_extensions (l : list ascii) : Prop :=
  l = [] \/ exists text, l = ";"%char :: text /\ Forall line_byte text.

(** The line before the data of a chunk of [n] bytes. *)
Definition size_line (n : Z) (line : list ascii) : Prop :=
  exists digits blanks extensions,
    line = digits ++ blanks ++ extensions ++ CRLF /\
    digits <> [] /\ Forall is_hex_digit digits /\
    Forall (fun c => is_linear_whitespace c = true) blanks /\
    chunk_extensions extensions /\
    n = hex_number 0 digits /\ n <= int_max U64.

(** The lines after the last chunk, up to the empty one. *)
Inductive trailer_section : list ascii -> Prop :=
| trailer_end : trailer_section CRLF
| trailer_line text rest :
    text <> [] -> Forall line_byte text -> trailer_section rest ->
    trailer_section (text ++ CRLF ++ rest).

Inductive chunked_body : list ascii -> Prop :=
| chunked_last line trailers :
    size_line 0 line -> trailer_section trailers -> chunked_body (line ++ trailers)
| chunked_more n line data rest :
    size_line n line -> 0 < n -> list_len data = n -> chunked_body rest ->
    chunked_body (line ++ data ++ CRLF ++ rest).

(** ** What is left to read in a phase *)

Definition after_data (n : Z) (l : list ascii) : Prop :=
  exists data rest, l = data ++ CRLF ++ rest /\ list_len data = n /\ chunked_body rest.

Definition after_size (n : Z) (l : list ascii) : Prop :=
  (n = 0 /\ trailer_section l) \/ (0 < n /\ after_data n l).

Definition before_line_feed (l : list ascii) : Prop := exists rest, l = LF :: rest /\ chunked_body rest.

Definition in_line_end (n : Z) (l : list ascii) : Prop := exists rest, l = LF :: rest /\ after_size n rest.

Definition in_extension_text (n : Z) (l : list ascii) : Prop :=
  exists text rest, l = text ++ CRLF ++ rest /\ Forall line_byte text /\ after_size n rest.

Definition in_blanks (n : Z) (l : list ascii) : Prop :=
  exists blanks extensions rest, l = blanks ++ extensions ++ CRLF ++ rest /\
    Forall (fun c => is_linear_whitespace c = true) blanks /\
    chunk_extensions extensions /\ after_size n rest.

Definition in_digits (value : Z) (saw_digit : bool) (l : list ascii) : Prop :=
  exists digits tail, l = digits ++ tail /\ (saw_digit = true \/ digits <> []) /\
    Forall is_hex_digit digits /\ hex_number value digits <= int_max U64 /\
    in_blanks (hex_number value digits) tail.

(** [completes phase l]: read in [phase], exactly [l] ends the body. *)
Definition completes (phase : ChunkedReadPhase) (l : list ascii) : Prop :=
  match phase with
  | Size value saw_digit in_linear_whitespace in_extension saw_carriage_return =>
      if saw_carriage_return then in_line_end value l
      else if in_extension then in_extension_text value l
      else if in_linear_whitespace then in_blanks value l
      else in_digits value saw_digit l
  | Data remaining => after_data remaining l
  | DataCarriageReturn => exists rest, l = CR :: rest /\ before_line_feed rest
  | DataLineFeed => before_line_feed l
  | TrailerLine has_bytes saw_carriage_return =>
      if saw_carriage_return then
        if has_bytes then exists rest, l = LF :: rest /\ trailer_section rest else l = [LF]
      else if has_bytes then
        exists text rest, l = text ++ CRLF ++ rest /\ Forall line_byte text /\ trailer_section rest
      else trailer_section l
  | InvalidPhase => False
  end.

(** The phases that are entered. *)
Definition entered (phase : ChunkedReadPhase) : Prop :=
  match phase with
  | Size value saw_digit in_linear_whitespace in_extension saw_carriage_return =>
      0 <= value <= int_max U64 /\
      (saw_digit = false -> value = 0 /\ in_linear_whitespace = false /\ in_extension = false /\
        saw_carriage_return = false)
  | Data remaining => 0 < remaining <= int_max U64
  | _ => True
  end.

(** *** Numbers *)

Lemma hex_digit_range c d : hex_digit c = Some d -> 0 <= d < 16.
Proof. unfold hex_digit. repeat case_match; intros; simplify_eq; bool_hyps; lia. Qed.

Lemma hex_number_cons v c d ds :
  hex_digit c = Some d -> hex_number v (c :: ds) = hex_number (v * 16 + d) ds.
Proof. intros Hd. unfold hex_number. cbn [fold_left]. by rewrite Hd. Qed.

Lemma hex_number_ge ds : forall v, 0 <= v -> Forall is_hex_digit ds -> v <= hex_number v ds.
Proof.
  induction ds as [|c ds IH]; intros v Hv Hds; [done|].
  inversion Hds as [|? ? [d Hd] Hds']; subst.
  pose proof (hex_digit_range _ _ Hd). rewrite (hex_number_cons _ _ _ _ Hd).
  transitivity (v * 16 + d); [lia|]. apply IH; [lia|done].
Qed.

Lemma next_value v d :
  0 <= v -> 0 <= d ->
  (current ← checked_mul U64 v 16; checked_add U64 current d) =
  if v * 16 + d <=? int_max U64 then Some (v * 16 + d) else None.
Proof.
  intros Hv Hd. unfold checked_add, checked_mul, checked, fits. cbn [int_min]. generalize (int_max U64).
  intros m. destruct (Z.leb_spec (v * 16 + d) m).
  - rewrite (proj2 (Z.leb_le 0 (v * 16))), (proj2 (Z.leb_le (v * 16) m)) by lia.
    cbn [andb mbind option_bind].
    by rewrite (proj2 (Z.leb_le 0 (v * 16 + d))), (proj2 (Z.leb_le (v * 16 + d) m)) by lia.
  - destruct ((0 <=? v * 16) && (v * 16 <=? m)); cbn [mbind option_bind]; [|done].
    rewrite (proj2 (Z.leb_gt (v * 16 + d) m)) by lia. by rewrite andb_false_r.
Qed.

(** *** One byte at a time *)

Lemma line_end_cons n c l : in_line_end n (c :: l) <-> c = LF /\ after_size n l.
Proof. split; [intros (rest & [= -> ->] & H)|intros [-> H]; exists l]; done. Qed.

Lemma extension_text_cons n c l :
  in_extension_text n (c :: l) <->
  (c = CR /\ in_line_end n l) \/ (line_byte c /\ in_extension_text n l).
Proof.
  split.
  - intros ([|t text] & rest & E & Ht & H); injection E as -> ->.
    + left. split; [done|]. by exists rest.
    + inversion Ht; subst. right. split; [done|]. by exists text, rest.
  - intros [[-> (rest & -> & H)]|[Hc (text & rest & -> & Ht & H)]].
    + by exists [], rest.
    + exists (c :: text), rest. split; [done|]. split; [by constructor|done].
Qed.

Lemma blanks_cons n c l :
  in_blanks n (c :: l) <->
  (is_linear_whitespace c = true /\ in_blanks n l) \/
  (c = ";"%char /\ in_extension_text n l) \/ (c = CR /\ in_line_end n l).
Proof.
  split.
  - intros ([|b blanks] & ext & rest & E & Hb & Hx & H).
    + right. destruct Hx as [->|(text & -> & Ht)]; injection E as -> ->.
      * right. split; [done|]. by exists rest.
      * left. split; [done|]. by exists text, rest.
    + injection E as -> ->. inversion Hb; subst. left. split; [done|]. by exists blanks, ext, rest.
  - intros [[Hc (blanks & ext & rest & -> & Hb & Hx & H)]
           |[[-> (text & rest & -> & Ht & H)]|[-> (rest & -> & H)]]].
    + exists (c :: blanks), ext, rest. split; [done|]. split; [by constructor|done].
    + exists [], (";"%char :: text), rest. split; [done|]. split; [done|].
      split; [right; by exists text|done].
    + exists [], [], rest. split; [done|]. split; [done|]. split; [by left|done].
Qed.

Lemma digits_cons v saw c l :
  0 <= v ->
  in_digits v saw (c :: l) <->
  (exists d, hex_digit c = Some d /\ v * 16 + d <= int_max U64 /\ in_digits (v * 16 + d) true l) \/
  (saw = true /\ v <= int_max U64 /\ in_blanks v (c :: l)).
Proof.
  intros Hv. split.
  - intros ([|d digits] & tail & E & Hs & Hd & Hn & H).
    + right. cbn in E. subst tail. destruct Hs; done.
    + injection E as -> ->. inversion Hd as [|? ? [x Hx] Hd']; subst.
      pose proof (hex_digit_range _ _ Hx). left. exists x.
      rewrite (hex_number_cons _ _ _ _ Hx) in Hn, H.
      split; [done|]. split.
      * etrans; [|exact Hn]. apply hex_number_ge; [lia|done].
      * exists digits, tail. split; [done|]. split; [by left|done].
  - intros [(x & Hx & Hn & (digits & tail & -> & _ & Hd & Hn' & H))|(-> & Hn & H)].
    + exists (c :: digits), tail. rewrite (hex_number_cons _ _ _ _ Hx).
      split; [done|]. split; [by right|]. split; [constructor; [by exists x|done]|done].
    + exists [], (c :: l). split; [done|]. split; [by left|]. done.
Qed.

Lemma data_cons n c l :
  0 < n -> after_data n (c :: l) <-> completes (if n - 1 =? 0 then DataCarriageReturn else Data (n - 1)) l.
Proof.
  intros Hn. split.
  - intros ([|d data] & rest & E & Hl & H); [rewrite list_len_nil in Hl; lia|]. injection E as -> ->.
    rewrite list_len_cons in Hl. destruct (Z.eqb_spec (n - 1) 0).
    + destruct data; [|rewrite list_len_cons in Hl; pose proof (list_len_nonneg data); lia].
      exists (LF :: rest). split; [done|]. by exists rest.
    + exists data, rest. split; [done|]. split; [lia|done].
  - destruct (Z.eqb_spec (n - 1) 0).
    + intros (? & -> & rest & -> & H). exists [c], rest. split; [done|]. split; [rewrite list_len_cons, list_len_nil; lia|done].
    + intros (data & rest & -> & Hl & H). exists (c :: data), rest. rewrite list_len_cons.
      split; [done|]. split; [lia|done].
Qed.

Lemma size_line_after n l tail :
  size_line n l -> after_size n tail -> in_digits 0 false (l ++ tail).
Proof.
  intros (ds & bs & ex & -> & Hne & Hd & Hb & Hx & -> & Hn) H.
  exists ds, (bs ++ ex ++ CRLF ++ tail). rewrite <- !app_assoc.
  split; [done|]. split; [by right|]. split; [done|]. split; [done|]. by exists bs, ex, tail.
Qed.

Lemma chunked_body_digits l : chunked_body l <-> in_digits 0 false l.
Proof.
  split.
  - intros H. destruct H; eapply size_line_after; try done.
    + by left.
    + right. split; [done|]. by exists data, rest.
  - intros (ds & tail & -> & [E0|Hne] & Hd & Hn & (bs & ex & rest & -> & Hb & Hx & H)); [done|].
    assert (Hl : size_line (hex_number 0 ds) (ds ++ bs ++ ex ++ CRLF)) by by exists ds, bs, ex.
    replace (ds ++ bs ++ ex ++ CRLF ++ rest) with ((ds ++ bs ++ ex ++ CRLF) ++ rest) by by rewrite <- !app_assoc.
    destruct H as [[E Ht]|[Hp (data & rest' & -> & Hlen & Hr)]].
    + rewrite E in Hl. by apply chunked_last.
    + by eapply chunked_more.
Qed.

Lemma trailer_cons c l :
  trailer_section (c :: l) <->
  (c = CR /\ l = [LF]) \/
  (line_byte c /\ exists text rest, l = text ++ CRLF ++ rest /\ Forall line_byte text /\ trailer_section rest).
Proof.
  split.
  - intros H. inversion H as [E|text rest Hne Ht Hr E].
    + by left.
    + destruct text as [|t text]; [done|]. injection E as -> <-. inversion Ht; subst.
      right. split; [done|]. by exists text, rest.
  - intros [[-> ->]|[Hc (text & rest & -> & Ht & H)]]; [apply trailer_end|].
    apply (trailer_line (c :: text)); [done|by constructor|done].
Qed.

Lemma trailer_text_cons c l :
  (exists text rest, c :: l = text ++ CRLF ++ rest /\ Forall line_byte text /\ trailer_section rest) <->
  (c = CR /\ exists rest, l = LF :: rest /\ trailer_section rest) \/
  (line_byte c /\ exists text rest, l = text ++ CRLF ++ rest /\ Forall line_byte text /\ trailer_section rest).
Proof.
  split.
  - intros ([|t text] & rest & E & Ht & H); injection E as -> ->.
    + left. split; [done|]. by exists rest.
    + inversion Ht; subst. right. split; [done|]. by exists text, rest.
  - intros [[-> (rest & -> & H)]|[Hc (text & rest & -> & Ht & H)]].
    + by exists [], rest.
    + exists (c :: text), rest. split; [done|]. split; [by constructor|done].
Qed.

(** ** The tracker, one byte after the other *)

(** What the turn on [c] leaves to read. *)
Definition turn_leaves (turn : Turn) (l : list ascii) : Prop :=
  match turn with
  | Continue phase _ => completes phase l
  | Return _ (Complete _) => l = []
  | Return _ _ => False
  end.

Definition turn_entered (turn : Turn) : Prop :=
  match turn with
  | Continue phase _ => entered phase /\ phase <> InvalidPhase
  | _ => True
  end.

Lemma hex_not_other c d :
  hex_digit c = Some d -> c <> CR /\ c <> LF /\ c <> ";"%char /\ is_linear_whitespace c = false.
Proof.
  intros H. split_and!; try (intros ->; discriminate H).
  destruct (is_linear_whitespace c) eqn:E; [|done].
  apply orb_prop in E as [E|E]; apply Ascii.eqb_eq in E; subst; discriminate H.
Qed.

Lemma blank_not_other c : is_linear_whitespace c = true -> c <> CR /\ c <> LF /\ c <> ";"%char.
Proof. intros H. split_and!; intros ->; discriminate H. Qed.

Lemma some_digit (o : option Z) (P : Z -> Prop) :
  (exists d, o = Some d /\ P d) <-> match o with Some d => P d | None => False end.
Proof. destruct o; split; [intros (? & [= ->] & ?)|eauto|intros (? & ? & _)|]; done. Qed.

Lemma next_byte (c d : ascii) l (P : list ascii -> Prop) :
  (exists rest, c :: l = d :: rest /\ P rest) <-> c = d /\ P l.
Proof. split; [intros (? & [= -> ->] & ?)|intros [-> ?]; eexists]; done. Qed.

Ltac by_prop := intuition (solve [eauto|discriminate|congruence|lia]).

Ltac byte_cases c :=
  repeat match goal with
  | |- context [Ascii.eqb c ?d] => destruct (Ascii.eqb_spec c d); [subst c|]; cbn [andb negb]
  end.

Lemma size_byte_leaves v saw ws ext cr c l :
  entered (Size v saw ws ext cr) ->
  completes (Size v saw ws ext cr) (c :: l) <-> completes (size_byte v saw ws ext cr c) l.
Proof.
  intros [Hv Hs]. unfold size_byte. cbn [completes]. destruct cr.
  { rewrite line_end_cons. destruct (Ascii.eqb_spec c LF) as [->|Hc]; cbn [negb completes]; [|by_prop].
    unfold after_size. destruct (Z.eqb_spec v 0); cbn [completes]; by_prop. }
  destruct ext.
  { rewrite extension_text_cons. unfold line_byte. byte_cases c; cbn [completes]; by_prop. }
  destruct ws.
  { rewrite blanks_cons. destruct (is_linear_whitespace c) eqn:Ew.
    - pose proof (blank_not_other c Ew). cbn [completes]. by_prop.
    - byte_cases c; cbn [completes]; by_prop. }
  rewrite digits_cons by lia. rewrite blanks_cons. destruct saw.
  - destruct (Ascii.eqb_spec c CR) as [->|Hcr]; cbn [andb completes].
    { split; [|by right; by_prop].
      intros [(d & Hd & _)|(_ & _ & [[Hw _]|[[? _]|[_ H]]])]; done. }
    destruct (Ascii.eqb_spec c ";") as [->|Hsc]; cbn [andb completes].
    { split; [|by right; by_prop].
      intros [(d & Hd & _)|(_ & _ & [[Hw _]|[[_ H]|[? _]]])]; done. }
    destruct (is_linear_whitespace c) eqn:Ew; cbn [andb completes].
    { split; [|by right; by_prop].
      intros [(d & Hd & _)|(_ & _ & [[_ H]|[[? _]|[? _]]])]; [|done..].
      apply hex_not_other in Hd. by_prop. }
    rewrite some_digit. destruct (hex_digit c) as [d|] eqn:Hd; [|cbn; by_prop].
    rewrite next_value by (try apply hex_digit_range in Hd; lia).
    destruct (Z.leb_spec (v * 16 + d) (int_max U64)); cbn [completes]; by_prop.
  - rewrite !andb_false_r, some_digit. destruct (hex_digit c) as [d|] eqn:Hd; [|cbn; by_prop].
    rewrite next_value by (try apply hex_digit_range in Hd; lia).
    destruct (Z.leb_spec (v * 16 + d) (int_max U64)); cbn [completes]; by_prop.
Qed.

Lemma size_byte_entered v saw ws ext cr c :
  entered (Size v saw ws ext cr) -> entered (size_byte v saw ws ext cr c).
Proof.
  intros [Hv Hs]. unfold size_byte. destruct cr.
  { destruct (Ascii.eqb c LF); cbn [negb]; [|done]. destruct (Z.eqb_spec v 0); cbn [entered]; [done|lia]. }
  destruct ext; [repeat case_match; cbn; by_prop|].
  destruct ws; [repeat case_match; cbn; by_prop|].
  destruct saw; rewrite ?andb_true_r, ?andb_false_r.
  2: { destruct (hex_digit c) as [d|] eqn:Hd; [|done]. apply hex_digit_range in Hd.
       rewrite next_value by lia. destruct (Z.leb_spec (v * 16 + d) (int_max U64)); cbn [entered]; [|done].
       split; [lia|done]. }
  destruct (Ascii.eqb c CR); [done|]. destruct (Ascii.eqb c ";"); [done|].
  destruct (is_linear_whitespace c); [done|].
  destruct (hex_digit c) as [d|] eqn:Hd; [|done]. apply hex_digit_range in Hd.
  rewrite next_value by lia. destruct (Z.leb_spec (v * 16 + d) (int_max U64)); cbn [entered]; [|done].
  split; [lia|done].
Qed.

Lemma valid_or_return_leaves phase l : turn_leaves (valid_or_return phase) l <-> completes phase l.
Proof. by destruct phase. Qed.

Lemma valid_or_return_entered phase : entered phase -> turn_entered (valid_or_return phase).
Proof. by destruct phase. Qed.

Lemma data_turn r c :
  0 < r -> consume_turn (Data r) c [] 0 =
           Continue (if r - 1 =? 0 then DataCarriageReturn else Data (r - 1)) 1.
Proof.
  intros Hr. cbn [consume_turn]. rewrite list_len_cons, list_len_nil.
  replace (Z.min r (1 + 0)) with 1 by lia. done.
Qed.

Lemma turn_leaves_spec phase c l i :
  entered phase ->
  completes phase (c :: l) <-> turn_leaves (consume_turn phase c [] i) l.
Proof.
  intros He. destruct phase as [v saw ws ext cr|r| | |hb cr|].
  - cbn [consume_turn]. rewrite valid_or_return_leaves. by apply size_byte_leaves.
  - change (consume_turn (Data r) c [] i) with (consume_turn (Data r) c [] 0).
    rewrite data_turn by (cbn in He; lia). cbn [turn_leaves completes]. apply data_cons. cbn in He; lia.
  - cbn [consume_turn completes]. rewrite next_byte. byte_cases c; cbn [turn_leaves completes]; by_prop.
  - cbn [consume_turn completes]. unfold before_line_feed. rewrite next_byte, chunked_body_digits.
    byte_cases c; cbn [turn_leaves completes size_phase]; by_prop.
  - cbn [consume_turn completes]. destruct cr.
    + destruct hb; [rewrite next_byte|]; byte_cases c; cbn; by_prop.
    + destruct hb; [rewrite trailer_text_cons|rewrite trailer_cons]; unfold line_byte;
        byte_cases c; cbn; by_prop.
  - done.
Qed.

Lemma turn_enters phase c i : entered phase -> turn_entered (consume_turn phase c [] i).
Proof.
  intros He. destruct phase as [v saw ws ext cr|r| | |hb cr|].
  - cbn [consume_turn]. by apply valid_or_return_entered, size_byte_entered.
  - change (consume_turn (Data r) c [] i) with (consume_turn (Data r) c [] 0).
    cbn [entered] in He. rewrite data_turn by lia. cbn [turn_entered].
    destruct (Z.eqb_spec (r - 1) 0); (split; [|done]); cbn [entered]; [done|lia].
  - cbn. by byte_cases c.
  - cbn. by byte_cases c.
  - cbn. destruct cr, hb; byte_cases c; done.
  - done.
Qed.

(** The loop of [consume], a byte at a time. *)
Fixpoint run_bytes (phase : ChunkedReadPhase) (input : list ascii) (index : Z) : ChunkedReadPhase * ChunkedProgress :=
  match input with
  | [] => (phase, Incomplete)
  | c :: rest =>
      match consume_turn phase c [] index with
      | Continue phase' _ => run_bytes phase' rest (index + 1)
      | Return phase' progress => (phase', progress)
      end
  end.

Lemma run_data n : forall r input index,
  0 < r -> Z.of_nat n <= r -> (n <= length input)%nat ->
  run_bytes (Data r) input index =
  run_bytes (if r - Z.of_nat n =? 0 then DataCarriageReturn else Data (r - Z.of_nat n)) (drop n input)
    (index + Z.of_nat n).
Proof.
  induction n as [|n IH]; intros r input index Hr Hn Hl.
  { cbn [drop]. rewrite Z.sub_0_r, Z.add_0_r, (proj2 (Z.eqb_neq r 0)) by lia. done. }
  destruct input as [|c input]; [cbn in Hl; lia|]. cbn [run_bytes drop].
  change (consume_turn (Data r) c [] index) with (consume_turn (Data r) c [] 0).
  rewrite data_turn by done. destruct (Z.eqb_spec (r - 1) 0).
  - assert (n = 0)%nat as -> by lia. replace (r - Z.of_nat 1) with 0 by lia. done.
  - rewrite IH by (cbn in Hl; lia).
    replace (r - 1 - Z.of_nat n) with (r - Z.of_nat (S n)) by lia.
    by replace (index + 1 + Z.of_nat n) with (index + Z.of_nat (S n)) by lia.
Qed.

(** A turn on other bytes than data does not look at what follows, and takes
    one byte. *)
Lemma turn_one phase c rest index :
  (forall r, phase <> Data r) ->
  consume_turn phase c rest index = consume_turn phase c [] index /\
  forall phase' taken, consume_turn phase c [] index = Continue phase' taken -> taken = 1%nat.
Proof.
  intros Hd. destruct phase as [v saw ws ext cr|r| | |hb cr|]; [|by destruct (Hd r)|..];
    (split; [done|]); intros phase' taken; cbn [consume_turn].
  - destruct (size_byte v saw ws ext cr c); cbn; congruence.
  - case_match; congruence.
  - case_match; congruence.
  - repeat case_match; congruence.
  - congruence.
Qed.

Lemma turn_returns phase c index phase' progress :
  consume_turn phase c [] index = Return phase' progress ->
  progress = Complete (index + 1) \/ progress = Invalid.
Proof.
  destruct phase as [v saw ws ext cr|r| | |hb cr|]; cbn [consume_turn]; [|done|repeat case_match; naive_solver..].
  destruct (size_byte v saw ws ext cr c); cbn; naive_solver.
Qed.

Lemma consume_loop_runs fuel : forall phase input index,
  entered phase -> (length input < fuel)%nat ->
  consume_loop fuel phase input index = Some (run_bytes phase input index).
Proof.
  induction fuel as [|fuel IH]; intros phase input index He Hf; [lia|].
  destruct input as [|c rest]; [done|]. cbn [consume_loop].
  assert (Hd : (exists r, phase = Data r) \/ forall r, phase <> Data r) by (destruct phase; eauto).
  destruct Hd as [[r ->]|Hd].
  - cbn [entered consume_turn] in *. set (k := Z.min r (list_len (c :: rest))).
    assert (Hk : 1 <= k <= r /\ k <= list_len (c :: rest)).
    { subst k. rewrite list_len_cons. pose proof (list_len_nonneg rest). lia. }
    clearbody k. unfold list_len in Hk. rewrite (run_data (Z.to_nat k)) by lia.
    rewrite Z2Nat.id by lia. apply IH.
    + destruct (Z.eqb_spec (r - k) 0); cbn [entered]; [done|lia].
    + rewrite length_drop. cbn [length] in *. lia.
  - destruct (turn_one phase c rest index) as [-> Ht]; [done|]. cbn [run_bytes].
    pose proof (turn_enters phase c index He) as Hn.
    destruct (consume_turn phase c [] index) as [phase' taken|phase' progress]; [|done].
    rewrite (Ht _ _ eq_refl). change (drop 1 (c :: rest)) with rest. destruct Hn as [Hn _].
    cbn [length] in Hf. rewrite IH by (done || lia). done.
Qed.

Lemma consume_runs t input :
  entered (tracker_phase t) ->
  consume t input = Some (mkTracker (run_bytes (tracker_phase t) input 0).1, (run_bytes (tracker_phase t) input 0).2).
Proof.
  intros He. unfold consume. rewrite consume_loop_runs by (done || unfold consume_fuel; lia).
  cbn. by destruct (run_bytes _ _ _).
Qed.

(** ** Progress and the grammar *)

Lemma line_end_nonempty a b : a ++ CRLF ++ b <> [].
Proof. by destruct a. Qed.

Lemma trailer_nonempty l : trailer_section l -> l <> [].
Proof. intros H. destruct H; [done|apply line_end_nonempty]. Qed.

Lemma blanks_nil n : ~ in_blanks n [].
Proof. intros (b & x & r & E & _). rewrite app_assoc in E. by apply (line_end_nonempty (b ++ x) r). Qed.

Lemma completes_nil phase : ~ completes phase [].
Proof.
  destruct phase as [v saw ws ext cr|r| | |hb cr|]; cbn [completes].
  - destruct cr; [by intros (? & ? & _)|]. destruct ext.
    { intros (t & r & E & _). by apply (line_end_nonempty t r). }
    destruct ws; [apply blanks_nil|].
    intros (ds & tail & E & _ & _ & _ & H). symmetry in E. apply app_eq_nil in E as [-> ->].
    by apply blanks_nil in H.
  - intros (d & rest & E & _). by apply (line_end_nonempty d rest).
  - by intros (? & ? & _).
  - by intros (? & ? & _).
  - destruct cr, hb; [by intros (? & ? & _)|done| |by intros ?%trailer_nonempty].
    intros (t & r & E & _). by apply (line_end_nonempty t r).
  - by intros [].
Qed.

Lemma completes_step phase c l i :
  entered phase -> completes phase (c :: l) -> turn_leaves (consume_turn phase c [] i) l.
Proof. intros He. by apply turn_leaves_spec. Qed.

(** No chunked body is the start of another. *)
Lemma completes_prefix_free a : forall phase b,
  entered phase -> completes phase a -> completes phase (a ++ b) -> b = [].
Proof.
  induction a as [|c a IH]; intros phase b He Ha Hb; [by apply completes_nil in Ha|].
  cbn [app] in Hb. apply (completes_step _ _ _ 0 He) in Ha, Hb.
  pose proof (turn_enters phase c 0 He) as Hn.
  destruct (consume_turn phase c [] 0) as [phase' ?|? [|?|]]; cbn in *; try done.
  - destruct Hn. by eapply IH.
  - subst a. done.
Qed.

(** Every phase but the invalid one can be completed. *)
Lemma completable phase : entered phase -> phase <> InvalidPhase -> exists l, completes phase l.
Proof.
  assert (Hb : chunked_body ("0"%char :: CRLF ++ CRLF)).
  { apply (chunked_last ("0"%char :: CRLF) CRLF); [|constructor]. exists ["0"%char], [], [].
    split; [done|]. split; [done|]. split; [repeat constructor; by eexists|].
    split; [done|]. split; [by left|]. done. }
  assert (Hd : forall n, 0 <= n -> after_data n (repeat CR (Z.to_nat n) ++ CRLF ++ ("0"%char :: CRLF ++ CRLF))).
  { intros n Hn. do 2 eexists. split; [done|]. split; [|done]. unfold list_len.
    rewrite repeat_length. lia. }
  assert (Hz : forall n, 0 <= n -> exists l, after_size n l).
  { intros n Hn. destruct (decide (n = 0)) as [->|]; [exists CRLF; left; split; [done|constructor]|].
    eexists. right. split; [lia|]. apply Hd. lia. }
  intros He Hi. destruct phase as [v saw ws ext cr|r| | |hb cr|]; cbn [completes entered] in *.
  - destruct He as [Hv Hs]. destruct (Hz v) as [l Hl]; [lia|]. destruct cr; [by exists (LF :: l), l|].
    destruct ext; [by exists (CRLF ++ l), [], l|].
    assert (Hw : in_blanks v (CRLF ++ l)) by (exists [], [], l; by repeat (split; [by try left|])).
    destruct ws; [by exists (CRLF ++ l)|]. destruct saw.
    + exists (CRLF ++ l), [], (CRLF ++ l). split; [done|]. split; [by left|]. split; [done|]. split; [apply Hv|done].
    + destruct (Hs eq_refl) as [-> _]. eexists. by apply chunked_body_digits.
  - eexists. apply Hd. lia.
  - eexists (CR :: LF :: _), _. split; [done|]. by eexists.
  - eexists (LF :: _), _. split; [done|]. done.
  - destruct cr, hb; [exists (LF :: CRLF), CRLF; split; [done|constructor]|by exists [LF]| |exists CRLF; constructor].
    exists (CRLF ++ CRLF), [], CRLF. split; [done|]. split; [done|constructor].
  - done.
Qed.

(** What the run on [input] says of the words that [phase] completes. *)
Lemma run_spec input : forall phase index,
  entered phase ->
  match run_bytes phase input index with
  | (_, Complete n) =>
      exists last rest, input = last ++ rest /\ n = index + list_len last /\ completes phase last
  | (phase', Incomplete) =>
      entered phase' /\ (phase <> InvalidPhase -> phase' <> InvalidPhase) /\
      forall l, completes phase (input ++ l) <-> completes phase' l
  | (_, Invalid) => forall l, completes phase l -> ~ l `prefix_of` input /\ ~ input `prefix_of` l
  end.
Proof.
  induction input as [|c input IH]; intros phase index He; cbn [run_bytes]; [done|].
  pose proof (turn_enters phase c index He) as Hn.
  pose proof (fun l => turn_leaves_spec phase c l index He) as Hl.
  assert (Hhead : forall l, completes phase l -> l `prefix_of` c :: input \/ c :: input `prefix_of` l ->
    exists l', l = c :: l' /\ (l' `prefix_of` input \/ input `prefix_of` l')).
  { intros [|b l] Hc Hp; [by apply completes_nil in Hc|]. exists l.
    destruct Hp as [Hp|Hp]; apply prefix_cons_inv_1 in Hp as Eb; apply prefix_cons_inv_2 in Hp;
      subst; auto. }
  destruct (consume_turn phase c [] index) as [phase' taken|phase' progress] eqn:Et; cbn [turn_leaves] in Hl.
  - destruct Hn as [Hn Hv]. specialize (IH phase' (index + 1) Hn).
    destruct (run_bytes phase' input (index + 1)) as [q [|n|]].
    + destruct IH as (Hq & Hi & IH). split; [done|]. split; [auto|]. intros l. cbn [app]. by rewrite Hl, IH.
    + destruct IH as (last & rest & -> & -> & IH). exists (c :: last), rest.
      rewrite list_len_cons. split; [done|]. split; [lia|]. by apply Hl.
    + intros l Hc. split; intros Hp; destruct (Hhead l Hc) as (l' & -> & Hp'); auto;
        apply Hl, IH in Hc as [??]; by destruct Hp'.
  - destruct progress as [|n|].
    + by apply turn_returns in Et as [|].
    + apply turn_returns in Et as [[= ->]|]; [|done]. exists [c], input.
      rewrite list_len_cons, list_len_nil. split; [done|]. split; [lia|]. by apply Hl.
    + intros l Hc. split; intros Hp; destruct (Hhead l Hc) as (l' & -> & Hp'); auto; by apply Hl in Hc.
Qed.

(** ** Chunked bodies, in any number of reads *)

(** A tracker that was given [parts], none of which ended the body. *)
Definition tracker_after (parts : list (list ascii)) : option ChunkedBodyTracker :=
  fold_left
    (fun tracker part =>
       t ← tracker; '(t', progress) ← consume t part;
       match progress with Incomplete => Some t' | _ => None end)
    parts (Some ChunkedBodyTracker_new).

Lemma tracker_after_snoc parts part :
  tracker_after (parts ++ [part]) =
  (t ← tracker_after parts; '(t', progress) ← consume t part;
   match progress with Incomplete => Some t' | _ => None end).
Proof. unfold tracker_after. by rewrite fold_left_app. Qed.

(** What such a tracker still accepts. *)
Lemma tracker_after_accepts parts t :
  tracker_after parts = Some t ->
  entered (tracker_phase t) /\ tracker_phase t <> InvalidPhase /\
  forall l, chunked_body (concat parts ++ l) <-> completes (tracker_phase t) l.
Proof.
  revert t. induction parts as [|part parts IH] using rev_ind; intros t.
  { intros [= <-]. split; [done|]. split; [done|]. intros l. apply chunked_body_digits. }
  rewrite tracker_after_snoc. destruct (tracker_after parts) as [t0|]; [|done].
  destruct (IH t0 eq_refl) as (He & Hi & Hl). cbn [mbind option_bind].
  rewrite consume_runs by done. pose proof (run_spec part (tracker_phase t0) 0 He) as Hr.
  destruct (run_bytes (tracker_phase t0) part 0) as [phase [|n|]]; try done. intros [= <-].
  destruct Hr as (He' & Hi' & Hr). split; [done|]. split; [auto|]. intros l.
  rewrite concat_app. cbn [concat]. rewrite app_nil_r, <- app_assoc, Hl. apply Hr.
Qed.

Lemma chunked_body_prefix_free a b : chunked_body a -> chunked_body (a ++ b) -> b = [].
Proof.
  rewrite !chunked_body_digits. apply (completes_prefix_free a size_phase). cbn. split; [|done].
  unfold int_max. lia.
Qed.

Lemma prefix_tail {A} (seen l b : list A) : seen ++ l `prefix_of` b -> exists r, b = seen ++ r /\ l `prefix_of` r.
Proof. intros [k ->]. exists (l ++ k). split; [by rewrite app_assoc|]. by exists k. Qed.

(** A tracker that is given [input]: how its progress relates to the words of
    the grammar. *)
Lemma consume_progress parts t input :
  tracker_after parts = Some t ->
  exists t' progress, consume t input = Some (t', progress) /\
    match progress with
    | Complete n =>
        exists last rest, input = last ++ rest /\ list_len last = n /\ chunked_body (concat parts ++ last)
    | Incomplete => exists more, more <> [] /\ chunked_body (concat parts ++ input ++ more)
    | Invalid =>
        forall b, chunked_body b ->
          ~ b `prefix_of` concat parts ++ input /\ ~ concat parts ++ input `prefix_of` b
    end.
Proof.
  intros H. destruct (tracker_after_accepts _ _ H) as (He & Hi & Hl).
  rewrite consume_runs by done. do 2 eexists. split; [done|].
  pose proof (run_spec input (tracker_phase t) 0 He) as Hr.
  destruct (run_bytes (tracker_phase t) input 0) as [phase [|n|]]; cbn [snd].
  - destruct Hr as (He' & Hi' & Hr). destruct (completable phase He') as [l Hc]; [auto|].
    exists l. split; [intros ->; by apply completes_nil in Hc|]. by apply Hl, Hr.
  - destruct Hr as (last & rest & -> & -> & Hr). exists last, rest. split; [done|].
    split; [lia|]. by apply Hl.
  - intros b Hb. destruct (completable (tracker_phase t) He Hi) as [l0 Hl0].
    split; intros Hp.
    + destruct (prefix_weak_total b (concat parts) (concat parts ++ input)) as [Hs|Hs];
        [done|by apply prefix_app_r| |].
      * destruct Hs as [k Hk]. apply Hl in Hl0. rewrite Hk, <- app_assoc in Hl0.
        apply (chunked_body_prefix_free _ _ Hb), app_eq_nil in Hl0 as [-> ->].
        rewrite app_nil_r in Hk. subst b. rewrite <- (app_nil_r (concat parts)) in Hb.
        apply Hl in Hb. by apply completes_nil in Hb.
      * destruct Hs as [k ->]. apply prefix_app_inv in Hp. apply Hl in Hb. by apply Hr in Hb as [].
    + apply prefix_tail in Hp as (r & -> & Hp). apply Hl in Hb. by apply Hr in Hb as [].
Qed.

Lemma progress_exclusive parts input n :
  (exists last rest, input = last ++ rest /\ list_len last = n /\ chunked_body (concat parts ++ last)) ->
  ~ (exists more, more <> [] /\ chunked_body (concat parts ++ input ++ more)) /\
  forall m last rest, input = last ++ rest -> list_len last = m -> chunked_body (concat parts ++ last) -> m = n.
Proof.
  intros (last & rest & -> & <- & Hb). split.
  - intros (more & Hm & Hb'). rewrite <- app_assoc, app_assoc in Hb'.
    apply (chunked_body_prefix_free _ _ Hb), app_eq_nil in Hb' as [_ ->]. done.
  - intros m last' rest' E <- Hb'. f_equal.
    destruct (prefix_weak_total last last' (last ++ rest)) as [[k ->]|[k ->]];
      [by exists rest|by exists rest'| |]; rewrite app_assoc in *.
    + apply (chunked_body_prefix_free _ _ Hb) in Hb' as ->. by rewrite app_nil_r.
    + apply (chunked_body_prefix_free _ _ Hb') in Hb as ->. by rewrite app_nil_r.
Qed.

(** C21: however a chunked body is cut into reads, [consume] ends on every
    input; it reports the end after [n] bytes exactly when those bytes end a
    body of the grammar, asks for more exactly when the bytes so far can be
    completed to one by further bytes, and reports an error exactly when they
    neither contain one nor can be completed. *)
Theorem chunked_consume_exact parts t input :
  tracker_after parts = Some t ->
  exists t' progress, consume t input = Some (t', progress) /\
    (forall n, progress = Complete n <->
       exists last rest, input = last ++ rest /\ list_len last = n /\ chunked_body (concat parts ++ last)) /\
    (progress = Incomplete <-> exists more, more <> [] /\ chunked_body (concat parts ++ input ++ more)) /\
    (progress = Invalid <->
       forall b, chunked_body b ->
         ~ b `prefix_of` concat parts ++ input /\ ~ concat parts ++ input `prefix_of` b).
Proof.
  intros H. destruct (consume_progress parts t input H) as (t' & g & Hc & Hg).
  exists t', g. split; [done|].
  assert (Hlong : forall last rest, input = last ++ rest -> concat parts ++ last `prefix_of` concat parts ++ input).
  { intros last rest ->. apply prefix_app. by exists rest. }
  assert (Hshort : forall more, concat parts ++ input `prefix_of` concat parts ++ input ++ more).
  { intros more. apply prefix_app. by exists more. }
  destruct g as [|n|].
  - split; [|split].
    + intros n. split; [done|]. intros Hn. by apply progress_exclusive in Hn as [Hn _].
    + by split.
    + split; [done|]. intros Hb. destruct Hg as (more & _ & Hg). by apply Hb in Hg as [_ []].
  - split; [|split].
    + intros m. split; [by intros [= <-]|]. intros (last & rest & E & Hm & Hb).
      apply progress_exclusive in Hg as [_ Hg]. f_equal. symmetry. by eapply Hg.
    + split; [done|]. intros Hm. by apply progress_exclusive in Hg as [Hg _].
    + split; [done|]. intros Hb. destruct Hg as (last & rest & E & _ & Hg).
      apply Hb in Hg as [[] _]. by eapply Hlong.
  - split; [|split]; [intros n| |by split]; (split; [done|]).
    + intros (last & rest & E & _ & Hb). apply Hg in Hb as [[] _]. by eapply Hlong.
    + intros (more & _ & Hb). by apply Hg in Hb as [_ []].
Qed.

(** ** The end of a head *)

(** The end of a head, last byte first. *)
Definition terminator_rev : list ascii := [LF; CR; LF; CR].

Definition terminated (l : list ascii) : Prop := CRLF ++ CRLF `suffix_of` l.

(** A head: the bytes up to the first empty line. *)
Definition head_text (l : list ascii) : Prop :=
  terminated l /\ forall k, (k < length l)%nat -> ~ terminated (take k l).

Fixpoint starts (prefix l : list ascii) : bool :=
  match prefix, l with
  | [], _ => true
  | p :: prefix, c :: l => Ascii.eqb c p && starts prefix l
  | _ :: _, [] => false
  end.

Lemma starts_prefix p : forall l, starts p l = true <-> p `prefix_of` l.
Proof.
  induction p as [|b p IH]; intros [|c l]; cbn [starts].
  - split; [intros _; apply prefix_nil|done].
  - split; [intros _; apply prefix_nil|done].
  - split; [done|]. by intros ?%prefix_nil_not.
  - rewrite andb_true_iff, IH, Ascii.eqb_eq. split.
    + intros [-> H]. by apply prefix_cons.
    + intros H. split; [by apply prefix_cons_inv_1 in H|by apply prefix_cons_inv_2 in H].
Qed.

Lemma terminated_starts l : terminated l <-> starts terminator_rev (reverse l) = true.
Proof. rewrite starts_prefix. unfold terminated. by rewrite suffix_prefix_reverse. Qed.

(** How much of the end the bytes read so far, last first, show. *)
Definition terminator_state (seen : list ascii) : Z :=
  if starts [CR; LF; CR] seen then 3 else if starts [LF; CR] seen then 2
  else if starts [CR] seen then 1 else 0.

Lemma advance_state seen c :
  advance_http_head_terminator (terminator_state seen) c =
  if starts terminator_rev (c :: seen) then None else Some (terminator_state (c :: seen)).
Proof.
  assert (Hd : forall b, Ascii.eqb b CR = true -> Ascii.eqb b LF = false).
  { intros b Hb. apply Ascii.eqb_eq in Hb. by subst b. }
  unfold advance_http_head_terminator, terminator_state, terminator_rev.
  destruct seen as [|b1 [|b2 [|b3 seen]]]; cbn [starts]; rewrite ?andb_true_r, ?andb_false_r;
    repeat match goal with
    | |- context [Ascii.eqb ?b CR] =>
        let E := fresh "E" in
        destruct (Ascii.eqb b CR) eqn:E; [rewrite ?(Hd b E)|destruct (Ascii.eqb b LF)]; cbn
    | |- context [Ascii.eqb ?b LF] => destruct (Ascii.eqb b LF); cbn
    end; done.
Qed.

(** The loop over a head, after [seen]. *)
Lemma observe_head_text l : forall seen n rest,
  terminated (seen ++ l) -> l <> [] ->
  (forall k, (k < length l)%nat -> ~ terminated (seen ++ take k l)) ->
  observe_head false n (terminator_state (reverse seen)) (l ++ rest) = Some (AwaitingBodyFraming rest None).
Proof.
  induction l as [|c l IH]; intros seen n rest Ht Hne Hk; [done|]. cbn [app observe_head].
  cbn [debug_assert andb mbind option_bind]. rewrite advance_state.
  replace (c :: reverse seen) with (reverse (seen ++ [c])) by by rewrite reverse_snoc.
  destruct (starts terminator_rev (reverse (seen ++ [c]))) eqn:Es.
  - apply terminated_starts in Es. destruct l as [|d l]; [done|].
    destruct (Hk 1%nat); [cbn; lia|done].
  - destruct l as [|d l].
    { apply terminated_starts in Ht. congruence. }
    apply IH; [by rewrite <- app_assoc|done|]. intros k Hkl. rewrite <- app_assoc.
    apply (Hk (S k)). cbn [length] in *. lia.
Qed.

Lemma head_observed h rest :
  head_text h -> observe_phase false head (h ++ rest) = Some (AwaitingBodyFraming rest None).
Proof.
  intros [Ht Hk]. apply (observe_head_text h []); [done| |done].
  intros ->. destruct Ht as [k Hk']. by destruct k.
Qed.

(** ** The limiter, in any number of reads *)

Definition phase_ok (phase : Http1ReadPhase) : Prop :=
  match phase with
  | FixedBody remaining => 0 <= remaining
  | ChunkedBody t => entered (tracker_phase t)
  | _ => True
  end.

(** Phases that read alike: a body without bytes left is a new head, and
    wakers do not matter. *)
Definition reading (phase : Http1ReadPhase) : Http1ReadPhase :=
  match phase with
  | AwaitingBodyFraming trailing _ => AwaitingBodyFraming trailing None
  | FixedBody remaining => if remaining =? 0 then head else phase
  | _ => phase
  end.

Lemma observe_head_app a : forall n p b,
  observe_head false n p (a ++ b) = (q ← observe_head false n p a; observe_phase false q b).
Proof.
  induction a as [|c a IH]; intros n p b; [done|]. cbn [app observe_head debug_assert andb mbind option_bind].
  destruct (advance_http_head_terminator p c); [apply IH|done].
Qed.


Lemma observe_head_total input : forall n p, exists q, observe_head false n p input = Some q /\ phase_ok q.
Proof.
  induction input as [|c input IH]; intros n p; [by eexists|].
  cbn [observe_head debug_assert andb mbind option_bind].
  destruct (advance_http_head_terminator p c); [apply IH|by eexists].
Qed.

Definition shifted (k : Z) (progress : ChunkedProgress) : ChunkedProgress :=
  match progress with Complete n => Complete (k + n) | _ => progress end.

Lemma run_shift input : forall phase index,
  run_bytes phase input index =
  ((run_bytes phase input 0).1, shifted index (run_bytes phase input 0).2).
Proof.
  induction input as [|c input IH]; intros phase index; [done|]. cbn [run_bytes].
  assert (Ht : consume_turn phase c [] index =
    match consume_turn phase c [] 0 with
    | Continue p t => Continue p t
    | Return p g => Return p (shifted index g)
    end).
  { destruct phase as [v saw ws ext cr|r| | |hb cr|]; cbn [consume_turn];
      [by destruct (size_byte v saw ws ext cr c)|by repeat case_match..]. }
  rewrite Ht. destruct (consume_turn phase c [] 0) as [p t|p g]; [|done].
  rewrite (IH p (index + 1)), (IH p (0 + 1)). destruct (run_bytes p input 0) as [q [|n|]]; cbn; [done| |done].
  by replace (index + 1 + n) with (index + (1 + n)) by lia.
Qed.

Lemma run_app a : forall phase index b,
  run_bytes phase (a ++ b) index =
  match run_bytes phase a index with
  | (q, Incomplete) => run_bytes q b (index + list_len a)
  | r => r
  end.
Proof.
  induction a as [|c a IH]; intros phase index b.
  { cbn. by rewrite list_len_nil, Z.add_0_r. }
  cbn [app run_bytes]. rewrite list_len_cons.
  destruct (consume_turn phase c [] index) as [p t|p g] eqn:Et.
  - rewrite IH. by replace (index + 1 + list_len a) with (index + (1 + list_len a)) by lia.
  - by apply turn_returns in Et as [-> | ->].
Qed.

Lemma observe_chunked t input :
  entered (tracker_phase t) ->
  observe_phase false (ChunkedBody t) input =
  match run_bytes (tracker_phase t) input 0 with
  | (q, Incomplete) => Some (ChunkedBody (mkTracker q))
  | (_, Complete n) => observe_head false 0 0 (drop (Z.to_nat n) input)
  | (_, Invalid) => Some OpaqueBody
  end.
Proof.
  intros He. cbn [observe_phase]. rewrite consume_runs by done. cbn [mbind option_bind].
  by destruct (run_bytes (tracker_phase t) input 0).
Qed.

Lemma observe_fixed r input :
  0 <= r ->
  observe_phase false (FixedBody r) input =
  if r <? list_len input then observe_head false 0 0 (drop (Z.to_nat r) input)
  else Some (FixedBody (r - list_len input)).
Proof.
  intros Hr. cbn [observe_phase debug_assert andb mbind option_bind].
  pose proof (list_len_nonneg input). destruct (Z.ltb_spec r (list_len input)).
  - rewrite Z.min_l, (proj2 (Z.ltb_lt r _)) by lia. done.
  - by rewrite Z.min_r, Z.ltb_irrefl by lia.
Qed.

Lemma observe_total phase input :
  phase_ok phase -> exists q, observe_phase false phase input = Some q /\ phase_ok q.
Proof.
  intros Hp. destruct phase as [n p|t w|r|t|].
  - apply observe_head_total.
  - by eexists.
  - rewrite observe_fixed by done. destruct (Z.ltb_spec r (list_len input)); [apply observe_head_total|].
    eexists. split; [done|]. cbn. lia.
  - rewrite observe_chunked by done. pose proof (run_spec input (tracker_phase t) 0 Hp) as Hr.
    destruct (run_bytes (tracker_phase t) input 0) as [q [|n|]].
    + eexists. split; [done|]. apply Hr.
    + apply observe_head_total.
    + by eexists.
  - by eexists.
Qed.

(** Two reads are one. *)
Lemma observe_app phase a b q :
  phase_ok phase -> observe_phase false phase a = Some q ->
  observe_phase false q b = observe_phase false phase (a ++ b).
Proof.
  intros Hp Ha. destruct phase as [n p|t w|r|t|].
  - cbn [observe_phase] in Ha |- *. by rewrite observe_head_app, Ha.
  - injection Ha as <-. cbn. by rewrite app_assoc.
  - rewrite observe_fixed in * by done. rewrite list_len_app. pose proof (list_len_nonneg b).
    destruct (Z.ltb_spec r (list_len a)).
    + rewrite (proj2 (Z.ltb_lt r _)) by lia.
      rewrite drop_app_le by (unfold list_len in *; cbn in Hp; lia). by rewrite observe_head_app, Ha.
    + injection Ha as <-. rewrite observe_fixed by lia.
      destruct (Z.ltb_spec (r - list_len a) (list_len b)).
      * rewrite (proj2 (Z.ltb_lt r _)) by lia. rewrite drop_app_ge by (unfold list_len in *; lia).
        do 2 f_equal. unfold list_len in *. lia.
      * rewrite (proj2 (Z.ltb_ge r _)) by lia. do 2 f_equal. lia.
  - rewrite observe_chunked in * by done. rewrite run_app.
    pose proof (run_spec a (tracker_phase t) 0 Hp) as Hr.
    destruct (run_bytes (tracker_phase t) a 0) as [q' [|n|]].
    + injection Ha as <-. rewrite observe_chunked by apply Hr. cbn [tracker_phase].
      rewrite (run_shift b q' (0 + list_len a)). pose proof (run_spec b q' 0 (proj1 Hr)) as Hb.
      destruct (run_bytes q' b 0) as [q'' [|n|]]; cbn [fst snd shifted]; [done| |done].
      destruct Hb as (last & rest & -> & -> & _). pose proof (list_len_nonneg last).
      rewrite (drop_app_ge a) by (unfold list_len in *; lia). do 2 f_equal. unfold list_len in *. lia.
    + destruct Hr as (last & rest & -> & -> & _).
      rewrite drop_app_le; [by rewrite observe_head_app, Ha|].
      rewrite length_app. unfold list_len. lia.
    + by injection Ha as <-.
  - by injection Ha as <-.
Qed.

(** Phases that read alike go on alike. *)
Lemma observe_reading p input p' :
  phase_ok p -> observe_phase false p input = Some p' ->
  exists q', observe_phase false (reading p) input = Some q' /\ reading p' = reading q'.
Proof.
  intros Hp H. destruct p as [n t|t w|r|t|]; cbn [reading]; try by eexists.
  - injection H as <-. by eexists.
  - destruct (Z.eqb_spec r 0) as [->|]; [|by eexists]. rewrite observe_fixed in H by done.
    destruct input as [|c input]; [injection H as <-; by eexists|].
    rewrite (proj2 (Z.ltb_lt 0 _)) in H by (rewrite list_len_cons; pose proof (list_len_nonneg input); lia).
    by eexists.
Qed.

(** What the limiter is given: polls, the bytes of reads, and the framing of a
    request that was dispatched. *)
Inductive LimiterEvent :=
| Poll (capacity waker : Z)
| Read (part : list ascii)
| Framing (framing : RequestBodyFraming).

Definition framing_ok (framing : RequestBodyFraming) : Prop :=
  match framing with Fixed n => 0 <= n <= int_max U64 | Chunked => True end.

Definition handle (debug_assertions : bool) (l : Http1ReadLimiter) (event : LimiterEvent)
    : option Http1ReadLimiter :=
  match event with
  | Poll capacity waker => Some (allowance l capacity waker).1
  | Read part => limiter_observe debug_assertions l part
  | Framing framing => fst <$> set_body_framing debug_assertions l framing
  end.

Definition handle_all (debug_assertions : bool) (events : list LimiterEvent) : option Http1ReadLimiter :=
  fold_left (fun l event => l ← l; handle debug_assertions l event) events (Some Http1ReadLimiter_new).

Definition event_bytes (event : LimiterEvent) : list ascii :=
  match event with Read part => part | _ => [] end.

Definition event_framing (event : LimiterEvent) : list RequestBodyFraming :=
  match event with Framing framing => [framing] | _ => [] end.

Definition body_phase (framing : RequestBodyFraming) : Http1ReadPhase :=
  match framing with
  | Fixed remaining => FixedBody remaining
  | Chunked => ChunkedBody ChunkedBodyTracker_new
  end.

(** The limiter that is given all bytes, then all framings. *)
Definition reads_then_framings (stream : list ascii) (framings : list RequestBodyFraming) : option Http1ReadPhase :=
  fold_left
    (fun phase framing =>
       p ← phase;
       match p with
       | AwaitingBodyFraming trailing _ => observe_phase false (body_phase framing) trailing
       | _ => None
       end)
    framings (observe_phase false head stream).

Lemma reads_then_framings_snoc stream framings framing :
  reads_then_framings stream (framings ++ [framing]) =
  (p ← reads_then_framings stream framings;
   match p with
   | AwaitingBodyFraming trailing _ => observe_phase false (body_phase framing) trailing
   | _ => None
   end).
Proof. unfold reads_then_framings. by rewrite fold_left_app. Qed.

Lemma body_phase_ok framing : framing_ok framing -> phase_ok (body_phase framing).
Proof. destruct framing as [n|]; cbn; [lia|]. intros _. split; [unfold int_max; lia|done]. Qed.

Lemma reads_then_framings_ok framings : forall stream p,
  Forall framing_ok framings -> reads_then_framings stream framings = Some p -> phase_ok p.
Proof.
  induction framings as [|framing framings IH] using rev_ind; intros stream p Hf H.
  - destruct (observe_total head stream) as (q & Hq & Hok); [done|].
    unfold reads_then_framings in H. cbn in H, Hq. congruence.
  - rewrite reads_then_framings_snoc in H. apply Forall_app in Hf as [_ Hf].
    destruct (reads_then_framings stream framings) as [[|t w| | |]|]; try discriminate H.
    cbn in H. apply Forall_singleton, body_phase_ok in Hf.
    destruct (observe_total (body_phase framing) t Hf) as (q & Hq & Hok). congruence.
Qed.

(** Bytes that come later make no difference. *)
Lemma reads_then_framings_read framings : forall stream p part,
  Forall framing_ok framings -> reads_then_framings stream framings = Some p ->
  reads_then_framings (stream ++ part) framings = observe_phase false p part.
Proof.
  induction framings as [|framing framings IH] using rev_ind; intros stream p part Hf H.
  - symmetry. by apply (observe_app head stream part).
  - rewrite reads_then_framings_snoc in *. apply Forall_app in Hf as [Hf Hf1].
    destruct (reads_then_framings stream framings) as [q|] eqn:Hq; [|done].
    rewrite (IH _ _ _ Hf Hq). cbn [mbind option_bind] in *.
    destruct q as [|t w| | |]; try discriminate H. cbn [observe_phase mbind option_bind].
    symmetry. apply observe_app; [|done]. by apply body_phase_ok, Forall_singleton.
Qed.

Lemma debug_head debug input : forall n p q,
  observe_head debug n p input = Some q -> observe_head false n p input = Some q.
Proof.
  induction input as [|c input IH]; intros n p q; [done|]. cbn [observe_head].
  destruct (debug_assert debug _) as [[]|]; [|done].
  cbn [debug_assert andb mbind option_bind].
  destruct (advance_http_head_terminator p c); [apply IH|done].
Qed.

Lemma debug_observe debug p input q :
  observe_phase debug p input = Some q -> observe_phase false p input = Some q.
Proof.
  destruct p as [n t|t w|r|t|]; cbn [observe_phase]; [apply debug_head|done| | |done].
  - destruct (_ <? _); [|done]. destruct (debug_assert debug _) as [[]|]; [|done].
    cbn [debug_assert andb mbind option_bind]. apply debug_head.
  - destruct (consume t input) as [[t' [|n|]]|]; cbn [mbind option_bind]; try done. apply debug_head.
Qed.

Lemma allowance_reading l capacity waker :
  reading (limiter_phase (allowance l capacity waker).1) = reading (limiter_phase l) /\
  (phase_ok (limiter_phase l) -> phase_ok (limiter_phase (allowance l capacity waker).1)).
Proof.
  destruct l as [[n t|t w|r|t|]]; unfold allowance; cbn [limiter_phase]; try done.
  destruct (Z.eqb_spec r 0) as [->|]; done.
Qed.

Lemma handle_all_snoc debug events event :
  handle_all debug (events ++ [event]) = (l ← handle_all debug events; handle debug l event).
Proof. unfold handle_all. by rewrite fold_left_app. Qed.

(** Whatever the order, the limiter reads as if it was given the bytes first. *)
Lemma handle_all_reading debug events : forall l,
  handle_all debug events = Some l -> Forall framing_ok (events ≫= event_framing) ->
  phase_ok (limiter_phase l) /\
  exists p, reads_then_framings (events ≫= event_bytes) (events ≫= event_framing) = Some p /\
    reading (limiter_phase l) = reading p.
Proof.
  induction events as [|event events IH] using rev_ind; intros l H Hf.
  { injection H as <-. split; [done|]. by exists head. }
  rewrite handle_all_snoc in H. destruct (handle_all debug events) as [l0|]; [|done].
  rewrite !bind_app in *. apply Forall_app in Hf as [Hf Hf1].
  destruct (IH l0 eq_refl Hf) as (Hok & p & Hp & Hr). pose proof (reads_then_framings_ok _ _ _ Hf Hp) as Hpok.
  cbn [mbind option_bind] in H. destruct event as [capacity waker|part|framing]; cbn in H.
  - injection H as <-. cbn. rewrite !app_nil_r. destruct (allowance_reading l0 capacity waker) as [Ha Ha'].
    split; [auto|]. exists p. by rewrite Ha.
  - cbn. rewrite !app_nil_r. unfold limiter_observe in H.
    destruct (observe_phase debug (limiter_phase l0) part) as [q|] eqn:Hq; [|done]. injection H as <-.
    apply debug_observe in Hq. cbn [limiter_phase].
    destruct (observe_total _ part Hok) as (q0 & Hq0 & Hqok). assert (q0 = q) as -> by congruence.
    split; [done|]. destruct (observe_total p part Hpok) as (x & Hx & _). exists x.
    rewrite (reads_then_framings_read _ _ p part) by done. split; [done|].
    destruct (observe_reading _ _ _ Hok Hq) as (q1 & Hq1 & ->).
    destruct (observe_reading _ _ _ Hpok Hx) as (q2 & Hq2 & ->). congruence.
  - cbn. rewrite app_nil_r. rewrite reads_then_framings_snoc, Hp.
    unfold set_body_framing in H. destruct l0 as [[|t w| | |]]; try discriminate H. cbn [limiter_phase] in *.
    assert (exists w', p = AwaitingBodyFraming t w') as [w' ->].
    { destruct p as [|t' w'|r| |]; cbn in Hr; try discriminate Hr; [injection Hr as ->; eauto|].
      destruct (r =? 0); discriminate Hr. }
    cbn [mbind option_bind]. change (match framing with Fixed r => _ | Chunked => _ end) with (body_phase framing) in H.
    destruct (observe_phase debug (body_phase framing) t) as [q|] eqn:Hq; [|done]. injection H as <-.
    apply debug_observe in Hq. cbn [limiter_phase]. rewrite Hq. split; [|by eexists].
    cbn in Hf1. apply Forall_cons in Hf1 as [Hf1 _].
    destruct (observe_total (body_phase framing) t) as (q0 & Hq0 & Hqok); [by apply body_phase_ok|congruence].
Qed.

(** ** Requests *)

Record Request := mkRequest {
  request_head : list ascii;
  request_framing : RequestBodyFraming;
  request_body : list ascii
}.

Definition request_text (r : Request) : list ascii := request_head r ++ request_body r.

Definition well_formed_request (r : Request) : Prop :=
  head_text (request_head r) /\
  match request_framing r with
  | Fixed n => list_len (request_body r) = n /\ n <= int_max U64
  | Chunked => chunked_body (request_body r)
  end.

Lemma request_framing_ok r : well_formed_request r -> framing_ok (request_framing r).
Proof.
  intros [_ H]. destruct (request_framing r) as [n|]; [|done].
  pose proof (list_len_nonneg (request_body r)). cbn [framing_ok]. lia.
Qed.

(** The body of a request, and what comes after it. *)
Lemma body_observed r rest :
  well_formed_request r ->
  exists p q, observe_phase false (body_phase (request_framing r)) (request_body r ++ rest) = Some p /\
    observe_phase false head rest = Some q /\ reading p = reading q.
Proof.
  intros [_ H]. destruct (observe_total head rest) as (q & Hq & _); [done|].
  destruct (request_framing r) as [n|]; cbn [body_phase].
  - destruct H as [H _]. pose proof (list_len_nonneg (request_body r)).
    rewrite observe_fixed, list_len_app by lia. destruct rest as [|c rest].
    + rewrite list_len_nil, Z.add_0_r, H, Z.ltb_irrefl. exists (FixedBody 0), q.
      rewrite Z.sub_diag. split; [done|]. split; [done|]. by injection Hq as <-.
    + rewrite (proj2 (Z.ltb_lt n _)) by (rewrite list_len_cons; pose proof (list_len_nonneg rest); lia).
      rewrite drop_app_ge by (unfold list_len in *; lia).
      replace (Z.to_nat n - length (request_body r))%nat with 0%nat by (unfold list_len in *; lia).
      by exists q, q.
  - rewrite observe_chunked by (cbn; split; [unfold int_max; lia|done]).
    pose proof (run_spec (request_body r ++ rest) size_phase 0) as Hr. cbn [tracker_phase ChunkedBodyTracker_new].
    apply chunked_body_digits in H as Hd. change (completes size_phase (request_body r)) in Hd.
    assert (He : entered size_phase) by (cbn; split; [unfold int_max; lia|done]). specialize (Hr He).
    destruct (run_bytes size_phase _ 0) as [q' [|n|]].
    + destruct Hr as (Hq' & Hi & Hr). destruct (completable q' Hq') as [l Hl]; [by apply Hi|].
      apply Hr in Hl as Hl'. rewrite <- app_assoc in Hl'.
      apply (completes_prefix_free _ _ _ He Hd), app_eq_nil in Hl' as [_ ->]. by apply completes_nil in Hl.
    + destruct Hr as (last & rest' & E & -> & Hr).
      assert (last = request_body r) as ->.
      { destruct (prefix_weak_total last (request_body r) (request_body r ++ rest)) as [[k Hk]|[k Hk]];
          [by exists rest'|by exists rest| |].
        - rewrite Hk in Hd. apply (completes_prefix_free _ _ _ He Hr) in Hd as ->. by rewrite app_nil_r in Hk.
        - rewrite Hk in Hr. apply (completes_prefix_free _ _ _ He Hd) in Hr as ->. by rewrite app_nil_r in Hk. }
      rewrite drop_app_ge by (unfold list_len; lia).
      replace (Z.to_nat (0 + list_len (request_body r)) - length (request_body r))%nat with 0%nat
        by (unfold list_len; lia).
      by exists q, q.
    + apply Hr in Hd as [[] _]. by exists rest.
Qed.

Lemma requests_observed requests : forall tail,
  Forall well_formed_request requests ->
  exists p q, reads_then_framings (concat (map request_text requests) ++ tail) (map request_framing requests) = Some p /\
    observe_phase false head tail = Some q /\ reading p = reading q.
Proof.
  induction requests as [|r requests IH] using rev_ind; intros tail Hw.
  { destruct (observe_total head tail) as (q & Hq & _); [done|]. by exists q, q. }
  apply Forall_app in Hw as [Hw Hr]. apply Forall_cons in Hr as [Hr _].
  rewrite !map_app, concat_app. cbn [map concat]. rewrite app_nil_r, <- app_assoc.
  unfold request_text at 2. rewrite <- app_assoc.
  destruct (IH (request_head r ++ request_body r ++ tail) Hw) as (p & q & Hp & Hq & Hpq).
  rewrite reads_then_framings_snoc, Hp. rewrite head_observed in Hq by apply Hr. injection Hq as <-.
  destruct p as [|t w|x| |]; try discriminate Hpq.
  - injection Hpq as ->. by apply body_observed.
  - cbn in Hpq. destruct (x =? 0); discriminate Hpq.
Qed.

(** C22: the limiter follows the requests of a connection: when the bytes read are
    those of well-formed requests and the start of a further one, cut into
    reads in any way, and the framings of these requests were given in any
    order with the reads that the limiter did not refuse, then it stands where a
    limiter does that has read the start of the further request only. *)
Theorem limiter_follows_requests debug events l requests tail :
  handle_all debug events = Some l ->
  Forall well_formed_request requests ->
  (events ≫= event_bytes) = concat (map request_text requests) ++ tail ->
  (events ≫= event_framing) = map request_framing requests ->
  exists next, limiter_observe false Http1ReadLimiter_new tail = Some next /\
    reading (limiter_phase l) = reading (limiter_phase next).
Proof.
  intros H Hw Hb Hf. destruct (handle_all_reading debug events l H) as (_ & p & Hp & Hr).
  { rewrite Hf. apply Forall_map. eapply Forall_impl; [exact Hw|]. apply request_framing_ok. }
  rewrite Hb, Hf in Hp. destruct (requests_observed requests tail Hw) as (p' & q & Hp' & Hq & Hpq).
  exists (mkLimiter q). unfold limiter_observe. cbn [limiter_phase Http1ReadLimiter_new]. rewrite Hq.
  split; [done|]. cbn [limiter_phase]. congruence.
Qed.

(** ** Reads within the allowance *)

(** What the connection does: it reads no more than the allowance it was just
    given, and gives a framing when a head is complete. *)
Definition admissible (l : Http1ReadLimiter) (event : LimiterEvent) : Prop :=
  match event with
  | Poll capacity _ => 0 <= capacity
  | Read part => exists capacity waker n, allowance l capacity waker = (l, Some n) /\ list_len part <= n
  | Framing framing =>
      framing_ok framing /\ exists trailing waker, limiter_phase l = AwaitingBodyFraming trailing waker
  end.

Inductive limiter_reachable (debug_assertions : bool) : Http1ReadLimiter -> Prop :=
| limiter_start : limiter_reachable debug_assertions Http1ReadLimiter_new
| limiter_next l event l' :
    limiter_reachable debug_assertions l -> admissible l event ->
    handle debug_assertions l event = Some l' -> limiter_reachable debug_assertions l'.

(** No head, and nothing that waits for a framing, is longer than the limit. *)
Definition within_limit (phase : Http1ReadPhase) : Prop :=
  match phase with
  | Head n _ => 0 <= n <= MCP_HTTP_HEAD_MAX_BYTES
  | AwaitingBodyFraming trailing _ => list_len trailing <= MCP_HTTP_HEAD_MAX_BYTES
  | _ => True
  end.

Lemma observe_head_within debug input : forall n p,
  0 <= n -> n + list_len input <= MCP_HTTP_HEAD_MAX_BYTES ->
  exists q, observe_head debug n p input = Some q /\ phase_ok q /\ within_limit q.
Proof.
  induction input as [|c input IH]; intros n p Hn Hl; cbn [observe_head].
  - eexists. split; [done|]. split; [done|]. rewrite list_len_nil in Hl. cbn [within_limit]. lia.
  - rewrite list_len_cons in Hl. pose proof (list_len_nonneg input).
    rewrite (proj2 (Z.leb_le (n + 1) _)) by lia. unfold debug_assert. rewrite andb_false_r.
    cbn [mbind option_bind].
    destruct (advance_http_head_terminator p c); [apply IH; lia|].
    eexists. split; [done|]. split; [done|]. cbn [within_limit]. lia.
Qed.

Lemma list_len_drop {A} n (l : list A) : list_len (drop n l) <= list_len l.
Proof. unfold list_len. rewrite length_drop. lia. Qed.

Lemma observe_body_within debug p input :
  phase_ok p -> list_len input <= MCP_HTTP_HEAD_MAX_BYTES ->
  match p with FixedBody _ | ChunkedBody _ | OpaqueBody => True | _ => False end ->
  exists q, observe_phase debug p input = Some q /\ phase_ok q /\ within_limit q.
Proof.
  intros Hp Hl. destruct p as [| |r|t|]; try done; intros _; cbn [observe_phase].
  - cbn [phase_ok] in Hp. pose proof (list_len_nonneg input).
    destruct (Z.ltb_spec (Z.min r (list_len input)) (list_len input)).
    + rewrite Z.min_l, Z.sub_diag by lia. unfold debug_assert. rewrite andb_false_r.
      cbn [mbind option_bind]. apply observe_head_within; [done|].
      pose proof (list_len_drop (Z.to_nat r) input). lia.
    + eexists. split; [done|]. split; [|done]. cbn [phase_ok]. lia.
  - rewrite consume_runs by done. cbn [mbind option_bind].
    pose proof (run_spec input (tracker_phase t) 0 Hp) as Hr.
    destruct (run_bytes (tracker_phase t) input 0) as [q [|n|]]; cbn [fst snd].
    + eexists. split; [done|]. split; [apply Hr|done].
    + apply observe_head_within; [done|]. pose proof (list_len_drop (Z.to_nat n) input). lia.
    + by eexists.
  - by eexists.
Qed.

Lemma allowance_within l capacity waker :
  within_limit (limiter_phase l) -> within_limit (limiter_phase (allowance l capacity waker).1).
Proof.
  destruct l as [[n t|t w|r|t|]]; unfold allowance; cbn [limiter_phase]; try done.
  destruct (Z.eqb_spec r 0); [|done]. cbn. unfold MCP_HTTP_HEAD_MAX_BYTES. lia.
Qed.

Lemma handle_within debug l event :
  phase_ok (limiter_phase l) -> within_limit (limiter_phase l) -> admissible l event ->
  exists l', handle debug l event = Some l' /\ phase_ok (limiter_phase l') /\ within_limit (limiter_phase l').
Proof.
  intros Hok Hw Ha. destruct event as [capacity waker|part|framing]; cbn [handle].
  - eexists. split; [done|]. split; [by apply allowance_reading|by apply allowance_within].
  - destruct Ha as (capacity & waker & n & Ha & Hn). unfold limiter_observe.
    assert (Hq : exists q, observe_phase debug (limiter_phase l) part = Some q /\ phase_ok q /\ within_limit q).
    { destruct l as [[m t|t w|r|t|]]; unfold allowance in Ha; cbn [limiter_phase] in *.
      - injection Ha as <-. cbn [within_limit] in Hw.
        unfold saturating_sub in Hn. rewrite (Z.min_r (int_max Usize)) in Hn
          by (unfold int_max, MCP_HTTP_HEAD_MAX_BYTES in *; lia).
        apply observe_head_within; cbn [int_min] in Hn; lia.
      - discriminate Ha.
      - destruct (Z.eqb_spec r 0); [discriminate Ha|]. injection Ha as <-. cbn [phase_ok] in Hok.
        cbn [observe_phase]. rewrite Z.min_r, Z.ltb_irrefl by lia.
        eexists. split; [done|]. split; [|done]. cbn [phase_ok]. lia.
      - injection Ha as <-. apply observe_body_within; [done|lia|done].
      - by eexists. }
    destruct Hq as (q & -> & Hq). by exists (mkLimiter q).
  - destruct Ha as [Hf (t & w & Ht)]. unfold set_body_framing. rewrite Ht in *.
    change (match framing with Fixed r => _ | Chunked => _ end) with (body_phase framing).
    destruct (observe_body_within debug (body_phase framing) t) as (q & -> & Hq);
      [by apply body_phase_ok|done|by destruct framing|]. by exists (mkLimiter q).
Qed.

(** As long as the connection reads within the allowance it was given and
    gives a framing only when a head is complete, every operation of the
    limiter ends without a panic, in debug builds as well, and neither a head
    nor the bytes kept behind one exceed the limit. *)
Theorem limiter_within_bounds debug l event :
  limiter_reachable debug l -> admissible l event ->
  within_limit (limiter_phase l) /\
  exists l', handle debug l event = Some l' /\ within_limit (limiter_phase l').
Proof.
  intros Hl Ha.
  assert (H : phase_ok (limiter_phase l) /\ within_limit (limiter_phase l)).
  { clear Ha. induction Hl as [|l event' l' _ IH Ha H]; [cbn; unfold MCP_HTTP_HEAD_MAX_BYTES; split; [done|lia]|].
    destruct IH as [Hok Hw]. destruct (handle_within debug l event' Hok Hw Ha) as (l2 & H2 & H3). congruence. }
  destruct H as [Hok Hw]. split; [done|].
  destruct (handle_within debug l event Hok Hw Ha) as (l' & H & _ & Hw'). by exists l'.
Qed.

(** ** Witnesses *)

Definition terminated_b (l : list ascii) : bool := starts terminator_rev (reverse l).

Definition head_text_b (l : list ascii) : bool :=
  terminated_b l && forallb (fun k => negb (terminated_b (take k l))) (seq 0 (length l)).

Lemma head_text_true l : head_text_b l = true -> head_text l.
Proof.
  intros [Ht Hk]%andb_prop. split; [by apply terminated_starts|].
  intros k Hkl Hc. apply terminated_starts in Hc. rewrite forallb_forall in Hk.
  specialize (Hk k). unfold terminated_b in Hk. rewrite Hc in Hk.
  discriminate Hk. apply in_seq. lia.
Qed.

Definition sample_head (line : string) : list ascii := bytes line ++ CRLF ++ bytes "Host: x" ++ CRLF ++ CRLF.

Definition sample_body : list ascii :=
  bytes "4;a=b" ++ CRLF ++ bytes "Wiki" ++ CRLF ++ bytes "0" ++ CRLF ++ bytes "T: v" ++ CRLF ++ CRLF.

Lemma chunked_consume_exact_witness :
  let parts := [take 3 sample_body; take 9 (drop 3 sample_body)] in
  exists t' progress,
    (t ← tracker_after parts; consume t (drop 12 sample_body ++ bytes "GET")) = Some (t', progress) /\
    (progress = Invalid <->
       forall b, chunked_body b ->
         ~ b `prefix_of` concat parts ++ drop 12 sample_body ++ bytes "GET" /\
         ~ concat parts ++ drop 12 sample_body ++ bytes "GET" `prefix_of` b) /\
    progress = Complete 12.
Proof.
  cbv zeta. destruct (tracker_after _) as [t|] eqn:Ht; [|vm_compute in Ht; discriminate Ht].
  destruct (chunked_consume_exact _ t (drop 12 sample_body ++ bytes "GET") Ht) as (t' & g & Hc & _ & _ & Hi).
  exists t', g. split; [exact Hc|]. split; [exact Hi|].
  vm_compute in Ht. injection Ht as <-. vm_compute in Hc. injection Hc as _ <-. reflexivity.
Defined.

Definition sample_requests : list Request :=
  [mkRequest (sample_head "POST /a HTTP/1.1") (Fixed 3) (bytes "abc");
   mkRequest (sample_head "POST /b HTTP/1.1") Chunked sample_body].

Definition sample_events : list LimiterEvent :=
  let h1 := sample_head "POST /a HTTP/1.1" in
  let h2 := sample_head "POST /b HTTP/1.1" in
  [Poll 100 1; Read (take 10 h1); Read (drop 10 h1 ++ bytes "a"); Poll 100 1; Framing (Fixed 3); Read (bytes "bc");
   Poll 100 2; Read (h2 ++ take 7 sample_body); Framing Chunked; Read (drop 7 sample_body ++ bytes "GET")].

Lemma limiter_follows_requests_witness :
  exists l next, handle_all true sample_events = Some l /\
    limiter_observe false Http1ReadLimiter_new (bytes "GET") = Some next /\
    reading (limiter_phase l) = reading (limiter_phase next).
Proof.
  destruct (handle_all true sample_events) as [l|] eqn:Hl; [|vm_compute in Hl; discriminate Hl].
  exists l. destruct (limiter_follows_requests true sample_events l sample_requests (bytes "GET")) as (next & Hn & Hr).
  - exact Hl.
  - apply Forall_cons. split; [split; [apply head_text_true; reflexivity|split; [reflexivity|unfold int_max; lia]]|].
    apply Forall_cons. split; [split; [apply head_text_true; reflexivity|]|constructor].
    change (chunked_body ((bytes "4;a=b" ++ CRLF) ++ bytes "Wiki" ++ CRLF ++ (bytes "0" ++ CRLF) ++
      (bytes "T: v" ++ CRLF ++ CRLF))).
    apply (chunked_more 4); [| lia|reflexivity|apply chunked_last].
    + exists (bytes "4"), [], (bytes ";a=b"). split; [reflexivity|]. split; [discriminate|].
      split; [repeat constructor; by eexists|]. split; [constructor|]. split; [|split; [reflexivity|unfold int_max; lia]].
      right. exists (bytes "a=b"). split; [reflexivity|]. repeat constructor; discriminate.
    + exists (bytes "0"), [], []. split; [reflexivity|]. split; [discriminate|].
      split; [repeat constructor; by eexists|]. split; [constructor|]. split; [by left|]. split; [reflexivity|].
      unfold int_max; lia.
    + apply trailer_line; [discriminate|repeat constructor; discriminate|constructor].
  - reflexivity.
  - reflexivity.
  - by exists next.
Defined.

Lemma limiter_within_bounds_witness :
  within_limit head /\
  exists l', handle true Http1ReadLimiter_new (Read (sample_head "GET / HTTP/1.1")) = Some l' /\
    within_limit (limiter_phase l').
Proof.
  apply (limiter_within_bounds true Http1ReadLimiter_new (Read (sample_head "GET / HTTP/1.1"))).
  - constructor.
  - exists 100, 0, 100. split; [reflexivity|]. vm_compute. discriminate.
Defined.
