(* ===== verification/ActResult.v ===== *)
(** * The result channel: slots, submissions and settlement

    Models the epochs of [troupe-agent-runtime/src/result/mod.rs]: a session
    arms one result slot at a time, requests of the agent submit values to it, and
    the turn settles, cancels or disarms it.

    An [Arc] is a number: slots are the indices of [world_slots], and a schema or
    a validation bridge carries its own.  Every operation below is one critical
    section under the lock of the epoch; what it tells the diagnostics and the
    validation bridge is logged in [world_effects].  [None] is a panic. *)

From S2P Require Import Prelude Wire ActSchema.

Definition MAX_REPAIRABLE_INVALID_CALLS : Z := 8.
Definition VALIDATION_DETAIL_MAX_ISSUES : Z := 16.
Definition VALIDATION_DETAIL_MAX_BYTES : Z := 32 * 1024.

(** What the slots carry but never look at. *)
Class ResultHost := {
  CallbackError : Type;
  TurnDiagnosticContext : Type;
}.

(** [serde_json::to_vec] of a value. *)
Class JsonText `{SerdeJson} := { to_vec : JsonValue -> string }.

(** ** The text of an invalid result *)

Section Detail.
Context `{JsonText}.

Definition tool_result_value (id : JsonValue) (is_error : bool) (text : string) : JsonValue :=
  Json_Object
    [("id", id); ("jsonrpc", Json_String "2.0");
     ("result",
      Json_Object
        [("content", Json_Array [Json_Object [("text", Json_String text); ("type", Json_String "text")]]);
         ("isError", Json_Bool is_error)])].

Definition issue_line (issue : ValidationIssue) : string :=
  newline +:+ (if String.eqb (issue_path issue) EmptyString then "/" else issue_path issue) +:+ ": " +:+
  issue_message issue.

Definition validation_tool_text (issues : list ValidationIssue) (truncated : bool) (invalid_calls : Z) : string :=
  "result validation failed (invalid call " +:+ u64_to_string invalid_calls +:+ "/" +:+
  u64_to_string MAX_REPAIRABLE_INVALID_CALLS +:+ "):" +:+
  String.concat EmptyString (map issue_line issues) +:+
  (if truncated then newline +:+ "additional validation issues were truncated" else EmptyString).

Definition encoded_validation_response_size (id : JsonValue) (issues : list ValidationIssue) (truncated : bool)
    (invalid_calls : Z) : Z :=
  str_len (to_vec (tool_result_value id true (validation_tool_text issues truncated invalid_calls))).

(** A subtraction of lengths; [None] is its overflow. *)
Definition len_sub (a b : Z) : option Z := if b <=? a then Some (a - b) else None.

Definition encoded_generated_validation_response_size (issues : list ValidationIssue) (truncated : bool)
    (invalid_calls : Z) : option Z :=
  len_sub (encoded_validation_response_size Json_Null issues truncated invalid_calls)
    (str_len (to_vec Json_Null)).

Definition fits_detail (issues : list ValidationIssue) (truncated : bool) (invalid_calls : Z) : option bool :=
  size ← encoded_generated_validation_response_size issues truncated invalid_calls;
  Some (size <=? VALIDATION_DETAIL_MAX_BYTES).

(** [char_indices] of a UTF-8 string: where its scalars begin. *)
Fixpoint char_indices (index : nat) (s : list ascii) : list nat :=
  match s with
  | [] => []
  | c :: s => if is_continuation c then char_indices (S index) s else index :: char_indices (S index) s
  end.

Definition char_boundaries (original : string) : list nat :=
  let boundaries := char_indices 0 (bytes original) in
  if bool_decide (List.last boundaries (S (length (bytes original))) = length (bytes original)) then boundaries
  else boundaries ++ [length (bytes original)].

Definition cut (original : string) (at_ : nat) : string := of_bytes (take at_ (bytes original)).

Definition with_message (issue : ValidationIssue) (message : string) : ValidationIssue :=
  mkIssue (issue_path issue) (issue_code issue) message.

(** The binary search for the last boundary that fits; [fuel] bounds its
    turns. *)
Fixpoint search_boundary (fuel : nat) (fits_at : nat -> option bool) (low high best : nat) : option nat :=
  if (low <? high)%nat then
    match fuel with
    | O => None
    | S fuel =>
        let middle := (low + (high - low) / 2)%nat in
        ok ← fits_at middle;
        if (ok : bool) then search_boundary fuel fits_at (S middle) high middle
        else search_boundary fuel fits_at low middle best
    end
  else Some best.

Definition fits_cut (before : list ValidationIssue) (last : ValidationIssue) (boundaries : list nat)
    (invalid_calls : Z) (middle : nat) : option bool :=
  at_ ← boundaries !! middle;
  fits_detail (before ++ [with_message last (cut (issue_message last) at_)]) true invalid_calls.

(** The last issue, with as much of its message as fits. *)
Definition cut_last_message (before : list ValidationIssue) (last : ValidationIssue) (invalid_calls : Z)
    : option (list ValidationIssue) :=
  let boundaries := char_boundaries (issue_message last) in
  best ← search_boundary (length boundaries) (fits_cut before last boundaries invalid_calls)
           0 (length boundaries) 0;
  at_ ← boundaries !! best;
  Some (before ++ [with_message last (cut (issue_message last) at_)]).

(** The loop over the issues that are popped, the last one first. *)
Fixpoint bound_loop (reversed : list ValidationIssue) (invalid_calls : Z) : option (list ValidationIssue) :=
  let issues := rev reversed in
  ok ← fits_detail issues true invalid_calls;
  if (ok : bool) then Some issues
  else
    match reversed with
    | [] => Some issues
    | last :: before =>
        ok ← fits_detail (rev before ++ [with_message last EmptyString]) true invalid_calls;
        if (ok : bool) then cut_last_message (rev before) last invalid_calls
        else bound_loop before invalid_calls
    end.

Definition bound_validation_issues (issues : list ValidationIssue) (truncated : bool) (invalid_calls : Z)
    : option (list ValidationIssue * bool) :=
  let '(issues, truncated) :=
    if VALIDATION_DETAIL_MAX_ISSUES <? list_len issues then
      (take (Z.to_nat VALIDATION_DETAIL_MAX_ISSUES) issues, true)
    else (issues, truncated) in
  ok ← fits_detail issues truncated invalid_calls;
  if (ok : bool) then Some (issues, truncated)
  else bounded ← bound_loop (rev issues) invalid_calls; Some (bounded, true).

End Detail.

(** ** Slots, epochs and leases *)

(** An [Arc<CompiledActSchema>]: its identity and what it points to. *)
Record SchemaArc := mkSchemaArc { schema_ptr : Z; schema_root : ObjectContract }.

Definition Issues : Type := list ValidationIssue * bool.

Section Slots.
Context `{JsonText, ResultHost}.

Inductive ResultSlotState :=
| Slot_Awaiting (schema : SchemaArc) (validation_bridge : option Z) (invalid_calls : Z) (last_invalid : option Issues)
| Slot_Accepted (value : ValidatedActValue)
| Slot_Rejected (invalid_calls : Z) (issues : list ValidationIssue) (truncated : bool)
| Slot_Settling (callback_error : option CallbackError)
| Slot_Disarmed.

Record ResultSlot := mkSlot {
  slot_session_generation : Z;
  slot_arm_generation : Z;
  slot_operation_id : string;
  slot_turn_index : Z;
  slot_diagnostic_context : option TurnDiagnosticContext;
  slot_state : ResultSlotState;
  slot_failure : bool;
}.

Definition with_state (slot : ResultSlot) (state : ResultSlotState) : ResultSlot :=
  mkSlot (slot_session_generation slot) (slot_arm_generation slot) (slot_operation_id slot)
    (slot_turn_index slot) (slot_diagnostic_context slot) state (slot_failure slot).

Definition with_failure (slot : ResultSlot) : ResultSlot :=
  mkSlot (slot_session_generation slot) (slot_arm_generation slot) (slot_operation_id slot)
    (slot_turn_index slot) (slot_diagnostic_context slot) (slot_state slot) true.

Record ResultRouteEpoch := mkEpoch {
  epoch_session_generation : Z;
  epoch_revoked : bool;
  epoch_next_arm_generation : Z;
  epoch_active : option (Z * nat);
}.

(** What an operation tells others, of the slot whose number comes first. *)
Inductive Effect :=
| ObserveSubmitted (slot : nat)
| ObserveMissing (slot : nat)
| ObserveValidationRejected (slot : nat) (invalid_calls : Z) (issues : list ValidationIssue) (truncated : bool)
| ObserveRepairRequested (slot : nat) (invalid_calls : Z)
| ObserveAccepted (slot : nat)
| BeginClose (slot : nat) (bridge : Z)
| Close (slot : nat) (bridge : Z).

Record ResultWorld := mkWorld {
  world_epoch : ResultRouteEpoch;
  world_slots : list ResultSlot;
  world_effects : list Effect;
}.

Record ResultRequestLease := mkRequestLease {
  lease_session_generation : Z;
  lease_active_result : option (Z * nat);
}.

Record ArmedResultLease := mkArmedLease {
  armed_arm_generation : Z;
  armed_slot : nat;
  armed_armed : bool;
}.

Inductive ResultArmError := ArmError_RouteRevoked | ArmError_AlreadyArmed | ArmError_GenerationExhausted.

Inductive ResultSubmission :=
| Submission_NoActiveSlot
| Submission_TurnUnavailable
| Submission_Invalid (issues : list ValidationIssue) (truncated : bool) (invalid_calls : Z)
| Submission_Rejected (invalid_calls : Z)
| Submission_Accepted
| Submission_AlreadySubmitted
| Submission_ResultContractRejected
| Submission_HybridValidationRequired
| Submission_SchemaCallbackFailed.

Inductive ResultAtSettlement :=
| Settlement_Accepted (value : ValidatedActValue)
| Settlement_Missing
| Settlement_Rejected (issues : list ValidationIssue) (invalid_calls : Z) (truncated : bool)
| Settlement_SchemaCallbackFailed (error : CallbackError)
| Settlement_Unavailable.

Inductive ResultFailureAtHandoff :=
| Handoff_Rejected (issues : list ValidationIssue) (invalid_calls : Z) (truncated : bool)
| Handoff_SchemaCallbackFailed (error : CallbackError).

Inductive ResultCancelHandoff := Cancel_Cancelled | Cancel_FailurePreceded | Cancel_Unavailable.

(** The bridge and the slot whose it is. *)
Record PreparedResultSettlement := mkPrepared {
  prepared_outcome : option ResultAtSettlement;
  prepared_validation_bridge : option (nat * Z);
}.

Definition state_validation_bridge (self : ResultSlotState) : option Z :=
  match self with
  | Slot_Awaiting _ validation_bridge _ _ => validation_bridge
  | Slot_Accepted _ | Slot_Rejected _ _ _ | Slot_Settling _ | Slot_Disarmed => None
  end.

(** *** The world *)

Definition ResultRouteEpoch_new (session_generation : Z) : ResultRouteEpoch :=
  mkEpoch session_generation false 0 None.

Definition ResultWorld_new (session_generation : Z) : ResultWorld :=
  mkWorld (ResultRouteEpoch_new session_generation) [] [].

Definition log (w : ResultWorld) (effects : list Effect) : ResultWorld :=
  mkWorld (world_epoch w) (world_slots w) (world_effects w ++ effects).

Definition set_epoch (w : ResultWorld) (epoch : ResultRouteEpoch) : ResultWorld :=
  mkWorld epoch (world_slots w) (world_effects w).

Definition set_slot (w : ResultWorld) (i : nat) (slot : ResultSlot) : ResultWorld :=
  mkWorld (world_epoch w) (<[i := slot]> (world_slots w)) (world_effects w).

Definition without_active (epoch : ResultRouteEpoch) : ResultRouteEpoch :=
  mkEpoch (epoch_session_generation epoch) (epoch_revoked epoch) (epoch_next_arm_generation epoch) None.

Definition begin_close (i : nat) (bridge : option Z) : list Effect :=
  match bridge with Some b => [BeginClose i b] | None => [] end.

Definition close (i : nat) (bridge : option Z) : list Effect :=
  match bridge with Some b => [Close i b] | None => [] end.

(** [active] is the armed slot [expected]. *)
Definition is_active (epoch : ResultRouteEpoch) (arm_generation : Z) (expected : nat) : bool :=
  match epoch_active epoch with
  | Some (generation, slot) => (generation =? arm_generation) && (slot =? expected)%nat
  | None => false
  end.

(** *** The epoch *)

Definition arm (w : ResultWorld) (operation_id : string) (turn_index : Z) (schema : SchemaArc)
    (validation_bridge : option Z) (diagnostic_context : option TurnDiagnosticContext)
    : ResultWorld * result ArmedResultLease ResultArmError :=
  let epoch := world_epoch w in
  if epoch_revoked epoch then (w, Err ArmError_RouteRevoked)
  else
    match epoch_active epoch with
    | Some _ => (w, Err ArmError_AlreadyArmed)
    | None =>
        match checked_add U64 (epoch_next_arm_generation epoch) 1 with
        | None => (w, Err ArmError_GenerationExhausted)
        | Some arm_generation =>
            let slot := mkSlot (epoch_session_generation epoch) arm_generation operation_id turn_index
                          diagnostic_context (Slot_Awaiting schema validation_bridge 0 None) false in
            let i := length (world_slots w) in
            (mkWorld
               (mkEpoch (epoch_session_generation epoch) (epoch_revoked epoch) arm_generation
                  (Some (arm_generation, i)))
               (world_slots w ++ [slot]) (world_effects w),
             Ok (mkArmedLease arm_generation i true))
        end
    end.

Definition acquire_request (w : ResultWorld) : ResultRequestLease :=
  let epoch := world_epoch w in
  mkRequestLease (epoch_session_generation epoch)
    (if negb (epoch_revoked epoch) then epoch_active epoch else None).

Definition disarm (w : ResultWorld) (arm_generation : Z) (expected : nat) : option ResultWorld :=
  if negb (is_active (world_epoch w) arm_generation expected) then Some w
  else
    slot ← world_slots w !! expected;
    let validation_bridge := state_validation_bridge (slot_state slot) in
    let w := log w (begin_close expected validation_bridge) in
    let w := set_slot w expected (with_state slot Slot_Disarmed) in
    let w := set_epoch w (without_active (world_epoch w)) in
    Some (log w (close expected validation_bridge)).

(** [None] is the failed [expect]. *)
Definition result_at_settlement (state : ResultSlotState) : option ResultAtSettlement :=
  match state with
  | Slot_Awaiting _ _ invalid_calls last_invalid =>
      if invalid_calls =? 0 then Some Settlement_Missing
      else
        '(issues, truncated) ← last_invalid;
        Some (Settlement_Rejected issues invalid_calls truncated)
  | Slot_Accepted value => Some (Settlement_Accepted value)
  | Slot_Rejected invalid_calls issues truncated => Some (Settlement_Rejected issues invalid_calls truncated)
  | Slot_Settling callback_error =>
      Some (match callback_error with
            | Some error => Settlement_SchemaCallbackFailed error
            | None => Settlement_Unavailable
            end)
  | Slot_Disarmed => Some Settlement_Unavailable
  end.

Definition awaits_first (state : ResultSlotState) : bool :=
  match state with Slot_Awaiting _ _ invalid_calls _ => invalid_calls =? 0 | _ => false end.

Definition prepare_settlement (w : ResultWorld) (arm_generation : Z) (expected : nat)
    : option (ResultWorld * PreparedResultSettlement) :=
  if negb (is_active (world_epoch w) arm_generation expected) then
    Some (w, mkPrepared (Some Settlement_Unavailable) None)
  else
    slot ← world_slots w !! expected;
    let state := slot_state slot in
    let validation_bridge := state_validation_bridge state in
    let w := log w (begin_close expected validation_bridge) in
    let w := set_slot w expected (with_state slot Slot_Disarmed) in
    let w := log w (if awaits_first state then [ObserveMissing expected] else []) in
    let w := set_epoch w (without_active (world_epoch w)) in
    outcome ← result_at_settlement state;
    Some (w, mkPrepared (Some outcome) (bridge ← validation_bridge; Some (expected, bridge))).

Definition begin_cancellation (w : ResultWorld) (arm_generation : Z) (expected : nat)
    : option (ResultWorld * ResultCancelHandoff) :=
  let epoch := world_epoch w in
  if epoch_revoked epoch || negb (is_active epoch arm_generation expected) then Some (w, Cancel_Unavailable)
  else
    slot ← world_slots w !! expected;
    let settling := with_state slot (Slot_Settling None) in
    Some
      (match slot_state slot with
       | Slot_Awaiting _ validation_bridge _ _ =>
           let w := log w (begin_close expected validation_bridge) in
           let w := set_slot w expected settling in
           (log w (close expected validation_bridge), Cancel_Cancelled)
       | Slot_Accepted _ => (set_slot w expected settling, Cancel_Cancelled)
       | Slot_Rejected _ _ _ | Slot_Settling (Some _) => (w, Cancel_FailurePreceded)
       | Slot_Settling None => (w, Cancel_Cancelled)
       | Slot_Disarmed => (w, Cancel_Unavailable)
       end).

Definition take_failure_for_handoff (w : ResultWorld) (arm_generation : Z) (expected : nat)
    : option (ResultWorld * option ResultFailureAtHandoff) :=
  let epoch := world_epoch w in
  if epoch_revoked epoch || negb (is_active epoch arm_generation expected) then Some (w, None)
  else
    slot ← world_slots w !! expected;
    let settling := with_state slot (Slot_Settling None) in
    Some
      (match slot_state slot with
       | Slot_Rejected invalid_calls issues truncated =>
           (set_slot w expected settling, Some (Handoff_Rejected issues invalid_calls truncated))
       | Slot_Settling callback_error =>
           (set_slot w expected settling, error ← callback_error; Some (Handoff_SchemaCallbackFailed error))
       | Slot_Awaiting _ _ _ _ | Slot_Accepted _ | Slot_Disarmed => (w, None)
       end).

Definition epoch_revoke (w : ResultWorld) : option ResultWorld :=
  let epoch := world_epoch w in
  let revoked := mkEpoch (epoch_session_generation epoch) true (epoch_next_arm_generation epoch) None in
  match epoch_active epoch with
  | None => Some (set_epoch w revoked)
  | Some (_, i) =>
      slot ← world_slots w !! i;
      let validation_bridge := state_validation_bridge (slot_state slot) in
      let w := log w (begin_close i validation_bridge) in
      let w := set_slot (set_epoch w revoked) i (with_state slot Slot_Disarmed) in
      Some (log w (close i validation_bridge))
  end.

(** *** Prepared settlements and armed leases *)

Definition take_outcome (self : PreparedResultSettlement)
    : option (PreparedResultSettlement * ResultAtSettlement) :=
  outcome ← prepared_outcome self; Some (mkPrepared None (prepared_validation_bridge self), outcome).

Definition take_committed_failure (self : PreparedResultSettlement)
    : PreparedResultSettlement * option ResultFailureAtHandoff :=
  let taken := mkPrepared None (prepared_validation_bridge self) in
  match prepared_outcome self with
  | None => (self, None)
  | Some (Settlement_Rejected issues invalid_calls truncated) =>
      if MAX_REPAIRABLE_INVALID_CALLS <? invalid_calls then
        (taken, Some (Handoff_Rejected issues invalid_calls truncated))
      else (self, None)
  | Some (Settlement_SchemaCallbackFailed error) => (taken, Some (Handoff_SchemaCallbackFailed error))
  | Some _ => (self, None)
  end.

Definition discard_outcome (self : PreparedResultSettlement) : PreparedResultSettlement :=
  mkPrepared None (prepared_validation_bridge self).

Definition prepared_finish (w : ResultWorld) (self : PreparedResultSettlement) : ResultWorld :=
  match prepared_validation_bridge self with
  | Some (i, bridge) => log w [Close i bridge]
  | None => w
  end.

Definition lease_begin_cancellation (w : ResultWorld) (self : ArmedResultLease)
    : option (ResultWorld * ResultCancelHandoff) :=
  if negb (armed_armed self) then Some (w, Cancel_Unavailable)
  else begin_cancellation w (armed_arm_generation self) (armed_slot self).

Definition lease_take_failure (w : ResultWorld) (self : ArmedResultLease)
    : option (ResultWorld * option ResultFailureAtHandoff) :=
  if armed_armed self then take_failure_for_handoff w (armed_arm_generation self) (armed_slot self)
  else Some (w, None).

Definition unarmed (self : ArmedResultLease) : ArmedResultLease :=
  mkArmedLease (armed_arm_generation self) (armed_slot self) false.

Definition lease_prepare_settlement (w : ResultWorld) (self : ArmedResultLease)
    : option (ResultWorld * ArmedResultLease * PreparedResultSettlement) :=
  '(w, prepared) ←
    (if armed_armed self then prepare_settlement w (armed_arm_generation self) (armed_slot self)
     else Some (w, mkPrepared (Some Settlement_Unavailable) None));
  Some (w, unarmed self, prepared).

(** [release], which [disarm] and [drop] of the lease call. *)
Definition lease_release (w : ResultWorld) (self : ArmedResultLease) : option (ResultWorld * ArmedResultLease) :=
  if armed_armed self then
    w ← disarm w (armed_arm_generation self) (armed_slot self); Some (w, unarmed self)
  else Some (w, self).

(** ** Submissions *)

(** [with_current_state]: [apply] gets the slot the lease was acquired for, if
    it is still the active one, and gives its new state with what it logs. *)
Definition with_current_state {T} (w : ResultWorld) (self : ResultRequestLease)
    (apply : nat -> ResultSlot -> option (ResultSlotState * list Effect * T))
    : option (ResultWorld * result T ResultSubmission) :=
  match lease_active_result self with
  | None => Some (w, Err Submission_NoActiveSlot)
  | Some (arm_generation, expected) =>
      let epoch := world_epoch w in
      if negb (lease_session_generation self =? epoch_session_generation epoch) then
        Some (w, Err Submission_TurnUnavailable)
      else if epoch_revoked epoch then Some (w, Err Submission_TurnUnavailable)
      else
        slot ← world_slots w !! expected;
        if negb (is_active epoch arm_generation expected) ||
           negb (slot_session_generation slot =? lease_session_generation self) ||
           negb (slot_arm_generation slot =? arm_generation) then
          Some (w, Err Submission_TurnUnavailable)
        else
          '(state, effects, outcome) ← apply expected slot;
          Some (log (set_slot w expected (with_state slot state)) effects, Ok outcome)
  end.

(** What a slot that no longer waits answers. *)
Definition settled_answer (state : ResultSlotState) : ResultSubmission :=
  match state with
  | Slot_Accepted _ => Submission_AlreadySubmitted
  | Slot_Rejected _ _ _ => Submission_ResultContractRejected
  | Slot_Awaiting _ _ _ _ | Slot_Settling _ | Slot_Disarmed => Submission_TurnUnavailable
  end.

Definition flatten {T} (r : ResultWorld * result (result T ResultSubmission) ResultSubmission)
    : ResultWorld * result T ResultSubmission :=
  match r with
  | (w, Ok outcome) => (w, outcome)
  | (w, Err outcome) => (w, Err outcome)
  end.

(** [unwrap_or_else(|outcome| outcome)]. *)
Definition answer (outcome : result ResultSubmission ResultSubmission) : ResultSubmission :=
  match outcome with Ok s | Err s => s end.

Definition validation_bridge (w : ResultWorld) (self : ResultRequestLease)
    : option (ResultWorld * result (option Z) ResultSubmission) :=
  r ← with_current_state w self (fun _ slot =>
        Some (slot_state slot, [],
              match slot_state slot with
              | Slot_Awaiting _ validation_bridge _ _ => Ok validation_bridge
              | state => Err (settled_answer state)
              end));
  Some (flatten r).

(** The lock of [start_submission]. *)
Definition submission_schema (w : ResultWorld) (self : ResultRequestLease)
    : option (ResultWorld * result SchemaArc ResultSubmission) :=
  r ← with_current_state w self (fun i slot =>
        Some
          match slot_state slot with
          | Slot_Awaiting schema _ _ _ => (slot_state slot, [ObserveSubmitted i], Ok schema)
          | state => (state, [], Err (settled_answer state))
          end);
  Some (flatten r).

(** The cancellation of [failure], outside the lock. *)
Definition cancel_failure (w : ResultWorld) (self : ResultRequestLease) : option ResultWorld :=
  match lease_active_result self with
  | Some (_, i) => slot ← world_slots w !! i; Some (set_slot w i (with_failure slot))
  | None => Some w
  end.

Definition is_rejected (outcome : result ResultSubmission ResultSubmission) : bool :=
  match outcome with Ok (Submission_Rejected _) => true | _ => false end.

Definition is_callback_failed (outcome : result ResultSubmission ResultSubmission) : bool :=
  match outcome with Ok Submission_SchemaCallbackFailed => true | _ => false end.

Definition publish_invalid (w : ResultWorld) (self : ResultRequestLease) (issues : list ValidationIssue)
    (truncated : bool) : option (ResultWorld * ResultSubmission) :=
  '(w, outcome) ←
    with_current_state w self (fun i slot =>
      match slot_state slot with
      | Slot_Awaiting schema validation_bridge invalid_calls last_invalid =>
          count ← checked_add U8 invalid_calls 1;
          '(issues, truncated) ← bound_validation_issues issues truncated count;
          if count <=? MAX_REPAIRABLE_INVALID_CALLS then
            Some (Slot_Awaiting schema validation_bridge count (Some (issues, truncated)),
                  [ObserveValidationRejected i count issues truncated; ObserveRepairRequested i count],
                  Submission_Invalid issues truncated count)
          else
            Some (Slot_Rejected count issues truncated,
                  begin_close i validation_bridge ++ [ObserveValidationRejected i count issues truncated] ++
                  close i validation_bridge,
                  Submission_Rejected count)
      | state => Some (state, [], settled_answer state)
      end);
  w ← (if is_rejected outcome then cancel_failure w self else Some w);
  Some (w, answer outcome).

Definition same_schema (current schema : SchemaArc) : bool := schema_ptr current =? schema_ptr schema.

Definition accept_result (w : ResultWorld) (self : ResultRequestLease) (schema : SchemaArc) (value : ValidatedActValue)
    : option (ResultWorld * ResultSubmission) :=
  '(w, outcome) ←
    with_current_state w self (fun i slot =>
      Some
        match slot_state slot with
        | Slot_Awaiting current validation_bridge _ _ =>
            if same_schema current schema then
              (Slot_Accepted value,
               begin_close i validation_bridge ++ [ObserveAccepted i] ++ close i validation_bridge,
               Submission_Accepted)
            else (slot_state slot, [], Submission_TurnUnavailable)
        | state => (state, [], settled_answer state)
        end);
  Some (w, answer outcome).

Definition callback_failed (w : ResultWorld) (self : ResultRequestLease) (schema : SchemaArc) (error : CallbackError)
    : option (ResultWorld * ResultSubmission) :=
  '(w, outcome) ←
    with_current_state w self (fun i slot =>
      Some
        match slot_state slot with
        | Slot_Awaiting current validation_bridge _ _ =>
            if same_schema current schema then
              (Slot_Settling (Some error), begin_close i validation_bridge ++ close i validation_bridge,
               Submission_SchemaCallbackFailed)
            else (slot_state slot, [], Submission_TurnUnavailable)
        | state => (state, [], settled_answer state)
        end);
  w ← (if is_callback_failed outcome then cancel_failure w self else Some w);
  Some (w, answer outcome).

(** *** A request

    [submit_value_async] is a sequence of critical sections with awaits between
    them: where a request stands. *)

Record ValidatedResultCandidate := mkCandidate {
  candidate_schema : SchemaArc;
  candidate_value : ValidatedActValue;
  candidate_custom_jobs : list CustomValidationJob;
}.

Inductive CustomValidationOutcome :=
| Custom_Accepted
| Custom_Rejected (path message : string) (truncated : bool)
| Custom_CallbackFailed (error : CallbackError)
| Custom_Closed.

Inductive RequestStage :=
| Stage_Submit
| Stage_AwaitPermit (bridge : Z)
| Stage_Start (bridge : option Z)
| Stage_Publish (issues : list ValidationIssue) (truncated : bool)
| Stage_AwaitJobs (bridge : Z) (candidate : ValidatedResultCandidate)
| Stage_Accept (candidate : ValidatedResultCandidate)
| Stage_CallbackFailed (candidate : ValidatedResultCandidate) (error : CallbackError)
| Stage_Done (submission : ResultSubmission).

(** [start_submission] after its lock, and what is decided from its result. *)
Definition after_start (bridge : option Z) (schema : SchemaArc) (value : JsonValue) : option RequestStage :=
  outcome ← schema_validate (schema_root schema) value;
  Some
    match outcome with
    | Invalid issues truncated => Stage_Publish issues truncated
    | Valid validated custom_jobs =>
        let candidate := mkCandidate schema validated custom_jobs in
        match custom_jobs with
        | [] => Stage_Accept candidate
        | _ =>
            match bridge with
            | None => Stage_Done Submission_HybridValidationRequired
            | Some bridge => Stage_AwaitJobs bridge candidate
            end
        end
    end.

Definition after_jobs (candidate : ValidatedResultCandidate) (outcome : CustomValidationOutcome) : RequestStage :=
  match outcome with
  | Custom_Accepted => Stage_Accept candidate
  | Custom_Rejected path message truncated => Stage_Publish [mkIssue path "custom_validation" message] truncated
  | Custom_CallbackFailed error => Stage_CallbackFailed candidate error
  | Custom_Closed => Stage_Done Submission_TurnUnavailable
  end.

Definition done (r : ResultWorld * ResultSubmission) : ResultWorld * RequestStage := (r.1, Stage_Done r.2).

(** A step of [submit_value_async]; [granted] and [jobs] answer its awaits. *)
Definition submit_step (w : ResultWorld) (self : ResultRequestLease) (value : JsonValue) (granted : bool)
    (jobs : CustomValidationOutcome) (stage : RequestStage) : option (ResultWorld * RequestStage) :=
  match stage with
  | Stage_Submit =>
      '(w, bridge) ← validation_bridge w self;
      Some (w, match bridge with
               | Err outcome => Stage_Done outcome
               | Ok (Some bridge) => Stage_AwaitPermit bridge
               | Ok None => Stage_Start None
               end)
  | Stage_AwaitPermit bridge =>
      Some (w, if granted then Stage_Start (Some bridge) else Stage_Done Submission_TurnUnavailable)
  | Stage_Start bridge =>
      '(w, schema) ← submission_schema w self;
      match schema with
      | Err outcome => Some (w, Stage_Done outcome)
      | Ok schema => stage ← after_start bridge schema value; Some (w, stage)
      end
  | Stage_Publish issues truncated => done <$> publish_invalid w self issues truncated
  | Stage_AwaitJobs _ candidate => Some (w, after_jobs candidate jobs)
  | Stage_Accept candidate => done <$> accept_result w self (candidate_schema candidate) (candidate_value candidate)
  | Stage_CallbackFailed candidate error =>
      done <$> callback_failed w self (candidate_schema candidate) error
  | Stage_Done _ => Some (w, stage)
  end.

End Slots.
