(* ===== verification/ActResultSpec.v ===== *)
(** * What the result channel promises

    The text of an invalid result is the longest that fits.  A session, its turns
    and any number of concurrent requests are one system: whatever their order,
    a slot accepts at most one result, which its schema validates, counts its
    invalid calls exactly, and settles to what its requests were told. *)

From Stdlib Require Import Sorted.
From S2P Require Import Prelude Wire ActSchema ActSchemaSpec ActResult.

(** ** The detail of an invalid result *)

(** What the bounds rely on of [to_vec]: a response is not shorter than its
    identifier, and more text does not shorten it. *)
Class JsonTextLaws `{JsonText} := {
  to_vec_id text : str_len (to_vec Json_Null) <= str_len (to_vec (tool_result_value Json_Null true text));
  to_vec_grows a b c :
    str_len (to_vec (tool_result_value Json_Null true (a +:+ c))) <=
    str_len (to_vec (tool_result_value Json_Null true (a +:+ b +:+ c)));
}.

Section Bounds.
Context `{JsonTextLaws}.

Definition detail_size (issues : list ValidationIssue) (truncated : bool) (n : Z) : Z :=
  encoded_validation_response_size Json_Null issues truncated n - str_len (to_vec Json_Null).

Definition detail_fits (issues : list ValidationIssue) (truncated : bool) (n : Z) : Prop :=
  detail_size issues truncated n <= VALIDATION_DETAIL_MAX_BYTES.

#[local] Instance detail_fits_dec issues truncated n : Decision (detail_fits issues truncated n).
Proof. unfold detail_fits. apply _. Defined.

Lemma fits_detail_spec issues truncated n :
  fits_detail issues truncated n = Some (bool_decide (detail_fits issues truncated n)).
Proof.
  unfold fits_detail, encoded_generated_validation_response_size, len_sub.
  pose proof (to_vec_id (validation_tool_text issues truncated n)) as Hid.
  unfold detail_fits, detail_size, encoded_validation_response_size.
  rewrite (proj2 (Z.leb_le _ _) Hid). cbn [mbind option_bind]. f_equal.
  case_bool_decide as Hf; [by apply Z.leb_le|apply Z.leb_gt; lia].
Qed.

(** *** Cuts of a message *)

Definition message_starts (s : string) : Prop :=
  match bytes s with c :: _ => is_continuation c = false | [] => True end.

Lemma char_indices_ge s : forall i, Forall (fun k => (i <= k < i + length s)%nat) (char_indices i s).
Proof.
  induction s as [|c s IH]; intros i; cbn [char_indices]; [done|].
  assert (Hs : Forall (fun k => (i <= k < i + length (c :: s))%nat) (char_indices (S i) s)).
  { eapply Forall_impl; [apply IH|]. cbn [length]. lia. }
  destruct (is_continuation c); [done|]. constructor; [cbn [length]; lia|done].
Qed.

Lemma char_indices_sorted s : forall i, StronglySorted lt (char_indices i s).
Proof.
  induction s as [|c s IH]; intros i; cbn [char_indices]; [constructor|].
  destruct (is_continuation c); [done|]. constructor; [done|].
  eapply Forall_impl; [apply char_indices_ge|]. cbn. lia.
Qed.

Lemma StronglySorted_app_le (l : list nat) n :
  StronglySorted lt l -> Forall (fun k => (k < n)%nat) l -> StronglySorted lt (l ++ [n]).
Proof.
  induction 1 as [|k l Hl IH Hk]; intros Hn; cbn [app]; [repeat constructor|].
  inversion Hn; subst. constructor; [auto|]. apply Forall_app. split; [done|]. by constructor.
Qed.

Lemma char_boundaries_eq s : char_boundaries s = char_indices 0 (bytes s) ++ [length (bytes s)].
Proof.
  unfold char_boundaries. rewrite bool_decide_false; [done|].
  pose proof (char_indices_ge (bytes s) 0) as Hf. cbn in Hf.
  destruct (char_indices 0 (bytes s)) as [|k l] eqn:E using rev_ind; [cbn; lia|].
  rewrite List.last_last. rewrite Forall_app, Forall_singleton in Hf. lia.
Qed.

Lemma char_boundaries_sorted s : StronglySorted lt (char_boundaries s).
Proof.
  rewrite char_boundaries_eq. apply StronglySorted_app_le; [apply char_indices_sorted|].
  eapply Forall_impl; [apply char_indices_ge|]. cbn. lia.
Qed.

Lemma char_boundaries_head s : message_starts s -> char_boundaries s !! 0%nat = Some 0%nat.
Proof.
  rewrite char_boundaries_eq. unfold message_starts. destruct (bytes s) as [|c l]; [done|].
  intros Hc. cbn [char_indices]. by rewrite Hc.
Qed.

Lemma char_boundaries_last s : length (bytes s) ∈ char_boundaries s.
Proof. rewrite char_boundaries_eq. set_solver. Qed.

Lemma char_boundaries_le s k : k ∈ char_boundaries s -> (k <= length (bytes s))%nat.
Proof.
  rewrite char_boundaries_eq, elem_of_app, list_elem_of_singleton. intros [Hk| ->]; [|done].
  pose proof (char_indices_ge (bytes s) 0) as Hf. rewrite Forall_forall in Hf. specialize (Hf k Hk). cbn in Hf. lia.
Qed.

Lemma sorted_lookup_lt (l : list nat) : StronglySorted lt l ->
  forall i j a b, l !! i = Some a -> l !! j = Some b -> (i < j)%nat -> (a < b)%nat.
Proof.
  induction 1 as [|x l Hl IH Hx]; intros i j a b Hi Hj Hij; [done|].
  destruct j as [|j]; [lia|]. cbn in Hj. destruct i as [|i].
  - injection Hi as <-. rewrite Forall_forall in Hx. apply Hx. by eapply list_elem_of_lookup_2.
  - cbn in Hi. eapply IH; eauto. lia.
Qed.

Lemma concat_empty_cons s l : String.concat EmptyString (s :: l) = s +:+ String.concat EmptyString l.
Proof.
  destruct l as [|t l]; [|done]. cbn [String.concat]. apply bytes_inj. rewrite bytes_app. by rewrite app_nil_r.
Qed.

Lemma concat_empty_app l k :
  String.concat EmptyString (l ++ k) = String.concat EmptyString l +:+ String.concat EmptyString k.
Proof.
  induction l as [|s l IH]; [done|]. cbn [app]. rewrite !concat_empty_cons, IH.
  apply bytes_inj. by rewrite !bytes_app, app_assoc.
Qed.

(** The text before and after the message of the last issue. *)
Definition text_before (before : list ValidationIssue) (last : ValidationIssue) (n : Z) : string :=
  "result validation failed (invalid call " +:+ u64_to_string n +:+ "/" +:+
  u64_to_string MAX_REPAIRABLE_INVALID_CALLS +:+ "):" +:+ String.concat EmptyString (map issue_line before) +:+
  newline +:+ (if String.eqb (issue_path last) EmptyString then "/" else issue_path last) +:+ ": ".

Definition text_after : string := newline +:+ "additional validation issues were truncated".

Lemma text_message before last m n :
  validation_tool_text (before ++ [with_message last m]) true n = text_before before last n +:+ m +:+ text_after.
Proof.
  unfold validation_tool_text, text_before, text_after.
  rewrite map_app, concat_empty_app. cbn [map]. rewrite concat_empty_cons. cbn [String.concat].
  unfold issue_line at 2. cbn [with_message issue_path issue_message].
  apply bytes_inj. rewrite !bytes_app. change (bytes EmptyString) with (@nil ascii). rewrite app_nil_r, <- !app_assoc. done.
Qed.

Lemma cut_grows s a b : (a <= b)%nat -> exists t, cut s b = cut s a +:+ t.
Proof.
  intros Hab. exists (of_bytes (take (b - a) (drop a (bytes s)))). unfold cut.
  apply bytes_inj. rewrite bytes_app, !bytes_of_bytes.
  replace b with (a + (b - a))%nat at 1 by lia. symmetry. apply take_take_drop.
Qed.

Lemma cut_all s k : (length (bytes s) <= k)%nat -> cut s k = s.
Proof. intros Hk. unfold cut. rewrite take_ge by done. apply of_bytes_bytes. Qed.

(** The list up to [last], whose message is cut. *)
Definition shortened (before : list ValidationIssue) (last : ValidationIssue) (at_ : nat) : list ValidationIssue :=
  before ++ [with_message last (cut (issue_message last) at_)].

Lemma shortened_fits before last a b n :
  (a <= b)%nat -> detail_fits (shortened before last b) true n -> detail_fits (shortened before last a) true n.
Proof.
  intros Hab. unfold detail_fits, detail_size, encoded_validation_response_size, shortened.
  destruct (cut_grows (issue_message last) a b Hab) as [t ->]. rewrite !text_message.
  pose proof (to_vec_grows (text_before before last n +:+ cut (issue_message last) a) t text_after) as Hg.
  replace (text_before before last n +:+ (cut (issue_message last) a +:+ t) +:+ text_after)
    with ((text_before before last n +:+ cut (issue_message last) a) +:+ t +:+ text_after)
    by (apply bytes_inj; by rewrite !bytes_app, <- !app_assoc).
  replace (text_before before last n +:+ cut (issue_message last) a +:+ text_after)
    with ((text_before before last n +:+ cut (issue_message last) a) +:+ text_after)
    by (apply bytes_inj; by rewrite !bytes_app, <- !app_assoc).
  lia.
Qed.

Lemma shortened_all before last k :
  (length (bytes (issue_message last)) <= k)%nat -> shortened before last k = before ++ [last].
Proof. intros Hk. unfold shortened. rewrite cut_all by done. by destruct last. Qed.

(** *** The binary search *)

Lemma search_boundary_spec f (b : nat -> bool) N fuel : forall low high best,
  (forall i, (i < N)%nat -> f i = Some (b i)) ->
  (forall i j, (i <= j < N)%nat -> b j = true -> b i = true) ->
  (high <= N)%nat -> (high - low <= fuel)%nat -> (low <= high)%nat -> (best < N)%nat ->
  b best = true -> (low <= S best)%nat -> ((low = 0%nat /\ best = 0%nat) \/ low = S best) ->
  (forall i, (high <= i < N)%nat -> b i = false) ->
  exists r, search_boundary fuel f low high best = Some r /\ (r < N)%nat /\ b r = true /\
    forall i, (r < i < N)%nat -> b i = false.
Proof.
  induction fuel as [|fuel IH]; intros low high best Hf Hm HN Hfuel Hlh Hb Hbb Hlb Hbest Hhi; cbn [search_boundary].
  - assert (low = high) as -> by lia. rewrite Nat.ltb_irrefl. exists best. split; [done|]. split; [done|].
    split; [done|]. intros i Hi. apply Hhi. destruct Hbest as [[-> ->]|Hbest]; lia.
  - destruct (Nat.ltb_spec low high).
    + set (middle := (low + (high - low) / 2)%nat).
      assert (Hmid : (low <= middle < high)%nat).
      { subst middle. pose proof (Nat.div_lt (high - low) 2). lia. }
      rewrite Hf by lia. cbn [mbind option_bind]. destruct (b middle) eqn:Em.
      * apply IH; try done; lia || auto.
      * apply IH; try done; try lia. intros i Hi. destruct (b i) eqn:Ei; [|done].
        rewrite (Hm middle i) in Em; [done|lia|done].
    + exists best. split; [done|]. split; [done|]. split; [done|]. intros i Hi. apply Hhi.
      destruct Hbest as [[-> ->]|Hbest]; lia.
Qed.

(** The longest cut of the last message that fits. *)
Definition longest_cut (before : list ValidationIssue) (last : ValidationIssue) (n : Z) (at_ : nat) : Prop :=
  at_ ∈ char_boundaries (issue_message last) /\ detail_fits (shortened before last at_) true n /\
  forall at', at' ∈ char_boundaries (issue_message last) -> (at_ < at')%nat ->
    ~ detail_fits (shortened before last at') true n.

Lemma cut_last_message_spec before last n :
  message_starts (issue_message last) -> detail_fits (before ++ [with_message last EmptyString]) true n ->
  exists at_, cut_last_message before last n = Some (shortened before last at_) /\ longest_cut before last n at_.
Proof.
  intros Hs Hf. set (bs := char_boundaries (issue_message last)).
  pose proof (char_boundaries_sorted (issue_message last)) as Hsort. fold bs in Hsort.
  pose proof (char_boundaries_head _ Hs) as Hhead. fold bs in Hhead.
  pose proof (lookup_lt_Some _ _ _ Hhead) as Hlen.
  set (b := fun i => bool_decide (detail_fits (shortened before last (default 0%nat (bs !! i))) true n)).
  destruct (search_boundary_spec (fits_cut before last bs n) b (length bs) (length bs) 0 (length bs) 0)
    as (r & Hr & Hrl & Hrb & Hri); try lia.
  - intros i Hi. unfold fits_cut, b. destruct (lookup_lt_is_Some_2 bs i Hi) as [k Hk]. rewrite Hk.
    cbn [mbind option_bind default]. apply fits_detail_spec.
  - intros i j Hij. unfold b. rewrite !bool_decide_eq_true. apply shortened_fits.
    destruct (lookup_lt_is_Some_2 bs i) as [k Hk]; [lia|]. destruct (lookup_lt_is_Some_2 bs j) as [m Hm]; [lia|].
    rewrite Hk, Hm. cbn [default]. destruct (decide (i = j)) as [->|]; [by simplify_eq|].
    apply Nat.lt_le_incl. eapply sorted_lookup_lt; eauto. lia.
  - unfold b. rewrite Hhead. cbn [default]. apply bool_decide_eq_true. exact Hf.
  - unfold cut_last_message. fold bs. rewrite Hr. cbn [mbind option_bind].
    destruct (lookup_lt_is_Some_2 bs r Hrl) as [at_ Hat]. rewrite Hat. cbn [mbind option_bind].
    exists at_. split; [done|]. split; [by eapply list_elem_of_lookup_2|]. split.
    + unfold b in Hrb. rewrite Hat in Hrb. by apply bool_decide_eq_true in Hrb.
    + intros at' Hin Hlt Hfit. apply list_elem_of_lookup in Hin as [i Hi]. fold bs in Hi.
      assert (Hri' : (r < i)%nat).
      { destruct (Nat.lt_trichotomy r i) as [?|[->|Hir]]; [done|simplify_eq; lia|].
        pose proof (sorted_lookup_lt bs Hsort i r at' at_ Hi Hat Hir). lia. }
      specialize (Hri i). unfold b in Hri. rewrite Hi in Hri. cbn [default] in Hri.
      rewrite bool_decide_eq_false in Hri. apply Hri; [|done].
      split; [done|by eapply lookup_lt_Some].
Qed.

(** The longest start of [all] that fits, with the last message cut. *)
Definition best_detail (all : list ValidationIssue) (n : Z) (issues : list ValidationIssue) : Prop :=
  (exists j last at_, all !! j = Some last /\ issues = shortened (take j all) last at_ /\
     longest_cut (take j all) last n at_ /\
     forall j' last', (j < j')%nat -> all !! j' = Some last' ->
       ~ detail_fits (take j' all ++ [with_message last' EmptyString]) true n) \/
  (issues = [] /\
     forall j last, all !! j = Some last -> ~ detail_fits (take j all ++ [with_message last EmptyString]) true n).

Lemma bound_loop_spec reversed : forall n all,
  Forall (fun i => message_starts (issue_message i)) all ->
  rev reversed = take (length reversed) all -> (length reversed <= length all)%nat ->
  (forall j last, (length reversed <= j)%nat -> all !! j = Some last ->
     ~ detail_fits (take j all ++ [with_message last EmptyString]) true n) ->
  exists issues, bound_loop reversed n = Some issues /\ best_detail all n issues.
Proof.
  induction reversed as [|last before IH]; intros n all Hu Hr Hl Hj; cbn [bound_loop].
  - rewrite fits_detail_spec. cbn [mbind option_bind]. destruct (bool_decide _); eexists; (split; [done|]); right; (split; [done|]);
      intros j last; apply Hj; cbn; lia.
  - cbn [rev length] in *.
    destruct (lookup_lt_is_Some_2 all (length before)) as [x Hx]; [lia|].
    erewrite (take_S_r _ _ x) in Hr by done. apply app_inj_tail in Hr as [Hb ->].
    assert (Hux : message_starts (issue_message x)) by (rewrite Forall_lookup in Hu; by eapply Hu).
    assert (Hj' : forall j' last', (length before < j')%nat -> all !! j' = Some last' ->
      ~ detail_fits (take j' all ++ [with_message last' EmptyString]) true n) by (intros; apply Hj; [lia|done]).
    rewrite (fits_detail_spec (rev before ++ [x])). cbn [mbind option_bind].
    case_bool_decide as Hfull.
    + eexists. split; [done|]. left. exists (length before), x, (length (bytes (issue_message x))).
      split; [done|]. rewrite shortened_all, Hb by lia. split; [done|]. split; [|done].
      split; [apply char_boundaries_last|]. rewrite shortened_all by lia. split; [by rewrite <- Hb|].
      intros at' Hin%char_boundaries_le. lia.
    + rewrite fits_detail_spec. cbn [mbind option_bind]. case_bool_decide as Hempty.
      * rewrite Hb in Hempty |- *. destruct (cut_last_message_spec _ _ _ Hux Hempty) as (at_ & -> & Hc).
        eexists. split; [done|]. left. by exists (length before), x, at_.
      * apply IH; [done|done|lia|]. intros j last Hlj Hjl. destruct (decide (j = length before)) as [->|].
        -- simplify_eq. by rewrite <- Hb.
        -- apply Hj; [lia|done].
Qed.

(** The detail of an invalid result always exists and is the longest that
    fits in 32 KiB: at most sixteen issues, all of them when they fit, else the
    longest start of the list that does, with the last message cut at the last
    scalar that fits, and marked truncated. *)
Theorem bound_validation_issues_exact issues truncated n :
  Forall (fun i => message_starts (issue_message i)) issues ->
  let all := take (Z.to_nat VALIDATION_DETAIL_MAX_ISSUES) issues in
  let marked := truncated || (VALIDATION_DETAIL_MAX_ISSUES <? list_len issues) in
  exists bounded marked', bound_validation_issues issues truncated n = Some (bounded, marked') /\
    ((detail_fits all marked n /\ bounded = all /\ marked' = marked) \/
     (~ detail_fits all marked n /\ best_detail all n bounded /\ marked' = true)).
Proof.
  intros Hu all marked. unfold bound_validation_issues.
  assert (E : (if VALIDATION_DETAIL_MAX_ISSUES <? list_len issues then (all, true) else (issues, truncated)) = (all, marked)).
  { subst all marked. destruct (Z.ltb_spec VALIDATION_DETAIL_MAX_ISSUES (list_len issues)); [by rewrite orb_true_r|].
    rewrite orb_false_r, take_ge; [done|]. unfold VALIDATION_DETAIL_MAX_ISSUES, list_len in *. lia. }
  fold all. rewrite E. rewrite fits_detail_spec. cbn [mbind option_bind]. case_bool_decide as Hf.
  - eexists _, _. split; [done|]. by left.
  - destruct (bound_loop_spec (rev all) n all) as (b & Hb & Hbest).
    + by apply Forall_take.
    + by rewrite rev_involutive, length_rev, take_ge.
    + by rewrite length_rev.
    + rewrite length_rev. intros j last Hj Hl. apply lookup_lt_Some in Hl. lia.
    + rewrite Hb. eexists _, _. split; [done|]. by right.
Qed.

(** It exists whatever the messages are. *)
Lemma search_boundary_total f N fuel : forall low high best,
  (forall i, (i < N)%nat -> is_Some (f i)) -> (high <= N)%nat -> (high - low <= fuel)%nat -> (best < N)%nat ->
  exists r, search_boundary fuel f low high best = Some r /\ (r < N)%nat.
Proof.
  induction fuel as [|fuel IH]; intros low high best Hf HN Hfuel Hb; cbn [search_boundary].
  - rewrite (proj2 (Nat.ltb_ge low high)) by lia. by exists best.
  - destruct (Nat.ltb_spec low high); [|by exists best].
    set (middle := (low + (high - low) / 2)%nat).
    assert (Hmid : (low <= middle < high)%nat).
    { subst middle. pose proof (Nat.div_lt (high - low) 2). lia. }
    destruct (Hf middle) as [ok ->]; [lia|]. cbn [mbind option_bind].
    destruct ok; apply IH; done || lia.
Qed.

Lemma cut_last_message_total before last n : is_Some (cut_last_message before last n).
Proof.
  unfold cut_last_message. set (bs := char_boundaries (issue_message last)).
  assert (Hl : (0 < length bs)%nat).
  { subst bs. rewrite char_boundaries_eq, length_app. cbn. lia. }
  destruct (search_boundary_total (fits_cut before last bs n) (length bs) (length bs) 0 (length bs) 0)
    as (r & -> & Hr); try lia.
  - intros i Hi. unfold fits_cut. destruct (lookup_lt_is_Some_2 bs i Hi) as [k ->].
    cbn [mbind option_bind]. by rewrite fits_detail_spec.
  - cbn [mbind option_bind]. destruct (lookup_lt_is_Some_2 bs r Hr) as [k ->]. by eexists.
Qed.

Lemma bound_validation_issues_total issues truncated n : is_Some (bound_validation_issues issues truncated n).
Proof.
  assert (Hl : forall reversed, is_Some (bound_loop reversed n)).
  { induction reversed as [|last before IH]; cbn [bound_loop].
    - rewrite fits_detail_spec. cbn [mbind option_bind]. by case_bool_decide.
    - rewrite (fits_detail_spec (rev (last :: before))). cbn [mbind option_bind]. case_bool_decide; [done|].
      rewrite fits_detail_spec. cbn [mbind option_bind].
      case_bool_decide; [apply cut_last_message_total|apply IH]. }
  unfold bound_validation_issues. destruct (if _ <? _ then _ else _) as [l t].
  rewrite fits_detail_spec. cbn [mbind option_bind]. case_bool_decide; [done|].
  destruct (Hl (rev l)) as [b ->]. by eexists.
Qed.

End Bounds.

(** ** Witness

    The compact text of JSON, with quotes, backslashes and line feeds
    escaped. *)

#[local] Existing Instance integers_only.

Definition quote_mark : ascii := "034".

Definition escape_char (c : ascii) : list ascii :=
  if Ascii.eqb c quote_mark || Ascii.eqb c "\" then ["\"%char; c]
  else if Ascii.eqb c "010" then ["\"%char; "n"%char] else [c].

Definition quoted (s : string) : string := of_bytes (quote_mark :: flat_map escape_char (bytes s) ++ [quote_mark]).

Fixpoint json_text (value : JsonValue) : string :=
  match value with
  | Json_Null => "null"
  | Json_Bool true => "true"
  | Json_Bool false => "false"
  | Json_Number n => i64_to_string n
  | Json_String s => quoted s
  | Json_Array values => "[" +:+ String.concat "," (map json_text values) +:+ "]"
  | Json_Object values =>
      "{" +:+ String.concat "," (map (fun '(k, v) => quoted k +:+ ":" +:+ json_text v) values) +:+ "}"
  end.

#[local] Instance compact_text : JsonText := { to_vec := json_text }.

Lemma quoted_len s : str_len (quoted s) = list_len (flat_map escape_char (bytes s)) + 2.
Proof.
  unfold quoted. rewrite str_len_bytes, bytes_of_bytes, list_len_cons, list_len_app, list_len_cons, list_len_nil. lia.
Qed.

Lemma response_len :
  exists k, 4 <= k /\ forall text, str_len (json_text (tool_result_value Json_Null true text)) = k + str_len (quoted text).
Proof.
  set (before := str_len (json_text (tool_result_value Json_Null true EmptyString)) - str_len (quoted EmptyString)).
  exists before. split; [vm_compute; discriminate|]. intros text.
  unfold before, tool_result_value. cbn [json_text map String.concat]. rewrite !str_len_bytes.
  rewrite !bytes_app, !list_len_app. lia.
Qed.

#[local] Instance compact_text_laws : JsonTextLaws.
Proof.
  destruct response_len as (k & Hk & Hlen). split.
  - intros text. change (to_vec (tool_result_value Json_Null true text)) with
      (json_text (tool_result_value Json_Null true text)).
    rewrite Hlen, quoted_len. pose proof (list_len_nonneg (flat_map escape_char (bytes text))).
    change (str_len (to_vec Json_Null)) with 4. lia.
  - intros a b c. change to_vec with json_text. rewrite !Hlen, !quoted_len, !bytes_app, !flat_map_app, !list_len_app.
    pose proof (list_len_nonneg (flat_map escape_char (bytes b))). lia.
Defined.

Definition sample_issues : list ValidationIssue := [mkIssue "/a" "type" "expected a string"; mkIssue EmptyString "missing" "name"].

Lemma bound_validation_issues_exact_witness :
  exists bounded marked, bound_validation_issues sample_issues false 1 = Some (bounded, marked) /\
    ((detail_fits sample_issues false 1 /\ bounded = sample_issues /\ marked = false) \/
     (~ detail_fits sample_issues false 1 /\ best_detail sample_issues 1 bounded /\ marked = true)).
Proof. apply (bound_validation_issues_exact sample_issues false 1). repeat constructor. Defined.
