(* ===== verification/ActResultSystem.v ===== *)
(** * A session's results, with any number of concurrent requests

    The critical sections of [ActResult] as the steps of one system: the turns
    of a session arm, cancel, settle and release slots, the session revokes its
    route, and requests advance one critical section at a time, in any order. *)

From S2P Require Import Prelude Wire ActSchema ActSchemaSpec ActResult ActResultSpec.

Section System.
Context `{JsonTextLaws, ResultHost}.

(** ** The system *)

(** What happened to a slot. *)
Inductive SlotEvent :=
| E_Invalid (request : nat) (issues : list ValidationIssue) (truncated : bool) (n : Z)
| E_Rejected (request : nat) (issues : list ValidationIssue) (truncated : bool) (n : Z)
| E_Accepted (request : nat) (value : ValidatedActValue)
| E_CallbackFailed (request : nat) (error : CallbackError)
| E_Cancelled
| E_Handed (failure : ResultFailureAtHandoff)
| E_Ended.

(** A call of [submit_value_async], and whether the validation callbacks
    accepted its candidate. *)
Record Request := mkRequest {
  request_lease : ResultRequestLease;
  request_value : JsonValue;
  request_stage : RequestStage;
  request_callbacks_ok : bool;
}.

Record System := mkSystem {
  sys_world : ResultWorld;
  sys_armed : list (SchemaArc * option Z);
  sys_leases : list ArmedResultLease;
  sys_requests : list Request;
  sys_history : list (nat * SlotEvent);
}.

Definition System_new (session_generation : Z) : System :=
  mkSystem (ResultWorld_new session_generation) [] [] [] [].

Inductive Action :=
| Arm (operation_id : string) (turn_index : Z) (schema : SchemaArc) (bridge : option Z)
    (context : option TurnDiagnosticContext)
| Send (value : JsonValue)
| Advance (request : nat) (granted : bool) (jobs : CustomValidationOutcome)
| Cancel (lease : nat)
| TakeFailure (lease : nat)
| Settle (lease : nat)
| Release (lease : nat)
| Revoke.

(** What the answer to a request says of its slot. *)
Definition verdict (request : nat) (stage : RequestStage) (submission : ResultSubmission) : list SlotEvent :=
  match submission, stage with
  | Submission_Invalid issues truncated n, _ => [E_Invalid request issues truncated n]
  | Submission_Rejected n, Stage_Publish issues truncated => [E_Rejected request issues truncated n]
  | Submission_Accepted, Stage_Accept candidate => [E_Accepted request (candidate_value candidate)]
  | Submission_SchemaCallbackFailed, Stage_CallbackFailed _ error => [E_CallbackFailed request error]
  | _, _ => []
  end.

Definition is_done (stage : RequestStage) : bool := match stage with Stage_Done _ => true | _ => false end.

Definition answered (request : nat) (lease : ResultRequestLease) (before after : RequestStage)
    : list (nat * SlotEvent) :=
  match lease_active_result lease, after with
  | Some (_, slot), Stage_Done submission =>
      if is_done before then [] else map (pair slot) (verdict request before submission)
  | _, _ => []
  end.

Definition lease_active (w : ResultWorld) (lease : ArmedResultLease) : bool :=
  armed_armed lease && is_active (world_epoch w) (armed_arm_generation lease) (armed_slot lease).

Definition ended (w : ResultWorld) (lease : ArmedResultLease) : list (nat * SlotEvent) :=
  if lease_active w lease then [(armed_slot lease, E_Ended)] else [].

Definition jobs_accepted (stage : RequestStage) (jobs : CustomValidationOutcome) : bool :=
  match stage, jobs with Stage_AwaitJobs _ _, Custom_Accepted => true | _, _ => false end.

Definition with_leases (sys : System) (w : ResultWorld) (leases : list ArmedResultLease)
    (events : list (nat * SlotEvent)) : System :=
  mkSystem w (sys_armed sys) leases (sys_requests sys) (sys_history sys ++ events).

(** [None] is a panic. *)
Definition sys_step (sys : System) (action : Action) : option System :=
  let w := sys_world sys in
  match action with
  | Arm operation_id turn_index schema bridge context =>
      Some
        match arm w operation_id turn_index schema bridge context with
        | (w, Ok lease) =>
            mkSystem w (sys_armed sys ++ [(schema, bridge)]) (sys_leases sys ++ [lease]) (sys_requests sys)
              (sys_history sys)
        | (w, Err _) => mkSystem w (sys_armed sys) (sys_leases sys) (sys_requests sys) (sys_history sys)
        end
  | Send value =>
      Some (mkSystem w (sys_armed sys) (sys_leases sys)
              (sys_requests sys ++ [mkRequest (acquire_request w) value Stage_Submit false]) (sys_history sys))
  | Advance i granted jobs =>
      match sys_requests sys !! i with
      | None => Some sys
      | Some r =>
          '(w, stage) ← submit_step w (request_lease r) (request_value r) granted jobs (request_stage r);
          Some (mkSystem w (sys_armed sys) (sys_leases sys)
                  (<[i := mkRequest (request_lease r) (request_value r) stage
                           (request_callbacks_ok r || jobs_accepted (request_stage r) jobs)]> (sys_requests sys))
                  (sys_history sys ++ answered i (request_lease r) (request_stage r) stage))
      end
  | Cancel l =>
      match sys_leases sys !! l with
      | None => Some sys
      | Some lease =>
          '(w, outcome) ← lease_begin_cancellation w lease;
          Some (with_leases sys w (sys_leases sys)
                  match outcome with Cancel_Cancelled => [(armed_slot lease, E_Cancelled)] | _ => [] end)
      end
  | TakeFailure l =>
      match sys_leases sys !! l with
      | None => Some sys
      | Some lease =>
          '(w, outcome) ← lease_take_failure w lease;
          Some (with_leases sys w (sys_leases sys)
                  match outcome with Some failure => [(armed_slot lease, E_Handed failure)] | None => [] end)
      end
  | Settle l =>
      match sys_leases sys !! l with
      | None => Some sys
      | Some lease =>
          '(w', lease', _) ← lease_prepare_settlement w lease;
          Some (with_leases sys w' (<[l := lease']> (sys_leases sys)) (ended w lease))
      end
  | Release l =>
      match sys_leases sys !! l with
      | None => Some sys
      | Some lease =>
          '(w', lease') ← lease_release w lease;
          Some (with_leases sys w' (<[l := lease']> (sys_leases sys)) (ended w lease))
      end
  | Revoke =>
      w' ← epoch_revoke w;
      Some (with_leases sys w' (sys_leases sys)
              match epoch_active (world_epoch w) with Some (_, i) => [(i, E_Ended)] | None => [] end)
  end.

Inductive sys_reachable (session_generation : Z) : System -> Prop :=
| sys_start : sys_reachable session_generation (System_new session_generation)
| sys_next sys action sys' :
    sys_reachable session_generation sys -> sys_step sys action = Some sys' ->
    sys_reachable session_generation sys'.

(** What happened to slot [i]. *)
Definition slot_history (history : list (nat * SlotEvent)) (i : nat) : list SlotEvent :=
  omap (fun '(j, e) => if decide (j = i) then Some e else None) history.

Lemma slot_history_app h h' i : slot_history (h ++ h') i = slot_history h i ++ slot_history h' i.
Proof. apply omap_app. Qed.

Lemma slot_history_events (s : nat) es i :
  slot_history (map (pair s) es) i = if decide (s = i) then es else [].
Proof.
  unfold slot_history. induction es as [|e es IH]; cbn; [by destruct (decide _)|].
  rewrite IH. by destruct (decide (s = i)).
Qed.

Lemma slot_history_elem h i e : e ∈ slot_history h i <-> (i, e) ∈ h.
Proof.
  unfold slot_history. rewrite list_elem_of_omap. split.
  - intros ([j e'] & Hin & He). destruct (decide (j = i)) as [->|]; naive_solver.
  - intros Hin. exists (i, e). split; [done|]. by rewrite decide_True.
Qed.

(** ** The life of a slot *)

(** Invalid calls, numbered from one, and what the last one was told. *)
Inductive repairs : list SlotEvent -> Z -> option Issues -> Prop :=
| repairs_none : repairs [] 0 None
| repairs_more h n last request issues truncated :
    repairs h n last -> n < MAX_REPAIRABLE_INVALID_CALLS ->
    repairs (h ++ [E_Invalid request issues truncated (n + 1)]) (n + 1) (Some (issues, truncated)).

Inductive slot_life (armed : SchemaArc * option Z) : list SlotEvent -> ResultSlotState -> Prop :=
| life_awaiting h n last :
    repairs h n last -> slot_life armed h (Slot_Awaiting armed.1 armed.2 n last)
| life_accepted h n last request value :
    repairs h n last -> slot_life armed (h ++ [E_Accepted request value]) (Slot_Accepted value)
| life_rejected h last request issues truncated bounded marked :
    repairs h MAX_REPAIRABLE_INVALID_CALLS last ->
    bound_validation_issues issues truncated (MAX_REPAIRABLE_INVALID_CALLS + 1) = Some (bounded, marked) ->
    slot_life armed (h ++ [E_Rejected request issues truncated (MAX_REPAIRABLE_INVALID_CALLS + 1)])
      (Slot_Rejected (MAX_REPAIRABLE_INVALID_CALLS + 1) bounded marked)
| life_callback_failed h n last request error :
    repairs h n last -> slot_life armed (h ++ [E_CallbackFailed request error]) (Slot_Settling (Some error))
| life_cancelled h state :
    slot_life armed h state ->
    match state with Slot_Awaiting _ _ _ _ | Slot_Accepted _ | Slot_Settling None => True | _ => False end ->
    slot_life armed (h ++ [E_Cancelled]) (Slot_Settling None)
| life_handed h state failure :
    slot_life armed h state ->
    match state with
    | Slot_Rejected n issues truncated => failure = Handoff_Rejected issues n truncated
    | Slot_Settling (Some error) => failure = Handoff_SchemaCallbackFailed error
    | _ => False
    end ->
    slot_life armed (h ++ [E_Handed failure]) (Slot_Settling None)
| life_ended h state :
    slot_life armed h state -> state <> Slot_Disarmed -> slot_life armed (h ++ [E_Ended]) Slot_Disarmed.

Lemma repairs_bounds h n last : repairs h n last -> 0 <= n <= MAX_REPAIRABLE_INVALID_CALLS.
Proof. induction 1; unfold MAX_REPAIRABLE_INVALID_CALLS in *; lia. Qed.

(** ** The invariant *)

Definition active_slot (w : ResultWorld) (i : nat) : Prop :=
  epoch_active (world_epoch w) = Some (Z.of_nat i + 1, i).

Definition slot_ok (w : ResultWorld) (armed : list (SchemaArc * option Z)) (history : list (nat * SlotEvent))
    (i : nat) (slot : ResultSlot) : Prop :=
  slot_session_generation slot = epoch_session_generation (world_epoch w) /\
  slot_arm_generation slot = Z.of_nat i + 1 /\
  (exists a, armed !! i = Some a /\ slot_life a (slot_history history i) (slot_state slot)) /\
  (active_slot w i <-> slot_state slot <> Slot_Disarmed).

Record world_ok (w : ResultWorld) (armed : list (SchemaArc * option Z)) (history : list (nat * SlotEvent)) : Prop := {
  ok_armed : length armed = length (world_slots w);
  ok_generation : epoch_next_arm_generation (world_epoch w) = list_len (world_slots w);
  ok_slots : forall i slot, world_slots w !! i = Some slot -> slot_ok w armed history i slot;
  ok_active : forall g i, epoch_active (world_epoch w) = Some (g, i) ->
    g = Z.of_nat i + 1 /\ (i < length (world_slots w))%nat /\ epoch_revoked (world_epoch w) = false;
  ok_fresh : forall i, (length (world_slots w) <= i)%nat -> slot_history history i = [];
}.

Definition lease_ok (w : ResultWorld) (l : ResultRequestLease) : Prop :=
  lease_session_generation l = epoch_session_generation (world_epoch w) /\
  forall g i, lease_active_result l = Some (g, i) -> g = Z.of_nat i + 1 /\ (i < length (world_slots w))%nat.

Definition validated (armed : list (SchemaArc * option Z)) (i : nat) (json : JsonValue)
    (c : ValidatedResultCandidate) : Prop :=
  exists bridge, armed !! i = Some (candidate_schema c, bridge) /\
    schema_validate (schema_root (candidate_schema c)) json = Some (Valid (candidate_value c) (candidate_custom_jobs c)).

Definition stage_ok (armed : list (SchemaArc * option Z)) (r : Request) : Prop :=
  match request_stage r with
  | Stage_Submit | Stage_Done _ => True
  | stage =>
      exists g i, lease_active_result (request_lease r) = Some (g, i) /\
        match stage with
        | Stage_AwaitJobs _ c | Stage_CallbackFailed c _ => validated armed i (request_value r) c
        | Stage_Accept c =>
            validated armed i (request_value r) c /\ (candidate_custom_jobs c = [] \/ request_callbacks_ok r = true)
        | _ => True
        end
  end.

Definition armed_ok (w : ResultWorld) (l : ArmedResultLease) : Prop :=
  armed_arm_generation l = Z.of_nat (armed_slot l) + 1 /\ (armed_slot l < length (world_slots w))%nat.

(** What an event says of the request that caused it. *)
Definition event_ok (armed : list (SchemaArc * option Z)) (requests : list Request) (i : nat) (e : SlotEvent) : Prop :=
  match e with
  | E_Invalid request issues truncated n =>
      exists r g, requests !! request = Some r /\ lease_active_result (request_lease r) = Some (g, i) /\
        request_stage r = Stage_Done (Submission_Invalid issues truncated n)
  | E_Rejected request _ _ n =>
      exists r g, requests !! request = Some r /\ lease_active_result (request_lease r) = Some (g, i) /\
        request_stage r = Stage_Done (Submission_Rejected n)
  | E_Accepted request value =>
      exists r g schema bridge jobs, requests !! request = Some r /\
        lease_active_result (request_lease r) = Some (g, i) /\
        request_stage r = Stage_Done Submission_Accepted /\ armed !! i = Some (schema, bridge) /\
        schema_validate (schema_root schema) (request_value r) = Some (Valid value jobs) /\
        (jobs = [] \/ request_callbacks_ok r = true)
  | E_CallbackFailed request error =>
      exists r g, requests !! request = Some r /\ lease_active_result (request_lease r) = Some (g, i) /\
        request_stage r = Stage_Done Submission_SchemaCallbackFailed
  | _ => True
  end.

(** What an answer says of the history of its slot. *)
Definition answer_ok (history : list (nat * SlotEvent)) (j : nat) (r : Request) : Prop :=
  match request_stage r with
  | Stage_Done (Submission_Invalid issues truncated n) =>
      exists g i, lease_active_result (request_lease r) = Some (g, i) /\ (i, E_Invalid j issues truncated n) ∈ history
  | Stage_Done (Submission_Rejected n) =>
      exists g i issues truncated, lease_active_result (request_lease r) = Some (g, i) /\
        (i, E_Rejected j issues truncated n) ∈ history
  | Stage_Done Submission_Accepted =>
      exists g i value, lease_active_result (request_lease r) = Some (g, i) /\ (i, E_Accepted j value) ∈ history
  | Stage_Done Submission_SchemaCallbackFailed =>
      exists g i error, lease_active_result (request_lease r) = Some (g, i) /\ (i, E_CallbackFailed j error) ∈ history
  | _ => True
  end.

Record sys_ok (sys : System) : Prop := {
  ok_world : world_ok (sys_world sys) (sys_armed sys) (sys_history sys);
  ok_leases : Forall (armed_ok (sys_world sys)) (sys_leases sys);
  ok_requests : forall j r, sys_requests sys !! j = Some r ->
    lease_ok (sys_world sys) (request_lease r) /\ stage_ok (sys_armed sys) r /\ answer_ok (sys_history sys) j r;
  ok_events : forall i e, (i, e) ∈ sys_history sys -> event_ok (sys_armed sys) (sys_requests sys) i e;
}.

(** ** Updates of a world *)

Lemma is_active_slot w armed h i :
  world_ok w armed h -> is_active (world_epoch w) (Z.of_nat i + 1) i = true <-> active_slot w i.
Proof.
  intros Hw. unfold is_active, active_slot. destruct (epoch_active (world_epoch w)) as [[g k]|] eqn:E; [|done].
  rewrite andb_true_iff, Z.eqb_eq, Nat.eqb_eq. naive_solver.
Qed.

Lemma active_slot_lookup w armed h i :
  world_ok w armed h -> active_slot w i ->
  exists slot a, world_slots w !! i = Some slot /\ armed !! i = Some a /\
    slot_life a (slot_history h i) (slot_state slot) /\ slot_state slot <> Slot_Disarmed /\
    epoch_revoked (world_epoch w) = false.
Proof.
  intros Hw Ha. destruct (ok_active _ _ _ Hw _ _ Ha) as (_ & Hi & Hr).
  destruct (lookup_lt_is_Some_2 (world_slots w) i Hi) as [slot Hs].
  destruct (ok_slots _ _ _ Hw i slot Hs) as (_ & _ & (a & Haa & Hl) & Hd).
  exists slot, a. split_and!; try done. by apply Hd.
Qed.

(** An event of slot [i] changes its history only. *)
Lemma slot_history_one h i e k :
  slot_history (h ++ [(i, e)]) k = if decide (i = k) then slot_history h k ++ [e] else slot_history h k.
Proof.
  rewrite slot_history_app. unfold slot_history at 2. cbn [omap list_omap].
  destruct (decide (i = k)); [done|]. apply app_nil_r.
Qed.

Lemma slot_life_more w armed h i es k slot :
  slot_ok w armed h k slot -> k <> i -> slot_ok w armed (h ++ map (pair i) es) k slot.
Proof.
  intros (? & ? & (a & ? & Hl) & ?) Hk. split_and!; try done. exists a. split; [done|].
  rewrite slot_history_app, slot_history_events, decide_False, app_nil_r by congruence. done.
Qed.

(** The active slot takes a new state other than the last. *)
Lemma slot_update_ok w armed h i slot a state es effects :
  world_ok w armed h -> active_slot w i -> world_slots w !! i = Some slot -> armed !! i = Some a ->
  slot_life a (slot_history h i ++ es) state -> state <> Slot_Disarmed ->
  world_ok (log (set_slot w i (with_state slot state)) effects) armed (h ++ map (pair i) es).
Proof.
  intros Hw Ha Hs Haa Hl Hd. pose proof (lookup_lt_Some _ _ _ Hs) as Hi.
  destruct (ok_slots _ _ _ Hw i slot Hs) as (G1 & G2 & _ & _). split; cbn.
  - rewrite length_insert. apply Hw.
  - unfold list_len. rewrite length_insert. apply Hw.
  - intros k sk Hk. destruct (decide (k = i)) as [->|Hki].
    + rewrite list_lookup_insert_eq in Hk by done. injection Hk as <-. split_and!; try done.
      exists a. split; [done|]. by rewrite slot_history_app, slot_history_events, decide_True.
    + rewrite list_lookup_insert_ne in Hk by done. apply slot_life_more; [|done].
      by apply (ok_slots _ _ _ Hw).
  - intros g k Hk. rewrite length_insert. by apply (ok_active _ _ _ Hw).
  - intros k Hk. rewrite length_insert in Hk.
    rewrite slot_history_app, slot_history_events, (ok_fresh _ _ _ Hw) by done.
    rewrite decide_False by lia. done.
Qed.

(** The active slot is disarmed. *)
Lemma disarm_ok w armed h i slot a revoked effects effects' :
  world_ok w armed h -> active_slot w i -> world_slots w !! i = Some slot -> armed !! i = Some a ->
  world_ok
    (mkWorld (mkEpoch (epoch_session_generation (world_epoch w)) revoked
                (epoch_next_arm_generation (world_epoch w)) None)
       (<[i := with_state slot Slot_Disarmed]> (world_slots w)) (effects ++ effects'))
    armed (h ++ [(i, E_Ended)]).
Proof.
  intros Hw Ha Hs Haa. pose proof (lookup_lt_Some _ _ _ Hs) as Hi.
  destruct (ok_slots _ _ _ Hw i slot Hs) as (E1 & E2 & (a' & Ha' & Hl) & Hd).
  assert (a' = a) as -> by congruence.
  split; cbn.
  - rewrite length_insert. apply Hw.
  - unfold list_len. rewrite length_insert. apply Hw.
  - intros k sk Hk. destruct (decide (k = i)) as [->|Hki].
    + rewrite list_lookup_insert_eq in Hk by done. injection Hk as <-. split_and!; try done.
      * exists a. split; [done|]. rewrite slot_history_one, decide_True by done.
        eapply life_ended; [done|]. by apply Hd.
    + rewrite list_lookup_insert_ne in Hk by done.
      destruct (ok_slots _ _ _ Hw k sk Hk) as (G1 & G2 & (b & Hb & Gl) & Gd).
      split_and!; try done.
      * exists b. split; [done|]. by rewrite slot_history_one, decide_False by congruence.
      * split; [done|]. intros Hne. exfalso. apply Gd in Hne. unfold active_slot in *. congruence.
  - done.
  - intros k Hk. rewrite length_insert in Hk. rewrite slot_history_one, decide_False by lia.
    by apply (ok_fresh _ _ _ Hw).
Qed.

Lemma failure_ok w armed h i slot :
  world_ok w armed h -> world_slots w !! i = Some slot -> world_ok (set_slot w i (with_failure slot)) armed h.
Proof.
  intros Hw Hs. pose proof (lookup_lt_Some _ _ _ Hs) as Hi. split; cbn.
  - rewrite length_insert. apply Hw.
  - unfold list_len. rewrite length_insert. apply Hw.
  - intros k sk Hk. destruct (decide (k = i)) as [->|Hki].
    + rewrite list_lookup_insert_eq in Hk by done. injection Hk as <-. by apply (ok_slots _ _ _ Hw i slot).
    + rewrite list_lookup_insert_ne in Hk by done. by apply (ok_slots _ _ _ Hw).
  - intros g k Hk. rewrite length_insert. by apply (ok_active _ _ _ Hw).
  - intros k Hk. rewrite length_insert in Hk. by apply (ok_fresh _ _ _ Hw).
Qed.

(** A logged effect changes nothing. *)
Lemma log_ok w armed h effects : world_ok w armed h -> world_ok (log w effects) armed h.
Proof. intros []. by split. Qed.

(** *** Requests *)

Definition same_size (w w' : ResultWorld) : Prop :=
  epoch_session_generation (world_epoch w') = epoch_session_generation (world_epoch w) /\
  length (world_slots w') = length (world_slots w).

Lemma with_current_state_eq {T} w armed h l (f : nat -> ResultSlot -> option (ResultSlotState * list Effect * T)) :
  world_ok w armed h -> lease_ok w l ->
  (lease_active_result l = None /\ with_current_state w l f = Some (w, Err Submission_NoActiveSlot)) \/
  (exists g i, lease_active_result l = Some (g, i) /\ ~ active_slot w i /\
     with_current_state w l f = Some (w, Err Submission_TurnUnavailable)) \/
  (exists g i slot, lease_active_result l = Some (g, i) /\ active_slot w i /\ world_slots w !! i = Some slot /\
     with_current_state w l f =
     ('(state, effects, outcome) ← f i slot;
      Some (log (set_slot w i (with_state slot state)) effects, Ok outcome))).
Proof.
  intros Hw [Hs Hl]. unfold with_current_state. destruct (lease_active_result l) as [[g i]|]; [right|by left].
  destruct (Hl g i eq_refl) as [-> Hi]. rewrite Hs, Z.eqb_refl. cbn [negb].
  destruct (epoch_revoked (world_epoch w)) eqn:Er.
  { left. exists (Z.of_nat i + 1), i. split_and!; try done. intros Ha.
    destruct (ok_active _ _ _ Hw _ _ Ha) as (_ & _ & ?). congruence. }
  destruct (lookup_lt_is_Some_2 (world_slots w) i Hi) as [slot Hsl]. rewrite Hsl. cbn [mbind option_bind].
  destruct (ok_slots _ _ _ Hw i slot Hsl) as (G1 & G2 & _). rewrite G1, G2, !Z.eqb_refl.
  cbn [negb]. rewrite !orb_false_r. pose proof (is_active_slot w armed h i Hw) as Ha.
  destruct (is_active (world_epoch w) (Z.of_nat i + 1) i); cbn [negb].
  - right. exists (Z.of_nat i + 1), i, slot. split_and!; try done. by apply Ha.
  - left. exists (Z.of_nat i + 1), i. split_and!; try done. intros Hc. by apply Ha in Hc.
Qed.

(** Reading the active slot leaves the world as it is. *)
Lemma read_ok w armed h i slot effects :
  world_ok w armed h -> active_slot w i -> world_slots w !! i = Some slot ->
  world_ok (log (set_slot w i (with_state slot (slot_state slot))) effects) armed h.
Proof.
  intros Hw Ha Hs. destruct (active_slot_lookup w armed h i Hw Ha) as (s & a & Hs' & Haa & Hl & Hd & _).
  assert (s = slot) as -> by congruence.
  pose proof (slot_update_ok w armed h i slot a (slot_state slot) [] effects Hw Ha Hs Haa) as Hu.
  cbn in Hu. rewrite !app_nil_r in Hu. auto.
Qed.

Lemma set_slot_size w i slot : same_size w (set_slot w i slot).
Proof. split; [done|]. cbn. apply length_insert. Qed.

Definition is_verdict (s : ResultSubmission) : bool :=
  match s with
  | Submission_Invalid _ _ _ | Submission_Rejected _ | Submission_Accepted | Submission_SchemaCallbackFailed => true
  | _ => false
  end.

(** A critical section of request [j] that answers it. *)
Definition answers (w : ResultWorld) (armed : list (SchemaArc * option Z)) (h : list (nat * SlotEvent)) (j : nat)
    (l : ResultRequestLease) (stage : RequestStage) (w' : ResultWorld) (s : ResultSubmission) : Prop :=
  world_ok w' armed (h ++ answered j l stage (Stage_Done s)) /\ same_size w w' /\
  (is_verdict s = true -> lease_active_result l <> None /\ verdict j stage s <> []).

Lemma answered_active j l g i stage s :
  lease_active_result l = Some (g, i) -> is_done stage = false ->
  answered j l stage (Stage_Done s) = map (pair i) (verdict j stage s).
Proof. intros Hl Hd. unfold answered. by rewrite Hl, Hd. Qed.

Lemma answered_none j l stage s :
  verdict j stage s = [] -> answered j l stage (Stage_Done s) = [].
Proof. intros Hv. unfold answered. destruct (lease_active_result l) as [[g i]|]; [|done]. rewrite Hv. by destruct (is_done stage). Qed.

Lemma answers_same w armed h j l stage s :
  world_ok w armed h -> is_verdict s = false -> answers w armed h j l stage w s.
Proof.
  intros Hw Hs. split; [|split; [done|by rewrite Hs]].
  rewrite answered_none, app_nil_r; [done|]. by destruct s, stage.
Qed.

Lemma settled_no_verdict state : is_verdict (settled_answer state) = false.
Proof. by destruct state. Qed.

(** A slot whose state was read only. *)
Lemma answers_read w armed h j l stage s i slot effects :
  world_ok w armed h -> active_slot w i -> world_slots w !! i = Some slot -> is_verdict s = false ->
  answers w armed h j l stage (log (set_slot w i (with_state slot (slot_state slot))) effects) s.
Proof.
  intros Hw Ha Hs Hv. split; [|split; [split; [done|cbn; apply length_insert]|by rewrite Hv]].
  rewrite answered_none, app_nil_r by by destruct s, stage. by apply read_ok.
Qed.

Lemma life_awaiting_inv a h schema bridge n last :
  slot_life a h (Slot_Awaiting schema bridge n last) -> schema = a.1 /\ bridge = a.2 /\ repairs h n last.
Proof. intros Hl. by inversion Hl; subst. Qed.

Lemma same_size_update w i slot effects : same_size w (log (set_slot w i slot) effects).
Proof. split; [done|]. cbn. apply length_insert. Qed.

Lemma cancel_failure_ok w armed h l :
  world_ok w armed h -> lease_ok w l ->
  exists w', cancel_failure w l = Some w' /\ world_ok w' armed h /\ same_size w w'.
Proof.
  intros Hw [_ Hl]. unfold cancel_failure. destruct (lease_active_result l) as [[g i]|]; [|by exists w].
  destruct (Hl g i eq_refl) as [_ Hi]. destruct (lookup_lt_is_Some_2 (world_slots w) i Hi) as [slot Hs].
  rewrite Hs. eexists. split; [done|]. split; [by apply failure_ok|apply set_slot_size].
Qed.

Lemma lease_ok_size w w' l : same_size w w' -> lease_ok w l -> lease_ok w' l.
Proof. intros [E1 E2] [Hs Hl]. unfold lease_ok. by rewrite E1, E2. Qed.

Lemma same_size_trans w1 w2 w3 : same_size w1 w2 -> same_size w2 w3 -> same_size w1 w3.
Proof. intros [] []. split; congruence. Qed.

Lemma publish_answers w armed h j l issues truncated :
  world_ok w armed h -> lease_ok w l ->
  exists w' s, publish_invalid w l issues truncated = Some (w', s) /\
    answers w armed h j l (Stage_Publish issues truncated) w' s.
Proof.
  intros Hw Hl. unfold publish_invalid.
  match goal with |- context [with_current_state w l ?f] =>
    destruct (with_current_state_eq w armed h l f Hw Hl) as [[Hn ->]|[(g & i & Hi & Hna & ->)|(g & i & slot & Hi & Ha & Hs & ->)]]
  end; cbn [mbind option_bind is_rejected answer].
  1-2: eexists _, _; split; [done|]; by apply answers_same.
  destruct (active_slot_lookup w armed h i Hw Ha) as (s' & a & Hs' & Haa & Hlife & Hd & _).
  assert (s' = slot) as -> by congruence.
  destruct (slot_state slot) as [schema bridge n last| | | |] eqn:Est.
  2-5: cbn [mbind option_bind is_rejected answer settled_answer];
    eexists _, _; (split; [done|]); rewrite <- Est; by apply answers_read.
  apply life_awaiting_inv in Hlife as (-> & -> & Hrep). pose proof (repairs_bounds _ _ _ Hrep) as Hn.
  unfold MAX_REPAIRABLE_INVALID_CALLS in Hn.
  unfold checked_add. rewrite checked_in_range by (unfold int_min, int_max; lia). cbn [mbind option_bind].
  destruct (bound_validation_issues_total issues truncated (n + 1)) as [[bounded marked] Hb]. rewrite Hb.
  cbn [mbind option_bind]. destruct (Z.leb_spec (n + 1) MAX_REPAIRABLE_INVALID_CALLS).
  - cbn [mbind option_bind is_rejected answer]. eexists _, _. split; [done|]. split; [|split; [apply same_size_update|]].
    + rewrite (answered_active _ _ _ _ _ _ Hi) by done. eapply slot_update_ok; try done.
      apply life_awaiting. eapply repairs_more; [exact Hrep|lia].
    + intros _. by rewrite Hi.
  - assert (n = MAX_REPAIRABLE_INVALID_CALLS) as -> by (unfold MAX_REPAIRABLE_INVALID_CALLS in *; lia).
    cbn [mbind option_bind is_rejected].
    match goal with |- context [cancel_failure ?w1 l] =>
      assert (Hw1 : world_ok w1 armed (h ++ answered j l (Stage_Publish issues truncated)
        (Stage_Done (Submission_Rejected (MAX_REPAIRABLE_INVALID_CALLS + 1)))) /\ same_size w w1)
    end.
    { split; [|apply same_size_update]. rewrite (answered_active _ _ _ _ _ _ Hi) by done.
      eapply slot_update_ok; try done. eapply life_rejected; [exact Hrep|exact Hb]. }
    destruct Hw1 as [Hw1 Hz].
    destruct (cancel_failure_ok _ armed _ l Hw1) as (w' & -> & Hw' & Hz'); [by eapply lease_ok_size|].
    cbn [mbind option_bind answer]. eexists _, _. split; [done|]. split; [done|].
    split; [by eapply same_size_trans|]. intros _. by rewrite Hi.
Qed.

Lemma accept_answers w armed h j l c json :
  world_ok w armed h -> lease_ok w l ->
  (exists g i, lease_active_result l = Some (g, i) /\ validated armed i json c) ->
  exists w' s, accept_result w l (candidate_schema c) (candidate_value c) = Some (w', s) /\
    answers w armed h j l (Stage_Accept c) w' s.
Proof.
  intros Hw Hl (g0 & i0 & Hi0 & bridge0 & Hv & _). unfold accept_result.
  match goal with |- context [with_current_state w l ?f] =>
    destruct (with_current_state_eq w armed h l f Hw Hl) as [[Hn ->]|[(g & i & Hi & Hna & ->)|(g & i & slot & Hi & Ha & Hs & ->)]]
  end; cbn [mbind option_bind answer].
  1-2: eexists _, _; split; [done|]; by apply answers_same.
  destruct (active_slot_lookup w armed h i Hw Ha) as (s' & a & Hs' & Haa & Hlife & Hd & _).
  assert (s' = slot) as -> by congruence. assert (i0 = i) as -> by congruence.
  rewrite Hv in Haa. injection Haa as <-.
  destruct (slot_state slot) as [schema bridge n last| | | |] eqn:Est.
  2-5: cbn [mbind option_bind answer settled_answer];
    eexists _, _; (split; [done|]); rewrite <- Est; by apply answers_read.
  apply life_awaiting_inv in Hlife as (-> & -> & Hrep). cbn [fst snd].
  unfold same_schema. rewrite Z.eqb_refl. cbn [mbind option_bind answer]. eexists _, _. split; [done|].
  split; [|split; [apply same_size_update|]].
  - rewrite (answered_active _ _ _ _ _ _ Hi) by done. eapply slot_update_ok; try done. eapply life_accepted. exact Hrep.
  - intros _. by rewrite Hi.
Qed.

Lemma callback_answers w armed h j l c error json :
  world_ok w armed h -> lease_ok w l ->
  (exists g i, lease_active_result l = Some (g, i) /\ validated armed i json c) ->
  exists w' s, callback_failed w l (candidate_schema c) error = Some (w', s) /\
    answers w armed h j l (Stage_CallbackFailed c error) w' s.
Proof.
  intros Hw Hl (g0 & i0 & Hi0 & bridge0 & Hv & _). unfold callback_failed.
  match goal with |- context [with_current_state w l ?f] =>
    destruct (with_current_state_eq w armed h l f Hw Hl) as [[Hn ->]|[(g & i & Hi & Hna & ->)|(g & i & slot & Hi & Ha & Hs & ->)]]
  end; cbn [mbind option_bind is_callback_failed answer].
  1-2: eexists _, _; split; [done|]; by apply answers_same.
  destruct (active_slot_lookup w armed h i Hw Ha) as (s' & a & Hs' & Haa & Hlife & Hd & _).
  assert (s' = slot) as -> by congruence. assert (i0 = i) as -> by congruence.
  rewrite Hv in Haa. injection Haa as <-.
  destruct (slot_state slot) as [schema bridge n last| | | |] eqn:Est.
  2-5: cbn [mbind option_bind is_callback_failed answer settled_answer];
    eexists _, _; (split; [done|]); rewrite <- Est; by apply answers_read.
  apply life_awaiting_inv in Hlife as (-> & -> & Hrep). cbn [fst snd].
  unfold same_schema. rewrite Z.eqb_refl. cbn [mbind option_bind is_callback_failed].
  match goal with |- context [cancel_failure ?w1 l] =>
    assert (Hw1 : world_ok w1 armed (h ++ answered j l (Stage_CallbackFailed c error)
      (Stage_Done Submission_SchemaCallbackFailed)) /\ same_size w w1)
  end.
  { split; [|apply same_size_update]. rewrite (answered_active _ _ _ _ _ _ Hi) by done.
    eapply slot_update_ok; try done. eapply life_callback_failed. exact Hrep. }
  destruct Hw1 as [Hw1 Hz].
  destruct (cancel_failure_ok _ armed _ l Hw1) as (w' & -> & Hw' & Hz'); [by eapply lease_ok_size|].
  cbn [mbind option_bind answer]. eexists _, _. split; [done|]. split; [done|].
  split; [by eapply same_size_trans|]. intros _. by rewrite Hi.
Qed.

(** *** A step of a request *)

Definition advanced (r : Request) (stage : RequestStage) (jobs : CustomValidationOutcome) : Request :=
  mkRequest (request_lease r) (request_value r) stage
    (request_callbacks_ok r || jobs_accepted (request_stage r) jobs).

Definition told (j : nat) (r : Request) (stage : RequestStage) : Prop :=
  forall s, stage = Stage_Done s -> is_verdict s = true -> is_done (request_stage r) = false ->
  lease_active_result (request_lease r) <> None /\ verdict j (request_stage r) s <> [].

Definition advance_ok (w : ResultWorld) (armed : list (SchemaArc * option Z)) (h : list (nat * SlotEvent)) (j : nat)
    (r : Request) (jobs : CustomValidationOutcome) (w' : ResultWorld) (stage : RequestStage) : Prop :=
  world_ok w' armed (h ++ answered j (request_lease r) (request_stage r) stage) /\ same_size w w' /\
  stage_ok armed (advanced r stage jobs) /\ told j r stage.

Lemma advance_answers w armed h j r jobs w' s :
  is_done (request_stage r) = false ->
  answers w armed h j (request_lease r) (request_stage r) w' s ->
  advance_ok w armed h j r jobs w' (Stage_Done s).
Proof.
  intros Hd (Hw & Hz & Hv). split; [done|]. split; [done|]. split; [done|].
  intros s' [= <-] Hs _. auto.
Qed.

(** A step that does not answer. *)
Lemma advance_silent w armed h j r jobs w' stage :
  world_ok w' armed h -> same_size w w' -> is_done stage = false -> stage_ok armed (advanced r stage jobs) ->
  advance_ok w armed h j r jobs w' stage.
Proof.
  intros Hw Hz Hd Hs. split; [|split; [done|split; [done|]]].
  - unfold answered. destruct (lease_active_result (request_lease r)) as [[g i]|]; rewrite ?app_nil_r; [|done].
    by destruct stage; rewrite ?app_nil_r.
  - intros s ->. done.
Qed.

Lemma bridge_step w armed h j r granted jobs :
  world_ok w armed h -> lease_ok w (request_lease r) -> request_stage r = Stage_Submit ->
  exists w' stage, submit_step w (request_lease r) (request_value r) granted jobs Stage_Submit = Some (w', stage) /\
    advance_ok w armed h j r jobs w' stage.
Proof.
  intros Hw Hl Hst. cbn [submit_step]. unfold validation_bridge.
  match goal with |- context [with_current_state w _ ?f] =>
    destruct (with_current_state_eq w armed h _ f Hw Hl) as [[Hn ->]|[(g & i & Hi & Hna & ->)|(g & i & slot & Hi & Ha & Hs & ->)]]
  end; cbn [mbind option_bind flatten].
  1-2: eexists _, _; split; [done|]; apply advance_answers; rewrite Hst; [done|by apply answers_same].
  assert (Hdone : forall s effects, is_verdict s = false ->
    advance_ok w armed h j r jobs (log (set_slot w i (with_state slot (slot_state slot))) effects) (Stage_Done s)).
  { intros s effects Hv. apply advance_answers; rewrite Hst; [done|by apply answers_read]. }
  assert (Hgo : forall stage effects, match stage with Stage_AwaitPermit _ | Stage_Start _ => True | _ => False end ->
    advance_ok w armed h j r jobs (log (set_slot w i (with_state slot (slot_state slot))) effects) stage).
  { intros stage effects Hg. apply advance_silent; [by apply read_ok|apply same_size_update|by destruct stage|].
    destruct stage; try done; by exists g, i. }
  destruct (slot_state slot) as [schema [b|] n last| | | |] eqn:Est;
    eexists _, _; (split; [done|]); first [by apply Hgo|apply Hdone; done].
Qed.

Lemma start_step w armed h j r granted jobs bridge :
  world_ok w armed h -> lease_ok w (request_lease r) -> request_stage r = Stage_Start bridge ->
  exists w' stage, submit_step w (request_lease r) (request_value r) granted jobs (Stage_Start bridge) = Some (w', stage) /\
    advance_ok w armed h j r jobs w' stage.
Proof.
  intros Hw Hl Hst. cbn [submit_step]. unfold submission_schema.
  match goal with |- context [with_current_state w _ ?f] =>
    destruct (with_current_state_eq w armed h _ f Hw Hl) as [[Hn ->]|[(g & i & Hi & Hna & ->)|(g & i & slot & Hi & Ha & Hs & ->)]]
  end; cbn [mbind option_bind flatten].
  1-2: eexists _, _; split; [done|]; apply advance_answers; rewrite Hst; [done|by apply answers_same].
  assert (Hdone : forall s effects, is_verdict s = false ->
    advance_ok w armed h j r jobs (log (set_slot w i (with_state slot (slot_state slot))) effects) (Stage_Done s)).
  { intros s effects Hv. apply advance_answers; rewrite Hst; [done|by apply answers_read]. }
  destruct (active_slot_lookup w armed h i Hw Ha) as (s' & a & Hs' & Haa & Hlife & Hd & _).
  assert (s' = slot) as -> by congruence.
  destruct (slot_state slot) as [schema b n last| | | |] eqn:Est; cbn [flatten].
  2-5: eexists _, _; (split; [done|]); apply Hdone; done.
  apply life_awaiting_inv in Hlife as (-> & -> & Hrep). cbn [mbind option_bind flatten]. unfold after_start.
  destruct (schema_validate_verdict (schema_root a.1) (request_value r)) as (outcome & Ho & _). rewrite Ho.
  cbn [mbind option_bind].
  assert (Hgo : forall stage, is_done stage = false ->
    stage_ok armed (advanced r stage jobs) ->
    advance_ok w armed h j r jobs
      (log (set_slot w i (with_state slot (Slot_Awaiting a.1 a.2 n last))) [ObserveSubmitted i]) stage).
  { intros stage Hsd Hok. apply advance_silent; [|apply same_size_update|done|done]. rewrite <- Est. by apply read_ok. }
  destruct outcome as [v [|job rest]|issues truncated].
  - eexists _, _. split; [done|]. apply Hgo; [done|]. exists g, i. split; [done|]. split; [|by left].
    exists a.2. split; [by destruct a|done].
  - destruct bridge as [b|].
    + eexists _, _. split; [done|]. apply Hgo; [done|]. exists g, i. split; [done|].
      exists a.2. split; [by destruct a|done].
    + eexists _, _. split; [done|]. by apply Hdone.
  - eexists _, _. split; [done|]. apply Hgo; [done|]. by exists g, i.
Qed.

Lemma submit_step_ok w armed h j r granted jobs :
  world_ok w armed h -> lease_ok w (request_lease r) -> stage_ok armed r ->
  exists w' stage, submit_step w (request_lease r) (request_value r) granted jobs (request_stage r) = Some (w', stage) /\
    advance_ok w armed h j r jobs w' stage.
Proof.
  intros Hw Hl Hr. destruct (request_stage r) as [|b|b|issues t|b c|c|c e|s] eqn:Est; unfold stage_ok in Hr; rewrite Est in Hr.
  - by eapply bridge_step.
  - cbn [submit_step]. eexists _, _. split; [done|]. destruct granted.
    + apply advance_silent; done.
    + apply advance_answers; rewrite Est; [done|by apply answers_same].
  - by apply start_step.
  - cbn [submit_step]. destruct (publish_answers w armed h j (request_lease r) issues t Hw Hl) as (w' & s & -> & Ha).
    eexists _, _. split; [done|]. apply advance_answers; rewrite Est; done.
  - cbn [submit_step]. destruct Hr as (g & i & Hi & Hv). destruct jobs as [|path message t|error|]; cbn [after_jobs];
      eexists _, _; (split; [done|]).
    + apply advance_silent; [done|done|done|]. exists g, i. split; [done|]. split; [done|]. right.
      unfold advanced. cbn [request_callbacks_ok]. rewrite Est. apply orb_true_r.
    + apply advance_silent; [done|done|done|]. by exists g, i.
    + apply advance_silent; [done|done|done|]. by exists g, i.
    + apply advance_answers; rewrite Est; [done|by apply answers_same].
  - cbn [submit_step]. destruct Hr as (g & i & Hi & Hv & _).
    destruct (accept_answers w armed h j (request_lease r) c (request_value r) Hw Hl) as (w' & s & -> & Ha); [by exists g, i|].
    eexists _, _. split; [done|]. apply advance_answers; rewrite Est; done.
  - cbn [submit_step]. destruct Hr as (g & i & Hi & Hv).
    destruct (callback_answers w armed h j (request_lease r) c e (request_value r) Hw Hl) as (w' & s & -> & Ha); [by exists g, i|].
    eexists _, _. split; [done|]. apply advance_answers; rewrite Est; done.
  - cbn [submit_step]. eexists _, _. split; [done|]. split; [|split; [done|split; [done|]]].
    + unfold answered. rewrite Est. cbn [is_done]. destruct (lease_active_result _) as [[??]|]; by rewrite app_nil_r.
    + intros s' [= ->] _ Hd. by rewrite Est in Hd.
Qed.

(** *** The steps of the system *)

Lemma stage_ok_more armed a r : stage_ok armed r -> stage_ok (armed ++ [a]) r.
Proof.
  unfold stage_ok, validated.
  assert (Hm : forall i x, armed !! i = Some x -> (armed ++ [a]) !! i = Some x)
    by (intros i x; apply lookup_app_l_Some).
  destruct (request_stage r); naive_solver.
Qed.

Lemma event_ok_more armed a requests rs i e :
  event_ok armed requests i e -> event_ok (armed ++ a) (requests ++ rs) i e.
Proof.
  assert (Ha : forall i x, armed !! i = Some x -> (armed ++ a) !! i = Some x)
    by (intros ? x; apply lookup_app_l_Some).
  assert (Hr : forall i x, requests !! i = Some x -> (requests ++ rs) !! i = Some x)
    by (intros ? x; apply lookup_app_l_Some).
  destruct e; cbn; [naive_solver|naive_solver| |naive_solver|done..].
  intros (r & g & schema & bridge & jobs & Hq & Hl & Hs & Harm & Hv & Hj).
  exists r, g, schema, bridge, jobs. split_and!; auto.
Qed.

Lemma answer_ok_more h es j r : answer_ok h j r -> answer_ok (h ++ es) j r.
Proof.
  unfold answer_ok. destruct (request_stage r) as [| | | | | | |[]]; try done;
    setoid_rewrite elem_of_app; naive_solver.
Qed.

(** Operations that do not touch requests. *)
Lemma sys_ok_ops sys w' leases' es :
  sys_ok sys -> world_ok w' (sys_armed sys) (sys_history sys ++ es) -> same_size (sys_world sys) w' ->
  Forall (armed_ok (sys_world sys)) leases' ->
  (forall i e, (i, e) ∈ es -> match e with E_Cancelled | E_Handed _ | E_Ended => True | _ => False end) ->
  sys_ok (with_leases sys w' leases' es).
Proof.
  intros Hs Hw [Hz1 Hz2] Hl He. split; cbn; [done| | |].
  - eapply Forall_impl; [exact Hl|]. intros l. unfold armed_ok. by rewrite Hz2.
  - intros j r Hr. destruct (ok_requests _ Hs j r Hr) as (G1 & G2 & G3).
    split; [by eapply lease_ok_size|]. split; [done|]. by apply answer_ok_more.
  - intros i e [Hin|Hin]%elem_of_app; [by apply (ok_events _ Hs)|]. specialize (He i e Hin). by destruct e.
Qed.

Lemma arm_step_ok sys operation_id turn_index schema bridge context :
  sys_ok sys ->
  exists sys', sys_step sys (Arm operation_id turn_index schema bridge context) = Some sys' /\ sys_ok sys'.
Proof.
  intros Hs. cbn [sys_step]. eexists. split; [done|]. pose proof (ok_world _ Hs) as Hw.
  assert (Hsame : sys_ok (mkSystem (sys_world sys) (sys_armed sys) (sys_leases sys) (sys_requests sys) (sys_history sys)))
    by (by destruct sys).
  unfold arm. destruct (epoch_revoked (world_epoch (sys_world sys))) eqn:Er; [done|].
  destruct (epoch_active (world_epoch (sys_world sys))) as [p|] eqn:Ea; [done|].
  destruct (checked_add U64 _ 1) as [g|] eqn:Eg; [|done].
  unfold checked_add in Eg. apply checked_some in Eg as [-> _]. rewrite (ok_generation _ _ _ Hw).
  unfold list_len. split; cbn.
  - split; cbn.
    + rewrite !length_app, (ok_armed _ _ _ Hw). done.
    + unfold list_len. rewrite length_app. cbn. lia.
    + intros i slot Hi. destruct (decide (i = length (world_slots (sys_world sys)))) as [->|Hne].
      * rewrite lookup_app_r, Nat.sub_diag in Hi by done. injection Hi as <-. cbn.
        split; [done|]. split; [done|]. split.
        -- exists (schema, bridge). split; [by rewrite <- (ok_armed _ _ _ Hw), lookup_app_r, Nat.sub_diag|].
           rewrite (ok_fresh _ _ _ Hw) by done. apply (life_awaiting (schema, bridge)). constructor.
        -- done.
      * assert (Hi' : world_slots (sys_world sys) !! i = Some slot).
        { apply lookup_app_Some in Hi as [Hi|[Hl Hi]]; [done|]. apply list_lookup_singleton_Some in Hi as [Hi _]. lia. }
        destruct (ok_slots _ _ _ Hw i slot Hi') as (G1 & G2 & (a & Haa & Hlife) & Hd).
        split; [done|]. split; [done|]. split.
        -- exists a. split; [by apply lookup_app_l_Some|done].
        -- unfold active_slot in *. rewrite Ea in Hd. cbn. split; [|naive_solver].
           intros [= _ E]. by destruct Hne.
    + intros g i [= <- <-]. rewrite length_app. cbn. split; [done|]. split; [lia|done].
    + intros i Hi. rewrite length_app in Hi. cbn in Hi. apply (ok_fresh _ _ _ Hw). lia.
  - apply Forall_app. split.
    + eapply Forall_impl; [apply (ok_leases _ Hs)|]. intros l [G1 G2]. split; [done|]. cbn. rewrite length_app. lia.
    + constructor; [|done]. split; [done|]. cbn. rewrite length_app. cbn. lia.
  - intros j r Hr. destruct (ok_requests _ Hs j r Hr) as ([G1 G1'] & G2 & G3).
    split; [|split; [by apply stage_ok_more|done]]. split; [done|]. cbn. intros g i Hi.
    destruct (G1' g i Hi) as [-> Hlt]. split; [done|]. rewrite length_app. lia.
  - intros i e Hin. rewrite <- (app_nil_r (sys_requests sys)). apply event_ok_more. by apply (ok_events _ Hs).
Qed.

Lemma acquire_ok w armed h : world_ok w armed h -> lease_ok w (acquire_request w).
Proof.
  intros Hw. split; [done|]. intros g i. cbn.
  destruct (epoch_revoked (world_epoch w)); cbn; [done|]. intros Ha.
  destruct (ok_active _ _ _ Hw g i Ha) as (-> & Hi & _). done.
Qed.

Lemma send_step_ok sys value :
  sys_ok sys -> exists sys', sys_step sys (Send value) = Some sys' /\ sys_ok sys'.
Proof.
  intros Hs. cbn [sys_step]. eexists. split; [done|]. split; cbn; [apply Hs|apply Hs| |].
  - intros j r Hr. apply lookup_app_Some in Hr as [Hr|[_ Hr]]; [by apply (ok_requests _ Hs)|].
    apply list_lookup_singleton_Some in Hr as [_ <-]. cbn. split; [|done].
    eapply acquire_ok. apply Hs.
  - intros i e Hin. rewrite <- (app_nil_r (sys_armed sys)). apply event_ok_more. by apply (ok_events _ Hs).
Qed.

(** An event of a slot, when request [j] moves on. *)
Lemma event_ok_advanced armed requests j r stage jobs i e :
  requests !! j = Some r -> (is_done (request_stage r) = true -> stage = request_stage r) ->
  event_ok armed requests i e -> event_ok armed (<[j := advanced r stage jobs]> requests) i e.
Proof.
  intros Hj Hd.
  assert (Hm : forall k q, requests !! k = Some q -> is_done (request_stage q) = true ->
    <[j := advanced r stage jobs]> requests !! k = Some q).
  { intros k q Hk Hq. destruct (decide (k = j)) as [->|]; [|by rewrite list_lookup_insert_ne].
    assert (q = r) as -> by congruence. rewrite list_lookup_insert_eq by by eapply lookup_lt_Some.
    unfold advanced. rewrite Hd by done. destruct r as [l v st ok]; cbn in *.
    destruct st; try done. cbn. by rewrite orb_false_r. }
  assert (Hq : forall k i s, (exists q g, requests !! k = Some q /\ lease_active_result (request_lease q) = Some (g, i) /\
      request_stage q = Stage_Done s) ->
    exists q g, <[j := advanced r stage jobs]> requests !! k = Some q /\
      lease_active_result (request_lease q) = Some (g, i) /\ request_stage q = Stage_Done s).
  { intros k i' s (q & g & Hk & Hl & Hs). exists q, g. split; [|done]. apply Hm; [done|]. by rewrite Hs. }
  destruct e; cbn; [apply Hq|apply Hq| |apply Hq|done..].
  intros (q & g & schema & bridge & js & Hk & Hl & Hs & Harm & Hv & Hjs).
  exists q, g, schema, bridge, js. split_and!; try done. apply Hm; [done|]. by rewrite Hs.
Qed.

(** The events of the step itself. *)
Lemma event_ok_answered armed requests j r stage jobs i e :
  requests !! j = Some r -> stage_ok armed r ->
  (i, e) ∈ answered j (request_lease r) (request_stage r) stage ->
  event_ok armed (<[j := advanced r stage jobs]> requests) i e.
Proof.
  intros Hj Hok Hin. pose proof (lookup_lt_Some _ _ _ Hj) as Hlt. unfold answered in Hin.
  destruct (lease_active_result (request_lease r)) as [[g k]|] eqn:El; [|by apply elem_of_nil in Hin].
  destruct stage as [| | | | | | |s]; try by apply elem_of_nil in Hin.
  destruct (is_done (request_stage r)) eqn:Ed; [by apply elem_of_nil in Hin|].
  apply list_elem_of_fmap in Hin as (e' & [= -> ->] & Hin).
  assert (Hq : <[j := advanced r (Stage_Done s) jobs]> requests !! j = Some (advanced r (Stage_Done s) jobs))
    by by apply list_lookup_insert_eq.
  unfold verdict in Hin. destruct s, (request_stage r) as [| | | | |c|c err|] eqn:Est; try by apply elem_of_nil in Hin.
  all: apply list_elem_of_singleton in Hin as ->; cbn; try (eexists _, g; split; [exact Hq|]; split; done).
  unfold stage_ok in Hok. rewrite Est in Hok. destruct Hok as (g' & i' & El' & (bridge & Harm & Hv) & Hc).
  rewrite El in El'. injection El' as <- <-.
  exists (advanced r (Stage_Done Submission_Accepted) jobs), g, (candidate_schema c), bridge, (candidate_custom_jobs c).
  split_and!; try done. destruct Hc as [Hc|Hc]; [by left|right]. cbn. by rewrite Hc.
Qed.

Lemma answer_ok_advanced h j r stage jobs :
  answer_ok h j r -> told j r stage -> (is_done (request_stage r) = true -> stage = request_stage r) ->
  answer_ok (h ++ answered j (request_lease r) (request_stage r) stage) j (advanced r stage jobs).
Proof.
  intros Hr Ht Hd. destruct (is_done (request_stage r)) eqn:Ed.
  { rewrite (Hd eq_refl) in *. apply answer_ok_more. exact Hr. }
  unfold answer_ok. cbn [request_stage advanced]. destruct stage as [| | | | | | |s]; try done.
  destruct (is_verdict s) eqn:Ev; [|by destruct s].
  destruct (Ht s eq_refl Ev Ed) as [Hn Hv].
  destruct (lease_active_result (request_lease r)) as [[g i]|] eqn:El; [|done].
  rewrite (answered_active _ _ _ _ _ _ El Ed). cbn [request_lease advanced]. rewrite El.
  destruct s; try done; cbn [verdict] in *; destruct (request_stage r); try done;
    repeat eexists; apply elem_of_app; right; apply list_elem_of_singleton; done.
Qed.

Lemma submit_step_done w l v granted jobs stage w' stage' :
  is_done stage = true -> submit_step w l v granted jobs stage = Some (w', stage') -> stage' = stage.
Proof. destruct stage; try done. intros _ [= _ <-]. done. Qed.

Lemma advance_step_ok sys j granted jobs :
  sys_ok sys -> exists sys', sys_step sys (Advance j granted jobs) = Some sys' /\ sys_ok sys'.
Proof.
  intros Hs. cbn [sys_step]. destruct (sys_requests sys !! j) as [r|] eqn:Hj; [|by exists sys].
  destruct (ok_requests _ Hs j r Hj) as (Hl & Hst & Han).
  destruct (submit_step_ok _ _ _ j r granted jobs (ok_world _ Hs) Hl Hst) as (w' & stage & Hstep & Hw & Hz & Hok & Ht).
  rewrite Hstep. cbn [mbind option_bind]. eexists. split; [done|].
  assert (Hd : is_done (request_stage r) = true -> stage = request_stage r)
    by (intros Hd; by eapply submit_step_done).
  change (mkRequest (request_lease r) (request_value r) stage (request_callbacks_ok r || jobs_accepted (request_stage r) jobs))
    with (advanced r stage jobs).
  split; cbn; [done| | |].
  - destruct Hz as [_ Hz]. eapply Forall_impl; [apply (ok_leases _ Hs)|]. intros l. unfold armed_ok. by rewrite Hz.
  - intros k q Hk. destruct (decide (k = j)) as [->|Hne].
    + rewrite list_lookup_insert_eq in Hk by by eapply lookup_lt_Some. injection Hk as <-.
      split; [by eapply lease_ok_size|]. split; [done|]. by apply answer_ok_advanced.
    + rewrite list_lookup_insert_ne in Hk by done. destruct (ok_requests _ Hs k q Hk) as (G1 & G2 & G3).
      split; [by eapply lease_ok_size|]. split; [done|]. by apply answer_ok_more.
  - intros i e [Hin|Hin]%elem_of_app.
    + apply event_ok_advanced; [done|done|]. by apply (ok_events _ Hs).
    + by apply event_ok_answered.
Qed.

Lemma lease_active_true w armed h l :
  world_ok w armed h -> armed_ok w l ->
  is_active (world_epoch w) (armed_arm_generation l) (armed_slot l) = true <-> active_slot w (armed_slot l).
Proof. intros Hw [-> _]. by eapply is_active_slot. Qed.

(** [w'] is what a lease operation leaves, after the events [es]. *)
Definition lease_op (w : ResultWorld) (armed : list (SchemaArc * option Z)) (h : list (nat * SlotEvent))
    (w' : ResultWorld) (es : list (nat * SlotEvent)) : Prop :=
  world_ok w' armed (h ++ es) /\ same_size w w' /\
  forall i e, (i, e) ∈ es -> match e with E_Cancelled | E_Handed _ | E_Ended => True | _ => False end.

Lemma lease_op_none w armed h : world_ok w armed h -> lease_op w armed h w [].
Proof. intros Hw. split; [by rewrite app_nil_r|]. split; [done|]. by intros i e ?%elem_of_nil. Qed.

Lemma lease_op_one w armed h w' i e :
  world_ok w' armed (h ++ [(i, e)]) -> same_size w w' ->
  match e with E_Cancelled | E_Handed _ | E_Ended => True | _ => False end ->
  lease_op w armed h w' [(i, e)].
Proof. intros Hw Hz He. split; [done|]. split; [done|]. by intros ? ? [= -> ->]%list_elem_of_singleton. Qed.

Lemma cancel_op w armed h l :
  world_ok w armed h -> armed_ok w l ->
  exists w' outcome, lease_begin_cancellation w l = Some (w', outcome) /\
    lease_op w armed h w' (match outcome with Cancel_Cancelled => [(armed_slot l, E_Cancelled)] | _ => [] end).
Proof.
  intros Hw Hl. unfold lease_begin_cancellation, begin_cancellation.
  destruct (armed_armed l); cbn [negb]; [|eexists _, _; split; [done|by apply lease_op_none]].
  pose proof (lease_active_true w armed h l Hw Hl) as Ha.
  destruct (is_active (world_epoch w) _ _); cbn [negb]; rewrite ?orb_true_r, ?orb_false_r.
  2: { eexists _, _. split; [done|by apply lease_op_none]. }
  destruct Ha as [Ha _]. specialize (Ha eq_refl).
  destruct (active_slot_lookup w armed h _ Hw Ha) as (slot & a & Hs & Haa & Hlife & Hd & Hr).
  rewrite Hr, Hs. cbn [mbind option_bind].
  assert (Hone : forall w', w' = set_slot w (armed_slot l) (with_state slot (Slot_Settling None)) \/
      (exists effects, w' = log (set_slot w (armed_slot l) (with_state slot (Slot_Settling None))) effects) ->
    match slot_state slot with Slot_Awaiting _ _ _ _ | Slot_Accepted _ | Slot_Settling None => True | _ => False end ->
    lease_op w armed h w' [(armed_slot l, E_Cancelled)]).
  { intros w' Hw' Hst.
    assert (Hu : forall effects, world_ok (log (set_slot w (armed_slot l) (with_state slot (Slot_Settling None))) effects)
      armed (h ++ map (pair (armed_slot l)) [E_Cancelled])).
    { intros effects. eapply slot_update_ok; try done. by eapply life_cancelled. }
    destruct Hw' as [->|[effects ->]]; (apply lease_op_one; [|split; [done|cbn; apply length_insert]|done]).
    - specialize (Hu []). unfold log in Hu. cbn in Hu. rewrite app_nil_r in Hu. exact Hu.
    - apply Hu. }
  destruct (slot_state slot) as [schema bridge n last|v|n is_ t|[error|]|] eqn:Est; eexists _, _; (split; [done|]);
    cbn [fst snd].
  - apply Hone; [|done]. right. exists (begin_close (armed_slot l) bridge ++ close (armed_slot l) bridge).
    unfold log, set_slot. cbn. by rewrite app_assoc.
  - apply Hone; [by left|done].
  - by apply lease_op_none.
  - by apply lease_op_none.
  - assert (Hsame : world_ok w armed (h ++ map (pair (armed_slot l)) [E_Cancelled])).
    { pose proof (slot_update_ok w armed h (armed_slot l) slot a (Slot_Settling None) [E_Cancelled] [] Hw Ha Hs Haa) as Hu.
      replace (with_state slot (Slot_Settling None)) with slot in Hu
        by (destruct slot; cbn in Est |- *; by rewrite Est).
      unfold log, set_slot in Hu. rewrite list_insert_id in Hu by done.
      cbn [world_effects world_epoch world_slots] in Hu. rewrite app_nil_r in Hu.
      destruct w. apply Hu; [|done]. by eapply life_cancelled. }
    by apply lease_op_one.
  - done.
Qed.

Lemma take_failure_op w armed h l :
  world_ok w armed h -> armed_ok w l ->
  exists w' outcome, lease_take_failure w l = Some (w', outcome) /\
    lease_op w armed h w' (match outcome with Some f => [(armed_slot l, E_Handed f)] | None => [] end).
Proof.
  intros Hw Hl. unfold lease_take_failure, take_failure_for_handoff.
  destruct (armed_armed l); cbn [negb]; [|eexists _, _; split; [done|by apply lease_op_none]].
  pose proof (lease_active_true w armed h l Hw Hl) as Ha.
  destruct (is_active (world_epoch w) _ _); cbn [negb]; rewrite ?orb_true_r, ?orb_false_r.
  2: { eexists _, _. split; [done|by apply lease_op_none]. }
  destruct Ha as [Ha _]. specialize (Ha eq_refl).
  destruct (active_slot_lookup w armed h _ Hw Ha) as (slot & a & Hs & Haa & Hlife & Hd & Hr).
  rewrite Hr, Hs. cbn [mbind option_bind].
  assert (Hu : forall es, slot_life a (slot_history h (armed_slot l) ++ es) (Slot_Settling None) ->
    world_ok (set_slot w (armed_slot l) (with_state slot (Slot_Settling None))) armed (h ++ map (pair (armed_slot l)) es)).
  { intros es He. pose proof (slot_update_ok w armed h (armed_slot l) slot a (Slot_Settling None) es [] Hw Ha Hs Haa He) as Hu.
    unfold log in Hu. cbn in Hu. rewrite app_nil_r in Hu. by apply Hu. }
  destruct (slot_state slot) as [schema bridge n last|v|n is_ t|[error|]|] eqn:Est; eexists _, _; (split; [done|]);
    cbn [fst snd mbind option_bind].
  - by apply lease_op_none.
  - by apply lease_op_none.
  - apply lease_op_one; [|apply set_slot_size|done]. apply (Hu [E_Handed _]). by eapply life_handed.
  - apply lease_op_one; [|apply set_slot_size|done]. apply (Hu [E_Handed _]). by eapply life_handed.
  - split; [|split; [apply set_slot_size|by intros ? ? ?%elem_of_nil]]. apply (Hu []). by rewrite app_nil_r.
  - done.
Qed.

Lemma repairs_last h n last : repairs h n last -> n = 0 \/ is_Some last.
Proof. destruct 1; [by left|by right]. Qed.

Lemma settle_op w armed h l :
  world_ok w armed h -> armed_ok w l ->
  exists w' prepared, lease_prepare_settlement w l = Some (w', unarmed l, prepared) /\
    lease_op w armed h w' (ended w l) /\
    (lease_active w l = false -> prepared_outcome prepared = Some Settlement_Unavailable) /\
    forall slot, lease_active w l = true -> world_slots w !! armed_slot l = Some slot ->
      prepared_outcome prepared = result_at_settlement (slot_state slot).
Proof.
  intros Hw Hl. unfold lease_prepare_settlement, prepare_settlement, ended, lease_active.
  destruct (armed_armed l); cbn [andb mbind option_bind].
  2: { eexists _, _. split; [done|]. split; [by apply lease_op_none|done]. }
  pose proof (lease_active_true w armed h l Hw Hl) as Ha.
  destruct (is_active (world_epoch w) _ _); cbn [negb mbind option_bind].
  2: { eexists _, _. split; [done|]. split; [by apply lease_op_none|done]. }
  destruct Ha as [Ha _]. specialize (Ha eq_refl).
  destruct (active_slot_lookup w armed h _ Hw Ha) as (slot & a & Hs & Haa & Hlife & Hd & Hr).
  rewrite Hs. cbn [mbind option_bind].
  assert (Ho : is_Some (result_at_settlement (slot_state slot))).
  { destruct (slot_state slot) as [schema bridge n last|v|n is_ t|e|]; cbn; try done.
    apply life_awaiting_inv in Hlife as (_ & _ & Hrep).
    destruct (Z.eqb_spec n 0); [done|]. destruct (repairs_last _ _ _ Hrep) as [|[[is_ t] ->]]; [lia|done]. }
  destruct Ho as [o Ho]. rewrite Ho. cbn [mbind option_bind]. eexists _, _. split; [done|]. split; [|split; [done|]].
  - apply lease_op_one; [|split; [done|cbn; apply length_insert]|done].
    unfold log, set_slot, set_epoch, without_active. cbn [world_epoch world_slots world_effects].
    eapply disarm_ok; done.
  - intros s _ [= <-]. cbn [prepared_outcome]. by rewrite Ho.
Qed.

Lemma release_op w armed h l :
  world_ok w armed h -> armed_ok w l ->
  exists w' l', lease_release w l = Some (w', l') /\ armed_ok w l' /\ lease_op w armed h w' (ended w l).
Proof.
  intros Hw Hl. unfold lease_release, disarm, ended, lease_active.
  destruct (armed_armed l); cbn [andb mbind option_bind].
  2: { eexists _, _. split; [done|]. split; [done|by apply lease_op_none]. }
  pose proof (lease_active_true w armed h l Hw Hl) as Ha.
  destruct (is_active (world_epoch w) _ _); cbn [negb mbind option_bind].
  2: { eexists _, _. split; [done|]. split; [done|by apply lease_op_none]. }
  destruct Ha as [Ha _]. specialize (Ha eq_refl).
  destruct (active_slot_lookup w armed h _ Hw Ha) as (slot & a & Hs & Haa & Hlife & Hd & Hr).
  rewrite Hs. cbn [mbind option_bind]. eexists _, _. split; [done|]. split; [done|].
  apply lease_op_one; [|split; [done|cbn; apply length_insert]|done].
  unfold log, set_slot, set_epoch, without_active. cbn [world_epoch world_slots world_effects].
  eapply disarm_ok; done.
Qed.

Lemma revoke_op w armed h :
  world_ok w armed h ->
  exists w', epoch_revoke w = Some w' /\
    lease_op w armed h w' (match epoch_active (world_epoch w) with Some (_, i) => [(i, E_Ended)] | None => [] end).
Proof.
  intros Hw. unfold epoch_revoke. destruct (epoch_active (world_epoch w)) as [[g i]|] eqn:Ea.
  - destruct (ok_active _ _ _ Hw g i Ea) as (-> & _ & _).
    destruct (active_slot_lookup w armed h i Hw Ea) as (slot & a & Hs & Haa & Hlife & Hd & Hr).
    rewrite Hs. cbn [mbind option_bind]. eexists. split; [done|].
    apply lease_op_one; [|split; [done|cbn; apply length_insert]|done].
    unfold log, set_slot, set_epoch. cbn [world_epoch world_slots world_effects]. eapply disarm_ok; done.
  - eexists. split; [done|]. split; [|split; [done|by intros ? ? ?%elem_of_nil]]. rewrite app_nil_r.
    destruct Hw as [E1 E2 E3 E4 E5]. split; cbn; try done.
    intros i slot Hi. destruct (E3 i slot Hi) as (F1 & F2 & F3 & F4). split_and!; try done.
    split; [done|]. intros Hne. apply F4 in Hne. unfold active_slot in Hne. congruence.
Qed.

(** *** Every step succeeds *)

Lemma sys_step_ok sys action : sys_ok sys -> exists sys', sys_step sys action = Some sys' /\ sys_ok sys'.
Proof.
  intros Hs. pose proof (ok_world _ Hs) as Hw. pose proof (ok_leases _ Hs) as Hls.
  assert (Hlease : forall k l, sys_leases sys !! k = Some l -> armed_ok (sys_world sys) l)
    by (intros k l Hk; rewrite Forall_lookup in Hls; by eapply Hls).
  destruct action as [op turn schema bridge context|value|j granted jobs|k|k|k|k|].
  - by apply arm_step_ok.
  - by apply send_step_ok.
  - by apply advance_step_ok.
  - cbn [sys_step]. destruct (sys_leases sys !! k) as [l|] eqn:Hk; [|by exists sys].
    destruct (cancel_op _ _ _ l Hw (Hlease _ _ Hk)) as (w' & o & -> & Ho & Hz & He). cbn [mbind option_bind].
    eexists. split; [done|]. by apply sys_ok_ops.
  - cbn [sys_step]. destruct (sys_leases sys !! k) as [l|] eqn:Hk; [|by exists sys].
    destruct (take_failure_op _ _ _ l Hw (Hlease _ _ Hk)) as (w' & o & -> & Ho & Hz & He). cbn [mbind option_bind].
    eexists. split; [done|]. by apply sys_ok_ops.
  - cbn [sys_step]. destruct (sys_leases sys !! k) as [l|] eqn:Hk; [|by exists sys].
    destruct (settle_op _ _ _ l Hw (Hlease _ _ Hk)) as (w' & p & -> & (Ho & Hz & He) & _). cbn [mbind option_bind].
    eexists. split; [done|]. apply sys_ok_ops; try done. apply Forall_insert; [done|]. exact (Hlease k l Hk).
  - cbn [sys_step]. destruct (sys_leases sys !! k) as [l|] eqn:Hk; [|by exists sys].
    destruct (release_op _ _ _ l Hw (Hlease _ _ Hk)) as (w' & l' & -> & Hl' & Ho & Hz & He). cbn [mbind option_bind].
    eexists. split; [done|]. apply sys_ok_ops; try done. by apply Forall_insert.
  - cbn [sys_step]. destruct (revoke_op _ _ _ Hw) as (w' & -> & Ho & Hz & He). cbn [mbind option_bind].
    eexists. split; [done|]. by apply sys_ok_ops.
Qed.

Lemma system_new_ok session_generation : sys_ok (System_new session_generation).
Proof.
  split; cbn; [|done| |by intros ? ? ?%elem_of_nil].
  - split; cbn; done.
  - done.
Qed.

Lemma sys_reachable_ok session_generation sys : sys_reachable session_generation sys -> sys_ok sys.
Proof.
  induction 1 as [|sys action sys' _ IH Hstep]; [apply system_new_ok|].
  destruct (sys_step_ok sys action IH) as (x & Hx & Hok). congruence.
Qed.

(** ** What a life looks like *)

Definition is_final (e : SlotEvent) : bool :=
  match e with E_Rejected _ _ _ _ | E_Accepted _ _ | E_CallbackFailed _ _ => true | _ => false end.

Definition is_control (e : SlotEvent) : bool :=
  match e with E_Cancelled | E_Handed _ | E_Ended => true | _ => false end.

(** A life is invalid calls, at most one final answer, and then the doings of
    the turn. *)
Definition life_shape (h : list SlotEvent) : Prop :=
  exists calls n last final control,
    h = calls ++ final ++ control /\ repairs calls n last /\
    (final = [] \/ exists e, final = [e] /\ is_final e = true /\
       match e with
       | E_Rejected _ _ _ m => n = MAX_REPAIRABLE_INVALID_CALLS /\ m = MAX_REPAIRABLE_INVALID_CALLS + 1
       | _ => True
       end) /\
    Forall (fun e => is_control e = true) control.

Lemma slot_life_shape a h state : slot_life a h state -> life_shape h.
Proof.
  intros Hl. induction Hl as [h n last Hr|h n last r v Hr|h last r is_ t b m Hr Hb|h n last r e Hr
                             |h st Hl IH Hst|h st f Hl IH Hst|h st Hl IH Hst].
  - exists h, n, last, [], []. rewrite !app_nil_r. split_and!; auto.
  - exists h, n, last, [E_Accepted r v], []. split_and!; eauto 10.
  - exists h, MAX_REPAIRABLE_INVALID_CALLS, last,
      [E_Rejected r is_ t (MAX_REPAIRABLE_INVALID_CALLS + 1)], []. split_and!; eauto 10.
  - exists h, n, last, [E_CallbackFailed r e], []. split_and!; eauto 10.
  - destruct IH as (c & n & last & f & ct & -> & Hr & Hf & Hc). exists c, n, last, f, (ct ++ [E_Cancelled]).
    rewrite <- !app_assoc. split_and!; try done. apply Forall_app. by split; [|constructor].
  - destruct IH as (c & n & last & fi & ct & -> & Hr & Hf & Hc). exists c, n, last, fi, (ct ++ [E_Handed f]).
    rewrite <- !app_assoc. split_and!; try done. apply Forall_app. by split; [|constructor].
  - destruct IH as (c & n & last & fi & ct & -> & Hr & Hf & Hc). exists c, n, last, fi, (ct ++ [E_Ended]).
    rewrite <- !app_assoc. split_and!; try done. apply Forall_app. by split; [|constructor].
Qed.

Lemma repairs_calls h n last :
  repairs h n last ->
  (forall e, e ∈ h -> exists r issues t m, e = E_Invalid r issues t m /\ 1 <= m <= n) /\
  (forall m, 1 <= m <= n -> exists r issues t, E_Invalid r issues t m ∈ h) /\
  (forall r1 r2 i1 i2 t1 t2 m, E_Invalid r1 i1 t1 m ∈ h -> E_Invalid r2 i2 t2 m ∈ h -> r1 = r2).
Proof.
  induction 1 as [|h n last r issues t Hr IH Hn].
  - split; [by intros ? ?%elem_of_nil|]. split; [lia|]. by intros ? ? ? ? ? ? ? ?%elem_of_nil.
  - destruct IH as (I1 & I2 & I3). pose proof (repairs_bounds _ _ _ Hr) as Hb. split; [|split].
    + intros e [He|He%list_elem_of_singleton]%elem_of_app.
      * destruct (I1 e He) as (r' & i' & t' & m & -> & Hm). exists r', i', t', m. split; [done|lia].
      * subst e. exists r, issues, t, (n + 1). split; [done|lia].
    + intros m Hm. destruct (decide (m = n + 1)) as [->|].
      * exists r, issues, t. apply elem_of_app. right. by apply list_elem_of_singleton.
      * destruct (I2 m) as (r' & i' & t' & Hin); [lia|]. exists r', i', t'. apply elem_of_app. by left.
    + intros r1 r2 i1 i2 t1 t2 m [H1'|H1'%list_elem_of_singleton]%elem_of_app
        [H2'|H2'%list_elem_of_singleton]%elem_of_app.
      * by eapply I3.
      * injection H2' as -> -> -> ->. apply I1 in H1' as (? & ? & ? & ? & [= <- <- <- <-] & ?). lia.
      * injection H1' as -> -> -> ->. apply I1 in H2' as (? & ? & ? & ? & [= <- <- <- <-] & ?). lia.
      * congruence.
Qed.

Lemma shape_final h e e' :
  life_shape h -> e ∈ h -> e' ∈ h -> is_final e = true -> is_final e' = true -> e = e'.
Proof.
  intros (calls & n & last & final & control & -> & Hr & Hf & Hc).
  destruct (repairs_calls _ _ _ Hr) as (I1 & _ & _).
  assert (Hin : forall x, x ∈ calls ++ final ++ control -> is_final x = true -> x ∈ final).
  { intros x [Hx|[Hx|Hx]%elem_of_app]%elem_of_app Hfin; [|done|].
    - apply I1 in Hx as (? & ? & ? & ? & -> & _). done.
    - rewrite Forall_forall in Hc. apply Hc in Hx. by destruct x. }
  intros He He' Hfe Hfe'. apply Hin in He, He'; [|done..].
  destruct Hf as [->|(x & -> & _)]; [by apply elem_of_nil in He|].
  apply list_elem_of_singleton in He, He'. congruence.
Qed.

Lemma shape_invalid h r issues t m :
  life_shape h -> E_Invalid r issues t m ∈ h ->
  1 <= m <= MAX_REPAIRABLE_INVALID_CALLS /\
  (forall m', 1 <= m' <= m -> exists r' i' t', E_Invalid r' i' t' m' ∈ h) /\
  (forall r' i' t', E_Invalid r' i' t' m ∈ h -> r' = r).
Proof.
  intros (calls & n & last & final & control & -> & Hr & Hf & Hc).
  destruct (repairs_calls _ _ _ Hr) as (I1 & I2 & I3). pose proof (repairs_bounds _ _ _ Hr).
  assert (Hin : forall r i t m, E_Invalid r i t m ∈ calls ++ final ++ control -> E_Invalid r i t m ∈ calls).
  { intros r' i' t' m' [Hx|[Hx|Hx]%elem_of_app]%elem_of_app; [done| |].
    - destruct Hf as [->|(x & -> & Hx' & _)]; [by apply elem_of_nil in Hx|].
      apply list_elem_of_singleton in Hx. by subst x.
    - rewrite Forall_forall in Hc. by apply Hc in Hx. }
  intros He%Hin. destruct (I1 _ He) as (? & ? & ? & ? & [= <- <- <- <-] & Hm). split; [lia|]. split.
  - intros m' Hm'. destruct (I2 m') as (r' & i' & t' & Hx); [lia|]. exists r', i', t'. apply elem_of_app. by left.
  - intros r' i' t' Hx%Hin. by eapply I3.
Qed.

Lemma shape_rejected h r issues t m :
  life_shape h -> E_Rejected r issues t m ∈ h ->
  m = MAX_REPAIRABLE_INVALID_CALLS + 1 /\
  forall m', 1 <= m' <= MAX_REPAIRABLE_INVALID_CALLS -> exists r' i' t', E_Invalid r' i' t' m' ∈ h.
Proof.
  intros (calls & n & last & final & control & -> & Hr & Hf & Hc).
  destruct (repairs_calls _ _ _ Hr) as (I1 & I2 & I3).
  intros [Hx|[Hx|Hx]%elem_of_app]%elem_of_app.
  - by apply I1 in Hx as (? & ? & ? & ? & ? & _).
  - destruct Hf as [->|(x & -> & _ & Hx')]; [by apply elem_of_nil in Hx|].
    apply list_elem_of_singleton in Hx. subst x. destruct Hx' as [-> ->]. split; [done|].
    intros m' Hm'. destruct (I2 m' Hm') as (r' & i' & t' & Hy). exists r', i', t'. apply elem_of_app. by left.
  - rewrite Forall_forall in Hc. by apply Hc in Hx.
Qed.

Lemma shape_of_slot sys i e :
  sys_ok sys -> (i, e) ∈ sys_history sys -> life_shape (slot_history (sys_history sys) i).
Proof.
  intros Hs Hin. apply slot_history_elem in Hin.
  destruct (decide (i < length (world_slots (sys_world sys)))%nat) as [Hi|Hi].
  - destruct (lookup_lt_is_Some_2 _ _ Hi) as [slot Hsl].
    destruct (ok_slots _ _ _ (ok_world _ Hs) i slot Hsl) as (_ & _ & (a & _ & Hl) & _).
    by eapply slot_life_shape.
  - rewrite (ok_fresh _ _ _ (ok_world _ Hs)) in Hin by lia. by apply elem_of_nil in Hin.
Qed.

(** ** The promises *)

(** The slot a request submits to. *)
Definition submits_to (r : Request) (i : nat) : Prop := exists g, lease_active_result (request_lease r) = Some (g, i).

Definition final_answer (s : ResultSubmission) : bool :=
  match s with
  | Submission_Rejected _ | Submission_Accepted | Submission_SchemaCallbackFailed => true
  | _ => false
  end.

(** The event of a final answer. *)
Lemma final_event sys j r i s :
  sys_ok sys -> sys_requests sys !! j = Some r -> submits_to r i -> request_stage r = Stage_Done s ->
  final_answer s = true ->
  exists e, (i, e) ∈ sys_history sys /\ is_final e = true /\
    match e with E_Rejected k _ _ _ | E_Accepted k _ | E_CallbackFailed k _ => k = j | _ => False end /\
    match s with Submission_Accepted => exists v, e = E_Accepted j v | _ => True end.
Proof.
  intros Hs Hr [g Hg] Hd Hf. destruct (ok_requests _ Hs j r Hr) as (_ & _ & Ha). unfold answer_ok in Ha.
  rewrite Hd in Ha. destruct s; try done.
  - destruct Ha as (g' & i' & is_ & t & Hg' & Hin). rewrite Hg in Hg'. injection Hg' as <- <-. by eexists.
  - destruct Ha as (g' & i' & v & Hg' & Hin). rewrite Hg in Hg'. injection Hg' as <- <-. eexists. eauto.
  - destruct Ha as (g' & i' & e & Hg' & Hin). rewrite Hg in Hg'. injection Hg' as <- <-. by eexists.
Qed.

Lemma result_step_total session_generation sys action :
  sys_reachable session_generation sys -> is_Some (sys_step sys action).
Proof.
  intros Hr. destruct (sys_step_ok sys action) as (sys' & -> & _); [by eapply sys_reachable_ok|done].
Qed.

(** Whatever the order of turns, cancellations and concurrent requests, no
    operation of the result channel panics: the count of invalid calls never
    overflows, an invalid call always leaves its issues for the settlement,
    every result has an outcome and its detail can be bounded. *)
Theorem result_channel_never_panics session_generation sys action :
  sys_reachable session_generation sys -> is_Some (sys_step sys action).
Proof. apply result_step_total. Qed.

(** C17: a slot accepts at most one result: when a request was told that its
    result is accepted, no other request of the slot is told that, a rejection
    or a failed callback; and what it submitted is valid for the schema the slot
    was armed with, its custom jobs were accepted, and the value accepted is
    the validated one. *)
Theorem result_accepted_once session_generation sys i j r slot :
  sys_reachable session_generation sys ->
  sys_requests sys !! j = Some r -> submits_to r slot -> request_stage r = Stage_Done Submission_Accepted ->
  (exists schema bridge value jobs, sys_armed sys !! slot = Some (schema, bridge) /\
     schema_validate (schema_root schema) (request_value r) = Some (Valid value jobs) /\
     (jobs = [] \/ request_callbacks_ok r = true) /\ (slot, E_Accepted j value) ∈ sys_history sys) /\
  forall r' s, sys_requests sys !! i = Some r' -> submits_to r' slot -> request_stage r' = Stage_Done s ->
    final_answer s = true -> i = j.
Proof.
  intros Hreach Hj Hto Hd. pose proof (sys_reachable_ok _ _ Hreach) as Hs.
  destruct (final_event sys j r slot _ Hs Hj Hto Hd eq_refl) as (e & Hin & He & _ & [v ->]).
  pose proof (ok_events _ Hs _ _ Hin) as Hv. cbn in Hv.
  destruct Hv as (r0 & g & schema & bridge & jobs & Hr0 & Hg & _ & Harm & Hval & Hjobs).
  assert (r0 = r) as -> by congruence. split; [by exists schema, bridge, v, jobs|].
  intros r' s Hi Hto' Hd' Hf. destruct (final_event sys i r' slot s Hs Hi Hto' Hd' Hf) as (e' & Hin' & He' & Hk & _).
  pose proof (shape_of_slot sys slot _ Hs Hin) as Hshape. apply slot_history_elem in Hin, Hin'.
  pose proof (shape_final _ _ _ Hshape Hin Hin' He He') as <-. by subst.
Qed.

(** The invalid calls of a slot are numbered exactly: a request that is
    told the number n has been preceded by one for every smaller number, no two
    are told the same number, none is told more than eight, and the slot is
    rejected by the ninth only. *)
Theorem invalid_calls_counted session_generation sys j r slot :
  sys_reachable session_generation sys ->
  sys_requests sys !! j = Some r -> submits_to r slot ->
  let told_number k n := exists r' issues t, sys_requests sys !! k = Some r' /\ submits_to r' slot /\
    request_stage r' = Stage_Done (Submission_Invalid issues t n) in
  (forall n, told_number j n ->
     1 <= n <= MAX_REPAIRABLE_INVALID_CALLS /\
     (forall m, 1 <= m <= n -> exists k, told_number k m) /\
     (forall k, told_number k n -> k = j)) /\
  (forall n, request_stage r = Stage_Done (Submission_Rejected n) ->
     n = MAX_REPAIRABLE_INVALID_CALLS + 1 /\
     forall m, 1 <= m <= MAX_REPAIRABLE_INVALID_CALLS -> exists k, told_number k m).
Proof.
  intros Hreach Hj [g Hto] told_number. pose proof (sys_reachable_ok _ _ Hreach) as Hs.
  assert (Hev : forall k n, told_number k n -> exists issues t, (slot, E_Invalid k issues t n) ∈ sys_history sys).
  { intros k n (q & issues & t & Hk & [gq Hq] & Hd). destruct (ok_requests _ Hs k q Hk) as (_ & _ & Ha).
    unfold answer_ok in Ha. rewrite Hd in Ha. destruct Ha as (g' & i' & Hg' & Hin).
    rewrite Hq in Hg'. injection Hg' as <- <-. eauto. }
  assert (Hback : forall k issues t n, (slot, E_Invalid k issues t n) ∈ sys_history sys -> told_number k n).
  { intros k issues t n Hin. apply (ok_events _ Hs) in Hin as (q & gq & Hk & Hq & Hd).
    exists q, issues, t. split; [done|]. split; [by exists gq|done]. }
  split; intros n Hn.
  - apply Hev in Hn as (issues & t & Hin). pose proof (shape_of_slot sys slot _ Hs Hin) as Hshape.
    apply slot_history_elem in Hin. destruct (shape_invalid _ _ _ _ _ Hshape Hin) as (Hb & Hm & Hu).
    split; [done|]. split.
    + intros m Hmn. destruct (Hm m Hmn) as (k & i' & t' & Hx). exists k. by eapply Hback, slot_history_elem.
    + intros k Hk. apply Hev in Hk as (i' & t' & Hx). by eapply Hu, slot_history_elem.
  - destruct (ok_requests _ Hs j r Hj) as (_ & _ & Ha). unfold answer_ok in Ha. rewrite Hn in Ha.
    destruct Ha as (g' & i' & issues & t & Hg' & Hin). rewrite Hto in Hg'. injection Hg' as <- <-.
    pose proof (shape_of_slot sys slot _ Hs Hin) as Hshape. apply slot_history_elem in Hin.
    destruct (shape_rejected _ _ _ _ _ Hshape Hin) as (-> & Hm). split; [done|].
    intros m Hmn. destruct (Hm m Hmn) as (k & i2 & t2 & Hx). exists k. by eapply Hback, slot_history_elem.
Qed.

(** What a slot settles to is told by the last thing that happened to it. *)
Definition settles_as (h : list SlotEvent) (outcome : ResultAtSettlement) : Prop :=
  match outcome with
  | Settlement_Missing => h = []
  | Settlement_Accepted value => exists h' request, h = h' ++ [E_Accepted request value]
  | Settlement_Rejected issues n truncated =>
      (exists h' request, h = h' ++ [E_Invalid request issues truncated n]) \/
      (exists h' request all marked, h = h' ++ [E_Rejected request all marked n] /\
         bound_validation_issues all marked n = Some (issues, truncated))
  | Settlement_SchemaCallbackFailed error => exists h' request, h = h' ++ [E_CallbackFailed request error]
  | Settlement_Unavailable => exists h' e, h = h' ++ [e] /\ (e = E_Cancelled \/ exists failure, e = E_Handed failure)
  end.

Lemma life_settles a h state outcome :
  slot_life a h state -> state <> Slot_Disarmed -> result_at_settlement state = Some outcome -> settles_as h outcome.
Proof.
  intros Hl Hd. destruct Hl as [h n last Hr|h n last r v Hr|h last r is_ t b m Hr Hb|h n last r e Hr
                             |h st Hl Hst|h st f Hl Hst|h st Hl Hst]; cbn [result_at_settlement].
  - destruct Hr as [|h n last r is_ t Hr Hn]; [intros [= <-]; done|].
    pose proof (repairs_bounds _ _ _ Hr). rewrite (proj2 (Z.eqb_neq (n + 1) 0)) by lia.
    intros [= <-]. left. by eexists _, _.
  - intros [= <-]. by eexists _, _.
  - intros [= <-]. right. by eexists _, _, _, _.
  - intros [= <-]. by eexists _, _.
  - intros [= <-]. eexists _, _. split; [done|by left].
  - intros [= <-]. eexists _, _. split; [done|right; by eexists].
  - done.
Qed.

(** C18: a turn that settles gets the truth: the accepted value exactly when its
    last answer was an acceptance, nothing when the agent submitted nothing
    that counted, the issues and the count of the last invalid call, or of the
    ninth, the error of a failed callback, and no outcome when the turn was
    cancelled, its failure was handed over, or its slot is not armed any more. *)
Theorem settlement_truthful session_generation sys k lease :
  sys_reachable session_generation sys -> sys_leases sys !! k = Some lease ->
  exists w' prepared outcome,
    lease_prepare_settlement (sys_world sys) lease = Some (w', unarmed lease, prepared) /\
    prepared_outcome prepared = Some outcome /\
    if lease_active (sys_world sys) lease
    then settles_as (slot_history (sys_history sys) (armed_slot lease)) outcome
    else outcome = Settlement_Unavailable.
Proof.
  intros Hreach Hk. pose proof (sys_reachable_ok _ _ Hreach) as Hs. pose proof (ok_world _ Hs) as Hw.
  assert (Hl : armed_ok (sys_world sys) lease).
  { pose proof (ok_leases _ Hs) as Hls. rewrite Forall_lookup in Hls. by eapply Hls. }
  destruct (settle_op _ _ _ lease Hw Hl) as (w' & p & Hp & _ & Hn & Ha).
  destruct (lease_active (sys_world sys) lease) eqn:Eact.
  - assert (Hact : active_slot (sys_world sys) (armed_slot lease)).
    { unfold lease_active in Eact. apply andb_prop in Eact as [_ Eact]. by eapply lease_active_true. }
    destruct (active_slot_lookup _ _ _ _ Hw Hact) as (slot & a & Hsl & Haa & Hlife & Hd & _).
    specialize (Ha slot eq_refl Hsl).
    assert (Hsome : exists o, result_at_settlement (slot_state slot) = Some o).
    { destruct (slot_state slot) as [schema bridge n last|v|n is_ t|e|]; cbn; eauto.
      apply life_awaiting_inv in Hlife as (_ & _ & Hrep).
      destruct (Z.eqb_spec n 0); [by eexists|]. destruct (repairs_last _ _ _ Hrep) as [|[[is_ t] ->]]; [lia|by eexists]. }
    destruct Hsome as [o Ho]. exists w', p, o. split; [done|]. split; [congruence|]. by eapply life_settles.
  - exists w', p, Settlement_Unavailable. split; [done|]. split; [by apply Hn|done].
Qed.

(** *** After the end *)

Lemma life_ended_last a h1 h2 state : slot_life a (h1 ++ E_Ended :: h2) state -> h2 = [].
Proof.
  intros Hl. remember (h1 ++ E_Ended :: h2) as h eqn:E.
  assert (Hno : forall h, (exists n last, repairs h n last) -> E_Ended ∉ h).
  { intros h' (n & last & Hr) Hin. destruct (repairs_calls _ _ _ Hr) as (I1 & _).
    by apply I1 in Hin as (? & ? & ? & ? & ? & _). }
  assert (Hlast : forall h' x, h1 ++ E_Ended :: h2 = h' ++ [x] -> E_Ended ∉ h' -> h2 = []).
  { intros h' x Ex Hni. destruct h2 as [|y l] using rev_ind; [done|]. exfalso.
    rewrite app_comm_cons, app_assoc in Ex. apply app_inj_tail in Ex as [<- _].
    apply Hni, elem_of_app. right. left. }
  assert (Hend : forall h' st, slot_life a h' st -> st <> Slot_Disarmed -> E_Ended ∉ h').
  { clear. intros h' st Hl. induction Hl as [h n last Hr|h n last r v Hr|h last r is_ t b m Hr Hb|h n last r e Hr
                             |h st Hl IH Hst|h st f Hl IH Hst|h st Hl IH Hst]; intros Hd Hin.
    1: destruct (repairs_calls _ _ _ Hr) as (I1 & _); by apply I1 in Hin as (? & ? & ? & ? & ? & _).
    1-3: apply elem_of_app in Hin as [Hin|Hin%list_elem_of_singleton]; [|done];
      destruct (repairs_calls _ _ _ Hr) as (I1 & _); by apply I1 in Hin as (? & ? & ? & ? & ? & _).
    - apply elem_of_app in Hin as [Hin|Hin%list_elem_of_singleton]; [|done]. apply IH; [by intros ->|done].
    - apply elem_of_app in Hin as [Hin|Hin%list_elem_of_singleton]; [|done]. apply IH; [by intros ->|done].
    - done. }
  destruct Hl as [h n last Hr|h n last r v Hr|h last r is_ t b m Hr Hb|h n last r e Hr
                 |h st Hl Hst|h st f Hl Hst|h st Hl Hst].
  - exfalso. apply (Hno h); [eauto|]. rewrite E. apply elem_of_app. right. left.
  - symmetry in E. eapply Hlast; [exact E|]. apply Hno. eauto.
  - symmetry in E. eapply Hlast; [exact E|]. apply Hno. eauto.
  - symmetry in E. eapply Hlast; [exact E|]. apply Hno. eauto.
  - symmetry in E. eapply Hlast; [exact E|]. eapply Hend; [done|]. by intros ->.
  - symmetry in E. eapply Hlast; [exact E|]. eapply Hend; [done|]. by intros ->.
  - symmetry in E. eapply Hlast; [exact E|]. by eapply Hend.
Qed.

Lemma sys_step_history sys action sys' :
  sys_step sys action = Some sys' -> exists es, sys_history sys' = sys_history sys ++ es.
Proof.
  intros Hstep.
  assert (Hnil : sys_history sys' = sys_history sys -> exists es, sys_history sys' = sys_history sys ++ es).
  { intros ->. exists []. by rewrite app_nil_r. }
  destruct action as [op turn schema bridge context|value|j granted jobs|k|k|k|k|]; cbn [sys_step] in Hstep.
  - injection Hstep as <-. apply Hnil. by destruct (arm _ _ _ _ _ _) as [w [l|e]].
  - injection Hstep as <-. by apply Hnil.
  - destruct (sys_requests sys !! j); [|injection Hstep as <-; by apply Hnil].
    destruct (submit_step _ _ _ _ _ _) as [[w st]|]; [|done]. injection Hstep as <-. by eexists.
  - destruct (sys_leases sys !! k); [|injection Hstep as <-; by apply Hnil].
    destruct (lease_begin_cancellation _ _) as [[w o]|]; [|done]. injection Hstep as <-. by eexists.
  - destruct (sys_leases sys !! k); [|injection Hstep as <-; by apply Hnil].
    destruct (lease_take_failure _ _) as [[w o]|]; [|done]. injection Hstep as <-. by eexists.
  - destruct (sys_leases sys !! k); [|injection Hstep as <-; by apply Hnil].
    destruct (lease_prepare_settlement _ _) as [[[w l] p]|]; [|done]. injection Hstep as <-. by eexists.
  - destruct (sys_leases sys !! k); [|injection Hstep as <-; by apply Hnil].
    destruct (lease_release _ _) as [[w l]|]; [|done]. injection Hstep as <-. by eexists.
  - destruct (epoch_revoke _); [|done]. injection Hstep as <-. by eexists.
Qed.

(** A request of a slot that ended is told that its turn is over. *)
Lemma ended_answer w armed h l v granted jobs stage w' s i :
  world_ok w armed h -> lease_ok w l -> (exists g, lease_active_result l = Some (g, i)) -> ~ active_slot w i ->
  submit_step w l v granted jobs stage = Some (w', Stage_Done s) -> is_done stage = false ->
  s = Submission_TurnUnavailable /\ w' = w.
Proof.
  intros Hw Hl [g Hg] Hna.
  assert (Hno : forall T (f : nat -> ResultSlot -> option (ResultSlotState * list Effect * T)),
    with_current_state w l f = Some (w, Err Submission_TurnUnavailable)).
  { intros T f. destruct (with_current_state_eq w armed h l f Hw Hl)
      as [[Hn _]|[(g' & i' & _ & _ & E)|(g' & i' & slot & Hi & Ha & _)]]; [congruence|done|].
    rewrite Hg in Hi. injection Hi as <- <-. done. }
  destruct stage as [|b|b|issues t|b c|c|c e|s0]; cbn [submit_step]; try done; intros Hstep _.
  - unfold validation_bridge in Hstep. rewrite Hno in Hstep. by injection Hstep as <- <-.
  - destruct granted; [discriminate Hstep|]. by injection Hstep as <- <-.
  - unfold submission_schema in Hstep. rewrite Hno in Hstep. by injection Hstep as <- <-.
  - unfold publish_invalid in Hstep. rewrite Hno in Hstep. by injection Hstep as <- <-.
  - destruct jobs; try discriminate Hstep. by injection Hstep as <- <-.
  - unfold accept_result in Hstep. rewrite Hno in Hstep. by injection Hstep as <- <-.
  - unfold callback_failed in Hstep. rewrite Hno in Hstep. by injection Hstep as <- <-.
Qed.

Lemma ended_inactive sys i : sys_ok sys -> (i, E_Ended) ∈ sys_history sys -> ~ active_slot (sys_world sys) i.
Proof.
  intros Hs Hin Ha. destruct (active_slot_lookup _ _ _ _ (ok_world _ Hs) Ha) as (slot & a & _ & _ & Hl & Hd & _).
  apply slot_history_elem in Hin. apply list_elem_of_split in Hin as (h1 & h2 & E).
  rewrite E in Hl. pose proof (life_ended_last _ _ _ _ Hl) as ->.
  inversion Hl as [h n last Hr|h n last r v Hr Eh|h last r is_ t b m Hr Hb Eh|h n last r e Hr Eh
                  |h st Hl' Hst Eh|h st f Hl' Hst Eh|h st Hl' Hst Eh]; subst;
    try (apply app_inj_tail in Eh as [_ Eh]; discriminate Eh); [|congruence].
  destruct (repairs_calls _ _ _ Hr) as (I1 & _).
  destruct (I1 E_Ended) as (? & ? & ? & ? & ? & _); [apply elem_of_app; right; left|done].
Qed.

(** A step leaves a request as it is, or advances it. *)
Lemma sys_step_request sys action sys' j r :
  sys_step sys action = Some sys' -> sys_requests sys !! j = Some r ->
  sys_requests sys' !! j = Some r \/
  exists granted jobs w st,
    submit_step (sys_world sys) (request_lease r) (request_value r) granted jobs (request_stage r) = Some (w, st) /\
    sys_world sys' = w /\ sys_requests sys' !! j = Some (advanced r st jobs).
Proof.
  intros Hstep Hj.
  destruct action as [op turn schema bridge context|value|k granted jobs|k|k|k|k|]; cbn [sys_step] in Hstep.
  3: { destruct (sys_requests sys !! k) as [q|] eqn:Hk; [|injection Hstep as <-; by left].
       destruct (submit_step _ _ _ _ _ _) as [[w st]|] eqn:Est; [|done]. injection Hstep as <-. cbn.
       destruct (decide (k = j)) as [->|Hne]; [|left; by rewrite list_lookup_insert_ne].
       assert (q = r) as -> by congruence. right. exists granted, jobs, w, st.
       split; [done|]. split; [done|]. apply list_lookup_insert_eq. by eapply lookup_lt_Some. }
  all: left.
  - injection Hstep as <-. by destruct (arm _ _ _ _ _ _) as [w [lx|e]].
  - injection Hstep as <-. by apply lookup_app_l_Some.
  - destruct (sys_leases sys !! k); [|by injection Hstep as <-].
    destruct (lease_begin_cancellation _ _) as [[w o]|]; [|done]. by injection Hstep as <-.
  - destruct (sys_leases sys !! k); [|by injection Hstep as <-].
    destruct (lease_take_failure _ _) as [[w o]|]; [|done]. by injection Hstep as <-.
  - destruct (sys_leases sys !! k); [|by injection Hstep as <-].
    destruct (lease_prepare_settlement _ _) as [[[w lx] p]|]; [|done]. by injection Hstep as <-.
  - destruct (sys_leases sys !! k); [|by injection Hstep as <-].
    destruct (lease_release _ _) as [[w lx]|]; [|done]. by injection Hstep as <-.
  - destruct (epoch_revoke _); [|done]. by injection Hstep as <-.
Qed.

(** A slot that was settled, released or revoked is over: nothing happens to
    it any more, whatever step follows, and every request of it that is answered
    from then on is told that its turn is unavailable and changes nothing. *)
Theorem ended_slots_are_final session_generation sys i action sys' :
  sys_reachable session_generation sys -> (i, E_Ended) ∈ sys_history sys -> sys_step sys action = Some sys' ->
  slot_history (sys_history sys') i = slot_history (sys_history sys) i /\
  (forall j r r' s, sys_requests sys !! j = Some r -> submits_to r i -> is_done (request_stage r) = false ->
     sys_requests sys' !! j = Some r' -> request_stage r' = Stage_Done s ->
     s = Submission_TurnUnavailable /\ sys_world sys' = sys_world sys).
Proof.
  intros Hreach Hin Hstep. pose proof (sys_reachable_ok _ _ Hreach) as Hs.
  destruct (sys_step_ok sys action Hs) as (x & Hx & Hs'). assert (x = sys') as -> by congruence.
  split.
  - destruct (sys_step_history _ _ _ Hstep) as [es Ees]. rewrite Ees, slot_history_app.
    assert (Hin' : (i, E_Ended) ∈ sys_history sys') by (rewrite Ees; apply elem_of_app; by left).
    pose proof (proj2 (slot_history_elem _ _ _) Hin) as Hin2.
    apply list_elem_of_split in Hin2 as (h1 & h2 & E).
    destruct (decide (i < length (world_slots (sys_world sys')))%nat) as [Hi|Hi].
    + destruct (lookup_lt_is_Some_2 _ _ Hi) as [slot Hsl].
      destruct (ok_slots _ _ _ (ok_world _ Hs') i slot Hsl) as (_ & _ & (a & _ & Hl) & _).
      rewrite Ees, slot_history_app, E, <- app_assoc in Hl. cbn [app] in Hl.
      apply life_ended_last, app_eq_nil in Hl as [_ ->]. by rewrite app_nil_r.
    + apply slot_history_elem in Hin'. rewrite (ok_fresh _ _ _ (ok_world _ Hs')) in Hin' by lia.
      by apply elem_of_nil in Hin'.
  - intros j r r' s Hj Hto Hd Hj' Hs''. pose proof (ended_inactive _ _ Hs Hin) as Hna.
    destruct (ok_requests _ Hs j r Hj) as (Hl & _ & _).
    destruct (sys_step_request _ _ _ _ _ Hstep Hj) as [Hk|(granted & jobs & w & st & Est & -> & Hk)].
    + assert (r' = r) as -> by congruence. by rewrite Hs'' in Hd.
    + rewrite Hk in Hj'. injection Hj' as <-. cbn in Hs''. subst st.
      by eapply (ended_answer _ _ _ _ _ _ _ _ _ _ i (ok_world _ Hs) Hl Hto Hna Est).
Qed.

End System.

(** ** Witnesses *)

Section Witnesses.
#[local] Existing Instance integers_only.
#[local] Existing Instance compact_text.
#[local] Existing Instance compact_text_laws.
#[local] Instance sample_host : ResultHost := { CallbackError := string; TurnDiagnosticContext := unit }.

Definition sys_run (session_generation : Z) (actions : list Action) : option System :=
  fold_left (fun sys action => sys ← sys; sys_step sys action) actions (Some (System_new session_generation)).

Lemma sys_run_reachable session_generation actions : forall sys,
  sys_run session_generation actions = Some sys -> sys_reachable session_generation sys.
Proof.
  induction actions as [|action actions IH] using rev_ind; intros sys.
  - intros [= <-]. constructor.
  - unfold sys_run. rewrite fold_left_app. cbn [fold_left].
    change (fold_left _ actions _) with (sys_run session_generation actions).
    destruct (sys_run session_generation actions) as [sys0|]; [|done]. intros Hstep. econstructor; [by apply IH|exact Hstep].
Qed.

Definition sample_schema : SchemaArc :=
  mkSchemaArc 7 (mkObjectContract [mkFieldContract "x" true (Contract_Bool EmptyString None)]).

(** A turn whose agent first submits an object without the field, then with
    it. *)
Definition sample_turn : list Action :=
  let go j := Advance j true Custom_Accepted in
  [Arm "op" 1 sample_schema None None; Send (Json_Object []); Send (Json_Object [("x"%string, Json_Bool true)]);
   go 0%nat; go 0%nat; go 0%nat; go 1%nat; go 1%nat; go 1%nat].

Definition run_of (actions : list Action) : System := default (System_new 1) (sys_run 1 actions).

Definition is_Some_b {A} (o : option A) : bool := match o with Some _ => true | None => false end.

Lemma run_of_reachable actions :
  is_Some_b (sys_run 1 actions) = true -> sys_reachable 1 (run_of actions).
Proof.
  unfold run_of. intros Hr. apply (sys_run_reachable 1 actions). by destruct (sys_run 1 actions).
Qed.

Lemma result_channel_never_panics_witness : is_Some (sys_step (run_of sample_turn) (Settle 0)).
Proof. apply (result_channel_never_panics 1). apply run_of_reachable. vm_compute. reflexivity. Defined.

Definition sample_lease : ResultRequestLease := mkRequestLease 1 (Some (1, 0%nat)).

Definition sample_invalid : Request :=
  mkRequest sample_lease (Json_Object [])
    (Stage_Done (Submission_Invalid [mkIssue "/x" "missing_field" "expected required field, got missing field"] false 1))
    false.

Definition sample_accepted : Request :=
  mkRequest sample_lease (Json_Object [("x"%string, Json_Bool true)]) (Stage_Done Submission_Accepted) false.

Lemma sample_requests : sys_requests (run_of sample_turn) = [sample_invalid; sample_accepted].
Proof. vm_cast_no_check (eq_refl [sample_invalid; sample_accepted]). Qed.

Lemma result_accepted_once_witness :
  sys_requests (run_of sample_turn) !! 1%nat = Some sample_accepted /\
  forall i r' s, sys_requests (run_of sample_turn) !! i = Some r' -> submits_to r' 0 ->
    request_stage r' = Stage_Done s -> final_answer s = true -> i = 1%nat.
Proof.
  split; [by rewrite sample_requests|]. intros i.
  refine (proj2 (result_accepted_once 1 (run_of sample_turn) i 1 sample_accepted 0 _ _ _ _)).
  - apply run_of_reachable. vm_compute. reflexivity.
  - by rewrite sample_requests.
  - exists 1. reflexivity.
  - reflexivity.
Defined.

Lemma invalid_calls_counted_witness :
  sys_requests (run_of sample_turn) !! 0%nat = Some sample_invalid /\
  forall k, (exists r issues t, sys_requests (run_of sample_turn) !! k = Some r /\ submits_to r 0 /\
    request_stage r = Stage_Done (Submission_Invalid issues t 1)) -> k = 0%nat.
Proof.
  split; [by rewrite sample_requests|].
  refine (proj2 (proj2 (proj1 (invalid_calls_counted 1 (run_of sample_turn) 0 sample_invalid 0 _ _ _) 1 _))).
  - apply run_of_reachable. vm_compute. reflexivity.
  - by rewrite sample_requests.
  - exists 1. reflexivity.
  - eexists sample_invalid, _, _. rewrite sample_requests. split; [reflexivity|]. split; [exists 1|]; reflexivity.
Defined.

Lemma sample_leases : sys_leases (run_of sample_turn) = [mkArmedLease 1 0 true].
Proof. vm_cast_no_check (eq_refl [mkArmedLease 1 0 true]). Qed.

Lemma settlement_truthful_witness :
  exists w' prepared outcome,
    lease_prepare_settlement (sys_world (run_of sample_turn)) (mkArmedLease 1 0 true) =
      Some (w', mkArmedLease 1 0 false, prepared) /\
    prepared_outcome prepared = Some outcome /\
    if lease_active (sys_world (run_of sample_turn)) (mkArmedLease 1 0 true)
    then settles_as (slot_history (sys_history (run_of sample_turn)) 0) outcome
    else outcome = Settlement_Unavailable.
Proof.
  apply (settlement_truthful 1 (run_of sample_turn) 0 (mkArmedLease 1 0 true)).
  - apply run_of_reachable. vm_compute. reflexivity.
  - by rewrite sample_leases.
Defined.

Definition settled_turn : list Action := sample_turn ++ [Send Json_Null; Settle 0].

Definition sample_history : list (nat * SlotEvent) :=
  [(0%nat, E_Invalid 0 [mkIssue "/x" "missing_field" "expected required field, got missing field"] false 1);
   (0%nat, E_Accepted 1 (Value_Object [("x"%string, Value_Bool true)])); (0%nat, E_Ended)].

Lemma settled_history : sys_history (run_of settled_turn) = sample_history.
Proof. vm_cast_no_check (eq_refl sample_history). Qed.

Lemma ended_slots_are_final_witness :
  exists sys', sys_step (run_of settled_turn) (Advance 2 true Custom_Accepted) = Some sys' /\
    slot_history (sys_history sys') 0 = slot_history (sys_history (run_of settled_turn)) 0.
Proof.
  assert (Hr : sys_reachable 1 (run_of settled_turn)) by (apply run_of_reachable; vm_compute; reflexivity).
  destruct (result_step_total 1 _ (Advance 2 true Custom_Accepted) Hr) as [sys' E].
  exists sys'. split; [exact E|].
  refine (proj1 (ended_slots_are_final 1 (run_of settled_turn) 0 _ sys' Hr _ E)).
  rewrite settled_history. right. right. left.
Defined.

End Witnesses.
