(* ===== verification/ActRoute.v ===== *)
(** * The result channel: the protocol of a route

    Models the HTTP and JSON-RPC side of
    [troupe-agent-runtime/src/result/mod.rs]: what a request must look like, the
    life cycle of a route that requests drive and whose phases advance only
    when a response was written, and the connection that carries them.

    The headers of a request are a function from names to the values in their
    order, [None] for a value that is not visible ASCII; the frames of a body are
    a list.  [serde_json] is the parameter of [ActSchema], with the number of an
    [i32].  The version of the crate is a parameter. *)

From S2P Require Import Prelude Text Wire Detail ActSchema ActResult.

Definition MCP_PATH : string := "/mcp".
Definition RESULT_TOOL : string := "troupe_submit_result".
Definition MCP_HTTP_BODY_MAX_BYTES : Z := 8 * 1024 * 1024.
Definition MCP_JSON_MAX_DEPTH : Z := 64.

(** ** Headers *)

Definition to_ascii_lowercase (c : ascii) : ascii :=
  if is_ascii_uppercase c then ascii_of_N (N_of_ascii c + 32) else c.

Definition eq_ignore_ascii_case (a b : list ascii) : bool :=
  bool_decide (map to_ascii_lowercase a = map to_ascii_lowercase b).

(** [None] is no quality value. *)
Definition quality_is_positive (value : list ascii) : option bool :=
  let '(whole, fraction) :=
    match split_once "." value with
    | Some (whole, fraction) => (whole, Some fraction)
    | None => (value, None)
    end in
  let malformed :=
    match fraction with
    | Some fraction => (3 <? list_len fraction) || negb (forallb is_ascii_digit fraction)
    | None => false
    end in
  if malformed then None
  else if bool_decide (whole = bytes "0") then
    Some (match fraction with
          | Some fraction => existsb (fun byte => negb (Ascii.eqb byte "0")) fraction
          | None => false
          end)
  else if bool_decide (whole = bytes "1") &&
          match fraction with
          | Some fraction => forallb (fun byte => Ascii.eqb byte "0") fraction
          | None => true
          end then Some true
  else None.

(** The loop over the parameters of a media range. *)
Fixpoint media_parameters (parts : list (list ascii)) (quality : option bool) : bool :=
  match parts with
  | [] => default true quality
  | parameter :: parts =>
      match split_once "=" parameter with
      | None => false
      | Some (name, value) =>
          if eq_ignore_ascii_case (trim name) (bytes "q") then
            match quality with
            | Some _ => false
            | None =>
                match quality_is_positive (trim value) with
                | None => false
                | Some parsed => media_parameters parts (Some parsed)
                end
            end
          else media_parameters parts quality
      end
  end.

Definition acceptable_media_range (value expected : list ascii) : bool :=
  match split_on ";" value with
  | media :: parts => eq_ignore_ascii_case (trim media) expected && media_parameters parts None
  | [] => false
  end.

Definition HeaderMap : Type := string -> list (option string).

(** [origin] is the origin of the service once it is ready. *)
Definition common_transport_headers_valid (origin : option string) (headers : HeaderMap) : bool :=
  let content_type_valid :=
    match headers "content-type"%string with
    | [Some value] =>
        match split_on ";" (bytes value) with
        | media :: _ => eq_ignore_ascii_case (trim media) (bytes "application/json")
        | [] => false
        end
    | _ => false
    end in
  let accepted := flat_map (fun value => split_on "," (bytes value)) (omap id (headers "accept"%string)) in
  let accepts expected := existsb (fun value => acceptable_media_range value (bytes expected)) accepted in
  content_type_valid &&
  negb (bool_decide (accepted = [])) &&
  accepts "application/json"%string && accepts "text/event-stream"%string &&
  bool_decide (headers "mcp-session-id"%string = []) &&
  match headers "origin"%string with
  | [] => true
  | [value] => match origin with Some expected => bool_decide (value = Some expected) | None => false end
  | _ => false
  end.

(** The token of an [Authorization] header. *)
Definition bearer_token (headers : HeaderMap) : option (list ascii) :=
  match headers "authorization"%string with
  | [Some value] =>
      if bool_decide (take 7 (bytes value) = bytes "Bearer ") then Some (drop 7 (bytes value)) else None
  | _ => None
  end.

(** ** Bodies *)

Inductive Frame :=
| DataFrame (data : list ascii)
| OtherFrame
| FrameError.

Inductive BodyCollectionError := Body_Invalid | Body_TooLarge.

Fixpoint collect_frames (frames : list Frame) (collected : list ascii) : result (list ascii) BodyCollectionError :=
  match frames with
  | [] => Ok collected
  | FrameError :: _ => Err Body_Invalid
  | OtherFrame :: frames => collect_frames frames collected
  | DataFrame data :: frames =>
      if saturating_sub Usize MCP_HTTP_BODY_MAX_BYTES (list_len collected) <? list_len data then Err Body_TooLarge
      else collect_frames frames (collected ++ data)
  end.

(** [lower] is the lower bound of the size hint. *)
Definition collect_bounded_body (lower : Z) (frames : list Frame) : result (list ascii) BodyCollectionError :=
  if MCP_HTTP_BODY_MAX_BYTES <? lower then Err Body_TooLarge else collect_frames frames [].

(** ** Messages *)

Inductive StatusCode :=
| Status_OK | Status_ACCEPTED | Status_BAD_REQUEST | Status_UNAUTHORIZED | Status_NOT_FOUND
| Status_METHOD_NOT_ALLOWED | Status_GONE | Status_PAYLOAD_TOO_LARGE.

Inductive RoutePhase :=
| Phase_New
| Phase_InitializeWriting
| Phase_Initialized
| Phase_InitializedNotificationWriting
| Phase_ClientInitialized
| Phase_ToolsListWriting
| Phase_ReadyPending
| Phase_Ready
| Phase_Revoked.

#[global] Instance RoutePhase_eq_dec : EqDecision RoutePhase.
Proof. solve_decision. Defined.

Record ResponseTransition := mkTransition { writing : RoutePhase; previous : RoutePhase; success : RoutePhase }.

Definition protocol_header_valid (headers : HeaderMap) (phase : RoutePhase) (mcp_revision : string) : bool :=
  let versions := headers "mcp-protocol-version"%string in
  match phase with
  | Phase_New => bool_decide (versions = [])
  | Phase_Initialized | Phase_ClientInitialized | Phase_ReadyPending | Phase_Ready =>
      match versions with [version] => bool_decide (version = Some mcp_revision) | _ => false end
  | Phase_InitializeWriting | Phase_InitializedNotificationWriting | Phase_ToolsListWriting | Phase_Revoked => false
  end.

Section Messages.
Context `{SerdeJson} (number_of_i32 : Z -> Number) (crate_version : string).

(** The work list of [json_depth_within]; [None] is more turns than [fuel]. *)
Fixpoint depth_loop (fuel : nat) (pending : list (JsonValue * Z)) (maximum : Z) : option bool :=
  match rev pending with
  | [] => Some true
  | (value, depth) :: rest =>
      match fuel with
      | O => None
      | S fuel =>
          let pending := rev rest in
          if maximum <? depth then Some false
          else
            match value with
            | Json_Array values => depth_loop fuel (pending ++ map (fun v => (v, depth + 1)) values) maximum
            | Json_Object values => depth_loop fuel (pending ++ map (fun e => (e.2, depth + 1)) values) maximum
            | Json_Null | Json_Bool _ | Json_Number _ | Json_String _ => depth_loop fuel pending maximum
            end
      end
  end.

Definition json_depth_within (fuel : nat) (value : JsonValue) (maximum : Z) : option bool :=
  depth_loop fuel [(value, 1)] maximum.

(** [Value::get] of a name, and the accessors of [serde_json]. *)
Definition json_get (value : JsonValue) (name : string) : option JsonValue :=
  match value with Json_Object values => map_get name values | _ => None end.

Definition as_str (value : JsonValue) : option string := match value with Json_String s => Some s | _ => None end.

Definition as_object (value : JsonValue) : option (list (string * JsonValue)) :=
  match value with Json_Object values => Some values | _ => None end.

Definition is_object (value : JsonValue) : bool := match value with Json_Object _ => true | _ => false end.
Definition is_string (value : JsonValue) : bool := match value with Json_String _ => true | _ => false end.
Definition is_number (value : JsonValue) : bool := match value with Json_Number _ => true | _ => false end.
Definition is_boolean (value : JsonValue) : bool := match value with Json_Bool _ => true | _ => false end.

Record Response := mkResponse { status : StatusCode; body : option JsonValue; close_after : bool }.

Definition empty (status : StatusCode) : Response := mkResponse status None false.

Definition empty_and_close (status : StatusCode) : Response := mkResponse status None true.

Definition json_response (value : JsonValue) : Response := mkResponse Status_OK (Some value) false.

Definition json_rpc_error (id : JsonValue) (code : Z) (message : string) : Response :=
  json_response
    (Json_Object
       [("error", Json_Object [("code", Json_Number (number_of_i32 code)); ("message", Json_String message)]);
        ("id", id); ("jsonrpc", Json_String "2.0")]).

Record DispatchOutcome := mkOutcome { response : Response; transition : option ResponseTransition }.

Definition plain (response : Response) : DispatchOutcome := mkOutcome response None.

Definition valid_request_id (id : JsonValue) : bool := is_string id || is_number id.

Definition optional_field (object : list (string * JsonValue)) (name : string) (validate : JsonValue -> bool) : bool :=
  match map_get name object with Some value => validate value | None => true end.

Definition optional_object (object : list (string * JsonValue)) (name : string)
    (validate : list (string * JsonValue) -> bool) : bool :=
  optional_field object name
    (fun value => match as_object value with Some object => validate object | None => false end).

Definition valid_optional_params (message : JsonValue) (validate : list (string * JsonValue) -> bool) : bool :=
  match json_get message "params" with
  | None => true
  | Some (Json_Object params) => validate params
  | Some _ => false
  end.

Definition valid_initialized_notification_params (message : JsonValue) : bool :=
  valid_optional_params message (fun params => optional_field params "_meta" is_object).

Definition valid_progress_token (value : JsonValue) : bool :=
  is_string value ||
  match value with Json_Number number => negb (has_fraction_mark (number_to_string number)) | _ => false end.

Definition valid_request_meta (value : JsonValue) : bool :=
  match as_object value with
  | Some meta => optional_field meta "progressToken" valid_progress_token
  | None => false
  end.

Definition valid_task_metadata (value : JsonValue) : bool :=
  match as_object value with Some task => optional_field task "ttl" is_number | None => false end.

Definition valid_list_tools_params (message : JsonValue) : bool :=
  valid_optional_params message (fun params =>
    optional_field params "_meta" valid_request_meta && optional_field params "cursor" is_string).

Definition valid_task_capabilities (tasks : list (string * JsonValue)) : bool :=
  optional_field tasks "list" is_object && optional_field tasks "cancel" is_object &&
  optional_object tasks "requests" (fun requests =>
    optional_object requests "sampling" (fun sampling => optional_field sampling "createMessage" is_object) &&
    optional_object requests "elicitation" (fun elicitation => optional_field elicitation "create" is_object)).

Definition valid_client_capabilities (value : JsonValue) : bool :=
  match as_object value with
  | None => false
  | Some capabilities =>
      optional_object capabilities "experimental" (fun experimental =>
        forallb (fun e => is_object e.2) experimental) &&
      optional_object capabilities "roots" (fun roots => optional_field roots "listChanged" is_boolean) &&
      optional_object capabilities "sampling" (fun sampling =>
        optional_field sampling "context" is_object && optional_field sampling "tools" is_object) &&
      optional_object capabilities "elicitation" (fun elicitation =>
        optional_field elicitation "form" is_object && optional_field elicitation "url" is_object) &&
      optional_object capabilities "tasks" valid_task_capabilities
  end.

Definition valid_icon (value : JsonValue) : bool :=
  match as_object value with
  | None => false
  | Some icon =>
      match map_get "src" icon with Some src => is_string src | None => false end &&
      optional_field icon "mimeType" is_string &&
      optional_field icon "sizes" (fun sizes =>
        match sizes with Json_Array sizes => forallb is_string sizes | _ => false end) &&
      optional_field icon "theme" (fun theme =>
        match as_str theme with
        | Some theme => String.eqb theme "light" || String.eqb theme "dark"
        | None => false
        end)
  end.

Definition valid_implementation (value : JsonValue) : bool :=
  match as_object value with
  | None => false
  | Some implementation =>
      match map_get "name" implementation with Some name => is_string name | None => false end &&
      match map_get "version" implementation with Some version => is_string version | None => false end &&
      forallb (fun name => optional_field implementation name is_string)
        ["title"; "description"; "websiteUrl"]%string &&
      optional_field implementation "icons" (fun icons =>
        match icons with Json_Array icons => forallb valid_icon icons | _ => false end)
  end.

(** ** The life cycle of a route *)

Definition lifecycle_error (message : JsonValue) : DispatchOutcome :=
  match json_get message "id" with
  | Some id => plain (json_rpc_error id (-32600) "invalid MCP lifecycle request")
  | None => plain (empty Status_BAD_REQUEST)
  end.

Definition initialize_params_valid (message : JsonValue) : bool :=
  match (params ← json_get message "params"; as_object params) with
  | None => false
  | Some params =>
      match map_get "capabilities" params with Some value => valid_client_capabilities value | None => false end &&
      match map_get "clientInfo" params with Some value => valid_implementation value | None => false end &&
      optional_field params "_meta" valid_request_meta
  end.

Definition requested_revision (message : JsonValue) : option string :=
  params ← json_get message "params"; params ← as_object params;
  version ← map_get "protocolVersion" params; as_str version.

Definition initialize_response (mcp_revision : string) (id : JsonValue) : JsonValue :=
  Json_Object
    [("id", id); ("jsonrpc", Json_String "2.0");
     ("result",
      Json_Object
        [("capabilities", Json_Object [("tools", Json_Object [])]);
         ("instructions", Json_String RESULT_CHANNEL_DESCRIPTION);
         ("protocolVersion", Json_String mcp_revision);
         ("serverInfo",
          Json_Object [("name", Json_String "troupe"); ("version", Json_String crate_version)])])].

Definition tools_list_response (id : JsonValue) : JsonValue :=
  Json_Object
    [("id", id); ("jsonrpc", Json_String "2.0");
     ("result",
      Json_Object
        [("tools",
          Json_Array
            [Json_Object
               [("description", Json_String RESULT_CHANNEL_DESCRIPTION);
                ("inputSchema",
                 Json_Object
                   [("additionalProperties", Json_Bool false);
                    ("properties", Json_Object [("value", Json_Object [("type", Json_String "object")])]);
                    ("required", Json_Array [Json_String "value"]); ("type", Json_String "object")]);
                ("name", Json_String RESULT_TOOL)]])])].

(** The match of [dispatch] under the lock of the phase. *)
Definition dispatch_phase (mcp_revision : string) (phase : RoutePhase) (message : JsonValue)
    (method : option string) (request_id : option JsonValue) : RoutePhase * DispatchOutcome :=
  let is_method name := bool_decide (method = Some name) in
  if is_method "initialize"%string then
    match phase, request_id with
    | Phase_New, Some id =>
        if negb (bool_decide (requested_revision message = Some mcp_revision)) then
          (phase, plain (json_rpc_error id (-32602) "unsupported protocol version"))
        else if negb (initialize_params_valid message) then
          (phase, plain (json_rpc_error id (-32602) "invalid initialize parameters"))
        else
          (Phase_InitializeWriting,
           mkOutcome (json_response (initialize_response mcp_revision id))
             (Some (mkTransition Phase_InitializeWriting Phase_New Phase_Initialized)))
    | _, _ => (phase, lifecycle_error message)
    end
  else if is_method "notifications/initialized"%string then
    match phase, request_id with
    | Phase_Initialized, None =>
        if negb (valid_initialized_notification_params message) then (phase, plain (empty Status_BAD_REQUEST))
        else
          (Phase_InitializedNotificationWriting,
           mkOutcome (empty Status_ACCEPTED)
             (Some (mkTransition Phase_InitializedNotificationWriting Phase_Initialized Phase_ClientInitialized)))
    | _, _ => (phase, lifecycle_error message)
    end
  else if is_method "tools/list"%string then
    match phase, request_id with
    | Phase_ClientInitialized, Some id =>
        if negb (valid_list_tools_params message) then
          (phase, plain (json_rpc_error id (-32602) "invalid tools/list parameters"))
        else
          (Phase_ToolsListWriting,
           mkOutcome (json_response (tools_list_response id))
             (Some (mkTransition Phase_ToolsListWriting Phase_ClientInitialized Phase_ReadyPending)))
    | _, _ => (phase, lifecycle_error message)
    end
  else (phase, lifecycle_error message).

Definition is_version_2 (message : JsonValue) : bool :=
  match json_get message "jsonrpc" with Some (Json_String version) => String.eqb version "2.0" | _ => false end.

Definition dispatch (mcp_revision : string) (phase : RoutePhase) (message : JsonValue)
    : RoutePhase * DispatchOutcome :=
  if negb (is_version_2 message) then (phase, plain (empty Status_BAD_REQUEST))
  else
    let method := method ← json_get message "method"; as_str method in
    match json_get message "id" with
    | Some id =>
        if valid_request_id id then dispatch_phase mcp_revision phase message method (Some id)
        else (phase, plain (json_rpc_error Json_Null (-32600) "invalid JSON-RPC request id"))
    | None => dispatch_phase mcp_revision phase message method None
    end.

(** A call of the tool: the answer to a call that is malformed, or the id and
    the value that is submitted. *)
Definition tools_call (phase : RoutePhase) (message : JsonValue) : result (JsonValue * JsonValue) DispatchOutcome :=
  if negb (is_version_2 message) then Err (plain (empty Status_BAD_REQUEST))
  else
    match json_get message "id" with
    | Some id =>
        if valid_request_id id then
          if negb (bool_decide (phase = Phase_Ready)) then
            Err (plain (json_rpc_error id (-32600) "invalid MCP lifecycle request"))
          else
            match (params ← json_get message "params"; as_object params) with
            | None => Err (plain (json_rpc_error id (-32602) "invalid tools/call parameters"))
            | Some params =>
                if negb (optional_field params "_meta" valid_request_meta) ||
                   negb (optional_field params "task" valid_task_metadata) then
                  Err (plain (json_rpc_error id (-32602) "invalid tools/call parameters"))
                else if negb (bool_decide ((name ← map_get "name" params; as_str name) = Some RESULT_TOOL)) then
                  Err (plain (json_rpc_error id (-32602) "unknown tool"))
                else
                  match (arguments ← map_get "arguments" params; as_object arguments) with
                  | Some [(name, value)] =>
                      if String.eqb name "value" then Ok (id, value)
                      else Err (plain (json_rpc_error id (-32602) "invalid tools/call arguments"))
                  | _ => Err (plain (json_rpc_error id (-32602) "invalid tools/call arguments"))
                  end
            end
        else Err (plain (json_rpc_error Json_Null (-32600) "invalid JSON-RPC request id"))
    | None => Err (plain (json_rpc_error Json_Null (-32600) "invalid JSON-RPC request id"))
    end.

(** [dispatch_message]: the phase and the outcome, or the call to submit. *)
Definition dispatch_message (mcp_revision : string) (phase : RoutePhase) (message : JsonValue)
    : RoutePhase * result (JsonValue * JsonValue) DispatchOutcome :=
  if bool_decide ((method ← json_get message "method"; as_str method) = Some "tools/call"%string) then
    (phase, tools_call phase message)
  else
    let '(phase, outcome) := dispatch mcp_revision phase message in (phase, Err outcome).

End Messages.

(** [tool_submission_response]. *)
Section Answers.
Context `{JsonText, ResultHost}.

Definition tool_result (id : JsonValue) (is_error : bool) (text : string) : Response :=
  json_response (tool_result_value id is_error text).

Definition tool_submission_response (id : JsonValue) (submission : ResultSubmission) : Response :=
  match submission with
  | Submission_Accepted => tool_result id false "result accepted"
  | Submission_Invalid issues truncated invalid_calls =>
      tool_result id true (validation_tool_text issues truncated invalid_calls)
  | Submission_Rejected invalid_calls =>
      tool_result id true
        ("result contract rejected after " +:+ u64_to_string invalid_calls +:+ " invalid calls")
  | Submission_NoActiveSlot => tool_result id true "no active result slot"
  | Submission_TurnUnavailable => tool_result id true "turn is settling"
  | Submission_AlreadySubmitted => tool_result id true "result already submitted"
  | Submission_ResultContractRejected => tool_result id true "result contract rejected"
  | Submission_HybridValidationRequired => tool_result id true "schema validation callback unavailable"
  | Submission_SchemaCallbackFailed => tool_result id true "schema validation callback failed"
  end.

End Answers.

(** ** Transitions *)

(** [commit_ready]. *)
Definition commit_ready (phase : RoutePhase) : RoutePhase :=
  match phase with Phase_ReadyPending => Phase_Ready | _ => phase end.

(** [ResponseTransition::apply], with [publish_ready]. *)
Definition apply (self : ResponseTransition) (phase : RoutePhase) (response_written : bool) : RoutePhase :=
  if negb (bool_decide (phase = writing self)) then phase
  else
    let phase := if response_written then success self else previous self in
    if response_written && bool_decide (success self = Phase_ReadyPending) then commit_ready phase else phase.

(** What [wait_stable_phase] does at a phase: it waits, ends without one, or
    returns it. *)
Inductive StableWait := KeepWaiting | Gone | Stable (phase : RoutePhase).

Definition stable_phase (phase : RoutePhase) : StableWait :=
  match phase with
  | Phase_InitializeWriting | Phase_InitializedNotificationWriting | Phase_ToolsListWriting => KeepWaiting
  | Phase_Revoked => Gone
  | Phase_New | Phase_Initialized | Phase_ClientInitialized | Phase_ReadyPending | Phase_Ready => Stable phase
  end.

(** What [wait_ready] does at a phase: it waits, or ends. *)
Definition ready_wait (phase : RoutePhase) : option bool :=
  match phase with
  | Phase_Ready => Some true
  | Phase_Revoked => Some false
  | Phase_New | Phase_InitializeWriting | Phase_Initialized | Phase_InitializedNotificationWriting
  | Phase_ClientInitialized | Phase_ToolsListWriting | Phase_ReadyPending => None
  end.

(** ** Routes and connections

    The service keeps its routes by their token; a connection is bound to the
    first route it names. *)

Record ResultRoute := mkRoute {
  route_token : list ascii;
  route_revision : string;
  route_phase : RoutePhase;
  route_connections : Z;
  route_cancelled : bool;
}.

Record ConnectionControl := mkControl {
  control_route : option nat;
  control_transition : option (nat * ResponseTransition);
}.

Definition ConnectionControl_new : ConnectionControl := mkControl None None.

(** The permits of the connections that are open at once. *)
Definition MAX_CONNECTIONS : Z := 65536.

Definition with_phase (route : ResultRoute) (phase : RoutePhase) : ResultRoute :=
  mkRoute (route_token route) (route_revision route) phase (route_connections route) (route_cancelled route).

Definition with_connections (route : ResultRoute) (connections : Z) : ResultRoute :=
  mkRoute (route_token route) (route_revision route) (route_phase route) connections (route_cancelled route).

(** [ResultRoute::revoke], of the phase. *)
Definition route_revoke (route : ResultRoute) : ResultRoute :=
  mkRoute (route_token route) (route_revision route) Phase_Revoked (route_connections route) true.

Definition acquire_connection (route : ResultRoute) : option ResultRoute :=
  if bool_decide (route_phase route = Phase_Revoked) then None
  else Some (with_connections route (route_connections route + 1)).

(** The drop of a connection lease; [None] is the failed [expect]. *)
Definition release_connection (route : ResultRoute) : option ResultRoute :=
  connections ← checked_sub Usize (route_connections route) 1; Some (with_connections route connections).

(** [bind_route]: whether the connection is bound to route [i]. *)
Definition bind_route (routes : list ResultRoute) (control : ConnectionControl) (i : nat)
    : option (list ResultRoute * ConnectionControl * bool) :=
  match control_route control with
  | Some bound => Some (routes, control, bool_decide (bound = i))
  | None =>
      route ← routes !! i;
      Some
        match acquire_connection route with
        | None => (routes, control, false)
        | Some route => (<[i := route]> routes, mkControl (Some i) (control_transition control), true)
        end
  end.

(** [begin_request] without the framing: [None] is the failed assertion. *)
Definition begin_request (control : ConnectionControl) : option ConnectionControl :=
  match control_transition control with None => Some control | Some _ => None end.

(** [set_transition]; [None] is the failed assertion. *)
Definition set_transition (control : ConnectionControl) (transition : option (nat * ResponseTransition))
    : option ConnectionControl :=
  match control_transition control with
  | None => Some (mkControl (control_route control) transition)
  | Some _ => None
  end.

(** [response_flushed] and [response_flush_failed]: the transition is taken and
    applied. *)
Definition finish_transition (routes : list ResultRoute) (control : ConnectionControl) (response_written : bool)
    : option (list ResultRoute * ConnectionControl) :=
  match control_transition control with
  | None => Some (routes, control)
  | Some (i, transition) =>
      route ← routes !! i;
      Some (<[i := with_phase route (apply transition (route_phase route) response_written)]> routes,
            mkControl (control_route control) None)
  end.

(** [ConnectionControl::finish]. *)
Definition finish (routes : list ResultRoute) (control : ConnectionControl) (response_written : bool)
    : option (list ResultRoute * ConnectionControl) :=
  '(routes, control) ← finish_transition routes control response_written;
  match control_route control with
  | None => Some (routes, control)
  | Some i =>
      route ← routes !! i; route ← release_connection route;
      Some (<[i := route]> routes, mkControl None (control_transition control))
  end.
