(* ===== verification/ActRouteSpec.v ===== *)
(** * What the protocol of a route promises

    A route becomes ready only through its three responses, written once each
    and in their order, however the requests of its connections interleave and
    whichever responses are lost; bodies are collected within their limit, and
    the work list measures the depth of a message. *)

From S2P Require Import Prelude Text Wire Detail ActSchema ActSchemaSpec ActResult ActRoute.

(** ** Bodies *)

Definition frame_data (f : Frame) : list ascii := match f with DataFrame data => data | _ => [] end.

Definition body_data (frames : list Frame) : list ascii := frames ≫= frame_data.

Lemma collect_frames_spec frames : forall collected,
  list_len collected <= MCP_HTTP_BODY_MAX_BYTES ->
  match collect_frames frames collected with
  | Ok body =>
      body = collected ++ body_data frames /\ list_len body <= MCP_HTTP_BODY_MAX_BYTES /\ (FrameError ∉ frames)
  | Err Body_Invalid =>
      exists before after, frames = before ++ (FrameError :: after) /\ (FrameError ∉ before) /\
        list_len (collected ++ body_data before) <= MCP_HTTP_BODY_MAX_BYTES
  | Err Body_TooLarge =>
      exists before data after, frames = before ++ (DataFrame data :: after) /\ (FrameError ∉ before) /\
        list_len (collected ++ body_data before) <= MCP_HTTP_BODY_MAX_BYTES <
        list_len (collected ++ body_data before ++ data)
  end.
Proof.
  induction frames as [|f frames IH]; intros collected Hc; cbn [collect_frames].
  { cbn. rewrite app_nil_r. split; [done|]. split; [done|]. by intros ?%elem_of_nil. }
  destruct f as [data| |].
  - unfold saturating_sub. pose proof (list_len_nonneg collected).
    rewrite Z.min_r, Z.max_r by (unfold int_min, int_max, MCP_HTTP_BODY_MAX_BYTES in *; lia).
    destruct (Z.ltb_spec (MCP_HTTP_BODY_MAX_BYTES - list_len collected) (list_len data)).
    + exists [], data, frames. cbn. rewrite app_nil_r, list_len_app. split; [done|].
      split; [by intros ?%elem_of_nil|lia].
    + specialize (IH (collected ++ data)). rewrite list_len_app in IH. specialize (IH ltac:(lia)).
      destruct (collect_frames frames (collected ++ data)) as [body|[|]].
      * destruct IH as (-> & Hl & Hn). cbn. rewrite app_assoc. split; [done|]. split; [done|].
        by intros [?|?]%elem_of_cons.
      * destruct IH as (b & a & -> & Hn & Hl). exists (DataFrame data :: b), a. cbn. rewrite app_assoc.
        split; [done|]. split; [by intros [?|?]%elem_of_cons|done].
      * destruct IH as (b & d & a & -> & Hn & Hl). exists (DataFrame data :: b), d, a. cbn.
        rewrite <- !app_assoc in *. split; [done|]. split; [by intros [?|?]%elem_of_cons|done].
  - specialize (IH collected Hc). destruct (collect_frames frames collected) as [body|[|]].
    + destruct IH as (-> & Hl & Hn). split; [done|]. split; [done|]. by intros [?|?]%elem_of_cons.
    + destruct IH as (b & a & -> & Hn & Hl). exists (OtherFrame :: b), a. split; [done|].
      split; [by intros [?|?]%elem_of_cons|done].
    + destruct IH as (b & d & a & -> & Hn & Hl). exists (OtherFrame :: b), d, a. split; [done|].
      split; [by intros [?|?]%elem_of_cons|done].
  - exists [], frames. cbn. rewrite app_nil_r. split; [done|]. split; [by intros ?%elem_of_nil|done].
Qed.

(** A body is collected exactly when its announced and its actual length
    are within 8 MiB and no frame fails; then it is the concatenation of its
    data.  An error names what came first: a failed frame, or the first data
    that would exceed the limit, and no more than the limit is ever kept. *)
Theorem collect_bounded_body_exact lower frames :
  match collect_bounded_body lower frames with
  | Ok body =>
      lower <= MCP_HTTP_BODY_MAX_BYTES /\ body = body_data frames /\
      list_len body <= MCP_HTTP_BODY_MAX_BYTES /\ (FrameError ∉ frames)
  | Err Body_Invalid =>
      lower <= MCP_HTTP_BODY_MAX_BYTES /\
      exists before after, frames = before ++ (FrameError :: after) /\ (FrameError ∉ before) /\
        list_len (body_data before) <= MCP_HTTP_BODY_MAX_BYTES
  | Err Body_TooLarge =>
      MCP_HTTP_BODY_MAX_BYTES < lower \/
      exists before data after, frames = before ++ (DataFrame data :: after) /\ (FrameError ∉ before) /\
        list_len (body_data before) <= MCP_HTTP_BODY_MAX_BYTES < list_len (body_data before ++ data)
  end.
Proof.
  unfold collect_bounded_body. destruct (Z.ltb_spec MCP_HTTP_BODY_MAX_BYTES lower); [by left|].
  pose proof (collect_frames_spec frames []) as Hs. rewrite list_len_nil in Hs.
  specialize (Hs ltac:(unfold MCP_HTTP_BODY_MAX_BYTES; lia)).
  destruct (collect_frames frames []) as [body|[|]]; [by split|by split|by right].
Qed.

(** ** Depth *)

Section Depth.
Context `{SerdeJson}.

Definition pending_nodes (pending : list (JsonValue * Z)) : Z := sum_with (fun e => json_nodes e.1) pending.

Definition pending_within (maximum : Z) (e : JsonValue * Z) : bool := e.2 + json_depth e.1 <=? maximum + 1.

Lemma children_within {A} (f : A -> JsonValue) values depth maximum :
  depth <= maximum ->
  forallb (pending_within maximum) (map (fun a => (f a, depth + 1)) values) =
  (depth + (1 + max_with (fun a => json_depth (f a)) values) <=? maximum + 1).
Proof.
  intros Hd. induction values as [|a values IH]; cbn [map forallb].
  - change (max_with _ []) with 0. symmetry. apply Z.leb_le. lia.
  - rewrite IH. unfold pending_within. cbn [fst snd].
    change (max_with (fun x => json_depth (f x)) (a :: values))
      with (Z.max (json_depth (f a)) (max_with (fun x => json_depth (f x)) values)). lia.
Qed.

Lemma pending_nodes_nonneg pending : 0 <= pending_nodes pending.
Proof. apply sum_with_nonneg, Forall_forall. intros e _. pose proof (json_nodes_pos e.1). lia. Qed.

Lemma depth_loop_spec maximum fuel : forall pending,
  pending_nodes pending <= Z.of_nat fuel ->
  depth_loop fuel pending maximum = Some (forallb (pending_within maximum) pending).
Proof.
  assert (Hsplit : forall v d pending, pending_nodes (pending ++ [(v, d)]) = pending_nodes pending + json_nodes v).
  { intros v d pending. unfold pending_nodes. rewrite sum_with_app.
    change (sum_with _ [_]) with (json_nodes v + 0). lia. }
  induction fuel as [|fuel IH]; intros pending Hf;
    (destruct pending as [|[v d] pending _] using rev_ind; [done|]); rewrite Hsplit in Hf;
    pose proof (pending_nodes_nonneg pending); pose proof (json_nodes_pos v).
  { lia. }
  cbn [depth_loop]. rewrite rev_unit, rev_involutive, forallb_app. cbn [forallb].
  unfold pending_within at 2. cbn [fst snd].
  pose proof (json_depth_pos v). destruct (Z.ltb_spec maximum d).
  { rewrite (proj2 (Z.leb_gt _ _)) by lia. by rewrite andb_false_r. }
  rewrite andb_true_r.
  assert (Hleaf : json_depth v = 1 ->
    depth_loop fuel pending maximum =
    Some (forallb (pending_within maximum) pending && (d + json_depth v <=? maximum + 1))).
  { intros ->. rewrite IH by lia. rewrite (proj2 (Z.leb_le _ _)) by lia. by rewrite andb_true_r. }
  destruct v as [| | | |values|values]; try by apply Hleaf.
  - rewrite IH.
    + rewrite forallb_app, (children_within (fun v => v)) by done. done.
    + unfold pending_nodes. rewrite sum_with_app, sum_with_map. fold (pending_nodes pending).
      cbn [json_nodes] in Hf. change (sum_with (fun a => json_nodes (a, d + 1).1) values) with (sum_with json_nodes values). lia.
  - rewrite IH.
    + rewrite forallb_app, (children_within snd) by done. done.
    + unfold pending_nodes. rewrite sum_with_app, sum_with_map. fold (pending_nodes pending).
      cbn [json_nodes] in Hf.
      change (sum_with (fun a => json_nodes (a.2, d + 1).1) values) with (sum_with (fun e : string * JsonValue => json_nodes e.2) values).
      lia.
Qed.

(** The work list of [json_depth_within] is exhausted after at most as many
    turns as the message has values, and decides whether the message is nested
    within the maximum. *)
Theorem json_depth_within_exact fuel value maximum :
  json_nodes value <= Z.of_nat fuel ->
  json_depth_within fuel value maximum = Some (json_depth value <=? maximum).
Proof.
  intros Hf. unfold json_depth_within. rewrite depth_loop_spec.
  - cbn [forallb]. rewrite andb_true_r. unfold pending_within. cbn [fst snd]. f_equal. lia.
  - unfold pending_nodes. change (sum_with _ [_]) with (json_nodes value + 0). lia.
Qed.

End Depth.

(** ** Quality values

    A quality value is a number of thousandths: 0 or 1, with at most three
    decimals, and at most 1. *)

Definition digit_value (c : ascii) : Z := byte_val c - 48.

(** The thousandths that up to three decimals stand for. *)
Definition thousandths (decimals : list ascii) : Z :=
  match decimals with
  | [] => 0
  | [a] => 100 * digit_value a
  | [a; b] => 100 * digit_value a + 10 * digit_value b
  | a :: b :: c :: _ => 100 * digit_value a + 10 * digit_value b + digit_value c
  end.

Definition quality (value : list ascii) (weight : Z) : Prop :=
  exists whole, (whole = 0 \/ whole = 1) /\
  ((value = bytes (if whole =? 0 then "0" else "1") /\ weight = 1000 * whole) \/
   (exists decimals, value = bytes (if whole =? 0 then "0" else "1") ++ "."%char :: decimals /\
      list_len decimals <= 3 /\ Forall (fun c => is_ascii_digit c = true) decimals /\
      weight = 1000 * whole + thousandths decimals)) /\
  0 <= weight <= 1000.

Lemma digit_range c : is_ascii_digit c = true -> 0 <= digit_value c <= 9.
Proof. unfold is_ascii_digit, digit_value. intros [H1 H2]%andb_prop. lia. Qed.

Lemma digit_zero c : is_ascii_digit c = true -> Ascii.eqb c "0" = (digit_value c =? 0).
Proof.
  intros Hc. destruct (Ascii.eqb_spec c "0") as [->|Hn]; [done|]. symmetry. apply Z.eqb_neq.
  intros E. apply Hn. apply byte_val_inj. unfold digit_value in E. change (byte_val "0") with 48. lia.
Qed.

(** The decimals of a value of three at most. *)
Lemma thousandths_zero decimals :
  list_len decimals <= 3 -> Forall (fun c => is_ascii_digit c = true) decimals ->
  0 <= thousandths decimals <= 999 /\
  forallb (fun byte => Ascii.eqb byte "0") decimals = (thousandths decimals =? 0) /\
  existsb (fun byte => negb (Ascii.eqb byte "0")) decimals = (0 <? thousandths decimals).
Proof.
  intros Hl Hd.
  destruct decimals as [|a [|b [|c [|d l]]]]; cbn [thousandths forallb existsb]; [done| | | |].
  4: { rewrite !list_len_cons in Hl. pose proof (list_len_nonneg l). lia. }
  all: repeat match goal with
  | H : Forall _ (_ :: _) |- _ => inversion H; clear H; subst
  | H : is_ascii_digit ?c = true |- _ =>
      pose proof (digit_range c H); rewrite (digit_zero c H); clear H
  end; lia.
Qed.

Lemma quality_decides value :
  match quality_is_positive value with
  | Some positive => exists weight, quality value weight /\ positive = (0 <? weight)
  | None => forall weight, ~ quality value weight
  end.
Proof.
  unfold quality_is_positive.
  destruct (split_once "." value) as [[whole fraction]|] eqn:Es.
  - apply split_once_some in Es as [-> Hw].
    assert (Hshape : forall weight, quality (whole ++ "."%char :: fraction) weight ->
      list_len fraction <= 3 /\ Forall (fun c => is_ascii_digit c = true) fraction /\
      exists w, whole = bytes (if w =? 0 then "0" else "1") /\ (w = 0 \/ w = 1) /\
        weight = 1000 * w + thousandths fraction /\ weight <= 1000).
    { intros weight (w & Hw01 & [[E _]|(decimals & E & Hl & Hd & ->)] & Hb).
      - exfalso. assert (Hin : "."%char ∈ bytes (if w =? 0 then "0" else "1")) by (rewrite <- E; apply elem_of_app; right; left).
        destruct (w =? 0); by apply list_elem_of_singleton in Hin.
      - assert (Hs : split_once "." (whole ++ "."%char :: fraction) =
          split_once "." (bytes (if w =? 0 then "0" else "1") ++ "."%char :: decimals)) by by rewrite E.
        rewrite !split_once_app in Hs; [|by destruct (w =? 0); intros ?%list_elem_of_singleton|done].
        injection Hs as -> ->. split; [done|]. split; [done|]. exists w. split_and!; try done. lia. }
    destruct (Z.ltb_spec 3 (list_len fraction)); cbn [orb].
    { intros weight Hq. apply Hshape in Hq as (? & _). lia. }
    destruct (forallb is_ascii_digit fraction) eqn:Ed; cbn [negb].
    2: { intros weight Hq. apply Hshape in Hq as (_ & Hd & _).
         apply forallb_Forall_true in Hd. congruence. }
    apply forallb_Forall_true in Ed. destruct (thousandths_zero fraction) as (Ht & Hz & He); [done|done|].
    case_bool_decide as H0.
    { exists (thousandths fraction). split; [|by rewrite He]. exists 0. split; [by left|]. split; [|lia].
      right. exists fraction. subst whole. split_and!; try done. }
    case_bool_decide as H1; cbn [andb].
    2: { intros weight Hq. apply Hshape in Hq as (_ & _ & w & E & [->| ->] & _); done. }
    rewrite Hz. destruct (Z.eqb_spec (thousandths fraction) 0) as [Ez|Ez].
    + exists 1000. split; [|done]. exists 1. split; [by right|]. split; [|lia]. right. exists fraction. subst whole.
      split_and!; try done. lia.
    + intros weight Hq. apply Hshape in Hq as (_ & _ & w & E & [->| ->] & Hwt & Hle); [by subst whole|].
      lia.
  - apply split_once_none in Es. cbn [orb].
    assert (Hshape : forall weight, quality value weight ->
      exists w, value = bytes (if w =? 0 then "0" else "1") /\ (w = 0 \/ w = 1)).
    { intros weight (w & Hw01 & [[E _]|(decimals & E & _)] & _); [by exists w|].
      exfalso. apply Es. rewrite E. apply elem_of_app. right. left. }
    case_bool_decide as H0.
    { exists 0. split; [|done]. exists 0. split; [by left|]. split; [by left|lia]. }
    case_bool_decide as H1; cbn [andb].
    { exists 1000. split; [|done]. exists 1. split; [by right|]. split; [by left|lia]. }
    intros weight Hq. apply Hshape in Hq as (w & E & [->| ->]); done.
Qed.

(** ** Routes and their connections *)

Section Service.
Context `{SerdeJson} (number_of_i32 : Z -> Number) (crate_version : string).

(** [None] is a connection that is closed; [service_written] logs the phases
    that written responses led to. *)
Record Service := mkService {
  service_routes : list ResultRoute;
  service_controls : list (option ConnectionControl);
  service_written : list (nat * RoutePhase);
}.

Inductive ServiceAction :=
| Register (token : list ascii) (revision : string)
| OpenConnection
| Bind (connection route : nat)
| Dispatch (connection : nat) (message : JsonValue) (kept : bool)
| Flush (connection : nat) (written : bool)
| CloseConnection (connection : nat) (written : bool)
| RevokeRoute (route : nat).

(** The phase a finished transition of a connection leads to, when its response
    was written and its route still waits for it. *)
Definition written_phase (routes : list ResultRoute) (control : ConnectionControl) (response_written : bool)
    : list (nat * RoutePhase) :=
  match control_transition control with
  | Some (i, t) =>
      match routes !! i with
      | Some route =>
          if response_written && bool_decide (route_phase route = writing t) then [(i, success t)] else []
      | None => []
      end
  | None => []
  end.

Definition set_control (s : Service) (c : nat) (routes : list ResultRoute) (control : option ConnectionControl)
    (written : list (nat * RoutePhase)) : Service :=
  mkService routes (<[c := control]> (service_controls s)) (service_written s ++ written).

Definition is_open (control : option ConnectionControl) : Z := if control is Some _ then 1 else 0.

Definition open_connections (s : Service) : Z := sum_with is_open (service_controls s).

(** A step; [None] is a panic. A connection that finds no permit is not
    served. *)
Definition service_step (s : Service) (action : ServiceAction) : option Service :=
  let routes := service_routes s in
  match action with
  | Register token revision =>
      Some (mkService (routes ++ [mkRoute token revision Phase_New 0 false]) (service_controls s) (service_written s))
  | OpenConnection =>
      if open_connections s <? MAX_CONNECTIONS
      then Some (mkService routes (service_controls s ++ [Some ConnectionControl_new]) (service_written s))
      else Some s
  | Bind c i =>
      match service_controls s !! c with
      | Some (Some control) =>
          if (i <? length routes)%nat then
            '(routes, control, _) ← bind_route routes control i;
            Some (set_control s c routes (Some control) [])
          else Some s
      | _ => Some s
      end
  | Dispatch c message kept =>
      match service_controls s !! c with
      | Some (Some control) =>
          match control_route control with
          | None => Some s
          | Some i =>
              control ← begin_request control;
              route ← routes !! i;
              let '(phase, outcome) :=
                dispatch_message number_of_i32 crate_version (route_revision route) (route_phase route) message in
              let t := match outcome with Ok _ => None | Err outcome => transition outcome end in
              let routes := <[i := with_phase route phase]> routes in
              control ← set_transition control (t ← t; Some (i, t));
              if kept then Some (set_control s c routes (Some control) [])
              else
                '(routes, control) ← finish_transition routes control false;
                Some (set_control s c routes (Some control) [])
          end
      | _ => Some s
      end
  | Flush c written =>
      match service_controls s !! c with
      | Some (Some control) =>
          '(routes', control') ← finish_transition routes control written;
          Some (set_control s c routes' (Some control') (written_phase routes control written))
      | _ => Some s
      end
  | CloseConnection c written =>
      match service_controls s !! c with
      | Some (Some control) =>
          '(routes', _) ← finish routes control written;
          Some (set_control s c routes' None (written_phase routes control written))
      | _ => Some s
      end
  | RevokeRoute i =>
      match routes !! i with
      | Some route => Some (mkService (<[i := route_revoke route]> routes) (service_controls s) (service_written s))
      | None => Some s
      end
  end.

Inductive service_reachable : Service -> Prop :=
| service_start : service_reachable (mkService [] [] [])
| service_next s action s' :
    service_reachable s -> service_step s action = Some s' -> service_reachable s'.

(** *** The handshake *)

Definition handshake : list RoutePhase := [Phase_Initialized; Phase_ClientInitialized; Phase_ReadyPending].

Definition initialize_transition := mkTransition Phase_InitializeWriting Phase_New Phase_Initialized.
Definition initialized_transition :=
  mkTransition Phase_InitializedNotificationWriting Phase_Initialized Phase_ClientInitialized.
Definition tools_transition := mkTransition Phase_ToolsListWriting Phase_ClientInitialized Phase_ReadyPending.

(** How many responses were written at a phase, and the transition that is
    being written. *)
Definition phase_progress (phase : RoutePhase) : option (nat * option ResponseTransition) :=
  match phase with
  | Phase_New => Some (0%nat, None)
  | Phase_InitializeWriting => Some (0%nat, Some initialize_transition)
  | Phase_Initialized => Some (1%nat, None)
  | Phase_InitializedNotificationWriting => Some (1%nat, Some initialized_transition)
  | Phase_ClientInitialized => Some (2%nat, None)
  | Phase_ToolsListWriting => Some (2%nat, Some tools_transition)
  | Phase_Ready => Some (3%nat, None)
  | Phase_ReadyPending | Phase_Revoked => None
  end.

Definition route_written (s : Service) (i : nat) : list RoutePhase :=
  omap (fun '(j, p) => if decide (j = i) then Some p else None) (service_written s).

(** Connection [c] carries a response of route [i]. *)
Definition carries (s : Service) (c i : nat) (t : ResponseTransition) : Prop :=
  exists control, service_controls s !! c = Some (Some control) /\ control_transition control = Some (i, t).

Definition route_ok (s : Service) (i : nat) (route : ResultRoute) : Prop :=
  match phase_progress (route_phase route) with
  | Some (n, t) =>
      route_written s i = take n handshake /\
      (forall c t', carries s c i t' -> t = Some t') /\
      (forall c c' t1 t2, carries s c i t1 -> carries s c' i t2 -> c = c') /\
      (forall t', t = Some t' -> exists c, carries s c i t')
  | None => route_phase route = Phase_Revoked /\ exists n, route_written s i = take n handshake
  end.

Definition is_bound (i : nat) (control : option ConnectionControl) : Z :=
  match control with
  | Some control => if bool_decide (control_route control = Some i) then 1 else 0
  | None => 0
  end.

Definition bound_connections (s : Service) (i : nat) : Z := sum_with (is_bound i) (service_controls s).

Record service_ok (s : Service) : Prop := {
  ok_routes : forall i route, service_routes s !! i = Some route ->
    route_ok s i route /\ route_connections route = bound_connections s i;
  ok_carried : forall c i t, carries s c i t ->
    (i < length (service_routes s))%nat /\ exists n, phase_progress (writing t) = Some (n, Some t);
  ok_bound : forall c control i, service_controls s !! c = Some (Some control) ->
    control_route control = Some i -> (i < length (service_routes s))%nat;
  ok_written : forall i p, (i, p) ∈ service_written s -> (i < length (service_routes s))%nat;
}.

(** *** Dispatch and transitions *)

Lemma dispatch_message_phase revision phase message phase' outcome :
  dispatch_message number_of_i32 crate_version revision phase message = (phase', outcome) ->
  match outcome with
  | Err (mkOutcome _ (Some t)) =>
      exists n, phase_progress phase = Some (n, None) /\ phase_progress phase' = Some (n, Some t) /\
        phase' = writing t /\ phase = previous t
  | _ => phase' = phase
  end.
Proof.
  unfold dispatch_message. case_bool_decide.
  { intros [= <- <-].
    destruct (tools_call number_of_i32 phase message) as [|[r [t|]]] eqn:E; [done| |done].
    exfalso. revert E. unfold tools_call. repeat case_match; done. }
  destruct (dispatch _ _ _ _ _) as [p [r t]] eqn:E. intros [= <- <-].
  unfold dispatch in E. destruct (negb _); [injection E as <- <- <-; done|].
  assert (Hp : forall method id, dispatch_phase number_of_i32 crate_version revision phase message method id = (p, mkOutcome r t) ->
    match t with
    | Some t => exists n, phase_progress phase = Some (n, None) /\ phase_progress p = Some (n, Some t) /\
        p = writing t /\ phase = previous t
    | None => p = phase
    end).
  { clear. intros method id. unfold dispatch_phase.
    assert (Hl : (phase, lifecycle_error number_of_i32 message) = (p, mkOutcome r t) -> t = None /\ p = phase).
    { unfold lifecycle_error, plain. destruct (json_get message "id"); by intros [= <- <- <-]. }
    intros Ex. repeat match type of Ex with context [match ?x with _ => _ end] => destruct x end;
      first [by apply Hl in Ex as [-> ->]
            |unfold plain in Ex; injection Ex as <- <- <-; first [done|eexists; split_and!; done]]. }
  destruct (json_get message "id") as [id|].
  - destruct (valid_request_id id); [by eapply Hp|]. by injection E as <- <- <-.
  - by eapply Hp.
Qed.

(** A call of the result tool is taken at [Ready] alone, which it keeps. *)
Lemma dispatch_message_call revision phase message phase' call :
  dispatch_message number_of_i32 crate_version revision phase message = (phase', Ok call) ->
  phase = phase' /\ phase = Phase_Ready.
Proof.
  unfold dispatch_message. case_bool_decide; [|by destruct (dispatch _ _ _ _ _)].
  intros [= <- E]. split; [done|]. revert E. unfold tools_call. destruct (negb (is_version_2 message)); [done|].
  destruct (json_get message "id"); [|done]. destruct (valid_request_id _); [|done].
  by case_bool_decide.
Qed.

(** *** Updates *)

Lemma carries_set s c old routes control w c' i t :
  service_controls s !! c = Some old ->
  carries (set_control s c routes control w) c' i t <->
  (c' = c /\ exists ctl, control = Some ctl /\ control_transition ctl = Some (i, t)) \/ (c' <> c /\ carries s c' i t).
Proof.
  intros Hc. unfold carries, set_control. cbn. destruct (decide (c' = c)) as [->|Hne].
  - rewrite list_lookup_insert_eq by by eapply lookup_lt_Some. naive_solver.
  - rewrite list_lookup_insert_ne by done. naive_solver.
Qed.

Lemma route_ok_same s s' i route :
  route_written s' i = route_written s i -> (forall c t, carries s' c i t <-> carries s c i t) ->
  route_ok s i route -> route_ok s' i route.
Proof.
  intros Hw Hc. unfold route_ok. rewrite Hw. destruct (phase_progress (route_phase route)) as [[n t]|]; [|done].
  setoid_rewrite Hc. done.
Qed.

Lemma bound_set s c old routes control w i :
  service_controls s !! c = Some old ->
  bound_connections (set_control s c routes control w) i = bound_connections s i - is_bound i old + is_bound i control.
Proof. intros Hc. unfold bound_connections, set_control. cbn. by apply sum_with_insert. Qed.

Lemma route_written_set s c routes control w i :
  route_written (set_control s c routes control w) i =
  route_written s i ++ omap (fun '(j, p) => if decide (j = i) then Some p else None) w.
Proof. apply omap_app. Qed.

(** A connection takes a transition of its route, whose phase becomes the one
    that is being written. *)
Lemma begin_writing_ok s c control i route n t :
  service_ok s -> service_controls s !! c = Some (Some control) -> control_transition control = None ->
  service_routes s !! i = Some route -> phase_progress (route_phase route) = Some (n, None) ->
  phase_progress (writing t) = Some (n, Some t) ->
  service_ok (set_control s c (<[i := with_phase route (writing t)]> (service_routes s))
                (Some (mkControl (control_route control) (Some (i, t)))) []).
Proof.
  intros Hs Hc Ht Hi Hp Hp'. pose proof (lookup_lt_Some _ _ _ Hi) as Hlt.
  assert (Hcar : forall c' j t', carries (set_control s c (<[i := with_phase route (writing t)]> (service_routes s))
      (Some (mkControl (control_route control) (Some (i, t)))) []) c' j t' <->
    (c' = c /\ j = i /\ t' = t) \/ carries s c' j t').
  { intros c' j t'. rewrite carries_set by done. split.
    - intros [(-> & ctl & [= <-] & [= <- <-])|[_ Hx]]; auto.
    - intros [(-> & -> & ->)|Hx]; [left; split; [done|]; by eexists|].
      right. split; [|done]. intros ->. destruct Hx as (x & Hx & Hx'). rewrite Hc in Hx. injection Hx as <-. congruence. }
  destruct (ok_routes _ Hs i route Hi) as [Hok Hb].
  split.
  - intros j r Hj. cbn in Hj. rewrite (bound_set _ _ _ _ _ _ _ Hc). unfold is_bound. cbn [control_route].
    destruct (decide (j = i)) as [->|Hne].
    + rewrite list_lookup_insert_eq in Hj by done. injection Hj as <-. cbn [route_connections with_phase].
      split; [|rewrite Hb; lia]. unfold route_ok in Hok |- *. rewrite Hp in Hok. cbn [route_phase with_phase]. rewrite Hp'.
      destruct Hok as (Hw & Hno & _). rewrite route_written_set. cbn. rewrite app_nil_r. split; [done|].
      assert (Hnone : forall c' t', ~ carries s c' i t') by (intros c' t' Hx; by apply Hno in Hx).
      split_and!.
      * intros c' t' [(_ & _ & ->)|Hx]%Hcar; [done|by apply Hnone in Hx].
      * intros c1 c2 t1 t2 [(-> & _)|Hx]%Hcar [(-> & _)|Hy]%Hcar; [done|by apply Hnone in Hy|by apply Hnone in Hx..].
      * intros t' [= <-]. exists c. apply Hcar. by left.
    + rewrite list_lookup_insert_ne in Hj by done. destruct (ok_routes _ Hs j r Hj) as [Hok' Hb'].
      split; [|rewrite Hb'; lia]. eapply route_ok_same; [| |exact Hok'].
      * rewrite route_written_set. cbn. apply app_nil_r.
      * intros c' t'. rewrite Hcar. naive_solver.
  - intros c' j t' Hx%Hcar. cbn. rewrite length_insert.
    destruct Hx as [(_ & -> & ->)|Hx]; [split; [done|by exists n]|by eapply (ok_carried _ Hs)].
  - intros c' ctl j Hc' Hr. cbn in Hc' |- *. rewrite length_insert. destruct (decide (c' = c)) as [->|Hne].
    + rewrite list_lookup_insert_eq in Hc' by by eapply lookup_lt_Some. injection Hc' as <-. cbn in Hr.
      by eapply (ok_bound _ Hs).
    + rewrite list_lookup_insert_ne in Hc' by done. by eapply (ok_bound _ Hs).
  - intros j p Hj. cbn in Hj |- *. rewrite app_nil_r in Hj. rewrite length_insert. by eapply (ok_written _ Hs).
Qed.

Lemma transition_canonical s c i t route :
  service_ok s -> carries s c i t -> service_routes s !! i = Some route -> route_phase route <> Phase_Revoked ->
  exists n, phase_progress (route_phase route) = Some (n, Some t) /\ route_written s i = take n handshake /\
    (forall c' t', carries s c' i t' -> c' = c).
Proof.
  intros Hs Hc Hi Hr. destruct (ok_routes _ Hs i route Hi) as [Hok _]. unfold route_ok in Hok.
  destruct (phase_progress (route_phase route)) as [[n t']|]; [|by destruct Hok].
  destruct Hok as (Hw & Hc' & Hu & _). rewrite (Hc' c t Hc). exists n. split; [done|]. split; [done|].
  intros c' t'' Hx. by eapply Hu.
Qed.

(** What a finished transition leaves. *)
Lemma apply_progress phase n t (response_written : bool) :
  phase_progress phase = Some (n, Some t) ->
  phase = writing t /\
  (if response_written
   then phase_progress (apply t phase true) = Some (S n, None) /\ take (S n) handshake = take n handshake ++ [success t]
   else phase_progress (apply t phase false) = Some (n, None)).
Proof.
  destruct phase; cbn; try done; intros [= <- <-]; (split; [done|]); by destruct response_written.
Qed.

Lemma apply_revoked t response_written n phase :
  phase_progress (writing t) = Some (n, Some t) -> phase = Phase_Revoked ->
  apply t phase response_written = Phase_Revoked.
Proof.
  intros Hp ->. unfold apply. rewrite bool_decide_false; [done|]. intros E. by rewrite <- E in Hp.
Qed.

Lemma apply_phase_revoked phase t b : apply t phase b = phase \/ phase = writing t.
Proof. unfold apply. case_bool_decide; [by right|by left]. Qed.

(** A connection gives up its transition, whose route moves on. *)
Lemma finish_writing_ok s c control i t route response_written :
  service_ok s -> service_controls s !! c = Some (Some control) -> control_transition control = Some (i, t) ->
  service_routes s !! i = Some route ->
  service_ok (set_control s c (<[i := with_phase route (apply t (route_phase route) response_written)]> (service_routes s))
                (Some (mkControl (control_route control) None)) (written_phase (service_routes s) control response_written)).
Proof.
  intros Hs Hc Ht Hi. pose proof (lookup_lt_Some _ _ _ Hi) as Hlt.
  assert (Hci : carries s c i t) by by exists control.
  destruct (ok_carried _ Hs c i t Hci) as [_ [n0 Hcan]].
  set (w := written_phase (service_routes s) control response_written).
  assert (Hw : w = if response_written && bool_decide (route_phase route = writing t) then [(i, success t)] else []).
  { unfold w, written_phase. by rewrite Ht, Hi. }
  set (s' := set_control s c _ _ w).
  assert (Hcar : forall c' j t', carries s' c' j t' <-> c' <> c /\ carries s c' j t').
  { intros c' j t'. unfold s'. rewrite carries_set by done. split; [|auto].
    intros [(-> & ctl & [= <-] & [=])|Hx]; done. }
  assert (Hother : forall j, j <> i -> route_written s' j = route_written s j).
  { intros j Hj. unfold s'. rewrite route_written_set, Hw. destruct (_ && _); cbn; [|by rewrite app_nil_r].
    rewrite decide_False by congruence. apply app_nil_r. }
  assert (Hbound : forall j, bound_connections s' j = bound_connections s j).
  { intros j. unfold s'. rewrite (bound_set _ _ _ _ _ _ _ Hc). unfold is_bound. cbn [control_route]. lia. }
  destruct (ok_routes _ Hs i route Hi) as [Hok Hb]. split.
  - intros j r Hj. rewrite Hbound. cbn in Hj. destruct (decide (j = i)) as [->|Hne].
    + rewrite list_lookup_insert_eq in Hj by done. injection Hj as <-. split; [|done].
      assert (Hwi : route_written s' i = route_written s i ++
        if response_written && bool_decide (route_phase route = writing t) then [success t] else []).
      { unfold s'. rewrite route_written_set, Hw. f_equal. destruct (_ && _); cbn; [|done]. by rewrite decide_True. }
      unfold route_ok in Hok |- *. cbn [route_phase with_phase].
      destruct (decide (route_phase route = Phase_Revoked)) as [Er|Er].
      * rewrite (apply_revoked t response_written n0) by done. rewrite Er in Hok. cbn [phase_progress] in Hok |- *.
        destruct Hok as [_ [m Hm]]. split; [done|]. exists m. rewrite Hwi, Er, bool_decide_false by (intros E; by rewrite <- E in Hcan).
        by rewrite andb_false_r, app_nil_r.
      * destruct (transition_canonical s c i t route Hs Hci Hi Er) as (n & Hp & Hwr & Hu).
        destruct (apply_progress _ _ _ response_written Hp) as [Ew Ha]. rewrite (bool_decide_true _ Ew), andb_true_r in Hwi.
        assert (Hnone : forall c' t', ~ carries s' c' i t').
        { intros c' t' [Hne Hx]%Hcar. by apply Hne, (Hu c' t'). }
        assert (Hgoal : forall m, phase_progress (apply t (route_phase route) response_written) = Some (m, None) ->
          route_written s' i = take m handshake ->
          match phase_progress (apply t (route_phase route) response_written) with
          | Some (n, t) =>
              route_written s' i = take n handshake /\
              (forall c t', carries s' c i t' -> t = Some t') /\
              (forall c c' t1 t2, carries s' c i t1 -> carries s' c' i t2 -> c = c') /\
              (forall t', t = Some t' -> exists c, carries s' c i t')
          | None => apply t (route_phase route) response_written = Phase_Revoked /\
              exists n, route_written s' i = take n handshake
          end).
        { intros m -> Hm. split; [done|]. split; [intros c' t' Hx; by apply Hnone in Hx|].
          split; [intros c' c'' t1 t2 Hx; by apply Hnone in Hx|done]. }
        destruct response_written.
        -- destruct Ha as [Ha Htk]. apply (Hgoal (S n) Ha). by rewrite Hwi, Hwr, Htk.
        -- apply (Hgoal n Ha). by rewrite Hwi, Hwr, app_nil_r.
    + rewrite list_lookup_insert_ne in Hj by done. destruct (ok_routes _ Hs j r Hj) as [Hok' Hb'].
      split; [|done]. eapply route_ok_same; [by apply Hother| |exact Hok'].
      intros c' t'. rewrite Hcar. split; [by intros []|]. intros Hx. split; [|done]. intros ->.
      destruct Hx as (x & Hx & Hx'). rewrite Hc in Hx. injection Hx as <-. congruence.
  - intros c' j t' [_ Hx]%Hcar. cbn. rewrite length_insert. by eapply (ok_carried _ Hs).
  - intros c' ctl j Hc' Hr. cbn in Hc' |- *. rewrite length_insert. destruct (decide (c' = c)) as [->|Hne].
    + rewrite list_lookup_insert_eq in Hc' by by eapply lookup_lt_Some. injection Hc' as <-. cbn in Hr.
      by eapply (ok_bound _ Hs).
    + rewrite list_lookup_insert_ne in Hc' by done. by eapply (ok_bound _ Hs).
  - intros j p Hj. cbn in Hj |- *. rewrite length_insert. apply elem_of_app in Hj as [Hj|Hj].
    + by eapply (ok_written _ Hs).
    + rewrite Hw in Hj. destruct (_ && _); [|by apply elem_of_nil in Hj].
      apply list_elem_of_singleton in Hj. by injection Hj as -> _.
Qed.

(** Routes and connections that are added. *)
Lemma register_ok s token revision :
  service_ok s ->
  service_ok (mkService (service_routes s ++ [mkRoute token revision Phase_New 0 false]) (service_controls s)
                (service_written s)).
Proof.
  intros Hs. set (s' := mkService _ _ _).
  split.
  - intros i route Hi. apply lookup_app_Some in Hi as [Hi|[Hge Hi]].
    + by apply (ok_routes _ Hs).
    + apply list_lookup_singleton_Some in Hi as [Ei <-].
      assert (Hi : i = length (service_routes s)) by lia. clear Ei Hge.
      assert (Hw : route_written s' i = []).
      { destruct (route_written s' i) as [|p l] eqn:E; [done|]. exfalso.
        assert (Hp : p ∈ route_written s' i) by (rewrite E; left). unfold route_written in Hp.
        apply list_elem_of_omap in Hp as ([j q] & Hj & Hq). destruct (decide (j = i)) as [->|]; [|done].
        apply (ok_written _ Hs) in Hj. lia. }
      assert (Hno : forall c t, ~ carries s' c i t) by (intros c t Hx; apply (ok_carried _ Hs) in Hx as [Hx _]; lia).
      split.
      * unfold route_ok. cbn [phase_progress route_phase]. rewrite Hw. split; [done|]. split; [intros c t Hx; by apply Hno in Hx|].
        split; [intros c c' t1 t2 Hx; by apply Hno in Hx|done].
      * cbn [route_connections]. symmetry. unfold bound_connections.
        change (service_controls s') with (service_controls s).
        assert (Hz : forall c control, service_controls s !! c = Some control -> is_bound i control = 0).
        { intros c [control|] Hc; cbn; [|done]. case_bool_decide as Hr; [|done].
          pose proof (ok_bound _ Hs c control i Hc Hr). lia. }
        clear -Hz. induction (service_controls s) as [|x l IH]; [done|]. rewrite sum_with_cons.
        rewrite (Hz 0%nat x eq_refl). rewrite IH; [done|]. intros c control Hc. by apply (Hz (S c)).
  - intros c i t Hx. destruct (ok_carried _ Hs c i t Hx) as [Hlt Hn]. split; [|done]. cbn. rewrite length_app. lia.
  - intros c control i Hc Hr. pose proof (ok_bound _ Hs c control i Hc Hr). cbn. rewrite length_app. lia.
  - intros i p Hp. pose proof (ok_written _ Hs i p Hp). cbn. rewrite length_app. lia.
Qed.

Lemma open_ok s :
  service_ok s ->
  service_ok (mkService (service_routes s) (service_controls s ++ [Some ConnectionControl_new]) (service_written s)).
Proof.
  intros Hs. set (s' := mkService _ _ _).
  assert (Hcar : forall c i t, carries s' c i t <-> carries s c i t).
  { intros c i t. unfold carries. cbn. split.
    - intros (ctl & [Hc|[_ Hc]]%lookup_app_Some & Ht); [by exists ctl|].
      apply list_lookup_singleton_Some in Hc as [_ [= <-]]. done.
    - intros (ctl & Hc & Ht). exists ctl. split; [by apply lookup_app_l_Some|done]. }
  split.
  - intros i route Hi. destruct (ok_routes _ Hs i route Hi) as [Hok Hb]. split.
    + apply (route_ok_same s s' i route) in Hok; [exact Hok|done|intros c t; apply Hcar].
    + rewrite Hb. unfold bound_connections.
      change (service_controls s') with (service_controls s ++ [Some ConnectionControl_new]).
      clear. induction (service_controls s) as [|x l IH]; [done|].
      cbn [app]. rewrite !sum_with_cons. lia.
  - intros c i t Hx%Hcar. by apply (ok_carried _ Hs c).
  - intros c control i Hc Hr. cbn in Hc. apply lookup_app_Some in Hc as [Hc|[_ Hc]]; [by eapply (ok_bound _ Hs)|].
    apply list_lookup_singleton_Some in Hc as [_ [= <-]]. done.
  - intros i p Hp. by eapply (ok_written _ Hs).
Qed.

(** A connection whose binding changes, with the routes' counts. *)
Lemma rebind_ok s c control control' routes' :
  service_ok s -> service_controls s !! c = Some (Some control) ->
  match control' with
  | Some control' => control_transition control' = control_transition control
  | None => control_transition control = None
  end ->
  length routes' = length (service_routes s) ->
  (forall j r', routes' !! j = Some r' -> exists r, service_routes s !! j = Some r /\ route_phase r' = route_phase r /\
    route_connections r' = route_connections r - is_bound j (Some control) + is_bound j control') ->
  (forall x j, control' = Some x -> control_route x = Some j -> (j < length (service_routes s))%nat) ->
  service_ok (set_control s c routes' control' []).
Proof.
  intros Hs Hc Ht Hlen Hr' Hlt. set (s' := set_control _ _ _ _ _).
  assert (Hcar : forall c' j t, carries s' c' j t <-> carries s c' j t).
  { intros c' j t. unfold s'. rewrite carries_set by done. split.
    - intros [(-> & ctl & -> & Hx)|[_ Hx]]; [|done]. exists control. split; [done|]. congruence.
    - intros Hx. destruct (decide (c' = c)) as [->|]; [|by right]. left. split; [done|].
      destruct Hx as (x & Hx & Hx'). rewrite Hc in Hx. injection Hx as <-.
      destruct control' as [control'|]; [exists control'; split; [done|congruence]|congruence]. }
  assert (Hw : forall j, route_written s' j = route_written s j).
  { intros j. unfold s'. rewrite route_written_set. apply app_nil_r. }
  split.
  - intros j r Hr. unfold s' at 2. rewrite (bound_set _ _ _ _ _ _ _ Hc). cbn in Hr.
    destruct (Hr' j r Hr) as (r0 & Hj & Hp & Hn). destruct (ok_routes _ Hs j r0 Hj) as [Hok Hb].
    split; [|lia]. apply (route_ok_same s s' j r0) in Hok; [|apply Hw|intros c' t'; apply Hcar].
    unfold route_ok in Hok |- *. by rewrite Hp.
  - intros c' j t Hx%Hcar. cbn. rewrite Hlen. by eapply (ok_carried _ Hs).
  - intros c' ctl j Hc' Hr. cbn in Hc' |- *. rewrite Hlen. destruct (decide (c' = c)) as [->|Hne].
    + rewrite list_lookup_insert_eq in Hc' by by eapply lookup_lt_Some. injection Hc' as ->. by eapply Hlt.
    + rewrite list_lookup_insert_ne in Hc' by done. by eapply (ok_bound _ Hs).
  - intros j p Hp. cbn in Hp |- *. rewrite app_nil_r in Hp. rewrite Hlen. by eapply (ok_written _ Hs).
Qed.

Lemma connections_insert (routes : list ResultRoute) (i : nat) route n (j : nat) r' :
  routes !! i = Some route -> <[i := with_connections route n]> routes !! j = Some r' ->
  exists r, routes !! j = Some r /\ route_phase r' = route_phase r /\
    route_connections r' = if decide (j = i) then n else route_connections r.
Proof.
  intros Hi Hj. destruct (decide (j = i)) as [->|Hne].
  - rewrite list_lookup_insert_eq in Hj by by eapply lookup_lt_Some. injection Hj as <-. by exists route.
  - rewrite list_lookup_insert_ne in Hj by done. by exists r'.
Qed.

Lemma revoke_route_ok s i route :
  service_ok s -> service_routes s !! i = Some route ->
  service_ok (mkService (<[i := route_revoke route]> (service_routes s)) (service_controls s) (service_written s)).
Proof.
  intros Hs Hi. pose proof (lookup_lt_Some _ _ _ Hi) as Hil. split.
  - intros j r Hr. cbn in Hr. destruct (decide (j = i)) as [->|Hne].
    + rewrite list_lookup_insert_eq in Hr by done. injection Hr as <-. destruct (ok_routes _ Hs i route Hi) as [Hok Hb].
      split; [|done]. cbn. split; [done|]. unfold route_ok in Hok.
      destruct (phase_progress (route_phase route)) as [[n t]|]; [by exists n; apply Hok|by apply Hok].
    + rewrite list_lookup_insert_ne in Hr by done. by apply (ok_routes _ Hs).
  - intros c j t Hx. cbn. rewrite length_insert. by eapply (ok_carried _ Hs).
  - intros c ctl j Hc Hr. cbn. rewrite length_insert. by eapply (ok_bound _ Hs).
  - intros j p Hp. cbn. rewrite length_insert. by eapply (ok_written _ Hs).
Qed.

Lemma with_phase_same route : with_phase route (route_phase route) = route.
Proof. by destruct route. Qed.

Lemma control_same control : control_transition control = None -> mkControl (control_route control) None = control.
Proof. destruct control. by intros [= ->]. Qed.

Lemma set_control_same s c control :
  service_controls s !! c = Some (Some control) -> set_control s c (service_routes s) (Some control) [] = s.
Proof. intros Hc. unfold set_control. rewrite list_insert_id by done. rewrite app_nil_r. by destruct s. Qed.

Lemma set_control_twice s c r1 x1 w1 r2 x2 w2 :
  set_control (set_control s c r1 x1 w1) c r2 x2 w2 = set_control s c r2 x2 (w1 ++ w2).
Proof. unfold set_control. cbn. by rewrite list_insert_insert_eq, app_assoc. Qed.

Lemma bound_pos s c control i :
  service_controls s !! c = Some (Some control) -> control_route control = Some i -> 1 <= bound_connections s i.
Proof.
  intros Hc Hr. unfold bound_connections. revert c Hc.
  induction (service_controls s) as [|x l IH]; intros [|c] Hc; try done; rewrite sum_with_cons.
  - injection Hc as ->. cbn. rewrite bool_decide_true by done.
    assert (0 <= sum_with (is_bound i) l); [|lia]. clear. induction l as [|x l IH]; [done|]. rewrite sum_with_cons.
    destruct x as [x|]; cbn; [case_bool_decide|]; lia.
  - specialize (IH c Hc). destruct x as [x|]; cbn; [case_bool_decide|]; lia.
Qed.

Lemma finish_transition_ok s c control response_written :
  service_ok s -> service_controls s !! c = Some (Some control) ->
  exists routes', finish_transition (service_routes s) control response_written =
      Some (routes', mkControl (control_route control) None) /\
    service_ok (set_control s c routes' (Some (mkControl (control_route control) None))
                  (written_phase (service_routes s) control response_written)).
Proof.
  intros Hs Hc. unfold finish_transition. destruct (control_transition control) as [[i t]|] eqn:Ht.
  - destruct (ok_carried _ Hs c i t) as [Hlt _]; [by exists control|].
    destruct (lookup_lt_is_Some_2 _ _ Hlt) as [route Hi]. rewrite Hi. cbn [mbind option_bind].
    eexists. split; [done|]. by apply finish_writing_ok.
  - eexists. split; [by rewrite control_same|]. unfold written_phase. rewrite Ht, control_same by done.
    by rewrite set_control_same.
Qed.

(** The permits bound the connections. *)
Lemma open_set s c old routes control w :
  service_controls s !! c = Some old ->
  open_connections (set_control s c routes control w) = open_connections s - is_open old + is_open control.
Proof. intros Hc. unfold open_connections, set_control. cbn [service_controls]. by apply sum_with_insert. Qed.

Lemma bound_le_open s i : 0 <= bound_connections s i <= open_connections s.
Proof.
  unfold bound_connections, open_connections. induction (service_controls s) as [|x l IH]; [done|].
  rewrite !sum_with_cons. destruct x as [x|]; cbn [is_bound is_open]; [case_bool_decide|]; lia.
Qed.

Definition service_inv (s : Service) : Prop := service_ok s /\ open_connections s <= MAX_CONNECTIONS.

Lemma set_control_open s c control routes control' w :
  service_controls s !! c = Some (Some control) -> open_connections s <= MAX_CONNECTIONS ->
  open_connections (set_control s c routes control' w) <= MAX_CONNECTIONS.
Proof. intros Hc Ho. rewrite (open_set _ _ _ _ _ _ Hc). destruct control'; cbn [is_open]; lia. Qed.

(** ** The steps *)

Lemma bind_step_ok s c i control routes control' b :
  service_ok s -> service_controls s !! c = Some (Some control) ->
  bind_route (service_routes s) control i = Some (routes, control', b) ->
  service_ok (set_control s c routes (Some control') []).
Proof.
  intros Hs Hc. unfold bind_route. destruct (control_route control) as [bound|] eqn:Hr.
  { intros [= <- <- _]. by rewrite set_control_same. }
  destruct (service_routes s !! i) as [route|] eqn:Hi; [|done]. cbn [mbind option_bind].
  unfold acquire_connection. case_bool_decide; intros [= <- <- _]; [by rewrite set_control_same|].
  apply (rebind_ok s c control); try done.
  - by rewrite length_insert.
  - intros j r' Hj. destruct (connections_insert _ _ _ _ _ _ Hi Hj) as (r & Hr' & Hp & Hn).
    exists r. split_and!; try done. rewrite Hn. cbn. rewrite Hr. destruct (decide (j = i)) as [->|Hne].
    + rewrite Hi in Hr'. injection Hr' as <-. rewrite bool_decide_false, bool_decide_true by congruence. lia.
    + rewrite !bool_decide_false by congruence. lia.
  - intros x j [= <-] [= <-]. by eapply lookup_lt_Some.
Qed.

Lemma close_step_ok s c control response_written :
  service_inv s -> service_controls s !! c = Some (Some control) ->
  exists routes' control', finish (service_routes s) control response_written = Some (routes', control') /\
    service_ok (set_control s c routes' None (written_phase (service_routes s) control response_written)).
Proof.
  intros [Hs Ho] Hc. unfold finish.
  destruct (finish_transition_ok s c control response_written Hs Hc) as (routes' & -> & Hs').
  cbn [mbind option_bind control_route control_transition].
  set (w := written_phase _ _ _) in *. set (control0 := mkControl (control_route control) None) in *.
  set (s1 := set_control s c routes' (Some control0) w) in *.
  assert (Hc1 : service_controls s1 !! c = Some (Some control0)).
  { unfold s1, set_control. cbn. apply list_lookup_insert_eq. by eapply lookup_lt_Some. }
  assert (Ho1 : open_connections s1 <= MAX_CONNECTIONS) by by eapply set_control_open.
  assert (Hclose : forall routes2, length routes2 = length routes' ->
    (forall j r', routes2 !! j = Some r' -> exists r, routes' !! j = Some r /\ route_phase r' = route_phase r /\
      route_connections r' = route_connections r - is_bound j (Some control0) + 0) ->
    service_ok (set_control s c routes2 None w)).
  { intros routes2 Hlen Hr2. replace w with (w ++ []) by apply app_nil_r.
    rewrite <- (set_control_twice s c routes' (Some control0) w). by apply (rebind_ok s1 c control0). }
  destruct (control_route control) as [i|] eqn:Hr.
  - pose proof (ok_bound _ Hs' c control0 i Hc1 eq_refl) as Hlt.
    destruct (lookup_lt_is_Some_2 _ _ Hlt) as [route Hi]. change (service_routes s1) with routes' in Hi.
    rewrite Hi. cbn [mbind option_bind].
    destruct (ok_routes _ Hs' i route Hi) as [_ Hb]. pose proof (bound_pos s1 c control0 i Hc1 eq_refl).
    pose proof (bound_le_open s1 i). unfold release_connection, checked_sub.
    rewrite checked_in_range by (unfold MAX_CONNECTIONS in *; cbn; lia).
    cbn [mbind option_bind]. eexists _, _. split; [done|]. apply Hclose; [by rewrite length_insert|].
    intros j r' Hj. destruct (connections_insert _ _ _ _ _ _ Hi Hj) as (r & Hr' & Hp & Hn).
    exists r. split_and!; try done. rewrite Hn. cbn. destruct (decide (j = i)) as [->|Hne].
    + rewrite Hi in Hr'. injection Hr' as <-. rewrite bool_decide_true by done. lia.
    + rewrite bool_decide_false by congruence. lia.
  - eexists _, _. split; [done|]. apply Hclose; [done|]. intros j r' Hj. exists r'. split_and!; try done.
    cbn. rewrite bool_decide_false by done. lia.
Qed.

(** What a request does to its connection and its route. *)
Lemma dispatch_step_ok s c control i route message kept :
  service_ok s -> service_controls s !! c = Some (Some control) -> control_route control = Some i ->
  control_transition control = None -> service_routes s !! i = Some route ->
  exists s', service_step s (Dispatch c message kept) = Some s' /\ service_ok s'.
Proof.
  intros Hs Hc Hr Ht Hi. cbn [service_step]. rewrite Hc, Hr. unfold begin_request. rewrite Ht.
  cbn [mbind option_bind]. rewrite Hi. cbn [mbind option_bind].
  destruct (dispatch_message _ _ _ _ _) as [phase outcome] eqn:Ed. apply dispatch_message_phase in Ed.
  set (t := match outcome with Ok _ => None | Err outcome => transition outcome end).
  assert (Hd : match t with
    | Some t => exists n, phase_progress (route_phase route) = Some (n, None) /\ phase_progress phase = Some (n, Some t) /\
        phase = writing t /\ route_phase route = previous t
    | None => phase = route_phase route
    end) by by unfold t; destruct outcome as [|[]].
  clearbody t. clear Ed outcome. destruct t as [t|]; cbn [mbind option_bind].
  - destruct Hd as (n & Hp & Hp' & -> & Hprev). unfold set_transition. rewrite Ht. cbn [mbind option_bind].
    destruct kept; [eexists; split; [done|by eapply begin_writing_ok]|].
    unfold finish_transition. cbn [control_transition]. rewrite list_lookup_insert_eq by by eapply lookup_lt_Some.
    cbn [mbind option_bind control_route]. rewrite list_insert_insert_eq. eexists. split; [done|].
    change (with_phase (with_phase route (writing t)) ?p) with (with_phase route p).
    unfold apply. cbn [route_phase with_phase]. rewrite bool_decide_true by done. cbn [negb andb].
    by rewrite <- Hprev, with_phase_same, list_insert_id, control_same, set_control_same.
  - subst phase. rewrite with_phase_same, list_insert_id by done. unfold set_transition. rewrite Ht. cbn [mbind option_bind].
    assert (Hx : mkControl (control_route control) None = control) by by apply control_same.
    unfold finish_transition. cbn [control_transition mbind option_bind]. rewrite Hx.
    destruct kept; (eexists; split; [done|]); by rewrite set_control_same.
Qed.

(** A connection that receives a request before its response was flushed. *)
Definition unflushed_dispatch (s : Service) (action : ServiceAction) : Prop :=
  exists c message kept control i t,
    action = Dispatch c message kept /\ service_controls s !! c = Some (Some control) /\
    control_route control = Some i /\ control_transition control = Some t.

Lemma service_step_cases s action :
  service_ok s -> open_connections s <= MAX_CONNECTIONS ->
  (exists s', service_step s action = Some s' /\ service_ok s') \/
  (service_step s action = None /\ unflushed_dispatch s action).
Proof.
  intros Hs Ho. destruct action as [token revision| |c i|c message kept|c written|c written|i].
  - left. eexists. split; [done|]. by apply register_ok.
  - left. cbn [service_step]. destruct (_ <? _); (eexists; split; [done|]); [by apply open_ok|done].
  - left. cbn [service_step]. destruct (service_controls s !! c) as [[control|]|] eqn:Hc; [|by eexists..].
    destruct (Nat.ltb_spec i (length (service_routes s))); [|by eexists].
    assert (Hb : is_Some (bind_route (service_routes s) control i)).
    { unfold bind_route. destruct (control_route control); [done|].
      destruct (lookup_lt_is_Some_2 (service_routes s) i) as [route ->]; [done|]. by eexists. }
    destruct Hb as [[[routes control'] b] Hb]. rewrite Hb. eexists. split; [done|]. by eapply bind_step_ok.
  - destruct (service_controls s !! c) as [[control|]|] eqn:Hc; [|left; cbn; rewrite Hc; by eexists..].
    destruct (control_route control) as [i|] eqn:Hr; [|left; cbn; rewrite Hc, Hr; by eexists].
    destruct (control_transition control) as [t|] eqn:Ht.
    + right. split; [|by repeat eexists]. cbn [service_step]. rewrite Hc, Hr. unfold begin_request. by rewrite Ht.
    + left. destruct (lookup_lt_is_Some_2 _ _ (ok_bound _ Hs c control i Hc Hr)) as [route Hi].
      by eapply dispatch_step_ok.
  - left. cbn [service_step]. destruct (service_controls s !! c) as [[control|]|] eqn:Hc; [|by eexists..].
    destruct (finish_transition_ok s c control written Hs Hc) as (routes' & -> & Hs'). by eexists.
  - left. cbn [service_step]. destruct (service_controls s !! c) as [[control|]|] eqn:Hc; [|by eexists..].
    destruct (close_step_ok s c control written (conj Hs Ho) Hc) as (routes' & control' & -> & Hs'). by eexists.
  - left. cbn [service_step]. destruct (service_routes s !! i) as [route|] eqn:Hi; [|by eexists].
    eexists. split; [done|]. by apply revoke_route_ok.
Qed.

Lemma service_step_open s action s' :
  service_step s action = Some s' -> open_connections s <= MAX_CONNECTIONS -> open_connections s' <= MAX_CONNECTIONS.
Proof.
  intros Hstep Ho. destruct action as [token revision| |c i|c message kept|c written|c written|i];
    cbn [service_step] in Hstep.
  - by injection Hstep as <-.
  - destruct (Z.ltb_spec (open_connections s) MAX_CONNECTIONS); injection Hstep as <-; [|done].
    unfold open_connections in *. cbn [service_controls]. rewrite sum_with_app. cbn. lia.
  - destruct (service_controls s !! c) as [[control|]|] eqn:Hc; [|by injection Hstep as <-..].
    destruct (_ <? _)%nat; [|by injection Hstep as <-]. apply bind_Some in Hstep as ([[routes' control'] b] & _ & [= <-]).
    by eapply set_control_open.
  - destruct (service_controls s !! c) as [[control|]|] eqn:Hc; [|by injection Hstep as <-..].
    destruct (control_route control) as [i|]; [|by injection Hstep as <-].
    apply bind_Some in Hstep as (? & _ & Hstep). apply bind_Some in Hstep as (? & _ & Hstep).
    destruct (dispatch_message _ _ _ _ _). apply bind_Some in Hstep as (? & _ & Hstep).
    destruct kept; [injection Hstep as <-; by eapply set_control_open|].
    apply bind_Some in Hstep as ([? ?] & _ & [= <-]). by eapply set_control_open.
  - destruct (service_controls s !! c) as [[control|]|] eqn:Hc; [|by injection Hstep as <-..].
    apply bind_Some in Hstep as ([? ?] & _ & [= <-]). by eapply set_control_open.
  - destruct (service_controls s !! c) as [[control|]|] eqn:Hc; [|by injection Hstep as <-..].
    apply bind_Some in Hstep as ([? ?] & _ & [= <-]). by eapply set_control_open.
  - destruct (service_routes s !! i); by injection Hstep as <-.
Qed.

Lemma reachable_inv s : service_reachable s -> service_inv s.
Proof.
  induction 1 as [|s action s' _ [Hs Ho] Hstep].
  - split; [|done]. split; try done.
    + intros c i t (control & Hc & _). done.
    + intros i p Hp. by apply elem_of_nil in Hp.
  - split; [|by eapply service_step_open].
    destruct (service_step_cases s action Hs Ho) as [(s2 & E & Hs2)|[E _]]; congruence.
Qed.

(** C23: in every state of the service that its actions lead to, the responses
    of a route that were written are the handshake or its beginning, and a route
    is [Ready] only when all three were (initialize, the initialized
    notification, the tools list), so a message is taken for a call of the result
    tool only after the whole handshake. A route in a writing phase has exactly one
    connection whose response is in flight, the one that moves it, and a route
    in a phase between has none; a route's count of connections is the number of
    open connections bound to it, so at most the permits. *)
Theorem route_ready_after_handshake s :
  service_reachable s ->
  forall i route, service_routes s !! i = Some route ->
    (exists n, route_written s i = take n handshake) /\
    (route_phase route = Phase_Ready -> route_written s i = handshake) /\
    (forall message phase call,
      dispatch_message number_of_i32 crate_version (route_revision route) (route_phase route) message = (phase, Ok call) ->
      phase = Phase_Ready /\ route_written s i = handshake) /\
    match phase_progress (route_phase route) with
    | Some (n, Some t) => route_written s i = take n handshake /\
        exists c, carries s c i t /\ forall c' t', carries s c' i t' -> c' = c /\ t' = t
    | Some (n, None) => route_written s i = take n handshake /\ forall c t, ~ carries s c i t
    | None => route_phase route = Phase_Revoked
    end /\
    route_connections route = bound_connections s i /\ 0 <= route_connections route <= MAX_CONNECTIONS.
Proof.
  intros [Hs Ho]%reachable_inv i route Hi. destruct (ok_routes _ Hs i route Hi) as [Hok Hb].
  pose proof (bound_le_open s i).
  assert (Hready : route_phase route = Phase_Ready -> route_written s i = handshake).
  { intros Ep. unfold route_ok in Hok. rewrite Ep in Hok. by destruct Hok as [-> _]. }
  split; [|split; [done|split; [|split; [|split; [done|lia]]]]].
  - unfold route_ok in Hok. destruct (phase_progress _) as [[n t]|]; [exists n|]; tauto.
  - intros message phase call E. apply dispatch_message_call in E as [<- Ep]. auto.
  - unfold route_ok in Hok. destruct (phase_progress _) as [[n [t|]]|]; [|split|].
    + destruct Hok as (Hw & Hc & Hu & He). split; [done|]. destruct (He t eq_refl) as [c Hct]. exists c. split; [done|].
      intros c' t' Hx. split; [by eapply Hu|]. apply Hc in Hx. congruence.
    + apply Hok.
    + intros c t Hx. destruct Hok as (_ & Hc & _). by apply Hc in Hx.
    + apply Hok.
Qed.

(** C24: an action fails an assertion exactly when a connection gets a request
    while the response of its previous one was not flushed; no flush, close,
    binding or revocation does, so a connection's lease is released once and the
    counts never go below zero. *)
Theorem service_fails_only_unflushed s action :
  service_reachable s -> service_step s action = None <-> unflushed_dispatch s action.
Proof.
  intros [Hs Ho]%reachable_inv. split.
  - intros E. destruct (service_step_cases s action Hs Ho) as [(s' & E' & _)|[_ Hu]]; [congruence|done].
  - intros (c & message & kept & control & i & t & -> & Hc & Hr & Ht). cbn [service_step].
    rewrite Hc, Hr. unfold begin_request. by rewrite Ht.
Qed.

End Service.

(** ** Witnesses

    A session that reaches [Ready]: the three requests of the handshake, the
    second one refused once because its connection closed before the answer was
    written. *)
#[local] Existing Instance integers_only.

Definition sample_number (z : Z) : Number := z.

Definition sample_request (method : string) (rest : list (string * JsonValue)) : JsonValue :=
  Json_Object ([("jsonrpc", Json_String "2.0"); ("method", Json_String method)] ++ rest).

Definition sample_initialize : JsonValue :=
  sample_request "initialize"
    [("id", Json_String "1");
     ("params",
      Json_Object
        [("capabilities", Json_Object []);
         ("clientInfo", Json_Object [("name", Json_String "agent"); ("version", Json_String "1")]);
         ("protocolVersion", Json_String "2025-06-18")])].

Definition sample_session : list ServiceAction :=
  [Register (bytes "token") "2025-06-18"; OpenConnection; OpenConnection; Bind 0 0;
   Dispatch 0 sample_initialize true; Flush 0 true;
   Dispatch 0 (sample_request "notifications/initialized" []) true; CloseConnection 0 false;
   Bind 1 0; Dispatch 1 (sample_request "notifications/initialized" []) true; Flush 1 true;
   Dispatch 1 (sample_request "tools/list" [("id", Json_String "2")]) true; Flush 1 true].

Fixpoint service_run (s : Service) (actions : list ServiceAction) : option Service :=
  match actions with
  | [] => Some s
  | action :: actions => s ← service_step sample_number "0" s action; service_run s actions
  end.

Lemma service_run_reachable actions : forall s s',
  service_reachable sample_number "0" s -> service_run s actions = Some s' -> service_reachable sample_number "0" s'.
Proof.
  induction actions as [|action actions IH]; intros s s' Hs; cbn [service_run]; [by intros [= <-]|].
  intros (s1 & Hstep & Hrun)%bind_Some. eapply IH; [|exact Hrun]. by eapply service_next.
Qed.

Definition sample_ready : Service :=
  mkService [mkRoute (bytes "token") "2025-06-18" Phase_Ready 1 false] [None; Some (mkControl (Some 0%nat) None)]
    [(0%nat, Phase_Initialized); (0%nat, Phase_ClientInitialized); (0%nat, Phase_ReadyPending)].

Lemma sample_ready_run : service_run (mkService [] [] []) sample_session = Some sample_ready.
Proof. vm_compute. reflexivity. Qed.

Lemma sample_ready_reachable : service_reachable sample_number "0" sample_ready.
Proof. eapply service_run_reachable; [constructor|]. exact sample_ready_run. Qed.

Lemma route_ready_after_handshake_witness :
  service_reachable sample_number "0" sample_ready /\ route_written sample_ready 0 = handshake.
Proof.
  split; [exact sample_ready_reachable|].
  refine (proj1 (proj2 (route_ready_after_handshake sample_number "0" sample_ready sample_ready_reachable 0%nat
    (mkRoute (bytes "token") "2025-06-18" Phase_Ready 1 false) eq_refl)) eq_refl).
Defined.

Definition sample_writing : Service :=
  mkService [mkRoute (bytes "token") "2025-06-18" Phase_InitializeWriting 1 false]
    [Some (mkControl (Some 0%nat) (Some (0%nat, initialize_transition))); Some ConnectionControl_new] [].

Lemma sample_writing_reachable : service_reachable sample_number "0" sample_writing.
Proof. eapply (service_run_reachable (take 5 sample_session)); [constructor|]. vm_compute. reflexivity. Qed.

Lemma service_fails_only_unflushed_witness :
  service_reachable sample_number "0" sample_writing /\
  unflushed_dispatch sample_writing (Dispatch 0 sample_initialize true).
Proof.
  split; [exact sample_writing_reachable|].
  apply (proj1 (service_fails_only_unflushed sample_number "0" sample_writing (Dispatch 0 sample_initialize true)
    sample_writing_reachable)). reflexivity.
Defined.

Lemma json_depth_within_exact_witness :
  json_nodes (Json_Array [Json_Null; Json_Array [Json_Bool true]]) <= Z.of_nat 4 /\
  json_depth_within 4 (Json_Array [Json_Null; Json_Array [Json_Bool true]]) 2 = Some false.
Proof.
  assert (Hn : json_nodes (Json_Array [Json_Null; Json_Array [Json_Bool true]]) <= Z.of_nat 4) by (vm_compute; discriminate).
  split; [exact Hn|].
  rewrite (json_depth_within_exact 4 (Json_Array [Json_Null; Json_Array [Json_Bool true]]) 2 Hn). reflexivity.
Defined.
