(* ===== verification/CueScope.v ===== *)
(** * Orchestration: cues, mailboxes and scenes

    Models [rust/src/orchestration/mailbox.rs] (the life of a cue operation and
    the mailbox of an actor) and the admission of cues and the draining of a
    scene in [scene_context.rs].  Each function here is what the source does
    under one lock; [CueSystem] composes them.

    An operation is an index.  Its asyncio task is named by the operation: it has
    at most one.  The fields that only keep Python objects alive, and the
    diagnostic hooks, which observe, are left out. *)

From S2P Require Import Prelude Wire.

(** Python objects: the value of a cue that is a tuple, with whether each item is
    an [Effect]; exceptions; instances of [asyncio.CancelledError]. *)
Class PyCues := {
  PyObj : Type;
  cued_items : PyObj -> option (list bool);
  type_error : string -> PyObj;
  runtime_error : string -> PyObj;
  cancelled_error : PyObj;
  is_cancelled : PyObj -> bool;
}.

Section Operations.
Context `{PyCues}.

(** ** Operations *)

Inductive TerminalOutcome :=
| Outcome_Success (value : PyObj)
| Outcome_Failure (error : PyObj)
| Outcome_Cancelled (error : PyObj)
| Outcome_CleanupFailure (error : PyObj).

Inductive OperationPhase :=
| Op_Queued
| Op_Running
| Op_CancellingRunning
| Op_Terminal (outcome : TerminalOutcome).

Inductive CancellationIntent :=
| Intent_Requested (dispatch_error : option PyObj)
| Intent_AttachmentFailure (error : PyObj).

Record CueOperation := mkOp {
  op_scene : nat;
  op_actor : nat;
  op_phase : OperationPhase;
  op_intent : option CancellationIntent;
  op_cue : option string;
  op_cued_active : bool;
}.

(** [new_runtime]: the cue is named by its id. *)
Definition new_runtime (scene actor : nat) (cue : string) : CueOperation :=
  mkOp scene actor Op_Queued None (Some cue) true.

Definition with_op (op : CueOperation) (phase : OperationPhase) (intent : option CancellationIntent)
    (cue : option string) : CueOperation :=
  mkOp (op_scene op) (op_actor op) phase intent cue (op_cued_active op).

Definition is_terminal (op : CueOperation) : bool :=
  match op_phase op with Op_Terminal _ => true | _ => false end.

(** [validate_cued_result] *)
Definition validate_cued_result (value : PyObj) : result PyObj PyObj :=
  match cued_items value with
  | None => Err (type_error "Actor.cued() must return a tuple of Effect instances")
  | Some items =>
      match position negb items with
      | Some index =>
          Err (type_error ("Actor.cued() return item at index " ++ u64_to_string (Z.of_nat index) ++ " is not an Effect"))
      | None => Ok value
      end
  end.

(** What [request_cancel] goes on to do. *)
Inductive RequestAction :=
| Request_Queued
| Request_Running.

Definition request_cancel (op : CueOperation) : CueOperation * option RequestAction :=
  match op_phase op with
  | Op_Queued => (with_op op (Op_Terminal (Outcome_Cancelled cancelled_error)) None None, Some Request_Queued)
  | Op_Running =>
      (with_op op Op_CancellingRunning (Some (Intent_Requested None)) (op_cue op), Some Request_Running)
  | Op_CancellingRunning | Op_Terminal _ => (op, None)
  end.

(** The end of [request_cancel] when the cancellation of the task raised. *)
Definition cancel_raised (op : CueOperation) (error : PyObj) : CueOperation :=
  match op_intent op with
  | Some (Intent_Requested None) => with_op op (op_phase op) (Some (Intent_Requested (Some error))) (op_cue op)
  | _ => op
  end.

(** [begin_attachment_failure]: whether it was armed. *)
Definition begin_attachment_failure (op : CueOperation) (error : PyObj) : CueOperation * bool :=
  match op_phase op with
  | Op_Running => (with_op op Op_CancellingRunning (Some (Intent_AttachmentFailure error)) (op_cue op), true)
  | _ => (op, false)
  end.

Inductive CompletionSnapshot :=
| Snapshot_Validate
| Snapshot_Requested
| Snapshot_AttachmentFailure
| Snapshot_Terminal.

(** [completion_snapshot]; [None] is its panic. *)
Definition completion_snapshot (op : CueOperation) : option CompletionSnapshot :=
  match op_phase op, op_intent op with
  | (Op_Queued | Op_Running), _ => Some Snapshot_Validate
  | Op_CancellingRunning, Some (Intent_Requested _) => Some Snapshot_Requested
  | Op_CancellingRunning, Some (Intent_AttachmentFailure _) => Some Snapshot_AttachmentFailure
  | Op_Terminal _, _ => Some Snapshot_Terminal
  | Op_CancellingRunning, None => None
  end.

Inductive ObservedTaskResult :=
| Observed_Normal (value : PyObj)
| Observed_Error (error : PyObj) (cancelled : bool).

Definition observe_result (result : result PyObj PyObj) : ObservedTaskResult :=
  match result with
  | Ok value => Observed_Normal value
  | Err error => Observed_Error error (is_cancelled error)
  end.

(** The outcome of a completion, with what was prepared before the lock:
    [validated] and [fallback]; [None] is a failed [expect]. *)
Definition completion_outcome (phase : OperationPhase) (intent : option CancellationIntent)
    (observed : ObservedTaskResult) (validated : option (result PyObj PyObj)) (fallback : option PyObj)
    : option TerminalOutcome :=
  match phase with
  | Op_Queued | Op_Running =>
      match observed with
      | Observed_Normal _ =>
          match validated with
          | Some (Ok value) => Some (Outcome_Success value)
          | Some (Err error) => Some (Outcome_Failure error)
          | None => None
          end
      | Observed_Error error cancelled =>
          Some (if cancelled then Outcome_Cancelled error else Outcome_Failure error)
      end
  | Op_CancellingRunning =>
      match intent with
      | None => None
      | Some (Intent_AttachmentFailure error) => Some (Outcome_Failure error)
      | Some (Intent_Requested dispatch_error) =>
          match observed, dispatch_error with
          | Observed_Error error false, _ => Some (Outcome_CleanupFailure error)
          | _, Some dispatch_error => Some (Outcome_CleanupFailure dispatch_error)
          | Observed_Error error true, None => Some (Outcome_Cancelled error)
          | Observed_Normal _, None => error ← fallback; Some (Outcome_Cancelled error)
          end
      end
  | Op_Terminal _ => None
  end.

(** [transition_from_result]: [None] is a panic, the inner [None] an operation
    that is terminal already; otherwise [close_cued] of the terminal action. *)
Definition transition_from_result (op : CueOperation) (result : result PyObj PyObj)
    : option (CueOperation * option bool) :=
  snapshot ← completion_snapshot op;
  match snapshot with
  | Snapshot_Terminal => Some (op, None)
  | _ =>
      let observed := observe_result result in
      let validated :=
        match snapshot, observed with
        | Snapshot_Validate, Observed_Normal value => Some (validate_cued_result value)
        | _, _ => None
        end in
      let fallback :=
        match snapshot, observed with
        | Snapshot_Requested, Observed_Normal _ => Some cancelled_error
        | _, _ => None
        end in
      outcome ← completion_outcome (op_phase op) (op_intent op) observed validated fallback;
      Some (with_op op (Op_Terminal outcome) None None,
            Some match op_phase op with Op_Queued => true | _ => false end)
  end.

(** [result_for_caller]; [None] is its panic. *)
Definition result_for_caller (op : CueOperation) (caller_cancellation : option PyObj) : option (result PyObj PyObj) :=
  match op_phase op with
  | Op_Terminal (Outcome_Success value) => Some (Ok value)
  | Op_Terminal (Outcome_Failure error) | Op_Terminal (Outcome_CleanupFailure error) => Some (Err error)
  | Op_Terminal (Outcome_Cancelled error) => Some (Err (default error caller_cancellation))
  | _ => None
  end.

(** [CuedScope::close_inline], of the scope of the operation. *)
Definition close_inline (op : CueOperation) : CueOperation :=
  mkOp (op_scene op) (op_actor op) (op_phase op) (op_intent op) (op_cue op) false.

End Operations.

(** ** Mailboxes *)

Record Mailbox := mkMailbox { queue : list nat; running : option nat }.

Definition Mailbox_default : Mailbox := mkMailbox [] None.

Definition mailbox_enqueue (mb : Mailbox) (operation : nat) : Mailbox :=
  mkMailbox (queue mb ++ [operation]) (running mb).

Definition claim_next_if_idle (mb : Mailbox) : Mailbox * option nat :=
  match running mb, queue mb with
  | Some _, _ => (mb, None)
  | None, [] => (mb, None)
  | None, operation :: queue => (mkMailbox queue (Some operation), Some operation)
  end.

(** [None] when the operation is not the one that runs. *)
Definition complete_running (mb : Mailbox) (operation : nat) : option (Mailbox * option nat) :=
  if bool_decide (running mb = Some operation) then
    match queue mb with
    | [] => Some (mkMailbox [] None, None)
    | next :: queue => Some (mkMailbox queue (Some next), Some next)
    end
  else None.

Definition remove_queued (mb : Mailbox) (operation : nat) : option Mailbox :=
  index ← position (Nat.eqb operation) (queue mb); Some (mkMailbox (delete index (queue mb)) (running mb)).

(** The mailbox and the operation that was claimed. *)
Definition terminal_transition (mb : Mailbox) (operation : nat) : Mailbox * option nat :=
  match remove_queued mb operation with
  | Some mb => (mb, None)
  | None => match complete_running mb operation with Some (mb, next) => (mb, next) | None => (mb, None) end
  end.

(** ** Scenes *)

Inductive ScenePhase :=
| Scene_Open
| Scene_Admitting (token : Z)
| Scene_ClosePending (token : Z)
| Scene_Closing
| Scene_Closed.

#[export] Instance ScenePhase_eq_dec : EqDecision ScenePhase.
Proof. solve_decision. Defined.

(** The counter of cues is a Python integer. *)
Record SceneState := mkScene {
  scene_name : string;
  scene_phase : ScenePhase;
  next_token : Z;
  scene_operations : list nat;
  scene_counter : Z;
}.

Definition SceneScope_new (name : string) : SceneState := mkScene name Scene_Open 0 [] 0.

Definition with_scene_phase (s : SceneState) (phase : ScenePhase) : SceneState :=
  mkScene (scene_name s) phase (next_token s) (scene_operations s) (scene_counter s).

(** [begin_admission]: the token of the admission. *)
Definition begin_admission (s : SceneState) : option (SceneState * Z) :=
  match scene_phase s with
  | Scene_Open =>
      let token := next_token s in
      Some (mkScene (scene_name s) (Scene_Admitting token) (wrapping_add U64 token 1) (scene_operations s) (scene_counter s), token)
  | _ => None
  end.

(** [close]: the operations to cancel. *)
Definition scene_close (s : SceneState) : SceneState * list nat :=
  match scene_phase s with
  | Scene_Open =>
      match scene_operations s with
      | [] => (with_scene_phase s Scene_Closed, [])
      | operations => (with_scene_phase s Scene_Closing, operations)
      end
  | Scene_Admitting token => (with_scene_phase s (Scene_ClosePending token), [])
  | Scene_ClosePending _ | Scene_Closing | Scene_Closed => (s, [])
  end.

(** The end of a scene that closes, shared by [operation_finished] and
    [wait_closed]. *)
Definition settle_closing (s : SceneState) : SceneState :=
  match scene_phase s, scene_operations s with
  | Scene_Closing, [] => with_scene_phase s Scene_Closed
  | _, _ => s
  end.

Definition operation_finished (s : SceneState) (operation : nat) : SceneState :=
  let operations :=
    match position (Nat.eqb operation) (scene_operations s) with
    | Some index => delete index (scene_operations s)
    | None => scene_operations s
    end in
  settle_closing (mkScene (scene_name s) (scene_phase s) (next_token s) operations (scene_counter s)).

(** One turn of [wait_closed]: whether it returns. *)
Definition wait_closed (s : SceneState) : SceneState * bool :=
  let s := settle_closing s in (s, bool_decide (scene_phase s = Scene_Closed)).

Definition rollback_admission (s : SceneState) (token : Z) : SceneState * list nat :=
  match scene_phase s with
  | Scene_Admitting current => if current =? token then (with_scene_phase s Scene_Open, []) else (s, [])
  | Scene_ClosePending current =>
      if current =? token then (with_scene_phase s Scene_Closing, scene_operations s) else (s, [])
  | _ => (s, [])
  end.

(** [PreparedAdmission::commit] under the lock of the scene: the operations to
    cancel; [None] is its panic. *)
Definition scene_commit (s : SceneState) (token next : Z) (operation : nat) : option (SceneState * list nat) :=
  let operations := scene_operations s ++ [operation] in
  match scene_phase s with
  | Scene_Admitting current =>
      if current =? token then Some (mkScene (scene_name s) Scene_Open (next_token s) operations next, []) else None
  | Scene_ClosePending current =>
      if current =? token then Some (mkScene (scene_name s) Scene_Closing (next_token s) operations next, operations) else None
  | _ => None
  end.

(** ** Decimal text of Python integers *)

Definition DECIMAL_BASE : Z := 1000000000000000000.
Definition DECIMAL_WIDTH : nat := 18.

(** The loop of [decimal_from_py_int], least significant chunk first; [None] is
    fuel that does not suffice. *)
Fixpoint decimal_chunks (fuel : nat) (magnitude : Z) : option (list Z) :=
  match fuel with
  | O => None
  | S fuel =>
      let quotient := magnitude / DECIMAL_BASE in
      let chunk := magnitude mod DECIMAL_BASE in
      if quotient =? 0 then Some [chunk]
      else chunks ← decimal_chunks fuel quotient; Some (chunk :: chunks)
  end.

(** The format [{chunk:0WIDTH$}]. *)
Definition padded (chunk : Z) : list ascii :=
  let text := bytes (u64_to_string chunk) in replicate (DECIMAL_WIDTH - length text) "0"%char ++ text.

Definition decimal_from_py_int (fuel : nat) (value : Z) : option string :=
  chunks ← decimal_chunks fuel (Z.abs value);
  match rev chunks with
  | [] => None
  | first :: chunks =>
      let text := (if value <? 0 then ["-"%char] else []) ++ bytes (u64_to_string first) in
      Some (of_bytes (text ++ flat_map padded chunks))
  end.

(** A turn of the loop divides the magnitude by more than two. *)
Definition decimal_fuel (value : Z) : nat := S (Z.to_nat (Z.log2 (Z.abs value))).

(** [AdmissionTxn::prepare]: the counter of after the admission and the id of
    its cue. *)
Definition prepare (s : SceneState) : option (Z * string) :=
  text ← decimal_from_py_int (decimal_fuel (scene_counter s)) (scene_counter s);
  Some (scene_counter s + 1, scene_name s ++ "-cue" ++ text)%string.
