(* ===== verification/CueIds.v ===== *)
(** * The ids of cues and effects

    The decimal text of Python integers, by which [scene_context.rs] names cues
    and effects, is the canonical one for integers of any size. *)

From S2P Require Import Prelude Wire CueScope.

(** The integer that chunks stand for, most significant first. *)
Definition chunks_value (first : Z) (rest : list Z) : Z := foldl (fun acc chunk => acc * DECIMAL_BASE + chunk) first rest.

Definition is_chunk (chunk : Z) : Prop := 0 <= chunk < DECIMAL_BASE.

Lemma decimal_chunks_spec fuel : forall m,
  0 <= m -> (Z.to_nat (Z.log2 m) < fuel)%nat ->
  exists chunks first rest, decimal_chunks fuel m = Some chunks /\ rev chunks = first :: rest /\
    is_chunk first /\ Forall is_chunk rest /\ chunks_value first rest = m /\ (first = 0 -> rest = []).
Proof.
  induction fuel as [|fuel IH]; intros m Hm Hf; [lia|]. cbn [decimal_chunks].
  pose proof (Z.mod_pos_bound m DECIMAL_BASE ltac:(done)) as Hmod. pose proof (Z.div_mod m DECIMAL_BASE ltac:(done)) as Hdm.
  destruct (Z.eqb_spec (m / DECIMAL_BASE) 0) as [Ez|Ez].
  - exists [m mod DECIMAL_BASE], (m mod DECIMAL_BASE), []. split_and!; try done. unfold chunks_value. cbn. lia.
  - assert (Hq : 0 < m / DECIMAL_BASE) by (pose proof (Z.div_pos m DECIMAL_BASE); unfold DECIMAL_BASE in *; lia).
    destruct (IH (m / DECIMAL_BASE)) as (chunks & first & rest & -> & Hrev & Hfirst & Hrest & Hv & Hz); [lia| |].
    { assert (Z.log2 (m / DECIMAL_BASE) < Z.log2 m); [|pose proof (Z.log2_nonneg (m / DECIMAL_BASE)); lia].
      apply Z.lt_le_trans with (Z.log2 (2 * (m / DECIMAL_BASE))).
      - rewrite Z.log2_double by done. lia.
      - apply Z.log2_le_mono. unfold DECIMAL_BASE in *. lia. }
    exists (m mod DECIMAL_BASE :: chunks), first, (rest ++ [m mod DECIMAL_BASE]). cbn [mbind option_bind rev]. rewrite Hrev.
    split_and!; try done.
    + apply Forall_app. split; [done|]. by apply Forall_singleton.
    + unfold chunks_value in *. rewrite foldl_app, Hv. cbn. lia.
    + intros H0. specialize (Hz H0). subst rest. unfold chunks_value in Hv. cbn in Hv. lia.
Qed.

Lemma zeros_value n l : digits_value 0 (replicate n "0"%char ++ l) = digits_value 0 l.
Proof. induction n as [|n IH]; [done|]. exact IH. Qed.

(** A chunk has at most eighteen digits. *)
Lemma chunk_text chunk :
  is_chunk chunk ->
  let text := bytes (u64_to_string chunk) in
  all_digits text /\ canonical_digits text /\ digits_value 0 text = chunk /\ (length text <= DECIMAL_WIDTH)%nat.
Proof.
  intros [H0 H1] text. destruct (u64_to_string_spec chunk) as (Ha & Hc & Hv); [unfold DECIMAL_BASE in H1; cbn; lia|].
  split_and!; try done. fold text in Ha, Hc, Hv. destruct (decide (length text <= DECIMAL_WIDTH)%nat) as [|Hl]; [done|exfalso].
  destruct Hc as (c & k & E & Hck). rewrite E in *. apply Forall_cons in Ha as [Hcd Hk]. apply is_ascii_digit_val in Hcd.
  cbn [digits_value length] in *. rewrite digits_value_shift in Hv. pose proof (digits_value_bounds k Hk).
  destruct (decide (digit_val c = 0)) as [Ez|Ez]; [rewrite (Hck Ez) in Hl; cbn in Hl; unfold DECIMAL_WIDTH in Hl; lia|].
  assert (Hp : 10 ^ 18 <= 10 ^ list_len k) by (apply Z.pow_le_mono_r; unfold list_len, DECIMAL_WIDTH in *; lia).
  unfold DECIMAL_BASE in H1. change (10 ^ 18) with 1000000000000000000 in Hp. nia.
Qed.

Lemma padded_spec chunk acc :
  is_chunk chunk -> all_digits (padded chunk) /\ digits_value acc (padded chunk) = acc * DECIMAL_BASE + chunk.
Proof.
  intros Hc. destruct (chunk_text chunk Hc) as (Ha & _ & Hv & Hl). unfold padded. set (text := bytes (u64_to_string chunk)) in *. split.
  - apply Forall_app. split; [|done]. by apply Forall_replicate.
  - rewrite digits_value_shift, zeros_value, Hv.
    assert (E : list_len (replicate (DECIMAL_WIDTH - length text) "0"%char ++ text) = 18).
    { unfold list_len. rewrite length_app, length_replicate. unfold DECIMAL_WIDTH in *. lia. }
    by rewrite E.
Qed.

Lemma padded_all rest : forall acc,
  Forall is_chunk rest ->
  all_digits (flat_map padded rest) /\ digits_value acc (flat_map padded rest) = chunks_value acc rest.
Proof.
  induction rest as [|chunk rest IH]; intros acc Hr; [done|]. apply Forall_cons in Hr as [Hc Hrest].
  destruct (padded_spec chunk acc Hc) as [Ha Hv]. cbn [flat_map]. rewrite digits_value_app, Hv.
  destruct (IH (acc * DECIMAL_BASE + chunk) Hrest) as [Ha' Hv']. split; [by apply Forall_app|done].
Qed.

Lemma decimal_from_py_int_spec value :
  exists text digits, decimal_from_py_int (decimal_fuel value) value = Some text /\
    bytes text = (if value <? 0 then ["-"%char] else []) ++ digits /\
    all_digits digits /\ canonical_digits digits /\ digits_value 0 digits = Z.abs value.
Proof.
  destruct (decimal_chunks_spec (decimal_fuel value) (Z.abs value)) as (chunks & first & rest & Hch & Hrev & Hf & Hr & Hv & Hz);
    [lia|unfold decimal_fuel; lia|].
  unfold decimal_from_py_int. rewrite Hch. cbn [mbind option_bind]. rewrite Hrev.
  destruct (chunk_text first Hf) as (Ha & Hc & Hfv & _). destruct (padded_all rest first Hr) as [Hpa Hpv].
  eexists _, (bytes (u64_to_string first) ++ flat_map padded rest). split; [done|].
  rewrite bytes_of_bytes, app_assoc. split; [done|]. split; [by apply Forall_app|]. split.
  - destruct Hc as (c & k & E & Hck). rewrite E in *. exists c, (k ++ flat_map padded rest). split; [done|].
    intros H0. rewrite (Hck H0) in *. cbn in Hfv. rewrite Hz by lia. done.
  - by rewrite digits_value_app, Hfv, Hpv.
Qed.

(** The decimal text of a Python integer of any size and sign is its
    canonical decimal: the conversion by chunks ends, prints a minus exactly for
    negative numbers, digits without leading zeros, and the digits denote the
    magnitude. *)
Theorem decimal_from_py_int_exact value :
  exists text digits, decimal_from_py_int (decimal_fuel value) value = Some text /\
    bytes text = (if value <? 0 then ["-"%char] else []) ++ digits /\
    all_digits digits /\ canonical_digits digits /\ digits_value 0 digits = Z.abs value.
Proof. apply decimal_from_py_int_spec. Qed.

(** ** Ids *)

(** The id of the [n]-th cue of a scene. *)
Definition cue_id (name : string) (n : Z) : option string :=
  text ← decimal_from_py_int (decimal_fuel n) n; Some (name ++ "-cue" ++ text)%string.

Lemma cue_id_some name n : exists id, cue_id name n = Some id.
Proof. unfold cue_id. destruct (decimal_from_py_int_spec n) as (text & digits & -> & _). by eexists. Qed.

Lemma cue_id_inj name n m id : 0 <= n -> 0 <= m -> cue_id name n = Some id -> cue_id name m = Some id -> n = m.
Proof.
  intros Hn Hm. unfold cue_id. destruct (decimal_from_py_int_spec n) as (t1 & d1 & -> & E1 & _ & _ & V1).
  destruct (decimal_from_py_int_spec m) as (t2 & d2 & -> & E2 & _ & _ & V2). cbn [mbind option_bind].
  intros [= <-] [= E]. apply (f_equal bytes) in E. rewrite !bytes_app in E. do 2 apply app_inv_head in E.
  rewrite E1, E2 in E. rewrite !(proj2 (Z.ltb_ge _ 0)) in E by done. cbn [app] in E. subst. lia.
Qed.

Lemma prepare_cue_spec scene : exists id, cue_id (scene_name scene) (scene_counter scene) = Some id /\
  prepare scene = Some (scene_counter scene + 1, id).
Proof.
  unfold prepare, cue_id. destruct (decimal_from_py_int_spec (scene_counter scene)) as (text & digits & -> & _). by eexists.
Qed.
