(* ===== verification/CueSystem.v ===== *)
(** * The cues of a production at work

    [CueScope] composed: actors with their mailboxes, scenes that admit and drain
    cues, and the calls in progress.  What the source does in a nest of calls is
    here a bag of items, each up to the next lock or call into Python, that
    advance in any order: Python code that a call runs (a coroutine that starts
    eagerly, a destructor) may do anything in between, and so may it here.

    [actor.rs] ([enqueue_operation], [drain_from], [unlink_terminal_operation],
    [finish_terminal_action]), [mailbox.rs] ([dispatch], [request_cancel],
    [complete_terminal_action], the callbacks) and [scene_context.rs] (admission,
    [close], [cancel_operations]). *)

From S2P Require Import Prelude Wire CueScope.

Section System.
Context `{PyCues}.

(** ** Calls in progress

    [after] is the operation whose signal is resolved once another one was
    dispatched in its place. *)
Inductive Item :=
| Enqueue (o : nat)
| DispatchCue (o : nat) (after : option nat)
| Launch (o : nat) (after : option nat)
| Attach (o : nat) (after : option nat)
| CancelTask (o : nat)
| Complete (o : nat) (close_cued : bool)
| Deregister (o : nat) (next : option nat)
| Resolve (o : nat)
| CancelAll (operations : list nat) (enqueue : option nat).

(** An admission, with the next counter and the id of its cue once it is
    prepared. *)
Record AdmissionTxn := mkTxn { txn_scene : nat; txn_token : Z; txn_prepared : option (Z * string) }.

(** [None] is an actor that was dropped.  [resolved], [enqueued] and [launched]
    log the signals that were resolved, and the operations in the order in which
    they were enqueued and in which their tasks were created. *)
Record World := mkWorld {
  operations : list CueOperation;
  actors : list (option Mailbox);
  scenes : list SceneState;
  admissions : list AdmissionTxn;
  items : list Item;
  resolved : list nat;
  enqueued : list nat;
  launched : list nat;
}.

Definition World_new : World := mkWorld [] [] [] [] [] [] [] [].

Definition set_op (w : World) (o : nat) (op : CueOperation) : World :=
  mkWorld (<[o := op]> (operations w)) (actors w) (scenes w) (admissions w) (items w) (resolved w) (enqueued w) (launched w).

Definition set_actor (w : World) (a : nat) (mb : option Mailbox) : World :=
  mkWorld (operations w) (<[a := mb]> (actors w)) (scenes w) (admissions w) (items w) (resolved w) (enqueued w) (launched w).

Definition set_scene (w : World) (s : nat) (scene : SceneState) : World :=
  mkWorld (operations w) (actors w) (<[s := scene]> (scenes w)) (admissions w) (items w) (resolved w) (enqueued w) (launched w).

Definition set_admissions (w : World) (txns : list AdmissionTxn) : World :=
  mkWorld (operations w) (actors w) (scenes w) txns (items w) (resolved w) (enqueued w) (launched w).

Definition set_items (w : World) (its : list Item) : World :=
  mkWorld (operations w) (actors w) (scenes w) (admissions w) its (resolved w) (enqueued w) (launched w).

Definition push (w : World) (its : list Item) : World := set_items w (items w ++ its).

Definition log_resolved (w : World) (o : nat) : World :=
  mkWorld (operations w) (actors w) (scenes w) (admissions w) (items w) (resolved w ++ [o]) (enqueued w) (launched w).

Definition log_enqueued (w : World) (o : nat) : World :=
  mkWorld (operations w) (actors w) (scenes w) (admissions w) (items w) (resolved w) (enqueued w ++ [o]) (launched w).

Definition log_launched (w : World) (o : nat) : World :=
  mkWorld (operations w) (actors w) (scenes w) (admissions w) (items w) (resolved w) (enqueued w) (launched w ++ [o]).

(** The mailbox of the actor of an operation, unless it was dropped. *)
Definition mailbox_of (w : World) (op : CueOperation) : option Mailbox := mjoin (actors w !! op_actor op).

Definition resolve_after (after : option nat) : list Item :=
  match after with Some o => [Resolve o] | None => [] end.

Definition dispatch_next (next : option nat) (after : option nat) : list Item :=
  match next with Some o => [DispatchCue o after] | None => resolve_after after end.

(** ** The steps of the calls *)

(** [ActorCapability::enqueue_operation], of [CueOperation::enqueue]; [None] is
    the error of an actor that was dropped, which the target of the admission
    excludes. *)
Definition enqueue_operation (w : World) (o : nat) (op : CueOperation) : option World :=
  if is_terminal op then Some w
  else
    match mailbox_of w op with
    | None => None
    | Some mb =>
        let '(mb, start) := claim_next_if_idle (mailbox_enqueue mb o) in
        Some $ push (log_enqueued (set_actor w (op_actor op) (Some mb)) o)
          match start with Some start => [DispatchCue start None] | None => [] end
    end.

(** A [dispatch] that fails: the operation ends with the error; [None] is the
    failed [expect]. *)
Definition dispatch_failed (w : World) (o : nat) (op : CueOperation) (after : option nat) (error : PyObj) : option World :=
  '(op, action) ← transition_from_result op (Err error);
  close_cued ← action;
  Some (push (set_op w o op) (resolve_after after ++ [Complete o close_cued])).

(** [dispatch_with_gil] up to the call of [Actor.cued]; [raised] is an error on
    the way. *)
Definition dispatch_cue (w : World) (o : nat) (op : CueOperation) (after : option nat) (raised : option PyObj)
    : option World :=
  match mailbox_of w op with
  | None => dispatch_failed w o op after (runtime_error "Actor is no longer alive")
  | Some _ =>
      match raised with
      | Some error => dispatch_failed w o op after error
      | None =>
          match op_phase op, op_cue op with
          | Op_Queued, Some _ => Some (push w [Launch o after])
          | _, _ => None
          end
      end
  end.

(** The call of [Actor.cued] and the creation of the task. *)
Definition launch (w : World) (o : nat) (op : CueOperation) (after : option nat) (raised : option PyObj) : option World :=
  match raised with
  | Some error => dispatch_failed w o op after error
  | None =>
      match op_phase op with
      | Op_Queued =>
          Some (push (log_launched (set_op w o (with_op op Op_Running (op_intent op) (op_cue op))) o) [Attach o after])
      | _ => None
      end
  end.

(** [attach_done_callback] and [begin_attachment_failure], whose cancellation of
    the task may fail silently. *)
Definition attach (w : World) (o : nat) (op : CueOperation) (after : option nat) (raised : option PyObj) : World :=
  push
    match raised with
    | Some error => set_op w o (begin_attachment_failure op error).1
    | None => w
    end (resolve_after after).

(** [complete_terminal_action] up to the retirement from the mailbox. *)
Definition complete_action (w : World) (o : nat) (op : CueOperation) (close_cued : bool) : World :=
  let w := set_op w o (if close_cued then close_inline op else op) in
  match mailbox_of w op with
  | None => push w [Deregister o None]
  | Some mb =>
      let '(mb, next) := terminal_transition mb o in
      push (set_actor w (op_actor op) (Some mb)) [Deregister o next]
  end.

(** [request_cancel]; a queued operation is retired from its mailbox at once. *)
Definition cancel_cue (w : World) (o : nat) (op : CueOperation) : World :=
  let '(op, action) := request_cancel op in
  match action with
  | None => w
  | Some Request_Queued => complete_action (set_op w o op) o op true
  | Some Request_Running => push (set_op w o op) [CancelTask o]
  end.

(** The rest of [complete_terminal_action], and of the turn of
    [finish_terminal_action]. *)
Definition deregister (w : World) (o : nat) (op : CueOperation) (next : option nat) : World :=
  let w :=
    match scenes w !! op_scene op with
    | Some scene => set_scene w (op_scene op) (operation_finished scene o)
    | None => w
    end in
  push w (dispatch_next next (Some o)).

(** [resolve_terminal_signal] *)
Definition resolve_terminal_signal (w : World) (o : nat) : World :=
  if bool_decide (o ∈ resolved w) then w else log_resolved w o.

(** One item advances; [raised] is what Python raises. *)
Definition advance (w : World) (item : Item) (raised : option PyObj) : option World :=
  match item with
  | Enqueue o => op ← operations w !! o; enqueue_operation w o op
  | DispatchCue o after => op ← operations w !! o; dispatch_cue w o op after raised
  | Launch o after => op ← operations w !! o; launch w o op after raised
  | Attach o after => op ← operations w !! o; Some (attach w o op after raised)
  | CancelTask o =>
      op ← operations w !! o;
      Some match raised with Some error => set_op w o (cancel_raised op error) | None => w end
  | Complete o close_cued => op ← operations w !! o; Some (complete_action w o op close_cued)
  | Deregister o next => op ← operations w !! o; Some (deregister w o op next)
  | Resolve o => Some (resolve_terminal_signal w o)
  | CancelAll [] enqueue => Some (push w match enqueue with Some o => [Enqueue o] | None => [] end)
  | CancelAll (o :: rest) enqueue =>
      op ← operations w !! o; Some (push (cancel_cue w o op) [CancelAll rest enqueue])
  end.

(** ** Actions

    What the tasks of the production, the event loop and the runtime may do at
    any time. *)
Inductive Action :=
| NewActor
| DropActor (a : nat)
| NewScene (name : string)
| BeginAdmission (s : nat)
| PrepareAdmission (k : nat)
| AbandonAdmission (k : nat)
| CommitAdmission (k : nat) (a : nat)
| CloseScene (s : nat)
| WaitClosed (s : nat)
| CancelCue (o : nat)
| TaskDone (o : nat) (result : result PyObj PyObj)
| Advance (k : nat) (raised : option PyObj).

(** The calls on an actor that are in progress keep it alive. *)
Definition item_operations (item : Item) : list nat :=
  match item with
  | Enqueue o | Attach o _ | CancelTask o | Complete o _ | Resolve o => [o]
  | DispatchCue o _ | Launch o _ => [o]
  | Deregister o next => o :: match next with Some n => [n] | None => [] end
  | CancelAll _ enqueue => match enqueue with Some o => [o] | None => [] end
  end.

Definition actor_in_use (w : World) (a : nat) : bool :=
  existsb (fun item => existsb (fun o => match operations w !! o with Some op => (op_actor op =? a)%nat | None => false end)
                         (item_operations item)) (items w).

(** [close], [rollback_admission] and [commit] end with [cancel_operations]. *)
Definition cancel_operations (w : World) (s : nat) (outcome : SceneState * list nat) : World :=
  push (set_scene w s outcome.1) [CancelAll outcome.2 None].

Definition step (w : World) (action : Action) : option World :=
  match action with
  | NewActor =>
      Some (mkWorld (operations w) (actors w ++ [Some Mailbox_default]) (scenes w) (admissions w) (items w)
              (resolved w) (enqueued w) (launched w))
  | DropActor a => Some (if actor_in_use w a then w else set_actor w a None)
  | NewScene name =>
      Some (mkWorld (operations w) (actors w) (scenes w ++ [SceneScope_new name]) (admissions w) (items w)
              (resolved w) (enqueued w) (launched w))
  | BeginAdmission s =>
      match scenes w !! s with
      | Some scene =>
          match begin_admission scene with
          | Some (scene, token) =>
              Some (set_admissions (set_scene w s scene) (admissions w ++ [mkTxn s token None]))
          | None => Some w
          end
      | None => Some w
      end
  | PrepareAdmission k =>
      match admissions w !! k with
      | Some txn =>
          match txn_prepared txn with
          | None =>
              scene ← scenes w !! txn_scene txn;
              prepared ← prepare scene;
              Some (set_admissions w (<[k := mkTxn (txn_scene txn) (txn_token txn) (Some prepared)]> (admissions w)))
          | Some _ => Some w
          end
      | None => Some w
      end
  | AbandonAdmission k =>
      match admissions w !! k with
      | Some txn =>
          scene ← scenes w !! txn_scene txn;
          Some (cancel_operations (set_admissions w (delete k (admissions w))) (txn_scene txn)
                  (rollback_admission scene (txn_token txn)))
      | None => Some w
      end
  | CommitAdmission k a =>
      match admissions w !! k, mjoin (actors w !! a) with
      | Some txn, Some _ =>
          match txn_prepared txn with
          | Some (next, cue) =>
              scene ← scenes w !! txn_scene txn;
              let o := length (operations w) in
              '(scene, cancelled) ← scene_commit scene (txn_token txn) next o;
              Some (push (mkWorld (operations w ++ [new_runtime (txn_scene txn) a cue]) (actors w)
                            (<[txn_scene txn := scene]> (scenes w)) (delete k (admissions w)) (items w)
                            (resolved w) (enqueued w) (launched w))
                      [CancelAll cancelled (Some o)])
          | None => Some w
          end
      | _, _ => Some w
      end
  | CloseScene s =>
      match scenes w !! s with Some scene => Some (cancel_operations w s (scene_close scene)) | None => Some w end
  | WaitClosed s =>
      match scenes w !! s with Some scene => Some (set_scene w s (wait_closed scene).1) | None => Some w end
  | CancelCue o => match operations w !! o with Some op => Some (cancel_cue w o op) | None => Some w end
  | TaskDone o result =>
      match operations w !! o with
      | Some op =>
          match op_phase op with
          | Op_Running | Op_CancellingRunning =>
              '(op, action) ← transition_from_result op result;
              Some match action with
                   | Some close_cued => push (set_op w o op) [Complete o close_cued]
                   | None => set_op w o op
                   end
          | Op_Queued | Op_Terminal _ => Some w
          end
      | None => Some w
      end
  | Advance k raised =>
      match items w !! k with
      | Some item => advance (set_items w (delete k (items w))) item raised
      | None => Some w
      end
  end.

(** A run from a state. *)
Fixpoint run (w : World) (actions : list Action) : option World :=
  match actions with [] => Some w | action :: actions => w ← step w action; run w actions end.

Inductive reachable : World -> Prop :=
| reachable_new : reachable World_new
| reachable_step w action w' : reachable w -> step w action = Some w' -> reachable w'.

End System.
