(* ===== verification/CueSpec.v ===== *)
(** * The invariant of cues, mailboxes and scenes

    Where an operation is, counted: every operation that has not ended is
    registered with its scene and is in exactly one place (on its way to a
    mailbox, queued in it, claimed and being dispatched, or running), and every
    operation that has ended is on its way out of its mailbox, then of its scene,
    then to its signal. *)

From S2P Require Import Prelude Wire CueScope CueIds CueSystem.

(** ** Counting *)

Definition eqz (o o' : nat) : Z := if decide (o = o') then 1 else 0.

Definition count (o : nat) (l : list nat) : Z := sum_with (eqz o) l.

Definition opt_eq (o : nat) (x : option nat) : Z := match x with Some o' => eqz o o' | None => 0 end.

Lemma eqz_same o : eqz o o = 1.
Proof. unfold eqz. by rewrite decide_True. Qed.

Lemma eqz_other o o' : o <> o' -> eqz o o' = 0.
Proof. intros Hn. unfold eqz. by rewrite decide_False. Qed.

Lemma eqz_range o o' : 0 <= eqz o o' <= 1.
Proof. unfold eqz. case_decide; lia. Qed.

Lemma opt_eq_range o x : 0 <= opt_eq o x <= 1.
Proof. destruct x; cbn [opt_eq]; [apply eqz_range|lia]. Qed.

Lemma count_nonneg o l : 0 <= count o l.
Proof. apply sum_with_pos. intros a. apply eqz_range. Qed.

Lemma count_app o l k : count o (l ++ k) = count o l + count o k.
Proof. apply sum_with_app. Qed.

Lemma count_cons o x l : count o (x :: l) = eqz o x + count o l.
Proof. apply sum_with_cons. Qed.

Lemma count_nil o : count o [] = 0.
Proof. done. Qed.

Lemma count_pos o l : 0 < count o l <-> o ∈ l.
Proof.
  induction l as [|x l IH]; [split; [done|by intros ?%elem_of_nil]|]. rewrite count_cons, elem_of_cons, <- IH.
  pose proof (count_nonneg o l). unfold eqz. case_decide; [lia|]. intuition lia.
Qed.

Lemma position_count o l :
  match position (Nat.eqb o) l with
  | Some k => l !! k = Some o
  | None => count o l = 0
  end.
Proof.
  induction l as [|x l IH]; [done|]. cbn [position]. destruct (Nat.eqb_spec o x) as [->|Hn]; [done|].
  destruct (position (Nat.eqb o) l) as [k|]; [done|]. by rewrite count_cons, eqz_other.
Qed.

Create Rewrite HintDb counts.

#[export] Hint Rewrite count_app count_cons count_nil @sum_with_app @sum_with_cons eqz_same : counts.

(** ** Mailboxes *)

Definition in_queue (o : nat) (mb : Mailbox) : Z := count o (queue mb).
Definition is_running (o : nat) (mb : Mailbox) : Z := opt_eq o (running mb).

Definition never_idle (mb : Mailbox) : Prop := running mb = None -> queue mb = [].

Lemma enqueue_claim_spec mb o mb' start :
  never_idle mb -> claim_next_if_idle (mailbox_enqueue mb o) = (mb', start) ->
  never_idle mb' /\ (start = None \/ start = Some o) /\
  forall o', in_queue o' mb' + is_running o' mb' = in_queue o' mb + is_running o' mb + eqz o' o /\
    is_running o' mb' = is_running o' mb + opt_eq o' start.
Proof.
  intros Hn. unfold claim_next_if_idle, mailbox_enqueue. cbn [running queue].
  destruct (running mb) as [r|] eqn:Er.
  - intros [= <- <-]. split; [done|]. split; [by left|]. intros o'. unfold in_queue, is_running. cbn [queue running].
    rewrite Er. cbn [opt_eq]. autorewrite with counts. lia.
  - rewrite (Hn Er). cbn [app]. intros [= <- <-]. split; [done|]. split; [by right|]. intros o'. unfold in_queue, is_running.
    cbn [queue running opt_eq]. rewrite Er, (Hn Er), count_nil. cbn [opt_eq]. lia.
Qed.

Lemma terminal_transition_spec mb o mb' next :
  never_idle mb -> in_queue o mb + is_running o mb <= 1 -> terminal_transition mb o = (mb', next) ->
  never_idle mb' /\ in_queue o mb' = 0 /\ is_running o mb' = 0 /\ opt_eq o next = 0 /\
  forall o', o' <> o -> in_queue o' mb' + is_running o' mb' = in_queue o' mb + is_running o' mb /\
    is_running o' mb' = is_running o' mb + opt_eq o' next.
Proof.
  intros Hn Hle. unfold terminal_transition, remove_queued. pose proof (position_count o (queue mb)) as Hp.
  destruct (position (Nat.eqb o) (queue mb)) as [k|]; cbn [mbind option_bind].
  - intros [= <- <-]. pose proof (fun o' => sum_with_delete (eqz o') _ _ _ Hp) as Hd. unfold in_queue, is_running, count in *.
    cbn [queue running]. rewrite Hd, eqz_same. pose proof (opt_eq_range o (running mb)).
    pose proof (sum_with_ge (eqz o) _ _ _ (fun b => proj1 (eqz_range o b)) Hp) as Hge. rewrite eqz_same in Hge.
    split_and!; [|lia|lia|done|].
    + intros Er. cbn [running queue] in *. by rewrite (Hn Er) in Hp.
    + intros o' Ho. rewrite Hd, (eqz_other o' o) by done. cbn [opt_eq]. lia.
  - unfold complete_running. case_bool_decide as Er.
    + destruct (queue mb) as [|next' rest] eqn:Eq; intros [= <- <-]; unfold in_queue, is_running in *; cbn [queue running opt_eq];
        rewrite Er, Eq in *; cbn [opt_eq] in *; rewrite ?eqz_same, ?count_cons, ?count_nil in *.
      * split_and!; try done. intros o' Ho. rewrite eqz_other by done. lia.
      * pose proof (count_nonneg o rest). pose proof (eqz_range o next'). split_and!; try done; try lia.
        intros o' Ho. rewrite (eqz_other o' o), count_cons by done. lia.
    + intros [= <- <-]. unfold in_queue, is_running in *. rewrite Hp.
      assert (Hr : opt_eq o (running mb) = 0) by (destruct (running mb); cbn [opt_eq]; [by rewrite eqz_other by congruence|done]).
      split_and!; try done. intros o' _. cbn [opt_eq]. lia.
Qed.

Section Invariant.
Context `{PyCues}.

(** ** Where an operation is *)

Definition enq_of (o : nat) (item : Item) : Z :=
  match item with Enqueue o' => eqz o o' | CancelAll _ enqueue => opt_eq o enqueue | _ => 0 end.

Definition disp_of (o : nat) (item : Item) : Z :=
  match item with DispatchCue o' _ | Launch o' _ => eqz o o' | Deregister _ next => opt_eq o next | _ => 0 end.

Definition comp_of (o : nat) (item : Item) : Z := match item with Complete o' _ => eqz o o' | _ => 0 end.

Definition dereg_of (o : nat) (item : Item) : Z := match item with Deregister o' _ => eqz o o' | _ => 0 end.

(** The signal of an operation that was retired is going to be resolved. *)
Definition sig_of (o : nat) (item : Item) : Z :=
  match item with
  | Resolve o' => eqz o o'
  | DispatchCue _ after | Launch _ after | Attach _ after => opt_eq o after
  | _ => 0
  end.

Definition can_of (o : nat) (item : Item) : Z := match item with CancelAll l _ => count o l | _ => 0 end.

Definition attach_of (o : nat) (item : Item) : Z :=
  match item with Attach o' _ | CancelTask o' => eqz o o' | _ => 0 end.

Definition touches (o : nat) (item : Item) : Z :=
  enq_of o item + disp_of o item + comp_of o item + dereg_of o item + sig_of o item + can_of o item + attach_of o item.

Definition pend (f : Item -> Z) (w : World) : Z := sum_with f (items w).

Definition registered (w : World) (o : nat) (op : CueOperation) : Z :=
  match scenes w !! op_scene op with Some scene => count o (scene_operations scene) | None => 0 end.

(** The counts of an operation. *)
Record Place := mkPlace {
  p_reg : Z; p_enq : Z; p_disp : Z; p_comp : Z; p_dereg : Z; p_sig : Z; p_res : Z;
  p_mailbox : option (Z * Z);  (* in the queue, running; of the actor unless it was dropped *)
  p_launched : Z;
}.

Definition place (w : World) (o : nat) (op : CueOperation) : Place :=
  mkPlace (registered w o op) (pend (enq_of o) w) (pend (disp_of o) w) (pend (comp_of o) w) (pend (dereg_of o) w)
    (pend (sig_of o) w) (count o (resolved w))
    (mb ← mailbox_of w op; Some (in_queue o mb, is_running o mb)) (count o (launched w)).

(** [calm]: no operation was cancelled between its claim and its launch. *)
Definition placed (calm : Prop) (op : CueOperation) (p : Place) : Prop :=
  match op_phase op with
  | Op_Queued =>
      p_reg p = 1 /\ p_comp p = 0 /\ p_dereg p = 0 /\ p_sig p = 0 /\ p_res p = 0 /\ p_launched p = 0 /\
      op_cue op <> None /\ op_intent op = None /\
      match p_mailbox p with
      | Some (q, r) => p_enq p + q + r = 1 /\ p_disp p = r
      | None => p_enq p = 0 /\ p_disp p = 0
      end
  | Op_Running | Op_CancellingRunning =>
      p_reg p = 1 /\ p_enq p = 0 /\ p_disp p = 0 /\ p_comp p = 0 /\ p_dereg p = 0 /\ p_sig p = 0 /\ p_res p = 0 /\
      p_launched p = 1 /\ (op_phase op = Op_CancellingRunning -> op_intent op <> None) /\
      match p_mailbox p with Some (q, r) => q = 0 /\ r = 1 | None => True end
  | Op_Terminal _ =>
      p_reg p = p_comp p + p_dereg p /\ p_reg p + p_sig p + p_res p = 1 /\ p_launched p <= 1 /\ p_enq p <= 1 /\
      p_disp p <= 1 /\ (calm -> p_disp p = 0) /\
      match p_mailbox p with Some (q, r) => q = 0 /\ r <= p_comp p | None => True end
  end.

Definition cancelled_or_over (op : CueOperation) : Prop :=
  match op_phase op with Op_CancellingRunning | Op_Terminal _ => True | _ => False end.

Definition scene_ok (w : World) (s : nat) (scene : SceneState) : Prop :=
  (forall o, 0 < count o (scene_operations scene) -> exists op, operations w !! o = Some op /\ op_scene op = s) /\
  match scene_phase scene with
  | Scene_Closing => forall o op, operations w !! o = Some op -> 0 < count o (scene_operations scene) ->
      cancelled_or_over op \/ 0 < pend (can_of o) w
  | Scene_Closed => scene_operations scene = []
  | _ => True
  end.

Definition actor_ok (w : World) (a : nat) (mb : Mailbox) : Prop :=
  never_idle mb /\
  forall o, 0 < in_queue o mb + is_running o mb -> exists op, operations w !! o = Some op /\ op_actor op = a.

(** At most one admission of a scene is open, the one the scene knows. *)
Definition txn_of (s : nat) (txn : AdmissionTxn) : Z := if decide (txn_scene txn = s) then 1 else 0.

Definition admissions_ok (w : World) : Prop :=
  (forall s scene, scenes w !! s = Some scene ->
    match scene_phase scene with
    | Scene_Admitting _ | Scene_ClosePending _ => sum_with (txn_of s) (admissions w) = 1
    | _ => sum_with (txn_of s) (admissions w) = 0
    end) /\
  (forall k txn, admissions w !! k = Some txn -> exists scene, scenes w !! txn_scene txn = Some scene /\
    (scene_phase scene = Scene_Admitting (txn_token txn) \/ scene_phase scene = Scene_ClosePending (txn_token txn)) /\
    match txn_prepared txn with Some prepared => prepare scene = Some prepared | None => True end).

Record cues_ok (calm : Prop) (w : World) : Prop := {
  ok_placed : forall o op, operations w !! o = Some op -> placed calm op (place w o op);
  ok_refs : forall o op, operations w !! o = Some op ->
    (op_scene op < length (scenes w))%nat /\ (op_actor op < length (actors w))%nat;
  ok_fresh : forall o, (length (operations w) <= o)%nat ->
    pend (touches o) w = 0 /\ count o (resolved w) = 0 /\ count o (launched w) = 0 /\ count o (enqueued w) = 0;
  ok_actors : forall a mb, actors w !! a = Some (Some mb) -> actor_ok w a mb;
  ok_scenes : forall s scene, scenes w !! s = Some scene -> scene_ok w s scene;
  ok_admissions : admissions_ok w;
}.

(** ** Ranges *)

Lemma counts_range o item :
  0 <= enq_of o item /\ 0 <= disp_of o item /\ 0 <= comp_of o item /\ 0 <= dereg_of o item /\ 0 <= sig_of o item /\
  0 <= can_of o item /\ 0 <= attach_of o item.
Proof.
  destruct item; cbn [enq_of disp_of comp_of dereg_of sig_of can_of attach_of];
    repeat match goal with
    | |- context [eqz ?a ?b] => pose proof (eqz_range a b); generalize dependent (eqz a b); intros
    | |- context [opt_eq ?a ?b] => pose proof (opt_eq_range a b); generalize dependent (opt_eq a b); intros
    | |- context [count ?a ?b] => pose proof (count_nonneg a b); generalize dependent (count a b); intros
    end; lia.
Qed.

Lemma touches_nonneg o item : 0 <= touches o item.
Proof. unfold touches. pose proof (counts_range o item). lia. Qed.

Lemma pend_nonneg f w : (forall item, 0 <= f item) -> 0 <= pend f w.
Proof. intros Hf. by apply sum_with_pos. Qed.

Lemma place_range w o op :
  0 <= p_reg (place w o op) /\ 0 <= p_enq (place w o op) /\ 0 <= p_disp (place w o op) /\ 0 <= p_comp (place w o op) /\
  0 <= p_dereg (place w o op) /\ 0 <= p_sig (place w o op) /\ 0 <= p_res (place w o op) /\ 0 <= p_launched (place w o op) /\
  match p_mailbox (place w o op) with Some (q, r) => 0 <= q /\ 0 <= r <= 1 | None => True end.
Proof.
  unfold place. cbn [p_reg p_enq p_disp p_comp p_dereg p_sig p_res p_mailbox p_launched]. split_and!; try (apply pend_nonneg; intros item; apply counts_range); try apply count_nonneg.
  - unfold registered. destruct (scenes w !! op_scene op); [apply count_nonneg|done].
  - destruct (mailbox_of w op) as [mb|]; [|done]. split; [apply count_nonneg|apply opt_eq_range].
Qed.

(** Nothing is known about operations that do not exist. *)
Lemma fresh_places w o :
  pend (touches o) w = 0 ->
  pend (enq_of o) w = 0 /\ pend (disp_of o) w = 0 /\ pend (comp_of o) w = 0 /\ pend (dereg_of o) w = 0 /\
  pend (sig_of o) w = 0 /\ pend (can_of o) w = 0.
Proof.
  intros Ht.
  assert (Hz : forall f, (forall item, 0 <= f item <= touches o item) -> pend f w = 0).
  { intros f Hf. assert (0 <= pend f w) by (apply pend_nonneg; intros item; apply Hf).
    assert (pend f w <= pend (touches o) w) by (apply sum_with_mono; intros item; apply Hf). lia. }
  split_and!; apply Hz; intros item; unfold touches; pose proof (counts_range o item); lia.
Qed.

(** The order of the items does not matter. *)
Lemma cues_ok_perm calm w its :
  Permutation (items w) its -> cues_ok calm w -> cues_ok calm (set_items w its).
Proof.
  intros Hp Hok. assert (Hpend : forall f, pend f (set_items w its) = pend f w).
  { intros f. unfold pend. cbn [items set_items]. symmetry. by apply sum_with_perm. }
  split.
  - intros o op Ho. pose proof (ok_placed _ _ Hok o op Ho) as Hpl. unfold place in *. rewrite !Hpend. exact Hpl.
  - exact (ok_refs _ _ Hok).
  - intros o Ho. rewrite Hpend. exact (ok_fresh _ _ Hok o Ho).
  - exact (ok_actors _ _ Hok).
  - intros s scene Hs. destruct (ok_scenes _ _ Hok s scene Hs) as [H1 H2]. split; [exact H1|].
    destruct (scene_phase scene); try done. intros o op. rewrite Hpend. apply H2.
  - exact (ok_admissions _ _ Hok).
Qed.

(** What a step does to the place of an operation is read off its items. *)
Ltac place_simpl :=
  unfold placed, place, pend, push, set_op, set_actor, set_scene, set_items, log_resolved, log_enqueued, log_launched in *;
  cbn [operations actors scenes admissions items resolved enqueued launched
       p_reg p_enq p_disp p_comp p_dereg p_sig p_res p_mailbox p_launched registered mailbox_of] in *;
  rewrite ?sum_with_app, ?sum_with_cons, ?count_app, ?count_cons, ?count_nil in *;
  cbn [enq_of disp_of comp_of dereg_of sig_of can_of attach_of opt_eq] in *.

(** The invariant after a step about one operation, whose scene does not
    change. *)
Lemma cues_ok_op calm w w' o op op' :
  cues_ok calm w ->
  operations w !! o = Some op -> operations w' = <[o := op']> (operations w) ->
  op_scene op' = op_scene op -> op_actor op' = op_actor op -> (cancelled_or_over op -> cancelled_or_over op') ->
  scenes w' = scenes w -> admissions w' = admissions w ->
  (actors w' = actors w \/
   exists mb mb', actors w !! op_actor op = Some (Some mb) /\ actors w' = <[op_actor op := Some mb']> (actors w) /\
     never_idle mb' /\
     forall o', in_queue o' mb' + is_running o' mb' <= in_queue o' mb + is_running o' mb + eqz o' o) ->
  (forall o', (length (operations w) <= o')%nat -> pend (touches o') w = 0 -> pend (touches o') w' = 0) ->
  (forall o', (length (operations w) <= o')%nat ->
    count o' (resolved w') = 0 /\ count o' (launched w') = 0 /\ count o' (enqueued w') = 0) ->
  (forall o', pend (can_of o') w <= pend (can_of o') w' \/ (o' = o /\ cancelled_or_over op')) ->
  placed calm op' (place w' o op') ->
  (forall o' op'', o' <> o -> operations w !! o' = Some op'' -> placed calm op'' (place w' o' op'')) ->
  cues_ok calm w'.
Proof.
  intros Hok Ho Hops Hsc Hac Hover Hscenes Hadm Hactors Hfresh Hlogs Hcan Hplo Hplother.
  pose proof (lookup_lt_Some _ _ _ Ho) as Hlt.
  assert (Hlook : forall o' op'', operations w !! o' = Some op'' ->
    exists op3, operations w' !! o' = Some op3 /\ op_scene op3 = op_scene op'' /\ op_actor op3 = op_actor op'' /\
      (cancelled_or_over op'' -> cancelled_or_over op3) /\ (o' = o -> op3 = op')).
  { intros o' op'' Ho'. rewrite Hops. destruct (decide (o' = o)) as [->|Hne].
    - rewrite list_lookup_insert_eq by done. rewrite Ho in Ho'. injection Ho' as <-. by exists op'.
    - rewrite list_lookup_insert_ne by done. by exists op''. }
  split.
  - intros o' op'' Ho'. rewrite Hops in Ho'. destruct (decide (o' = o)) as [->|Hne].
    + rewrite list_lookup_insert_eq in Ho' by done. by injection Ho' as <-.
    + rewrite list_lookup_insert_ne in Ho' by done. by apply Hplother.
  - intros o' op'' Ho'. rewrite Hscenes.
    assert (Hla : length (actors w') = length (actors w)).
    { destruct Hactors as [->|(mb & mb' & _ & -> & _)]; [done|by rewrite length_insert]. }
    rewrite Hla, Hops in *. destruct (decide (o' = o)) as [->|Hne].
    + rewrite list_lookup_insert_eq in Ho' by done. injection Ho' as <-. rewrite Hsc, Hac. by apply (ok_refs _ _ Hok o).
    + rewrite list_lookup_insert_ne in Ho' by done. by apply (ok_refs _ _ Hok o').
  - intros o' Ho'. rewrite Hops, length_insert in Ho'. destruct (ok_fresh _ _ Hok o' Ho') as (Ht & _). split; [|auto]. by apply Hfresh.
  - intros a mb Ha.
    assert (Hmem : forall mb0, (forall o', 0 < in_queue o' mb0 + is_running o' mb0 ->
        exists op'', operations w !! o' = Some op'' /\ op_actor op'' = a) ->
      forall o', 0 < in_queue o' mb0 + is_running o' mb0 -> exists op'', operations w' !! o' = Some op'' /\ op_actor op'' = a).
    { intros mb0 Hm o' Hp. destruct (Hm o' Hp) as (op'' & Ho' & <-). destruct (Hlook o' op'' Ho') as (op3 & H3 & _ & H4 & _).
      by exists op3. }
    destruct Hactors as [Ea|(mb0 & mb' & Hmb0 & Ea & Hni & Hle)]; rewrite Ea in Ha.
    + destruct (ok_actors _ _ Hok a mb Ha) as [Hn Hm]. split; [done|]. by apply Hmem.
    + destruct (decide (a = op_actor op)) as [->|Hne].
      * rewrite list_lookup_insert_eq in Ha by by eapply lookup_lt_Some. injection Ha as <-. split; [done|].
        destruct (ok_actors _ _ Hok _ mb0 Hmb0) as [_ Hm]. apply Hmem. intros o' Hp.
        destruct (decide (o' = o)) as [->|Ho']; [by exists op|]. apply Hm. specialize (Hle o').
        rewrite (eqz_other o' o) in Hle by done. lia.
      * rewrite list_lookup_insert_ne in Ha by done. destruct (ok_actors _ _ Hok a mb Ha) as [Hn Hm]. split; [done|]. by apply Hmem.
  - intros s scene Hs. rewrite Hscenes in Hs. destruct (ok_scenes _ _ Hok s scene Hs) as [Hm Hc]. split.
    + intros o' Hp. destruct (Hm o' Hp) as (op'' & Ho' & <-). destruct (Hlook o' op'' Ho') as (op3 & H3 & H4 & _). by exists op3.
    + destruct (scene_phase scene); try done. intros o' op'' Ho' Hp.
      destruct (Hm o' Hp) as (op0 & Ho0 & _). destruct (Hlook o' op0 Ho0) as (op3 & H3 & _ & _ & Hov & Heq).
      rewrite H3 in Ho'. injection Ho' as ->. destruct (Hc o' op0 Ho0 Hp) as [Hx|Hx]; [auto|].
      destruct (Hcan o') as [Hle|[-> Hx']]; [right; lia|left]. by rewrite Heq.
  - unfold admissions_ok. rewrite Hscenes, Hadm. exact (ok_admissions _ _ Hok).
Qed.

(** ** Steps that keep the mailboxes *)

Lemma pend_cons f item its w : pend f (set_items w (item :: its)) = f item + sum_with f its.
Proof. apply sum_with_cons. Qed.

Lemma pend_push f w its : pend f (push w its) = pend f w + sum_with f its.
Proof. apply sum_with_app. Qed.

Lemma touches_split o item its w :
  pend (touches o) (set_items w (item :: its)) = 0 -> touches o item = 0 /\ sum_with (touches o) its = 0.
Proof.
  rewrite pend_cons. pose proof (touches_nonneg o item). pose proof (sum_with_pos (touches o) its (touches_nonneg o)). lia.
Qed.

(** Other operations see the same counts. *)
Definition same_for (o : nat) (item : Item) (its : list Item) : Prop :=
  sum_with (enq_of o) its = enq_of o item /\ sum_with (disp_of o) its = disp_of o item /\
  sum_with (comp_of o) its = comp_of o item /\ sum_with (dereg_of o) its = dereg_of o item /\
  sum_with (sig_of o) its = sig_of o item.

Lemma cues_ok_set calm w item o op op' its :
  cues_ok calm (set_items w (item :: items w)) ->
  operations w !! o = Some op -> op_scene op' = op_scene op -> op_actor op' = op_actor op ->
  (cancelled_or_over op -> cancelled_or_over op') ->
  (forall o', o' <> o -> touches o' item = 0 -> sum_with (touches o') its = 0) ->
  (forall o', can_of o' item <= sum_with (can_of o') its \/ (o' = o /\ cancelled_or_over op')) ->
  (forall o', o' <> o -> same_for o' item its) ->
  placed calm op' (place (push (set_op w o op') its) o op') ->
  cues_ok calm (push (set_op w o op') its).
Proof.
  intros Hok Ho Hsc Hac Hov Htouch Hcan Hsame Hpl.
  apply (cues_ok_op calm (set_items w (item :: items w)) _ o op op'); try done.
  - by left.
  - intros o' Hle [Ht Hw]%touches_split. rewrite pend_push. assert (Hne : o' <> o) by (apply lookup_lt_Some in Ho; cbn in Hle; lia).
    specialize (Htouch o' Hne Ht). unfold pend. cbn [items set_op]. lia.
  - intros o' Hle. by apply (ok_fresh _ _ Hok).
  - intros o'. destruct (Hcan o') as [Hle|Hx]; [left|by right]. rewrite pend_push, pend_cons. unfold pend. cbn [items set_op]. lia.
  - intros o' op'' Hne Ho'. pose proof (ok_placed _ _ Hok o' op'' Ho') as Hpo. destruct (Hsame o' Hne) as (E1 & E2 & E3 & E4 & E5).
    assert (Hp : place (push (set_op w o op') its) o' op'' = place (set_items w (item :: items w)) o' op'').
    { unfold place. rewrite !pend_push, !pend_cons, E1, E2, E3, E4, E5. unfold pend. cbn [items set_op].
      f_equal; lia. }
    by rewrite Hp.
Qed.

(** The place of the operation itself. *)
Lemma place_set w item o op op' its :
  op_scene op' = op_scene op -> op_actor op' = op_actor op ->
  let p := place (set_items w (item :: items w)) o op in
  place (push (set_op w o op') its) o op' =
  mkPlace (p_reg p) (p_enq p + (sum_with (enq_of o) its - enq_of o item))
    (p_disp p + (sum_with (disp_of o) its - disp_of o item)) (p_comp p + (sum_with (comp_of o) its - comp_of o item))
    (p_dereg p + (sum_with (dereg_of o) its - dereg_of o item)) (p_sig p + (sum_with (sig_of o) its - sig_of o item))
    (p_res p) (p_mailbox p) (p_launched p).
Proof.
  intros Hsc Hac. unfold place, registered, mailbox_of. rewrite Hsc, Hac, !pend_push, !pend_cons. unfold pend.
  cbn [items set_op scenes actors set_items push p_reg p_enq p_disp p_comp p_dereg p_sig p_res p_mailbox p_launched
       resolved launched]. f_equal; lia.
Qed.

(** A step that changes no operation. *)
Lemma cues_ok_items calm w item o op its :
  cues_ok calm (set_items w (item :: items w)) -> operations w !! o = Some op ->
  (forall o', o' <> o -> touches o' item = 0 -> sum_with (touches o') its = 0) ->
  (forall o', can_of o' item <= sum_with (can_of o') its) ->
  (forall o', same_for o' item its) ->
  cues_ok calm (push w its).
Proof.
  intros Hok Ho Htouch Hcan Hsame.
  assert (Hid : set_op w o op = w) by (unfold set_op; rewrite list_insert_id by done; by destruct w).
  rewrite <- Hid. apply (cues_ok_set calm w item o op op its); try done.
  - intros o'. by left.
  - rewrite Hid. pose proof (ok_placed _ _ Hok o op Ho) as Hpo. destruct (Hsame o) as (E1 & E2 & E3 & E4 & E5).
    assert (Hp : place (push w its) o op = place (set_items w (item :: items w)) o op).
    { unfold place. rewrite !pend_push, !pend_cons, E1, E2, E3, E4, E5. unfold pend. f_equal; lia. }
    by rewrite Hp.
Qed.

Ltac ranges :=
  repeat match goal with
  | H : context [eqz ?a ?b] |- _ => pose proof (eqz_range a b); generalize dependent (eqz a b); intros
  | H : context [opt_eq ?a ?b] |- _ => pose proof (opt_eq_range a b); generalize dependent (opt_eq a b); intros
  | H : context [count ?a ?b] |- _ => pose proof (count_nonneg a b); generalize dependent (count a b); intros
  | |- context [eqz ?a ?b] => pose proof (eqz_range a b); generalize dependent (eqz a b); intros
  | |- context [opt_eq ?a ?b] => pose proof (opt_eq_range a b); generalize dependent (opt_eq a b); intros
  | |- context [count ?a ?b] => pose proof (count_nonneg a b); generalize dependent (count a b); intros
  end.

Ltac item_counts :=
  unfold same_for, touches in *; unfold resolve_after, dispatch_next in *; cbn [app] in *;
  rewrite ?sum_with_app, ?sum_with_cons in *;
  cbn [sum_with foldr enq_of disp_of comp_of dereg_of sig_of can_of attach_of opt_eq] in *.

Lemma place_same w item o op op' its :
  op_scene op' = op_scene op -> op_actor op' = op_actor op -> same_for o item its ->
  place (push (set_op w o op') its) o op' = place (set_items w (item :: items w)) o op.
Proof.
  intros Hsc Hac (E1 & E2 & E3 & E4 & E5). rewrite (place_set w item o op op' its Hsc Hac), E1, E2, E3, E4, E5.
  rewrite !Z.sub_diag, !Z.add_0_r. by destruct (place _ _ _).
Qed.

Lemma cues_ok_same calm w item o op op' its :
  cues_ok calm (set_items w (item :: items w)) ->
  operations w !! o = Some op -> op_scene op' = op_scene op -> op_actor op' = op_actor op ->
  (cancelled_or_over op -> cancelled_or_over op') ->
  (forall o', o' <> o -> touches o' item = 0 -> sum_with (touches o') its = 0) ->
  (forall o', can_of o' item <= sum_with (can_of o') its \/ (o' = o /\ cancelled_or_over op')) ->
  (forall o', same_for o' item its) ->
  (forall p, placed calm op p -> placed calm op' p) ->
  cues_ok calm (push (set_op w o op') its).
Proof.
  intros Hok Ho Hsc Hac Hov Ht Hc Hsame Hpl. apply (cues_ok_set calm w item o op op' its); try done.
  rewrite (place_same w item o op op' its Hsc Hac (Hsame o)). apply Hpl, (ok_placed _ _ Hok o op Ho).
Qed.

Lemma set_op_same w o op : operations w !! o = Some op -> set_op w o op = w.
Proof. intros Ho. unfold set_op. rewrite list_insert_id by done. by destruct w. Qed.

Lemma push_nil w : push w [] = w.
Proof. unfold push, set_items. rewrite app_nil_r. by destruct w. Qed.

Lemma attach_ok calm w o op after raised :
  cues_ok calm (set_items w (Attach o after :: items w)) -> operations w !! o = Some op ->
  cues_ok calm (attach w o op after raised).
Proof.
  intros Hok Ho. set (op' := match raised with Some error => (begin_attachment_failure op error).1 | None => op end).
  assert (E : attach w o op after raised = push (set_op w o op') (resolve_after after)).
  { unfold attach, op'. destruct raised; [done|]. by rewrite set_op_same. }
  rewrite E. clear E.
  assert (Hop : op' = op \/ (op_phase op = Op_Running /\
    exists error, op' = with_op op Op_CancellingRunning (Some (Intent_AttachmentFailure error)) (op_cue op))).
  { unfold op', begin_attachment_failure. destruct raised as [error|]; [|by left].
    destruct (op_phase op); try (by left). right. split; [done|]. by exists error. }
  clearbody op'. apply (cues_ok_same calm w (Attach o after) o op op'); try done.
  - by destruct Hop as [->|(_ & error & ->)].
  - by destruct Hop as [->|(_ & error & ->)].
  - by destruct Hop as [->|(_ & error & ->)].
  - intros o' _. destruct after; item_counts; ranges; lia.
  - intros o'. left. destruct after; item_counts; lia.
  - intros o'. destruct after; item_counts; lia.
  - intros p Hp. destruct Hop as [->|(Ep & error & ->)]; [done|]. unfold placed in *. rewrite Ep in Hp. cbn.
    intuition done.
Qed.

Lemma cancel_task_ok calm w o op raised :
  cues_ok calm (set_items w (CancelTask o :: items w)) -> operations w !! o = Some op ->
  cues_ok calm match raised with Some error => set_op w o (cancel_raised op error) | None => w end.
Proof.
  intros Hok Ho. set (op' := match raised with Some error => cancel_raised op error | None => op end).
  assert (E : match raised with Some error => set_op w o (cancel_raised op error) | None => w end = push (set_op w o op') []).
  { rewrite push_nil. unfold op'. destruct raised; [done|]. by rewrite set_op_same. }
  rewrite E. clear E.
  assert (Hop : op' = op \/ (exists error, op' = with_op op (op_phase op) (Some (Intent_Requested (Some error))) (op_cue op)) /\
    op_intent op <> None).
  { unfold op', cancel_raised. destruct raised as [error|]; [|by left].
    destruct (op_intent op) as [[[]|]|]; try (by left). right. split; [by exists error|done]. }
  clearbody op'. apply (cues_ok_same calm w (CancelTask o) o op op'); try done.
  - by destruct Hop as [->|((error & ->) & _)].
  - by destruct Hop as [->|((error & ->) & _)].
  - destruct Hop as [->|((error & ->) & _)]; [done|]. unfold cancelled_or_over. cbn. done.
  - intros o'. left. by item_counts.
  - intros p Hp. destruct Hop as [->|((error & ->) & Hi)]; [done|]. unfold placed in *. cbn [op_phase with_op op_intent op_cue].
    destruct (op_phase op); intuition congruence.
Qed.

(** A step without an item. *)
Lemma cues_ok_idle calm w : cues_ok calm w -> cues_ok calm (set_items w (CancelAll [] None :: items w)).
Proof.
  intros Hok. assert (Hz : forall f, f (CancelAll [] None) = 0 -> pend f (set_items w (CancelAll [] None :: items w)) = pend f w).
  { intros f Hf. rewrite pend_cons, Hf. unfold pend. lia. }
  split.
  - intros o op Ho. pose proof (ok_placed _ _ Hok o op Ho) as Hpl. unfold place in *. by rewrite !Hz.
  - exact (ok_refs _ _ Hok).
  - intros o Ho. rewrite Hz by done. by apply (ok_fresh _ _ Hok).
  - exact (ok_actors _ _ Hok).
  - intros s scene Hs. destruct (ok_scenes _ _ Hok s scene Hs) as [H1 H2]. split; [exact H1|].
    by destruct (scene_phase scene).
  - exact (ok_admissions _ _ Hok).
Qed.

(** A transition to a terminal phase, whose completion is pending. *)
Lemma terminal_ok calm w item o op outcome its :
  cues_ok calm (set_items w (item :: items w)) -> operations w !! o = Some op -> is_terminal op = false ->
  (forall o', o' <> o -> touches o' item = 0 -> sum_with (touches o') its = 0) ->
  (forall o', o' <> o -> can_of o' item <= sum_with (can_of o') its /\ same_for o' item its) ->
  sum_with (enq_of o) its = enq_of o item -> sum_with (comp_of o) its = comp_of o item + 1 ->
  sum_with (dereg_of o) its = dereg_of o item -> sum_with (sig_of o) its = sig_of o item ->
  sum_with (disp_of o) its <= disp_of o item ->
  (op_phase op = Op_Queued -> p_disp (place (set_items w (item :: items w)) o op) = 1) ->
  (calm -> p_disp (place (set_items w (item :: items w)) o op) + (sum_with (disp_of o) its - disp_of o item) = 0) ->
  cues_ok calm (push (set_op w o (with_op op (Op_Terminal outcome) None None)) its).
Proof.
  intros Hok Ho Hnt Ht Hs E1 E2 E3 E4 Hd Hq Hcalm.
  apply (cues_ok_set calm w item o op _ its); try done.
  - intros o'. destruct (decide (o' = o)) as [->|Hne]; [right; by split|left]. by apply Hs.
  - intros o' Hne. by apply Hs.
  - rewrite (place_set w item o op _ its) by done. pose proof (ok_placed _ _ Hok o op Ho) as Hpl.
    pose proof (place_range (set_items w (item :: items w)) o op) as Hr.
    set (p := place _ o op) in *. rewrite E1, E2, E3, E4. set (d := sum_with (disp_of o) its - _) in *. assert (d <= 0) by lia.
    clearbody p d. destruct p as [reg enq disp comp dereg sig res mb lau].
    unfold placed, is_terminal in *. cbn in *.
    destruct (op_phase op); [specialize (Hq eq_refl)| | |done]; destruct mb as [[q r]|]; cbn in *; destruct_and?;
      split_and!; intros; repeat match goal with Hx : ?P, Hy : ?P -> _ |- _ => specialize (Hy Hx) end; lia.
Qed.

Lemma transition_spec op r :
  match transition_from_result op r with
  | Some (op', Some close_cued) => is_terminal op = false /\
      exists outcome, op' = with_op op (Op_Terminal outcome) None None
  | Some (op', None) => op' = op /\ is_terminal op = true
  | None => op_phase op = Op_CancellingRunning /\ op_intent op = None
  end.
Proof.
  unfold transition_from_result, completion_snapshot, is_terminal, completion_outcome.
  destruct (op_phase op) as [| | |outcome] eqn:Ep; cbn [mbind option_bind].
  - destruct (observe_result r) as [v|e c]; [destruct (validate_cued_result v)|destruct c]; cbn; (split; [done|by eexists]).
  - destruct (observe_result r) as [v|e c]; [destruct (validate_cued_result v)|destruct c]; cbn; (split; [done|by eexists]).
  - destruct (op_intent op) as [[d|e]|] eqn:Ei; cbn [mbind option_bind]; [| |done].
    + destruct (observe_result r) as [v|e [|]], d; cbn; (split; [done|by eexists]).
    + destruct (observe_result r) as [v|e' c]; cbn; (split; [done|by eexists]).
  - done.
Qed.

(** An operation that is being dispatched was claimed by its mailbox, or has
    ended since. *)
Lemma claimed_queued calm w item o op :
  cues_ok calm (set_items w (item :: items w)) -> operations w !! o = Some op -> 1 <= disp_of o item ->
  p_disp (place (set_items w (item :: items w)) o op) = 1 /\
  (op_phase op = Op_Queued /\ (exists mb, mailbox_of w op = Some mb) \/ is_terminal op = true /\ (calm -> False)).
Proof.
  intros Hok Ho Hd. pose proof (ok_placed _ _ Hok o op Ho) as Hpl.
  pose proof (place_range (set_items w (item :: items w)) o op) as Hr.
  assert (Hge : 1 <= p_disp (place (set_items w (item :: items w)) o op)).
  { cbn [p_disp place]. rewrite pend_cons. assert (0 <= sum_with (disp_of o) (items w)); [|lia].
    apply sum_with_pos. intros it. apply (counts_range o it). }
  assert (Hmb : p_mailbox (place (set_items w (item :: items w)) o op) = (mb ← mailbox_of w op; Some (in_queue o mb, is_running o mb))) by done.
  set (p := place _ _ _) in *. clearbody p. unfold placed, is_terminal in *.
  destruct (op_phase op); destruct (mailbox_of w op) as [mb|]; cbn in Hmb; rewrite Hmb in *; destruct_and?; try lia.
  - split; [lia|]. left. split; [done|by exists mb].
  - split; [lia|]. right. split; [done|]. intros Hc. repeat match goal with Hx : ?P, Hy : ?P -> _ |- _ => specialize (Hy Hx) end. lia.
  - split; [lia|]. right. split; [done|]. intros Hc. repeat match goal with Hx : ?P, Hy : ?P -> _ |- _ => specialize (Hy Hx) end. lia.
Qed.

Definition dispatching (item : Item) (o : nat) (after : option nat) : Prop := item = DispatchCue o after \/ item = Launch o after.

Lemma dispatch_failed_ok calm w item o op after error :
  dispatching item o after -> cues_ok calm (set_items w (item :: items w)) -> operations w !! o = Some op ->
  match dispatch_failed w o op after error with
  | Some w' => cues_ok calm w'
  | None => is_terminal op = true /\ (calm -> False)
  end.
Proof.
  intros Hitem Hok Ho. assert (Hd : disp_of o item = 1) by (destruct Hitem as [->| ->]; apply eqz_same).
  destruct (claimed_queued calm w item o op Hok Ho) as [Hdisp Hph]; [lia|].
  unfold dispatch_failed. pose proof (transition_spec op (Err error)) as Ht.
  destruct (transition_from_result op (Err error)) as [[op' [close_cued|]]|]; cbn [mbind option_bind].
  - destruct Ht as (Hnt & outcome & ->). apply (terminal_ok calm w item); try done.
    + intros o' _. destruct Hitem as [->| ->], after; item_counts; ranges; lia.
    + intros o' Hne. destruct Hitem as [->| ->], after; item_counts; rewrite ?(eqz_other o' o) by done; lia.
    + destruct Hitem as [->| ->], after; item_counts; lia.
    + destruct Hitem as [->| ->], after; item_counts; rewrite eqz_same; lia.
    + destruct Hitem as [->| ->], after; item_counts; lia.
    + destruct Hitem as [->| ->], after; item_counts; lia.
    + rewrite Hd. destruct after; item_counts; lia.
    + intros _. rewrite Hdisp, Hd. destruct after; item_counts; lia.
  - destruct Ht as [-> Hterm]. split; [done|]. destruct Hph as [[Ep _]|[_ Hc]]; [|done].
    unfold is_terminal in Hterm. by rewrite Ep in Hterm.
  - destruct Ht as [Ep _]. destruct Hph as [[Ep' _]|[Hterm _]]; [congruence|].
    unfold is_terminal in Hterm. by rewrite Ep in Hterm.
Qed.

Lemma dispatch_cue_ok calm w o op after raised :
  cues_ok calm (set_items w (DispatchCue o after :: items w)) -> operations w !! o = Some op ->
  match dispatch_cue w o op after raised with
  | Some w' => cues_ok calm w'
  | None => is_terminal op = true /\ (calm -> False)
  end.
Proof.
  intros Hok Ho. unfold dispatch_cue.
  destruct (mailbox_of w op); [|apply (dispatch_failed_ok calm w (DispatchCue o after)); [by left|done..]].
  destruct raised; [apply (dispatch_failed_ok calm w (DispatchCue o after)); [by left|done..]|].
  destruct (claimed_queued calm w _ o op Hok Ho) as [_ Hph]; [cbn; rewrite eqz_same; lia|].
  destruct Hph as [[Ep _]|[Hterm Hc]].
  - rewrite Ep. pose proof (ok_placed _ _ Hok o op Ho) as Hpl. unfold placed in Hpl. rewrite Ep in Hpl.
    destruct (op_cue op) eqn:Ec; [|tauto]. apply (cues_ok_items calm w (DispatchCue o after) o op); try done.
    + intros o' _. destruct after; item_counts; ranges; lia.
    + intros o'. destruct after; item_counts; lia.
  - unfold is_terminal in *. destruct (op_phase op); try done; by destruct (op_cue op).
Qed.

Lemma launch_ok calm w o op after raised :
  cues_ok calm (set_items w (Launch o after :: items w)) -> operations w !! o = Some op ->
  match launch w o op after raised with
  | Some w' => cues_ok calm w'
  | None => is_terminal op = true /\ (calm -> False)
  end.
Proof.
  intros Hok Ho. unfold launch.
  destruct raised; [apply (dispatch_failed_ok calm w (Launch o after)); [by right|done..]|].
  destruct (claimed_queued calm w _ o op Hok Ho) as [Hdisp Hph]; [cbn; rewrite eqz_same; lia|].
  destruct Hph as [[Ep (mb & Hmb)]|[Hterm Hc]]; [|unfold is_terminal in *; by destruct (op_phase op)].
  rewrite Ep. set (op' := with_op op Op_Running (op_intent op) (op_cue op)).
  pose proof (ok_placed _ _ Hok o op Ho) as Hpl. pose proof (place_set w (Launch o after) o op op' [Attach o after] eq_refl eq_refl) as Hp.
  apply (cues_ok_op calm (set_items w (Launch o after :: items w)) _ o op op'); try done.
  - intros Hx. unfold cancelled_or_over in Hx. by rewrite Ep in Hx.
  - by left.
  - intros o' _ [Ht Hw]%touches_split. rewrite pend_push. unfold pend. cbn [items log_launched set_op].
    destruct after; item_counts; ranges; lia.
  - intros o' Hle. cbn [launched push set_items log_launched set_op resolved enqueued]. rewrite count_app, count_cons, count_nil.
    destruct (ok_fresh _ _ Hok o' Hle) as (_ & H1 & H2 & H3). cbn [launched set_items resolved enqueued] in *.
    rewrite (eqz_other o' o); [lia|]. apply lookup_lt_Some in Ho. cbn in Hle. lia.
  - intros o'. left. rewrite pend_push, pend_cons. unfold pend. cbn [items log_launched set_op]. item_counts. lia.
  - assert (E : place (push (log_launched (set_op w o op') o) [Attach o after]) o op' =
      let p := place (push (set_op w o op') [Attach o after]) o op' in
      mkPlace (p_reg p) (p_enq p) (p_disp p) (p_comp p) (p_dereg p) (p_sig p) (p_res p) (p_mailbox p) (p_launched p + 1)).
    { unfold place. cbn [launched push set_items log_launched set_op]. by rewrite count_app, count_cons, count_nil, eqz_same. }
    rewrite E, Hp. clear E Hp. assert (Hmb' : p_mailbox (place (set_items w (Launch o after :: items w)) o op) = Some (in_queue o mb, is_running o mb)).
    { unfold place. cbn [p_mailbox]. unfold mailbox_of in *. cbn [actors set_items]. by rewrite Hmb. }
    pose proof (place_range (set_items w (Launch o after :: items w)) o op) as Hr.
    set (p := place _ o op) in *. clearbody p. destruct p as [reg enq disp comp dereg sig res mb' lau].
    unfold placed in *. rewrite Ep in Hpl. cbn in Hmb', Hdisp. subst mb'. item_counts. rewrite eqz_same.
    cbn [op_phase op_intent op' with_op p_reg p_enq p_disp p_comp p_dereg p_sig p_res p_mailbox p_launched] in *.
    destruct after; destruct_and?; split_and!; try lia; done.
  - intros o' op'' Hne Ho'. pose proof (ok_placed _ _ Hok o' op'' Ho') as Hpo.
    assert (E : place (push (log_launched (set_op w o op') o) [Attach o after]) o' op'' = place (set_items w (Launch o after :: items w)) o' op'').
    { unfold place. rewrite !pend_push, !pend_cons. unfold pend. cbn [items log_launched set_op launched push set_items resolved].
      rewrite count_app, count_cons, count_nil. item_counts. rewrite (eqz_other o' o) by done. f_equal; lia. }
    by rewrite E.
Qed.

Lemma push_push w its its' : push (push w its) its' = push w (its ++ its').
Proof. unfold push, set_items. cbn. by rewrite app_assoc. Qed.

(** A task that ends. *)
Lemma task_done_ok calm w o op r :
  cues_ok calm w -> operations w !! o = Some op -> op_phase op = Op_Running \/ op_phase op = Op_CancellingRunning ->
  exists op' close_cued, transition_from_result op r = Some (op', Some close_cued) /\
    cues_ok calm (push (set_op w o op') [Complete o close_cued]).
Proof.
  intros Hok Ho Hph. pose proof (ok_placed _ _ Hok o op Ho) as Hpl. pose proof (transition_spec op r) as Ht.
  assert (Hd : p_disp (place w o op) = 0 /\ is_terminal op = false /\ (op_phase op = Op_CancellingRunning -> op_intent op <> None)).
  { unfold placed, is_terminal in *. destruct Hph as [Ep|Ep]; rewrite Ep in *; destruct_and?; split_and!; done. }
  destruct Hd as (Hd & Hnt & Hi).
  destruct (transition_from_result op r) as [[op' [close_cued|]]|].
  - destruct Ht as (_ & outcome & ->). exists (with_op op (Op_Terminal outcome) None None), close_cued. split; [done|].
    apply cues_ok_idle in Hok. apply (terminal_ok calm w (CancelAll [] None)); try done.
    + intros o' Hne. item_counts. rewrite (eqz_other o' o) by done. lia.
    + intros o' Hne. item_counts. rewrite (eqz_other o' o), count_nil by done. lia.
    + item_counts. rewrite eqz_same. lia.
    + intros Ep. destruct Hph; congruence.
    + intros _. cbn [p_disp place] in *. rewrite pend_cons. unfold pend in Hd. item_counts. lia.
  - destruct Ht as [_ Ht]. congruence.
  - destruct Ht as [Ep Ei]. by apply Hi in Ep.
Qed.

(** ** Steps of the mailboxes *)

Lemma mailbox_some w op mb : mailbox_of w op = Some mb <-> actors w !! op_actor op = Some (Some mb).
Proof.
  unfold mailbox_of. destruct (actors w !! op_actor op) as [[m|]|]; cbn; split; congruence.
Qed.

(** The mailbox of an operation after one of an actor changed. *)
Lemma mailbox_of_set w a mb' op its logs :
  (a < length (actors w))%nat ->
  actors logs = <[a := Some mb']> (actors w) ->
  mailbox_of (push logs its) op = if decide (op_actor op = a) then Some mb' else mailbox_of w op.
Proof.
  intros Hlt E. unfold mailbox_of, push, set_items. cbn [actors]. rewrite E. case_decide as Ha.
  - subst a. by rewrite list_lookup_insert_eq.
  - by rewrite list_lookup_insert_ne.
Qed.

(** The place of an operation after the mailbox of an actor and the items
    changed. *)
Lemma place_mailbox w item o' op'' a mb mb' its w1 :
  actors w !! a = Some (Some mb) ->
  actors w1 = <[a := Some mb']> (actors w) -> scenes w1 = scenes w -> items w1 = items w ->
  resolved w1 = resolved w -> launched w1 = launched w ->
  let p := place (set_items w (item :: items w)) o' op'' in
  place (push w1 its) o' op'' =
  mkPlace (p_reg p) (p_enq p + (sum_with (enq_of o') its - enq_of o' item))
    (p_disp p + (sum_with (disp_of o') its - disp_of o' item)) (p_comp p + (sum_with (comp_of o') its - comp_of o' item))
    (p_dereg p + (sum_with (dereg_of o') its - dereg_of o' item)) (p_sig p + (sum_with (sig_of o') its - sig_of o' item))
    (p_res p) (if decide (op_actor op'' = a) then Some (in_queue o' mb', is_running o' mb') else p_mailbox p) (p_launched p).
Proof.
  intros Ha Ea Es Ei Er El. unfold place.
  rewrite (mailbox_of_set w a mb' op'' its w1) by (done || by eapply lookup_lt_Some).
  rewrite !pend_push, !pend_cons. unfold pend, registered, push.
  cbn [items set_items scenes launched resolved p_reg p_enq p_disp p_comp p_dereg p_sig p_res p_mailbox p_launched].
  rewrite Es, Ei, Er, El.
  f_equal; try lia. by case_decide.
Qed.

Lemma enqueue_ok calm w o op :
  cues_ok calm (set_items w (Enqueue o :: items w)) -> operations w !! o = Some op ->
  exists w', enqueue_operation w o op = Some w' /\ cues_ok calm w'.
Proof.
  intros Hok Ho. unfold enqueue_operation. pose proof (ok_placed _ _ Hok o op Ho) as Hpl.
  pose proof (place_range (set_items w (Enqueue o :: items w)) o op) as Hr. destruct (is_terminal op) eqn:Hterm.
  - exists w. split; [done|]. rewrite <- (push_nil w). rewrite <- (set_op_same w o op Ho) at 1.
    apply (cues_ok_set calm w (Enqueue o) o op op []); try done.
    + intros o'. left. by item_counts.
    + intros o' Hne. item_counts. rewrite (eqz_other o' o) by done. lia.
    + rewrite (place_set w (Enqueue o) o op op []) by done. set (p := place _ o op) in *. clearbody p.
      destruct p as [reg enq disp comp dereg sig res mb' lau]. unfold placed, is_terminal in *. item_counts. rewrite eqz_same in *.
      cbn in Hpl, Hr |- *. destruct (op_phase op); try done. destruct_and?. split_and!; try lia; [|].
      * intros Hc. repeat match goal with Hx : ?P, Hy : ?P -> _ |- _ => specialize (Hy Hx) end. lia.
      * destruct mb' as [[q r]|]; [lia|done].
  - assert (Hge : 1 <= p_enq (place (set_items w (Enqueue o :: items w)) o op)).
    { cbn [p_enq place]. rewrite pend_cons. cbn [enq_of]. rewrite eqz_same.
      assert (0 <= sum_with (enq_of o) (items w)); [|lia]. apply sum_with_pos. intros it. apply (counts_range o it). }
    destruct (mailbox_of w op) as [mb|] eqn:Hmb.
    2: { exfalso. assert (Hp : p_mailbox (place (set_items w (Enqueue o :: items w)) o op) = None).
         { cbn [p_mailbox place]. unfold mailbox_of in *. cbn [actors set_items]. by rewrite Hmb. }
         set (p := place _ o op) in *. clearbody p. unfold placed, is_terminal in *. rewrite Hp in *.
         destruct (op_phase op); try done; destruct_and?; lia. }
    pose proof (proj1 (mailbox_some w op mb) Hmb) as Ha. destruct (ok_actors _ _ Hok _ mb Ha) as [Hni Hmem].
    destruct (claim_next_if_idle (mailbox_enqueue mb o)) as [mb' start] eqn:Ec.
    destruct (enqueue_claim_spec mb o mb' start Hni Ec) as (Hni' & Hstart & Hcounts).
    eexists. split; [done|].
    set (its := match start with Some start => [DispatchCue start None] | None => [] end).
    set (w1 := log_enqueued (set_actor w (op_actor op) (Some mb')) o).
    assert (Hits : forall o', sum_with (enq_of o') its = 0 /\ sum_with (disp_of o') its = opt_eq o' start /\
      sum_with (comp_of o') its = 0 /\ sum_with (dereg_of o') its = 0 /\ sum_with (sig_of o') its = 0 /\
      sum_with (can_of o') its = 0 /\ (o' <> o -> opt_eq o' start = 0 /\ sum_with (touches o') its = 0)).
    { intros o'. unfold its. destruct Hstart as [->| ->]; item_counts; split_and!; try lia; intros Hne; rewrite ?(eqz_other o' o) by done; lia. }
    clearbody its.
    assert (Hown : forall o' op'', operations w !! o' = Some op'' -> op_phase op'' = Op_Queued \/ o' <> o).
    { intros o' op'' Ho'. destruct (decide (o' = o)) as [->|]; [left|by right]. rewrite Ho in Ho'. injection Ho' as <-.
      unfold placed, is_terminal in *. destruct (op_phase op); [done| | |done]; destruct_and?; lia. }
    assert (Hall : forall o' op'', operations w !! o' = Some op'' -> placed calm op'' (place (push w1 its) o' op'')).
    { intros o' op'' Ho'. rewrite (place_mailbox w (Enqueue o) o' op'' (op_actor op) mb mb' its w1) by done.
      pose proof (ok_placed _ _ Hok o' op'' Ho') as Hpo. destruct (Hits o') as (E1 & E2 & E3 & E4 & E5 & _ & E7).
      rewrite E1, E2, E3, E4, E5. cbn [enq_of disp_of comp_of dereg_of sig_of]. destruct (Hcounts o') as [C1 C2].
      assert (Hmb'' : op_actor op'' = op_actor op ->
        p_mailbox (place (set_items w (Enqueue o :: items w)) o' op'') = Some (in_queue o' mb, is_running o' mb)).
      { intros Eq. cbn [p_mailbox place]. unfold mailbox_of in *. cbn [actors set_items]. rewrite Eq. by rewrite Hmb. }
      pose proof (place_range (set_items w (Enqueue o :: items w)) o' op'') as Hro. clear Hr Hpl Hge.
      set (p := place _ o' op'') in *. clearbody p. destruct p as [reg enq disp comp dereg sig res mbp lau].
      cbn [p_reg p_enq p_disp p_comp p_dereg p_sig p_res p_mailbox p_launched] in *. unfold placed in *.
      cbn [p_reg p_enq p_disp p_comp p_dereg p_sig p_res p_mailbox p_launched] in *.
      destruct (decide (o' = o)) as [->|Hne].
      - rewrite Ho in Ho'. injection Ho' as <-. rewrite decide_True by done. rewrite (Hmb'' eq_refl) in *. rewrite eqz_same in *.
        destruct (Hown o op Ho) as [Ep|]; [|done]. rewrite Ep in *. destruct_and?. split_and!; try done; lia.
      - destruct (E7 Hne) as [Hz _]. rewrite (eqz_other o' o), Hz in * by done.
        case_decide as Eq; [rewrite (Hmb'' Eq) in *|]; destruct (op_phase op''); destruct mbp as [[q r]|]; destruct_and?; split_and!; try done; try lia;
          intros Hc; repeat match goal with Hx : ?P, Hy : ?P -> _ |- _ => specialize (Hy Hx) end; lia. }
    apply (cues_ok_op calm (set_items w (Enqueue o :: items w)) _ o op op); try done.
    + cbn. by rewrite list_insert_id.
    + right. exists mb, mb'. split_and!; try done. intros o'. destruct (Hcounts o') as [-> _]. lia.
    + intros o' Hle [Ht Hw]%touches_split. rewrite pend_push. unfold pend. cbn [items w1 log_enqueued set_actor].
      assert (Hne : o' <> o) by (apply lookup_lt_Some in Ho; cbn in Hle; lia).
      destruct (Hits o') as (_ & _ & _ & _ & _ & _ & E7). rewrite (proj2 (E7 Hne)). lia.
    + intros o' Hle. cbn [launched push set_items w1 log_enqueued set_actor resolved enqueued]. rewrite count_app, count_cons, count_nil.
      destruct (ok_fresh _ _ Hok o' Hle) as (_ & H1 & H2 & H3). cbn [launched set_items resolved enqueued] in *.
      rewrite (eqz_other o' o); [lia|]. apply lookup_lt_Some in Ho. cbn in Hle. lia.
    + intros o'. left. rewrite pend_push, pend_cons. unfold pend. cbn [items w1 log_enqueued set_actor can_of].
      destruct (Hits o') as (_ & _ & _ & _ & _ & -> & _). lia.
    + by apply Hall.
    + intros o' op'' _. apply Hall.
Qed.

(** The retirement of an operation that has ended, from a completion or from the
    cancellation of a queued operation. *)
Definition retires (item : Item) (o : nat) (op : CueOperation) (rest : list Item) : Prop :=
  (op_phase op = Op_Queued /\ comp_of o item = 0 \/ is_terminal op = true /\ comp_of o item = 1) /\
  (forall o', sum_with (comp_of o') rest = 0 /\ (o' <> o -> comp_of o' item = 0) /\
    sum_with (enq_of o') rest = enq_of o' item /\ sum_with (disp_of o') rest = disp_of o' item /\
    sum_with (dereg_of o') rest = dereg_of o' item /\ sum_with (sig_of o') rest = sig_of o' item) /\
  (forall o', o' <> o -> can_of o' item <= sum_with (can_of o') rest) /\
  (forall o', o' <> o -> touches o' item = 0 -> sum_with (touches o') rest = 0).

Lemma retire_ok calm w item o op op' close_cued rest :
  cues_ok calm (set_items w (item :: items w)) -> operations w !! o = Some op ->
  op_scene op' = op_scene op -> op_actor op' = op_actor op -> is_terminal op' = true -> retires item o op rest ->
  (calm -> op_phase op = Op_Queued -> p_disp (place (set_items w (item :: items w)) o op) = 0) ->
  cues_ok calm (push (complete_action (set_op w o op') o op' close_cued) rest).
Proof.
  intros Hok Ho Hsc Hac Hterm (Hph & Hits & Hcan & Htouch) Hcalm. unfold complete_action.
  set (op3 := if close_cued then close_inline op' else op').
  assert (H3 : op_scene op3 = op_scene op /\ op_actor op3 = op_actor op /\ is_terminal op3 = true /\ cancelled_or_over op3).
  { unfold op3, is_terminal, cancelled_or_over in *. destruct close_cued; cbn; destruct (op_phase op'); done. }
  destruct H3 as (Hsc3 & Hac3 & Hterm3 & Hover3).
  assert (Hset : set_op (set_op w o op') o op3 = set_op w o op3) by (unfold set_op; cbn; by rewrite list_insert_insert_eq).
  rewrite Hset. assert (Hmbof : mailbox_of (set_op w o op3) op' = mailbox_of w op) by (unfold mailbox_of; by rewrite Hac).
  rewrite Hmbof. clear Hset Hmbof. rewrite Hac. clearbody op3. clear op' Hsc Hac Hterm close_cued.
  pose proof (ok_placed _ _ Hok o op Ho) as Hpl. pose proof (place_range (set_items w (item :: items w)) o op) as Hr.
  assert (Hcomp : comp_of o item <= p_comp (place (set_items w (item :: items w)) o op)).
  { cbn [p_comp place]. rewrite pend_cons. assert (0 <= sum_with (comp_of o) (items w)); [|lia].
    apply sum_with_pos. intros it. apply (counts_range o it). }
  destruct (mailbox_of w op) as [mb|] eqn:Hmb.
  - pose proof (proj1 (mailbox_some w op mb) Hmb) as Ha. destruct (ok_actors _ _ Hok _ mb Ha) as [Hni Hmem].
    assert (Hpm : forall o' op'', op_actor op'' = op_actor op ->
      p_mailbox (place (set_items w (item :: items w)) o' op'') = Some (in_queue o' mb, is_running o' mb)).
    { intros o' op'' Eq. cbn [p_mailbox place]. unfold mailbox_of in *. cbn [actors set_items]. rewrite Eq. by rewrite Hmb. }
    destruct (terminal_transition mb o) as [mb' next] eqn:Et. rewrite push_push.
    destruct (terminal_transition_spec mb o mb' next Hni) as (Hni' & Hq0 & Hr0 & Hn0 & Hothers); [|done|].
    { specialize (Hpm o op eq_refl). set (p := place _ o op) in *. clearbody p. unfold placed, is_terminal in *. rewrite Hpm in *.
      destruct Hph as [[Ep Ec]|[Et' Ec]]; [rewrite Ep in *; destruct_and?; lia|].
      destruct (op_phase op); try done. destruct_and?. lia. }
    set (w1 := set_actor (set_op w o op3) (op_actor op) (Some mb')). set (its := [Deregister o next] ++ rest).
    assert (Hall : forall o' op'',
      let p := place (set_items w (item :: items w)) o' op'' in
      place (push w1 its) o' op'' = mkPlace (p_reg p) (p_enq p) (p_disp p + opt_eq o' next) (p_comp p - comp_of o' item)
        (p_dereg p + eqz o' o) (p_sig p) (p_res p)
        (if decide (op_actor op'' = op_actor op) then Some (in_queue o' mb', is_running o' mb') else p_mailbox p) (p_launched p)).
    { intros o' op'' p. unfold p. rewrite (place_mailbox w item o' op'' (op_actor op) mb mb' its w1) by done.
      destruct (Hits o') as (I1 & _ & I3 & I4 & I5 & I6). unfold its. rewrite !sum_with_app, I1, I3, I4, I5, I6.
      item_counts. f_equal; lia. }
    apply (cues_ok_op calm (set_items w (item :: items w)) _ o op op3); try done.
    + right. exists mb, mb'. split_and!; try done. intros o'. pose proof (count_nonneg o' (queue mb)).
      pose proof (opt_eq_range o' (running mb)). unfold in_queue, is_running in *.
      destruct (decide (o' = o)) as [->|Hne]; [rewrite eqz_same; lia|]. destruct (Hothers o' Hne) as [-> _].
      rewrite eqz_other by done. lia.
    + intros o' Hle [Ht Hw]%touches_split. rewrite pend_push. unfold pend. cbn [items w1 set_op set_actor].
      assert (Hne : o' <> o) by (apply lookup_lt_Some in Ho; cbn in Hle; lia). unfold its. rewrite sum_with_app, (Htouch o' Hne Ht).
      assert (Hn : opt_eq o' next = 0).
      { destruct (Hothers o' Hne) as [H1 H2]. pose proof (opt_eq_range o' next). pose proof (count_nonneg o' (queue mb')).
        destruct (decide (0 < opt_eq o' next)) as [Hp|Hp]; [|lia]. exfalso.
        destruct (Hmem o') as (op'' & Ho' & _).
        { pose proof (opt_eq_range o' (running mb)). unfold in_queue, is_running in *. lia. }
        apply lookup_lt_Some in Ho'. cbn in Hle, Ho'. lia. }
      item_counts. rewrite Hn, (eqz_other o' o) by done. lia.
    + intros o' Hle. by apply (ok_fresh _ _ Hok).
    + intros o'. destruct (decide (o' = o)) as [->|Hne]; [right; by split|left].
      rewrite pend_push, pend_cons. unfold pend, its. cbn [items w1 set_op set_actor]. rewrite sum_with_app.
      specialize (Hcan o' Hne). item_counts. lia.
    + assert (Eplace : place (push w1 its) o op3 = place (push w1 its) o op).
      { unfold place, registered, mailbox_of. by rewrite Hsc3, Hac3. }
      rewrite Eplace, Hall. rewrite decide_True by done. rewrite Hq0, Hr0, Hn0, eqz_same. specialize (Hpm o op eq_refl).
      set (p := place _ o op) in *. clearbody p. destruct p as [reg enq disp comp dereg sig res mbp lau].
      unfold placed, is_terminal in *. cbn in Hpl, Hr, Hpm, Hcalm, Hcomp |- *. subst mbp.
      destruct Hph as [[Ep Ec]|[Et' Ec]].
      * rewrite Ep in *. destruct (op_phase op3); try done. destruct_and?. split_and!; try lia.
        intros Hc. specialize (Hcalm Hc eq_refl). lia.
      * destruct (op_phase op); try done. destruct (op_phase op3); try done. destruct_and?. split_and!; try lia.
        intros Hc. repeat match goal with Hx : ?P, Hy : ?P -> _ |- _ => specialize (Hy Hx) end. lia.
    + intros o' op'' Hne Ho'. pose proof (ok_placed _ _ Hok o' op'' Ho') as Hpo. rewrite Hall.
      destruct (Hits o') as (_ & I2 & _). rewrite (I2 Hne), (eqz_other o' o) by done. destruct (Hothers o' Hne) as [H1 H2].
      pose proof (Hpm o' op'') as Hpm'. pose proof (place_range (set_items w (item :: items w)) o' op'') as Hro.
      pose proof (opt_eq_range o' next). pose proof (count_nonneg o' (queue mb')). unfold in_queue in *.
      assert (Hnext : op_actor op'' <> op_actor op -> opt_eq o' next = 0).
      { intros Ha'. destruct (decide (0 < opt_eq o' next)) as [Hp|Hp]; [|lia]. exfalso. apply Ha'.
        destruct (Hmem o') as (op4 & Ho4 & <-).
        { pose proof (opt_eq_range o' (running mb)). unfold in_queue, is_running in *. lia. }
        pose proof (eq_trans (eq_sym Ho') Ho4) as E4. by injection E4 as <-. }
      clear Hr Hpl Hcomp Hcalm. set (p := place _ o' op'') in *. clearbody p. destruct p as [reg enq disp comp dereg sig res mbp lau].
      unfold placed in *. cbn [p_reg p_enq p_disp p_comp p_dereg p_sig p_res p_mailbox p_launched] in *.
      case_decide as Eq.
      * rewrite (Hpm' Eq) in *. destruct (op_phase op''); destruct_and?; split_and!; try done; try lia;
          intros Hc; repeat match goal with Hx : ?P, Hy : ?P -> _ |- _ => specialize (Hy Hx) end; lia.
      * rewrite (Hnext Eq) in *. rewrite !Z.add_0_r, Z.sub_0_r. done.
  - rewrite push_push. apply (cues_ok_set calm w item o op op3); try done.
    + intros o' Hne Ht. item_counts. rewrite (eqz_other o' o) by done. specialize (Htouch o' Hne Ht). item_counts. lia.
    + intros o'. destruct (decide (o' = o)) as [->|Hne]; [by right|left]. rewrite sum_with_app. specialize (Hcan o' Hne). cbn. lia.
    + intros o' Hne. destruct (Hits o') as (I1 & I2 & I3 & I4 & I5 & I6). specialize (I2 Hne). unfold same_for.
      rewrite !sum_with_app, I1, I2, I3, I4, I5, I6. item_counts. rewrite (eqz_other o' o) by done. lia.
    + rewrite (place_set w item o op op3) by done. destruct (Hits o) as (I1 & _ & I3 & I4 & I5 & I6).
      rewrite !sum_with_app, I1, I3, I4, I5, I6. item_counts. rewrite eqz_same.
      assert (Hpm : p_mailbox (place (set_items w (item :: items w)) o op) = None).
      { cbn [p_mailbox place]. unfold mailbox_of in *. cbn [actors set_items]. by rewrite Hmb. }
      set (p := place _ o op) in *. clearbody p. destruct p as [reg enq disp comp dereg sig res mb' lau].
      unfold placed, is_terminal in *. cbn in Hpl, Hr, Hpm, Hcalm, Hcomp |- *. subst mb'.
      destruct Hph as [[Ep Ec]|[Et Ec]].
      * rewrite Ep in *. destruct (op_phase op3); try done. destruct_and?. split_and!; try lia. 
      * destruct (op_phase op); try done. destruct (op_phase op3); try done. destruct_and?. split_and!; try lia.
        intros Hc. repeat match goal with Hx : ?P, Hy : ?P -> _ |- _ => specialize (Hy Hx) end. lia.
Qed.

Lemma complete_cue_ok calm w o op close_cued :
  cues_ok calm (set_items w (Complete o close_cued :: items w)) -> operations w !! o = Some op ->
  cues_ok calm (complete_action w o op close_cued).
Proof.
  intros Hok Ho. rewrite <- (push_nil (complete_action _ _ _ _)). rewrite <- (set_op_same w o op Ho) at 1.
  pose proof (ok_placed _ _ Hok o op Ho) as Hpl.
  assert (Hcomp : 1 <= p_comp (place (set_items w (Complete o close_cued :: items w)) o op)).
  { cbn [p_comp place]. rewrite pend_cons. cbn [comp_of]. rewrite eqz_same.
    assert (0 <= sum_with (comp_of o) (items w)); [|lia]. apply sum_with_pos. intros it. apply (counts_range o it). }
  assert (Hterm : is_terminal op = true).
  { set (p := place _ _ _) in *. clearbody p. unfold placed, is_terminal in *. destruct (op_phase op); try done; destruct_and?; lia. }
  apply (retire_ok calm w (Complete o close_cued) o op op); try done.
  - split; [right; split; [done|apply eqz_same]|]. split_and!; [intros o'; split_and!; try done|..].
    + intros Hne. item_counts. by rewrite (eqz_other o' o).
    + intros o' _. by item_counts.
    + intros o' Hne. by item_counts.
  - unfold is_terminal in Hterm. intros _ Ep. by rewrite Ep in Hterm.
Qed.

(** The cancellation of a cue, that of a loop ([Some]) or of a caller. *)
Lemma cancel_cue_ok calm w o op (loop : option (list nat * option nat)) :
  let item := match loop with Some (rest, enqueue) => CancelAll (o :: rest) enqueue | None => CancelAll [] None end in
  let its := match loop with Some (rest, enqueue) => [CancelAll rest enqueue] | None => [] end in
  cues_ok calm (set_items w (item :: items w)) -> operations w !! o = Some op ->
  (calm -> op_phase op = Op_Queued -> pend (disp_of o) w = 0) ->
  cues_ok calm (push (cancel_cue w o op) its).
Proof.
  intros item its Hok Ho Hcalm.
  assert (Hits : forall o', sum_with (enq_of o') its = enq_of o' item /\ sum_with (disp_of o') its = disp_of o' item /\
    sum_with (comp_of o') its = comp_of o' item /\ comp_of o' item = 0 /\ sum_with (dereg_of o') its = dereg_of o' item /\
    sum_with (sig_of o') its = sig_of o' item /\ disp_of o' item = 0 /\
    (o' <> o -> can_of o' item <= sum_with (can_of o') its /\ (touches o' item = 0 -> sum_with (touches o') its = 0))).
  { intros o'. unfold item, its. destruct loop as [[rest enqueue]|]; item_counts; rewrite ?count_cons, ?count_nil; split_and!; try lia;
      intros Hne; rewrite ?(eqz_other o' o) by done; lia. }
  clearbody item its.
  assert (Hkeep : cancelled_or_over op -> cues_ok calm (push w its)).
  { intros Hover. rewrite <- (set_op_same w o op Ho) at 1. apply (cues_ok_same calm w item o op op); try done.
    - intros o' Hne. by apply Hits.
    - intros o'. destruct (decide (o' = o)) as [->|Hne]; [by right|left; by apply Hits].
    - intros o'. destruct (Hits o') as (? & ? & ? & ? & ? & ? & _). split_and!; done. }
  unfold cancel_cue, request_cancel, cancelled_or_over in *. destruct (op_phase op) as [| | |outcome] eqn:Ep.
  - apply (retire_ok calm w item o op); try done.
    + split; [left; split; [done|apply Hits]|]. split_and!.
      * intros o'. destruct (Hits o') as (? & ? & E3 & E4 & ? & ? & _). split_and!; try done. congruence.
      * intros o' Hne. by apply Hits.
      * intros o' Hne. by apply Hits.
    + intros Hc _. specialize (Hcalm Hc eq_refl). cbn [p_disp place]. rewrite pend_cons.
      destruct (Hits o) as (_ & _ & _ & _ & _ & _ & -> & _). exact Hcalm.
  - rewrite push_push. apply (cues_ok_same calm w item o op); try done.
    + intros o' Hne Ht. destruct (Hits o') as (_ & _ & _ & _ & _ & _ & _ & Hx). rewrite sum_with_app, (proj2 (Hx Hne) Ht).
      item_counts. rewrite (eqz_other o' o) by done. lia.
    + intros o'. destruct (decide (o' = o)) as [->|Hne]; [right; by split|left].
      destruct (Hits o') as (_ & _ & _ & _ & _ & _ & _ & Hx). rewrite sum_with_app. destruct (Hx Hne) as [Hle _]. cbn. lia.
    + intros o'. destruct (Hits o') as (? & ? & ? & ? & ? & ? & _). unfold same_for. rewrite !sum_with_app. cbn. split_and!; lia.
    + intros p Hp. unfold placed in *. rewrite Ep in Hp. cbn. intuition done.
  - by apply Hkeep.
  - by apply Hkeep.
Qed.

Lemma resolve_ok calm w o op :
  cues_ok calm (set_items w (Resolve o :: items w)) -> operations w !! o = Some op ->
  resolve_terminal_signal w o = log_resolved w o /\ cues_ok calm (log_resolved w o).
Proof.
  intros Hok Ho. pose proof (ok_placed _ _ Hok o op Ho) as Hpl.
  pose proof (place_range (set_items w (Resolve o :: items w)) o op) as Hr.
  assert (Hsig : 1 <= p_sig (place (set_items w (Resolve o :: items w)) o op)).
  { cbn [p_sig place]. rewrite pend_cons. cbn [sig_of]. rewrite eqz_same.
    assert (0 <= sum_with (sig_of o) (items w)); [|lia]. apply sum_with_pos. intros it. apply (counts_range o it). }
  assert (Hres : p_res (place (set_items w (Resolve o :: items w)) o op) = 0).
  { set (p := place _ _ _) in *. clearbody p. unfold placed in *. destruct (op_phase op); destruct_and?; lia. }
  assert (Hplo : forall o' op'', operations w !! o' = Some op'' ->
    place (log_resolved w o) o' op'' =
    let p := place (set_items w (Resolve o :: items w)) o' op'' in
    mkPlace (p_reg p) (p_enq p) (p_disp p) (p_comp p) (p_dereg p) (p_sig p - eqz o' o) (p_res p + eqz o' o) (p_mailbox p) (p_launched p)).
  { intros o' op'' _. unfold place. rewrite !pend_cons. unfold pend.
    cbn [resolved log_resolved items set_items p_reg p_enq p_disp p_comp p_dereg p_sig p_res p_mailbox p_launched].
    rewrite count_app, count_cons, count_nil. item_counts. f_equal; lia. }
  split.
  { unfold resolve_terminal_signal. rewrite bool_decide_false; [done|]. intros Hin%count_pos. change (count o (resolved w) = 0) in Hres. lia. }
  apply (cues_ok_op calm (set_items w (Resolve o :: items w)) _ o op op); try done.
  - cbn. by rewrite list_insert_id.
  - by left.
  - intros o' Hle [Ht Hw]%touches_split. exact Hw.
  - intros o' Hle. cbn [resolved log_resolved launched enqueued]. rewrite count_app, count_cons, count_nil.
    destruct (ok_fresh _ _ Hok o' Hle) as (_ & H1 & H2 & H3). cbn [launched set_items resolved enqueued] in *.
    rewrite (eqz_other o' o); [lia|]. apply lookup_lt_Some in Ho. cbn in Hle. lia.
  - intros o'. left. rewrite pend_cons. unfold pend. cbn [items log_resolved can_of]. lia.
  - rewrite (Hplo o op Ho), eqz_same. set (p := place _ _ _) in *. clearbody p. destruct p as [reg enq disp comp dereg sig res mb lau].
    unfold placed in *. cbn [p_reg p_enq p_disp p_comp p_dereg p_sig p_res p_mailbox p_launched] in *.
    destruct (op_phase op); destruct_and?; try lia. split_and!; try done; try lia.
  - intros o' op'' Hne Ho'. rewrite (Hplo o' op'' Ho'). cbv zeta. rewrite (eqz_other o' o), Z.sub_0_r, Z.add_0_r by done.
    pose proof (ok_placed _ _ Hok o' op'' Ho') as Hpo. by destruct (place _ o' op'').
Qed.

(** ** Steps of the scenes *)

Lemma cues_ok_scene calm w w' s scene scene' :
  cues_ok calm w -> scenes w !! s = Some scene ->
  operations w' = operations w -> actors w' = actors w -> scenes w' = <[s := scene']> (scenes w) ->
  resolved w' = resolved w -> launched w' = launched w -> enqueued w' = enqueued w ->
  (forall o, count o (scene_operations scene') <= count o (scene_operations scene)) ->
  match scene_phase scene' with
  | Scene_Closing => forall o op, operations w !! o = Some op -> 0 < count o (scene_operations scene') ->
      cancelled_or_over op \/ 0 < pend (can_of o) w'
  | Scene_Closed => scene_operations scene' = []
  | _ => True
  end ->
  (forall o, pend (can_of o) w <= pend (can_of o) w') ->
  (forall o, (length (operations w) <= o)%nat -> pend (touches o) w = 0 -> pend (touches o) w' = 0) ->
  (forall o op, operations w !! o = Some op -> placed calm op (place w' o op)) ->
  admissions_ok w' ->
  cues_ok calm w'.
Proof.
  intros Hok Hs Eo Ea Es Er El Ee Hcount Hclose Hcan Hfresh Hpl Hadm. split; try done.
  - by rewrite Eo.
  - intros o op Ho. rewrite Eo in Ho. rewrite Es, Ea, length_insert. by apply (ok_refs _ _ Hok o).
  - intros o Ho. rewrite Eo in Ho. rewrite Er, El, Ee. destruct (ok_fresh _ _ Hok o Ho) as (H1 & H2). split; [|done]. by apply Hfresh.
  - intros a mb Ha. rewrite Ea in Ha. destruct (ok_actors _ _ Hok a mb Ha) as [Hn Hm]. split; [done|]. by rewrite Eo.
  - intros s' sc Hs'. rewrite Es in Hs'. destruct (decide (s' = s)) as [->|Hne].
    + rewrite list_lookup_insert_eq in Hs' by by eapply lookup_lt_Some. injection Hs' as <-.
      destruct (ok_scenes _ _ Hok s scene Hs) as [Hm _]. split; [|by rewrite Eo]. intros o Hp. rewrite Eo. apply Hm.
      specialize (Hcount o). lia.
    + rewrite list_lookup_insert_ne in Hs' by done. destruct (ok_scenes _ _ Hok s' sc Hs') as [Hm Hc]. split; [by rewrite Eo|].
      destruct (scene_phase sc); try done. intros o op Ho Hp. rewrite Eo in Ho. destruct (Hc o op Ho Hp) as [|Hx]; [by left|right].
      specialize (Hcan o). lia.
Qed.

(** Scenes that keep their operations, with items that keep the places. *)
Lemma place_scene w item its s scene scene' o op w1 :
  scenes w !! s = Some scene -> scene_operations scene' = scene_operations scene ->
  actors w1 = actors w -> scenes w1 = <[s := scene']> (scenes w) -> items w1 = items w ->
  resolved w1 = resolved w -> launched w1 = launched w -> same_for o item its ->
  place (push w1 its) o op = place (set_items w (item :: items w)) o op.
Proof.
  intros Hs Hops Ea Es Ei Er El (E1 & E2 & E3 & E4 & E5). unfold place. rewrite !pend_push, !pend_cons, E1, E2, E3, E4, E5.
  unfold pend, registered, mailbox_of, push. cbn [items set_items scenes actors launched resolved]. rewrite Ea, Es, Ei, Er, El.
  f_equal; try lia. destruct (decide (op_scene op = s)) as [->|Hne].
  - rewrite list_lookup_insert_eq by by eapply lookup_lt_Some. by rewrite Hs, Hops.
  - by rewrite list_lookup_insert_ne.
Qed.

(** What a scene that ends its closing keeps. *)
Lemma settle_closing_spec scene :
  scene_operations (settle_closing scene) = scene_operations scene /\ scene_name (settle_closing scene) = scene_name scene /\
  scene_counter (settle_closing scene) = scene_counter scene /\
  (settle_closing scene = scene \/
   scene_phase scene = Scene_Closing /\ scene_operations scene = [] /\ scene_phase (settle_closing scene) = Scene_Closed).
Proof.
  unfold settle_closing. destruct (scene_phase scene) eqn:Ep; try (split_and!; [done..|by left]).
  destruct (scene_operations scene) eqn:Eo; [|split_and!; [done..|by left]]. split_and!; try done. by right.
Qed.

Lemma operation_finished_spec scene o :
  let scene' := operation_finished scene o in
  (forall o', o' <> o -> count o' (scene_operations scene') = count o' (scene_operations scene)) /\
  count o (scene_operations scene') = Z.max 0 (count o (scene_operations scene) - 1) /\
  scene_name scene' = scene_name scene /\ scene_counter scene' = scene_counter scene /\
  (scene_phase scene' = scene_phase scene \/
   scene_phase scene = Scene_Closing /\ scene_phase scene' = Scene_Closed /\ scene_operations scene' = []).
Proof.
  unfold operation_finished. pose proof (position_count o (scene_operations scene)) as Hp.
  set (l := match position (Nat.eqb o) (scene_operations scene) with Some k => delete k _ | None => _ end).
  assert (Hl : (forall o', o' <> o -> count o' l = count o' (scene_operations scene)) /\
    count o l = Z.max 0 (count o (scene_operations scene) - 1)).
  { unfold l. destruct (position _ _) as [k|].
    - split; [intros o' Hne|]; unfold count; rewrite (sum_with_delete _ _ _ _ Hp).
      + rewrite (eqz_other o' o) by done. lia.
      + rewrite eqz_same. pose proof (sum_with_ge (eqz o) _ _ _ (fun b => proj1 (eqz_range o b)) Hp) as Hge. rewrite eqz_same in Hge. lia.
    - split; [done|]. rewrite Hp. lia. }
  clearbody l. cbv zeta. set (s1 := mkScene _ _ _ _ _).
  destruct (settle_closing_spec s1) as (H1 & H2 & H3 & H4). rewrite H1, H2, H3. split; [apply Hl|]. split; [apply Hl|].
  split; [done|]. split; [done|]. destruct H4 as [->|(H4 & H5 & H6)]; [by left|right]. done.
Qed.

(** The admissions of a scene whose admission does not move. *)
Lemma admissions_ok_settled w w' s scene scene' :
  admissions_ok w -> scenes w !! s = Some scene -> scenes w' = <[s := scene']> (scenes w) -> admissions w' = admissions w ->
  scene_name scene' = scene_name scene -> scene_counter scene' = scene_counter scene ->
  (scene_phase scene' = scene_phase scene \/
   (forall token, scene_phase scene <> Scene_Admitting token /\ scene_phase scene <> Scene_ClosePending token) /\
   (forall token, scene_phase scene' <> Scene_Admitting token /\ scene_phase scene' <> Scene_ClosePending token) \/
   exists token, scene_phase scene = Scene_Admitting token /\ scene_phase scene' = Scene_ClosePending token) ->
  admissions_ok w'.
Proof.
  intros [H1 H2] Hs Es Ea Hname Hcounter Hphase. unfold admissions_ok. rewrite Es, Ea. split.
  - intros s' sc Hs'. destruct (decide (s' = s)) as [->|Hne].
    + rewrite list_lookup_insert_eq in Hs' by by eapply lookup_lt_Some. injection Hs' as <-. specialize (H1 s scene Hs).
      destruct Hphase as [->|[[Hx Hy]|(token & Hx & Hy)]]; [done| |by rewrite Hx in H1; rewrite Hy].
      destruct (scene_phase scene) as [|t|t| |] eqn:E1; try (by destruct (Hx t));
        destruct (scene_phase scene') as [|t'|t'| |] eqn:E2; try (by destruct (Hy t')); done.
    + rewrite list_lookup_insert_ne in Hs' by done. by apply H1.
  - intros k txn Hk. destruct (H2 k txn Hk) as (sc & Hsc & Hph & Hprep). destruct (decide (txn_scene txn = s)) as [E|Hne].
    + rewrite E in *. rewrite Hs in Hsc. injection Hsc as <-. exists scene'.
      rewrite list_lookup_insert_eq by by eapply lookup_lt_Some. split; [done|]. split.
      * destruct Hphase as [->|[[Hx _]|(token & Hx & Hy)]]; [done| |].
        -- destruct Hph as [Hph|Hph]; by destruct (Hx (txn_token txn)).
        -- right. rewrite Hx in Hph. destruct Hph as [[= <-]|]; done.
      * unfold prepare in *. by rewrite Hname, Hcounter.
    + exists sc. by rewrite list_lookup_insert_ne.
Qed.

Lemma deregister_ok calm w o op next :
  cues_ok calm (set_items w (Deregister o next :: items w)) -> operations w !! o = Some op ->
  cues_ok calm (deregister w o op next).
Proof.
  intros Hok Ho. unfold deregister.
  destruct (lookup_lt_is_Some_2 (scenes w) (op_scene op)) as [scene Hs]; [by apply (ok_refs _ _ Hok o op Ho)|]. rewrite Hs.
  pose proof (operation_finished_spec scene o) as (Hc & Hco & Hname & Hcounter & Hphase).
  set (scene' := operation_finished scene o) in *. set (its := dispatch_next next (Some o)).
  pose proof (ok_placed _ _ Hok o op Ho) as Hpl. pose proof (place_range (set_items w (Deregister o next :: items w)) o op) as Hr.
  assert (Hd : 1 <= p_dereg (place (set_items w (Deregister o next :: items w)) o op)).
  { cbn [p_dereg place]. rewrite pend_cons. cbn [dereg_of]. rewrite eqz_same.
    assert (0 <= sum_with (dereg_of o) (items w)); [|lia]. apply sum_with_pos. intros it. apply (counts_range o it). }
  assert (Hreg : p_reg (place (set_items w (Deregister o next :: items w)) o op) = count o (scene_operations scene)).
  { cbn [p_reg place]. unfold registered. cbn [scenes set_items]. by rewrite Hs. }
  assert (Hits : forall o', sum_with (enq_of o') its = 0 /\ sum_with (disp_of o') its = opt_eq o' next /\
    sum_with (comp_of o') its = 0 /\ sum_with (dereg_of o') its = 0 /\ sum_with (sig_of o') its = eqz o' o /\
    sum_with (can_of o') its = 0 /\ sum_with (touches o') its = opt_eq o' next + eqz o' o).
  { intros o'. unfold its, dispatch_next. destruct next; item_counts; split_and!; lia. }
  clearbody its.
  assert (Hplace : forall o' op'', operations w !! o' = Some op'' ->
    place (push (set_scene w (op_scene op) scene') its) o' op'' =
    let p := place (set_items w (Deregister o next :: items w)) o' op'' in
    mkPlace (if decide (o' = o) then Z.max 0 (p_reg p - 1) else p_reg p) (p_enq p) (p_disp p) (p_comp p)
      (p_dereg p - eqz o' o) (p_sig p + eqz o' o) (p_res p) (p_mailbox p) (p_launched p)).
  { intros o' op'' Ho'. unfold place. rewrite !pend_push, !pend_cons. destruct (Hits o') as (-> & -> & -> & -> & -> & _).
    unfold pend, registered, mailbox_of, push.
    cbn [items set_items set_scene scenes actors launched resolved p_reg p_enq p_disp p_comp p_dereg p_sig p_res p_mailbox p_launched
         enq_of disp_of comp_of dereg_of sig_of].
    f_equal; try lia. case_decide as Eo.
    - subst o'. rewrite Ho in Ho'. injection Ho' as <-. rewrite list_lookup_insert_eq by by eapply lookup_lt_Some. by rewrite Hs.
    - destruct (decide (op_scene op'' = op_scene op)) as [E|E].
      + rewrite E, list_lookup_insert_eq by by eapply lookup_lt_Some. rewrite Hs. by apply Hc.
      + by rewrite list_lookup_insert_ne. }
  assert (Hcle : forall o', count o' (scene_operations scene') <= count o' (scene_operations scene)).
  { intros o'. destruct (decide (o' = o)) as [->|Hne]; [|rewrite Hc by done; lia]. pose proof (count_nonneg o (scene_operations scene)). lia. }
  apply (cues_ok_scene calm (set_items w (Deregister o next :: items w)) _ (op_scene op) scene scene'); try done.
  - destruct Hphase as [Ep|(Ep & Ep' & Eops)].
    + rewrite Ep. destruct (ok_scenes _ _ Hok _ scene Hs) as [Hm Hcl]. destruct (scene_phase scene) eqn:Esp; try done.
      * intros o' op'' Ho' Hp. destruct (Hcl o' op'' Ho') as [|Hx]; [specialize (Hcle o'); lia|by left|right].
        rewrite pend_push. rewrite pend_cons in Hx. cbn [can_of] in Hx. unfold pend. cbn [items set_scene].
        destruct (Hits o') as (_ & _ & _ & _ & _ & -> & _). lia.
      * destruct (scene_operations scene') as [|x l] eqn:El; [done|exfalso]. specialize (Hcle x). rewrite Hcl, count_cons, eqz_same, count_nil in Hcle.
        pose proof (count_nonneg x l). lia.
    + by rewrite Ep', Eops.
  - intros o'. rewrite pend_push, pend_cons. unfold pend. cbn [items set_scene can_of].
    destruct (Hits o') as (_ & _ & _ & _ & _ & -> & _). lia.
  - intros o' Hle [Ht Hw]%touches_split. rewrite pend_push. unfold pend. cbn [items set_scene]. rewrite Hw.
    destruct (Hits o') as (_ & _ & _ & _ & _ & _ & ->). item_counts. ranges. lia.
  - intros o' op'' Ho'. rewrite (Hplace o' op'' Ho'). pose proof (ok_placed _ _ Hok o' op'' Ho') as Hpo. cbv zeta.
    case_decide as Eo.
    + subst o'. change (operations w !! o = Some op'') in Ho'. rewrite Ho in Ho'. injection Ho' as <-. rewrite eqz_same. set (p := place _ o op) in *. clearbody p.
      destruct p as [reg enq disp comp dereg sig res mb lau]. unfold placed in *.
      cbn [p_reg p_enq p_disp p_comp p_dereg p_sig p_res p_mailbox p_launched] in *.
      destruct (op_phase op); destruct_and?; try lia. split_and!; try done; try lia.
    + rewrite (eqz_other o' o), Z.sub_0_r, Z.add_0_r by done. by destruct (place _ o' op'').
  - apply (admissions_ok_settled w _ (op_scene op) scene scene'); try done; [exact (ok_admissions _ _ Hok)|].
    destruct Hphase as [Ep|(Ep & Ep' & _)]; [by left|right; left]. rewrite Ep, Ep'. done.
Qed.

(** The loop of [cancel_operations], at its end. *)
Lemma cancel_all_end_ok calm w enqueue :
  cues_ok calm (set_items w (CancelAll [] enqueue :: items w)) ->
  cues_ok calm (push w match enqueue with Some o => [Enqueue o] | None => [] end).
Proof.
  intros Hok. set (its := match enqueue with Some o => _ | None => _ end).
  assert (Hp : forall f, f (CancelAll [] enqueue) = sum_with f its -> pend f (push w its) = pend f (set_items w (CancelAll [] enqueue :: items w))).
  { intros f Hf. rewrite pend_push, pend_cons, Hf. unfold pend. lia. }
  assert (Hf : forall o, enq_of o (CancelAll [] enqueue) = sum_with (enq_of o) its /\ touches o (CancelAll [] enqueue) = sum_with (touches o) its).
  { intros o. unfold its. destruct enqueue; item_counts; rewrite count_nil; lia. }
  assert (Hz : forall o, sum_with (disp_of o) its = 0 /\ sum_with (comp_of o) its = 0 /\ sum_with (dereg_of o) its = 0 /\
    sum_with (sig_of o) its = 0 /\ sum_with (can_of o) its = 0) by (intros o; unfold its; by destruct enqueue).
  clearbody its. split.
  - intros o op Ho. pose proof (ok_placed _ _ Hok o op Ho) as Hpl. unfold place in *. destruct (Hz o) as (Z1 & Z2 & Z3 & Z4 & _).
    rewrite !Hp; [exact Hpl|cbn; lia..|apply Hf].
  - exact (ok_refs _ _ Hok).
  - intros o Ho. rewrite Hp by apply Hf. exact (ok_fresh _ _ Hok o Ho).
  - exact (ok_actors _ _ Hok).
  - intros s scene Hs. destruct (ok_scenes _ _ Hok s scene Hs) as [H1 H2]. split; [exact H1|].
    destruct (scene_phase scene); try done. intros o op. rewrite Hp; [apply H2|]. destruct (Hz o) as (_ & _ & _ & _ & ->). done.
  - exact (ok_admissions _ _ Hok).
Qed.

Lemma txn_of_nonneg s txn : 0 <= txn_of s txn.
Proof. unfold txn_of. case_decide; lia. Qed.

Lemma no_admission w s k txn :
  sum_with (txn_of s) (admissions w) = 0 -> admissions w !! k = Some txn -> txn_scene txn <> s.
Proof.
  intros Hz Hk E. pose proof (sum_with_ge (txn_of s) _ _ _ (txn_of_nonneg s) Hk) as Hge. unfold txn_of at 1 in Hge.
  rewrite decide_True in Hge by done. lia.
Qed.

(** A scene changes its phase, and cancels its operations when it closes. *)
Lemma close_phase_ok calm w s scene scene' its :
  cues_ok calm w -> scenes w !! s = Some scene -> scene_operations scene' = scene_operations scene ->
  (its = [] \/ exists l, its = [CancelAll l None] /\ forall o, 0 < count o l -> (o < length (operations w))%nat) ->
  match scene_phase scene' with
  | Scene_Closing => (forall o op, operations w !! o = Some op -> 0 < count o (scene_operations scene) ->
      cancelled_or_over op \/ 0 < pend (can_of o) w + sum_with (can_of o) its)
  | Scene_Closed => scene_operations scene = []
  | _ => True
  end ->
  forall w', operations w' = operations w -> actors w' = actors w -> scenes w' = <[s := scene']> (scenes w) ->
  items w' = items w -> resolved w' = resolved w -> launched w' = launched w -> enqueued w' = enqueued w ->
  admissions_ok (push w' its) ->
  cues_ok calm (push w' its).
Proof.
  intros Hok Hs Hops Hits Hphase w' Eo Ea Es Ei Er El Ee Hadm.
  assert (Hz : forall o, same_for o (CancelAll [] None) its).
  { intros o. destruct Hits as [->|(l & -> & _)]; item_counts; lia. }
  apply cues_ok_idle in Hok.
  apply (cues_ok_scene calm _ (push w' its) s scene scene' Hok); try done.
  - intros o. by rewrite Hops.
  - destruct (scene_phase scene'); try done; [|by rewrite Hops]. intros o op Ho Hp. rewrite Hops in Hp.
    destruct (Hphase o op Ho Hp) as [|Hx]; [by left|right]. rewrite pend_push. unfold pend. rewrite Ei. exact Hx.
  - intros o. rewrite pend_push, pend_cons. unfold pend. rewrite Ei. destruct Hits as [->|(l & -> & _)]; item_counts; rewrite ?count_nil; [lia|].
    pose proof (count_nonneg o l). lia.
  - intros o Hle [Ht Hw]%touches_split. rewrite pend_push. unfold pend. rewrite Ei, Hw.
    destruct Hits as [->|(l & -> & Hl)]; [done|]. item_counts. pose proof (count_nonneg o l).
    destruct (decide (0 < count o l)) as [Hp|]; [|lia]. specialize (Hl o Hp). cbn in Hle. lia.
  - intros o op Ho. rewrite (place_scene w (CancelAll [] None) its s scene scene' o op w') by done.
    by apply (ok_placed _ _ Hok o op).
Qed.

Lemma scene_members w calm s scene o :
  cues_ok calm w -> scenes w !! s = Some scene -> 0 < count o (scene_operations scene) -> (o < length (operations w))%nat.
Proof.
  intros Hok Hs Hp. destruct (ok_scenes _ _ Hok s scene Hs) as [Hm _]. destruct (Hm o Hp) as (op & Ho & _).
  by eapply lookup_lt_Some.
Qed.

Lemma close_scene_ok calm w s scene :
  cues_ok calm w -> scenes w !! s = Some scene -> cues_ok calm (cancel_operations w s (scene_close scene)).
Proof.
  intros Hok Hs. unfold cancel_operations. pose proof (ok_admissions _ _ Hok) as Hadm.
  assert (Hsame : scene_close scene = (scene, []) -> cues_ok calm (push (set_scene w s (scene_close scene).1) [CancelAll (scene_close scene).2 None])).
  { intros ->. apply (close_phase_ok calm w s scene scene); try done.
    - right. exists []. split; [done|]. intros o Hp. by rewrite count_nil in Hp.
    - destruct (ok_scenes _ _ Hok s scene Hs) as [_ Hc]. destruct (scene_phase scene); try done. intros o op Ho Hp.
      destruct (Hc o op Ho Hp) as [|Hx]; [by left|right]. item_counts. rewrite count_nil. lia.
    - apply (admissions_ok_settled w _ s scene scene); try done. by left. }
  unfold scene_close in *. destruct (scene_phase scene) as [|token|token| |] eqn:Ep.
  - destruct (scene_operations scene) as [|o0 l] eqn:El; cbn [fst snd].
    + apply (close_phase_ok calm w s scene (with_scene_phase scene Scene_Closed)); try done.
      * right. exists []. split; [done|]. intros o Hp. by rewrite count_nil in Hp.
      * apply (admissions_ok_settled w _ s scene (with_scene_phase scene Scene_Closed)); try done. right. left.
        split; intros token; cbn; rewrite ?Ep; done.
    + apply (close_phase_ok calm w s scene (with_scene_phase scene Scene_Closing)); try done.
      * right. exists (o0 :: l). split; [done|]. intros o Hp. apply (scene_members w calm s scene o Hok Hs). by rewrite El.
      * cbn [scene_phase with_scene_phase]. intros o op Ho Hp. right. rewrite El in Hp.
        change (0 < pend (can_of o) w + (count o (o0 :: l) + 0)).
        assert (0 <= pend (can_of o) w) by (apply pend_nonneg; intros it; apply (counts_range o it)). lia.
      * apply (admissions_ok_settled w _ s scene (with_scene_phase scene Scene_Closing)); try done. right. left.
        split; intros token; cbn; rewrite ?Ep; done.
  - cbn [fst snd]. apply (close_phase_ok calm w s scene (with_scene_phase scene (Scene_ClosePending token))); try done.
    + right. exists []. split; [done|]. intros o Hp. by rewrite count_nil in Hp.
    + apply (admissions_ok_settled w _ s scene (with_scene_phase scene (Scene_ClosePending token))); try done. right. right.
      by exists token.
  - by apply Hsame.
  - by apply Hsame.
  - by apply Hsame.
Qed.

Lemma wait_closed_ok calm w s scene :
  cues_ok calm w -> scenes w !! s = Some scene -> cues_ok calm (set_scene w s (wait_closed scene).1).
Proof.
  intros Hok Hs. cbn [wait_closed fst]. rewrite <- (push_nil (set_scene _ _ _)).
  destruct (settle_closing_spec scene) as (H1 & H2 & H3 & H4).
  apply (close_phase_ok calm w s scene (settle_closing scene)); try done.
  - by left.
  - destruct H4 as [->|(E1 & E2 & E3)].
    + destruct (ok_scenes _ _ Hok s scene Hs) as [_ Hc]. destruct (scene_phase scene); try done. intros o op Ho Hp.
      destruct (Hc o op Ho Hp) as [|Hx]; [by left|right]. cbn. lia.
    + by rewrite E3.
  - apply (admissions_ok_settled w _ s scene (settle_closing scene)); try done; [exact (ok_admissions _ _ Hok)|].
    destruct H4 as [->|(E1 & E2 & E3)]; [by left|right; left]. rewrite E1, E3. done.
Qed.

Lemma admissions_ok_begin w w' s scene scene' token :
  admissions_ok w -> scenes w !! s = Some scene -> begin_admission scene = Some (scene', token) ->
  scenes w' = <[s := scene']> (scenes w) -> admissions w' = admissions w ++ [mkTxn s token None] ->
  admissions_ok w'.
Proof.
  intros [H1 H2] Hs Hb Es Ea. unfold begin_admission in Hb. destruct (scene_phase scene) eqn:Ep; try done.
  injection Hb as <- <-. set (scene' := mkScene _ _ _ _ _) in *. specialize (H1 s scene Hs) as Hz. rewrite Ep in Hz.
  unfold admissions_ok. rewrite Es, Ea. split.
  - intros s' sc Hs'. rewrite sum_with_app, sum_with_cons. change (sum_with (txn_of s') []) with 0. unfold txn_of at 2 4 6 8 10. cbn [txn_scene].
    destruct (decide (s' = s)) as [->|Hne].
    + rewrite list_lookup_insert_eq in Hs' by by eapply lookup_lt_Some. injection Hs' as <-. rewrite decide_True by done. cbn. lia.
    + rewrite list_lookup_insert_ne in Hs' by done. rewrite decide_False by done. specialize (H1 s' sc Hs').
      destruct (scene_phase sc); lia.
  - intros k txn Hk. apply lookup_app_Some in Hk as [Hk|[_ Hk]].
    + destruct (H2 k txn Hk) as (sc & Hsc & Hrest). exists sc. rewrite list_lookup_insert_ne; [done|].
      intros E. by apply (no_admission w s k txn Hz Hk).
    + apply list_lookup_singleton_Some in Hk as [_ <-]. exists scene'. cbn [txn_scene txn_token txn_prepared].
      rewrite list_lookup_insert_eq by by eapply lookup_lt_Some. split; [done|]. split; [by left|done].
Qed.

Lemma admissions_ok_end w w' k txn scene scene' :
  admissions_ok w -> admissions w !! k = Some txn -> scenes w !! txn_scene txn = Some scene ->
  scenes w' = <[txn_scene txn := scene']> (scenes w) -> admissions w' = delete k (admissions w) ->
  (scene_phase scene' = Scene_Open \/ scene_phase scene' = Scene_Closing) ->
  admissions_ok w'.
Proof.
  intros [H1 H2] Hk Hs Es Ea Hph. destruct (H2 k txn Hk) as (sc0 & Hsc0 & Hphase & _). rewrite Hs in Hsc0. injection Hsc0 as <-.
  assert (Hz : sum_with (txn_of (txn_scene txn)) (delete k (admissions w)) = 0).
  { rewrite (sum_with_delete _ _ _ _ Hk). specialize (H1 _ scene Hs). unfold txn_of at 2. rewrite decide_True by done.
    destruct Hphase as [Ep|Ep]; rewrite Ep in H1; lia. }
  unfold admissions_ok. rewrite Es, Ea. split.
  - intros s' sc Hs'. destruct (decide (s' = txn_scene txn)) as [->|Hne].
    + rewrite list_lookup_insert_eq in Hs' by by eapply lookup_lt_Some. injection Hs' as <-. by destruct Hph as [-> | ->].
    + rewrite list_lookup_insert_ne in Hs' by done. rewrite (sum_with_delete _ _ _ _ Hk). unfold txn_of at 2 4 6 8 10.
      rewrite decide_False by done. specialize (H1 s' sc Hs'). destruct (scene_phase sc); lia.
  - intros k' txn' Hk'.
    assert (Hne : txn_scene txn' <> txn_scene txn).
    { intros E. pose proof (sum_with_ge (txn_of (txn_scene txn)) _ _ _ (txn_of_nonneg _) Hk') as Hge. unfold txn_of at 1 in Hge.
      rewrite decide_True in Hge by done. lia. }
    assert (Hin : exists k2, admissions w !! k2 = Some txn').
    { apply list_elem_of_lookup_2 in Hk'. apply list_elem_of_lookup_1. by eapply list_elem_of_delete_inv. }
    destruct Hin as (k2 & Hk2). destruct (H2 k2 txn' Hk2) as (sc & Hsc & Hrest). exists sc. by rewrite list_lookup_insert_ne.
Qed.

Lemma commit_spec scene token next o scene' cancelled :
  scene_commit scene token next o = Some (scene', cancelled) ->
  scene_operations scene' = scene_operations scene ++ [o] /\ scene_name scene' = scene_name scene /\ scene_counter scene' = next /\
  (scene_phase scene = Scene_Admitting token /\ scene_phase scene' = Scene_Open /\ cancelled = [] \/
   scene_phase scene = Scene_ClosePending token /\ scene_phase scene' = Scene_Closing /\ cancelled = scene_operations scene').
Proof.
  unfold scene_commit. destruct (scene_phase scene) as [|t|t| |]; try done; (destruct (Z.eqb_spec t token) as [->|]; [|done]);
    intros [= <- <-]; split_and!; try done; [left|right]; done.
Qed.

Lemma commit_some scene token next o :
  scene_phase scene = Scene_Admitting token \/ scene_phase scene = Scene_ClosePending token ->
  exists scene' cancelled, scene_commit scene token next o = Some (scene', cancelled).
Proof. intros [Ep|Ep]; unfold scene_commit; rewrite Ep, Z.eqb_refl; by eexists _, _. Qed.

(** Committing an admission adds an operation on its way to the mailbox. *)
Lemma commit_cue_ok calm w k txn a mb next cue scene scene' cancelled :
  cues_ok calm w -> admissions w !! k = Some txn -> actors w !! a = Some (Some mb) ->
  scenes w !! txn_scene txn = Some scene ->
  scene_commit scene (txn_token txn) next (length (operations w)) = Some (scene', cancelled) ->
  cues_ok calm
    (push (mkWorld (operations w ++ [new_runtime (txn_scene txn) a cue]) (actors w) (<[txn_scene txn := scene']> (scenes w))
             (delete k (admissions w)) (items w) (resolved w) (enqueued w) (launched w))
       [CancelAll cancelled (Some (length (operations w)))]).
Proof.
  intros Hok Hk Ha Hs Hcommit. destruct (commit_spec _ _ _ _ _ _ Hcommit) as (Hops & _ & _ & Hphase). clear Hcommit.
  set (o0 := length (operations w)) in *. set (new := new_runtime (txn_scene txn) a cue).
  set (its := [CancelAll cancelled (Some o0)]). set (w' := push _ its).
  assert (Hlook : forall o op, operations w' !! o = Some op -> (o = o0 /\ op = new) \/ ((o < o0)%nat /\ operations w !! o = Some op)).
  { intros o op Ho. cbn in Ho. apply lookup_app_Some in Ho as [Ho|[Hge Ho]]; [right; split; [by eapply lookup_lt_Some|done]|left].
    apply list_lookup_singleton_Some in Ho as [E <-]. split; [|done]. unfold o0. lia. }
  assert (Hnew : operations w' !! o0 = Some new) by (cbn; apply list_lookup_middle; done).
  assert (Hold : forall o op, operations w !! o = Some op -> operations w' !! o = Some op) by (intros o op Ho; cbn; by apply lookup_app_l_Some).
  assert (Hpend : forall (f : nat -> Item -> Z) o, f o (CancelAll cancelled (Some o0)) = 0 -> pend (f o) w' = pend (f o) w).
  { intros f o Hf. unfold w', its. rewrite pend_push. unfold pend. cbn [items]. rewrite sum_with_cons, Hf. cbn. lia. }
  assert (Hreg : forall o op, o <> o0 -> registered w' o op = registered w o op).
  { intros o op Hne. unfold registered, w', push. cbn [scenes set_items]. destruct (decide (op_scene op = txn_scene txn)) as [->|Hsne].
    - rewrite list_lookup_insert_eq by by eapply lookup_lt_Some. rewrite Hs, Hops, count_app, count_cons, count_nil, eqz_other by done. lia.
    - by rewrite list_lookup_insert_ne. }
  destruct (ok_fresh _ _ Hok o0) as (Hf0 & Hf1 & Hf2 & Hf3); [done|]. pose proof (fresh_places w o0 Hf0) as (F1 & F2 & F3 & F4 & F5 & F6).
  assert (Hs0 : count o0 (scene_operations scene) = 0).
  { pose proof (count_nonneg o0 (scene_operations scene)). destruct (decide (0 < count o0 (scene_operations scene))) as [Hp|]; [|lia].
    apply (scene_members w calm _ scene o0 Hok Hs) in Hp. unfold o0 in Hp. lia. }
  assert (Hm0 : in_queue o0 mb = 0 /\ is_running o0 mb = 0).
  { destruct (ok_actors _ _ Hok a mb Ha) as [_ Hm]. pose proof (count_nonneg o0 (queue mb)). pose proof (opt_eq_range o0 (running mb)).
    unfold in_queue, is_running in *. destruct (decide (0 < count o0 (queue mb) + opt_eq o0 (running mb))) as [Hp|]; [|lia].
    destruct (Hm o0 Hp) as (op & Ho & _). apply lookup_lt_Some in Ho. unfold o0 in Ho. lia. }
  pose proof (ok_admissions _ _ Hok) as Hadm.
  split.
  - intros o op Ho. destruct (Hlook o op Ho) as [[-> ->]|[Hlt Ho']].
    + unfold placed, new, new_runtime. cbn [op_phase op_cue op_intent]. unfold place.
      cbn [p_reg p_enq p_disp p_comp p_dereg p_sig p_res p_mailbox p_launched].
      rewrite !(Hpend disp_of), !(Hpend comp_of), !(Hpend dereg_of), !(Hpend sig_of), F2, F3, F4, F5 by done.
      assert (E1 : pend (enq_of o0) w' = 1).
      { unfold w', its. rewrite pend_push. change (pend (enq_of o0) w + (opt_eq o0 (Some o0) + 0) = 1). rewrite F1. cbn [opt_eq]. rewrite eqz_same. lia. }
      rewrite E1. change (resolved w') with (resolved w). change (launched w') with (launched w). rewrite Hf1, Hf2.
      assert (E2 : registered w' o0 (new_runtime (txn_scene txn) a cue) = 1).
      { unfold registered, w', push. cbn [scenes set_items op_scene new_runtime].
        rewrite list_lookup_insert_eq by by eapply lookup_lt_Some. rewrite Hops, count_app, count_cons, count_nil, eqz_same. lia. }
      unfold new_runtime in E2. rewrite E2.
      assert (E3 : mailbox_of w' (mkOp (txn_scene txn) a Op_Queued None (Some cue) true) = Some mb).
      { unfold mailbox_of. cbn [op_actor]. change (actors w') with (actors w). by rewrite Ha. }
      rewrite E3. cbn [mbind option_bind]. destruct Hm0 as [-> ->]. split_and!; done.
    + pose proof (ok_placed _ _ Hok o op Ho') as Hpl. assert (Hne : o <> o0) by lia. unfold place in *.
      rewrite (Hpend enq_of), (Hpend disp_of), (Hpend comp_of), (Hpend dereg_of), (Hpend sig_of), Hreg; [exact Hpl|done..|].
      cbn [enq_of opt_eq]. by apply eqz_other.
  - intros o op Ho. change (actors w') with (actors w). cbn [scenes w' push set_items]. rewrite length_insert.
    destruct (Hlook o op Ho) as [[-> ->]|[Hlt Ho']]; [|by apply (ok_refs _ _ Hok o)]. cbn. split; by eapply lookup_lt_Some.
  - intros o Hle. cbn [operations w' push set_items] in Hle. rewrite length_app in Hle. cbn in Hle.
    assert (Hne : o <> o0) by (unfold o0; lia). destruct (ok_fresh _ _ Hok o) as (H1 & H2 & H3 & H4); [lia|].
    split; [|done]. rewrite (Hpend touches); [done|]. unfold touches. cbn [enq_of disp_of comp_of dereg_of sig_of can_of attach_of opt_eq].
    rewrite eqz_other by done. destruct Hphase as [(_ & _ & ->)|(_ & _ & ->)]; [by rewrite count_nil|].
    rewrite Hops, count_app, count_cons, count_nil, eqz_other by done. pose proof (count_nonneg o (scene_operations scene)).
    destruct (decide (0 < count o (scene_operations scene))) as [Hp|]; [|lia].
    apply (scene_members w calm _ scene o Hok Hs) in Hp. lia.
  - intros a' mb' Ha'. change (actors w') with (actors w) in Ha'. destruct (ok_actors _ _ Hok a' mb' Ha') as [Hn Hm]. split; [done|].
    intros o Hp. destruct (Hm o Hp) as (op & Ho & E). exists op. split; [by apply Hold|done].
  - intros s sc Hsc. cbn [scenes w' push set_items] in Hsc. destruct (decide (s = txn_scene txn)) as [->|Hne].
    + rewrite list_lookup_insert_eq in Hsc by by eapply lookup_lt_Some. injection Hsc as <-. split.
      * intros o Hp. rewrite Hops, count_app, count_cons, count_nil in Hp. destruct (decide (o = o0)) as [->|Hne]; [by exists new|].
        rewrite eqz_other in Hp by done. destruct (ok_scenes _ _ Hok _ scene Hs) as [Hm _]. destruct (Hm o) as (op & Ho & E); [lia|].
        exists op. split; [by apply Hold|done].
      * destruct Hphase as [(_ & -> & _)|(_ & -> & Hc)]; [done|]. intros o op Ho Hp. right. unfold w', its. rewrite pend_push.
        rewrite sum_with_cons. change (sum_with (can_of o) []) with 0. cbn [can_of]. rewrite Hc.
        assert (0 <= pend (can_of o) (mkWorld (operations w ++ [new]) (actors w) (<[txn_scene txn := scene']> (scenes w))
             (delete k (admissions w)) (items w) (resolved w) (enqueued w) (launched w))) by (apply pend_nonneg; intros it; apply (counts_range o it)).
        lia.
    + rewrite list_lookup_insert_ne in Hsc by done. destruct (ok_scenes _ _ Hok s sc Hsc) as [Hm Hc]. split.
      * intros o Hp. destruct (Hm o Hp) as (op & Ho & E). exists op. split; [by apply Hold|done].
      * destruct (scene_phase sc); try done. intros o op Ho Hp. destruct (Hm o Hp) as (op2 & Ho2 & _).
        pose proof (Hold o op2 Ho2) as Ho3. rewrite Ho in Ho3. injection Ho3 as <-. destruct (Hc o op Ho2 Hp) as [|Hx]; [by left|right].
        unfold w', its. rewrite pend_push. unfold pend in *. cbn [items]. rewrite sum_with_cons. pose proof (counts_range o (CancelAll cancelled (Some o0))).
        change (sum_with (can_of o) []) with 0. lia.
  - apply (admissions_ok_end w w' k txn scene scene' Hadm Hk Hs); [done..|].
    destruct Hphase as [(_ & -> & _)|(_ & -> & _)]; [by left|by right].
Qed.

(** ** Every step keeps the invariant *)

(** An operation that is cancelled between its claim and the start of its
    task. *)
Definition cancels_claimed (w : World) (o : nat) : Prop :=
  exists op, operations w !! o = Some op /\ op_phase op = Op_Queued /\ pend (disp_of o) w <> 0.

Definition cancels (w : World) (action : Action) : option nat :=
  match action with
  | CancelCue o => Some o
  | Advance k _ => match items w !! k with Some (CancelAll (o :: _) _) => Some o | _ => None end
  | _ => None
  end.

Definition calm_action (w : World) (action : Action) : Prop :=
  forall o, cancels w action = Some o -> ~ cancels_claimed w o.

(** An operation is dispatched that has ended already. *)
Definition dispatches_ended (w : World) (action : Action) : Prop :=
  exists k raised item o after op, action = Advance k raised /\ items w !! k = Some item /\ dispatching item o after /\
    operations w !! o = Some op /\ is_terminal op = true.

(** The items mention operations. *)
Lemma item_mentions calm w k item o :
  cues_ok calm w -> items w !! k = Some item -> 0 < touches o item -> exists op, operations w !! o = Some op.
Proof.
  intros Hok Hk Ht. destruct (decide (o < length (operations w))%nat) as [Hlt|Hge]; [by apply lookup_lt_is_Some_2|exfalso].
  destruct (ok_fresh _ _ Hok o) as (Hz & _); [lia|].
  pose proof (sum_with_ge (touches o) _ _ _ (touches_nonneg o) Hk). unfold pend in Hz. lia.
Qed.

Lemma touches_own o item :
  match item with
  | Enqueue o' | DispatchCue o' _ | Launch o' _ | Attach o' _ | CancelTask o' | Complete o' _ | Deregister o' _ | Resolve o' => o' = o
  | CancelAll l _ => o ∈ l
  end -> 0 < touches o item.
Proof.
  intros E. pose proof (counts_range o item). unfold touches.
  destruct item as [o'|o' after|o' after|o' after|o'|o' cc|o' next|o'|l enqueue]; try subst o';
    cbn [enq_of disp_of comp_of dereg_of sig_of can_of attach_of] in *; rewrite ?eqz_same in *; try lia.
  apply count_pos in E. lia.
Qed.

Lemma advance_ok calm w k item raised :
  cues_ok calm w -> items w !! k = Some item -> (calm -> calm_action w (Advance k raised)) ->
  match advance (set_items w (delete k (items w))) item raised with
  | Some w' => cues_ok calm w'
  | None => dispatches_ended w (Advance k raised) /\ (calm -> False)
  end.
Proof.
  intros Hok Hk Hcalm. set (w0 := set_items w (delete k (items w))).
  assert (Hw : cues_ok calm (set_items w0 (item :: items w0))).
  { assert (E : set_items w0 (item :: items w0) = set_items w (item :: delete k (items w))) by done. rewrite E.
    apply cues_ok_perm; [by apply delete_Permutation|done]. }
  assert (Hop : forall o, 0 < touches o item -> exists op, operations w0 !! o = Some op) by (intros o; by apply (item_mentions calm w k)).
  destruct item as [o|o after|o after|o after|o|o cc|o next|o|[|o rest] enqueue]; cbn [advance];
    try (destruct (Hop o) as [op Ho]; [by apply touches_own|]; rewrite Ho; cbn [mbind option_bind]).
  - by destruct (enqueue_ok calm w0 o op Hw Ho) as (w' & -> & Hw').
  - pose proof (dispatch_cue_ok calm w0 o op after raised Hw Ho) as Hd. destruct (dispatch_cue _ _ _ _ _); [done|].
    destruct Hd as [Hterm Hc]. split; [|done]. exists k, raised, (DispatchCue o after), o, after, op. split_and!; try done. by left.
  - pose proof (launch_ok calm w0 o op after raised Hw Ho) as Hd. destruct (launch _ _ _ _ _); [done|].
    destruct Hd as [Hterm Hc]. split; [|done]. exists k, raised, (Launch o after), o, after, op. split_and!; try done. by right.
  - by apply attach_ok.
  - by apply cancel_task_ok.
  - by apply complete_cue_ok.
  - by apply deregister_ok.
  - destruct (Hop o) as [op Ho]; [by apply touches_own|]. destruct (resolve_ok calm w0 o op Hw Ho) as [-> Hw']. done.
  - by apply cancel_all_end_ok.
  - destruct (Hop o) as [op Ho]; [apply touches_own; left|]. rewrite Ho. cbn [mbind option_bind].
    apply (cancel_cue_ok calm w0 o op (Some (rest, enqueue))); try done. intros Hc Ep.
    destruct (decide (pend (disp_of o) w0 = 0)) as [|Hne]; [done|exfalso]. apply (Hcalm Hc o); [cbn; by rewrite Hk|].
    exists op. split_and!; try done. intros Hz. apply Hne. unfold pend in *. cbn [items w0 set_items].
    rewrite (sum_with_delete _ _ _ _ Hk), Hz. cbn [disp_of]. lia.
Qed.

Lemma admission_ends_ok calm w k txn scene :
  cues_ok calm w -> admissions w !! k = Some txn -> scenes w !! txn_scene txn = Some scene ->
  cues_ok calm (cancel_operations (set_admissions w (delete k (admissions w))) (txn_scene txn) (rollback_admission scene (txn_token txn))).
Proof.
  intros Hok Hk Hs. pose proof (ok_admissions _ _ Hok) as Hadm. destruct Hadm as [Hadm1 Hadm2].
  destruct (Hadm2 k txn Hk) as (sc & Hsc & Hph & _). rewrite Hs in Hsc. injection Hsc as <-.
  unfold cancel_operations, rollback_admission. destruct Hph as [Ep|Ep]; rewrite Ep, Z.eqb_refl; cbn [fst snd].
  - apply (close_phase_ok calm w (txn_scene txn) scene (with_scene_phase scene Scene_Open)); try done.
    + right. exists []. split; [done|]. intros o Hp. by rewrite count_nil in Hp.
    + apply (admissions_ok_end w _ k txn scene (with_scene_phase scene Scene_Open)); try done. by left.
  - apply (close_phase_ok calm w (txn_scene txn) scene (with_scene_phase scene Scene_Closing)); try done.
    + right. exists (scene_operations scene). split; [done|]. intros o Hp. by apply (scene_members w calm _ scene o Hok Hs).
    + cbn [scene_phase with_scene_phase]. intros o op Ho Hp. right.
      change (0 < pend (can_of o) w + (count o (scene_operations scene) + 0)).
      assert (0 <= pend (can_of o) w) by (apply pend_nonneg; intros it; apply (counts_range o it)). lia.
    + apply (admissions_ok_end w _ k txn scene (with_scene_phase scene Scene_Closing)); try done. by right.
Qed.

Lemma scene_begin_ok calm w s scene scene' token :
  cues_ok calm w -> scenes w !! s = Some scene -> begin_admission scene = Some (scene', token) ->
  cues_ok calm (set_admissions (set_scene w s scene') (admissions w ++ [mkTxn s token None])).
Proof.
  intros Hok Hs Hb. rewrite <- (push_nil (set_admissions _ _)). pose proof (ok_admissions _ _ Hok) as Hadm.
  assert (Hsc : scene_operations scene' = scene_operations scene /\ scene_phase scene' = Scene_Admitting token).
  { unfold begin_admission in Hb. destruct (scene_phase scene); try done. by injection Hb as <- <-. }
  destruct Hsc as [Hops Hph]. apply (close_phase_ok calm w s scene scene'); try done.
  - by left.
  - by rewrite Hph.
  - by apply (admissions_ok_begin w _ s scene scene' token).
Qed.

(** ** Actors, scenes and admissions come and go *)

(** A world that differs in its actors, or has more scenes. *)
Lemma cues_ok_frame calm w w' :
  cues_ok calm w -> operations w' = operations w -> items w' = items w -> resolved w' = resolved w ->
  launched w' = launched w -> enqueued w' = enqueued w -> (length (actors w) <= length (actors w'))%nat ->
  (forall s scene, scenes w !! s = Some scene -> scenes w' !! s = Some scene) ->
  (forall o op, operations w !! o = Some op -> placed calm op (place w o op) -> placed calm op (place w' o op)) ->
  (forall a mb, actors w' !! a = Some (Some mb) -> actors w !! a = Some (Some mb) \/ mb = Mailbox_default) ->
  (forall s scene, scenes w' !! s = Some scene -> scenes w !! s = Some scene \/ exists name, scene = SceneScope_new name) ->
  admissions_ok w' ->
  cues_ok calm w'.
Proof.
  intros Hok Eo Ei Er El Ee Hla Hold Hpl Hact Hsc Hadm. split; [| | | | |done].
  - intros o op Ho. rewrite Eo in Ho. apply Hpl; [done|]. by apply (ok_placed _ _ Hok).
  - intros o op Ho. rewrite Eo in Ho. destruct (ok_refs _ _ Hok o op Ho) as [H1 H2]. split; [|lia].
    apply lookup_lt_is_Some_2 in H1 as [scene Hs]. apply Hold in Hs. by eapply lookup_lt_Some.
  - intros o Ho. unfold pend. rewrite Ei, Er, El, Ee. apply (ok_fresh _ _ Hok). by rewrite <- Eo.
  - intros a mb Ha. unfold actor_ok. rewrite Eo. destruct (Hact a mb Ha) as [Ha'| ->]; [by apply (ok_actors _ _ Hok a)|].
    split; [done|]. intros o Hp. cbn in Hp. lia.
  - intros s scene Hs. unfold scene_ok, pend. rewrite Eo, Ei. destruct (Hsc s scene Hs) as [Hs'|[name ->]]; [by apply (ok_scenes _ _ Hok s)|].
    split; [|done]. intros o Hp. cbn in Hp. lia.
Qed.

Lemma admissions_same w w' : admissions_ok w -> scenes w' = scenes w -> admissions w' = admissions w -> admissions_ok w'.
Proof. unfold admissions_ok. by intros Hadm -> ->. Qed.

Lemma new_actor_ok calm w :
  cues_ok calm w ->
  cues_ok calm (mkWorld (operations w) (actors w ++ [Some Mailbox_default]) (scenes w) (admissions w) (items w)
                  (resolved w) (enqueued w) (launched w)).
Proof.
  intros Hok. set (w' := mkWorld _ _ _ _ _ _ _ _).
  apply (cues_ok_frame calm w w' Hok); try done.
  - cbn [w' actors]. rewrite length_app. lia.
  - intros o op Ho Hpl. assert (E : mailbox_of w' op = mailbox_of w op).
    { unfold mailbox_of. cbn [w' actors]. by rewrite lookup_app_l by by apply (ok_refs _ _ Hok o). }
    unfold place in *. rewrite E. exact Hpl.
  - intros a mb Ha. cbn [w' actors] in Ha. apply lookup_app_Some in Ha as [Ha|[_ Ha]]; [by left|right].
    apply list_lookup_singleton_Some in Ha as [_ Ha]. congruence.
  - intros s scene Hs. by left.
  - exact (ok_admissions _ _ Hok).
Qed.

Lemma new_scene_ok calm w name :
  cues_ok calm w ->
  cues_ok calm (mkWorld (operations w) (actors w) (scenes w ++ [SceneScope_new name]) (admissions w) (items w)
                  (resolved w) (enqueued w) (launched w)).
Proof.
  intros Hok. set (w' := mkWorld _ _ _ _ _ _ _ _). destruct (ok_admissions _ _ Hok) as [H1 H2].
  assert (Hold : forall s scene, scenes w !! s = Some scene -> scenes w' !! s = Some scene) by (intros s scene Hs; by apply lookup_app_l_Some).
  assert (Hnew : forall s scene, scenes w' !! s = Some scene -> scenes w !! s = Some scene \/ (s = length (scenes w) /\ scene = SceneScope_new name)).
  { intros s scene Hs. cbn [w' scenes] in Hs. apply lookup_app_Some in Hs as [Hs|[Hge Hs]]; [by left|right].
    apply list_lookup_singleton_Some in Hs as [E <-]. split; [lia|done]. }
  apply (cues_ok_frame calm w w' Hok); try done.
  - intros o op Ho Hpl. assert (E : registered w' o op = registered w o op).
    { unfold registered. cbn [w' scenes]. by rewrite lookup_app_l by by apply (ok_refs _ _ Hok o). }
    unfold place in *. rewrite E. exact Hpl.
  - intros a mb Ha. by left.
  - intros s scene Hs. destruct (Hnew s scene Hs) as [Hs'|[_ ->]]; [by left|right; by exists name].
  - split.
    + intros s scene Hs. change (admissions w') with (admissions w). destruct (Hnew s scene Hs) as [Hs'|[-> ->]]; [by apply H1|].
      cbn [scene_phase SceneScope_new]. assert (Hz : forall l, (forall txn, txn ∈ l -> txn_scene txn <> length (scenes w)) -> sum_with (txn_of (length (scenes w))) l = 0).
      { induction l as [|txn l IH]; [done|]. intros Hl. rewrite sum_with_cons, IH; [|intros t Ht; apply Hl; by right].
        unfold txn_of. rewrite decide_False; [done|]. apply Hl. left. }
      apply Hz. intros txn Hin Heq. apply list_elem_of_lookup in Hin as [k Hk]. destruct (H2 k txn Hk) as (sc & Hsc & _).
      apply lookup_lt_Some in Hsc. lia.
    + intros k txn Hk. destruct (H2 k txn Hk) as (sc & Hsc & Hrest). exists sc. split; [by apply Hold|done].
Qed.

(** The items of an operation keep its actor. *)
Lemma in_use_items o item : item_operations item = [] \/ o ∉ item_operations item -> enq_of o item = 0 /\ disp_of o item = 0.
Proof.
  assert (Hx : forall x, o <> x -> eqz o x = 0) by (intros x; apply eqz_other).
  destruct item as [x|x after|x after|x after|x|x cc|x next|x|l enqueue]; cbn [item_operations enq_of disp_of];
    (intros [Hn|Hn]; [try done|]); try (rewrite list_elem_of_singleton in Hn; by rewrite ?Hx); try done.
  - destruct next as [n|]; [|done]. cbn [opt_eq]. rewrite !not_elem_of_cons in Hn. by rewrite Hx by apply Hn.
  - by destruct enqueue.
  - destruct enqueue as [n|]; [|done]. rewrite list_elem_of_singleton in Hn. cbn [opt_eq]. by rewrite Hx.
Qed.

Lemma sum_with_zero {A} (f : A -> Z) l : (forall a, a ∈ l -> f a = 0) -> sum_with f l = 0.
Proof.
  induction l as [|a l IH]; [done|]. intros Hl. rewrite sum_with_cons, IH by (intros b Hb; apply Hl; by right).
  by rewrite Hl by left.
Qed.

Lemma not_in_use w a o op :
  actor_in_use w a = false -> operations w !! o = Some op -> op_actor op = a ->
  pend (enq_of o) w = 0 /\ pend (disp_of o) w = 0.
Proof.
  intros Hu Ho Ha. assert (Hit : forall item, item ∈ items w -> enq_of o item = 0 /\ disp_of o item = 0).
  { intros item Hin. apply in_use_items. right. intros Hino. apply not_true_iff_false in Hu. apply Hu.
    apply existsb_exists. exists item. split; [by apply list_elem_of_In|]. apply existsb_exists. exists o. split; [by apply list_elem_of_In|].
    rewrite Ho. by apply Nat.eqb_eq. }
  split; apply sum_with_zero; intros item Hin; by apply Hit.
Qed.

Lemma drop_actor_ok calm w a : cues_ok calm w -> actor_in_use w a = false -> cues_ok calm (set_actor w a None).
Proof.
  intros Hok Hu. apply (cues_ok_frame calm w (set_actor w a None) Hok); try done.
  - cbn [set_actor actors]. by rewrite length_insert.
  - intros o op Ho Hpl. destruct (decide (op_actor op = a)) as [Ha|Ha].
    + destruct (not_in_use w a o op Hu Ho Ha) as [He Hd]. destruct (ok_refs _ _ Hok o op Ho) as [_ Hlt].
      assert (E : mailbox_of (set_actor w a None) op = None).
      { unfold mailbox_of. cbn [set_actor actors]. rewrite <- Ha. by rewrite list_lookup_insert_eq. }
      unfold placed, place in *. rewrite E. cbn [p_reg p_enq p_disp p_comp p_dereg p_sig p_res p_mailbox p_launched mbind option_bind] in *.
      unfold pend in *. cbn [set_actor items]. destruct (op_phase op); destruct_and?; split_and!; done.
    + assert (E : mailbox_of (set_actor w a None) op = mailbox_of w op).
      { unfold mailbox_of. cbn [set_actor actors]. by rewrite list_lookup_insert_ne by congruence. }
      unfold place in *. rewrite E. exact Hpl.
  - intros a' mb Ha. cbn [set_actor actors] in Ha. left. destruct (decide (a' = a)) as [->|Hne].
    + apply list_lookup_insert_Some in Ha as [(_ & E & _)|(E & _)]; done.
    + by rewrite list_lookup_insert_ne in Ha.
  - intros s scene Hs. by left.
  - exact (ok_admissions _ _ Hok).
Qed.

Lemma prepare_ok calm w k txn scene prepared :
  cues_ok calm w -> admissions w !! k = Some txn -> scenes w !! txn_scene txn = Some scene -> prepare scene = Some prepared ->
  cues_ok calm (set_admissions w (<[k := mkTxn (txn_scene txn) (txn_token txn) (Some prepared)]> (admissions w))).
Proof.
  intros Hok Hk Hs Hp. apply (cues_ok_frame calm w (set_admissions w _) Hok); try done.
  - intros a mb Ha. by left.
  - intros s sc Hsc. by left.
  - destruct (ok_admissions _ _ Hok) as [H1 H2]. unfold admissions_ok. cbn [scenes admissions set_admissions]. split.
    + intros s sc Hsc. rewrite (sum_with_insert _ _ _ _ _ Hk). change (txn_of s (mkTxn _ _ _)) with (txn_of s txn).
      specialize (H1 s sc Hsc). destruct (scene_phase sc); lia.
    + intros k' txn' Hk'. apply list_lookup_insert_Some in Hk' as [(<- & <- & _)|(_ & Hk')]; [|by apply (H2 k')].
      cbn [txn_scene txn_token txn_prepared]. destruct (H2 k txn Hk) as (sc & Hsc & Hph & _). rewrite Hs in Hsc. injection Hsc as <-.
      by exists scene.
Qed.

(** ** Every step *)

Lemma cue_step_ok calm w action :
  cues_ok calm w -> (calm -> calm_action w action) ->
  match step w action with
  | Some w' => cues_ok calm w'
  | None => dispatches_ended w action /\ (calm -> False)
  end.
Proof.
  intros Hok Hcalm. pose proof (ok_admissions _ _ Hok) as [_ Htxn].
  destruct action as [|a|name|s|k|k|k a|s|s|o|o r|k raised]; cbn [step].
  - by apply new_actor_ok.
  - destruct (actor_in_use w a) eqn:Hu; [done|]. by apply drop_actor_ok.
  - by apply new_scene_ok.
  - destruct (scenes w !! s) as [scene|] eqn:Hs; [|done]. destruct (begin_admission scene) as [[scene' token]|] eqn:Hb; [|done].
    by apply (scene_begin_ok calm w s scene scene' token).
  - destruct (admissions w !! k) as [txn|] eqn:Hk; [|done]. destruct (txn_prepared txn); [done|].
    destruct (Htxn k txn Hk) as (scene & Hs & _). rewrite Hs. cbn [mbind option_bind].
    destruct (prepare_cue_spec scene) as (id & _ & Hp). rewrite Hp. cbn [mbind option_bind]. by apply (prepare_ok calm w k txn scene).
  - destruct (admissions w !! k) as [txn|] eqn:Hk; [|done]. destruct (Htxn k txn Hk) as (scene & Hs & _). rewrite Hs.
    cbn [mbind option_bind]. by apply (admission_ends_ok calm w k txn scene).
  - destruct (admissions w !! k) as [txn|] eqn:Hk; [|done]. destruct (actors w !! a) as [[mb|]|] eqn:Ha; cbn [mjoin option_join]; try done.
    destruct (txn_prepared txn) as [[next cue]|]; [|done]. destruct (Htxn k txn Hk) as (scene & Hs & Hph & _). rewrite Hs.
    cbn [mbind option_bind]. destruct (commit_some scene _ next (length (operations w)) Hph) as (scene' & cancelled & Hc). rewrite Hc.
    cbn [mbind option_bind]. by apply (commit_cue_ok calm w k txn a mb next cue scene scene' cancelled).
  - destruct (scenes w !! s) as [scene|] eqn:Hs; [|done]. by apply close_scene_ok.
  - destruct (scenes w !! s) as [scene|] eqn:Hs; [|done]. by apply wait_closed_ok.
  - destruct (operations w !! o) as [op|] eqn:Ho; [|done]. rewrite <- (push_nil (cancel_cue w o op)).
    apply (cancel_cue_ok calm w o op None); [by apply cues_ok_idle|done|]. intros Hc Ep. destruct (decide (pend (disp_of o) w = 0)) as [|Hne]; [done|exfalso].
    apply (Hcalm Hc o); [done|]. by exists op.
  - destruct (operations w !! o) as [op|] eqn:Ho; [|done].
    assert (Hrun : op_phase op = Op_Running \/ op_phase op = Op_CancellingRunning ->
      match transition_from_result op r with
      | Some (op', Some close_cued) => cues_ok calm (push (set_op w o op') [Complete o close_cued])
      | _ => False
      end).
    { intros Hph. destruct (task_done_ok calm w o op r Hok Ho Hph) as (op' & cc & -> & Hok'). exact Hok'. }
    destruct (op_phase op); try done;
      (destruct (transition_from_result op r) as [[op' [cc|]]|]; cbn [mbind option_bind]; first [apply Hrun; by auto | exfalso; apply Hrun; by auto]).
  - destruct (items w !! k) as [item|] eqn:Hk; [|done]. by apply advance_ok.
Qed.

Lemma cues_ok_new calm : cues_ok calm World_new.
Proof.
  split; try (by intros ? ?); try done.
Qed.

Lemma reachable_cues_ok w : reachable w -> cues_ok False w.
Proof.
  induction 1 as [|w action w' _ IH Hstep]; [apply cues_ok_new|].
  pose proof (cue_step_ok False w action IH) as Hs. rewrite Hstep in Hs. by apply Hs.
Qed.

(** Runs in which no operation is cancelled between its claim and the start of
    its task. *)
Inductive calmly : World -> Prop :=
| calmly_new : calmly World_new
| calmly_step w action w' : calmly w -> calm_action w action -> step w action = Some w' -> calmly w'.

Lemma calmly_ok w : calmly w -> cues_ok True w.
Proof.
  induction 1 as [|w action w' _ IH Hcalm Hstep]; [apply cues_ok_new|].
  pose proof (cue_step_ok True w action IH) as Hs. rewrite Hstep in Hs. by apply Hs.
Qed.

End Invariant.
