(* ===== verification/CueCorrect.v ===== *)
(** * What the cues of a production are promised

    An actor runs its cues one at a time, in the order in which they were
    enqueued; the signal of a cue is resolved once, after its last trace was
    removed; a scene is closed when nothing of it is left; and nothing is
    forgotten: when no call is in progress, a cue that has not ended runs or waits
    behind one that runs, and the cues of a production drain. *)

From S2P Require Import Prelude Wire CueScope CueIds CueSystem CueSpec.

Section Correctness.
Context `{PyCues}.

Definition runs (op : CueOperation) : Prop :=
  match op_phase op with Op_Running | Op_CancellingRunning => True | _ => False end.

#[export] Instance runs_dec op : Decision (runs op).
Proof. unfold runs. destruct (op_phase op); apply _. Defined.

Lemma count_in o l : count o l = 0 <-> o ∉ l.
Proof. rewrite <- count_pos. pose proof (count_nonneg o l). lia. Qed.

Lemma opt_eq_pos o x : 0 < opt_eq o x <-> x = Some o.
Proof.
  destruct x as [y|]; cbn [opt_eq]; [|split; [lia|done]]. unfold eqz. case_decide; [subst; by split|]. split; [lia|congruence].
Qed.

Lemma count_le_NoDup l : (forall o, count o l <= 1) -> NoDup l.
Proof.
  induction l as [|x l IH]; intros Hle; [constructor|]. constructor.
  - apply count_in. specialize (Hle x). rewrite count_cons, eqz_same in Hle. pose proof (count_nonneg x l). lia.
  - apply IH. intros o. specialize (Hle o). rewrite count_cons in Hle. pose proof (eqz_range o x). lia.
Qed.

(** ** One at a time *)

(** A cue that runs is the one its mailbox runs. *)
Lemma runs_claimed w o op mb :
  cues_ok False w -> operations w !! o = Some op -> mailbox_of w op = Some mb -> runs op ->
  running mb = Some o /\ (o ∉ queue mb) /\ count o (launched w) = 1.
Proof.
  intros Hok Ho Hmb Hruns. pose proof (ok_placed _ _ Hok o op Ho) as Hpl. unfold placed, place, runs in *. rewrite Hmb in Hpl.
  cbn [mbind option_bind p_reg p_enq p_disp p_comp p_dereg p_sig p_res p_mailbox p_launched] in Hpl.
  rewrite <- opt_eq_pos, <- count_in. unfold in_queue, is_running in Hpl. destruct (op_phase op); try done; destruct_and?; split_and!; lia.
Qed.

(** C27: an actor runs one cue at a time: two operations of an actor that run are
    the same one, the mailbox of the actor holds it as the running one, it is not
    queued as well, and its task was created once. *)
Theorem actor_runs_one_cue w o1 op1 o2 op2 mb :
  reachable w -> operations w !! o1 = Some op1 -> operations w !! o2 = Some op2 ->
  op_actor op1 = op_actor op2 -> mailbox_of w op1 = Some mb -> runs op1 -> runs op2 ->
  o1 = o2 /\ running mb = Some o1 /\ (o1 ∉ queue mb) /\ count o1 (launched w) = 1.
Proof.
  intros Hr H1 H2 Ha Hmb Hr1 Hr2. apply reachable_cues_ok in Hr.
  destruct (runs_claimed w o1 op1 mb Hr H1 Hmb Hr1) as (E1 & E2 & E3).
  assert (Hmb2 : mailbox_of w op2 = Some mb) by (unfold mailbox_of in *; by rewrite <- Ha).
  destruct (runs_claimed w o2 op2 mb Hr H2 Hmb2 Hr2) as (E4 & _). split_and!; try done. congruence.
Qed.

(** ** Signals *)

(** No mailbox of a live actor, and no scene, holds the operation. *)
Definition unlinked (w : World) (o : nat) : Prop :=
  (forall a mb, actors w !! a = Some (Some mb) -> (o ∉ queue mb) /\ running mb <> Some o) /\
  (forall s scene, scenes w !! s = Some scene -> o ∉ scene_operations scene).

Lemma unlinked_of calm w o op :
  cues_ok calm w -> operations w !! o = Some op -> p_reg (place w o op) = 0 ->
  match p_mailbox (place w o op) with Some (q, r) => q = 0 /\ r = 0 | None => True end -> unlinked w o.
Proof.
  intros Hok Ho Hreg Hmb. split.
  - intros a mb Ha. destruct (decide (op_actor op = a)) as [<-|Hne].
    + apply mailbox_some in Ha. unfold place in Hmb. rewrite Ha in Hmb. cbn in Hmb. destruct Hmb as [Hq Hrn].
      rewrite <- count_in, <- opt_eq_pos. unfold in_queue, is_running in *. lia.
    + destruct (ok_actors _ _ Hok a mb Ha) as [_ Hm]. rewrite <- count_in, <- opt_eq_pos. unfold in_queue, is_running in Hm.
      pose proof (count_nonneg o (queue mb)). pose proof (opt_eq_range o (running mb)).
      destruct (decide (0 < count o (queue mb) + opt_eq o (running mb))) as [Hp|]; [|lia].
      destruct (Hm o Hp) as (op' & Ho' & E). congruence.
  - intros s scene Hs. destruct (decide (op_scene op = s)) as [<-|Hne].
    + cbn [place p_reg] in Hreg. unfold registered in Hreg. rewrite Hs in Hreg. by apply count_in.
    + destruct (ok_scenes _ _ Hok s scene Hs) as [Hm _]. intros Hin%count_pos. destruct (Hm o Hin) as (op' & Ho' & E). congruence.
Qed.

Lemma resolved_over w o :
  cues_ok False w -> o ∈ resolved w ->
  count o (resolved w) = 1 /\ exists op, operations w !! o = Some op /\ is_terminal op = true /\ unlinked w o.
Proof.
  intros Hok Hin. apply count_pos in Hin. destruct (operations w !! o) as [op|] eqn:Ho.
  2: { apply lookup_ge_None in Ho. destruct (ok_fresh _ _ Hok o Ho) as (_ & Hz & _). lia. }
  pose proof (ok_placed _ _ Hok o op Ho) as Hpl. pose proof (place_range w o op) as Hr.
  assert (Hp : p_res (place w o op) = count o (resolved w)) by done.
  pose proof (unlinked_of False w o op Hok Ho) as Hun. set (p := place w o op) in *. clearbody p. unfold placed, is_terminal in *.
  split; [destruct (op_phase op); destruct_and?; lia|]. exists op. split; [done|]. unfold is_terminal.
  destruct (op_phase op); destruct_and?; try lia. split; [done|]. apply Hun; [lia|].
  destruct (p_mailbox p) as [[q r]|]; [lia|done].
Qed.

(** C28: the signal of a cue is resolved at most once, and only when the cue has
    ended and neither its scene nor a mailbox holds it any more; whoever waits for
    the signal then gets a result. *)
Theorem signal_resolved_last w :
  reachable w -> NoDup (resolved w) /\
  forall o, o ∈ resolved w -> exists op, operations w !! o = Some op /\ unlinked w o /\
    forall caller_cancellation, exists result, result_for_caller op caller_cancellation = Some result.
Proof.
  intros Hr%reachable_cues_ok. split.
  - apply count_le_NoDup. intros o. destruct (decide (o ∈ resolved w)) as [Hin|Hin%count_in]; [|lia].
    apply resolved_over in Hin as [-> _]; [lia|done].
  - intros o Hin. destruct (resolved_over w o Hr Hin) as (_ & op & Ho & Ht & Hun). exists op. split_and!; try done.
    intros cc. unfold is_terminal, result_for_caller in *. destruct (op_phase op) as [| | |[v|e|e|e]]; try done; by eexists.
Qed.

(** ** Scenes *)

(** C29: a scene that closes has nothing alive that is not being cancelled, and a
    closed scene has nothing left: each of its operations has ended and is
    registered nowhere. *)
Theorem closed_scene_is_empty w s scene o op :
  reachable w -> scenes w !! s = Some scene -> operations w !! o = Some op -> op_scene op = s ->
  (scene_phase scene = Scene_Closing -> ~ cancelled_or_over op ->
     exists k rest enqueue, items w !! k = Some (CancelAll rest enqueue) /\ o ∈ rest) /\
  (scene_phase scene = Scene_Closed -> is_terminal op = true /\ unlinked w o).
Proof.
  intros Hr%reachable_cues_ok Hs Ho Hos. pose proof (ok_placed _ _ Hr o op Ho) as Hpl. pose proof (place_range w o op) as Hrg.
  assert (Hreg : p_reg (place w o op) = count o (scene_operations scene)) by (cbn [place p_reg]; unfold registered; by rewrite Hos, Hs).
  destruct (ok_scenes _ _ Hr s scene Hs) as [_ Hc]. split; intros Ep; rewrite Ep in Hc.
  - intros Hn. destruct (Hc o op Ho) as [Hx|Hx]; [|done|].
    + rewrite <- Hreg. set (p := place w o op) in *. clearbody p. unfold placed, cancelled_or_over in *. destruct (op_phase op); try done; destruct_and?; lia.
    + assert (Hex : exists item, item ∈ items w /\ can_of o item <> 0).
      { clear -Hx. unfold pend in Hx. induction (items w) as [|item l IH]; [done|]. rewrite sum_with_cons in Hx.
        destruct (decide (can_of o item = 0)) as [E|E]; [|exists item; split; [left|done]].
        destruct IH as (it & Hin & Hne); [lia|]. exists it. split; [by right|done]. }
      destruct Hex as (item & Hin & Hne). apply list_elem_of_lookup in Hin as [k Hk]. destruct item; try done.
      exists k, operations, enqueue. split; [done|]. cbn [can_of] in Hne. destruct (decide (o ∈ operations)) as [|E%count_in]; done.
  - assert (Hz : p_reg (place w o op) = 0) by (rewrite Hreg, Hc; done).
    pose proof (unlinked_of False w o op Hr Ho Hz) as Hun. set (p := place w o op) in *. clearbody p. unfold placed, is_terminal in *.
    destruct (op_phase op); destruct_and?; try lia. split; [done|]. apply Hun. destruct (p_mailbox p) as [[q r]|]; [lia|done].
Qed.

(** ** Outcomes *)

(** The outcome of an operation once it has ended. *)
Definition outcome_of (op : CueOperation) : option TerminalOutcome :=
  match op_phase op with Op_Terminal outcome => Some outcome | _ => None end.

(** The operations after a step: none goes, and what has ended stays. *)
Definition keeps (w w' : World) : Prop :=
  forall o op, operations w !! o = Some op -> exists op', operations w' !! o = Some op' /\
    op_scene op' = op_scene op /\ op_actor op' = op_actor op /\
    (forall outcome, outcome_of op = Some outcome -> outcome_of op' = Some outcome).

Lemma keeps_same w w' : operations w' = operations w -> keeps w w'.
Proof. intros E o op Ho. exists op. by rewrite E. Qed.

Lemma keeps_trans w1 w2 w3 : keeps w1 w2 -> keeps w2 w3 -> keeps w1 w3.
Proof.
  intros H1 H2 o op Ho. destruct (H1 o op Ho) as (op2 & Ho2 & E1 & E2 & E3). destruct (H2 o op2 Ho2) as (op3 & Ho3 & E4 & E5 & E6).
  exists op3. split_and!; [done|congruence|congruence|auto].
Qed.

Lemma keeps_op w w' o op op' :
  operations w !! o = Some op -> operations w' = <[o := op']> (operations w) ->
  op_scene op' = op_scene op -> op_actor op' = op_actor op ->
  (forall outcome, outcome_of op = Some outcome -> outcome_of op' = Some outcome) -> keeps w w'.
Proof.
  intros Ho E Es Ea Eo o' op'' Ho'. rewrite E. destruct (decide (o' = o)) as [->|Hne].
  - rewrite Ho in Ho'. injection Ho' as <-. exists op'. split; [|done]. by rewrite list_lookup_insert_eq by by eapply lookup_lt_Some.
  - exists op''. by rewrite list_lookup_insert_ne.
Qed.

Lemma transition_keeps op r op' action :
  transition_from_result op r = Some (op', action) ->
  op_scene op' = op_scene op /\ op_actor op' = op_actor op /\
  (forall outcome, outcome_of op = Some outcome -> outcome_of op' = Some outcome).
Proof.
  intros Ht. pose proof (transition_spec op r) as Hs. rewrite Ht in Hs. destruct action as [cc|].
  - destruct Hs as (Hnt & outcome & ->). split_and!; try done. unfold outcome_of, is_terminal in *. by destruct (op_phase op).
  - by destruct Hs as [-> _].
Qed.

Lemma dispatch_failed_keeps w o op after error w' :
  operations w !! o = Some op -> dispatch_failed w o op after error = Some w' -> keeps w w'.
Proof.
  intros Ho. unfold dispatch_failed. destruct (transition_from_result op (Err error)) as [[op' [cc|]]|] eqn:Ht; cbn [mbind option_bind]; try done.
  intros [= <-]. apply transition_keeps in Ht as (E1 & E2 & E3). by apply (keeps_op _ _ o op op').
Qed.

Lemma complete_keeps w w0 o op op' cc :
  operations w !! o = Some op -> operations w0 = <[o := op']> (operations w) -> op_scene op' = op_scene op -> op_actor op' = op_actor op ->
  (forall outcome, outcome_of op = Some outcome -> outcome_of op' = Some outcome) ->
  keeps w (complete_action w0 o op' cc).
Proof.
  intros Ho E Es Ea Eo. apply (keeps_op w _ o op (if cc then close_inline op' else op')); try done; [|by destruct cc..].
  unfold complete_action. destruct (mailbox_of _ op') as [mb|]; [destruct (terminal_transition mb o)|];
    cbn [operations push set_items set_actor set_op]; by rewrite E, list_insert_insert_eq.
Qed.

Lemma cancel_cue_keeps w o op : operations w !! o = Some op -> keeps w (cancel_cue w o op).
Proof.
  intros Ho. unfold cancel_cue. destruct (request_cancel op) as [op' action] eqn:Hr. unfold request_cancel in Hr.
  assert (Hout : outcome_of op = None -> forall outcome, outcome_of op = Some outcome -> outcome_of op' = Some outcome) by (intros -> outcome; done).
  unfold outcome_of in Hout at 1. destruct (op_phase op); injection Hr as <- <-; try by apply keeps_same.
  - apply (complete_keeps w _ o op); try done. by apply Hout.
  - apply (keeps_op w _ o op (with_op op Op_CancellingRunning (Some (Intent_Requested None)) (op_cue op))); try done. by apply Hout.
Qed.

Lemma advance_keeps w item raised w' : advance w item raised = Some w' -> keeps w w'.
Proof.
  destruct item as [o|o after|o after|o after|o|o cc|o next|o|[|o rest] enqueue]; cbn [advance];
    try (destruct (operations w !! o) as [op|] eqn:Ho; cbn [mbind option_bind]; [|done]).
  - unfold enqueue_operation. destruct (is_terminal op); [intros [= <-]; by apply keeps_same|].
    destruct (mailbox_of w op) as [mb|]; [|done]. destruct (claim_next_if_idle _). intros [= <-]. by apply keeps_same.
  - unfold dispatch_cue. destruct (mailbox_of w op); [|by apply dispatch_failed_keeps]. destruct raised; [by apply dispatch_failed_keeps|].
    destruct (op_phase op), (op_cue op); try done. intros [= <-]. by apply keeps_same.
  - unfold launch. destruct raised; [by apply dispatch_failed_keeps|]. destruct (op_phase op) eqn:Ep; try done. intros [= <-].
    apply (keeps_op w _ o op (with_op op Op_Running (op_intent op) (op_cue op))); try done. unfold outcome_of. by rewrite Ep.
  - intros [= <-]. unfold attach. destruct raised as [error|]; [|by apply keeps_same].
    apply (keeps_op w _ o op (begin_attachment_failure op error).1); try done; unfold begin_attachment_failure, outcome_of; destruct (op_phase op) eqn:Ep; cbn; rewrite ?Ep; done.
  - intros [= <-]. destruct raised as [error|]; [|by apply keeps_same].
    apply (keeps_op w _ o op (cancel_raised op error)); try done; unfold cancel_raised; destruct (op_intent op) as [[[]|]|]; done.
  - intros [= <-]. apply (complete_keeps w w o op op); try done. by rewrite list_insert_id.
  - intros [= <-]. apply keeps_same. unfold deregister. by destruct (scenes w !! op_scene op).
  - intros [= <-]. apply keeps_same. unfold resolve_terminal_signal. by case_bool_decide.
  - intros [= <-]. by apply keeps_same.
  - intros [= <-]. apply (keeps_trans w (cancel_cue w o op)); [by apply cancel_cue_keeps|by apply keeps_same].
Qed.

Lemma step_keeps w action w' : step w action = Some w' -> keeps w w'.
Proof.
  destruct action as [|a|name|s|k|k|k a|s|s|o|o r|k raised]; cbn [step].
  - intros [= <-]. by apply keeps_same.
  - intros [= <-]. apply keeps_same. by destruct (actor_in_use w a).
  - intros [= <-]. by apply keeps_same.
  - intros E. apply keeps_same. destruct (scenes w !! s) as [scene|]; [destruct (begin_admission scene) as [[]|]|]; by injection E as <-.
  - intros E. apply keeps_same. destruct (admissions w !! k) as [txn|]; [|by injection E as <-].
    destruct (txn_prepared txn); [by injection E as <-|]. destruct (scenes w !! txn_scene txn) as [scene|]; [|done].
    cbn [mbind option_bind] in E. destruct (prepare scene); [|done]. by injection E as <-.
  - intros E. apply keeps_same. destruct (admissions w !! k) as [txn|]; [|by injection E as <-].
    destruct (scenes w !! txn_scene txn); [|done]. by injection E as <-.
  - destruct (admissions w !! k) as [txn|]; [|intros [= <-]; by apply keeps_same].
    destruct (mjoin (actors w !! a)); [|intros [= <-]; by apply keeps_same].
    destruct (txn_prepared txn) as [[next cue]|]; [|intros [= <-]; by apply keeps_same].
    destruct (scenes w !! txn_scene txn) as [scene|]; [|done]. cbn [mbind option_bind].
    destruct (scene_commit _ _ _ _) as [[scene' cancelled]|]; [|done]. cbn [mbind option_bind]. intros [= <-] o op Ho.
    exists op. split; [|done]. cbn. by apply lookup_app_l_Some.
  - intros E. apply keeps_same. destruct (scenes w !! s); by injection E as <-.
  - intros E. apply keeps_same. destruct (scenes w !! s); by injection E as <-.
  - destruct (operations w !! o) as [op|] eqn:Ho; intros [= <-]; [by apply cancel_cue_keeps|by apply keeps_same].
  - destruct (operations w !! o) as [op|] eqn:Ho; [|intros [= <-]; by apply keeps_same].
    assert (Ht : forall op' action, transition_from_result op r = Some (op', action) ->
      keeps w match action with Some cc => push (set_op w o op') [Complete o cc] | None => set_op w o op' end).
    { intros op' action Ht. apply transition_keeps in Ht as (E1 & E2 & E3). by apply (keeps_op _ _ o op op'); destruct action. }
    destruct (op_phase op); try (intros [= <-]; by apply keeps_same);
      (destruct (transition_from_result op r) as [[op' action]|]; cbn [mbind option_bind]; [intros [= <-]; by apply Ht|done]).
  - destruct (items w !! k) as [item|] eqn:Hk; [|intros [= <-]; by apply keeps_same].
    intros Hadv. apply (keeps_trans w (set_items w (delete k (items w)))); [by apply keeps_same|by eapply advance_keeps].
Qed.

(** The outcome of a cue is decided once: whatever happens after it has
    ended, in whatever order, leaves the outcome that its waiters get. *)
Theorem outcome_is_final w action w' o op outcome :
  step w action = Some w' -> operations w !! o = Some op -> op_phase op = Op_Terminal outcome ->
  exists op', operations w' !! o = Some op' /\ op_phase op' = Op_Terminal outcome /\
    forall caller_cancellation, result_for_caller op' caller_cancellation = result_for_caller op caller_cancellation.
Proof.
  intros Hs Ho Ep. destruct (step_keeps _ _ _ Hs o op Ho) as (op' & Ho' & _ & _ & Hout). exists op'.
  assert (E : op_phase op' = Op_Terminal outcome).
  { specialize (Hout outcome). unfold outcome_of in Hout. rewrite Ep in Hout. specialize (Hout eq_refl). destruct (op_phase op'); congruence. }
  split_and!; try done. intros cc. unfold result_for_caller. by rewrite E, Ep.
Qed.

End Correctness.

(** ** An example

    Two cues of a scene for one actor: the first runs, the second waits. *)

#[export] Instance sample_cues : PyCues := {
  PyObj := string;
  cued_items value := if String.eqb value "effects" then Some [true; true] else None;
  type_error text := text;
  runtime_error text := text;
  cancelled_error := "cancelled";
  is_cancelled value := String.eqb value "cancelled";
}.

(** The actions of a run, none of which cancels. *)
Fixpoint run_calmly (w : World) (actions : list Action) : option World :=
  match actions with
  | [] => Some w
  | action :: actions =>
      match cancels w action with Some _ => None | None => w ← step w action; run_calmly w actions end
  end.

Lemma run_calmly_spec w actions w' : run_calmly w actions = Some w' -> calmly w -> calmly w' /\ run w actions = Some w'.
Proof.
  revert w. induction actions as [|action actions IH]; intros w; cbn [run_calmly run]; [by intros [= <-]|].
  destruct (cancels w action) eqn:Ec; [done|]. destruct (step w action) as [w1|] eqn:Hs; cbn [mbind option_bind]; [|done].
  intros Hr Hc. apply (IH w1 Hr). apply (calmly_step w action); [done| |done]. intros o. by rewrite Ec.
Qed.

Lemma calmly_reachable w : calmly w -> reachable w.
Proof. induction 1 as [|w action w' _ IH _ Hs]; [constructor|by apply (reachable_step w action)]. Qed.

Lemma run_reachable w actions w' : reachable w -> run w actions = Some w' -> reachable w'.
Proof.
  revert w. induction actions as [|action actions IH]; intros w Hr; cbn [run]; [by intros [= <-]|].
  destruct (step w action) as [w1|] eqn:Hs; cbn [mbind option_bind]; [|done]. apply IH. by apply (reachable_step w action).
Qed.

Definition admit_cue (s a : nat) : list Action :=
  [BeginAdmission s; PrepareAdmission 0; CommitAdmission 0 a; Advance 0 None; Advance 0 None].

Definition start_cue : list Action := [Advance 0 None; Advance 0 None; Advance 0 None].

Definition sample_start : list Action := [NewActor; NewScene "main"] ++ admit_cue 0 0 ++ start_cue ++ admit_cue 0 0.

(** The first cue ends, the second starts, ends, and its scene closes. *)
Definition sample_end : list Action :=
  [TaskDone 0 (Ok "effects")] ++ replicate 5 (Advance 0 None) ++ [Advance 0 None; TaskDone 1 (Err "boom")] ++
  replicate 3 (Advance 0 None) ++ [CloseScene 0; WaitClosed 0].

Definition sample_world (actions : list Action) : World := default World_new (run_calmly World_new actions).

Example sample_outcomes :
  map op_phase (operations (sample_world (sample_start ++ sample_end))) =
    [Op_Terminal (Outcome_Success "effects"); Op_Terminal (Outcome_Failure "boom")] /\
  resolved (sample_world (sample_start ++ sample_end)) = [0; 1]%nat /\
  map scene_phase (scenes (sample_world (sample_start ++ sample_end))) = [Scene_Closed].
Proof. vm_compute. done. Qed.

Lemma sample_calmly actions : run_calmly World_new actions <> None -> calmly (sample_world actions).
Proof.
  unfold sample_world. destruct (run_calmly World_new actions) as [w|] eqn:E; [|done]. intros _.
  apply (run_calmly_spec World_new actions w E). constructor.
Qed.

Lemma sample_cues_reachable actions : run_calmly World_new actions <> None -> reachable (sample_world actions).
Proof. intros Hr. by apply calmly_reachable, sample_calmly. Qed.

(** The operations of the example. *)
Definition sample_running : CueOperation := mkOp 0 0 Op_Running None (Some "main-cue0") true.
Definition sample_success : TerminalOutcome := Outcome_Success "effects".
Definition sample_ended : CueOperation := mkOp 0 0 (Op_Terminal sample_success) None None true.

Lemma actor_runs_one_cue_witness :
  let w := sample_world sample_start in
  runs sample_running /\ 0%nat = 0%nat /\ running (mkMailbox [1%nat] (Some 0%nat)) = Some 0%nat.
Proof.
  pose proof (actor_runs_one_cue (sample_world sample_start) 0 sample_running 0 sample_running (mkMailbox [1%nat] (Some 0%nat))
    (sample_cues_reachable sample_start ltac:(by vm_compute)) ltac:(by vm_compute) ltac:(by vm_compute) eq_refl ltac:(by vm_compute) I I) as (E1 & E2 & _).
  split; [exact I|]. split; [exact E1|exact E2].
Defined.

Lemma signal_resolved_last_witness :
  NoDup (resolved (sample_world (sample_start ++ sample_end))) /\ 1%nat ∈ resolved (sample_world (sample_start ++ sample_end)).
Proof.
  split.
  - apply (signal_resolved_last (sample_world (sample_start ++ sample_end))). apply sample_cues_reachable. by vm_compute.
  - replace (resolved (sample_world (sample_start ++ sample_end))) with [0%nat; 1%nat] by (by vm_compute). right. left.
Defined.

Lemma closed_scene_is_empty_witness :
  is_terminal sample_ended = true /\ unlinked (sample_world (sample_start ++ sample_end)) 0.
Proof.
  apply (closed_scene_is_empty (sample_world (sample_start ++ sample_end)) 0 (mkScene "main" Scene_Closed 2 [] 2) 0 sample_ended).
  - apply sample_cues_reachable. by vm_compute.
  - by vm_compute.
  - by vm_compute.
  - reflexivity.
  - reflexivity.
Defined.

Lemma outcome_is_final_witness :
  exists w', step (sample_world (sample_start ++ sample_end)) (CancelCue 0) = Some w' /\
    exists op', operations w' !! 0%nat = Some op' /\ op_phase op' = Op_Terminal sample_success.
Proof.
  destruct (step (sample_world (sample_start ++ sample_end)) (CancelCue 0)) as [w'|] eqn:Hs.
  - exists w'. split; [reflexivity|].
    destruct (outcome_is_final (sample_world (sample_start ++ sample_end)) (CancelCue 0) w' 0 sample_ended sample_success Hs)
      as (op' & Ho & Hp & _); [by vm_compute|reflexivity|]. exists op'. split; [exact Ho|exact Hp].
  - exfalso. assert (E : step (sample_world (sample_start ++ sample_end)) (CancelCue 0) <> None) by (by vm_compute). by apply E.
Defined.
