(* ===== verification/CueLive.v ===== *)
(** * Nothing is forgotten, and the cues drain

    The calls in progress and the tasks that end make the cues of a production
    finish: a measure decreases with each of them, and while it is not zero one of
    them can happen. *)

From S2P Require Import Prelude Wire CueScope CueIds CueSystem CueSpec CueCorrect.

Section Liveness.
Context `{PyCues}.

(** ** No call in progress *)

(** Where an operation is when no call is in progress. *)
Definition settled (w : World) (o : nat) (op : CueOperation) : Prop :=
  if is_terminal op then o ∈ resolved w
  else runs op \/ mailbox_of w op = None \/
    exists mb r opr, mailbox_of w op = Some mb /\ o ∈ queue mb /\ running mb = Some r /\ operations w !! r = Some opr /\ runs opr.

Lemma settled_ok calm w o op : cues_ok calm w -> items w = [] -> operations w !! o = Some op -> settled w o op.
Proof.
  intros Hok Hit Ho. pose proof (ok_placed _ _ Hok o op Ho) as Hpl. unfold placed, place, pend in Hpl. rewrite Hit in Hpl.
  cbn [sum_with foldr p_reg p_enq p_disp p_comp p_dereg p_sig p_res p_mailbox p_launched] in Hpl.
  unfold settled, is_terminal, runs. destruct (op_phase op) eqn:Ep; try by left.
  2: { apply count_pos. change (sum_with _ []) with 0 in Hpl. destruct_and?. lia. }
  right. destruct (mailbox_of w op) as [mb|] eqn:Hmb; [right|by left]. exists mb. cbn [mbind option_bind] in Hpl.
  change (sum_with _ []) with 0 in Hpl. destruct Hpl as (_ & _ & _ & _ & _ & _ & _ & _ & Hq & Hrun). cbn in Hq, Hrun.
  destruct (ok_actors _ _ Hok _ mb (proj1 (mailbox_some _ _ _) Hmb)) as [Hni Hmem].
  assert (Hin : o ∈ queue mb) by (apply count_pos; unfold in_queue in Hq; lia).
  destruct (running mb) as [r|] eqn:Er; [|rewrite (Hni Er) in Hin; by apply elem_of_nil in Hin].
  assert (Hr1 : is_running r mb = 1) by (unfold is_running; rewrite Er; apply eqz_same).
  destruct (Hmem r) as (opr & Hr & Ha); [pose proof (count_nonneg r (queue mb)); unfold in_queue; lia|].
  exists r, opr. split_and!; try done. pose proof (ok_placed _ _ Hok r opr Hr) as Hplr.
  assert (Hmbr : mailbox_of w opr = Some mb) by (unfold mailbox_of in *; by rewrite Ha).
  unfold placed, place, pend in Hplr. rewrite Hit, Hmbr in Hplr. change (sum_with _ []) with 0 in Hplr.
  cbn [mbind option_bind p_reg p_enq p_disp p_comp p_dereg p_sig p_res p_mailbox p_launched] in Hplr. rewrite Hr1 in Hplr.
  destruct (op_phase opr); try done; destruct_and?; lia.
Qed.

(** No wakeup is lost: when no call is in progress, every cue that has ended
    has its signal resolved, and every other one runs, or waits in the queue of an
    actor that runs another one, or its actor is gone. *)
Theorem no_lost_wakeup w o op :
  reachable w -> items w = [] -> operations w !! o = Some op -> settled w o op.
Proof. intros Hr%reachable_cues_ok. by apply (settled_ok False). Qed.

(** ** The measure *)

Definition weight_op (op : CueOperation) : Z :=
  match op_phase op with Op_Queued => 10 | Op_Running | Op_CancellingRunning => 8 | Op_Terminal _ => 0 end.

Definition weight_item (item : Item) : Z :=
  match item with
  | Resolve _ | CancelTask _ => 1
  | Attach _ _ => 3
  | Launch _ _ => 4
  | DispatchCue _ _ => 5
  | Enqueue _ | Deregister _ _ => 6
  | Complete _ _ => 7
  | CancelAll operations _ => 8 * list_len operations + 7
  end.

Definition work (w : World) : Z := sum_with weight_op (operations w) + sum_with weight_item (items w).

Lemma weight_op_nonneg op : 0 <= weight_op op.
Proof. unfold weight_op. destruct (op_phase op); lia. Qed.

Lemma weight_item_pos item : 1 <= weight_item item.
Proof. destruct item; cbn [weight_item]; try lia. pose proof (list_len_nonneg operations). lia. Qed.

Lemma work_nonneg w : 0 <= work w.
Proof.
  unfold work. pose proof (sum_with_pos weight_op (operations w) weight_op_nonneg).
  assert (0 <= sum_with weight_item (items w)) by (apply sum_with_pos; intros item; pose proof (weight_item_pos item); lia). lia.
Qed.

Lemma work_push w its : work (push w its) = work w + sum_with weight_item its.
Proof. unfold work. cbn [operations items push set_items]. rewrite sum_with_app. lia. Qed.

Lemma work_set_op w o op op' : operations w !! o = Some op -> work (set_op w o op') = work w - weight_op op + weight_op op'.
Proof. intros Ho. unfold work. cbn [operations items set_op]. rewrite (sum_with_insert _ _ _ _ _ Ho). lia. Qed.

Lemma work_same w w' : operations w' = operations w -> items w' = items w -> work w' = work w.
Proof. unfold work. by intros -> ->. Qed.

Lemma transition_weight op r op' cc :
  transition_from_result op r = Some (op', Some cc) -> weight_op op' = 0 /\ 8 <= weight_op op.
Proof.
  intros Ht. pose proof (transition_spec op r) as Hs. rewrite Ht in Hs. destruct Hs as (Hnt & outcome & ->).
  split; [done|]. unfold weight_op, is_terminal in *. destruct (op_phase op); try done; lia.
Qed.

Lemma resolve_after_weight after : sum_with weight_item (resolve_after after) <= 1.
Proof. by destruct after. Qed.

Lemma dispatch_failed_work w o op after error w' :
  operations w !! o = Some op -> dispatch_failed w o op after error = Some w' -> work w' <= work w.
Proof.
  intros Ho. unfold dispatch_failed. destruct (transition_from_result op (Err error)) as [[op' [cc|]]|] eqn:Ht; cbn [mbind option_bind]; try done.
  intros [= <-]. apply transition_weight in Ht as [E1 E2]. rewrite work_push, (work_set_op w o op op' Ho), sum_with_app.
  pose proof (resolve_after_weight after). change (sum_with weight_item [Complete o cc]) with 7. lia.
Qed.

Lemma complete_work w o op cc :
  operations w !! o = Some op -> work (complete_action w o op cc) = work w + 6.
Proof.
  intros Ho. unfold complete_action. set (op' := if cc then close_inline op else op).
  assert (E : work (set_op w o op') = work w).
  { rewrite (work_set_op w o op op' Ho). unfold op'. destruct cc; unfold weight_op; cbn [op_phase close_inline]; lia. }
  destruct (mailbox_of _ op) as [mb|].
  - destruct (terminal_transition mb o) as [mb' next]. rewrite work_push, (work_same (set_op w o op')), E by done. done.
  - rewrite work_push, E. done.
Qed.

Lemma cancel_cue_work w o op : operations w !! o = Some op -> work (cancel_cue w o op) <= work w + 1.
Proof.
  intros Ho. unfold cancel_cue, request_cancel. destruct (op_phase op) eqn:Ep; try lia.
  - set (op' := with_op op (Op_Terminal _) _ _).
    assert (Ho' : operations (set_op w o op') !! o = Some op').
    { cbn. apply list_lookup_insert_eq. by eapply lookup_lt_Some. }
    rewrite (complete_work _ o op' true Ho'), (work_set_op w o op op' Ho). unfold weight_op. rewrite Ep. cbn. lia.
  - rewrite work_push, (work_set_op w o op _ Ho). unfold weight_op. rewrite Ep. cbn. lia.
Qed.

(** Every call that advances without a failure decreases it. *)
Lemma advance_work w item w' : advance w item None = Some w' -> work w' < work w + weight_item item.
Proof.
  destruct item as [o|o after|o after|o after|o|o cc|o next|o|[|o rest] enqueue]; cbn [advance weight_item];
    try (destruct (operations w !! o) as [op|] eqn:Ho; cbn [mbind option_bind]; [|done]).
  - unfold enqueue_operation. destruct (is_terminal op); [intros [= <-]; lia|].
    destruct (mailbox_of w op) as [mb|]; [|done]. destruct (claim_next_if_idle _) as [mb' start]. intros [= <-].
    rewrite work_push. rewrite (work_same w) by done. destruct start; cbn; lia.
  - unfold dispatch_cue. destruct (mailbox_of w op); [|intros Hd; apply (dispatch_failed_work w o op) in Hd; [lia|done]].
    destruct (op_phase op), (op_cue op); try done. intros [= <-]. rewrite work_push. cbn. lia.
  - unfold launch. destruct (op_phase op) eqn:Ep; try done. intros [= <-]. rewrite work_push.
    rewrite (work_same (set_op w o (with_op op Op_Running (op_intent op) (op_cue op)))) by done.
    rewrite (work_set_op w o op _ Ho). unfold weight_op. rewrite Ep. cbn. lia.
  - intros [= <-]. unfold attach. rewrite work_push. pose proof (resolve_after_weight after). lia.
  - intros [= <-]. lia.
  - intros [= <-]. rewrite (complete_work w o op cc Ho). lia.
  - intros [= <-]. unfold deregister. rewrite work_push. rewrite (work_same w) by (by destruct (scenes w !! op_scene op)).
    destruct next; cbn; lia.
  - intros [= <-]. unfold resolve_terminal_signal. rewrite (work_same w); [lia|by case_bool_decide..].
  - intros [= <-]. rewrite work_push, (@list_len_nil nat). destruct enqueue; cbn; lia.
  - intros [= <-]. rewrite work_push. pose proof (cancel_cue_work w o op Ho). rewrite list_len_cons. cbn [sum_with foldr weight_item].
    change (sum_with weight_item [CancelAll rest enqueue]) with (8 * list_len rest + 7 + 0). lia.
Qed.

(** ** Draining *)

(** The calls that start a cue, or are about to. *)
Definition starts (o : nat) (item : Item) : Prop :=
  match item with DispatchCue o' _ | Launch o' _ | Deregister _ (Some o') => o' = o | _ => False end.

(** No cue was cancelled between its claim and its launch: what is about to start
    has not ended. *)
Definition launches_intact (w : World) : Prop :=
  forall o op item, operations w !! o = Some op -> item ∈ items w -> starts o item -> is_terminal op = false.

Lemma starts_disp o item : starts o item <-> disp_of o item <> 0.
Proof.
  destruct item as [o'|o' after|o' after|o' after|o'|o' cc|o' next|o'|l enqueue]; cbn [starts disp_of]; try done; [..|destruct next as [o''|]; [|done]];
    cbn [opt_eq]; unfold eqz; case_decide; naive_solver.
Qed.

Lemma intact_ok w : cues_ok False w -> launches_intact w -> cues_ok True w.
Proof.
  intros [Hpl Hrefs Hfresh Hact Hsc Had] Hi. split; try done. intros o op Ho. specialize (Hpl o op Ho).
  assert (Hd : is_terminal op = true -> p_disp (place w o op) = 0).
  { intros Ht. cbn [place p_disp]. unfold pend. apply sum_with_zero. intros item Hin. destruct (decide (disp_of o item = 0)) as [|Hne]; [done|].
    apply starts_disp in Hne. specialize (Hi o op item Ho Hin Hne). congruence. }
  unfold placed, is_terminal in *. destruct (op_phase op); try done. destruct_and?. split_and!; try done. by intros _; apply Hd.
Qed.

Lemma calmly_intact w : calmly w -> launches_intact w.
Proof.
  intros Hc%calmly_ok o op item Ho Hin Hs. apply starts_disp in Hs. pose proof (ok_placed _ _ Hc o op Ho) as Hpl. unfold placed, is_terminal in *.
  destruct (op_phase op); try done. destruct Hpl as (_ & _ & _ & _ & _ & Hd & _). specialize (Hd I). cbn [place p_disp] in Hd.
  apply list_elem_of_lookup in Hin as [k Hk]. pose proof (sum_with_ge (disp_of o) (items w) k item) as Hge. unfold pend in Hd.
  assert (Hnn : forall it, 0 <= disp_of o it) by (intros it; apply (counts_range o it)). specialize (Hge Hnn Hk). specialize (Hnn item). lia.
Qed.

(** A cue that waits at an actor that was dropped: nothing will start it. *)
Definition parked (w : World) (op : CueOperation) : bool :=
  match op_phase op, mailbox_of w op with Op_Queued, None => true | _, _ => false end.

Definition actors_kept (w w' : World) : Prop :=
  actors w' = actors w \/ exists a mb, actors w' = <[a := Some mb]> (actors w).

Lemma dropped_kept w w' a : actors_kept w w' -> actors w' !! a = Some None -> actors w !! a = Some None.
Proof.
  intros [E|(a' & mb & E)] Ha; rewrite E in Ha; [done|]. by apply list_lookup_insert_Some in Ha as [(_ & ? & _)|(_ & Ha)].
Qed.

Lemma dispatch_failed_actors w o op after error w' : dispatch_failed w o op after error = Some w' -> actors_kept w w'.
Proof.
  unfold dispatch_failed. destruct (transition_from_result op _) as [[op' [cc|]]|]; cbn [mbind option_bind]; try done. intros [= <-]. by left.
Qed.

Lemma complete_actors w o op cc : actors_kept w (complete_action w o op cc).
Proof.
  unfold complete_action. destruct (mailbox_of _ op) as [mb|]; [|by left]. destruct (terminal_transition mb o) as [mb' next].
  right. by exists (op_actor op), mb'.
Qed.

Lemma cancel_cue_actors w o op : actors_kept w (cancel_cue w o op).
Proof.
  unfold cancel_cue, request_cancel. destruct (op_phase op); try by left. set (op' := with_op _ _ _ _).
  destruct (complete_actors (set_op w o op') o op' true) as [E|E]; [by left|by right].
Qed.

Lemma advance_actors w item raised w' : advance w item raised = Some w' -> actors_kept w w'.
Proof.
  destruct item as [o|o after|o after|o after|o|o cc|o next|o|[|o rest] enqueue]; cbn [advance];
    try (destruct (operations w !! o) as [op|] eqn:Ho; cbn [mbind option_bind]; [|done]).
  - unfold enqueue_operation. destruct (is_terminal op); [intros [= <-]; by left|].
    destruct (mailbox_of w op) as [mb|]; [|done]. destruct (claim_next_if_idle _) as [mb' start]. intros [= <-]. right. by exists (op_actor op), mb'.
  - unfold dispatch_cue. destruct (mailbox_of w op); [|by apply dispatch_failed_actors]. destruct raised; [by apply dispatch_failed_actors|].
    destruct (op_phase op), (op_cue op); try done. intros [= <-]. by left.
  - unfold launch. destruct raised; [by apply dispatch_failed_actors|]. destruct (op_phase op); try done. intros [= <-]. by left.
  - intros [= <-]. left. by destruct raised.
  - intros [= <-]. left. by destruct raised.
  - intros [= <-]. apply complete_actors.
  - intros [= <-]. left. unfold deregister. by destruct (scenes w !! op_scene op).
  - intros [= <-]. left. unfold resolve_terminal_signal. by case_bool_decide.
  - intros [= <-]. by left.
  - intros [= <-]. destruct (cancel_cue_actors w o op) as [E|E]; [by left|by right].
Qed.

(** What happens without anybody's help: the calls in progress advance, and a
    task that runs ends with its result. *)
Definition settles (results : nat -> result PyObj PyObj) (action : Action) : Prop :=
  match action with
  | Advance _ None => True
  | TaskDone o r => r = results o
  | _ => False
  end.

Definition cancels_more (item : Item) : bool := match item with CancelAll (_ :: _) _ => true | _ => false end.

Lemma first_other (its : list Item) :
  (exists k item, its !! k = Some item /\ cancels_more item = false) \/ Forall (fun item => cancels_more item = true) its.
Proof.
  induction its as [|item its [(k & it & Hk & Hc)|IH]]; [by right| |].
  - left. by exists (S k), it.
  - destruct (cancels_more item) eqn:E; [right; by constructor|left; by exists 0%nat, item].
Qed.

(** A call in progress may advance so that no cue that is about to start is
    cancelled. *)
Lemma next_item (w : World) :
  items w <> [] -> exists k item, items w !! k = Some item /\ calm_action w (Advance k None).
Proof.
  intros Hne. destruct (first_other (items w)) as [(k & item & Hk & Hc)|Hall].
  - exists k, item. split; [done|]. intros o Hco. cbn [cancels] in Hco. rewrite Hk in Hco. by destruct item as [| | | | | | | |[|]].
  - destruct (items w) as [|item its] eqn:E; [done|]. exists 0%nat, item. split; [done|]. intros o _ (op & _ & _ & Hp). apply Hp.
    unfold pend. rewrite E. apply sum_with_zero. intros it Hin. rewrite Forall_forall in Hall. specialize (Hall it Hin).
    by destruct it.
Qed.

Lemma work_advance w k item w' :
  items w !! k = Some item -> advance (set_items w (delete k (items w))) item None = Some w' -> work w' < work w.
Proof.
  intros Hk Hadv. apply advance_work in Hadv. unfold work in *. cbn [operations items set_items] in Hadv.
  rewrite (sum_with_delete _ _ _ _ Hk) in Hadv. lia.
Qed.

(** A turn, unless everything has ended or waits at an actor that was dropped. *)
Lemma settle_step results w :
  cues_ok True w -> items w <> [] \/ (exists o op, operations w !! o = Some op /\ is_terminal op = false /\ parked w op = false) ->
  exists action w', settles results action /\ cues_ok True w' /\ step w action = Some w' /\ actors_kept w w' /\ work w' < work w.
Proof.
  intros Hok Hwork. destruct (decide (items w = [])) as [Hit|Hit].
  - destruct Hwork as [|(o & op & Ho & Hnt & Hnp)]; [done|].
    assert (Hr : exists r opr, operations w !! r = Some opr /\ runs opr).
    { pose proof (settled_ok True w o op Hok Hit Ho) as Hs. unfold settled in Hs. rewrite Hnt in Hs.
      destruct Hs as [Hs|[Hs|(mb & r & opr & _ & _ & _ & Hr & Hruns)]]; [by exists o, op| |by exists r, opr].
      exists o, op. split; [done|]. unfold parked, is_terminal, runs in *. rewrite Hs in Hnp. by destruct (op_phase op). }
    destruct Hr as (r & opr & Hr & Hruns).
    assert (Hph : op_phase opr = Op_Running \/ op_phase opr = Op_CancellingRunning) by (unfold runs in Hruns; destruct (op_phase opr); auto; done).
    destruct (task_done_ok True w r opr (results r) Hok Hr Hph) as (op' & cc & Ht & Hok').
    assert (Hs : step w (TaskDone r (results r)) = Some (push (set_op w r op') [Complete r cc])).
    { cbn [step]. rewrite Hr, Ht. by destruct Hph as [-> | ->]. }
    exists (TaskDone r (results r)), (push (set_op w r op') [Complete r cc]). split_and!; try done; [by left|].
    rewrite work_push, (work_set_op w r opr op' Hr). apply transition_weight in Ht as [-> ?]. change (sum_with _ _) with 7. lia.
  - destruct (next_item w Hit) as (k & item & Hk & Hcalm).
    pose proof (cue_step_ok True w (Advance k None) Hok (fun _ => Hcalm)) as Hstep.
    destruct (step w (Advance k None)) as [w'|] eqn:Hs; [|by destruct Hstep as [_ []]].
    exists (Advance k None), w'. split_and!; try done; cbn [step] in Hs; rewrite Hk in Hs.
    + by apply advance_actors in Hs.
    + by apply (work_advance w k item).
Qed.

Lemma settle_run results w :
  cues_ok True w -> exists actions w', Forall (settles results) actions /\ Z.of_nat (length actions) <= work w /\
    run w actions = Some w' /\ cues_ok True w' /\ items w' = [] /\
    Forall (fun op => is_terminal op = true \/ parked w' op = true) (operations w') /\
    forall a, actors w' !! a = Some None -> actors w !! a = Some None.
Proof.
  remember (Z.to_nat (work w)) as n eqn:En. revert w En. induction (lt_wf n) as [n _ IH]. intros w -> Hok.
  assert (Hdec : (items w = [] /\ Forall (fun op => is_terminal op = true \/ parked w op = true) (operations w)) \/
    (items w <> [] \/ exists o op, operations w !! o = Some op /\ is_terminal op = false /\ parked w op = false)).
  { destruct (decide (items w = [])) as [Hi|Hi]; [|by right; left].
    destruct (decide (Forall (fun op => is_terminal op = true \/ parked w op = true) (operations w))) as [Ha|Ha]; [by left|right; right].
    apply not_Forall_Exists in Ha; [|apply _]. apply Exists_exists in Ha as (op & Hin & Hn). apply list_elem_of_lookup in Hin as [o Ho].
    exists o, op. split; [done|]. cbn in Hn. destruct (is_terminal op), (parked w op); naive_solver. }
  destruct Hdec as [[Hi Ha]|Hwork].
  - exists [], w. split_and!; try done. apply work_nonneg.
  - destruct (settle_step results w Hok Hwork) as (action & w1 & Hset & Hok1 & Hs & Hkept & Hlt).
    pose proof (work_nonneg w1). destruct (IH (Z.to_nat (work w1)) ltac:(lia) w1 eq_refl Hok1) as (actions & w2 & Hf & Hlen & Hrun & Hok2 & Hi & Ha & Hd).
    exists (action :: actions), w2. split_and!; try done; [by constructor|cbn [length]; lia|cbn [run]; by rewrite Hs|].
    intros a Hx. apply (dropped_kept w w1 a Hkept), Hd, Hx.
Qed.

(** A scene that closes has no cue left when nothing is in progress. *)
Lemma closing_scene_empty w s scene :
  cues_ok True w -> items w = [] -> Forall (fun op => is_terminal op = true \/ parked w op = true) (operations w) ->
  scenes w !! s = Some scene -> scene_phase scene = Scene_Closing -> scene_operations scene = [].
Proof.
  intros Hok Hi Hall Hs Ep. destruct (scene_operations scene) as [|o l] eqn:El; [done|exfalso].
  destruct (ok_scenes _ _ Hok s scene Hs) as [Hm Hclosing]. rewrite Ep in Hclosing.
  assert (Hin : 0 < count o (scene_operations scene)) by (rewrite El, count_cons, eqz_same; pose proof (count_nonneg o l); lia).
  destruct (Hm o Hin) as (op & Ho & Hos). rewrite Forall_lookup in Hall. destruct (Hall o op Ho) as [Ht|Hp].
  - pose proof (ok_placed _ _ Hok o op Ho) as Hpl.
    assert (Hreg : p_reg (place w o op) = count o (scene_operations scene)) by (cbn [place p_reg]; unfold registered; by rewrite Hos, Hs).
    assert (Hz : p_comp (place w o op) = 0 /\ p_dereg (place w o op) = 0) by (cbn [place p_comp p_dereg]; unfold pend; by rewrite Hi).
    unfold placed, is_terminal in *. destruct (op_phase op); try done. destruct_and?. lia.
  - destruct (Hclosing o op Ho Hin) as [Hc|Hc]; [|unfold pend in Hc; by rewrite Hi in Hc].
    unfold parked, cancelled_or_over in *. by destruct (op_phase op).
Qed.

(** C25: cues drain: in a state that the steps of the program reach, provided that
    no cue was cancelled between its claim and its launch (its launch would raise
    an assertion error), and whatever the tasks that run return, letting them end
    and the calls in progress go on in some order, which takes no more turns than
    the measure of the state, ends every cue and resolves its signal, but for those
    that wait at an actor that was dropped; and then every scene that closes is
    closed by the next turn of [wait_closed]. *)
Theorem cues_drain results w :
  reachable w -> launches_intact w ->
  exists actions w', Forall (settles results) actions /\ Z.of_nat (length actions) <= work w /\ run w actions = Some w' /\ items w' = [] /\
    (forall o op, operations w' !! o = Some op ->
       (is_terminal op = true /\ o ∈ resolved w') \/ (op_phase op = Op_Queued /\ actors w !! op_actor op = Some None)) /\
    (forall s scene, scenes w' !! s = Some scene -> scene_phase scene = Scene_Closing ->
       wait_closed scene = (with_scene_phase scene Scene_Closed, true)).
Proof.
  intros Hr%reachable_cues_ok Hintact. destruct (settle_run results w (intact_ok w Hr Hintact)) as (actions & w' & Hset & Hlen & Hrun & Hok & Hi & Hall & Hd).
  exists actions, w'. split_and!; try done.
  - intros o op Ho. pose proof Hall as Hx. rewrite Forall_lookup in Hx. destruct (Hx o op Ho) as [Ht|Hp]; [left|right].
    + split; [done|]. pose proof (settled_ok True w' o op Hok Hi Ho) as Hs. unfold settled in Hs. by rewrite Ht in Hs.
    + unfold parked in Hp. destruct (op_phase op) eqn:Ep; try done. split; [done|]. apply Hd.
      destruct (ok_refs _ _ Hok o op Ho) as [_ Hlt]. apply lookup_lt_is_Some_2 in Hlt as [mb Hmb].
      unfold mailbox_of in Hp. rewrite Hmb in Hp |- *. by destruct mb.
  - intros s scene Hs Ep. pose proof (closing_scene_empty w' s scene Hok Hi Hall Hs Ep) as Hops.
    unfold wait_closed, settle_closing. rewrite Ep, Hops. cbn. by rewrite bool_decide_true.
Qed.

End Liveness.

Lemma no_lost_wakeup_witness :
  exists op, operations (sample_world sample_start) !! 1%nat = Some op /\ settled (sample_world sample_start) 1 op.
Proof.
  destruct (operations (sample_world sample_start) !! 1%nat) as [op|] eqn:Ho.
  - exists op. split; [reflexivity|]. apply (no_lost_wakeup (sample_world sample_start) 1 op); [|by vm_compute|exact Ho].
    apply sample_cues_reachable. by vm_compute.
  - exfalso. assert (E : operations (sample_world sample_start) !! 1%nat <> None) by (by vm_compute). by apply E.
Defined.

Definition sample_results (o : nat) : result PyObj PyObj := Ok "effects".

Lemma cues_drain_witness :
  reachable (sample_world sample_start) /\ launches_intact (sample_world sample_start) /\
  exists actions w', run (sample_world sample_start) actions = Some w' /\ Z.of_nat (length actions) <= work (sample_world sample_start) /\
    items w' = [].
Proof.
  assert (Hc : calmly (sample_world sample_start)) by (apply sample_calmly; by vm_compute).
  assert (Hr : reachable (sample_world sample_start)) by (by apply calmly_reachable).
  assert (Hi : launches_intact (sample_world sample_start)) by (by apply calmly_intact).
  split; [exact Hr|]. split; [exact Hi|].
  destruct (cues_drain sample_results (sample_world sample_start) Hr Hi) as (actions & w' & _ & Hlen & Hrun & Hit & _).
  exists actions, w'. split; [exact Hrun|]. split; [exact Hlen|exact Hit].
Defined.
