(* ===== verification/CueOrder.v ===== *)
(** * The order of cues

    An actor starts its cues in the order in which they were enqueued: what it
    started, followed by what it has still to start, is a part, in order, of what
    was enqueued, where no cue is twice. *)

From S2P Require Import Prelude Wire CueScope CueIds CueSystem CueSpec CueCorrect CueLive.

(** ** Filters *)

Lemma filter_sublist {A} (P : A -> Prop) `{forall x, Decision (P x)} (l k : list A) :
  l `sublist_of` k -> filter P l `sublist_of` filter P k.
Proof.
  induction 1 as [|x l k Hs IH|x l k Hs IH]; [done| |]; rewrite !filter_cons; case_decide; try done; by constructor.
Qed.

Lemma filter_same {A} (P Q : A -> Prop) `{forall x, Decision (P x)} `{forall x, Decision (Q x)} (l : list A) :
  (forall x, x ∈ l -> P x <-> Q x) -> filter P l = filter Q l.
Proof.
  induction l as [|x l IH]; intros Hx; [done|]. rewrite !filter_cons, IH by (intros y Hy; apply Hx; by right).
  destruct (Hx x) as [H1 H2]; [left|]. do 2 case_decide; tauto.
Qed.

Section Order.
Context `{PyCues}.

(** The operations of a log that are of an actor. *)
Definition of_actor (w : World) (a : nat) (l : list nat) : list nat :=
  filter (fun o => op_actor <$> operations w !! o = Some a) l.

(** What a mailbox holds, and what of it was not started. *)
Definition held (mb : Mailbox) : list nat := option_list (running mb) ++ queue mb.

Definition waiting (w : World) (mb : Mailbox) : list nat := filter (fun o => o ∉ launched w) (held mb).

Definition in_order (w : World) : Prop :=
  forall a mb, actors w !! a = Some (Some mb) ->
    of_actor w a (launched w) ++ waiting w mb `sublist_of` of_actor w a (enqueued w).

(** An operation is enqueued at most once. *)
Definition enqueues (o : nat) (w : World) : Z := count o (enqueued w) + pend (enq_of o) w.

Definition enqueued_once (w : World) : Prop := forall o, enqueues o w <= 1.

Lemma of_actor_app w a l k : of_actor w a (l ++ k) = of_actor w a l ++ of_actor w a k.
Proof. apply filter_app. Qed.

Lemma of_actor_one w a o op :
  operations w !! o = Some op -> of_actor w a [o] = if decide (op_actor op = a) then [o] else [].
Proof.
  intros Ho. unfold of_actor. rewrite filter_cons, Ho. cbn [fmap option_fmap option_map]. do 2 case_decide; try done; congruence.
Qed.

(** Actors of operations do not change. *)
Lemma of_actor_keeps w w' a l :
  keeps w w' -> (forall o, o ∈ l -> (o < length (operations w))%nat) -> of_actor w' a l = of_actor w a l.
Proof.
  intros Hk Hl. apply filter_same. intros o Ho. apply Hl, lookup_lt_is_Some_2 in Ho as [op Ho].
  destruct (Hk o op Ho) as (op' & Ho' & _ & Ha & _). rewrite Ho, Ho'. cbn. by rewrite Ha.
Qed.

(** The logs and the mailboxes mention operations. *)
Lemma logged calm w o : cues_ok calm w -> o ∈ launched w \/ o ∈ enqueued w -> (o < length (operations w))%nat.
Proof.
  intros Hok Hin. destruct (decide (o < length (operations w))%nat) as [|Hge]; [done|exfalso].
  destruct (ok_fresh _ _ Hok o) as (_ & _ & H1 & H2); [lia|]. rewrite <- !count_pos in Hin. lia.
Qed.

Lemma held_in o mb : o ∈ held mb <-> 0 < in_queue o mb + is_running o mb.
Proof.
  unfold held, in_queue, is_running. pose proof (count_nonneg o (queue mb)). pose proof (opt_eq_range o (running mb)).
  rewrite elem_of_app, <- (count_pos o (queue mb)). destruct (running mb) as [r|]; cbn.
  - rewrite list_elem_of_singleton. unfold eqz. case_decide; [subst; lia|]. intuition lia.
  - rewrite elem_of_nil. lia.
Qed.

Lemma held_of calm w a mb o :
  cues_ok calm w -> actors w !! a = Some (Some mb) -> o ∈ held mb -> exists op, operations w !! o = Some op /\ op_actor op = a.
Proof. intros Hok Ha Hin%held_in. by apply (ok_actors _ _ Hok a mb Ha). Qed.

(** Steps that enqueue and start nothing. *)
Lemma in_order_frame w w' :
  cues_ok False w -> in_order w -> keeps w w' -> launched w' = launched w -> enqueued w' = enqueued w ->
  (forall a mb', actors w' !! a = Some (Some mb') ->
     (exists mb, actors w !! a = Some (Some mb) /\ held mb' `sublist_of` held mb) \/
     (mb' = Mailbox_default /\ (length (actors w) <= a)%nat)) ->
  in_order w'.
Proof.
  intros Hok Hord Hk El Ee Hact a mb' Ha. unfold waiting. rewrite El, Ee.
  rewrite !(of_actor_keeps w w') by (done || intros o Ho; apply (logged False w); auto).
  destruct (Hact a mb' Ha) as [(mb & Hmb & Hsub)|[-> Hge]].
  - etransitivity; [|by apply (Hord a mb)]. apply sublist_app; [done|]. by apply filter_sublist.
  - cbn [held Mailbox_default running queue option_list option_rect app]. assert (E : of_actor w a (launched w) = []).
    { destruct (of_actor w a (launched w)) as [|o l] eqn:E; [done|exfalso].
      assert (Hin : o ∈ of_actor w a (launched w)) by (rewrite E; left). apply list_elem_of_filter in Hin as [Ho _].
      destruct (operations w !! o) as [op|] eqn:Hop; [|done]. injection Ho as Ho. destruct (ok_refs _ _ Hok o op Hop). lia. }
    rewrite E. apply sublist_nil_l.
Qed.

Lemma actors_same_held (w w' : World) :
  actors w' = actors w ->
  forall a mb', actors w' !! a = Some (Some mb') ->
    (exists mb, actors w !! a = Some (Some mb) /\ held mb' `sublist_of` held mb) \/
    (mb' = Mailbox_default /\ (length (actors w) <= a)%nat).
Proof. intros E a mb' Ha. left. exists mb'. by rewrite <- E. Qed.

(** A mailbox retires an operation. *)
Lemma terminal_transition_held mb o : held (terminal_transition mb o).1 `sublist_of` held mb.
Proof.
  unfold terminal_transition, remove_queued. destruct (position (Nat.eqb o) (queue mb)) as [k|]; cbn [mbind option_bind fst].
  - unfold held. cbn [running queue]. apply sublist_app; [done|apply sublist_delete].
  - unfold complete_running. case_bool_decide as Er; [|done]. unfold held. rewrite Er.
    destruct (queue mb) as [|next rest]; cbn; [apply sublist_nil_l|by constructor].
Qed.

Lemma complete_held w o op cc a mb' :
  actors (complete_action w o op cc) !! a = Some (Some mb') ->
  exists mb, actors w !! a = Some (Some mb) /\ held mb' `sublist_of` held mb.
Proof.
  unfold complete_action. destruct (mailbox_of _ op) as [mb|] eqn:Hmb.
  - apply mailbox_some in Hmb. pose proof (terminal_transition_held mb o) as Hh. destruct (terminal_transition mb o) as [mb1 next].
    cbn [actors push set_items set_actor set_op fst] in *. intros Ha.
    apply list_lookup_insert_Some in Ha as [(<- & [= <-] & _)|(_ & Ha)]; [by exists mb|by exists mb'].
  - intros Ha. by exists mb'.
Qed.

Lemma cancel_cue_held w o op a mb' :
  actors (cancel_cue w o op) !! a = Some (Some mb') ->
  exists mb, actors w !! a = Some (Some mb) /\ held mb' `sublist_of` held mb.
Proof.
  unfold cancel_cue, request_cancel. destruct (op_phase op); try (intros Ha; by exists mb'). intros Ha. by apply complete_held in Ha.
Qed.

Lemma complete_logs w o op cc :
  launched (complete_action w o op cc) = launched w /\ enqueued (complete_action w o op cc) = enqueued w.
Proof. unfold complete_action. destruct (mailbox_of _ op); [by destruct (terminal_transition _ _)|done]. Qed.

Lemma cancel_cue_logs w o op : launched (cancel_cue w o op) = launched w /\ enqueued (cancel_cue w o op) = enqueued w.
Proof. unfold cancel_cue, request_cancel. destruct (op_phase op); try done. set (op2 := with_op _ _ _ _). exact (complete_logs (set_op w o op2) o op2 true). Qed.

Lemma dispatch_failed_same w o op after error w' :
  dispatch_failed w o op after error = Some w' ->
  actors w' = actors w /\ launched w' = launched w /\ enqueued w' = enqueued w.
Proof.
  unfold dispatch_failed. destruct (transition_from_result op _) as [[op' [cc|]]|]; cbn [mbind option_bind]; try done. by intros [= <-].
Qed.

(** ** Enqueueing and starting *)

Lemma enqueue_held mb o : never_idle mb -> held (claim_next_if_idle (mailbox_enqueue mb o)).1 = held mb ++ [o].
Proof.
  intros Hn. unfold claim_next_if_idle, mailbox_enqueue, held. cbn [running queue]. destruct (running mb) as [r|] eqn:Er; cbn [fst running queue].
  - done.
  - rewrite (Hn Er). cbn. done.
Qed.

Lemma enqueue_in_order w o op w' :
  cues_ok False (set_items w (Enqueue o :: items w)) -> in_order w -> operations w !! o = Some op ->
  enqueue_operation w o op = Some w' -> in_order w'.
Proof.
  intros Hok Hord Ho. unfold enqueue_operation. destruct (is_terminal op) eqn:Hnt; [by intros [= <-]|].
  destruct (mailbox_of w op) as [mb|] eqn:Hmb; [|done]. pose proof (proj1 (mailbox_some w op mb) Hmb) as Hmb'.
  destruct (ok_actors _ _ Hok _ mb Hmb') as [Hni _]. pose proof (enqueue_held mb o Hni) as Hh.
  destruct (claim_next_if_idle _) as [mb1 start]. cbn [fst] in Hh. intros [= <-] a mb' Ha.
  cbn [actors push set_items log_enqueued set_actor] in Ha. unfold waiting, of_actor.
  cbn [operations launched enqueued push set_items log_enqueued set_actor]. change (filter _ ?l) with (of_actor w a l) at 1 3.
  rewrite of_actor_app, (of_actor_one w a o op Ho).
  assert (Hnl : o ∉ launched w).
  { apply count_in. pose proof (ok_placed _ _ Hok o op Ho) as Hpl. pose proof (place_range (set_items w (Enqueue o :: items w)) o op) as Hr.
    assert (Hge : 1 <= p_enq (place (set_items w (Enqueue o :: items w)) o op)).
    { cbn [p_enq place]. rewrite pend_cons. cbn [enq_of]. rewrite eqz_same.
      assert (0 <= sum_with (enq_of o) (items w)); [|lia]. apply sum_with_pos. intros it. apply (counts_range o it). }
    assert (Hl : p_launched (place (set_items w (Enqueue o :: items w)) o op) = count o (launched w)) by done.
    set (p := place _ o op) in *. clearbody p. unfold placed, is_terminal in *. destruct (op_phase op); try done; destruct_and?; lia. }
  apply list_lookup_insert_Some in Ha as [(<- & [= <-] & _)|(Hne & Ha)].
  - rewrite Hh, filter_app, decide_True by done. rewrite app_assoc. apply sublist_app; [by apply Hord|].
    rewrite filter_cons, decide_True by done. done.
  - rewrite decide_False, app_nil_r by done. by apply Hord.
Qed.

Lemma launch_in_order w o op after w' :
  cues_ok False (set_items w (Launch o after :: items w)) -> in_order w -> operations w !! o = Some op ->
  launch w o op after None = Some w' -> in_order w'.
Proof.
  intros Hok Hord Ho. unfold launch. destruct (op_phase op) eqn:Ep; try done. intros [= <-].
  set (w' := push _ _).
  assert (Hk : keeps w w').
  { apply (keeps_op w _ o op (with_op op Op_Running (op_intent op) (op_cue op))); try done. unfold outcome_of. by rewrite Ep. }
  pose proof (ok_placed _ _ Hok o op Ho) as Hpl. unfold placed in Hpl. rewrite Ep in Hpl.
  assert (Hd : 1 <= p_disp (place (set_items w (Launch o after :: items w)) o op)).
  { cbn [p_disp place]. rewrite pend_cons. cbn [disp_of]. rewrite eqz_same.
    assert (0 <= sum_with (disp_of o) (items w)); [|lia]. apply sum_with_pos. intros it. apply (counts_range o it). }
  assert (He : 0 <= p_enq (place (set_items w (Launch o after :: items w)) o op)) by apply place_range.
  assert (Hnl : o ∉ launched w) by (apply count_in; exact (proj1 (proj2 (proj2 (proj2 (proj2 (proj2 Hpl))))))).
  destruct Hpl as (_ & _ & _ & _ & _ & _ & _ & _ & Hmb). cbn [p_mailbox place] in Hmb.
  destruct (mailbox_of _ op) as [mb0|] eqn:Hmb0; cbn [mbind option_bind] in Hmb; [|lia].
  pose proof (count_nonneg o (queue mb0)). pose proof (opt_eq_range o (running mb0)). unfold in_queue, is_running in Hmb.
  assert (Hrun : running mb0 = Some o) by (apply opt_eq_pos; lia). assert (Hnq : o ∉ queue mb0) by (apply count_in; lia).
  apply mailbox_some in Hmb0. intros a mb Ha. change (actors w' !! a = Some (Some mb)) in Ha. change (actors w !! a = Some (Some mb)) in Ha.
  assert (Hlog : forall x, x ∈ launched w ++ [o] \/ x ∈ enqueued w -> (x < length (operations w))%nat).
  { intros x [[Hx|Hx]%elem_of_app|Hx]; [apply (logged False _ x Hok); auto| |apply (logged False _ x Hok); auto].
    apply list_elem_of_singleton in Hx as ->. by eapply lookup_lt_Some. }
  unfold waiting. change (launched w') with (launched w ++ [o]). change (enqueued w') with (enqueued w).
  rewrite !(of_actor_keeps w w') by (done || intros x Hx; apply Hlog; auto). rewrite of_actor_app, (of_actor_one w a o op Ho), <- app_assoc.
  specialize (Hord a mb Ha). unfold waiting in Hord.
  assert (Hother : forall l : list nat, o ∉ l -> filter (fun x => x ∉ launched w ++ [o]) l = filter (fun x => x ∉ launched w) l).
  { intros l Hl. apply filter_same. intros x Hx. rewrite elem_of_app, list_elem_of_singleton.
    assert (x <> o) by (by intros ->). tauto. }
  case_decide as Ea.
  - subst a. change (actors (set_items w (Launch o after :: items w))) with (actors w) in Hmb0. rewrite Hmb0 in Ha. injection Ha as <-.
    unfold held in *. rewrite Hrun in *. cbn [option_list option_rect app] in *. rewrite filter_cons, decide_True in Hord by done.
    rewrite filter_cons, decide_False by (rewrite elem_of_app, list_elem_of_singleton; tauto). by rewrite Hother.
  - cbn [app]. rewrite Hother; [done|]. intros Hin. destruct (held_of False _ a mb o Hok Ha Hin) as (op' & Ho' & E).
    change (operations w !! o = Some op') in Ho'. congruence.
Qed.

(** ** Every step *)

Definition unordered (w w' : World) : Prop :=
  launched w' = launched w /\ enqueued w' = enqueued w /\
  forall a mb', actors w' !! a = Some (Some mb') ->
    (exists mb, actors w !! a = Some (Some mb) /\ held mb' `sublist_of` held mb) \/
    (mb' = Mailbox_default /\ (length (actors w) <= a)%nat).

Lemma unordered_same (w w' : World) :
  launched w' = launched w -> enqueued w' = enqueued w -> actors w' = actors w -> unordered w w'.
Proof. intros E1 E2 E3. split_and!; try done. by apply actors_same_held. Qed.

Lemma unordered_complete w w0 o op cc :
  launched w0 = launched w -> enqueued w0 = enqueued w -> actors w0 = actors w -> unordered w (complete_action w0 o op cc).
Proof.
  intros E1 E2 E3. destruct (complete_logs w0 o op cc) as [L1 L2]. split_and!; [congruence|congruence|].
  intros a mb' Ha. left. apply complete_held in Ha. by rewrite <- E3.
Qed.

Lemma unordered_cancel w w0 o op its :
  launched w0 = launched w -> enqueued w0 = enqueued w -> actors w0 = actors w -> unordered w (push (cancel_cue w0 o op) its).
Proof.
  intros E1 E2 E3. destruct (cancel_cue_logs w0 o op) as [L1 L2].
  split; [exact (eq_trans L1 E1)|]. split; [exact (eq_trans L2 E2)|].
  intros a mb' Ha. left. apply cancel_cue_held in Ha. by rewrite <- E3.
Qed.

Lemma unordered_failed w o op after error w' : dispatch_failed w o op after error = Some w' -> unordered w w'.
Proof. intros (E1 & E2 & E3)%dispatch_failed_same. by apply unordered_same. Qed.

(** An item that neither enqueues nor starts. *)
Lemma advance_unordered w item raised w' :
  advance w item raised = Some w' ->
  (exists o op, item = Enqueue o /\ operations w !! o = Some op /\ enqueue_operation w o op = Some w') \/
  (exists o after op, item = Launch o after /\ raised = None /\ operations w !! o = Some op /\ launch w o op after None = Some w') \/
  unordered w w'.
Proof.
  destruct item as [o|o after|o after|o after|o|o cc|o next|o|[|o rest] enqueue]; cbn [advance];
    try (destruct (operations w !! o) as [op|] eqn:Ho; cbn [mbind option_bind]; [|done]).
  - intros He. left. by exists o, op.
  - intros Hd. right. right. revert Hd. unfold dispatch_cue. destruct (mailbox_of w op); [|by apply unordered_failed].
    destruct raised; [by apply unordered_failed|]. destruct (op_phase op), (op_cue op); try done. intros [= <-]. by apply unordered_same.
  - intros Hl. right. destruct raised as [error|]; [right|left; by exists o, after, op]. unfold launch in Hl. by eapply unordered_failed.
  - intros [= <-]. right. right. destruct raised; by apply unordered_same.
  - intros [= <-]. right. right. destruct raised; by apply unordered_same.
  - intros [= <-]. right. right. by apply unordered_complete.
  - intros [= <-]. right. right. unfold deregister. destruct (scenes w !! op_scene op); by apply unordered_same.
  - intros [= <-]. right. right. unfold resolve_terminal_signal. case_bool_decide; by apply unordered_same.
  - intros [= <-]. right. right. by apply unordered_same.
  - intros [= <-]. right. right. by apply unordered_cancel.
Qed.

Lemma step_unordered w action w' :
  step w action = Some w' -> unordered w w' \/ exists k raised, action = Advance k raised.
Proof.
  destruct action as [|a|name|s|k|k|k a|s|s|o|o r|k raised]; cbn [step]; intros Hs; [left..|right; by exists k, raised].
  - injection Hs as <-. split_and!; try done. intros a mb' Ha. cbn [actors] in Ha.
    apply lookup_app_Some in Ha as [Ha|[Hge Ha]]; [left; by exists mb'|right].
    apply list_lookup_singleton_Some in Ha as [_ [= <-]]. by split.
  - injection Hs as <-. destruct (actor_in_use w a); [by apply unordered_same|]. split_and!; try done. intros a' mb' Ha. left.
    cbn [actors set_actor] in Ha. apply list_lookup_insert_Some in Ha as [(_ & ? & _)|(_ & Ha)]; [done|by exists mb'].
  - injection Hs as <-. by apply unordered_same.
  - destruct (scenes w !! s) as [scene|]; [destruct (begin_admission scene) as [[]|]|]; injection Hs as <-; by apply unordered_same.
  - destruct (admissions w !! k) as [txn|]; [|injection Hs as <-; by apply unordered_same].
    destruct (txn_prepared txn); [injection Hs as <-; by apply unordered_same|]. destruct (scenes w !! txn_scene txn) as [scene|]; [|done].
    cbn [mbind option_bind] in Hs. destruct (prepare scene); [|done]. injection Hs as <-. by apply unordered_same.
  - destruct (admissions w !! k) as [txn|]; [|injection Hs as <-; by apply unordered_same].
    destruct (scenes w !! txn_scene txn); [|done]. injection Hs as <-. by apply unordered_same.
  - destruct (admissions w !! k) as [txn|]; [|injection Hs as <-; by apply unordered_same].
    destruct (mjoin (actors w !! a)); [|injection Hs as <-; by apply unordered_same].
    destruct (txn_prepared txn) as [[next cue]|]; [|injection Hs as <-; by apply unordered_same].
    destruct (scenes w !! txn_scene txn) as [scene|]; [|done]. cbn [mbind option_bind] in Hs.
    destruct (scene_commit _ _ _ _) as [[scene' cancelled]|]; [|done]. injection Hs as <-. by apply unordered_same.
  - destruct (scenes w !! s); injection Hs as <-; by apply unordered_same.
  - destruct (scenes w !! s); injection Hs as <-; by apply unordered_same.
  - destruct (operations w !! o) as [op|]; injection Hs as <-; [|by apply unordered_same].
    rewrite <- (push_nil (cancel_cue w o op)). by apply unordered_cancel.
  - destruct (operations w !! o) as [op|]; [|injection Hs as <-; by apply unordered_same].
    destruct (op_phase op); try (injection Hs as <-; by apply unordered_same);
      (destruct (transition_from_result op r) as [[op' [cc|]]|]; [..|done]; injection Hs as <-; by apply unordered_same).
Qed.

Lemma step_in_order w action w' : cues_ok False w -> in_order w -> step w action = Some w' -> in_order w'.
Proof.
  intros Hok Hord Hs. pose proof (step_keeps w action w' Hs) as Hk.
  destruct (step_unordered w action w' Hs) as [(E1 & E2 & E3)|(k & raised & ->)]; [by apply (in_order_frame w)|].
  cbn [step] in Hs. destruct (items w !! k) as [item|] eqn:Hitem; [|by injection Hs as <-].
  set (w0 := set_items w (delete k (items w))) in *.
  assert (Hok0 : cues_ok False (set_items w0 (item :: items w0))).
  { change (set_items w0 (item :: items w0)) with (set_items w (item :: delete k (items w))).
    apply cues_ok_perm; [by apply delete_Permutation|done]. }
  assert (Hord0 : in_order w0) by exact Hord.
  destruct (advance_unordered w0 item raised w' Hs) as [(o & op & -> & Ho & He)|[(o & after & op & -> & -> & Ho & Hl)|(E1 & E2 & E3)]].
  - by apply (enqueue_in_order w0 o op).
  - by apply (launch_in_order w0 o op after).
  - by apply (in_order_frame w).
Qed.

(** ** Nothing is enqueued twice *)

Lemma enqueues_push o w its : enqueues o (push w its) = enqueues o w + sum_with (enq_of o) its.
Proof. unfold enqueues. rewrite pend_push. cbn [enqueued push set_items]. lia. Qed.

Lemma enqueues_same o w w' : enqueued w' = enqueued w -> items w' = items w -> enqueues o w' = enqueues o w.
Proof. unfold enqueues, pend. by intros -> ->. Qed.

Lemma quiet_items o after next :
  sum_with (enq_of o) (resolve_after after) = 0 /\ sum_with (enq_of o) (dispatch_next next after) = 0.
Proof. by destruct after, next. Qed.

Lemma dispatch_failed_enqueues w o op after error w' x :
  dispatch_failed w o op after error = Some w' -> enqueues x w' = enqueues x w.
Proof.
  unfold dispatch_failed. destruct (transition_from_result op _) as [[op' [cc|]]|]; cbn [mbind option_bind]; try done.
  intros [= <-]. rewrite enqueues_push, sum_with_app, (proj1 (quiet_items x after None)), (enqueues_same x w) by done. cbn. lia.
Qed.

Lemma complete_enqueues w o op cc x : enqueues x (complete_action w o op cc) = enqueues x w.
Proof.
  unfold complete_action. destruct (mailbox_of _ op); [destruct (terminal_transition _ _)|];
    rewrite enqueues_push, (enqueues_same x w) by done; cbn; lia.
Qed.

Lemma cancel_cue_enqueues w o op x : enqueues x (cancel_cue w o op) = enqueues x w.
Proof.
  unfold cancel_cue, request_cancel. destruct (op_phase op); try done.
  - by rewrite complete_enqueues.
  - rewrite enqueues_push, (enqueues_same x w) by done. cbn. lia.
Qed.

Lemma advance_enqueues w item raised w' x :
  advance w item raised = Some w' -> enqueues x w' <= enqueues x w + enq_of x item.
Proof.
  destruct item as [o|o after|o after|o after|o|o cc|o next|o|[|o rest] enqueue]; cbn [advance enq_of];
    try (destruct (operations w !! o) as [op|] eqn:Ho; cbn [mbind option_bind]; [|done]).
  - pose proof (eqz_range x o). unfold enqueue_operation. destruct (is_terminal op); [intros [= <-]; lia|].
    destruct (mailbox_of w op); [|done]. destruct (claim_next_if_idle _) as [mb' start]. intros [= <-].
    rewrite enqueues_push. unfold enqueues, pend. cbn [enqueued items log_enqueued set_actor]. rewrite count_app, count_cons, count_nil.
    destruct start; cbn; lia.
  - unfold dispatch_cue. destruct (mailbox_of w op); [|intros Hd; by rewrite (dispatch_failed_enqueues _ _ _ _ _ _ x Hd), Z.add_0_r].
    destruct raised; [intros Hd; by rewrite (dispatch_failed_enqueues _ _ _ _ _ _ x Hd), Z.add_0_r|].
    destruct (op_phase op), (op_cue op); try done. intros [= <-]. rewrite enqueues_push. cbn. lia.
  - unfold launch. destruct raised; [intros Hd; by rewrite (dispatch_failed_enqueues _ _ _ _ _ _ x Hd), Z.add_0_r|].
    destruct (op_phase op); try done. intros [= <-]. rewrite enqueues_push, (enqueues_same x w) by done. cbn. lia.
  - intros [= <-]. unfold attach. rewrite enqueues_push, (proj1 (quiet_items x after None)), (enqueues_same x w) by (by destruct raised). lia.
  - intros [= <-]. rewrite (enqueues_same x w) by (by destruct raised). lia.
  - intros [= <-]. rewrite complete_enqueues. lia.
  - intros [= <-]. unfold deregister. rewrite enqueues_push, (proj2 (quiet_items x (Some o) next)), (enqueues_same x w)
      by (by destruct (scenes w !! op_scene op)). lia.
  - intros [= <-]. unfold resolve_terminal_signal. rewrite (enqueues_same x w) by (by case_bool_decide). lia.
  - intros [= <-]. rewrite enqueues_push. destruct enqueue; cbn; lia.
  - intros [= <-]. rewrite enqueues_push, cancel_cue_enqueues. cbn. lia.
Qed.

Lemma cancel_operations_enqueues w s outcome x : enqueues x (cancel_operations w s outcome) = enqueues x w.
Proof. unfold cancel_operations. rewrite enqueues_push, (enqueues_same x w) by done. cbn. lia. Qed.

(** A step enqueues what it was going to, or an operation that is new. *)
Lemma step_enqueues w action w' x :
  step w action = Some w' -> enqueues x w' <= enqueues x w + (if decide (x = length (operations w)) then 1 else 0).
Proof.
  assert (Hge : forall y, y <= enqueues x w -> y <= enqueues x w + (if decide (x = length (operations w)) then 1 else 0)) by (intros y Hy; case_decide; lia).
  destruct action as [|a|name|s|k|k|k a|s|s|o|o r|k raised]; cbn [step]; intros Hs.
  - injection Hs as <-. by apply Hge.
  - injection Hs as <-. apply Hge. by destruct (actor_in_use w a).
  - injection Hs as <-. by apply Hge.
  - apply Hge. destruct (scenes w !! s) as [scene|]; [destruct (begin_admission scene) as [[]|]|]; by injection Hs as <-.
  - apply Hge. destruct (admissions w !! k) as [txn|]; [|by injection Hs as <-].
    destruct (txn_prepared txn); [by injection Hs as <-|]. destruct (scenes w !! txn_scene txn) as [scene|]; [|done].
    cbn [mbind option_bind] in Hs. destruct (prepare scene); [|done]. by injection Hs as <-.
  - apply Hge. destruct (admissions w !! k) as [txn|]; [|by injection Hs as <-].
    destruct (scenes w !! txn_scene txn); [|done]. injection Hs as <-. by rewrite cancel_operations_enqueues.
  - destruct (admissions w !! k) as [txn|]; [|injection Hs as <-; by apply Hge].
    destruct (mjoin (actors w !! a)); [|injection Hs as <-; by apply Hge].
    destruct (txn_prepared txn) as [[next cue]|]; [|injection Hs as <-; by apply Hge].
    destruct (scenes w !! txn_scene txn) as [scene|]; [|done]. cbn [mbind option_bind] in Hs.
    destruct (scene_commit _ _ _ _) as [[scene' cancelled]|]; [|done]. injection Hs as <-.
    rewrite enqueues_push, (enqueues_same x w) by done. cbn. unfold eqz. lia.
  - apply Hge. destruct (scenes w !! s); injection Hs as <-; [by rewrite cancel_operations_enqueues|done].
  - apply Hge. destruct (scenes w !! s); by injection Hs as <-.
  - apply Hge. destruct (operations w !! o) as [op|]; injection Hs as <-; [by rewrite cancel_cue_enqueues|done].
  - apply Hge. destruct (operations w !! o) as [op|]; [|by injection Hs as <-].
    destruct (op_phase op); try (by injection Hs as <-);
      (destruct (transition_from_result op r) as [[op' [cc|]]|]; [..|done]; injection Hs as <-;
       rewrite ?enqueues_push, (enqueues_same x w) by done; cbn; lia).
  - apply Hge. destruct (items w !! k) as [item|] eqn:Hk; [|by injection Hs as <-]. apply (advance_enqueues _ _ _ _ x) in Hs.
    etransitivity; [exact Hs|]. unfold enqueues, pend. cbn [enqueued items set_items]. rewrite (sum_with_delete _ _ _ _ Hk). lia.
Qed.

Lemma reachable_order w : reachable w -> in_order w /\ enqueued_once w.
Proof.
  induction 1 as [|w action w' Hr [IH1 IH2] Hstep]; [split; [intros a mb Ha; done|intros o; done]|].
  apply reachable_cues_ok in Hr. split; [by apply (step_in_order w action)|]. intros o. pose proof (step_enqueues w action w' o Hstep) as Hle.
  specialize (IH2 o). case_decide as Eo; [|lia]. destruct (ok_fresh _ _ Hr o) as (Hf & _ & _ & He); [lia|].
  apply fresh_places in Hf as (Hf & _). unfold enqueues in Hle at 2. lia.
Qed.

(** C26: an actor starts its cues in the order in which they were enqueued: no cue
    is enqueued twice or started twice, and the cues of an actor that were started,
    followed by those that its mailbox has still to start, first the one it
    claimed, then its queue, are some of those that were enqueued, in that
    order. *)
Theorem cues_start_in_order w a mb :
  reachable w -> actors w !! a = Some (Some mb) ->
  NoDup (of_actor w a (enqueued w)) /\ of_actor w a (launched w) ++ waiting w mb `sublist_of` of_actor w a (enqueued w).
Proof.
  intros Hr Ha. destruct (reachable_order w Hr) as [Hord Honce]. split; [|by apply Hord].
  apply NoDup_filter, count_le_NoDup. intros o. specialize (Honce o). unfold enqueues in Honce.
  assert (0 <= pend (enq_of o) w); [|lia]. apply pend_nonneg. intros item. apply (counts_range o item).
Qed.

(** The panics of the source have one cause: an operation that was cancelled
    after its mailbox claimed it and before its task was created.  No other step
    fails, and none does when no operation is cancelled so. *)
Theorem cues_panic_only_when w action :
  (reachable w -> step w action = None -> dispatches_ended w action) /\
  (calmly w -> calm_action w action -> exists w', step w action = Some w').
Proof.
  split.
  - intros Hr%reachable_cues_ok Hs. pose proof (cue_step_ok False w action Hr (fun H => False_ind _ H)) as Hok. rewrite Hs in Hok. apply Hok.
  - intros Hc%calmly_ok Ha. pose proof (cue_step_ok True w action Hc (fun _ => Ha)) as Hok.
    destruct (step w action) as [w'|]; [by exists w'|by destruct Hok as [_ []]].
Qed.

End Order.

Lemma cues_start_in_order_witness :
  of_actor (sample_world sample_start) 0 (launched (sample_world sample_start)) ++
    waiting (sample_world sample_start) (mkMailbox [1%nat] (Some 0%nat)) `sublist_of`
  of_actor (sample_world sample_start) 0 (enqueued (sample_world sample_start)).
Proof.
  apply (cues_start_in_order (sample_world sample_start) 0 (mkMailbox [1%nat] (Some 0%nat))); [|by vm_compute].
  apply sample_cues_reachable. by vm_compute.
Defined.

(** A queued cue that was claimed is cancelled; its dispatch fails. *)
Definition sample_claimed : list Action :=
  [NewActor; NewScene "main"; BeginAdmission 0; PrepareAdmission 0; CommitAdmission 0 0; Advance 0 None; Advance 0 None; CancelCue 0].

Lemma cues_panic_only_when_witness :
  exists w, run World_new sample_claimed = Some w /\ step w (Advance 0 None) = None /\ dispatches_ended w (Advance 0 None).
Proof.
  destruct (run World_new sample_claimed) as [w|] eqn:E.
  - exists w. split; [reflexivity|]. assert (Hn : step w (Advance 0 None) = None).
    { assert (Hw : (w ← run World_new sample_claimed; step w (Advance 0 None)) = None) by (by vm_compute). by rewrite E in Hw. }
    split; [exact Hn|]. apply (cues_panic_only_when w (Advance 0 None)); [|exact Hn].
    apply (run_reachable World_new sample_claimed); [constructor|exact E].
  - exfalso. assert (Hn : run World_new sample_claimed <> None) by (by vm_compute). by apply Hn.
Defined.
