(* ===== verification/Order.v ===== *)
(** * Comparison functions and stable sorting

    [Ordering] values are combined with [then_with]; an order is a function to
    [comparison] that obeys [TotalCmp].  Instances build the orders of numbers,
    strings, lists and pairs of keys, so that a sort by any of them is a sort. *)

From Stdlib Require Import Sorted.
From S2P Require Import Prelude Files.

Class TotalCmp {A} (cmp : A -> A -> comparison) := {
  cmp_refl : forall x, cmp x x = Eq;
  cmp_opp : forall x y, cmp y x = CompOpp (cmp x y);
  cmp_trans : forall x y z, cmp x y <> Gt -> cmp y z <> Gt -> cmp x z <> Gt;
}.

Definition then_with (c d : comparison) : comparison := match c with Eq => d | _ => c end.

(** [Iterator::cmp]: lexicographic. *)
Fixpoint list_cmp {A} (cmp : A -> A -> comparison) (l k : list A) : comparison :=
  match l, k with
  | [], [] => Eq
  | [], _ :: _ => Lt
  | _ :: _, [] => Gt
  | x :: l, y :: k => then_with (cmp x y) (list_cmp cmp l k)
  end.

(** [Ord for str]: the bytes. *)
Definition str_cmp (s t : string) : comparison := list_cmp Z.compare (map byte_val (bytes s)) (map byte_val (bytes t)).

(** [slice::sort_by]: stable. *)
Fixpoint insert_by {A} (cmp : A -> A -> comparison) (x : A) (l : list A) : list A :=
  match l with
  | [] => [x]
  | y :: l' => match cmp x y with Gt => y :: insert_by cmp x l' | _ => x :: l end
  end.

Definition sort_by {A} (cmp : A -> A -> comparison) (l : list A) : list A := foldr (insert_by cmp) [] l.

(** ** Orders *)

Section Laws.
Context {A : Type} (cmp : A -> A -> comparison) `{HT : !TotalCmp cmp}.

Lemma cmp_lt_le x y z : cmp x y = Lt -> cmp y z <> Gt -> cmp x z = Lt.
Proof.
  intros Hxy Hyz. assert (Hle : cmp x z <> Gt) by (apply (cmp_trans x y z); [by rewrite Hxy|done]).
  destruct (cmp x z) eqn:Exz; [exfalso|done|done].
  assert (Hzx : cmp z x <> Gt) by (rewrite (cmp_opp (cmp := cmp) x z), Exz; done).
  pose proof (cmp_trans (cmp := cmp) y z x Hyz Hzx) as Hyx. rewrite (cmp_opp (cmp := cmp) x y), Hxy in Hyx. done.
Qed.

Lemma cmp_le_lt x y z : cmp x y <> Gt -> cmp y z = Lt -> cmp x z = Lt.
Proof.
  intros Hxy Hyz. assert (Hle : cmp x z <> Gt) by (apply (cmp_trans x y z); [done|by rewrite Hyz]).
  destruct (cmp x z) eqn:Exz; [exfalso|done|done].
  assert (Hzx : cmp z x <> Gt) by (rewrite (cmp_opp (cmp := cmp) x z), Exz; done).
  pose proof (cmp_trans (cmp := cmp) z x y Hzx Hxy) as Hzy. rewrite (cmp_opp (cmp := cmp) y z), Hyz in Hzy. done.
Qed.

Lemma cmp_eq_trans x y z : cmp x y = Eq -> cmp y z = Eq -> cmp x z = Eq.
Proof.
  intros Hxy Hyz. assert (H1 : cmp x z <> Gt) by (apply (cmp_trans x y z); [by rewrite Hxy|by rewrite Hyz]).
  assert (H2 : cmp z x <> Gt).
  { apply (cmp_trans z y x); [rewrite (cmp_opp (cmp := cmp) y z), Hyz|rewrite (cmp_opp (cmp := cmp) x y), Hxy]; done. }
  rewrite (cmp_opp (cmp := cmp) x z) in H2. by destruct (cmp x z).
Qed.

(** Lexicographic composition, on the results of the two comparisons. *)
Lemma then_with_trans x y z (d1 d2 d3 : comparison) :
  (d1 <> Gt -> d2 <> Gt -> d3 <> Gt) ->
  then_with (cmp x y) d1 <> Gt -> then_with (cmp y z) d2 <> Gt -> then_with (cmp x z) d3 <> Gt.
Proof.
  intros Hd. destruct (cmp x y) eqn:Exy; cbn; [| |done]; destruct (cmp y z) eqn:Eyz; cbn; try done; intros H1 H2.
  - rewrite (cmp_eq_trans x y z Exy Eyz). by apply Hd.
  - rewrite (cmp_le_lt x y z); [done|by rewrite Exy|done].
  - rewrite (cmp_lt_le x y z); [done|done|by rewrite Eyz].
  - rewrite (cmp_lt_le x y z); [done|done|by rewrite Eyz].
Qed.

End Laws.

#[export] Instance Z_total_cmp : TotalCmp Z.compare.
Proof.
  split; [apply Z.compare_refl|intros; apply Z.compare_antisym|].
  intros x y z H1 H2. change (x <= z). change (x <= y) in H1. change (y <= z) in H2. lia.
Qed.

(** The order of a key. *)
#[export] Instance key_total_cmp {A B} (f : A -> B) cmp `{!TotalCmp cmp} : TotalCmp (fun x y => cmp (f x) (f y)).
Proof. split; intros; [apply cmp_refl|apply cmp_opp|by eapply cmp_trans]. Qed.

#[export] Instance then_total_cmp {A} (c d : A -> A -> comparison) `{!TotalCmp c} `{!TotalCmp d} :
  TotalCmp (fun x y => then_with (c x y) (d x y)).
Proof.
  split.
  - intros x. by rewrite (cmp_refl (cmp := c)), (cmp_refl (cmp := d)).
  - intros x y. rewrite (cmp_opp (cmp := c) x y), (cmp_opp (cmp := d) x y). by destruct (c x y).
  - intros x y z. apply then_with_trans; [done|]. apply (cmp_trans (cmp := d)).
Qed.

(** Like [Option]'s order, but [None] comes last. *)
Definition some_first {A} (cmp : A -> A -> comparison) (x y : option A) : comparison :=
  match x, y with
  | Some x, Some y => cmp x y
  | Some _, None => Lt
  | None, Some _ => Gt
  | None, None => Eq
  end.

#[export] Instance some_first_total_cmp {A} (cmp : A -> A -> comparison) `{!TotalCmp cmp} : TotalCmp (some_first cmp).
Proof.
  split.
  - intros [x|]; [apply (cmp_refl (cmp := cmp))|done].
  - intros [x|] [y|]; cbn; [apply (cmp_opp (cmp := cmp))|done..].
  - intros [x|] [y|] [z|]; cbn; try done. apply (cmp_trans (cmp := cmp)).
Qed.

#[export] Instance list_total_cmp {A} (cmp : A -> A -> comparison) `{!TotalCmp cmp} : TotalCmp (list_cmp cmp).
Proof.
  split.
  - intros l. induction l as [|x l IH]; cbn; [done|]. by rewrite (cmp_refl (cmp := cmp)).
  - intros l. induction l as [|x l IH]; intros [|y k]; cbn; try done. rewrite (cmp_opp (cmp := cmp) x y), IH. by destruct (cmp x y).
  - intros l. induction l as [|x l IH]; intros [|y k] [|z m]; cbn; try done. by apply then_with_trans, IH.
Qed.

#[export] Instance str_total_cmp : TotalCmp str_cmp.
Proof. unfold str_cmp. apply (key_total_cmp (fun s => map byte_val (bytes s)) (list_cmp Z.compare)). Qed.

(** Like the derived order of [Option]. *)
Definition none_first {A} (cmp : A -> A -> comparison) (x y : option A) : comparison :=
  match x, y with
  | Some x, Some y => cmp x y
  | Some _, None => Gt
  | None, Some _ => Lt
  | None, None => Eq
  end.

#[export] Instance none_first_total_cmp {A} (cmp : A -> A -> comparison) `{!TotalCmp cmp} : TotalCmp (none_first cmp).
Proof.
  split.
  - intros [x|]; [apply (cmp_refl (cmp := cmp))|done].
  - intros [x|] [y|]; cbn; [apply (cmp_opp (cmp := cmp))|done..].
  - intros [x|] [y|] [z|]; cbn; try done. apply (cmp_trans (cmp := cmp)).
Qed.

(** [Ord for Path]: by components, the root before any name. *)
Definition root_and_names (p : PathBuf) : list (option string) :=
  (if path_absolute p then [None] else []) ++ map Some (path_components p).

Definition path_cmp (p q : PathBuf) : comparison := list_cmp (none_first str_cmp) (root_and_names p) (root_and_names q).

#[export] Instance path_total_cmp : TotalCmp path_cmp.
Proof. exact (key_total_cmp root_and_names (list_cmp (none_first str_cmp))). Qed.

(** ** Sorting *)

Section Sorting.
Context {A : Type} (cmp : A -> A -> comparison) `{HT : !TotalCmp cmp}.

Lemma insert_by_perm x l : insert_by cmp x l ≡ₚ x :: l.
Proof. induction l as [|y l IH]; [done|]. cbn. destruct (cmp x y); [done|done|]. rewrite IH. apply Permutation_swap. Qed.

Lemma sort_by_perm l : sort_by cmp l ≡ₚ l.
Proof. induction l as [|x l IH]; [done|]. cbn. by rewrite insert_by_perm, IH. Qed.

Lemma insert_by_sorted x l :
  StronglySorted (fun a b => cmp a b <> Gt) l -> StronglySorted (fun a b => cmp a b <> Gt) (insert_by cmp x l).
Proof.
  induction 1 as [|y l Hs IH Hf]; cbn; [repeat constructor|].
  assert (Hgt : cmp x y = Gt -> cmp y x <> Gt) by (intros E; rewrite (cmp_opp (cmp := cmp) x y), E; done).
  assert (Hle : cmp x y <> Gt -> StronglySorted (fun a b => cmp a b <> Gt) (x :: y :: l)).
  { intros E. repeat constructor; try done. eapply Forall_impl; [exact Hf|]. intros z Hz. by apply (cmp_trans x y z). }
  destruct (cmp x y) eqn:Exy; [by apply Hle|by apply Hle|]. constructor; [done|].
  rewrite insert_by_perm. constructor; [by apply Hgt|done].
Qed.

Lemma sort_by_sorted l : StronglySorted (fun a b => cmp a b <> Gt) (sort_by cmp l).
Proof. induction l as [|x l IH]; cbn; [constructor|by apply insert_by_sorted]. Qed.

(** Equal elements keep their order. *)
Lemma insert_by_class z x l :
  StronglySorted (fun a b => cmp a b <> Gt) l ->
  filter (fun y => cmp z y = Eq) (insert_by cmp x l) = filter (fun y => cmp z y = Eq) (x :: l).
Proof.
  induction 1 as [|y l Hs IH Hf]; cbn [insert_by]; [done|]. destruct (cmp x y) eqn:Exy; [done|done|].
  rewrite filter_cons, IH, !filter_cons. destruct (decide (cmp z x = Eq)) as [Ex|Ex]; [|done].
  destruct (decide (cmp z y = Eq)) as [Ey|Ey]; [|done]. exfalso.
  assert (E : cmp x y = Eq); [|congruence]. apply (cmp_eq_trans cmp x z y); [|done]. by rewrite (cmp_opp (cmp := cmp) z x), Ex.
Qed.

Lemma sort_by_stable z l : filter (fun y => cmp z y = Eq) (sort_by cmp l) = filter (fun y => cmp z y = Eq) l.
Proof.
  induction l as [|x l IH]; [done|]. cbn [sort_by foldr]. rewrite insert_by_class by apply sort_by_sorted.
  rewrite !filter_cons. fold (sort_by cmp l). by rewrite IH.
Qed.

End Sorting.
