(* ===== verification/Timestamp.v ===== *)
(** * Timestamps of the cleanup policy

    Models the clock of
    [rust/src/application/diagnostic_cli/cleanup_policy.rs]: instants, the parser
    of canonical UTC timestamps and the calendar it uses.  A [SystemTime] is a
    number of nanoseconds since the epoch, a [Duration] a number of nanoseconds;
    [Result<_, ()>] is an [option]. *)

From S2P Require Import Prelude Wire Order.

(** ** Instants *)

Record UtcInstant := mkInstant { seconds : Z; nanoseconds : Z }.

(** The derived order. *)
Definition instant_cmp (a b : UtcInstant) : comparison :=
  then_with (seconds a ?= seconds b) (nanoseconds a ?= nanoseconds b).

Definition NANOS : Z := 1000000000.

Definition as_secs (duration : Z) : Z := duration / NANOS.
Definition subsec_nanos (duration : Z) : Z := duration mod NANOS.

Definition from_system_time (value : Z) : UtcInstant :=
  if 0 <=? value then mkInstant (as_secs value) (subsec_nanos value)
  else
    let duration := - value in
    if subsec_nanos duration =? 0 then mkInstant (- as_secs duration) 0
    else mkInstant (- as_secs duration - 1) (NANOS - subsec_nanos duration).

Definition subtract (self : UtcInstant) (duration : Z) : UtcInstant :=
  mkInstant (seconds self - as_secs duration) (nanoseconds self).

(** ** The calendar *)

Definition is_leap_year (year : Z) : bool :=
  (Z.rem year 4 =? 0) && (negb (Z.rem year 100 =? 0) || (Z.rem year 400 =? 0)).

Definition days_in_month (year month : Z) : Z :=
  if (month =? 1) || (month =? 3) || (month =? 5) || (month =? 7) || (month =? 8) || (month =? 10) || (month =? 12) then 31
  else if (month =? 4) || (month =? 6) || (month =? 9) || (month =? 11) then 30
  else if month =? 2 then if is_leap_year year then 29 else 28
  else 0.

Definition days_from_civil (year month day : Z) : Z :=
  let adjusted_year := year - (if month <=? 2 then 1 else 0) in
  let era := Z.quot (if 0 <=? adjusted_year then adjusted_year else adjusted_year - 399) 400 in
  let year_of_era := adjusted_year - era * 400 in
  let shifted_month := month + (if 2 <? month then -3 else 9) in
  let day_of_year := Z.quot (153 * shifted_month + 2) 5 + day - 1 in
  let day_of_era := year_of_era * 365 + Z.quot year_of_era 4 - Z.quot year_of_era 100 + day_of_year in
  era * 146097 + day_of_era - 719468.

(** ** Parsing *)

Definition parse_decimal (l : list ascii) : option Z :=
  if bool_decide (l = []) || negb (forallb is_ascii_digit l) then None else parse_digits U32 0 l.

(** [&bytes[from..to]] of a slice that is long enough. *)
Definition slice {A} (from to : nat) (l : list A) : list A := take (to - from) (drop from l).

Definition byte_at (l : list ascii) (k : nat) (c : ascii) : bool := bool_decide (l !! k = Some c).

(** The layout of the separators. *)
Definition layout (l : list ascii) : bool :=
  (20 <=? length l)%nat && byte_at l 4 "-" && byte_at l 7 "-" && byte_at l 10 "T" && byte_at l 13 ":" && byte_at l 16 ":" &&
  bool_decide (last l = Some "Z"%char).

Definition fields_valid (year month day hour minute second : Z) : bool :=
  (1 <=? month) && (month <=? 12) && negb (day =? 0) && (day <=? days_in_month year month) && (hour <=? 23) &&
  (minute <=? 59) && (second <=? 59).

Definition parse_fraction (fraction : list ascii) : option Z :=
  match fraction with
  | [] => Some 0
  | point :: digits =>
      if bool_decide (point = "."%char) && (2 <=? length fraction)%nat && (length fraction <=? 10)%nat then
        value ← parse_decimal digits;
        Some (value * 10 ^ (9 - list_len digits))
      else None
  end.

Definition parse_utc_timestamp (value : string) : option UtcInstant :=
  let l := bytes value in
  if negb (layout l) then None
  else
    year ← parse_decimal (slice 0 4 l);
    month ← parse_decimal (slice 5 7 l);
    day ← parse_decimal (slice 8 10 l);
    hour ← parse_decimal (slice 11 13 l);
    minute ← parse_decimal (slice 14 16 l);
    second ← parse_decimal (slice 17 19 l);
    if negb (fields_valid year month day hour minute second) then None
    else
      nanoseconds ← parse_fraction (slice 19 (length l - 1) l);
      let days := days_from_civil year month day in
      Some (mkInstant (days * 86400 + hour * 3600 + minute * 60 + second) nanoseconds).

(** ** Instants count nanoseconds *)

Definition total_nanos (i : UtcInstant) : Z := seconds i * NANOS + nanoseconds i.

Lemma from_system_time_total value :
  total_nanos (from_system_time value) = value /\ 0 <= nanoseconds (from_system_time value) < NANOS.
Proof.
  unfold total_nanos, from_system_time, as_secs, subsec_nanos, NANOS. destruct (Z.leb_spec 0 value); cbn [seconds nanoseconds].
  - pose proof (Z.div_mod value 1000000000 ltac:(lia)). pose proof (Z.mod_pos_bound value 1000000000 ltac:(lia)). lia.
  - pose proof (Z.div_mod (- value) 1000000000 ltac:(lia)). pose proof (Z.mod_pos_bound (- value) 1000000000 ltac:(lia)).
    destruct (Z.eqb_spec (- value mod 1000000000) 0); cbn [seconds nanoseconds]; lia.
Qed.

Lemma instant_cmp_total a b :
  0 <= nanoseconds a < NANOS -> 0 <= nanoseconds b < NANOS -> instant_cmp a b = (total_nanos a ?= total_nanos b).
Proof.
  unfold instant_cmp, total_nanos, NANOS. intros Ha Hb. destruct (Z.compare_spec (seconds a) (seconds b)) as [E|E|E].
  - rewrite E. destruct (Z.compare_spec (nanoseconds a) (nanoseconds b)); symmetry;
      [apply Z.compare_eq_iff|apply Z.compare_lt_iff|apply Z.compare_gt_iff]; lia.
  - symmetry. apply Z.compare_lt_iff. lia.
  - symmetry. apply Z.compare_gt_iff. lia.
Qed.

(** A whole number of seconds is subtracted exactly. *)
Lemma subtract_total i duration :
  duration mod NANOS = 0 -> total_nanos (subtract i duration) = total_nanos i - duration.
Proof.
  unfold total_nanos, subtract, as_secs, NANOS. cbn [seconds nanoseconds]. intros Hd.
  pose proof (Z.div_mod duration 1000000000 ltac:(lia)). lia.
Qed.

(** ** The calendar counts days *)

Lemma is_leap_year_spec year :
  0 <= year -> is_leap_year year = true <-> (year mod 4 = 0 /\ (year mod 100 <> 0 \/ year mod 400 = 0)).
Proof.
  intros Hy. unfold is_leap_year. rewrite !Z.rem_mod_nonneg by lia. rewrite andb_true_iff, orb_true_iff, negb_true_iff.
  rewrite !Z.eqb_eq, Z.eqb_neq. done.
Qed.

(** The count of days before the first of March of a year, as floors. *)
Definition march_days (year : Z) : Z := 365 * year + year / 4 - year / 100 + year / 400.

Lemma days_from_civil_march year month day :
  0 <= year -> 1 <= month <= 12 ->
  days_from_civil year month day =
    march_days (year - (if month <=? 2 then 1 else 0)) +
    (153 * (month + (if 2 <? month then -3 else 9)) + 2) / 5 + day - 1 - 719468.
Proof.
  intros Hy Hm. unfold days_from_civil, march_days. set (a := year - _). assert (Ha : -1 <= a) by (unfold a; destruct (month <=? 2); lia).
  assert (He : Z.quot (if 0 <=? a then a else a - 399) 400 = a / 400).
  { destruct (Z.leb_spec 0 a); [apply Z.quot_div_nonneg; lia|]. by replace a with (-1) by lia. }
  rewrite He. assert (Hr : 0 <= a - a / 400 * 400 < 400) by (pose proof (Z.div_mod a 400); pose proof (Z.mod_pos_bound a 400); lia).
  rewrite !(Z.quot_div_nonneg (a - a / 400 * 400)) by lia.
  rewrite Z.quot_div_nonneg by (destruct (Z.ltb_spec 2 month); lia).
  set (s := (153 * _ + 2) / 5). clearbody s. clear He.
  set (e := a / 400) in *. set (r := a - e * 400) in *. assert (Ea : a = 100 * e * 4 + r /\ a = 4 * e * 100 + r) by (unfold r; lia).
  assert (H4 : a / 4 = 100 * e + r / 4) by (rewrite (proj1 Ea); apply Z.div_add_l; lia).
  assert (H100 : a / 100 = 4 * e + r / 100) by (rewrite (proj2 Ea); apply Z.div_add_l; lia).
  rewrite H4, H100. unfold r. lia.
Qed.

(** The day after. *)
Definition next_day (date : Z * Z * Z) : Z * Z * Z :=
  let '(year, month, day) := date in
  if day <? days_in_month year month then (year, month, day + 1)
  else if month <? 12 then (year, month + 1, 1)
  else (year + 1, 1, 1).

Definition valid_date (date : Z * Z * Z) : Prop :=
  let '(year, month, day) := date in 0 <= year /\ 1 <= month <= 12 /\ 1 <= day <= days_in_month year month.

Definition day_number (date : Z * Z * Z) : Z := let '(year, month, day) := date in days_from_civil year month day.

Ltac month_cases Hm :=
  match type of Hm with
  | 1 <= ?m <= 12 =>
      let H := fresh in
      assert (H : m = 1 \/ m = 2 \/ m = 3 \/ m = 4 \/ m = 5 \/ m = 6 \/ m = 7 \/ m = 8 \/ m = 9 \/ m = 10 \/ m = 11 \/ m = 12) by lia;
      destruct_or! H; subst m
  end.

(** Evaluates the comparisons and quotients of literals. *)
Ltac compute_tests :=
  repeat match goal with
  | |- context [?a <=? ?b] => let r := eval vm_compute in (a <=? b) in change (a <=? b) with r
  | |- context [?a <? ?b] => let r := eval vm_compute in (a <? b) in change (a <? b) with r
  | |- context [?a / 5] => let r := eval vm_compute in (a / 5) in change (a / 5) with r
  end; cbv match.

(** February ends where the leap years say. *)
Lemma march_days_leap year :
  0 <= year -> march_days year = march_days (year - 1) + 337 + days_in_month year 2.
Proof.
  intros Hy. unfold march_days, days_in_month. cbn [Z.eqb Pos.eqb orb]. pose proof (is_leap_year_spec year Hy) as Hl.
  destruct (is_leap_year year).
  - destruct (proj1 Hl eq_refl) as [H4 H100]. clear Hl. Z.to_euclidean_division_equations. lia.
  - assert (Hn : ~ (year mod 4 = 0 /\ (year mod 100 <> 0 \/ year mod 400 = 0))) by (intros Hx; by apply Hl in Hx).
    clear Hl. assert (Hd : year mod 4 <> 0 \/ (year mod 100 = 0 /\ year mod 400 <> 0)) by lia. clear Hn.
    Z.to_euclidean_division_equations. lia.
Qed.

Lemma day_number_next date : valid_date date -> day_number (next_day date) = day_number date + 1.
Proof.
  destruct date as [[year month] day]. intros (Hy & Hm & Hd). unfold next_day.
  destruct (Z.ltb_spec day (days_in_month year month)) as [Hlt|Hge].
  - unfold day_number. rewrite !days_from_civil_march by lia. lia.
  - assert (E : day = days_in_month year month) by lia. pose proof (march_days_leap year Hy) as Hl.
    clear Hd Hge. month_cases Hm; compute_tests; unfold day_number; rewrite !days_from_civil_march by lia; compute_tests;
      rewrite E; unfold days_in_month in *; cbn [Z.eqb Pos.eqb orb] in *; rewrite ?Z.sub_0_r;
      try (replace (year + 1 - 1) with year by lia); lia.
Qed.

(** ** The order of dates *)

(** Months since the year zero. *)
Definition month_start (k : Z) : Z := day_number (k / 12, k mod 12 + 1, 1).

Lemma days_in_month_range year month : 1 <= month <= 12 -> 28 <= days_in_month year month <= 31.
Proof. intros Hm. month_cases Hm; unfold days_in_month; cbn [Z.eqb Pos.eqb orb]; try lia. destruct (is_leap_year year); lia. Qed.

Lemma day_number_in_month year month day :
  0 <= year -> 1 <= month <= 12 -> day_number (year, month, day) = month_start (12 * year + (month - 1)) + day - 1.
Proof.
  intros Hy Hm. unfold month_start.
  assert (Hd : (12 * year + (month - 1)) / 12 = year) by (symmetry; apply Z.div_unique with (month - 1); lia).
  assert (Hr : (12 * year + (month - 1)) mod 12 = month - 1) by (symmetry; apply Z.mod_unique with year; lia).
  rewrite Hd, Hr. replace (month - 1 + 1) with month by lia. unfold day_number. rewrite !days_from_civil_march by lia. lia.
Qed.

Lemma month_start_step k : 0 <= k -> month_start k + 28 <= month_start (k + 1).
Proof.
  intros Hk. set (year := k / 12). set (month := k mod 12 + 1). pose proof (Z.div_mod k 12 ltac:(lia)) as Hdm.
  pose proof (Z.mod_pos_bound k 12 ltac:(lia)). assert (Hy : 0 <= year) by (apply Z.div_pos; lia).
  assert (Hm : 1 <= month <= 12) by (unfold month; lia). pose proof (days_in_month_range year month Hm) as Hd.
  pose proof (day_number_next (year, month, days_in_month year month) ltac:(unfold valid_date; lia)) as Hn.
  rewrite (day_number_in_month year month _ Hy Hm) in Hn. replace (12 * year + (month - 1)) with k in Hn by (unfold year, month; lia).
  unfold next_day in Hn. rewrite (proj2 (Z.ltb_ge _ _)) in Hn by lia. destruct (Z.ltb_spec month 12) as [Hlt|Hge].
  - rewrite day_number_in_month in Hn by lia. replace (12 * year + (month + 1 - 1)) with (k + 1) in Hn by (unfold year, month; lia). lia.
  - rewrite day_number_in_month in Hn by lia. replace (12 * (year + 1) + (1 - 1)) with (k + 1) in Hn by (unfold year, month in *; lia). lia.
Qed.

Lemma month_start_mono k n : 0 <= k -> month_start k + 28 * Z.of_nat n <= month_start (k + Z.of_nat n).
Proof.
  intros Hk. induction n as [|n IH]; [change (Z.of_nat 0) with 0; rewrite (Z.add_0_r k); lia|]. pose proof (month_start_step (k + Z.of_nat n) ltac:(lia)).
  replace (k + Z.of_nat (S n)) with (k + Z.of_nat n + 1) by lia. lia.
Qed.

Definition date_lt (a b : Z * Z * Z) : Prop :=
  let '(y1, m1, d1) := a in let '(y2, m2, d2) := b in y1 < y2 \/ (y1 = y2 /\ (m1 < m2 \/ (m1 = m2 /\ d1 < d2))).

Lemma day_number_mono a b : valid_date a -> valid_date b -> date_lt a b -> day_number a < day_number b.
Proof.
  destruct a as [[y1 m1] d1], b as [[y2 m2] d2]. intros (Hy1 & Hm1 & Hd1) (Hy2 & Hm2 & Hd2) Hlt.
  rewrite !day_number_in_month by lia. set (k1 := 12 * y1 + (m1 - 1)). set (k2 := 12 * y2 + (m2 - 1)).
  destruct (Z.lt_trichotomy k1 k2) as [Hk|[Hk|Hk]]; [| |cbn in Hlt; unfold k1, k2 in Hk; lia].
  - pose proof (day_number_next (y1, m1, days_in_month y1 m1) ltac:(unfold valid_date; pose proof (days_in_month_range y1 m1 Hm1); lia)) as Hn.
    rewrite day_number_in_month in Hn by lia. fold k1 in Hn. unfold next_day in Hn. rewrite (proj2 (Z.ltb_ge _ _)) in Hn by lia.
    assert (Hs : month_start (k1 + 1) = month_start k1 + days_in_month y1 m1).
    { destruct (Z.ltb_spec m1 12); rewrite day_number_in_month in Hn by lia;
        [replace (12 * y1 + (m1 + 1 - 1)) with (k1 + 1) in Hn by (unfold k1; lia)
        |replace (12 * (y1 + 1) + (1 - 1)) with (k1 + 1) in Hn by (unfold k1; lia)]; lia. }
    pose proof (month_start_mono (k1 + 1) (Z.to_nat (k2 - (k1 + 1))) ltac:(unfold k1; lia)) as Hmono.
    replace (k1 + 1 + Z.of_nat (Z.to_nat (k2 - (k1 + 1)))) with k2 in Hmono by lia. lia.
  - rewrite Hk. cbn in Hlt. unfold k1, k2 in Hk. lia.
Qed.

(** The calendar of the policy is the Gregorian one: the day number of the
    first of January 1970 is zero, the day after any date has the next number,
    month lengths follow the leap years, and numbers are in the order of dates. *)
Theorem days_from_civil_counts_days date :
  valid_date date ->
  days_from_civil 1970 1 1 = 0 /\ valid_date (next_day date) /\ day_number (next_day date) = day_number date + 1 /\
  forall other, valid_date other -> (date_lt date other <-> day_number date < day_number other).
Proof.
  intros Hv. split; [reflexivity|]. split.
  - destruct date as [[y m] d]. destruct Hv as (Hy & Hm & Hd). unfold next_day. destruct (Z.ltb_spec d (days_in_month y m)); [cbn; lia|].
    destruct (Z.ltb_spec m 12); [pose proof (days_in_month_range y (m + 1) ltac:(lia))|pose proof (days_in_month_range (y + 1) 1 ltac:(lia))]; cbn; lia.
  - split; [by apply day_number_next|]. intros other Ho. split; [by apply day_number_mono|]. intros Hlt.
    assert (Htri : date_lt date other \/ date = other \/ date_lt other date).
    { destruct date as [[y1 m1] d1], other as [[y2 m2] d2]. cbn.
      destruct (Z.lt_trichotomy y1 y2) as [|[->|]], (Z.lt_trichotomy m1 m2) as [|[->|]], (Z.lt_trichotomy d1 d2) as [|[->|]]; auto; lia. }
    destruct Htri as [|[->|Hx]]; [done|lia|]. apply day_number_mono in Hx; [lia|done..].
Qed.

(** ** The Gregorian calendar

    What the dates of a timestamp mean, apart from the arithmetic of the parser:
    the lengths of the months of a year, and days counted one year and one month
    after the other. *)

Definition leap (year : Z) : Prop := year mod 4 = 0 /\ (year mod 100 <> 0 \/ year mod 400 = 0).

#[export] Instance leap_dec year : Decision (leap year).
Proof. unfold leap. apply _. Defined.

(** January to December. *)
Definition month_lengths (year : Z) : list Z :=
  [31; if decide (leap year) then 29 else 28; 31; 30; 31; 30; 31; 31; 30; 31; 30; 31].

Definition year_days (year : Z) : Z := sum_with id (month_lengths year).

(** The days of the years from the year zero to the one before. *)
Definition days_before_year (year : Z) : Z := sum_with (fun y => year_days (Z.of_nat y)) (seq 0 (Z.to_nat year)).

Definition gregorian_date (date : Z * Z * Z) : Prop :=
  let '(year, month, day) := date in
  0 <= year /\ 1 <= month <= 12 /\
  exists length, month_lengths year !! Z.to_nat (month - 1) = Some length /\ 1 <= day <= length.

(** The days from the first of January 1970. *)
Definition unix_day (date : Z * Z * Z) : Z :=
  let '(year, month, day) := date in
  days_before_year year - days_before_year 1970 + sum_with id (take (Z.to_nat (month - 1)) (month_lengths year)) + (day - 1).

Lemma february_length year : 0 <= year -> days_in_month year 2 = if decide (leap year) then 29 else 28.
Proof.
  intros Hy. unfold days_in_month. cbn [Z.eqb Pos.eqb orb]. pose proof (is_leap_year_spec year Hy) as Hl. fold (leap year) in Hl.
  destruct (decide (leap year)) as [H|H]; [by rewrite (proj2 Hl H)|]. destruct (is_leap_year year); [|done]. by destruct H; apply Hl.
Qed.

Lemma gregorian_date_valid date : gregorian_date date <-> valid_date date.
Proof.
  destruct date as [[year month] day]. unfold gregorian_date, valid_date.
  assert (E : 0 <= year -> 1 <= month <= 12 -> month_lengths year !! Z.to_nat (month - 1) = Some (days_in_month year month)).
  { intros Hy Hm. month_cases Hm; try reflexivity. by rewrite february_length. }
  split; [intros (Hy & Hm & l & Hl & Hd)|intros (Hy & Hm & Hd)].
  - rewrite (E Hy Hm) in Hl. injection Hl as <-. done.
  - split; [exact Hy|]. split; [exact Hm|]. exists (days_in_month year month). split; [by apply E|exact Hd].
Qed.

Lemma days_before_year_march year : 0 <= year -> days_before_year year = march_days (year - 1) + 366.
Proof.
  revert year. apply natlike_ind; [reflexivity|]. intros year Hy IH. unfold days_before_year in *.
  rewrite Z2Nat.inj_succ, seq_S, sum_with_app, IH, sum_with_cons by done. cbn [plus]. rewrite Z2Nat.id by done.
  change (sum_with _ []) with 0. replace (Z.succ year - 1) with year by lia. rewrite (march_days_leap year), february_length by done.
  unfold year_days, month_lengths. rewrite !sum_with_cons. change (sum_with _ []) with 0. unfold id. lia.
Qed.

(** The arithmetic of the parser counts the days of the calendar. *)
Lemma day_number_unix_day date : gregorian_date date -> day_number date = unix_day date.
Proof.
  destruct date as [[year month] day]. intros (Hy & Hm & _). unfold day_number, unix_day.
  rewrite (days_before_year_march year Hy).
  rewrite (days_before_year_march 1970) by lia. change (march_days (1970 - 1)) with 719162.
  pose proof (march_days_leap year Hy) as Hl. rewrite (february_length year Hy) in Hl.
  month_cases Hm; rewrite days_from_civil_march by lia; compute_tests; unfold month_lengths;
    match goal with |- context [take (Z.to_nat ?k) _] => let n := eval vm_compute in (Z.to_nat k) in change (Z.to_nat k) with n end;
    cbn [take]; rewrite ?sum_with_cons; change (sum_with id []) with 0; unfold id; rewrite ?Z.sub_0_r; lia.
Qed.

(** ** The parser reads the canonical form *)

(** A number of digits. *)
Definition digits_of (n : nat) (l : list ascii) (value : Z) : Prop :=
  length l = n /\ all_digits l /\ value = digits_value 0 l.

Definition fraction_of (l : list ascii) (nanos : Z) : Prop :=
  (l = [] /\ nanos = 0) \/
  exists digits, l = "."%char :: digits /\ (1 <= length digits <= 9)%nat /\ all_digits digits /\
    nanos = digits_value 0 digits * 10 ^ (9 - list_len digits).

(** The text of a canonical timestamp and what it denotes: date, seconds of the
    day and nanoseconds. *)
Definition timestamp_of (text : string) (date : Z * Z * Z) (second_of_day nanos : Z) : Prop :=
  exists y mo d h mi s f year month day hour minute second,
    bytes text = y ++ "-"%char :: mo ++ "-"%char :: d ++ "T"%char :: h ++ ":"%char :: mi ++ ":"%char :: s ++ f ++ ["Z"%char] /\
    digits_of 4 y year /\ digits_of 2 mo month /\ digits_of 2 d day /\ digits_of 2 h hour /\ digits_of 2 mi minute /\
    digits_of 2 s second /\ fraction_of f nanos /\ date = (year, month, day) /\ gregorian_date date /\
    hour <= 23 /\ minute <= 59 /\ second <= 59 /\ second_of_day = hour * 3600 + minute * 60 + second.

Lemma parse_decimal_some l value :
  (length l <= 9)%nat -> parse_decimal l = Some value <-> l <> [] /\ all_digits l /\ value = digits_value 0 l.
Proof.
  intros Hlen. unfold parse_decimal. destruct (decide (l = [])) as [->|Hne]; [by rewrite bool_decide_true; naive_solver|].
  rewrite bool_decide_false by done. cbn [orb]. destruct (forallb is_ascii_digit l) eqn:Hd; cbn [negb].
  - apply forallb_Forall_true in Hd. rewrite parse_digits_spec by (done || unfold int_min, int_max; lia).
    pose proof (digits_value_bounds l Hd) as Hb. assert (Hp : 10 ^ list_len l <= 10 ^ 9) by (apply Z.pow_le_mono_r; unfold list_len; lia).
    rewrite checked_in_range by (unfold int_min, int_max; lia). split; [intros [= <-]; done|intros (_ & _ & ->); done].
  - split; [done|]. intros (_ & Hall & _). apply forallb_Forall_true in Hall. congruence.
Qed.

Lemma parse_field n l value :
  length l = S n -> (S n <= 9)%nat -> parse_decimal l = Some value <-> digits_of (S n) l value.
Proof.
  intros Hl Hn. rewrite parse_decimal_some by lia. unfold digits_of. split; [intros (_ & H1 & H2); done|intros (_ & H1 & H2)].
  split; [by intros ->|done].
Qed.

Lemma parse_fraction_some l nanos : parse_fraction l = Some nanos <-> fraction_of l nanos.
Proof.
  unfold parse_fraction, fraction_of. destruct l as [|point digits].
  - split; [intros [= <-]; by left|intros [[_ ->]|(digits & ? & _)]; done].
  - destruct (decide (point = "."%char)) as [->|Hp].
    2: { rewrite bool_decide_false by done. split; [done|]. intros [[? _]|(digits' & [= ? ?] & _)]; [done|congruence]. }
    rewrite bool_decide_true by done. cbn [andb].
    destruct ((2 <=? length ("."%char :: digits))%nat && (length ("."%char :: digits) <=? 10)%nat) eqn:El.
    + apply andb_prop in El as [H1 H2]. apply Nat.leb_le in H1, H2. cbn [length] in H1, H2. split.
      * destruct (parse_decimal digits) as [v|] eqn:Ev; cbn [mbind option_bind]; [|done]. intros [= <-]. right. exists digits.
        apply parse_decimal_some in Ev as (_ & Hd & ->); [|lia]. split_and!; try done; lia.
      * intros [[? _]|(digits' & [= <-] & Hl & Hd & ->)]; [done|]. rewrite (proj2 (parse_decimal_some digits (digits_value 0 digits) ltac:(lia))); [done|].
        split_and!; try done. intros ->. cbn in Hl. lia.
    + split; [done|]. intros [[? _]|(digits' & [= <-] & Hl & _)]; [done|]. apply andb_false_iff in El. cbn [length] in El.
      rewrite !Nat.leb_gt in El. lia.
Qed.

Lemma fraction_range f nanos : fraction_of f nanos -> 0 <= nanos < NANOS.
Proof.
  unfold NANOS. intros [[_ ->]|(digits & _ & Hl & Hd & ->)]; [lia|]. pose proof (digits_value_bounds digits Hd) as Hb.
  assert (E : 10 ^ list_len digits * 10 ^ (9 - list_len digits) = 1000000000).
  { rewrite <- Z.pow_add_r by (unfold list_len; lia). by replace (list_len digits + (9 - list_len digits)) with 9 by lia. }
  assert (0 < 10 ^ (9 - list_len digits)) by (apply Z.pow_pos_nonneg; unfold list_len; lia). nia.
Qed.

(** The separators of a text of twenty bytes or more. *)
Lemma layout_some l :
  layout l = true <->
  exists y mo d h mi s f, l = y ++ "-"%char :: mo ++ "-"%char :: d ++ "T"%char :: h ++ ":"%char :: mi ++ ":"%char :: s ++ f ++ ["Z"%char] /\
    length y = 4%nat /\ length mo = 2%nat /\ length d = 2%nat /\ length h = 2%nat /\ length mi = 2%nat /\ length s = 2%nat.
Proof.
  unfold layout, byte_at. split.
  - rewrite !andb_true_iff, !bool_decide_eq_true. intros ((((((Hl & H4) & H7) & H10) & H13) & H16) & HZ). apply Nat.leb_le in Hl.
    destruct l as [|y1 l]; [cbn in Hl; lia|]. destruct l as [|y2 l]; [cbn in Hl; lia|]. destruct l as [|y3 l]; [cbn in Hl; lia|].
    destruct l as [|y4 l]; [cbn in Hl; lia|]. destruct l as [|c4 l]; [cbn in Hl; lia|]. destruct l as [|m1 l]; [cbn in Hl; lia|].
    destruct l as [|m2 l]; [cbn in Hl; lia|]. destruct l as [|c7 l]; [cbn in Hl; lia|]. destruct l as [|d1 l]; [cbn in Hl; lia|].
    destruct l as [|d2 l]; [cbn in Hl; lia|]. destruct l as [|c10 l]; [cbn in Hl; lia|]. destruct l as [|h1 l]; [cbn in Hl;
    lia|]. destruct l as [|h2 l]; [cbn in Hl; lia|]. destruct l as [|c13 l]; [cbn in Hl; lia|]. destruct l as [|i1 l]; [cbn in
    Hl; lia|]. destruct l as [|i2 l]; [cbn in Hl; lia|]. destruct l as [|c16 l]; [cbn in Hl; lia|]. destruct l as [|s1 l]; [cbn
    in Hl; lia|]. destruct l as [|s2 l]; [cbn in Hl; lia|].
    cbn in H4, H7, H10, H13, H16.
    injection H4 as ->. injection H7 as ->. injection H10 as ->. injection H13 as ->. injection H16 as ->.
    destruct l as [|x l] using rev_ind; [cbn in Hl; lia|]. clear IHl.
    assert (Hx : x = "Z"%char).
    { change (last ([y1; y2; y3; y4; "-"; m1; m2; "-"; d1; d2; "T"; h1; h2; ":"; i1; i2; ":"; s1; s2]%char ++ (l ++ [x])) = Some "Z"%char) in HZ.
      rewrite app_assoc, last_snoc in HZ. by injection HZ. }
    subst x. exists [y1; y2; y3; y4], [m1; m2], [d1; d2], [h1; h2], [i1; i2], [s1; s2], l. done.
  - intros (y & mo & d & h & mi & s & f & -> & Hy & Hmo & Hd & Hh & Hmi & Hs).
    do 4 (destruct y as [|? y]; [done|]). destruct y; [|done]. do 2 (destruct mo as [|? mo]; [done|]). destruct mo; [|done].
    do 2 (destruct d as [|? d]; [done|]). destruct d; [|done]. do 2 (destruct h as [|? h]; [done|]). destruct h; [|done].
    do 2 (destruct mi as [|? mi]; [done|]). destruct mi; [|done]. do 2 (destruct s as [|? s]; [done|]). destruct s; [|done].
    cbn [app]. rewrite !andb_true_iff, !bool_decide_eq_true. split_and!; try done; [apply Nat.leb_le; cbn; rewrite length_app; cbn; lia|].
    match goal with |- last ?l = _ => change l with ((take 19 l) ++ f ++ ["Z"%char]) end. by rewrite app_assoc, last_snoc.
Qed.

Lemma slices y mo d h mi s f :
  length y = 4%nat -> length mo = 2%nat -> length d = 2%nat -> length h = 2%nat -> length mi = 2%nat -> length s = 2%nat ->
  let l := y ++ "-"%char :: mo ++ "-"%char :: d ++ "T"%char :: h ++ ":"%char :: mi ++ ":"%char :: s ++ f ++ ["Z"%char] in
  slice 0 4 l = y /\ slice 5 7 l = mo /\ slice 8 10 l = d /\ slice 11 13 l = h /\ slice 14 16 l = mi /\ slice 17 19 l = s /\
  slice 19 (length l - 1) l = f.
Proof.
  intros Hy Hmo Hd Hh Hmi Hs.
  do 4 (destruct y as [|? y]; [done|]). destruct y; [|done]. do 2 (destruct mo as [|? mo]; [done|]). destruct mo; [|done].
  do 2 (destruct d as [|? d]; [done|]). destruct d; [|done]. do 2 (destruct h as [|? h]; [done|]). destruct h; [|done].
  do 2 (destruct mi as [|? mi]; [done|]). destruct mi; [|done]. do 2 (destruct s as [|? s]; [done|]). destruct s; [|done].
  cbn zeta. split_and!; try reflexivity. unfold slice. cbn [app length drop]. rewrite length_app. cbn [length].
  replace (_ - 1 - 19)%nat with (length f) by lia. rewrite drop_0. by apply take_app_length.
Qed.

Lemma fields_valid_spec year month day hour minute second :
  0 <= year -> 0 <= day -> fields_valid year month day hour minute second = true <->
  gregorian_date (year, month, day) /\ hour <= 23 /\ minute <= 59 /\ second <= 59.
Proof.
  intros Hy Hd. rewrite gregorian_date_valid. unfold fields_valid, valid_date. rewrite !andb_true_iff, negb_true_iff, Z.eqb_neq, !Z.leb_le. lia.
Qed.

(** C39: [parse_utc_timestamp] accepts exactly the canonical UTC timestamps (four
    digits of the year, two of every other field, at most nine of a fraction, a
    date of the Gregorian calendar, no leap second), and the instant is the one
    they denote: the seconds of the days from the first of January 1970, counted
    by the lengths of the years and months, and of the time of the day, and the
    nanoseconds, which are less than a second. *)
Theorem parse_utc_timestamp_exact text instant :
  parse_utc_timestamp text = Some instant <->
  exists date second_of_day nanos, timestamp_of text date second_of_day nanos /\ 0 <= nanos < NANOS /\
    instant = mkInstant (unix_day date * 86400 + second_of_day) nanos.
Proof.
  unfold parse_utc_timestamp. split.
  - destruct (layout (bytes text)) eqn:Hlay; cbn [negb]; [|done].
    apply layout_some in Hlay as (y & mo & d & h & mi & s & f & E & Hy & Hmo & Hd & Hh & Hmi & Hs).
    pose proof (slices y mo d h mi s f Hy Hmo Hd Hh Hmi Hs) as Hsl. cbn zeta in Hsl. rewrite <- E in Hsl.
    destruct Hsl as (-> & -> & -> & -> & -> & -> & ->).
    destruct (parse_decimal y) as [year|] eqn:Ey; cbn [mbind option_bind]; [|done]. apply (parse_field 3) in Ey; [|done|lia].
    destruct (parse_decimal mo) as [month|] eqn:Emo; cbn [mbind option_bind]; [|done]. apply (parse_field 1) in Emo; [|done|lia].
    destruct (parse_decimal d) as [day|] eqn:Ed; cbn [mbind option_bind]; [|done]. apply (parse_field 1) in Ed; [|done|lia].
    destruct (parse_decimal h) as [hour|] eqn:Eh; cbn [mbind option_bind]; [|done]. apply (parse_field 1) in Eh; [|done|lia].
    destruct (parse_decimal mi) as [minute|] eqn:Emi; cbn [mbind option_bind]; [|done]. apply (parse_field 1) in Emi; [|done|lia].
    destruct (parse_decimal s) as [second|] eqn:Es; cbn [mbind option_bind]; [|done]. apply (parse_field 1) in Es; [|done|lia].
    destruct (fields_valid year month day hour minute second) eqn:Hv; cbn [negb]; [|done].
    destruct (parse_fraction f) as [nanos|] eqn:Ef; cbn [mbind option_bind]; [|done]. apply parse_fraction_some in Ef. intros [= <-].
    apply fields_valid_spec in Hv; [|destruct Ey as (_ & Hy' & ->); apply (digits_value_bounds y Hy')|destruct Ed as (_ & Hd' & ->); apply (digits_value_bounds d Hd')].
    exists (year, month, day), (hour * 3600 + minute * 60 + second), nanos. split; [|split; [|rewrite <- (day_number_unix_day _ (proj1 Hv)); f_equal; unfold day_number; lia]].
    + exists y, mo, d, h, mi, s, f, year, month, day, hour, minute, second. destruct_and?. split_and!; done.
    + by apply fraction_range in Ef.
  - intros (date & sod & nanos & (y & mo & d & h & mi & s & f & year & month & day & hour & minute & second & E & Ey & Emo & Ed & Eh & Emi & Es & Ef & -> & Hv & Hh & Hm & Hs & ->) & _ & ->).
    rewrite E. rewrite (proj2 (layout_some _)) by (exists y, mo, d, h, mi, s, f; split_and!; try done; [apply Ey|apply Emo|apply Ed|apply Eh|apply Emi|apply Es]).
    cbn [negb]. pose proof (slices y mo d h mi s f (proj1 Ey) (proj1 Emo) (proj1 Ed) (proj1 Eh) (proj1 Emi) (proj1 Es)) as Hsl. cbn zeta in Hsl.
    destruct Hsl as (-> & -> & -> & -> & -> & -> & ->).
    rewrite (proj2 (parse_field 3 y year (proj1 Ey) ltac:(lia)) Ey), (proj2 (parse_field 1 mo month (proj1 Emo) ltac:(lia)) Emo),
      (proj2 (parse_field 1 d day (proj1 Ed) ltac:(lia)) Ed), (proj2 (parse_field 1 h hour (proj1 Eh) ltac:(lia)) Eh),
      (proj2 (parse_field 1 mi minute (proj1 Emi) ltac:(lia)) Emi), (proj2 (parse_field 1 s second (proj1 Es) ltac:(lia)) Es).
    assert (Hyd : 0 <= year /\ 0 <= day) by (destruct Hv as (? & ? & ? & ? & ?); lia).
    cbn [mbind option_bind]. rewrite (proj2 (fields_valid_spec _ _ _ _ _ _ (proj1 Hyd) (proj2 Hyd))) by done.
    cbn [negb]. rewrite (proj2 (parse_fraction_some f nanos) Ef), <- (day_number_unix_day _ Hv).
    cbn [mbind option_bind]. do 2 f_equal. unfold day_number. lia.
Qed.

Lemma days_from_civil_counts_days_witness :
  valid_date (2024, 2, 28) /\ next_day (2024, 2, 28) = (2024, 2, 29) /\
  day_number (next_day (2024, 2, 28)) = day_number (2024, 2, 28) + 1.
Proof.
  assert (Hv : valid_date (2024, 2, 28)) by (vm_compute; repeat split; discriminate).
  split; [exact Hv|]. split; [reflexivity|]. apply (days_from_civil_counts_days (2024, 2, 28) Hv).
Defined.
