(* ===== verification/Process.v ===== *)
(** * The identity of a process

    Models [troupe-diagnostics-runtime/src/registry/process_identity.rs]: the
    identity by which a run remembers its owner, a boot and a start time, and what
    an observation of a process id says about it.  Files of [/proc] are read by a
    function of their path; they are ASCII. *)

From S2P Require Import Prelude Files Text Wire.

Definition MAX_PROCESS_IDENTITY_BYTES : Z := 512.

Definition LINUX_PROCESS_IDENTITY_SCHEME : string := "linux-proc-v1".

Definition ProcessIdentityError := string.

Record ProcessIdentity := mkProcessIdentity { pi_text : string }.

#[export] Instance ProcessIdentity_eq_dec : EqDecision ProcessIdentity.
Proof. solve_decision. Defined.

Definition scheme_byte (c : ascii) : bool :=
  is_ascii_lowercase c || is_ascii_digit c || Ascii.eqb c "-" || Ascii.eqb c "_".

Definition ProcessIdentity_new (scheme discriminator : string) : result ProcessIdentity ProcessIdentityError :=
  if bool_decide (scheme = EmptyString) || (64 <? str_len scheme) || negb (forallb scheme_byte (bytes scheme)) then
    Err "process identity scheme is invalid"
  else if bool_decide (discriminator = EmptyString) || negb (is_ascii discriminator)
          || negb (forallb is_ascii_graphic (bytes discriminator)) then
    Err "process identity discriminator is invalid"
  else
    let? length :=
      ok_or (value ← checked_add Usize (str_len scheme) 1; checked_add Usize value (str_len discriminator))
        "process identity is too long" in
    if MAX_PROCESS_IDENTITY_BYTES <? length then Err "process identity is too long"
    else Ok (mkProcessIdentity (scheme +:+ ":" +:+ discriminator)).

Definition ProcessIdentity_parse (value : string) : result ProcessIdentity ProcessIdentityError :=
  match split_once ":" (bytes value) with
  | None => Err "process identity has no scheme"
  | Some (scheme, discriminator) => ProcessIdentity_new (of_bytes scheme) (of_bytes discriminator)
  end.

(** [None] is the panic of [expect]. *)
Definition ProcessIdentity_scheme (self : ProcessIdentity) : option string :=
  '(scheme, _) ← split_once ":" (bytes (pi_text self)); Some (of_bytes scheme).

Definition ProcessIdentity_discriminator (self : ProcessIdentity) : option string :=
  '(_, discriminator) ← split_once ":" (bytes (pi_text self)); Some (of_bytes discriminator).

Inductive ObservedProcessIdentity :=
| Observed_Alive (actual : ProcessIdentity)
| Observed_DefinitelyGone
| Observed_Unknown.

Inductive ProcessIdentityClassification := Owner_Alive | Owner_DefinitelyGone | Owner_PidReused | Owner_Unknown.

#[export] Instance ProcessIdentityClassification_eq_dec : EqDecision ProcessIdentityClassification.
Proof. solve_decision. Defined.

Definition is_definitely_stale (c : ProcessIdentityClassification) : bool :=
  match c with Owner_DefinitelyGone | Owner_PidReused => true | _ => false end.

Definition classify_process_identity (expected : ProcessIdentity) (observed : ObservedProcessIdentity)
    : ProcessIdentityClassification :=
  match observed with
  | Observed_Alive actual => if bool_decide (actual = expected) then Owner_Alive else Owner_PidReused
  | Observed_DefinitelyGone => Owner_DefinitelyGone
  | Observed_Unknown => Owner_Unknown
  end.

(** The twentieth field after the command, which may hold any byte. *)
Definition linux_start_ticks (stat : string) : option string :=
  fields_after_command ← after_last ")" (bytes stat);
  start_ticks ← split_ascii_whitespace fields_after_command !! 19%nat;
  if bool_decide (start_ticks = []) || negb (forallb is_ascii_digit start_ticks) then None else Some (of_bytes start_ticks).

Definition boot_id_byte (c : ascii) : bool := is_ascii_hexdigit c || Ascii.eqb c "-".

Definition observe_process_identity (read_to_string : string -> result string IoErrorKind) (pid : Z) : ObservedProcessIdentity :=
  match read_to_string "/proc/sys/kernel/random/boot_id" with
  | Err _ => Observed_Unknown
  | Ok value =>
      let boot_id := trim (bytes value) in
      if bool_decide (boot_id = []) || negb (forallb boot_id_byte boot_id) then Observed_Unknown
      else
        match read_to_string ("/proc/" +:+ u64_to_string pid +:+ "/stat") with
        | Err Io_NotFound => Observed_DefinitelyGone
        | Err _ => Observed_Unknown
        | Ok stat =>
            match linux_start_ticks stat with
            | None => Observed_Unknown
            | Some start_ticks =>
                match ProcessIdentity_new LINUX_PROCESS_IDENTITY_SCHEME (of_bytes boot_id +:+ ":" +:+ start_ticks) with
                | Ok self => Observed_Alive self
                | Err _ => Observed_Unknown
                end
            end
        end
  end.

(** The error is its kind and its text. *)
Definition current_process_identity (read_to_string : string -> result string IoErrorKind) (id : Z) : result ProcessIdentity IoError :=
  match observe_process_identity read_to_string id with
  | Observed_Alive self => Ok self
  | Observed_DefinitelyGone => Err (mkIoError Io_NotFound "current process disappeared while capturing its identity")
  | Observed_Unknown => Err (mkIoError Io_OtherKind "current platform process identity is unavailable")
  end.

(** ** Identities *)

(** The parts of an identity. *)
Definition identity_parts (scheme discriminator : string) : Prop :=
  scheme <> EmptyString /\ str_len scheme <= 64 /\ Forall (fun c => scheme_byte c = true) (bytes scheme) /\
  discriminator <> EmptyString /\ Forall (fun c => is_ascii_graphic c = true) (bytes discriminator) /\
  str_len scheme + 1 + str_len discriminator <= MAX_PROCESS_IDENTITY_BYTES.

Lemma forallb_Forall {A} (p : A -> bool) l : forallb p l = true <-> Forall (fun c => p c = true) l.
Proof. apply forallb_Forall_true. Qed.

Lemma graphic_ascii s : Forall (fun c => is_ascii_graphic c = true) (bytes s) -> is_ascii s = true.
Proof.
  intros H. apply forallb_Forall. eapply Forall_impl; [exact H|]. intros c. cbn. unfold is_ascii_graphic, is_ascii_byte.
  intros [_ H2%Z.leb_le]%andb_prop. lia.
Qed.

Lemma str_len_nonneg s : 0 <= str_len s.
Proof. unfold str_len. lia. Qed.

Lemma ProcessIdentity_new_ok scheme discriminator self :
  ProcessIdentity_new scheme discriminator = Ok self <->
  identity_parts scheme discriminator /\ pi_text self = scheme +:+ ":" +:+ discriminator.
Proof.
  unfold ProcessIdentity_new, identity_parts. pose proof (str_len_nonneg scheme). pose proof (str_len_nonneg discriminator).
  destruct (decide (scheme = EmptyString)) as [He|He]; [rewrite bool_decide_true by done; naive_solver|]. rewrite bool_decide_false by done. cbn [orb].
  destruct (Z.ltb_spec 64 (str_len scheme)); [split; [done|intros [? _]; lia]|]. cbn [orb].
  destruct (forallb scheme_byte (bytes scheme)) eqn:Hs; cbn [negb];
    [apply forallb_Forall in Hs|split; [done|]; intros [(_ & _ & Hf & _) _]; apply forallb_Forall in Hf; congruence].
  destruct (decide (discriminator = EmptyString)) as [Hd|Hd]; [rewrite bool_decide_true by done; naive_solver|]. rewrite bool_decide_false by done. cbn [orb].
  destruct (forallb is_ascii_graphic (bytes discriminator)) eqn:Hg.
  2:{ rewrite orb_true_r. split; [done|]. intros [(_ & _ & _ & _ & Hf & _) _]. apply forallb_Forall in Hf. congruence. }
  apply forallb_Forall in Hg. rewrite graphic_ascii by done. cbn [negb orb].
  destruct (Z.le_gt_cases (str_len scheme + 1 + str_len discriminator) MAX_PROCESS_IDENTITY_BYTES) as [Hle|Hgt].
  - unfold checked_add. unfold MAX_PROCESS_IDENTITY_BYTES in *. rewrite checked_in_range by (unfold int_min, int_max; lia). cbn [mbind option_bind].
    rewrite checked_in_range by (unfold int_min, int_max; lia). cbn [ok_or result_bind]. rewrite (proj2 (Z.ltb_ge _ _)) by lia.
    destruct self as [t]. cbn [pi_text]. split; [intros [= <-]|intros [_ ->]]; done.
  - split; [|intros [? _]; lia].
    destruct (value ← checked_add Usize (str_len scheme) 1; checked_add Usize value (str_len discriminator)) as [n|] eqn:E; [|done].
    apply bind_Some in E as (v & Ev & En). apply checked_some in Ev as [-> _], En as [-> _]. cbn [ok_or result_bind].
    by rewrite (proj2 (Z.ltb_lt _ _)).
Qed.

Lemma scheme_no_colon scheme : Forall (fun c => scheme_byte c = true) (bytes scheme) -> (":"%char ∉ bytes scheme).
Proof. rewrite Forall_forall. intros H Hin. by specialize (H _ Hin). Qed.

Lemma bytes_parts scheme discriminator : bytes (scheme +:+ ":" +:+ discriminator) = bytes scheme ++ ":"%char :: bytes discriminator.
Proof. by rewrite !bytes_app. Qed.

Lemma identity_split self scheme discriminator :
  identity_parts scheme discriminator -> pi_text self = scheme +:+ ":" +:+ discriminator ->
  split_once ":" (bytes (pi_text self)) = Some (bytes scheme, bytes discriminator).
Proof. intros (_ & _ & Hs & _) ->. rewrite bytes_parts. by apply split_once_app, scheme_no_colon. Qed.

Lemma ProcessIdentity_parse_ok value self :
  ProcessIdentity_parse value = Ok self <->
  value = pi_text self /\ exists scheme discriminator, identity_parts scheme discriminator /\ value = scheme +:+ ":" +:+ discriminator.
Proof.
  unfold ProcessIdentity_parse. split.
  - destruct (split_once ":" (bytes value)) as [[s d]|] eqn:E; [|done]. intros H. apply ProcessIdentity_new_ok in H as [Hp Ht].
    apply split_once_some in E as [Hv _]. assert (Hvalue : value = of_bytes s +:+ ":" +:+ of_bytes d).
    { apply bytes_inj. rewrite bytes_parts, !bytes_of_bytes. done. }
    split; [congruence|]. by exists (of_bytes s), (of_bytes d).
  - intros [-> (s & d & Hp & Ht)]. rewrite (identity_split self s d) by done. rewrite !of_bytes_bytes. by apply ProcessIdentity_new_ok.
Qed.

(** Identities survive serialisation: the text of an identity that was
    constructed parses back to it, every text that is accepted is the text of the
    identity it parses to, and the parts it was made of are found again. *)
Theorem process_identity_roundtrip :
  (forall scheme discriminator self,
     ProcessIdentity_new scheme discriminator = Ok self ->
     ProcessIdentity_parse (pi_text self) = Ok self /\
     ProcessIdentity_scheme self = Some scheme /\ ProcessIdentity_discriminator self = Some discriminator) /\
  (forall value self, ProcessIdentity_parse value = Ok self -> pi_text self = value).
Proof.
  split.
  - intros scheme discriminator self H. apply ProcessIdentity_new_ok in H as [Hp Ht]. split_and!.
    + apply ProcessIdentity_parse_ok. split; [done|]. by exists scheme, discriminator.
    + unfold ProcessIdentity_scheme. rewrite (identity_split _ scheme discriminator) by done. cbn. by rewrite of_bytes_bytes.
    + unfold ProcessIdentity_discriminator. rewrite (identity_split _ scheme discriminator) by done. cbn. by rewrite of_bytes_bytes.
  - intros value self H. by apply ProcessIdentity_parse_ok in H as [-> _].
Qed.

(** ** Observations *)

(** The files of [/proc] of a running process: the boot id, and the status of the
    process, in which the command may hold any byte. *)
Definition stat_line (pid command : string) (fields : list string) : string :=
  of_bytes (bytes pid ++ " "%char :: "("%char :: bytes command ++ ")"%char :: " "%char :: spaced (map bytes fields) ++ [ascii_of_N 10]).

Record proc_files (read_to_string : string -> result string IoErrorKind) (pid : Z) (boot start : string) : Prop := {
  boot_file : exists before after,
    Forall (fun c => is_whitespace c = true) before /\ Forall (fun c => is_whitespace c = true) after /\
    read_to_string "/proc/sys/kernel/random/boot_id" = Ok (of_bytes (before ++ bytes boot ++ after));
  boot_known : boot <> EmptyString /\ Forall (fun c => boot_id_byte c = true) (bytes boot);
  stat_file : exists command fields,
    read_to_string ("/proc/" +:+ u64_to_string pid +:+ "/stat") = Ok (stat_line (u64_to_string pid) command fields) /\
    Forall (fun f => word (bytes f) /\ (")"%char ∉ bytes f)) fields /\ fields !! 19%nat = Some start;
  start_known : Forall (fun c => is_ascii_digit c = true) (bytes start);
  parts_short : str_len boot + str_len start <= 450;
}.

Lemma spaced_without c fields :
  c <> " "%char -> Forall (fun f => c ∉ bytes f) fields -> (c ∉ spaced (map bytes fields)).
Proof.
  intros Hc. induction 1 as [|f fields Hf _ IH]; [by intros ?%elem_of_nil|]. destruct fields as [|g fields]; [done|].
  change (spaced (map bytes (f :: g :: fields))) with (bytes f ++ " "%char :: spaced (map bytes (g :: fields))).
  intros [?|[?|?]%elem_of_cons]%elem_of_app; auto.
Qed.

Lemma linux_start_ticks_found pid command fields start :
  Forall (fun f => word (bytes f) /\ (")"%char ∉ bytes f)) fields -> fields !! 19%nat = Some start ->
  Forall (fun c => is_ascii_digit c = true) (bytes start) ->
  linux_start_ticks (stat_line pid command fields) = Some start.
Proof.
  intros Hf Hs Hd. unfold linux_start_ticks, stat_line. rewrite bytes_of_bytes.
  replace (bytes pid ++ " "%char :: "("%char :: bytes command ++ ")"%char :: " "%char :: spaced (map bytes fields) ++ [ascii_of_N 10])
    with ((bytes pid ++ " "%char :: "("%char :: bytes command) ++ ")"%char :: " "%char :: spaced (map bytes fields) ++ [ascii_of_N 10])
    by (by rewrite <- app_assoc).
  rewrite after_last_app.
  2:{ intros [?|[Hin|Hin%list_elem_of_singleton]%elem_of_app]%elem_of_cons; [done| |done]. revert Hin. apply spaced_without; [done|].
    eapply Forall_impl; [exact Hf|]. by intros f [_ ?]. }
  cbn [mbind option_bind]. unfold split_ascii_whitespace.
  change (words [] (" "%char :: ?l)) with (words [] l). fold (split_ascii_whitespace (spaced (map bytes fields) ++ [ascii_of_N 10])).
  rewrite split_spaced; [|apply Forall_map; eapply Forall_impl; [exact Hf|]; by intros f [? _]|by repeat constructor].
  rewrite list_lookup_fmap, Hs. cbn [fmap option_fmap option_map mbind option_bind].
  assert (Hw : word (bytes start)) by (rewrite Forall_lookup in Hf; by apply (Hf _ _ Hs)).
  rewrite bool_decide_false by apply Hw. rewrite (proj2 (forallb_Forall _ _) Hd). cbn [orb negb]. by rewrite of_bytes_bytes.
Qed.

Lemma boot_id_byte_plain c : boot_id_byte c = true -> is_whitespace c = false /\ is_ascii_graphic c = true.
Proof.
  unfold boot_id_byte, is_ascii_hexdigit, is_ascii_digit, is_whitespace, is_ascii_graphic. destruct (Ascii.eqb_spec c "-") as [->|_]; [done|].
  rewrite orb_false_r. intros H. bool_hyps. split; lia.
Qed.

Lemma observe_running read_to_string pid boot start :
  proc_files read_to_string pid boot start ->
  observe_process_identity read_to_string pid =
    Observed_Alive (mkProcessIdentity (LINUX_PROCESS_IDENTITY_SCHEME +:+ ":" +:+ boot +:+ ":" +:+ start)) /\
  (":"%char ∉ bytes boot).
Proof.
  intros [(before & after & Hb & Ha & Hr) [Hne Hboot] (command & fields & Hst & Hf & Hs) Hd Hl].
  assert (Hplain : Forall (fun c => is_whitespace c = false /\ is_ascii_graphic c = true) (bytes boot))
    by (eapply Forall_impl; [exact Hboot|]; intros c; apply boot_id_byte_plain).
  assert (Hw : word (bytes start)) by (rewrite Forall_lookup in Hf; by apply (Hf _ _ Hs)). split.
  2:{ intros Hin. rewrite Forall_forall in Hboot. by specialize (Hboot _ Hin). }
  unfold observe_process_identity. rewrite Hr, bytes_of_bytes, trim_spaced; [|done|done|eapply Forall_impl; [exact Hplain|]; by intros c [? _]].
  rewrite bool_decide_false by (intros E; apply Hne; by apply bytes_inj). rewrite (proj2 (forallb_Forall _ _) Hboot). cbn [orb negb].
  rewrite Hst, (linux_start_ticks_found _ _ _ start) by done. rewrite of_bytes_bytes.
  assert (Hnew : ProcessIdentity_new LINUX_PROCESS_IDENTITY_SCHEME (boot +:+ ":" +:+ start) =
    Ok (mkProcessIdentity (LINUX_PROCESS_IDENTITY_SCHEME +:+ ":" +:+ boot +:+ ":" +:+ start))); [|by rewrite Hnew].
  apply ProcessIdentity_new_ok. split; [|done]. split_and!.
  - done.
  - vm_compute; discriminate.
  - apply forallb_Forall. reflexivity.
  - by destruct boot.
  - rewrite !bytes_app. apply Forall_app. split; [eapply Forall_impl; [exact Hplain|]; by intros c [_ ?]|].
    apply Forall_app. split; [by repeat constructor|]. eapply Forall_impl; [exact Hd|]. intros c. unfold is_ascii_digit, is_ascii_graphic. cbn.
    intros H. bool_hyps. lia.
  - rewrite !str_len_bytes in *. rewrite !bytes_app, !list_len_app. change (list_len (bytes LINUX_PROCESS_IDENTITY_SCHEME)) with 13.
    change (list_len (bytes ":")) with 1. unfold MAX_PROCESS_IDENTITY_BYTES. lia.
Qed.

Lemma app_colon_inj (a1 a2 b1 b2 : list ascii) c :
  (c ∉ a1) -> (c ∉ a2) -> a1 ++ c :: b1 = a2 ++ c :: b2 -> a1 = a2 /\ b1 = b2.
Proof.
  intros H1 H2 E. pose proof (split_once_app c a1 b1 H1) as E1. rewrite E, (split_once_app c a2 b2 H2) in E1. by injection E1 as -> ->.
Qed.

(** C35: the identity of a running process that was captured once tells whether a
    process with its id is still that process: it is alive exactly when the boot
    and the start time are those that were captured, whatever command names the
    status files show, reused when one of them differs, and definitely gone only
    when the process has no status file. *)
Theorem process_identity_exact read1 read2 pid boot1 start1 :
  proc_files read1 pid boot1 start1 ->
  exists expected, observe_process_identity read1 pid = Observed_Alive expected /\
    (forall boot2 start2, proc_files read2 pid boot2 start2 ->
       classify_process_identity expected (observe_process_identity read2 pid) =
       if bool_decide (boot1 = boot2 /\ start1 = start2) then Owner_Alive else Owner_PidReused) /\
    (classify_process_identity expected (observe_process_identity read2 pid) = Owner_DefinitelyGone ->
     read2 ("/proc/" +:+ u64_to_string pid +:+ "/stat") = Err Io_NotFound).
Proof.
  intros H1. destruct (observe_running _ _ _ _ H1) as [E1 Hc1]. eexists. split; [exact E1|]. split.
  - intros boot2 start2 H2. destruct (observe_running _ _ _ _ H2) as [-> Hc2]. cbn [classify_process_identity].
    apply (f_equal (fun b : bool => if b then Owner_Alive else Owner_PidReused)), bool_decide_ext. split; [|by intros [-> ->]].
    intros [= E]. apply (f_equal bytes) in E. rewrite !bytes_app in E. change (bytes ":") with [":"%char] in E. cbn [app] in E.
    apply app_colon_inj in E as [Eb Es]; [|done|done]. split; by apply bytes_inj.
  - unfold observe_process_identity, classify_process_identity. repeat (case_match; try done).
Qed.

Definition sample_fields (start : string) : list string := replicate 19 "S" ++ [start; "0"].

Definition sample_proc (start : string) (path : string) : result string IoErrorKind :=
  if bool_decide (path = "/proc/sys/kernel/random/boot_id") then Ok ("0-f" +:+ of_bytes [ascii_of_N 10])
  else if bool_decide (path = "/proc/7/stat") then Ok (stat_line "7" "a) 1 2" (sample_fields start))
  else Err Io_NotFound.

Lemma sample_proc_files start :
  word (bytes start) -> (")"%char ∉ bytes start) -> Forall (fun c => is_ascii_digit c = true) (bytes start) -> str_len start <= 400 ->
  proc_files (sample_proc start) 7 "0-f" start.
Proof.
  intros Hw Hp Hd Hl. split; [| | |done|].
  - exists [], [ascii_of_N 10]. split_and!; [done|by repeat constructor|reflexivity].
  - split; [done|]. by repeat constructor.
  - exists "a) 1 2", (sample_fields start). split_and!; [reflexivity| |done].
    assert (Hs : word (bytes "S") /\ (")"%char ∉ bytes "S")).
    { split; [split; [done|by repeat constructor]|]. by intros ?%list_elem_of_singleton. }
    apply Forall_app. split; [by apply Forall_replicate|].
    apply Forall_cons; split; [by split|]. apply Forall_cons; split; [|by apply Forall_nil].
    split; [split; [done|by repeat constructor]|]. by intros ?%list_elem_of_singleton.
  - change (str_len "0-f") with 3. lia.
Qed.

Lemma process_identity_exact_witness :
  exists expected, observe_process_identity (sample_proc "12") 7 = Observed_Alive expected /\
    classify_process_identity expected (observe_process_identity (sample_proc "12") 7) = Owner_Alive /\
    classify_process_identity expected (observe_process_identity (sample_proc "13") 7) = Owner_PidReused.
Proof.
  assert (H12 : proc_files (sample_proc "12") 7 "0-f" "12").
  { apply sample_proc_files; [split; [done|by repeat constructor]| |by repeat constructor|vm_compute; discriminate].
    by intros [?|?%list_elem_of_singleton]%elem_of_cons. }
  assert (H13 : proc_files (sample_proc "13") 7 "0-f" "13").
  { apply sample_proc_files; [split; [done|by repeat constructor]| |by repeat constructor|vm_compute; discriminate].
    by intros [?|?%list_elem_of_singleton]%elem_of_cons. }
  destruct (process_identity_exact (sample_proc "12") (sample_proc "12") 7 "0-f" "12" H12) as (expected & E & Hc & _).
  destruct (process_identity_exact (sample_proc "12") (sample_proc "13") 7 "0-f" "12" H12) as (expected' & E' & Hc' & _).
  rewrite E in E'. injection E' as <-. exists expected. split; [exact E|]. split; [exact (Hc _ _ H12)|exact (Hc' _ _ H13)].
Defined.

Lemma process_identity_roundtrip_witness :
  exists self, ProcessIdentity_new "linux-proc-v1" "0-f:12" = Ok self /\ ProcessIdentity_parse (pi_text self) = Ok self /\
    ProcessIdentity_scheme self = Some "linux-proc-v1".
Proof.
  assert (H : exists self, ProcessIdentity_new "linux-proc-v1" "0-f:12" = Ok self) by (eexists; vm_compute; reflexivity).
  destruct H as [self H]. destruct (proj1 process_identity_roundtrip _ _ _ H) as (Hp & Hs & _).
  exists self. split; [exact H|]. split; [exact Hp|exact Hs].
Defined.
