(* ===== verification/Host.v ===== *)
(** * Questions to the host

    The components that look at a production ask the operating system, one call
    after the other, while other processes change what it answers.  A computation
    of [Sys] numbers its calls; a [Host] says what each call returns.  [None] is a
    panic, or a loop that has not ended within its fuel. *)

From S2P Require Import Prelude Files.

(** ** The monad *)

Definition Sys (A : Type) : Type := nat -> option (A * nat).

Definition sys_ret {A} (x : A) : Sys A := fun now => Some (x, now).

Definition sys_bind {A B} (m : Sys A) (k : A -> Sys B) : Sys B := fun now => '(x, now) ← m now; k x now.

(** One call. *)
Definition ask {A} (call : nat -> A) : Sys A := fun now => Some (call now, S now).

Definition sys_panic {A} : Sys A := fun _ => None.

(** [expect] *)
Definition sys_expect {A} (o : option A) : Sys A := fun now => x ← o; Some (x, now).

Notation "'let!' x := m 'in' k" := (sys_bind m (fun x => k))
  (at level 10, x name, m at level 100, k at level 200) : troupe_scope.

(** [m?], in a function that returns a [Result]. *)
Definition sys_try {A B E} (m : Sys (result A E)) (k : A -> Sys (result B E)) : Sys (result B E) :=
  sys_bind m (fun r => match r with Ok x => k x | Err e => sys_ret (Err e) end).

Notation "'try!' x := m 'in' k" := (sys_try m (fun x => k))
  (at level 10, x name, m at level 100, k at level 200) : troupe_scope.

(** [m.map_err(f)] *)
Definition sys_map_err {A E F} (f : E -> F) (m : Sys (result A E)) : Sys (result A F) :=
  sys_bind m (fun r => sys_ret (map_err f r)).

(** ** The operating system *)

(** An open file; [TryLockError] besides a failure. *)
Inductive LockOutcome := Lock_Granted | Lock_WouldBlock | Lock_Error (error : IoError).

(** What a call returns, by its number.  The permissions of a node are not among
    its [Metadata]; a lock is shared or exclusive. *)
Class Os := {
  os_symlink_metadata : PathBuf -> nat -> result Metadata IoError;
  os_path_mode : PathBuf -> nat -> Z;
  os_read_dir : PathBuf -> nat -> result (list (result string IoError)) IoError;
  os_open : PathBuf -> forall create_new writable : bool, nat -> result Z IoError;
  os_handle_metadata : Z -> nat -> result Metadata IoError;
  os_handle_mode : Z -> nat -> Z;
  os_set_permissions : Z -> Z -> nat -> result unit IoError;
  os_read : Z -> nat -> result string IoError;
  os_try_lock : Z -> forall exclusive : bool, nat -> LockOutcome;
}.

(** [FileIdentity], [NodeIdentity] on Unix. *)
Definition file_identity (m : Metadata) : Z * Z := (md_dev m, md_ino m).

Definition is_dir (m : Metadata) : bool := bool_decide (md_file_type m = FileType_Dir).
Definition is_file (m : Metadata) : bool := bool_decide (md_file_type m = FileType_File).
Definition is_symlink (m : Metadata) : bool := bool_decide (md_file_type m = FileType_Symlink).

(** ** Laws *)

Lemma sys_bind_some {A B} (m : Sys A) (k : A -> Sys B) now y later :
  sys_bind m k now = Some (y, later) <-> exists x between, m now = Some (x, between) /\ k x between = Some (y, later).
Proof.
  unfold sys_bind. split.
  - intros ([x between] & Hm & Hk)%bind_Some. by exists x, between.
  - intros (x & between & -> & Hk). done.
Qed.

Lemma sys_ret_some {A} (x y : A) now later : sys_ret x now = Some (y, later) <-> y = x /\ later = now.
Proof. unfold sys_ret. naive_solver. Qed.

Lemma ask_some {A} (call : nat -> A) now y later : ask call now = Some (y, later) <-> y = call now /\ later = S now.
Proof. unfold ask. naive_solver. Qed.

Lemma sys_expect_some {A} (o : option A) now y later : sys_expect o now = Some (y, later) <-> o = Some y /\ later = now.
Proof. unfold sys_expect. destruct o; cbn; naive_solver. Qed.

Lemma sys_try_some {A B E} (m : Sys (result A E)) (k : A -> Sys (result B E)) now y later :
  sys_try m k now = Some (Ok y, later) <-> exists x between, m now = Some (Ok x, between) /\ k x between = Some (Ok y, later).
Proof.
  unfold sys_try. rewrite sys_bind_some. split.
  - intros ([x|e] & between & Hm & Hk); [by exists x, between|by apply sys_ret_some in Hk as [? _]].
  - intros (x & between & Hm & Hk). by exists (Ok x), between.
Qed.

Lemma sys_map_err_ok {A E F} (f : E -> F) (m : Sys (result A E)) now y later :
  sys_map_err f m now = Some (Ok y, later) <-> m now = Some (Ok y, later).
Proof.
  unfold sys_map_err. rewrite sys_bind_some. split.
  - intros ([x|e] & between & Hm & [E' ->]%sys_ret_some); [by injection E' as ->|done].
  - intros Hm. exists (Ok y), later. by split.
Qed.

(** One call whose error is returned. *)
Lemma try_ask {A B E F} (f : E -> F) (call : nat -> result A E) (k : A -> Sys (result B F)) now :
  sys_try (sys_map_err f (ask call)) k now =
  match call now with Ok x => k x (S now) | Err e => Some (Err (f e), S now) end.
Proof. unfold sys_try, sys_map_err, sys_bind, ask, sys_ret. cbn. by destruct (call now). Qed.

(** Time does not run backwards. *)
Definition advances {A} (m : Sys A) : Prop := forall now x later, m now = Some (x, later) -> (now <= later)%nat.

Lemma advances_ret {A} (x : A) : advances (sys_ret x).
Proof. intros now y later [_ ->]%sys_ret_some. done. Qed.

Lemma advances_panic {A} : advances (@sys_panic A).
Proof. by intros now x later. Qed.

Lemma advances_ask {A} (call : nat -> A) : advances (ask call).
Proof. intros now y later [_ ->]%ask_some. lia. Qed.

Lemma advances_expect {A} (o : option A) : advances (sys_expect o).
Proof. intros now y later. unfold sys_expect. destruct o; cbn; [|done]. intros [= _ <-]. done. Qed.

Lemma advances_bind {A B} (m : Sys A) (k : A -> Sys B) : advances m -> (forall x, advances (k x)) -> advances (sys_bind m k).
Proof. intros Hm Hk now y later (x & between & H1%Hm & H2%Hk)%sys_bind_some. lia. Qed.

Lemma advances_try {A B E} (m : Sys (result A E)) (k : A -> Sys (result B E)) :
  advances m -> (forall x, advances (k x)) -> advances (sys_try m k).
Proof. intros Hm Hk. apply advances_bind; [done|]. intros [x|e]; [apply Hk|apply advances_ret]. Qed.

Lemma advances_map_err {A E F} (f : E -> F) (m : Sys (result A E)) : advances m -> advances (sys_map_err f m).
Proof. intros Hm. apply advances_bind; [done|]. intros r. apply advances_ret. Qed.

Create HintDb sys.
#[export] Hint Resolve advances_ret advances_panic advances_ask advances_expect advances_map_err : sys.

(** Computations that are built of calls advance. *)
Ltac advance :=
  repeat (match goal with
  | |- forall _, _ => intro
  | |- advances (sys_bind _ _) => apply advances_bind
  | |- advances (sys_try _ _) => apply advances_try
  | |- advances (match ?x with _ => _ end) => destruct x
  | |- advances (let '(_, _) := ?x in _) => destruct x
  end || solve [auto with sys]).

(** A computation that neither panics nor runs out of fuel. *)
Definition returns {A} (m : Sys A) : Prop := forall now, exists x later, m now = Some (x, later).

Lemma returns_ret {A} (x : A) : returns (sys_ret x).
Proof. intros now. by eexists _, _. Qed.

Lemma returns_ask {A} (call : nat -> A) : returns (ask call).
Proof. intros now. by eexists _, _. Qed.

Lemma returns_expect {A} (o : option A) : is_Some o -> returns (sys_expect o).
Proof. intros [x ->] now. by eexists _, _. Qed.

(** What follows a call may rely on what it returned. *)
Lemma returns_bind_with {A B} (m : Sys A) (k : A -> Sys B) now :
  (exists x later, m now = Some (x, later)) -> (forall x later, m now = Some (x, later) -> exists y end', k x later = Some (y, end')) ->
  exists y later, sys_bind m k now = Some (y, later).
Proof. intros (x & later & Hm) Hk. unfold sys_bind. rewrite Hm. exact (Hk x later Hm). Qed.

Lemma returns_bind {A B} (m : Sys A) (k : A -> Sys B) : returns m -> (forall x, returns (k x)) -> returns (sys_bind m k).
Proof. intros Hm Hk now. apply returns_bind_with; [apply Hm|]. intros x later _. apply Hk. Qed.

Lemma returns_try {A B E} (m : Sys (result A E)) (k : A -> Sys (result B E)) :
  returns m -> (forall x, returns (k x)) -> returns (sys_try m k).
Proof. intros Hm Hk. apply returns_bind; [done|]. intros [x|e]; [apply Hk|apply returns_ret]. Qed.

Lemma returns_map_err {A E F} (f : E -> F) (m : Sys (result A E)) : returns m -> returns (sys_map_err f m).
Proof. intros Hm. apply returns_bind; [done|]. intros r. apply returns_ret. Qed.

#[export] Hint Resolve returns_ret returns_ask returns_expect returns_map_err : sys.

(** Computations that are built of calls return. *)
Ltac return_all :=
  repeat (match goal with
  | |- forall _, _ => intro
  | |- returns (sys_bind _ _) => apply returns_bind
  | |- returns (sys_try _ _) => apply returns_try
  | |- returns (sys_map_err _ _) => apply returns_map_err
  | |- returns (match ?x with _ => _ end) => destruct x
  | |- returns (let '(_, _) := ?x in _) => destruct x
  end || solve [auto with sys]).

(** A computation that returned, call by call. *)
Ltac run_sys H :=
  repeat match type of H with
  | sys_bind _ _ _ = Some _ =>
      let x := fresh "x" in let t := fresh "t" in let Hm := fresh "Hm" in
      let H' := fresh in
      pose proof (proj1 (sys_bind_some _ _ _ _ _) H) as H'; clear H; destruct H' as (x & t & Hm & H)
  | sys_try _ _ _ = Some (Ok _, _) =>
      let x := fresh "x" in let t := fresh "t" in let Hm := fresh "Hm" in
      let H' := fresh in
      pose proof (proj1 (sys_try_some _ _ _ _ _) H) as H'; clear H; destruct H' as (x & t & Hm & H)
  end;
  repeat match goal with u : unit |- _ => destruct u end.
