(* ===== verification/Lease.v ===== *)
(** * Archive leases

    Models [troupe-diagnostics-runtime/src/archive/lease.rs]: a lease of a run
    directory is a lock on its anchor file, granted only if the anchor is the same
    regular file before and after it was locked.  The opener and the handle are
    those of the operating system. *)

From S2P Require Import Prelude Files Host.

Definition ARCHIVE_LEASE_ANCHOR_FILENAME : string := "diagnostics.lease".
Definition ARCHIVE_LEASE_ANCHOR_MODE : Z := 384.

Inductive ArchiveLeaseMode := Lease_Active | Lease_SharedReader | Lease_Cleanup.

#[export] Instance ArchiveLeaseMode_eq_dec : EqDecision ArchiveLeaseMode.
Proof. solve_decision. Defined.

Inductive ArchiveLeaseErrorCode :=
| Lease_InvalidRunDirectory | Lease_AnchorInspectFailed | Lease_AnchorSymlinkRejected | Lease_AnchorNotFile
| Lease_AnchorOpenFailed | Lease_AnchorIdentityChanged | Lease_AnchorPermissionFailed | Lease_AnchorModeMismatch
| Lease_Contended | Lease_LockFailed.

#[export] Instance ArchiveLeaseErrorCode_eq_dec : EqDecision ArchiveLeaseErrorCode.
Proof. solve_decision. Defined.

Definition ArchiveLeaseErrorCode_as_str (c : ArchiveLeaseErrorCode) : string :=
  match c with
  | Lease_InvalidRunDirectory => "archive_lease.invalid_run_directory"
  | Lease_AnchorInspectFailed => "archive_lease.anchor_inspect_failed"
  | Lease_AnchorSymlinkRejected => "archive_lease.anchor_symlink_rejected"
  | Lease_AnchorNotFile => "archive_lease.anchor_not_file"
  | Lease_AnchorOpenFailed => "archive_lease.anchor_open_failed"
  | Lease_AnchorIdentityChanged => "archive_lease.anchor_identity_changed"
  | Lease_AnchorPermissionFailed => "archive_lease.anchor_permission_failed"
  | Lease_AnchorModeMismatch => "archive_lease.anchor_mode_mismatch"
  | Lease_Contended => "archive_lease.contended"
  | Lease_LockFailed => "archive_lease.lock_failed"
  end.

Record ArchiveLeaseError := mkLeaseError {
  al_code : ArchiveLeaseErrorCode;
  al_mode : ArchiveLeaseMode;
  al_path : PathBuf;
  al_source : option IoError;
}.

Definition ArchiveLeaseError_display (e : ArchiveLeaseError) : string :=
  "diagnostic archive lease failed [" +:+ ArchiveLeaseErrorCode_as_str (al_code e) +:+ "] at " +:+ path_display (al_path e).

Record LeaseAnchorMetadata := mkAnchorMetadata {
  la_is_file : bool;
  la_is_symlink : bool;
  la_identity : Z * Z;
  la_mode : Z;
}.

Definition LeaseAnchorMetadata_from_metadata (metadata : Metadata) (mode : Z) : LeaseAnchorMetadata :=
  mkAnchorMetadata (is_file metadata) (is_symlink metadata) (file_identity metadata) (Z.land mode 511).

Section Leases.
Context {os : Os}.

(** [ArchiveLeaseHandle::metadata] *)
Definition handle_metadata (handle : Z) : Sys (result LeaseAnchorMetadata IoError) :=
  ask (fun now =>
    result_map (fun metadata => LeaseAnchorMetadata_from_metadata metadata (os_handle_mode handle now)) (os_handle_metadata handle now)).

Definition validate_run_directory (run_directory : PathBuf) (mode : ArchiveLeaseMode) : Sys (result unit ArchiveLeaseError) :=
  try! metadata := sys_map_err (fun error => mkLeaseError Lease_InvalidRunDirectory mode run_directory (Some error))
    (ask (os_symlink_metadata run_directory)) in
  if is_symlink metadata || negb (is_dir metadata) then sys_ret (Err (mkLeaseError Lease_InvalidRunDirectory mode run_directory None))
  else sys_ret (Ok tt).

Definition validate_anchor_kind (metadata : LeaseAnchorMetadata) (anchor_path : PathBuf) (mode : ArchiveLeaseMode)
    : result unit ArchiveLeaseError :=
  if la_is_symlink metadata then Err (mkLeaseError Lease_AnchorSymlinkRejected mode anchor_path None)
  else if negb (la_is_file metadata) then Err (mkLeaseError Lease_AnchorNotFile mode anchor_path None)
  else Ok tt.

Definition inspect_anchor (anchor_path : PathBuf) (mode : ArchiveLeaseMode)
    : Sys (result (option LeaseAnchorMetadata) ArchiveLeaseError) :=
  let! answer := ask (fun now => (os_symlink_metadata anchor_path now, os_path_mode anchor_path now)) in
  match answer with
  | (Ok metadata, permissions) =>
      let metadata := LeaseAnchorMetadata_from_metadata metadata permissions in
      sys_ret (let? _ := validate_anchor_kind metadata anchor_path mode in Ok (Some metadata))
  | (Err error, _) =>
      sys_ret match io_kind error with
              | Io_NotFound => Ok None
              | _ => Err (mkLeaseError Lease_AnchorInspectFailed mode anchor_path (Some error))
              end
  end.

Definition open_anchor (anchor_path : PathBuf) (mode : ArchiveLeaseMode) (create_anchor : bool) : Sys (result Z ArchiveLeaseError) :=
  let writable := bool_decide (mode = Lease_Active) in
  let open_failed error := mkLeaseError Lease_AnchorOpenFailed mode anchor_path (Some error) in
  try! inspected := inspect_anchor anchor_path mode in
  match inspected with
  | Some _ => sys_map_err open_failed (ask (os_open anchor_path false writable))
  | None =>
      if negb create_anchor then sys_ret (Err (open_failed (mkIoError Io_NotFound "entity not found")))
      else
        let! opened := ask (os_open anchor_path true true) in
        match opened with
        | Ok handle => sys_ret (Ok handle)
        | Err error =>
            match io_kind error with
            | Io_AlreadyExists =>
                try! _ := inspect_anchor anchor_path mode in
                sys_map_err open_failed (ask (os_open anchor_path false writable))
            | _ => sys_ret (Err (open_failed error))
            end
        end
  end.

Definition verify_path_identity (anchor_path : PathBuf) (expected : Z * Z) (mode : ArchiveLeaseMode) : Sys (result unit ArchiveLeaseError) :=
  let changed := mkLeaseError Lease_AnchorIdentityChanged mode anchor_path None in
  try! inspected := inspect_anchor anchor_path mode in
  sys_ret
    match inspected with
    | None => Err changed
    | Some path_metadata => if bool_decide (expected <> la_identity path_metadata) then Err changed else Ok tt
    end.

Definition inspect_failed (anchor_path : PathBuf) (mode : ArchiveLeaseMode) (error : IoError) : ArchiveLeaseError :=
  mkLeaseError Lease_AnchorInspectFailed mode anchor_path (Some error).

Definition secure_and_revalidate_anchor (anchor_path : PathBuf) (handle : Z) (mode : ArchiveLeaseMode) (secure_permissions : bool)
    : Sys (result unit ArchiveLeaseError) :=
  try! opened := sys_map_err (inspect_failed anchor_path mode) (handle_metadata handle) in
  try! _ := sys_ret (validate_anchor_kind opened anchor_path mode) in
  try! _ := verify_path_identity anchor_path (la_identity opened) mode in
  try! _ :=
    (if secure_permissions then
       sys_map_err (fun error => mkLeaseError Lease_AnchorPermissionFailed mode anchor_path (Some error))
         (ask (os_set_permissions handle ARCHIVE_LEASE_ANCHOR_MODE))
     else sys_ret (Ok tt)) in
  try! secured := sys_map_err (inspect_failed anchor_path mode) (handle_metadata handle) in
  if bool_decide (la_identity secured <> la_identity opened) then
    sys_ret (Err (mkLeaseError Lease_AnchorIdentityChanged mode anchor_path None))
  else if secure_permissions && negb (la_mode secured =? ARCHIVE_LEASE_ANCHOR_MODE) then
    sys_ret (Err (mkLeaseError Lease_AnchorModeMismatch mode anchor_path None))
  else verify_path_identity anchor_path (la_identity secured) mode.

Definition revalidate_locked_anchor (anchor_path : PathBuf) (handle : Z) (mode : ArchiveLeaseMode) : Sys (result unit ArchiveLeaseError) :=
  try! locked := sys_map_err (inspect_failed anchor_path mode) (handle_metadata handle) in
  try! _ := sys_ret (validate_anchor_kind locked anchor_path mode) in
  verify_path_identity anchor_path (la_identity locked) mode.

Definition acquire (run_directory : PathBuf) (mode : ArchiveLeaseMode) : Sys (result (Z * PathBuf) ArchiveLeaseError) :=
  try! _ := validate_run_directory run_directory mode in
  let anchor_path := join_path run_directory ARCHIVE_LEASE_ANCHOR_FILENAME in
  let create_anchor := bool_decide (mode = Lease_Active) in
  try! handle := open_anchor anchor_path mode create_anchor in
  try! _ := secure_and_revalidate_anchor anchor_path handle mode (bool_decide (mode = Lease_Active)) in
  let! lock_result := ask (os_try_lock handle (negb (bool_decide (mode = Lease_SharedReader)))) in
  match lock_result with
  | Lock_Granted =>
      try! _ := revalidate_locked_anchor anchor_path handle mode in
      sys_ret (Ok (handle, anchor_path))
  | Lock_WouldBlock => sys_ret (Err (mkLeaseError Lease_Contended mode anchor_path None))
  | Lock_Error error => sys_ret (Err (mkLeaseError Lease_LockFailed mode anchor_path (Some error)))
  end.

(** The handle is dropped, and with it the lock. *)
Definition probe_archive_lease (run_directory : PathBuf) (mode : ArchiveLeaseMode) : Sys (result unit ArchiveLeaseError) :=
  try! _ := acquire run_directory mode in sys_ret (Ok tt).

(** ** What a lease says *)

Lemma validate_anchor_kind_ok metadata anchor_path mode :
  validate_anchor_kind metadata anchor_path mode = Ok tt <-> la_is_symlink metadata = false /\ la_is_file metadata = true.
Proof. unfold validate_anchor_kind. destruct (la_is_symlink metadata), (la_is_file metadata); naive_solver. Qed.

(** At a call the path is a regular file of an identity. *)
Definition anchored (path : PathBuf) (identity : Z * Z) (call : nat) : Prop :=
  exists metadata, os_symlink_metadata path call = Ok metadata /\ md_file_type metadata = FileType_File /\
    file_identity metadata = identity.

(** At a call the handle is. *)
Definition handle_of (handle : Z) (identity : Z * Z) (call : nat) : Prop :=
  exists metadata, os_handle_metadata handle call = Ok metadata /\ md_file_type metadata = FileType_File /\
    file_identity metadata = identity.

Lemma inspect_anchor_later path mode now r later : inspect_anchor path mode now = Some (r, later) -> later = S now.
Proof.
  unfold inspect_anchor. intros H. run_sys H. apply ask_some in Hm as [-> ->].
  destruct (os_symlink_metadata path now); by apply sys_ret_some in H as [_ ->].
Qed.

Lemma inspect_anchor_some path mode now anchor later :
  inspect_anchor path mode now = Some (Ok (Some anchor), later) -> later = S now /\ anchored path (la_identity anchor) now.
Proof.
  unfold inspect_anchor. intros H. run_sys H. apply ask_some in Hm as [-> ->]. destruct (os_symlink_metadata path now) as [m|e] eqn:E.
  - apply sys_ret_some in H; destruct H as [H ->]. destruct (validate_anchor_kind _ path mode) as [[]|] eqn:Hk; [|done]. injection H as ->.
    apply validate_anchor_kind_ok in Hk as [_ Hf]. cbn in Hf. apply bool_decide_eq_true in Hf. split; [done|]. by exists m.
  - apply sys_ret_some in H; destruct H as [H ->]. by destruct (io_kind e).
Qed.

Lemma verify_path_identity_ok path expected mode now later :
  verify_path_identity path expected mode now = Some (Ok tt, later) -> later = S now /\ anchored path expected now.
Proof.
  unfold verify_path_identity. intros H. run_sys H. apply sys_ret_some in H; destruct H as [H ->]. destruct x as [m|]; [|done].
  apply inspect_anchor_some in Hm as [-> Ha]. case_bool_decide as E; [done|]. subst expected. by split.
Qed.

Lemma handle_metadata_ok handle now anchor later :
  handle_metadata handle now = Some (Ok anchor, later) -> later = S now /\
  exists m, os_handle_metadata handle now = Ok m /\ anchor = LeaseAnchorMetadata_from_metadata m (os_handle_mode handle now).
Proof.
  unfold handle_metadata. intros [H ->]%ask_some. split; [done|]. destruct (os_handle_metadata handle now) as [m|]; [|done].
  exists m. by injection H as ->.
Qed.

Lemma revalidate_locked_anchor_ok path handle mode now later :
  revalidate_locked_anchor path handle mode now = Some (Ok tt, later) ->
  exists identity, handle_of handle identity now /\ anchored path identity (S now) /\ later = S (S now).
Proof.
  unfold revalidate_locked_anchor. intros H. run_sys H. apply sys_map_err_ok, handle_metadata_ok in Hm as (-> & m & Em & ->).
  apply sys_ret_some in Hm0 as [Hk ->]. symmetry in Hk. apply validate_anchor_kind_ok in Hk as [_ Hf]. cbn in Hf.
  apply bool_decide_eq_true in Hf. apply verify_path_identity_ok in H as [-> Ha]. exists (file_identity m). split; [by exists m|by split].
Qed.

Lemma secured_mode path handle now later :
  secure_and_revalidate_anchor path handle Lease_Active true now = Some (Ok tt, later) ->
  exists call, (now <= call < later)%nat /\ Z.land (os_handle_mode handle call) 511 = ARCHIVE_LEASE_ANCHOR_MODE.
Proof.
  unfold secure_and_revalidate_anchor. intros H. run_sys H. case_bool_decide; [by apply sys_ret_some in H as [? _]|].
  apply sys_map_err_ok, handle_metadata_ok in Hm as (-> & _). apply sys_ret_some in Hm0 as [_ ->].
  apply verify_path_identity_ok in Hm1 as [-> _]. apply sys_map_err_ok, ask_some in Hm2 as [_ ->].
  apply sys_map_err_ok, handle_metadata_ok in Hm3 as (-> & m & _ & ->). cbn [la_mode LeaseAnchorMetadata_from_metadata] in H.
  destruct (Z.eqb_spec (Z.land (os_handle_mode handle (S (S (S now)))) 511) ARCHIVE_LEASE_ANCHOR_MODE) as [E|E]; cbn [andb negb] in H;
    [|by apply sys_ret_some in H as [? _]]. apply verify_path_identity_ok in H as [-> _]. exists (S (S (S now))). split; [lia|done].
Qed.

(** The handle is of an open of the path. *)
Definition opens (path : PathBuf) (handle : Z) (call : nat) : Prop := exists create write, os_open path create write call = Ok handle.

Lemma open_anchor_ok path mode create now handle later :
  open_anchor path mode create now = Some (Ok handle, later) -> exists opened, (now <= opened < later)%nat /\ opens path handle opened.
Proof.
  assert (Hopen : forall (error : IoError -> ArchiveLeaseError) at_ later', sys_map_err error (ask (os_open path false (bool_decide (mode = Lease_Active)))) at_ = Some (Ok handle, later') ->
    later' = S at_ /\ opens path handle at_).
  { intros error at_ later' [E ->]%sys_map_err_ok%ask_some. split; [done|]. by eexists _, _. }
  unfold open_anchor. intros H. run_sys H. assert (Ht : (now <= t)%nat).
  { assert (Ha : advances (inspect_anchor path mode)) by (unfold inspect_anchor; advance). by apply Ha in Hm. }
  destruct x as [anchor|]; [apply Hopen in H as [-> Ho]; exists t; split; [lia|done]|].
  destruct (negb create); [by apply sys_ret_some in H as [? _]|]. run_sys H. apply ask_some in Hm0 as [-> ->].
  destruct (os_open path true true t) as [opened|error] eqn:Eo.
  - apply sys_ret_some in H as [[= ->] ->]. exists t. split; [lia|by exists true, true].
  - destruct (io_kind error); try by apply sys_ret_some in H as [? _].
    run_sys H. apply inspect_anchor_later in Hm0 as ->. apply Hopen in H as [-> Ho]. exists (S (S t)). split; [lia|done].
Qed.

Lemma lease_acquire_ok run_directory mode now handle path later :
  acquire run_directory mode now = Some (Ok (handle, path), later) ->
  path = join_path run_directory ARCHIVE_LEASE_ANCHOR_FILENAME /\
  exists opened locked identity, (now <= opened < locked)%nat /\ later = (locked + 3)%nat /\ opens path handle opened /\
    os_try_lock handle (negb (bool_decide (mode = Lease_SharedReader))) locked = Lock_Granted /\
    handle_of handle identity (S locked) /\ anchored path identity (S (S locked)).
Proof.
  unfold acquire. intros H. run_sys H. apply ask_some in Hm2 as [-> ->]. destruct (os_try_lock _ _ _) eqn:El; [|by apply sys_ret_some in H as [? _]..].
  run_sys H. apply sys_ret_some in H as [[= -> ->] ->]. split; [done|]. apply revalidate_locked_anchor_ok in Hm2 as (i & Hh & Ha & ->).
  apply open_anchor_ok in Hm0 as (opened & Hopened & Ho).
  assert (Hadv : (now <= opened < t1)%nat).
  { assert (H0 : (S now <= t)%nat).
    { unfold validate_run_directory in Hm. run_sys Hm. apply sys_map_err_ok, ask_some in Hm0 as [_ ->].
      destruct (_ || _); by apply sys_ret_some in Hm as [_ ->]. }
    assert (H2 : advances (secure_and_revalidate_anchor (join_path run_directory ARCHIVE_LEASE_ANCHOR_FILENAME) x0 mode (bool_decide (mode = Lease_Active)))).
    { unfold secure_and_revalidate_anchor, handle_metadata, verify_path_identity, inspect_anchor. advance. }
    apply H2 in Hm1. lia. }
  exists opened, t1, i. split_and!; try done; lia.
Qed.

(** The anchor of an active run is its owner's alone. *)
Lemma active_lease_secured run_directory now handle path later :
  acquire run_directory Lease_Active now = Some (Ok (handle, path), later) ->
  exists call, (now <= call < later)%nat /\ Z.land (os_handle_mode handle call) 511 = ARCHIVE_LEASE_ANCHOR_MODE.
Proof.
  intros H. pose proof (lease_acquire_ok _ _ _ _ _ _ H) as (_ & _ & locked & _ & _ & -> & _). unfold acquire in H. run_sys H.
  apply ask_some in Hm2 as [-> ->]. destruct (os_try_lock _ _ _) eqn:El; [|by apply sys_ret_some in H as [? _]..].
  run_sys H. apply sys_ret_some in H as [[= -> ->] Hl]. apply revalidate_locked_anchor_ok in Hm2 as (_ & _ & _ & Ht).
  destruct (secured_mode _ _ _ _ Hm1) as (call & Hc & Hmode). exists call. split; [|done].
  assert (Hadv : (now <= t0)%nat); [|lia].
  assert (Hv : advances (validate_run_directory run_directory Lease_Active)) by (unfold validate_run_directory; advance).
  assert (Ho : advances (open_anchor (join_path run_directory ARCHIVE_LEASE_ANCHOR_FILENAME) Lease_Active true))
    by (unfold open_anchor, inspect_anchor; advance).
  apply Hv in Hm. apply Ho in Hm0. lia.
Qed.

(** What [flock] promises of the locks of open files, by the calls at which a
    handle is still open: an open answers with a handle that is not, and a lock
    that is exclusive excludes those of all other handles on its file. *)
Record FlockLaws (held : Z -> nat -> Prop) : Prop := {
  open_fresh : forall path handle call, opens path handle call -> ~ held handle call;
  flock_excludes : forall handle1 handle2 exclusive1 exclusive2 call1 call2 identity seen1 seen2,
    handle1 <> handle2 -> (call1 < call2)%nat -> os_try_lock handle1 exclusive1 call1 = Lock_Granted ->
    (forall call, (call1 < call <= call2)%nat -> held handle1 call) ->
    os_try_lock handle2 exclusive2 call2 = Lock_Granted ->
    handle_of handle1 identity seen1 -> handle_of handle2 identity seen2 -> exclusive1 = false /\ exclusive2 = false;
}.

(** C33: leases exclude each other: while a lease of a run directory is held, and
    as long as nobody replaces its anchor, another one is granted only if both are
    of readers; so a run that is active, or that is being deleted, is nobody
    else's. *)
Theorem leases_exclude held run_directory mode1 now1 handle1 path1 later1 mode2 now2 handle2 path2 later2 :
  FlockLaws held ->
  acquire run_directory mode1 now1 = Some (Ok (handle1, path1), later1) ->
  acquire run_directory mode2 now2 = Some (Ok (handle2, path2), later2) ->
  (later1 <= now2)%nat ->
  (forall opened call, opens path1 handle1 opened -> (now1 <= opened < later1)%nat -> (opened < call < later2)%nat -> held handle1 call) ->
  (forall identity identity' call call', anchored path1 identity call -> anchored path1 identity' call' -> identity = identity') ->
  path1 = path2 /\ mode1 = Lease_SharedReader /\ mode2 = Lease_SharedReader.
Proof.
  intros [Hfresh Hflock] H1 H2 Hle Hheld Hsame. apply lease_acquire_ok in H1 as (-> & o1 & l1 & i1 & Hl1 & -> & Ho1 & Hg1 & Hh1 & Ha1).
  apply lease_acquire_ok in H2 as (-> & o2 & l2 & i2 & Hl2 & -> & Ho2 & Hg2 & Hh2 & Ha2). split; [done|].
  assert (i2 = i1) as -> by (by eapply Hsame).
  assert (Hx : forall call, (o1 < call < l2 + 3)%nat -> held handle1 call) by (intros call Hc; apply (Hheld o1); [done|lia|done]).
  assert (Hne : handle1 <> handle2) by (intros ->; apply (Hfresh _ _ _ Ho2), Hx; lia).
  destruct (Hflock _ _ _ _ l1 l2 i1 _ _ Hne ltac:(lia) Hg1 ltac:(intros call Hc; apply Hx; lia) Hg2 Hh1 Hh2) as [E1 E2].
  destruct (decide (mode1 = Lease_SharedReader)) as [->|]; [|by rewrite bool_decide_false in E1].
  destruct (decide (mode2 = Lease_SharedReader)) as [->|]; [done|by rewrite bool_decide_false in E2].
Qed.

End Leases.

(** A host with one run directory, whose anchor two readers open. *)
Definition sample_os : Os := {|
  os_symlink_metadata path _ :=
    Ok (if bool_decide (last (path_components path) = Some ARCHIVE_LEASE_ANCHOR_FILENAME) then mkMetadata FileType_File 0 1 5
        else mkMetadata FileType_Dir 0 1 4);
  os_path_mode _ _ := 384;
  os_read_dir _ _ := Ok [];
  os_open _ _ _ now := Ok (Z.of_nat now);
  os_handle_metadata _ _ := Ok (mkMetadata FileType_File 0 1 5);
  os_handle_mode _ _ := 384;
  os_set_permissions _ _ _ := Ok tt;
  os_read _ _ := Ok "";
  os_try_lock _ exclusive _ := if exclusive then Lock_WouldBlock else Lock_Granted;
|}.

Lemma leases_exclude_witness :
  let run_directory := mkPath true ["runs"; "1"] in
  exists handle1 handle2 path later1 later2,
    acquire (os := sample_os) run_directory Lease_SharedReader 0%nat = Some (Ok (handle1, path), later1) /\
    acquire (os := sample_os) run_directory Lease_SharedReader later1 = Some (Ok (handle2, path), later2) /\
    Lease_SharedReader = Lease_SharedReader.
Proof.
  intros run_directory. pose (path := join_path run_directory "diagnostics.lease").
  assert (H1 : acquire (os := sample_os) run_directory Lease_SharedReader 0%nat = Some (Ok (2, path), 10%nat)) by (vm_compute; reflexivity).
  assert (H2 : acquire (os := sample_os) run_directory Lease_SharedReader 10%nat = Some (Ok (12, path), 20%nat)) by (vm_compute; reflexivity).
  exists 2, 12, path, 10%nat, 20%nat. split; [exact H1|]. split; [exact H2|].
  refine (proj1 (proj2 (leases_exclude (os := sample_os) (fun handle call => handle < Z.of_nat call) run_directory _ _ _ _ _ _ _ _ _ _ _ H1 H2 _ _ _))).
  - split; [intros p h c (create & write & E); cbn in E; injection E as <-; lia|].
    intros h1 h2 e1 e2 c1 c2 i s1 s2 _ _ G1 _ G2 _ _. cbn in G1, G2. by destruct e1, e2.
  - lia.
  - intros opened call (create & write & E) _ Hc. cbn in E. injection E as E. lia.
  - intros i1 i2 c1 c2 (m1 & E1 & _ & <-) (m2 & E2 & _ & <-). cbn in E1, E2; injection E1 as <-; by injection E2 as <-.
Defined.
