(* ===== verification/Registry.v ===== *)
(** * The registry of running instances

    Models the entries of [troupe-diagnostics-runtime/src/registry/model.rs], with
    their URLs and hosts, their decoding ([codec.rs]), and the decoding of what a
    server says of itself ([discover.rs]).  What they, the discovery and the
    revalidation use of code that is not here is a [RegistryHost]: the operating
    system, the two probes, the SQLite connection, JSON, UUIDs, the texts of IP
    addresses, and URIs.  Paths are UTF-8. *)

From S2P Require Import Prelude Files Text Wire Order Event Store Process Host Lease.

Definition REGISTRY_SCHEMA_VERSION : Z := 1.
Definition SERVER_PROTOCOL_VERSION : Z := 1.

(** ** Entries *)

Inductive SecurityScope := Scope_TrustedNetwork.

#[export] Instance SecurityScope_eq_dec : EqDecision SecurityScope.
Proof. solve_decision. Defined.

Record WebBaseUrl := mkWebBaseUrl { url_text : string }.

#[export] Instance WebBaseUrl_eq_dec : EqDecision WebBaseUrl.
Proof. solve_decision. Defined.

Record BindEndpoint := mkBindEndpoint { be_host : string; be_port : Z }.

#[export] Instance BindEndpoint_eq_dec : EqDecision BindEndpoint.
Proof. solve_decision. Defined.

Record RegistryEntry := mkRegistryEntry {
  re_registry_schema_version : Z;
  re_server_protocol_version : Z;
  re_run_id : CanonicalUuid;
  re_archive_directory : string;
  re_owner_pid : Z;
  re_process_identity : ProcessIdentity;
  re_bind_host : string;
  re_port : Z;
  re_local_endpoint : WebBaseUrl;
  re_advertise_url : option WebBaseUrl;
  re_security_scope : SecurityScope;
  re_started_at : string;
}.

#[export] Instance RegistryEntry_eq_dec : EqDecision RegistryEntry.
Proof. solve_decision. Defined.

(** [DecodedRegistryEntry], with the versions of [RegistryEntryWire]. *)
Record RegistryEntryWire := mkEntryWire {
  rw_registry_schema_version : Z;
  rw_server_protocol_version : Z;
  rw_run_id : CanonicalUuid;
  rw_archive_directory : string;
  rw_owner_pid : Z;
  rw_process_identity : ProcessIdentity;
  rw_bind_host : string;
  rw_port : Z;
  rw_local_endpoint : WebBaseUrl;
  rw_advertise_url : option WebBaseUrl;
  rw_security_scope : SecurityScope;
  rw_started_at : string;
}.

Inductive RegistryModelErrorCode :=
| Model_InvalidBindHost | Model_InvalidPort | Model_InvalidUrl | Model_InvalidRunDirectory | Model_StoreIdentityMismatch
| Model_InvalidPid | Model_InvalidStartedAt | Model_LocalEndpointMismatch | Model_InvalidSecurityScope.

Record RegistryModelError := mkModelError { rme_code : RegistryModelErrorCode; rme_message : string }.

Inductive RegistryCodecErrorCode :=
| Codec_InvalidEntry | Codec_NewerSchema | Codec_UnsupportedSchema | Codec_UnsupportedServerProtocol.

Record RegistryCodecError := mkCodecError {
  rce_path : PathBuf;
  rce_code : RegistryCodecErrorCode;
  rce_observed_schema_version : option Z;
  rce_detail : string;
}.

Definition RegistryCodecError_display (e : RegistryCodecError) : string :=
  "diagnostic registry entry at " +:+ path_display (rce_path e) +:+ " is invalid: " +:+ rce_detail e.

(** What the server of an instance says of itself. *)
Record DecodedServerIdentity := mkServerIdentity {
  si_identity_schema_version : Z;
  si_server_protocol_version : Z;
  si_run_id : CanonicalUuid;
  si_owner_pid : Z;
  si_process_identity : ProcessIdentity;
  si_bind_host : string;
  si_port : Z;
  si_local_endpoint : WebBaseUrl;
  si_advertise_url : option WebBaseUrl;
  si_base_path : string;
  si_api_base_path : string;
  si_identity_path : string;
  si_security_scope : SecurityScope;
}.

(** The row of [run_metadata] that the discovery reads. *)
Record ArchiveRow := mkArchiveRow {
  ar_store_schema_version : Z;
  ar_schema_identity : string;
  ar_event_schema_version : Z;
  ar_run_id : string;
  ar_started_at : string;
  ar_ended_at : option string;
  ar_production_outcome : option string;
  ar_clean_shutdown : Z;
}.

(** [hyper::Uri], by the accessors that are used. *)
Record Uri := mkUri {
  uri_scheme_str : option string;
  uri_authority : option string;
  uri_host : option string;
  uri_path : string;
  uri_query : option string;
}.

(** An address is a number of 32 or 128 bits. *)
Inductive IpAddr := IpAddr_V4 (address : Z) | IpAddr_V6 (address : Z).

Definition LOCALHOST_V4 : IpAddr := IpAddr_V4 (127 * 2 ^ 24 + 1).
Definition LOCALHOST_V6 : IpAddr := IpAddr_V6 1.

(** ** What is not here

    The errors of libraries are their texts. *)
Class RegistryHost := {
  registry_os :: Os;
  uuid_parse_str : string -> option Z;
  uuid_hyphenated : Z -> string;
  (** [RegistryVersionEnvelope], [RegistryEntryWire] by [serde_json] *)
  entry_envelope : string -> result Z string;
  entry_wire : string -> result RegistryEntryWire string;
  (** [ServerIdentityEnvelope], [DecodedServerIdentity] *)
  identity_envelope : string -> result Z string;
  identity_wire : string -> result DecodedServerIdentity string;
  (** [IpAddr] by [FromStr] and [Display]; [Uri] by [FromStr] *)
  ip_parse : string -> option IpAddr;
  ip_to_string : IpAddr -> string;
  uri_parse : string -> option Uri;
  (** [ProcessIdentityProbe], [ServerIdentityProbe] *)
  observe : Z -> nat -> ObservedProcessIdentity;
  probe_identity : RegistryEntry -> nat -> result string string;
  (** [rusqlite] *)
  open_immutable_read_only : PathBuf -> nat -> result Z string;
  set_query_only : Z -> nat -> result unit string;
  is_readonly : Z -> nat -> bool;
  user_version : Z -> nat -> result Z string;
  query_run_metadata : Z -> nat -> result ArchiveRow string;
}.

(** ** The codec *)

Section Codec.
Context {host : RegistryHost}.

Definition uuid_text (run_id : CanonicalUuid) : string := CanonicalUuid_to_string uuid_hyphenated run_id.
Definition parse_uuid (value : string) : result CanonicalUuid WireValueError := CanonicalUuid_parse uuid_parse_str uuid_hyphenated value.

Definition invalid_url : RegistryModelError := mkModelError Model_InvalidUrl 
  "URL must be an absolute HTTP(S) base URL without userinfo, query, or fragment".

(** [str::contains] *)
Definition contains_char (c : ascii) (value : string) : bool := bool_decide (c ∈ bytes value).

(** [None] is the panic of [expect]. *)
Definition WebBaseUrl_parse (value : string) : option (result WebBaseUrl RegistryModelError) :=
  if bool_decide (value = EmptyString) || contains_char "#" value || existsb is_ascii_whitespace (bytes value) then Some (Err invalid_url)
  else
    match uri_parse value with
    | None => Some (Err invalid_url)
    | Some uri =>
        if negb (bool_decide (uri_scheme_str uri ∈ [Some "http"; Some "https"]))
           || bool_decide (uri_authority uri = None) || bool_decide (uri_host uri = None)
           || negb (bool_decide (uri_query uri = None))
           || match uri_authority uri with Some authority => contains_char "@" authority | None => false end then
          Some (Err invalid_url)
        else if existsb (fun segment => bool_decide (segment ∈ [bytes "."; bytes ".."])) (split_slash [] (bytes (uri_path uri))) then
          Some (Err invalid_url)
        else
          rest ← after_first (bytes "://") (bytes value);
          let normalized := if negb (bool_decide ("/"%char ∈ rest)) then value +:+ "/" else value in
          Some (Ok (mkWebBaseUrl normalized))
    end.

Definition invalid_bind_host : RegistryModelError := mkModelError Model_InvalidBindHost "bind host is invalid".

Definition normalize_bind_host (host : string) : result string RegistryModelError :=
  let host := default host (value ← strip_prefix "[" host; strip_suffix "]" value) in
  if bool_decide (host = EmptyString) || negb (is_ascii host) || existsb is_ascii_whitespace (bytes host)
     || existsb (fun byte => bool_decide (byte ∈ bytes "/?#@")) (bytes host) then Err invalid_bind_host
  else
    match ip_parse host with
    | Some _ => Ok host
    | None =>
        let? uri := ok_or (uri_parse ("http://" +:+ host +:+ ":1/")) invalid_bind_host in
        if bool_decide (uri_host uri <> Some host) then Err invalid_bind_host else Ok host
    end.

Definition derive_local_endpoint (bind : BindEndpoint) : option (result WebBaseUrl RegistryModelError) :=
  let host :=
    match ip_parse (be_host bind) with
    | Some (IpAddr_V4 address) => if address =? 0 then ip_to_string LOCALHOST_V4 else ip_to_string (IpAddr_V4 address)
    | Some (IpAddr_V6 address) =>
        if address =? 0 then "[" +:+ ip_to_string LOCALHOST_V6 +:+ "]" else "[" +:+ ip_to_string (IpAddr_V6 address) +:+ "]"
    | None => be_host bind
    end in
  WebBaseUrl_parse ("http://" +:+ host +:+ ":" +:+ u64_to_string (be_port bind) +:+ "/").

Definition BindEndpoint_new (value : string) (port : Z) : result BindEndpoint RegistryModelError :=
  if port =? 0 then Err (mkModelError Model_InvalidPort "published listener port must be nonzero")
  else
    let? value := normalize_bind_host value in
    Ok (mkBindEndpoint value port).

Definition has_parent_dir (p : PathBuf) : bool := bool_decide (".." ∈ path_components p).

Definition path_file_name (p : PathBuf) : option string :=
  name ← last (path_components p);
  if bool_decide (name = "..") then None else Some name.

Definition validate_run_directory (run_id : CanonicalUuid) (run_directory : string) : result string RegistryModelError :=
  let path := path_from run_directory in
  if negb (path_absolute path) || has_parent_dir path then
    Err (mkModelError Model_InvalidRunDirectory "Run directory must be an absolute normalized path")
  else if bool_decide (path_file_name path <> Some (uuid_text run_id)) then
    Err (mkModelError Model_StoreIdentityMismatch "Run directory does not match the Run identity")
  else Ok run_directory.

Definition is_ascii_control (c : ascii) : bool := let b := byte_val c in (b <? 32) || (b =? 127).

Definition validate_started_at (value : string) : result unit RegistryModelError :=
  if bool_decide (value = EmptyString) || (128 <? str_len value) || negb (is_ascii value)
     || existsb (fun byte => is_ascii_control byte || is_ascii_whitespace byte) (bytes value)
     || negb (bool_decide ("T"%char ∈ bytes value)) then
    Err (mkModelError Model_InvalidStartedAt "started_at is invalid")
  else Ok tt.

Definition RegistryEntry_new (run_id : CanonicalUuid) (run_directory : string) (owner_pid : Z) (process_identity : ProcessIdentity)
    (bind : BindEndpoint) (advertise_url : option WebBaseUrl) (started_at : string) : option (result RegistryEntry RegistryModelError) :=
  match validate_run_directory run_id run_directory with
  | Err error => Some (Err error)
  | Ok archive_directory =>
      if owner_pid =? 0 then Some (Err (mkModelError Model_InvalidPid "owner PID must be nonzero"))
      else
        match validate_started_at started_at with
        | Err error => Some (Err error)
        | Ok _ =>
            endpoint ← derive_local_endpoint bind;
            Some (let? local_endpoint := endpoint in
                  Ok (mkRegistryEntry REGISTRY_SCHEMA_VERSION SERVER_PROTOCOL_VERSION run_id archive_directory owner_pid process_identity
                        (be_host bind) (be_port bind) local_endpoint advertise_url Scope_TrustedNetwork started_at))
        end
  end.

Definition RegistryEntry_from_decoded (fields : RegistryEntryWire) : option (result RegistryEntry RegistryModelError) :=
  match BindEndpoint_new (rw_bind_host fields) (rw_port fields) with
  | Err error => Some (Err error)
  | Ok bind =>
      created ← RegistryEntry_new (rw_run_id fields) (rw_archive_directory fields) (rw_owner_pid fields) (rw_process_identity fields)
        bind (rw_advertise_url fields) (rw_started_at fields);
      Some (let? entry := created in
            if bool_decide (rw_local_endpoint fields <> re_local_endpoint entry) then
              Err (mkModelError Model_LocalEndpointMismatch "local endpoint does not match the published bind endpoint")
            else if bool_decide (rw_security_scope fields <> Scope_TrustedNetwork) then
              Err (mkModelError Model_InvalidSecurityScope "registry security scope is unsupported")
            else Ok entry)
  end.

Definition run_directory (entry : RegistryEntry) : PathBuf := path_from (re_archive_directory entry).
Definition bind (entry : RegistryEntry) : BindEndpoint := mkBindEndpoint (re_bind_host entry) (re_port entry).

(** The part of the decoding that only looks at versions. *)
Definition decode_entry_wire (path : PathBuf) (text : string) : result RegistryEntryWire RegistryCodecError :=
  let? version := map_err (mkCodecError path Codec_InvalidEntry None) (entry_envelope text) in
  if REGISTRY_SCHEMA_VERSION <? version then
    Err (mkCodecError path Codec_NewerSchema (Some version) "registry schema is newer than this client")
  else if negb (version =? REGISTRY_SCHEMA_VERSION) then
    Err (mkCodecError path Codec_UnsupportedSchema (Some version) "registry schema is unsupported")
  else
    let? wire := map_err (mkCodecError path Codec_InvalidEntry None) (entry_wire text) in
    if negb (rw_registry_schema_version wire =? REGISTRY_SCHEMA_VERSION) then
      Err (mkCodecError path Codec_UnsupportedSchema (Some (rw_registry_schema_version wire)) "registry schema changed during decode")
    else if negb (rw_server_protocol_version wire =? SERVER_PROTOCOL_VERSION) then
      Err (mkCodecError path Codec_UnsupportedServerProtocol (Some (rw_registry_schema_version wire)) "server protocol is unsupported")
    else Ok wire.

Definition decode_registry_entry (path : PathBuf) (text : string) : option (result RegistryEntry RegistryCodecError) :=
  match decode_entry_wire path text with
  | Err error => Some (Err error)
  | Ok wire =>
      decoded ← RegistryEntry_from_decoded wire;
      Some (map_err (fun error => mkCodecError path Codec_InvalidEntry (Some (rw_registry_schema_version wire)) (rme_message error)) decoded)
  end.

(** ** The identity of a server *)

Definition MAX_REGISTRY_ENTRY_BYTES : Z := 1024 * 1024.
Definition MAX_SERVER_IDENTITY_BYTES : Z := 1024 * 1024.
Definition SERVER_IDENTITY_SCHEMA_VERSION : Z := 1.

Inductive ServerIdentityDecodeErrorCode := Identity_ResponseTooLarge | Identity_Invalid | Identity_Incompatible.

Record ServerIdentityDecodeError := mkIdentityError { sie_code : ServerIdentityDecodeErrorCode; sie_detail : string }.

Definition decode_server_identity (text : string) : result DecodedServerIdentity ServerIdentityDecodeError :=
  if MAX_SERVER_IDENTITY_BYTES <? str_len text then
    Err (mkIdentityError Identity_ResponseTooLarge "server identity response exceeds the size limit")
  else
    let invalid error := mkIdentityError Identity_Invalid ("server identity response is invalid: " +:+ error) in
    let? version := map_err invalid (identity_envelope text) in
    if SERVER_IDENTITY_SCHEMA_VERSION <? version then
      Err (mkIdentityError Identity_Incompatible
             ("server identity schema " +:+ u64_to_string version +:+ " is newer than " +:+ u64_to_string SERVER_IDENTITY_SCHEMA_VERSION))
    else if negb (version =? SERVER_IDENTITY_SCHEMA_VERSION) then
      Err (mkIdentityError Identity_Invalid "server identity schema is unsupported")
    else
      let? self := map_err invalid (identity_wire text) in
      if negb (si_identity_schema_version self =? SERVER_IDENTITY_SCHEMA_VERSION) then
        Err (mkIdentityError Identity_Invalid "server identity schema changed during decode")
      else Ok self.

(** [None] is the panic of [expect]. *)
Definition registry_base_path (entry : RegistryEntry) : option string :=
  match re_advertise_url entry with
  | None => Some "/"
  | Some advertise_url =>
      uri ← uri_parse (url_text advertise_url);
      let path := uri_path uri in
      Some (if bool_decide (path = "/") || bool_decide (path = EmptyString) then "/" else default path (strip_suffix "/" path))
  end.

Definition join_base_path (base_path relative_path : string) : string :=
  if bool_decide (base_path = "/") then relative_path else base_path +:+ relative_path.

End Codec.
