(* ===== verification/Discovery.v ===== *)
(** * Discovery of runs

    Models [troupe-diagnostics-runtime/src/registry/discover.rs] and
    [revalidate.rs]: the archives and instances of a production, what each is
    classified as, and the revalidation of a candidate before it is used or
    deleted.  Every question to the host is a call of [Sys]; what a classification
    means is what the host answered at certain calls. *)

From S2P Require Import Prelude Files Text Wire Order Event Store Process Host Lease Registry.

Inductive CandidateClassification :=
| Candidate_Active | Candidate_DefiniteStale | Candidate_Unhealthy | Candidate_IdentityMismatch | Candidate_Invalid
| Candidate_Incompatible | Candidate_Completed | Candidate_Incomplete.

#[export] Instance CandidateClassification_eq_dec : EqDecision CandidateClassification.
Proof. solve_decision. Defined.

Definition CandidateClassification_as_str (c : CandidateClassification) : string :=
  match c with
  | Candidate_Active => "active"
  | Candidate_DefiniteStale => "definite_stale"
  | Candidate_Unhealthy => "unhealthy"
  | Candidate_IdentityMismatch => "identity_mismatch"
  | Candidate_Invalid => "invalid"
  | Candidate_Incompatible => "incompatible"
  | Candidate_Completed => "completed"
  | Candidate_Incomplete => "incomplete"
  end.

(** The derived order. *)
Definition classification_rank (c : CandidateClassification) : Z :=
  match c with
  | Candidate_Active => 0
  | Candidate_DefiniteStale => 1
  | Candidate_Unhealthy => 2
  | Candidate_IdentityMismatch => 3
  | Candidate_Invalid => 4
  | Candidate_Incompatible => 5
  | Candidate_Completed => 6
  | Candidate_Incomplete => 7
  end.

Inductive CandidateSource := Source_Instance | Source_Archive.

#[export] Instance CandidateSource_eq_dec : EqDecision CandidateSource.
Proof. solve_decision. Defined.

Record RegistrySnapshot := mkSnapshot { rs_identity : Z * Z; rs_bytes : string }.

#[export] Instance RegistrySnapshot_eq_dec : EqDecision RegistrySnapshot.
Proof. solve_decision. Defined.

Record DiscoveryCandidate := mkCandidate {
  dc_classification : CandidateClassification;
  dc_source : CandidateSource;
  dc_path : PathBuf;
  dc_run_id : option CanonicalUuid;
  dc_path_run_id : option CanonicalUuid;
  dc_archive_directory : option PathBuf;
  dc_archive_present : bool;
  dc_registry_entry : option RegistryEntry;
  dc_detail : option string;
  dc_registry_snapshot : option RegistrySnapshot;
}.

Definition is_instance (c : DiscoveryCandidate) : bool := bool_decide (dc_source c = Source_Instance).

Definition is_potentially_live (c : DiscoveryCandidate) : bool :=
  is_instance c && negb (bool_decide (dc_classification c = Candidate_DefiniteStale)).

Definition revalidated (self : DiscoveryCandidate) (classification : CandidateClassification) (entry : RegistryEntry)
    (snapshot : RegistrySnapshot) (detail : option string) : DiscoveryCandidate :=
  mkCandidate classification (dc_source self) (dc_path self) (Some (re_run_id entry)) (dc_path_run_id self)
    (dc_archive_directory self) (dc_archive_present self) (Some entry) detail (Some snapshot).

Definition untrusted_candidate (classification : CandidateClassification) (source : CandidateSource) (path : PathBuf)
    (path_run_id : option CanonicalUuid) (archive_directory : option PathBuf) (archive_present : bool) (detail : string)
    : DiscoveryCandidate :=
  mkCandidate classification source path None path_run_id archive_directory archive_present None (Some detail) None.

Inductive DiscoveryErrorCode :=
| Discovery_InvalidProductionRoot | Discovery_NamespaceInspectFailed | Discovery_NamespaceNotDirectory
| Discovery_NamespaceChanged | Discovery_NamespaceReadFailed.

Definition DiscoveryErrorCode_as_str (c : DiscoveryErrorCode) : string :=
  match c with
  | Discovery_InvalidProductionRoot => "registry_discovery.invalid_production_root"
  | Discovery_NamespaceInspectFailed => "registry_discovery.namespace_inspect_failed"
  | Discovery_NamespaceNotDirectory => "registry_discovery.namespace_not_directory"
  | Discovery_NamespaceChanged => "registry_discovery.namespace_changed"
  | Discovery_NamespaceReadFailed => "registry_discovery.namespace_read_failed"
  end.

Record DiscoveryError := mkDiscoveryError { de_code : DiscoveryErrorCode; de_path : PathBuf; de_source : option IoError }.

Definition DiscoveryError_display (e : DiscoveryError) : string :=
  "diagnostic discovery failed [" +:+ DiscoveryErrorCode_as_str (de_code e) +:+ "] at " +:+ path_display (de_path e).

Inductive SnapshotReadErrorCode :=
| Snapshot_Inspect | Snapshot_NotRegular | Snapshot_Open | Snapshot_Changed | Snapshot_Read | Snapshot_TooLarge.

Definition SnapshotReadErrorCode_debug (c : SnapshotReadErrorCode) : string :=
  match c with
  | Snapshot_Inspect => "Inspect"
  | Snapshot_NotRegular => "NotRegular"
  | Snapshot_Open => "Open"
  | Snapshot_Changed => "Changed"
  | Snapshot_Read => "Read"
  | Snapshot_TooLarge => "TooLarge"
  end.

Record SnapshotReadError := mkSnapshotError { sre_code : SnapshotReadErrorCode; sre_path : PathBuf; sre_source : option IoError }.

Definition SnapshotReadError_display (e : SnapshotReadError) : string :=
  "registry locator cannot be read [" +:+ SnapshotReadErrorCode_debug (sre_code e) +:+ "] at " +:+ path_display (sre_path e)
  +:+ match sre_source e with Some source => ": " +:+ io_text source | None => EmptyString end.

Section Discovery.
Context {host : RegistryHost}.

(** ** Classification of an entry *)

Definition classify_server_identity (entry : RegistryEntry) (text : string)
    : option (CandidateClassification * option string) :=
  match decode_server_identity text with
  | Err error =>
      let classification :=
        match sie_code error with
        | Identity_Incompatible => Candidate_Incompatible
        | Identity_ResponseTooLarge | Identity_Invalid => Candidate_Unhealthy
        end in
      Some (classification, Some (sie_detail error))
  | Ok self =>
      if bool_decide (si_run_id self <> re_run_id entry) || negb (si_owner_pid self =? re_owner_pid entry)
         || bool_decide (si_process_identity self <> re_process_identity entry) then
        Some (Candidate_IdentityMismatch, Some "server Run or process identity differs from the registry entry")
      else if negb (si_server_protocol_version self =? re_server_protocol_version entry)
              || negb (si_server_protocol_version self =? SERVER_PROTOCOL_VERSION) then
        Some (Candidate_Incompatible, Some "server protocol is incompatible with this client")
      else
        expected_base_path ← registry_base_path entry;
        let expected_api_path := join_base_path expected_base_path "/api/v1" in
        let expected_identity_path := join_base_path expected_base_path "/api/v1/identity" in
        if bool_decide (si_bind_host self <> be_host (bind entry)) || negb (si_port self =? be_port (bind entry))
           || bool_decide (si_local_endpoint self <> re_local_endpoint entry)
           || bool_decide (si_advertise_url self <> re_advertise_url entry)
           || bool_decide (si_security_scope self <> re_security_scope entry)
           || bool_decide (si_base_path self <> expected_base_path)
           || bool_decide (si_api_base_path self <> expected_api_path)
           || bool_decide (si_identity_path self <> expected_identity_path) then
          Some (Candidate_IdentityMismatch, Some "server locator identity differs from the registry entry")
        else Some (Candidate_Active, None)
  end.

Definition classify_registry_entry (entry : RegistryEntry) : Sys (CandidateClassification * option string) :=
  let! first := ask (observe (re_owner_pid entry)) in
  match classify_process_identity (re_process_identity entry) first with
  | Owner_DefinitelyGone => sys_ret (Candidate_DefiniteStale, Some "owner process is definitely gone")
  | Owner_PidReused => sys_ret (Candidate_DefiniteStale, Some "owner PID has been reused")
  | Owner_Unknown => sys_ret (Candidate_Unhealthy, Some "owner process identity cannot be established")
  | Owner_Alive =>
      let! response := ask (probe_identity entry) in
      let! tentative :=
        match response with
        | Ok text => sys_expect (classify_server_identity entry text)
        | Err error => sys_ret (Candidate_Unhealthy, Some ("server identity endpoint is unreachable: " +:+ error))
        end in
      let! second := ask (observe (re_owner_pid entry)) in
      sys_ret
        match classify_process_identity (re_process_identity entry) second with
        | Owner_Alive => tentative
        | Owner_DefinitelyGone => (Candidate_DefiniteStale, Some "owner process disappeared during identity validation")
        | Owner_PidReused => (Candidate_DefiniteStale, Some "owner PID was reused during identity validation")
        | Owner_Unknown => (Candidate_Unhealthy, Some "owner process identity became unavailable during validation")
        end
  end.

(** ** Reading a locator *)

Definition snapshot_error (path : PathBuf) (code : SnapshotReadErrorCode) (error : IoError) : SnapshotReadError :=
  mkSnapshotError code path (Some error).

Definition read_registry_snapshot (path : PathBuf) : Sys (result RegistrySnapshot SnapshotReadError) :=
  let fail code := sys_ret (Err (mkSnapshotError code path None)) in
  try! initial := sys_map_err (snapshot_error path Snapshot_Inspect) (ask (os_symlink_metadata path)) in
  if negb (is_file initial) then fail Snapshot_NotRegular
  else
    let self := file_identity initial in
    try! file := sys_map_err (snapshot_error path Snapshot_Open) (ask (os_open path false false)) in
    try! opened := sys_map_err (snapshot_error path Snapshot_Inspect) (ask (os_handle_metadata file)) in
    if negb (is_file opened) || bool_decide (self <> file_identity opened) then fail Snapshot_Changed
    else
      try! content := sys_map_err (snapshot_error path Snapshot_Read) (ask (os_read file)) in
      let text := of_bytes (take (Z.to_nat (MAX_REGISTRY_ENTRY_BYTES + 1)) (bytes content)) in
      if MAX_REGISTRY_ENTRY_BYTES <? str_len text then fail Snapshot_TooLarge
      else
        try! final_opened := sys_map_err (snapshot_error path Snapshot_Inspect) (ask (os_handle_metadata file)) in
        try! rebound := sys_map_err (snapshot_error path Snapshot_Inspect) (ask (os_symlink_metadata path)) in
        if bool_decide (self <> file_identity final_opened) || negb (is_file rebound)
           || bool_decide (self <> file_identity rebound) then fail Snapshot_Changed
        else sys_ret (Ok (mkSnapshot self text)).

(** ** Archives *)

Definition DIAGNOSTIC_DATABASE_FILENAME : string := "diagnostics.sqlite3".

(** [Ok] of a node of the wanted kind. *)
Definition node_of_kind (kind : Metadata -> bool) (answer : result Metadata IoError) : option Metadata :=
  match answer with Ok metadata => if kind metadata then Some metadata else None | Err _ => None end.

Definition same_node (kind : Metadata -> bool) (before : Metadata) (after : result Metadata IoError) : bool :=
  match node_of_kind kind after with
  | Some after => bool_decide (file_identity before = file_identity after)
  | None => false
  end.

(** The checks of the row: what is wrong with it, if anything. *)
Definition archive_row_defect (path_run_id : CanonicalUuid) (row : ArchiveRow) : option (CandidateClassification * string) :=
  if (STORE_SCHEMA_VERSION <? ar_store_schema_version row) || (EVENT_SCHEMA_VERSION <? ar_event_schema_version row) then
    Some (Candidate_Incompatible, "diagnostic store metadata uses a newer schema")
  else if negb (ar_store_schema_version row =? STORE_SCHEMA_VERSION)
          || bool_decide (ar_schema_identity row <> STORE_SCHEMA_IDENTITY)
          || negb (ar_event_schema_version row =? EVENT_SCHEMA_VERSION)
          || bool_decide (ar_started_at row = EmptyString)
          || negb ((ar_clean_shutdown row =? 0) || (ar_clean_shutdown row =? 1)) then
    Some (Candidate_Invalid, "diagnostic store metadata is invalid")
  else
    match parse_uuid (ar_run_id row) with
    | Err error => Some (Candidate_Invalid, "diagnostic store Run identity is invalid: " +:+ error)
    | Ok stored_run_id =>
        if bool_decide (stored_run_id <> path_run_id) then
          Some (Candidate_Invalid, "diagnostic store Run identity differs from its directory")
        else if match ar_production_outcome row with
                | Some outcome => negb (bool_decide (outcome ∈ ["completed"; "failed"; "cancelled"]))
                | None => false
                end then Some (Candidate_Invalid, "diagnostic store outcome is invalid")
        else None
    end.

Definition archive_row_complete (row : ArchiveRow) : bool :=
  (ar_clean_shutdown row =? 1)
  && match ar_ended_at row with Some _ => true | None => false end
  && match ar_production_outcome row with Some _ => true | None => false end.

Definition classify_archive (run_directory : PathBuf) (path_run_id : CanonicalUuid)
    : Sys (CandidateClassification * bool * option string) :=
  let invalid detail := sys_ret (Candidate_Invalid, false, Some detail) in
  let! inspected := ask (os_symlink_metadata run_directory) in
  match inspected with
  | Err error => invalid ("Run archive cannot be inspected: " +:+ io_text error)
  | Ok directory_metadata =>
  if negb (is_dir directory_metadata) then invalid "Run archive path is not a regular directory"
  else
  let database_path := join_path run_directory DIAGNOSTIC_DATABASE_FILENAME in
  let! inspected := ask (os_symlink_metadata database_path) in
  match inspected with
  | Err error => invalid ("diagnostic database cannot be inspected: " +:+ io_text error)
  | Ok database_metadata =>
  if negb (is_file database_metadata) then invalid "diagnostic database is not a regular file"
  else
  let! lease := acquire run_directory Lease_SharedReader in
  match lease with
  | Err error =>
      let classification := if bool_decide (al_code error = Lease_Contended) then Candidate_Unhealthy else Candidate_Invalid in
      sys_ret (classification, false,
        Some ("Run archive cannot be leased for read-only inspection: " +:+ ArchiveLeaseError_display error))
  | Ok _ =>
  let! opened := ask (open_immutable_read_only database_path) in
  match opened with
  | Err error => invalid ("diagnostic database cannot be opened read-only: " +:+ error)
  | Ok connection =>
  let! query_only := ask (set_query_only connection) in
  match query_only with
  | Err error => invalid ("diagnostic database cannot enter query-only mode: " +:+ error)
  | Ok _ =>
  let! read_only := ask (is_readonly connection) in
  if negb read_only then invalid "diagnostic database connection is not read-only"
  else
  let! version := ask (user_version connection) in
  match version with
  | Err error => invalid ("diagnostic store schema cannot be read: " +:+ error)
  | Ok version =>
  if STORE_SCHEMA_VERSION <? version then
    sys_ret (Candidate_Incompatible, false,
      Some ("diagnostic store schema " +:+ u64_to_string version +:+ " is newer than " +:+ u64_to_string STORE_SCHEMA_VERSION))
  else if negb (version =? STORE_SCHEMA_VERSION) then invalid "diagnostic store schema is unsupported"
  else
  let! row := ask (query_run_metadata connection) in
  match row with
  | Err error => invalid ("diagnostic Run metadata cannot be read: " +:+ error)
  | Ok row =>
  match archive_row_defect path_run_id row with
  | Some (classification, detail) => sys_ret (classification, false, Some detail)
  | None =>
  let! rebound_directory := ask (os_symlink_metadata run_directory) in
  let! rebound_database := ask (os_symlink_metadata database_path) in
  if negb (same_node is_dir directory_metadata rebound_directory) || negb (same_node is_file database_metadata rebound_database) then
    invalid "Run archive identity changed while it was inspected"
  else sys_ret (if archive_row_complete row then Candidate_Completed else Candidate_Incomplete, true, None)
  end end end end end end end end.

(** ** Scanning *)

Definition namespace_error (code : DiscoveryErrorCode) (path : PathBuf) (error : IoError) : DiscoveryError :=
  mkDiscoveryError code path (Some error).

(** [entry?] for every entry. *)
Fixpoint entry_paths (path : PathBuf) (entries : list (result string IoError)) : result (list PathBuf) DiscoveryError :=
  match entries with
  | [] => Ok []
  | Err error :: _ => Err (namespace_error Discovery_NamespaceReadFailed path error)
  | Ok name :: entries => let? paths := entry_paths path entries in Ok (join_path path name :: paths)
  end.

Definition scan_namespace (path : PathBuf) : Sys (result (list PathBuf) DiscoveryError) :=
  let! inspected := ask (os_symlink_metadata path) in
  match inspected with
  | Err error =>
      sys_ret match io_kind error with
              | Io_NotFound => Ok []
              | _ => Err (namespace_error Discovery_NamespaceInspectFailed path error)
              end
  | Ok initial =>
      if negb (is_dir initial) then sys_ret (Err (mkDiscoveryError Discovery_NamespaceNotDirectory path None))
      else
        try! entries := sys_map_err (namespace_error Discovery_NamespaceReadFailed path) (ask (os_read_dir path)) in
        try! paths := sys_ret (entry_paths path entries) in
        try! rebound := sys_map_err (namespace_error Discovery_NamespaceInspectFailed path) (ask (os_symlink_metadata path)) in
        if negb (is_dir rebound) || bool_decide (file_identity initial <> file_identity rebound) then
          sys_ret (Err (mkDiscoveryError Discovery_NamespaceChanged path None))
        else sys_ret (Ok (sort_by path_cmp paths))
  end.

(** A [BTreeMap<CanonicalUuid, DiscoveryCandidate>] is the list of its bindings in the order of its keys. *)

Fixpoint btree_insert (key : CanonicalUuid) (value : DiscoveryCandidate) (archives : list (CanonicalUuid * DiscoveryCandidate)) : list (CanonicalUuid * DiscoveryCandidate) :=
  match archives with
  | [] => [(key, value)]
  | (k, v) :: rest =>
      match as_uuid key ?= as_uuid k with
      | Lt => (key, value) :: archives
      | Eq => (key, value) :: rest
      | Gt => (k, v) :: btree_insert key value rest
      end
  end.

Fixpoint btree_remove (key : CanonicalUuid) (archives : list (CanonicalUuid * DiscoveryCandidate))
    : option DiscoveryCandidate * list (CanonicalUuid * DiscoveryCandidate) :=
  match archives with
  | [] => (None, [])
  | (k, v) :: rest =>
      if bool_decide (k = key) then (Some v, rest)
      else let '(found, rest) := btree_remove key rest in (found, (k, v) :: rest)
  end.

(** The run id that the name of a directory of an archive is. *)
Definition archive_path_run_id (path : PathBuf) : option CanonicalUuid :=
  name ← path_file_name path;
  match parse_uuid name with Ok run_id => Some run_id | Err _ => None end.

Fixpoint scan_archive_paths (paths : list PathBuf) (untrusted : list DiscoveryCandidate) (archives : list (CanonicalUuid * DiscoveryCandidate))
    : Sys (list DiscoveryCandidate * list (CanonicalUuid * DiscoveryCandidate)) :=
  match paths with
  | [] => sys_ret (untrusted, archives)
  | path :: paths =>
      match archive_path_run_id path with
      | None =>
          scan_archive_paths paths
            (untrusted ++ [untrusted_candidate Candidate_Invalid Source_Archive path None None false
               "Run archive directory name is not a canonical UUID"]) archives
      | Some path_run_id =>
          let! classified := classify_archive path path_run_id in
          let '(classification, trusted, detail) := classified in
          scan_archive_paths paths untrusted
            (btree_insert path_run_id
               (mkCandidate classification Source_Archive path (if trusted then Some path_run_id else None) (Some path_run_id)
                  (Some path) true None detail None) archives)
      end
  end.

Definition scan_archives (runs_directory : PathBuf) (untrusted : list DiscoveryCandidate)
    : Sys (result (list DiscoveryCandidate * list (CanonicalUuid * DiscoveryCandidate)) DiscoveryError) :=
  try! paths := scan_namespace runs_directory in
  let! scanned := scan_archive_paths paths untrusted [] in
  sys_ret (Ok scanned).

Definition registry_path_run_id (path : PathBuf) : option CanonicalUuid :=
  filename ← path_file_name path;
  stem ← strip_suffix ".json" filename;
  match parse_uuid stem with Ok run_id => Some run_id | Err _ => None end.

(** [path.extension() == "json"] *)
Definition has_json_extension (path : PathBuf) : bool :=
  match path_file_name path with
  | None => false
  | Some name => bool_decide (after_last "." (bytes name) = Some (bytes "json")) && (5 <? str_len name)
  end.

Definition codec_classification (code : RegistryCodecErrorCode) : CandidateClassification :=
  match code with
  | Codec_NewerSchema | Codec_UnsupportedServerProtocol => Candidate_Incompatible
  | Codec_InvalidEntry | Codec_UnsupportedSchema => Candidate_Invalid
  end.

(** The candidate of an instance, and the archives without the one it owns. *)
Definition classify_instance (path runs_directory : PathBuf) (archives : list (CanonicalUuid * DiscoveryCandidate)) : Sys (DiscoveryCandidate * list (CanonicalUuid * DiscoveryCandidate)) :=
  match registry_path_run_id path with
  | None =>
      sys_ret (untrusted_candidate Candidate_Invalid Source_Instance path None None false
                 "instance filename is not <canonical-run-id>.json", archives)
  | Some path_run_id =>
      let '(archive, archives) := btree_remove path_run_id archives in
      let archive_directory := archive ≫= dc_archive_directory in
      let archive_present := match archive with Some _ => true | None => false end in
      let untrusted classification detail :=
        sys_ret (untrusted_candidate classification Source_Instance path (Some path_run_id) archive_directory archive_present detail,
                 archives) in
      let! read := read_registry_snapshot path in
      match read with
      | Err error => untrusted Candidate_Invalid (SnapshotReadError_display error)
      | Ok snapshot =>
          let! decoded := sys_expect (decode_registry_entry path (rs_bytes snapshot)) in
          match decoded with
          | Err error => untrusted (codec_classification (rce_code error)) (RegistryCodecError_display error)
          | Ok entry =>
              let expected_archive_directory := join_path runs_directory (uuid_text path_run_id) in
              if bool_decide (re_run_id entry <> path_run_id) || bool_decide (run_directory entry <> expected_archive_directory) then
                untrusted Candidate_Invalid "instance filename, Run identity, and fixed archive path do not agree"
              else
                let! classified := classify_registry_entry entry in
                let '(classification, detail) := classified in
                sys_ret (mkCandidate classification Source_Instance path (Some path_run_id) (Some path_run_id)
                           (Some expected_archive_directory) archive_present (Some entry) detail (Some snapshot), archives)
          end
      end
  end.

Fixpoint classify_instances (paths : list PathBuf) (runs_directory : PathBuf) (archives : list (CanonicalUuid * DiscoveryCandidate))
    (candidates : list DiscoveryCandidate) : Sys (list DiscoveryCandidate * list (CanonicalUuid * DiscoveryCandidate)) :=
  match paths with
  | [] => sys_ret (candidates, archives)
  | path :: paths =>
      let! classified := classify_instance path runs_directory archives in
      let '(candidate, archives) := classified in
      classify_instances paths runs_directory archives (candidates ++ [candidate])
  end.

Definition validate_production_root (production_root : PathBuf) : result unit DiscoveryError :=
  if negb (path_absolute production_root) || has_parent_dir production_root then
    Err (mkDiscoveryError Discovery_InvalidProductionRoot production_root None)
  else Ok tt.

Definition candidate_cmp (left right : DiscoveryCandidate) : comparison :=
  then_with (path_cmp (dc_path left) (dc_path right))
    (classification_rank (dc_classification left) ?= classification_rank (dc_classification right)).

Definition diagnostics_directory (production_root : PathBuf) : PathBuf :=
  join_path (join_path production_root ".troupe") "diagnostics".

Definition discover_with (production_root : PathBuf) : Sys (result (list DiscoveryCandidate) DiscoveryError) :=
  try! _ := sys_ret (validate_production_root production_root) in
  let instances_directory := join_path (diagnostics_directory production_root) "instances" in
  let runs_directory := join_path (diagnostics_directory production_root) "runs" in
  try! scanned := scan_archives runs_directory [] in
  let '(candidates, archives) := scanned in
  try! paths := scan_namespace instances_directory in
  let instances := List.filter has_json_extension paths in
  let! classified := classify_instances instances runs_directory archives candidates in
  let '(candidates, archives) := classified in
  sys_ret (Ok (sort_by candidate_cmp (candidates ++ map snd archives))).

(** ** Revalidation *)

Inductive RevalidationPurpose := UseActive | CleanupDefiniteStale.

Definition required_classification (p : RevalidationPurpose) : CandidateClassification :=
  match p with UseActive => Candidate_Active | CleanupDefiniteStale => Candidate_DefiniteStale end.

Inductive RevalidationStatus :=
| Authorized | CandidateNotEligible | LocatorUnavailable | LocatorChanged | ClassificationChanged.

#[export] Instance RevalidationStatus_eq_dec : EqDecision RevalidationStatus.
Proof. solve_decision. Defined.

Definition RevalidationStatus_debug (s : RevalidationStatus) : string :=
  match s with
  | Authorized => "Authorized"
  | CandidateNotEligible => "CandidateNotEligible"
  | LocatorUnavailable => "LocatorUnavailable"
  | LocatorChanged => "LocatorChanged"
  | ClassificationChanged => "ClassificationChanged"
  end.

Record RevalidationResult := mkRevalidation {
  rr_purpose : RevalidationPurpose;
  rr_status : RevalidationStatus;
  rr_observed_classification : option CandidateClassification;
  rr_candidate : option DiscoveryCandidate;
}.

Definition is_authorized (r : RevalidationResult) : bool := bool_decide (rr_status r = Authorized).

Definition authorized_candidate (r : RevalidationResult) : option DiscoveryCandidate :=
  if is_authorized r then rr_candidate r else None.

Definition refused (purpose : RevalidationPurpose) (status : RevalidationStatus) : RevalidationResult :=
  mkRevalidation purpose status None None.

Definition revalidate (candidate : DiscoveryCandidate) (purpose : RevalidationPurpose) : Sys RevalidationResult :=
  let required := required_classification purpose in
  if bool_decide (dc_classification candidate <> required) then sys_ret (refused purpose CandidateNotEligible)
  else
    match dc_registry_snapshot candidate, dc_registry_entry candidate with
    | Some expected_snapshot, Some expected_entry =>
        let! read := read_registry_snapshot (dc_path candidate) in
        match read with
        | Err _ => sys_ret (refused purpose LocatorUnavailable)
        | Ok snapshot =>
            if bool_decide (snapshot <> expected_snapshot) then sys_ret (refused purpose LocatorChanged)
            else
              let! decoded := sys_expect (decode_registry_entry (dc_path candidate) (rs_bytes snapshot)) in
              match decoded with
              | Err _ => sys_ret (refused purpose LocatorChanged)
              | Ok entry =>
                  if bool_decide (entry <> expected_entry) then sys_ret (refused purpose LocatorChanged)
                  else
                    let! classified := classify_registry_entry entry in
                    let '(classification, detail) := classified in
                    let refreshed := revalidated candidate classification entry snapshot detail in
                    sys_ret (mkRevalidation purpose
                      (if bool_decide (classification = required) then Authorized else ClassificationChanged)
                      (Some classification) (Some refreshed))
              end
        end
    | _, _ => sys_ret (refused purpose CandidateNotEligible)
    end.

Definition revalidate_for_use (candidate : DiscoveryCandidate) : Sys RevalidationResult := revalidate candidate UseActive.
Definition revalidate_for_cleanup (candidate : DiscoveryCandidate) : Sys RevalidationResult := revalidate candidate CleanupDefiniteStale.

End Discovery.
