(* ===== verification/DiscoverySpec.v ===== *)
(** * What a discovered candidate means

    A candidate is classified by what the host answered while it was looked at: an
    instance is active only if its owner was seen alive before and after its server
    identified itself, and stale only if the owner was seen gone; an archive is
    complete or incomplete by the row of a database that was not replaced.  A
    discovery has exactly one candidate for every instance, and one for every
    archive that no instance claims. *)

From Stdlib Require Import Sorted.
From S2P Require Import Prelude Files Text Wire Order Event Store Process Host Lease Registry Discovery.

Section Specification.
Context {host : RegistryHost}.

(** ** Owners *)

(** What an observation of the owner at a call says. *)
Definition owner_seen (entry : RegistryEntry) (call : nat) : ProcessIdentityClassification :=
  classify_process_identity (re_process_identity entry) (observe (re_owner_pid entry) call).

(** The server says it is that of the entry, and speaks this protocol. *)
Definition server_agrees (entry : RegistryEntry) (text : string) : Prop :=
  exists self base_path, decode_server_identity text = Ok self /\ registry_base_path entry = Some base_path /\
    si_run_id self = re_run_id entry /\ si_owner_pid self = re_owner_pid entry /\
    si_process_identity self = re_process_identity entry /\
    si_server_protocol_version self = re_server_protocol_version entry /\
    si_server_protocol_version self = SERVER_PROTOCOL_VERSION /\
    si_bind_host self = re_bind_host entry /\ si_port self = re_port entry /\
    si_local_endpoint self = re_local_endpoint entry /\ si_advertise_url self = re_advertise_url entry /\
    si_security_scope self = re_security_scope entry /\ si_base_path self = base_path /\
    si_api_base_path self = join_base_path base_path "/api/v1" /\
    si_identity_path self = join_base_path base_path "/api/v1/identity".

(** What the classification of an entry between two calls means. *)
Definition owner_witness (entry : RegistryEntry) (start finish : nat) (c : CandidateClassification) : Prop :=
  match c with
  | Candidate_Active =>
      exists before probe after text, (start <= before < probe)%nat /\ (probe < after < finish)%nat /\
        owner_seen entry before = Owner_Alive /\ probe_identity entry probe = Ok text /\ server_agrees entry text /\
        owner_seen entry after = Owner_Alive
  | Candidate_DefiniteStale =>
      exists call, (start <= call < finish)%nat /\ is_definitely_stale (owner_seen entry call) = true
  | Candidate_Unhealthy | Candidate_IdentityMismatch | Candidate_Incompatible => True
  | Candidate_Invalid | Candidate_Completed | Candidate_Incomplete => False
  end.

Lemma classify_server_identity_active entry text detail :
  classify_server_identity entry text = Some (Candidate_Active, detail) -> server_agrees entry text.
Proof.
  unfold classify_server_identity. destruct (decode_server_identity text) as [self|e] eqn:Ed; [|by destruct (sie_code e)].
  destruct (bool_decide (si_run_id self <> _) || _ || _) eqn:E1; [done|].
  destruct (negb (si_server_protocol_version self =? re_server_protocol_version entry) || _) eqn:E2; [done|].
  destruct (registry_base_path entry) as [base|] eqn:Eb; [|done]. cbn [mbind option_bind].
  destruct (bool_decide (si_bind_host self <> _) || _ || _ || _ || _ || _ || _ || _) eqn:E3; [done|]. intros _.
  repeat match goal with
  | H : _ || _ = false |- _ => apply orb_false_iff in H as [? H]
  end.
  repeat match goal with
  | H : bool_decide (_ <> _) = false |- _ => apply bool_decide_eq_false in H; apply dec_stable in H
  | H : negb (_ =? _) = false |- _ => apply negb_false_iff, Z.eqb_eq in H
  end.
  exists self, base. cbn [bind be_host be_port] in *. split_and!; congruence.
Qed.

Lemma classify_server_identity_range entry text c detail :
  classify_server_identity entry text = Some (c, detail) ->
  match c with Candidate_Active | Candidate_Unhealthy | Candidate_IdentityMismatch | Candidate_Incompatible => True | _ => False end.
Proof.
  unfold classify_server_identity. destruct (decode_server_identity text) as [self|e].
  - case_match; [by intros [= <- _]|]. case_match; [by intros [= <- _]|]. destruct (registry_base_path entry); [|done].
    cbn [mbind option_bind]. case_match; by intros [= <- _].
  - intros [= <- _]. by destruct (sie_code e).
Qed.

Lemma classify_registry_entry_witness entry now c detail later :
  classify_registry_entry entry now = Some ((c, detail), later) -> (now < later)%nat /\ owner_witness entry now later c.
Proof.
  unfold classify_registry_entry. intros H. run_sys H. apply ask_some in Hm as [-> ->]. fold (owner_seen entry now) in H.
  destruct (owner_seen entry now) eqn:E1.
  2,3: apply sys_ret_some in H as [[= -> _] ->]; split; [lia|]; exists now; split; [lia|]; by rewrite E1.
  2: apply sys_ret_some in H as [[= -> _] ->]; split; [lia|done].
  run_sys H. apply ask_some in Hm as [-> ->]. apply ask_some in Hm1 as [-> ->].
  assert (Ht : t0 = S (S now)).
  { destruct (probe_identity entry (S now)) as [text|error]; [|by apply sys_ret_some in Hm0 as [_ ->]].
    unfold sys_expect in Hm0. destruct (classify_server_identity entry text); [|done]. by injection Hm0 as _ <-. }
  subst t0. apply sys_ret_some in H as [H ->]. fold (owner_seen entry (S (S now))) in H. split; [lia|].
  destruct (owner_seen entry (S (S now))) eqn:E2.
  - destruct (probe_identity entry (S now)) as [text|error] eqn:Ep.
    + unfold sys_expect in Hm0. destruct (classify_server_identity entry text) as [[c' d']|] eqn:Ec; [|done]. injection Hm0 as <-.
      injection H as <- <-. pose proof (classify_server_identity_range _ _ _ _ Ec) as Hr. destruct c; try done.
      exists now, (S now), (S (S now)), text. split_and!; try lia; try done. by eapply classify_server_identity_active.
    + apply sys_ret_some in Hm0 as [-> _]. by injection H as -> _.
  - injection H as -> _. exists (S (S now)). split; [lia|]. by rewrite E2.
  - injection H as -> _. exists (S (S now)). split; [lia|]. by rewrite E2.
  - by injection H as -> _.
Qed.

Lemma owner_witness_weaken entry start finish start' finish' c :
  (start' <= start)%nat -> (finish <= finish')%nat -> owner_witness entry start finish c -> owner_witness entry start' finish' c.
Proof.
  intros Hs Hf. destruct c; cbn; try done.
  - intros (b & p & a & text & Hb & Ha & H). exists b, p, a, text. split_and!; try lia; apply H.
  - intros (call & Hc & H). exists call. split; [lia|done].
Qed.

(** ** Archives *)

(** What the classification of an archive means: it is trusted only if a row that
    fits was read from a database in a directory, and both were the same
    afterwards. *)
Definition archive_witness (run_directory : PathBuf) (run_id : CanonicalUuid) (start finish : nat)
    (c : CandidateClassification) (trusted : bool) : Prop :=
  match c with
  | Candidate_Completed | Candidate_Incomplete =>
      trusted = true /\
      exists opened queried again connection row directory directory' database database',
        (start <= opened < queried)%nat /\ (queried < again)%nat /\ (S again < finish)%nat /\
        let database_path := join_path run_directory DIAGNOSTIC_DATABASE_FILENAME in
        os_symlink_metadata run_directory start = Ok directory /\ is_dir directory = true /\
        os_symlink_metadata database_path (S start) = Ok database /\ is_file database = true /\
        open_immutable_read_only database_path opened = Ok connection /\
        query_run_metadata connection queried = Ok row /\ archive_row_defect run_id row = None /\
        archive_row_complete row = bool_decide (c = Candidate_Completed) /\
        os_symlink_metadata run_directory again = Ok directory' /\ file_identity directory' = file_identity directory /\
        os_symlink_metadata database_path (S again) = Ok database' /\ file_identity database' = file_identity database
  | Candidate_Unhealthy | Candidate_Invalid | Candidate_Incompatible => trusted = false
  | Candidate_Active | Candidate_DefiniteStale | Candidate_IdentityMismatch => False
  end.

Lemma same_node_true kind before after :
  same_node kind before after = true ->
  exists m, after = Ok m /\ kind m = true /\ file_identity m = file_identity before.
Proof.
  unfold same_node, node_of_kind. destruct after as [m|]; [|done]. destruct (kind m) eqn:Ek; [|done].
  intros H%bool_decide_eq_true. by exists m.
Qed.

Lemma acquire_advances run_directory mode : advances (acquire run_directory mode).
Proof.
  unfold acquire, Lease.validate_run_directory, open_anchor, secure_and_revalidate_anchor, revalidate_locked_anchor,
    verify_path_identity, inspect_anchor, handle_metadata. advance.
Qed.

Lemma archive_row_defect_range run_id row c detail :
  archive_row_defect run_id row = Some (c, detail) -> c = Candidate_Invalid \/ c = Candidate_Incompatible.
Proof. unfold archive_row_defect. repeat (case_match; try done); intros [= <- _]; auto. Qed.

(** An early return of the classification. *)
Ltac untrusted H := apply sys_ret_some in H as [[= -> -> _] _]; done.

Lemma classify_archive_witness run_directory run_id now c trusted detail later :
  classify_archive run_directory run_id now = Some ((c, trusted, detail), later) ->
  archive_witness run_directory run_id now later c trusted.
Proof.
  unfold classify_archive. intros H. run_sys H. apply ask_some in Hm as [-> ->].
  destruct (os_symlink_metadata run_directory now) as [directory|] eqn:Ed; [|untrusted H]. destruct (is_dir directory) eqn:Hd; [|untrusted H].
  cbn [negb] in H. run_sys H. apply ask_some in Hm as [-> ->].
  destruct (os_symlink_metadata (join_path run_directory _) (S now)) as [database|] eqn:Eb; [|untrusted H].
  destruct (is_file database) eqn:Hf; [|untrusted H]. cbn [negb] in H. run_sys H. apply acquire_advances in Hm.
  destruct x as [lease|error]; [|case_bool_decide; untrusted H]. run_sys H. apply ask_some in Hm0 as [-> ->].
  destruct (open_immutable_read_only _ t) as [connection|] eqn:Eo; [|untrusted H]. run_sys H. apply ask_some in Hm0 as [-> ->].
  destruct (set_query_only connection (S t)); [|untrusted H]. run_sys H. apply ask_some in Hm0 as [-> ->].
  destruct (is_readonly connection _); [|untrusted H]. cbn [negb] in H. run_sys H. apply ask_some in Hm0 as [-> ->].
  destruct (user_version connection _) as [version|]; [|untrusted H]. destruct (STORE_SCHEMA_VERSION <? version); [untrusted H|].
  destruct (negb (version =? STORE_SCHEMA_VERSION)); [untrusted H|]. run_sys H. apply ask_some in Hm0 as [-> ->].
  destruct (query_run_metadata connection _) as [row|] eqn:Er; [|untrusted H].
  destruct (archive_row_defect run_id row) as [[c' detail']|] eqn:Edef.
  { apply sys_ret_some in H as [[= -> -> _] _]. by destruct (archive_row_defect_range _ _ _ _ Edef) as [-> | ->]. }
  run_sys H. apply ask_some in Hm0 as [-> ->]. apply ask_some in Hm1 as [-> ->].
  match type of H with (if negb ?a || negb ?b then _ else _) _ = _ => destruct a eqn:Ea; [destruct b eqn:Eb'|]; cbn [negb orb] in H end;
    [|untrusted H..].
  apply same_node_true in Ea as (directory' & E1 & _ & I1), Eb' as (database' & E2 & _ & I2). apply sys_ret_some in H as [[= -> -> _] ->].
  assert (Hw : archive_row_complete row = bool_decide ((if archive_row_complete row then Candidate_Completed else Candidate_Incomplete) = Candidate_Completed))
    by (by destruct (archive_row_complete row)).
  assert (Hgoal : exists opened queried again connection row0 directory0 directory1 database0 database1,
    (now <= opened < queried)%nat /\ (queried < again)%nat /\ (S again < S (S (S (S (S (S (S t)))))))%nat /\
        os_symlink_metadata run_directory now = Ok directory0 /\ is_dir directory0 = true /\
        os_symlink_metadata (join_path run_directory DIAGNOSTIC_DATABASE_FILENAME) (S now) = Ok database0 /\ is_file database0 = true /\
        open_immutable_read_only (join_path run_directory DIAGNOSTIC_DATABASE_FILENAME) opened = Ok connection /\
        query_run_metadata connection queried = Ok row0 /\ archive_row_defect run_id row0 = None /\
        archive_row_complete row0 = bool_decide ((if archive_row_complete row then Candidate_Completed else Candidate_Incomplete) = Candidate_Completed) /\
        os_symlink_metadata run_directory again = Ok directory1 /\ file_identity directory1 = file_identity directory0 /\
        os_symlink_metadata (join_path run_directory DIAGNOSTIC_DATABASE_FILENAME) (S again) = Ok database1 /\ file_identity database1 = file_identity database0).
  { exists t, (4 + t)%nat, (5 + t)%nat, connection, row, directory, directory', database, database'. split_and!; first [lia|eassumption]. }
  by destruct (archive_row_complete row).
Qed.

(** ** Locators *)

Lemma read_registry_snapshot_advances path : advances (read_registry_snapshot path).
Proof. unfold read_registry_snapshot. advance. Qed.

Lemma classify_archive_advances path run_id : advances (classify_archive path run_id).
Proof. pose proof acquire_advances. unfold classify_archive. advance. Qed.

Lemma scan_namespace_advances path : advances (scan_namespace path).
Proof. unfold scan_namespace. advance. Qed.

(** ** Archives by their run ids *)

Lemma btree_insert_perm key value archives :
  (key ∉ map fst archives) -> btree_insert key value archives ≡ₚ (key, value) :: archives.
Proof.
  induction archives as [|[k v] archives IH]; cbn [btree_insert map fst]; [done|]. intros [Hk Hn]%not_elem_of_cons.
  destruct (Z.compare_spec (as_uuid key) (as_uuid k)) as [E|E|E]; [|done|].
  - exfalso. apply Hk. destruct key, k. cbn in E. congruence.
  - rewrite IH by done. apply Permutation_swap.
Qed.

Lemma btree_remove_absent key archives : (key ∉ map fst archives) -> btree_remove key archives = (None, archives).
Proof.
  induction archives as [|[k v] archives IH]; cbn [btree_remove map fst]; [done|]. intros [Hk Hn]%not_elem_of_cons.
  rewrite bool_decide_false by congruence. by rewrite IH.
Qed.

Lemma filter_keys_other (key : CanonicalUuid) (archives : list (CanonicalUuid * DiscoveryCandidate)) :
  (key ∉ map fst archives) -> filter (fun x : CanonicalUuid * DiscoveryCandidate => x.1 <> key) archives = archives.
Proof.
  induction archives as [|[k v] archives IH]; [done|]. cbn [map fst]. intros [Hk Hn]%not_elem_of_cons.
  rewrite filter_cons, decide_True by (cbn; congruence). by rewrite IH.
Qed.

Lemma btree_remove_spec key archives :
  NoDup (map fst archives) ->
  (btree_remove key archives).2 = filter (fun x : CanonicalUuid * DiscoveryCandidate => x.1 <> key) archives /\
  ((exists v, (btree_remove key archives).1 = Some v) <-> key ∈ map fst archives).
Proof.
  induction archives as [|[k v] archives IH]; cbn [btree_remove map fst]; intros Hnd.
  - split; [done|]. split; [by intros [? ?]|by intros ?%elem_of_nil].
  - apply NoDup_cons in Hnd as [Hn Hnd]. destruct (IH Hnd) as [IH1 IH2]. destruct (decide (k = key)) as [->|Hk].
    + rewrite bool_decide_true by done. rewrite filter_cons, decide_False by (cbn; tauto). rewrite filter_keys_other by done.
      split; [done|]. split; [intros _; left|intros _; by exists v].
    + rewrite bool_decide_false by done. destruct (btree_remove key archives) as [found rest]. cbn [fst snd] in *.
      rewrite filter_cons, decide_True by (cbn; congruence). split; [by rewrite IH1|]. rewrite IH2. split; [by right|].
      intros [?|?]%elem_of_cons; [congruence|done].
Qed.

(** ** The candidates of archives *)

Definition archive_candidate (start finish : nat) (path : PathBuf) (c : DiscoveryCandidate) : Prop :=
  dc_source c = Source_Archive /\ dc_path c = path /\ dc_registry_entry c = None /\ dc_path_run_id c = archive_path_run_id path /\
  match archive_path_run_id path with
  | None =>
      dc_classification c = Candidate_Invalid /\ dc_run_id c = None /\ dc_archive_directory c = None /\ dc_archive_present c = false
  | Some run_id =>
      dc_archive_directory c = Some path /\ dc_archive_present c = true /\
      exists from to trusted, (start <= from)%nat /\ (to <= finish)%nat /\
        archive_witness path run_id from to (dc_classification c) trusted /\
        dc_run_id c = if trusted then Some run_id else None
  end.

Definition keyed (candidates : list DiscoveryCandidate) : list (CanonicalUuid * DiscoveryCandidate) :=
  omap (fun c => run_id ← dc_path_run_id c; Some (run_id, c)) candidates.

Definition nameless (c : DiscoveryCandidate) : bool := match dc_path_run_id c with None => true | Some _ => false end.

Lemma scan_archive_paths_advances paths : forall untrusted archives, advances (scan_archive_paths paths untrusted archives).
Proof.
  pose proof classify_archive_advances. induction paths as [|path paths IH]; intros untrusted archives; cbn [scan_archive_paths]; [apply advances_ret|].
  destruct (archive_path_run_id path); [|apply IH]. apply advances_bind; [done|]. intros [[classification trusted] detail]. apply IH.
Qed.

Lemma scan_archive_paths_spec start finish paths : forall untrusted archives now untrusted' archives' later,
  NoDup (map fst archives ++ omap archive_path_run_id paths) -> (start <= now)%nat -> (later <= finish)%nat ->
  scan_archive_paths paths untrusted archives now = Some ((untrusted', archives'), later) ->
  exists l, Forall2 (archive_candidate start finish) paths l /\
    untrusted' = untrusted ++ filter (fun c => nameless c = true) l /\ archives' ≡ₚ archives ++ keyed l.
Proof.
  induction paths as [|path paths IH]; intros untrusted archives now untrusted' archives' later Hnd Hs Hf; cbn [scan_archive_paths].
  - intros [[= -> ->] ->]%sys_ret_some. exists []. split_and!; [done|by rewrite app_nil_r..].
  - cbn [omap list_omap] in Hnd. destruct (archive_path_run_id path) as [run_id|] eqn:Eid.
    + intros H. run_sys H. destruct x as [[c trusted] detail]. pose proof (classify_archive_advances _ _ _ _ _ Hm) as Hadv.
      pose proof (scan_archive_paths_advances _ _ _ _ _ _ H) as Hadv'. apply classify_archive_witness in Hm.
      assert (Hk : run_id ∉ map fst archives).
      { apply NoDup_app in Hnd as (_ & Hnd & _). intros Hin. apply (Hnd _ Hin). left. }
      apply (IH _ _ t) in H as (l & Hl & -> & Hp); [| |lia|done].
      * exists (mkCandidate c Source_Archive path (if trusted then Some run_id else None) (Some run_id) (Some path) true None detail None :: l).
        split; [constructor; [|exact Hl]|].
        -- unfold archive_candidate. cbn. rewrite Eid. split_and!; try done. exists now, t, trusted. split_and!; try lia; done.
        -- split; [by rewrite filter_cons|]. rewrite Hp, btree_insert_perm by done. unfold keyed. cbn. apply Permutation_middle.
      * rewrite btree_insert_perm by done. cbn [map fst]. rewrite <- Permutation_middle in Hnd. done.
    + intros H. apply (IH _ _ now) in H as (l & Hl & -> & Hp); [|done..].
      exists (untrusted_candidate Candidate_Invalid Source_Archive path None None false
        "Run archive directory name is not a canonical UUID" :: l). split; [constructor; [|exact Hl]|].
      * unfold archive_candidate. cbn. by rewrite Eid.
      * split; [by rewrite filter_cons, <- app_assoc|]. done.
Qed.

(** ** The candidates of instances *)

Definition instance_candidate (start finish : nat) (runs_directory path : PathBuf) (c : DiscoveryCandidate) : Prop :=
  dc_source c = Source_Instance /\ dc_path c = path /\ dc_path_run_id c = registry_path_run_id path /\
  match dc_registry_entry c with
  | None => dc_run_id c = None /\ (dc_classification c = Candidate_Invalid \/ dc_classification c = Candidate_Incompatible)
  | Some entry =>
      exists run_id snapshot from to,
        registry_path_run_id path = Some run_id /\ dc_run_id c = Some run_id /\ re_run_id entry = run_id /\
        run_directory entry = join_path runs_directory (uuid_text run_id) /\
        dc_archive_directory c = Some (join_path runs_directory (uuid_text run_id)) /\
        dc_registry_snapshot c = Some snapshot /\ decode_registry_entry path (rs_bytes snapshot) = Some (Ok entry) /\
        (start <= from)%nat /\ (to <= finish)%nat /\ owner_witness entry from to (dc_classification c)
  end.

(** The archive that it was found to own. *)
Definition owns_archive (archives : list (CanonicalUuid * DiscoveryCandidate)) (c : DiscoveryCandidate) : Prop :=
  dc_archive_present c = true <-> exists run_id, dc_path_run_id c = Some run_id /\ run_id ∈ map fst archives.

Lemma classify_registry_entry_advances entry : advances (classify_registry_entry entry).
Proof. unfold classify_registry_entry. advance. Qed.

Lemma classify_instance_advances path runs_directory archives : advances (classify_instance path runs_directory archives).
Proof.
  pose proof read_registry_snapshot_advances. pose proof classify_registry_entry_advances. unfold classify_instance. advance.
Qed.

Lemma classify_instance_spec start finish path runs_directory archives now c archives' later :
  NoDup (map fst archives) -> (start <= now)%nat -> (later <= finish)%nat ->
  classify_instance path runs_directory archives now = Some ((c, archives'), later) ->
  instance_candidate start finish runs_directory path c /\ owns_archive archives c /\
  archives' = filter (fun x : CanonicalUuid * DiscoveryCandidate => Some x.1 <> registry_path_run_id path) archives.
Proof.
  intros Hnd Hs Hf H. pose proof (classify_instance_advances _ _ _ _ _ _ H) as _. unfold classify_instance in H.
  destruct (registry_path_run_id path) as [run_id|] eqn:Eid.
  2:{ apply sys_ret_some in H as [[= -> ->] ->]. split_and!.
      - unfold instance_candidate. cbn. rewrite Eid. split_and!; auto.
      - unfold owns_archive. cbn. split; [done|by intros (? & ? & _)].
      - induction archives as [|x l IH]; [done|]. rewrite filter_cons, decide_True by done. f_equal. apply IH. by apply NoDup_cons in Hnd as [_ ?]. }
  pose proof (btree_remove_spec run_id archives Hnd) as [Hrest Hfound]. destruct (btree_remove run_id archives) as [archive rest]. cbn [fst snd] in *.
  assert (Ha : rest = filter (fun x : CanonicalUuid * DiscoveryCandidate => Some x.1 <> Some run_id) archives).
  { rewrite Hrest. apply list_filter_iff. intros x. split; congruence. }
  assert (Hown : match archive with Some _ => true | None => false end = true <-> exists r, Some run_id = Some r /\ r ∈ map fst archives).
  { destruct archive as [v|].
    - split; [|done]. intros _. exists run_id. split; [done|]. apply Hfound. by exists v.
    - split; [done|]. intros (r & [= <-] & Hr). apply Hfound in Hr as [? ?]. done. }
  clear Hfound Hrest. run_sys H. apply read_registry_snapshot_advances in Hm as Hadv. destruct x as [snapshot|error].
  2:{ apply sys_ret_some in H as [[= -> ->] _]. split_and!; [|done|done]. unfold instance_candidate. cbn. split_and!; auto. }
  run_sys H. apply sys_expect_some in Hm0 as [Ede ->]. destruct x as [entry|error].
  2:{ apply sys_ret_some in H as [[= -> ->] _]. split_and!; [|done|done]. unfold instance_candidate. cbn.
      split_and!; try done. destruct (rce_code error); auto. }
  destruct (bool_decide (re_run_id entry <> run_id) || bool_decide (run_directory entry <> _)) eqn:Eb.
  { apply sys_ret_some in H as [[= -> ->] _]. split_and!; [|done|done]. unfold instance_candidate. cbn. split_and!; auto. }
  apply orb_false_iff in Eb as [E1 E2]. apply bool_decide_eq_false, dec_stable in E1, E2.
  run_sys H. destruct x as [classification detail]. apply sys_ret_some in H as [[= -> ->] ->].
  match goal with Hc : classify_registry_entry _ _ = _ |- _ => apply classify_registry_entry_witness in Hc as [Hlt Hw] end. split_and!; [|done|done].
  unfold instance_candidate. cbn. split_and!; [done|done|done|]. exists run_id, snapshot, t, t0. split_and!; try done; lia.
Qed.

(** ** Namespaces *)

(** The system lists a name of a directory once. *)
Definition lists_once : Prop := forall path call names, os_read_dir path call = Ok (map Ok names) -> NoDup names.

Lemma entry_paths_ok path entries paths :
  entry_paths path entries = Ok paths -> exists names, entries = map Ok names /\ paths = map (join_path path) names.
Proof.
  revert paths. induction entries as [|[name|error] entries IH]; intros paths; cbn [entry_paths]; [|intros H|done].
  - intros [= <-]. by exists [].
  - apply result_bind_ok in H as (rest & Hr & [= <-]). destruct (IH rest Hr) as (names & -> & ->). by exists (name :: names).
Qed.

Lemma scan_namespace_ok path now paths later :
  lists_once -> scan_namespace path now = Some (Ok paths, later) ->
  exists names, NoDup names /\ paths ≡ₚ map (join_path path) names.
Proof.
  intros Hlaw. unfold scan_namespace. intros H. run_sys H. apply ask_some in Hm as [-> ->]. destruct (os_symlink_metadata path now) as [initial|error].
  - destruct (negb (is_dir initial)); [by apply sys_ret_some in H as [? _]|]. run_sys H. apply sys_map_err_ok, ask_some in Hm as [Hr ->].
    apply sys_ret_some in Hm0 as [Hp ->]. symmetry in Hp. apply entry_paths_ok in Hp as (names & -> & ->).
    destruct (_ || _); apply sys_ret_some in H as [H _]; [done|]. injection H as ->. exists names. symmetry in Hr. split; [by eapply Hlaw|apply sort_by_perm].
  - apply sys_ret_some in H as [H _]. destruct (io_kind error); try done. injection H as ->. exists []. split; [constructor|done].
Qed.

Lemma parse_uuid_text value run_id : parse_uuid value = Ok run_id -> value = uuid_text run_id.
Proof.
  unfold parse_uuid, CanonicalUuid_parse, uuid_text, CanonicalUuid_to_string. intros (parsed & _ & H)%result_bind_ok.
  case_bool_decide as E; [done|]. injection H as <-. cbn. by destruct (decide (uuid_hyphenated parsed = value)).
Qed.

Lemma path_file_name_join path name found : path_file_name (join_path path name) = Some found -> found = name.
Proof.
  unfold path_file_name, join_path. cbn. rewrite last_snoc. cbn. case_bool_decide; [done|]. by intros [= <-].
Qed.

Lemma archive_path_run_id_join path name run_id : archive_path_run_id (join_path path name) = Some run_id -> name = uuid_text run_id.
Proof.
  unfold archive_path_run_id. intros (found & Hn%path_file_name_join & H)%bind_Some. subst found.
  destruct (parse_uuid name) eqn:Ep; [|done]. injection H as <-. by apply parse_uuid_text.
Qed.

Lemma strip_suffix_some suffix text stem : strip_suffix suffix text = Some stem -> text = stem +:+ suffix.
Proof.
  unfold strip_suffix. case_bool_decide as E; [|done]. intros [= <-]. apply bytes_inj. rewrite bytes_app, bytes_of_bytes, <- E.
  by rewrite take_drop.
Qed.

Lemma registry_path_run_id_join path name run_id :
  registry_path_run_id (join_path path name) = Some run_id -> name = uuid_text run_id +:+ ".json".
Proof.
  unfold registry_path_run_id. intros (found & Hn%path_file_name_join & H)%bind_Some. subst found.
  apply bind_Some in H as (stem & Hs & H). apply strip_suffix_some in Hs as ->. destruct (parse_uuid stem) eqn:Ep; [|done].
  injection H as ->. by rewrite (parse_uuid_text stem run_id).
Qed.

(** Different names have different run ids. *)
Lemma run_ids_once (run_id_of : PathBuf -> option CanonicalUuid) (text : CanonicalUuid -> string) path names paths :
  (forall name run_id, run_id_of (join_path path name) = Some run_id -> name = text run_id) ->
  NoDup names -> paths ≡ₚ map (join_path path) names -> NoDup (omap run_id_of paths).
Proof.
  intros Htext Hnd ->. induction Hnd as [|name names Hn _ IH]; [constructor|]. cbn [map omap list_omap].
  destruct (run_id_of (join_path path name)) as [run_id|] eqn:E; [|done]. constructor; [|done].
  intros (p & Hp & E')%list_elem_of_omap. apply list_elem_of_fmap in Hp as (name' & -> & Hin). apply Hn.
  rewrite (Htext _ _ E). by rewrite <- (Htext _ _ E').
Qed.

Lemma filter_sublist_NoDup {A} (f : A -> option CanonicalUuid) (p : A -> bool) l : NoDup (omap f l) -> NoDup (omap f (List.filter p l)).
Proof.
  induction l as [|x l IH]; [done|]. cbn [omap list_omap List.filter]. intros H.
  assert (Hsub : forall y, y ∈ omap f (List.filter p l) -> y ∈ omap f l).
  { intros y (z & Hz & E)%list_elem_of_omap. apply list_elem_of_In, filter_In in Hz as [Hz%list_elem_of_In _]. apply list_elem_of_omap. by exists z. }
  destruct (f x) as [k|] eqn:E.
  - apply NoDup_cons in H as [Hk H]. destruct (p x); [|by apply IH]. cbn [omap list_omap]. rewrite E. constructor; [|by apply IH]. intros Hin. by apply Hk, Hsub.
  - destruct (p x); [|by apply IH]. cbn [omap list_omap]. rewrite E. by apply IH.
Qed.

(** ** All instances *)

Lemma filter_trivial {A} (P : A -> Prop) `{!forall x, Decision (P x)} (l : list A) : (forall x, P x) -> filter P l = l.
Proof. intros Hall. induction l as [|x l IH]; [done|]. rewrite filter_cons, decide_True by done. by rewrite IH. Qed.

Definition claimed (paths : list PathBuf) (run_id : CanonicalUuid) : Prop := run_id ∈ omap registry_path_run_id paths.

Lemma filter_archives_keys (P : CanonicalUuid * DiscoveryCandidate -> Prop) `{!forall x, Decision (P x)} archives k :
  k ∈ map fst (filter P archives) -> k ∈ map fst archives.
Proof. intros (x & -> & Hx)%list_elem_of_fmap. apply list_elem_of_filter in Hx as [_ Hx]. apply list_elem_of_fmap. by exists x. Qed.

Lemma filter_archives_NoDup (P : CanonicalUuid * DiscoveryCandidate -> Prop) `{!forall x, Decision (P x)} archives :
  NoDup (map fst archives) -> NoDup (map fst (filter P archives)).
Proof.
  induction archives as [|x l IH]; [done|]. cbn [map]. intros [Hn Hnd]%NoDup_cons. rewrite filter_cons. case_decide; [|by apply IH].
  cbn [map]. constructor; [|by apply IH]. intros Hin. by apply Hn, (filter_archives_keys P).
Qed.

Lemma classify_instances_advances paths runs_directory :
  forall archives candidates, advances (classify_instances paths runs_directory archives candidates).
Proof.
  induction paths as [|path paths IH]; intros archives candidates; cbn [classify_instances]; [apply advances_ret|].
  apply advances_bind; [apply classify_instance_advances|]. intros [candidate rest]. apply IH.
Qed.

Lemma classify_instances_spec start finish paths runs_directory : forall archives candidates now candidates' archives' later,
  NoDup (map fst archives) -> NoDup (omap registry_path_run_id paths) -> (start <= now)%nat -> (later <= finish)%nat ->
  classify_instances paths runs_directory archives candidates now = Some ((candidates', archives'), later) ->
  exists l, Forall2 (instance_candidate start finish runs_directory) paths l /\ Forall (owns_archive archives) l /\
    candidates' = candidates ++ l /\
    archives' = filter (fun x : CanonicalUuid * DiscoveryCandidate => (x.1 ∉ omap registry_path_run_id paths)) archives.
Proof.
  induction paths as [|path paths IH]; intros archives candidates now candidates' archives' later Hnd Hids Hs Hf; cbn [classify_instances].
  - intros [[= -> ->] ->]%sys_ret_some. exists []. split_and!; [done|done|by rewrite app_nil_r|].
    symmetry. apply filter_trivial. intros x. cbn. by intros ?%elem_of_nil.
  - intros H. run_sys H. destruct x as [c rest]. pose proof (classify_instances_advances _ _ _ _ _ _ _ H) as Hle. pose proof (classify_instance_advances _ _ _ _ _ _ Hm) as Hle'.
    apply (classify_instance_spec start finish) in Hm as (Hc & Hown & ->); [|done..|lia].
    assert (Hids' : NoDup (omap registry_path_run_id paths)).
    { cbn [omap list_omap] in Hids. destruct (registry_path_run_id path); [by apply NoDup_cons in Hids as [_ ?]|done]. }
    apply IH in H as (l & Hl & Ho & -> & ->); [|by apply filter_archives_NoDup|done|lia|done].
    exists (c :: l). split_and!; [by constructor| |by rewrite <- app_assoc|].
    + constructor; [done|]. rewrite Forall_forall in Ho |- *. intros d Hd. specialize (Ho d Hd). unfold owns_archive in *.
      rewrite Ho. split; intros (k & Hk & Hin); exists k; (split; [done|]).
      * by eapply filter_archives_keys.
      * apply list_elem_of_fmap in Hin as ([k' v] & -> & Hin). apply list_elem_of_fmap. exists (k', v). split; [done|].
        apply list_elem_of_filter. split; [|done]. cbn. intros Heq. cbn [fst] in *.
        apply list_elem_of_lookup in Hd as [j Hj]. destruct (Forall2_lookup_r _ _ _ _ _ Hl Hj) as (p & Hp & (_ & _ & Hid & _)).
        cbn [omap list_omap] in Hids. rewrite <- Heq in Hids. apply NoDup_cons in Hids as [Hn _]. apply Hn.
        apply list_elem_of_omap. exists p. split; [by eapply list_elem_of_lookup_2|congruence].
    + rewrite list_filter_filter. apply list_filter_iff. intros [k v]. cbn [fst omap list_omap].
      destruct (registry_path_run_id path) as [r|]; [rewrite not_elem_of_cons; split; intros [? ?]; split; congruence|].
      split; [by intros [? ?]|by intros ?].
Qed.

(** ** The discovery *)

#[export] Instance candidate_total_cmp : TotalCmp candidate_cmp.
Proof.
  exact (then_total_cmp (fun x y => path_cmp (dc_path x) (dc_path y))
    (fun x y => classification_rank (dc_classification x) ?= classification_rank (dc_classification y))).
Qed.

(** An archive that no instance claims. *)
Definition unclaimed (instances : list PathBuf) (c : DiscoveryCandidate) : Prop :=
  match dc_path_run_id c with Some run_id => (run_id ∉ omap registry_path_run_id instances) | None => True end.

#[export] Instance unclaimed_dec instances c : Decision (unclaimed instances c).
Proof. unfold unclaimed. destruct (dc_path_run_id c); apply _. Defined.

Lemma keyed_cons c l : keyed (c :: l) = match dc_path_run_id c with Some run_id => (run_id, c) :: keyed l | None => keyed l end.
Proof. unfold keyed. cbn [omap list_omap]. by destruct (dc_path_run_id c). Qed.

Lemma unclaimed_split instances l :
  filter (fun c => nameless c = true) l ++
    map snd (filter (fun x : CanonicalUuid * DiscoveryCandidate => (x.1 ∉ omap registry_path_run_id instances)) (keyed l)) ≡ₚ
  filter (unclaimed instances) l.
Proof.
  induction l as [|c l IH]; [done|]. rewrite keyed_cons, !filter_cons. destruct (dc_path_run_id c) as [run_id|] eqn:E.
  - assert (Hn : nameless c = false) by (unfold nameless; by rewrite E). rewrite (decide_False (P := nameless c = true)) by congruence.
    assert (Hu : unclaimed instances c <-> (run_id ∉ omap registry_path_run_id instances)) by (unfold unclaimed; by rewrite E).
    rewrite filter_cons. cbn [fst]. destruct (decide (run_id ∉ _)) as [Hi|Hi].
    + rewrite decide_True by tauto. cbn [map snd]. by rewrite <- Permutation_middle, IH.
    + rewrite decide_False by tauto. done.
  - assert (Hn : nameless c = true) by (unfold nameless; by rewrite E). rewrite decide_True by done.
    rewrite decide_True by (unfold unclaimed; by rewrite E). cbn [app]. by rewrite IH.
Qed.

Lemma archive_ids start finish runs l :
  Forall2 (archive_candidate start finish) runs l -> map fst (keyed l) = omap archive_path_run_id runs.
Proof.
  induction 1 as [|path c runs l (_ & _ & _ & Hid & _) _ IH]; [done|]. rewrite keyed_cons, Hid. cbn [omap list_omap].
  destruct (archive_path_run_id path); [cbn [map fst]; by rewrite IH|done].
Qed.

Lemma discover_with_ok root start candidates finish :
  lists_once -> discover_with root start = Some (Ok candidates, finish) ->
  let runs_directory := join_path (diagnostics_directory root) "runs" in
  let instances_directory := join_path (diagnostics_directory root) "instances" in
  exists runs listed found_archives found_instances,
    let instances := List.filter has_json_extension listed in
    (exists now later, scan_namespace runs_directory now = Some (Ok runs, later)) /\
    (exists now later, scan_namespace instances_directory now = Some (Ok listed, later)) /\
    Forall2 (archive_candidate start finish) runs found_archives /\
    Forall2 (instance_candidate start finish runs_directory) instances found_instances /\
    candidates ≡ₚ filter (unclaimed instances) found_archives ++ found_instances /\
    Forall (owns_archive (keyed found_archives)) found_instances /\
    StronglySorted (fun x y => candidate_cmp x y <> Gt) candidates.
Proof.
  intros Hlaw H runs_directory instances_directory. unfold discover_with in H. run_sys H. apply sys_ret_some in Hm as [_ ->].
  destruct x0 as [untrusted archives]. unfold scan_archives in Hm0. run_sys Hm0. run_sys H.
  apply sys_ret_some in Hm0 as [[= <-] ->]. destruct x2 as [candidates' archives'].
  apply sys_ret_some in H as [[= ->] ->].
  fold runs_directory in Hm, Hm3. fold instances_directory in Hm2.
  destruct (scan_namespace_ok _ _ _ _ Hlaw Hm) as (names & Hnd & Hp). destruct (scan_namespace_ok _ _ _ _ Hlaw Hm2) as (names' & Hnd' & Hp').
  assert (Hruns : NoDup (omap archive_path_run_id x)) by (by apply (run_ids_once _ uuid_text runs_directory names); [apply archive_path_run_id_join|..]).
  assert (Hinst : NoDup (omap registry_path_run_id (List.filter has_json_extension x1))).
  { apply filter_sublist_NoDup. by apply (run_ids_once _ (fun run_id => uuid_text run_id +:+ ".json") instances_directory names');
      [apply registry_path_run_id_join|..]. }
  assert (Htimes : (start <= t)%nat /\ (t <= t1)%nat /\ (t1 <= t2)%nat).
  { split_and!; [by eapply scan_namespace_advances|by eapply scan_archive_paths_advances|by eapply scan_namespace_advances]. }
  assert (Hlast : (t2 <= t3)%nat) by (by eapply classify_instances_advances).
  apply (scan_archive_paths_spec start t3) in Hm1 as (la & Hla & -> & Ha); [|done|lia..]. cbn [app] in *.
  pose proof (archive_ids _ _ _ _ Hla) as Hkeys.
  assert (Hk : NoDup (map fst archives)) by (by rewrite Ha, Hkeys).
  apply (classify_instances_spec start t3) in Hm3 as (li & Hli & Hown & -> & ->); [|done|done|lia..].
  exists x, x1, la, li. cbn zeta. split_and!; try done.
  - by exists start, t.
  - by exists t1, t2.
  - rewrite sort_by_perm. rewrite Ha at 1. rewrite <- unclaimed_split, <- !app_assoc. apply Permutation_app_head, Permutation_app_comm.
  - eapply Forall_impl; [exact Hown|]. intros c. unfold owns_archive. by setoid_rewrite Ha.
  - apply sort_by_sorted, candidate_total_cmp.
Qed.

(** Where the candidates come from. *)
Lemma discovery_parts root start candidates finish :
  lists_once -> discover_with root start = Some (Ok candidates, finish) ->
  exists runs instances found_archives found_instances,
    Forall2 (archive_candidate start finish) runs found_archives /\
    Forall2 (instance_candidate start finish (join_path (diagnostics_directory root) "runs")) instances found_instances /\
    forall c, c ∈ candidates -> c ∈ found_archives \/ c ∈ found_instances.
Proof.
  intros Hlaw H. destruct (discover_with_ok root start candidates finish Hlaw H) as (runs & listed & la & li & _ & _ & Hla & Hli & Hp & _).
  exists runs, (List.filter has_json_extension listed), la, li. split_and!; [done|done|]. intros c. rewrite Hp.
  intros [Hc|Hc]%elem_of_app; [left|by right]. by apply list_elem_of_filter in Hc as [_ ?].
Qed.

(** C31: a discovery is exact: it lists the archives and the instances of the
    production, and its candidates, in the order of their paths, are one for every
    instance and one for every archive that no instance claims; an instance says
    whether its archive was found.  An archive is classified by the row of a
    database that was not replaced, and trusted only then; an instance by what was
    seen of its owner and server while the discovery ran. *)
Theorem discovery_exact root start candidates finish :
  lists_once -> discover_with root start = Some (Ok candidates, finish) ->
  let runs_directory := join_path (diagnostics_directory root) "runs" in
  let instances_directory := join_path (diagnostics_directory root) "instances" in
  exists runs listed found_archives found_instances,
    let instances := List.filter has_json_extension listed in
    (exists now later, scan_namespace runs_directory now = Some (Ok runs, later)) /\
    (exists now later, scan_namespace instances_directory now = Some (Ok listed, later)) /\
    Forall2 (archive_candidate start finish) runs found_archives /\
    Forall2 (instance_candidate start finish runs_directory) instances found_instances /\
    candidates ≡ₚ filter (unclaimed instances) found_archives ++ found_instances /\
    Forall (owns_archive (keyed found_archives)) found_instances /\
    StronglySorted (fun x y => candidate_cmp x y <> Gt) candidates.
Proof. apply discover_with_ok. Qed.

(** ** Revalidation *)

(** What an authorisation means: the locator is the one that was discovered, byte
    for byte, and the owner was looked at again. *)
Definition authorization (candidate : DiscoveryCandidate) (purpose : RevalidationPurpose) (start finish : nat) : Prop :=
  dc_classification candidate = required_classification purpose /\
  exists entry snapshot from,
    dc_registry_entry candidate = Some entry /\ dc_registry_snapshot candidate = Some snapshot /\
    (start <= from)%nat /\ read_registry_snapshot (dc_path candidate) start = Some (Ok snapshot, from) /\
    decode_registry_entry (dc_path candidate) (rs_bytes snapshot) = Some (Ok entry) /\
    owner_witness entry from finish (required_classification purpose).

Lemma revalidate_advances candidate purpose : advances (revalidate candidate purpose).
Proof.
  pose proof read_registry_snapshot_advances. pose proof classify_registry_entry_advances. unfold revalidate. advance.
Qed.

Lemma revalidate_authorized candidate purpose now r later :
  revalidate candidate purpose now = Some (r, later) -> is_authorized r = true ->
  authorization candidate purpose now later /\
  exists refreshed, rr_candidate r = Some refreshed /\ dc_registry_entry refreshed = dc_registry_entry candidate.
Proof.
  unfold revalidate. intros H Ha.
  assert (Hrefused : forall status t, status <> Authorized -> sys_ret (refused purpose status) t = Some (r, later) -> False).
  { intros status t Hne [-> _]%sys_ret_some. unfold is_authorized in Ha. apply bool_decide_eq_true in Ha. done. }
  destruct (bool_decide (dc_classification candidate <> _)) eqn:Ec; [exfalso; by eapply Hrefused in H|].
  apply bool_decide_eq_false, dec_stable in Ec. destruct (dc_registry_snapshot candidate) as [snapshot|] eqn:Es; [|exfalso; by eapply Hrefused in H].
  destruct (dc_registry_entry candidate) as [entry|] eqn:Ee; [|exfalso; by eapply Hrefused in H]. run_sys H.
  pose proof (read_registry_snapshot_advances _ _ _ _ Hm) as Hadv. destruct x as [snapshot'|error]; [|exfalso; by eapply Hrefused in H].
  case_bool_decide as E1; [exfalso; by eapply Hrefused in H|]. subst snapshot'.
  run_sys H. apply sys_expect_some in Hm0 as [Ed ->]. destruct x as [entry'|error]; [|exfalso; by eapply Hrefused in H].
  case_bool_decide as E2; [exfalso; by eapply Hrefused in H|]. subst entry'. run_sys H. destruct x as [classification detail].
  match goal with Hc : classify_registry_entry _ _ = _ |- _ => apply classify_registry_entry_witness in Hc as [_ Hw] end. apply sys_ret_some in H as [-> ->].
  unfold is_authorized in Ha. cbn [rr_status] in Ha.
  destruct (decide (classification = required_classification purpose)) as [->|E3]; [|by rewrite (bool_decide_false _ E3) in Ha]. split.
  - split; [done|]. by exists entry, snapshot, t.
  - eexists. split; [reflexivity|done].
Qed.

End Specification.
