(* ===== verification/Resolver.v ===== *)
(** * Resolution of a run

    Models [rust/src/application/diagnostic_cli/resolver.rs]: which of the
    discovered candidates a diagnostic command works on.  The HTTP client, and the
    readers of archives, are behind [ResolverHost]. *)

From S2P Require Import Prelude Files Text Wire Order Event Store Process Host Lease Registry Discovery.

Inductive ResolverErrorCode :=
| Resolver_InvalidProductionRoot | Resolver_DiscoveryFailed | Resolver_TargetNotFound | Resolver_AmbiguousLiveTarget
| Resolver_AmbiguousArchiveTarget | Resolver_UnsafeCandidate | Resolver_RevalidationFailed | Resolver_ArchiveFailed
| Resolver_HttpFailed | Resolver_TaskFailed.

Definition ResolverErrorCode_as_str (c : ResolverErrorCode) : string :=
  match c with
  | Resolver_InvalidProductionRoot => "diagnostic_resolver.invalid_production_root"
  | Resolver_DiscoveryFailed => "diagnostic_resolver.discovery_failed"
  | Resolver_TargetNotFound => "diagnostic_resolver.target_not_found"
  | Resolver_AmbiguousLiveTarget => "diagnostic_resolver.ambiguous_live_target"
  | Resolver_AmbiguousArchiveTarget => "diagnostic_resolver.ambiguous_archive_target"
  | Resolver_UnsafeCandidate => "diagnostic_resolver.unsafe_candidate"
  | Resolver_RevalidationFailed => "diagnostic_resolver.revalidation_failed"
  | Resolver_ArchiveFailed => "diagnostic_resolver.archive_failed"
  | Resolver_HttpFailed => "diagnostic_resolver.http_failed"
  | Resolver_TaskFailed => "diagnostic_resolver.task_failed"
  end.

(** An [HttpClientError] is its code and its text. *)
Record ResolverError := mkResolverError { rv_code : ResolverErrorCode; rv_detail : string; rv_http_code : option string }.

Definition resolver_error (code : ResolverErrorCode) (detail : string) : ResolverError := mkResolverError code detail None.

Definition ResolverError_http (error : string * string) : ResolverError :=
  mkResolverError Resolver_HttpFailed error.2 (Some error.1).

Definition ResolverError_display (e : ResolverError) : string :=
  ResolverErrorCode_as_str (rv_code e) +:+ ": " +:+ rv_detail e.

(** The metadata of a captured archive. *)
Record ArchiveMetadata := mkArchiveMetadata {
  am_started_at : string;
  am_ended_at : option string;
  am_clean_shutdown : bool;
}.

(** A client of the server of an entry and an opened archive are numbers. *)
Class ResolverHost := {
  resolver_registry :: RegistryHost;
  client_from_validated_registry_entry : RegistryEntry -> result Z (string * string);
  archive_open_expected : PathBuf -> CanonicalUuid -> nat -> result Z string;
  archive_capture : Z -> nat -> result ArchiveMetadata string;
}.

Inductive ResolvedDiagnosticTarget :=
| Resolved_Live (client : Z)
| Resolved_Archive (archive : Z).

Definition is_live (t : ResolvedDiagnosticTarget) : bool := match t with Resolved_Live _ => true | Resolved_Archive _ => false end.

Section Resolver.
Context {host : ResolverHost}.

Definition archive_error (error : string) : ResolverError := resolver_error Resolver_ArchiveFailed error.

Definition open_candidate_archive_target (candidate : DiscoveryCandidate) (expected_run_id : CanonicalUuid)
    : Sys (result Z ResolverError) :=
  match dc_archive_directory candidate with
  | None =>
      sys_ret (Err (resolver_error Resolver_TargetNotFound ("Run " +:+ uuid_text expected_run_id +:+ " has no archive directory")))
  | Some run_directory =>
      if negb (dc_archive_present candidate) then
        sys_ret (Err (resolver_error Resolver_TargetNotFound ("Run " +:+ uuid_text expected_run_id +:+ " has no archive")))
      else sys_map_err archive_error (ask (archive_open_expected run_directory expected_run_id))
  end.

Definition open_candidate_archive (candidate : DiscoveryCandidate) (expected_run_id : CanonicalUuid)
    : Sys (result ResolvedDiagnosticTarget ResolverError) :=
  try! target := open_candidate_archive_target candidate expected_run_id in
  sys_ret (Ok (Resolved_Archive target)).

Definition revalidate_stale (candidate : DiscoveryCandidate) : Sys (result unit ResolverError) :=
  let! result := revalidate_for_cleanup candidate in
  sys_ret
    (if is_authorized result then Ok tt
     else Err (resolver_error Resolver_RevalidationFailed
            ("definite-stale candidate revalidation was refused: " +:+ RevalidationStatus_debug (rr_status result)))).

Definition resolve_active (candidate : DiscoveryCandidate) : Sys (result ResolvedDiagnosticTarget ResolverError) :=
  let! result := revalidate_for_use candidate in
  sys_ret
    (let? refreshed := ok_or (authorized_candidate result) (resolver_error Resolver_RevalidationFailed
       ("active candidate revalidation was refused: " +:+ RevalidationStatus_debug (rr_status result))) in
     let? entry := ok_or (dc_registry_entry refreshed) (resolver_error Resolver_RevalidationFailed
       "revalidated active candidate has no registry entry") in
     let? client := map_err ResolverError_http (client_from_validated_registry_entry entry) in
     Ok (Resolved_Live client)).

Definition resolve_explicit_run (candidates : list DiscoveryCandidate) (run_id : CanonicalUuid)
    : Sys (result ResolvedDiagnosticTarget ResolverError) :=
  match filter (fun candidate => dc_path_run_id candidate = Some run_id) candidates with
  | [] => sys_ret (Err (resolver_error Resolver_TargetNotFound ("Run " +:+ uuid_text run_id +:+ " is not present")))
  | _ :: _ :: _ =>
      sys_ret (Err (resolver_error Resolver_UnsafeCandidate ("Run " +:+ uuid_text run_id +:+ " has multiple discovery candidates")))
  | [candidate] =>
      match dc_source candidate, dc_classification candidate with
      | Source_Instance, Candidate_Active => resolve_active candidate
      | Source_Instance, Candidate_DefiniteStale =>
          try! _ := revalidate_stale candidate in
          open_candidate_archive candidate run_id
      | Source_Archive, Candidate_Completed | Source_Archive, Candidate_Incomplete => open_candidate_archive candidate run_id
      | _, classification =>
          sys_ret (Err (resolver_error Resolver_UnsafeCandidate
            ("Run " +:+ uuid_text run_id +:+ " is classified as " +:+ CandidateClassification_as_str classification
             +:+ " and cannot be bypassed")))
      end
  end.

(** The archives that an implicit target may be. *)
Definition is_candidate_archive (candidate : DiscoveryCandidate) : bool :=
  match dc_source candidate, dc_classification candidate with
  | Source_Archive, Candidate_Completed | Source_Archive, Candidate_Incomplete => true
  | Source_Instance, Candidate_DefiniteStale => dc_archive_present candidate
  | _, _ => false
  end.

Definition is_stale_instance (candidate : DiscoveryCandidate) : bool :=
  is_instance candidate && bool_decide (dc_classification candidate = Candidate_DefiniteStale).

Fixpoint revalidate_all (candidates : list DiscoveryCandidate) : Sys (result unit ResolverError) :=
  match candidates with
  | [] => sys_ret (Ok tt)
  | candidate :: candidates =>
      try! _ := revalidate_stale candidate in
      revalidate_all candidates
  end.

(** [get_or_insert] *)
Definition first_error (slot : option ResolverError) (error : ResolverError) : option ResolverError :=
  match slot with Some _ => slot | None => Some error end.

Fixpoint open_all (archives : list DiscoveryCandidate) (opened : list Z) (first_archive_error : option ResolverError)
    : Sys (list Z * option ResolverError) :=
  match archives with
  | [] => sys_ret (opened, first_archive_error)
  | candidate :: archives =>
      match dc_run_id candidate with
      | None =>
          open_all archives opened
            (first_error first_archive_error (resolver_error Resolver_UnsafeCandidate "archive Run identity is not trusted"))
      | Some run_id =>
          let! target := open_candidate_archive_target candidate run_id in
          match target with
          | Ok target => open_all archives (opened ++ [target]) first_archive_error
          | Err error => open_all archives opened (first_error first_archive_error error)
          end
      end
  end.

Definition resolve_implicit_run (candidates : list DiscoveryCandidate) : Sys (result ResolvedDiagnosticTarget ResolverError) :=
  let potentially_live := List.filter is_potentially_live candidates in
  let active := filter (fun candidate => dc_classification candidate = Candidate_Active) potentially_live in
  if negb (bool_decide (potentially_live = [])) then
    match potentially_live, active with
    | [_], [candidate] => resolve_active candidate
    | _, _ =>
        sys_ret (Err (resolver_error Resolver_AmbiguousLiveTarget
          "active or potentially-live instances require an explicit Run ID"))
    end
  else
    try! _ := revalidate_all (List.filter is_stale_instance candidates) in
    let! outcome := open_all (List.filter is_candidate_archive candidates) [] None in
    let '(opened, first_archive_error) := outcome in
    sys_ret
      match opened with
      | [] =>
          match first_archive_error with
          | Some error => Err error
          | None =>
              if existsb (fun candidate => bool_decide (dc_source candidate = Source_Archive) || dc_archive_present candidate) candidates
              then Err (resolver_error Resolver_UnsafeCandidate "no structurally valid archive can be selected")
              else Err (resolver_error Resolver_TargetNotFound "no diagnostic Run is present")
          end
      | [target] => Ok (Resolved_Archive target)
      | _ => Err (resolver_error Resolver_AmbiguousArchiveTarget "multiple valid archives require an explicit Run ID")
      end.

Definition resolve_discovered_production (candidates : list DiscoveryCandidate) (requested_run_id : option CanonicalUuid)
    : Sys (result ResolvedDiagnosticTarget ResolverError) :=
  match requested_run_id with
  | Some run_id => resolve_explicit_run candidates run_id
  | None => resolve_implicit_run candidates
  end.

Definition resolve_production_with (production_root : PathBuf) (requested_run_id : option CanonicalUuid)
    : Sys (result ResolvedDiagnosticTarget ResolverError) :=
  try! candidates := sys_map_err (fun error => resolver_error Resolver_DiscoveryFailed (DiscoveryError_display error))
    (discover_with production_root) in
  resolve_discovered_production candidates requested_run_id.

End Resolver.
