(* ===== verification/ResolverSpec.v ===== *)
(** * What a resolution promises

    A run that a command connects to was alive, and one that is read as an archive
    was not, when they were looked at last; without a run id only a production with
    one possible target is resolved. *)

From S2P Require Import Prelude Files Text Wire Order Event Store Process Host Lease Registry Discovery DiscoverySpec Resolver.

Section Specification.
Context {host : ResolverHost}.

(** The target is the server of a candidate that was active, and was again. *)
Definition live_target (c : DiscoveryCandidate) (start finish : nat) (client : Z) : Prop :=
  authorization c UseActive start finish /\
  exists entry, dc_registry_entry c = Some entry /\ client_from_validated_registry_entry entry = Ok client.

(** The target is the archive of a candidate, opened for a run. *)
Definition archive_target (c : DiscoveryCandidate) (run_id : CanonicalUuid) (start finish : nat) (archive : Z) : Prop :=
  dc_archive_present c = true /\
  exists directory call, dc_archive_directory c = Some directory /\ (start <= call < finish)%nat /\
    archive_open_expected directory run_id call = Ok archive.

(** An archive has no owner: it was found without an instance, or the owner of its
    instance was seen gone again. *)
Definition ownerless (c : DiscoveryCandidate) (start finish : nat) : Prop :=
  match dc_source c with
  | Source_Archive => dc_classification c = Candidate_Completed \/ dc_classification c = Candidate_Incomplete
  | Source_Instance => authorization c CleanupDefiniteStale start finish
  end.

Lemma resolve_active_ok c now target later :
  resolve_active c now = Some (Ok target, later) ->
  exists client, target = Resolved_Live client /\ live_target c now later client.
Proof.
  unfold resolve_active, revalidate_for_use. intros H. run_sys H. apply sys_ret_some in H as [H ->].
  destruct (authorized_candidate x) as [refreshed|] eqn:Ea; [|done]. unfold authorized_candidate in Ea. destruct (is_authorized x) eqn:Ei; [|done].
  destruct (revalidate_authorized _ _ _ _ _ Hm Ei) as (Hauth & refreshed' & Er & Hentry). rewrite Ea in Er. injection Er as <-.
  cbn [ok_or result_bind] in H. destruct (dc_registry_entry refreshed) as [entry|] eqn:Ee; [|done]. cbn [ok_or result_bind] in H.
  destruct (client_from_validated_registry_entry entry) as [client|error] eqn:Ecl; [|done]. injection H as ->.
  exists client. split; [done|]. split; [done|]. exists entry. split; [congruence|done].
Qed.

Lemma revalidate_stale_ok c now later :
  revalidate_stale c now = Some (Ok tt, later) -> authorization c CleanupDefiniteStale now later.
Proof.
  unfold revalidate_stale, revalidate_for_cleanup. intros H. run_sys H. apply sys_ret_some in H as [H ->].
  destruct (is_authorized x) eqn:Ei; [|done]. by destruct (revalidate_authorized _ _ _ _ _ Hm Ei) as [? _].
Qed.

Lemma open_candidate_archive_target_ok c run_id now archive later :
  open_candidate_archive_target c run_id now = Some (Ok archive, later) ->
  later = S now /\ archive_target c run_id now later archive.
Proof.
  unfold open_candidate_archive_target. destruct (dc_archive_directory c) as [directory|] eqn:Ed; [|by intros [? _]%sys_ret_some].
  destruct (dc_archive_present c) eqn:Ep; cbn [negb]; [|by intros [? _]%sys_ret_some].
  intros H. apply sys_map_err_ok, ask_some in H as [H ->]. split; [done|]. split; [done|]. exists directory, now. split_and!; [done|lia|lia|done].
Qed.

Lemma open_candidate_archive_ok c run_id now target later :
  open_candidate_archive c run_id now = Some (Ok target, later) ->
  exists archive, target = Resolved_Archive archive /\ archive_target c run_id now later archive.
Proof.
  unfold open_candidate_archive. intros H. run_sys H. apply sys_ret_some in H as [[= ->] ->].
  apply open_candidate_archive_target_ok in Hm as [_ Hm]. by exists x.
Qed.

Lemma archive_target_weaken c run_id start start' finish archive :
  (start' <= start)%nat -> archive_target c run_id start finish archive -> archive_target c run_id start' finish archive.
Proof. intros Hs [Hp (d & call & Hd & Hc & Ho)]. split; [done|]. exists d, call. split_and!; [done|lia|lia|done]. Qed.

Lemma authorization_weaken c purpose start finish finish' :
  (finish <= finish')%nat -> authorization c purpose start finish -> authorization c purpose start finish'.
Proof.
  intros Hf [Hc (entry & snapshot & from & H)]. split; [done|]. exists entry, snapshot, from. destruct H as (H1 & H2 & H3 & H4 & H5 & Hw).
  split_and!; try done. by eapply owner_witness_weaken.
Qed.

Lemma revalidate_stale_advances c : advances (revalidate_stale c).
Proof. unfold revalidate_stale, revalidate_for_cleanup. apply advances_bind; [apply revalidate_advances|]. intros r. apply advances_ret. Qed.

Lemma open_candidate_archive_target_advances c run_id : advances (open_candidate_archive_target c run_id).
Proof. unfold open_candidate_archive_target. advance. Qed.

Lemma resolve_explicit_run_ok candidates run_id now target later :
  resolve_explicit_run candidates run_id now = Some (Ok target, later) ->
  exists c, filter (fun candidate => dc_path_run_id candidate = Some run_id) candidates = [c] /\
    match target with
    | Resolved_Live client => live_target c now later client
    | Resolved_Archive archive => archive_target c run_id now later archive /\ ownerless c now later
    end.
Proof.
  unfold resolve_explicit_run. destruct (filter _ candidates) as [|c [|]] eqn:Ef; [by intros [? _]%sys_ret_some| |by intros [? _]%sys_ret_some].
  intros H. exists c. split; [done|].
  destruct (dc_source c) eqn:Es, (dc_classification c) eqn:Ec; try (by apply sys_ret_some in H as [? _]).
  - by apply resolve_active_ok in H as (client & -> & H).
  - run_sys H. pose proof (revalidate_stale_advances _ _ _ _ Hm) as Ha. apply revalidate_stale_ok in Hm.
    apply open_candidate_archive_ok in H as (archive & -> & H). split; [by eapply archive_target_weaken|].
    unfold ownerless. rewrite Es. eapply authorization_weaken; [|exact Hm]. destruct H as [_ (d & call & _ & Hc & _)]. lia.
  - apply open_candidate_archive_ok in H as (archive & -> & H). split; [done|]. unfold ownerless. rewrite Es, Ec. by left.
  - apply open_candidate_archive_ok in H as (archive & -> & H). split; [done|]. unfold ownerless. rewrite Es, Ec. by right.
Qed.

Lemma revalidate_all_ok candidates : forall now later,
  revalidate_all candidates now = Some (Ok tt, later) ->
  (now <= later)%nat /\ Forall (fun c => exists from, (now <= from)%nat /\ authorization c CleanupDefiniteStale from later) candidates.
Proof.
  induction candidates as [|c candidates IH]; intros now later; cbn [revalidate_all].
  - intros [_ ->]%sys_ret_some. split; [done|constructor].
  - intros H. run_sys H. pose proof (revalidate_stale_advances _ _ _ _ Hm) as Ha. apply revalidate_stale_ok in Hm. apply IH in H as [Hle Hf].
    split; [lia|]. constructor.
    + exists now. split; [done|]. by eapply authorization_weaken.
    + eapply Forall_impl; [exact Hf|]. intros d (from & Hfrom & H). exists from. split; [lia|done].
Qed.

(** What the opened archives are: in their order, those that opened. *)
Lemma open_all_ok archives : forall opened first_archive_error now opened' first_archive_error' later,
  open_all archives opened first_archive_error now = Some ((opened', first_archive_error'), later) ->
  (now <= later)%nat /\
  exists targets, opened' = opened ++ omap snd targets /\ map fst targets = archives /\
    Forall (fun '(c, target) =>
      match target with
      | Some archive => exists run_id from, dc_run_id c = Some run_id /\ (now <= from)%nat /\ archive_target c run_id from later archive
      | None => True
      end) targets.
Proof.
  induction archives as [|c archives IH]; intros opened fe now opened' fe' later; cbn [open_all].
  - intros [[= -> ->] ->]%sys_ret_some. split; [done|]. exists []. split_and!; [by rewrite app_nil_r|done|constructor].
  - destruct (dc_run_id c) as [run_id|] eqn:Er.
    + intros H. run_sys H. pose proof (open_candidate_archive_target_advances _ _ _ _ _ Hm) as Ha. destruct x as [archive|error].
      * apply open_candidate_archive_target_ok in Hm as [_ Hm]. apply IH in H as (Hle & targets & -> & Hmap & Hf). split; [lia|].
        exists ((c, Some archive) :: targets). split_and!; [by rewrite <- app_assoc|cbn; by rewrite Hmap|]. constructor.
        -- exists run_id, now. split_and!; [done|done|]. destruct Hm as [Hp (d & call & Hd & Hc & Ho)]. split; [done|]. exists d, call. split_and!; [done|lia|lia|done].
        -- eapply Forall_impl; [exact Hf|]. intros [d [a|]]; [|done]. intros (r & from & ? & ? & ?). exists r, from. split_and!; [done|lia|done].
      * apply IH in H as (Hle & targets & -> & Hmap & Hf). split; [lia|]. exists ((c, None) :: targets). split_and!; [done|cbn; by rewrite Hmap|].
        constructor; [done|]. eapply Forall_impl; [exact Hf|]. intros [d [a|]]; [|done]. intros (r & from & ? & ? & ?). exists r, from. split_and!; [done|lia|done].
    + intros H. apply IH in H as (Hle & targets & -> & Hmap & Hf). split; [done|]. exists ((c, None) :: targets).
      split_and!; [done|cbn; by rewrite Hmap|]. by constructor.
Qed.

(** The only candidate that opened. *)
Lemma omap_singleton {A B} (f : A -> option B) l y : omap f l = [y] -> exists before x after,
  l = before ++ x :: after /\ f x = Some y /\ Forall (fun x => f x = None) (before ++ after).
Proof.
  induction l as [|x l IH]; [done|]. cbn [omap list_omap]. destruct (f x) as [z|] eqn:E.
  - intros [= -> Hl]. exists [], x, l. split_and!; [done|done|]. cbn. clear -Hl. induction l as [|x l IH]; [constructor|].
    cbn [omap list_omap] in Hl. destruct (f x) eqn:E; [done|]. constructor; [done|by apply IH].
  - intros H. apply IH in H as (b & x' & a & -> & Hx & Hf). exists (x :: b), x', a. split_and!; [done|done|]. by constructor.
Qed.

Lemma resolve_implicit_run_ok candidates now target later :
  resolve_implicit_run candidates now = Some (Ok target, later) ->
  match target with
  | Resolved_Live client =>
      exists c, List.filter is_potentially_live candidates = [c] /\ live_target c now later client
  | Resolved_Archive archive =>
      List.filter is_potentially_live candidates = [] /\
      exists c run_id from, c ∈ candidates /\ dc_run_id c = Some run_id /\ (now <= from)%nat /\
        archive_target c run_id from later archive /\
        match dc_source c with
        | Source_Archive => dc_classification c = Candidate_Completed \/ dc_classification c = Candidate_Incomplete
        | Source_Instance => exists from, (now <= from)%nat /\ authorization c CleanupDefiniteStale from later
        end
  end.
Proof.
  unfold resolve_implicit_run. case_bool_decide as Ep; cbn [negb].
  - intros H. run_sys H. destruct x0 as [opened first_archive_error]. apply revalidate_all_ok in Hm as [Hle Hstale].
    apply open_all_ok in Hm0 as (Hle' & targets & -> & Hmap & Hf). apply sys_ret_some in H as [H ->]. cbn [app] in H.
    destruct (omap snd targets) as [|archive [|]] eqn:Eo; [destruct first_archive_error; [done|]; by destruct (existsb _ _)| |done].
    injection H as ->. split; [done|]. apply omap_singleton in Eo as (before & [c target] & after & -> & Et & _). cbn in Et. subst target.
    apply Forall_app in Hf as [_ Hf]. apply Forall_cons in Hf as [(run_id & from & Hr & Hfrom & Ht) _].
    exists c, run_id, from. assert (Hin : c ∈ List.filter is_candidate_archive candidates).
    { rewrite <- Hmap. apply list_elem_of_fmap. exists (c, Some archive). split; [done|]. apply elem_of_app. right. left. }
    apply list_elem_of_In, filter_In in Hin as [Hin Hca]. split_and!; [by apply list_elem_of_In|done|lia|done|].
    unfold is_candidate_archive in Hca. destruct (dc_source c) eqn:Es, (dc_classification c) eqn:Ec; try done; [|by left|by right].
    rewrite Forall_forall in Hstale. destruct (Hstale c) as (from' & Hfrom' & Hauth).
    { apply list_elem_of_In, filter_In. split; [done|]. unfold is_stale_instance, is_instance. by rewrite Es, Ec. }
    exists from'. split; [done|]. by eapply authorization_weaken.
  - destruct (List.filter is_potentially_live candidates) as [|c [|]]; [done| |by intros [? _]%sys_ret_some].
    rewrite filter_cons. case_decide; [|by intros [? _]%sys_ret_some]. rewrite filter_nil. intros Hres.
    apply resolve_active_ok in Hres as (client & -> & Ht). by exists c.
Qed.

(** C32: a resolution never mistakes a run: for a run id it returns the target of
    the only candidate of that id, a server only if its candidate was active, its
    locator has not changed and its owner and server answered again, and an archive
    only if no instance claims it, or if the owner of its instance was seen gone
    again; without a run id it returns a server only if it is the only candidate
    that may be alive, and an archive only if none may be. *)
Theorem resolution_sound candidates requested now target later :
  resolve_discovered_production candidates requested now = Some (Ok target, later) ->
  exists c, c ∈ candidates /\
    match requested with
    | Some run_id => filter (fun candidate => dc_path_run_id candidate = Some run_id) candidates = [c]
    | None => List.filter is_potentially_live candidates = if is_live target then [c] else []
    end /\
    match target with
    | Resolved_Live client => live_target c now later client
    | Resolved_Archive archive =>
        exists run_id from, match requested with Some requested => run_id = requested | None => dc_run_id c = Some run_id end /\
          (now <= from)%nat /\ archive_target c run_id from later archive /\
          exists from, (now <= from)%nat /\ ownerless c from later
    end.
Proof.
  unfold resolve_discovered_production. destruct requested as [run_id|].
  - intros (c & Hc & Ht)%resolve_explicit_run_ok. exists c. split_and!; [|done|].
    { assert (Hin : c ∈ filter (fun candidate => dc_path_run_id candidate = Some run_id) candidates) by (rewrite Hc; left).
      by apply list_elem_of_filter in Hin as [_ ?]. }
    destruct target; [done|]. destruct Ht as [Ht Ho]. exists run_id, now. split_and!; [done|done|done|]. by exists now.
  - intros H. apply resolve_implicit_run_ok in H. destruct target as [client|archive].
    + destruct H as (c & Hc & Ht). exists c. split_and!; [|done|done].
      assert (Hin : c ∈ List.filter is_potentially_live candidates) by (rewrite Hc; left).
      by apply list_elem_of_In, filter_In in Hin as [?%list_elem_of_In _].
    + destruct H as (Hp & c & run_id & from & Hin & Hr & Hfrom & Ht & Ho). exists c. split_and!; [done|done|].
      exists run_id, from. split_and!; [done|done|done|]. unfold ownerless. destruct (dc_source c); [done|]. by exists now.
Qed.

End Specification.
