(* ===== verification/Cleanup.v ===== *)
(** * The cleanup policy

    Models the policy of
    [rust/src/application/diagnostic_cli/cleanup_policy.rs]: the inventory of the
    runs of a production, what protects a run, and which runs a policy selects
    for deletion.  [None] is a panic: a failed [expect] or, in a debug build, an
    overflow of the [u128] totals.  Paths are UTF-8. *)

From S2P Require Import Prelude Files Wire Timestamp Order.

(** ** Codes *)

Inductive CleanupPolicyErrorCode :=
| Policy_InvalidProductionRoot | Policy_DiscoveryFailed | Policy_HttpFailed | Policy_TargetNotFound | Policy_ClockFailed
| Policy_TaskFailed.

Definition CleanupPolicyErrorCode_as_str (c : CleanupPolicyErrorCode) : string :=
  match c with
  | Policy_InvalidProductionRoot => "diagnostic_cleanup.invalid_production_root"
  | Policy_DiscoveryFailed => "diagnostic_cleanup.discovery_failed"
  | Policy_HttpFailed => "diagnostic_cleanup.http_failed"
  | Policy_TargetNotFound => "diagnostic_cleanup.target_not_found"
  | Policy_ClockFailed => "diagnostic_cleanup.clock_failed"
  | Policy_TaskFailed => "diagnostic_cleanup.task_failed"
  end.

Record CleanupPolicyError := mkPolicyError { pe_code : CleanupPolicyErrorCode; pe_detail : string }.

Definition CleanupPolicyError_display (e : CleanupPolicyError) : string :=
  CleanupPolicyErrorCode_as_str (pe_code e) +:+ ": " +:+ pe_detail e.

Inductive CleanupSelectionReason :=
| Selected_ExactRun | Selected_EndedBeforeCutoff | Selected_OutsideKeepCount | Selected_TotalBytesOverBudget.

Definition CleanupSelectionReason_as_str (r : CleanupSelectionReason) : string :=
  match r with
  | Selected_ExactRun => "exact_run"
  | Selected_EndedBeforeCutoff => "ended_before_cutoff"
  | Selected_OutsideKeepCount => "outside_keep_count"
  | Selected_TotalBytesOverBudget => "total_bytes_over_budget"
  end.

Inductive CleanupProtectionReason :=
| Protected_Active | Protected_Leased | Protected_AmbiguousOwner | Protected_InvalidArchive | Protected_IncompatibleArchive
| Protected_MissingArchive | Protected_MetadataInvalid | Protected_UnsafeArchiveEntry.

Definition CleanupProtectionReason_as_str (r : CleanupProtectionReason) : string :=
  match r with
  | Protected_Active => "active"
  | Protected_Leased => "leased"
  | Protected_AmbiguousOwner => "ambiguous_owner"
  | Protected_InvalidArchive => "invalid_archive"
  | Protected_IncompatibleArchive => "incompatible_archive"
  | Protected_MissingArchive => "missing_archive"
  | Protected_MetadataInvalid => "metadata_invalid"
  | Protected_UnsafeArchiveEntry => "unsafe_archive_entry"
  end.

Inductive CleanupSkipReason :=
| Skipped_IncompleteArchive | Skipped_NewerThanCutoff | Skipped_WithinKeepCount | Skipped_WithinTotalByteBudget.

Definition CleanupSkipReason_as_str (r : CleanupSkipReason) : string :=
  match r with
  | Skipped_IncompleteArchive => "incomplete_archive"
  | Skipped_NewerThanCutoff => "newer_than_cutoff"
  | Skipped_WithinKeepCount => "within_keep_count"
  | Skipped_WithinTotalByteBudget => "within_total_byte_budget"
  end.

Inductive CleanupOperationFailure := ProtectedBytesUnknown | ProtectedBytesExceedBudget.

Definition CleanupOperationFailure_as_str (f : CleanupOperationFailure) : string :=
  match f with
  | ProtectedBytesUnknown => "protected_bytes_unknown"
  | ProtectedBytesExceedBudget => "protected_bytes_exceed_budget"
  end.

Inductive CleanupArchiveState := Archive_Completed | Archive_Incomplete | Archive_Unknown.

#[export] Instance CleanupArchiveState_eq_dec : EqDecision CleanupArchiveState.
Proof. solve_decision. Defined.

Definition CleanupArchiveState_as_str (s : CleanupArchiveState) : string :=
  match s with Archive_Completed => "completed" | Archive_Incomplete => "incomplete" | Archive_Unknown => "unknown" end.

(** ** The inventory *)

Record UtcTimestamp := mkTimestamp { ts_instant : UtcInstant; ts_encoded : string }.

Definition UtcTimestamp_parse (encoded : string) : option UtcTimestamp :=
  instant ← parse_utc_timestamp encoded; Some (mkTimestamp instant encoded).

Record CleanupInventoryRun := mkRun {
  cr_run_id : option CanonicalUuid;
  cr_path : PathBuf;
  cr_state : CleanupArchiveState;
  cr_bytes : option Z;
  cr_started_at : option UtcTimestamp;
  cr_ended_at : option UtcTimestamp;
  cr_clean_shutdown : option bool;
  cr_protection_reason : option CleanupProtectionReason;
  cr_detail : option string;
  cr_selected : bool;
  cr_selection_reason : option CleanupSelectionReason;
  cr_skipped_reason : option CleanupSkipReason;
}.

(** [run.selected = true; run.selection_reason = Some(reason)] *)
Definition select_run (reason : CleanupSelectionReason) (r : CleanupInventoryRun) : CleanupInventoryRun :=
  mkRun (cr_run_id r) (cr_path r) (cr_state r) (cr_bytes r) (cr_started_at r) (cr_ended_at r) (cr_clean_shutdown r)
    (cr_protection_reason r) (cr_detail r) true (Some reason) (cr_skipped_reason r).

(** [run.skipped_reason = Some(reason)] *)
Definition skip_run (reason : CleanupSkipReason) (r : CleanupInventoryRun) : CleanupInventoryRun :=
  mkRun (cr_run_id r) (cr_path r) (cr_state r) (cr_bytes r) (cr_started_at r) (cr_ended_at r) (cr_clean_shutdown r)
    (cr_protection_reason r) (cr_detail r) (cr_selected r) (cr_selection_reason r) (Some reason).

Definition with_protection (r : CleanupInventoryRun) (reason : CleanupProtectionReason) : CleanupInventoryRun :=
  mkRun (cr_run_id r) (cr_path r) (cr_state r) (cr_bytes r) (cr_started_at r) (cr_ended_at r) (cr_clean_shutdown r)
    (Some reason) (cr_detail r) (cr_selected r) (cr_selection_reason r) (cr_skipped_reason r).

Definition parse_inventory_timestamp (value : string) : result UtcTimestamp CleanupPolicyError :=
  match UtcTimestamp_parse value with
  | Some t => Ok t
  | None => Err (mkPolicyError Policy_ClockFailed ("timestamp is not canonical UTC RFC3339: " +:+ value))
  end.

Definition run_completed (run_id : CanonicalUuid) (path : PathBuf) (bytes : Z) (started_at ended_at : string)
    : result CleanupInventoryRun CleanupPolicyError :=
  let? started_at := parse_inventory_timestamp started_at in
  let? ended_at := parse_inventory_timestamp ended_at in
  Ok (mkRun (Some run_id) path Archive_Completed (Some bytes) (Some started_at) (Some ended_at) (Some true) None None
        false None None).

Definition run_incomplete (run_id : CanonicalUuid) (path : PathBuf) (bytes : Z) (started_at : string)
    : result CleanupInventoryRun CleanupPolicyError :=
  let? started_at := parse_inventory_timestamp started_at in
  Ok (mkRun (Some run_id) path Archive_Incomplete (Some bytes) (Some started_at) None (Some false) None None
        false None None).

(** [CleanupInventoryRun::protected], with the detail that its callers set. *)
Definition run_protected (run_id : option CanonicalUuid) (path : PathBuf) (bytes : option Z) (reason : CleanupProtectionReason)
    (detail : option string) : CleanupInventoryRun :=
  mkRun run_id path Archive_Unknown bytes None None None (Some reason) detail false None None.

Definition is_protected (r : CleanupInventoryRun) : bool :=
  match cr_protection_reason r with Some _ => true | None => false end.

Definition is_completed (r : CleanupInventoryRun) : bool := bool_decide (cr_state r = Archive_Completed).
Definition is_incomplete (r : CleanupInventoryRun) : bool := bool_decide (cr_state r = Archive_Incomplete).

Definition is_eligible_completed (r : CleanupInventoryRun) : bool := negb (is_protected r) && is_completed r.

(** ** The order of cleanup *)

Definition compare_optional_timestamp : option UtcTimestamp -> option UtcTimestamp -> comparison :=
  some_first (fun left right => instant_cmp (ts_instant left) (ts_instant right)).

Section Policy.
Variable uuid_hyphenated : Z -> string.

Definition compare_optional_run_id : option CanonicalUuid -> option CanonicalUuid -> comparison :=
  some_first (fun left right => str_cmp (CanonicalUuid_to_string uuid_hyphenated left) (CanonicalUuid_to_string uuid_hyphenated right)).

Definition cleanup_order (left right : CleanupInventoryRun) : comparison :=
  then_with (compare_optional_timestamp (cr_ended_at left) (cr_ended_at right))
    (then_with (compare_optional_timestamp (cr_started_at left) (cr_started_at right))
      (then_with (compare_optional_run_id (cr_run_id left) (cr_run_id right))
        (path_cmp (cr_path left) (cr_path right)))).

(** ** Selection *)

(** A [Duration] is a number of nanoseconds. *)
Inductive CleanupPolicySpec :=
| Spec_Run (run_id : CanonicalUuid)
| Spec_OlderThan (age : Z)
| Spec_KeepRuns (keep : Z)
| Spec_MaxTotalBytes (budget : Z).

Definition policy_kind (p : CleanupPolicySpec) : string :=
  match p with
  | Spec_Run _ => "run"
  | Spec_OlderThan _ => "older_than"
  | Spec_KeepRuns _ => "keep_runs"
  | Spec_MaxTotalBytes _ => "max_total_bytes"
  end.

Definition policy_value (p : CleanupPolicySpec) : string :=
  match p with
  | Spec_Run run_id => CanonicalUuid_to_string uuid_hyphenated run_id
  | Spec_OlderThan duration => u64_to_string (as_secs duration)
  | Spec_KeepRuns count | Spec_MaxTotalBytes count => u64_to_string count
  end.

Record CleanupPreview := mkPreview {
  pv_production : PathBuf;
  pv_policy : CleanupPolicySpec;
  pv_satisfied : bool;
  pv_operation_failure : option CleanupOperationFailure;
  pv_total_bytes : option Z;
  pv_selected_bytes : Z;
  pv_remaining_bytes : option Z;
  pv_runs : list CleanupInventoryRun;
}.

(** [try_fold]: the inner [None] is a run whose bytes are not known. *)
Fixpoint sum_bytes (total : Z) (runs : list CleanupInventoryRun) : option (option Z) :=
  match runs with
  | [] => Some (Some total)
  | run :: runs =>
      match cr_bytes run with
      | None => Some None
      | Some bytes => total ← checked_add U128 total bytes; sum_bytes total runs
      end
  end.

Definition sum_all_bytes (runs : list CleanupInventoryRun) : option (option Z) := sum_bytes 0 runs.

Definition mark_incomplete_batch_runs (runs : list CleanupInventoryRun) : list CleanupInventoryRun :=
  map (fun run => if negb (is_protected run) && is_incomplete run then skip_run Skipped_IncompleteArchive run else run) runs.

Definition exact_run (run : CleanupInventoryRun) : CleanupInventoryRun :=
  if is_protected run then run else select_run Selected_ExactRun run.

Definition older_than (cutoff : UtcInstant) (run : CleanupInventoryRun) : CleanupInventoryRun :=
  if is_protected run then run
  else if is_incomplete run then skip_run Skipped_IncompleteArchive run
  else if match cr_ended_at run with
          | Some ended_at => bool_decide (instant_cmp (ts_instant ended_at) cutoff = Lt)
          | None => false
          end then select_run Selected_EndedBeforeCutoff run
  else skip_run Skipped_NewerThanCutoff run.

(** The indexes of the completed runs. *)
Definition completed_indexes (runs : list CleanupInventoryRun) : list nat :=
  omap (fun '(index, run) => if is_completed run then Some index else None) (imap pair runs).

Definition keep_run (select_count position : nat) (run : CleanupInventoryRun) : CleanupInventoryRun :=
  if is_protected run then run
  else if (position <? select_count)%nat then select_run Selected_OutsideKeepCount run
  else skip_run Skipped_WithinKeepCount run.

(** The loop over the completed runs, from a position; [None] is an index out of
    range. *)
Fixpoint keep_loop (select_count position : nat) (completed : list nat) (runs : list CleanupInventoryRun)
    : option (list CleanupInventoryRun) :=
  match completed with
  | [] => Some runs
  | index :: completed =>
      run ← runs !! index;
      keep_loop select_count (S position) completed (<[index := keep_run select_count position run]> runs)
  end.

Definition keep_runs (keep : Z) (runs : list CleanupInventoryRun) : option (list CleanupInventoryRun) :=
  let runs := mark_incomplete_batch_runs runs in
  let completed := completed_indexes runs in
  let keep := Z.min keep (int_max Usize) in
  let select_count := saturating_sub Usize (list_len completed) keep in
  keep_loop (Z.to_nat select_count) 0 completed runs.

(** The loop over the eligible runs. *)
Fixpoint budget_loop (budget remaining : Z) (runs : list CleanupInventoryRun) : option (list CleanupInventoryRun) :=
  match runs with
  | [] => Some []
  | run :: runs =>
      if is_eligible_completed run then
        if remaining <=? budget then
          rest ← budget_loop budget remaining runs; Some (skip_run Skipped_WithinTotalByteBudget run :: rest)
        else
          bytes ← cr_bytes run;
          remaining ← checked_sub U128 remaining bytes;
          rest ← budget_loop budget remaining runs;
          Some (select_run Selected_TotalBytesOverBudget run :: rest)
      else rest ← budget_loop budget remaining runs; Some (run :: rest)
  end.

Definition max_total_bytes (budget : Z) (runs : list CleanupInventoryRun) : option (list CleanupInventoryRun) :=
  let runs := mark_incomplete_batch_runs runs in
  total ← sum_all_bytes runs;
  match total with
  | Some total => budget_loop budget total runs
  | None => Some runs
  end.

(** [sum] over the selected runs. *)
Fixpoint selected_sum (total : Z) (runs : list CleanupInventoryRun) : option Z :=
  match runs with
  | [] => Some total
  | run :: runs =>
      if cr_selected run then bytes ← cr_bytes run; total ← checked_add U128 total bytes; selected_sum total runs
      else selected_sum total runs
  end.

(** The runs as the policy marks them. *)
Definition apply_policy (policy : CleanupPolicySpec) (now : UtcInstant) (runs : list CleanupInventoryRun)
    : option (result (list CleanupInventoryRun) CleanupPolicyError) :=
  match policy with
  | Spec_Run run_id =>
      match filter (fun run => cr_run_id run = Some run_id) runs with
      | [] =>
          Some (Err (mkPolicyError Policy_TargetNotFound
            ("Run " +:+ CanonicalUuid_to_string uuid_hyphenated run_id +:+ " is not present in the cleanup inventory")))
      | runs => Some (Ok (map exact_run runs))
      end
  | Spec_OlderThan age => Some (Ok (map (older_than (subtract now age)) runs))
  | Spec_KeepRuns keep => Ok <$> keep_runs keep runs
  | Spec_MaxTotalBytes budget => Ok <$> max_total_bytes budget runs
  end.

Definition operation_failure (policy : CleanupPolicySpec) (remaining_bytes : option Z) : option CleanupOperationFailure :=
  match policy with
  | Spec_MaxTotalBytes budget =>
      match remaining_bytes with
      | None => Some ProtectedBytesUnknown
      | Some remaining => if budget <? remaining then Some ProtectedBytesExceedBudget else None
      end
  | _ => None
  end.

Definition select_preview (production : PathBuf) (policy : CleanupPolicySpec) (now : UtcInstant)
    (runs : list CleanupInventoryRun) : option (result CleanupPreview CleanupPolicyError) :=
  marked ← apply_policy policy now (sort_by cleanup_order runs);
  match marked with
  | Err e => Some (Err e)
  | Ok runs =>
      total_bytes ← sum_all_bytes runs;
      selected_bytes ← selected_sum 0 runs;
      remaining_bytes ←
        match total_bytes with
        | Some total => remaining ← checked_sub U128 total selected_bytes; Some (Some remaining)
        | None => Some None
        end;
      let failure := operation_failure policy remaining_bytes in
      Some (Ok (mkPreview production policy (bool_decide (failure = None)) failure total_bytes selected_bytes remaining_bytes runs))
  end.

End Policy.
