(* ===== verification/CleanupCriteria.v ===== *)
(** * What a cleanup policy is meant to do

    The criteria of the cleanup policies, apart from the code of Cleanup.v: the
    order in which runs are cleaned up, the runs that can be reclaimed, the runs
    that each policy selects or skips and why, and the preview it makes. *)

From Stdlib Require Import Sorted.
From S2P Require Import Prelude Files Wire Timestamp Order Cleanup.

(** ** The order of cleanup *)

Definition instant_lt (a b : UtcInstant) : Prop :=
  seconds a < seconds b \/ (seconds a = seconds b /\ nanoseconds a < nanoseconds b).

Definition text_lt (s t : string) : Prop := str_cmp s t = Lt.

(** The lesser of two values, where one that is not known comes last. *)
Inductive sooner {A} (lt : A -> A -> Prop) : option A -> option A -> Prop :=
| sooner_known x y : lt x y -> sooner lt (Some x) (Some y)
| sooner_unknown x : sooner lt (Some x) None.

Definition end_of (r : CleanupInventoryRun) : option UtcInstant := ts_instant <$> cr_ended_at r.
Definition start_of (r : CleanupInventoryRun) : option UtcInstant := ts_instant <$> cr_started_at r.

(** ** The runs *)

(** The runs whose bytes a batch policy may free. *)
Definition reclaimable (r : CleanupInventoryRun) : Prop := cr_protection_reason r = None /\ cr_state r = Archive_Completed.

#[export] Instance reclaimable_dec r : Decision (reclaimable r).
Proof. unfold reclaimable. destruct (cr_protection_reason r); [right; naive_solver|]. destruct (cr_state r); [left|right|right]; naive_solver. Defined.

Definition reclaimable_bytes (r : CleanupInventoryRun) : Z := if decide (reclaimable r) then default 0 (cr_bytes r) else 0.

(** The bytes of all runs, unless those of one are not known. *)
Definition known_bytes (runs : list CleanupInventoryRun) : option Z :=
  if forallb (fun r => match cr_bytes r with Some _ => true | None => false end) runs
  then Some (sum_with (fun r => default 0 (cr_bytes r)) runs) else None.

Definition selected_bytes (r : CleanupInventoryRun) : Z := if cr_selected r then default 0 (cr_bytes r) else 0.

(** What a policy leaves of a run: everything but the marks. *)
Definition same_run (r r' : CleanupInventoryRun) : Prop :=
  cr_run_id r' = cr_run_id r /\ cr_path r' = cr_path r /\ cr_state r' = cr_state r /\ cr_bytes r' = cr_bytes r /\
  cr_started_at r' = cr_started_at r /\ cr_ended_at r' = cr_ended_at r /\ cr_clean_shutdown r' = cr_clean_shutdown r /\
  cr_protection_reason r' = cr_protection_reason r /\ cr_detail r' = cr_detail r.

(** ** The policies *)

(** The runs that a policy is about. *)
Definition policy_scope (policy : CleanupPolicySpec) (runs : list CleanupInventoryRun) : list CleanupInventoryRun :=
  match policy with Spec_Run run_id => filter (fun run => cr_run_id run = Some run_id) runs | _ => runs end.

(** The budget cannot be compared with bytes that are not known. *)
Definition bytes_unknown (policy : CleanupPolicySpec) (runs : list CleanupInventoryRun) : Prop :=
  match policy with Spec_MaxTotalBytes _ => known_bytes runs = None | _ => False end.

(** Whether the run [r], at the position [i] of the runs in the order of cleanup,
    is selected at the instant [now]: it was asked for by its id; it ended more
    than the whole seconds of the age ago; enough completed runs come after it; or
    the bytes of the runs that can be reclaimed before it are not enough. *)
Definition selects (policy : CleanupPolicySpec) (now : UtcInstant) (sorted : list CleanupInventoryRun) (i : nat)
    (r : CleanupInventoryRun) : Prop :=
  match policy with
  | Spec_Run run_id => cr_run_id r = Some run_id /\ cr_protection_reason r = None
  | Spec_OlderThan age =>
      reclaimable r /\ exists ended, end_of r = Some ended /\
        instant_lt (mkInstant (seconds ended + age / 1000000000) (nanoseconds ended)) now
  | Spec_KeepRuns keep =>
      reclaimable r /\ keep <= list_len (filter (fun r => cr_state r = Archive_Completed) (drop (S i) sorted))
  | Spec_MaxTotalBytes budget =>
      reclaimable r /\ exists total, known_bytes sorted = Some total /\
        budget < total - sum_with reclaimable_bytes (take i sorted)
  end.

Definition selection_reason (policy : CleanupPolicySpec) : CleanupSelectionReason :=
  match policy with
  | Spec_Run _ => Selected_ExactRun
  | Spec_OlderThan _ => Selected_EndedBeforeCutoff
  | Spec_KeepRuns _ => Selected_OutsideKeepCount
  | Spec_MaxTotalBytes _ => Selected_TotalBytesOverBudget
  end.

(** Why a batch policy does not select a completed run. *)
Definition skip_reason (policy : CleanupPolicySpec) : option CleanupSkipReason :=
  match policy with
  | Spec_Run _ => None
  | Spec_OlderThan _ => Some Skipped_NewerThanCutoff
  | Spec_KeepRuns _ => Some Skipped_WithinKeepCount
  | Spec_MaxTotalBytes _ => Some Skipped_WithinTotalByteBudget
  end.

(** A batch policy skips a run that is not protected because it is incomplete, or
    because it does not select it, unless the bytes of some run are not known. *)
Definition skips (policy : CleanupPolicySpec) (now : UtcInstant) (sorted : list CleanupInventoryRun) (i : nat)
    (r : CleanupInventoryRun) (reason : CleanupSkipReason) : Prop :=
  match policy with
  | Spec_Run _ => False
  | _ =>
      cr_protection_reason r = None /\
      ((cr_state r = Archive_Incomplete /\ reason = Skipped_IncompleteArchive) \/
       (cr_state r = Archive_Completed /\ ~ selects policy now sorted i r /\ ~ bytes_unknown policy sorted /\
        skip_reason policy = Some reason))
  end.

(** How the policy marks the run. *)
Record marked (policy : CleanupPolicySpec) (now : UtcInstant) (sorted : list CleanupInventoryRun) (i : nat)
    (r r' : CleanupInventoryRun) : Prop := {
  marked_same : same_run r r';
  marked_selected : cr_selected r' = true <-> selects policy now sorted i r;
  marked_reason : cr_selection_reason r' = if cr_selected r' then Some (selection_reason policy) else None;
  marked_skipped : forall reason, cr_skipped_reason r' = Some reason <-> skips policy now sorted i r reason;
}.

(** The preview of the runs that a policy is about, in the order of cleanup. *)
Record preview_ok (production : PathBuf) (policy : CleanupPolicySpec) (now : UtcInstant) (sorted : list CleanupInventoryRun)
    (preview : CleanupPreview) : Prop := {
  preview_production : pv_production preview = production;
  preview_policy : pv_policy preview = policy;
  preview_length : length (pv_runs preview) = length sorted;
  preview_runs : forall i r r', sorted !! i = Some r -> pv_runs preview !! i = Some r' -> marked policy now sorted i r r';
  preview_total : pv_total_bytes preview = known_bytes sorted;
  preview_selected : pv_selected_bytes preview = sum_with selected_bytes (pv_runs preview);
  preview_remaining : forall remaining, pv_remaining_bytes preview = Some remaining <->
    exists total, known_bytes sorted = Some total /\ remaining = total - pv_selected_bytes preview;
  preview_unknown : pv_operation_failure preview = Some ProtectedBytesUnknown <-> bytes_unknown policy sorted;
  preview_exceeds : pv_operation_failure preview = Some ProtectedBytesExceedBudget <->
    exists budget remaining, policy = Spec_MaxTotalBytes budget /\ pv_remaining_bytes preview = Some remaining /\ budget < remaining;
  preview_satisfied : pv_satisfied preview = true <-> pv_operation_failure preview = None;
}.

(** ** The order of the code is the order of cleanup *)

Lemma instant_cmp_lt a b : instant_cmp a b = Lt <-> instant_lt a b.
Proof.
  unfold instant_cmp, instant_lt, then_with. destruct (Z.compare_spec (seconds a) (seconds b)) as [E|E|E]; rewrite ?Z.compare_lt_iff; split; intros H; try done; try lia.
Qed.

Lemma instant_cmp_eq a b : instant_cmp a b = Eq <-> a = b.
Proof.
  unfold instant_cmp, then_with. destruct a as [s n], b as [s' n']. cbn [seconds nanoseconds].
  destruct (Z.compare_spec s s') as [->|E|E]; rewrite ?Z.compare_eq_iff; split; try done; [by intros ->|intros [= ->]; done|..];
    intros [= ? ?]; lia.
Qed.

Lemma list_cmp_eq {A} (cmp : A -> A -> comparison) l : forall k,
  (forall x y, cmp x y = Eq <-> x = y) -> list_cmp cmp l k = Eq <-> l = k.
Proof.
  induction l as [|x l IH]; intros [|y k] Hc; try done. cbn [list_cmp]. unfold then_with. pose proof (Hc x y) as Hxy.
  specialize (IH k Hc). destruct (cmp x y); naive_solver.
Qed.

Lemma str_cmp_eq s t : str_cmp s t = Eq <-> s = t.
Proof.
  unfold str_cmp. rewrite list_cmp_eq by (intros; apply Z.compare_eq_iff). split; [|by intros ->]. intros E.
  apply bytes_inj. revert E. generalize (bytes s) (bytes t). intros l. induction l as [|c l IH]; intros [|d k]; try done.
  cbn [map]. intros [= Hc Hl]. by rewrite (byte_val_inj c d Hc), (IH k Hl).
Qed.

Section SomeFirst.
Context {A B : Type} (f : A -> B) (cmp : B -> B -> comparison) (lt : B -> B -> Prop).
Hypothesis cmp_lt : forall x y, cmp x y = Lt <-> lt x y.
Hypothesis cmp_eq : forall x y, cmp x y = Eq <-> x = y.

Lemma some_first_lt x y : some_first (fun x y => cmp (f x) (f y)) x y = Lt <-> sooner lt (f <$> x) (f <$> y).
Proof.
  destruct x as [x|], y as [y|]; cbn [some_first fmap option_fmap option_map].
  - rewrite cmp_lt. split; [by constructor|]. intros H. by inversion H.
  - split; [constructor|done].
  - split; [done|intros H; inversion H].
  - split; [done|intros H; inversion H].
Qed.

Lemma some_first_eq x y : some_first (fun x y => cmp (f x) (f y)) x y = Eq <-> f <$> x = f <$> y.
Proof. destruct x as [x|], y as [y|]; cbn [some_first fmap option_fmap option_map]; rewrite ?cmp_eq; split; congruence. Qed.

End SomeFirst.

Lemma then_with_lt c d : then_with c d = Lt <-> c = Lt \/ (c = Eq /\ d = Lt).
Proof. destruct c; cbn; naive_solver. Qed.

Section Order.
Variable uuid_hyphenated : Z -> string.

Definition id_text (r : CleanupInventoryRun) : option string := CanonicalUuid_to_string uuid_hyphenated <$> cr_run_id r.

(** Oldest first: by the end, then the start, then the text of the id, then the
    path. *)
Definition cleaned_before (x y : CleanupInventoryRun) : Prop :=
  sooner instant_lt (end_of x) (end_of y) \/
  (end_of x = end_of y /\
   (sooner instant_lt (start_of x) (start_of y) \/
    (start_of x = start_of y /\
     (sooner text_lt (id_text x) (id_text y) \/ (id_text x = id_text y /\ path_cmp (cr_path x) (cr_path y) = Lt))))).

Definition in_cleanup_order (runs : list CleanupInventoryRun) : Prop := StronglySorted (fun x y => ~ cleaned_before y x) runs.

Lemma cleanup_order_before x y : cleanup_order uuid_hyphenated x y = Lt <-> cleaned_before x y.
Proof.
  unfold cleanup_order, cleaned_before, compare_optional_timestamp, compare_optional_run_id, end_of, start_of, id_text.
  rewrite !then_with_lt, !(some_first_lt _ _ _ instant_cmp_lt), !(some_first_eq _ _ instant_cmp_eq).
  rewrite (some_first_lt _ str_cmp text_lt) by done. by rewrite (some_first_eq _ _ str_cmp_eq).
Qed.

#[export] Instance instant_total_cmp : TotalCmp instant_cmp.
Proof. exact (then_total_cmp (fun a b => seconds a ?= seconds b) (fun a b => nanoseconds a ?= nanoseconds b)). Qed.

#[export] Instance timestamp_total_cmp : TotalCmp compare_optional_timestamp.
Proof. unfold compare_optional_timestamp. apply some_first_total_cmp, (key_total_cmp ts_instant instant_cmp). Qed.

#[export] Instance run_id_total_cmp : TotalCmp (compare_optional_run_id uuid_hyphenated).
Proof. unfold compare_optional_run_id. apply some_first_total_cmp, (key_total_cmp (CanonicalUuid_to_string uuid_hyphenated) str_cmp). Qed.

#[export] Instance cleanup_order_total_cmp : TotalCmp (cleanup_order uuid_hyphenated).
Proof.
  unfold cleanup_order.
  exact (then_total_cmp (fun x y => compare_optional_timestamp (cr_ended_at x) (cr_ended_at y)) _).
Qed.

Lemma cleanup_order_not_after x y : cleanup_order uuid_hyphenated x y <> Gt <-> ~ cleaned_before y x.
Proof. rewrite <- cleanup_order_before, (cmp_opp (cmp := cleanup_order uuid_hyphenated) x y). by destruct (cleanup_order _ x y). Qed.

Lemma sort_by_cleanup_order runs : in_cleanup_order (sort_by (cleanup_order uuid_hyphenated) runs).
Proof.
  unfold in_cleanup_order. pose proof (sort_by_sorted (cleanup_order uuid_hyphenated) runs) as Hs.
  induction Hs as [|x l _ IH Hf]; constructor; [done|]. eapply Forall_impl; [exact Hf|]. intros y. apply cleanup_order_not_after.
Qed.

Lemma in_cleanup_order_scope policy runs : in_cleanup_order runs -> in_cleanup_order (policy_scope policy runs).
Proof.
  destruct policy as [run_id| | |]; try done. cbn [policy_scope]. unfold in_cleanup_order. induction 1 as [|x l _ IH Hf]; [constructor|].
  rewrite filter_cons. destruct (decide _); [|done]. constructor; [done|]. apply Forall_forall. intros y [_ Hy]%list_elem_of_filter.
  rewrite Forall_forall in Hf. by apply Hf.
Qed.

(** The order does not see the marks. *)
Lemma in_cleanup_order_same runs runs' : Forall2 same_run runs runs' -> in_cleanup_order runs -> in_cleanup_order runs'.
Proof.
  intros HF. unfold in_cleanup_order. induction HF as [|r r' l l' Hr HF IH]; [done|]. intros Hs. inversion_clear Hs as [|? ? Hl Hf].
  constructor; [by apply IH|]. clear IH Hl. apply Forall_lookup. intros i y' Hy'. destruct (Forall2_lookup_r _ _ _ _ _ HF Hy') as (y & Hy & Hsame).
  rewrite Forall_lookup in Hf. specialize (Hf i y Hy). destruct Hr as (E1 & E2 & _ & _ & E5 & E6 & _), Hsame as (F1 & F2 & _ & _ & F5 & F6 & _).
  unfold cleaned_before, end_of, start_of, id_text. by rewrite E1, E2, E5, E6, F1, F2, F5, F6.
Qed.

End Order.

(** ** The code's predicates *)

Lemma is_protected_none r : is_protected r = false <-> cr_protection_reason r = None.
Proof. unfold is_protected. by destruct (cr_protection_reason r). Qed.

Lemma is_eligible_reclaimable r : is_eligible_completed r = true <-> reclaimable r.
Proof.
  unfold is_eligible_completed, is_completed, reclaimable. rewrite andb_true_iff, negb_true_iff, bool_decide_eq_true, is_protected_none. done.
Qed.
