(* ===== verification/CleanupSpec.v ===== *)
(** * What a cleanup policy selects

    The policies of Cleanup.v against the criteria of CleanupCriteria.v: the loops
    are replaced by the mark that each run gets on its own, and the marks are those
    of the criteria.  A budget is met by the shortest prefix, the totals of a
    preview are the exact sums, and no preview panics. *)

From Stdlib Require Import Sorted.
From S2P Require Import Prelude Files Wire Timestamp Order Cleanup CleanupCriteria.

(** ** Runs of an inventory *)

(** What the inspection of a run guarantees: a run without protection is a
    completed or an incomplete archive of known size, nothing was marked yet. *)
Record run_ok (r : CleanupInventoryRun) : Prop := {
  run_bytes_range : forall bytes, cr_bytes r = Some bytes -> 0 <= bytes <= int_max U64;
  run_known : is_protected r = false -> cr_bytes r <> None /\ cr_state r <> Archive_Unknown;
  run_fresh : cr_selected r = false /\ cr_selection_reason r = None /\ cr_skipped_reason r = None;
}.

Lemma parse_inventory_timestamp_ok value t :
  parse_inventory_timestamp value = Ok t <-> UtcTimestamp_parse value = Some t.
Proof. unfold parse_inventory_timestamp. destruct (UtcTimestamp_parse value); naive_solver. Qed.

Lemma run_completed_ok run_id path bytes started_at ended_at r :
  0 <= bytes <= int_max U64 -> run_completed run_id path bytes started_at ended_at = Ok r -> run_ok r.
Proof.
  intros Hb. unfold run_completed. destruct (parse_inventory_timestamp started_at); cbn [result_bind]; [|done].
  destruct (parse_inventory_timestamp ended_at); cbn [result_bind]; [|done]. intros [= <-]. split; [|done|done]. by intros ? [= <-].
Qed.

Lemma run_incomplete_ok run_id path bytes started_at r :
  0 <= bytes <= int_max U64 -> run_incomplete run_id path bytes started_at = Ok r -> run_ok r.
Proof.
  intros Hb. unfold run_incomplete. destruct (parse_inventory_timestamp started_at); cbn [result_bind]; [|done].
  intros [= <-]. split; [|done|done]. by intros ? [= <-].
Qed.

Lemma run_protected_ok run_id path bytes reason detail :
  (forall b, bytes = Some b -> 0 <= b <= int_max U64) -> run_ok (run_protected run_id path bytes reason detail).
Proof. intros Hb. by split. Qed.

Lemma with_protection_ok r reason : run_ok r -> run_ok (with_protection r reason).
Proof. intros [H1 H2 H3]. by split. Qed.

(** ** The marks of the code, run by run *)

(** How many completed runs come after a run of the sorted inventory. *)
Definition completed_count (runs : list CleanupInventoryRun) : Z := list_len (filter (fun r => is_completed r = true) runs).

Definition completed_after (runs : list CleanupInventoryRun) (i : nat) : Z := completed_count (drop (S i) runs).

(** The bytes of the eligible runs that come before it. *)
Definition eligible_bytes (r : CleanupInventoryRun) : Z := if is_eligible_completed r then default 0 (cr_bytes r) else 0.

Definition eligible_before (runs : list CleanupInventoryRun) (i : nat) : Z := sum_with eligible_bytes (take i runs).

Definition incomplete_mark (r : CleanupInventoryRun) : CleanupInventoryRun :=
  if negb (is_protected r) && is_incomplete r then skip_run Skipped_IncompleteArchive r else r.

Definition keep_mark (keep : Z) (runs : list CleanupInventoryRun) (i : nat) (r : CleanupInventoryRun) : CleanupInventoryRun :=
  if is_eligible_completed r then
    if keep <=? completed_after runs i then select_run Selected_OutsideKeepCount r else skip_run Skipped_WithinKeepCount r
  else incomplete_mark r.

Definition budget_mark (budget total : Z) (runs : list CleanupInventoryRun) (i : nat) (r : CleanupInventoryRun) : CleanupInventoryRun :=
  if is_eligible_completed r then
    if total - eligible_before runs i <=? budget then skip_run Skipped_WithinTotalByteBudget r
    else select_run Selected_TotalBytesOverBudget r
  else incomplete_mark r.

Lemma incomplete_mark_eligible r : is_eligible_completed (incomplete_mark r) = is_eligible_completed r.
Proof. unfold incomplete_mark. by destruct (_ && _). Qed.

Lemma completed_not_marked r : is_completed r = true -> incomplete_mark r = r.
Proof.
  unfold is_completed, incomplete_mark, is_incomplete. intros E%bool_decide_eq_true. rewrite E, bool_decide_false by done.
  by rewrite andb_false_r.
Qed.

(** ** Keeping the newest *)

Fixpoint keep_walk (select_count position : nat) (runs : list CleanupInventoryRun) : list CleanupInventoryRun :=
  match runs with
  | [] => []
  | r :: runs =>
      if is_completed r then keep_run select_count position r :: keep_walk select_count (S position) runs
      else r :: keep_walk select_count position runs
  end.

Lemma completed_indexes_cons k r runs :
  omap (fun '(index, run) => if is_completed run then Some index else None) (imap (fun i => pair (k + i)%nat) (r :: runs)) =
  (if is_completed r then [k] else []) ++
  omap (fun '(index, run) => if is_completed run then Some index else None) (imap (fun i => pair (S k + i)%nat) runs).
Proof.
  rewrite imap_cons. cbn [omap list_omap]. rewrite Nat.add_0_r.
  assert (E : imap ((fun i => pair (k + i)%nat) ∘ S) runs = imap (fun i => pair (S k + i)%nat) runs).
  { apply imap_ext. intros i x _. cbn. by rewrite Nat.add_succ_r. }
  rewrite E. by destruct (is_completed r).
Qed.

Lemma keep_loop_walk select_count runs : forall before position,
  keep_loop select_count position
    (omap (fun '(index, run) => if is_completed run then Some index else None) (imap (fun i => pair (length before + i)%nat) runs))
    (before ++ runs) =
  Some (before ++ keep_walk select_count position runs).
Proof.
  induction runs as [|r runs IH]; intros before position; [done|].
  rewrite completed_indexes_cons. cbn [keep_walk]. destruct (is_completed r); cbn [app keep_loop].
  - rewrite list_lookup_middle by done. cbn [mbind option_bind].
    rewrite insert_app_r_alt, Nat.sub_diag by lia. cbn [insert list_insert].
    specialize (IH (before ++ [keep_run select_count position r]) (S position)). rewrite length_app in IH. cbn [length] in IH.
    rewrite Nat.add_comm in IH. cbn [plus] in IH. rewrite <- !app_assoc in IH. exact IH.
  - specialize (IH (before ++ [r]) position). rewrite length_app in IH. cbn [length] in IH. rewrite Nat.add_comm in IH.
    cbn [plus] in IH. rewrite <- !app_assoc in IH. exact IH.
Qed.

Lemma completed_count_cons r runs :
  completed_count (r :: runs) = (if is_completed r then 1 else 0) + completed_count runs.
Proof.
  unfold completed_count. rewrite filter_cons. destruct (is_completed r).
  - rewrite decide_True by done. by rewrite list_len_cons.
  - by rewrite decide_False by done.
Qed.

Lemma keep_run_mark keep select_count position r rest :
  (Z.of_nat position < Z.of_nat select_count <-> keep <= completed_count rest) -> is_completed r = true ->
  keep_run select_count position r = keep_mark keep (r :: rest) 0 r.
Proof.
  intros Hk Hc. unfold keep_run, keep_mark, is_eligible_completed, completed_after, incomplete_mark. rewrite Hc.
  destruct (is_protected r); cbn [negb andb drop]; [done|]. rewrite drop_0.
  destruct (Nat.ltb_spec position select_count), (Z.leb_spec keep (completed_count rest)); try done; lia.
Qed.

Lemma keep_walk_mark keep n runs : forall position,
  0 <= keep -> Z.of_nat position + completed_count runs = n ->
  (forall r, r ∈ runs -> is_protected r = false -> is_incomplete r = false -> is_completed r = true) ->
  keep_walk (Z.to_nat (Z.max 0 (n - keep))) position (map incomplete_mark runs) = imap (keep_mark keep runs) runs.
Proof.
  induction runs as [|r runs IH]; intros position Hk Hn Hst; [done|]. rewrite imap_cons. cbn [map keep_walk].
  rewrite completed_count_cons in Hn. pose proof (list_len_nonneg (filter (fun r => is_completed r = true) runs)) as Hlen.
  fold (completed_count runs) in Hlen.
  assert (Htail : imap (keep_mark keep (r :: runs) ∘ S) runs = imap (keep_mark keep runs) runs) by (by apply imap_ext).
  rewrite Htail. assert (Hi : is_completed (incomplete_mark r) = is_completed r) by (unfold incomplete_mark; by destruct (_ && _)).
  rewrite Hi. destruct (is_completed r) eqn:Ec.
  - rewrite (completed_not_marked r Ec), IH; [|done|lia|intros x Hx; apply Hst; by right]. f_equal. apply keep_run_mark; [lia|done].
  - rewrite IH; [|done|lia|intros x Hx; apply Hst; by right]. f_equal. unfold keep_mark, is_eligible_completed. by rewrite Ec, andb_false_r.
Qed.

(** ** The byte budget *)

Lemma budget_loop_mark budget runs : forall remaining,
  Forall (fun r => is_protected r = false -> exists b, cr_bytes r = Some b /\ 0 <= b) runs ->
  sum_with eligible_bytes runs <= remaining <= int_max U128 ->
  budget_loop budget remaining (map incomplete_mark runs) = Some (imap (budget_mark budget remaining runs) runs) /\
  (remaining <= budget -> imap (budget_mark budget remaining runs) runs =
    map (fun r => if is_eligible_completed r then skip_run Skipped_WithinTotalByteBudget r else incomplete_mark r) runs).
Proof.
  induction runs as [|r runs IH]; intros remaining Hb Hsum; [done|].
  apply Forall_cons in Hb as [Hr Hb]. rewrite sum_with_cons in Hsum. rewrite imap_cons.
  pose proof (incomplete_mark_eligible r) as Hel. pose proof (completed_not_marked r) as Hsame'.
  assert (Hsame : is_eligible_completed r = true -> incomplete_mark r = r) by (unfold is_eligible_completed; intros [_ Hc]%andb_prop; by apply Hsame').
  assert (Hnonneg : 0 <= sum_with eligible_bytes runs).
  { clear -Hb. induction Hb as [|x l Hx _ IH]; [done|]. rewrite sum_with_cons. unfold eligible_bytes at 1. destruct (is_eligible_completed x) eqn:E; [|lia].
    unfold is_eligible_completed in E. destruct (is_protected x); [done|]. destruct (Hx eq_refl) as (b & -> & ?). cbn. lia. }
  assert (Htail : forall rem', rem' = remaining - eligible_bytes r ->
    imap (budget_mark budget remaining (r :: runs) ∘ S) runs = imap (budget_mark budget rem' runs) runs).
  { intros rem' ->. apply imap_ext. intros i x _. unfold budget_mark, eligible_before. cbn [compose take]. rewrite sum_with_cons.
    by replace (remaining - (eligible_bytes r + sum_with eligible_bytes (take i runs)))
      with (remaining - eligible_bytes r - sum_with eligible_bytes (take i runs)) by lia. }
  assert (Hskip : forall rem1 rem2, rem1 <= budget -> rem2 <= budget -> sum_with eligible_bytes runs <= rem1 <= int_max U128 ->
    sum_with eligible_bytes runs <= rem2 <= int_max U128 ->
    imap (budget_mark budget rem1 runs) runs = imap (budget_mark budget rem2 runs) runs).
  { intros rem1 rem2 H1 H2 S1 S2. rewrite (proj2 (IH rem1 Hb S1) H1), (proj2 (IH rem2 Hb S2) H2). done. }
  assert (Hhead : budget_mark budget remaining (r :: runs) 0 r =
    if is_eligible_completed r then if remaining <=? budget then skip_run Skipped_WithinTotalByteBudget r else select_run Selected_TotalBytesOverBudget r
    else incomplete_mark r).
  { unfold budget_mark, eligible_before. cbn [take]. change (sum_with eligible_bytes []) with 0. by rewrite Z.sub_0_r. }
  cbn [map budget_loop]. rewrite Hel, Hhead, (Htail _ eq_refl). destruct (is_eligible_completed r) eqn:Ee.
  - rewrite (Hsame eq_refl). assert (Hrb : exists b, cr_bytes r = Some b /\ 0 <= b).
    { apply Hr. unfold is_eligible_completed in Ee. by destruct (is_protected r). }
    destruct Hrb as (b & Eb & Hb0). assert (Heb : eligible_bytes r = b) by (unfold eligible_bytes; by rewrite Ee, Eb).
    rewrite Heb, ?Eb in *. destruct (Z.leb_spec remaining budget) as [Hle|Hgt].
    + destruct (IH remaining Hb) as [-> _]; [lia|]. cbn [mbind option_bind]. rewrite (Hskip remaining (remaining - b)) by lia.
      split; [done|]. intros _. rewrite (proj2 (IH (remaining - b) Hb ltac:(lia))) by lia. done.
    + cbn [mbind option_bind]. unfold checked_sub. rewrite checked_in_range by (unfold int_min; lia). cbn [mbind option_bind].
      destruct (IH (remaining - b) Hb) as [-> _]; [lia|]. cbn [mbind option_bind]. split; [done|]. lia.
  - assert (Heb : eligible_bytes r = 0) by (unfold eligible_bytes; by rewrite Ee).
    rewrite Heb, Z.sub_0_r in *. destruct (IH remaining Hb) as [-> Hall]; [lia|]. cbn [mbind option_bind]. split; [done|].
    intros Hle. by rewrite (Hall Hle).
Qed.

(** ** Totals *)

Lemma sum_bytes_known runs : forall total,
  Forall (fun r => forall b, cr_bytes r = Some b -> 0 <= b <= int_max U64) runs ->
  0 <= total -> total + list_len runs * int_max U64 <= int_max U128 ->
  sum_bytes total runs = Some (if forallb (fun r => match cr_bytes r with Some _ => true | None => false end) runs
    then Some (total + sum_with (fun r => default 0 (cr_bytes r)) runs) else None).
Proof.
  induction runs as [|r runs IH]; intros total Hr Ht Hmax; cbn [sum_bytes forallb].
  - by rewrite Z.add_0_r.
  - apply Forall_cons in Hr as [Hb Hr]. rewrite list_len_cons in Hmax. rewrite sum_with_cons. pose proof (list_len_nonneg runs).
    destruct (cr_bytes r) as [b|]; [|done]. specialize (Hb b eq_refl). assert (Hm : 0 <= list_len runs * int_max U64) by (unfold int_max; lia).
    unfold checked_add. rewrite checked_in_range by (unfold int_min; lia). cbn [mbind option_bind default andb].
    rewrite IH by (done || lia). by rewrite Z.add_assoc.
Qed.

Lemma selected_sum_known runs : forall total,
  Forall (fun r => (forall b, cr_bytes r = Some b -> 0 <= b <= int_max U64) /\ (cr_selected r = true -> cr_bytes r <> None)) runs ->
  0 <= total -> total + list_len runs * int_max U64 <= int_max U128 ->
  selected_sum total runs = Some (total + sum_with selected_bytes runs).
Proof.
  induction runs as [|r runs IH]; intros total Hr Ht Hmax; cbn [selected_sum].
  - by rewrite Z.add_0_r.
  - apply Forall_cons in Hr as [[Hb Hs] Hr]. rewrite list_len_cons in Hmax. rewrite sum_with_cons. pose proof (list_len_nonneg runs).
    assert (Hm : 0 <= list_len runs * int_max U64) by (unfold int_max; lia). unfold selected_bytes at 1. destruct (cr_selected r).
    + destruct (cr_bytes r) as [b|]; [|by specialize (Hs eq_refl)]. specialize (Hb b eq_refl). cbn [mbind option_bind default].
      unfold checked_add. rewrite checked_in_range by (unfold int_min; lia). cbn [mbind option_bind]. rewrite IH by (done || lia). by rewrite Z.add_assoc.
    + rewrite IH by (done || unfold int_max in *; lia). done.
Qed.

(** ** Every policy by its criterion *)

Lemma completed_count_marked runs : completed_count (map incomplete_mark runs) = completed_count runs.
Proof.
  induction runs as [|r runs IH]; [done|]. cbn [map]. rewrite !completed_count_cons, IH. f_equal.
  unfold incomplete_mark, is_completed. by destruct (_ && _).
Qed.

Lemma completed_indexes_len runs k :
  list_len (omap (fun '(index, run) => if is_completed run then Some index else None) (imap (fun i => pair (k + i)%nat) runs)) =
  completed_count runs.
Proof.
  revert k. induction runs as [|r runs IH]; intros k; [done|]. rewrite completed_indexes_cons, list_len_app, IH, completed_count_cons.
  by destruct (is_completed r).
Qed.

Lemma completed_count_range runs : 0 <= completed_count runs <= list_len runs.
Proof.
  induction runs as [|r runs IH]; [done|]. rewrite completed_count_cons, list_len_cons. destruct (is_completed r); lia.
Qed.

Lemma known_bytes_marked (f : CleanupInventoryRun -> CleanupInventoryRun) runs :
  (forall r, cr_bytes (f r) = cr_bytes r) -> known_bytes (map f runs) = known_bytes runs.
Proof.
  intros Hf. unfold known_bytes. rewrite sum_with_map.
  assert (E : forallb (fun r => match cr_bytes r with Some _ => true | None => false end) (map f runs) =
    forallb (fun r => match cr_bytes r with Some _ => true | None => false end) runs).
  { induction runs as [|r runs IH]; [done|]. cbn. by rewrite Hf, IH. }
  rewrite E. destruct (forallb _ runs); [|done]. f_equal. clear E. induction runs as [|r runs IH]; [done|].
  rewrite !sum_with_cons, IH. by rewrite Hf.
Qed.

Lemma incomplete_mark_bytes r : cr_bytes (incomplete_mark r) = cr_bytes r.
Proof. unfold incomplete_mark. by destruct (_ && _). Qed.

Lemma sum_all_bytes_known runs :
  Forall (fun r => forall b, cr_bytes r = Some b -> 0 <= b <= int_max U64) runs -> list_len runs <= int_max U64 ->
  sum_all_bytes runs = Some (known_bytes runs).
Proof.
  intros Hr Hl. unfold sum_all_bytes, known_bytes. rewrite sum_bytes_known; [done|done|lia|].
  pose proof (list_len_nonneg runs). unfold int_max in *. nia.
Qed.

Lemma eligible_total runs total :
  Forall (fun r => is_protected r = false -> exists b, cr_bytes r = Some b /\ 0 <= b) runs ->
  Forall (fun r => forall b, cr_bytes r = Some b -> 0 <= b <= int_max U64) runs ->
  known_bytes runs = Some total -> list_len runs <= int_max U64 -> sum_with eligible_bytes runs <= total <= int_max U128.
Proof.
  unfold known_bytes. intros Hk Hr. destruct (forallb _ runs); [|done]. intros [= <-] Hl.
  assert (Hb : sum_with eligible_bytes runs <= sum_with (fun r => default 0 (cr_bytes r)) runs <= list_len runs * int_max U64).
  { clear Hl. induction runs as [|r runs IH]; [done|]. apply Forall_cons in Hk as [Hk1 Hk]. apply Forall_cons in Hr as [Hr1 Hr].
    specialize (IH Hk Hr). rewrite !sum_with_cons, list_len_cons. unfold eligible_bytes at 1.
    assert (H0 : 0 <= default 0 (cr_bytes r) <= int_max U64).
    { destruct (cr_bytes r) as [b|] eqn:E; cbn; [by apply Hr1|unfold int_max; lia]. }
    destruct (is_eligible_completed r); lia. }
  pose proof (list_len_nonneg runs). unfold int_max in *. nia.
Qed.

(** ** The marks of the code are those of the criteria *)

Lemma eligible_bytes_reclaimable r : eligible_bytes r = reclaimable_bytes r.
Proof.
  unfold eligible_bytes, reclaimable_bytes. pose proof (is_eligible_reclaimable r) as H.
  destruct (decide (reclaimable r)) as [Hr|Hr]; [by rewrite (proj2 H Hr)|]. destruct (is_eligible_completed r); [|done]. by destruct Hr; apply H.
Qed.

Lemma eligible_before_reclaimable runs i : eligible_before runs i = sum_with reclaimable_bytes (take i runs).
Proof.
  unfold eligible_before. induction (take i runs) as [|r l IH]; [done|]. by rewrite !sum_with_cons, IH, eligible_bytes_reclaimable.
Qed.

Lemma completed_after_filter runs i :
  completed_after runs i = list_len (filter (fun r => cr_state r = Archive_Completed) (drop (S i) runs)).
Proof.
  unfold completed_after, completed_count, list_len. do 2 f_equal. apply list_filter_iff. intros r. unfold is_completed. apply bool_decide_eq_true.
Qed.

Section Marked.
Context (policy : CleanupPolicySpec) (now : UtcInstant) (sorted : list CleanupInventoryRun) (i : nat) (r : CleanupInventoryRun).
Hypothesis run_is_ok : run_ok r.

Lemma skips_unique reason reason' :
  skips policy now sorted i r reason -> skips policy now sorted i r reason' -> reason = reason'.
Proof.
  unfold skips. destruct policy; [done|..]; intros (_ & [(E & ->)|(E & _ & _ & H)]) (_ & [(E' & ->)|(E' & _ & _ & H')]); congruence.
Qed.

Lemma selects_not_skipped reason : selects policy now sorted i r -> ~ skips policy now sorted i r reason.
Proof.
  intros Hs. destruct policy; [by intros ?|..]; intros (_ & [(E & _)|(_ & Hn & _)]); try done;
    destruct Hs as [[_ Hc] _]; congruence.
Qed.

Lemma marked_select : selects policy now sorted i r -> marked policy now sorted i r (select_run (selection_reason policy) r).
Proof.
  intros Hs. destruct run_is_ok as [_ _ (_ & _ & Hk)]. split; [by split_and!|done|done|].
  intros reason. cbn [select_run cr_skipped_reason]. rewrite Hk. split; [done|]. intros Hx. by destruct (selects_not_skipped reason Hs).
Qed.

Lemma marked_skip reason :
  ~ selects policy now sorted i r -> skips policy now sorted i r reason -> marked policy now sorted i r (skip_run reason r).
Proof.
  intros Hn Hs. destruct run_is_ok as [_ _ (Hsel & Hr & _)]. split; [by split_and!|..]; cbn [skip_run cr_selected cr_selection_reason cr_skipped_reason].
  - rewrite Hsel. split; [done|by intros ?].
  - by rewrite Hsel, Hr.
  - intros reason'. split; [by intros [= <-]|]. intros Hs'. f_equal. by apply skips_unique.
Qed.

Lemma marked_untouched :
  ~ selects policy now sorted i r -> (forall reason, ~ skips policy now sorted i r reason) -> marked policy now sorted i r r.
Proof.
  intros Hn Hs. destruct run_is_ok as [_ _ (Hsel & Hr & Hk)]. split; [by split_and!|..].
  - rewrite Hsel. split; [done|by intros ?].
  - by rewrite Hsel, Hr.
  - intros reason. rewrite Hk. split; [done|]. intros Hx. by destruct (Hs reason).
Qed.

(** A batch policy leaves a run that is protected. *)
Lemma marked_protected : cr_protection_reason r <> None -> marked policy now sorted i r r.
Proof.
  intros Hp. apply marked_untouched; [|intros reason]; destruct policy; unfold selects, skips, reclaimable; naive_solver.
Qed.

Lemma marked_incomplete :
  match policy with Spec_Run _ => False | _ => True end -> ~ reclaimable r \/ bytes_unknown policy sorted ->
  marked policy now sorted i r (incomplete_mark r).
Proof.
  intros Hb Hr. assert (Hn : ~ selects policy now sorted i r).
  { destruct Hr as [Hr|Hu]; [destruct policy; unfold selects; naive_solver|]. destruct policy; try done. cbn in *.
    intros (_ & total & E & _). congruence. }
  unfold incomplete_mark, is_incomplete. destruct (is_protected r) eqn:Ep; cbn [negb andb].
  { apply marked_protected. intros Hx. apply is_protected_none in Hx. congruence. }
  destruct (run_known r run_is_ok Ep) as [_ Hst]. apply is_protected_none in Ep. case_bool_decide as Hi.
  - apply marked_skip; [done|]. unfold skips. destruct policy; [done|..]; (split; [done|by left]).
  - apply marked_untouched; [done|]. intros reason Hs. assert (Hc : cr_state r = Archive_Completed) by (by destruct (cr_state r)).
    destruct Hr as [Hr|Hu]; [by apply Hr|]. destruct policy; try done. destruct Hs as (_ & [(E & _)|(_ & _ & Hnu & _)]); [congruence|done].
Qed.

(** A completed run is selected or skipped by the criterion of the policy. *)
Lemma marked_completed (selected : bool) :
  reclaimable r -> ~ bytes_unknown policy sorted -> (selected = true <-> selects policy now sorted i r) ->
  match policy with Spec_Run _ => False | _ => True end ->
  marked policy now sorted i r
    (if selected then select_run (selection_reason policy) r else
     match skip_reason policy with Some reason => skip_run reason r | None => r end).
Proof.
  intros [Hp Hc] Hu Hs Hb. destruct selected; [by apply marked_select, Hs|]. assert (Hn : ~ selects policy now sorted i r) by (intros ?%Hs; done).
  destruct (skip_reason policy) as [reason|] eqn:E; [|by destruct policy]. apply marked_skip; [done|].
  unfold skips. destruct policy; [done|..]; (split; [done|by right]).
Qed.

End Marked.

(** An instant is before the cutoff when its age is more than that of the policy. *)
Lemma before_cutoff ended age now :
  instant_cmp ended (subtract now age) = Lt <-> instant_lt (mkInstant (seconds ended + age / 1000000000) (nanoseconds ended)) now.
Proof.
  rewrite instant_cmp_lt. unfold instant_lt, subtract, as_secs, NANOS. cbn [seconds nanoseconds]. lia.
Qed.

Lemma older_than_marked age now sorted i r :
  run_ok r -> marked (Spec_OlderThan age) now sorted i r (older_than (subtract now age) r).
Proof.
  intros Hok. unfold older_than. destruct (is_protected r) eqn:Ep.
  { apply marked_protected; [done|]. intros Hx. apply is_protected_none in Hx. congruence. }
  destruct (run_known r Hok Ep) as [_ Hst]. pose proof (marked_incomplete (Spec_OlderThan age) now sorted i r Hok I) as Hinc.
  unfold incomplete_mark in Hinc. rewrite Ep in Hinc. cbn [negb andb] in Hinc. unfold is_incomplete in *. apply is_protected_none in Ep.
  case_bool_decide as Hi; [apply Hinc; left; intros [_ Hc]; congruence|]. clear Hinc.
  assert (Hr : reclaimable r) by (split; [done|by destruct (cr_state r)]).
  apply (marked_completed (Spec_OlderThan age) now sorted i r Hok _ Hr); [by intros ?| |done].
  unfold selects, end_of. destruct (cr_ended_at r) as [e|]; cbn [fmap option_fmap option_map].
  - rewrite bool_decide_eq_true, before_cutoff. naive_solver.
  - naive_solver.
Qed.

Lemma keep_marked keep now sorted i r : run_ok r -> marked (Spec_KeepRuns keep) now sorted i r (keep_mark keep sorted i r).
Proof.
  intros Hok. unfold keep_mark. pose proof (is_eligible_reclaimable r) as He. destruct (is_eligible_completed r).
  - apply (marked_completed (Spec_KeepRuns keep) now sorted i r Hok _ (proj1 He eq_refl)); [by intros ?| |done].
    unfold selects. rewrite Z.leb_le, completed_after_filter. naive_solver.
  - apply marked_incomplete; [done|done|]. left. intros ?%He. done.
Qed.

Lemma budget_marked budget total now sorted i r :
  run_ok r -> known_bytes sorted = Some total -> marked (Spec_MaxTotalBytes budget) now sorted i r (budget_mark budget total sorted i r).
Proof.
  intros Hok Ht. unfold budget_mark. pose proof (is_eligible_reclaimable r) as He. destruct (is_eligible_completed r).
  - pose proof (marked_completed (Spec_MaxTotalBytes budget) now sorted i r Hok (budget <? total - eligible_before sorted i) (proj1 He eq_refl)) as Hm.
    rewrite Z.ltb_antisym in Hm. destruct (_ <=? budget) eqn:El; cbn [negb] in Hm; apply Hm; try done; cbn; try congruence.
    + apply Z.leb_le in El. rewrite eligible_before_reclaimable in El. split; [done|]. intros (_ & total' & E & Hlt).
      rewrite Ht in E. injection E as <-. lia.
    + apply Z.leb_gt in El. rewrite eligible_before_reclaimable in El. split; [|done]. intros _. split; [by apply He|]. by exists total.
  - apply marked_incomplete; [done|done|]. left. intros ?%He. done.
Qed.

Lemma known_bytes_same runs marked : Forall2 same_run runs marked -> known_bytes marked = known_bytes runs.
Proof.
  intros H. unfold known_bytes.
  assert (E : forallb (fun r => match cr_bytes r with Some _ => true | None => false end) marked =
      forallb (fun r => match cr_bytes r with Some _ => true | None => false end) runs /\
    sum_with (fun r => default 0 (cr_bytes r)) marked = sum_with (fun r => default 0 (cr_bytes r)) runs).
  { induction H as [|r r' l k (_ & _ & _ & Hb & _) _ [IH1 IH2]]; [done|]. cbn [forallb]. rewrite !sum_with_cons, Hb, IH1, IH2. done. }
  destruct E as [-> ->]. done.
Qed.

Section Policies.
Variable uuid_hyphenated : Z -> string.

(** The inventory as the policy marks it, run by run. *)
Definition policy_marks (policy : CleanupPolicySpec) (now : UtcInstant) (runs : list CleanupInventoryRun) : list CleanupInventoryRun :=
  match policy with
  | Spec_Run run_id => map exact_run (filter (fun run => cr_run_id run = Some run_id) runs)
  | Spec_OlderThan age => map (older_than (subtract now age)) runs
  | Spec_KeepRuns keep => imap (keep_mark keep runs) runs
  | Spec_MaxTotalBytes budget =>
      match known_bytes runs with
      | Some total => imap (budget_mark budget total runs) runs
      | None => map incomplete_mark runs
      end
  end.

Definition policy_ok (policy : CleanupPolicySpec) : Prop :=
  match policy with
  | Spec_KeepRuns keep => 0 <= keep <= int_max U64
  | Spec_MaxTotalBytes budget => 0 <= budget <= int_max U64
  | _ => True
  end.

Lemma keep_runs_marks keep runs :
  0 <= keep <= int_max U64 -> list_len runs <= int_max U64 -> Forall run_ok runs ->
  keep_runs keep runs = Some (imap (keep_mark keep runs) runs).
Proof.
  intros Hk Hl Hok. unfold keep_runs. change (mark_incomplete_batch_runs runs) with (map incomplete_mark runs).
  pose proof (completed_indexes_len (map incomplete_mark runs) 0) as Hlen. pose proof (completed_count_range runs) as Hc.
  pose proof (keep_loop_walk (Z.to_nat (saturating_sub Usize (completed_count (map incomplete_mark runs)) (Z.min keep (int_max Usize))))
    (map incomplete_mark runs) [] 0) as Hw. cbn [length app] in Hw.
  unfold completed_indexes. change (imap pair) with (imap (fun i => @pair nat CleanupInventoryRun (0 + i)%nat)).
  rewrite Hlen, Hw. f_equal. rewrite completed_count_marked. change (int_max Usize) with (int_max U64). rewrite Z.min_l by lia.
  replace (saturating_sub Usize (completed_count runs) keep) with (Z.max 0 (completed_count runs - keep)).
  2: { unfold saturating_sub, int_min. change (int_max Usize) with (int_max U64). lia. }
  apply keep_walk_mark; [lia|lia|]. intros r Hr Hp Hi. rewrite Forall_forall in Hok. destruct (run_known r (Hok r Hr) Hp) as [_ Hs].
  unfold is_completed, is_incomplete in *. destruct (cr_state r); done.
Qed.

Lemma run_ok_bytes runs :
  Forall run_ok runs ->
  Forall (fun r => forall b, cr_bytes r = Some b -> 0 <= b <= int_max U64) runs /\
  Forall (fun r => is_protected r = false -> exists b, cr_bytes r = Some b /\ 0 <= b) runs.
Proof.
  intros Hok. split; (eapply Forall_impl; [exact Hok|]); intros r Hr; [apply Hr|].
  intros Hp. destruct (run_known r Hr Hp) as [Hb _]. destruct (cr_bytes r) as [b|] eqn:E; [|done]. exists b. split; [done|]. by apply Hr.
Qed.

Lemma max_total_bytes_marks budget now runs :
  list_len runs <= int_max U64 -> Forall run_ok runs ->
  max_total_bytes budget runs = Some (policy_marks (Spec_MaxTotalBytes budget) now runs).
Proof.
  intros Hl Hok. destruct (run_ok_bytes runs Hok) as [Hb Hk]. unfold max_total_bytes. change (mark_incomplete_batch_runs runs) with (map incomplete_mark runs).
  rewrite sum_all_bytes_known.
  - rewrite known_bytes_marked by apply incomplete_mark_bytes. cbn [mbind option_bind policy_marks].
    destruct (known_bytes runs) as [total|] eqn:Et; [|done]. apply budget_loop_mark; [done|]. by apply eligible_total.
  - apply Forall_map. eapply Forall_impl; [exact Hb|]. intros r Hr. cbn. by rewrite incomplete_mark_bytes.
  - unfold list_len in *. by rewrite length_map.
Qed.

(** How a run is explained in a preview. *)
Definition explained (r : CleanupInventoryRun) : Prop :=
  if is_protected r then cr_selected r = false /\ cr_selection_reason r = None /\ cr_skipped_reason r = None
  else if cr_selected r then cr_selection_reason r <> None /\ cr_skipped_reason r = None
  else cr_selection_reason r = None /\ cr_skipped_reason r <> None.

(** A mark of a run. *)
Definition marks (r r' : CleanupInventoryRun) : Prop := same_run r r' /\ explained r'.

Lemma mark_select r reason : run_ok r -> is_protected r = false -> marks r (select_run reason r).
Proof.
  intros [_ _ (H1 & H2 & H3)] Hp. split; [by split_and!|]. unfold explained. change (is_protected (select_run reason r)) with (is_protected r).
  by rewrite Hp.
Qed.

Lemma mark_skip r reason : run_ok r -> is_protected r = false -> marks r (skip_run reason r).
Proof.
  intros [_ _ (H1 & H2 & H3)] Hp. split; [by split_and!|]. unfold explained. change (is_protected (skip_run reason r)) with (is_protected r).
  change (cr_selected (skip_run reason r)) with (cr_selected r). by rewrite Hp, H1.
Qed.

Lemma mark_none r : run_ok r -> is_protected r = true -> marks r r.
Proof. intros [_ _ (H1 & H2 & H3)] Hp. split; [by split_and!|]. unfold explained. by rewrite Hp. Qed.

Lemma incomplete_mark_marks r : run_ok r -> is_eligible_completed r = false -> marks r (incomplete_mark r).
Proof.
  intros Hok He. unfold incomplete_mark, is_eligible_completed in *. destruct (is_protected r) eqn:Hp; cbn [negb andb] in *; [by apply mark_none|].
  destruct (run_known r Hok Hp) as [_ Hs]. unfold is_completed, is_incomplete in *.
  destruct (cr_state r) eqn:Es; cbn in *; [done| |done]. by apply mark_skip.
Qed.

Lemma unprotected_eligible r : is_eligible_completed r = true -> is_protected r = false.
Proof. unfold is_eligible_completed. by destruct (is_protected r). Qed.

#[export] Instance bytes_unknown_dec policy runs : Decision (bytes_unknown policy runs).
Proof. destruct policy; cbn; apply _. Defined.

Lemma Forall2_imap_same {A} (R : A -> A -> Prop) (f : nat -> A -> A) l :
  (forall i x, l !! i = Some x -> R x (f i x)) -> Forall2 R l (imap f l).
Proof.
  revert f. induction l as [|x l IH]; intros f Hf; [constructor|]. rewrite imap_cons. constructor; [by apply (Hf 0%nat)|].
  apply IH. intros i y Hy. by apply (Hf (S i)).
Qed.

Lemma Forall2_map_same {A} (R : A -> A -> Prop) (f : A -> A) l : (forall x, x ∈ l -> R x (f x)) -> Forall2 R l (map f l).
Proof.
  induction l as [|x l IH]; intros Hf; [constructor|]. cbn. constructor; [apply Hf; left|]. apply IH. intros y Hy. apply Hf. by right.
Qed.

Lemma policy_marks_scope policy now runs :
  Forall run_ok runs -> ~ bytes_unknown policy runs -> Forall2 marks (policy_scope policy runs) (policy_marks policy now runs).
Proof.
  intros Hok Hn. rewrite Forall_forall in Hok. destruct policy as [run_id|age|keep|budget]; cbn [policy_scope policy_marks bytes_unknown] in *.
  - apply Forall2_map_same. intros r [_ Hr]%list_elem_of_filter. specialize (Hok r Hr). unfold exact_run.
    destruct (is_protected r) eqn:Hp; [by apply mark_none|by apply mark_select].
  - apply Forall2_map_same. intros r Hr. specialize (Hok r Hr). unfold older_than. destruct (is_protected r) eqn:Hp; [by apply mark_none|].
    destruct (is_incomplete r); [by apply mark_skip|]. case_match; [case_match|]; solve [by apply mark_select|by apply mark_skip].
  - apply Forall2_imap_same. intros i r Hr. apply list_elem_of_lookup_2 in Hr. specialize (Hok r Hr). unfold keep_mark.
    destruct (is_eligible_completed r) eqn:He; [|by apply incomplete_mark_marks]. apply unprotected_eligible in He.
    destruct (keep <=? _); [by apply mark_select|by apply mark_skip].
  - destruct (known_bytes runs) as [total|]; [|done]. apply Forall2_imap_same. intros i r Hr. apply list_elem_of_lookup_2 in Hr.
    specialize (Hok r Hr). unfold budget_mark. destruct (is_eligible_completed r) eqn:He; [|by apply incomplete_mark_marks].
    apply unprotected_eligible in He. destruct (_ <=? budget); [by apply mark_skip|by apply mark_select].
Qed.

(** A run that is selected may be deleted, and its bytes are known. *)
Definition deletable (r : CleanupInventoryRun) : Prop :=
  cr_selected r = true -> is_protected r = false /\ cr_bytes r <> None /\ cr_selection_reason r <> None /\ cr_skipped_reason r = None.

Lemma same_run_ok r r' : run_ok r -> same_run r r' -> is_protected r' = is_protected r /\
  (forall b, cr_bytes r' = Some b -> 0 <= b <= int_max U64) /\ (is_protected r' = false -> cr_bytes r' <> None).
Proof.
  intros [H1 H2 _] (E1 & E2 & E3 & E4 & E5 & E6 & E7 & E8 & E9). unfold is_protected in *. rewrite E4, E8. split_and!; [done|done|].
  intros Hp. by apply H2.
Qed.

Lemma policy_marks_deletable policy now runs :
  Forall run_ok runs ->
  Forall2 same_run (policy_scope policy runs) (policy_marks policy now runs) /\
  Forall (fun r => deletable r /\ forall b, cr_bytes r = Some b -> 0 <= b <= int_max U64) (policy_marks policy now runs).
Proof.
  intros Hok. assert (Hscope : Forall run_ok (policy_scope policy runs)).
  { destruct policy; try done. apply Forall_forall. intros r [_ Hr]%list_elem_of_filter. rewrite Forall_forall in Hok. by apply Hok. }
  assert (Hall : forall l k, Forall run_ok l -> Forall2 (fun r r' => same_run r r' /\ (explained r' \/ cr_selected r' = false)) l k ->
    Forall2 same_run l k /\ Forall (fun r => deletable r /\ forall b, cr_bytes r = Some b -> 0 <= b <= int_max U64) k).
  { intros l k Hl Hf. induction Hf as [|r r' l k [Hs He] _ IH]; [done|]. apply Forall_cons in Hl as [Hr Hl]. destruct (IH Hl) as [IH1 IH2].
    split; constructor; try done. destruct (same_run_ok r r' Hr Hs) as (Hp & Hb & Hk). split; [|done]. intros Hsel.
    destruct He as [He|He]; [|congruence]. unfold explained in He. destruct (is_protected r') eqn:Hp'; [destruct He; congruence|].
    rewrite Hsel in He. split_and!; try done; [by apply Hk|apply He|apply He]. }
  destruct (decide (bytes_unknown policy runs)) as [Hu|Hn].
  - destruct policy as [| | |budget]; try done. cbn in Hu. cbn [policy_scope policy_marks]. rewrite Hu. apply Hall; [done|].
    apply Forall2_map_same. intros r Hr. rewrite Forall_forall in Hok. destruct (Hok r Hr) as [_ _ (Hsel & _)].
    unfold incomplete_mark. destruct (_ && _); (split; [by split_and!|by right]).
  - apply Hall; [done|]. pose proof (policy_marks_scope policy now runs Hok Hn) as Hm. eapply Forall2_impl; [exact Hm|].
    intros r r' [Hs He]. split; [done|by left].
Qed.

Lemma policy_marks_completed policy now runs :
  Forall run_ok runs ->
  Forall (fun r => cr_selected r = true -> match policy with Spec_Run run_id => cr_run_id r = Some run_id | _ => is_completed r = true end)
    (policy_marks policy now runs).
Proof.
  intros Hok. rewrite Forall_forall in Hok. apply Forall_forall. intros r' Hr'.
  assert (Hinc : forall r, r ∈ runs -> cr_selected (incomplete_mark r) = false).
  { intros r Hr. destruct (Hok r Hr) as [_ _ (Hs & _)]. unfold incomplete_mark. by destruct (_ && _). }
  destruct policy as [run_id|age|keep|budget]; cbn [policy_marks] in Hr'.
  - apply list_elem_of_fmap in Hr' as (r & -> & [Hid Hr]%list_elem_of_filter). unfold exact_run. by destruct (is_protected r).
  - apply list_elem_of_fmap in Hr' as (r & -> & Hr). specialize (Hok r Hr). unfold older_than. destruct (is_protected r) eqn:Hp; [by destruct Hok as [_ _ (-> & _)]|].
    destruct Hok as [_ Hk (Hs & _)]. destruct (Hk Hp) as [_ Hst].
    assert (Hskip : forall reason, cr_selected (skip_run reason r) = false) by done.
    destruct (is_incomplete r) eqn:Hi; [by rewrite Hskip|]. assert (Hc : is_completed r = true) by (unfold is_completed, is_incomplete in *; by destruct (cr_state r)).
    case_match; [case_match|]; first [by rewrite Hskip|done].
  - apply list_elem_of_lookup in Hr' as [i Hi]. rewrite list_lookup_imap in Hi. destruct (runs !! i) as [r|] eqn:Hr; [|done]. injection Hi as <-.
    apply list_elem_of_lookup_2 in Hr. unfold keep_mark. destruct (is_eligible_completed r) eqn:He; [|by rewrite Hinc].
    apply andb_prop in He as [_ Hc]. by destruct (keep <=? _).
  - destruct (known_bytes runs) as [total|].
    + apply list_elem_of_lookup in Hr' as [i Hi]. rewrite list_lookup_imap in Hi. destruct (runs !! i) as [r|] eqn:Hr; [|done]. injection Hi as <-.
      apply list_elem_of_lookup_2 in Hr. unfold budget_mark. destruct (is_eligible_completed r) eqn:He; [|by rewrite Hinc].
      apply andb_prop in He as [_ Hc]. by destruct (_ <=? budget).
    + apply list_elem_of_fmap in Hr' as (r & -> & Hr). by rewrite Hinc.
Qed.

(** The preview of a marked inventory. *)
Definition preview_of (production : PathBuf) (policy : CleanupPolicySpec) (marked : list CleanupInventoryRun) : CleanupPreview :=
  let selected := sum_with selected_bytes marked in
  let remaining := (fun total => total - selected) <$> known_bytes marked in
  let failure := operation_failure policy remaining in
  mkPreview production policy (bool_decide (failure = None)) failure (known_bytes marked) selected remaining marked.

Definition run_not_found (run_id : CanonicalUuid) : CleanupPolicyError :=
  mkPolicyError Policy_TargetNotFound
    ("Run " +:+ CanonicalUuid_to_string uuid_hyphenated run_id +:+ " is not present in the cleanup inventory").

Lemma apply_policy_marks policy now runs :
  policy_ok policy -> list_len runs <= int_max U64 -> Forall run_ok runs ->
  apply_policy uuid_hyphenated policy now runs =
  Some match policy with
       | Spec_Run run_id => if bool_decide (policy_scope policy runs = []) then Err (run_not_found run_id) else Ok (policy_marks policy now runs)
       | _ => Ok (policy_marks policy now runs)
       end.
Proof.
  intros Hp Hl Hok. destruct policy as [run_id|age|keep|budget]; cbn [apply_policy policy_marks policy_scope].
  - destruct (filter _ runs) as [|r l]; [by rewrite bool_decide_true|by rewrite bool_decide_false].
  - done.
  - by rewrite keep_runs_marks.
  - by rewrite (max_total_bytes_marks budget now).
Qed.

Lemma selected_within marked :
  Forall (fun r => deletable r /\ forall b, cr_bytes r = Some b -> 0 <= b <= int_max U64) marked ->
  0 <= sum_with selected_bytes marked /\
  sum_with selected_bytes marked <= sum_with (fun r => default 0 (cr_bytes r)) marked <= list_len marked * int_max U64.
Proof.
  induction 1 as [|r l [_ Hb] _ IH]; [done|]. rewrite !sum_with_cons, list_len_cons. unfold selected_bytes at 1 3.
  assert (H0 : 0 <= default 0 (cr_bytes r) <= int_max U64).
  { destruct (cr_bytes r) as [b|] eqn:E; cbn; [by apply Hb|unfold int_max; lia]. }
  destruct (cr_selected r); lia.
Qed.

(** A preview never panics and is that of the marked inventory. *)
Lemma select_preview_spec production policy now runs :
  policy_ok policy -> list_len runs <= int_max U64 -> Forall run_ok runs ->
  let sorted := sort_by (cleanup_order uuid_hyphenated) runs in
  select_preview uuid_hyphenated production policy now runs =
  Some match policy with
       | Spec_Run run_id =>
           if bool_decide (policy_scope policy sorted = []) then Err (run_not_found run_id)
           else Ok (preview_of production policy (policy_marks policy now sorted))
       | _ => Ok (preview_of production policy (policy_marks policy now sorted))
       end.
Proof.
  intros Hp Hl Hok sorted. unfold select_preview. fold sorted.
  assert (Hperm : sorted ≡ₚ runs) by apply sort_by_perm.
  assert (Hl' : list_len sorted <= int_max U64) by (unfold list_len in *; by rewrite Hperm).
  assert (Hok' : Forall run_ok sorted) by (by rewrite Hperm).
  rewrite apply_policy_marks by done. cbn [mbind option_bind].
  destruct (policy_marks_deletable policy now sorted Hok') as [Hsame Hdel]. set (marked := policy_marks policy now sorted) in *.
  assert (Hlm : list_len marked <= int_max U64).
  { apply Forall2_length in Hsame. unfold list_len in *. rewrite <- Hsame. etransitivity; [|exact Hl'].
    destruct policy; cbn [policy_scope]; try done. apply Nat2Z.inj_le, length_filter. }
  assert (Hb : Forall (fun r => forall b, cr_bytes r = Some b -> 0 <= b <= int_max U64) marked) by (eapply Forall_impl; [exact Hdel|]; by intros r [_ ?]).
  pose proof (selected_within marked Hdel) as Hsel. pose proof (list_len_nonneg marked) as Hn.
  assert (Hdone : (total_bytes ← sum_all_bytes marked;
      selected_bytes ← selected_sum 0 marked;
      remaining_bytes ← match total_bytes with
        | Some total => remaining ← checked_sub U128 total selected_bytes; Some (Some remaining)
        | None => Some None
        end;
      let failure := operation_failure policy remaining_bytes in
      Some (Ok (E := CleanupPolicyError) (mkPreview production policy (bool_decide (failure = None)) failure total_bytes selected_bytes remaining_bytes marked))) =
    Some (Ok (preview_of production policy marked))).
  { rewrite sum_all_bytes_known by done. cbn [mbind option_bind]. rewrite selected_sum_known; [|..].
    - cbn [mbind option_bind]. rewrite Z.add_0_l. unfold preview_of. unfold known_bytes. destruct (forallb _ marked); [|done].
      unfold checked_sub. rewrite checked_in_range; [done|]. unfold int_min, int_max in *. nia.
    - eapply Forall_impl; [exact Hdel|]. intros r [Hd Hr]. split; [done|]. intros Hs. by apply Hd.
    - done.
    - unfold int_max in *. nia. }
  destruct policy as [run_id| | |]; try exact Hdone. by destruct (bool_decide _).
Qed.

Lemma select_preview_sorted production policy now runs preview :
  policy_ok policy -> list_len runs <= int_max U64 -> Forall run_ok runs ->
  select_preview uuid_hyphenated production policy now runs = Some (Ok preview) ->
  preview = preview_of production policy (policy_marks policy now (sort_by (cleanup_order uuid_hyphenated) runs)).
Proof.
  intros Hp Hl Hok. rewrite select_preview_spec by done. destruct policy; [destruct (bool_decide _); [done|]|..]; by intros [= <-].
Qed.

Lemma policy_marks_marked policy now runs i r r' :
  Forall run_ok runs -> policy_scope policy runs !! i = Some r -> policy_marks policy now runs !! i = Some r' ->
  marked policy now (policy_scope policy runs) i r r'.
Proof.
  intros Hok Hi Hi'. assert (Hr : run_ok r).
  { rewrite Forall_forall in Hok. apply list_elem_of_lookup_2 in Hi. apply Hok. destruct policy; [|done..]. by apply list_elem_of_filter in Hi as [_ ?]. }
  destruct policy as [run_id|age|keep|budget]; cbn [policy_scope policy_marks] in *.
  - rewrite list_lookup_fmap, Hi in Hi'. injection Hi' as <-. apply list_elem_of_lookup_2, list_elem_of_filter in Hi as [Hid _].
    unfold exact_run. destruct (is_protected r) eqn:Ep.
    + apply marked_protected; [done|]. intros Hx. apply is_protected_none in Hx. congruence.
    + apply (marked_select (Spec_Run run_id)); [done|]. split; [done|by apply is_protected_none].
  - rewrite list_lookup_fmap, Hi in Hi'. injection Hi' as <-. by apply older_than_marked.
  - rewrite list_lookup_imap, Hi in Hi'. injection Hi' as <-. by apply keep_marked.
  - destruct (known_bytes runs) as [total|] eqn:Et.
    + rewrite list_lookup_imap, Hi in Hi'. injection Hi' as <-. by apply budget_marked.
    + rewrite list_lookup_fmap, Hi in Hi'. injection Hi' as <-. apply marked_incomplete; [done|done|by right].
Qed.

Lemma preview_of_ok production policy now runs :
  Forall run_ok runs ->
  preview_ok production policy now (policy_scope policy runs) (preview_of production policy (policy_marks policy now runs)).
Proof.
  intros Hok. destruct (policy_marks_deletable policy now runs Hok) as [Hsame _]. pose proof (known_bytes_same _ _ Hsame) as Hk.
  split; unfold preview_of; rewrite ?Hk; clear Hk; cbn [pv_production pv_policy pv_runs pv_total_bytes pv_selected_bytes pv_remaining_bytes
    pv_operation_failure pv_satisfied]; try done.
  - symmetry. by eapply Forall2_length.
  - intros i r r'. by apply policy_marks_marked.
  - intros remaining. destruct (known_bytes _) as [total|]; cbn [fmap option_fmap option_map]; [|split; [done|by intros (? & ? & _)]].
    split; [intros [= <-]; by exists total|]. by intros (total' & [= <-] & ->).
  - destruct policy as [| | |budget]; cbn [operation_failure bytes_unknown]; try done.
    destruct (known_bytes _) as [total|]; cbn [fmap option_fmap option_map]; [case_match|]; split; done.
  - destruct policy as [| | |budget]; cbn [operation_failure]; [split; [done|by intros (? & ? & ? & _)]..|].
    destruct (known_bytes _) as [total|]; cbn [fmap option_fmap option_map]; [|split; [done|by intros (? & ? & _ & ? & _)]].
    destruct (Z.ltb_spec budget (total - sum_with selected_bytes (policy_marks (Spec_MaxTotalBytes budget) now runs))) as [Hb|Hb].
    + split; [intros _; by eexists _, _|done].
    + split; [done|]. intros (b & x & [= <-] & [= <-] & H). by apply Z.lt_nge in H.
  - apply bool_decide_eq_true.
Qed.

(** C38: a preview never panics: it lists the runs that the policy is about, in
    the order of cleanup (by end, start, id and path, oldest first), each marked
    by its own criterion.  A run is selected exactly when it is the one asked for,
    or it may be reclaimed and it ended more than the age ago, or enough completed
    runs come after it, or deleting those before it does not meet the budget; it
    is skipped for its reason otherwise, and left alone when it is protected.  The
    totals are exact, and a run that is not in the inventory is an error. *)
Theorem select_preview_exact production policy now runs :
  policy_ok policy -> list_len runs <= int_max U64 -> Forall run_ok runs ->
  exists sorted, sorted ≡ₚ policy_scope policy runs /\ in_cleanup_order uuid_hyphenated sorted /\
    match policy, sorted with
    | Spec_Run run_id, [] => select_preview uuid_hyphenated production policy now runs = Some (Err (run_not_found run_id))
    | _, _ =>
        exists preview, select_preview uuid_hyphenated production policy now runs = Some (Ok preview) /\
          preview_ok production policy now sorted preview
    end.
Proof.
  intros Hp Hl Hok. pose proof (sort_by_perm (cleanup_order uuid_hyphenated) runs) as Hperm.
  pose proof (select_preview_spec production policy now runs Hp Hl Hok) as Hs. cbn zeta in Hs.
  pose proof (sort_by_cleanup_order uuid_hyphenated runs) as Hsort. set (all := sort_by _ runs) in *.
  assert (Hok' : Forall run_ok all) by (by rewrite Hperm).
  exists (policy_scope policy all). split; [destruct policy; cbn [policy_scope]; by rewrite Hperm|].
  split; [by apply in_cleanup_order_scope|]. pose proof (preview_of_ok production policy now all Hok') as Hpv. rewrite Hs.
  destruct policy as [run_id| | |]; [|by eexists..]. destruct (policy_scope (Spec_Run run_id) all) as [|r l];
    [by rewrite bool_decide_true|rewrite bool_decide_false by done; by eexists].
Qed.

(** The preview of an inventory that has one. *)
Lemma select_preview_some production policy now runs preview :
  policy_ok policy -> list_len runs <= int_max U64 -> Forall run_ok runs ->
  select_preview uuid_hyphenated production policy now runs = Some (Ok preview) ->
  exists sorted, sorted ≡ₚ runs /\ Forall run_ok sorted /\ preview = preview_of production policy (policy_marks policy now sorted).
Proof.
  intros Hp Hl Hok Hs. exists (sort_by (cleanup_order uuid_hyphenated) runs). pose proof (sort_by_perm (cleanup_order uuid_hyphenated) runs) as Hperm.
  split; [done|]. split; [by rewrite Hperm|]. by apply select_preview_sorted.
Qed.

(** C37: nothing is deleted that must not be: the runs of a preview are those of
    the inventory that the policy is about, unchanged but for their marks; a run
    that is selected is not protected, its size is known, and it is a completed
    archive unless it was asked for by its id; and every run has one explanation:
    a protection, a reason to select it or a reason to skip it, unless the policy
    is a budget and the bytes of some run are not known. *)
Theorem cleanup_selects_deletable production policy now runs preview :
  policy_ok policy -> list_len runs <= int_max U64 -> Forall run_ok runs ->
  select_preview uuid_hyphenated production policy now runs = Some (Ok preview) ->
  (exists kept, kept ≡ₚ policy_scope policy runs /\ Forall2 same_run kept (pv_runs preview)) /\
  Forall (fun r => deletable r /\
    (cr_selected r = true -> match policy with Spec_Run run_id => cr_run_id r = Some run_id | _ => is_completed r = true end))
    (pv_runs preview) /\
  (pv_operation_failure preview <> Some ProtectedBytesUnknown -> Forall explained (pv_runs preview)).
Proof.
  intros Hp Hl Hok Hs. destruct (select_preview_some _ _ _ _ _ Hp Hl Hok Hs) as (sorted & Hperm & Hok' & ->). cbn [pv_runs pv_operation_failure preview_of].
  destruct (policy_marks_deletable policy now sorted Hok') as [Hsame Hdel]. split_and!.
  - exists (policy_scope policy sorted). split; [|done]. destruct policy; cbn [policy_scope]; by rewrite Hperm.
  - apply Forall_and. split; [eapply Forall_impl; [exact Hdel|]; by intros r [? _]|]. by apply policy_marks_completed.
  - intros Hf. assert (Hn : ~ bytes_unknown policy sorted).
    { intros Hu. apply Hf. destruct policy as [| | |budget]; try done. cbn in Hu. cbn [policy_marks operation_failure]. rewrite Hu.
      by rewrite known_bytes_marked, Hu by apply incomplete_mark_bytes. }
    pose proof (policy_marks_scope policy now sorted Hok' Hn) as Hm. clear -Hm.
    induction Hm as [|r r' l k [_ He] _ IH]; by constructor.
Qed.

(** ** The budget *)

Lemma incomplete_mark_selected r : run_ok r -> cr_selected (incomplete_mark r) = false.
Proof. intros [_ _ (Hs & _)]. unfold incomplete_mark. by destruct (_ && _). Qed.

(** What is selected for the budget, when the total is known. *)
Lemma budget_marks_selected budget total runs i r :
  Forall run_ok runs -> imap (budget_mark budget total runs) runs !! i = Some r ->
  exists r0, runs !! i = Some r0 /\ is_eligible_completed r = is_eligible_completed r0 /\
    cr_selected r = is_eligible_completed r0 && (budget <? total - eligible_before runs i).
Proof.
  intros Hok Hi. rewrite list_lookup_imap in Hi. destruct (runs !! i) as [r0|] eqn:Hr; [|done]. injection Hi as <-.
  exists r0. split; [done|]. assert (Hr0 : run_ok r0) by (rewrite Forall_lookup in Hok; by eapply Hok).
  unfold budget_mark. destruct (is_eligible_completed r0) eqn:He.
  - rewrite Z.ltb_antisym. destruct (_ <=? budget); [|done]. split; [done|]. cbn. by destruct Hr0 as [_ _ (-> & _)].
  - rewrite incomplete_mark_eligible, incomplete_mark_selected by done. done.
Qed.

(** ** The prefix that meets a budget *)

Lemma reclaimable_bytes_nonneg r : run_ok r -> 0 <= reclaimable_bytes r.
Proof.
  intros [Hb _ _]. unfold reclaimable_bytes. destruct (decide _); [|done]. destruct (cr_bytes r) as [b|]; [|done]. by apply Hb.
Qed.

Lemma reclaimable_prefix_mono runs n m :
  Forall run_ok runs -> (n <= m)%nat -> sum_with reclaimable_bytes (take n runs) <= sum_with reclaimable_bytes (take m runs).
Proof.
  intros Hok. revert n m. induction Hok as [|r runs Hr _ IH]; intros [|n] [|m] Hle; try done; try lia; cbn [take]; rewrite ?sum_with_cons.
  - specialize (IH 0%nat m ltac:(lia)). rewrite take_0 in IH. change (sum_with reclaimable_bytes []) with 0 in *.
    pose proof (reclaimable_bytes_nonneg r Hr). lia.
  - specialize (IH n m ltac:(lia)). lia.
Qed.

Lemma reclaimable_same r r' : same_run r r' -> reclaimable r' <-> reclaimable r.
Proof. intros (_ & _ & E3 & _ & _ & _ & _ & E8 & _). unfold reclaimable. by rewrite E3, E8. Qed.

Lemma reclaimable_sum_same runs runs' :
  Forall2 same_run runs runs' -> sum_with reclaimable_bytes runs' = sum_with reclaimable_bytes runs.
Proof.
  induction 1 as [|r r' l l' Hr _ IH]; [done|]. rewrite !sum_with_cons, IH. f_equal. unfold reclaimable_bytes.
  destruct (decide (reclaimable r')) as [H|H], (decide (reclaimable r)) as [H'|H']; try done; [|by apply (reclaimable_same r r') in H|by apply (reclaimable_same r r' Hr) in H'].
  destruct Hr as (_ & _ & _ & -> & _). done.
Qed.

(** The least number that satisfies a test, below a bound. *)
Lemma least_below (P : nat -> Prop) `{!forall n, Decision (P n)} bound :
  exists n, (n <= bound)%nat /\ (forall m, (m < n)%nat -> ~ P m) /\ ((n < bound)%nat -> P n).
Proof.
  induction bound as [|b (n & Hn & Hbelow & HP)]; [exists 0%nat; split; [done|split; intros; lia]|].
  destruct (decide (n < b)%nat) as [Hlt|Hge]; [exists n; split; [lia|split; [done|intros _; by apply HP]]|].
  destruct (decide (P n)) as [Hp|Hp]; [exists n; split; [lia|by split]|].
  exists (S n). split; [lia|]. split; [|lia]. intros m Hm. destruct (decide (m = n)) as [->|Hne]; [done|]. apply Hbelow. lia.
Qed.

Lemma selected_sum_prefix runs n :
  (forall i r, runs !! i = Some r -> cr_selected r = true <-> (i < n)%nat /\ reclaimable r) ->
  sum_with selected_bytes runs = sum_with reclaimable_bytes (take n runs).
Proof.
  revert n. induction runs as [|r runs IH]; intros n Hsel; [by rewrite take_nil|]. rewrite sum_with_cons.
  pose proof (Hsel 0%nat r eq_refl) as Hr. specialize (IH (pred n)). rewrite IH; clear IH.
  2: { intros i x Hx. rewrite (Hsel (S i) x Hx). split; intros [? ?]; (split; [lia|done]). }
  destruct n as [|n]; cbn [take pred]; rewrite ?sum_with_cons.
  - rewrite take_0. change (sum_with reclaimable_bytes []) with 0. unfold selected_bytes. destruct (cr_selected r); [|done].
    destruct (proj1 Hr eq_refl). lia.
  - f_equal. unfold selected_bytes, reclaimable_bytes. destruct (decide (reclaimable r)) as [H|H].
    + rewrite (proj2 Hr); [done|]. split; [lia|done].
    + destruct (cr_selected r); [|done]. by destruct (proj1 Hr eq_refl).
Qed.

(** What the budget selects is the least prefix that meets it. *)
Lemma budget_marks_prefix budget total runs :
  Forall run_ok runs -> Forall2 same_run runs (imap (budget_mark budget total runs) runs) ->
  let marks := imap (budget_mark budget total runs) runs in
  exists n, (n <= length marks)%nat /\
    (forall i r, marks !! i = Some r -> cr_selected r = true <-> (i < n)%nat /\ reclaimable r) /\
    (forall m, (m < n)%nat -> budget < total - sum_with reclaimable_bytes (take m marks)) /\
    ((n < length marks)%nat -> total - sum_with reclaimable_bytes (take n marks) <= budget).
Proof.
  intros Hok Hsame marks. assert (Htake : forall m, sum_with reclaimable_bytes (take m marks) = sum_with reclaimable_bytes (take m runs)).
  { intros m. by apply reclaimable_sum_same, Forall2_take. }
  destruct (least_below (fun m => total - sum_with reclaimable_bytes (take m marks) <= budget) (length marks)) as (n & Hn & Hbelow & Hmet).
  exists n. split; [done|]. split_and!.
  - intros i r Hi. destruct (budget_marks_selected _ _ _ _ _ Hok Hi) as (r0 & Hr0 & He & ->). rewrite eligible_before_reclaimable, <- Htake.
    rewrite <- He, andb_true_iff, is_eligible_reclaimable, Z.ltb_lt. apply lookup_lt_Some in Hi. split; intros [H1 H2]; split; try done.
    + destruct (decide (i < n)%nat) as [|Hge]; [done|exfalso]. specialize (Hmet ltac:(lia)). rewrite !Htake in *.
      pose proof (reclaimable_prefix_mono runs n i Hok ltac:(lia)). lia.
    + specialize (Hbelow i H1). cbn beta in Hbelow. lia.
  - intros m Hm. specialize (Hbelow m Hm). cbn beta in Hbelow. lia.
  - done.
Qed.

(** C36: a budget on the bytes is met whenever it can be, and by the shortest
    prefix of the runs in the order of cleanup.  The preview lists the runs of the
    inventory in that order (by end, start, id and path, oldest first); when the
    bytes of all runs are known, the runs that are selected are those of a prefix
    that can be reclaimed; no shorter prefix meets the budget; the prefix meets it
    when the preview is satisfied and is the whole inventory when it is not.  The
    preview is satisfied exactly when what remains, the total less the bytes of
    the selected runs, is known and within the budget; when the bytes of a run are
    not known nothing is selected. *)
Theorem cleanup_budget_met production budget now runs preview :
  policy_ok (Spec_MaxTotalBytes budget) -> list_len runs <= int_max U64 -> Forall run_ok runs ->
  select_preview uuid_hyphenated production (Spec_MaxTotalBytes budget) now runs = Some (Ok preview) ->
  (exists inventory, inventory ≡ₚ runs /\ Forall2 same_run inventory (pv_runs preview)) /\
  in_cleanup_order uuid_hyphenated (pv_runs preview) /\
  (pv_satisfied preview = true <-> exists remaining, pv_remaining_bytes preview = Some remaining /\ remaining <= budget) /\
  pv_total_bytes preview = known_bytes (pv_runs preview) /\
  match pv_total_bytes preview with
  | Some total =>
      pv_remaining_bytes preview = Some (total - sum_with selected_bytes (pv_runs preview)) /\
      exists n, (n <= length (pv_runs preview))%nat /\
        (forall i r, pv_runs preview !! i = Some r -> cr_selected r = true <-> (i < n)%nat /\ reclaimable r) /\
        (forall m, (m < n)%nat -> budget < total - sum_with reclaimable_bytes (take m (pv_runs preview))) /\
        (if pv_satisfied preview then total - sum_with reclaimable_bytes (take n (pv_runs preview)) <= budget
         else n = length (pv_runs preview))
  | None => Forall (fun r => cr_selected r = false) (pv_runs preview)
  end.
Proof.
  intros Hp Hl Hok Hs. rewrite (select_preview_sorted _ _ _ _ _ Hp Hl Hok Hs). clear Hs.
  pose proof (sort_by_perm (cleanup_order uuid_hyphenated) runs) as Hperm. pose proof (sort_by_cleanup_order uuid_hyphenated runs) as Hsort.
  set (sorted := sort_by _ runs) in *. assert (Hok' : Forall run_ok sorted) by (by rewrite Hperm).
  destruct (policy_marks_deletable (Spec_MaxTotalBytes budget) now sorted Hok') as [Hsame _].
  cbn [pv_runs pv_satisfied pv_remaining_bytes pv_total_bytes preview_of operation_failure].
  split; [by exists sorted|]. split; [by eapply in_cleanup_order_same|].
  rewrite (known_bytes_same _ _ Hsame). cbn [policy_scope policy_marks] in *.
  destruct (known_bytes sorted) as [total|]; cbn [fmap option_fmap option_map].
  - destruct (budget_marks_prefix budget total sorted Hok' Hsame) as (n & Hn & Hsel & Hshort & Hmet).
    set (marks := imap _ sorted) in *. pose proof (selected_sum_prefix marks n Hsel) as Hsum.
    destruct (Z.ltb_spec budget (total - sum_with selected_bytes marks)) as [Hb|Hb];
      [rewrite bool_decide_false by done|rewrite bool_decide_true by done]; (split; [|split; [done|split; [done|]]]).
    + split; [done|]. intros (x & [= <-] & Hx). lia.
    + exists n. split_and!; try done. destruct (decide (n < length marks)%nat) as [Hlt|]; [specialize (Hmet Hlt); lia|lia].
    + split; [|done]. intros _. by eexists.
    + exists n. split_and!; try done. lia.
  - rewrite bool_decide_false by done. split_and!; [split; [done|by intros (? & ? & _)]|done|].
    apply Forall_forall. intros r (r0 & -> & Hr0)%list_elem_of_fmap. apply incomplete_mark_selected. rewrite Forall_forall in Hok'. by apply Hok'.
Qed.

End Policies.

(** ** A small inventory *)

Definition sample_uuid (u : Z) : string := if u =? 1 then "1" else if u =? 2 then "2" else "3".

Definition sample_end (second : Z) : UtcTimestamp := mkTimestamp (mkInstant second 0) "".

Definition sample_inventory : list CleanupInventoryRun :=
  [ mkRun (Some (mkCanonicalUuid 2)) (mkPath true ["runs"; "2"]) Archive_Completed (Some 200) (Some (sample_end 1))
      (Some (sample_end 20)) (Some true) None None false None None;
    run_protected (Some (mkCanonicalUuid 3)) (mkPath true ["runs"; "3"]) (Some 50) Protected_Active None;
    mkRun (Some (mkCanonicalUuid 1)) (mkPath true ["runs"; "1"]) Archive_Completed (Some 100) (Some (sample_end 1))
      (Some (sample_end 10)) (Some true) None None false None None;
    mkRun (Some (mkCanonicalUuid 4)) (mkPath true ["runs"; "4"]) Archive_Incomplete (Some 30) (Some (sample_end 2))
      None (Some false) None None false None None ].

Lemma sample_inventory_ok : Forall run_ok sample_inventory /\ list_len sample_inventory <= int_max U64.
Proof.
  split; [|vm_compute; discriminate].
  assert (Hb : forall (b0 : Z), (0 <=? b0) && (b0 <=? 255) = true -> forall b, Some b0 = Some b -> 0 <= b <= int_max U64).
  { intros b0 Hb b [= <-]. apply andb_prop in Hb as [H1%Z.leb_le H2%Z.leb_le]. unfold int_max. lia. }
  apply Forall_cons; split; [|apply Forall_cons; split; [|apply Forall_cons; split; [|apply Forall_cons; split; [|apply Forall_nil; done]]]];
    (split; [apply Hb; reflexivity|intros H; first [discriminate H|split; discriminate]|done]).
Qed.

Lemma select_preview_exact_witness :
  exists sorted preview, sorted ≡ₚ sample_inventory /\ in_cleanup_order sample_uuid sorted /\
    select_preview sample_uuid (mkPath true []) (Spec_KeepRuns 1) (mkInstant 100 0) sample_inventory = Some (Ok preview) /\
    preview_ok (mkPath true []) (Spec_KeepRuns 1) (mkInstant 100 0) sorted preview.
Proof.
  destruct sample_inventory_ok as [Hok Hl].
  destruct (select_preview_exact sample_uuid (mkPath true []) (Spec_KeepRuns 1) (mkInstant 100 0) sample_inventory
    ltac:(vm_compute; split; discriminate) Hl Hok) as (sorted & Hp & Ho & preview & Hs & Hpv).
  exists sorted, preview. split; [exact Hp|]. split; [exact Ho|]. split; [exact Hs|exact Hpv].
Defined.

Lemma cleanup_selects_deletable_witness :
  exists preview, select_preview sample_uuid (mkPath true []) (Spec_OlderThan (85 * 1000000000)) (mkInstant 100 0) sample_inventory = Some (Ok preview) /\
    pv_selected_bytes preview = 100 /\ Forall explained (pv_runs preview).
Proof.
  destruct sample_inventory_ok as [Hok Hl].
  eexists. split; [vm_compute; reflexivity|]. split; [reflexivity|].
  refine (proj2 (proj2 (cleanup_selects_deletable sample_uuid (mkPath true []) (Spec_OlderThan (85 * 1000000000)) (mkInstant 100 0)
    sample_inventory _ I Hl Hok _)) _); [vm_compute; reflexivity|discriminate].
Defined.

Lemma cleanup_budget_met_witness :
  exists preview, select_preview sample_uuid (mkPath true []) (Spec_MaxTotalBytes 250) (mkInstant 100 0) sample_inventory = Some (Ok preview) /\
    pv_total_bytes preview = Some 380 /\ pv_remaining_bytes preview = Some 80 /\
    map cr_selected (pv_runs preview) = [true; true; false; false] /\ in_cleanup_order sample_uuid (pv_runs preview).
Proof.
  destruct sample_inventory_ok as [Hok Hl].
  eexists. split; [vm_compute; reflexivity|]. split; [reflexivity|]. split; [reflexivity|]. split; [reflexivity|].
  refine (proj1 (proj2 (cleanup_budget_met sample_uuid (mkPath true []) 250 (mkInstant 100 0) sample_inventory _ _ Hl Hok _)));
    [vm_compute; split; discriminate|vm_compute; reflexivity].
Defined.
