(* ===== verification/Inventory.v ===== *)
(** * The inventory of a cleanup

    Models the inspection of
    [rust/src/application/diagnostic_cli/cleanup_policy.rs]: how a discovered
    candidate becomes a run of the inventory, what protects it, how its files are
    counted, and the preview of a production.  The probe of the cleanup lease is a
    parameter, as it is in the code; [real_lease_probe] is the one that is used. *)

From S2P Require Import Prelude Files Text Wire Order Timestamp Cleanup Event Store Process Host Lease Registry Discovery Resolver.

Inductive CleanupLeaseAvailability := Availability_Available | Availability_Leased | Availability_Invalid.

#[export] Instance CleanupLeaseAvailability_eq_dec : EqDecision CleanupLeaseAvailability.
Proof. solve_decision. Defined.

Definition protection_for_classification (classification : CandidateClassification) : option CleanupProtectionReason :=
  match classification with
  | Candidate_Active => Some Protected_Active
  | Candidate_Unhealthy | Candidate_IdentityMismatch => Some Protected_AmbiguousOwner
  | Candidate_Invalid => Some Protected_InvalidArchive
  | Candidate_Incompatible => Some Protected_IncompatibleArchive
  | Candidate_DefiniteStale | Candidate_Completed | Candidate_Incomplete => None
  end.

Definition candidate_identity (candidate : DiscoveryCandidate) : option CanonicalUuid :=
  match dc_run_id candidate with Some run_id => Some run_id | None => dc_path_run_id candidate end.

Definition candidate_path (candidate : DiscoveryCandidate) : PathBuf := default (dc_path candidate) (dc_archive_directory candidate).

Definition protected_candidate (candidate : DiscoveryCandidate) (reason : CleanupProtectionReason) (detail : option string)
    : CleanupInventoryRun :=
  run_protected (candidate_identity candidate) (candidate_path candidate) None reason detail.

(** [run.bytes = bytes] *)
Definition with_bytes (r : CleanupInventoryRun) (bytes : option Z) : CleanupInventoryRun :=
  mkRun (cr_run_id r) (cr_path r) (cr_state r) bytes (cr_started_at r) (cr_ended_at r) (cr_clean_shutdown r)
    (cr_protection_reason r) (cr_detail r) (cr_selected r) (cr_selection_reason r) (cr_skipped_reason r).

(** [map(parse).transpose()] *)
Definition parse_optional (value : option string) : option (option UtcTimestamp) :=
  match value with
  | None => Some None
  | Some value => t ← UtcTimestamp_parse value; Some (Some t)
  end.

Section Inventory.
Context {host : ResolverHost} (lease_probe : PathBuf -> Sys CleanupLeaseAvailability).

Definition real_lease_probe (run_directory : PathBuf) : Sys CleanupLeaseAvailability :=
  let! probed := probe_archive_lease run_directory Lease_Cleanup in
  sys_ret
    match probed with
    | Ok _ => Availability_Available
    | Err error => if bool_decide (al_code error = Lease_Contended) then Availability_Leased else Availability_Invalid
    end.

(** ** Counting files *)

(** The entries of a directory.  The top of the [Vec] of pending directories is the
    head of the list. *)
Fixpoint scan_entries (directory : PathBuf) (entries : list (result string IoError)) (pending : list PathBuf) (total : Z)
    : Sys (result (list PathBuf * Z) string) :=
  match entries with
  | [] => sys_ret (Ok (pending, total))
  | Err error :: _ => sys_ret (Err ("cannot enumerate archive " +:+ path_display directory +:+ ": " +:+ io_text error))
  | Ok name :: entries =>
      let path := join_path directory name in
      try! metadata := sys_map_err (fun error => "cannot inspect " +:+ path_display path +:+ ": " +:+ io_text error)
        (ask (os_symlink_metadata path)) in
      if is_symlink metadata then sys_ret (Err ("archive symlink is not allowed: " +:+ path_display path))
      else if is_dir metadata then scan_entries directory entries (path :: pending) total
      else if is_file metadata then
        match checked_add U64 total (md_len metadata) with
        | Some total => scan_entries directory entries pending total
        | None => sys_ret (Err ("archive apparent byte total overflowed at " +:+ path_display path))
        end
      else sys_ret (Err ("archive entry is not a regular file or directory: " +:+ path_display path))
  end.

(** [None] is a loop that has not ended after [fuel] directories. *)
Fixpoint scan_directories (fuel : nat) (pending : list PathBuf) (total : Z) : Sys (result Z string) :=
  match pending with
  | [] => sys_ret (Ok total)
  | directory :: pending =>
      match fuel with
      | O => sys_panic
      | S fuel =>
          try! before := sys_map_err (fun error => "cannot inspect " +:+ path_display directory +:+ ": " +:+ io_text error)
            (ask (os_symlink_metadata directory)) in
          if is_symlink before || negb (is_dir before) then
            sys_ret (Err ("archive directory changed or is unsafe: " +:+ path_display directory))
          else
            try! entries := sys_map_err (fun error => "cannot read " +:+ path_display directory +:+ ": " +:+ io_text error)
              (ask (os_read_dir directory)) in
            try! scanned := scan_entries directory entries pending total in
            try! after := sys_map_err (fun error => "cannot revalidate " +:+ path_display directory +:+ ": " +:+ io_text error)
              (ask (os_symlink_metadata directory)) in
            if is_symlink after || negb (is_dir after) || bool_decide (file_identity after <> file_identity before) then
              sys_ret (Err ("archive directory identity changed while scanning: " +:+ path_display directory))
            else scan_directories fuel scanned.1 scanned.2
      end
  end.

Definition apparent_regular_file_bytes (fuel : nat) (run_directory : PathBuf) : Sys (result Z string) :=
  try! initial := sys_map_err (fun error => "cannot inspect Run directory " +:+ path_display run_directory +:+ ": " +:+ io_text error)
    (ask (os_symlink_metadata run_directory)) in
  if is_symlink initial || negb (is_dir initial) then
    sys_ret (Err ("Run archive is not a non-symlink directory: " +:+ path_display run_directory))
  else
    try! total := scan_directories fuel [run_directory] 0 in
    try! final_root := sys_map_err (fun error =>
        "cannot revalidate Run directory " +:+ path_display run_directory +:+ ": " +:+ io_text error)
      (ask (os_symlink_metadata run_directory)) in
    if is_symlink final_root || negb (is_dir final_root) || bool_decide (file_identity final_root <> file_identity initial) then
      sys_ret (Err "Run directory identity changed while computing apparent bytes")
    else sys_ret (Ok total).

(** ** Inspection *)

(** The archive of a candidate without protection, or what protects it. *)
Definition open_target (candidate : DiscoveryCandidate) (candidates : list DiscoveryCandidate) (path : PathBuf) (run_id : CanonicalUuid)
    : Sys (result Z (CleanupProtectionReason * string)) :=
  match dc_classification candidate with
  | Candidate_DefiniteStale =>
      let! resolved := resolve_discovered_production candidates (Some run_id) in
      sys_ret
        match resolved with
        | Ok (Resolved_Archive target) => Ok target
        | Ok (Resolved_Live _) => Err (Protected_Active, "Run became active during cleanup preview revalidation")
        | Err error => Err (Protected_AmbiguousOwner, ResolverError_display error)
        end
  | Candidate_Completed | Candidate_Incomplete =>
      sys_map_err (fun error => (Protected_MetadataInvalid, error)) (ask (archive_open_expected path run_id))
  | _ => sys_panic
  end.

(** The run of an archive that was captured. *)
Definition captured_run (run_id : CanonicalUuid) (path : PathBuf) (bytes : Z) (metadata : ArchiveMetadata) : Sys CleanupInventoryRun :=
  match UtcTimestamp_parse (am_started_at metadata), parse_optional (am_ended_at metadata) with
  | Some started_at, Some ended_at =>
      let! lease := lease_probe path in
      let protection_reason :=
        match lease with
        | Availability_Available => None
        | Availability_Leased => Some Protected_Leased
        | Availability_Invalid => Some Protected_InvalidArchive
        end in
      let state :=
        if am_clean_shutdown metadata && match ended_at with Some _ => true | None => false end then Archive_Completed
        else Archive_Incomplete in
      sys_ret (mkRun (Some run_id) path state (Some bytes) (Some started_at) ended_at (Some (am_clean_shutdown metadata))
        protection_reason
        (if bool_decide (lease = Availability_Invalid) then Some "archive lease anchor could not be validated" else None)
        false None None)
  | _, _ =>
      sys_ret (run_protected (Some run_id) path (Some bytes) Protected_MetadataInvalid
        (Some "Run timestamps are not canonical UTC RFC3339 values"))
  end.

Definition inspect_candidate (fuel : nat) (candidate : DiscoveryCandidate) (candidates : list DiscoveryCandidate)
    : Sys CleanupInventoryRun :=
  let path := candidate_path candidate in
  let initial_protection := protection_for_classification (dc_classification candidate) in
  let! read_lease := acquire path Lease_SharedReader in
  match read_lease with
  | Err error =>
      let reason :=
        default (if bool_decide (al_code error = Lease_Contended) then Protected_Leased else Protected_InvalidArchive) initial_protection in
      let failed := "archive cannot be leased for stable preview scanning: " +:+ ArchiveLeaseError_display error in
      sys_ret (protected_candidate candidate reason
        (Some match dc_detail candidate with Some detail => detail +:+ "; " +:+ failed | None => failed end))
  | Ok _ =>
      let! counted := apparent_regular_file_bytes fuel path in
      match counted with
      | Err detail => sys_ret (protected_candidate candidate Protected_UnsafeArchiveEntry (Some detail))
      | Ok bytes =>
          match initial_protection, candidate_identity candidate with
          | Some reason, _ => sys_ret (with_bytes (protected_candidate candidate reason (dc_detail candidate)) (Some bytes))
          | None, None =>
              sys_ret (with_bytes (protected_candidate candidate Protected_InvalidArchive
                (Some "candidate has no trusted or path-derived Run identity")) (Some bytes))
          | None, Some run_id =>
              let! target := open_target candidate candidates path run_id in
              match target with
              | Err (reason, detail) => sys_ret (run_protected (Some run_id) path (Some bytes) reason (Some detail))
              | Ok target =>
                  let! captured := ask (archive_capture target) in
                  match captured with
                  | Err error => sys_ret (run_protected (Some run_id) path (Some bytes) Protected_MetadataInvalid (Some error))
                  | Ok metadata => captured_run run_id path bytes metadata
                  end
              end
          end
      end
  end.

(** ** The preview *)

Definition requested (policy : CleanupPolicySpec) : option CanonicalUuid :=
  match policy with Spec_Run run_id => Some run_id | _ => None end.

(** The candidates whose archives are inspected. *)
Definition is_inspected (requested_run : option CanonicalUuid) (candidate : DiscoveryCandidate) : bool :=
  dc_archive_present candidate
  && match requested_run with
     | None => true
     | Some run_id => bool_decide (candidate_identity candidate = Some run_id)
     end.

Fixpoint inspect_all (fuel : nat) (inspected candidates : list DiscoveryCandidate) : Sys (list CleanupInventoryRun) :=
  match inspected with
  | [] => sys_ret []
  | candidate :: inspected =>
      let! run := inspect_candidate fuel candidate candidates in
      let! runs := inspect_all fuel inspected candidates in
      sys_ret (run :: runs)
  end.

(** What is added when the requested run has no archive. *)
Definition missing_run (policy : CleanupPolicySpec) (candidates : list DiscoveryCandidate) (runs : list CleanupInventoryRun)
    : result (list CleanupInventoryRun) CleanupPolicyError :=
  match requested policy, runs with
  | Some run_id, [] =>
      match List.find (fun candidate => bool_decide (candidate_identity candidate = Some run_id)) candidates with
      | Some candidate => Ok [protected_candidate candidate Protected_MissingArchive (dc_detail candidate)]
      | None =>
          Err (mkPolicyError Policy_TargetNotFound
            ("Run " +:+ uuid_text run_id +:+ " is not present under the production diagnostics root"))
      end
  | _, _ => Ok runs
  end.

Definition preview_canonical_with (fuel : nat) (production : PathBuf) (policy : CleanupPolicySpec) (system_time : Z)
    : Sys (result CleanupPreview CleanupPolicyError) :=
  try! candidates := sys_map_err (fun error => mkPolicyError Policy_DiscoveryFailed (DiscoveryError_display error))
    (discover_with production) in
  let! runs := inspect_all fuel (List.filter (is_inspected (requested policy)) candidates) candidates in
  try! runs := sys_ret (missing_run policy candidates runs) in
  sys_expect (select_preview uuid_hyphenated production policy (from_system_time system_time) runs).

(** [preview_from_inventory] *)
Definition preview_from_inventory (production : PathBuf) (policy : CleanupPolicySpec) (system_time : Z) (runs : list CleanupInventoryRun)
    : option (result CleanupPreview CleanupPolicyError) :=
  select_preview uuid_hyphenated production policy (from_system_time system_time) runs.

End Inventory.
