(* ===== verification/InventorySpec.v ===== *)
(** * What an inspected run is

    The bytes of a run are those of its tree; a run without protection is what its
    archive says it is, nobody owned it when it was looked at last, and its lease
    was free; the preview of a production selects only such runs. *)

From Stdlib Require Import Sorted.
From S2P Require Import Prelude Files Text Wire Order Timestamp Cleanup CleanupSpec Event Store Process Host Lease Registry Discovery DiscoverySpec Resolver ResolverSpec Inventory.

(** ** Trees *)

Fixpoint entry_list (es : Entries) : list (string * Node) :=
  match es with NoEntry => [] | Entry name child es => (name, child) :: entry_list es end.

Definition file_bytes (x : string * Node) : Z := match x.2 with Regular len => len | _ => 0 end.

Definition plain (x : string * Node) : bool := match x.2 with Symlink | Special => false | _ => true end.

(** The directories among the entries of a directory. *)
Definition subdirectories (p : PathBuf) (l : list (string * Node)) : list (PathBuf * Entries) :=
  omap (fun x => match x.2 with Directory es => Some (join_path p x.1, es) | _ => None end) l.

Lemma entry_names_list es : entry_names es = map fst (entry_list es).
Proof. induction es as [|name child es IH]; [done|]. cbn. by rewrite IH. Qed.

Lemma shows_entries_list fs p es : shows_entries fs p es <-> Forall (fun x => shows fs (join_path p x.1) x.2) (entry_list es).
Proof.
  induction es as [|name child es IH]; cbn [shows_entries entry_list]; [split; [constructor|done]|]. rewrite Forall_cons, IH. done.
Qed.

Lemma entries_nonneg_list es : entries_nonneg es <-> Forall (fun x => sizes_nonneg x.2) (entry_list es).
Proof.
  induction es as [|name child es IH]; cbn [entries_nonneg entry_list]; [split; [constructor|done]|]. rewrite Forall_cons, IH. done.
Qed.

(** Sums over a stack of directories. *)
Definition stack_bytes (s : list (PathBuf * Entries)) : Z := sum_with (fun d => entries_bytes d.2) s.
Definition stack_nodes (s : list (PathBuf * Entries)) : Z := sum_with (fun d => 1 + Z.of_nat (entries_nodes d.2)) s.
Definition stack_countable (s : list (PathBuf * Entries)) : Prop := Forall (fun d => entries_countable d.2) s.

Lemma subdirectories_cons p x l :
  subdirectories p (x :: l) = match x.2 with Directory es => (join_path p x.1, es) :: subdirectories p l | _ => subdirectories p l end.
Proof. unfold subdirectories. cbn [omap list_omap]. by destruct x.2. Qed.

(** A directory is its files and its directories. *)
Lemma entries_parts p es :
  entries_bytes es = sum_with file_bytes (entry_list es) + stack_bytes (subdirectories p (entry_list es)) /\
  stack_nodes (subdirectories p (entry_list es)) <= Z.of_nat (entries_nodes es) /\
  (entries_countable es <-> forallb plain (entry_list es) = true /\ stack_countable (subdirectories p (entry_list es))).
Proof.
  unfold stack_bytes, stack_nodes, stack_countable.
  induction es as [|name child es IH]; [split_and!; [done|done|split; [intros _; by split|done]]|].
  destruct IH as (IH1 & IH2 & IH3). cbn [entries_bytes entry_list entries_nodes entries_countable].
  rewrite sum_with_cons, subdirectories_cons. cbn [fst snd forallb]. unfold file_bytes at 1, plain at 1. cbn [snd].
  destruct child as [len| | |es']; cbn [tree_bytes tree_nodes countable_tree]; rewrite ?sum_with_cons, ?Forall_cons; cbn [fst snd];
    (split_and!; [lia|lia|]); rewrite IH3; cbn [andb]; naive_solver.
Qed.

Section Inspection.
Context {host : ResolverHost}.

(** The file system of the host. *)
Definition host_fs : Fs := mkFs
  (fun call p => match os_symlink_metadata p call with Ok m => Some m | Err _ => None end)
  (fun call p =>
     match os_read_dir p call with
     | Ok entries => Some (map (fun entry => match entry with Ok name => Some (join_path p name) | Err _ => None end) entries)
     | Err _ => None
     end).

Lemma join_path_inj p a b : join_path p a = join_path p b -> a = b.
Proof. unfold join_path. intros [= H]. apply app_inj_tail in H as [_ H]. done. Qed.

(** What the host shows of a directory, by the calls of the scan. *)
Lemma shown_directory p es :
  shows host_fs p (Directory es) ->
  (exists dev ino, forall call, exists len, os_symlink_metadata p call = Ok (mkMetadata FileType_Dir len dev ino)) /\
  (forall call, exists l, os_read_dir p call = Ok (map (fun x => Ok x.1) l) /\ l ≡ₚ entry_list es) /\
  shows_entries host_fs p es.
Proof.
  intros ((dev & ino & Hm) & Hr & _ & He). split_and!; [|intros call|done].
  - exists dev, ino. intros call. destruct (Hm call) as [len Hl]. exists len. cbn in Hl. destruct (os_symlink_metadata p call); congruence.
  - destruct (Hr call) as (names & Hn & Hp). cbn in Hn. destruct (os_read_dir p call) as [entries|]; [|done]. injection Hn as Hn.
    rewrite entry_names_list in Hp. apply Permutation_map_inv in Hp as (l & -> & Hp). exists l. split; [|by symmetry]. f_equal.
    clear -Hn. revert l Hn. induction entries as [|[name|] entries IH]; intros [|x l]; cbn; intros Hn; try done.
    injection Hn as Hx Hl. apply app_inj_tail in Hx as [_ Hx]. rewrite Hx. f_equal. by apply IH.
Qed.

Lemma plain_directory len dev ino :
  is_symlink (mkMetadata FileType_Dir len dev ino) || negb (is_dir (mkMetadata FileType_Dir len dev ino)) = false.
Proof. reflexivity. Qed.

(** One directory: it is scanned to its files and its directories. *)
Lemma scan_entries_shown p l : forall pending total now,
  Forall (fun x => shows host_fs (join_path p x.1) x.2) l -> Forall (fun x => sizes_nonneg x.2) l -> 0 <= total <= int_max U64 ->
  exists r later, scan_entries p (map (fun x => Ok x.1) l) pending total now = Some (r, later) /\
    forall out, r = Ok out <-> forallb plain l = true /\ total + sum_with file_bytes l <= int_max U64 /\
      out = (rev (map fst (subdirectories p l)) ++ pending, total + sum_with file_bytes l).
Proof.
  induction l as [|[name child] l IH]; intros pending total now Hs Hn Ht; cbn [scan_entries map].
  - exists (Ok (pending, total)), now. split; [done|]. intros out. cbn [subdirectories omap list_omap map rev app forallb].
    change (sum_with file_bytes []) with 0. rewrite Z.add_0_r. naive_solver lia.
  - apply Forall_cons in Hs as [Hc Hs]. apply Forall_cons in Hn as [Hnc Hn]. cbn [fst snd] in *.
    assert (Hpos : 0 <= sum_with file_bytes l).
    { clear -Hn. induction Hn as [|x l Hx _ IH]; [done|]. rewrite sum_with_cons.
      assert (Hf : 0 <= file_bytes x) by (destruct x as [? []]; [exact Hx|done..]). lia. }
    rewrite sum_with_cons, subdirectories_cons. cbn [forallb fst snd]. unfold file_bytes at 1 3, plain at 1. cbn [snd].
    rewrite try_ask. destruct child as [len| | |es].
    + destruct (Hc now) as (dev & ino & Hm). cbn in Hm. destruct (os_symlink_metadata (join_path p name) now) as [m|]; [|done]. injection Hm as ->.
      unfold is_symlink, is_dir, is_file. cbn [md_file_type md_len bool_decide decide]. unfold checked_add.
      destruct (Z.le_gt_cases (total + len) (int_max U64)) as [Hle|Hgt].
      * rewrite checked_in_range by (unfold int_min; cbn in Hnc; lia).
        destruct (IH pending (total + len) (S now) Hs Hn ltac:(cbn in Hnc; lia)) as (r & later & Hr & Hiff). exists r, later. split; [exact Hr|].
        intros out. rewrite Hiff. rewrite Z.add_assoc. done.
      * rewrite (proj2 (checked_none U64 (total + len))) by lia. eexists _, _. split; [reflexivity|]. intros out. split; [done|]. intros (_ & Hle & _). lia.
    + destruct (Hc now) as (m & Hm & Ht'). cbn in Hm. destruct (os_symlink_metadata (join_path p name) now) as [m'|]; [|done]. injection Hm as ->.
      unfold is_symlink. rewrite Ht'. eexists _, _. split; [reflexivity|]. intros out. split; [done|by intros [? _]].
    + destruct (Hc now) as (m & Hm & Ht'). cbn in Hm. destruct (os_symlink_metadata (join_path p name) now) as [m'|]; [|done]. injection Hm as ->.
      unfold is_symlink, is_dir, is_file. rewrite Ht'. eexists _, _. split; [reflexivity|]. intros out. split; [done|by intros [? _]].
    + destruct (shown_directory _ _ Hc) as ((dev & ino & Hm) & _). destruct (Hm now) as [len ->].
      destruct (IH (join_path p name :: pending) total (S now) Hs Hn Ht) as (r & later & Hr & Hiff). exists r, later. split; [exact Hr|].
      intros out. rewrite Hiff. rewrite Z.add_0_l. cbn [map fst rev andb]. rewrite <- app_assoc. done.
Qed.

(** ** The scan of a tree *)

Definition shown_stack (s : list (PathBuf * Entries)) : Prop :=
  Forall (fun d => shows host_fs d.1 (Directory d.2) /\ entries_nonneg d.2) s.

Lemma stack_bytes_nonneg s : shown_stack s -> 0 <= stack_bytes s.
Proof.
  induction 1 as [|d s [_ Hd] _ IH]; [done|]. unfold stack_bytes in *. rewrite sum_with_cons.
  pose proof (proj2 tree_bytes_nonneg_both d.2 Hd). lia.
Qed.

Lemma stack_nodes_nonneg s : 0 <= stack_nodes s.
Proof. apply sum_with_pos. intros d. lia. Qed.

Lemma file_bytes_nonneg l : Forall (fun x => sizes_nonneg x.2) l -> 0 <= sum_with file_bytes l.
Proof.
  induction 1 as [|x l Hx _ IH]; [done|]. rewrite sum_with_cons.
  assert (Hf : 0 <= file_bytes x) by (destruct x as [? []]; [exact Hx|done..]). lia.
Qed.

Lemma subdirectories_shown p l :
  Forall (fun x => shows host_fs (join_path p x.1) x.2) l -> Forall (fun x => sizes_nonneg x.2) l -> shown_stack (subdirectories p l).
Proof.
  induction l as [|[name child] l IH]; intros Hs Hn; [constructor|]. apply Forall_cons in Hs as [Hc Hs]. apply Forall_cons in Hn as [Hnc Hn].
  rewrite subdirectories_cons. cbn [fst snd] in *. destruct child; try (by apply IH). constructor; [done|by apply IH].
Qed.

(** The parts of a directory whose entries come in another order. *)
Lemma listed_parts p es l :
  l ≡ₚ entry_list es ->
  entries_bytes es = sum_with file_bytes l + stack_bytes (subdirectories p l) /\
  stack_nodes (subdirectories p l) <= Z.of_nat (entries_nodes es) /\
  (entries_countable es <-> forallb plain l = true /\ stack_countable (subdirectories p l)).
Proof.
  intros Hp. destruct (entries_parts p es) as (H1 & H2 & H3). assert (Hs : subdirectories p l ≡ₚ subdirectories p (entry_list es)).
  { unfold subdirectories. by rewrite Hp. }
  unfold stack_bytes, stack_nodes, stack_countable in *. rewrite (sum_with_perm file_bytes _ _ Hp), (sum_with_perm _ _ _ Hs), (sum_with_perm _ _ _ Hs).
  split_and!; [done|done|]. rewrite H3, !forallb_Forall_true, Hs. f_equiv. by rewrite <- Hp.
Qed.

Lemma stack_app_rev (l s : list (PathBuf * Entries)) :
  stack_bytes (rev l ++ s) = stack_bytes l + stack_bytes s /\ stack_nodes (rev l ++ s) = stack_nodes l + stack_nodes s /\
  (stack_countable (rev l ++ s) <-> stack_countable l /\ stack_countable s) /\ (shown_stack (rev l ++ s) <-> shown_stack l /\ shown_stack s).
Proof.
  assert (Hp : rev l ≡ₚ l) by (symmetry; apply Permutation_rev).
  unfold stack_bytes, stack_nodes, stack_countable, shown_stack. rewrite !sum_with_app, !Forall_app, (sum_with_perm _ _ _ Hp), (sum_with_perm _ _ _ Hp), Hp.
  done.
Qed.

Lemma scan_directories_shown fuel : forall s total now,
  shown_stack s -> stack_nodes s <= Z.of_nat fuel -> 0 <= total <= int_max U64 ->
  exists r later, scan_directories fuel (map fst s) total now = Some (r, later) /\
    forall t, r = Ok t <-> stack_countable s /\ t = total + stack_bytes s /\ t <= int_max U64.
Proof.
  induction fuel as [|fuel IH]; intros [|[p es] s] total now Hs Hf Ht; cbn [map fst scan_directories].
  1,3: exists (Ok total), now; split; [done|]; intros t; change (stack_bytes []) with 0; rewrite Z.add_0_r;
    (split; [intros [= <-]; split_and!; [constructor|done|lia]|by intros (_ & -> & _)]).
  - unfold stack_nodes in Hf. rewrite sum_with_cons in Hf. pose proof (stack_nodes_nonneg s). unfold stack_nodes in *. lia.
  - apply Forall_cons in Hs as [[Hd Hn] Hs]. cbn [fst snd] in *. destruct (shown_directory _ _ Hd) as ((dev & ino & Hm) & Hr & He).
    unfold stack_nodes in Hf. rewrite sum_with_cons in Hf. cbn [snd] in Hf. change (sum_with _ s) with (stack_nodes s) in Hf.
    destruct (Hm now) as [len1 E1]. destruct (Hr (S now)) as (l & E2 & Hp). rewrite try_ask, E1. rewrite plain_directory. rewrite try_ask, E2.
    apply shows_entries_list in He. rewrite <- Hp in He. apply entries_nonneg_list in Hn. rewrite <- Hp in Hn.
    destruct (scan_entries_shown p l (map fst s) total (S (S now)) He Hn Ht) as (r & later & E3 & Hiff).
    destruct (listed_parts p es l Hp) as (Hb & Hnodes & Hcount). pose proof (subdirectories_shown p l He Hn) as Hsub.
    destruct (stack_app_rev (subdirectories p l) s) as (Ab & An & Ac & As). pose proof (stack_bytes_nonneg s Hs). pose proof (stack_bytes_nonneg _ Hsub).
    pose proof (file_bytes_nonneg l Hn).
    assert (Hgoal : forall t, (stack_countable ((p, es) :: s) /\ t = total + stack_bytes ((p, es) :: s) /\ t <= int_max U64) <->
      forallb plain l = true /\ stack_countable (rev (subdirectories p l) ++ s) /\
      t = (total + sum_with file_bytes l) + stack_bytes (rev (subdirectories p l) ++ s) /\ t <= int_max U64).
    { intros t. unfold stack_countable at 1, stack_bytes at 1. rewrite Forall_cons, sum_with_cons. cbn [snd]. fold (stack_bytes s). rewrite Hcount, Hb, Ab, Ac.
      split; [intros ([[C1 C2] C3] & -> & C4)|intros (C1 & [C2 C3] & -> & C4)]; split_and!; try done; lia. }
    unfold sys_try at 1. unfold sys_bind at 1. rewrite E3. cbn [mbind option_bind]. destruct r as [out|error].
    + destruct (proj1 (Hiff out) eq_refl) as (Hplain & Hle & ->). destruct (Hm later) as [len2 E4]. rewrite try_ask, E4.
      rewrite plain_directory. rewrite bool_decide_false by (intros Hne; by apply Hne). cbn [orb fst snd].
      rewrite <- map_rev, <- map_app. destruct (IH (rev (subdirectories p l) ++ s) (total + sum_with file_bytes l) (S later)) as (r & later' & E5 & Hiff').
      * by apply As.
      * rewrite An. lia.
      * lia.
      * exists r, later'. split; [exact E5|]. intros t. rewrite Hiff', Hgoal. naive_solver.
    + exists (Err error), later. split; [done|]. intros t. rewrite Hgoal. split; [done|]. intros (Hplain & Hc & -> & Hle).
      assert (Hcontra : Err error = Ok (rev (map fst (subdirectories p l)) ++ map fst s, total + sum_with file_bytes l)); [|done].
      apply Hiff. split_and!; [done| |done]. rewrite Ab in Hle. lia.
Qed.

(** What a scan returns of an archive that nobody changes. *)
Lemma apparent_bytes_shown root tree fuel now :
  shows host_fs root tree -> sizes_nonneg tree -> (tree_nodes tree <= fuel)%nat ->
  exists r later, apparent_regular_file_bytes fuel root now = Some (r, later) /\
    forall total, r = Ok total <-> match tree with Directory _ => True | _ => False end /\ countable_tree tree /\
      total = tree_bytes tree /\ total <= int_max U64.
Proof.
  intros Hs Hn Hf. unfold apparent_regular_file_bytes. rewrite try_ask.
  assert (Hrefuse : forall m, os_symlink_metadata root now = Ok m -> is_dir m = false ->
    is_symlink m || negb (is_dir m) = true) by (intros m _ ->; apply orb_true_r).
  destruct tree as [len| | |es].
  1-3: assert (Hm : exists m, os_symlink_metadata root now = Ok m /\ is_dir m = false) by
    (first [destruct (Hs now) as (dev & ino & Hm); cbn in Hm; destruct (os_symlink_metadata root now) as [m|]; [|done]; injection Hm as ->; by eexists
           |destruct (Hs now) as (m & Hm & Ht); cbn in Hm; destruct (os_symlink_metadata root now) as [m'|]; [|done]; injection Hm as ->;
            exists m; split; [done|]; unfold is_dir; by rewrite Ht]);
    destruct Hm as (m & Em & Hd); rewrite Em, (Hrefuse m Em Hd); eexists _, _; (split; [reflexivity|]); intros t; (split; [done|by intros [? _]]).
  destruct (shown_directory _ _ Hs) as ((dev & ino & Hm) & _). destruct (Hm now) as [len1 E1]. rewrite E1.
  rewrite plain_directory. cbn [tree_nodes] in Hf.
  destruct (scan_directories_shown fuel [(root, es)] 0 (S now)) as (r & later & E2 & Hiff).
  { by constructor. }
  { unfold stack_nodes. cbn. lia. }
  { unfold int_max. lia. }
  unfold sys_try at 1. unfold sys_bind at 1. cbn [map fst] in E2. rewrite E2. cbn [mbind option_bind].
  unfold stack_countable, stack_bytes in Hiff. rewrite sum_with_cons in Hiff. cbn [snd] in Hiff. change (sum_with _ []) with 0 in Hiff.
  assert (Hiff' : forall t, r = Ok t <-> True /\ countable_tree (Directory es) /\ t = tree_bytes (Directory es) /\ t <= int_max U64).
  { intros t. rewrite Hiff, Forall_singleton. cbn [countable_tree tree_bytes]. rewrite Z.add_0_r, Z.add_0_l. naive_solver. }
  destruct r as [total|error].
  - destruct (Hm later) as [len2 E3]. rewrite try_ask, E3. rewrite plain_directory.
    rewrite bool_decide_false by (intros Hne; by apply Hne). cbn [orb]. eexists _, _. split; [reflexivity|exact Hiff'].
  - eexists _, _. split; [reflexivity|]. intros t. rewrite <- Hiff'. naive_solver.
Qed.

(** The bytes of an archive that nobody changes are counted in as many turns as
    it has directories, in whatever order the system lists entries: they are the sum
    of the sizes of its files if it is a directory of files and directories only
    and the sum is a [u64], and otherwise the archive is refused. *)
Theorem apparent_bytes_exact root tree fuel now :
  shows host_fs root tree -> sizes_nonneg tree -> (tree_nodes tree <= fuel)%nat ->
  exists r later, apparent_regular_file_bytes fuel root now = Some (r, later) /\
    forall total, r = Ok total <-> match tree with Directory _ => True | _ => False end /\ countable_tree tree /\
      total = tree_bytes tree /\ total <= int_max U64.
Proof. apply apparent_bytes_shown. Qed.

(** ** Time and bytes *)

Lemma scan_entries_advances p entries : forall pending total, advances (scan_entries p entries pending total).
Proof.
  induction entries as [|[name|error] entries IH]; intros pending total; cbn [scan_entries]; [apply advances_ret| |apply advances_ret]. advance; apply IH.
Qed.

Lemma scan_directories_advances fuel : forall pending total, advances (scan_directories fuel pending total).
Proof.
  induction fuel as [|fuel IH]; intros [|p pending] total; cbn [scan_directories]; try (by auto with sys).
  pose proof (scan_entries_advances p). advance; solve [apply IH|auto with sys].
Qed.

Lemma apparent_advances fuel p : advances (apparent_regular_file_bytes fuel p).
Proof. pose proof (scan_directories_advances fuel). unfold apparent_regular_file_bytes. advance. Qed.

Lemma scan_entries_range p entries : forall pending total now out later,
  0 <= total <= int_max U64 -> scan_entries p entries pending total now = Some (Ok out, later) -> 0 <= out.2 <= int_max U64.
Proof.
  induction entries as [|[name|error] entries IH]; intros pending total now out later Ht; cbn [scan_entries].
  - by intros [[= ->] _]%sys_ret_some.
  - rewrite try_ask. destruct (os_symlink_metadata _ now) as [m|]; [|done]. destruct (is_symlink m); [by intros [? _]%sys_ret_some|].
    destruct (is_dir m); [by apply IH|]. destruct (is_file m); [|by intros [? _]%sys_ret_some].
    destruct (checked_add U64 total (md_len m)) as [total'|] eqn:E; [|by intros [? _]%sys_ret_some].
    apply IH. apply checked_some in E as [-> E]. exact E.
  - by intros [? _]%sys_ret_some.
Qed.

Lemma scan_directories_range fuel : forall pending total now out later,
  0 <= total <= int_max U64 -> scan_directories fuel pending total now = Some (Ok out, later) -> 0 <= out <= int_max U64.
Proof.
  induction fuel as [|fuel IH]; intros [|p pending] total now out later Ht; cbn [scan_directories]; try by intros [[= ->] _]%sys_ret_some.
  - done.
  - rewrite try_ask. destruct (os_symlink_metadata p now) as [m|]; [|done]. destruct (_ || _); [by intros [? _]%sys_ret_some|].
    rewrite try_ask. destruct (os_read_dir p (S now)) as [entries|]; [|done]. intros H. run_sys H.
    apply scan_entries_range in Hm; [|done]. apply sys_map_err_ok, ask_some in Hm0 as [_ ->].
    destruct (_ || _); [by apply sys_ret_some in H as [? _]|]. by apply IH in H.
Qed.

Lemma apparent_range fuel p now bytes later :
  apparent_regular_file_bytes fuel p now = Some (Ok bytes, later) -> 0 <= bytes <= int_max U64.
Proof.
  unfold apparent_regular_file_bytes. rewrite try_ask. destruct (os_symlink_metadata p now) as [m|]; [|done].
  destruct (_ || _); [by intros [? _]%sys_ret_some|]. intros H. run_sys H. apply scan_directories_range in Hm; [|unfold int_max; lia].
  destruct (_ || _); [by apply sys_ret_some in H as [? _]|]. by apply sys_ret_some in H as [[= ->] _].
Qed.

(** ** Inspected runs *)

Context (lease_probe : PathBuf -> Sys CleanupLeaseAvailability) (probe_advances : forall path, advances (lease_probe path)).

(** Its cleanup lease was free at a call. *)
Definition lease_free (path : PathBuf) (start finish : nat) : Prop :=
  exists call later, (start <= call)%nat /\ (later <= finish)%nat /\ lease_probe path call = Some (Availability_Available, later).

(** A candidate that nobody owns, or that nobody owned when it was looked at again. *)
Definition unowned (candidates : list DiscoveryCandidate) (c : DiscoveryCandidate) (run_id : CanonicalUuid) (start finish : nat) : Prop :=
  match dc_classification c with
  | Candidate_Completed | Candidate_Incomplete => True
  | Candidate_DefiniteStale =>
      exists c', filter (fun candidate => dc_path_run_id candidate = Some run_id) candidates = [c'] /\ ownerless c' start finish
  | _ => False
  end.

Definition inspected_run (candidates : list DiscoveryCandidate) (c : DiscoveryCandidate) (start finish : nat) (r : CleanupInventoryRun) : Prop :=
  run_ok r /\ cr_path r = candidate_path c /\
  (is_protected r = false ->
   exists run_id from to, candidate_identity c = Some run_id /\ cr_run_id r = Some run_id /\
     (start <= from)%nat /\ (to <= finish)%nat /\ unowned candidates c run_id from to /\ lease_free (candidate_path c) from finish).

Lemma protected_inspected candidates c start finish reason detail bytes :
  (forall b, bytes = Some b -> 0 <= b <= int_max U64) ->
  inspected_run candidates c start finish (with_bytes (protected_candidate c reason detail) bytes).
Proof. intros Hb. split_and!; [|done|done]. by split. Qed.

Lemma protected_path_inspected candidates c start finish run_id reason detail bytes :
  (forall b, bytes = Some b -> 0 <= b <= int_max U64) ->
  inspected_run candidates c start finish (run_protected run_id (candidate_path c) bytes reason detail).
Proof. intros Hb. split_and!; [|done|done]. by apply run_protected_ok. Qed.

Lemma captured_run_spec run_id path bytes metadata now r later :
  0 <= bytes <= int_max U64 -> captured_run lease_probe run_id path bytes metadata now = Some (r, later) ->
  run_ok r /\ cr_path r = path /\ cr_run_id r = Some run_id /\ (is_protected r = false -> lease_free path now later).
Proof.
  intros Hb. unfold captured_run. destruct (UtcTimestamp_parse (am_started_at metadata)) as [started|].
  2:{ intros [-> _]%sys_ret_some. split_and!; [|done..]. apply run_protected_ok. by intros ? [= <-]. }
  destruct (parse_optional (am_ended_at metadata)) as [ended|].
  2:{ intros [-> _]%sys_ret_some. split_and!; [|done..]. apply run_protected_ok. by intros ? [= <-]. }
  intros H. run_sys H. apply sys_ret_some in H as [-> ->]. split_and!; [|done|done|].
  - split; [by intros ? [= <-]| |done]. intros _. split; [done|]. by destruct (am_clean_shutdown metadata && _).
  - destruct x; [|done|done]. intros _. exists now, t. by split_and!.
Qed.

Lemma open_target_spec c candidates path run_id now target later :
  open_target c candidates path run_id now = Some (Ok target, later) -> unowned candidates c run_id now later.
Proof.
  unfold open_target, unowned. destruct (dc_classification c); try done. intros H. run_sys H. apply sys_ret_some in H as [H ->].
  destruct x as [[client|archive]|error]; [done| |done].
  destruct (resolve_explicit_run_ok candidates run_id now _ _ Hm) as (c' & Hc & _ & Ho). by exists c'.
Qed.

Lemma resolve_explicit_run_advances candidates run_id : advances (resolve_explicit_run candidates run_id).
Proof.
  pose proof revalidate_advances. pose proof revalidate_stale_advances. pose proof open_candidate_archive_target_advances.
  unfold resolve_explicit_run, resolve_active, revalidate_for_use, open_candidate_archive. advance.
Qed.

Lemma open_target_advances c candidates path run_id : advances (open_target c candidates path run_id).
Proof. pose proof resolve_explicit_run_advances. unfold open_target, resolve_discovered_production. advance. Qed.

Lemma captured_run_advances run_id path bytes metadata : advances (captured_run lease_probe run_id path bytes metadata).
Proof. unfold captured_run. advance. Qed.

Lemma inspect_candidate_advances fuel c candidates : advances (inspect_candidate lease_probe fuel c candidates).
Proof.
  pose proof acquire_advances. pose proof apparent_advances. pose proof open_target_advances. pose proof captured_run_advances.
  unfold inspect_candidate. advance.
Qed.

Lemma inspect_candidate_spec fuel c candidates now r later :
  inspect_candidate lease_probe fuel c candidates now = Some (r, later) -> inspected_run candidates c now later r.
Proof.
  unfold inspect_candidate. intros H. run_sys H. pose proof (acquire_advances _ _ _ _ _ Hm) as Ha1. destruct x as [lease|error].
  2:{ apply sys_ret_some in H as [-> _]. by apply protected_path_inspected. }
  run_sys H. pose proof (apparent_advances _ _ _ _ _ Hm0) as Ha2. destruct x as [bytes|detail].
  2:{ apply sys_ret_some in H as [-> _]. by apply protected_path_inspected. }
  apply apparent_range in Hm0. assert (Hb : forall b, Some bytes = Some b -> 0 <= b <= int_max U64) by (by intros ? [= <-]).
  destruct (protection_for_classification (dc_classification c)) as [reason|].
  { apply sys_ret_some in H as [-> _]. by apply protected_inspected. }
  destruct (candidate_identity c) as [run_id|] eqn:Eid.
  2:{ apply sys_ret_some in H as [-> _]. by apply protected_inspected. }
  run_sys H. pose proof (open_target_advances _ _ _ _ _ _ _ Hm1) as Ha3. destruct x as [target|[reason detail]].
  2:{ apply sys_ret_some in H as [-> _]. by apply protected_path_inspected. }
  apply open_target_spec in Hm1. run_sys H. apply ask_some in Hm2 as [-> ->]. destruct (archive_capture target t1) as [metadata|error].
  2:{ apply sys_ret_some in H as [-> _]. by apply protected_path_inspected. }
  pose proof (captured_run_advances _ _ _ _ _ _ _ H) as Ha4. apply captured_run_spec in H as (Hok & Hpath & Hid & Hfree); [|done].
  split_and!; [done|done|]. intros Hp. exists run_id, t0, t1. split_and!; try done; try lia.
  destruct (Hfree Hp) as (call & end' & Hc & He & Hpr). exists call, end'. split_and!; [lia|done|done].
Qed.

Lemma inspected_run_weaken candidates c start finish start' finish' r :
  (start' <= start)%nat -> (finish <= finish')%nat ->
  inspected_run candidates c start finish r -> inspected_run candidates c start' finish' r.
Proof.
  intros Hs Hf (Hok & Hpath & H). split_and!; [done|done|]. intros Hp. destruct (H Hp) as (run_id & from & to & H1 & H2 & H3 & H4 & H5 & H6).
  exists run_id, from, to. split_and!; try done; try lia. destruct H6 as (call & end' & Hc & He & Hpr). exists call, end'. split_and!; [done|lia|done].
Qed.

Lemma inspect_all_spec fuel candidates inspected : forall now runs later,
  inspect_all lease_probe fuel inspected candidates now = Some (runs, later) ->
  (now <= later)%nat /\ Forall2 (fun c r => inspected_run candidates c now later r) inspected runs.
Proof.
  induction inspected as [|c inspected IH]; intros now runs later; cbn [inspect_all].
  - intros [-> ->]%sys_ret_some. split; [done|constructor].
  - intros H. run_sys H. apply sys_ret_some in H as [-> ->]. pose proof (inspect_candidate_advances _ _ _ _ _ _ Hm) as Ha.
    apply inspect_candidate_spec in Hm. apply IH in Hm0 as [Hle Hf]. split; [lia|]. constructor; [by apply (inspected_run_weaken _ _ now t)|].
    eapply Forall2_impl; [exact Hf|]. intros d r. by apply (inspected_run_weaken _ _ t t0).
Qed.

(** ** The preview of a production *)

(** What the discovery says of a candidate whoever looks at it. *)
Lemma discovered_candidate root start candidates finish c :
  lists_once -> discover_with root start = Some (Ok candidates, finish) -> c ∈ candidates ->
  candidate_identity c = dc_path_run_id c /\
  (dc_classification c = Candidate_Completed \/ dc_classification c = Candidate_Incomplete -> dc_source c = Source_Archive).
Proof.
  intros Hlaw Hd Hc. destruct (discovery_parts root start candidates finish Hlaw Hd) as (runs & instances & la & li & Hla & Hli & Hin).
  apply Hin in Hc as [Hc|Hc]; apply list_elem_of_lookup in Hc as [i Hi].
  - destruct (Forall2_lookup_r _ _ _ _ _ Hla Hi) as (path & _ & (Hs & _ & _ & Hid & H)). unfold candidate_identity. rewrite Hid.
    destruct (archive_path_run_id path) as [run_id|].
    + destruct H as (_ & _ & _ & _ & trusted & _ & _ & _ & ->). by destruct trusted.
    + destruct H as (_ & -> & _). done.
  - destruct (Forall2_lookup_r _ _ _ _ _ Hli Hi) as (path & _ & (Hs & _ & Hid & H)). unfold candidate_identity. rewrite Hid.
    destruct (dc_registry_entry c) as [entry|].
    + destruct H as (run_id & snapshot & from & to & -> & -> & _ & _ & _ & _ & _ & _ & _ & Hw). split; [done|].
      by intros [Hcl|Hcl]; rewrite Hcl in Hw.
    + destruct H as [-> Hcl]. split; [done|]. intros [Hc'|Hc']; destruct Hcl; congruence.
Qed.

Lemma unowned_ownerless root start candidates finish c run_id from to :
  lists_once -> discover_with root start = Some (Ok candidates, finish) -> c ∈ candidates ->
  candidate_identity c = Some run_id -> unowned candidates c run_id from to -> ownerless c from to.
Proof.
  intros Hlaw Hd Hc Hid Hu. destruct (discovered_candidate _ _ _ _ _ Hlaw Hd Hc) as [Hsame Hsource]. rewrite Hid in Hsame.
  unfold unowned in Hu. destruct (dc_classification c) eqn:Ec; try done.
  - destruct Hu as (c' & Hf & Ho). assert (Hin : c ∈ filter (fun candidate => dc_path_run_id candidate = Some run_id) candidates)
      by (by apply list_elem_of_filter). rewrite Hf in Hin. by apply list_elem_of_singleton in Hin as ->.
  - unfold ownerless. rewrite Hsource by auto. auto.
  - unfold ownerless. rewrite Hsource by auto. auto.
Qed.

(** The runs that the policy is applied to. *)
Lemma inventory_runs fuel policy candidates now inspected_runs middle runs :
  inspect_all lease_probe fuel (List.filter (is_inspected (requested policy)) candidates) candidates now = Some (inspected_runs, middle) ->
  missing_run policy candidates inspected_runs = Ok runs -> list_len candidates <= int_max U64 ->
  Forall run_ok runs /\ list_len runs <= int_max U64 /\
  Forall (fun r => is_protected r = false -> exists c, c ∈ candidates /\ dc_archive_present c = true /\ inspected_run candidates c now middle r) runs.
Proof.
  intros Hi Hm Hl. apply inspect_all_spec in Hi as [_ Hf]. unfold missing_run in Hm.
  assert (Hcase : runs = inspected_runs \/ exists c detail, runs = [protected_candidate c Protected_MissingArchive detail]).
  { destruct (requested policy) as [run_id|]; [|left; congruence]. destruct inspected_runs; [|left; congruence].
    destruct (List.find _ candidates) as [c|]; [|done]. injection Hm as <-. right. by eexists _, _. }
  destruct Hcase as [->|(c & detail & ->)].
  - split_and!.
    + apply Forall_forall. intros r [i Hr]%list_elem_of_lookup. destruct (Forall2_lookup_r _ _ _ _ _ Hf Hr) as (c & _ & Hok & _). done.
    + etransitivity; [|exact Hl]. unfold list_len. rewrite <- (Forall2_length _ _ _ Hf). apply Nat2Z.inj_le, filter_length_le.
    + apply Forall_forall. intros r [i Hr]%list_elem_of_lookup _. destruct (Forall2_lookup_r _ _ _ _ _ Hf Hr) as (c & Hc & Hins).
      apply list_elem_of_lookup_2, list_elem_of_In, filter_In in Hc as [Hc Hp]. exists c. split; [by apply list_elem_of_In|].
      split; [|done]. unfold is_inspected in Hp. by apply andb_prop in Hp as [? _].
  - split_and!; [|vm_compute; discriminate|].
    + apply Forall_singleton, run_protected_ok. done.
    + by apply Forall_singleton.
Qed.

(** C30: a cleanup spares the living: every run that a preview selects is the
    archive of a candidate of the discovery it is based on; the archive had no
    instance, or the owner of its instance was seen gone again, after the
    discovery, behind a locator that had not changed; and afterwards its cleanup
    lease was free. *)
Theorem cleanup_spares_the_living fuel production policy system_time start preview finish :
  lists_once -> policy_ok policy ->
  (forall candidates middle, discover_with production start = Some (Ok candidates, middle) -> list_len candidates <= int_max U64) ->
  preview_canonical_with lease_probe fuel production policy system_time start = Some (Ok preview, finish) ->
  exists candidates middle, discover_with production start = Some (Ok candidates, middle) /\
    Forall (fun r => cr_selected r = true ->
      exists c run_id from to, c ∈ candidates /\ dc_archive_present c = true /\ candidate_identity c = Some run_id /\
        cr_run_id r = Some run_id /\ cr_path r = candidate_path c /\ (middle <= from)%nat /\ (to <= finish)%nat /\
        ownerless c from to /\ lease_free (candidate_path c) from finish) (pv_runs preview).
Proof.
  intros Hlaw Hp Hlen H. unfold preview_canonical_with in H. run_sys H. apply sys_map_err_ok in Hm. apply sys_ret_some in Hm1 as [Hmissing ->].
  symmetry in Hmissing. unfold sys_expect in H. destruct (select_preview _ _ _ _ _) as [selected|] eqn:Es; [|done]. injection H as -> <-.
  exists x, t. split; [done|].
  match type of Hm0 with inspect_all _ _ _ _ _ = Some (_, ?later) => rename later into middle end.
  destruct (inventory_runs _ _ _ _ _ _ _ Hm0 Hmissing (Hlen _ _ Hm)) as (Hok & Hl & Horigin).
  destruct (select_preview_some _ _ _ _ _ _ Hp Hl Hok Es) as (sorted & Hperm & Hok' & ->). cbn [pv_runs preview_of].
  destruct (policy_marks_deletable policy (from_system_time system_time) sorted Hok') as [Hsame Hdel].
  rewrite Forall_forall in Horigin. apply Forall_forall. intros r Hr Hsel.
  rewrite Forall_forall in Hdel. destruct (Hdel r Hr) as [Hd _]. destruct (Hd Hsel) as (Hnp & _).
  apply list_elem_of_lookup in Hr as [i Hr]. destruct (Forall2_lookup_r _ _ _ _ _ Hsame Hr) as (r0 & Hr0 & (E1 & E2 & _ & _ & _ & _ & _ & E3 & _)).
  assert (Hin : r0 ∈ sorted).
  { apply list_elem_of_lookup_2 in Hr0. destruct policy; try done. by apply list_elem_of_filter in Hr0 as [_ ?]. }
  rewrite Hperm in Hin. assert (Hnp0 : is_protected r0 = false) by (unfold is_protected in *; by rewrite <- E3).
  destruct (Horigin r0 Hin Hnp0) as (c & Hc & Hpresent & (_ & Hpath & Hun)). destruct (Hun Hnp0) as (run_id & from & to & Hid & Hrid & Hfrom & Hto & Hu & Hfree).
  exists c, run_id, from, to. split_and!; try done; [congruence|congruence|]. by eapply unowned_ownerless.
Qed.

End Inspection.
