(* ===== verification/InventoryLive.v ===== *)
(** * A preview returns

    The scans of archives that nobody changes end, and no answer of the host makes
    the discovery, the resolution or the preview of a cleanup panic, but for one:
    an entry that advertises the longest URI without a path, which the code makes
    longer than a URI may be. *)

From S2P Require Import Prelude Files Text Wire Order Timestamp Cleanup CleanupSpec Event Store Process Host Lease Registry Discovery DiscoverySpec Resolver ResolverSpec Inventory InventorySpec.

(** The longest URI that [hyper::Uri] parses. *)
Definition MAX_URI_BYTES : Z := 65534.

(** The text after the first [://], if there is one. *)
Definition after_scheme (value : string) : option (list ascii) := after_first (bytes "://") (bytes value).

(** What the libraries promise of URLs: the deserialiser of an entry parses them; a
    URI is not longer than the parser allows; and an absolute URI, with an
    authority and neither path, query nor fragment, may end in a slash if that
    leaves it short enough. *)
Record UrlLaws `{host : RegistryHost} : Prop := {
  wire_urls : forall text wire url, entry_wire text = Ok wire -> rw_advertise_url wire = Some url ->
    exists value, WebBaseUrl_parse value = Some (Ok url);
  uri_cap : forall value, MAX_URI_BYTES < str_len value -> uri_parse value = None;
  uri_slash : forall value uri rest, uri_parse value = Some uri ->
    is_Some (uri_scheme_str uri) -> is_Some (uri_authority uri) -> uri_query uri = None -> contains_char "#" value = false ->
    after_scheme value = Some rest -> "/"%char ∉ rest -> str_len value < MAX_URI_BYTES -> is_Some (uri_parse (value +:+ "/"));
}.

(** No file that is read holds an entry that advertises a URL longer than a URI
    may be: the slash that [WebBaseUrl_parse] adds makes such a URL of the longest
    URI without a path. *)
Definition short_urls `{host : RegistryHost} : Prop :=
  forall file call content wire url, os_read file call = Ok content -> entry_wire content = Ok wire ->
    rw_advertise_url wire = Some url -> str_len (url_text url) <= MAX_URI_BYTES.

Lemma str_len_slash value : str_len (value +:+ "/") = str_len value + 1.
Proof. by rewrite !str_len_bytes, bytes_app, list_len_app. Qed.

Section Discovery.
Context {host : RegistryHost} (urls : UrlLaws).

(** An accepted URL is a URI, unless it became too long. *)
Lemma WebBaseUrl_parse_uri value url :
  WebBaseUrl_parse value = Some (Ok url) -> str_len (url_text url) <= MAX_URI_BYTES -> is_Some (uri_parse (url_text url)).
Proof.
  unfold WebBaseUrl_parse. destruct (_ || contains_char "#" value || _) eqn:E1; [done|].
  destruct (uri_parse value) as [uri|] eqn:Eu; [|done]. destruct (_ || _ || _ || _ || _) eqn:E2; [done|].
  destruct (existsb _ (split_slash [] _)); [done|]. fold (after_scheme value).
  destruct (after_scheme value) as [rest|] eqn:Er; [|done]. intros [= <-]. cbn [url_text]. destruct (bool_decide ("/"%char ∈ rest)) eqn:Hr; cbn [negb];
    [intros _; by exists uri|]. apply bool_decide_eq_false in Hr.
  apply orb_false_iff in E1 as [[_ Ehash]%orb_false_iff _]. apply orb_false_iff in E2 as [[[[E2 E3]%orb_false_iff _]%orb_false_iff E4]%orb_false_iff _].
  apply negb_false_iff, bool_decide_eq_true in E2, E4. apply bool_decide_eq_false in E3. rewrite str_len_slash. intros Hlen.
  eapply (uri_slash urls); try done; [|by destruct (uri_authority uri)|lia].
  rewrite elem_of_cons, list_elem_of_singleton in E2. destruct E2 as [->| ->]; by eexists.
Qed.

(** The longest URI without a path is accepted as a URL that is not a URI. *)
Lemma accepted_url_too_long value url rest :
  WebBaseUrl_parse value = Some (Ok url) -> after_scheme value = Some rest -> "/"%char ∉ rest -> str_len value = MAX_URI_BYTES ->
  uri_parse (url_text url) = None.
Proof.
  unfold WebBaseUrl_parse. fold (after_scheme value). intros Hparse Hr Hn Hlen. apply (uri_cap urls). revert Hparse.
  destruct (_ || contains_char "#" value || _); [done|]. destruct (uri_parse value) as [uri|]; [|done].
  destruct (_ || _ || _ || _ || _); [done|]. destruct (existsb _ (split_slash [] _)); [done|]. rewrite Hr. intros [= <-].
  cbn [url_text]. rewrite bool_decide_false by done. cbn [negb]. rewrite str_len_slash. unfold MAX_URI_BYTES in *. lia.
Qed.

(** The discovery of an entry that advertises it panics. *)
Lemma long_url_panics entry url value rest :
  re_advertise_url entry = Some url -> WebBaseUrl_parse value = Some (Ok url) -> after_scheme value = Some rest ->
  "/"%char ∉ rest -> str_len value = MAX_URI_BYTES -> registry_base_path entry = None.
Proof.
  intros Hu Hp Hr Hn Hl. unfold registry_base_path. rewrite Hu. by rewrite (accepted_url_too_long value url rest).
Qed.

(** A local endpoint has a scheme. *)
Lemma derive_local_endpoint_returns bind : is_Some (derive_local_endpoint bind).
Proof.
  unfold derive_local_endpoint, WebBaseUrl_parse. destruct (_ || _ || _); [by eexists|]. destruct (uri_parse _); [|by eexists].
  destruct (_ || _ || _ || _ || _); [by eexists|]. destruct (existsb _ _); [by eexists|]. by eexists.
Qed.

Lemma decode_registry_entry_returns path text : is_Some (decode_registry_entry path text).
Proof.
  unfold decode_registry_entry. destruct (decode_entry_wire path text) as [wire|]; [|by eexists].
  unfold RegistryEntry_from_decoded. destruct (BindEndpoint_new _ _) as [bind|]; [|by eexists].
  unfold RegistryEntry_new. destruct (Registry.validate_run_directory _ _); [|by eexists]. destruct (_ =? 0); [by eexists|].
  destruct (validate_started_at _); [|by eexists]. destruct (derive_local_endpoint_returns bind) as [endpoint ->]. by eexists.
Qed.

Context (short : short_urls).

(** A text of which the URL is short. *)
Definition short_entry (text : string) : Prop :=
  forall wire url, entry_wire text = Ok wire -> rw_advertise_url wire = Some url -> str_len (url_text url) <= MAX_URI_BYTES.

Lemma decode_registry_entry_url path text entry url :
  short_entry text -> decode_registry_entry path text = Some (Ok entry) -> re_advertise_url entry = Some url -> is_Some (uri_parse (url_text url)).
Proof.
  intros Hshort. unfold decode_registry_entry. destruct (decode_entry_wire path text) as [wire|] eqn:Ew; [|done]. intros Hd Hu.
  assert (Hwire : entry_wire text = Ok wire /\ re_advertise_url entry = rw_advertise_url wire).
  { split.
    - clear -Ew. unfold decode_entry_wire in Ew. destruct (entry_envelope text); [|done]. cbn [map_err result_bind] in Ew.
      repeat (case_match; try done). destruct (entry_wire text) as [wire0|]; [|done]. cbn [map_err result_bind] in Ew.
      repeat (case_match; try done). congruence.
    - clear -Hd. unfold RegistryEntry_from_decoded in Hd. destruct (BindEndpoint_new _ _) as [bind|]; [|done].
      unfold RegistryEntry_new in Hd. destruct (Registry.validate_run_directory _ _); [|done]. destruct (_ =? 0); [done|].
      destruct (validate_started_at _); [|done]. destruct (derive_local_endpoint bind) as [[endpoint|]|]; [|done..].
      cbn [mbind option_bind result_bind] in Hd. repeat (case_match; try done). by injection Hd as <-. }
  destruct Hwire as [Hwire E]. rewrite E in Hu. destruct (wire_urls urls _ _ _ Hwire Hu) as [value Hv].
  eapply WebBaseUrl_parse_uri; [done|]. by eapply Hshort.
Qed.

(** The advertised URL of an entry is a URI. *)
Definition entry_url_ok (entry : RegistryEntry) : Prop :=
  forall url, re_advertise_url entry = Some url -> is_Some (uri_parse (url_text url)).

Lemma classify_server_identity_returns entry text : entry_url_ok entry -> is_Some (classify_server_identity entry text).
Proof.
  intros Hurl. assert (Hb : is_Some (registry_base_path entry)).
  { unfold registry_base_path. destruct (re_advertise_url entry) as [url|] eqn:Eu; [|by eexists]. destruct (Hurl url Eu) as [uri ->]. by eexists. }
  destruct Hb as [base Hb]. unfold classify_server_identity. destruct (decode_server_identity text); [|by eexists].
  rewrite Hb. cbn [mbind option_bind]. repeat case_match; by eexists.
Qed.

Lemma classify_registry_entry_returns entry : entry_url_ok entry -> returns (classify_registry_entry entry).
Proof. intros Hurl. pose proof (fun text => classify_server_identity_returns entry text Hurl). unfold classify_registry_entry. return_all. Qed.

Lemma acquire_returns run_directory mode : returns (acquire run_directory mode).
Proof.
  unfold acquire, Lease.validate_run_directory, open_anchor, secure_and_revalidate_anchor, revalidate_locked_anchor,
    verify_path_identity, inspect_anchor, handle_metadata. return_all.
Qed.

Lemma read_registry_snapshot_returns path : returns (read_registry_snapshot path).
Proof. unfold read_registry_snapshot. return_all. Qed.

(** What is read of an entry is the content of a file. *)
Lemma read_registry_snapshot_content path now snapshot later :
  read_registry_snapshot path now = Some (Ok snapshot, later) -> exists file call, os_read file call = Ok (rs_bytes snapshot).
Proof.
  unfold read_registry_snapshot. intros H. run_sys H. destruct (negb (is_file _)); [by apply sys_ret_some in H as [? _]|].
  run_sys H. destruct (_ || _); [by apply sys_ret_some in H as [? _]|]. run_sys H.
  match goal with Hm : sys_map_err _ (ask (os_read ?file)) ?call = Some (Ok ?content, _) |- _ =>
    apply sys_map_err_ok in Hm; injection Hm as Hm _; rename content into text; exists file, call; rewrite Hm end.
  destruct (Z.ltb_spec MAX_REGISTRY_ENTRY_BYTES (str_len (of_bytes (take (Z.to_nat (MAX_REGISTRY_ENTRY_BYTES + 1)) (bytes text))))) as [?|Hle];
    [by apply sys_ret_some in H as [? _]|].
  run_sys H. destruct (_ || _); [by apply sys_ret_some in H as [? _]|]. apply sys_ret_some in H as [[= ->] _]. cbn [rs_bytes].
  f_equal. rewrite str_len_bytes, bytes_of_bytes in Hle. unfold list_len in Hle. rewrite length_take in Hle.
  rewrite take_ge, of_bytes_bytes; [done|]. unfold MAX_REGISTRY_ENTRY_BYTES in *. lia.
Qed.

Lemma scan_namespace_returns path : returns (scan_namespace path).
Proof. unfold scan_namespace. return_all. Qed.

Lemma classify_archive_returns run_directory run_id : returns (classify_archive run_directory run_id).
Proof. pose proof acquire_returns. unfold classify_archive. return_all. Qed.

Lemma scan_archive_paths_returns paths : forall untrusted archives, returns (scan_archive_paths paths untrusted archives).
Proof.
  pose proof classify_archive_returns. induction paths as [|path paths IH]; intros untrusted archives; cbn [scan_archive_paths]; [apply returns_ret|].
  return_all; apply IH.
Qed.

Lemma short_snapshot path now snapshot later :
  read_registry_snapshot path now = Some (Ok snapshot, later) -> short_entry (rs_bytes snapshot).
Proof. intros (file & call & Hread)%read_registry_snapshot_content wire url. by apply (short file call). Qed.

(** What follows the decoding of an entry knows its URL. *)
Lemma returns_decode {A} path text (k : result RegistryEntry RegistryCodecError -> Sys A) :
  short_entry text -> (forall error, returns (k (Err error))) -> (forall entry, entry_url_ok entry -> returns (k (Ok entry))) ->
  returns (sys_bind (sys_expect (decode_registry_entry path text)) k).
Proof.
  intros Hshort Herr Hok now. apply returns_bind_with; [apply returns_expect, decode_registry_entry_returns|].
  intros [entry|error] later [E _]%sys_expect_some; [|apply Herr]. apply Hok. intros url. by apply (decode_registry_entry_url path text).
Qed.

Lemma classify_instance_returns path runs archives : returns (classify_instance path runs archives).
Proof.
  pose proof read_registry_snapshot_returns. unfold classify_instance. destruct (registry_path_run_id path); [|apply returns_ret].
  destruct (btree_remove _ archives). intros now. apply returns_bind_with; [apply H|].
  intros [snapshot|error] later Hread; [|apply returns_ret].
  apply returns_decode; [by eapply short_snapshot|intros; apply returns_ret|]. intros entry Hurl. pose proof (classify_registry_entry_returns entry Hurl). return_all.
Qed.

Lemma classify_instances_returns paths runs : forall archives candidates, returns (classify_instances paths runs archives candidates).
Proof.
  pose proof classify_instance_returns.
  induction paths as [|path paths IH]; intros archives candidates; cbn [classify_instances]; [apply returns_ret|]. return_all.
Qed.

Lemma discover_with_returns root : returns (discover_with root).
Proof.
  pose proof scan_namespace_returns. pose proof scan_archive_paths_returns. pose proof classify_instances_returns.
  unfold discover_with, scan_archives. return_all.
Qed.

Lemma revalidate_returns candidate purpose : returns (revalidate candidate purpose).
Proof.
  pose proof read_registry_snapshot_returns. unfold revalidate. case_bool_decide; [apply returns_ret|].
  destruct (dc_registry_snapshot candidate); [|apply returns_ret]. destruct (dc_registry_entry candidate); [|apply returns_ret].
  intros now. apply returns_bind_with; [apply H|]. intros [snapshot|error] later Hread; [|apply returns_ret]. case_bool_decide; [apply returns_ret|].
  apply returns_decode; [by eapply short_snapshot|intros; apply returns_ret|]. intros entry Hurl. pose proof (classify_registry_entry_returns entry Hurl). return_all.
Qed.

End Discovery.

Section Preview.
Context {host : ResolverHost} (urls : UrlLaws) (short : short_urls).

Lemma revalidate_stale_returns candidate : returns (revalidate_stale candidate).
Proof. pose proof (revalidate_returns urls short). unfold revalidate_stale, revalidate_for_cleanup. return_all. Qed.

Lemma open_candidate_archive_target_returns candidate run_id : returns (open_candidate_archive_target candidate run_id).
Proof. unfold open_candidate_archive_target. return_all. Qed.

Lemma revalidate_all_returns stale : returns (revalidate_all stale).
Proof.
  pose proof revalidate_stale_returns. induction stale as [|candidate stale IH]; cbn [revalidate_all]; [apply returns_ret|]. return_all.
Qed.

Lemma open_all_returns archives : forall opened first_error, returns (open_all archives opened first_error).
Proof.
  pose proof open_candidate_archive_target_returns.
  induction archives as [|candidate archives IH]; intros opened first_error; cbn [open_all]; [apply returns_ret|].
  return_all; apply IH.
Qed.

(** A resolution returns, whatever the host answers. *)
Lemma resolve_discovered_production_returns candidates requested : returns (resolve_discovered_production candidates requested).
Proof.
  pose proof (revalidate_returns urls short). pose proof revalidate_stale_returns. pose proof open_candidate_archive_target_returns.
  pose proof revalidate_all_returns. pose proof open_all_returns.
  unfold resolve_discovered_production, resolve_explicit_run, resolve_implicit_run, resolve_active, revalidate_for_use, open_candidate_archive.
  return_all.
Qed.

Context (lease_probe : PathBuf -> Sys CleanupLeaseAvailability).

(** Nobody changes the archive of a candidate, and the scan has as many turns as it has nodes. *)
Definition scannable (fuel : nat) (c : DiscoveryCandidate) : Prop :=
  exists tree, shows host_fs (candidate_path c) tree /\ sizes_nonneg tree /\ (tree_nodes tree <= fuel)%nat.

Lemma inspect_candidate_returns fuel c candidates :
  (forall path, returns (lease_probe path)) -> scannable fuel c -> returns (inspect_candidate lease_probe fuel c candidates).
Proof.
  intros Hprobe (tree & Hs & Hn & Hf). pose proof acquire_returns. pose proof resolve_discovered_production_returns.
  assert (Hcount : returns (apparent_regular_file_bytes fuel (candidate_path c))).
  { intros now. destruct (apparent_bytes_shown _ _ _ now Hs Hn Hf) as (r & later & E & _). by exists r, later. }
  assert (Hcapture : forall run_id path bytes metadata, returns (captured_run lease_probe run_id path bytes metadata))
    by (intros; unfold captured_run; return_all).
  unfold inspect_candidate. apply returns_bind; [done|]. intros [lease|error]; [|apply returns_ret].
  apply returns_bind; [done|]. intros [bytes|detail]; [|apply returns_ret].
  destruct (protection_for_classification (dc_classification c)) eqn:Ep; [apply returns_ret|].
  destruct (candidate_identity c) as [run_id|]; [|apply returns_ret].
  apply returns_bind; [|return_all]. unfold open_target. destruct (dc_classification c); try done; return_all.
Qed.

Lemma inspect_all_returns fuel inspected candidates :
  (forall path, returns (lease_probe path)) -> Forall (scannable fuel) inspected -> returns (inspect_all lease_probe fuel inspected candidates).
Proof.
  intros Hprobe. induction 1 as [|c inspected Hc _ IH]; cbn [inspect_all]; [apply returns_ret|].
  apply returns_bind; [by apply inspect_candidate_returns|]. return_all.
Qed.

(** C34: a preview returns: whatever the host answers, and however its processes come
    and go meanwhile, the discovery, the resolution of stale runs and the policy end
    with a preview or an error, without a panic, if nobody changes the archives
    while they are counted and no entry that is read advertises a URL of more than
    65,534 bytes, of which [long_url_panics] shows the panic. *)
Theorem cleanup_preview_returns fuel production policy system_time start :
  (forall path, advances (lease_probe path)) -> (forall path, returns (lease_probe path)) -> policy_ok policy ->
  (forall candidates middle, discover_with production start = Some (Ok candidates, middle) ->
     list_len candidates <= int_max U64 /\ forall c, c ∈ candidates -> dc_archive_present c = true -> scannable fuel c) ->
  exists answer finish, preview_canonical_with lease_probe fuel production policy system_time start = Some (answer, finish).
Proof.
  intros Hadv Hprobe Hp Hc. unfold preview_canonical_with, sys_try. apply returns_bind_with.
  { apply returns_map_err, discover_with_returns; [apply urls|apply short]. }
  intros [candidates|error] middle Hd; [|apply returns_ret]. apply sys_map_err_ok in Hd. destruct (Hc _ _ Hd) as [Hl Hscan].
  apply returns_bind_with.
  { apply inspect_all_returns; [done|]. apply Forall_forall. intros c [Hin Hi]%list_elem_of_In%filter_In. apply Hscan; [by apply list_elem_of_In|].
    unfold is_inspected in Hi. by apply andb_prop in Hi as [? _]. }
  intros runs later Hi. apply returns_bind_with; [apply returns_ret|].
  intros [all|error] end' [Hm ->]%sys_ret_some; [|apply returns_ret].
  destruct (inventory_runs lease_probe Hadv _ _ _ _ _ _ _ Hi (eq_sym Hm) Hl) as (Hok & Hlen & _).
  apply returns_expect. rewrite select_preview_spec by done. repeat case_match; by eexists.
Qed.

End Preview.
