(* ===== verification/HostSample.v ===== *)
(** * A production on a host

    A host with one production of two runs: the owner of the first is gone, and the
    second was completed.  The theorems of the discovery, the resolution and the
    cleanup hold of it. *)

From Stdlib Require Import Sorted.
From S2P Require Import Prelude Files Text Wire Order Timestamp Cleanup CleanupSpec Event Store Process Host Lease Registry Discovery DiscoverySpec Resolver ResolverSpec Inventory InventorySpec InventoryLive.

Definition production : PathBuf := mkPath true ["p"].
Definition production_runs : PathBuf := mkPath true ["p"; ".troupe"; "diagnostics"; "runs"].
Definition production_instances : PathBuf := mkPath true ["p"; ".troupe"; "diagnostics"; "instances"].

Definition sample_parse (text : string) : option Z :=
  if bool_decide (text = "1") then Some 1 else if bool_decide (text = "2") then Some 2 else None.

Definition sample_node (path : PathBuf) : Metadata :=
  match last (path_components path) with
  | Some name =>
      if bool_decide (name ∈ ["diagnostics.sqlite3"; "diagnostics.lease"; "1.json"]) then mkMetadata FileType_File 100 1 5
      else mkMetadata FileType_Dir 0 1 4
  | None => mkMetadata FileType_Dir 0 1 4
  end.

Definition sample_entries (path : PathBuf) : list string :=
  match last (path_components path) with
  | Some name =>
      if bool_decide (name = "runs") then ["2"; "1"]
      else if bool_decide (name = "instances") then ["1.json"]
      else ["diagnostics.sqlite3"; "diagnostics.lease"]
  | None => []
  end.

Definition production_os : Os := {|
  os_symlink_metadata path _ := Ok (sample_node path);
  os_path_mode _ _ := 384;
  os_read_dir path _ := Ok (map Ok (sample_entries path));
  os_open _ _ _ now := Ok (Z.of_nat now);
  os_handle_metadata _ _ := Ok (mkMetadata FileType_File 100 1 5);
  os_handle_mode _ _ := 384;
  os_set_permissions _ _ _ := Ok tt;
  os_read _ _ := Ok "entry";
  os_try_lock _ _ _ := Lock_Granted;
|}.

Definition sample_wire : RegistryEntryWire :=
  mkEntryWire 1 1 (mkCanonicalUuid 1) "/p/.troupe/diagnostics/runs/1" 42 (mkProcessIdentity "linux-proc-v1:a:7") "127.0.0.1" 8080
    (mkWebBaseUrl "http://127.0.0.1:8080/") (Some (mkWebBaseUrl "http://host/")) Scope_TrustedNetwork "2024-01-02T03:04:05Z".

Definition sample_row (run_id : string) : ArchiveRow :=
  mkArchiveRow STORE_SCHEMA_VERSION STORE_SCHEMA_IDENTITY EVENT_SCHEMA_VERSION run_id "2024-01-02T03:04:05Z"
    (Some "2024-01-02T03:05:05Z") (Some "completed") 1.

Definition production_registry : RegistryHost := {|
  registry_os := production_os;
  uuid_parse_str := sample_parse;
  uuid_hyphenated := sample_uuid;
  entry_envelope _ := Ok 1;
  entry_wire _ := Ok sample_wire;
  identity_envelope _ := Err "unused";
  identity_wire _ := Err "unused";
  ip_parse text := if bool_decide (text = "127.0.0.1") then Some LOCALHOST_V4 else None;
  ip_to_string _ := "127.0.0.1";
  uri_parse value := if MAX_URI_BYTES <? str_len value then None else Some (mkUri (Some "http") (Some "127.0.0.1:8080") (Some "127.0.0.1") "/" None);
  observe _ _ := Observed_DefinitelyGone;
  probe_identity _ _ := Err "unreachable";
  open_immutable_read_only path _ :=
    Ok (if bool_decide (path = join_path (join_path production_runs "1") "diagnostics.sqlite3") then 1 else 2);
  set_query_only _ _ := Ok tt;
  is_readonly _ _ := true;
  user_version _ _ := Ok STORE_SCHEMA_VERSION;
  query_run_metadata connection _ := Ok (sample_row (sample_uuid connection));
|}.

Definition production_host : ResolverHost := {|
  resolver_registry := production_registry;
  client_from_validated_registry_entry _ := Err ("unused", "unused");
  archive_open_expected _ run_id _ := Ok (as_uuid run_id);
  archive_capture _ _ := Ok (mkArchiveMetadata "2024-01-02T03:04:05Z" (Some "2024-01-02T03:05:05Z") true);
|}.

Lemma production_lists_once : lists_once (host := production_registry).
Proof.
  intros path call names. cbn. unfold sample_entries. intros [= H].
  assert (Hn : map (@Ok string IoError) names = map Ok (sample_entries path) -> names = sample_entries path).
  { intros E. revert E. generalize (sample_entries path). clear. induction names as [|x l IH]; intros [|y k]; cbn; try done.
    intros [= -> E]. by rewrite (IH k E). }
  rewrite (Hn (eq_sym H)). unfold sample_entries. clear. destruct (last _) as [name|]; [|constructor].
  repeat case_bool_decide; apply (bool_decide_eq_true_1 (NoDup _)); reflexivity.
Qed.

Definition sample_candidates : list DiscoveryCandidate :=
  match discover_with (host := production_registry) production 0%nat with Some (Ok candidates, _) => candidates | _ => [] end.

Lemma production_discovered : exists finish,
  discover_with (host := production_registry) production 0%nat = Some (Ok sample_candidates, finish) /\
  map dc_classification sample_candidates = [Candidate_DefiniteStale; Candidate_Completed].
Proof. eexists. split; vm_compute; reflexivity. Qed.

(** The first run is found by its instance and the second by its archive. *)
Lemma discovery_exact_witness :
  exists (runs listed : list PathBuf) found_archives found_instances,
    let instances := List.filter has_json_extension listed in
    sample_candidates ≡ₚ filter (unclaimed (host := production_registry) instances) found_archives ++ found_instances /\
    Forall (owns_archive (keyed found_archives)) found_instances /\
    length (filter (unclaimed (host := production_registry) instances) found_archives ++ found_instances) = 2%nat /\
    StronglySorted (fun x y => candidate_cmp x y <> Gt) sample_candidates /\ length runs = length found_archives.
Proof.
  destruct production_discovered as (finish & Hd & Hc).
  destruct (discovery_exact (host := production_registry) production 0%nat sample_candidates finish production_lists_once Hd)
    as (runs & listed & la & li & _ & _ & Hruns & _ & Hperm & Howns & Hsorted).
  exists runs, listed, la, li. split; [exact Hperm|]. split; [exact Howns|].
  split; [|split; [exact Hsorted|exact (Forall2_length _ _ _ Hruns)]].
  rewrite <- (Permutation_length Hperm). apply (f_equal length) in Hc. rewrite length_map in Hc. exact Hc.
Defined.

(** The archive of the run whose owner is gone is opened, after it was looked at again. *)
Lemma resolution_sound_witness :
  exists candidate later, resolve_discovered_production (host := production_host) sample_candidates (Some (mkCanonicalUuid 1)) 40%nat =
    Some (Ok (Resolved_Archive 1), later) /\
    filter (fun candidate => dc_path_run_id candidate = Some (mkCanonicalUuid 1)) sample_candidates = [candidate] /\
    exists from, (40 <= from)%nat /\ ownerless (host := production_host) candidate from later.
Proof.
  assert (Hr : exists later, resolve_discovered_production (host := production_host) sample_candidates (Some (mkCanonicalUuid 1)) 40%nat =
    Some (Ok (Resolved_Archive 1), later)) by (eexists; vm_compute; reflexivity).
  destruct Hr as [later Hr].
  destruct (resolution_sound (host := production_host) _ _ _ _ _ Hr) as (c & _ & Hc & run_id & from & _ & _ & _ & Ho).
  exists c, later. split; [exact Hr|]. split; [exact Hc|exact Ho].
Defined.

(** The directory of a run. *)
Definition sample_archive : Node :=
  Directory (Entry "diagnostics.lease" (Regular 100) (Entry "diagnostics.sqlite3" (Regular 100) NoEntry)).

Lemma sample_archive_shown name :
  name ∈ ["1"; "2"] -> shows (host_fs (host := production_host)) (join_path production_runs name) sample_archive.
Proof.
  intros Hname. rewrite !elem_of_cons in Hname; destruct Hname as [->|[->|[]%not_elem_of_nil]].
  all: cbn [sample_archive shows shows_entries entry_names]; split_and!; try done.
  all: first
    [ exists 1, 4; intros call; by exists 0
    | intros call; exists ["diagnostics.sqlite3"; "diagnostics.lease"]; split; [reflexivity|apply Permutation_swap]
    | intros call; by exists 1, 5
    | repeat constructor ].
Qed.

Lemma apparent_bytes_exact_witness :
  exists later, apparent_regular_file_bytes (host := production_host) 3%nat (join_path production_runs "2") 7%nat = Some (Ok 200, later).
Proof.
  destruct (apparent_bytes_exact (host := production_host) (join_path production_runs "2") sample_archive 3%nat 7%nat
    (sample_archive_shown "2" ltac:(apply list_elem_of_further, list_elem_of_here))
    ltac:(cbn; lia) ltac:(cbn; lia)) as (r & later & E & Hr).
  exists later. rewrite E. rewrite (proj2 (Hr 200)); [reflexivity|]. split; [exact I|]. split; [cbn; done|]. split; [reflexivity|vm_compute; discriminate].
Defined.

(** Both runs are older than a day. *)
Definition sample_preview : option (result CleanupPreview CleanupPolicyError * nat) :=
  preview_canonical_with (host := production_host) (real_lease_probe (host := production_host)) 3%nat production
    (Spec_OlderThan (86400 * NANOS)) (1800000000 * NANOS) 0%nat.

Lemma sample_discovered candidates middle :
  discover_with (host := production_registry) production 0%nat = Some (Ok candidates, middle) -> list_len candidates <= int_max U64.
Proof.
  destruct production_discovered as (finish & -> & Hc). intros [= <- _]. apply (f_equal length) in Hc. rewrite length_map in Hc.
  unfold list_len. rewrite Hc. vm_compute. discriminate.
Qed.

Lemma real_lease_probe_advances path : advances (real_lease_probe (host := production_host) path).
Proof. pose proof (acquire_advances (host := production_registry)). unfold real_lease_probe, probe_archive_lease. advance. Qed.

Lemma cleanup_spares_the_living_witness :
  exists preview finish candidates middle, sample_preview = Some (Ok preview, finish) /\
    map cr_selected (pv_runs preview) = [true; true] /\
    discover_with (host := production_registry) production 0%nat = Some (Ok candidates, middle) /\
    Forall (fun r => cr_selected r = true ->
      exists c from to, c ∈ candidates /\ cr_path r = candidate_path c /\ (middle <= from)%nat /\
        ownerless (host := production_host) c from to) (pv_runs preview).
Proof.
  assert (Hp : exists preview finish, sample_preview = Some (Ok preview, finish) /\ map cr_selected (pv_runs preview) = [true; true])
    by (eexists _, _; split; [vm_compute; reflexivity|reflexivity]).
  destruct Hp as (preview & finish & Hp & Hs).
  destruct (cleanup_spares_the_living (host := production_host) (real_lease_probe (host := production_host)) real_lease_probe_advances
    3%nat production (Spec_OlderThan (86400 * NANOS)) (1800000000 * NANOS) 0%nat preview finish production_lists_once I sample_discovered Hp)
    as (candidates & middle & Hd & Hf).
  exists preview, finish, candidates, middle. split; [exact Hp|]. split; [exact Hs|]. split; [exact Hd|].
  eapply Forall_impl; [exact Hf|]. intros r Hr Hsel. destruct (Hr Hsel) as (c & run_id & from & to & Hc & _ & _ & _ & Hpath & Hle & _ & Ho & _).
  exists c, from, to. split; [exact Hc|]. split; [exact Hpath|]. split; [exact Hle|exact Ho].
Defined.

Lemma production_scannable candidates middle :
  discover_with (host := production_registry) production 0%nat = Some (Ok candidates, middle) ->
  list_len candidates <= int_max U64 /\
  forall c, c ∈ candidates -> dc_archive_present c = true -> scannable (host := production_host) 3%nat c.
Proof.
  intros Hd. split; [by eapply sample_discovered|]. destruct production_discovered as (finish & E & _). rewrite E in Hd. injection Hd as <- _.
  assert (Hpaths : map candidate_path sample_candidates = [join_path production_runs "1"; join_path production_runs "2"]) by (vm_compute; reflexivity).
  intros c Hc _. apply (list_elem_of_fmap_2 candidate_path) in Hc. change (candidate_path <$> sample_candidates) with (map candidate_path sample_candidates) in Hc.
  rewrite Hpaths in Hc. exists sample_archive.
  assert (Hname : exists name, candidate_path c = join_path production_runs name /\ name ∈ ["1"; "2"]).
  { rewrite !elem_of_cons in Hc; destruct Hc as [->|[->|[]%not_elem_of_nil]]; eexists; (split; [reflexivity|]);
      [apply list_elem_of_here|apply list_elem_of_further, list_elem_of_here]. }
  destruct Hname as (name & -> & Hname). split; [by apply sample_archive_shown|]. split; cbn; lia.
Qed.

Lemma real_lease_probe_returns path : returns (real_lease_probe (host := production_host) path).
Proof. pose proof (acquire_returns (host := production_registry)). unfold real_lease_probe, probe_archive_lease. return_all. Qed.

Lemma production_urls : UrlLaws (host := production_registry).
Proof.
  split.
  - intros text wire url. cbn. intros [= <-] [= <-]. exists "http://host". reflexivity.
  - intros value Hlen. cbn. apply Z.ltb_lt in Hlen. by rewrite Hlen.
  - intros value uri rest _ _ _ _ _ _ _ Hlen. cbn. rewrite str_len_slash, (proj2 (Z.ltb_ge _ _)) by lia. by eexists.
Qed.

Lemma production_short_urls : short_urls (host := production_registry).
Proof. intros file call content wire url _. cbn. intros [= <-] [= <-]. vm_compute. discriminate. Qed.

Lemma cleanup_preview_returns_witness :
  exists answer finish, preview_canonical_with (host := production_host) (real_lease_probe (host := production_host)) 3%nat production
    (Spec_KeepRuns 1) (1800000000 * NANOS) 0%nat = Some (answer, finish).
Proof.
  apply (cleanup_preview_returns (host := production_host)).
  - exact production_urls.
  - exact production_short_urls.
  - exact real_lease_probe_advances.
  - exact real_lease_probe_returns.
  - vm_compute. split; discriminate.
  - exact production_scannable.
Defined.
